(* ===== verification/_CoqProject ===== *)
-Q . S2P
Prelude.v
Wtf8.v
LineMap.v
PathComponents.v
PathNormal.v
PathCompare.v
PathExtension.v
Base64.v
SourceMapGenerator.v
SourceMapRoundTrip.v
Semver.v
SemverRange.v
Glob.v
GoSort.v
GoSortProps.v
OrderedMap.v
Bfs.v
BfsLevel.v
BfsProps.v
Semaphore.v
TextEdits.v
Pattern.v
BigInt.v
ScannerKinds.v
ScannerState.v
ScannerWp.v
ScannerDigits.v
ScannerEscape.v
ScannerLexemes.v
ScannerTrivia.v
ScannerComments.v
ScannerScan.v
ScannerScanSpec.v
ScannerTokens.v
ScannerRescan.v
ScannerRescanSpec.v
ScannerReplay.v
ScannerSession.v
ParserCore.v
ParserPredicates.v
ParserListBuffer.v
ParserLists.v
ParserWp.v
ParserStep.v
ParserLookAhead.v
ParserListsSpec.v
Pragmas.v
PragmasSpec.v
Escape.v
EscapeReadBack.v
TextWriter.v
TextWriterLines.v
BuildGraph.v
BuildGraphSpec.v
BuildGraphFound.v
BuildRun.v
BuildRunInv.v
BuildRunEnds.v
BaseProto.v
JsonState.v
JsonWire.v
JsonDecoder.v
JsonEncoder.v
JsonLex.v
JsonStrings.v
JsonGrammar.v
JsonNext.v
JsonWrites.v
JsonCopy.v
JsonShift.v
JsonCuts.v
JsonTransaction.v
