(* ===== verification/Prelude.v ===== *)
(** * A verification library for the TypeScript toolchain in Rust

    The repository is a port of the TypeScript compiler and language server from
    Go: a workspace of crates under [src/crates/]. This library models the
    crates at the bottom of it, on which the parser, the checker, the emitter and
    the language server stand, and proves what those rely on. Paths below are
    relative to [src/crates/].

    ** How the parts fit together

    Text is bytes. [tsr_jsstring] decodes them to code points, a superset of
    UTF-8 in which a lone surrogate has three bytes; [tsr_scanner] turns a source
    text into tokens over that decoder and [tsr_parser] asks it for them, ahead
    and back again, to decide what it reads; [tsr_core] and [tsr_tspath] hold paths,
    ordered collections, sorting, text ranges and edits and the thread helpers;
    [tsr_semver] and [tsr_glob] serve module resolution and the server's file
    watching; [tsr_sourcemap] writes and reads the source maps of the emitter and
    [tsr_printer] has the writers it prints with; [tsr_json] and, over it,
    [tsr_jsonrpc] carry what server and client say; [tsr_build] runs the compiler
    over projects that refer to each other.

    ** The files

    - [Prelude]: bytes and strings, machine integers (a [w]-bit value is the [Z]
      it denotes, wrap-around written out by [wrap_u] and [wrap_s]), the [result]
      type and the option monad, search and split functions of byte strings with
      their laws, comparison functions and what makes them total orders, the
      hints and tactics of the library.
    - [Wtf8]: [tsr_jsstring/src/wtf8.rs] and [classify.rs]. Decoding and encoding
      a rune are mutually inverse exactly on well-formed input; joining the
      surrogate pairs of a text is what recoding its code points as UTF-16 does.
    - [LineMap]: [line_map.rs], [position_map.rs] and the source maps' [lineinfo.rs].
      Line starts are increasing and complete, the binary search finds the line,
      byte and UTF-16 positions convert back and forth.
    - [PathComponents], [PathNormal], [PathCompare], [PathExtension]:
      [tsr_core/src/path.rs], [tsr_tspath/src] and the comparisons of
      [tsr_jsstring]. Normalising is idempotent, the component reducers agree,
      relative paths lead where they say, the comparisons are orders. The Unicode
      case tables are generated data, seen through the class [CaseTables]: the two
      lookups and the laws the code relies on.
    - [Base64], [SourceMapGenerator], [SourceMapRoundTrip]:
      [tsr_sourcemap/src]. The generator is a state record with one pending
      mapping; it refines the list of mappings it was given, and the decoder reads
      that list back.
    - [Semver], [SemverRange]: [tsr_semver/src].
      Printing and parsing, the precedence order, the ranges and their desugaring.
    - [Glob]: [tsr_glob/src/lib.rs], parser, printer and matcher.
    - [GoSort], [GoSortProps]: [tsr_core/src/go_sort.rs], a pattern-defeating
      quicksort that sorts, ends and does not panic.
    - [OrderedMap]: [tsr_core/src/collections]; the deque of
      keys and the value table implement an ordered association list.
    - [Bfs], [BfsLevel], [BfsProps]: [tsr_core/src/bfs.rs]. One step is one shared
      access of one thread; every interleaving ends with the same answer, which is
      the one of a breadth-first search.
    - [Semaphore]: [tsr_core/src/semaphore.rs] as a step relation of threads
      around a mutex and a condition variable.
    - [TextEdits], [Pattern]: [text_change.rs], [ranges.rs], [pattern.rs].
    - [BigInt]: [tsr_jsnum/src/bigint.rs], the normal form of bigint literals; the
      class [NumBigint] is what it takes from the [num_bigint] crate.
    - [ScannerKinds], [ScannerState]: token kinds and spelling tables
      ([tsr_scanner/src/tables_generated.rs], [identifier.rs]), the state of the
      scanner with its checkpoints, caches and error sinks ([state.rs]), and the
      functions over texts ([utilities.rs]). A method is a computation of the monad
      [M] over the state. The keyword lookup, the printing of tokens and the binary
      search over the spellings agree.
    - [ScannerWp]: total weakest preconditions of those computations, the
      invariant [ok] of a scanner and the judgement [at_pos] of what a token's scan
      has moved.
    - [ScannerDigits] (with concrete parameters and a sample text), [ScannerEscape],
      [ScannerLexemes]: [number.rs], [escape.rs], [identifier.rs], [literal.rs], each
      function with its specification. A string literal's fast path is its loop.
    - [ScannerTrivia], [ScannerComments]: [trivia.rs]. Skipping trivia
      is idempotent; the comments around a token are handed out in order, all
      of them ([trivia]) and each to its end ([comment_span]).
    - [ScannerScan], [ScannerScanSpec], [ScannerTokens]: [scan.rs]. A scan does not
      panic, its token starts where [skip_trivia] ends, and scanning again and
      again divides the text into tokens.
    - [ScannerRescan], [ScannerRescanSpec]: [rescan.rs], the larger operators, regular
      expressions (as far as they are delimited), templates, JSX and JSDoc tokens.
    - [ScannerSession], [ScannerReplay]: clients of a scanner.
      A session is any sequence of its operations that keeps what they ask of a
      caller; none panics. Two scanners that agree on text, settings and state read
      the same whatever their caches hold, so going back to a checkpoint undoes
      what was read since.
    - [ParserCore]: the parser under its grammar ([tsr_parser/src/state.rs], [tokens.rs],
      [diagnostics.rs]): its state, a computation of the monad [P] over it, the
      diagnostics it collects, its checkpoints and the operations on tokens. The
      factory that builds nodes is the class [ParserFactory].
    - [ParserPredicates]: the questions the grammar asks about the tokens ahead
      ([predicates.rs], [modifiers.rs], [ambiguity.rs] and those of the grammar's
      files); [ParserLookAhead] shows that each leaves the parser where it was.
    - [ParserListBuffer], [ParserLists], [ParserListsSpec]: [list_buffer.rs] and
      [lists.rs]. The buffer is the list of what was put into it; lists end, with
      their recovery from tokens that no list takes, for any element parser.
    - [ParserWp], [ParserStep], [ParserLookAhead]: what a parser must be to stand at
      a token ([fit]), and the judgement [steps]: two parsers that differ only in
      what their scanners cached carry out a computation in step. Sessions of token
      operations are safe, and a look-ahead leaves no trace.
    - [Pragmas], [PragmasSpec]: [pragmas.rs], the directives in the comments before
      the first token, and the fields of the file they set.
    - [Escape], [EscapeReadBack]: [tsr_jsstring/src/escape.rs], the
      escaping of literal text with its flags. Read as string literals are, what
      has been escaped is the text again.
    - [TextWriter], [TextWriterLines]: the writers of [tsr_printer]
      ([emit_text_writer.rs], [text_writer.rs], [single_line_string_writer.rs],
      [semicolon_writer.rs]). The trait is the class [EmitTextWriter], each writer an
      instance. The line and column a writer keeps are those of the pieces it has
      written, and of the whole text where no line break is split between pieces; the one that defers a semicolon drops those before a brace or the end.
    - [BuildGraph], [BuildGraphSpec], [BuildGraphFound]: [tsr_build/src/graph.rs]
      with what it takes of [task.rs], [host.rs] and the configurations of
      [tsr_tsoptions]. All projects reachable by references become tasks, in an
      order in which each stands behind what it refers to unless there is a cycle,
      which is reported unless a reference that may be circular leads to it.
    - [BuildRun], [BuildRunInv], [BuildRunEnds]: [build_or_clean] of
      [tsr_build/src/lib.rs], the builders as threads that fetch indices from a
      counter and wait for completions; a step is one shared access. No project is
      built before what it refers to, some thread can always step until all have
      ended, and then every project has a result.
    - [BaseProto]: [tsr_jsonrpc/src/base_proto.rs], the frames of
      the base protocol. A [Source] is a reader with what it will do: cuts,
      interruptions, errors. Frames that are written are read back, and what is
      read depends on the bytes alone.
    - [JsonState], [JsonWire], [JsonDecoder], [JsonEncoder]: the JSON of [tsr_json]
      ([token.rs], [error.rs], [state.rs]; [wire.rs]; [decoder.rs]; [encoder.rs]). A
      method is a computation of the monad [St] over the state of its receiver.
    - [JsonLex], [JsonStrings], [JsonGrammar], [JsonNext]:
      what the decoder does to an input of which a part is buffered ([views]), as
      specifications by the text alone ([settles], [csettles]); the spellings of
      numbers and strings; the grammar of tokens over a stack of frames
      ([grammar_step]).
    - [JsonWrites], [JsonCopy], [JsonTransaction]: the
      encoder against that grammar. What it writes is read back, what it refuses
      leaves no trace, raw values are written whole or not at all unless the
      writer fails, and the fast path for canonical values writes what their
      tokens would.
    - [JsonShift], [JsonCuts]: a decoder whose buffer has been compacted does what it
      did before; any sequence of requests is answered from the bytes alone.

    ** Conventions

    A definition has the name of the function it models, with a suffix [_loop]
    for its loop and [_fuel] for the recursion behind it. A panic of the source
    (an index out of range, a failed [expect], an arithmetic overflow of a debug
    build where it can happen) is [None], an [Err] of the source is [Err].
    Mutable state is a record passed along; threads are step relations.

    Loops that are not structural take fuel, computed from the length of the
    input by the definition itself wherever the source's loop is bounded by it;
    each such bound is shown to be enough by a theorem whose statement excludes
    the answer that running out gives ([sort_sorts], [glob_parse_print],
    [match_elements_no_panic], [ecma_line_starts_sorted], [graph_ends],
    [frames_round_trip] and so on). A loop over the input of the JSON decoder has
    [input_fuel], the bytes buffered and those to come: each round takes one;
    [copy_tokens] has a round for each byte of its value, [flush_loop] one for
    each event of the writer, and [fill] one for each event of the reader or byte. Only a loop that a caller's function can
    keep alive takes its fuel as an argument.

    ** Not modelled

    Generated code and data (node tables, factories, protocol types, diagnostics,
    Unicode tables), which is most of the source; the functions of the parser that
    build nodes, the binder, checker, transformers, printer and language service,
    which are over the generated syntax tree with its arena (what the parser
    decides from tokens alone is modelled, and lists are, for any element parser);
    reading a configuration and building one project (parameters of the build
    graph); processes, pipes, file systems and file watching; binary floating point.
    Allocation capacity, hashing order (never observed by what is modelled), mutex
    poisoning (ignored by the source as well) and the growing of the native stack
    are left out of the parts that are modelled.

    ** Plan

    The order of the components is from the texts upwards. Modelled are the crates
    of text, paths, versions, globs, source maps, escaping, writers, framing and
    JSON, the collections and thread helpers of [tsr_core], the scanner, the parser
    as far as it depends on tokens, and the graph and the builders of [tsr_build].
    What can follow without a model of the syntax tree: the position lookup of the
    source mapper, the regular-expression checker of the scanner, the work groups of
    [tsr_core], the reference-counted caches of [tsr_project] and module resolution
    over a virtual file system. *)

From Stdlib Require Export ZArith Lia Bool Ascii String.
From stdpp Require Export base numbers list option strings.

#[export] Set Default Goal Selector "!".

(** ** Scope of the development's notations *)

Declare Scope tsr_scope.
Delimit Scope tsr_scope with tsr.

(** The lemmas that close the routine side conditions of the development. *)
Create HintDb tsr.

(** ** Machine integers

    A machine integer is the [Z] it denotes; the arithmetic that can wrap in
    the source ([wrapping_add], [as u8], ...) goes through one of these. *)

Definition wrap_u (w z : Z) : Z := z mod 2 ^ w.
Definition wrap_s (w z : Z) : Z := (z + 2 ^ (w - 1)) mod 2 ^ w - 2 ^ (w - 1).

Abbreviation wrap_u8 := (wrap_u 8).
Abbreviation wrap_u32 := (wrap_u 32).
Abbreviation wrap_i32 := (wrap_s 32).
(** [isize] and [i64] on the 64-bit targets the repository releases for. *)
Abbreviation wrap_i64 := (wrap_s 64).

Abbreviation U32_MAX := 4294967295%Z (only parsing).
Abbreviation I32_MAX := 2147483647%Z (only parsing).
Abbreviation U64_MAX := 18446744073709551615%Z (only parsing).
Abbreviation I64_MAX := 9223372036854775807%Z (only parsing).

Definition in_u (w z : Z) : Prop := (0 <= z < 2 ^ w)%Z.
Definition in_s (w z : Z) : Prop := (- 2 ^ (w - 1) <= z < 2 ^ (w - 1))%Z.

Lemma wrap_u_id w z : in_u w z → wrap_u w z = z.
Proof. apply Z.mod_small. Qed.

Lemma wrap_u_range w z : (0 <= w)%Z → in_u w (wrap_u w z).
Proof. intros Hw. apply Z.mod_pos_bound, Z.pow_pos_nonneg; lia. Qed.

Lemma pow2_succ_pred w : (0 < w)%Z → (2 ^ w = 2 * 2 ^ (w - 1))%Z.
Proof. intros Hw. rewrite <-Z.pow_succ_r by lia. f_equal; lia. Qed.

Lemma wrap_s_id w z : (0 < w)%Z → in_s w z → wrap_s w z = z.
Proof.
  intros Hw Hz. unfold in_s in Hz. unfold wrap_s.
  rewrite Z.mod_small; [lia|]. rewrite (pow2_succ_pred w Hw). lia.
Qed.

Lemma wrap_s_range w z : (0 < w)%Z → in_s w (wrap_s w z).
Proof.
  intros Hw. unfold in_s, wrap_s.
  pose proof (Z.mod_pos_bound (z + 2 ^ (w - 1)) (2 ^ w)
                (Z.pow_pos_nonneg 2 w ltac:(lia) ltac:(lia))) as Hb.
  rewrite (pow2_succ_pred w Hw) in Hb at 3. lia.
Qed.

(** [lia] with the range of the common widths as literals. *)
Lemma wrap_i64_id z :
  (-9223372036854775808 <= z <= 9223372036854775807)%Z → wrap_i64 z = z.
Proof. intros Hz. apply wrap_s_id; unfold in_s; lia. Qed.

Lemma wrap_i32_id z : (-2147483648 <= z <= 2147483647)%Z → wrap_i32 z = z.
Proof. intros Hz. apply wrap_s_id; unfold in_s; lia. Qed.

Lemma wrap_u32_id z : (0 <= z <= 4294967295)%Z → wrap_u32 z = z.
Proof. intros Hz. apply wrap_u_id. unfold in_u. lia. Qed.

Lemma wrap_u8_id z : (0 <= z < 256)%Z → wrap_u8 z = z.
Proof. intros Hz. apply wrap_u_id. unfold in_u. lia. Qed.

(** ** Bit operations as arithmetic *)

Lemma lor_disjoint_add n a b :
  (0 <= n)%Z → (0 <= b < 2 ^ n)%Z → (2 ^ n | a)%Z → Z.lor a b = (a + b)%Z.
Proof.
  intros Hn Hb [k ->]. symmetry. apply Z.add_nocarry_lor.
  apply Z.bits_inj'; intros i Hi. rewrite Z.land_spec, Z.bits_0.
  destruct (Z.ltb_spec i n).
  - rewrite Z.mul_pow2_bits_low by lia. done.
  - rewrite <-(Z.mod_small b (2 ^ n)) by lia.
    rewrite Z.mod_pow2_bits_high by lia. apply andb_false_r.
Qed.

Lemma shiftl_lor_add n a b :
  (0 <= n)%Z → (0 <= b < 2 ^ n)%Z → Z.lor (Z.shiftl a n) b = (a * 2 ^ n + b)%Z.
Proof.
  intros Hn Hb. rewrite Z.shiftl_mul_pow2 by lia.
  rewrite (lor_disjoint_add n); [lia|lia|lia|]. apply Z.divide_factor_r.
Qed.

Lemma land_mask n mask a : (0 <= n)%Z → mask = Z.ones n → Z.land a mask = (a mod 2 ^ n)%Z.
Proof. intros ? ->. by apply Z.land_ones. Qed.

Lemma land_31 a : Z.land a 31 = (a mod 32)%Z.
Proof. apply (land_mask 5); done. Qed.
Lemma land_63 a : Z.land a 63 = (a mod 64)%Z.
Proof. apply (land_mask 6); done. Qed.
Lemma land_15 a : Z.land a 15 = (a mod 16)%Z.
Proof. apply (land_mask 4); done. Qed.
Lemma land_7 a : Z.land a 7 = (a mod 8)%Z.
Proof. apply (land_mask 3); done. Qed.
Lemma land_1 a : Z.land a 1 = (a mod 2)%Z.
Proof. apply (land_mask 1); done. Qed.

(** ** Bytes and byte strings

    A byte is a [Z]; the functions below do not need it to be in range, and
    the theorems that do say so with [is_byte]. *)

Abbreviation bytes := (list Z).

Definition is_byte (z : Z) : Prop := (0 <= z < 256)%Z.
Abbreviation all_bytes := (Forall is_byte).

#[export] Instance is_byte_dec z : Decision (is_byte z).
Proof. unfold is_byte. apply _. Defined.

(** The bytes of a literal: [bs "ab"] is [[97; 98]]. *)
Definition ch (a : ascii) : Z := Z.of_N (N_of_ascii a).
Definition bs (s : string) : bytes := ch <$> String.list_ascii_of_string s.

Lemma ch_is_byte a : is_byte (ch a).
Proof. unfold is_byte, ch. pose proof (N_ascii_bounded a). lia. Qed.

Lemma bs_all_bytes s : all_bytes (bs s).
Proof. unfold bs. apply Forall_fmap, Forall_true. intros a. apply ch_is_byte. Qed.

#[export] Hint Resolve bs_all_bytes : tsr.

(** [lo..=hi] contains [z]. *)
Definition in_range (lo hi z : Z) : bool := (lo <=? z)%Z && (z <=? hi)%Z.

Lemma in_range_true lo hi z : in_range lo hi z = true ↔ (lo <= z <= hi)%Z.
Proof. unfold in_range. rewrite andb_true_iff, !Z.leb_le. done. Qed.

Lemma in_range_false lo hi z : in_range lo hi z = false ↔ (z < lo ∨ hi < z)%Z.
Proof. unfold in_range. rewrite andb_false_iff, !Z.leb_gt. done. Qed.

Definition is_ascii (b : Z) : bool := (b <? 128)%Z.
Definition is_ascii_digit (b : Z) : bool := in_range 48 57 b.
Definition is_ascii_lowercase (b : Z) : bool := in_range 97 122 b.
Definition is_ascii_uppercase (b : Z) : bool := in_range 65 90 b.
Definition is_ascii_alphabetic (b : Z) : bool := is_ascii_lowercase b || is_ascii_uppercase b.
Definition is_ascii_alphanumeric (b : Z) : bool := is_ascii_alphabetic b || is_ascii_digit b.
Definition to_ascii_lowercase (b : Z) : Z := if is_ascii_uppercase b then (b + 32)%Z else b.

(** ** Slices: the standard-library operations the source calls on [&[u8]] *)

Definition bytes_eqb (a b : bytes) : bool := bool_decide (a = b).

Fixpoint strip_prefix (p s : bytes) : option bytes :=
  match p, s with
  | [], _ => Some s
  | x :: p', y :: s' => if (x =? y)%Z then strip_prefix p' s' else None
  | _ :: _, [] => None
  end.

Definition starts_with (p s : bytes) : bool :=
  match strip_prefix p s with Some _ => true | None => false end.

Definition strip_suffix (p s : bytes) : option bytes :=
  match strip_prefix (rev p) (rev s) with
  | Some r => Some (rev r)
  | None => None
  end.

Definition ends_with (p s : bytes) : bool :=
  match strip_suffix p s with Some _ => true | None => false end.

(** [windows(pat.len()).position(|w| w == pat)] for a nonempty [pat]. *)
Fixpoint find_sub (pat s : bytes) : option nat :=
  if starts_with pat s then Some 0
  else match s with
       | [] => None
       | _ :: s' => S <$> find_sub pat s'
       end.

(** [windows(pat.len()).any(|w| w == pat)] *)
Definition contains_sub (pat s : bytes) : bool :=
  match find_sub pat s with Some _ => true | None => false end.

(** [slice.contains(&b)] *)
Definition contains_byte (b : Z) (s : bytes) : bool := existsb (Z.eqb b) s.

(** [iter().position(f)] *)
Fixpoint position {A} (f : A → bool) (l : list A) : option nat :=
  match l with
  | [] => None
  | x :: l' => if f x then Some 0 else S <$> position f l'
  end.

(** [iter().rposition(f)] *)
Definition rposition {A} (f : A → bool) (l : list A) : option nat :=
  match position f (rev l) with
  | Some n => Some (length l - 1 - n)
  | None => None
  end.

(** [slice.split(f)]: always at least one piece, the separators dropped. *)
Fixpoint split_on {A} (f : A → bool) (l : list A) : list (list A) :=
  match l with
  | [] => [[]]
  | x :: l' =>
      if f x then [] :: split_on f l'
      else match split_on f l' with
           | [] => [[x]]
           | p :: ps => (x :: p) :: ps
           end
  end.

(** [parts.join(&sep)] *)
Fixpoint join_with {A} (sep : A) (parts : list (list A)) : list A :=
  match parts with
  | [] => []
  | [p] => p
  | p :: ps => p ++ sep :: join_with sep ps
  end.

Lemma strip_prefix_Some p s r : strip_prefix p s = Some r ↔ s = p ++ r.
Proof.
  revert s; induction p as [|x p IH]; intros s; simpl.
  - split; [intros [= ->]; done | intros ->; done].
  - destruct s as [|y s]; [done|].
    destruct (Z.eqb_spec x y) as [->|Hne].
    + rewrite IH. split; [intros ->; done | intros [= ->]; done].
    + split; [done | intros [= -> _]; done].
Qed.

Lemma strip_prefix_app p r : strip_prefix p (p ++ r) = Some r.
Proof. by apply strip_prefix_Some. Qed.

Lemma strip_suffix_Some p s r : strip_suffix p s = Some r ↔ s = r ++ p.
Proof.
  unfold strip_suffix. split.
  - destruct (strip_prefix (rev p) (rev s)) as [q|] eqn:E; [|done].
    intros [= <-]. apply strip_prefix_Some in E.
    rewrite <-(rev_involutive s), E, rev_app_distr, rev_involutive. done.
  - intros ->. rewrite rev_app_distr, strip_prefix_app, rev_involutive. done.
Qed.

Lemma starts_with_true p s : starts_with p s = true ↔ p `prefix_of` s.
Proof.
  unfold starts_with. destruct (strip_prefix p s) as [r|] eqn:E.
  - apply strip_prefix_Some in E as ->. split; [|done]. intros _. by exists r.
  - split; [done|]. intros [r ->]. by rewrite strip_prefix_app in E.
Qed.

Lemma ends_with_true p s : ends_with p s = true ↔ p `suffix_of` s.
Proof.
  unfold ends_with. destruct (strip_suffix p s) as [r|] eqn:E.
  - apply strip_suffix_Some in E as ->. split; [|done]. intros _. by exists r.
  - split; [done|]. intros [r ->].
    assert (strip_suffix p (r ++ p) = Some r) by by apply strip_suffix_Some.
    congruence.
Qed.

Lemma position_Some {A} (f : A → bool) l i :
  position f l = Some i →
  ∃ x, l !! i = Some x ∧ f x = true ∧ Forall (λ y, f y = false) (take i l).
Proof.
  revert i; induction l as [|x l IH]; intros i; simpl; [done|].
  destruct (f x) eqn:Hx.
  - intros [= <-]. exists x. repeat split; [done|constructor].
  - intros (j & Hj & ->)%fmap_Some. destruct (IH _ Hj) as (y & ? & ? & ?).
    exists y. repeat split; [done|done|]. simpl. by constructor.
Qed.

Lemma position_None {A} (f : A → bool) l :
  position f l = None ↔ Forall (λ y, f y = false) l.
Proof.
  induction l as [|x l IH]; simpl; [split; [constructor|done]|].
  rewrite Forall_cons. destruct (f x) eqn:Hx; [split; naive_solver|].
  rewrite fmap_None, IH. naive_solver.
Qed.

Lemma position_lt {A} (f : A → bool) l i : position f l = Some i → i < length l.
Proof. intros (x & Hx & _)%position_Some. by apply lookup_lt_Some in Hx. Qed.

Lemma split_on_not_nil {A} (f : A → bool) l : split_on f l ≠ [].
Proof. destruct l; simpl; [done|]. destruct (f a); [done|]. by destruct (split_on f l). Qed.

(** Joining the pieces with the separator gives the text back. *)
Lemma join_split sep (l : bytes) :
  join_with sep (split_on (λ b, (b =? sep)%Z) l) = l.
Proof.
  induction l as [|x l IH]; [done|]. cbn.
  destruct (Z.eqb_spec x sep) as [->|Hne].
  - pose proof (split_on_not_nil (λ b, (b =? sep)%Z) l).
    destruct (split_on _ l) as [|p ps]; [done|]. cbn. f_equal. exact IH.
  - pose proof (split_on_not_nil (λ b, (b =? sep)%Z) l).
    destruct (split_on _ l) as [|p [|q ps]]; [done| |]; cbn in *; by rewrite IH.
Qed.

(** No piece holds the separator. *)
Lemma split_on_pieces {A} (f : A → bool) l :
  Forall (Forall (λ x, f x = false)) (split_on f l).
Proof.
  induction l as [|x l IH]; simpl; [by repeat constructor|].
  destruct (f x) eqn:Hx; [by repeat constructor|].
  destruct (split_on f l) as [|p ps]; [by repeat constructor|].
  apply Forall_cons in IH as [??]. by repeat constructor.
Qed.

Lemma split_on_Forall {A} (P : A → Prop) (f : A → bool) l :
  Forall P l → Forall (Forall P) (split_on f l).
Proof.
  induction 1 as [|x l Hx Hl IH]; simpl; [by repeat constructor|].
  destruct (f x); [by repeat constructor|].
  destruct (split_on f l) as [|p ps]; [by repeat constructor|].
  apply Forall_cons in IH as [??]. by repeat constructor.
Qed.

Lemma join_with_Forall {A} (P : A → Prop) sep ps :
  P sep → Forall (Forall P) ps → Forall P (join_with sep ps).
Proof.
  intros Hsep. induction 1 as [|p ps Hp Hps IH]; [constructor|].
  destruct ps; [done|]. apply Forall_app. split; [done|]. by constructor.
Qed.

Lemma find_sub_Some pat s e : find_sub pat s = Some e → ∃ a b, s = a ++ pat ++ b ∧ length a = e.
Proof.
  revert e; induction s as [|x s IH]; intros e; simpl; destruct (starts_with pat _) eqn:E; try done.
  1-2: intros [= <-]; apply starts_with_true in E as [b ->]; by exists [], b.
  intros (e' & He & ->)%fmap_Some. destruct (IH _ He) as (a & b & -> & <-). by exists (x :: a), b.
Qed.

Lemma contains_sub_true pat s : contains_sub pat s = true ↔ ∃ a b, s = a ++ pat ++ b.
Proof.
  unfold contains_sub. split.
  - destruct (find_sub pat s) eqn:E; [|done]. intros _. apply find_sub_Some in E. naive_solver.
  - intros (a & b & ->). induction a as [|x a IH]; simpl.
    + assert (starts_with pat (pat ++ b) = true) as H by (apply starts_with_true; by exists b).
      by destruct (pat ++ b); simpl; rewrite H.
    + destruct (starts_with pat _); [done|]. by destruct (find_sub pat (a ++ pat ++ b)).
Qed.

Lemma split_on_piece {A} (f : A → bool) p :
  Forall (λ x, f x = false) p → split_on f p = [p].
Proof. induction 1 as [|x p Hx Hp IH]; [done|]. simpl. by rewrite Hx, IH. Qed.

Lemma split_on_app {A} (f : A → bool) p sep l :
  Forall (λ x, f x = false) p → f sep = true → split_on f (p ++ sep :: l) = p :: split_on f l.
Proof.
  intros Hp Hs. induction Hp as [|x p Hx Hp IH]; simpl; [by rewrite Hs|].
  by rewrite Hx, IH.
Qed.

(** Splitting the join of separator-free pieces gives the pieces back. *)
Lemma split_join (sep : Z) ps :
  ps ≠ [] → Forall (Forall (λ x, (x =? sep)%Z = false)) ps →
  split_on (λ b, (b =? sep)%Z) (join_with sep ps) = ps.
Proof.
  intros Hne Hps. induction Hps as [|p ps Hp Hps IH]; [done|].
  destruct ps as [|q ps]; [by apply split_on_piece|].
  change (join_with sep (p :: q :: ps)) with (p ++ sep :: join_with sep (q :: ps)).
  rewrite split_on_app by (done || by rewrite Z.eqb_refl). by rewrite IH.
Qed.

Lemma bytes_eqb_true a b : bytes_eqb a b = true ↔ a = b.
Proof. apply bool_decide_eq_true. Qed.
Lemma bytes_eqb_false a b : bytes_eqb a b = false ↔ a ≠ b.
Proof. apply bool_decide_eq_false. Qed.

(** ** Comparisons: [Ordering::then_with] and the slice order *)

Definition then_with (a b : comparison) : comparison :=
  match a with Eq => b | _ => a end.

(** The lexicographic order of slices. *)
Fixpoint list_cmp {A} (cmp : A → A → comparison) (a b : list A) : comparison :=
  match a, b with
  | [], [] => Eq
  | [], _ :: _ => Lt
  | _ :: _, [] => Gt
  | x :: a', y :: b' => then_with (cmp x y) (list_cmp cmp a' b')
  end.

Notation bytes_cmp := (list_cmp Z.compare).

(** A comparator that is a total preorder, and one that is a total order. *)
Class TotalCmp {A} (cmp : A → A → comparison) : Prop := {
  cmp_refl x : cmp x x = Eq;
  cmp_opp x y : cmp y x = CompOpp (cmp x y);
  cmp_lt_trans x y z : cmp x y = Lt → cmp y z = Lt → cmp x z = Lt;
  cmp_eq_compat x y z : cmp x y = Eq → cmp x z = cmp y z;
}.

Class TotalOrderCmp {A} (cmp : A → A → comparison) : Prop := {
  total_order_cmp :: TotalCmp cmp;
  cmp_eq x y : cmp x y = Eq → x = y;
}.

#[export] Instance Z_compare_total : TotalOrderCmp Z.compare.
Proof.
  split; [split|].
  - apply Z.compare_refl.
  - intros x y. apply Z.compare_antisym.
  - intros x y z. rewrite !Z.compare_lt_iff. lia.
  - intros x y z ->%Z.compare_eq_iff. done.
  - intros x y. apply Z.compare_eq_iff.
Qed.

Lemma cmp_gt_lt {A} (cmp : A → A → comparison) `{!TotalCmp cmp} x y :
  cmp x y = Gt ↔ cmp y x = Lt.
Proof. rewrite (cmp_opp (cmp := cmp) x y). destruct (cmp x y); naive_solver. Qed.

Lemma cmp_eq_trans_l {A} (cmp : A → A → comparison) `{!TotalCmp cmp} x y z :
  cmp x y = Lt → cmp y z = Eq → cmp x z = Lt.
Proof.
  intros Hxy Hyz. rewrite (cmp_opp (cmp := cmp) z x).
  assert (cmp z y = Eq) as Hzy by (by rewrite (cmp_opp (cmp := cmp) y z), Hyz).
  rewrite (cmp_eq_compat (cmp := cmp) z y x Hzy), (cmp_opp (cmp := cmp) x y), Hxy. done.
Qed.

#[export] Instance list_cmp_total {A} (cmp : A → A → comparison) `{!TotalCmp cmp} :
  TotalCmp (list_cmp cmp).
Proof.
  split.
  - induction x as [|x a IH]; [done|]. simpl. by rewrite cmp_refl.
  - intros x y. revert y; induction x as [|x a IH]; intros [|y b]; simpl; try done.
    rewrite IH, (cmp_opp (cmp := cmp) x y). by destruct (cmp x y).
  - intros x y z. revert y z; induction x as [|x a IH]; intros [|y b] [|z c]; simpl; try done.
    destruct (cmp x y) eqn:E1; simpl; [|intros _|done].
    + rewrite (cmp_eq_compat (cmp := cmp) x y z E1). intros E2.
      destruct (cmp y z); simpl; [by apply (IH b c)|done..].
    + destruct (cmp y z) eqn:E2; simpl; [|intros _|done].
      * intros _. by rewrite (cmp_eq_trans_l cmp x y z).
      * by rewrite (cmp_lt_trans (cmp := cmp) x y z).
  - intros x y z. revert y z; induction x as [|x a IH]; intros [|y b] [|z c]; simpl; try done.
    destruct (cmp x y) eqn:E1; simpl; [|done..]. intros E2.
    by rewrite (cmp_eq_compat (cmp := cmp) x y z E1), (IH b c).
Qed.

#[export] Instance list_cmp_order {A} (cmp : A → A → comparison) `{!TotalOrderCmp cmp} :
  TotalOrderCmp (list_cmp cmp).
Proof.
  split; [apply _|]. induction x as [|x a IH]; intros [|y b]; simpl; try done.
  destruct (cmp x y) eqn:E; simpl; [|done..]. apply (cmp_eq (cmp := cmp)) in E as ->.
  intros ?. by rewrite (IH b).
Qed.

(** A comparator through a key is one on the keys. *)
Lemma key_cmp_total {A B} (key : A → B) (cmp : B → B → comparison) `{!TotalCmp cmp} :
  TotalCmp (λ x y, cmp (key x) (key y)).
Proof.
  split; intros *; [apply cmp_refl|apply cmp_opp|apply cmp_lt_trans|apply cmp_eq_compat].
Qed.

Lemma then_cmp_total {A} (c1 c2 : A → A → comparison) `{!TotalCmp c1, !TotalCmp c2} :
  TotalCmp (λ x y, then_with (c1 x y) (c2 x y)).
Proof.
  split.
  - intros x. by rewrite !cmp_refl.
  - intros x y. rewrite (cmp_opp (cmp := c1) x y), (cmp_opp (cmp := c2) x y). by destruct (c1 x y).
  - intros x y z. destruct (c1 x y) eqn:E1; simpl; [|intros _|done].
    + rewrite (cmp_eq_compat (cmp := c1) x y z E1). intros E2.
      destruct (c1 y z); simpl; [|done..]. by apply cmp_lt_trans.
    + destruct (c1 y z) eqn:E2; simpl; [|intros _|done].
      * intros _. by rewrite (cmp_eq_trans_l c1 x y z).
      * by rewrite (cmp_lt_trans (cmp := c1) x y z).
  - intros x y z. destruct (c1 x y) eqn:E1; simpl; [|done..]. intros E2.
    by rewrite (cmp_eq_compat (cmp := c1) x y z E1), (cmp_eq_compat (cmp := c2) x y z E2).
Qed.

(** ** Results: [Result<A, E>] of the source *)

Inductive result (E A : Type) : Type :=
| Ok (a : A)
| Err (e : E).
Arguments Ok {E A} _.
Arguments Err {E A} _.

#[export] Instance result_ret {E} : MRet (result E) := @Ok E.
#[export] Instance result_bind {E} : MBind (result E) := λ A B f m,
  match m with Ok a => f a | Err e => Err e end.

Definition ok {E A} (r : result E A) : option A :=
  match r with Ok a => Some a | Err _ => None end.

(** [opt.ok_or(e)] *)
Definition ok_or {E A} (e : E) (o : option A) : result E A :=
  match o with Some a => Ok a | None => Err e end.

(** ** Updating one field of a state record

    A record [R] that declares its eta expansion as an [Eta R] instance gets
    [r <| field := v |>] for every field: the assignment [self.field = v]. *)

Class Eta (R : Type) := eta : R → R.
Class FieldSetter {R E : Type} (field : R → E) := set_field : E → R → R.
#[global] Hint Mode FieldSetter ! ! ! : typeclass_instances.

Ltac solve_field_setter :=
  lazymatch goal with
  | |- @FieldSetter ?R ?E ?field =>
      let inst := constr:(_ : Eta R) in
      let inst := lazymatch inst with ?i => let h := eval red in i in h end in
      let v := fresh "v" in
      let r := fresh "r" in
      unfold FieldSetter; intros v r;
      let body := eval cbv beta in (inst r) in
      let body := eval pattern (field r) in body in
      lazymatch body with ?g _ => let t := eval cbv beta in (g v) in exact t end
  end.
#[export] Hint Extern 1 (FieldSetter _) => solve_field_setter : typeclass_instances.

Notation "r <| field := v |>" := (set_field (field := field) v r)
  (at level 12, left associativity, format "r <| field  :=  v |>").

(** ** Automation *)

(** Case analysis on every boolean test and comparison in sight, then [lia]. *)
Ltac zbool :=
  repeat match goal with
  | H : context [(?x <? ?y)%Z] |- _ => destruct (Z.ltb_spec x y)
  | H : context [(?x <=? ?y)%Z] |- _ => destruct (Z.leb_spec x y)
  | H : context [(?x =? ?y)%Z] |- _ => destruct (Z.eqb_spec x y)
  | |- context [(?x <? ?y)%Z] => destruct (Z.ltb_spec x y)
  | |- context [(?x <=? ?y)%Z] => destruct (Z.leb_spec x y)
  | |- context [(?x =? ?y)%Z] => destruct (Z.eqb_spec x y)
  end; cbn [andb orb negb] in *.

(** [lia] over division and remainder by constants. *)
Ltac zdiv := Z.to_euclidean_division_equations; lia.

(** Splits the [if]s one test at a time, keeping each test as an equation
    ([lia] reads the boolean connectives). *)
Ltac if_split :=
  repeat match goal with
  | H : context [if ?c then _ else _] |- _ => destruct c eqn:?; try discriminate H
  | |- context [if ?c then _ else _] => destruct c eqn:?
  end.

Ltac zlia := unfold in_range in *; zbool; try lia.

(** Splits a [None]/[Some] or [Ok]/[Err] equation of a monadic computation. *)
Ltac inv_result :=
  repeat match goal with
  | H : Ok _ = Ok _ |- _ => injection H as H
  | H : Err _ = Err _ |- _ => injection H as H
  | H : Ok _ = Err _ |- _ => discriminate H
  | H : Err _ = Ok _ |- _ => discriminate H
  | H : mbind _ ?m = Ok _ |- _ => destruct m eqn:?; simpl in H
  end.

(** Replaces the code of every character literal by its number. *)
Ltac chars :=
  repeat match goal with
  | |- context [ch ?a] => is_ground a; let v := eval vm_compute in (ch a) in change (ch a) with v
  | H : context [ch ?a] |- _ =>
      is_ground a; let v := eval vm_compute in (ch a) in change (ch a) with v in H
  end.
