(* ===== verification/Wtf8.v ===== *)
(** The rune codec of [crates/tsr_jsstring/src/wtf8.rs] and the character
    classes of [classify.rs]: standard UTF-8 decoding, the decoding that also
    accepts a lone surrogate written as three bytes, the encoder, and the pass
    that joins surrogate pairs. *)

From S2P Require Import Prelude.

Local Open Scope Z_scope.

(** ** Constants *)

Definition RUNE_ERROR : Z := 0xfffd.
Definition SURROGATE_UTF8_LEAD : Z := 0xed.
Definition SURROGATE_UTF8_SECOND_MIN : Z := 0xa0.
Definition UTF8_CONTINUATION_MIN : Z := 0x80.
Definition UTF8_CONTINUATION_MAX : Z := 0xbf.
Definition UTF8_CONTINUATION_MASK : Z := 0x3f.

(** ** Decoding *)

(** The [match first] of [decode_utf8]: width, bounds of the second byte and
    mask of the first, [None] for a byte that starts no sequence. *)
Definition utf8_lead (first : Z) : option (nat * Z * Z * Z) :=
  if in_range 0xc2 0xdf first then Some (2%nat, 0x80, 0xbf, 0x1f)
  else if first =? 0xe0 then Some (3%nat, 0xa0, 0xbf, 0x0f)
  else if in_range 0xe1 0xec first || in_range 0xee 0xef first then Some (3%nat, 0x80, 0xbf, 0x0f)
  else if first =? 0xed then Some (3%nat, 0x80, 0x9f, 0x0f)
  else if first =? 0xf0 then Some (4%nat, 0x90, 0xbf, 0x07)
  else if in_range 0xf1 0xf3 first then Some (4%nat, 0x80, 0xbf, 0x07)
  else if first =? 0xf4 then Some (4%nat, 0x80, 0x8f, 0x07)
  else None.

Definition is_continuation (b : Z) : bool :=
  in_range UTF8_CONTINUATION_MIN UTF8_CONTINUATION_MAX b.

Definition push_continuation (rune byte : Z) : Z :=
  Z.lor (Z.shiftl rune 6) (Z.land byte UTF8_CONTINUATION_MASK).

Definition decode_utf8 (b : bytes) : Z * nat :=
  match b with
  | [] => (RUNE_ERROR, 0%nat)
  | first :: _ =>
      if first <? 0x80 then (first, 1%nat)
      else match utf8_lead first with
           | None => (RUNE_ERROR, 1%nat)
           | Some (width, second_min, second_max, mask) =>
               if (length b <? width)%nat
                  || negb (in_range second_min second_max (nth 1 b 0))
               then (RUNE_ERROR, 1%nat)
               else if existsb (λ x, negb (is_continuation x)) (drop 2 (take width b))
               then (RUNE_ERROR, 1%nat)
               else (fold_left push_continuation (drop 1 (take width b)) (Z.land first mask),
                     width)
           end
  end.

Definition decode_rune (b : bytes) : Z * nat :=
  match b with
  | b0 :: b1 :: b2 :: _ =>
      if (b0 =? SURROGATE_UTF8_LEAD)
         && in_range SURROGATE_UTF8_SECOND_MIN UTF8_CONTINUATION_MAX b1
         && in_range UTF8_CONTINUATION_MIN UTF8_CONTINUATION_MAX b2
      then (Z.lor (Z.lor 0xd000 (Z.shiftl (Z.land b1 UTF8_CONTINUATION_MASK) 6))
                  (Z.land b2 UTF8_CONTINUATION_MASK), 3%nat)
      else decode_utf8 b
  | _ => decode_utf8 b
  end.

Arguments push_continuation : simpl never.
Arguments is_continuation : simpl never.
Arguments decode_utf8 : simpl never.
Arguments decode_rune : simpl never.

(** ** Surrogates *)

Definition is_surrogate (rune : Z) : bool := in_range 0xd800 0xdfff rune.
Definition is_high_surrogate (rune : Z) : bool := in_range 0xd800 0xdbff rune.
Definition is_low_surrogate (rune : Z) : bool := in_range 0xdc00 0xdfff rune.

Definition surrogate_pair_to_code_point (high low : Z) : Z :=
  if is_high_surrogate high && is_low_surrogate low
  then Z.shiftl (high - 0xd800) 10 + low - 0xdc00 + 0x10000
  else RUNE_ERROR.

Definition code_point_to_surrogate_pair (rune : Z) : Z * Z :=
  if in_range 0x10000 0x10ffff rune
  then let value := rune - 0x10000 in
       (0xd800 + Z.shiftr value 10, 0xdc00 + Z.land value 0x3ff)
  else (RUNE_ERROR, RUNE_ERROR).

(** ** Encoding *)

(** [char::encode_utf8] of the standard library, on a scalar value. *)
Definition char_encode_utf8 (c : Z) : bytes :=
  if c <? 0x80 then [c]
  else if c <? 0x800 then
    [Z.lor 0xc0 (Z.shiftr c 6); Z.lor 0x80 (Z.land c 0x3f)]
  else if c <? 0x10000 then
    [Z.lor 0xe0 (Z.shiftr c 12); Z.lor 0x80 (Z.land (Z.shiftr c 6) 0x3f);
     Z.lor 0x80 (Z.land c 0x3f)]
  else
    [Z.lor 0xf0 (Z.shiftr c 18); Z.lor 0x80 (Z.land (Z.shiftr c 12) 0x3f);
     Z.lor 0x80 (Z.land (Z.shiftr c 6) 0x3f); Z.lor 0x80 (Z.land c 0x3f)].

(** [char::from_u32]: the scalar values. *)
Definition char_from_u32 (c : Z) : option Z :=
  if (c <=? 0x10ffff) && negb (is_surrogate c) then Some c else None.

(** The bytes [append_rune] adds to its output. *)
Definition append_rune (rune : Z) : bytes :=
  if is_surrogate rune then
    [SURROGATE_UTF8_LEAD;
     Z.lor UTF8_CONTINUATION_MIN (Z.land (wrap_u8 (Z.shiftr rune 6)) UTF8_CONTINUATION_MASK);
     Z.lor UTF8_CONTINUATION_MIN (Z.land (wrap_u8 rune) UTF8_CONTINUATION_MASK)]
  else char_encode_utf8 (default RUNE_ERROR (char_from_u32 (wrap_u32 rune))).

Definition encode_rune (rune : Z) : bytes := append_rune rune.

(** ** Iteration *)

(** [CodePoints::next]: the rune and what remains, [None] at the end. *)
Definition code_points_next (remaining : bytes) : option (Z * bytes) :=
  let '(rune, width) := decode_rune remaining in
  if (width =? 0)%nat then None else Some (rune, drop width remaining).

Fixpoint code_points_fuel (fuel : nat) (remaining : bytes) : list Z :=
  match fuel with
  | O => []
  | S fuel =>
      match code_points_next remaining with
      | None => []
      | Some (rune, rest) => rune :: code_points_fuel fuel rest
      end
  end.

(** Every step consumes a byte, so the length of the text is enough fuel. *)
Definition code_points (b : bytes) : list Z := code_points_fuel (length b) b.

(** The loop of [combine_surrogate_pairs], from the current offset on. *)
Fixpoint combine_loop (fuel : nat) (rest : bytes) : bytes :=
  match fuel with
  | O => []
  | S fuel =>
      match rest with
      | [] => []
      | _ :: _ =>
          let '(rune, width) := decode_rune rest in
          let single := take width rest ++ combine_loop fuel (drop width rest) in
          if is_high_surrogate rune then
            let '(low, low_width) := decode_rune (drop width rest) in
            if is_low_surrogate low then
              append_rune (surrogate_pair_to_code_point rune low)
                ++ combine_loop fuel (drop (width + low_width) rest)
            else single
          else single
      end
  end.

Definition combine_surrogate_pairs (b : bytes) : bytes :=
  if existsb (Z.eqb SURROGATE_UTF8_LEAD) b then combine_loop (length b) b else b.

(** ** Character classes ([classify.rs]) *)

Definition is_digit (c : Z) : bool := in_range (ch "0") (ch "9") c.
Definition is_octal_digit (c : Z) : bool := in_range (ch "0") (ch "7") c.
Definition is_hex_digit (c : Z) : bool :=
  is_digit c || in_range (ch "a") (ch "f") c || in_range (ch "A") (ch "F") c.
Definition is_ascii_letter (c : Z) : bool :=
  in_range (ch "a") (ch "z") c || in_range (ch "A") (ch "Z") c.

Definition is_line_break (c : Z) : bool :=
  (c =? 0x0a) || (c =? 0x0d) || (c =? 0x2028) || (c =? 0x2029).

Definition is_white_space_single_line (c : Z) : bool :=
  (c =? 0x20) || (c =? 0x09) || (c =? 0x0b) || (c =? 0x0c) || (c =? 0x85) || (c =? 0xa0)
  || (c =? 0x1680) || in_range 0x2000 0x200b c || (c =? 0x202f) || (c =? 0x205f)
  || (c =? 0x3000) || (c =? 0xfeff).

Definition is_white_space_like (c : Z) : bool :=
  is_white_space_single_line c || is_line_break c.

(** ** The codec as arithmetic *)

Lemma push_continuation_arith rune byte :
  push_continuation rune byte = rune * 64 + byte mod 64.
Proof.
  unfold push_continuation, UTF8_CONTINUATION_MASK. rewrite land_63.
  apply (shiftl_lor_add 6); [lia|]. apply Z.mod_pos_bound; lia.
Qed.

Lemma lor_cont x : Z.lor 0x80 (x mod 64) = 128 + x mod 64.
Proof.
  apply (lor_disjoint_add 6); [lia|apply Z.mod_pos_bound; lia|by exists 2].
Qed.

Lemma lor_lead2 x : 0 <= x < 32 → Z.lor 0xc0 x = 192 + x.
Proof. intros. apply (lor_disjoint_add 5); [lia|lia|by exists 6]. Qed.
Lemma lor_lead3 x : 0 <= x < 16 → Z.lor 0xe0 x = 224 + x.
Proof. intros. apply (lor_disjoint_add 4); [lia|lia|by exists 14]. Qed.
Lemma lor_lead4 x : 0 <= x < 8 → Z.lor 0xf0 x = 240 + x.
Proof. intros. apply (lor_disjoint_add 3); [lia|lia|by exists 30]. Qed.

(** The encoder with its bit operations as divisions. *)
Definition utf8_arith (c : Z) : bytes :=
  if c <? 128 then [c]
  else if c <? 2048 then [192 + c / 64; 128 + c mod 64]
  else if c <? 65536 then [224 + c / 4096; 128 + c / 64 mod 64; 128 + c mod 64]
  else [240 + c / 262144; 128 + c / 4096 mod 64; 128 + c / 64 mod 64; 128 + c mod 64].

Lemma char_encode_utf8_arith c :
  0 <= c <= 0x10ffff → char_encode_utf8 c = utf8_arith c.
Proof.
  intros Hc. unfold char_encode_utf8, utf8_arith.
  rewrite !Z.shiftr_div_pow2 by lia. change (2 ^ 6) with 64.
  change (2 ^ 12) with 4096. change (2 ^ 18) with 262144.
  rewrite !land_63, !lor_cont. zbool; try done.
  - rewrite lor_lead2 by zdiv. done.
  - rewrite lor_lead3 by zdiv. done.
  - rewrite lor_lead4 by zdiv. done.
Qed.

Lemma append_rune_arith c :
  0 <= c <= 0x10ffff → append_rune c = utf8_arith c.
Proof.
  intros Hc. unfold append_rune. destruct (is_surrogate c) eqn:Hs.
  - unfold is_surrogate in Hs. apply in_range_true in Hs.
    unfold UTF8_CONTINUATION_MIN, UTF8_CONTINUATION_MASK, SURROGATE_UTF8_LEAD.
    rewrite !land_63, !lor_cont, Z.shiftr_div_pow2 by lia.
    unfold utf8_arith. zbool; try lia. unfold wrap_u. change (2 ^ 6) with 64.
    change (2 ^ 8) with 256. f_equal; [zdiv|]. f_equal; [zdiv|]. f_equal. zdiv.
  - rewrite wrap_u32_id by lia. unfold char_from_u32. rewrite Hs.
    destruct (Z.leb_spec c 0x10ffff); [simpl|lia].
    by apply char_encode_utf8_arith.
Qed.

(** The value of a sequence with the given lead mask. *)
Lemma fold_push1 m a : fold_left push_continuation [a] m = m * 64 + a mod 64.
Proof. apply push_continuation_arith. Qed.
Lemma fold_push2 m a b :
  fold_left push_continuation [a; b] m = (m * 64 + a mod 64) * 64 + b mod 64.
Proof. simpl. by rewrite !push_continuation_arith. Qed.
Lemma fold_push3 m a b c :
  fold_left push_continuation [a; b; c] m
  = ((m * 64 + a mod 64) * 64 + b mod 64) * 64 + c mod 64.
Proof. simpl. by rewrite !push_continuation_arith. Qed.

Lemma decode_utf8_ascii b rest : b < 128 → decode_utf8 (b :: rest) = (b, 1%nat).
Proof. intros. unfold decode_utf8. zbool; [done|lia]. Qed.

Lemma is_continuation_true b : is_continuation b = true ↔ 128 <= b <= 191.
Proof. apply in_range_true. Qed.

(** The three multi-byte forms, read off the table of lead bytes. *)
Lemma decode_utf8_two a b rest :
  194 <= a <= 223 → 128 <= b <= 191 →
  decode_utf8 (a :: b :: rest) = ((a - 192) * 64 + (b - 128), 2%nat).
Proof.
  intros Ha Hb. unfold decode_utf8; cbn [nth]. unfold utf8_lead, in_range.
  destruct (Z.ltb_spec a 128); [lia|].
  destruct (Z.leb_spec 0xc2 a); [|lia]. destruct (Z.leb_spec a 0xdf); [|lia].
  simpl. zbool; try lia. rewrite ?take_0. cbn [fold_left].
  rewrite push_continuation_arith, land_31. f_equal; zdiv.
Qed.

Definition valid3 (a b : Z) : Prop :=
  (a = 224 ∧ 160 <= b <= 191) ∨ (a = 237 ∧ 128 <= b <= 159)
  ∨ ((225 <= a <= 236 ∨ 238 <= a <= 239) ∧ 128 <= b <= 191).

Definition valid4 (a b : Z) : Prop :=
  (a = 240 ∧ 144 <= b <= 191) ∨ (241 <= a <= 243 ∧ 128 <= b <= 191)
  ∨ (a = 244 ∧ 128 <= b <= 143).

Lemma utf8_lead_inv a w lo hi m :
  utf8_lead a = Some (w, lo, hi, m) →
  (194 <= a <= 223 ∧ w = 2%nat ∧ lo = 128 ∧ hi = 191 ∧ m = 31)
  ∨ (w = 3%nat ∧ m = 15 ∧ ∀ b, lo <= b <= hi ↔ valid3 a b)
  ∨ (w = 4%nat ∧ m = 7 ∧ ∀ b, lo <= b <= hi ↔ valid4 a b).
Proof.
  unfold utf8_lead, valid3, valid4, in_range. intros H.
  if_split; injection H as <- <- <- <-;
    (left; lia) || (right; left; split_and!; [done|done|intros; lia])
    || (right; right; split_and!; [done|done|intros; lia]).
Qed.

Lemma utf8_lead3 a b : valid3 a b →
  ∃ lo hi, utf8_lead a = Some (3%nat, lo, hi, 15) ∧ in_range lo hi b = true.
Proof.
  unfold valid3, utf8_lead. intros H. unfold in_range at 1 2 3 4 5.
  if_split; try lia; eexists _, _; (split; [done|apply in_range_true; lia]).
Qed.

Lemma utf8_lead4 a b : valid4 a b →
  ∃ lo hi, utf8_lead a = Some (4%nat, lo, hi, 7) ∧ in_range lo hi b = true.
Proof.
  unfold valid4, utf8_lead. intros H. unfold in_range at 1 2 3 4 5.
  if_split; try lia; eexists _, _; (split; [done|apply in_range_true; lia]).
Qed.

Lemma decode_utf8_three a b c rest :
  valid3 a b → 128 <= c <= 191 →
  decode_utf8 (a :: b :: c :: rest)
  = (((a - 224) * 64 + (b - 128)) * 64 + (c - 128), 3%nat).
Proof.
  intros Hab Hc. unfold decode_utf8; cbn [nth].
  destruct (utf8_lead3 a b Hab) as (lo & hi & -> & Hr). rewrite Hr.
  assert (Hcc : is_continuation c = true) by (apply is_continuation_true; lia).
  destruct (Z.ltb_spec a 128); [unfold valid3 in Hab; lia|].
  cbn -[push_continuation is_continuation Z.land Z.mul]. rewrite Hcc. cbn -[Z.mul Z.land push_continuation].
  rewrite ?take_0; cbn [fold_left]. rewrite !push_continuation_arith, land_15. unfold valid3 in Hab. f_equal; zdiv.
Qed.

Lemma decode_utf8_four a b c d rest :
  valid4 a b → 128 <= c <= 191 → 128 <= d <= 191 →
  decode_utf8 (a :: b :: c :: d :: rest)
  = ((((a - 240) * 64 + (b - 128)) * 64 + (c - 128)) * 64 + (d - 128), 4%nat).
Proof.
  intros Hab Hc Hd. unfold decode_utf8; cbn [nth].
  destruct (utf8_lead4 a b Hab) as (lo & hi & -> & Hr). rewrite Hr.
  assert (is_continuation c = true) as Hcc by (apply is_continuation_true; lia).
  assert (is_continuation d = true) as Hdd by (apply is_continuation_true; lia).
  destruct (Z.ltb_spec a 128); [unfold valid4 in Hab; lia|].
  cbn -[push_continuation is_continuation Z.land Z.mul]. rewrite Hcc, Hdd.
  cbn -[Z.mul Z.land push_continuation].
  rewrite ?take_0; cbn [fold_left]. rewrite !push_continuation_arith, land_7. unfold valid4 in Hab. f_equal; zdiv.
Qed.

(** ** Well-formed sequences *)

Definition code_point (c : Z) : Prop := 0 <= c <= 0x10ffff.
Definition scalar (c : Z) : Prop := code_point c ∧ is_surrogate c = false.

Lemma is_surrogate_true c : is_surrogate c = true ↔ 55296 <= c <= 57343.
Proof. apply in_range_true. Qed.
Lemma is_surrogate_false c : is_surrogate c = false ↔ c < 55296 ∨ 57343 < c.
Proof. apply in_range_false. Qed.

Lemma encode_rune_arith c : code_point c → encode_rune c = utf8_arith c.
Proof. apply append_rune_arith. Qed.

Lemma utf8_arith_not_nil c : utf8_arith c ≠ [].
Proof. unfold utf8_arith. by if_split. Qed.

Lemma utf8_arith_width c : (1 <= length (utf8_arith c) <= 4)%nat.
Proof. unfold utf8_arith. if_split; simpl; lia. Qed.

(** Decoding reads back a scalar value whatever follows it. *)
Lemma decode_utf8_encoded c rest :
  scalar c → decode_utf8 (utf8_arith c ++ rest) = (c, length (utf8_arith c)).
Proof.
  intros [Hc Hs%is_surrogate_false]. unfold code_point in Hc. unfold utf8_arith.
  if_split; simpl app.
  - rewrite decode_utf8_ascii by lia. done.
  - rewrite decode_utf8_two by zdiv. f_equal. zdiv.
  - rewrite decode_utf8_three; [f_equal; zdiv| |zdiv].
    unfold valid3. zdiv.
  - rewrite decode_utf8_four; [f_equal; zdiv| |zdiv|zdiv].
    unfold valid4. zdiv.
Qed.

(** The shapes of input that decoding accepts. *)
Lemma decode_utf8_shape a b :
  decode_utf8 (a :: b) = (RUNE_ERROR, 1%nat) ∨ a < 128
  ∨ (∃ b0 t, b = b0 :: t ∧ 194 <= a <= 223 ∧ 128 <= b0 <= 191)
  ∨ (∃ b0 b1 t, b = b0 :: b1 :: t ∧ valid3 a b0 ∧ 128 <= b1 <= 191)
  ∨ (∃ b0 b1 b2 t, b = b0 :: b1 :: b2 :: t ∧ valid4 a b0 ∧ 128 <= b1 <= 191 ∧ 128 <= b2 <= 191).
Proof.
  unfold decode_utf8. destruct (Z.ltb_spec a 128); [by right; left|].
  destruct (utf8_lead a) as [[[[w lo] hi] m]|] eqn:Hl; [|by left].
  destruct ((length (a :: b) <? w)%nat || _) eqn:H2; [by left|].
  destruct (existsb _ _) eqn:H3; [by left|]. right; right.
  apply orb_false_iff in H2 as [Hlen H2]. apply Nat.ltb_ge in Hlen.
  apply negb_false_iff, in_range_true in H2.
  destruct (utf8_lead_inv a w lo hi m Hl) as [(? & -> & -> & -> & _)|[(-> & _ & Hv)|(-> & _ & Hv)]].
  - left. destruct b as [|b0 b]; [simpl in Hlen; lia|]. by exists b0, b.
  - right; left. destruct b as [|b0 [|b1 b]]; [simpl in Hlen; lia..|]. exists b0, b1, b.
    cbn in H3. rewrite orb_false_r, negb_false_iff, is_continuation_true in H3.
    split_and!; [done|by apply Hv|lia..].
  - right; right. destruct b as [|b0 [|b1 [|b2 b]]]; [simpl in Hlen; lia..|].
    exists b0, b1, b2, b. cbn in H3.
    rewrite orb_false_r, orb_false_iff, !negb_false_iff, !is_continuation_true in H3.
    split_and!; [done|by apply Hv|lia..].
Qed.

(** What decoding accepts is the encoding of the scalar it returns; anything
    else is one byte of error. *)
Lemma decode_utf8_inv b :
  all_bytes b → b ≠ [] →
  decode_utf8 b = (RUNE_ERROR, 1%nat) ∨ ∃ c rest, scalar c ∧ b = utf8_arith c ++ rest.
Proof.
  intros Hb Hne. destruct b as [|a b]; [done|]. clear Hne.
  apply Forall_cons in Hb as [Ha _]. unfold is_byte in Ha.
  unfold scalar, code_point. setoid_rewrite is_surrogate_false.
  destruct (decode_utf8_shape a b) as [H|[H|[H|[H|H]]]]; [by left|right..].
  - exists a, b. split; [lia|]. unfold utf8_arith. zbool; [done|lia..].
  - destruct H as (b0 & t & -> & Ha' & Hb0).
    exists ((a - 192) * 64 + (b0 - 128)), t. split; [lia|].
    unfold utf8_arith. zbool; try lia. cbn [app]. f_equal; [zdiv|]. f_equal. zdiv.
  - destruct H as (b0 & b1 & t & -> & Hv & Hb1). unfold valid3 in Hv.
    exists (((a - 224) * 64 + (b0 - 128)) * 64 + (b1 - 128)), t. split; [lia|].
    unfold utf8_arith. zbool; try lia. cbn [app]. f_equal; [zdiv|]. f_equal; [zdiv|]. f_equal. zdiv.
  - destruct H as (b0 & b1 & b2 & t & -> & Hv & Hb1 & Hb2). unfold valid4 in Hv.
    exists ((((a - 240) * 64 + (b0 - 128)) * 64 + (b1 - 128)) * 64 + (b2 - 128)), t.
    split; [lia|]. unfold utf8_arith. zbool; try lia.
    cbn [app]. f_equal; [zdiv|]. f_equal; [zdiv|]. f_equal; [zdiv|]. f_equal. zdiv.
Qed.

(** The same for the decoding that accepts lone surrogates. *)
Lemma decode_rune_utf8 b :
  (∀ x y rest, b = 0xed :: x :: y :: rest → ¬ (160 <= x <= 191 ∧ 128 <= y <= 191)) →
  decode_rune b = decode_utf8 b.
Proof.
  intros H. destruct b as [|a [|x [|y rest]]]; [done..|]. unfold decode_rune.
  destruct (_ && _ && _) eqn:E; [|done].
  rewrite !andb_true_iff, !in_range_true in E.
  unfold SURROGATE_UTF8_LEAD, SURROGATE_UTF8_SECOND_MIN, UTF8_CONTINUATION_MAX,
    UTF8_CONTINUATION_MIN in E. destruct E as [[->%Z.eqb_eq ?] ?].
  by destruct (H x y rest eq_refl).
Qed.

Lemma decode_rune_surrogate x y rest :
  160 <= x <= 191 → 128 <= y <= 191 →
  decode_rune (0xed :: x :: y :: rest) = (53248 + (x - 128) * 64 + (y - 128), 3%nat).
Proof.
  intros Hx Hy. unfold decode_rune.
  replace (_ && _ && _) with true.
  2: { symmetry. rewrite !andb_true_iff, !in_range_true, Z.eqb_eq.
       unfold SURROGATE_UTF8_LEAD, SURROGATE_UTF8_SECOND_MIN, UTF8_CONTINUATION_MAX,
         UTF8_CONTINUATION_MIN. lia. }
  unfold UTF8_CONTINUATION_MASK. rewrite !land_63. f_equal.
  rewrite <-Z.lor_assoc, (shiftl_lor_add 6) by (lia || apply Z.mod_pos_bound; lia).
  rewrite (lor_disjoint_add 12); [zdiv|lia|zdiv|by exists 13].
Qed.

Lemma decode_rune_encoded c rest :
  code_point c → decode_rune (utf8_arith c ++ rest) = (c, length (utf8_arith c)).
Proof.
  intros Hc. destruct (is_surrogate c) eqn:Hs.
  - apply is_surrogate_true in Hs. unfold utf8_arith. zbool; try lia.
    replace (224 + c / 4096) with 0xed by zdiv. cbn [app].
    rewrite decode_rune_surrogate by zdiv. f_equal. zdiv.
  - rewrite decode_rune_utf8; [by apply decode_utf8_encoded|].
    intros x y t Heq [Hx Hy]. unfold code_point in Hc. apply is_surrogate_false in Hs.
    unfold utf8_arith in Heq. if_split; simpl in Heq; simplify_eq; zdiv.
Qed.

Lemma decode_rune_inv b :
  all_bytes b → b ≠ [] →
  decode_rune b = (RUNE_ERROR, 1%nat) ∨ ∃ c rest, code_point c ∧ b = utf8_arith c ++ rest.
Proof.
  intros Hb Hne.
  assert ((∃ x y rest, b = 0xed :: x :: y :: rest ∧ 160 <= x <= 191 ∧ 128 <= y <= 191)
    ∨ ∀ x y rest, b = 0xed :: x :: y :: rest → ¬ (160 <= x <= 191 ∧ 128 <= y <= 191))
    as [(x & y & rest & -> & Hx & Hy)|Hno].
  { destruct b as [|a [|x [|y rest]]]; [right; naive_solver..|].
    destruct (decide (a = 0xed ∧ 160 <= x <= 191 ∧ 128 <= y <= 191)) as [[-> ?]|?];
      [left; naive_solver|right; naive_solver]. }
  { right. exists (53248 + (x - 128) * 64 + (y - 128)), rest. unfold code_point.
    split; [lia|]. unfold utf8_arith. zbool; try lia.
    cbn [app]. f_equal; [zdiv|]. f_equal; [zdiv|]. f_equal. zdiv. }
  rewrite decode_rune_utf8 by done.
  destruct (decode_utf8_inv b Hb Hne) as [?|(c & rest & [Hc _] & ->)]; [by left|].
  right. by exists c, rest.
Qed.

Lemma decode_rune_width b :
  all_bytes b → b ≠ [] → (1 <= snd (decode_rune b) <= length b)%nat.
Proof.
  intros Hb Hne. destruct (decode_rune_inv b Hb Hne) as [->|(c & rest & Hc & ->)]; simpl.
  - destruct b; simpl; [done|lia].
  - rewrite decode_rune_encoded by done. simpl. rewrite length_app.
    pose proof (utf8_arith_width c). lia.
Qed.

Lemma decode_utf8_width b :
  all_bytes b → b ≠ [] → (1 <= snd (decode_utf8 b) <= length b)%nat.
Proof.
  intros Hb Hne. destruct (decode_utf8_inv b Hb Hne) as [->|(c & rest & Hc & ->)]; simpl.
  - destruct b; simpl; [done|lia].
  - rewrite decode_utf8_encoded by done. simpl. rewrite length_app.
    pose proof (utf8_arith_width c). lia.
Qed.

(** ** Round trips of the codec *)

(** Decoding reads back every code point the encoder writes, lone
    surrogates included, with exactly the encoder's width and whatever bytes
    follow. *)
Theorem decode_rune_encode_rune c rest :
  code_point c →
  decode_rune (encode_rune c ++ rest) = (c, length (encode_rune c)).
Proof. intros Hc. rewrite encode_rune_arith by done. by apply decode_rune_encoded. Qed.

Lemma decode_rune_encode_rune_witness :
  decode_rune (encode_rune 0x1f600 ++ [0x80]) = (0x1f600, 4%nat)
  ∧ decode_rune (encode_rune 0xd800 ++ []) = (0xd800, 3%nat).
Proof.
  split; [apply (decode_rune_encode_rune 0x1f600 [0x80])|apply (decode_rune_encode_rune 0xd800 [])];
    unfold code_point; lia.
Defined.

(** Decoding accepts only canonical encodings: on a nonempty byte string it
    either reports the error rune and one byte, or the bytes it consumes are
    the encoder's output for the code point it returns (so overlong forms,
    out-of-range and truncated sequences are all errors). *)
Theorem encode_rune_decode_rune b c w :
  all_bytes b → b ≠ [] → decode_rune b = (c, w) →
  (c = RUNE_ERROR ∧ w = 1%nat) ∨ (code_point c ∧ take w b = encode_rune c).
Proof.
  intros Hb Hne Hd. destruct (decode_rune_inv b Hb Hne) as [He|(c' & rest & Hc & ->)].
  - rewrite He in Hd. left. naive_solver.
  - rewrite decode_rune_encoded in Hd by done. injection Hd as <- <-. right.
    split; [done|]. rewrite encode_rune_arith by done. by rewrite take_app_length.
Qed.

Lemma encode_rune_decode_rune_witness :
  (0xfffd = RUNE_ERROR ∧ 1%nat = 1%nat)
  ∨ (code_point 0xfffd ∧ take 1 [0xc0; 0x80] = encode_rune 0xfffd).
Proof.
  apply (encode_rune_decode_rune [0xc0; 0x80] 0xfffd 1);
    [repeat constructor; done|done|reflexivity].
Defined.

(** Splitting a supplementary code point into surrogates and joining the
    halves are inverse to each other. *)
Theorem surrogate_pair_bijection :
  (∀ c, 0x10000 <= c <= 0x10ffff →
     let '(high, low) := code_point_to_surrogate_pair c in
     is_high_surrogate high = true ∧ is_low_surrogate low = true
     ∧ surrogate_pair_to_code_point high low = c)
  ∧ (∀ high low, is_high_surrogate high = true → is_low_surrogate low = true →
     code_point_to_surrogate_pair (surrogate_pair_to_code_point high low) = (high, low)).
Proof.
  assert (∀ a, Z.land a 1023 = a mod 1024) as Hland by (intros; by apply (land_mask 10)).
  unfold code_point_to_surrogate_pair, surrogate_pair_to_code_point,
    is_high_surrogate, is_low_surrogate. split.
  - intros c Hc. replace (in_range _ _ c) with true by (symmetry; apply in_range_true; lia).
    rewrite Hland, Z.shiftr_div_pow2 by lia. change (2 ^ 10) with 1024.
    rewrite !in_range_true. split_and!; try zdiv.
    replace (_ && _) with true
      by (symmetry; rewrite andb_true_iff, !in_range_true; split_and!; zdiv).
    rewrite Z.shiftl_mul_pow2 by lia. zdiv.
  - intros high low Hh Hl. rewrite Hh, Hl. cbn [andb]. apply in_range_true in Hh, Hl.
    rewrite Z.shiftl_mul_pow2 by lia.
    replace (in_range _ _ _) with true by (symmetry; apply in_range_true; lia).
    rewrite Hland, Z.shiftr_div_pow2 by lia. f_equal; zdiv.
Qed.

(** ** Joining surrogate pairs *)

(** The sequence of runes with each adjacent high and low surrogate replaced
    by the code point the pair stands for: what joining should do, on runes. *)
Fixpoint join_pairs (runes : list Z) : list Z :=
  match runes with
  | [] => []
  | high :: tail =>
      match tail with
      | [] => [high]
      | low :: rest =>
          if is_high_surrogate high && is_low_surrogate low
          then surrogate_pair_to_code_point high low :: join_pairs rest
          else high :: join_pairs tail
      end
  end.

Lemma code_points_fuel_enough f1 f2 b :
  all_bytes b → (length b <= f1)%nat → (length b <= f2)%nat →
  code_points_fuel f1 b = code_points_fuel f2 b.
Proof.
  revert f2 b; induction f1 as [|f1 IH]; intros f2 b Hb H1 H2.
  - destruct b; [|simpl in H1; lia]. by destruct f2.
  - destruct (decide (b = [])) as [->|Hne]; [by destruct f2|].
    destruct f2 as [|f2]; [destruct b; [done|simpl in H2; lia]|].
    simpl. unfold code_points_next.
    pose proof (decode_rune_width b Hb Hne) as Hw.
    destruct (decode_rune b) as [c w] eqn:Hd. simpl in Hw.
    destruct (Nat.eqb_spec w 0) as [?|_]; [lia|]. f_equal.
    apply IH; [by apply Forall_drop|rewrite length_drop; lia..].
Qed.

Lemma code_points_encoded c rest :
  code_point c → all_bytes rest → all_bytes (utf8_arith c) →
  code_points (utf8_arith c ++ rest) = c :: code_points rest.
Proof.
  intros Hc Hr Hu. unfold code_points.
  destruct (length (utf8_arith c ++ rest)) as [|n] eqn:Hn.
  { rewrite length_app in Hn. pose proof (utf8_arith_width c). lia. }
  simpl. unfold code_points_next. rewrite decode_rune_encoded by done.
  pose proof (utf8_arith_width c). rewrite length_app in Hn.
  destruct (Nat.eqb_spec (length (utf8_arith c)) 0); [lia|].
  rewrite drop_app_length. f_equal. apply code_points_fuel_enough; [done|lia..].
Qed.

Lemma code_points_error b0 rest :
  decode_rune (b0 :: rest) = (RUNE_ERROR, 1%nat) → 
  code_points (b0 :: rest) = RUNE_ERROR :: code_points rest.
Proof. intros H. unfold code_points. simpl. unfold code_points_next. rewrite H. done. Qed.

Lemma utf8_arith_bytes c : code_point c → all_bytes (utf8_arith c).
Proof.
  unfold code_point, utf8_arith. intros Hc.
  if_split; repeat constructor; unfold is_byte; zdiv.
Qed.

(** Every byte of a sequence after the first is a continuation byte. *)
Lemma utf8_arith_tail c a t :
  code_point c → utf8_arith c = a :: t → Forall (λ x, 128 <= x < 192) t.
Proof.
  unfold code_point, utf8_arith. intros Hc.
  if_split; intros [= <- <-]; repeat constructor; zdiv.
Qed.

Lemma utf8_arith_lead c :
  128 <= c <= 0x10ffff → ∃ x t, utf8_arith c = x :: t ∧ 192 <= x.
Proof.
  intros Hc. unfold utf8_arith. if_split; try lia; eexists _, _; (split; [done|zdiv]).
Qed.

(** Two byte strings that agree up to a byte that starts a sequence. *)
Definition same_start (t t' : bytes) : Prop :=
  t = t' ∨ ∃ p x u x' u', t = p ++ x :: u ∧ t' = p ++ x' :: u' ∧ 192 <= x ∧ 192 <= x'.

Lemma same_start_app p t t' : same_start t t' → same_start (p ++ t) (p ++ t').
Proof.
  intros [->|(q & x & u & x' & u' & -> & -> & ? & ?)]; [by left|right].
  exists (p ++ q), x, u, x', u'. by rewrite <-!app_assoc.
Qed.

Lemma continuation_prefix tail rest p x u :
  Forall (λ x, 128 <= x < 192) tail → 192 <= x →
  p ++ x :: u = tail ++ rest → ∃ p', p = tail ++ p'.
Proof.
  intros Ht Hx. revert p. induction Ht as [|y tail Hy Ht IH]; intros p Heq; [by exists p|].
  destruct p as [|z p]; simpl in Heq; injection Heq as -> Heq; [lia|].
  destruct (IH p Heq) as [p' ->]. by exists p'.
Qed.

(** An error is decided by the bytes up to the next one that starts a sequence. *)
Lemma decode_rune_error_local b0 t t' :
  all_bytes (b0 :: t) → all_bytes (b0 :: t') → same_start t t' →
  decode_rune (b0 :: t) = (RUNE_ERROR, 1%nat) →
  decode_rune (b0 :: t') = (RUNE_ERROR, 1%nat).
Proof.
  intros Hb Hb' [->|(p & x & u & x' & u' & -> & -> & Hx & Hx')] He; [done|].
  destruct (decode_rune_inv _ Hb') as [?|(c & rest & Hc & Heq)]; [done|done|].
  exfalso. pose proof (utf8_arith_not_nil c) as Hne.
  destruct (utf8_arith c) as [|a tail] eqn:Hu; [done|].
  pose proof (utf8_arith_tail c a tail Hc Hu) as Htail.
  injection Heq as <- Heq.
  destruct (continuation_prefix tail rest p x' u' Htail Hx') as [p' ->]; [done|].
  pose proof (decode_rune_encoded c (p' ++ x :: u) Hc) as Hd.
  rewrite Hu in Hd. simpl in Hd. rewrite <-app_assoc in He. rewrite Hd in He.
  injection He as -> Hl. assert (length (utf8_arith RUNE_ERROR) = 1%nat) by by rewrite Hu; simpl; lia.
  done.
Qed.

Lemma high_surrogate_code_point c :
  is_high_surrogate c = true → code_point c ∧ is_surrogate c = true.
Proof.
  unfold is_high_surrogate, is_surrogate, code_point. rewrite !in_range_true. lia.
Qed.
Lemma low_surrogate_code_point c :
  is_low_surrogate c = true → code_point c ∧ is_surrogate c = true.
Proof.
  unfold is_low_surrogate, is_surrogate, code_point. rewrite !in_range_true. lia.
Qed.

Lemma pair_supplementary high low :
  is_high_surrogate high = true → is_low_surrogate low = true →
  0x10000 <= surrogate_pair_to_code_point high low <= 0x10ffff.
Proof.
  intros Hh Hl. unfold surrogate_pair_to_code_point. rewrite Hh, Hl. cbn [andb].
  unfold is_high_surrogate, is_low_surrogate in *. apply in_range_true in Hh, Hl.
  rewrite Z.shiftl_mul_pow2 by lia. lia.
Qed.

(** One step of the loop: a pair, a code point, or a byte of error. *)
Inductive combine_view : bytes → Prop :=
| view_nil : combine_view []
| view_pair high low rest :
    is_high_surrogate high = true → is_low_surrogate low = true →
    combine_view (utf8_arith high ++ utf8_arith low ++ rest)
| view_single c rest :
    code_point c →
    (is_high_surrogate c = true → is_low_surrogate (fst (decode_rune rest)) = false) →
    combine_view (utf8_arith c ++ rest)
| view_error b0 rest :
    decode_rune (b0 :: rest) = (RUNE_ERROR, 1%nat) → combine_view (b0 :: rest).

Lemma combine_view_total b : all_bytes b → combine_view b.
Proof.
  intros Hb. destruct (decide (b = [])) as [->|Hne]; [constructor|].
  destruct (decode_rune_inv b Hb Hne) as [He|(c & rest & Hc & ->)].
  { destruct b as [|b0 b]; [done|]. by constructor. }
  apply Forall_app in Hb as [_ Hb].
  destruct (is_high_surrogate c) eqn:Hh; [|by apply view_single; rewrite ?Hh].
  destruct (is_low_surrogate (fst (decode_rune rest))) eqn:Hl; [|by apply view_single].
  destruct (decide (rest = [])) as [->|Hne']; [done|].
  destruct (decode_rune_inv rest Hb Hne') as [He|(c' & rest' & Hc' & ->)].
  - rewrite He in Hl. done.
  - rewrite decode_rune_encoded in Hl by done. by apply view_pair.
Qed.

Lemma combine_loop_single f c rest :
  code_point c →
  (is_high_surrogate c = true → is_low_surrogate (fst (decode_rune rest)) = false) →
  combine_loop (S f) (utf8_arith c ++ rest) = utf8_arith c ++ combine_loop f rest.
Proof.
  intros Hc Hl. pose proof (utf8_arith_not_nil c) as Hne.
  cbn [combine_loop]. rewrite decode_rune_encoded, drop_app_length, take_app_length by done.
  destruct (utf8_arith c ++ rest) eqn:E; [by apply app_nil in E as [? _]|].
  destruct (is_high_surrogate c) eqn:Hh; [|done].
  destruct (decode_rune rest) as [low lw]. simpl in Hl. by rewrite (Hl eq_refl).
Qed.

Lemma combine_loop_pair f high low rest :
  is_high_surrogate high = true → is_low_surrogate low = true →
  combine_loop (S f) (utf8_arith high ++ utf8_arith low ++ rest)
  = utf8_arith (surrogate_pair_to_code_point high low) ++ combine_loop f rest.
Proof.
  intros Hh Hl. pose proof (utf8_arith_not_nil high) as Hne.
  destruct (high_surrogate_code_point high Hh) as [Hch _].
  destruct (low_surrogate_code_point low Hl) as [Hcl _].
  cbn [combine_loop]. rewrite decode_rune_encoded, drop_app_length by done.
  destruct (utf8_arith high ++ _) eqn:E; [by apply app_nil in E as [? _]|]. rewrite <-E.
  rewrite Hh, decode_rune_encoded by done. rewrite Hl.
  rewrite <-drop_drop, !drop_app_length.
  rewrite append_rune_arith; [done|]. pose proof (pair_supplementary high low Hh Hl). lia.
Qed.

Lemma combine_loop_error f b0 rest :
  decode_rune (b0 :: rest) = (RUNE_ERROR, 1%nat) →
  combine_loop (S f) (b0 :: rest) = b0 :: combine_loop f rest.
Proof. intros He. cbn [combine_loop]. by rewrite He. Qed.

Lemma utf8_arith_length_ge c rest : (length rest < length (utf8_arith c ++ rest))%nat.
Proof. rewrite length_app. pose proof (utf8_arith_width c). lia. Qed.

(** The loop's output starts like its input, and is a byte string. *)
Lemma combine_loop_start f b :
  (length b <= f)%nat → all_bytes b →
  same_start b (combine_loop f b) ∧ all_bytes (combine_loop f b).
Proof.
  revert b; induction f as [|f IH]; intros b Hf Hb.
  { destruct b; [|simpl in Hf; lia]. split; [by left|done]. }
  destruct (combine_view_total b Hb) as [|high low rest Hh Hl|c rest Hc Hcl|b0 rest He].
  - split; [by left|done].
  - rewrite combine_loop_pair by done.
    destruct (high_surrogate_code_point high Hh) as [Hch _].
    pose proof (pair_supplementary high low Hh Hl) as Hs.
    split.
    + right. destruct (utf8_arith_lead high) as (x & t & -> & Hx);
        [unfold is_high_surrogate in Hh; apply in_range_true in Hh; lia|].
      destruct (utf8_arith_lead (surrogate_pair_to_code_point high low)) as (y & u & -> & Hy);
        [lia|].
      exists []. by eexists _, _, _, _.
    + rewrite !length_app in Hf. apply Forall_app in Hb as [_ [_ Hb]%Forall_app].
      pose proof (utf8_arith_width high).
      apply Forall_app; split; [apply utf8_arith_bytes; unfold code_point; lia|].
      apply IH; [lia|done].
  - rewrite combine_loop_single by done. pose proof (utf8_arith_length_ge c rest).
    apply Forall_app in Hb as [Hb1 Hb2]. destruct (IH rest) as [IH1 IH2]; [lia|done|].
    split; [by apply same_start_app|by apply Forall_app].
  - rewrite combine_loop_error by done. apply Forall_cons in Hb as [Hb1 Hb2].
    simpl in Hf. destruct (IH rest) as [IH1 IH2]; [lia|done|].
    split; [by apply (same_start_app [b0])|by constructor].
Qed.

Lemma join_pairs_single c rest :
  (is_high_surrogate c = true →
     match rest with [] => True | l :: _ => is_low_surrogate l = false end) →
  join_pairs (c :: rest) = c :: join_pairs rest.
Proof.
  intros H. destruct rest as [|l rest]; [done|]. simpl.
  destruct (is_high_surrogate c); [rewrite (H eq_refl)|]; done.
Qed.

Lemma code_points_head b :
  match code_points b with [] => True | l :: _ => l = fst (decode_rune b) end.
Proof.
  unfold code_points. destruct b as [|a b]; [done|]. simpl. unfold code_points_next.
  destruct (decode_rune (a :: b)) as [c w]. by destruct (w =? 0)%nat.
Qed.

Lemma combine_loop_code_points f b :
  (length b <= f)%nat → all_bytes b →
  code_points (combine_loop f b) = join_pairs (code_points b).
Proof.
  revert b; induction f as [|f IH]; intros b Hf Hb.
  { destruct b; [done|simpl in Hf; lia]. }
  destruct (combine_view_total b Hb) as [|high low rest Hh Hl|c rest Hc Hcl|b0 rest He].
  - done.
  - rewrite combine_loop_pair by done.
    destruct (high_surrogate_code_point high Hh) as [Hch _].
    destruct (low_surrogate_code_point low Hl) as [Hcl _].
    pose proof (pair_supplementary high low Hh Hl) as Hs.
    rewrite !length_app in Hf. apply Forall_app in Hb as [_ [_ Hb]%Forall_app].
    pose proof (utf8_arith_width high). destruct (combine_loop_start f rest); [lia|done|].
    rewrite !code_points_encoded; try done;
      try apply Forall_app; try split; try apply utf8_arith_bytes;
      try done; try (unfold code_point; lia).
    rewrite IH by (done || lia). simpl. by rewrite Hh, Hl.
  - rewrite combine_loop_single by done. pose proof (utf8_arith_length_ge c rest).
    apply Forall_app in Hb as [_ Hb]. destruct (combine_loop_start f rest); [lia|done|].
    rewrite !code_points_encoded by (done || by apply utf8_arith_bytes).
    rewrite IH by (done || lia). rewrite join_pairs_single; [done|]. intros Hh.
    pose proof (code_points_head rest) as Hhd. destruct (code_points rest); [done|].
    rewrite Hhd. by apply Hcl.
  - rewrite combine_loop_error by done. simpl in Hf.
    pose proof Hb as [Hb1 Hb2]%Forall_cons.
    destruct (combine_loop_start f rest) as [Hst Hab]; [lia|done|].
    rewrite !code_points_error; [|done|].
    + rewrite IH by (done || lia). by rewrite join_pairs_single.
    + apply (decode_rune_error_local b0 rest); [done|by constructor|done|done].
Qed.

Lemma join_pairs_no_high l :
  Forall (λ c, is_high_surrogate c = false) l → join_pairs l = l.
Proof.
  induction 1 as [|c l Hc Hl IH]; [done|].
  rewrite join_pairs_single by by rewrite Hc. by rewrite IH.
Qed.

Lemma code_points_fuel_no_lead f b :
  all_bytes b → Forall (λ x, x ≠ SURROGATE_UTF8_LEAD) b →
  Forall (λ c, is_high_surrogate c = false) (code_points_fuel f b).
Proof.
  revert b; induction f as [|f IH]; intros b Hb Hl; [constructor|]. simpl.
  unfold code_points_next. destruct (decide (b = [])) as [->|Hne]; [constructor|].
  destruct (decode_rune_inv b Hb Hne) as [He|(c & rest & Hc & ->)].
  - rewrite He. simpl. constructor; [done|]. apply IH; by apply Forall_drop.
  - rewrite decode_rune_encoded by done. pose proof (utf8_arith_width c).
    destruct (Nat.eqb_spec (length (utf8_arith c)) 0); [lia|]. rewrite drop_app_length.
    apply Forall_app in Hb as [_ Hb], Hl as [Hlc Hl].
    constructor; [|by apply IH]. apply not_true_is_false. intros Hh.
    unfold is_high_surrogate in Hh. apply in_range_true in Hh.
    unfold utf8_arith in Hlc. zbool; try lia. apply Forall_cons in Hlc as [Hlc _].
    unfold SURROGATE_UTF8_LEAD in Hlc. zdiv.
Qed.

(** [C32] Joining surrogate pairs replaces every high surrogate followed by a low
    one by their code point and changes nothing else: read as code points, the
    output is [join_pairs] of the input. In particular the rewritten bytes never
    make a neighbouring malformed byte well-formed, and the early return on
    inputs without the surrogate lead byte is not observable. *)
Theorem combine_surrogate_pairs_spec b :
  all_bytes b → code_points (combine_surrogate_pairs b) = join_pairs (code_points b).
Proof.
  intros Hb. unfold combine_surrogate_pairs.
  destruct (existsb _ b) eqn:He; [by apply combine_loop_code_points|].
  symmetry. apply join_pairs_no_high. unfold code_points.
  apply code_points_fuel_no_lead; [done|]. clear Hb.
  induction b as [|x b IH]; [constructor|]. cbn [existsb] in He.
  apply orb_false_iff in He as [Hx%Z.eqb_neq He]. constructor; [congruence|by apply IH].
Qed.

Lemma combine_surrogate_pairs_spec_witness :
  code_points (combine_surrogate_pairs [0xf0; 0xed; 0xa0; 0xbd; 0xed; 0xb8; 0x80])
  = [0xfffd; 0x1f600].
Proof.
  rewrite (combine_surrogate_pairs_spec [0xf0; 0xed; 0xa0; 0xbd; 0xed; 0xb8; 0x80]);
    [reflexivity|repeat constructor; done].
Defined.

(** ** Progress on arbitrary lists *)

Lemma utf8_lead_width b w lo hi m : utf8_lead b = Some (w, lo, hi, m) → (2 <= w <= 4)%nat.
Proof. unfold utf8_lead. intros H. repeat (case_match; simplify_eq; try lia). Qed.

(** Decoding always moves forward and stays inside the text. *)
Lemma decode_utf8_step b : b ≠ [] → (1 <= snd (decode_utf8 b) <= length b)%nat.
Proof.
  destruct b as [|x b]; [done|]. intros _. unfold decode_utf8.
  destruct (x <? _); [simpl; lia|]. destruct (utf8_lead x) as [[[[w lo] hi] m]|] eqn:Hl; [|simpl; lia].
  apply utf8_lead_width in Hl. destruct (_ || _) eqn:E; [simpl; lia|].
  apply orb_false_iff in E as [E%Nat.ltb_ge _]. by destruct (existsb _ _); simpl in *; lia.
Qed.

Lemma decode_rune_step b : b ≠ [] → (1 <= snd (decode_rune b) <= length b)%nat.
Proof.
  intros Hne. pose proof (decode_utf8_step b Hne) as H.
  unfold decode_rune. destruct b as [|x [|y [|z b]]]; try done.
  destruct (_ && _); [simpl; lia|done].
Qed.

Lemma decode_rune_ascii b rest : b < 128 → decode_rune (b :: rest) = (b, 1%nat).
Proof.
  intros Hb. assert (decode_utf8 (b :: rest) = (b, 1%nat)) as E by by apply decode_utf8_ascii.
  unfold decode_rune. destruct rest as [|y [|z rest]]; try done.
  destruct (_ && _) eqn:Ec; [|done]. rewrite !andb_true_iff, Z.eqb_eq in Ec.
  unfold SURROGATE_UTF8_LEAD in Ec. lia.
Qed.
