(* ===== verification/LineMap.v ===== *)
(** Line starts and position maps: [crates/tsr_jsstring/src/line_map.rs] and
    [position_map.rs], with the line texts of [crates/tsr_sourcemap/src/lineinfo.rs].
    Offsets are [i32] ([TextPos]) or [isize] values.

    The line starts of a text that is written in pieces: [compute_ecma_line_starts] of
    [crates/tsr_jsstring/src/line_map.rs] on [a ++ b]. *)

From Stdlib Require Import Sorted.
From S2P Require Import Prelude Wtf8.

Local Open Scope Z_scope.

(** [slice.partition_point(f)] on a slice that [f] splits. *)
Fixpoint partition_point {A} (f : A → bool) (l : list A) : nat :=
  match l with
  | x :: l => if f x then S (partition_point f l) else 0
  | [] => 0
  end.

Definition is_line_break (rune : Z) : bool :=
  (rune =? 0x0A) || (rune =? 0x0D) || (rune =? 0x2028) || (rune =? 0x2029).

(** [text[i as usize]] *)
Definition byte_at (text : bytes) (i : Z) : Z := nth (Z.to_nat i) text 0.

(** ** ECMAScript lines *)

(** One turn of the scan: the offset behind the byte or sequence at
    [byte_offset], and whether it ends a line. *)
Definition ecma_step (text : bytes) (text_len byte_offset : Z) : Z * bool :=
  let byte := byte_at text byte_offset in
  if is_ascii byte then
    let byte_offset := wrap_i32 (byte_offset + 1) in
    let byte_offset :=
      if (byte =? 0x0D) && (byte_offset <? text_len) && (byte_at text byte_offset =? 0x0A)
      then wrap_i32 (byte_offset + 1) else byte_offset in
    (byte_offset, (byte =? 0x0D) || (byte =? 0x0A))
  else
    let '(rune, width) := decode_utf8 (drop (Z.to_nat byte_offset) text) in
    (wrap_i32 (byte_offset + Z.of_nat width), is_line_break rune).

Fixpoint ecma_starts_loop (fuel : nat) (text : bytes) (text_len byte_offset line_start : Z) : list Z :=
  match fuel with
  | O => [line_start]
  | S fuel =>
      if byte_offset <? text_len then
        let '(next, line_break) := ecma_step text text_len byte_offset in
        if line_break : bool then line_start :: ecma_starts_loop fuel text text_len next next
        else ecma_starts_loop fuel text text_len next line_start
      else [line_start]
  end.

(** Each turn moves forward, so one turn per byte is enough. *)
Definition ecma_line_starts_with_source_length (text : bytes) (source_length : nat) : list Z :=
  ecma_starts_loop (length text) text (wrap_i32 (Z.of_nat source_length)) 0 0.

Definition compute_ecma_line_starts (text : bytes) : list Z :=
  ecma_line_starts_with_source_length text (length text).

(** [None]: the index panics on an empty slice. *)
Definition position_to_line_and_byte_offset (position : Z) (line_starts : list Z) : option (Z * Z) :=
  let line := Nat.pred (partition_point (λ start, start <=? position) line_starts) in
  start ← line_starts !! line;
  Some (Z.of_nat line, wrap_i64 (position - start)).

(** ** LSP lines *)

Record LspLineMap := MkLspLineMap { line_starts : list Z; ascii_only : bool }.

Definition lsp_step (text : bytes) (text_len byte_offset : Z) : Z * bool * bool :=
  let byte := byte_at text byte_offset in
  if is_ascii byte then
    let byte_offset := wrap_i32 (byte_offset + 1) in
    if byte =? 0x0D then
      (if (byte_offset <? text_len) && (byte_at text byte_offset =? 0x0A)
       then wrap_i32 (byte_offset + 1) else byte_offset, true, true)
    else (byte_offset, byte =? 0x0A, true)
  else
    (wrap_i32 (byte_offset + Z.of_nat (snd (decode_utf8 (drop (Z.to_nat byte_offset) text)))),
     false, false).

Fixpoint lsp_starts_loop (fuel : nat) (text : bytes) (text_len byte_offset line_start : Z)
    (ascii : bool) : LspLineMap :=
  match fuel with
  | O => MkLspLineMap [line_start] ascii
  | S fuel =>
      if byte_offset <? text_len then
        let '(next, line_break, is_ascii) := lsp_step text text_len byte_offset in
        if line_break : bool then
          let map := lsp_starts_loop fuel text text_len next next (ascii && is_ascii) in
          MkLspLineMap (line_start :: line_starts map) (ascii_only map)
        else lsp_starts_loop fuel text text_len next line_start (ascii && is_ascii)
      else MkLspLineMap [line_start] ascii
  end.

Definition lsp_line_map_with_source_length (text : bytes) (source_length : nat) : LspLineMap :=
  lsp_starts_loop (length text) text (wrap_i32 (Z.of_nat source_length)) 0 0 true.
Definition lsp_line_map_new (text : bytes) : LspLineMap :=
  lsp_line_map_with_source_length text (length text).

Definition compute_index_of_line_start (map : LspLineMap) (target : Z) : nat :=
  let index := partition_point (λ start, start <? target) (line_starts map) in
  if negb (bool_decide (line_starts map !! index = Some target)) && (0 <? index)%nat
  then (index - 1)%nat else index.

(** ** UTF-16 lengths and the position map *)

Definition utf16_rune_len (rune : Z) : Z := if 0x10000 <=? rune then 2 else 1.

Fixpoint utf16_len_loop (fuel : nat) (rest : bytes) : Z :=
  match fuel, rest with
  | S fuel, _ :: _ =>
      let '(rune, width) := decode_utf8 rest in
      utf16_rune_len rune + utf16_len_loop fuel (drop width rest)
  | _, _ => 0
  end.
Definition utf16_len (text : bytes) : Z :=
  match position (λ b, negb (is_ascii b)) text with
  | None => Z.of_nat (length text)
  | Some n => Z.of_nat n + utf16_len_loop (length text) (drop n text)
  end.

Record PositionMapEntry := MkEntry { byte_offset : Z; delta : Z }.
Record PositionMap := MkPositionMap { map_ascii_only : bool; entries : list PositionMapEntry }.

Fixpoint position_entries (fuel : nat) (rest : bytes) (offset delta : Z) : list PositionMapEntry :=
  match fuel, rest with
  | S fuel, b :: rest' =>
      if is_ascii b then position_entries fuel rest' (offset + 1) delta
      else
        let '(rune, width) := decode_rune rest in
        let utf16_size := if 0x10000 <=? rune then 2 else 1 in
        let delta := delta + (Z.of_nat width - utf16_size) in
        let offset := offset + Z.of_nat width in
        MkEntry offset delta :: position_entries fuel (drop width rest) offset delta
  | _, _ => []
  end.

Definition position_map_new (text : bytes) : PositionMap :=
  let entries := position_entries (length text) text 0 0 in
  MkPositionMap (bool_decide (length entries = 0%nat)) entries.

(** The delta of the entry before [end], zero for none. *)
Definition delta_before (entries : list PositionMapEntry) (e : nat) : Z :=
  match e with
  | O => 0
  | S e => match entries !! e with Some entry => delta entry | None => 0 end
  end.

Definition utf8_to_utf16 (map : PositionMap) (offset : Z) : Z :=
  let e := partition_point (λ entry, byte_offset entry <=? offset) (entries map) in
  if (e =? 0)%nat then offset else wrap_i64 (offset - delta_before (entries map) e).

Definition utf16_to_utf8 (map : PositionMap) (offset : Z) : Z :=
  let e := partition_point (λ entry, byte_offset entry - delta entry <=? offset) (entries map) in
  if (e =? 0)%nat then offset else wrap_i64 (offset + delta_before (entries map) e).

(** ** Line texts ([lineinfo.rs]) *)

Record EcmaLineInfo := MkLineInfo { info_text : bytes; info_line_starts : list Z }.

Definition create_ecma_line_info (text : bytes) (line_starts : list Z) : EcmaLineInfo :=
  MkLineInfo text line_starts.
Definition line_count (info : EcmaLineInfo) : Z := Z.of_nat (length (info_line_starts info)).

(** [None]: a line or a byte range out of bounds panics. *)
Definition line_text (info : EcmaLineInfo) (line : Z) : option bytes :=
  if line <? 0 then None
  else
    pos ← info_line_starts info !! Z.to_nat line;
    let e := default (wrap_i32 (Z.of_nat (length (info_text info))))
               (if line + 1 <? line_count info
                then info_line_starts info !! Z.to_nat (line + 1) else None) in
    if (0 <=? pos) && (pos <=? e) && (e <=? Z.of_nat (length (info_text info)))
    then Some (take (Z.to_nat e - Z.to_nat pos) (drop (Z.to_nat pos) (info_text info)))
    else None.

(** ** Scans move forward and stay inside *)

Definition I32_MAX : Z := 2147483647.

(** A text whose length is a [TextPos]. *)
Definition text_pos_len (text : bytes) : Prop := Z.of_nat (length text) <= I32_MAX.

Lemma sequence_width text off :
  0 <= off < Z.of_nat (length text) →
  ∀ decode : bytes → Z * nat, (∀ b, b ≠ [] → (1 <= snd (decode b) <= length b)%nat) →
  off < off + Z.of_nat (snd (decode (drop (Z.to_nat off) text))) <= Z.of_nat (length text).
Proof.
  intros Ho decode Hd. pose proof (length_drop text (Z.to_nat off)) as Hl.
  specialize (Hd (drop (Z.to_nat off) text)). rewrite Hl in Hd.
  assert (drop (Z.to_nat off) text ≠ []) as Hne by (intros E; rewrite E in Hl; simpl in Hl; lia).
  specialize (Hd Hne). lia.
Qed.

Lemma ecma_step_bounds text off :
  text_pos_len text → 0 <= off < Z.of_nat (length text) →
  off < (ecma_step text (Z.of_nat (length text)) off).1 <= Z.of_nat (length text).
Proof.
  unfold text_pos_len, I32_MAX. intros Hlen Ho. unfold ecma_step.
  destruct (is_ascii _); cbn [fst].
  - rewrite (wrap_i32_id (off + 1)) by lia. destruct (_ && _ && _) eqn:E; [|lia].
    rewrite !andb_true_iff, Z.ltb_lt in E. rewrite wrap_i32_id; lia.
  - pose proof (sequence_width text off Ho decode_utf8 decode_utf8_step) as Hw.
    destruct (decode_utf8 _) as [r w]. cbn [fst snd] in *. rewrite wrap_i32_id; lia.
Qed.

Definition starts_from (lo hi : Z) (l : list Z) : Prop :=
  StronglySorted Z.lt l ∧ Forall (λ s, lo <= s <= hi) l.

Lemma ecma_starts_loop_spec fuel text off start :
  text_pos_len text → 0 <= start <= off → off <= Z.of_nat (length text) →
  Z.of_nat (length text) - off <= Z.of_nat fuel →
  let l := ecma_starts_loop fuel text (Z.of_nat (length text)) off start in
  head l = Some start ∧ starts_from start (Z.of_nat (length text)) l
  ∧ (∀ m, (fuel <= m)%nat → ecma_starts_loop m text (Z.of_nat (length text)) off start = l).
Proof.
  intros Hlen. revert off start; induction fuel as [|fuel IH]; intros off start Hs Ho Hf; cbv zeta.
  - assert (off = Z.of_nat (length text)) as -> by lia. cbn.
    split_and!; [done|split; [repeat constructor|repeat constructor; lia]|].
    intros [|m] _; [done|]. cbn. by rewrite Z.ltb_irrefl.
  - cbn [ecma_starts_loop]. destruct (Z.ltb_spec off (Z.of_nat (length text))) as [Hlt|Hge].
    + pose proof (ecma_step_bounds text off Hlen ltac:(lia)) as Hb.
      destruct (ecma_step text (Z.of_nat (length text)) off) as [nxt [|]] eqn:Estep; cbn [fst] in Hb.
      * destruct (IH nxt nxt) as (Hh & [Hss Hall] & Hmore); [lia..|].
        split_and!; [done| |].
        -- split; [|constructor; [lia|]; apply (Forall_impl _ _ _ Hall); simpl; lia].
           constructor; [done|]. apply (Forall_impl _ _ _ Hall). simpl. lia.
        -- intros [|m] Hm; [lia|]. cbn [ecma_starts_loop]. destruct (Z.ltb_spec off (Z.of_nat (length text))); [|lia].
           rewrite Estep. f_equal. apply Hmore. lia.
      * destruct (IH nxt start) as (Hh & Hss & Hmore); [lia..|]. split_and!; [done|done|].
        intros [|m] Hm; [lia|]. cbn [ecma_starts_loop]. destruct (Z.ltb_spec off (Z.of_nat (length text))); [|lia].
        rewrite Estep. apply Hmore. lia.
    + split_and!; [done|split; [repeat constructor|repeat constructor; lia]|].
      intros [|m] _; [done|]. cbn. destruct (Z.ltb_spec off (Z.of_nat (length text))); [lia|done].
Qed.

(** The line starts of a text begin with 0, increase strictly and stay
    inside the text; the scan needs at most one turn per byte, so more fuel
    changes nothing. *)
Theorem ecma_line_starts_sorted text :
  text_pos_len text →
  head (compute_ecma_line_starts text) = Some 0
  ∧ StronglySorted Z.lt (compute_ecma_line_starts text)
  ∧ Forall (λ s, 0 <= s <= Z.of_nat (length text)) (compute_ecma_line_starts text)
  ∧ ∀ fuel, (length text <= fuel)%nat →
      ecma_starts_loop fuel text (Z.of_nat (length text)) 0 0 = compute_ecma_line_starts text.
Proof.
  intros Hlen. unfold compute_ecma_line_starts, ecma_line_starts_with_source_length.
  unfold text_pos_len, I32_MAX in Hlen. rewrite wrap_i32_id by lia.
  destruct (ecma_starts_loop_spec (length text) text 0 0 Hlen) as (H1 & [H2 H3] & H4); [lia..|].
  done.
Qed.

Lemma ecma_line_starts_sorted_witness :
  text_pos_len (bs "ab" ++ [10; 226; 128; 168] ++ bs "c")
  ∧ compute_ecma_line_starts (bs "ab" ++ [10; 226; 128; 168] ++ bs "c") = [0; 3; 6]
  ∧ StronglySorted Z.lt (compute_ecma_line_starts (bs "ab" ++ [10; 226; 128; 168] ++ bs "c")).
Proof.
  assert (text_pos_len (bs "ab" ++ [10; 226; 128; 168] ++ bs "c")) as H by (vm_compute; discriminate).
  split; [exact H|]. split; [reflexivity|].
  exact (proj1 (proj2 (ecma_line_starts_sorted _ H))).
Defined.

(** ** Looking up a position *)

Lemma partition_point_le {A} (f : A → bool) l : (partition_point f l <= length l)%nat.
Proof. induction l as [|x l IH]; simpl; [lia|]. destruct (f x); simpl; lia. Qed.

Lemma partition_point_before {A} (f : A → bool) l i x :
  (i < partition_point f l)%nat → l !! i = Some x → f x = true.
Proof.
  revert i; induction l as [|y l IH]; intros i Hi Hx; simpl in Hi; [lia|].
  destruct (f y) eqn:Hy; [|lia]. destruct i as [|i]; [by injection Hx as ->|].
  apply (IH i); [lia|done].
Qed.

Lemma partition_point_at {A} (f : A → bool) l x :
  l !! partition_point f l = Some x → f x = false.
Proof.
  induction l as [|y l IH]; simpl; [done|]. destruct (f y) eqn:Hy; [done|]. by intros [= ->].
Qed.

(** Looking a position up finds the line that holds it: the greatest start
    at or before the position, with the distance to it. *)
Theorem position_to_line_correct text pos :
  text_pos_len text → 0 <= pos <= 2 ^ 62 →
  ∃ line start, position_to_line_and_byte_offset pos (compute_ecma_line_starts text)
      = Some (Z.of_nat line, pos - start)
    ∧ compute_ecma_line_starts text !! line = Some start ∧ start <= pos
    ∧ ∀ next, compute_ecma_line_starts text !! S line = Some next → pos < next.
Proof.
  intros Hlen Hpos. unfold compute_ecma_line_starts, ecma_line_starts_with_source_length.
  pose proof Hlen as Hlen'. unfold text_pos_len, I32_MAX in Hlen'. rewrite wrap_i32_id by lia.
  destruct (ecma_starts_loop_spec (length text) text 0 0 Hlen) as (Hhead & [Hss Hall] & _); [lia..|].
  set (l := ecma_starts_loop _ _ _ _ _) in *. clearbody l.
  unfold position_to_line_and_byte_offset. set (f := λ start, start <=? pos).
  destruct l as [|z l]; [done|]. injection Hhead as ->.
  assert (f 0 = true) as Hf0 by (apply Z.leb_le; lia).
  set (k := partition_point f l). assert (partition_point f (0 :: l) = S k) as Ek by (simpl; by rewrite Hf0).
  rewrite Ek. cbn [Nat.pred].
  destruct (lookup_lt_is_Some_2 (0 :: l) k) as [start Hstart].
  { simpl. pose proof (partition_point_le f l). unfold k. lia. }
  rewrite Hstart. cbn [mbind option_bind].
  assert (f start = true) as Hle by (apply (partition_point_before f (0 :: l) k); [rewrite Ek; lia|done]).
  apply Z.leb_le in Hle. rewrite Forall_lookup in Hall. specialize (Hall _ _ Hstart).
  exists k, start. rewrite wrap_i64_id by lia. split_and!; [done|done|done|].
  intros nxt Hn. rewrite <-Ek in Hn. apply partition_point_at in Hn. by apply Z.leb_gt in Hn.
Qed.

Lemma position_to_line_correct_witness :
  text_pos_len (bs "ab" ++ [10] ++ bs "cde" ++ [13; 10] ++ bs "f")
  ∧ ∃ line start, position_to_line_and_byte_offset 5
        (compute_ecma_line_starts (bs "ab" ++ [10] ++ bs "cde" ++ [13; 10] ++ bs "f"))
      = Some (Z.of_nat line, 5 - start)
    ∧ compute_ecma_line_starts (bs "ab" ++ [10] ++ bs "cde" ++ [13; 10] ++ bs "f") !! line = Some start
    ∧ start <= 5
    ∧ ∀ next, compute_ecma_line_starts (bs "ab" ++ [10] ++ bs "cde" ++ [13; 10] ++ bs "f") !! S line
        = Some next → 5 < next.
Proof.
  assert (text_pos_len (bs "ab" ++ [10] ++ bs "cde" ++ [13; 10] ++ bs "f")) as H
    by (vm_compute; discriminate).
  split; [exact H|]. apply (position_to_line_correct _ 5 H). lia.
Defined.

(** ** The two kinds of line starts *)

Lemma lsp_step_ecma text off :
  text_pos_len text → 0 <= off < Z.of_nat (length text) →
  let '(next, line_break, ascii) := lsp_step text (Z.of_nat (length text)) off in
  let '(next', line_break') := ecma_step text (Z.of_nat (length text)) off in
  next = next' ∧ (line_break = true → line_break' = true)
  ∧ (ascii = true → line_break' = line_break) ∧ ascii = is_ascii (byte_at text off).
Proof.
  intros Hlen Ho. unfold lsp_step, ecma_step.
  destruct (is_ascii (byte_at text off)) eqn:Ha.
  - destruct (Z.eqb_spec (byte_at text off) 0x0D) as [->|]; cbn [andb orb]; [|done].
    by destruct (_ && _).
  - by destruct (decode_utf8 _).
Qed.

Lemma lsp_starts_loop_ecma fuel text off ls es ascii :
  text_pos_len text → 0 <= off <= Z.of_nat (length text) →
  let map := lsp_starts_loop fuel text (Z.of_nat (length text)) off ls ascii in
  ∃ tl te, line_starts map = ls :: tl
    ∧ ecma_starts_loop fuel text (Z.of_nat (length text)) off es = es :: te
    ∧ tl `sublist_of` te ∧ (ascii_only map = true → ascii = true ∧ tl = te).
Proof.
  intros Hlen. revert off ls es ascii; induction fuel as [|fuel IH]; intros off ls es ascii Ho; cbv zeta.
  { by exists [], []. }
  cbn [lsp_starts_loop ecma_starts_loop].
  destruct (Z.ltb_spec off (Z.of_nat (length text))); [|by exists [], []].
  pose proof (lsp_step_ecma text off Hlen ltac:(lia)) as Hst.
  pose proof (ecma_step_bounds text off Hlen ltac:(lia)) as Hb.
  destruct (lsp_step text _ off) as [[nxt br] asc], (ecma_step text _ off) as [nxt' br'].
  cbn [fst] in Hb. destruct Hst as (-> & Hbr & Hasc & _). destruct br.
  - rewrite (Hbr eq_refl). destruct (IH nxt' nxt' nxt' (ascii && asc)) as (tl & te & E1 & -> & Hsub & Heq); [lia|].
    exists (nxt' :: tl), (nxt' :: te). cbn [line_starts ascii_only]. rewrite E1.
    split_and!; [done|done|by constructor|].
    intros Ha. destruct (Heq Ha) as [Hx ->]. by apply andb_true_iff in Hx as [-> _].
  - destruct br'.
    + destruct (IH nxt' ls nxt' (ascii && asc)) as (tl & te & E1 & -> & Hsub & Heq); [lia|].
      exists tl, (nxt' :: te). split_and!; [done|done|by constructor|].
      intros Ha. destruct (Heq Ha) as [Hx _]. apply andb_true_iff in Hx as [_ Hx].
      by specialize (Hasc Hx).
    + destruct (IH nxt' ls es (ascii && asc)) as (tl & te & E1 & -> & Hsub & Heq); [lia|].
      exists tl, te. split_and!; [done|done|done|].
      intros Ha. destruct (Heq Ha) as [Hx ->]. by apply andb_true_iff in Hx as [-> _].
Qed.

(** The LSP line starts are the ECMAScript ones less those behind U+2028
    and U+2029; a text the LSP map calls ASCII has the same lines in both. *)
Theorem lsp_line_starts_ecma text :
  text_pos_len text →
  line_starts (lsp_line_map_new text) `sublist_of` compute_ecma_line_starts text
  ∧ (ascii_only (lsp_line_map_new text) = true →
     line_starts (lsp_line_map_new text) = compute_ecma_line_starts text).
Proof.
  intros Hlen. unfold lsp_line_map_new, lsp_line_map_with_source_length, compute_ecma_line_starts,
    ecma_line_starts_with_source_length.
  pose proof Hlen as Hlen'. unfold text_pos_len, I32_MAX in Hlen'. rewrite wrap_i32_id by lia.
  destruct (lsp_starts_loop_ecma (length text) text 0 0 0 true Hlen) as (tl & te & -> & -> & Hsub & Heq);
    [lia|].
  split; [by constructor|]. intros Ha. by destruct (Heq Ha) as [_ ->].
Qed.

Lemma lsp_line_starts_ecma_witness :
  text_pos_len (bs "a" ++ [13; 10] ++ bs "b" ++ [226; 128; 169] ++ [13])
  ∧ line_starts (lsp_line_map_new (bs "a" ++ [13; 10] ++ bs "b" ++ [226; 128; 169] ++ [13]))
    `sublist_of` compute_ecma_line_starts (bs "a" ++ [13; 10] ++ bs "b" ++ [226; 128; 169] ++ [13]).
Proof.
  assert (text_pos_len (bs "a" ++ [13; 10] ++ bs "b" ++ [226; 128; 169] ++ [13])) as H
    by (vm_compute; discriminate).
  split; [exact H|]. exact (proj1 (lsp_line_starts_ecma _ H)).
Defined.

(** ** The position map at code point boundaries *)

(** The byte and UTF-16 offsets of the code point boundaries of a text. *)
Inductive Boundary : bytes → Z → Z → Prop :=
  | boundary_start text : Boundary text 0 0
  | boundary_next text b u rune width :
      text ≠ [] → decode_rune text = (rune, width) → Boundary (drop width text) b u →
      Boundary text (Z.of_nat width + b) ((if 0x10000 <=? rune then 2 else 1) + u).

Lemma boundary_nonneg text b u :
  Boundary text b u → 0 <= b <= Z.of_nat (length text) ∧ 0 <= u <= 2 * b.
Proof.
  induction 1 as [|text b u rune width Hne Hd HB [IH1 IH2]]; [lia|].
  pose proof (decode_rune_step text Hne) as Hw. rewrite Hd in Hw. cbn [snd] in Hw.
  rewrite length_drop in IH1. destruct (0x10000 <=? rune); lia.
Qed.

Lemma utf8_width_utf16 text rune width :
  text ≠ [] → decode_rune text = (rune, width) → 1 <= (if 0x10000 <=? rune then 2 else 1).
Proof. intros _ _. destruct (_ <=? _); lia. Qed.

(** Every entry lies beyond the offsets the scan started from. *)
Lemma position_entries_head fuel rest off del e l :
  position_entries fuel rest off del = e :: l →
  off < byte_offset e ∧ off - del < byte_offset e - delta e.
Proof.
  revert rest off del; induction fuel as [|fuel IH]; intros rest off del E; [done|].
  destruct rest as [|b rest]; [done|]. cbn [position_entries] in E. destruct (is_ascii b).
  - apply IH in E. lia.
  - pose proof (decode_rune_step (b :: rest) ltac:(done)) as Hw.
    destruct (decode_rune (b :: rest)) as [rune width]. injection E as <- _. cbn [byte_offset delta snd] in *.
    destruct (0x10000 <=? rune); lia.
Qed.

Lemma delta_before_cons e l k : delta_before (e :: l) (S k) = if (k =? 0)%nat then delta e else delta_before l k.
Proof. by destruct k. Qed.

Lemma position_entries_boundary fuel rest b u :
  Boundary rest b u → (length rest <= fuel)%nat → ∀ off del,
  let E := position_entries fuel rest off del in
  let k8 := partition_point (λ entry, byte_offset entry <=? off + b) E in
  let k16 := partition_point (λ entry, byte_offset entry - delta entry <=? off - del + u) E in
  (if (k8 =? 0)%nat then del else delta_before E k8) = del + b - u
  ∧ (if (k16 =? 0)%nat then del else delta_before E k16) = del + b - u.
Proof.
  intros HB. revert fuel; induction HB as [text|text b u rune width Hne Hd HB IH]; intros fuel Hf off del.
  - cbv zeta. rewrite !Z.add_0_r, Z.sub_0_r.
    destruct (position_entries fuel text off del) as [|e l] eqn:E; [done|].
    apply position_entries_head in E. cbn [partition_point].
    destruct (Z.leb_spec (byte_offset e) off); [lia|].
    destruct (Z.leb_spec (byte_offset e - delta e) (off - del)); [lia|done].
  - cbv zeta. destruct text as [|c text]; [done|]. destruct fuel as [|fuel]; [simpl in Hf; lia|].
    pose proof (decode_rune_step (c :: text) Hne) as Hw. rewrite Hd in Hw. cbn [snd] in Hw.
    cbn [position_entries]. destruct (is_ascii c) eqn:Ha.
    + apply Z.ltb_lt in Ha. rewrite decode_rune_ascii in Hd by done. injection Hd as <- <-.
      destruct (Z.leb_spec 0x10000 c); [lia|].
      specialize (IH fuel). change (drop 1 (c :: text)) with text in IH.
      specialize (IH ltac:(simpl in Hf; lia) (off + 1) del).
      cbv zeta in IH. replace (off + 1 + b) with (off + (Z.of_nat 1 + b)) in IH by lia.
      replace (off + 1 - del + u) with (off - del + (1 + u)) in IH by lia.
      destruct IH as [-> ->]. lia.
    + rewrite Hd. set (sz := if 0x10000 <=? rune then 2 else 1) in *.
      specialize (IH fuel ltac:(rewrite length_drop; simpl in *; lia) (off + Z.of_nat width)
        (del + (Z.of_nat width - sz))). cbv zeta in IH.
      replace (off + Z.of_nat width + b) with (off + (Z.of_nat width + b)) in IH by lia.
      replace (off + Z.of_nat width - (del + (Z.of_nat width - sz)) + u)
        with (off - del + (sz + u)) in IH by lia.
      destruct (boundary_nonneg _ _ _ HB) as [Hb Hu].
      cbn [partition_point byte_offset delta].
      destruct (Z.leb_spec (off + Z.of_nat width) (off + (Z.of_nat width + b))); [|lia].
      destruct (Z.leb_spec (off + Z.of_nat width - (del + (Z.of_nat width - sz))) (off - del + (sz + u))); [|lia].
      rewrite !delta_before_cons. cbn [Nat.eqb delta]. destruct IH as [-> ->]. lia.
Qed.

(** [C33] At every code point boundary (lone surrogates and malformed bytes
    included) the position map turns the byte offset into the number of UTF-16
    units before it, and that number back into the byte offset. *)
Theorem position_map_round_trip text b u :
  Z.of_nat (length text) <= 2 ^ 61 → Boundary text b u →
  utf8_to_utf16 (position_map_new text) b = u ∧ utf16_to_utf8 (position_map_new text) u = b.
Proof.
  intros Hlen HB. destruct (boundary_nonneg _ _ _ HB) as [Hb Hu].
  destruct (position_entries_boundary (length text) text b u HB ltac:(done) 0 0) as [H8 H16].
  change (0 + b) with b in *. change (0 - 0 + u) with u in *. unfold utf8_to_utf16, utf16_to_utf8. cbn [entries position_map_new].
  cbv zeta in H8, H16.
  set (k8 := partition_point (λ entry, byte_offset entry <=? b) _) in *.
  set (k16 := partition_point (λ entry, byte_offset entry - delta entry <=? u) _) in *.
  split.
  - destruct (k8 =? 0)%nat; [lia|]. rewrite H8, wrap_i64_id; lia.
  - destruct (k16 =? 0)%nat; [lia|]. rewrite H16, wrap_i64_id; lia.
Qed.

Lemma position_map_round_trip_witness :
  Boundary ([233; 195; 169] ++ [240; 159; 152; 128] ++ bs "c") 7 4
  ∧ utf8_to_utf16 (position_map_new ([233; 195; 169] ++ [240; 159; 152; 128] ++ bs "c")) 7 = 4
  ∧ utf16_to_utf8 (position_map_new ([233; 195; 169] ++ [240; 159; 152; 128] ++ bs "c")) 4 = 7.
Proof.
  assert (Boundary ([233; 195; 169] ++ [240; 159; 152; 128] ++ bs "c") 7 4) as HB.
  { apply (boundary_next _ 6 3 RUNE_ERROR 1); [discriminate|reflexivity|].
    apply (boundary_next _ 4 2 233 2); [discriminate|reflexivity|].
    apply (boundary_next _ 0 0 128512 4); [discriminate|reflexivity|]. constructor. }
  split; [exact HB|]. apply (position_map_round_trip _ 7 4); [vm_compute; discriminate|exact HB].
Defined.

(** * Line starts of a text that grows *)

(** No sequence and no CRLF reaches from [a] into [b]. *)
Definition starts_sequence (b : bytes) : Prop := ∀ x, head b = Some x → is_continuation x = false.
Definition splits_crlf (a b : bytes) : Prop := last a = Some 0x0D ∧ head b = Some 0x0A.
Definition joins (a b : bytes) : Prop := starts_sequence b ∧ ¬ splits_crlf a b.

(** ** A step inside one of the pieces *)

Lemma utf8_lead_second first width lo hi mask :
  utf8_lead first = Some (width, lo, hi, mask) → (2 <= width <= 4)%nat ∧ 0x80 <= lo ∧ hi <= 0xBF.
Proof. unfold utf8_lead. intros H. repeat case_match; simplify_eq; lia. Qed.

Lemma take_drop_boundary (x b : bytes) y width :
  head b = Some y → (2 <= length x < width)%nat → y ∈ drop 2 (take width (x ++ b)).
Proof.
  destruct b as [|z b]; [done|]. cbn. intros [= ->] Hx.
  rewrite take_app_ge by lia. destruct (width - length x)%nat as [|k] eqn:E; [lia|].
  rewrite drop_app_le by lia. apply elem_of_app. right. cbn. left.
Qed.

Lemma decode_utf8_app x b : x ≠ [] → starts_sequence b → decode_utf8 (x ++ b) = decode_utf8 x.
Proof.
  intros Hx Hb. destruct x as [|first x]; [done|]. unfold decode_utf8. cbn [app]. cbn iota.
  change (first :: x ++ b) with ((first :: x) ++ b). set (l := first :: x) in *.
  destruct (first <? 0x80); [done|].
  destruct (utf8_lead first) as [[[[width lo] hi] mask]|] eqn:El; [|done].
  apply utf8_lead_second in El as (Hw & Hlo & Hhi).
  destruct (Nat.ltb_spec (length l) width) as [Hlt|Hge]; cbn [orb].
  - destruct (_ || _) eqn:E; [done|]. rewrite orb_false_iff, Nat.ltb_ge, negb_false_iff, length_app in E.
    destruct E as [Hlen Hin]. destruct b as [|y b]; [cbn [length] in Hlen; lia|].
    specialize (Hb y eq_refl). assert (existsb (λ x, negb (is_continuation x)) (drop 2 (take width (l ++ y :: b))) = true)
      as ->; [|done].
    apply existsb_exists. exists y. split; [|by rewrite Hb].
    apply list_elem_of_In, take_drop_boundary; [done|]. split; [|done].
    destruct x as [|? x]; [|cbn; lia]. exfalso. subst l. cbn in Hin. unfold is_continuation in Hb.
    apply in_range_true in Hin. apply in_range_false in Hb. unfold UTF8_CONTINUATION_MIN, UTF8_CONTINUATION_MAX in Hb. lia.
  - rewrite length_app. rewrite (proj2 (Nat.ltb_ge (length l + length b) width)) by lia. cbn [orb].
    rewrite app_nth1 by lia. by rewrite take_app_le by lia.
Qed.

Lemma drop_app_text (a b : bytes) off :
  0 <= off < Z.of_nat (length a) → drop (Z.to_nat off) (a ++ b) = drop (Z.to_nat off) a ++ b.
Proof. intros Ho. by rewrite drop_app_le by lia. Qed.

Lemma byte_at_left (a b : bytes) i : 0 <= i < Z.of_nat (length a) → byte_at (a ++ b) i = byte_at a i.
Proof. intros Hi. unfold byte_at. by rewrite app_nth1 by lia. Qed.

Lemma byte_at_right (a b : bytes) i : 0 <= i → byte_at (a ++ b) (Z.of_nat (length a) + i) = byte_at b i.
Proof. intros Hi. unfold byte_at. rewrite app_nth2 by lia. f_equal. lia. Qed.

Lemma byte_at_last (a : bytes) off : off + 1 = Z.of_nat (length a) → 0 <= off → last a = Some (byte_at a off).
Proof.
  intros He Ho. unfold byte_at. rewrite last_lookup. replace (Nat.pred (length a)) with (Z.to_nat off) by lia.
  destruct (lookup_lt_is_Some_2 a (Z.to_nat off)) as [x Hx]; [lia|]. rewrite Hx. by rewrite (nth_lookup_Some _ _ _ _ Hx).
Qed.

Lemma byte_at_head (b : bytes) : b ≠ [] → head b = Some (byte_at b 0).
Proof. by destruct b. Qed.

Lemma ecma_step_left a b off :
  joins a b → text_pos_len (a ++ b) → 0 <= off < Z.of_nat (length a) →
  ecma_step (a ++ b) (Z.of_nat (length (a ++ b))) off = ecma_step a (Z.of_nat (length a)) off.
Proof.
  unfold text_pos_len, I32_MAX. intros [Hb Hcr] Hlen Ho. rewrite length_app in *. unfold ecma_step.
  rewrite byte_at_left, drop_app_text by done. destruct (is_ascii _).
  - rewrite (wrap_i32_id (off + 1)) by lia. destruct (Z.eqb_spec (byte_at a off) 0x0D) as [E|]; [|done]. cbn [andb].
    destruct (Z.ltb_spec (off + 1) (Z.of_nat (length a))) as [Hlt|Hge].
    + rewrite byte_at_left by lia. by rewrite (proj2 (Z.ltb_lt (off + 1) (Z.of_nat (length a + length b)))) by lia.
    + cbn [andb]. destruct (Z.ltb_spec (off + 1) (Z.of_nat (length a + length b))); [|done]. cbn [andb].
      replace (off + 1) with (Z.of_nat (length a) + 0) by lia. rewrite byte_at_right by lia.
      destruct (Z.eqb_spec (byte_at b 0) 0x0A) as [E'|]; [|done]. destruct Hcr. split.
      * by rewrite (byte_at_last a off), E by lia.
      * rewrite byte_at_head, E' by (intros ->; cbn [length] in *; lia). done.
  - rewrite decode_utf8_app; [done| |done]. intros E%(f_equal length). rewrite length_drop in E. cbn in E. lia.
Qed.

Lemma ecma_step_right a b off :
  text_pos_len (a ++ b) → 0 <= off < Z.of_nat (length b) →
  ecma_step (a ++ b) (Z.of_nat (length (a ++ b))) (Z.of_nat (length a) + off)
  = let '(next, line_break) := ecma_step b (Z.of_nat (length b)) off in (Z.of_nat (length a) + next, line_break).
Proof.
  unfold text_pos_len, I32_MAX. intros Hlen Ho. rewrite length_app in *. unfold ecma_step.
  rewrite byte_at_right by lia. destruct (is_ascii _).
  - rewrite (wrap_i32_id (off + 1)), (wrap_i32_id (_ + off + 1)) by lia. rewrite <-Z.add_assoc, byte_at_right by lia.
    assert (Z.of_nat (length a) + (off + 1) <? Z.of_nat (length a + length b) = (off + 1 <? Z.of_nat (length b))) as ->
      by (apply eq_bool_prop_intro; rewrite !Is_true_true, !Z.ltb_lt; lia).
    destruct (_ && _ && _) eqn:E; [|done]. rewrite !andb_true_iff, Z.ltb_lt in E.
    rewrite !wrap_i32_id by lia. f_equal. lia.
  - replace (Z.to_nat (Z.of_nat (length a) + off)) with (length a + Z.to_nat off)%nat by lia.
    rewrite drop_app_add. pose proof (sequence_width b off Ho decode_utf8 decode_utf8_step) as Hw.
    destruct (decode_utf8 _) as [rune width]. cbn [snd] in Hw. rewrite !wrap_i32_id by lia. f_equal. lia.
Qed.

(** ** The scan of both pieces *)

Lemma ecma_starts_loop_last fuel text text_len off start other :
  ∃ rest, ecma_starts_loop fuel text text_len off start = start :: rest
    ∧ ecma_starts_loop fuel text text_len off other = other :: rest.
Proof.
  revert off; induction fuel as [|fuel IH]; intros off; [by eexists|]. cbn [ecma_starts_loop].
  destruct (off <? text_len); [|by eexists]. destruct (ecma_step text text_len off) as [next [|]]; [by eexists|apply IH].
Qed.

(** The scan of the second piece, shifted. *)
Lemma ecma_starts_loop_right fuel a b off start :
  text_pos_len (a ++ b) → 0 <= off <= Z.of_nat (length b) →
  ecma_starts_loop fuel (a ++ b) (Z.of_nat (length (a ++ b))) (Z.of_nat (length a) + off) (Z.of_nat (length a) + start)
  = Z.add (Z.of_nat (length a)) <$> ecma_starts_loop fuel b (Z.of_nat (length b)) off start.
Proof.
  intros Hlen. assert (text_pos_len b) as Hlb by (unfold text_pos_len in *; rewrite length_app in Hlen; lia).
  revert off start; induction fuel as [|fuel IH]; intros off start Ho; [done|]. cbn [ecma_starts_loop].
  destruct (Z.ltb_spec off (Z.of_nat (length b))) as [Hlt|Hge].
  - rewrite (proj2 (Z.ltb_lt _ (Z.of_nat (length (a ++ b))))) by (rewrite length_app; lia).
    rewrite ecma_step_right by (done || lia). pose proof (ecma_step_bounds b off Hlb ltac:(lia)) as Hb.
    destruct (ecma_step b _ off) as [next [|]]; cbn [fst] in Hb; rewrite IH by lia; done.
  - rewrite (proj2 (Z.ltb_ge _ (Z.of_nat (length (a ++ b))))) by (rewrite length_app; lia). done.
Qed.

(** The scan of the first piece goes on with the second. *)
Lemma ecma_starts_loop_left fuel a b off start :
  joins a b → text_pos_len (a ++ b) → 0 <= off <= Z.of_nat (length a) → Z.of_nat (length a) - off <= Z.of_nat fuel →
  ecma_starts_loop (fuel + length b) (a ++ b) (Z.of_nat (length (a ++ b))) off start
  = ecma_starts_loop fuel a (Z.of_nat (length a)) off start
    ++ (Z.add (Z.of_nat (length a)) <$> tail (compute_ecma_line_starts b)).
Proof.
  intros Hj Hlen. assert (text_pos_len a ∧ text_pos_len b) as [Hla Hlb]
    by (unfold text_pos_len in *; rewrite length_app in Hlen; lia).
  assert (∀ m start, (length b <= m)%nat →
    ecma_starts_loop m (a ++ b) (Z.of_nat (length (a ++ b))) (Z.of_nat (length a)) start
    = start :: (Z.add (Z.of_nat (length a)) <$> tail (compute_ecma_line_starts b))) as Hend.
  { intros m start' Hm. destruct (ecma_starts_loop_last m (a ++ b) (Z.of_nat (length (a ++ b)))
      (Z.of_nat (length a)) (Z.of_nat (length a) + 0) start') as (rest & E & ->). f_equal.
    replace (Z.of_nat (length a)) with (Z.of_nat (length a) + 0) in E at 1 by lia.
    rewrite ecma_starts_loop_right in E by (done || lia).
    destruct (ecma_starts_loop_spec (length b) b 0 0 Hlb) as (_ & _ & Hmore); [lia..|]. rewrite Hmore in E by done.
    unfold compute_ecma_line_starts, ecma_line_starts_with_source_length.
    rewrite wrap_i32_id by (unfold text_pos_len, I32_MAX in Hlb; lia).
    by destruct (ecma_starts_loop (length b) b _ 0 0); simplify_list_eq. }
  revert off start; induction fuel as [|fuel IH]; intros off start Ho Hf.
  - assert (off = Z.of_nat (length a)) as -> by lia. by apply Hend.
  - destruct (Z.ltb_spec off (Z.of_nat (length a))) as [Hlt|Hge].
    + cbn [ecma_starts_loop Nat.add].
      rewrite (proj2 (Z.ltb_lt _ (Z.of_nat (length (a ++ b))))), (proj2 (Z.ltb_lt _ (Z.of_nat (length a))))
        by (rewrite ?length_app; lia).
      rewrite ecma_step_left by (done || lia). pose proof (ecma_step_bounds a off Hla ltac:(lia)) as Hb.
      destruct (ecma_step a _ off) as [next [|]]; cbn [fst] in Hb; rewrite IH by lia; done.
    + assert (off = Z.of_nat (length a)) as -> by lia. rewrite Hend by lia.
      cbn [ecma_starts_loop]. by rewrite Z.ltb_irrefl.
Qed.

(** The lines of a text that is written in two pieces. *)
Lemma line_starts_app a b :
  joins a b → text_pos_len (a ++ b) →
  compute_ecma_line_starts (a ++ b)
  = compute_ecma_line_starts a ++ (Z.add (Z.of_nat (length a)) <$> tail (compute_ecma_line_starts b)).
Proof.
  intros Hj Hlen. pose proof Hlen as Hl. unfold text_pos_len, I32_MAX in Hl. rewrite length_app in Hl.
  unfold compute_ecma_line_starts at 1 2, ecma_line_starts_with_source_length.
  rewrite !wrap_i32_id by (rewrite ?length_app; lia). rewrite <-ecma_starts_loop_left by (done || lia).
  by rewrite length_app.
Qed.

Lemma line_starts_head a : text_pos_len a → ∃ rest, compute_ecma_line_starts a = 0 :: rest.
Proof.
  intros Hl. unfold compute_ecma_line_starts, ecma_line_starts_with_source_length.
  destruct (ecma_starts_loop_last (length a) a (wrap_i32 (Z.of_nat (length a))) 0 0 0) as (rest & -> & _). by eexists.
Qed.

Lemma line_starts_inside a s :
  text_pos_len a → s ∈ compute_ecma_line_starts a → 0 <= s <= Z.of_nat (length a).
Proof.
  intros Hl. pose proof Hl as Hz. unfold text_pos_len, I32_MAX in Hz.
  unfold compute_ecma_line_starts, ecma_line_starts_with_source_length. rewrite wrap_i32_id by lia.
  destruct (ecma_starts_loop_spec (length a) a 0 0 Hl) as (_ & [_ Hall] & _); [lia..|].
  rewrite Forall_forall in Hall. apply Hall.
Qed.
