(* ===== verification/PathComponents.v ===== *)
(** Compiler paths as byte strings: roots and normalisation of
    [crates/tsr_core/src/path.rs], with the root predicates and small rewrites of
    [crates/tsr_tspath/src/roots.rs] and the operations of its [lib.rs].

    Component lists and the operations of [crates/tsr_tspath/src]: [lib.rs],
    [roots.rs], [components.rs], [comparison.rs] and the ancestor walks of
    [typed.rs]. *)

From S2P Require Import Prelude Wtf8.

Local Open Scope Z_scope.

(** ** Unicode case tables

    [SIMPLE_FOLD] and [SIMPLE_LOWER] are generated tables of several thousand
    rows. A client sees them through this interface: the two lookups, and what
    the functions that use them rely on. *)

Class CaseTables := {
  simple_fold : Z → Z;
  simple_lower : Z → Z;
  (** every folding cycle of the table closes within four steps *)
  simple_fold_cycle c : ∃ n, (1 <= n <= 4)%nat ∧ Nat.iter n simple_fold c = c;
  simple_lower_ascii c : c < 128 → simple_lower c = to_ascii_lowercase c;
}.

(** The ASCII rows of the tables: the instance the examples run with. *)
Definition ascii_fold (c : Z) : Z :=
  if is_ascii_uppercase c then c + 32 else if is_ascii_lowercase c then c - 32 else c.

Lemma ascii_fold_involutive c : ascii_fold (ascii_fold c) = c.
Proof.
  unfold ascii_fold, is_ascii_uppercase, is_ascii_lowercase, in_range. if_split; lia.
Qed.

Definition ascii_tables : CaseTables.
Proof.
  refine {| simple_fold := ascii_fold; simple_lower := to_ascii_lowercase |}.
  - intros c. exists 2%nat. split; [lia|]. apply ascii_fold_involutive.
  - done.
Defined.

(** ** Roots ([tsr_core/src/path.rs]) *)

Definition SLASH : Z := ch "/".
Definition BACKSLASH : Z := 92.

Definition separator (b : Z) : bool := (b =? SLASH) || (b =? BACKSLASH).

(** [path.get(i) == Some(&b)] *)
Definition get_is (path : bytes) (i : nat) (b : Z) : bool :=
  match path !! i with Some c => c =? b | None => false end.

(** The volume part of a [file://] URL: the end of [c:] or [c%3a], [start] being
    the offset after the drive letter. *)
Definition url_volume_end (path : bytes) (start : nat) : option nat :=
  if get_is path start (ch ":") then Some (start + 1)%nat
  else if bool_decide (take 3 (drop start path) = bs "%3a"
                       ∨ take 3 (drop start path) = bs "%3A")
  then Some (start + 3)%nat
  else None.

Definition url_root_length (path : bytes) (scheme_end : nat) : Z :=
  let authority_start := (scheme_end + 3)%nat in
  match position (Z.eqb SLASH) (drop authority_start path) with
  | None => Z.lnot (Z.of_nat (length path))
  | Some n =>
      let authority_end := (authority_start + n)%nat in
      let authority := take n (drop authority_start path) in
      let plain := Z.lnot (Z.of_nat (authority_end + 1)) in
      if bytes_eqb (take scheme_end path) (bs "file")
         && (bool_decide (authority = []) || bytes_eqb authority (bs "localhost"))
         && (authority_end + 2 <? length path)%nat
         && is_ascii_alphabetic (nth (authority_end + 1) path 0)
      then match url_volume_end path (authority_end + 2) with
           | Some e =>
               if (e =? length path)%nat then Z.lnot (Z.of_nat e)
               else if nth e path 0 =? SLASH then Z.lnot (Z.of_nat (e + 1))
               else plain
           | None => plain
           end
      else plain
  end.

(** URL roots are bitwise complemented; disk and untitled roots are positive. *)
Definition encoded_root_length (path : bytes) : Z :=
  match path with
  | [] => 0
  | first :: tail =>
      if separator first then
        if negb (get_is path 1 first) then 1
        else match position (Z.eqb first) (drop 2 path) with
             | Some e => Z.of_nat (e + 3)
             | None => Z.of_nat (length path)
             end
      else if is_ascii_alphabetic first && get_is path 1 (ch ":") && (length path =? 2)%nat then 2
      else if is_ascii_alphabetic first && get_is path 1 (ch ":") && separator (nth 2 path 0) then 3
      else if (first =? ch "^") && get_is path 1 SLASH then 2
      else match find_sub (bs "://") path with
           | Some scheme_end => url_root_length path scheme_end
           | None => 0
           end
  end.

Definition root_length (path : bytes) : nat :=
  let encoded := encoded_root_length path in
  Z.to_nat (if encoded <? 0 then Z.lnot encoded else encoded).

Definition DOT : bytes := [46].
Definition DOTDOT : bytes := [46; 46].
Definition split_slash (path : bytes) : list bytes := split_on (λ b, b =? SLASH) path.

Definition has_relative_segment (path : bytes) : bool :=
  contains_sub [SLASH; SLASH] path
  || existsb (λ s, bytes_eqb s DOT || bytes_eqb s DOTDOT) (split_slash path).

(** ** Normalisation *)

Definition normalize_slashes (path : bytes) : bytes :=
  if contains_byte BACKSLASH path
  then (λ b, if b =? BACKSLASH then SLASH else b) <$> path
  else path.

(** The pass that rewrites each [/./] to [/], left to right. *)
Fixpoint simplify_dots (path : bytes) : bytes :=
  match path with
  | a :: ((b :: c :: rest) as tail) =>
      if (a =? SLASH) && (b =? 46) && (c =? SLASH)
      then SLASH :: simplify_dots rest
      else a :: simplify_dots tail
  | a :: tail => a :: simplify_dots tail
  | [] => []
  end.

(** [strip_prefix(b"./").unwrap_or(..)] *)
Definition strip_dot_slash (path : bytes) : bytes :=
  default path (strip_prefix [46; SLASH] path).

(** The component loop of [normalize]; [components] is kept reversed. *)
Fixpoint normalize_loop (rooted : bool) (components : list bytes) (parts : list bytes) : list bytes :=
  match parts with
  | [] => rev components
  | component :: parts =>
      if bool_decide (component = []) || bytes_eqb component DOT
      then normalize_loop rooted components parts
      else if bytes_eqb component DOTDOT then
        match components with
        | last :: components' =>
            if bytes_eqb last DOTDOT
            then normalize_loop rooted (component :: components) parts
            else normalize_loop rooted components' parts
        | [] =>
            if rooted then normalize_loop rooted components parts
            else normalize_loop rooted [component] parts
        end
      else normalize_loop rooted (component :: components) parts
  end.

Definition push_slash_unless (path : bytes) : bytes :=
  if negb (bool_decide (path = [])) && negb (ends_with [SLASH] path)
  then path ++ [SLASH] else path.

(** The component path of [normalize], on slash-normalised input. *)
Definition normalize_components (slashes : bytes) : bytes :=
  let root_end := root_length slashes in
  let root := take root_end slashes in
  let components :=
    normalize_loop (negb (bool_decide (root = []))) [] (split_slash (drop root_end slashes)) in
  let result := push_slash_unless root ++ join_with SLASH components in
  if negb (bool_decide (result = [])) && ends_with [SLASH] slashes
     && negb (ends_with [SLASH] result)
  then result ++ [SLASH] else result.

Definition normalize (path : bytes) : bytes :=
  let slashes := normalize_slashes path in
  if negb (has_relative_segment slashes) then slashes
  else
    let simplified := simplify_dots slashes in
    let trimmed := strip_dot_slash simplified in
    if negb (bytes_eqb trimmed slashes) && negb (has_relative_segment trimmed)
       && negb (negb (length trimmed =? length simplified)%nat && starts_with [SLASH] trimmed)
    then trimmed
    else normalize_components slashes.

(** ** File names ([tsr_core/src/path.rs]) *)

Definition is_declaration_file_name (path : bytes) : bool :=
  let normalized := normalize_slashes path in
  let root_end := root_length normalized in
  if (root_end =? length normalized)%nat then false
  else
    let without_trailing := default normalized (strip_suffix [SLASH] normalized) in
    let basename_start :=
      match rposition (Z.eqb SLASH) without_trailing with
      | None => root_end
      | Some i => Nat.max root_end (i + 1)
      end in
    let base := drop basename_start without_trailing in
    ends_with (bs ".d.ts") base || ends_with (bs ".d.cts") base || ends_with (bs ".d.mts") base
    || (ends_with (bs ".ts") base && contains_sub (bs ".d.") base).

(** Removes the first suffix of the list that matches. *)
Fixpoint remove_first_suffix (path : bytes) (suffixes : list bytes) : bytes :=
  match suffixes with
  | [] => path
  | suffix :: suffixes =>
      match strip_suffix suffix path with
      | Some path => path
      | None => remove_first_suffix path suffixes
      end
  end.

Definition remove_file_extension (path : bytes) : bytes :=
  remove_first_suffix path
    [bs ".d.ts"; bs ".d.mts"; bs ".d.cts"; bs ".mjs"; bs ".mts"; bs ".cjs"; bs ".cts";
     bs ".ts"; bs ".js"; bs ".tsx"; bs ".jsx"; bs ".json"].

(** * Components *)

(** ** Root predicates ([roots.rs]) *)

Definition is_any_directory_separator (b : Z) : bool := (b =? SLASH) || (b =? BACKSLASH).
Definition is_volume_character (b : Z) : bool := is_ascii_alphabetic b.
Definition is_url (path : bytes) : bool := encoded_root_length path <? 0.
Definition is_rooted_disk_path (path : bytes) : bool := 0 <? encoded_root_length path.
Definition is_disk_path_root (path : bytes) : bool :=
  let root := encoded_root_length path in
  (0 <? root) && (Z.abs root =? Z.of_nat (length path)).
Definition is_dynamic_file_name (path : bytes) : bool := starts_with (bs "^/") path.
Definition path_is_absolute (path : bytes) : bool := negb (encoded_root_length path =? 0).

Definition file_url_volume_separator_end (url : bytes) (start : nat) : option nat :=
  c ← url !! start;
  if c =? ch ":" then Some (start + 1)%nat
  else if (c =? ch "%") && (start + 2 <? length url)%nat
          && (nth (start + 1) url 0 =? ch "3")
          && ((nth (start + 2) url 0 =? ch "a") || (nth (start + 2) url 0 =? ch "A"))
  then Some (start + 3)%nat
  else None.

Definition split_volume_path (path : bytes) : bytes * bytes * bool :=
  if (2 <=? length path)%nat && is_volume_character (nth 0 path 0) && (nth 1 path 0 =? ch ":")
  then (to_ascii_lowercase <$> take 2 path, drop 2 path, true)
  else ([], path, false).

Definition has_trailing_directory_separator (path : bytes) : bool :=
  match last path with Some b => is_any_directory_separator b | None => false end.

Definition remove_trailing_directory_separator (path : bytes) : bytes :=
  if has_trailing_directory_separator path then take (length path - 1) path else path.

(** The [while] drops one separator per turn; the length is enough fuel. *)
Fixpoint remove_separators_loop (fuel : nat) (path : bytes) : bytes :=
  match fuel with
  | O => path
  | S fuel =>
      if has_trailing_directory_separator path
      then remove_separators_loop fuel (take (length path - 1) path)
      else path
  end.
Definition remove_trailing_directory_separators (path : bytes) : bytes :=
  remove_separators_loop (length path) path.

Definition ensure_trailing_directory_separator (path : bytes) : bytes :=
  if has_trailing_directory_separator path then path else path ++ [SLASH].

Definition is_relative (path : bytes) : bool :=
  bytes_eqb path DOT || bytes_eqb path DOTDOT
  || starts_with [46; SLASH] path || starts_with [46; BACKSLASH] path
  || starts_with [46; 46; SLASH] path || starts_with [46; 46; BACKSLASH] path.

Definition ensure_path_is_non_module_name (path : bytes) : bytes :=
  if negb (path_is_absolute path) && negb (is_relative path) then [46; SLASH] ++ path else path.

Definition is_external_module_name_relative (name : bytes) : bool :=
  is_relative name || is_rooted_disk_path name.

Definition contains_ignored_path (path : bytes) : bool :=
  existsb (λ pattern, contains_sub pattern path)
    [bs "/node_modules/."; bs "/.git"; bs ".#"].

Definition compare_number_of_directory_separators (left right : bytes) : comparison :=
  let count := λ path, length (List.filter (Z.eqb SLASH) path) in
  Nat.compare (count left) (count right).

(** ** Paths ([lib.rs]) *)

Definition combine_step (result path : bytes) : bytes :=
  if bool_decide (path = []) then result
  else
    let path := normalize_slashes path in
    if bool_decide (result = []) || negb (root_length path =? 0)%nat then path
    else (if ends_with [SLASH] result then result else result ++ [SLASH]) ++ path.

Definition combine (first : bytes) (paths : list bytes) : bytes :=
  fold_left combine_step paths (normalize_slashes first).

Definition directory (path : bytes) : bytes :=
  let path := normalize_slashes path in
  let root := root_length path in
  if (root =? length path)%nat then path
  else
    let path := if ends_with [SLASH] path then take (length path - 1) path else path in
    take (Nat.max root (default 0%nat (rposition (Z.eqb SLASH) path))) path.

Definition resolve (path : bytes) (paths : list bytes) : bytes := normalize (combine path paths).

Definition absolute (file cwd : bytes) : bytes :=
  let path :=
    if (root_length file =? 0)%nat && negb (bool_decide (cwd = []))
    then normalize (combine cwd [file])
    else normalize file in
  let root := root_length path in
  if (root <? length path)%nat && ends_with [SLASH] path then take (length path - 1) path
  else if (length path =? root)%nat && negb (root =? 0)%nat && negb (ends_with [SLASH] path)
  then path ++ [SLASH]
  else path.

Definition base_name (path : bytes) : bytes :=
  let root := root_length (normalize_slashes path) in
  if (root =? length path)%nat then []
  else
    let path :=
      if ends_with [SLASH] path || ends_with [BACKSLASH] path
      then take (length path - 1) path else path in
    drop (match rposition separator path with None => root | Some n => (n + 1)%nat end) path.

Definition has_extension (path : bytes) : bool := contains_byte 46 (base_name path).

Definition resolve_tripleslash_reference (module_name containing_file : bytes) : bytes :=
  if is_rooted_disk_path module_name then normalize module_name
  else normalize (combine (directory containing_file) [module_name]).

Definition normalized_absolute_path_without_root (file cwd : bytes) : bytes :=
  let absolute := absolute file cwd in
  drop (root_length absolute) absolute.

(** The walk to the root; each step is shorter, so the length is enough fuel. *)
Fixpoint ancestors_loop (fuel : nat) (path : bytes) : list bytes :=
  match fuel with
  | O => [path]
  | S fuel =>
      let parent := directory path in
      if bytes_eqb parent path then [path] else path :: ancestors_loop fuel parent
  end.
Definition ancestors (path : bytes) : list bytes := ancestors_loop (S (length path)) path.

(** [for_each_ancestor_directory]: the callback answers [(value, stop)]. *)
Fixpoint for_each_ancestor_loop {T} (fuel : nat) (callback : bytes → T * bool) (current : bytes)
  : option T :=
  match fuel with
  | O => None
  | S fuel =>
      let '(value, stop) := callback current in
      if stop then Some value
      else
        let parent := directory current in
        if bytes_eqb parent current then None else for_each_ancestor_loop fuel callback parent
  end.
Definition for_each_ancestor_directory {T} (directory_name : bytes) (callback : bytes → T * bool)
  : option T :=
  for_each_ancestor_loop (S (S (length directory_name))) callback directory_name.

Definition for_each_ancestor_directory_stopping_at_global_cache {T}
    (global_cache_location directory_name : bytes) (callback : bytes → T * bool) : option T :=
  for_each_ancestor_directory directory_name
    (λ ancestor, let '(value, stop) := callback ancestor in
                 (value, stop || bytes_eqb ancestor global_cache_location)).

(** [Path::contains_path] of [typed.rs]. *)
Definition typed_contains_path (parent child : bytes) : bool :=
  if bool_decide (parent = []) then false
  else bytes_eqb parent child
       || ((length parent <? length child)%nat && starts_with parent child
           && (ends_with [SLASH] parent || (nth (length parent) child 0 =? SLASH))).

(** ** Components ([components.rs], [comparison.rs]) *)

(** [rest.last().is_some_and(|last| last.is_empty())] removes one piece. *)
Definition pop_empty (rest : list bytes) : list bytes :=
  match last rest with
  | Some [] => take (length rest - 1) rest
  | _ => rest
  end.

(** [None]: the assertion on the root fails. *)
Definition split_path_components (path : bytes) (root : nat) : option (list bytes) :=
  if (root <=? length path)%nat
  then Some (take root path :: pop_empty (split_slash (drop root path)))
  else None.

Definition path_components (path cwd : bytes) : option (list bytes) :=
  let path := combine cwd [path] in
  split_path_components path (root_length path).

(** The loop of [reduce_path_components]; [reduced] is kept reversed. *)
Fixpoint reduce_loop (reduced : list bytes) (components : list bytes) : list bytes :=
  match components with
  | [] => rev reduced
  | component :: components =>
      if bool_decide (component = []) || bytes_eqb component DOT then reduce_loop reduced components
      else if bytes_eqb component DOTDOT then
        match reduced with
        | last :: (_ :: _) as reduced' =>
            if bytes_eqb last DOTDOT then reduce_loop (component :: reduced) components
            else reduce_loop reduced' components
        | [first] =>
            if bool_decide (first = []) then reduce_loop (component :: reduced) components
            else reduce_loop reduced components
        | [] => reduce_loop (component :: reduced) components
        end
      else reduce_loop (component :: reduced) components
  end.

Definition reduce_path_components (components : list bytes) : list bytes :=
  match components with
  | [] => []
  | first :: rest => reduce_loop [first] rest
  end.

Definition normalized_components_from_combined (path : bytes) : list bytes :=
  let root := root_length path in
  reduce_loop [take root path] (split_slash (drop root path)).

(** The loop of [normalized_components] in [comparison.rs], which tests the root
    length where the other tests the first component. *)
Fixpoint normalized_loop (root : nat) (parts : list bytes) (rest : list bytes) : list bytes :=
  match rest with
  | [] => rev parts
  | part :: rest =>
      if bool_decide (part = []) || bytes_eqb part DOT then normalized_loop root parts rest
      else if bytes_eqb part DOTDOT then
        match parts with
        | last :: (_ :: _) as parts' =>
            if negb (bytes_eqb last DOTDOT) then normalized_loop root parts' rest
            else if negb (root =? 0)%nat then normalized_loop root parts rest
            else normalized_loop root (part :: parts) rest
        | _ =>
            if negb (root =? 0)%nat then normalized_loop root parts rest
            else normalized_loop root (part :: parts) rest
        end
      else normalized_loop root (part :: parts) rest
  end.

Definition normalized_components (path cwd : bytes) : list bytes :=
  let path := combine cwd [path] in
  let root := root_length path in
  normalized_loop root [take root path] (split_slash (drop root path)).

Definition path_from_components (parts : list bytes) : bytes :=
  match parts with
  | [] => []
  | first :: rest =>
      (if negb (bool_decide (first = [])) && negb (has_trailing_directory_separator first)
       then first ++ [SLASH] else first) ++ join_with SLASH rest
  end.

(** The byte loop of [has_relative_path_segment]: whether a slash came last, the
    length of the segment, and its leading dots while it has nothing else. *)
Fixpoint relative_segment_loop (previous_slash : bool) (segment : nat) (dots : option nat)
    (path : bytes) : bool :=
  let dot_segment :=
    bool_decide (dots = Some segment) && ((segment =? 1) || (segment =? 2))%nat in
  match path with
  | [] => dot_segment
  | byte :: path =>
      if byte =? SLASH then
        if previous_slash || dot_segment then true
        else relative_segment_loop true 0 (Some 0%nat) path
      else
        relative_segment_loop false (S segment)
          (if byte =? 46 then S <$> dots else None) path
  end.
Definition has_relative_path_segment (path : bytes) : bool :=
  relative_segment_loop false 0 (Some 0%nat) path.

Definition simple_normalize_path (path : bytes) : option bytes :=
  if negb (has_relative_path_segment path) then Some path
  else
    let simplified := simplify_dots path in
    let trimmed := strip_dot_slash simplified in
    let stripped := negb (length trimmed =? length simplified)%nat in
    if negb (bytes_eqb trimmed path) && negb (has_relative_path_segment trimmed)
       && negb (stripped && starts_with [SLASH] trimmed)
    then Some trimmed else None.

(** [for _ in 0..rune_count.max(0)] *)
Fixpoint trim_runes (n : nat) (text : bytes) : bytes :=
  match n with
  | O => text
  | S n =>
      if bool_decide (text = []) then text
      else trim_runes n (drop (snd (decode_utf8 text)) text)
  end.
Definition trim_rune_count (text : bytes) (rune_count : Z) : bytes :=
  trim_runes (Z.to_nat (Z.max rune_count 0)) text.
