(* ===== verification/PathNormal.v ===== *)
(** Normal forms of paths: the three component reducers of the source agree, the
    byte loop that looks for relative segments is the test on components, and
    normalising twice changes nothing. *)

From S2P Require Import Prelude Wtf8 PathComponents.

Local Open Scope Z_scope.

Definition no_slash (s : bytes) : Prop := Forall (λ x, (x =? SLASH) = false) s.

Lemma split_slash_app p l : no_slash p → split_slash (p ++ SLASH :: l) = p :: split_slash l.
Proof. intros. by apply split_on_app. Qed.

Lemma split_slash_piece p : no_slash p → split_slash p = [p].
Proof. apply split_on_piece. Qed.

(** ** The byte loop of [has_relative_path_segment] *)

Definition is_dot_segment (s : bytes) : bool := bytes_eqb s DOT || bytes_eqb s DOTDOT.

(** The loop's counters describe the segment read so far. *)
Definition segment_state (cur : bytes) (dots : option nat) : Prop :=
  dots = if bool_decide (Forall (λ x, x = 46) cur) then Some (length cur) else None.

Lemma dot_segment_test cur dots :
  segment_state cur dots →
  bool_decide (dots = Some (length cur)) && ((length cur =? 1) || (length cur =? 2))%nat
  = is_dot_segment cur.
Proof.
  intros ->. unfold is_dot_segment, bytes_eqb, DOT, DOTDOT.
  destruct (bool_decide_reflect (Forall (λ x, x = 46) cur)) as [Hd|Hd].
  - rewrite bool_decide_true by done.
    destruct Hd as [|a cur -> Hd]; [done|]. destruct Hd as [|b cur -> Hd]; [done|].
    destruct Hd as [|c cur -> Hd]; [done|]. done.
  - rewrite bool_decide_false by done. symmetry. apply orb_false_iff.
    rewrite !bool_decide_eq_false. split; intros ->; apply Hd; repeat constructor.
Qed.

Lemma segment_state_snoc cur dots b :
  segment_state cur dots →
  segment_state (cur ++ [b]) (if b =? 46 then S <$> dots else None).
Proof.
  unfold segment_state. intros ->. rewrite length_app. simpl.
  destruct (bool_decide_reflect (Forall (λ x, x = 46) cur)) as [Hd|Hd];
    destruct (Z.eqb_spec b 46) as [->|Hb].
  - rewrite bool_decide_true; [simpl; f_equal; lia|]. apply Forall_app. by repeat constructor.
  - rewrite bool_decide_false; [done|]. intros [_ H]%Forall_app. by inversion H.
  - rewrite bool_decide_false; [done|]. by intros [H _]%Forall_app.
  - rewrite bool_decide_false; [done|]. by intros [H _]%Forall_app.
Qed.

Lemma starts_with_cons a b p s : starts_with (a :: p) (b :: s) = (a =? b) && starts_with p s.
Proof. unfold starts_with. simpl. by destruct (a =? b). Qed.

Lemma contains_sub_cons pat b s :
  contains_sub pat (b :: s) = starts_with pat (b :: s) || contains_sub pat s.
Proof.
  unfold contains_sub. simpl. destruct (starts_with pat (b :: s)); [done|].
  by destruct (find_sub pat s).
Qed.

Lemma starts_with_nil s : starts_with [] s = true.
Proof. by destruct s. Qed.

Lemma relative_segment_loop_spec path : ∀ previous_slash cur dots,
  no_slash cur → segment_state cur dots → (previous_slash = true → cur = []) →
  relative_segment_loop previous_slash (length cur) dots path
  = (previous_slash && starts_with [SLASH] path)
    || (contains_sub [SLASH; SLASH] path || existsb is_dot_segment (split_slash (cur ++ path))).
Proof.
  induction path as [|b path IH]; intros ps cur dots Hcur Hst Hps.
  - simpl. rewrite (dot_segment_test cur dots Hst), app_nil_r, split_slash_piece by done.
    simpl. by rewrite orb_false_r, andb_false_r.
  - cbn [relative_segment_loop]. rewrite (dot_segment_test cur dots Hst).
    rewrite contains_sub_cons, !starts_with_cons, starts_with_nil, andb_true_r.
    rewrite (Z.eqb_sym SLASH b). destruct (Z.eqb_spec b SLASH) as [->|Hb].
    + rewrite split_slash_app by done. cbn [existsb andb].
      pose proof (IH true [] (Some 0%nat)) as IH'. cbn [length] in IH'.
      rewrite IH' by (done || constructor). rewrite andb_true_r. cbn [andb app].
      destruct ps; [done|]. destruct (is_dot_segment cur); cbn [orb]; [by rewrite orb_true_r|].
      by rewrite orb_assoc.
    + replace (S (length cur)) with (length (cur ++ [b])) by (rewrite length_app; simpl; lia).
      rewrite IH; [| |by apply segment_state_snoc|done].
      * rewrite <-app_assoc. by rewrite andb_false_r.
      * apply Forall_app. split; [done|]. constructor; [by apply Z.eqb_neq|constructor].
Qed.

(** The single-pass test for relative segments in [components.rs] and the
    one by windows and splitting in [path.rs] are the same function. *)
Theorem has_relative_path_segment_spec path :
  has_relative_path_segment path = has_relative_segment path.
Proof.
  unfold has_relative_path_segment, has_relative_segment.
  apply (relative_segment_loop_spec path false [] (Some 0%nat)); [constructor|done|done].
Qed.

(** ** The reducers *)

Lemma normalize_loop_reduce root parts comps :
  reduce_loop (comps ++ [root]) parts
  = root :: normalize_loop (negb (bool_decide (root = []))) comps parts.
Proof.
  revert comps; induction parts as [|p parts IH]; intros comps; simpl.
  { by rewrite rev_app_distr. }
  destruct (bool_decide (p = []) || bytes_eqb p DOT); [by rewrite <-IH|].
  destruct (bytes_eqb p DOTDOT); [|by rewrite <-IH].
  destruct comps as [|last comps]; cbn [app].
  - destruct (bool_decide (root = [])); cbn [negb]; by rewrite <-IH.
  - destruct (comps ++ [root]) as [|x l] eqn:E; [by apply app_nil in E as [_ ?]|]. rewrite <-E.
    destruct (bytes_eqb last DOTDOT); by rewrite <-IH.
Qed.

(** When rooted, no [..] is ever kept. *)
Definition rooted_ok (rooted : bool) (comps : list bytes) : Prop :=
  rooted = true → Forall (λ s, s ≠ DOTDOT) comps.

Lemma normalized_loop_reduce root first parts comps :
  (first = [] ↔ root = 0%nat) → rooted_ok (negb (bool_decide (first = []))) comps →
  normalized_loop root (comps ++ [first]) parts = reduce_loop (comps ++ [first]) parts.
Proof.
  intros Hroot. revert comps; induction parts as [|p parts IH]; intros comps Hok; [done|].
  cbn [normalized_loop reduce_loop].
  destruct (bool_decide (p = []) || bytes_eqb p DOT); [by apply IH|].
  assert (bytes_eqb p DOTDOT = false → normalized_loop root (p :: comps ++ [first]) parts
    = reduce_loop (p :: comps ++ [first]) parts) as Hpush.
  { intros Hp%bytes_eqb_false. apply (IH (p :: comps)). intros Hr. constructor; [done|by apply Hok]. }
  destruct (bytes_eqb p DOTDOT) eqn:Hp; [clear Hpush|by apply Hpush].
  destruct comps as [|last comps]; cbn [app].
  - destruct (bool_decide_reflect (first = [])) as [Hf|Hf]; destruct (Nat.eqb_spec root 0); try tauto;
      cbn [negb]; [apply (IH [p])|apply (IH [])]; done.
  - destruct (comps ++ [first]) as [|x l] eqn:E; [by apply app_nil in E as [_ ?]|]. rewrite <-E.
    destruct (bytes_eqb last DOTDOT) eqn:Hl; cbn [negb].
    + destruct (bool_decide_reflect (first = [])) as [Hf|Hf].
      * destruct (Nat.eqb_spec root 0); [|tauto]. apply (IH (p :: last :: comps)). done.
      * apply bytes_eqb_true in Hl as ->. specialize (Hok eq_refl). by inversion Hok.
    + apply IH. intros Hr. specialize (Hok Hr). by inversion Hok.
Qed.

Lemma root_length_nil : root_length [] = 0%nat.
Proof. done. Qed.

Lemma take_root_nil path : take (root_length path) path = [] ↔ root_length path = 0%nat.
Proof.
  split; [|by intros ->]. destruct path as [|b path]; [done|].
  by destruct (root_length (b :: path)).
Qed.

Lemma reduce_loop_skip_empty reduced l :
  reduce_loop reduced (l ++ [[]]) = reduce_loop reduced l.
Proof.
  revert reduced; induction l as [|p l IH]; intros reduced; [done|]. simpl.
  destruct (bool_decide (p = []) || bytes_eqb p DOT); [done|].
  destruct (bytes_eqb p DOTDOT); [|done].
  destruct reduced as [|last [|x reduced]]; [done| |]; by case_match.
Qed.

Lemma pop_empty_cases l : l = pop_empty l ∨ l = pop_empty l ++ [[]].
Proof.
  unfold pop_empty. destruct (last l) as [[|b s]|] eqn:Hl; [right|by left..].
  apply last_Some in Hl as [l' ->]. rewrite length_app. simpl.
  rewrite Nat.add_sub. by rewrite take_app_length.
Qed.

(** The three ways the source computes reduced components agree on every
    path: splitting and then reducing, the fused loop of [components.rs], the
    fused loop of [comparison.rs] (which tests the root length instead of the
    first component), and the one inside [normalize]. *)
Theorem normalized_components_agree path :
  (reduce_path_components <$> split_path_components path (root_length path)
   = if (root_length path <=? length path)%nat
     then Some (normalized_components_from_combined path) else None)
  ∧ normalized_loop (root_length path) [take (root_length path) path]
      (split_slash (drop (root_length path) path))
    = normalized_components_from_combined path
  ∧ normalized_components_from_combined path
    = take (root_length path) path
      :: normalize_loop (negb (bool_decide (take (root_length path) path = []))) []
           (split_slash (drop (root_length path) path)).
Proof.
  split_and!.
  - unfold split_path_components. destruct (_ <=? _)%nat; [|done]. simpl. f_equal.
    unfold reduce_path_components, normalized_components_from_combined.
    destruct (pop_empty_cases (split_slash (drop (root_length path) path))) as [H|H];
      rewrite H at 2; [done|]. by rewrite reduce_loop_skip_empty.
  - apply (normalized_loop_reduce _ (take (root_length path) path) _ []); [apply take_root_nil|].
    by intros _.
  - apply (normalize_loop_reduce (take (root_length path) path) _ []).
Qed.

(** ** Normalising twice *)

Definition no_backslash (s : bytes) : Prop := Forall (λ x, x ≠ BACKSLASH) s.

Lemma contains_byte_false b s : contains_byte b s = false ↔ Forall (λ x, x ≠ b) s.
Proof.
  unfold contains_byte. induction s as [|x s IH]; [split; [constructor|done]|].
  cbn [existsb]. rewrite orb_false_iff, Forall_cons, IH, Z.eqb_neq. naive_solver.
Qed.

Lemma normalize_slashes_no_backslash s : no_backslash (normalize_slashes s).
Proof.
  unfold normalize_slashes. destruct (contains_byte BACKSLASH s) eqn:E.
  - apply Forall_fmap, Forall_true. intros x. unfold compose. by destruct (Z.eqb_spec x BACKSLASH).
  - by apply contains_byte_false.
Qed.

Lemma normalize_slashes_id s : no_backslash s → normalize_slashes s = s.
Proof. intros H%contains_byte_false. unfold normalize_slashes. by rewrite H. Qed.

(** The component stack between two turns of the loop, innermost first. *)
Fixpoint stable (rooted : bool) (acc : list bytes) : Prop :=
  match acc with
  | [] => True
  | c :: acc =>
      c ≠ [] ∧ c ≠ DOT ∧ no_slash c ∧ no_backslash c ∧ stable rooted acc
      ∧ (c = DOTDOT → rooted = false ∧ match acc with [] => True | d :: _ => d = DOTDOT end)
  end.

Lemma normalize_loop_stable rooted parts acc :
  stable rooted acc → Forall no_slash parts → Forall no_backslash parts →
  ∃ acc', normalize_loop rooted acc parts = rev acc' ∧ stable rooted acc'.
Proof.
  intros Hacc Hs Hb. revert acc Hacc. induction parts as [|p parts IH]; intros acc Hacc.
  { by exists acc. }
  apply Forall_cons in Hs as [Hps Hs], Hb as [Hpb Hb]. specialize (IH Hs Hb). simpl.
  destruct (bool_decide_reflect (p = [])) as [->|Hp]; [by apply IH|]. cbn [orb].
  destruct (bytes_eqb p DOT) eqn:Hdot; [by apply IH|]. apply bytes_eqb_false in Hdot.
  destruct (bytes_eqb p DOTDOT) eqn:Hdd; [apply bytes_eqb_true in Hdd as ->|
    apply bytes_eqb_false in Hdd; apply IH; simpl; naive_solver].
  destruct acc as [|d acc].
  - destruct rooted; apply IH; simpl; naive_solver.
  - destruct (bytes_eqb d DOTDOT) eqn:Hd; apply IH.
    + apply bytes_eqb_true in Hd as ->. simpl in *. naive_solver.
    + by destruct Hacc as (_ & _ & _ & _ & ? & _).
Qed.

(** On an already reduced prefix the loop only pushes. *)
Lemma normalize_loop_id rooted acc parts :
  stable rooted acc → normalize_loop rooted [] (rev acc ++ parts) = normalize_loop rooted acc parts.
Proof.
  revert parts; induction acc as [|c acc IH]; intros parts H; [done|].
  destruct H as (Hc1 & Hc2 & _ & _ & Hacc & Hdd). simpl. rewrite <-app_assoc, IH by done.
  cbn [app normalize_loop]. rewrite bool_decide_false by done.
  apply bytes_eqb_false in Hc2 as ->. cbn [orb].
  destruct (bytes_eqb c DOTDOT) eqn:Hd; [|done]. apply bytes_eqb_true in Hd as ->.
  destruct (Hdd eq_refl) as [-> Hhd]. destruct acc as [|d acc]; [done|].
  subst d. simpl. done.
Qed.

Lemma normalize_loop_skip_empty rooted acc : normalize_loop rooted acc [[]] = rev acc.
Proof. done. Qed.

Lemma stable_clean rooted acc :
  stable rooted acc → Forall no_slash (rev acc) ∧ Forall no_backslash (rev acc)
    ∧ Forall (λ c, c ≠ [] ∧ c ≠ DOT) (rev acc).
Proof.
  intros H. induction acc as [|c acc IH]; [by repeat constructor|].
  destruct H as (? & ? & ? & ? & Hacc & _). apply IH in Hacc as (? & ? & ?).
  cbn [rev]. rewrite !Forall_app, !Forall_singleton. naive_solver.
Qed.

Lemma ends_with_slash_snoc s : ends_with [SLASH] (s ++ [SLASH]) = true.
Proof. apply ends_with_true. by exists s. Qed.

(** A path already in the shape the component path of [normalize] produces. *)
Record normal_shape (root : bytes) (acc : list bytes) (trailing : bytes) : Prop := {
  shape_root : root_length (root ++ join_with SLASH (rev acc) ++ trailing) = length root;
  shape_push : push_slash_unless root = root;
  shape_stable : stable (negb (bool_decide (root = []))) acc;
  shape_trailing : trailing = []
    ∨ trailing = [SLASH] ∧ root ++ join_with SLASH (rev acc) ≠ []
      ∧ ends_with [SLASH] (root ++ join_with SLASH (rev acc)) = false;
}.

Lemma split_join_trailing acc trailing :
  Forall no_slash acc → trailing = [] ∨ trailing = [SLASH] →
  ∃ extra, split_slash (join_with SLASH acc ++ trailing) = acc ++ extra ∧ Forall (λ s, s = []) extra.
Proof.
  intros Hacc Ht. destruct (decide (acc = [])) as [->|Hne].
  - destruct Ht as [->| ->]; simpl; [exists [[]]|exists [[]; []]]; by repeat constructor.
  - destruct Ht as [->| ->].
    + exists []. rewrite !app_nil_r. split; [|constructor]. by apply split_join.
    + exists [[]]. split; [|by repeat constructor].
      induction Hacc as [|p ps Hp Hps IH]; [done|]. destruct ps as [|q ps].
      * simpl. by rewrite split_slash_app.
      * change (join_with SLASH (p :: q :: ps)) with (p ++ SLASH :: join_with SLASH (q :: ps)).
        rewrite <-app_assoc. cbn [app]. rewrite split_slash_app by done. by rewrite IH.
Qed.

Lemma normalize_loop_empties rooted acc extra :
  Forall (λ s, s = []) extra → normalize_loop rooted acc extra = rev acc.
Proof. induction 1 as [|x extra -> Hx IH]; [done|]. by rewrite <-IH. Qed.

Lemma normalize_components_fix root acc trailing :
  normal_shape root acc trailing →
  normalize_components (root ++ join_with SLASH (rev acc) ++ trailing)
  = root ++ join_with SLASH (rev acc) ++ trailing.
Proof.
  intros [Hr Hp Hst Ht]. unfold normalize_components. rewrite Hr.
  rewrite take_app_length, drop_app_length, Hp.
  destruct (stable_clean _ _ Hst) as (Hns & _ & _).
  destruct (split_join_trailing (rev acc) trailing Hns) as (extra & -> & He); [naive_solver|].
  rewrite normalize_loop_id, normalize_loop_empties by done.
  destruct Ht as [->|(-> & Hne & Hend)].
  - rewrite !app_nil_r. by destruct (ends_with [SLASH] _); rewrite ?andb_false_r.
  - rewrite bool_decide_false by done. rewrite Hend, app_assoc, ends_with_slash_snoc. done.
Qed.

(** The fast path cannot fire on a path that simplification leaves alone, nor
    on one that keeps a relative segment. *)
Lemma normalize_fix r :
  no_backslash r → normalize_components r = r →
  strip_dot_slash (simplify_dots r) = r
    ∨ has_relative_segment (strip_dot_slash (simplify_dots r)) = true →
  normalize r = r.
Proof.
  intros Hb Hc Hf. unfold normalize. rewrite normalize_slashes_id by done.
  destruct (has_relative_segment r); [|done]. cbn [negb].
  destruct Hf as [->| ->]; [unfold bytes_eqb; rewrite bool_decide_true by done|]; cbn [negb andb];
    rewrite ?andb_false_r; done.
Qed.

Lemma split_slash_cons_slash l : split_slash (SLASH :: l) = [] :: split_slash l.
Proof. done. Qed.

Lemma split_slash_cons b l :
  b ≠ SLASH → ∃ p ps, split_slash l = p :: ps ∧ split_slash (b :: l) = (b :: p) :: ps.
Proof.
  intros Hb%Z.eqb_neq. unfold split_slash. simpl. rewrite Hb.
  pose proof (split_on_not_nil (λ b, b =? SLASH) l). destruct (split_on _ l); [done|]. eauto.
Qed.

Lemma simplify_dots_cons a b c rest :
  simplify_dots (a :: b :: c :: rest)
  = if (a =? SLASH) && (b =? 46) && (c =? SLASH)
    then SLASH :: simplify_dots rest else a :: simplify_dots (b :: c :: rest).
Proof. done. Qed.

Lemma simplify_dots_id s : Forall (λ p, p ≠ DOT) (tail (split_slash s)) → simplify_dots s = s.
Proof.
  remember (length s) as n eqn:Hn. revert s Hn.
  induction n as [|n IH]; intros s Hn H; [by destruct s|].
  destruct s as [|a s]; [done|]. injection Hn as Hn.
  assert (simplify_dots s = s) as Hs.
  { apply IH; [done|]. destruct (decide (a = SLASH)) as [->|Ha].
    - rewrite split_slash_cons_slash in H. simpl in H. by destruct (split_slash s); inversion H.
    - destruct (split_slash_cons a s Ha) as (p & ps & E1 & E2). rewrite E1. by rewrite E2 in H. }
  destruct s as [|b [|c s]]; [done|done|].
  rewrite simplify_dots_cons. destruct (_ && _ && _) eqn:E; [|by rewrite Hs].
  rewrite !andb_true_iff, !Z.eqb_eq in E. destruct E as [[-> ->] ->]. exfalso.
  rewrite split_slash_cons_slash in H. simpl tail in H.
  destruct (split_slash_cons 46 (SLASH :: s)) as (p & ps & E1 & E2); [done|].
  rewrite split_slash_cons_slash in E1. injection E1 as <- <-. rewrite E2 in H.
  by inversion H.
Qed.

Lemma strip_dot_slash_id s : head (split_slash s) ≠ Some DOT → strip_dot_slash s = s.
Proof.
  intros H. unfold strip_dot_slash. destruct (strip_prefix [46; SLASH] s) as [r|] eqn:E; [|done].
  apply strip_prefix_Some in E as ->. by destruct H.
Qed.

Lemma contains_double_app p s :
  no_slash p → contains_sub [SLASH; SLASH] (p ++ s) = contains_sub [SLASH; SLASH] s.
Proof.
  induction 1 as [|b p Hb Hp IH]; [done|]. cbn [app].
  rewrite contains_sub_cons, starts_with_cons, IH. by rewrite Z.eqb_sym, Hb.
Qed.

Lemma starts_with_slash_app p s : p ≠ [] → no_slash p → starts_with [SLASH] (p ++ s) = false.
Proof.
  intros Hne Hp. destruct Hp as [|b p Hb Hp]; [done|]. cbn [app].
  by rewrite starts_with_cons, Z.eqb_sym, Hb.
Qed.

Lemma contains_double_join ps trailing :
  Forall no_slash ps → Forall (λ c, c ≠ []) ps →
  trailing = [] ∨ trailing = [SLASH] →
  contains_sub [SLASH; SLASH] (join_with SLASH ps ++ trailing) = false.
Proof.
  intros Hs Hne Ht. induction Hs as [|p ps Hp Hs IH]; [by destruct Ht as [->| ->]|].
  apply Forall_cons in Hne as [Hpn Hne]. specialize (IH Hne). destruct ps as [|q ps].
  { simpl. rewrite contains_double_app by done. by destruct Ht as [->| ->]. }
  change (join_with SLASH (p :: q :: ps)) with (p ++ SLASH :: join_with SLASH (q :: ps)).
  rewrite <-app_assoc, contains_double_app by done. cbn [app].
  rewrite contains_sub_cons, IH, orb_false_r, starts_with_cons. cbn [Z.eqb].
  apply Forall_cons in Hs as [Hq _], Hne as [Hqn _].
  destruct ps as [|q' ps]; simpl; rewrite <-?app_assoc; by rewrite starts_with_slash_app.
Qed.

(** ** What [normalize] returns from the component path *)

(** The roots of a path on which the component path runs, with the separator
    [push_slash_unless] appends: none; a slash, possibly after a drive or a
    caret; a server. *)
Inductive root_class : bytes → Prop :=
  | root_class_none : root_class []
  | root_class_plain pre : no_slash pre → no_backslash pre → is_dot_segment pre = false →
      root_class (pre ++ [SLASH])
  | root_class_server srv : no_slash srv → no_backslash srv →
      root_class (SLASH :: SLASH :: srv ++ [SLASH]).

Lemma root_class_push root : root_class root → push_slash_unless root = root.
Proof.
  destruct 1; [done| |]; unfold push_slash_unless; rewrite ?app_comm_cons;
    by rewrite ends_with_slash_snoc, andb_false_r.
Qed.

Lemma no_slash_Forall s : Forall (λ x, x ≠ SLASH) s ↔ no_slash s.
Proof. apply Forall_iff. intros x. by rewrite Z.eqb_neq. Qed.

Lemma position_slash_first p s :
  no_slash p → position (Z.eqb SLASH) (p ++ SLASH :: s) = Some (length p).
Proof.
  induction 1 as [|b p Hb Hp IH]; [done|]. cbn [app position].
  by rewrite Z.eqb_sym, Hb, IH.
Qed.

Lemma no_backslash_not_separator b : b ≠ BACKSLASH → b ≠ SLASH → separator b = false.
Proof. unfold separator. intros ?%Z.eqb_neq ?%Z.eqb_neq. by apply orb_false_iff. Qed.

Lemma url_root_length_neg path e : url_root_length path e < 0.
Proof.
  unfold url_root_length. unfold Z.lnot.
  repeat case_match; lia.
Qed.

Lemma root_class_push_app pre :
  pre ≠ [] → no_slash pre → no_backslash pre → is_dot_segment pre = false →
  root_class (push_slash_unless pre).
Proof.
  intros Hne Hs Hb Hd. unfold push_slash_unless. rewrite bool_decide_false by done.
  destruct (ends_with [SLASH] pre) eqn:E; [|by constructor].
  apply ends_with_true in E as [p ->]. apply Forall_app in Hs as [_ Hs]. by inversion Hs.
Qed.

Lemma drive_not_dot a : is_dot_segment [a; ch ":"] = false.
Proof. apply orb_false_iff. by rewrite !bytes_eqb_false. Qed.

Lemma root_class_unc s :
  no_backslash s → s ≠ [] →
  root_class (push_slash_unless
    (take (match position (Z.eqb SLASH) s with
           | Some e => e + 3 | None => length (SLASH :: SLASH :: s) end) (SLASH :: SLASH :: s))).
Proof.
  intros Hb Hne. destruct (position (Z.eqb SLASH) s) as [e|] eqn:He.
  - apply position_Some in He as (x & Hx & Hsx & Hlt). apply Z.eqb_eq in Hsx as <-.
    replace (e + 3)%nat with (S (S (S e))) by lia. cbn [take]. erewrite take_S_r by done.
    rewrite root_class_push; constructor; try by apply Forall_take.
    all: apply (Forall_impl _ _ _ Hlt); intros y; by rewrite Z.eqb_sym.
  - apply position_None in He. rewrite take_ge by lia.
    assert (no_slash s) as Hs. { apply (Forall_impl _ _ _ He). intros y. by rewrite Z.eqb_sym. }
    unfold push_slash_unless. destruct (ends_with [SLASH] (SLASH :: SLASH :: s)) eqn:E.
    + apply ends_with_true in E as [p E]. destruct (exists_last Hne) as (s' & y & ->).
      rewrite !app_comm_cons in E. apply app_inj_tail in E as [_ ->].
      apply Forall_app in Hs as [_ Hs]. by inversion Hs.
    + by constructor.
Qed.

(** The root a slash-normalised path has, with its final separator. *)
Lemma encoded_root_class s :
  no_backslash s → s ≠ [SLASH; SLASH] → 0 <= encoded_root_length s →
  root_class (push_slash_unless (take (root_length s) s)).
Proof.
  intros Hb Hne Henc. unfold root_length. destruct (encoded_root_length s <? 0) eqn:E; [lia|]. clear E.
  destruct s as [|a s]; [constructor|]. apply Forall_cons in Hb as [Ha Hb].
  cbn [encoded_root_length] in *. unfold get_is in *. cbn [lookup list_lookup] in *.
  destruct (separator a) eqn:Hsep.
  - assert (a = SLASH) as ->.
    { destruct (decide (a = SLASH)); [done|]. by rewrite no_backslash_not_separator in Hsep. }
    destruct s as [|b s]; cbn [lookup list_lookup negb] in *; [apply (root_class_plain []); by try constructor|].
    destruct (Z.eqb_spec b SLASH) as [->|]; cbn [negb drop]; [|apply (root_class_plain []); by try constructor].
    apply Forall_cons in Hb as [_ Hb]. assert (s ≠ []) as Hs by congruence. pose proof (root_class_unc s Hb Hs) as H.
    rewrite drop_0. destruct (position (Z.eqb SLASH) s); by rewrite Nat2Z.id.
  - apply orb_false_iff in Hsep as [Hsl _].
    destruct (is_ascii_alphabetic a && _ && (_ =? 2)%nat) eqn:E2.
    { rewrite !andb_true_iff in E2. destruct E2 as [[_ E2] _].
      destruct s as [|b s]; [done|]. cbn [lookup list_lookup] in *. apply Z.eqb_eq in E2 as ->.
      apply (root_class_push_app [a; ch ":"]); [done|..]; by repeat constructor || apply drive_not_dot. }
    clear E2. destruct (is_ascii_alphabetic a && _ && separator _) eqn:E3.
    { rewrite !andb_true_iff in E3. destruct E3 as [[_ E2] E3].
      destruct s as [|b [|c s]]; [done..|]. cbn [lookup list_lookup nth] in *. apply Z.eqb_eq in E2 as ->.
      apply Forall_cons in Hb as [_ Hb], Hb as [Hc _].
      assert (c = SLASH) as ->.
      { destruct (decide (c = SLASH)); [done|]. by rewrite no_backslash_not_separator in E3. }
      apply (root_class_plain [a; ch ":"]); by repeat constructor || apply drive_not_dot. }
    clear E3. destruct ((a =? ch "^") && _) eqn:E4.
    { rewrite andb_true_iff in E4. destruct E4 as [Ea E4].
      destruct s as [|b s]; [done|]. cbn [lookup list_lookup] in *. apply Z.eqb_eq in E4 as ->.
      apply Z.eqb_eq in Ea as ->. apply (root_class_plain [ch "^"]); by repeat constructor. }
    destruct (find_sub _ _); [|constructor].
    match goal with H : 0 <= url_root_length ?p ?e |- _ => pose proof (url_root_length_neg p e); lia end.
Qed.

(** A component stack without [..], or one whose outermost component is [..]. *)
Lemma stable_dotdot rooted acc :
  stable rooted acc →
  Forall (λ c, c ≠ DOTDOT) acc ∨ rooted = false ∧ ∃ ps, rev acc = DOTDOT :: ps.
Proof.
  induction acc as [|c acc IH]; intros H; [by left; constructor|].
  destruct H as (_ & _ & _ & _ & Hacc & Hdd). destruct (IH Hacc) as [Hall|[Hr [ps Hps]]].
  - destruct (decide (c = DOTDOT)) as [->|Hc]; [right|left; by constructor].
    destruct (Hdd eq_refl) as [Hr Hhd]. split; [done|]. destruct acc as [|d acc]; [by exists []|].
    subst d. by inversion Hall.
  - right. split; [done|]. exists (ps ++ [c]). cbn [rev]. by rewrite Hps.
Qed.

(** Without [..] and after at most one plain root nothing relative is left. *)
Lemma no_relative_left rooted acc pre trailing :
  stable rooted acc → Forall (λ c, c ≠ DOTDOT) acc →
  trailing = [] ∨ trailing = [SLASH] →
  has_relative_segment (join_with SLASH (rev acc) ++ trailing) = false
  ∧ (no_slash pre → is_dot_segment pre = false → (acc = [] → trailing = []) →
     has_relative_segment (pre ++ SLASH :: join_with SLASH (rev acc) ++ trailing) = false).
Proof.
  intros Hst Hdd Ht. destruct (stable_clean _ _ Hst) as (Hs & _ & Hne).
  destruct (split_join_trailing (rev acc) trailing Hs Ht) as (extra & Hsplit & Hextra).
  assert (existsb is_dot_segment (rev acc ++ extra) = false) as Hseg.
  { apply not_true_iff_false. rewrite existsb_exists. intros (x & Hx%list_elem_of_In & Hdot).
    unfold is_dot_segment in Hdot. rewrite orb_true_iff, !bytes_eqb_true in Hdot.
    rewrite Forall_forall in Hne, Hdd, Hextra.
    apply elem_of_app in Hx as [Hx|Hx]; [|apply Hextra in Hx as ->; by destruct Hdot].
    destruct Hdot as [->| ->]; [by destruct (Hne _ Hx)|].
    apply (Hdd DOTDOT); [|done]. by rewrite list_elem_of_In, in_rev, <-list_elem_of_In. }
  assert (contains_sub [SLASH; SLASH] (join_with SLASH (rev acc) ++ trailing) = false) as Hdbl.
  { apply contains_double_join; [done| |done]. apply (Forall_impl _ _ _ Hne). by intros ? []. }
  unfold has_relative_segment.
  change (λ s, bytes_eqb s DOT || bytes_eqb s DOTDOT) with is_dot_segment.
  split; [by rewrite Hdbl, Hsplit|].
  intros Hpre Hpd Hempty. rewrite split_slash_app, Hsplit by done. cbn [existsb].
  rewrite Hpd, contains_double_app, contains_sub_cons, Hdbl, Hseg, starts_with_cons, !orb_false_r by done.
  destruct (rev acc) as [|c cs] eqn:Hacc.
  - rewrite Hempty; [done|]. by rewrite <-(rev_involutive acc), Hacc.
  - apply Forall_cons in Hs as [Hc _], Hne as [[Hcn _] _].
    destruct cs; cbn [join_with]; rewrite <-?app_assoc; by rewrite starts_with_slash_app, andb_false_r.
Qed.

(** The result of the component path, taken apart. *)
Lemma normalize_components_inv s :
  no_backslash s → s ≠ [SLASH; SLASH] → 0 <= encoded_root_length s →
  ∃ root acc trailing, normalize_components s = root ++ join_with SLASH (rev acc) ++ trailing
    ∧ root_class root ∧ stable (negb (bool_decide (root = []))) acc
    ∧ (trailing = [] ∨ trailing = [SLASH] ∧ root ++ join_with SLASH (rev acc) ≠ []
         ∧ ends_with [SLASH] (root ++ join_with SLASH (rev acc)) = false).
Proof.
  intros Hb Hne Henc. unfold normalize_components.
  pose proof (encoded_root_class s Hb Hne Henc) as Hroot.
  set (root := take (root_length s) s) in *.
  assert (bool_decide (push_slash_unless root = []) = bool_decide (root = [])) as Hnil.
  { apply bool_decide_ext. unfold push_slash_unless. destruct root; [done|].
    by destruct (ends_with _ _). }
  destruct (normalize_loop_stable (negb (bool_decide (root = []))) (split_slash (drop (root_length s) s)) [])
    as (acc & -> & Hst).
  { done. }
  { apply split_on_pieces. }
  { by apply split_on_Forall, Forall_drop. }
  exists (push_slash_unless root), acc. rewrite Hnil.
  destruct (_ && _ && _) eqn:E.
  - rewrite !andb_true_iff, !negb_true_iff, bool_decide_eq_false in E. destruct E as [[E1 _] E2].
    exists [SLASH]. rewrite app_assoc. naive_solver.
  - exists []. rewrite app_nil_r. naive_solver.
Qed.

Lemma server_root_length srv s :
  no_slash srv → root_length (SLASH :: SLASH :: srv ++ SLASH :: s) = (length srv + 3)%nat.
Proof.
  intros Hs. unfold root_length. cbn [encoded_root_length]. change (separator SLASH) with true.
  cbn -[position]. rewrite drop_0, position_slash_first, Z.eqb_refl by done. cbn [negb].
  destruct (Z.ltb_spec (Z.of_nat (length srv + 3)) 0); lia.
Qed.

Lemma root_length_dotdot ps :
  Forall no_slash ps → Forall (λ c, c ≠ []) ps → ∀ trailing, trailing = [] ∨ trailing = [SLASH] →
  root_length (join_with SLASH (DOTDOT :: ps) ++ trailing) = 0%nat.
Proof.
  intros Hs Hne trailing Ht.
  assert (contains_sub [SLASH; SLASH] (join_with SLASH (DOTDOT :: ps) ++ trailing) = false) as Hd.
  { apply contains_double_join; [by repeat constructor..|done]. }
  assert (∃ t, join_with SLASH (DOTDOT :: ps) ++ trailing = 46 :: t) as [t Et].
  { destruct ps; simpl; eauto. }
  rewrite Et in *. unfold root_length. cbn [encoded_root_length].
  change (separator 46) with false. change (is_ascii_alphabetic 46) with false. cbn [andb].
  change (46 =? ch "^") with false. cbn [andb].
  destruct (find_sub (bs "://") (46 :: t)) as [e|] eqn:E; [|done]. exfalso.
  apply find_sub_Some in E as (a & b & E & _). rewrite E in Hd.
  apply not_true_iff_false in Hd as []. apply contains_sub_true.
  exists (a ++ [ch ":"]), b. by rewrite <-app_assoc.
Qed.

Lemma simplify_dots_Forall (P : Z → Prop) s : Forall P s → Forall P (simplify_dots s).
Proof.
  remember (length s) as n eqn:Hn. revert s Hn.
  induction n as [n IH] using lt_wf_ind. intros s -> H.
  destruct s as [|a [|b [|c s]]]; [done..|]. rewrite simplify_dots_cons.
  rewrite !Forall_cons in H. destruct H as (Ha & Hb & Hc & Hs).
  destruct (_ && _ && _) eqn:E.
  - rewrite !andb_true_iff, !Z.eqb_eq in E. destruct E as [[-> _] _].
    constructor; [done|]. apply (IH (length s)); [simpl; lia|done..].
  - constructor; [done|]. apply (IH (length (b :: c :: s))); [simpl; lia|done|by repeat constructor].
Qed.

Lemma strip_dot_slash_Forall (P : Z → Prop) s : Forall P s → Forall P (strip_dot_slash s).
Proof.
  intros H. unfold strip_dot_slash. destruct (strip_prefix [46; SLASH] s) as [r|] eqn:E; [|done].
  apply strip_prefix_Some in E as ->. by apply Forall_app in H as [_ ?].
Qed.

Lemma normalize_no_relative r : no_backslash r → has_relative_segment r = false → normalize r = r.
Proof. intros Hb Hr. unfold normalize. by rewrite normalize_slashes_id, Hr by done. Qed.

Lemma root_class_no_backslash root : root_class root → no_backslash root.
Proof.
  destruct 1; unfold no_backslash in *; rewrite ?Forall_cons, ?Forall_app, ?Forall_singleton;
    repeat split; try done.
Qed.

Lemma component_result_no_backslash root rooted acc trailing :
  root_class root → stable rooted acc → trailing = [] ∨ trailing = [SLASH] →
  no_backslash (root ++ join_with SLASH (rev acc) ++ trailing).
Proof.
  intros Hr Hst Ht. destruct (stable_clean _ _ Hst) as (_ & Hb & _).
  apply Forall_app. split; [by apply root_class_no_backslash|]. apply Forall_app. split.
  - by apply join_with_Forall.
  - destruct Ht as [->| ->]; by repeat constructor.
Qed.

(** A relative result that starts with [..]. *)
Lemma normalize_fix_dotdot acc ps trailing :
  stable false acc → rev acc = DOTDOT :: ps →
  trailing = [] ∨ trailing = [SLASH] ∧ join_with SLASH (rev acc) ≠ []
    ∧ ends_with [SLASH] (join_with SLASH (rev acc)) = false →
  normalize (join_with SLASH (rev acc) ++ trailing) = join_with SLASH (rev acc) ++ trailing.
Proof.
  intros Hst Hps Ht'. assert (trailing = [] ∨ trailing = [SLASH]) as Ht by naive_solver.
  destruct (stable_clean _ _ Hst) as (Hs & _ & Hclean).
  destruct (split_join_trailing (rev acc) trailing Hs Ht) as (extra & Hsplit & Hextra).
  apply normalize_fix.
  - apply (component_result_no_backslash [] false); [constructor|done..].
  - apply (normalize_components_fix []). constructor; [|done|done|naive_solver].
    rewrite Hps in *. apply Forall_cons in Hs as [_ Hs], Hclean as [_ Hclean].
    apply root_length_dotdot; [done| |done]. apply (Forall_impl _ _ _ Hclean). by intros ? [].
  - left. rewrite simplify_dots_id, strip_dot_slash_id; rewrite ?Hsplit; [done| |].
    + by rewrite Hps.
    + rewrite Hps in *. apply Forall_cons in Hclean as [_ Hclean]. cbn [app tail].
      apply Forall_app. split; [apply (Forall_impl _ _ _ Hclean); by intros ? []|].
      by apply (Forall_impl _ _ _ Hextra); intros ? ->.
Qed.

(** A result on a server keeps its double slash, so it is reduced once more, to itself. *)
Lemma normalize_fix_server srv acc trailing :
  no_slash srv → no_backslash srv → stable true acc →
  trailing = [] ∨ trailing = [SLASH] ∧ ends_with [SLASH] (SLASH :: SLASH :: (srv ++ [SLASH]) ++ join_with SLASH (rev acc)) = false →
  normalize ((SLASH :: SLASH :: srv ++ [SLASH]) ++ join_with SLASH (rev acc) ++ trailing)
  = (SLASH :: SLASH :: srv ++ [SLASH]) ++ join_with SLASH (rev acc) ++ trailing.
Proof.
  intros Hs Hb Hst Ht. apply normalize_fix.
  - eapply component_result_no_backslash; [by constructor|done|naive_solver].
  - apply normalize_components_fix. constructor; [|by apply root_class_push; constructor|done|].
    + cbn [app]. rewrite <-app_assoc. cbn [app]. rewrite server_root_length by done.
      simpl. rewrite length_app. simpl. lia.
    + naive_solver.
  - right. cbn [app].
    match goal with |- context [simplify_dots (SLASH :: SLASH :: ?x)] => generalize x end. intros x.
    destruct (simplify_dots (SLASH :: x)) as [|y t] eqn:E.
    { destruct x as [|? [|??]]; [done..|]. rewrite simplify_dots_cons in E. by case_match. }
    assert (y = SLASH) as ->.
    { destruct x as [|? [|??]]; [simpl in E; congruence..|]. rewrite simplify_dots_cons in E.
      case_match; congruence. }
    assert (simplify_dots (SLASH :: SLASH :: x) = SLASH :: SLASH :: t) as ->.
    { destruct x as [|c x]; [simpl in *; congruence|]. rewrite simplify_dots_cons. cbn [Z.eqb].
      change (SLASH =? 46) with false. by rewrite andb_false_r, E. }
    done.
Qed.

(** [C35] Normalising a normalised path changes nothing, for every path whose
    root is not a URL: the fast paths, the reduced relative paths that keep
    their leading [..], drives, the caret root and server names, with or
    without a trailing separator. *)
Theorem normalize_idempotent path :
  0 <= encoded_root_length (normalize_slashes path) →
  normalize (normalize path) = normalize path.
Proof.
  intros Henc. pose proof (normalize_slashes_no_backslash path) as Hb.
  unfold normalize at 2 3. set (s := normalize_slashes path) in *.
  destruct (has_relative_segment s) eqn:Hrel; cbn [negb]; [|by apply normalize_no_relative].
  destruct (_ && _ && _) eqn:E.
  { rewrite !andb_true_iff, !negb_true_iff in E. destruct E as [[_ E] _].
    apply normalize_no_relative; [|done]. by apply strip_dot_slash_Forall, simplify_dots_Forall. }
  clear E. destruct (decide (s = [SLASH; SLASH])) as [->|Hne]; [done|].
  destruct (normalize_components_inv s Hb Hne Henc) as (root & acc & trailing & -> & Hroot & Hst & Ht).
  assert (trailing = [] ∨ trailing = [SLASH]) as Htr by naive_solver.
  pose proof (component_result_no_backslash root _ acc trailing Hroot Hst Htr) as Hrb.
  destruct Hroot as [|pre Hps Hpb Hpd|srv Hs Hsb].
  - destruct (stable_dotdot _ _ Hst) as [Hdd|[_ [ps Hps]]].
    + apply normalize_no_relative; [done|]. by apply (no_relative_left false acc []).
    + by eapply normalize_fix_dotdot.
  - destruct (stable_dotdot _ _ Hst) as [Hdd|[Hr _]]; [|by destruct pre].
    apply normalize_no_relative; [done|]. rewrite <-app_assoc. cbn [app].
    eapply no_relative_left; [done..|]. intros ->. destruct Ht as [?|(_ & _ & Ht)]; [done|].
    cbn [rev join_with] in Ht. rewrite app_nil_r in Ht. by rewrite ends_with_slash_snoc in Ht.
  - apply normalize_fix_server; [done..|]. naive_solver.
Qed.

Lemma normalize_idempotent_witness :
  0 <= encoded_root_length (normalize_slashes (bs "\\host\share/./a//../b/"))
  ∧ normalize (normalize (bs "\\host\share/./a//../b/")) = normalize (bs "\\host\share/./a//../b/").
Proof.
  assert (0 <= encoded_root_length (normalize_slashes (bs "\\host\share/./a//../b/"))) as H
    by (vm_compute; discriminate).
  split; [exact H|]. exact (normalize_idempotent (bs "\\host\share/./a//../b/") H).
Defined.

(** With a URL root the hypothesis is needed: reduction can expose a volume
    that the second pass takes into the root. *)
Example normalize_url_twice :
  normalize (bs "file:///x/../c:") = bs "file:///c:"
  ∧ normalize (bs "file:///c:/../c:") = bs "file:///c:/c:"
  ∧ normalize (bs "file:///./c:") = bs "file:///c:".
Proof. vm_compute. split_and!; reflexivity. Qed.
