(* ===== verification/PathCompare.v ===== *)
(** Case folding and path comparison: [crates/tsr_jsstring/src/simple_fold.rs],
    [compare.rs] and the Go lower-casing of [helpers.rs], and the functions of
    [crates/tsr_tspath/src] that compare, canonicalise and relativise paths.
    All of it is over the case tables of [CaseTables]. *)

From stdpp Require Import gmap sorting.
From S2P Require Import Prelude Wtf8 PathComponents PathNormal.

Local Open Scope Z_scope.

(** ** Folding and comparing strings *)

Section CaseFold.
Context `{CaseTables}.

(** [while folded != small && folded < large]; a cycle closes within four steps. *)
Fixpoint fold_walk (fuel : nat) (small large folded : Z) : Z :=
  match fuel with
  | O => folded
  | S fuel =>
      if negb (folded =? small) && (folded <? large)
      then fold_walk fuel small large (simple_fold folded)
      else folded
  end.

Definition fold_equal (a b : Z) : bool :=
  if a =? b then true
  else
    let small := if a <? b then a else b in
    let large := if a <? b then b else a in
    fold_walk 4 small large (simple_fold small) =? large.

Fixpoint equal_fold_fuel (fuel : nat) (left right : bytes) : bool :=
  match fuel with
  | O => bool_decide (left = []) && bool_decide (right = [])
  | S fuel =>
      if bool_decide (left = []) || bool_decide (right = [])
      then bool_decide (left = []) && bool_decide (right = [])
      else
        let '(a, width_a) := decode_utf8 left in
        let '(b, width_b) := decode_utf8 right in
        if fold_equal a b
        then equal_fold_fuel fuel (drop width_a left) (drop width_b right)
        else false
  end.
Definition equal_fold (left right : bytes) : bool := equal_fold_fuel (length left) left right.

Fixpoint to_lower_go_fuel (fuel : nat) (text : bytes) : bytes :=
  match fuel with
  | O => []
  | S fuel =>
      match text with
      | [] => []
      | _ =>
          let '(rune, width) := decode_utf8 text in
          append_rune (simple_lower rune) ++ to_lower_go_fuel fuel (drop width text)
      end
  end.
Definition to_lower_go (text : bytes) : bytes :=
  if forallb is_ascii text then to_ascii_lowercase <$> text
  else to_lower_go_fuel (length text) text.

Definition lower_first_char (text : bytes) : bytes :=
  let '(rune, width) := decode_utf8 text in
  if (width =? 0)%nat then text
  else append_rune (simple_lower rune) ++ drop width text.

Definition equate_case_sensitive (a b : bytes) : bool := bytes_eqb a b.
Definition equality_comparer (ignore_case : bool) : bytes → bytes → bool :=
  if ignore_case then equal_fold else equate_case_sensitive.
Definition compare_case_sensitive (a b : bytes) : comparison := bytes_cmp a b.

(** The [loop] of [compare_case_insensitive]; each turn drops a rune of both. *)
Fixpoint compare_insensitive_loop (fuel : nat) (a b : bytes) : comparison :=
  match fuel with
  | O => Eq
  | S fuel =>
      let '(ca, sa) := decode_utf8 a in
      let '(cb, sb) := decode_utf8 b in
      if (sa =? 0)%nat || (sb =? 0)%nat then Nat.compare sa sb
      else match Z.compare (simple_lower ca) (simple_lower cb) with
           | Eq => compare_insensitive_loop fuel (drop sa a) (drop sb b)
           | order => order
           end
  end.
Definition compare_case_insensitive (a b : bytes) : comparison :=
  if bytes_eqb a b then Eq else compare_insensitive_loop (S (length a)) a b.

Definition comparer (ignore_case : bool) : bytes → bytes → comparison :=
  if ignore_case then compare_case_insensitive else compare_case_sensitive.
Definition compare_case_insensitive_then_sensitive (a b : bytes) : comparison :=
  then_with (compare_case_insensitive a b) (bytes_cmp a b).
Definition compare_case_insensitive_eslint (a b : bytes) : comparison :=
  if bytes_eqb a b then Eq else bytes_cmp (to_lower_go a) (to_lower_go b).

Definition has_prefix (text prefix : bytes) (case_sensitive : bool) : bool :=
  (length prefix <=? length text)%nat
  && equality_comparer (negb case_sensitive) (take (length prefix) text) prefix.
Definition has_suffix (text suffix : bytes) (case_sensitive : bool) : bool :=
  (length suffix <=? length text)%nat
  && equality_comparer (negb case_sensitive) (drop (length text - length suffix) text) suffix.
Definition has_prefix_and_suffix_without_overlap (text prefix suffix : bytes)
    (case_sensitive : bool) : bool :=
  (length prefix <=? length text)%nat
  && (length suffix <=? length text - length prefix)%nat
  && has_prefix text prefix case_sensitive && has_suffix text suffix case_sensitive.

(** ** File names ([lib.rs], [roots.rs]) *)

(** U+0130, which [file_name_lower_case] leaves alone. *)
Definition DOTTED_I : bytes := [196; 176].

Fixpoint lower_pieces (fuel : nat) (path : bytes) : bytes :=
  match fuel with
  | O => []
  | S fuel =>
      if bool_decide (path = []) then []
      else if starts_with DOTTED_I path then DOTTED_I ++ lower_pieces fuel (drop 2 path)
      else
        let n := default (length path) (find_sub DOTTED_I path) in
        to_lower_go (take n path) ++ lower_pieces fuel (drop n path)
  end.

Definition file_name_lower_case (path : bytes) : bytes :=
  if forallb is_ascii path then
    if forallb (λ b, negb (is_ascii_uppercase b)) path then path
    else to_ascii_lowercase <$> path
  else lower_pieces (length path) path.

Definition canonical (path : bytes) (case_sensitive : bool) : bytes :=
  if case_sensitive then path else file_name_lower_case path.

Definition to_path (file base : bytes) (case_sensitive : bool) : bytes :=
  let path := if is_rooted_disk_path file then normalize file else absolute file base in
  canonical path case_sensitive.

Definition starts_with_directory (file directory_name : bytes) (case_sensitive : bool) : bool :=
  if bool_decide (directory_name = []) then false
  else
    let file := canonical file case_sensitive in
    let directory_name := canonical directory_name case_sensitive in
    let prefix := directory_name in
    let prefix := default prefix (strip_suffix [SLASH] prefix) in
    let prefix := default prefix (strip_suffix [BACKSLASH] prefix) in
    (length prefix <? length file)%nat && starts_with prefix file
    && is_any_directory_separator (nth (length prefix) file 0).

(** ** Comparing and relativising ([comparison.rs]) *)

Fixpoint count_runes (fuel : nat) (text : bytes) : nat :=
  match fuel with
  | O => 0
  | S fuel =>
      if bool_decide (text = []) then 0
      else S (count_runes fuel (drop (snd (decode_utf8 text)) text))
  end.

Definition trim_file_path_prefix (path prefix : bytes) (case_sensitive : bool) : option bytes :=
  if case_sensitive then strip_prefix prefix path
  else
    let prefix := canonical prefix false in
    if negb (starts_with prefix (canonical path false)) then None
    else Some (trim_runes (count_runes (length prefix) prefix) path).

(** [from.iter().zip(&to).enumerate().take_while(..).count()]: how many leading
    components agree, the first always compared without case. *)
Fixpoint common_components (index : nat) (equal : bytes → bytes → bool) (from to : list bytes)
  : nat :=
  match from, to with
  | a :: from, b :: to =>
      if (if (index =? 0)%nat then equal_fold a b else equal a b)
      then S (common_components (S index) equal from to)
      else 0
  | _, _ => 0
  end.

Definition relative_to_directory_or_url (from to : bytes) (absolute_path_as_url : bool)
    (cwd : bytes) (case_sensitive : bool) : bytes :=
  let from := normalized_components from cwd in
  let to := normalized_components to cwd in
  let equal := if case_sensitive then bytes_eqb else equal_fold in
  let common := common_components 0 equal from to in
  if (common =? 0)%nat then
    path_from_components
      (match to with
       | first :: rest =>
           if absolute_path_as_url && (0 <? encoded_root_length first)
           then (if starts_with [SLASH] first then bs "file://" ++ first
                 else bs "file:///" ++ first) :: rest
           else to
       | [] => []
       end)
  else path_from_components
         ([] :: replicate (length from - common) DOTDOT ++ drop common to).

(** [None]: the assertion that both or neither path is absolute fails. *)
Definition relative_from_directory (from to cwd : bytes) (case_sensitive : bool) : option bytes :=
  if Bool.eqb (0 <? root_length from)%nat (0 <? root_length to)%nat
  then Some (relative_to_directory_or_url from to false cwd case_sensitive)
  else None.

Definition relative_from_file (from to cwd : bytes) (case_sensitive : bool) : option bytes :=
  value ← relative_from_directory (directory from) to cwd case_sensitive;
  Some (if is_relative value || negb (root_length value =? 0)%nat then value
        else [46; SLASH] ++ value).

Definition convert_to_relative_path (path cwd : bytes) (case_sensitive : bool) : bytes :=
  if negb (is_rooted_disk_path path) then path
  else relative_to_directory_or_url cwd path false cwd case_sensitive.

(** The component loop at the end of [compare_paths]. *)
Fixpoint compare_components (index : nat) (case_sensitive : bool) (left right : list bytes)
  : comparison :=
  match left, right with
  | a :: left', b :: right' =>
      match (if (index =? 0)%nat || negb case_sensitive
             then bytes_cmp (to_lower_go a) (to_lower_go b) else bytes_cmp a b) with
      | Eq => compare_components (S index) case_sensitive left' right'
      | order => order
      end
  | _, _ => Nat.compare (length left) (length right)
  end.

Definition compare_paths (left right cwd : bytes) (case_sensitive : bool) : comparison :=
  let left := combine cwd [left] in
  let right := combine cwd [right] in
  if bytes_eqb left right then Eq
  else if bool_decide (left = []) then Lt
  else if bool_decide (right = []) then Gt
  else
    let left_root := root_length left in
    let right_root := root_length right in
    match bytes_cmp (to_lower_go (take left_root left)) (to_lower_go (take right_root right)) with
    | Eq =>
        let a := drop left_root left in
        let b := drop right_root right in
        if negb (has_relative_segment a) && negb (has_relative_segment b) then
          if case_sensitive then bytes_cmp a b else bytes_cmp (to_lower_go a) (to_lower_go b)
        else compare_components 0 case_sensitive
               (normalized_components left []) (normalized_components right [])
    | order => order
    end.

Fixpoint prefix_components (index : nat) (case_sensitive : bool) (parent child : list bytes)
  : bool :=
  match parent, child with
  | a :: parent, b :: child =>
      (if (index =? 0)%nat || negb case_sensitive then equal_fold a b else bytes_eqb a b)
      && prefix_components (S index) case_sensitive parent child
  | _, _ => true
  end.

Definition contains_path (parent child cwd : bytes) (case_sensitive : bool) : bool :=
  let parent := combine cwd [parent] in
  let child := combine cwd [child] in
  if bool_decide (parent = []) || bool_decide (child = []) then false
  else if bytes_eqb parent child then true
  else
    let parent := normalized_components parent [] in
    let child := normalized_components child [] in
    (length parent <=? length child)%nat && prefix_components 0 case_sensitive parent child.

(** ** Shared parents ([components.rs]) *)

Definition path_components_relative_to (from to cwd : bytes) (case_sensitive : bool)
  : option (list bytes) :=
  from ← reduce_path_components <$> path_components from cwd;
  to ← reduce_path_components <$> path_components to cwd;
  let start := common_components 0 (equality_comparer (negb case_sensitive)) from to in
  if (start =? 0)%nat then Some to
  else Some ([] :: replicate (length from - start) DOTDOT ++ drop start to).

(** One fan-out group: its key, the head of its last member, its tails. *)
Definition Group : Type := bytes * list bytes * list (list bytes).

(** [members.iter_mut().find(..)], or a new member at the end. *)
Fixpoint add_member (key : bytes) (head : list bytes) (tail : list bytes) (members : list Group)
  : list Group :=
  match members with
  | [] => [(key, head, [tail])]
  | ((k, h, tails) as entry) :: members =>
      if bytes_eqb k key then (k, head, tails ++ [tail]) :: members
      else entry :: add_member key head tail members
  end.

Definition bytes_le (a b : bytes) : Prop := bytes_cmp a b ≠ Gt.
#[export] Instance bytes_le_dec a b : Decision (bytes_le a b).
Proof. unfold bytes_le. destruct (bytes_cmp a b); [by left|by left|by right; auto]. Defined.

(** The first index below [max_depth] at which some group differs from the first. *)
Fixpoint divergence (equal : bytes → bytes → bool) (first : list bytes) (rest : list (list bytes))
    (index max_depth : nat) : option nat :=
  match max_depth with
  | O => None
  | S max_depth =>
      if forallb (λ group, equal (nth index first []) (nth index group [])) rest
      then divergence equal first rest (S index) max_depth
      else Some index
  end.

(** Each recursive call is on tails that are shorter by [index + 1]. *)
Fixpoint common_parents_worker (fuel : nat) (groups : list (list bytes)) (min_components : Z)
    (cwd : bytes) (case_sensitive : bool) : list (list bytes) :=
  match fuel, groups with
  | O, _ | _, [] => []
  | S fuel, first :: rest =>
      let max_depth := foldr Nat.min (length first) (length <$> rest) in
      match divergence (equality_comparer (negb case_sensitive)) first rest 0 max_depth with
      | None => [take max_depth first]
      | Some index =>
          if min_components <=? Z.of_nat index then [take index first]
          else
            let members :=
              fold_left (λ members group,
                add_member (to_path (nth index group []) cwd case_sensitive)
                  (take (S index) group) (drop (S index) group) members)
                groups [] in
            let order := merge_sort bytes_le ((λ m : Group, m.1.1) <$> members) in
            let remaining := min_components - Z.of_nat (S index) in
            order ≫= λ key,
              match List.find (λ m : Group, bytes_eqb m.1.1 key) members with
              | Some (_, head, tails) =>
                  app head <$> common_parents_worker fuel tails remaining cwd case_sensitive
              | None => []
              end
      end
  end.

(** [None]: the assertion on [min_components] fails. *)
Definition common_parents (paths : list bytes) (min_components : Z)
    (get_components : bytes → bytes → list bytes) (cwd : bytes) (case_sensitive : bool)
  : option (list bytes * gset bytes) :=
  if negb (1 <=? min_components) then None
  else
    let deep_enough := λ components : list bytes, min_components <=? Z.of_nat (length components) in
    match paths with
    | [path] =>
        if negb (deep_enough (reduce_path_components (get_components path cwd)))
        then Some ([], {[path]}) else Some ([path], ∅)
    | _ =>
        let keep := λ path, deep_enough (reduce_path_components (get_components path cwd)) in
        let groups :=
          (λ path, reduce_path_components (get_components path cwd)) <$> List.filter keep paths in
        let ignored := list_to_set (List.filter (λ path, negb (keep path)) paths) in
        let depth := foldr Nat.max 0%nat (length <$> groups) in
        Some (path_from_components
                <$> common_parents_worker (S depth) groups min_components cwd case_sensitive,
              ignored)
    end.

End CaseFold.

(** ** The case-insensitive order *)

Fixpoint utf8_runes_fuel (fuel : nat) (text : bytes) : list Z :=
  match fuel, text with
  | S fuel, _ :: _ =>
      let '(rune, width) := decode_utf8 text in rune :: utf8_runes_fuel fuel (drop width text)
  | _, _ => []
  end.

(** The runes of a text as Go decodes it: the abstract view of the comparisons. *)
Definition utf8_runes (text : bytes) : list Z := utf8_runes_fuel (length text) text.

Lemma utf8_runes_fuel_enough n m text :
  (length text <= n)%nat → (length text <= m)%nat →
  utf8_runes_fuel n text = utf8_runes_fuel m text.
Proof.
  revert m text; induction n as [|n IH]; intros m text Hn Hm.
  { destruct text; [by destruct m|simpl in Hn; lia]. }
  destruct text as [|x text]; [by destruct m|]. destruct m as [|m]; [simpl in Hm; lia|].
  cbn [utf8_runes_fuel]. pose proof (decode_utf8_step (x :: text) ltac:(done)) as Hw.
  destruct (decode_utf8 (x :: text)) as [rune w]. f_equal.
  apply IH; rewrite length_drop; simpl in *; lia.
Qed.

Lemma utf8_runes_unfold text :
  text ≠ [] →
  utf8_runes text = (decode_utf8 text).1 :: utf8_runes (drop (decode_utf8 text).2 text).
Proof.
  intros Hne. pose proof (decode_utf8_step text Hne) as Hw. unfold utf8_runes.
  destruct text as [|x text]; [done|]. cbn [utf8_runes_fuel length].
  destruct (decode_utf8 (x :: text)) as [rune w]. simpl in *. f_equal.
  apply utf8_runes_fuel_enough; rewrite ?length_drop; simpl; lia.
Qed.

Section CaseOrder.
Context `{CaseTables}.

Definition folded_runes (text : bytes) : list Z := simple_lower <$> utf8_runes text.

Lemma compare_insensitive_loop_spec fuel a b :
  (length a < fuel)%nat →
  compare_insensitive_loop fuel a b = bytes_cmp (folded_runes a) (folded_runes b).
Proof.
  revert a b; induction fuel as [|fuel IH]; intros a b Hf; [lia|]. cbn [compare_insensitive_loop].
  assert (∀ x, x ≠ [] → (decode_utf8 x).2 ≠ 0%nat ∧ folded_runes x =
    simple_lower (decode_utf8 x).1 :: folded_runes (drop (decode_utf8 x).2 x)) as Hstep.
  { intros x Hx. unfold folded_runes. rewrite utf8_runes_unfold at 1 by done. split; [|done].
    pose proof (decode_utf8_step x Hx). lia. }
  destruct (decide (a = [])) as [->|Ha], (decide (b = [])) as [->|Hb]; [done|..].
  - destruct (Hstep b Hb) as [Hw ->]. destruct (decode_utf8 b) as [cb sb]. simpl in *.
    by destruct sb.
  - destruct (Hstep a Ha) as [Hw ->]. destruct (decode_utf8 a) as [ca sa]. simpl in *.
    by destruct sa.
  - destruct (Hstep a Ha) as [Hwa ->], (Hstep b Hb) as [Hwb ->].
    pose proof (decode_utf8_step a Ha) as Hla.
    destruct (decode_utf8 a) as [ca sa], (decode_utf8 b) as [cb sb]. cbn [fst snd list_cmp] in *.
    apply Nat.eqb_neq in Hwa as ->, Hwb as ->. cbn [orb].
    rewrite IH by (rewrite length_drop; lia). by destruct (simple_lower ca ?= simple_lower cb).
Qed.

Lemma compare_case_insensitive_runes a b :
  compare_case_insensitive a b = bytes_cmp (folded_runes a) (folded_runes b).
Proof.
  unfold compare_case_insensitive. destruct (bytes_eqb a b) eqn:E.
  - apply bytes_eqb_true in E as ->. by rewrite cmp_refl.
  - apply compare_insensitive_loop_spec. lia.
Qed.

(** The case-insensitive string order is a total preorder on all byte
    strings, malformed UTF-8 included, whose ties are exactly the strings that
    lower-case to the same runes; the comparison that then looks at case is a
    total order. *)
Theorem compare_case_insensitive_order :
  TotalCmp compare_case_insensitive
  ∧ (∀ a b, compare_case_insensitive a b = Eq ↔ folded_runes a = folded_runes b)
  ∧ TotalOrderCmp compare_case_insensitive_then_sensitive.
Proof.
  assert (TotalCmp compare_case_insensitive) as HT.
  { pose proof (key_cmp_total folded_runes bytes_cmp) as Hk.
    split; intros *; rewrite !compare_case_insensitive_runes; apply Hk. }
  split_and!; [done| |].
  - intros a b. rewrite compare_case_insensitive_runes. split; [apply cmp_eq|].
    intros ->. apply cmp_refl.
  - split; [by apply (then_cmp_total compare_case_insensitive bytes_cmp); try apply _|].
    intros a b. unfold compare_case_insensitive_then_sensitive.
    destruct (compare_case_insensitive a b); simpl; [|done..]. apply cmp_eq.
Qed.

(** ** Relative paths *)

Lemma common_components_eq index equal from to :
  (∀ a b, equal a b = true ↔ a = b) → (0 < index)%nat →
  let n := common_components index equal from to in
  (n <= length from)%nat ∧ take n from = take n to.
Proof.
  intros Heq. revert index to; induction from as [|a from IH]; intros index [|b to] Hi; simpl;
    [split; [lia|done]..|].
  destruct (Nat.eqb_spec index 0); [lia|]. destruct (equal a b) eqn:E; [|split; [lia|done]].
  apply Heq in E as ->. destruct (IH (S index) to) as [H1 H2]; [lia|]. simpl.
  split; [lia|]. by f_equal.
Qed.

Lemma reduce_loop_app root stack names :
  Forall (λ c, c ≠ [] ∧ c ≠ DOT ∧ c ≠ DOTDOT) names →
  ∀ rest, reduce_loop (stack ++ [root]) (names ++ rest) = reduce_loop (rev names ++ stack ++ [root]) rest.
Proof.
  intros Hn. revert stack. induction Hn as [|c names (Hc & Hd & Hdd) Hn IH]; intros stack rest; [done|].
  cbn [app reduce_loop]. rewrite bool_decide_false by done.
  apply bytes_eqb_false in Hd as ->. apply bytes_eqb_false in Hdd as ->. cbn [orb rev].
  rewrite (IH (c :: stack)). by rewrite <-app_assoc.
Qed.

(** As many [..] as there are names on the stack empty it. *)
Lemma reduce_loop_dotdots base stack rest :
  base ≠ [] → Forall (λ c, c ≠ DOTDOT) stack →
  reduce_loop (stack ++ base) (replicate (length stack) DOTDOT ++ rest) = reduce_loop base rest.
Proof.
  intros Hbase Hs. induction Hs as [|c stack Hc Hs IH]; [done|].
  cbn [length replicate app reduce_loop]. rewrite bool_decide_false by done.
  change (bytes_eqb DOTDOT DOT) with false. change (bytes_eqb DOTDOT DOTDOT) with true. cbn [orb].
  destruct (stack ++ base) as [|x l] eqn:E; [by apply app_nil in E as [_ ?]|].
  rewrite <-E. apply bytes_eqb_false in Hc as ->. by rewrite E, <-E, <-IH, E.
Qed.

Lemma equal_fold_refl a : equal_fold a a = true.
Proof.
  unfold equal_fold. assert (length a <= length a)%nat as Hn by lia. revert Hn.
  generalize (length a) at 2 3 as n. intros n. revert a; induction n as [|n IH]; intros a Hn.
  - by destruct a; [|simpl in Hn; lia].
  - cbn [equal_fold_fuel]. destruct (decide (a = [])) as [->|Ha]; [done|].
    rewrite bool_decide_false by done. cbn [orb andb].
    pose proof (decode_utf8_step a Ha). destruct (decode_utf8 a) as [r w]. simpl in *.
    unfold fold_equal. rewrite Z.eqb_refl. apply IH. rewrite length_drop. lia.
Qed.

(** Reduced components: a root, then names. *)
Definition reduced_names (names : list bytes) : Prop :=
  Forall (λ c, c ≠ [] ∧ c ≠ DOT ∧ c ≠ DOTDOT) names.

Lemma reduce_loop_rooted root stack parts :
  root ≠ [] → reduced_names stack →
  ∃ names, reduce_loop (stack ++ [root]) parts = root :: names ∧ reduced_names names.
Proof.
  intros Hr. revert stack; induction parts as [|p parts IH]; intros stack Hs.
  { exists (rev stack). cbn [reduce_loop]. rewrite rev_app_distr. split; [done|].
    unfold reduced_names. by apply Forall_rev. }
  cbn [reduce_loop]. destruct (bool_decide_reflect (p = [])); cbn [orb]; [by apply IH|].
  destruct (bytes_eqb p DOT) eqn:E1; [by apply IH|]. apply bytes_eqb_false in E1.
  destruct (bytes_eqb p DOTDOT) eqn:E2.
  - destruct stack as [|c stack]; cbn [app].
    + rewrite bool_decide_false by done. by apply (IH []).
    + apply Forall_cons in Hs as [(_ & _ & Hc) Hs].
      destruct (stack ++ [root]) as [|x l] eqn:E; [by apply app_nil in E as [_ ?]|]. rewrite <-E.
      apply bytes_eqb_false in Hc as ->. by apply IH.
  - apply bytes_eqb_false in E2. apply (IH (p :: stack)). by constructor.
Qed.

Lemma reduced_components comps root names :
  reduce_path_components comps = root :: names → root ≠ [] → reduced_names names.
Proof.
  destruct comps as [|r l]; [done|]. cbn [reduce_path_components]. intros E Hroot.
  assert (r = root) as ->.
  { rewrite (normalize_loop_reduce r l [] : reduce_loop [r] l = _) in E. congruence. }
  destruct (reduce_loop_rooted root [] l Hroot) as (names' & E' & Hn); [constructor|].
  cbn [app] in E'. congruence.
Qed.

(** A relative component list leads where it should: for rooted paths on
    the same root, resolving what [path_components_relative_to] returns
    against the components it started from gives the components of the target,
    whatever the two paths held ([.], [..], empty segments). *)
Theorem path_components_relative_to_correct from to cwd cf ct root fs ts :
  path_components from cwd = Some cf → path_components to cwd = Some ct →
  reduce_path_components cf = root :: fs → reduce_path_components ct = root :: ts →
  root ≠ [] →
  ∃ rel, path_components_relative_to from to cwd true = Some ([] :: rel)
    ∧ reduce_path_components ((root :: fs) ++ rel) = root :: ts.
Proof.
  intros Hcf Hct Hf Ht Hroot. unfold path_components_relative_to.
  rewrite Hcf, Hct. cbn [fmap option_fmap option_map mbind option_bind]. rewrite Hf, Ht.
  cbn [common_components].
  assert (equal_fold root root = true) as -> by apply equal_fold_refl.
  destruct (common_components_eq 1 (equality_comparer (negb true)) fs ts) as [Hn Htake];
    [apply bytes_eqb_true|lia|].
  set (n := common_components 1 _ fs ts) in *. cbn [length].
  exists (replicate (length fs - n) DOTDOT ++ drop n ts). split; [done|].
  pose proof (reduced_components _ _ _ Hf Hroot) as Hfs.
  pose proof (reduced_components _ _ _ Ht Hroot) as Hts.
  change (reduce_loop ([] ++ [root]) (fs ++ replicate (length fs - n) DOTDOT ++ drop n ts) = root :: ts).
  rewrite reduce_loop_app by done. cbn [app].
  rewrite <-(take_drop n fs) at 1. rewrite rev_app_distr, <-app_assoc.
  replace (length fs - n)%nat with (length (rev (drop n fs))) by (rewrite length_rev, length_drop; done).
  rewrite reduce_loop_dotdots.
  - rewrite Htake. rewrite <-(reduce_loop_app root [] (take n ts)), take_drop by exact (Forall_take _ _ _ Hts).
    rewrite <-(app_nil_r ts) at 1. rewrite reduce_loop_app by done. simpl. by rewrite rev_app_distr, rev_involutive.
  - destruct (rev (take n fs)); done.
  - apply Forall_rev, Forall_drop, (Forall_impl _ _ _ Hfs). naive_solver.
Qed.

End CaseOrder.

Lemma path_components_relative_to_correct_witness :
  (path_components (bs "/a/b/./c") [] = Some [[SLASH]; bs "a"; bs "b"; bs "."; bs "c"]
   ∧ path_components (bs "x/../a//d") (bs "/") = Some [[SLASH]; bs "x"; bs ".."; bs "a"; []; bs "d"])
  ∧ ∃ rel, @path_components_relative_to ascii_tables (bs "/a/b/./c") (bs "/a/d") [] true
             = Some ([] :: rel)
    ∧ reduce_path_components ([[SLASH]; bs "a"; bs "b"; bs "c"] ++ rel) = [[SLASH]; bs "a"; bs "d"].
Proof.
  split; [split; reflexivity|].
  apply (path_components_relative_to_correct (H := ascii_tables) (bs "/a/b/./c") (bs "/a/d") []
    [[SLASH]; bs "a"; bs "b"; bs "."; bs "c"] [[SLASH]; bs "a"; bs "d"]);
    [reflexivity..|discriminate].
Defined.
