(* ===== verification/PathExtension.v ===== *)
(** Extension tables, and the predicates, extractors and rewrites over them:
    [crates/tsr_tspath/src/extension.rs]. *)

From stdpp Require Import sets.
From S2P Require Import Prelude Wtf8 PathComponents PathCompare.

Local Open Scope Z_scope.

Definition EXTENSION_TS : bytes := bs ".ts".
Definition EXTENSION_TSX : bytes := bs ".tsx".
Definition EXTENSION_DTS : bytes := bs ".d.ts".
Definition EXTENSION_JS : bytes := bs ".js".
Definition EXTENSION_JSX : bytes := bs ".jsx".
Definition EXTENSION_JSON : bytes := bs ".json".
Definition EXTENSION_MJS : bytes := bs ".mjs".
Definition EXTENSION_MTS : bytes := bs ".mts".
Definition EXTENSION_DMTS : bytes := bs ".d.mts".
Definition EXTENSION_CJS : bytes := bs ".cjs".
Definition EXTENSION_CTS : bytes := bs ".cts".
Definition EXTENSION_DCTS : bytes := bs ".d.cts".

Definition SUPPORTED_DECLARATION_EXTENSIONS : list bytes :=
  [EXTENSION_DTS; EXTENSION_DCTS; EXTENSION_DMTS].
Definition SUPPORTED_TS_IMPLEMENTATION_EXTENSIONS : list bytes :=
  [EXTENSION_TS; EXTENSION_TSX; EXTENSION_MTS; EXTENSION_CTS].
Definition SUPPORTED_TS_EXTENSIONS_FOR_EXTRACT : list bytes :=
  [EXTENSION_DTS; EXTENSION_DCTS; EXTENSION_DMTS; EXTENSION_TS; EXTENSION_TSX; EXTENSION_MTS;
   EXTENSION_CTS].
Definition SUPPORTED_TS_EXTENSIONS_FLAT : list bytes :=
  [EXTENSION_TS; EXTENSION_TSX; EXTENSION_DTS; EXTENSION_CTS; EXTENSION_DCTS; EXTENSION_MTS;
   EXTENSION_DMTS].
Definition SUPPORTED_JS_EXTENSIONS_FLAT : list bytes :=
  [EXTENSION_JS; EXTENSION_JSX; EXTENSION_MJS; EXTENSION_CJS].
Definition EXTENSIONS_TO_REMOVE : list bytes :=
  [EXTENSION_DTS; EXTENSION_DMTS; EXTENSION_DCTS; EXTENSION_MJS; EXTENSION_MTS; EXTENSION_CJS;
   EXTENSION_CTS; EXTENSION_TS; EXTENSION_JS; EXTENSION_TSX; EXTENSION_JSX; EXTENSION_JSON].

Definition extension_is_one_of (ext : bytes) (extensions : list bytes) : bool :=
  existsb (λ candidate, bytes_eqb candidate ext) extensions.

Definition extension_is_ts (ext : bytes) : bool :=
  extension_is_one_of ext SUPPORTED_TS_EXTENSIONS_FLAT
  || ((7 <=? length ext)%nat && starts_with (bs ".d.") ext && ends_with (bs ".ts") ext).

Definition file_extension_is (path extension : bytes) : bool :=
  (length extension <? length path)%nat && ends_with extension path.

Definition file_extension_is_one_of (path : bytes) (extensions : list bytes) : bool :=
  existsb (file_extension_is path) extensions.

Definition has_ts_file_extension (path : bytes) : bool :=
  file_extension_is_one_of path SUPPORTED_TS_EXTENSIONS_FLAT.
Definition has_implementation_ts_file_extension (path : bytes) : bool :=
  file_extension_is_one_of path SUPPORTED_TS_IMPLEMENTATION_EXTENSIONS
  && negb (is_declaration_file_name path).
Definition has_js_file_extension (path : bytes) : bool :=
  file_extension_is_one_of path SUPPORTED_JS_EXTENSIONS_FLAT.
Definition has_json_file_extension (path : bytes) : bool := file_extension_is path EXTENSION_JSON.

Definition try_get_extension_from_path_with (path extension : bytes)
    (equal : bytes → bytes → bool) : bytes :=
  let extension := if starts_with DOT extension then extension else DOT ++ extension in
  let start := (length path - length extension)%nat in
  if (length extension <=? length path)%nat && (nth start path 0 =? 46) then
    let candidate := drop start path in
    if equal candidate extension then candidate else []
  else [].

(** [find(..).unwrap_or(..)] *)
Fixpoint any_extension_from_path_worker (path : bytes) (extensions : list bytes)
    (equal : bytes → bytes → bool) : bytes :=
  match extensions with
  | [] => []
  | extension :: extensions =>
      let found := try_get_extension_from_path_with path extension equal in
      if negb (bool_decide (found = [])) then found
      else any_extension_from_path_worker path extensions equal
  end.

Definition first_file_extension (path : bytes) (extensions : list bytes) : bytes :=
  default [] (List.find (file_extension_is path) extensions).
Definition try_get_extension_from_path (path : bytes) : bytes :=
  first_file_extension path EXTENSIONS_TO_REMOVE.
Definition try_extract_ts_extension (path : bytes) : bytes :=
  first_file_extension path SUPPORTED_TS_EXTENSIONS_FOR_EXTRACT.

Definition declaration_file_extension (path : bytes) : bytes :=
  let base := base_name path in
  match List.find (λ ext, ends_with ext base) SUPPORTED_DECLARATION_EXTENSIONS with
  | Some ext => drop (length base - length ext) base
  | None =>
      if ends_with EXTENSION_TS base then
        match find_sub (bs ".d.") base with
        | Some index => drop index base
        | None => []
        end
      else []
  end.

Definition with_extension (stem ext : bytes) (empty_deletes : bool) : bytes :=
  if bool_decide (ext = []) && empty_deletes then stem
  else (if starts_with DOT ext then stem else stem ++ DOT) ++ ext.

(** [None]: the slice is out of range. *)
Definition remove_extension (path extension : bytes) : option bytes :=
  if (length extension <=? length path)%nat
  then Some (take (length path - length extension) path) else None.

Definition should_rewrite_module_specifier (specifier : bytes)
    (rewrite_relative_import_extensions : bool) : bool :=
  rewrite_relative_import_extensions
  && (bytes_eqb specifier DOT || bytes_eqb specifier DOTDOT
      || ((2 <=? length specifier)%nat && (nth 0 specifier 0 =? 46) && separator (nth 1 specifier 0))
      || ((3 <=? length specifier)%nat && (nth 0 specifier 0 =? 46) && (nth 1 specifier 0 =? 46)
          && separator (nth 2 specifier 0)))
  && negb (is_declaration_file_name specifier) && has_ts_file_extension specifier.

Section WithTables.
Context `{CaseTables}.

Definition any_extension_from_path (path : bytes) (extensions : list bytes) (ignore_case : bool)
  : bytes :=
  if negb (bool_decide (extensions = [])) then
    any_extension_from_path_worker (remove_trailing_directory_separator path) extensions
      (equality_comparer ignore_case)
  else
    let base := base_name path in
    match rposition (Z.eqb 46) base with Some index => drop index base | None => [] end.

(** The loop keeps the longest match so far. *)
Definition longest_extension_from_path (path : bytes) (extensions : list bytes)
    (ignore_case : bool) : bytes :=
  let path := remove_trailing_directory_separator path in
  fold_left
    (λ longest extension,
      if (length longest <? length extension)%nat then
        let matched :=
          try_get_extension_from_path_with path extension (equality_comparer ignore_case) in
        if negb (bool_decide (matched = [])) then matched else longest
      else longest)
    extensions [].

Definition declaration_emit_extension_for_path (path : bytes) : bytes :=
  if file_extension_is_one_of path [EXTENSION_MJS; EXTENSION_MTS] then EXTENSION_DMTS
  else if file_extension_is_one_of path [EXTENSION_CJS; EXTENSION_CTS] then EXTENSION_DCTS
  else if file_extension_is_one_of path [EXTENSION_TS; EXTENSION_TSX; EXTENSION_JS; EXTENSION_JSX]
  then EXTENSION_DTS
  else
    let ext := any_extension_from_path path [] false in
    if bool_decide (ext = []) then EXTENSION_DTS else bs ".d" ++ ext ++ bs ".ts".

Definition possible_original_input_extensions (path : bytes) : list bytes :=
  if file_extension_is_one_of path [EXTENSION_DMTS; EXTENSION_MJS; EXTENSION_MTS]
  then [EXTENSION_MTS; EXTENSION_MJS]
  else if file_extension_is_one_of path [EXTENSION_DCTS; EXTENSION_CJS; EXTENSION_CTS]
  then [EXTENSION_CTS; EXTENSION_CJS]
  else
    let ext := declaration_file_extension path in
    if negb (bool_decide (ext = [])) && negb (bytes_eqb ext EXTENSION_DTS)
    then [DOT ++ drop 3 (take (length ext - 3) ext)]
    else [EXTENSION_TSX; EXTENSION_TS; EXTENSION_JSX; EXTENSION_JS].

Definition change_any_extension (path ext : bytes) (extensions : list bytes) (ignore_case : bool)
  : bytes :=
  let matched := length (any_extension_from_path path extensions ignore_case) in
  if (matched =? 0)%nat then path
  else with_extension (take (length path - matched) path) ext true.

Definition change_extension (path ext : bytes) : bytes :=
  change_any_extension path ext EXTENSIONS_TO_REMOVE false.

Definition change_full_extension (path ext : bytes) : bytes :=
  let declaration := length (declaration_file_extension path) in
  if (declaration =? 0)%nat then change_extension path ext
  else with_extension (take (length path - declaration) path) ext false.

Definition remove_any_file_extension (path : bytes) : option bytes :=
  let removed := remove_file_extension path in
  if negb (length removed =? length path)%nat then Some removed
  else
    let extension := any_extension_from_path path [] false in
    if bool_decide (extension = []) then Some path else remove_extension path extension.

End WithTables.

(** ** The removed extension is the longest one *)

(** No entry is a proper suffix of a later one. *)
Fixpoint longest_first (suffixes : list bytes) : bool :=
  match suffixes with
  | [] => true
  | s :: rest =>
      forallb (λ t, negb ((length s <? length t)%nat && ends_with s t)) rest && longest_first rest
  end.

Lemma suffix_of_longer {A} (s t p : list A) :
  s `suffix_of` p → t `suffix_of` p → (length s <= length t)%nat → s `suffix_of` t.
Proof.
  intros [a ->] [b E] Hlen. assert (length a = (length b + (length t - length s))%nat) as Hab.
  { apply (f_equal length) in E. rewrite !length_app in E. lia. }
  exists (take (length t - length s) t).
  rewrite <-(take_drop (length t - length s) t), app_assoc in E.
  apply app_inj_1 in E as [_ E]; [by rewrite E at 2; rewrite take_drop|].
  rewrite length_app, length_take. lia.
Qed.

Lemma remove_first_suffix_longest suffixes path :
  longest_first suffixes = true →
  (∃ ext, ext ∈ suffixes ∧ path = remove_first_suffix path suffixes ++ ext
     ∧ ∀ e, e ∈ suffixes → e `suffix_of` path → (length e <= length ext)%nat)
  ∨ remove_first_suffix path suffixes = path ∧ ∀ e, e ∈ suffixes → ¬ e `suffix_of` path.
Proof.
  induction suffixes as [|s suffixes IH]; intros Hl.
  { right. split; [done|]. by intros e ?%not_elem_of_nil. }
  cbn [longest_first] in Hl. apply andb_true_iff in Hl as [Hs Hl]. specialize (IH Hl).
  cbn [remove_first_suffix]. destruct (strip_suffix s path) as [stem|] eqn:E.
  - apply strip_suffix_Some in E as ->. left. exists s. split_and!; [set_solver|done|].
    intros e [->|He]%elem_of_cons Hsuf; [done|].
    rewrite forallb_forall in Hs. specialize (Hs e). rewrite <-list_elem_of_In in Hs.
    specialize (Hs He). apply Nat.nlt_ge. intros Hlt.
    apply negb_true_iff, andb_false_iff in Hs as [Hs|Hs]; [apply Nat.ltb_ge in Hs; lia|].
    apply not_true_iff_false in Hs. apply Hs, ends_with_true.
    apply (suffix_of_longer s e (stem ++ s)); [by exists stem|done|lia].
  - assert (¬ s `suffix_of` path) as Hns.
    { intros [stem ->]. assert (strip_suffix s (stem ++ s) = Some stem) by by apply strip_suffix_Some.
      congruence. }
    destruct IH as [(ext & Hext & Hp & Hmax)|[Hp Hno]].
    + left. exists ext. split_and!; [set_solver|done|].
      intros e [->|He]%elem_of_cons Hsuf; [done|by apply Hmax].
    + right. split; [done|]. intros e [->|He]%elem_of_cons; [done|by apply Hno].
Qed.

(** Taking the first suffix of the table takes the longest one the path
    ends with: the order of the entries never lets [.ts] win over [.d.ts], nor
    any other entry over one that contains it; a path with no listed extension
    is returned unchanged. *)
Theorem remove_file_extension_longest path :
  (∃ ext, ext ∈ EXTENSIONS_TO_REMOVE ∧ path = remove_file_extension path ++ ext
     ∧ ∀ e, e ∈ EXTENSIONS_TO_REMOVE → e `suffix_of` path → (length e <= length ext)%nat)
  ∨ remove_file_extension path = path ∧ ∀ e, e ∈ EXTENSIONS_TO_REMOVE → ¬ e `suffix_of` path.
Proof. by apply (remove_first_suffix_longest EXTENSIONS_TO_REMOVE). Qed.
