(* ===== verification/Base64.v ===== *)
(** The standard base64 codec of [crates/tsr_sourcemap/src/base64.rs], used for
    the data URL of an inline source map. *)

From S2P Require Import Prelude.

Local Open Scope Z_scope.

Definition ENCODE_STD : bytes :=
  bs "ABCDEFGHIJKLMNOPQRSTUVWXYZabcdefghijklmnopqrstuvwxyz0123456789+/".
Definition PAD_CHAR : Z := ch "=".
Definition INVALID : Z := 0xff.

(** [ENCODE_STD[(val >> shift & 0x3f) as usize]] *)
Definition encode_digit (val shift : Z) : Z :=
  nth (Z.to_nat (Z.land (Z.shiftr val shift) 0x3f)) ENCODE_STD 0.

(** The characters [std_encode] appends to its output. *)
Fixpoint std_encode (src : bytes) : bytes :=
  match src with
  | c0 :: c1 :: c2 :: rest =>
      let val := Z.lor (Z.lor (Z.shiftl c0 16) (Z.shiftl c1 8)) c2 in
      encode_digit val 18 :: encode_digit val 12 :: encode_digit val 6 :: encode_digit val 0
        :: std_encode rest
  | [] => []
  | [c0] =>
      let val := Z.shiftl c0 16 in
      [encode_digit val 18; encode_digit val 12; PAD_CHAR; PAD_CHAR]
  | [c0; c1] =>
      let val := Z.lor (Z.shiftl c0 16) (Z.shiftl c1 8) in
      [encode_digit val 18; encode_digit val 12; encode_digit val 6; PAD_CHAR]
  end.

Definition decode_map (byte : Z) : Z :=
  if in_range (ch "A") (ch "Z") byte then byte - ch "A"
  else if in_range (ch "a") (ch "z") byte then byte - ch "a" + 26
  else if in_range (ch "0") (ch "9") byte then byte - ch "0" + 52
  else if byte =? ch "+" then 62
  else if byte =? ch "/" then 63
  else INVALID.

(** The inner loop: the digits of a group shifted into [val]. *)
Fixpoint decode_symbols (val : Z) (symbols : bytes) : option Z :=
  match symbols with
  | [] => Some val
  | symbol :: rest =>
      let digit := decode_map symbol in
      if digit =? INVALID then None
      else decode_symbols (Z.lor (Z.shiftl val 6) digit) rest
  end.

Definition decode_group (padding : nat) (group : bytes) : option bytes :=
  val ← decode_symbols 0 (take (4 - padding) group);
  let val := Z.shiftl val (6 * Z.of_nat padding) in
  Some (take (3 - padding) [wrap_u8 (Z.shiftr val 16); wrap_u8 (Z.shiftr val 8); wrap_u8 val]).

Definition group_padding (s2 s3 : Z) : nat :=
  if s3 =? PAD_CHAR then (if s2 =? PAD_CHAR then 2 else 1) else 0.

(** The loop over the groups of four; a padded group must be the last. *)
Fixpoint decode_groups (symbols : bytes) : option bytes :=
  match symbols with
  | [] => Some []
  | s0 :: s1 :: s2 :: s3 :: rest =>
      let padding := group_padding s2 s3 in
      if (0 <? padding)%nat && negb (bool_decide (rest = [])) then None
      else (out ← decode_group padding [s0; s1; s2; s3];
            tail ← decode_groups rest;
            Some (out ++ tail))
  | _ => None
  end.

Definition not_line_end (byte : Z) : bool := negb (byte =? 13) && negb (byte =? 10).

Definition std_decode_string (src : bytes) : option bytes :=
  let symbols := List.filter not_line_end src in
  if (length symbols mod 4 =? 0)%nat then decode_groups symbols else None.

(** ** The alphabet *)

Definition symbol (d : Z) : Z := nth (Z.to_nat d) ENCODE_STD 0.

Lemma symbol_spec d : 0 <= d < 64 →
  decode_map (symbol d) = d ∧ symbol d ≠ PAD_CHAR ∧ not_line_end (symbol d) = true.
Proof.
  intros Hd.
  assert (Forall (λ n, decode_map (symbol (Z.of_nat n)) = Z.of_nat n
                       ∧ symbol (Z.of_nat n) ≠ PAD_CHAR
                       ∧ not_line_end (symbol (Z.of_nat n)) = true) (seq 0 64)) as H.
  { apply (Forall_impl (λ n, bool_decide (decode_map (symbol (Z.of_nat n)) = Z.of_nat n)
      && negb (symbol (Z.of_nat n) =? PAD_CHAR) && not_line_end (symbol (Z.of_nat n)) = true)).
    - apply Forall_forall. intros n Hn%elem_of_seq.
      do 64 (destruct n as [|n]; [reflexivity|]). lia.
    - intros n. rewrite !andb_true_iff, bool_decide_eq_true, negb_true_iff, Z.eqb_neq. tauto. }
  rewrite Forall_forall in H. specialize (H (Z.to_nat d)).
  rewrite elem_of_seq, Z2Nat.id in H by lia. apply H. lia.
Qed.

Lemma encode_digit_symbol val shift :
  0 <= shift → encode_digit val shift = symbol (val / 2 ^ shift mod 64).
Proof. intros. unfold encode_digit. by rewrite land_63, Z.shiftr_div_pow2. Qed.

Lemma decode_symbols_cons val d rest :
  0 <= d < 64 → decode_symbols val (symbol d :: rest) = decode_symbols (val * 64 + d) rest.
Proof.
  intros Hd. simpl. destruct (symbol_spec d Hd) as (-> & _ & _).
  unfold INVALID. destruct (Z.eqb_spec d 255); [lia|].
  by rewrite (shiftl_lor_add 6) by lia.
Qed.

Lemma group_padding_symbols d e :
  0 <= d < 64 → 0 <= e < 64 → group_padding (symbol d) (symbol e) = 0%nat.
Proof.
  intros _ He. unfold group_padding. destruct (symbol_spec e He) as (_ & Hne & _).
  by apply Z.eqb_neq in Hne as ->.
Qed.

(** ** The round trip *)

Ltac digit_bounds := solve [lia | apply Z.mod_pos_bound; lia].

Lemma decode_groups_encode3 c0 c1 c2 rest :
  is_byte c0 → is_byte c1 → is_byte c2 →
  decode_groups (std_encode (c0 :: c1 :: c2 :: rest))
  = tail ← decode_groups (std_encode rest); Some ([c0; c1; c2] ++ tail).
Proof.
  unfold is_byte. intros H0 H1 H2. cbn [std_encode].
  rewrite !encode_digit_symbol by lia. cbn [decode_groups].
  rewrite group_padding_symbols by digit_bounds. cbn [Nat.ltb Nat.leb andb].
  unfold decode_group. cbn [take Nat.sub].
  rewrite !decode_symbols_cons by digit_bounds. cbn [decode_symbols mbind option_bind].
  rewrite <-Z.lor_assoc, !(shiftl_lor_add 8), (lor_disjoint_add 16)
    by (lia || (rewrite Z.shiftl_mul_pow2 by lia; apply Z.divide_factor_r)).
  rewrite !Z.shiftl_mul_pow2, !Z.shiftr_div_pow2 by lia. unfold wrap_u.
  destruct (decode_groups (std_encode rest)) as [tail|]; [|done]. cbn [mbind option_bind].
  cbn [take app]. f_equal. f_equal; [zdiv|]. f_equal; [zdiv|]. f_equal. zdiv.
Qed.

Lemma decode_groups_encode2 c0 c1 :
  is_byte c0 → is_byte c1 → decode_groups (std_encode [c0; c1]) = Some [c0; c1].
Proof.
  unfold is_byte. intros H0 H1. cbn [std_encode].
  rewrite !encode_digit_symbol by lia. cbn [decode_groups].
  unfold group_padding. rewrite Z.eqb_refl.
  set (d := symbol (_ / 2 ^ 6 mod 64)).
  assert (d ≠ PAD_CHAR) as Hd by (apply symbol_spec; digit_bounds).
  apply Z.eqb_neq in Hd as ->. subst d. cbn [Nat.ltb Nat.leb andb].
  rewrite bool_decide_true by done. unfold decode_group. cbn [take Nat.sub negb].
  rewrite !decode_symbols_cons by digit_bounds. cbn [decode_symbols mbind option_bind].
  rewrite (lor_disjoint_add 16)
    by (lia || (rewrite Z.shiftl_mul_pow2 by lia; lia || apply Z.divide_factor_r)).
  rewrite !Z.shiftl_mul_pow2, !Z.shiftr_div_pow2 by lia. unfold wrap_u.
  cbn [take app]. f_equal. f_equal; [zdiv|]. f_equal. zdiv.
Qed.

Lemma decode_groups_encode1 c0 :
  is_byte c0 → decode_groups (std_encode [c0]) = Some [c0].
Proof.
  unfold is_byte. intros H0. cbn [std_encode].
  rewrite !encode_digit_symbol by lia. cbn [decode_groups].
  unfold group_padding. rewrite Z.eqb_refl. cbn [Nat.ltb Nat.leb andb].
  rewrite bool_decide_true by done. unfold decode_group. cbn [take Nat.sub negb].
  rewrite !decode_symbols_cons by digit_bounds. cbn [decode_symbols mbind option_bind].
  rewrite !Z.shiftl_mul_pow2, !Z.shiftr_div_pow2 by lia. unfold wrap_u.
  cbn [take app]. f_equal. f_equal. zdiv.
Qed.

(** Recursion on a byte string three bytes at a time. *)
Lemma chunks3_ind (P : bytes → Prop) :
  P [] → (∀ a, P [a]) → (∀ a b, P [a; b]) →
  (∀ a b c rest, P rest → P (a :: b :: c :: rest)) → ∀ l, P l.
Proof.
  intros H0 H1 H2 H3. fix IH 1. intros [|a [|b [|c rest]]]; [done|done|done|].
  apply H3, IH.
Qed.

Lemma decode_groups_encode src :
  all_bytes src → decode_groups (std_encode src) = Some src.
Proof.
  induction src as [|c0|c0 c1|c0 c1 c2 rest IH] using chunks3_ind; intros Hb;
    rewrite ?Forall_cons in Hb.
  - done.
  - apply decode_groups_encode1. tauto.
  - apply decode_groups_encode2; tauto.
  - destruct Hb as (? & ? & ? & Hb). rewrite decode_groups_encode3 by done.
    by rewrite IH.
Qed.

Lemma not_line_end_digit val shift :
  0 <= shift → not_line_end (encode_digit val shift) = true.
Proof. intros. rewrite encode_digit_symbol by done. apply symbol_spec. digit_bounds. Qed.

Lemma filter_encode src : List.filter not_line_end (std_encode src) = std_encode src.
Proof.
  induction src as [|c0|c0 c1|c0 c1 c2 rest IH] using chunks3_ind; [done| | |];
    cbn [std_encode List.filter]; rewrite !not_line_end_digit by lia; [done|done|].
  by rewrite IH.
Qed.

Lemma length_encode src :
  (length (std_encode src) = 4 * ((length src + 2) / 3))%nat.
Proof.
  induction src as [|c0|c0 c1|c0 c1 c2 rest IH] using chunks3_ind; [done..|].
  cbn [std_encode length]. rewrite IH.
  replace (S (S (S (length rest))) + 2)%nat with (1 * 3 + (length rest + 2))%nat by lia.
  rewrite Nat.div_add_l by lia. lia.
Qed.

(** Decoding inverts encoding on every byte string, with carriage returns
    and line feeds inserted anywhere, and the encoder writes four characters
    per started group of three bytes. *)
Theorem std_decode_encode src text :
  all_bytes src → List.filter not_line_end text = std_encode src →
  std_decode_string text = Some src
  ∧ length (std_encode src) = (4 * ((length src + 2) / 3))%nat.
Proof.
  intros Hb Ht. split; [|apply length_encode]. unfold std_decode_string. rewrite Ht.
  rewrite length_encode, Nat.mul_comm, Nat.Div0.mod_mul. cbn [Nat.eqb].
  by apply decode_groups_encode.
Qed.

Lemma std_decode_encode_witness :
  std_decode_string (bs "Zm9" ++ [10] ++ bs "vYg==") = Some (bs "foob")
  ∧ length (std_encode (bs "foob")) = 8%nat.
Proof.
  apply (std_decode_encode (bs "foob") (bs "Zm9" ++ [10] ++ bs "vYg=="));
    [apply bs_all_bytes|reflexivity].
Defined.
