(* ===== verification/SourceMapGenerator.v ===== *)
(** The reader of a source map's [mappings] string:
    [crates/tsr_sourcemap/src/decoder.rs]. Decoding is an explicit state machine
    over [MappingsDecoder]; a malformed segment is a recorded error that stops
    the iteration.

    The writer of source maps: [crates/tsr_sourcemap/src/generator.rs]. The
    generator keeps one pending mapping and appends it to [mappings] when a later
    one arrives at another position. *)

From stdpp Require Import gmap.
From S2P Require Import Prelude Wtf8 PathComponents PathCompare.

Local Open Scope Z_scope.

(** ** Data *)

Record Mapping := MkMapping {
  m_generated_line : Z;
  m_generated_character : Z;
  m_source_index : Z;
  m_source_line : Z;
  m_source_character : Z;
  m_name_index : Z;
}.

Definition MISSING_SOURCE : Z := -1.
Definition MISSING_NAME : Z := -1.
Definition MISSING_LINE_OR_COLUMN : Z := -1.
Definition MISSING_UTF16_COLUMN : Z := -1.

Definition mapping_equals (a b : Mapping) : bool :=
  (m_generated_line a =? m_generated_line b)
  && (m_generated_character a =? m_generated_character b)
  && (m_source_index a =? m_source_index b)
  && (m_source_line a =? m_source_line b)
  && (m_source_character a =? m_source_character b)
  && (m_name_index a =? m_name_index b).

Definition is_source_mapping (m : Mapping) : bool :=
  negb (m_source_index m =? MISSING_SOURCE)
  && negb (m_source_line m =? MISSING_LINE_OR_COLUMN)
  && negb (m_source_character m =? MISSING_UTF16_COLUMN).

Record MappingsDecoder := MkDecoder {
  d_mappings : bytes;
  d_done : bool;
  d_pos : nat;
  d_generated_line : Z;
  d_generated_character : Z;
  d_source_index : Z;
  d_source_line : Z;
  d_source_character : Z;
  d_name_index : Z;
  d_error : option string;
}.

#[export] Instance eta_decoder : Eta MappingsDecoder := λ d,
  MkDecoder (d_mappings d) (d_done d) (d_pos d) (d_generated_line d) (d_generated_character d)
    (d_source_index d) (d_source_line d) (d_source_character d) (d_name_index d) (d_error d).

Definition decode_mappings (mappings : bytes) : MappingsDecoder :=
  {| d_mappings := mappings; d_done := false; d_pos := 0; d_generated_line := 0;
     d_generated_character := 0; d_source_index := 0; d_source_line := 0;
     d_source_character := 0; d_name_index := 0; d_error := None |}.

(** ** Operations *)

Definition capture_mapping (d : MappingsDecoder) (has_source has_name : bool) : Mapping :=
  {| m_generated_line := d_generated_line d;
     m_generated_character := d_generated_character d;
     m_source_index := if has_source then d_source_index d else MISSING_SOURCE;
     m_source_line := if has_source then d_source_line d else MISSING_LINE_OR_COLUMN;
     m_source_character := if has_source then d_source_character d else MISSING_UTF16_COLUMN;
     m_name_index := if has_name then d_name_index d else MISSING_NAME |}.

(** [MappingsDecoder::state] *)
Definition decoder_state (d : MappingsDecoder) : Mapping := capture_mapping d true true.

Definition set_error (err : string) (d : MappingsDecoder) : MappingsDecoder :=
  d <| d_error := Some err |>.

Definition has_reported_error (d : MappingsDecoder) : bool :=
  match d_error d with Some _ => true | None => false end.

(** [stop_iterating] returns [None] to the caller of [next]. *)
Definition stop_iterating {A} (d : MappingsDecoder) : option A * MappingsDecoder :=
  (None, d <| d_done := true |>).

Definition set_error_and_stop_iterating {A} (err : string) (d : MappingsDecoder)
  : option A * MappingsDecoder := stop_iterating (set_error err d).

Definition is_source_mapping_segment_end (d : MappingsDecoder) : bool :=
  (d_pos d =? length (d_mappings d))%nat
  || (nth (d_pos d) (d_mappings d) 0 =? ch ",")
  || (nth (d_pos d) (d_mappings d) 0 =? ch ";").

Definition base64_format_decode (c : Z) : Z :=
  if in_range (ch "A") (ch "Z") c then c - ch "A"
  else if in_range (ch "a") (ch "z") c then c - ch "a" + 26
  else if in_range (ch "0") (ch "9") c then c - ch "0" + 52
  else if c =? ch "+" then 62
  else if c =? ch "/" then 63
  else -1.

(** [isize::checked_shl(n).unwrap_or(0)] *)
Definition checked_shl_or_zero (v n : Z) : Z :=
  if n <? 64 then wrap_i64 (Z.shiftl v n) else 0.

(** The digit loop, over what remains of the mappings; [None] is the early
    [return -1]. *)
Fixpoint vlq_loop (rest : bytes) (shift_count value : Z) (d : MappingsDecoder)
  : option Z * MappingsDecoder :=
  match rest with
  | [] =>
      (None, set_error "Error in decoding base64VLQFormatDecode, past the mapping string" d)
  | c :: rest =>
      let current_byte := base64_format_decode c in
      if current_byte =? -1 then (None, set_error "Invalid character in VLQ" d)
      else
        let more_digits := negb (Z.land current_byte 32 =? 0) in
        let value := Z.lor value (checked_shl_or_zero (Z.land current_byte 31) shift_count) in
        let shift_count := Z.min (shift_count + 5) U32_MAX in
        let d := d <| d_pos := S (d_pos d) |> in
        if more_digits then vlq_loop rest shift_count value d else (Some value, d)
  end.

Definition base64_vlq_format_decode (d : MappingsDecoder) : Z * MappingsDecoder :=
  let '(value, d) := vlq_loop (drop (d_pos d) (d_mappings d)) 0 0 d in
  match value with
  | None => (-1, d)
  | Some value =>
      if Z.land value 1 =? 0 then (Z.shiftr value 1, d)
      else (wrap_i64 (- Z.shiftr value 1), d)
  end.

(** The decoder threaded through the early returns of [next]: [None] means
    [next] has returned. *)
Definition Next (A : Type) : Type := MappingsDecoder → option A * MappingsDecoder.

#[export] Instance next_ret : MRet Next := λ A a d, (Some a, d).
#[export] Instance next_bind : MBind Next := λ A B f m d,
  match m d with
  | (Some a, d) => f a d
  | (None, d) => (None, d)
  end.

(** One field of a segment: the running value plus the decoded difference,
    then the two checks that follow it in the source. *)
Definition add_relative (field : MappingsDecoder → Z)
    (assign : Z → MappingsDecoder → MappingsDecoder) (negative : string) : Next unit := λ d,
  let old := field d in
  let '(value, d) := base64_vlq_format_decode d in
  let d := assign (wrap_i64 (old + value)) d in
  if has_reported_error d then stop_iterating d
  else if field d <? 0 then set_error_and_stop_iterating negative d
  else (Some tt, d).

(** [if self.is_source_mapping_segment_end() { return error }] and its negation *)
Definition fail_at_segment_end (at_end : bool) (err : string) : Next unit := λ d,
  if bool_decide (is_source_mapping_segment_end d = at_end)
  then set_error_and_stop_iterating err d
  else (Some tt, d).

Definition at_segment_end : Next bool := λ d, (Some (is_source_mapping_segment_end d), d).

(** The name part of a segment: [has_name]. *)
Definition next_name : Next bool :=
  ended ← at_segment_end;
  if ended : bool then mret false
  else
    _ ← add_relative d_name_index (λ v d, d <| d_name_index := v |>)
          "Invalid nameIndex found";
    _ ← fail_at_segment_end false "Unsupported Error Format: Entries after nameIndex";
    mret true.

(** The source part of a segment: [(has_source, has_name)]. *)
Definition next_source : Next (bool * bool) :=
  ended ← at_segment_end;
  if ended : bool then mret (false, false)
  else
    _ ← add_relative d_source_index (λ v d, d <| d_source_index := v |>)
          "Invalid sourceIndex found";
    _ ← fail_at_segment_end true "Unsupported Format: No entries after sourceIndex";
    _ ← add_relative d_source_line (λ v d, d <| d_source_line := v |>)
          "Invalid sourceLine found";
    _ ← fail_at_segment_end true "Unsupported Format: No entries after sourceLine";
    _ ← add_relative d_source_character (λ v d, d <| d_source_character := v |>)
          "Invalid sourceCharacter found";
    has_name ← next_name;
    mret (true, has_name).

Definition captured (flags : bool * bool) : Next Mapping := λ d,
  (Some (capture_mapping d (fst flags) (snd flags)), d).

(** One whole segment. *)
Definition next_segment : Next Mapping :=
  _ ← add_relative d_generated_character (λ v d, d <| d_generated_character := v |>)
        "Invalid generatedCharacter found";
  flags ← next_source;
  captured flags.

(** The loop of [next] over the separators before a segment. *)
Fixpoint next_loop (rest : bytes) : Next Mapping := λ d,
  if d_done d then stop_iterating d
  else match rest with
  | [] => stop_iterating d
  | c :: rest =>
      if c =? ch ";" then
        next_loop rest
          (d <| d_generated_line := wrap_i64 (d_generated_line d + 1) |>
             <| d_generated_character := 0 |> <| d_pos := S (d_pos d) |>)
      else if c =? ch "," then next_loop rest (d <| d_pos := S (d_pos d) |>)
      else next_segment d
  end.

Definition next : Next Mapping := λ d, next_loop (drop (d_pos d) (d_mappings d)) d.

(** [values().collect()]: fuel for one step per byte and the final [None]. *)
Fixpoint values_fuel (fuel : nat) (d : MappingsDecoder) : list Mapping * MappingsDecoder :=
  match fuel with
  | O => ([], d)
  | S fuel =>
      match next d with
      | (Some m, d) => let '(ms, d) := values_fuel fuel d in (m :: ms, d)
      | (None, d) => ([], d)
      end
  end.

Definition values (d : MappingsDecoder) : list Mapping * MappingsDecoder :=
  values_fuel (S (length (d_mappings d) - d_pos d)) d.

(** * The generator *)

Definition SOURCE_INDEX_NOT_SET : Z := -1.
Definition NAME_INDEX_NOT_SET : Z := -1.
Definition NOT_SET : Z := -1.
Definition NOT_SET_UTF16 : Z := -1.

Record Generator := MkGenerator {
  g_current_directory : bytes;
  g_use_case_sensitive_file_names : bool;
  g_file : bytes;
  g_source_root : bytes;
  g_sources_directory_path : bytes;
  g_raw_sources : list bytes;
  g_sources : list bytes;
  g_source_to_source_index_map : gmap bytes Z;
  g_sources_content : list (option bytes);
  g_names : list bytes;
  g_name_to_name_index_map : gmap bytes Z;
  g_mappings : bytes;
  g_last_generated_line : Z;
  g_last_generated_character : Z;
  g_last_source_index : Z;
  g_last_source_line : Z;
  g_last_source_character : Z;
  g_last_name_index : Z;
  g_has_last : bool;
  g_pending_generated_line : Z;
  g_pending_generated_character : Z;
  g_pending_source_index : Z;
  g_pending_source_line : Z;
  g_pending_source_character : Z;
  g_pending_name_index : Z;
  g_has_pending : bool;
  g_has_pending_source : bool;
  g_has_pending_name : bool;
}.

#[export] Instance eta_generator : Eta Generator := λ g,
  MkGenerator (g_current_directory g) (g_use_case_sensitive_file_names g) (g_file g)
    (g_source_root g) (g_sources_directory_path g) (g_raw_sources g) (g_sources g)
    (g_source_to_source_index_map g) (g_sources_content g) (g_names g)
    (g_name_to_name_index_map g) (g_mappings g) (g_last_generated_line g)
    (g_last_generated_character g) (g_last_source_index g) (g_last_source_line g)
    (g_last_source_character g) (g_last_name_index g) (g_has_last g) (g_pending_generated_line g)
    (g_pending_generated_character g) (g_pending_source_index g) (g_pending_source_line g)
    (g_pending_source_character g) (g_pending_name_index g) (g_has_pending g)
    (g_has_pending_source g) (g_has_pending_name g).

Record RawSourceMap := MkRawSourceMap {
  r_version : Z;
  r_file : bytes;
  r_source_root : bytes;
  r_sources : list bytes;
  r_names : list bytes;
  r_mappings : bytes;
  r_sources_content : option (list (option bytes));
}.

Definition new_generator (file source_root sources_directory_path current_directory : bytes)
    (use_case_sensitive_file_names : bool) : Generator :=
  {| g_current_directory := current_directory;
     g_use_case_sensitive_file_names := use_case_sensitive_file_names;
     g_file := file; g_source_root := source_root;
     g_sources_directory_path := sources_directory_path;
     g_raw_sources := []; g_sources := []; g_source_to_source_index_map := ∅;
     g_sources_content := []; g_names := []; g_name_to_name_index_map := ∅; g_mappings := [];
     g_last_generated_line := 0; g_last_generated_character := 0; g_last_source_index := 0;
     g_last_source_line := 0; g_last_source_character := 0; g_last_name_index := 0;
     g_has_last := false;
     g_pending_generated_line := 0; g_pending_generated_character := 0;
     g_pending_source_index := 0; g_pending_source_line := 0; g_pending_source_character := 0;
     g_pending_name_index := 0;
     g_has_pending := false; g_has_pending_source := false; g_has_pending_name := false |}.

(** ** Base64 VLQ *)

(** [None]: the [panic!] on a value outside the alphabet. *)
Definition base64_format_encode (value : Z) : option Z :=
  if in_range 0 25 value then Some (ch "A" + value)
  else if in_range 26 51 value then Some (ch "a" + value - 26)
  else if in_range 52 61 value then Some (ch "0" + value - 52)
  else if value =? 62 then Some (ch "+")
  else if value =? 63 then Some (ch "/")
  else None.

(** The digits, least significant first; an [isize] runs out of bits in thirteen. *)
Fixpoint vlq_digits (fuel : nat) (in_value : Z) : option bytes :=
  match fuel with
  | O => None
  | S fuel =>
      let current_digit := Z.land in_value 31 in
      let in_value := Z.shiftr in_value 5 in
      let current_digit := if 0 <? in_value then Z.lor current_digit 32 else current_digit in
      c ← base64_format_encode current_digit;
      if in_value <=? 0 then Some [c] else cons c <$> vlq_digits fuel in_value
  end.

Definition vlq_signed (in_value : Z) : Z :=
  if in_value <? 0 then wrap_i64 (wrap_i64 (Z.shiftl (wrap_i64 (- in_value)) 1) + 1)
  else wrap_i64 (Z.shiftl in_value 1).

Definition base64_vlq (in_value : Z) : option bytes := vlq_digits 13 (vlq_signed in_value).

Definition append_mapping_char_code (char_code : Z) (g : Generator) : Generator :=
  g <| g_mappings := g_mappings g ++ [char_code] |>.

Definition append_base64_vlq (in_value : Z) (g : Generator) : option Generator :=
  digits ← base64_vlq in_value;
  Some (g <| g_mappings := g_mappings g ++ digits |>).

(** ** Positions *)

Definition is_new_generated_position (g : Generator) (generated_line generated_character : Z)
  : bool :=
  negb (g_has_pending g)
  || negb (g_pending_generated_line g =? generated_line)
  || negb (g_pending_generated_character g =? generated_character).

Definition is_backtracking_source_position (g : Generator)
    (source_index source_line source_character : Z) : bool :=
  negb (source_index =? SOURCE_INDEX_NOT_SET)
  && negb (source_line =? NOT_SET)
  && negb (source_character =? NOT_SET_UTF16)
  && (g_pending_source_index g =? source_index)
  && ((source_line <? g_pending_source_line g)
      || ((g_pending_source_line g =? source_line)
          && (source_character <? g_pending_source_character g))).

Definition should_commit_mapping (g : Generator) : bool :=
  g_has_pending g
  && (negb (g_has_last g)
      || negb (g_last_generated_line g =? g_pending_generated_line g)
      || negb (g_last_generated_character g =? g_pending_generated_character g)
      || negb (g_last_source_index g =? g_pending_source_index g)
      || negb (g_last_source_line g =? g_pending_source_line g)
      || negb (g_last_source_character g =? g_pending_source_character g)
      || negb (g_last_name_index g =? g_pending_name_index g)).

(** ** Committing *)

(** The [loop] that emits line delimiters; one turn per line of difference. *)
Fixpoint emit_lines (fuel : nat) (g : Generator) : Generator :=
  match fuel with
  | O => g
  | S fuel =>
      let g := append_mapping_char_code (ch ";") g in
      let g := g <| g_last_generated_line := wrap_i64 (g_last_generated_line g + 1) |> in
      if g_pending_generated_line g <=? g_last_generated_line g then g else emit_lines fuel g
  end.

(** Line and comma delimiters; [None]: the assertion on the line fails. *)
Definition emit_delimiters (g : Generator) : option Generator :=
  if g_last_generated_line g <? g_pending_generated_line g then
    let lines := Z.to_nat (g_pending_generated_line g - g_last_generated_line g) in
    Some (emit_lines lines g <| g_last_generated_character := 0 |>)
  else if negb (g_last_generated_line g =? g_pending_generated_line g) then None
  else Some (if g_has_last g then append_mapping_char_code (ch ",") g else g).

Definition emit_name (g : Generator) : option Generator :=
  if g_has_pending_name g then
    g ← append_base64_vlq (wrap_i64 (g_pending_name_index g - g_last_name_index g)) g;
    Some (g <| g_last_name_index := g_pending_name_index g |>)
  else Some g.

(** Steps 2 to 4 of a commit: each writes a difference and moves the last value. *)
Definition emit_source_index (g : Generator) : option Generator :=
  g ← append_base64_vlq (wrap_i64 (g_pending_source_index g - g_last_source_index g)) g;
  Some (g <| g_last_source_index := g_pending_source_index g |>).

Definition emit_source_line (g : Generator) : option Generator :=
  g ← append_base64_vlq (wrap_i64 (g_pending_source_line g - g_last_source_line g)) g;
  Some (g <| g_last_source_line := g_pending_source_line g |>).

Definition emit_source_character (g : Generator) : option Generator :=
  g ← append_base64_vlq (wrap_i64 (g_pending_source_character g - g_last_source_character g)) g;
  Some (g <| g_last_source_character := g_pending_source_character g |>).

Definition emit_source (g : Generator) : option Generator :=
  if g_has_pending_source g then
    g ← emit_source_index g;
    g ← emit_source_line g;
    g ← emit_source_character g;
    emit_name g
  else Some g.

Definition commit_pending_mapping (g : Generator) : option Generator :=
  if negb (should_commit_mapping g) then Some g
  else
    g ← emit_delimiters g;
    g ← append_base64_vlq
          (wrap_i64 (g_pending_generated_character g - g_last_generated_character g)) g;
    let g := g <| g_last_generated_character := g_pending_generated_character g |> in
    g ← emit_source g;
    Some (g <| g_has_last := true |>).

(** ** Adding mappings *)

Definition add_mapping (g : Generator)
    (generated_line generated_character source_index source_line source_character name_index : Z)
  : option Generator :=
  g ← (if is_new_generated_position g generated_line generated_character
          || is_backtracking_source_position g source_index source_line source_character
       then
         g ← commit_pending_mapping g;
         Some (g <| g_pending_generated_line := generated_line |>
                 <| g_pending_generated_character := generated_character |>
                 <| g_has_pending_source := false |>
                 <| g_has_pending_name := false |>
                 <| g_has_pending := true |>)
       else Some g);
  Some (if negb (source_index =? SOURCE_INDEX_NOT_SET) && negb (source_line =? NOT_SET)
           && negb (source_character =? NOT_SET_UTF16)
        then
          let g := g <| g_pending_source_index := source_index |>
                     <| g_pending_source_line := source_line |>
                     <| g_pending_source_character := source_character |>
                     <| g_has_pending_source := true |> in
          if negb (name_index =? NAME_INDEX_NOT_SET)
          then g <| g_pending_name_index := name_index |> <| g_has_pending_name := true |>
          else g
        else g).

(** A call that checks its arguments and may panic: [None] is the panic. *)
Definition Call (A : Type) : Type := option (result string A * Generator).

Definition add_generated_mapping (g : Generator) (generated_line generated_character : Z)
  : Call unit :=
  if generated_line <? g_pending_generated_line g
  then Some (Err "generatedLine cannot backtrack"%string, g)
  else if generated_character <? 0
  then Some (Err "generatedCharacter cannot be negative"%string, g)
  else
    g ← add_mapping g generated_line generated_character
          SOURCE_INDEX_NOT_SET NOT_SET NOT_SET_UTF16 NAME_INDEX_NOT_SET;
    Some (Ok tt, g <| g_has_pending_source := false |> <| g_has_pending_name := false |>).

Definition add_source_mapping (g : Generator)
    (generated_line generated_character source_index source_line source_character : Z)
  : Call unit :=
  if generated_line <? g_pending_generated_line g
  then Some (Err "generatedLine cannot backtrack"%string, g)
  else if generated_character <? 0
  then Some (Err "generatedCharacter cannot be negative"%string, g)
  else if (source_index <? 0) || (Z.of_nat (length (g_sources g)) <=? source_index)
  then Some (Err "sourceIndex is out of range"%string, g)
  else if source_line <? 0 then Some (Err "sourceLine cannot be negative"%string, g)
  else if source_character <? 0 then Some (Err "sourceCharacter cannot be negative"%string, g)
  else if g_has_pending g && negb (is_new_generated_position g generated_line generated_character)
          && negb (g_has_pending_source g)
  then Some (Ok tt, g)
  else
    g ← add_mapping g generated_line generated_character
          source_index source_line source_character NAME_INDEX_NOT_SET;
    Some (Ok tt, g).

Definition add_named_source_mapping (g : Generator)
    (generated_line generated_character source_index source_line source_character name_index : Z)
  : Call unit :=
  if generated_line <? g_pending_generated_line g
  then Some (Err "generatedLine cannot backtrack"%string, g)
  else if generated_character <? 0
  then Some (Err "generatedCharacter cannot be negative"%string, g)
  else if (source_index <? 0) || (Z.of_nat (length (g_sources g)) <=? source_index)
  then Some (Err "sourceIndex is out of range"%string, g)
  else if source_line <? 0 then Some (Err "sourceLine cannot be negative"%string, g)
  else if source_character <? 0 then Some (Err "sourceCharacter cannot be negative"%string, g)
  else if (name_index <? 0) || (Z.of_nat (length (g_names g)) <=? name_index)
  then Some (Err "nameIndex is out of range"%string, g)
  else if g_has_pending g && negb (is_new_generated_position g generated_line generated_character)
          && negb (g_has_pending_source g)
  then Some (Ok tt, g)
  else
    g ← add_mapping g generated_line generated_character
          source_index source_line source_character name_index;
    Some (Ok tt, g).

(** ** Sources and names *)

Definition add_name (g : Generator) (name : bytes) : Z * Generator :=
  match g_name_to_name_index_map g !! name with
  | Some name_index => (name_index, g)
  | None =>
      let name_index := Z.of_nat (length (g_names g)) in
      (name_index,
       g <| g_names := g_names g ++ [name] |>
         <| g_name_to_name_index_map := <[name := name_index]> (g_name_to_name_index_map g) |>)
  end.

(** [while self.sources_content.len() <= source_index { push(None) }], then the store. *)
Definition set_source_content (g : Generator) (source_index : Z) (content : bytes)
  : result string unit * Generator :=
  if (source_index <? 0) || (Z.of_nat (length (g_sources g)) <=? source_index)
  then (Err "sourceIndex is out of range"%string, g)
  else
    let i := Z.to_nat source_index in
    let padded :=
      g_sources_content g ++ replicate (S i - length (g_sources_content g)) None in
    (Ok tt, g <| g_sources_content := <[i := Some content]> padded |>).

Definition add_source `{CaseTables} (g : Generator) (file_name : bytes) : Z * Generator :=
  let source :=
    relative_to_directory_or_url (g_sources_directory_path g) file_name true
      (g_current_directory g) (g_use_case_sensitive_file_names g) in
  match g_source_to_source_index_map g !! source with
  | Some source_index => (source_index, g)
  | None =>
      let source_index := Z.of_nat (length (g_sources g)) in
      (source_index,
       g <| g_sources := g_sources g ++ [source] |>
         <| g_raw_sources := g_raw_sources g ++ [file_name] |>
         <| g_source_to_source_index_map :=
              <[source := source_index]> (g_source_to_source_index_map g) |>)
  end.

Definition raw_source_map (g : Generator) : option (RawSourceMap * Generator) :=
  g ← commit_pending_mapping g;
  Some ({| r_version := 3; r_file := g_file g; r_source_root := g_source_root g;
           r_sources := g_sources g; r_names := g_names g; r_mappings := g_mappings g;
           r_sources_content :=
             if bool_decide (g_sources_content g = []) then None
             else Some (g_sources_content g) |}, g).
