(* ===== verification/SourceMapRoundTrip.v ===== *)
(** What the source map reader makes of what the generator wrote: the VLQ round
    trip, the decoder's steps over one written segment, and the refinement of the
    generator to the list of mappings it has committed. *)

From Stdlib Require Import Sorted.
From stdpp Require Import gmap.
From S2P Require Import Prelude Wtf8 PathComponents PathCompare SourceMapGenerator.
From S2P Require Import SourceMapGenerator.

Local Open Scope Z_scope.

(** ** Base64 VLQ *)

Definition is_separator (c : Z) : Prop := c = ch "," ∨ c = ch ";".

Lemma base64_format_round_trip v :
  0 <= v < 64 →
  ∃ c, base64_format_encode v = Some c ∧ base64_format_decode c = v ∧ ¬ is_separator c.
Proof.
  intros Hv. assert (forallb (λ v, match base64_format_encode v with
    | Some c => (base64_format_decode c =? v) && negb ((c =? ch ",") || (c =? ch ";"))
    | None => false end) (seqZ 0 64) = true) as H by (vm_compute; reflexivity).
  rewrite forallb_forall in H. specialize (H v). rewrite <-list_elem_of_In, elem_of_seqZ in H.
  specialize (H ltac:(lia)). destruct (base64_format_encode v) as [c|]; [|done].
  rewrite andb_true_iff, negb_true_iff, orb_false_iff, Z.eqb_eq, !Z.eqb_neq in H.
  exists c. unfold is_separator. tauto.
Qed.

Lemma land_32 v : 0 <= v < 64 → Z.land v 32 = if v <? 32 then 0 else 32.
Proof.
  intros Hv. assert (Forall (λ v, Z.land v 32 = if v <? 32 then 0 else 32) (seqZ 0 64)) as H.
  { repeat (apply Forall_cons; split; [reflexivity|]). apply Forall_nil_2. }
  rewrite Forall_forall in H. apply H. by apply elem_of_seqZ.
Qed.

(** The reader's digit loop undoes the writer's, from any digit position on. *)
Lemma vlq_digits_loop fuel x :
  0 <= x < 32 ^ Z.of_nat fuel → (0 < fuel)%nat →
  ∃ digits, vlq_digits fuel x = Some digits ∧ digits ≠ [] ∧ Forall (λ c, ¬ is_separator c) digits
    ∧ ∀ rest s v d, 0 <= s < 63 → 0 <= v < 2 ^ s → x * 2 ^ s < 2 ^ 63 →
        vlq_loop (digits ++ rest) s v d
        = (Some (v + x * 2 ^ s), d <| d_pos := (d_pos d + length digits)%nat |>).
Proof.
  revert x; induction fuel as [|fuel IH]; intros x Hx Hf; [lia|]. cbn [vlq_digits].
  rewrite land_31, Z.shiftr_div_pow2 by lia. change (2 ^ 5) with 32.
  rewrite Nat2Z.inj_succ, Z.pow_succ_r in Hx by lia.
  assert (x = 32 * (x / 32) + x mod 32) as Hdm by (apply Z.div_mod; lia).
  pose proof (Z.mod_pos_bound x 32 ltac:(lia)) as Hm.
  assert (0 <= x / 32) as Hq by (apply Z.div_pos; lia).
  set (q := x / 32) in *. set (r := x mod 32) in *. clearbody q r. subst x.
  assert (Hstep : ∀ s v, 0 <= s < 63 → 0 <= v < 2 ^ s → (32 * q + r) * 2 ^ s < 2 ^ 63 →
    Z.lor v (checked_shl_or_zero r s) = v + r * 2 ^ s).
  { intros s v Hs Hv Hb. unfold checked_shl_or_zero. destruct (Z.ltb_spec s 64); [|lia].
    rewrite Z.shiftl_mul_pow2 by lia. rewrite wrap_i64_id by nia.
    rewrite Z.lor_comm, <-Z.shiftl_mul_pow2 by lia. rewrite shiftl_lor_add by lia.
    rewrite Z.shiftl_mul_pow2 by lia. lia. }
  destruct (Z.ltb_spec 0 q) as [Hq0|Hq0].
  - assert (Z.lor r 32 = r + 32) as Hlor.
    { rewrite Z.lor_comm, (lor_disjoint_add 5); [lia|lia|lia|]. by exists 1. }
    rewrite Hlor. destruct (base64_format_round_trip (r + 32)) as (c & -> & Hdec & Hsep); [lia|].
    cbn [mbind option_bind]. destruct (Z.leb_spec q 0); [lia|].
    destruct (IH q) as (digits & -> & Hne & Hall & Hread).
    { lia. } { destruct fuel; [simpl in *; lia|lia]. }
    exists (c :: digits). split_and!; [done|done|by constructor|].
    intros rest s v d Hs Hv Hb. cbn [app vlq_loop]. rewrite Hdec.
    destruct (Z.eqb_spec (r + 32) (-1)); [lia|].
    rewrite land_32 by lia. destruct (Z.ltb_spec (r + 32) 32); [lia|].
    cbn [negb Z.eqb]. rewrite land_31. replace ((r + 32) mod 32) with r by zdiv.
    rewrite Hstep by done. rewrite Z.min_l by lia.
    assert (2 ^ (s + 5) = 32 * 2 ^ s) as Hp by (rewrite Z.pow_add_r; lia).
    assert (s + 5 < 63).
    { apply (Z.pow_lt_mono_r_iff 2); [lia..|]. nia. }
    rewrite Hread; [|lia|nia|nia]. unfold set_field; simpl.
    replace (v + r * 2 ^ s + q * 2 ^ (s + 5)) with (v + (32 * q + r) * 2 ^ s) by (rewrite Hp; ring).
    by rewrite Nat.add_succ_r.
  - assert (q = 0) as -> by lia. destruct (base64_format_round_trip r) as (c & -> & Hdec & Hsep); [lia|].
    cbn [mbind option_bind Z.leb Z.compare]. exists [c]. split_and!; [done|done|by constructor|].
    intros rest s v d Hs Hv Hb. cbn [app vlq_loop]. rewrite Hdec.
    destruct (Z.eqb_spec r (-1)); [lia|]. rewrite land_32 by lia. destruct (Z.ltb_spec r 32); [|lia].
    cbn [negb Z.eqb]. rewrite land_31, Z.mod_small by lia. rewrite Hstep by done.
    cbn [length]. by rewrite Nat.add_1_r.
Qed.

(** The values a field difference takes: the sign bit takes one of the 63. *)
Definition vlq_range (v : Z) : Prop := - 2 ^ 62 < v < 2 ^ 62.

(** The text of one value, sealed: proofs see it through [vlq_spec] only. *)
Definition vlq_aux : seal (λ v, default [] (base64_vlq v)).
Proof. by eexists. Qed.
Definition vlq : Z → bytes := vlq_aux.(unseal).
Definition vlq_eq : vlq = λ v, default [] (base64_vlq v) := vlq_aux.(seal_eq).

Lemma vlq_signed_spec v :
  vlq_range v → vlq_signed v = if v <? 0 then 2 * - v + 1 else 2 * v.
Proof.
  unfold vlq_range, vlq_signed. intros Hv. rewrite !Z.shiftl_mul_pow2 by lia. change (2 ^ 1) with 2.
  destruct (Z.ltb_spec v 0); [rewrite (wrap_i64_id (- v)), (wrap_i64_id (- v * 2)) by lia|]; rewrite wrap_i64_id; lia.
Qed.

Lemma vlq_spec v :
  vlq_range v →
  base64_vlq v = Some (vlq v) ∧ vlq v ≠ [] ∧ Forall (λ c, ¬ is_separator c) (vlq v)
  ∧ ∀ rest d, drop (d_pos d) (d_mappings d) = vlq v ++ rest →
      base64_vlq_format_decode d = (v, d <| d_pos := (d_pos d + length (vlq v))%nat |>).
Proof.
  intros Hv. pose proof (vlq_signed_spec v Hv) as Hs. unfold vlq_range in Hv.
  assert (0 <= vlq_signed v < 2 ^ 63) as Hb by (rewrite Hs; zbool; lia).
  destruct (vlq_digits_loop 13 (vlq_signed v)) as (digits & Hd & Hne & Hall & Hread).
  { split; [lia|]. apply (Z.lt_trans _ (2 ^ 63)); [lia|done]. } { lia. }
  rewrite vlq_eq. assert (base64_vlq v = Some digits) as -> by done. cbn [default].
  split_and!; [done..|]. intros rest d Hdrop. unfold base64_vlq_format_decode.
  rewrite Hdrop, Hread by lia. rewrite land_1, !Z.shiftr_div_pow2, Hs by lia. change (2 ^ 1) with 2.
  change (2 ^ 0) with 1. destruct (Z.ltb_spec v 0).
  - destruct (Z.eqb_spec ((0 + (2 * - v + 1) * 1) mod 2) 0); [zdiv|].
    f_equal. rewrite wrap_i64_id; zdiv.
  - destruct (Z.eqb_spec ((0 + 2 * v * 1) mod 2) 0); [|zdiv]. f_equal. zdiv.
Qed.

Arguments base64_vlq : simpl never.

(** The reader decodes the digits the writer emits for a difference to that
    difference, and stops right behind them, for every value whose magnitude
    fits beside the sign bit: below [2 ^ 62]. *)
Theorem vlq_round_trip v rest :
  vlq_range v →
  ∃ digits, base64_vlq v = Some digits
    ∧ (base64_vlq_format_decode (decode_mappings (digits ++ rest))).1 = v
    ∧ d_pos (base64_vlq_format_decode (decode_mappings (digits ++ rest))).2 = length digits
    ∧ d_error (base64_vlq_format_decode (decode_mappings (digits ++ rest))).2 = None.
Proof.
  intros Hv. destruct (vlq_spec v Hv) as (Hd & _ & _ & Hread). exists (vlq v).
  by rewrite (Hread rest).
Qed.

Lemma vlq_round_trip_witness :
  vlq_range (-123456789)
  ∧ ∃ digits, base64_vlq (-123456789) = Some digits
    ∧ (base64_vlq_format_decode (decode_mappings (digits ++ bs ",A"))).1 = -123456789
    ∧ d_pos (base64_vlq_format_decode (decode_mappings (digits ++ bs ",A"))).2 = length digits
    ∧ d_error (base64_vlq_format_decode (decode_mappings (digits ++ bs ",A"))).2 = None.
Proof.
  assert (vlq_range (-123456789)) as H by (unfold vlq_range; lia).
  split; [exact H|]. exact (vlq_round_trip (-123456789) (bs ",A") H).
Defined.

(** At [2 ^ 62] the shifted value turns negative and one digit is written. *)
Example vlq_overflow :
  base64_vlq (2 ^ 62) = Some (bs "A")
  ∧ (base64_vlq_format_decode (decode_mappings (bs "A"))).1 = 0.
Proof. split; reflexivity. Qed.

(** ** Reading one segment *)



(** Values of the running state: non-negative, and so close that differences
    stay in [vlq_range]. *)
Definition small (z : Z) : Prop := 0 <= z < 2 ^ 62.

Lemma small_difference a b : small a → small b → vlq_range (a - b) ∧ wrap_i64 (a - b) = a - b.
Proof. unfold small, vlq_range. intros. split; [lia|]. apply wrap_i64_id. lia. Qed.

(** A running decoder without error at an offset of a text. *)
Definition at_offset (text : bytes) (pos : nat) (line character si sl sc ni : Z)
  : MappingsDecoder := MkDecoder text false pos line character si sl sc ni None.

Definition segment_ends (rest : bytes) : Prop :=
  match rest with [] => True | c :: _ => is_separator c end.

Lemma segment_end_at (d : MappingsDecoder) rest :
  drop (d_pos d) (d_mappings d) = rest → (d_pos d <= length (d_mappings d))%nat →
  is_source_mapping_segment_end d
  = match rest with [] => true | c :: _ => (c =? ch ",") || (c =? ch ";") end.
Proof.
  intros Hd Hle. unfold is_source_mapping_segment_end. destruct rest as [|c rest].
  - apply (f_equal length) in Hd. rewrite length_drop in Hd. simpl in Hd.
    destruct (Nat.eqb_spec (d_pos d) (length (d_mappings d))); [done|lia].
  - assert (d_mappings d !! d_pos d = Some c) as Hc.
    { rewrite <-(Nat.add_0_r (d_pos d)), <-lookup_drop, Hd. done. }
    apply lookup_lt_Some in Hc as Hlt. destruct (Nat.eqb_spec (d_pos d) (length (d_mappings d))); [lia|].
    by rewrite (nth_lookup_Some _ _ 0 _ Hc).
Qed.

Lemma segment_end_true d rest :
  drop (d_pos d) (d_mappings d) = rest → (d_pos d <= length (d_mappings d))%nat →
  segment_ends rest → is_source_mapping_segment_end d = true.
Proof.
  intros Hd Hle Hr. rewrite (segment_end_at d rest) by done. destruct rest as [|c rest]; [done|].
  by destruct Hr as [->| ->].
Qed.

Lemma segment_end_false d v rest :
  drop (d_pos d) (d_mappings d) = vlq v ++ rest → vlq_range v →
  (d_pos d <= length (d_mappings d))%nat → is_source_mapping_segment_end d = false.
Proof.
  intros Hd Hv Hle. rewrite (segment_end_at d _ Hd) by done.
  destruct (vlq_spec v Hv) as (_ & Hne & Hall & _). destruct (vlq v) as [|c digits]; [done|].
  apply Forall_cons in Hall as [Hc _]. cbn [app]. unfold is_separator in Hc.
  destruct (Z.eqb_spec c (ch ",")), (Z.eqb_spec c (ch ";")); simpl; tauto.
Qed.

Lemma add_relative_spec field assign negative old new rest d :
  small old → small new → field d = old →
  drop (d_pos d) (d_mappings d) = vlq (new - old) ++ rest →
  (∀ p, field (assign new (d <| d_pos := p |>)) = new) →
  (∀ p, d_error (assign new (d <| d_pos := p |>)) = None) →
  add_relative field assign negative d
  = (Some tt, assign new (d <| d_pos := (d_pos d + length (vlq (new - old)))%nat |>)).
Proof.
  intros Ho Hn Hf Hd Hfield Herr. destruct (small_difference new old Hn Ho) as [Hr _].
  destruct (vlq_spec _ Hr) as (_ & _ & _ & Hread).
  unfold add_relative. rewrite (Hread _ _ Hd), Hf. cbn [fst snd].
  replace (wrap_i64 (old + (new - old))) with new.
  - unfold has_reported_error. rewrite Herr, Hfield. unfold small in Hn.
    by destruct (Z.ltb_spec new 0); [lia|].
  - unfold small in *. rewrite wrap_i64_id; lia.
Qed.

Lemma fail_at_segment_end_ok at_end err d :
  is_source_mapping_segment_end d = negb at_end → fail_at_segment_end at_end err d = (Some tt, d).
Proof. unfold fail_at_segment_end. intros ->. by destruct at_end. Qed.

(** The running state of writer and reader, and a mapping in it. *)
Record Running := MkRunning {
  run_line : Z; run_character : Z; run_source_index : Z; run_source_line : Z;
  run_source_character : Z; run_name_index : Z;
}.

Definition decoder_at (text : bytes) (pos : nat) (s : Running) : MappingsDecoder :=
  MkDecoder text false pos (run_line s) (run_character s) (run_source_index s)
    (run_source_line s) (run_source_character s) (run_name_index s) None.

Definition small_running (s : Running) : Prop :=
  small (run_line s) ∧ small (run_character s) ∧ small (run_source_index s)
  ∧ small (run_source_line s) ∧ small (run_source_character s) ∧ small (run_name_index s).

(** The text of a segment that moves the running state to the pending one. *)
Definition name_text (last pending : Running) : bytes :=
  vlq (run_name_index pending - run_name_index last).
Definition source_text (has_name : bool) (last pending : Running) : bytes :=
  vlq (run_source_index pending - run_source_index last)
  ++ vlq (run_source_line pending - run_source_line last)
  ++ vlq (run_source_character pending - run_source_character last)
  ++ (if has_name then name_text last pending else []).
Definition segment_text (has_source has_name : bool) (last pending : Running) : bytes :=
  vlq (run_character pending - run_character last)
  ++ (if has_source then source_text has_name last pending else []).

(** The running state behind that segment. *)
Definition moved (has_source has_name : bool) (last pending : Running) : Running :=
  {| run_line := run_line last; run_character := run_character pending;
     run_source_index := if has_source then run_source_index pending else run_source_index last;
     run_source_line := if has_source then run_source_line pending else run_source_line last;
     run_source_character :=
       if has_source then run_source_character pending else run_source_character last;
     run_name_index :=
       if has_source && has_name then run_name_index pending else run_name_index last |}.

Definition running_mapping (has_source has_name : bool) (s : Running) : Mapping :=
  capture_mapping (decoder_at [] 0 s) has_source (has_source && has_name).

Lemma next_bind_ok {A B} (m : Next A) (f : A → Next B) (d : MappingsDecoder) (a : A) (d' : MappingsDecoder) :
  m d = (Some a, d') → mbind (M := Next) f m d = f a d'.
Proof. intros H. unfold mbind, next_bind. by rewrite H. Qed.

(** What the text of a decoder holds before and after its offset. *)
Definition split_at (d : MappingsDecoder) (pre rest : bytes) : Prop :=
  d_mappings d = pre ++ rest ∧ d_pos d = length pre.

Lemma split_at_drop d pre rest :
  split_at d pre rest → drop (d_pos d) (d_mappings d) = rest ∧ (d_pos d <= length (d_mappings d))%nat.
Proof. intros [-> ->]. rewrite drop_app_length, length_app. split; [done|lia]. Qed.

Lemma at_segment_end_ok d pre rest (b : bool) :
  split_at d pre rest →
  (if b then segment_ends rest else ∃ v rest', rest = vlq v ++ rest' ∧ vlq_range v) →
  is_source_mapping_segment_end d = b.
Proof.
  intros [Hd Hle]%split_at_drop Hb. destruct b; [by eapply segment_end_true|].
  destruct Hb as (v & rest' & -> & Hv). by eapply segment_end_false.
Qed.

Lemma next_name_spec text pre rest l c si sl sc ni ni' :
  small ni → small ni' → text = pre ++ vlq (ni' - ni) ++ rest → segment_ends rest →
  next_name (MkDecoder text false (length pre) l c si sl sc ni None)
  = (Some true, MkDecoder text false (length (pre ++ vlq (ni' - ni))) l c si sl sc ni' None).
Proof.
  intros Ho Hn -> Hends. destruct (small_difference ni' ni Hn Ho) as [Hr _].
  unfold next_name. erewrite next_bind_ok; cycle 1.
  { unfold at_segment_end. erewrite (at_segment_end_ok _ pre _ false); [done|done|eauto]. }
  cbn beta iota. erewrite next_bind_ok; cycle 1.
  { eapply add_relative_spec; [exact Ho|exact Hn|done| |done|done].
    cbn. by rewrite drop_app_length. }
  cbn beta. erewrite next_bind_ok; cycle 1.
  { apply fail_at_segment_end_ok. eapply (at_segment_end_ok _ (pre ++ vlq (ni' - ni)) rest); [|done].
    split; cbn; [by rewrite <-app_assoc|by rewrite length_app]. }
  unfold mret, next_ret. f_equal. cbn. by rewrite length_app.
Qed.

Lemma next_field_spec {B} (f : unit → Next B) field assign negative d pre old new rest d' :
  small old → small new → field d = old → split_at d pre (vlq (new - old) ++ rest) →
  (∀ p, field (assign new (d <| d_pos := p |>)) = new) →
  (∀ p, d_error (assign new (d <| d_pos := p |>)) = None) →
  assign new (d <| d_pos := length (pre ++ vlq (new - old)) |>) = d' →
  mbind (M := Next) f (add_relative field assign negative) d = f tt d'.
Proof.
  intros Ho Hn Hf Hs Hfield Herr <-. apply next_bind_ok.
  destruct (split_at_drop _ _ _ Hs) as [Hd _].
  rewrite (add_relative_spec field assign negative old new rest) by done.
  destruct Hs as [_ ->]. by rewrite length_app.
Qed.

Lemma next_more_spec {B} (f : unit → Next B) err d pre v rest :
  split_at d pre (vlq v ++ rest) → vlq_range v →
  mbind (M := Next) f (fail_at_segment_end true err) d = f tt d.
Proof.
  intros Hs Hv. apply next_bind_ok, fail_at_segment_end_ok.
  eapply (at_segment_end_ok d pre _ false); eauto.
Qed.

Ltac at_here :=
  split; cbn [d_mappings d_pos];
  [repeat match goal with x := _ : bytes |- _ => progress unfold x end; by rewrite <-?app_assoc|done].

(** One field of a segment, then the separator check behind it. *)
Ltac read_field pre old new :=
  etrans; [eapply (next_field_spec _ _ _ _ _ pre old new);
           [done|done|done|at_here|done|done|reflexivity]|]; cbv beta.
Ltac read_more pre := etrans; [eapply (next_more_spec _ _ _ pre); [at_here|done]|]; cbv beta.

Lemma next_source_spec text pre rest has_name l c si sl sc ni si' sl' sc' ni' :
  small si → small sl → small sc → small ni → small si' → small sl' → small sc' → small ni' →
  let last := MkRunning l c si sl sc ni in
  let pending := MkRunning l c si' sl' sc' ni' in
  text = pre ++ source_text has_name last pending ++ rest → segment_ends rest →
  next_source (MkDecoder text false (length pre) l c si sl sc ni None)
  = (Some (true, has_name),
     MkDecoder text false (length (pre ++ source_text has_name last pending)) l c si' sl' sc'
       (if has_name then ni' else ni) None).
Proof.
  intros Hsi Hsl Hsc Hni Hsi' Hsl' Hsc' Hni' last pending -> Hends.
  unfold source_text, name_text in *. cbn in last, pending |- *.
  destruct (small_difference si' si Hsi' Hsi) as [Ri _], (small_difference sl' sl Hsl' Hsl) as [Rl _],
    (small_difference sc' sc Hsc' Hsc) as [Rc _], (small_difference ni' ni Hni' Hni) as [Rn _].
  unfold next_source. erewrite next_bind_ok; cycle 1.
  { unfold at_segment_end. erewrite (at_segment_end_ok _ pre _ false); [done|at_here|eauto]. }
  cbn beta iota.
  set (p1 := pre ++ vlq (si' - si)). set (p2 := p1 ++ vlq (sl' - sl)).
  set (p3 := p2 ++ vlq (sc' - sc)).
  read_field pre si si'. read_more p1. read_field p1 sl sl'. read_more p2. read_field p2 sc sc'.
  destruct has_name.
  - erewrite next_bind_ok; cycle 1.
    { eapply (next_name_spec _ _ rest); [exact Hni|exact Hni'| |done]. unfold p3, p2, p1. by rewrite <-?app_assoc. }
    unfold mret, next_ret, p3, p2, p1. by rewrite <-?app_assoc.
  - erewrite next_bind_ok; cycle 1.
    { unfold next_name. erewrite next_bind_ok; cycle 1.
      - unfold at_segment_end. erewrite (at_segment_end_ok _ p3 rest true); [done|at_here|done].
      - reflexivity. }
    unfold mret, next_ret, p3, p2, p1. by rewrite <-?app_assoc, app_nil_r.
Qed.

Lemma next_segment_spec text pre last pending has_source has_name rest :
  small_running last → small_running pending →
  text = pre ++ segment_text has_source has_name last pending ++ rest → segment_ends rest →
  next_segment (decoder_at text (length pre) last)
  = (Some (running_mapping has_source has_name (moved has_source has_name last pending)),
     decoder_at text (length (pre ++ segment_text has_source has_name last pending))
       (moved has_source has_name last pending)).
Proof.
  intros (L1 & L2 & L3 & L4 & L5 & L6) (P1 & P2 & P3 & P4 & P5 & P6) -> Hends.
  destruct last as [l c si sl sc ni], pending as [l' c' si' sl' sc' ni'].
  unfold segment_text, decoder_at, next_segment in *. cbn [run_line run_character run_source_index
    run_source_line run_source_character run_name_index] in *.
  set (p1 := pre ++ vlq (c' - c)). read_field pre c c'.
  destruct has_source.
  - erewrite next_bind_ok; cycle 1.
    { eapply (next_source_spec _ p1 rest has_name l c' si sl sc ni si' sl' sc' ni'); [done..| |done].
      unfold p1. by rewrite <-!app_assoc. }
    unfold captured, p1. rewrite <-!app_assoc. by destruct has_name.
  - erewrite next_bind_ok; cycle 1.
    { unfold next_source. erewrite next_bind_ok; cycle 1.
      - unfold at_segment_end. erewrite (at_segment_end_ok _ p1 rest true); [done|at_here|done].
      - reflexivity. }
    unfold captured, p1. by rewrite app_nil_r.
Qed.

(** ** Reading the separators *)

Definition new_line (n : nat) (s : Running) : Running :=
  if (n =? 0)%nat then s
  else MkRunning (run_line s + Z.of_nat n) 0 (run_source_index s) (run_source_line s)
         (run_source_character s) (run_name_index s).

Lemma next_loop_lines n text pos s rest :
  0 <= run_line s → small (run_line s + Z.of_nat n) →
  next_loop (replicate n (ch ";") ++ rest) (decoder_at text pos s)
  = next_loop rest (decoder_at text (pos + n) (new_line n s)).
Proof.
  revert pos s; induction n as [|n IH]; intros pos s Hs Hl.
  { by rewrite Nat.add_0_r. }
  unfold small in *. etrans; [|etrans].
  2:{ apply (IH (S pos) (MkRunning (run_line s + 1) 0 (run_source_index s) (run_source_line s)
        (run_source_character s) (run_name_index s))); cbn [run_line]; lia. }
  - cbn [replicate app next_loop decoder_at d_done]. change (ch ";" =? ch ";") with true.
    cbv iota. f_equal. unfold decoder_at, set_field. cbn. by rewrite wrap_i64_id by lia.
  - f_equal. unfold decoder_at, new_line. rewrite Nat.add_succ_r. destruct (Nat.eqb_spec n 0) as [->|];
      cbn; f_equal; lia.
Qed.

Lemma next_loop_segment c rest d :
  ¬ is_separator c → d_done d = false → next_loop (c :: rest) d = next_segment d.
Proof.
  unfold is_separator. intros Hc Hd. cbn [next_loop]. rewrite Hd.
  destruct (Z.eqb_spec c (ch ";")); [tauto|]. destruct (Z.eqb_spec c (ch ",")); [tauto|done].
Qed.

Lemma segment_text_head has_source has_name last pending rest :
  small_running last → small_running pending →
  ∃ c t, segment_text has_source has_name last pending ++ rest = c :: t ∧ ¬ is_separator c.
Proof.
  intros (_ & L2 & _) (_ & P2 & _). unfold segment_text.
  destruct (small_difference _ _ P2 L2) as [Hr _]. destruct (vlq_spec _ Hr) as (_ & Hne & Hall & _).
  destruct (vlq _) as [|c t]; [done|]. apply Forall_cons in Hall as [Hc _]. cbn. eauto.
Qed.

(** ** What a commit writes *)

Definition last_of (g : Generator) : Running :=
  MkRunning (g_last_generated_line g) (g_last_generated_character g) (g_last_source_index g)
    (g_last_source_line g) (g_last_source_character g) (g_last_name_index g).
Definition pending_of (g : Generator) : Running :=
  MkRunning (g_pending_generated_line g) (g_pending_generated_character g)
    (g_pending_source_index g) (g_pending_source_line g) (g_pending_source_character g)
    (g_pending_name_index g).

(** The pending mapping as the reader reports it. *)
Definition pending_mapping (g : Generator) : Mapping :=
  running_mapping (g_has_pending_source g) (g_has_pending_name g) (pending_of g).

(** A generator with another text and running state. *)
Definition written (g : Generator) (text : bytes) (s : Running) (has_last : bool) : Generator :=
  MkGenerator (g_current_directory g) (g_use_case_sensitive_file_names g) (g_file g)
    (g_source_root g) (g_sources_directory_path g) (g_raw_sources g) (g_sources g)
    (g_source_to_source_index_map g) (g_sources_content g) (g_names g)
    (g_name_to_name_index_map g) text (run_line s) (run_character s) (run_source_index s)
    (run_source_line s) (run_source_character s) (run_name_index s) has_last
    (g_pending_generated_line g) (g_pending_generated_character g) (g_pending_source_index g)
    (g_pending_source_line g) (g_pending_source_character g) (g_pending_name_index g)
    (g_has_pending g) (g_has_pending_source g) (g_has_pending_name g).

Lemma written_self g : written g (g_mappings g) (last_of g) (g_has_last g) = g.
Proof. by destruct g. Qed.

Definition lines_moved (g : Generator) : nat :=
  Z.to_nat (g_pending_generated_line g - g_last_generated_line g).

Definition delimiters (g : Generator) : bytes :=
  if (lines_moved g =? 0)%nat then (if g_has_last g then bs "," else [])
  else replicate (lines_moved g) (ch ";").

Definition delimited (g : Generator) : Running := new_line (lines_moved g) (last_of g).

Definition commit_text (g : Generator) : bytes :=
  delimiters g
  ++ segment_text (g_has_pending_source g) (g_has_pending_name g) (delimited g) (pending_of g).

Definition commit_state (g : Generator) : Running :=
  moved (g_has_pending_source g) (g_has_pending_name g) (delimited g) (pending_of g).

Lemma emit_lines_spec n g text s hl :
  small (g_pending_generated_line g) → 0 <= run_line s →
  run_line s + Z.of_nat n = g_pending_generated_line g →
  emit_lines n (written g text s hl) =
  written g (text ++ replicate n (ch ";"))
    (MkRunning (run_line s + Z.of_nat n) (run_character s) (run_source_index s) (run_source_line s)
       (run_source_character s) (run_name_index s)) hl.
Proof.
  revert text s; induction n as [|n IH]; intros text s Hsm Hl Hp.
  { cbn. rewrite app_nil_r, Z.add_0_r. by destruct s. }
  unfold small in *. cbn [emit_lines].
  assert ((append_mapping_char_code (ch ";") (written g text s hl))
    <| g_last_generated_line :=
         wrap_i64 (g_last_generated_line (append_mapping_char_code (ch ";") (written g text s hl)) + 1) |>
    = written g (text ++ [ch ";"]) (MkRunning (run_line s + 1) (run_character s) (run_source_index s)
        (run_source_line s) (run_source_character s) (run_name_index s)) hl) as ->.
  { unfold append_mapping_char_code, written, set_field. cbn. by rewrite wrap_i64_id by lia. }
  cbn [g_pending_generated_line g_last_generated_line written run_line].
  destruct (Z.leb_spec (g_pending_generated_line g) (run_line s + 1)).
  - assert (n = 0%nat) as -> by lia. cbn. done.
  - rewrite IH by (cbn [run_line]; lia). cbn [replicate run_line]. rewrite <-app_assoc. cbn [app].
    f_equal. cbn. f_equal. lia.
Qed.

Record GeneratorOk (g : Generator) : Prop := {
  ok_last : small_running (last_of g);
  ok_pending : small_running (pending_of g);
  ok_lines : g_last_generated_line g <= g_pending_generated_line g;
}.

Lemma append_base64_vlq_written v g text s hl :
  vlq_range v →
  append_base64_vlq v (written g text s hl) = Some (written g (text ++ vlq v) s hl).
Proof. intros Hv. unfold append_base64_vlq. destruct (vlq_spec v Hv) as (-> & _). done. Qed.

Lemma delimited_small g : GeneratorOk g → small_running (delimited g).
Proof.
  intros [(L1 & L2 & L3 & L4 & L5 & L6) (P1 & _) Hle].
  unfold delimited, new_line. destruct (Nat.eqb_spec (lines_moved g) 0); [done|].
  unfold lines_moved, small_running, small in *. cbn in *. lia.
Qed.

Lemma emit_delimiters_spec g :
  GeneratorOk g →
  emit_delimiters g = Some (written g (g_mappings g ++ delimiters g) (delimited g) (g_has_last g)).
Proof.
  intros [(L1 & _) (P1 & _) Hle]. unfold emit_delimiters, delimiters, delimited, new_line, lines_moved.
  cbn in L1, P1.
  destruct (Z.ltb_spec (g_last_generated_line g) (g_pending_generated_line g)) as [Hlt|Hge].
  - destruct (Nat.eqb_spec (Z.to_nat (g_pending_generated_line g - g_last_generated_line g)) 0); [lia|].
    replace (emit_lines _ g)
      with (emit_lines (Z.to_nat (g_pending_generated_line g - g_last_generated_line g))
              (written g (g_mappings g) (last_of g) (g_has_last g))) by by rewrite written_self.
    rewrite emit_lines_spec; [done|done|cbn; unfold small in *; lia|cbn; lia].
  - destruct (Z.eqb_spec (g_last_generated_line g) (g_pending_generated_line g)) as [Heq|]; [|lia].
    replace (Z.to_nat (g_pending_generated_line g - g_last_generated_line g)) with 0%nat by lia.
    cbn [negb Nat.eqb]. f_equal. destruct (g_has_last g) eqn:Hl.
    + unfold append_mapping_char_code. destruct g; cbn in *. by subst.
    + rewrite app_nil_r, <-Hl. by rewrite written_self.
Qed.

Lemma emit_name_spec g text s hl :
  small_running s → small_running (pending_of g) →
  emit_name (written g text s hl)
  = Some (written g (text ++ if g_has_pending_name g then name_text s (pending_of g) else [])
      (MkRunning (run_line s) (run_character s) (run_source_index s) (run_source_line s)
         (run_source_character s)
         (if g_has_pending_name g then g_pending_name_index g else run_name_index s)) hl).
Proof.
  intros (_ & _ & _ & _ & _ & L6) (_ & _ & _ & _ & _ & P6). unfold emit_name, name_text.
  cbn [g_has_pending_name written]. destruct (g_has_pending_name g); [|rewrite app_nil_r; by destruct s].
  cbn [g_pending_name_index g_last_name_index written]. cbn in P6.
  destruct (small_difference _ _ P6 L6) as [Hr ->]. rewrite append_base64_vlq_written by done. done.
Qed.

Lemma written_character g text s hl v :
  (written g text s hl) <| g_last_generated_character := v |>
  = written g text (MkRunning (run_line s) v (run_source_index s)
      (run_source_line s) (run_source_character s) (run_name_index s)) hl.
Proof. done. Qed.

Lemma emit_source_index_spec g text s hl :
  small_running s → small_running (pending_of g) →
  emit_source_index (written g text s hl)
  = Some (written g (text ++ vlq (g_pending_source_index g - run_source_index s))
      (MkRunning (run_line s) (run_character s) (g_pending_source_index g) (run_source_line s)
         (run_source_character s) (run_name_index s)) hl).
Proof.
  intros (_ & _ & L & _) (_ & _ & P & _). destruct (small_difference _ _ P L) as [R E]. cbn in R, E.
  unfold emit_source_index. cbn [g_pending_source_index g_last_source_index written].
  by rewrite E, append_base64_vlq_written.
Qed.

Lemma emit_source_line_spec g text s hl :
  small_running s → small_running (pending_of g) →
  emit_source_line (written g text s hl)
  = Some (written g (text ++ vlq (g_pending_source_line g - run_source_line s))
      (MkRunning (run_line s) (run_character s) (run_source_index s) (g_pending_source_line g)
         (run_source_character s) (run_name_index s)) hl).
Proof.
  intros (_ & _ & _ & L & _) (_ & _ & _ & P & _). destruct (small_difference _ _ P L) as [R E]. cbn in R, E.
  unfold emit_source_line. cbn [g_pending_source_line g_last_source_line written].
  by rewrite E, append_base64_vlq_written.
Qed.

Lemma emit_source_character_spec g text s hl :
  small_running s → small_running (pending_of g) →
  emit_source_character (written g text s hl)
  = Some (written g (text ++ vlq (g_pending_source_character g - run_source_character s))
      (MkRunning (run_line s) (run_character s) (run_source_index s) (run_source_line s)
         (g_pending_source_character g) (run_name_index s)) hl).
Proof.
  intros (_ & _ & _ & _ & L & _) (_ & _ & _ & _ & P & _).
  destruct (small_difference _ _ P L) as [R E]. cbn in R, E.
  unfold emit_source_character. cbn [g_pending_source_character g_last_source_character written].
  by rewrite E, append_base64_vlq_written.
Qed.

Lemma emit_source_spec g text s hl :
  small_running s → small_running (pending_of g) →
  emit_source (written g text s hl)
  = Some (written g
      (text ++ if g_has_pending_source g then source_text (g_has_pending_name g) s (pending_of g) else [])
      (MkRunning (run_line s) (run_character s)
         (if g_has_pending_source g then g_pending_source_index g else run_source_index s)
         (if g_has_pending_source g then g_pending_source_line g else run_source_line s)
         (if g_has_pending_source g then g_pending_source_character g else run_source_character s)
         (if g_has_pending_source g && g_has_pending_name g
          then g_pending_name_index g else run_name_index s)) hl).
Proof.
  intros Hs Hp. pose proof Hs as (L1 & L2 & L3 & L4 & L5 & L6). pose proof Hp as (P1 & P2 & P3 & P4 & P5 & P6).
  unfold emit_source. cbn [g_has_pending_source written].
  destruct (g_has_pending_source g); [|rewrite app_nil_r; by destruct s].
  rewrite emit_source_index_spec by done. cbn [mbind option_bind].
  rewrite emit_source_line_spec by (repeat (split; [done|]); done). cbn [mbind option_bind].
  rewrite emit_source_character_spec by (repeat (split; [done|]); done). cbn [mbind option_bind].
  rewrite emit_name_spec by (repeat (split; [done|]); done).
  unfold source_text, name_text. cbn. by rewrite <-!app_assoc.
Qed.

(** A commit writes one segment, and never panics. *)
Lemma commit_pending_mapping_spec g :
  GeneratorOk g →
  commit_pending_mapping g
  = Some (if should_commit_mapping g
          then written g (g_mappings g ++ commit_text g) (commit_state g) true else g).
Proof.
  intros Hok. pose proof (delimited_small g Hok) as Hd. pose proof Hok as [Hl Hp Hle].
  unfold commit_pending_mapping. destruct (should_commit_mapping g); cbn [negb]; [|done].
  rewrite emit_delimiters_spec by done. cbn [mbind option_bind].
  cbn [g_pending_generated_character g_last_generated_character written].
  pose proof Hd as (L1 & L2 & L3 & L4 & L5 & L6). pose proof Hp as (P1 & P2 & P3 & P4 & P5 & P6).
  destruct (small_difference _ _ P2 L2) as [R2 E2]. cbn [pending_of run_character] in *. rewrite E2.
  rewrite append_base64_vlq_written by done. cbn [mbind option_bind]. rewrite written_character.
  rewrite emit_source_spec; [|repeat (split; [done|]); done|done]. cbn [mbind option_bind].
  unfold commit_text, segment_text, commit_state, moved. cbn. by rewrite <-!app_assoc.
Qed.

(** ** Reading back what was committed *)

Lemma delimited_line g : GeneratorOk g → run_line (delimited g) = g_pending_generated_line g.
Proof.
  intros [_ _ Hle]. unfold delimited, new_line, lines_moved.
  destruct (Nat.eqb_spec (Z.to_nat (g_pending_generated_line g - g_last_generated_line g)) 0); cbn; lia.
Qed.

Lemma commit_state_mapping g :
  GeneratorOk g →
  running_mapping (g_has_pending_source g) (g_has_pending_name g) (commit_state g) = pending_mapping g.
Proof.
  intros Hok. unfold pending_mapping, running_mapping, capture_mapping, commit_state, moved.
  cbn. rewrite delimited_line by done. by destruct (g_has_pending_source g), (g_has_pending_name g).
Qed.

Lemma next_commit g tail :
  GeneratorOk g → segment_ends tail →
  let text := g_mappings g ++ commit_text g ++ tail in
  next (decoder_at text (length (g_mappings g)) (last_of g))
  = (Some (pending_mapping g), decoder_at text (length (g_mappings g ++ commit_text g)) (commit_state g)).
Proof.
  intros Hok Htail. cbv zeta. pose proof (delimited_small g Hok) as Hd. pose proof Hok as [Hl Hp Hle].
  unfold next. cbn [d_pos d_mappings decoder_at]. rewrite drop_app_length.
  rewrite <-commit_state_mapping by done. unfold commit_text, commit_state. rewrite <-!app_assoc.
  set (text := g_mappings g ++ delimiters g ++ _ ++ tail).
  assert (text = (g_mappings g ++ delimiters g) ++ segment_text (g_has_pending_source g)
    (g_has_pending_name g) (delimited g) (pending_of g) ++ tail) as Htext
    by (unfold text; by rewrite <-!app_assoc).
  pose proof (next_segment_spec text _ _ _ _ _ tail Hd Hp Htext Htail) as Hseg.
  rewrite <-app_assoc in Hseg. rewrite app_assoc, <-Hseg. rewrite <-app_assoc. clear Hseg Htext.
  clearbody text. destruct (segment_text_head (g_has_pending_source g) (g_has_pending_name g)
    (delimited g) (pending_of g) tail Hd Hp) as (c & t & -> & Hc).
  unfold delimiters. destruct (Nat.eqb_spec (lines_moved g) 0) as [E|E].
  - unfold delimited. rewrite E. destruct (g_has_last g).
    + cbn [app bs]. transitivity (next_loop (c :: t) (decoder_at text (S (length (g_mappings g))) (last_of g))).
      { done. }
      rewrite next_loop_segment by done. f_equal. rewrite length_app, Nat.add_1_r. done.
    + rewrite app_nil_r. cbn [app]. by rewrite next_loop_segment.
  - rewrite next_loop_lines.
    + rewrite next_loop_segment by done. by rewrite length_app, length_replicate.
    + destruct Hl as [Hl _]. unfold small in Hl. lia.
    + destruct Hp as [Hp _]. cbn in Hp |- *. unfold lines_moved. rewrite Z2Nat.id by lia.
      by replace (g_last_generated_line g + _) with (g_pending_generated_line g) by lia.
Qed.

Lemma commit_text_not_nil g : GeneratorOk g → commit_text g ≠ [].
Proof.
  intros Hok. pose proof Hok as [_ Hp _]. unfold commit_text.
  destruct (segment_text_head (g_has_pending_source g) (g_has_pending_name g) (delimited g)
    (pending_of g) [] (delimited_small g Hok) Hp) as (c & t & E & _).
  rewrite app_nil_r in E. rewrite E. by destruct (delimiters g).
Qed.

(** Reading a text decodes a log and ends in a running state, whatever follows
    at a segment boundary. *)
Definition Reads (text : bytes) (log : list Mapping) (s : Running) : Prop :=
  ∀ tail n, text = [] ∨ segment_ends tail →
    values_fuel (length log + n) (decode_mappings (text ++ tail))
    = (log ++ (values_fuel n (decoder_at (text ++ tail) (length text) s)).1,
       (values_fuel n (decoder_at (text ++ tail) (length text) s)).2).

(** What holds of a generator and of the mappings it has committed. *)
Record Committed (g : Generator) (log : list Mapping) : Prop := {
  committed_ok : GeneratorOk g;
  committed_reads : Reads (g_mappings g) log (last_of g);
  committed_length : (length log <= length (g_mappings g))%nat;
  committed_first : g_has_last g = false → g_mappings g = [];
}.

Lemma reads_commit g log :
  Committed g log →
  Reads (g_mappings g ++ commit_text g) (log ++ [pending_mapping g]) (commit_state g).
Proof.
  intros [Hok Hr _ Hfirst] tail n Htail.
  assert (segment_ends tail) as Hends.
  { destruct Htail as [E|]; [|done]. apply app_nil in E as [_ E]. by destruct (commit_text_not_nil g Hok). }
  rewrite <-app_assoc, length_app, <-Nat.add_assoc. rewrite Hr.
  - cbn [length Nat.add values_fuel]. rewrite next_commit by done.
    destruct (values_fuel n _) as [ms d]. cbn [fst snd]. by rewrite <-app_assoc.
  - unfold commit_text. destruct (g_has_last g) eqn:Hl; [right|left; by apply Hfirst].
    unfold delimiters. rewrite Hl. destruct (Nat.eqb_spec (lines_moved g) 0); [by left|].
    destruct (lines_moved g); [done|]. by right.
Qed.

Lemma committed_values g log :
  Committed g log →
  (values (decode_mappings (g_mappings g))).1 = log
  ∧ d_error (values (decode_mappings (g_mappings g))).2 = None
  ∧ d_done (values (decode_mappings (g_mappings g))).2 = true.
Proof.
  intros [_ Hr Hlen _]. unfold values. cbn [d_mappings d_pos decode_mappings]. rewrite Nat.sub_0_r.
  replace (S (length (g_mappings g)))
    with (length log + S (length (g_mappings g) - length log))%nat by lia.
  specialize (Hr [] (S (length (g_mappings g) - length log)) ltac:(by right)).
  rewrite app_nil_r in Hr. rewrite Hr. cbn [values_fuel].
  assert (next (decoder_at (g_mappings g) (length (g_mappings g)) (last_of g))
    = stop_iterating (decoder_at (g_mappings g) (length (g_mappings g)) (last_of g))) as ->.
  { unfold next. cbn [d_pos d_mappings decoder_at]. by rewrite drop_all. }
  cbn. by rewrite app_nil_r.
Qed.

(** ** Every call keeps the correspondence *)

(** The calls of a generator. *)
Inductive Call_ :=
  | CallAddSource (file_name : bytes)
  | CallSetSourceContent (source_index : Z) (content : bytes)
  | CallAddName (name : bytes)
  | CallAddGenerated (generated_line generated_character : Z)
  | CallAddSourceMapping (generated_line generated_character source_index source_line
      source_character : Z)
  | CallAddNamed (generated_line generated_character source_index source_line source_character
      name_index : Z)
  | CallRawSourceMap.

(** The state after a call, its result dropped; [None] is a panic. *)
Definition call `{CaseTables} (c : Call_) (g : Generator) : option Generator :=
  match c with
  | CallAddSource file_name => Some (add_source g file_name).2
  | CallSetSourceContent i content => Some (set_source_content g i content).2
  | CallAddName name => Some (add_name g name).2
  | CallAddGenerated gl gc => snd <$> add_generated_mapping g gl gc
  | CallAddSourceMapping gl gc si sl sc => snd <$> add_source_mapping g gl gc si sl sc
  | CallAddNamed gl gc si sl sc ni => snd <$> add_named_source_mapping g gl gc si sl sc ni
  | CallRawSourceMap => snd <$> raw_source_map g
  end.

(** Arguments below [2 ^ 62], the range of the VLQ round trip; whatever else the
    checks of the calls accept or reject is allowed. *)
Definition call_small (c : Call_) : Prop :=
  match c with
  | CallAddGenerated gl gc => gl < 2 ^ 62 ∧ gc < 2 ^ 62
  | CallAddSourceMapping gl gc si sl sc =>
      gl < 2 ^ 62 ∧ gc < 2 ^ 62 ∧ si < 2 ^ 62 ∧ sl < 2 ^ 62 ∧ sc < 2 ^ 62
  | CallAddNamed gl gc si sl sc ni =>
      gl < 2 ^ 62 ∧ gc < 2 ^ 62 ∧ si < 2 ^ 62 ∧ sl < 2 ^ 62 ∧ sc < 2 ^ 62 ∧ ni < 2 ^ 62
  | _ => True
  end.

(** What a call committed: the mapping that was pending, if it wrote anything. *)
Definition logged (g g' : Generator) : list Mapping :=
  if bytes_eqb (g_mappings g') (g_mappings g) then [] else [pending_mapping g].

(** The calls from a state, and the mappings committed on the way. *)
Fixpoint calls `{CaseTables} (cs : list Call_) (g : Generator) (log : list Mapping)
  : option (Generator * list Mapping) :=
  match cs with
  | [] => Some (g, log)
  | c :: cs => g' ← call c g; calls cs g' (log ++ logged g g')
  end.

(** Two generators with the same writer. *)
Definition same_writer (g g' : Generator) : Prop :=
  g_mappings g' = g_mappings g ∧ last_of g' = last_of g ∧ g_has_last g' = g_has_last g.

Lemma committed_same_writer g g' log :
  Committed g log → same_writer g g' → small_running (pending_of g') →
  g_pending_generated_line g <= g_pending_generated_line g' →
  Committed g' log.
Proof.
  intros [[Hl Hp Hle] Hr Hlen Hfirst] (Em & El & Eh) Hp' Hle'.
  assert (g_last_generated_line g' = g_last_generated_line g) as Ell
    by (change (run_line (last_of g') = run_line (last_of g)); by rewrite El).
  constructor.
  - constructor; [by rewrite El|done|lia].
  - by rewrite Em, El.
  - by rewrite Em.
  - by rewrite Em, Eh.
Qed.

Lemma logged_same g g1 g2 : g_mappings g2 = g_mappings g1 → logged g g2 = logged g g1.
Proof. unfold logged. by intros ->. Qed.

Lemma logged_none g g' : g_mappings g' = g_mappings g → logged g g' = [].
Proof. unfold logged, bytes_eqb. intros ->. by rewrite bool_decide_true. Qed.

(** The state a commit leaves, with whatever pending mapping is stored next. *)
Lemma committed_commit g log :
  Committed g log →
  ∃ g', commit_pending_mapping g = Some g'
    ∧ Committed g' (log ++ logged g g')
    ∧ pending_of g' = pending_of g
    ∧ (should_commit_mapping g = true → logged g g' = [pending_mapping g])
    ∧ (should_commit_mapping g = false → g' = g)
    ∧ (g_has_pending g' = g_has_pending g).
Proof.
  intros HC. pose proof HC as [Hok Hr Hlen Hfirst]. rewrite commit_pending_mapping_spec by done.
  destruct (should_commit_mapping g) eqn:Hs; eexists; (split; [reflexivity|]).
  - assert (logged g (written g (g_mappings g ++ commit_text g) (commit_state g) true)
      = [pending_mapping g]) as Hlog.
    { unfold logged. cbn [g_mappings written].
      destruct (bytes_eqb _ _) eqn:E; [|done]. apply bytes_eqb_true in E.
      rewrite <-(app_nil_r (g_mappings g)) in E at 2. apply app_inv_head in E.
      by destruct (commit_text_not_nil g Hok). }
    rewrite Hlog. split_and!; [|done..].
    assert (last_of (written g (g_mappings g ++ commit_text g) (commit_state g) true)
      = commit_state g) as Elast by done.
    pose proof (delimited_small g Hok) as (D1 & D2 & D3 & D4 & D5 & D6).
    pose proof Hok as [_ (P1 & P2 & P3 & P4 & P5 & P6) _].
    constructor.
    + constructor.
      * rewrite Elast. unfold commit_state, moved, small_running. cbn [run_line run_character
          run_source_index run_source_line run_source_character run_name_index].
        split_and!; try done; by destruct (g_has_pending_source g), (g_has_pending_name g).
      * done.
      * change (run_line (commit_state g) <= g_pending_generated_line g).
        unfold commit_state, moved. cbn [run_line]. rewrite delimited_line by done. lia.
    + rewrite Elast. by apply reads_commit.
    + rewrite length_app. cbn [g_mappings written length]. rewrite length_app.
      pose proof (commit_text_not_nil g Hok). destruct (commit_text g); [done|simpl; lia].
    + done.
  - assert (logged g g = []) as -> by (unfold logged; unfold bytes_eqb; by rewrite bool_decide_true).
    rewrite app_nil_r. split_and!; done.
Qed.

Definition source_args (si sl sc ni : Z) : Prop :=
  (si = -1 ∧ sl = -1 ∧ sc = -1) ∨ (small si ∧ small sl ∧ small sc ∧ (ni = -1 ∨ small ni)).

(** The two halves of [add_mapping]. *)
Definition start_mapping (g : Generator) (gl gc : Z) : Generator :=
  g <| g_pending_generated_line := gl |> <| g_pending_generated_character := gc |>
    <| g_has_pending_source := false |> <| g_has_pending_name := false |> <| g_has_pending := true |>.

Definition store_source (g : Generator) (si sl sc ni : Z) : Generator :=
  if negb (si =? SOURCE_INDEX_NOT_SET) && negb (sl =? NOT_SET) && negb (sc =? NOT_SET_UTF16)
  then
    let g := g <| g_pending_source_index := si |> <| g_pending_source_line := sl |>
               <| g_pending_source_character := sc |> <| g_has_pending_source := true |> in
    if negb (ni =? NAME_INDEX_NOT_SET)
    then g <| g_pending_name_index := ni |> <| g_has_pending_name := true |> else g
  else g.

Lemma add_mapping_eq g gl gc si sl sc ni :
  add_mapping g gl gc si sl sc ni
  = (if is_new_generated_position g gl gc || is_backtracking_source_position g si sl sc
     then (λ g, store_source (start_mapping g gl gc) si sl sc ni) <$> commit_pending_mapping g
     else Some (store_source g si sl sc ni)).
Proof. unfold add_mapping. destruct (_ || _); [|done]. by destruct (commit_pending_mapping g). Qed.

Lemma store_source_writer g si sl sc ni :
  same_writer g (store_source g si sl sc ni)
  ∧ g_pending_generated_line (store_source g si sl sc ni) = g_pending_generated_line g
  ∧ (small_running (pending_of g) → source_args si sl sc ni →
     small_running (pending_of (store_source g si sl sc ni))).
Proof.
  unfold store_source. destruct (_ && _ && _) eqn:E; [|by split_and!].
  rewrite !andb_true_iff, !negb_true_iff, !Z.eqb_neq in E. unfold SOURCE_INDEX_NOT_SET in E.
  cbv zeta. destruct (Z.eqb_spec ni NAME_INDEX_NOT_SET) as [->|Hni]; cbn [negb];
    (split_and!; [done|done|]); intros (P1 & P2 & P3 & P4 & P5 & P6) [(-> & _)|(S1 & S2 & S3 & S4)];
    try tauto; repeat (split; [done|]); [done|by destruct S4].
Qed.

Lemma start_mapping_writer g gl gc :
  same_writer g (start_mapping g gl gc)
  ∧ (small_running (pending_of g) → small gl → small gc →
     small_running (pending_of (start_mapping g gl gc))).
Proof.
  split; [done|]. intros (P1 & P2 & P3 & P4 & P5 & P6) Hl Hc. by repeat (split; [done|]).
Qed.

Lemma add_mapping_committed g log gl gc si sl sc ni :
  Committed g log → small gl → small gc → g_pending_generated_line g <= gl →
  source_args si sl sc ni →
  ∃ g', add_mapping g gl gc si sl sc ni = Some g' ∧ Committed g' (log ++ logged g g').
Proof.
  intros HC Hgl Hgc Hle Hargs. rewrite add_mapping_eq.
  destruct (store_source_writer g si sl sc ni) as (Sw & Sl & Sp).
  destruct (_ || _).
  - destruct (committed_commit g log HC) as (g1 & -> & HC1 & Hp & _).
    destruct (start_mapping_writer g1 gl gc) as [Sw1 Sp1].
    destruct (store_source_writer (start_mapping g1 gl gc) si sl sc ni) as (Sw2 & Sl2 & Sp2).
    eexists. split; [reflexivity|]. pose proof HC1 as [[_ Hp1 _] _ _ _].
    rewrite (logged_same g g1) by (by destruct Sw2 as [-> _]).
    apply (committed_same_writer (start_mapping g1 gl gc)); [|done|by auto|by rewrite Sl2].
    apply (committed_same_writer g1); [done|done|by auto|].
    change (g_pending_generated_line (start_mapping g1 gl gc)) with gl.
    change (g_pending_generated_line g1) with (run_line (pending_of g1)). by rewrite Hp.
  - eexists. split; [reflexivity|]. pose proof HC as [[_ Hp1 _] _ _ _].
    rewrite logged_none by (by destruct Sw as [-> _]). rewrite app_nil_r.
    apply (committed_same_writer g); [done|done|by auto|by rewrite Sl].
Qed.

Lemma committed_quiet g g' log :
  Committed g log → same_writer g g' → pending_of g' = pending_of g → Committed g' (log ++ logged g g').
Proof.
  intros HC Hw Hp. pose proof HC as [[_ Hs _] _ _ _]. rewrite logged_none, app_nil_r by apply Hw.
  apply (committed_same_writer g); [done|done|by rewrite Hp|].
  change (run_line (pending_of g) <= run_line (pending_of g')). by rewrite Hp.
Qed.

Section Calls.
Context `{CaseTables}.

(** No call panics, and each one keeps the text and the log together. *)
Lemma call_committed c g log :
  Committed g log → call_small c → ∃ g', call c g = Some g' ∧ Committed g' (log ++ logged g g').
Proof.
  intros HC Hc. pose proof HC as [[_ (Hpl & _) _] _ _ _]. cbn in Hpl.
  assert (Committed g (log ++ logged g g)) as Hsame by by apply committed_quiet.
  destruct c as [f|i content|n|gl gc|gl gc si sl sc|gl gc si sl sc ni|]; cbn [call call_small] in *.
  - eexists. split; [reflexivity|]. unfold add_source.
    destruct (_ !! _); [done|]. by apply committed_quiet.
  - eexists. split; [reflexivity|]. unfold set_source_content.
    destruct (_ || _); [done|]. by apply committed_quiet.
  - eexists. split; [reflexivity|]. unfold add_name.
    destruct (_ !! _); [done|]. by apply committed_quiet.
  - unfold add_generated_mapping. destruct (Z.ltb_spec gl (g_pending_generated_line g)); [by exists g|].
    destruct (Z.ltb_spec gc 0); [by exists g|].
    destruct (add_mapping_committed g log gl gc (-1) (-1) (-1) (-1) HC) as (g1 & E & HC1);
      [unfold small in *; lia..|by left|].
    unfold SOURCE_INDEX_NOT_SET, NOT_SET, NOT_SET_UTF16, NAME_INDEX_NOT_SET. rewrite E.
    eexists. split; [reflexivity|]. rewrite (logged_same g g1) by done.
    pose proof HC1 as [[_ Hs1 _] _ _ _]. by apply (committed_same_writer g1).
  - unfold add_source_mapping. destruct (Z.ltb_spec gl (g_pending_generated_line g)); [by exists g|].
    destruct (Z.ltb_spec gc 0); [by exists g|]. destruct (_ || _) eqn:E1; [by exists g|].
    destruct (Z.ltb_spec sl 0); [by exists g|]. destruct (Z.ltb_spec sc 0); [by exists g|].
    destruct (_ && _ && _); [by exists g|].
    apply orb_false_iff in E1 as [E1%Z.ltb_ge _].
    destruct (add_mapping_committed g log gl gc si sl sc (-1) HC) as (g1 & E & HC1);
      [unfold small in *; lia..|right; unfold small; lia|].
    unfold NAME_INDEX_NOT_SET. rewrite E. by exists g1.
  - unfold add_named_source_mapping. destruct (Z.ltb_spec gl (g_pending_generated_line g)); [by exists g|].
    destruct (Z.ltb_spec gc 0); [by exists g|]. destruct (_ || _) eqn:E1; [by exists g|].
    destruct (Z.ltb_spec sl 0); [by exists g|]. destruct (Z.ltb_spec sc 0); [by exists g|].
    destruct ((ni <? 0) || _) eqn:E2; [by exists g|]. destruct (_ && _ && _); [by exists g|].
    apply orb_false_iff in E1 as [E1%Z.ltb_ge _], E2 as [E2%Z.ltb_ge _].
    destruct (add_mapping_committed g log gl gc si sl sc ni HC) as (g1 & E & HC1);
      [unfold small in *; lia..|right; unfold small; lia|].
    rewrite E. by exists g1.
  - unfold raw_source_map. destruct (committed_commit g log HC) as (g1 & -> & HC1 & _). by exists g1.
Qed.

Lemma calls_committed cs g log :
  Committed g log → Forall call_small cs →
  ∃ g' log', calls cs g log = Some (g', log') ∧ Committed g' log'.
Proof.
  intros HC Hcs. revert g log HC. induction Hcs as [|c cs Hc Hcs IH]; intros g log HC; [by exists g, log|].
  destruct (call_committed c g log HC Hc) as (g1 & E & HC1). cbn [calls]. rewrite E. by apply IH.
Qed.

Lemma new_generator_committed file source_root dir cwd case_sensitive :
  Committed (new_generator file source_root dir cwd case_sensitive) [].
Proof.
  constructor.
  - by repeat split.
  - intros tail n _. cbn [g_mappings new_generator app length Nat.add].
    change (decoder_at tail 0 _) with (decode_mappings tail).
    by destruct (values_fuel n (decode_mappings tail)).
  - done.
  - done.
Qed.

(** [C27] The generator refines the list of the mappings it commits: whatever
    calls are made, in whatever order and with arguments the checks accept or
    reject, no call panics, and reading the text written so far gives back
    exactly the mappings that were pending at each commit, in order, without a
    decoding error. *)
Theorem generator_refines_log cs file source_root dir cwd case_sensitive :
  Forall call_small cs →
  ∃ g log, calls cs (new_generator file source_root dir cwd case_sensitive) [] = Some (g, log)
    ∧ (values (decode_mappings (g_mappings g))).1 = log
    ∧ d_error (values (decode_mappings (g_mappings g))).2 = None.
Proof.
  intros Hcs. destruct (calls_committed cs _ [] (new_generator_committed file source_root dir cwd
    case_sensitive) Hcs) as (g & log & E & HC).
  exists g, log. destruct (committed_values g log HC) as (? & ? & _). done.
Qed.

End Calls.

Definition example_calls : list Call_ :=
  [CallAddSource (bs "/src/a.ts"); CallAddName (bs "x"); CallAddSourceMapping 0 0 0 0 0;
   CallAddNamed 0 4 0 0 9 0; CallAddGenerated 2 1; CallAddSourceMapping 2 7 0 3 2;
   CallAddSourceMapping 2 7 5 3 2; CallAddSourceMapping 1 0 0 0 0; CallRawSourceMap].

Lemma generator_refines_log_witness :
  Forall call_small example_calls
  ∧ ∃ g log, calls (H := ascii_tables) example_calls
               (new_generator (bs "a.js") [] (bs "/out") (bs "/") true) [] = Some (g, log)
      ∧ (values (decode_mappings (g_mappings g))).1 = log
      ∧ d_error (values (decode_mappings (g_mappings g))).2 = None.
Proof.
  assert (Forall call_small example_calls) as Hc by (repeat constructor; cbn; lia).
  split; [exact Hc|].
  exact (generator_refines_log (H := ascii_tables) example_calls (bs "a.js") [] (bs "/out") (bs "/") true Hc).
Defined.

(** ** Mappings at increasing positions *)

Definition position_lt (a b : Mapping) : Prop :=
  m_generated_line a < m_generated_line b
  ∨ m_generated_line a = m_generated_line b ∧ m_generated_character a < m_generated_character b.

(** A mapping the generator's checks accept. *)
Definition valid_mapping (sources names : nat) (m : Mapping) : Prop :=
  small (m_generated_line m) ∧ small (m_generated_character m)
  ∧ (m_source_index m = -1 ∧ m_source_line m = -1 ∧ m_source_character m = -1 ∧ m_name_index m = -1
     ∨ small (m_source_index m) ∧ m_source_index m < Z.of_nat sources
       ∧ small (m_source_line m) ∧ small (m_source_character m)
       ∧ (m_name_index m = -1
          ∨ small (m_name_index m) ∧ m_name_index m < Z.of_nat names)).

Definition call_of (m : Mapping) : Call_ :=
  if m_source_index m =? -1
  then CallAddGenerated (m_generated_line m) (m_generated_character m)
  else if m_name_index m =? -1
  then CallAddSourceMapping (m_generated_line m) (m_generated_character m) (m_source_index m)
         (m_source_line m) (m_source_character m)
  else CallAddNamed (m_generated_line m) (m_generated_character m) (m_source_index m)
         (m_source_line m) (m_source_character m) (m_name_index m).

(** The whole mapping, as [add_mapping] takes it. *)
Definition add_whole (g : Generator) (m : Mapping) : option Generator :=
  add_mapping g (m_generated_line m) (m_generated_character m) (m_source_index m)
    (m_source_line m) (m_source_character m) (m_name_index m).

(** Before the first mapping, or with one pending that is still to be written. *)
Definition unwritten (g : Generator) : list Mapping :=
  if g_has_pending g then [pending_mapping g] else [].

Definition before (g : Generator) (m : Mapping) : Prop :=
  g_pending_generated_line g < m_generated_line m
  ∨ g_pending_generated_line g = m_generated_line m
    ∧ (g_has_pending g = true → g_pending_generated_character g < m_generated_character m).

Definition Ready (g : Generator) : Prop :=
  (g_has_pending g = false → g_has_last g = false)
  ∧ (g_has_pending g = true → should_commit_mapping g = true).

Lemma before_new g m :
  before g m → is_new_generated_position g (m_generated_line m) (m_generated_character m) = true.
Proof.
  unfold before, is_new_generated_position. intros Hb. destruct (g_has_pending g); [|done]. cbn [negb orb].
  apply orb_true_iff. rewrite !negb_true_iff, !Z.eqb_neq. lia.
Qed.

Lemma start_store_mapping g m sources names :
  valid_mapping sources names m →
  let g' := store_source (start_mapping g (m_generated_line m) (m_generated_character m))
              (m_source_index m) (m_source_line m) (m_source_character m) (m_name_index m) in
  pending_mapping g' = m ∧ g_has_pending g' = true
  ∧ g_pending_generated_line g' = m_generated_line m
  ∧ g_pending_generated_character g' = m_generated_character m
  ∧ g_sources g' = g_sources g ∧ g_names g' = g_names g.
Proof.
  destruct m as [gl gc si sl sc ni]. unfold valid_mapping. cbn [m_generated_line m_generated_character
    m_source_index m_source_line m_source_character m_name_index].
  intros (_ & _ & [(-> & -> & -> & ->)|(S1 & _ & S2 & S3 & S4)]); [done|].
  unfold store_source, SOURCE_INDEX_NOT_SET, NOT_SET, NOT_SET_UTF16, NAME_INDEX_NOT_SET. unfold small in *.
  destruct (Z.eqb_spec si (-1)), (Z.eqb_spec sl (-1)), (Z.eqb_spec sc (-1)); try lia. cbn [negb andb].
  destruct (Z.eqb_spec ni (-1)) as [->|]; cbn [negb]; done.
Qed.

Lemma committed_commit_ready g log :
  Committed g log → Ready g →
  ∃ g', commit_pending_mapping g = Some g' ∧ Committed g' (log ++ unwritten g)
    ∧ pending_of g' = pending_of g ∧ g_sources g' = g_sources g ∧ g_names g' = g_names g
    ∧ (g_has_last g' = true → g_has_pending g = true
       ∧ g_last_generated_line g' = g_pending_generated_line g
       ∧ g_last_generated_character g' = g_pending_generated_character g).
Proof.
  intros HC [R1 R2]. pose proof HC as [Hok _ _ _].
  destruct (committed_commit g log HC) as (g' & E & HC' & Hp & Hyes & Hno & _).
  exists g'. rewrite commit_pending_mapping_spec in E by done. injection E as E.
  unfold unwritten. destruct (g_has_pending g) eqn:Hpend.
  - rewrite (R2 eq_refl) in E. rewrite (Hyes (R2 eq_refl)) in HC'. subst g'.
    rewrite commit_pending_mapping_spec, (R2 eq_refl) by done. split_and!; try done.
    intros _. split_and!; [done| |done]. cbn. unfold commit_state, moved. cbn.
    by rewrite delimited_line.
  - assert (should_commit_mapping g = false) as Hs by (unfold should_commit_mapping; by rewrite Hpend).
    rewrite Hs in E. subst g'. rewrite commit_pending_mapping_spec, Hs by done.
    rewrite logged_none in HC' by done. split_and!; try done.
    by rewrite R1.
Qed.

Lemma add_whole_ready g log m sources names :
  Committed g log → Ready g → before g m → valid_mapping sources names m →
  ∃ g', add_whole g m = Some g' ∧ Committed g' (log ++ unwritten g) ∧ Ready g'
    ∧ unwritten g' = [m] ∧ g_has_pending g' = true
    ∧ g_pending_generated_line g' = m_generated_line m
    ∧ g_pending_generated_character g' = m_generated_character m
    ∧ g_sources g' = g_sources g ∧ g_names g' = g_names g.
Proof.
  intros HC HR Hb Hv. unfold add_whole. rewrite add_mapping_eq, before_new by done. cbn [orb].
  destruct (committed_commit_ready g log HC HR) as (g1 & -> & HC1 & Hp & Hsrc & Hnames & Hlast).
  eexists. split; [reflexivity|]. pose proof HC1 as [[_ Hs1 _] _ _ _].
  destruct (start_store_mapping g1 m sources names Hv) as (M1 & M2 & M3 & M4 & M5 & M6).
  destruct (start_mapping_writer g1 (m_generated_line m) (m_generated_character m)) as [Sw1 Sp1].
  destruct (store_source_writer (start_mapping g1 (m_generated_line m) (m_generated_character m))
    (m_source_index m) (m_source_line m) (m_source_character m) (m_name_index m)) as (Sw2 & Sl2 & Sp2).
  set (g' := store_source _ _ _ _ _) in *.
  assert (g_pending_generated_line g1 = g_pending_generated_line g
    ∧ g_pending_generated_character g1 = g_pending_generated_character g) as [P1 P2].
  { change (run_line (pending_of g1) = run_line (pending_of g)
      ∧ run_character (pending_of g1) = run_character (pending_of g)). by rewrite Hp. }
  pose proof Hv as (V1 & V2 & V3). split_and!; try congruence.
  - assert (source_args (m_source_index m) (m_source_line m) (m_source_character m) (m_name_index m))
      as Hargs by (unfold source_args; tauto).
    apply (committed_same_writer (start_mapping g1 (m_generated_line m) (m_generated_character m)));
      [|done|by auto|by rewrite Sl2].
    apply (committed_same_writer g1); [done|done|by auto|].
    change (g_pending_generated_line g1 <= m_generated_line m). rewrite P1. unfold before in Hb. lia.
  - split; [congruence|]. intros _. unfold should_commit_mapping. rewrite M2, M3, M4. cbn [andb].
    assert (g_has_last g' = g_has_last g1 ∧ last_of g' = last_of g1) as [-> El].
    { destruct Sw2 as (_ & -> & ->). done. }
    assert (g_last_generated_line g' = g_last_generated_line g1
      ∧ g_last_generated_character g' = g_last_generated_character g1) as [-> ->].
    { change (run_line (last_of g') = run_line (last_of g1)
        ∧ run_character (last_of g') = run_character (last_of g1)). by rewrite El. }
    destruct (g_has_last g1) eqn:Hl1; [|done]. destruct (Hlast eq_refl) as (Hpend & -> & ->).
    unfold before in Hb. destruct (Z.eqb_spec (g_pending_generated_line g) (m_generated_line m)); [|done].
    destruct (Z.eqb_spec (g_pending_generated_character g) (m_generated_character m)); [|done].
    destruct Hb as [|[_ Hb]]; [lia|specialize (Hb Hpend); lia].
  - unfold unwritten. by rewrite M2, M1.
Qed.

(** The check-free path through the public calls. *)
Lemma call_of_whole `{CaseTables} g m :
  valid_mapping (length (g_sources g)) (length (g_names g)) m → before g m →
  ∃ c, call (call_of m) g = c <$> add_whole g m
    ∧ (∀ g', same_writer g' (c g') ∧ pending_of (c g') = pending_of g')
    ∧ (∀ g', pending_mapping g' = m → pending_mapping (c g') = m)
    ∧ (∀ g', should_commit_mapping (c g') = should_commit_mapping g' ∧ g_has_last (c g') = g_has_last g'
         ∧ g_has_pending (c g') = g_has_pending g' ∧ g_sources (c g') = g_sources g'
         ∧ g_names (c g') = g_names g').
Proof.
  intros Hv Hb. pose proof (before_new g m Hb) as Hnew. pose proof Hv as (V1 & V2 & V3).
  assert (g_pending_generated_line g <= m_generated_line m) as Hle by (unfold before in Hb; lia).
  unfold call_of, add_whole. destruct m as [gl gc si sl sc ni]. cbn [m_generated_line
    m_generated_character m_source_index m_source_line m_source_character m_name_index] in *.
  unfold small in *. destruct (Z.eqb_spec si (-1)) as [->|Hsi].
  - destruct V3 as [(_ & -> & -> & ->)|V3]; [|lia].
    exists (λ g', g' <| g_has_pending_source := false |> <| g_has_pending_name := false |>).
    split_and!.
    + cbn [call]. unfold add_generated_mapping.
      destruct (Z.ltb_spec gl (g_pending_generated_line g)); [lia|]. destruct (Z.ltb_spec gc 0); [lia|].
      unfold SOURCE_INDEX_NOT_SET, NOT_SET, NOT_SET_UTF16, NAME_INDEX_NOT_SET.
      by destruct (add_mapping _ _ _ _ _ _ _).
    + done.
    + intros g' E. unfold pending_mapping, running_mapping, capture_mapping, MISSING_SOURCE,
        MISSING_LINE_OR_COLUMN, MISSING_UTF16_COLUMN, MISSING_NAME in *. cbn in *. by injection E as -> -> _.
    + done.
  - destruct V3 as [V3|(S1 & S2 & S3 & S4 & S5)]; [lia|]. exists (λ g', g').
    split_and!; [|done|done|done].
    destruct (Z.eqb_spec ni (-1)) as [->|Hni]; cbn [call];
      unfold add_source_mapping, add_named_source_mapping; rewrite Hnew; cbn [negb].
    + destruct (Z.ltb_spec gl (g_pending_generated_line g)); [lia|]. destruct (Z.ltb_spec gc 0); [lia|].
      destruct (Z.ltb_spec si 0); [lia|]. destruct (Z.leb_spec (Z.of_nat (length (g_sources g))) si); [lia|].
      destruct (Z.ltb_spec sl 0); [lia|]. destruct (Z.ltb_spec sc 0); [lia|].
      rewrite andb_false_r. cbn [orb andb]. unfold NAME_INDEX_NOT_SET.
      by destruct (add_mapping _ _ _ _ _ _ _).
    + destruct (Z.ltb_spec gl (g_pending_generated_line g)); [lia|]. destruct (Z.ltb_spec gc 0); [lia|].
      destruct (Z.ltb_spec si 0); [lia|]. destruct (Z.leb_spec (Z.of_nat (length (g_sources g))) si); [lia|].
      destruct (Z.ltb_spec sl 0); [lia|]. destruct (Z.ltb_spec sc 0); [lia|].
      destruct (Z.ltb_spec ni 0); [lia|]. destruct (Z.leb_spec (Z.of_nat (length (g_names g))) ni); [lia|].
      rewrite andb_false_r. cbn [orb andb]. by destruct (add_mapping _ _ _ _ _ _ _).
Qed.

Lemma call_of_ready `{CaseTables} g log m :
  Committed g log → Ready g → before g m →
  valid_mapping (length (g_sources g)) (length (g_names g)) m →
  ∃ g', call (call_of m) g = Some g' ∧ Committed g' (log ++ unwritten g) ∧ Ready g'
    ∧ unwritten g' = [m] ∧ g_has_pending g' = true
    ∧ g_pending_generated_line g' = m_generated_line m
    ∧ g_pending_generated_character g' = m_generated_character m
    ∧ g_sources g' = g_sources g ∧ g_names g' = g_names g.
Proof.
  intros HC HR Hb Hv.
  destruct (add_whole_ready g log m _ _ HC HR Hb Hv) as (g1 & E1 & HC1 & [R1 R2] & U1 & P1 & L1 & C1 & S1 & N1).
  destruct (call_of_whole g m Hv Hb) as (c & E & Hw & Hm & Hf). rewrite E1 in E.
  destruct (Hw g1) as [Hw1 Hp1], (Hf g1) as (F1 & F2 & F3 & F4 & F5).
  exists (c g1). pose proof HC1 as [[_ Hs1 _] _ _ _].
  assert (g_pending_generated_line (c g1) = g_pending_generated_line g1
    ∧ g_pending_generated_character (c g1) = g_pending_generated_character g1) as [Q1 Q2].
  { change (run_line (pending_of (c g1)) = run_line (pending_of g1)
      ∧ run_character (pending_of (c g1)) = run_character (pending_of g1)). by rewrite Hp1. }
  split_and!; try congruence; try done.
  - apply (committed_same_writer g1); [done|done|by rewrite Hp1|lia].
  - split; rewrite F3; [rewrite F2; done|rewrite F1; done].
  - unfold unwritten in *. rewrite F3, P1 in *. injection U1 as U1. by rewrite Hm.
Qed.

(** Sources and names are declared first. *)
Definition is_declaration (c : Call_) : Prop :=
  match c with CallAddSource _ | CallSetSourceContent _ _ | CallAddName _ => True | _ => False end.

Lemma calls_declarations `{CaseTables} cs g log :
  Forall is_declaration cs → Committed g log → Ready g → unwritten g = [] →
  g_pending_generated_line g = 0 →
  ∀ g' log', calls cs g log = Some (g', log') →
  log' = log ∧ Committed g' log ∧ Ready g' ∧ unwritten g' = [] ∧ g_pending_generated_line g' = 0.
Proof.
  intros Hcs. revert g log; induction Hcs as [|c cs Hc Hcs IH]; intros g log HC HR Hu Hp g' log' E.
  { by injection E as <- <-. }
  cbn [calls] in E.
  assert (∃ g1, call c g = Some g1 ∧ same_writer g g1 ∧ pending_of g1 = pending_of g
    ∧ g_has_pending g1 = g_has_pending g ∧ (should_commit_mapping g1 = should_commit_mapping g))
    as (g1 & E1 & Hw & Hpo & Hh & Hs).
  { destruct c as [f|i content|n| | | |]; try done; (eexists; split; [reflexivity|]).
    - unfold add_source. by destruct (_ !! _).
    - unfold set_source_content. by destruct (_ || _).
    - unfold add_name. by destruct (_ !! _). }
  rewrite E1 in E. cbn [mbind option_bind] in E.
  pose proof (committed_quiet g g1 log HC Hw Hpo) as HC1.
  rewrite logged_none, app_nil_r in HC1, E by apply Hw.
  apply (IH g1 log HC1); [| | |done].
  - destruct HR as [R1 R2]. split; rewrite Hh; [|by rewrite Hs]. destruct Hw as (_ & _ & ->). done.
  - unfold unwritten in *. rewrite Hh. by destruct (g_has_pending g).
  - change (run_line (pending_of g1) = 0). by rewrite Hpo.
Qed.

Lemma call_of_small sources names m : valid_mapping sources names m → call_small (call_of m).
Proof.
  intros (V1 & V2 & V3). unfold call_of, small in *. destruct (Z.eqb_spec (m_source_index m) (-1)); [cbn; lia|].
  destruct V3 as [|(S1 & _ & S2 & S3 & S4)]; [lia|].
  destruct (Z.eqb_spec (m_name_index m) (-1)); cbn; lia.
Qed.

Section RoundTrip.
Context `{CaseTables}.

Lemma calls_mappings ms g log :
  Committed g log → Ready g →
  Forall (valid_mapping (length (g_sources g)) (length (g_names g))) ms →
  StronglySorted position_lt ms → (∀ m, head ms = Some m → before g m) →
  ∃ g', calls (call_of <$> ms) g log = Some (g', log ++ removelast (unwritten g ++ ms))
    ∧ Committed g' (log ++ removelast (unwritten g ++ ms)) ∧ Ready g'
    ∧ unwritten g' = match last (unwritten g ++ ms) with Some m => [m] | None => [] end.
Proof.
  revert g log; induction ms as [|m ms IH]; intros g log HC HR Hv Hsorted Hhead.
  { exists g. cbn [fmap list_fmap calls]. rewrite app_nil_r. unfold unwritten.
    destruct (g_has_pending g); cbn; rewrite app_nil_r; done. }
  apply Forall_cons in Hv as [Hm Hv]. inversion_clear Hsorted as [|?? Hs Hlt].
  destruct (call_of_ready g log m HC HR (Hhead m eq_refl) Hm)
    as (g1 & E1 & HC1 & HR1 & U1 & P1 & L1 & C1 & S1 & N1).
  cbn [fmap list_fmap calls]. rewrite E1. cbn [mbind option_bind].
  assert (logged g g1 = unwritten g) as Elog.
  { destruct (call_committed (call_of m) g log HC (call_of_small _ _ m Hm)) as (g1' & E1' & HC1').
    rewrite E1 in E1'. injection E1' as <-.
    destruct (committed_values _ _ HC1') as [V1 _], (committed_values _ _ HC1) as [V2 _].
    rewrite V1 in V2. by apply app_inv_head in V2. }
  rewrite Elog. destruct (IH g1 (log ++ unwritten g)) as (g' & E & HC' & HR' & U'); try done.
  - by rewrite S1, N1.
  - intros m' Hm'. destruct ms as [|m2 ms]; [done|]. injection Hm' as ->.
    apply Forall_cons in Hlt as [Hlt _]. unfold before. rewrite L1, C1. destruct Hlt; [left|right]; naive_solver.
  - exists g'. rewrite U1 in *.
    assert (∀ l, log ++ removelast (l ++ m :: ms) = (log ++ l) ++ removelast (m :: ms)) as El.
    { intros l. rewrite removelast_app by done. by rewrite app_assoc. }
    rewrite (El (unwritten g)). split_and!; [done..|]. rewrite U'.
    by rewrite last_app_cons.
Qed.

(** [C28] A whole source map round-trips: after any declarations of sources and
    names, adding mappings at strictly increasing generated positions (with or
    without source, with or without name) and taking the map gives a [mappings]
    string that decodes to exactly those mappings. *)
Theorem mappings_round_trip setup ms file source_root dir cwd case_sensitive g0 log0 :
  Forall is_declaration setup →
  calls setup (new_generator file source_root dir cwd case_sensitive) [] = Some (g0, log0) →
  Forall (valid_mapping (length (g_sources g0)) (length (g_names g0))) ms →
  StronglySorted position_lt ms →
  ∃ g log map g', calls (call_of <$> ms) g0 [] = Some (g, log)
    ∧ raw_source_map g = Some (map, g')
    ∧ (values (decode_mappings (r_mappings map))).1 = ms
    ∧ d_error (values (decode_mappings (r_mappings map))).2 = None.
Proof.
  intros Hsetup E0 Hv Hs. set (g00 := new_generator file source_root dir cwd case_sensitive) in *.
  destruct (calls_declarations setup g00 [] Hsetup (new_generator_committed _ _ _ _ _)
    ltac:(by split) eq_refl eq_refl g0 log0 E0) as (-> & HC0 & HR0 & U0 & P0).
  destruct (calls_mappings ms g0 [] HC0 HR0 Hv Hs) as (g & E & HC & HR & U).
  { intros m Hm. destruct ms as [|m' ms]; [done|]. injection Hm as ->.
    apply Forall_cons in Hv as [(V1 & _) _]. unfold before, small in *. rewrite P0.
    unfold unwritten in U0. destruct (g_has_pending g0); [done|].
    destruct (decide (m_generated_line m = 0)); [right; split; [lia|done]|left; lia]. }
  rewrite U0 in *. cbn [app] in *. exists g, (removelast ms).
  destruct (committed_commit_ready g _ HC HR) as (g' & Ecommit & HC' & _).
  unfold raw_source_map. rewrite Ecommit. cbn [mbind option_bind]. do 2 eexists.
  split_and!; [done|done|..]; cbn [r_mappings].
  - destruct (committed_values _ _ HC') as [-> _]. rewrite U.
    destruct (last ms) as [m|] eqn:El.
    + apply last_Some in El as [l ->]. by rewrite removelast_last.
    + apply last_None in El as ->. done.
  - by destruct (committed_values _ _ HC') as (_ & ? & _).
Qed.

End RoundTrip.

Definition example_setup : list Call_ := [CallAddSource (bs "/src/a.ts"); CallAddName (bs "x")].
Definition example_mappings : list Mapping :=
  [MkMapping 0 0 0 0 0 (-1); MkMapping 0 4 0 0 9 0; MkMapping 2 1 (-1) (-1) (-1) (-1);
   MkMapping 3 0 0 40 2 (-1)].

Definition example_generator : Generator :=
  match calls (H := ascii_tables) example_setup
          (new_generator (bs "a.js") [] (bs "/out") (bs "/") true) [] with
  | Some (g, _) => g
  | None => new_generator [] [] [] [] true
  end.

Lemma mappings_round_trip_witness :
  calls (H := ascii_tables) example_setup
    (new_generator (bs "a.js") [] (bs "/out") (bs "/") true) [] = Some (example_generator, [])
  ∧ ∃ g log map g', calls (H := ascii_tables) (call_of <$> example_mappings) example_generator []
      = Some (g, log)
    ∧ raw_source_map g = Some (map, g')
    ∧ (values (decode_mappings (r_mappings map))).1 = example_mappings
    ∧ d_error (values (decode_mappings (r_mappings map))).2 = None.
Proof.
  split; [vm_compute; reflexivity|].
  apply (mappings_round_trip (H := ascii_tables) example_setup example_mappings (bs "a.js") []
    (bs "/out") (bs "/") true example_generator []).
  - repeat constructor.
  - vm_compute. reflexivity.
  - replace (length (g_sources example_generator)) with 1%nat by (vm_compute; reflexivity).
    replace (length (g_names example_generator)) with 1%nat by (vm_compute; reflexivity).
    repeat constructor; cbn; unfold small; lia.
  - repeat constructor; unfold position_lt; cbn; lia.
Defined.

(** Taking the map twice is not harmless: a source replaced by a generated-only
    mapping leaves stale pending fields that never match the last ones, so the
    second commit writes the mapping again. *)
Example raw_source_map_twice :
  (g ← (calls (H := ascii_tables) [CallAddSourceMapping 0 0 0 0 1; CallAddGenerated 0 0]
          example_generator []);
   '(map1, g1) ← raw_source_map g.1;
   '(map2, _) ← raw_source_map g1;
   Some (r_mappings map1, r_mappings map2)) = Some (bs "A", bs "A,A").
Proof. vm_compute. reflexivity. Qed.
