(* ===== verification/Semver.v ===== *)
(** Semantic versions: [crates/tsr_semver/src/version.rs]. A [str] is the list of
    its characters; [str_from_utf8] is the only way in.

    The order of versions: identifiers, prereleases, versions. *)

From stdpp Require Import sets.
From S2P Require Import Prelude Wtf8.

Local Open Scope Z_scope.

(** ** Strings of the standard library *)

Notation str := (list Z) (only parsing).

(** [std::str::from_utf8(text).ok()] *)
Fixpoint str_from_utf8_fuel (fuel : nat) (text : bytes) : option str :=
  match fuel, text with
  | S fuel, _ :: _ =>
      let '(rune, width) := decode_utf8 text in
      if (rune =? RUNE_ERROR) && (width =? 1)%nat then None
      else cons rune <$> str_from_utf8_fuel fuel (drop width text)
  | _, _ => Some []
  end.
Definition str_from_utf8 (text : bytes) : option str := str_from_utf8_fuel (length text) text.

(** [text.as_bytes()] *)
Definition as_bytes (text : str) : bytes := text ≫= char_encode_utf8.

(** The decimal value of digits, most significant first. *)
Definition digits_value (text : str) : Z := fold_left (λ acc c, acc * 10 + (c - 48)) text 0.

(** [text.parse::<u32>()]; a leading [+] is allowed. *)
Definition parse_u32 (text : str) : option Z :=
  let digits := match text with c :: rest => if c =? ch "+" then rest else text | [] => [] end in
  if negb (bool_decide (digits = [])) && forallb is_ascii_digit digits
     && (digits_value digits <=? 4294967295)
  then Some (digits_value digits) else None.

(** Decimal digits of a [u32]: ten are enough. *)
Fixpoint decimal_fuel (fuel : nat) (n : Z) : str :=
  match fuel with
  | O => []
  | S fuel => (if n <? 10 then [] else decimal_fuel fuel (n / 10)) ++ [48 + n mod 10]
  end.
Definition decimal (n : Z) : str := decimal_fuel 10 n.

Definition split_dots (text : str) : list str := split_on (λ c, c =? ch ".") text.

(** ** Versions *)

Record Version := MkVersion {
  major : Z; minor : Z; patch : Z; prerelease : list str; build : list str
}.

#[export] Instance eta_version : Eta Version :=
  λ v, MkVersion (major v) (minor v) (patch v) (prerelease v) (build v).

Definition version_default : Version := MkVersion 0 0 0 [] [].

Inductive ParseError :=
  | InvalidVersion (input : bytes)
  | ComponentOverflow (input : bytes).

Definition increment_major (v : Version) : Version :=
  version_default <| major := wrap_u32 (major v + 1) |>.
Definition increment_minor (v : Version) : Version :=
  version_default <| major := major v |> <| minor := wrap_u32 (minor v + 1) |>.
Definition increment_patch (v : Version) : Version :=
  version_default <| major := major v |> <| minor := minor v |>
    <| patch := wrap_u32 (patch v + 1) |>.
Definition zero_prerelease : Version := version_default <| prerelease := [bs "0"] |>.

(** [Display] *)
Definition to_string (v : Version) : str :=
  decimal (major v) ++ bs "." ++ decimal (minor v) ++ bs "." ++ decimal (patch v)
  ++ (if bool_decide (prerelease v = []) then [] else bs "-" ++ join_with (ch ".") (prerelease v))
  ++ (if bool_decide (build v = []) then [] else bs "+" ++ join_with (ch ".") (build v)).

(** ** Parsing *)

Record Parts := MkParts {
  p_major : str; p_minor : option str; p_patch : option str;
  p_prerelease : option str; p_build : option str
}.

(** ASCII letters, and the two characters that fold to one. *)
Definition folded_letter (c : Z) : bool :=
  is_ascii_alphabetic c || (c =? 0x017f) || (c =? 0x212a).

Definition numeric (text : str) : bool :=
  negb (bool_decide (text = [])) && forallb is_ascii_digit text
  && ((length text =? 1)%nat || negb (starts_with (bs "0") text)).

Definition wildcard (text : str) : bool :=
  bytes_eqb text (bs "x") || bytes_eqb text (bs "X") || bytes_eqb text (bs "*").

Definition component_ok (partial : bool) (part : str) : bool :=
  numeric part || (partial && wildcard part).

Definition qualifier_char (c : Z) : bool :=
  folded_letter c || is_ascii_digit c || (c =? ch "-") || (c =? ch ".").

Definition qualifier_ok (part : str) : bool :=
  negb (bool_decide (part = [])) && forallb qualifier_char part.

(** [qualifier.split_once('+')] *)
Definition split_once (sep : Z) (text : str) : option (str * str) :=
  match position (Z.eqb sep) text with
  | Some i => Some (take i text, drop (S i) text)
  | None => None
  end.

(** The prerelease and build parts behind the numbers, [marker] being the
    character at [end]. *)
Definition qualifiers (marker : Z) (qualifier : str) : option str * option str :=
  if marker =? ch "-" then
    match split_once (ch "+") qualifier with
    | Some (pre, metadata) => (Some pre, Some metadata)
    | None => (Some qualifier, None)
    end
  else (None, Some qualifier).

Definition opt_list {A} (o : option A) : list A := match o with Some a => [a] | None => [] end.

Definition parts (text : str) (partial : bool) : option Parts :=
  let end_ := default (length text) (position (λ c, (c =? ch "-") || (c =? ch "+")) text) in
  match split_dots (take end_ text) with
  | [] => None
  | major :: rest =>
      let minor := rest !! 0%nat in
      let patch := rest !! 1%nat in
      if (2 <? length rest)%nat
         || negb (forallb (component_ok partial) (major :: opt_list minor ++ opt_list patch))
      then None
      else
        let ok_tail : option (option str * option str) :=
          if (end_ =? length text)%nat then Some (None, None)
          else match patch with
               | None => None
               | Some _ => Some (qualifiers (nth end_ text 0) (drop (S end_) text))
               end in
        '(pre, metadata) ← ok_tail;
        if forallb qualifier_ok (opt_list pre ++ opt_list metadata)
        then Some (MkParts major minor patch pre metadata) else None
  end.

Definition uint_component (text : str) : result ParseError Z :=
  ok_or (ComponentOverflow (as_bytes text)) (parse_u32 text).

Definition set_component (index : nat) (value : Z) (v : Version) : Version :=
  match index with
  | 0%nat => v <| major := value |>
  | 1%nat => v <| minor := value |>
  | _ => v <| patch := value |>
  end.

(** The component loop; [Err] is the early return with the partial version. *)
Fixpoint parse_components (index : nat) (sources : list (option str)) (v : Version)
  : result (Version * ParseError) Version :=
  match sources with
  | [] => Ok v
  | None :: sources => parse_components (S index) sources v
  | Some source :: sources =>
      match uint_component source with
      | Ok value => parse_components (S index) sources (set_component index value v)
      | Err error => Err (set_component index 4294967295 v, error)
      end
  end.

Definition identifier_char (c : Z) : bool := folded_letter c || is_ascii_digit c || (c =? ch "-").

Definition prerelease_ok (part : str) : bool :=
  numeric part
  || (match part with c :: _ => folded_letter c || (c =? ch "-") | [] => false end
      && forallb identifier_char part).

Definition build_ok (part : str) : bool :=
  negb (bool_decide (part = [])) && forallb identifier_char part.

Definition try_parse_version (text : bytes) : Version * option ParseError :=
  let invalid := InvalidVersion text in
  let version := version_default in
  match text ← str_from_utf8 text; parts text false with
  | None => (version, Some invalid)
  | Some parts =>
      match parse_components 0 [Some (p_major parts); p_minor parts; p_patch parts] version with
      | Err (version, error) => (version, Some error)
      | Ok version =>
          let after_pre : result Version Version :=
            match p_prerelease parts with
            | None => Ok version
            | Some pre =>
                if forallb prerelease_ok (split_dots pre)
                then Ok (version <| prerelease := split_dots pre |>) else Err version
            end in
          match after_pre with
          | Err version => (version, Some invalid)
          | Ok version =>
              match p_build parts with
              | None => (version, None)
              | Some metadata =>
                  if forallb build_ok (split_dots metadata)
                  then (version <| build := split_dots metadata |>, None)
                  else (version, Some invalid)
              end
          end
      end
  end.

Definition parse (text : bytes) : result ParseError Version :=
  let '(version, error) := try_parse_version text in
  match error with Some error => Err error | None => Ok version end.

(** ** Ordering *)

Definition compare_identifier (left right : str) : comparison :=
  let lexical := bytes_cmp left right in
  match lexical with
  | Eq => Eq
  | _ =>
      match numeric left, numeric right with
      | true, false => Lt
      | false, true => Gt
      | true, true =>
          match parse_u32 left, parse_u32 right with
          | Some l, Some r => Z.compare l r
          | _, _ => then_with (Nat.compare (length left) (length right)) lexical
          end
      | false, false => lexical
      end
  end.

(** The zip loop of [compare_prereleases]. *)
Fixpoint compare_identifiers (left right : list str) : comparison :=
  match left, right with
  | l :: left', r :: right' =>
      match compare_identifier l r with
      | Eq => compare_identifiers left' right'
      | order => order
      end
  | _, _ => Nat.compare (length left) (length right)
  end.

Definition compare_prereleases (left right : list str) : comparison :=
  if bool_decide (left = []) then (if bool_decide (right = []) then Eq else Gt)
  else if bool_decide (right = []) then Lt
  else compare_identifiers left right.

Definition compare (left right : option Version) : comparison :=
  match left, right with
  | None, None => Eq
  | None, Some _ => Lt
  | Some _, None => Gt
  | Some l, Some r =>
      then_with (then_with (then_with (Z.compare (major l) (major r))
        (Z.compare (minor l) (minor r))) (Z.compare (patch l) (patch r)))
        (compare_prereleases (prerelease l) (prerelease r))
  end.

(** * The order *)

(** ** Numeric identifiers *)

Definition digits (text : str) : Prop := Forall (λ c, 48 <= c <= 57) text.

Lemma digits_forallb text : forallb is_ascii_digit text = true ↔ digits text.
Proof.
  unfold digits. induction text as [|c text IH]; simpl; [split; [constructor|done]|].
  rewrite andb_true_iff, Forall_cons, IH. unfold is_ascii_digit. by rewrite in_range_true.
Qed.

Lemma digits_value_app a b :
  digits_value (a ++ b) = digits_value a * 10 ^ Z.of_nat (length b) + digits_value b.
Proof.
  unfold digits_value. rewrite fold_left_app. generalize (fold_left (λ acc c, acc * 10 + (c - 48)) a 0).
  induction b as [|c b IH] using rev_ind; intros v.
  - simpl. lia.
  - rewrite !fold_left_app, length_app, IH, Nat2Z.inj_add, Z.pow_add_r by lia. simpl. lia.
Qed.

Lemma digits_value_bound text :
  digits text → 0 <= digits_value text < 10 ^ Z.of_nat (length text).
Proof.
  induction text as [|c text IH] using rev_ind; intros H; [done|].
  apply Forall_app in H as [H Hc]. apply Forall_cons in Hc as [Hc _]. specialize (IH H).
  rewrite digits_value_app, length_app, Nat2Z.inj_add, Z.pow_add_r by lia.
  change (digits_value [c]) with (0 * 10 + (c - 48)). change (Z.of_nat (length [c])) with 1. change (10 ^ 1) with 10. lia.
Qed.

Lemma digits_value_cons c text :
  digits_value (c :: text) = (c - 48) * 10 ^ Z.of_nat (length text) + digits_value text.
Proof. apply (digits_value_app [c] text). Qed.

(** Texts of the same length compare as their values. *)
Lemma digits_cmp_same_length l r :
  digits l → digits r → length l = length r →
  bytes_cmp l r = Z.compare (digits_value l) (digits_value r).
Proof.
  intros Hl. revert r; induction Hl as [|c l Hc Hl IH]; intros [|d r] Hr Hlen; try done.
  apply Forall_cons in Hr as [Hd Hr]. injection Hlen as Hlen. cbn [list_cmp].
  rewrite !digits_value_cons, Hlen, IH by done.
  pose proof (digits_value_bound l Hl). pose proof (digits_value_bound r Hr). rewrite Hlen in *.
  destruct (Z.compare_spec c d) as [->| |]; simpl.
  - destruct (Z.compare_spec (digits_value l) (digits_value r)); symmetry;
      [apply Z.compare_eq_iff|apply Z.compare_lt_iff|apply Z.compare_gt_iff]; lia.
  - symmetry. apply Z.compare_lt_iff. nia.
  - symmetry. apply Z.compare_gt_iff. nia.
Qed.

(** What [numeric] accepts: digits without a leading zero. *)
Lemma numeric_spec text :
  numeric text = true ↔
  digits text ∧ text ≠ [] ∧ (length text = 1%nat ∨ head text ≠ Some 48).
Proof.
  unfold numeric. rewrite !andb_true_iff, negb_true_iff, bool_decide_eq_false, digits_forallb,
    orb_true_iff, Nat.eqb_eq, negb_true_iff.
  assert (starts_with (bs "0") text = false ↔ head text ≠ Some 48) as ->.
  { destruct text as [|c text]; [done|]. unfold starts_with. cbn.
    change (ch "0") with 48. destruct (Z.eqb_spec 48 c) as [<-|]; split; congruence. }
  tauto.
Qed.

Lemma numeric_lower_bound text :
  numeric text = true → (2 <= length text)%nat → 10 ^ Z.of_nat (length text - 1) <= digits_value text.
Proof.
  rewrite numeric_spec. intros (Hd & _ & [|Hh]) Hlen; [lia|].
  destruct text as [|c text]; [simpl in Hlen; lia|]. apply Forall_cons in Hd as [Hc Hd].
  assert (c ≠ 48) by (cbn in Hh; congruence).
  rewrite digits_value_cons. simpl length. replace (S (length text) - 1)%nat with (length text) by lia.
  pose proof (digits_value_bound text Hd). nia.
Qed.

Lemma numeric_longer l r :
  numeric l = true → numeric r = true → (length l < length r)%nat → digits_value l < digits_value r.
Proof.
  intros Hl Hr Hlen. pose proof Hl as (Hd & Hne & _)%numeric_spec.
  assert (length l ≠ 0%nat) by (by destruct l).
  apply (Z.lt_le_trans _ (10 ^ Z.of_nat (length l))); [apply (digits_value_bound l Hd)|].
  apply (Z.le_trans _ (10 ^ Z.of_nat (length r - 1))); [|apply numeric_lower_bound; [done|lia]].
  apply Z.pow_le_mono_r; lia.
Qed.

(** Length, then text, is the order of the values. *)
Lemma numeric_length_cmp l r :
  numeric l = true → numeric r = true →
  then_with (Nat.compare (length l) (length r)) (bytes_cmp l r)
  = Z.compare (digits_value l) (digits_value r).
Proof.
  intros Hl Hr. pose proof Hl as (Hdl & _)%numeric_spec. pose proof Hr as (Hdr & _)%numeric_spec.
  destruct (Nat.compare_spec (length l) (length r)) as [E|E|E]; simpl.
  - by apply digits_cmp_same_length.
  - symmetry. apply Z.compare_lt_iff. by apply numeric_longer.
  - symmetry. apply Z.compare_gt_iff. by apply numeric_longer.
Qed.

Lemma numeric_value_inj l r :
  numeric l = true → numeric r = true → digits_value l = digits_value r → l = r.
Proof.
  intros Hl Hr E. pose proof (numeric_length_cmp l r Hl Hr) as H. rewrite E, Z.compare_refl in H.
  destruct (Nat.compare (length l) (length r)) eqn:El; try done. simpl in H.
  by apply (cmp_eq (cmp := bytes_cmp)).
Qed.

Lemma parse_u32_digits text :
  digits text → text ≠ [] →
  parse_u32 text = if digits_value text <=? 4294967295 then Some (digits_value text) else None.
Proof.
  intros Hd Hne. unfold parse_u32. destruct text as [|c text]; [done|].
  apply Forall_cons in Hd as Hc. destruct Hc as [Hc _].
  destruct (Z.eqb_spec c (ch "+")) as [->|_]; [by vm_compute in Hc; destruct Hc|].
  rewrite bool_decide_false by done. apply digits_forallb in Hd as ->. done.
Qed.

(** ** The order on identifiers *)

Definition identifier_class (s : str) : Z := if numeric s then 0 else 1.
Definition identifier_value (s : str) : Z := if numeric s then digits_value s else 0.

(** Numbers first, by value; then the others, as text. *)
Definition identifier_order (l r : str) : comparison :=
  then_with (Z.compare (identifier_class l) (identifier_class r))
    (then_with (Z.compare (identifier_value l) (identifier_value r)) (bytes_cmp l r)).

Lemma compare_identifier_order l r : compare_identifier l r = identifier_order l r.
Proof.
  unfold compare_identifier, identifier_order, identifier_class, identifier_value.
  destruct (bytes_cmp l r) eqn:E.
  { apply (cmp_eq (cmp := bytes_cmp)) in E as ->. by rewrite !Z.compare_refl. }
  all: destruct (numeric l) eqn:Hl, (numeric r) eqn:Hr; try done.
  all: rewrite <-E in *; pose proof (numeric_length_cmp l r Hl Hr) as Hcmp.
  all: pose proof Hl as (Hdl & Hnl & _)%numeric_spec; pose proof Hr as (Hdr & Hnr & _)%numeric_spec.
  all: rewrite !parse_u32_digits by done.
  all: assert (digits_value l ≠ digits_value r) as Hv
    by (intros Hv; apply numeric_value_inj in Hv as ->; [|done..];
        by rewrite (cmp_refl (cmp := bytes_cmp)) in E).
  all: rewrite Hcmp, (Z.compare_refl 0); simpl then_with.
  all: destruct (Z.compare_spec (digits_value l) (digits_value r)); [done|..];
    repeat case_match; simplify_eq; simpl; try done.
  all: first [by apply Z.compare_lt_iff|by apply Z.compare_gt_iff].
Qed.

#[export] Instance compare_identifier_total : TotalOrderCmp compare_identifier.
Proof.
  assert (TotalCmp identifier_order) as HT.
  { pose proof (key_cmp_total identifier_class Z.compare) as H1.
    pose proof (key_cmp_total identifier_value Z.compare) as H2.
    pose proof (then_cmp_total _ bytes_cmp (TotalCmp0 := H2)) as H3.
    exact (then_cmp_total _ _ (TotalCmp0 := H1) (TotalCmp1 := H3)). }
  split; [split|].
  - intros x. rewrite compare_identifier_order. apply cmp_refl.
  - intros x y. rewrite !compare_identifier_order. apply cmp_opp.
  - intros x y z. rewrite !compare_identifier_order. apply cmp_lt_trans.
  - intros x y z. rewrite !compare_identifier_order. apply cmp_eq_compat.
  - intros x y. rewrite compare_identifier_order. unfold identifier_order.
    destruct (_ ?= _); simpl; [|done..]. destruct (_ ?= _); simpl; [|done..]. apply cmp_eq.
Qed.

(** ** The order on versions *)

Lemma compare_identifiers_list l r : compare_identifiers l r = list_cmp compare_identifier l r.
Proof.
  revert r; induction l as [|x l IH]; intros [|y r]; try done. simpl. rewrite IH.
  by destruct (compare_identifier x y).
Qed.

(** A release sorts after its prereleases. *)
Definition is_release (ids : list str) : Z := if bool_decide (ids = []) then 1 else 0.

Lemma compare_prereleases_order l r :
  compare_prereleases l r
  = then_with (Z.compare (is_release l) (is_release r)) (list_cmp compare_identifier l r).
Proof.
  unfold compare_prereleases, is_release. rewrite compare_identifiers_list.
  destruct l, r; done.
Qed.

#[export] Instance compare_prereleases_total : TotalOrderCmp compare_prereleases.
Proof.
  pose proof (key_cmp_total is_release Z.compare) as H1.
  pose proof (then_cmp_total _ (list_cmp compare_identifier) (TotalCmp0 := H1)) as HT.
  split; [split|].
  - intros x. rewrite compare_prereleases_order. apply (cmp_refl (TotalCmp := HT)).
  - intros x y. rewrite !compare_prereleases_order. apply (cmp_opp (TotalCmp := HT)).
  - intros x y z. rewrite !compare_prereleases_order. apply (cmp_lt_trans (TotalCmp := HT)).
  - intros x y z. rewrite !compare_prereleases_order. apply (cmp_eq_compat (TotalCmp := HT)).
  - intros x y. rewrite compare_prereleases_order. destruct (_ ?= _); simpl; [|done..]. apply cmp_eq.
Qed.

Definition version_order (l r : Version) : comparison :=
  then_with (then_with (then_with (Z.compare (major l) (major r))
    (Z.compare (minor l) (minor r))) (Z.compare (patch l) (patch r)))
    (compare_prereleases (prerelease l) (prerelease r)).

Lemma version_order_total : TotalCmp version_order.
Proof.
  pose proof (key_cmp_total major Z.compare) as H1. pose proof (key_cmp_total minor Z.compare) as H2.
  pose proof (key_cmp_total patch Z.compare) as H3.
  pose proof (key_cmp_total prerelease compare_prereleases) as H4.
  pose proof (then_cmp_total _ _ (TotalCmp0 := H1) (TotalCmp1 := H2)) as H12.
  pose proof (then_cmp_total _ _ (TotalCmp0 := H12) (TotalCmp1 := H3)) as H123.
  exact (then_cmp_total _ _ (TotalCmp0 := H123) (TotalCmp1 := H4)).
Qed.

Lemma version_order_eq l r :
  version_order l r = Eq ↔
  major l = major r ∧ minor l = minor r ∧ patch l = patch r ∧ prerelease l = prerelease r.
Proof.
  unfold version_order. split.
  - destruct (Z.compare_spec (major l) (major r)) as [->| |]; simpl; [|done..].
    destruct (Z.compare_spec (minor l) (minor r)) as [->| |]; simpl; [|done..].
    destruct (Z.compare_spec (patch l) (patch r)) as [->| |]; simpl; [|done..].
    by intros ->%(cmp_eq (cmp := compare_prereleases)).
  - intros (-> & -> & -> & ->). by rewrite !Z.compare_refl, (cmp_refl (cmp := compare_prereleases)).
Qed.

(** [C37] [Version::compare] is a total preorder on optional versions, an absent
    version first, and it identifies exactly the versions that agree on
    everything but the build metadata; prereleases of a version come before it.
    The mixed comparison of identifiers (numbers by value when both fit a [u32],
    otherwise by length and text) never breaks transitivity. *)
Theorem version_compare_total :
  TotalCmp compare
  ∧ (∀ l r, compare (Some l) (Some r) = Eq ↔
       major l = major r ∧ minor l = minor r ∧ patch l = patch r ∧ prerelease l = prerelease r)
  ∧ (∀ v pre, prerelease v = [] → pre ≠ [] → compare (Some (v <| prerelease := pre |>)) (Some v) = Lt).
Proof.
  pose proof version_order_total as HT. split_and!.
  - split.
    + intros [x|]; [|done]. apply (cmp_refl (TotalCmp := HT)).
    + intros [x|] [y|]; try done. apply (cmp_opp (TotalCmp := HT)).
    + intros [x|] [y|] [z|]; try done. apply (cmp_lt_trans (TotalCmp := HT)).
    + intros [x|] [y|] [z|]; try done. apply (cmp_eq_compat (TotalCmp := HT)).
  - intros l r. apply version_order_eq.
  - intros v pre Hv Hpre. cbn. rewrite !Z.compare_refl, Hv. cbn.
    unfold compare_prereleases. rewrite bool_decide_false by done. done.
Qed.
