(* ===== verification/SemverRange.v ===== *)
(** Printing a version and parsing it back.

    Version ranges: [crates/tsr_semver/src/version_range.rs], and what the
    range operators mean. *)

From S2P Require Import Prelude Wtf8 Semver.

Local Open Scope Z_scope.

(** ** UTF-8 *)

Lemma str_from_utf8_as_bytes text :
  Forall scalar text → str_from_utf8 (as_bytes text) = Some text.
Proof.
  unfold str_from_utf8. intros Ht. assert (length (as_bytes text) <= length (as_bytes text))%nat as Hf by lia.
  revert Hf. generalize (length (as_bytes text)) at 2 3 as fuel.
  induction Ht as [|c text Hc Ht IH]; intros fuel Hf; [by destruct fuel|].
  unfold as_bytes in *. cbn [mbind list_bind] in *.
  assert (char_encode_utf8 c = utf8_arith c) as E by (apply char_encode_utf8_arith; by destruct Hc).
  rewrite E in *. rewrite length_app in Hf. pose proof (utf8_arith_width c) as Hw.
  destruct fuel as [|fuel]; [lia|].
  destruct (utf8_arith c ++ _) as [|b rest] eqn:Eb; [apply app_nil in Eb as [E1 _]; rewrite E1 in Hw; simpl in Hw; lia|].
  cbn [str_from_utf8_fuel]. rewrite <-Eb, decode_utf8_encoded by done.
  rewrite drop_app_length, IH by lia.
  destruct (Z.eqb_spec c RUNE_ERROR) as [->|]; [|done]. done.
Qed.

(** ** Decimal numbers *)

Lemma decimal_fuel_spec fuel n :
  0 <= n < 10 ^ Z.of_nat fuel → (0 < fuel)%nat →
  digits (decimal_fuel fuel n) ∧ digits_value (decimal_fuel fuel n) = n
  ∧ decimal_fuel fuel n ≠ [] ∧ (0 < n → head (decimal_fuel fuel n) ≠ Some 48)
  ∧ (n < 10 → length (decimal_fuel fuel n) = 1%nat).
Proof.
  revert n; induction fuel as [|fuel IH]; intros n Hn Hf; [lia|]. cbn [decimal_fuel].
  rewrite Nat2Z.inj_succ, Z.pow_succ_r in Hn by lia.
  pose proof (Z.mod_pos_bound n 10 ltac:(lia)). destruct (Z.ltb_spec n 10).
  - rewrite Z.mod_small by lia. cbn [app]. split_and!; [by repeat constructor; lia| |done| |done].
    + cbn. lia.
    + intros ? [=]. lia.
  - destruct (IH (n / 10)) as (Hd & Hv & Hne & Hh & _); [zdiv|destruct fuel; [simpl in Hn; lia|lia]|].
    split_and!.
    + apply Forall_app. split; [done|]. repeat constructor; lia.
    + rewrite digits_value_app, Hv. cbn. zdiv.
    + by intros [? _]%app_nil.
    + intros _. destruct (decimal_fuel fuel (n / 10)) as [|c l] eqn:E; [done|]. apply Hh. zdiv.
    + lia.
Qed.

Definition is_u32 (n : Z) : Prop := 0 <= n <= 4294967295.

Lemma decimal_spec n :
  is_u32 n → digits (decimal n) ∧ decimal n ≠ [] ∧ numeric (decimal n) = true
    ∧ parse_u32 (decimal n) = Some n.
Proof.
  intros Hn. destruct (decimal_fuel_spec 10 n) as (Hd & Hv & Hne & Hh & Hl);
    [split; [apply Hn|apply (Z.le_lt_trans _ 4294967295); [apply Hn|done]]|lia|].
  fold (decimal n) in *. split_and!; [done|done| |].
  - apply numeric_spec. split_and!; [done|done|].
    destruct (decide (n = 0)) as [->|]; [by left|right]. apply Hh. unfold is_u32 in Hn. lia.
  - rewrite parse_u32_digits, Hv by done. unfold is_u32 in Hn.
    by destruct (Z.leb_spec n 4294967295); [|lia].
Qed.

(** ** Identifiers *)

Definition dot_free (s : str) : Prop := Forall (λ c, (c =? ch ".") = false) s.

Lemma forallb_Forall (f : Z → bool) s : forallb f s = true ↔ Forall (λ c, f c = true) s.
Proof. by rewrite forallb_forall, Forall_forall; setoid_rewrite list_elem_of_In. Qed.

Lemma forallb_Forall_str (f : str → bool) l : forallb f l = true ↔ Forall (λ s, f s = true) l.
Proof. by rewrite forallb_forall, Forall_forall; setoid_rewrite list_elem_of_In. Qed.

(** What a parsed version's identifiers are made of. *)
Definition valid_version (v : Version) : Prop :=
  is_u32 (major v) ∧ is_u32 (minor v) ∧ is_u32 (patch v)
  ∧ Forall (λ s, prerelease_ok s = true) (prerelease v)
  ∧ Forall (λ s, build_ok s = true) (build v).

Lemma identifier_char_cases c :
  identifier_char c = true →
  scalar c ∧ (c =? ch ".") = false ∧ (c =? ch "+") = false ∧ qualifier_char c = true.
Proof.
  unfold identifier_char, qualifier_char, folded_letter, is_ascii_alphabetic, is_ascii_lowercase,
    is_ascii_uppercase, is_ascii_digit, scalar, code_point. intros H.
  assert (0 <= c <= 122 ∨ c = 383 ∨ c = 8490) as Hc.
  { rewrite !orb_true_iff, !in_range_true, !Z.eqb_eq in H. change (ch "-") with 45 in H. lia. }
  rewrite !orb_true_iff in H. rewrite is_surrogate_false.
  assert (c ≠ ch "." ∧ c ≠ ch "+") as [N1 N2].
  { rewrite !in_range_true, !Z.eqb_eq in H. change (ch "-") with 45 in H.
    change (ch ".") with 46. change (ch "+") with 43. lia. }
  apply Z.eqb_neq in N1 as ->, N2 as ->. split_and!; [lia|lia|lia|done|done|].
  rewrite !orb_true_iff. tauto.
Qed.

Lemma digit_identifier c : is_ascii_digit c = true → identifier_char c = true.
Proof. unfold identifier_char. intros ->. by rewrite orb_true_r. Qed.

Lemma prerelease_ok_chars s :
  prerelease_ok s = true → s ≠ [] ∧ Forall (λ c, identifier_char c = true) s.
Proof.
  unfold prerelease_ok. rewrite orb_true_iff. intros [H|H].
  - unfold numeric in H. rewrite !andb_true_iff, negb_true_iff, bool_decide_eq_false in H.
    destruct H as [[Hne Hd] _]. split; [done|]. apply forallb_Forall in Hd.
    apply (Forall_impl _ _ _ Hd), digit_identifier.
  - apply andb_true_iff in H as [Hh Hc]. split; [by destruct s|by apply forallb_Forall].
Qed.

Lemma build_ok_chars s : build_ok s = true → s ≠ [] ∧ Forall (λ c, identifier_char c = true) s.
Proof.
  unfold build_ok. rewrite andb_true_iff, negb_true_iff, bool_decide_eq_false.
  by rewrite forallb_Forall.
Qed.

(** The qualifier text of identifiers. *)
Lemma join_identifiers ids :
  ids ≠ [] → Forall (λ s, s ≠ [] ∧ Forall (λ c, identifier_char c = true) s) ids →
  split_dots (join_with (ch ".") ids) = ids
  ∧ qualifier_ok (join_with (ch ".") ids) = true
  ∧ Forall (λ c, (c =? ch "+") = false ∧ scalar c) (join_with (ch ".") ids).
Proof.
  intros Hne Hids. split_and!.
  - apply split_join; [done|]. apply (Forall_impl _ _ _ Hids). intros s [_ Hs].
    apply (Forall_impl _ _ _ Hs). intros c Hc. by apply identifier_char_cases.
  - unfold qualifier_ok. apply andb_true_iff. split.
    + apply negb_true_iff, bool_decide_eq_false. destruct Hids as [|s ids [Hs _]]; [done|].
      destruct ids; [done|]. by destruct s.
    + apply forallb_Forall, join_with_Forall; [done|]. apply (Forall_impl _ _ _ Hids). intros s [_ Hs].
      apply (Forall_impl _ _ _ Hs). intros c Hc. by apply identifier_char_cases.
  - apply join_with_Forall; [by split|]. apply (Forall_impl _ _ _ Hids). intros s [_ Hs].
    apply (Forall_impl _ _ _ Hs). intros c Hc. by apply identifier_char_cases in Hc as (? & _ & ? & _).
Qed.

(** ** Taking a printed version apart *)

Lemma position_app_none {A} (f : A → bool) a b :
  Forall (λ x, f x = false) a → position f (a ++ b) = Nat.add (length a) <$> position f b.
Proof.
  induction 1 as [|x a Hx Ha IH]; simpl; [by destruct (position f b)|].
  rewrite Hx, IH. by destruct (position f b).
Qed.

Definition qualifier_text (v : Version) : str :=
  (if bool_decide (prerelease v = []) then [] else bs "-" ++ join_with (ch ".") (prerelease v))
  ++ (if bool_decide (build v = []) then [] else bs "+" ++ join_with (ch ".") (build v)).

Definition numbers_text (v : Version) : str :=
  decimal (major v) ++ ch "." :: decimal (minor v) ++ ch "." :: decimal (patch v).

Lemma to_string_split v : to_string v = numbers_text v ++ qualifier_text v.
Proof.
  unfold to_string, numbers_text, qualifier_text. change (bs ".") with [ch "."].
  rewrite <-app_assoc. cbn [app]. rewrite <-app_assoc. done.
Qed.

Lemma digits_no c (s : str) : c < 48 → digits s → Forall (λ x, (x =? c) = false) s.
Proof. intros Hc Hs. apply (Forall_impl _ _ _ Hs). intros x Hx. apply Z.eqb_neq. lia. Qed.

Lemma numbers_text_no_marker v :
  valid_version v → Forall (λ c, (c =? ch "-") || (c =? ch "+") = false) (numbers_text v).
Proof.
  intros (HM & Hm & Hp & _). unfold numbers_text.
  assert (∀ n, is_u32 n → Forall (λ c, (c =? ch "-") || (c =? ch "+") = false) (decimal n)) as Hd.
  { intros n Hn. destruct (decimal_spec n Hn) as [Hd _]. apply (Forall_impl _ _ _ Hd). intros c Hc.
    change (ch "-") with 45. change (ch "+") with 43. apply orb_false_iff. rewrite !Z.eqb_neq. lia. }
  repeat (apply Forall_app; split; [by apply Hd|]; apply Forall_cons; split; [done|]). by apply Hd.
Qed.

Lemma split_numbers v :
  valid_version v → split_dots (numbers_text v) = [decimal (major v); decimal (minor v); decimal (patch v)].
Proof.
  intros (HM & Hm & Hp & _). unfold split_dots, numbers_text.
  assert (∀ n, is_u32 n → Forall (λ c, (c =? ch ".") = false) (decimal n)) as Hd.
  { intros n Hn. destruct (decimal_spec n Hn) as [Hd _]. by apply digits_no. }
  rewrite !split_on_app by auto. by rewrite split_on_piece by auto.
Qed.

Definition printed_parts (v : Version) : Parts :=
  MkParts (decimal (major v)) (Some (decimal (minor v))) (Some (decimal (patch v)))
    (if bool_decide (prerelease v = []) then None else Some (join_with (ch ".") (prerelease v)))
    (if bool_decide (build v = []) then None else Some (join_with (ch ".") (build v))).

Lemma valid_identifiers v :
  valid_version v →
  Forall (λ s, s ≠ [] ∧ Forall (λ c, identifier_char c = true) s) (prerelease v)
  ∧ Forall (λ s, s ≠ [] ∧ Forall (λ c, identifier_char c = true) s) (build v).
Proof.
  intros (_ & _ & _ & Hpre & Hb). split.
  - apply (Forall_impl _ _ _ Hpre), prerelease_ok_chars.
  - apply (Forall_impl _ _ _ Hb), build_ok_chars.
Qed.

(** The qualifiers of a printed version, read behind the marker. *)
Lemma qualifiers_printed v :
  valid_version v → qualifier_text v ≠ [] →
  ∃ marker rest, qualifier_text v = marker :: rest ∧ (marker =? ch "-") || (marker =? ch "+") = true
    ∧ qualifiers marker rest = (p_prerelease (printed_parts v), p_build (printed_parts v)).
Proof.
  intros Hv Hne. destruct (valid_identifiers v Hv) as [Hpre Hb].
  unfold qualifier_text, printed_parts in *. cbn [p_prerelease p_build].
  destruct (bool_decide_reflect (prerelease v = [])) as [E1|E1],
    (bool_decide_reflect (build v = [])) as [E2|E2]; [done|..].
  - eexists _, _. split; [done|]. done.
  - rewrite app_nil_r. eexists _, _. split; [done|]. split; [done|].
    destruct (join_identifiers _ E1 Hpre) as (_ & _ & Hplus).
    unfold qualifiers. change (ch "-" =? ch "-") with true. cbv iota. unfold split_once.
    assert (position (Z.eqb (ch "+")) (join_with (ch ".") (prerelease v)) = None) as ->; [|done].
    apply position_None, (Forall_impl _ _ _ Hplus). intros c [Hc _]. by rewrite Z.eqb_sym.
  - exists (ch "-"), (join_with (ch ".") (prerelease v) ++ ch "+" :: join_with (ch ".") (build v)).
    split; [done|]. split; [done|]. destruct (join_identifiers _ E1 Hpre) as (_ & _ & Hplus).
    unfold qualifiers. change (ch "-" =? ch "-") with true. cbv iota. unfold split_once.
    rewrite position_app_none; [|apply (Forall_impl _ _ _ Hplus); intros c [Hc _]; by rewrite Z.eqb_sym].
    cbn [position]. rewrite Z.eqb_refl. cbn [fmap option_fmap option_map].
    rewrite Nat.add_0_r, take_app_length. f_equal. f_equal.
    rewrite <-Nat.add_1_r, <-drop_drop, drop_app_length. done.
Qed.

Lemma parts_printed v partial :
  valid_version v → parts (to_string v) partial = Some (printed_parts v).
Proof.
  intros Hv. pose proof (numbers_text_no_marker v Hv) as Hnum. pose proof Hv as (HM & Hm & Hp & _).
  destruct (valid_identifiers v Hv) as [Hpre Hb].
  rewrite to_string_split. unfold parts. rewrite position_app_none by done.
  assert (default (length (numbers_text v ++ qualifier_text v))
    (Nat.add (length (numbers_text v)) <$> position (λ c, (c =? ch "-") || (c =? ch "+")) (qualifier_text v))
    = length (numbers_text v)) as ->.
  { destruct (decide (qualifier_text v = [])) as [E|E]; [rewrite E; cbn; by rewrite app_nil_r|].
    destruct (qualifiers_printed v Hv E) as (m & r & -> & Hmk & _). cbn. rewrite Hmk. cbn. lia. }
  rewrite take_app_length, split_numbers by done. cbn [length Nat.ltb Nat.leb orb].
  cbn [lookup list_lookup opt_list app forallb].
  unfold component_ok. destruct (decimal_spec _ HM) as (_ & _ & -> & _), (decimal_spec _ Hm) as (_ & _ & -> & _),
    (decimal_spec _ Hp) as (_ & _ & -> & _). cbn [andb orb negb].
  destruct (Nat.eqb_spec (length (numbers_text v)) (length (numbers_text v ++ qualifier_text v))) as [E|E].
  - assert (qualifier_text v = []) as Eq.
    { rewrite length_app in E. destruct (qualifier_text v); [done|simpl in E; lia]. }
    cbn [mbind option_bind]. unfold qualifier_text in Eq. unfold printed_parts.
    destruct (bool_decide (prerelease v = [])); [|done]. by destruct (bool_decide (build v = [])).
  - destruct (qualifiers_printed v Hv) as (m & r & Eq & _ & Hq).
    { intros E'. rewrite E', app_nil_r in E. done. }
    rewrite Eq. assert (nth (length (numbers_text v)) (numbers_text v ++ m :: r) 0 = m) as ->.
    { rewrite app_nth2, Nat.sub_diag by lia. done. }
    rewrite <-Nat.add_1_r, <-drop_drop, drop_app_length. change (drop 1 (m :: r)) with r. rewrite Hq. cbn [mbind option_bind].
    unfold printed_parts. cbn [p_prerelease p_build].
    destruct (bool_decide_reflect (prerelease v = [])) as [E1|E1],
      (bool_decide_reflect (build v = [])) as [E2|E2]; cbn [opt_list app forallb]; try done.
    all: try destruct (join_identifiers _ E1 Hpre) as (_ & -> & _).
    all: try destruct (join_identifiers _ E2 Hb) as (_ & -> & _). all: done.
Qed.

Lemma to_string_scalar v : valid_version v → Forall scalar (to_string v).
Proof.
  intros Hv. pose proof Hv as (HM & Hm & Hp & _). destruct (valid_identifiers v Hv) as [Hpre Hb].
  assert (∀ n, is_u32 n → Forall scalar (decimal n)) as Hd.
  { intros n Hn. destruct (decimal_spec n Hn) as [Hd _]. apply (Forall_impl _ _ _ Hd). intros c Hc.
    unfold scalar, code_point. rewrite is_surrogate_false. lia. }
  assert (∀ c, 0 <= c < 128 → scalar c) as Ha.
  { intros c Hc. unfold scalar, code_point. rewrite is_surrogate_false. lia. }
  rewrite to_string_split. unfold numbers_text, qualifier_text.
  rewrite !Forall_app, !Forall_cons, !Forall_app, !Forall_cons.
  split_and!; try by apply Hd. 1-2: by apply Ha; vm_compute.
  - destruct (bool_decide_reflect (prerelease v = [])) as [E|E]; [done|].
    destruct (join_identifiers _ E Hpre) as (_ & _ & H). constructor; [by apply Ha; vm_compute|].
    apply (Forall_impl _ _ _ H). by intros ? [].
  - destruct (bool_decide_reflect (build v = [])) as [E|E]; [done|].
    destruct (join_identifiers _ E Hb) as (_ & _ & H). constructor; [by apply Ha; vm_compute|].
    apply (Forall_impl _ _ _ H). by intros ? [].
Qed.

(** [C36] Parsing what [Display] prints gives the version back, field by field,
    for every version whose components fit a [u32] and whose identifiers are
    valid, the two non-ASCII letters the grammar admits included. *)
Theorem version_round_trip v :
  valid_version v → parse (as_bytes (to_string v)) = Ok v.
Proof.
  intros Hv. pose proof Hv as (HM & Hm & Hp & Hpre & Hb).
  destruct (valid_identifiers v Hv) as [Hpre' Hb'].
  unfold parse, try_parse_version. rewrite str_from_utf8_as_bytes by by apply to_string_scalar.
  cbn [mbind option_bind]. rewrite parts_printed by done. unfold printed_parts.
  cbn [p_major p_minor p_patch p_prerelease p_build parse_components].
  unfold uint_component.
  destruct (decimal_spec _ HM) as (_ & _ & _ & ->), (decimal_spec _ Hm) as (_ & _ & _ & ->),
    (decimal_spec _ Hp) as (_ & _ & _ & ->). cbn [ok_or set_component].
  destruct v as [M m p pre bld]. cbn [major minor patch prerelease build] in *.
  destruct (bool_decide_reflect (pre = [])) as [E1|E1], (bool_decide_reflect (bld = [])) as [E2|E2];
    try (destruct (join_identifiers _ E1 Hpre') as (-> & _ & _); apply forallb_Forall_str in Hpre as ->);
    try (destruct (join_identifiers _ E2 Hb') as (-> & _ & _); apply forallb_Forall_str in Hb as ->);
    by subst.
Qed.

Lemma version_round_trip_witness :
  valid_version (MkVersion 10 0 4294967295 [bs "rc"; bs "0"; bs "-x"] [bs "2024"; [0x212a; 49]])
  ∧ parse (as_bytes (to_string (MkVersion 10 0 4294967295 [bs "rc"; bs "0"; bs "-x"]
      [bs "2024"; [0x212a; 49]])))
    = Ok (MkVersion 10 0 4294967295 [bs "rc"; bs "0"; bs "-x"] [bs "2024"; [0x212a; 49]]).
Proof.
  assert (valid_version (MkVersion 10 0 4294967295 [bs "rc"; bs "0"; bs "-x"] [bs "2024"; [0x212a; 49]]))
    as Hv by (unfold valid_version, is_u32; cbn; split_and!; try lia; repeat constructor).
  split; [exact Hv|]. exact (version_round_trip _ Hv).
Defined.

(** Overflow saturates the failing component and keeps the ones before it. *)
Example component_overflow :
  try_parse_version (bs "1.4294967296.3-rc")
  = (MkVersion 1 4294967295 0 [] [], Some (ComponentOverflow (bs "4294967296"))).
Proof. reflexivity. Qed.

(** * Ranges *)

(** ** Data *)

Inductive Operator := Less | LessEqual | Equal | GreaterEqual | Greater.

Definition operator_text (o : Operator) : str :=
  match o with
  | Less => bs "<" | LessEqual => bs "<=" | Equal => bs "=" | GreaterEqual => bs ">=" | Greater => bs ">"
  end.

Record Comparator := MkComparator { operator : Operator; operand : Version }.
Record VersionRange := MkVersionRange { alternatives : list (list Comparator) }.
Definition range_default : VersionRange := MkVersionRange [].

(** ** Testing and printing *)

Definition comparator_test (version : option Version) (c : Comparator) : bool :=
  match operator c, compare version (Some (operand c)) with
  | Less, Lt => true
  | LessEqual, (Lt | Eq) => true
  | Equal, Eq => true
  | GreaterEqual, (Gt | Eq) => true
  | Greater, Gt => true
  | _, _ => false
  end.

Definition test (range : VersionRange) (version : option Version) : bool :=
  bool_decide (alternatives range = [])
  || existsb (forallb (comparator_test version)) (alternatives range).

Definition comparator_text (c : Comparator) : str := operator_text (operator c) ++ to_string (operand c).

(** [Display]: a completely empty result is written as a star. *)
Definition range_to_string (range : VersionRange) : str :=
  let text :=
    concat (imap (λ i alternative,
      (if (i =? 0)%nat then [] else bs " || ")
      ++ concat (imap (λ j c, (if (j =? 0)%nat then [] else bs " ") ++ comparator_text c) alternative))
      (alternatives range)) in
  if bool_decide (text = []) then bs "*" else text.

(** ** Parsing *)

Definition go_space (c : Z) : bool :=
  in_range 0x0009 0x000d c || (c =? 32) || (c =? 0x0085) || (c =? 0x00a0) || (c =? 0x1680)
  || in_range 0x2000 0x200a c || (c =? 0x2028) || (c =? 0x2029) || (c =? 0x202f) || (c =? 0x205f)
  || (c =? 0x3000).
Definition regex_space (c : Z) : bool :=
  (c =? 9) || (c =? 10) || (c =? 12) || (c =? 13) || (c =? 32).

Fixpoint trim_start (f : Z → bool) (text : str) : str :=
  match text with c :: rest => if f c then trim_start f rest else text | [] => [] end.
(** [text.trim_matches(f)] *)
Definition trim_matches (f : Z → bool) (text : str) : str :=
  rev (trim_start f (rev (trim_start f text))).

(** [text.split("||")]: splits at each occurrence, left to right. *)
Fixpoint split_bars (text : str) : list str :=
  match text with
  | a :: rest =>
      match rest with
      | b :: rest' =>
          if (a =? ch "|") && (b =? ch "|") then [] :: split_bars rest'
          else match split_bars rest with p :: ps => (a :: p) :: ps | [] => [[a]] end
      | [] => [[a]]
      end
  | [] => [[]]
  end.

Record PartialVersion := MkPartial {
  pv_version : Version; pv_major : str; pv_minor : str; pv_patch : str
}.

Definition parse_partial (text : str) : option PartialVersion :=
  parts ← parts text true;
  let minor := default (bs "*") (p_minor parts) in
  let patch := default (bs "*") (p_patch parts) in
  version ← (if wildcard (p_major parts) then Some version_default
             else
               major ← ok (uint_component (p_major parts));
               if wildcard minor then Some (MkVersion major 0 0 [] [])
               else
                 minor ← ok (uint_component minor);
                 if wildcard patch then Some (MkVersion major minor 0 [] [])
                 else
                   patch ← ok (uint_component patch);
                   Some (MkVersion major minor patch [] []));
  let version :=
    match p_prerelease parts with Some pre => version <| prerelease := split_dots pre |> | None => version end in
  let version :=
    match p_build parts with Some m => version <| build := split_dots m |> | None => version end in
  Some (MkPartial version (p_major parts) minor patch).

Definition parse_hyphen (left right : str) : option (list Comparator) :=
  left ← parse_partial left;
  right ← parse_partial right;
  Some ((if wildcard (pv_major left) then [] else [MkComparator GreaterEqual (pv_version left)])
        ++ (if wildcard (pv_major right) then []
            else if wildcard (pv_minor right)
            then [MkComparator Less (increment_major (pv_version right))]
            else if wildcard (pv_patch right)
            then [MkComparator Less (increment_minor (pv_version right))]
            else [MkComparator LessEqual (pv_version right)])).

(** The operator texts a token can start with. *)
Inductive RangeOperator := OpTilde | OpCaret | OpLess | OpLessEqual | OpGreater | OpGreaterEqual | OpEqual.

Definition zero_pre (v : Version) : Version := v <| prerelease := [bs "0"] |>.

Definition desugar (op : RangeOperator) (partial : PartialVersion) : list Comparator :=
  if wildcard (pv_major partial) then
    match op with OpLess | OpGreater => [MkComparator Less zero_prerelease] | _ => [] end
  else
    let version := pv_version partial in
    let minor_wildcard := wildcard (pv_minor partial) in
    let patch_wildcard := wildcard (pv_patch partial) in
    let bump := if minor_wildcard then increment_major version else increment_minor version in
    match op with
    | OpTilde =>
        let upper := if minor_wildcard then increment_major version else increment_minor version in
        [MkComparator GreaterEqual version; MkComparator Less upper]
    | OpCaret =>
        let upper :=
          if (0 <? major version) || minor_wildcard then increment_major version
          else if (0 <? minor version) || patch_wildcard then increment_minor version
          else increment_patch version in
        [MkComparator GreaterEqual version; MkComparator Less upper]
    | OpLess | OpGreaterEqual =>
        let version := if minor_wildcard || patch_wildcard then zero_pre version else version in
        [MkComparator (match op with OpLess => Less | _ => GreaterEqual end) version]
    | OpLessEqual | OpGreater =>
        if minor_wildcard || patch_wildcard
        then [MkComparator (match op with OpLessEqual => Less | _ => GreaterEqual end) (zero_pre bump)]
        else [MkComparator (match op with OpLessEqual => LessEqual | _ => Greater end) version]
    | OpEqual =>
        if minor_wildcard || patch_wildcard
        then [MkComparator GreaterEqual (zero_pre version); MkComparator Less (zero_pre bump)]
        else [MkComparator Equal version]
    end.

Definition parse_comparator (op : RangeOperator) (text : str) : option (list Comparator) :=
  desugar op <$> parse_partial text.

(** The operator in front of a token, and the rest. *)
Definition token_operator (token : str) : RangeOperator * str :=
  if starts_with (bs "<=") token then (OpLessEqual, drop 2 token)
  else if starts_with (bs ">=") token then (OpGreaterEqual, drop 2 token)
  else if starts_with (bs "<") token then (OpLess, drop 1 token)
  else if starts_with (bs ">") token then (OpGreater, drop 1 token)
  else if starts_with (bs "=") token then (OpEqual, drop 1 token)
  else if starts_with (bs "~") token then (OpTilde, drop 1 token)
  else if starts_with (bs "^") token then (OpCaret, drop 1 token)
  else (OpEqual, token).

Fixpoint parse_tokens (tokens : list str) : option (list Comparator) :=
  match tokens with
  | [] => Some []
  | token :: tokens =>
      let '(op, operand) := token_operator (trim_matches go_space token) in
      comparators ← parse_comparator op operand;
      app comparators <$> parse_tokens tokens
  end.

Definition parse_alternative (range : str) : option (list Comparator) :=
  let tokens :=
    List.filter (λ token, negb (bool_decide (token = []))) (split_on regex_space range) in
  match tokens with
  | [first; dash; third] =>
      if bytes_eqb dash (bs "-") then parse_hyphen first third else parse_tokens tokens
  | _ => parse_tokens tokens
  end.

Fixpoint parse_alternatives (ranges : list str) : option (list (list Comparator)) :=
  match ranges with
  | [] => Some []
  | range :: ranges =>
      let range := trim_matches go_space range in
      if bool_decide (range = []) then parse_alternatives ranges
      else
        comparators ← parse_alternative range;
        cons comparators <$> parse_alternatives ranges
  end.

Definition parse_range (text : bytes) : option VersionRange :=
  text ← str_from_utf8 text;
  MkVersionRange <$> parse_alternatives (split_bars (trim_matches go_space text)).

Definition try_parse_version_range (text : bytes) : VersionRange * bool :=
  match parse_range text with Some range => (range, true) | None => (range_default, false) end.

(** ** What the operators mean on releases *)

Definition is_release_version (v : Version) : Prop :=
  is_u32 (major v) ∧ is_u32 (minor v) ∧ is_u32 (patch v) ∧ prerelease v = [] ∧ build v = [].

(** Components that can be incremented. *)
Definition bumpable (v : Version) : Prop :=
  major v < 4294967295 ∧ minor v < 4294967295 ∧ patch v < 4294967295.

Definition release_le (v w : Version) : Prop :=
  major v < major w
  ∨ major v = major w ∧ (minor v < minor w ∨ minor v = minor w ∧ patch v <= patch w).

Lemma release_valid v : is_release_version v → valid_version v.
Proof. intros (H1 & H2 & H3 & H4 & H5). unfold valid_version. rewrite H4, H5. by split_and!. Qed.

Lemma wildcard_decimal n : is_u32 n → wildcard (decimal n) = false.
Proof.
  intros Hn. destruct (decimal_spec n Hn) as (Hd & _). unfold wildcard.
  rewrite !orb_false_iff, !bytes_eqb_false.
  split_and!; intros E; rewrite E in Hd; apply Forall_cons in Hd as [Hd _]; vm_compute in Hd; by destruct Hd.
Qed.

Lemma parse_partial_printed v :
  is_release_version v →
  parse_partial (to_string v)
  = Some (MkPartial v (decimal (major v)) (decimal (minor v)) (decimal (patch v))).
Proof.
  intros Hv. pose proof Hv as (HM & Hm & Hp & Epre & Ebuild). unfold parse_partial.
  rewrite parts_printed by by apply release_valid. cbn [mbind option_bind printed_parts p_major p_minor
    p_patch p_prerelease p_build default]. rewrite Epre, Ebuild. unfold uint_component, id.
  rewrite !wildcard_decimal by done.
  destruct (decimal_spec _ HM) as (_ & _ & _ & EM), (decimal_spec _ Hm) as (_ & _ & _ & Em),
    (decimal_spec _ Hp) as (_ & _ & _ & Ep). rewrite EM. cbn [ok_or ok mbind option_bind].
  rewrite Em. cbn [ok_or ok mbind option_bind]. rewrite Ep. cbn. destruct v; cbn in *. by subst.
Qed.

Lemma compare_releases (v w : Version) :
  prerelease v = [] → prerelease w = [] →
  compare (Some v) (Some w)
  = then_with (then_with (Z.compare (major v) (major w)) (Z.compare (minor v) (minor w)))
      (Z.compare (patch v) (patch w)).
Proof.
  intros E1 E2. cbn. rewrite E1, E2. cbn. by destruct (_ ?= _), (_ ?= _), (_ ?= _).
Qed.

Lemma test_between w lo hi :
  prerelease w = [] → prerelease lo = [] → prerelease hi = [] →
  forallb (comparator_test (Some w)) [MkComparator GreaterEqual lo; MkComparator Less hi] = true
  ↔ release_le lo w ∧ ¬ release_le hi w.
Proof.
  intros E1 E2 E3. cbn [forallb]. unfold comparator_test, operator, operand.
  rewrite !compare_releases by done. unfold release_le.
  destruct (Z.compare_spec (major w) (major lo)), (Z.compare_spec (minor w) (minor lo)),
    (Z.compare_spec (patch w) (patch lo)), (Z.compare_spec (major w) (major hi)),
    (Z.compare_spec (minor w) (minor hi)), (Z.compare_spec (patch w) (patch hi)); cbn; split; try done; lia.
Qed.

(** On releases the caret admits exactly the versions that are not below
    the operand and agree with it up to its first non-zero component, and the
    tilde exactly those that agree on major and minor; the whole path from the
    operand's text is covered. *)
Theorem caret_and_tilde v w :
  is_release_version v → bumpable v → is_release_version w →
  (∃ cs, parse_comparator OpCaret (to_string v) = Some cs
     ∧ (forallb (comparator_test (Some w)) cs = true ↔
        release_le v w ∧ major w = major v
        ∧ (major v = 0 → minor w = minor v ∧ (minor v = 0 → patch w = patch v))))
  ∧ (∃ cs, parse_comparator OpTilde (to_string v) = Some cs
     ∧ (forallb (comparator_test (Some w)) cs = true ↔
        release_le v w ∧ major w = major v ∧ minor w = minor v)).
Proof.
  intros Hv (B1 & B2 & B3) Hw. pose proof Hv as (HM & Hm & Hp & Epre & _).
  pose proof Hw as (WM & Wm & Wp & Ewpre & _). unfold is_u32 in *.
  unfold parse_comparator. rewrite parse_partial_printed by done. unfold desugar.
  cbn [fmap option_fmap option_map pv_major pv_minor pv_patch pv_version].
  rewrite !wildcard_decimal by done. rewrite !orb_false_r. split; (eexists; split; [reflexivity|]).
  - destruct (Z.ltb_spec 0 (major v)); [|destruct (Z.ltb_spec 0 (minor v))];
      rewrite test_between by done; unfold release_le; cbn;
      rewrite wrap_u32_id by lia; lia.
  - rewrite test_between by done. unfold release_le; cbn. rewrite wrap_u32_id by lia. lia.
Qed.

Lemma caret_and_tilde_witness :
  (is_release_version (MkVersion 0 2 3 [] []) ∧ is_release_version (MkVersion 0 2 7 [] []))
  ∧ ∃ cs, parse_comparator OpCaret (to_string (MkVersion 0 2 3 [] [])) = Some cs
     ∧ forallb (comparator_test (Some (MkVersion 0 2 7 [] []))) cs = true.
Proof.
  assert (is_release_version (MkVersion 0 2 3 [] [])) as Hv by (unfold is_release_version, is_u32; cbn; split_and!; done).
  assert (is_release_version (MkVersion 0 2 7 [] [])) as Hw by (unfold is_release_version, is_u32; cbn; split_and!; done).
  split; [by split|].
  destruct (proj1 (caret_and_tilde (MkVersion 0 2 3 [] []) (MkVersion 0 2 7 [] []) Hv
    ltac:(unfold bumpable; cbn; lia) Hw)) as (cs & E & [_ H]).
  exists cs. split; [exact E|]. apply H. unfold release_le. cbn. lia.
Defined.
