(* ===== verification/Glob.v ===== *)
(** The language server's glob dialect: [crates/tsr_glob/src/lib.rs]. Patterns and
    inputs are bytes. The matcher indexes without a guard in one arm, so it can
    panic; [None] is that panic.

    What the glob parser and matcher guarantee: parsing ends, printing undoes it,
    and matching panics only on inputs that end in a separator. *)

From S2P Require Import Prelude Wtf8.

Local Open Scope Z_scope.

(** ** Data *)

Inductive Error := StarStarPlacement | UnmatchedBrace | BadRange | InvalidUtf8.

(** A [Glob] is its list of elements. *)
Inductive Element :=
  | Slash
  | Literal (b : bytes)
  | Star
  | AnyChar
  | StarStar
  | Group (members : list (list Element))
  | CharRange (negate : bool) (low high : Z).
Notation Glob := (list Element) (only parsing).

(** ** Printing *)

(** [push_rune]: anything but a scalar value is U+FFFD. *)
Definition push_rune (rune : Z) : bytes :=
  char_encode_utf8
    (if rune <? 0 then RUNE_ERROR else default RUNE_ERROR (char_from_u32 rune)).

Fixpoint element_bytes (e : Element) : bytes :=
  match e with
  | Slash => bs "/"
  | Literal b => b
  | Star => bs "*"
  | AnyChar => bs "?"
  | StarStar => bs "**"
  | Group members =>
      bs "{" ++ join_with (ch ",") (map (λ member, concat (map element_bytes member)) members)
      ++ bs "}"
  | CharRange _ low high => bs "[" ++ push_rune low ++ bs "-" ++ push_rune high ++ bs "]"
  end.
Definition glob_bytes (glob : Glob) : bytes := concat (map element_bytes glob).

(** ** Parsing *)

Definition special (nested : bool) : bytes := if nested then bs "*?{[/}," else bs "*?{[/".

(** The literal in front and the tail. *)
Definition parse_literal (pattern : bytes) (nested : bool) : Element * bytes :=
  let end_ := default (length pattern) (position (λ b, contains_byte b (special nested)) pattern) in
  (Literal (take end_ pattern), drop end_ pattern).

Definition read_range_rune (input : bytes) : result Error (Z * nat) :=
  let '(rune, size) := decode_utf8 input in
  if (rune =? RUNE_ERROR) && (size =? 0)%nat then Err BadRange
  else if (rune =? RUNE_ERROR) && (size =? 1)%nat then Err InvalidUtf8
  else Ok (rune, size).

(** What follows the opening bracket: the range and the tail behind it. *)
Definition parse_range (pattern : bytes) : result Error (Element * bytes) :=
  match pattern with
  | [] => Err BadRange
  | first :: tail =>
      let negate := first =? ch "!" in
      let pattern := if negate then tail else pattern in
      '(low, size) ← read_range_rune pattern;
      pattern ← ok_or BadRange (strip_prefix (bs "-") (drop size pattern));
      '(high, size) ← read_range_rune pattern;
      pattern ← ok_or BadRange (strip_prefix (bs "]") (drop size pattern));
      Ok (CharRange negate low high, pattern)
  end.

Definition is_slash (e : Element) : bool := match e with Slash => true | _ => false end.

(** [**] next to something that is not a separator. *)
Definition misplaced_star_star (elements : Glob) (pattern : bytes) : bool :=
  match last elements with Some e => negb (is_slash e) | None => false end
  || match pattern !! 2%nat with Some b => negb (b =? ch "/") | None => false end.

(** The parser's loop and the loop over a group's members, [pattern] in front of
    a brace or comma there. [None]: out of fuel. *)
Fixpoint parse_loop (fuel : nat) (nested : bool) (elements : Glob) (pattern : bytes)
  : option (result Error (Glob * bytes)) :=
  match fuel, pattern with
  | O, _ => None
  | S _, [] => Some (Ok (elements, []))
  | S fuel, first :: tail =>
      if first =? ch "/" then parse_loop fuel nested (elements ++ [Slash]) tail
      else if (first =? ch "*") && bool_decide (head tail = Some (ch "*")) then
        if misplaced_star_star elements pattern then Some (Err StarStarPlacement)
        else parse_loop fuel nested (elements ++ [StarStar]) (drop 2 pattern)
      else if first =? ch "*" then parse_loop fuel nested (elements ++ [Star]) tail
      else if first =? ch "?" then parse_loop fuel nested (elements ++ [AnyChar]) tail
      else if first =? ch "{" then
        match group_loop fuel [] pattern with
        | Some (Ok (members, pattern)) =>
            parse_loop fuel nested (elements ++ [Group members]) pattern
        | Some (Err e) => Some (Err e)
        | None => None
        end
      else if (first =? ch "}") || (first =? ch ",") then
        if nested then Some (Ok (elements, pattern))
        else
          let '(literal, rest) := parse_literal pattern false in
          parse_loop fuel nested (elements ++ [literal]) rest
      else if first =? ch "[" then
        match parse_range tail with
        | Ok (range, pattern) => parse_loop fuel nested (elements ++ [range]) pattern
        | Err e => Some (Err e)
        end
      else
        let '(literal, rest) := parse_literal pattern nested in
        parse_loop fuel nested (elements ++ [literal]) rest
  end
with group_loop (fuel : nat) (members : list Glob) (pattern : bytes)
  : option (result Error (list Glob * bytes)) :=
  match fuel, pattern with
  | O, _ | S _, [] => None
  | S fuel, first :: tail =>
      if first =? ch "}" then Some (Ok (members, tail))
      else
        match parse_loop fuel true [] tail with
        | Some (Ok (member, rest)) =>
            if bool_decide (rest = []) then Some (Err UnmatchedBrace)
            else group_loop fuel (members ++ [member]) rest
        | Some (Err e) => Some (Err e)
        | None => None
        end
  end.

(** Two steps per byte and one for the end are enough ([parse_total]). *)
Definition parse (pattern : bytes) (nested : bool) : option (result Error (Glob * bytes)) :=
  parse_loop (2 * length pattern + 1) nested [] pattern.

Definition glob_parse (pattern : bytes) : option (result Error Glob) :=
  match parse pattern false with
  | Some (Ok (glob, _)) => Some (Ok glob)
  | Some (Err e) => Some (Err e)
  | None => None
  end.

(** ** Matching *)

(** [iter().position(|b| b != '/')] on a suffix that starts with a separator. *)
Fixpoint skip_slashes (input : bytes) : bytes :=
  match input with
  | b :: rest => if b =? ch "/" then skip_slashes rest else input
  | [] => []
  end.

Definition split (input : bytes) : bytes * bytes :=
  match position (Z.eqb (ch "/")) input with
  | None => (input, [])
  | Some index => (take index input, skip_slashes (drop index input))
  end.

(** [while input[0] == '/']; [None]: the run reaches the end. *)
Fixpoint eat_slashes (input : bytes) : option bytes :=
  match input with
  | [] => None
  | b :: rest => if b =? ch "/" then eat_slashes rest else Some input
  end.

(** [any] over calls that may panic, left to right. *)
Fixpoint any_match {A} (f : A → option bool) (l : list A) : option bool :=
  match l with
  | [] => Some false
  | x :: l => matched ← f x; if matched : bool then Some true else any_match f l
  end.

(** [(0..segment.len()).map(|i| &segment[i..])] *)
Fixpoint suffixes (segment : bytes) : list bytes :=
  match segment with [] => [] | _ :: rest => segment :: suffixes rest end.

(** The inputs the loop of the [**] arm tries: the input and what follows each
    separator run, while not empty. *)
Fixpoint segment_starts (fuel : nat) (input : bytes) : list bytes :=
  match fuel, input with
  | S fuel, _ :: _ => input :: segment_starts fuel (split input).2
  | _, _ => []
  end.

(** Elements up to the first separator, and the rest. *)
Definition split_elements (elements : Glob) : Glob * Glob :=
  let end_ := default (length elements) (position is_slash elements) in
  (take end_ elements, drop end_ elements).

(** Each recursive call is on smaller elements: their size is enough fuel
    ([match_elements_no_panic]). *)
Fixpoint match_fuel (fuel : nat) (elements : Glob) (input : bytes) : option bool :=
  match fuel, elements with
  | O, _ => None
  | S _, [] => Some (bool_decide (input = []))
  | S fuel, element :: elements =>
      match element with
      | Slash =>
          if bool_decide (head input = Some (ch "/")) then
            input ← eat_slashes input;
            match_fuel fuel elements input
          else Some false
      | StarStar =>
          let elements := drop 1 elements in
          if bool_decide (length elements = 0%nat) then Some true
          else any_match (match_fuel fuel elements) (segment_starts (length input) input)
      | Literal b =>
          match strip_prefix b input with
          | Some rest => match_fuel fuel elements rest
          | None => Some false
          end
      | Star =>
          let '(segment, rest) := split input in
          let '(segment_elements, remaining) := split_elements elements in
          if bool_decide (length segment_elements = 0%nat) then match_fuel fuel remaining rest
          else
            matched ← any_match (match_fuel fuel segment_elements) (suffixes segment);
            if matched : bool then match_fuel fuel remaining rest else Some false
      | AnyChar =>
          match input with
          | b :: rest => if b =? ch "/" then Some false else match_fuel fuel elements rest
          | [] => Some false
          end
      | Group members =>
          any_match (λ member, match_fuel fuel (member ++ elements) input) members
      | CharRange _ low high =>
          match input with
          | b :: _ =>
              if b =? ch "/" then Some false
              else
                let '(rune, size) := decode_utf8 input in
                if (rune <? low) || (high <? rune) then Some false
                else match_fuel fuel elements (drop size input)
          | [] => Some false
          end
      end
  end.

Fixpoint element_size (e : Element) : nat :=
  match e with
  | Group members => S (list_sum (map (λ member, list_sum (map element_size member)) members))
  | _ => 1
  end.
Definition glob_size (glob : Glob) : nat := list_sum (map element_size glob).

Definition match_elements (elements : Glob) (input : bytes) : option bool :=
  match_fuel (S (glob_size elements)) elements input.

Definition glob_matches (pattern input : bytes) : option bool :=
  match glob_parse pattern with
  | Some (Ok glob) => match_elements glob input
  | _ => None
  end.

(** * Parsing, printing and matching *)

(** ** The parser ends *)

Lemma parse_literal_spec pattern nested :
  ∃ lit rest, parse_literal pattern nested = (Literal lit, rest) ∧ pattern = lit ++ rest
    ∧ (∀ b t, pattern = b :: t → contains_byte b (special nested) = false → lit ≠ []).
Proof.
  unfold parse_literal. eexists _, _. split; [done|]. split; [by rewrite take_drop|].
  intros b t -> Hb. cbn [position]. rewrite Hb.
  by destruct (position _ t).
Qed.

Lemma not_special b nested :
  (b =? ch "/") = false → (b =? ch "*") = false → (b =? ch "?") = false → (b =? ch "{") = false →
  (b =? ch "}") = false → (b =? ch ",") = false → (b =? ch "[") = false →
  contains_byte b (special nested) = false.
Proof.
  intros. unfold contains_byte, special. destruct nested; cbn [bs existsb fmap list_fmap
    String.list_ascii_of_string]; by repeat (apply orb_false_iff; split).
Qed.

Lemma read_range_rune_ok input low size :
  read_range_rune input = Ok (low, size) →
  decode_utf8 input = (low, size) ∧ ¬ (low = RUNE_ERROR ∧ (size = 0 ∨ size = 1)%nat).
Proof.
  unfold read_range_rune. destruct (decode_utf8 input) as [r s].
  destruct (_ && (s =? 0)%nat) eqn:E1; [done|]. destruct (_ && (s =? 1)%nat) eqn:E2; [done|].
  intros [= <- <-]. split; [done|].
  rewrite andb_false_iff, Z.eqb_neq, Nat.eqb_neq in E1, E2. intros [-> [->| ->]]; tauto.
Qed.

(** The text of a range: marker, bounds, and what follows. *)
Lemma parse_range_spec pattern e rest :
  parse_range pattern = Ok (e, rest) →
  ∃ negate low high sl sh body,
    e = CharRange negate low high
    ∧ pattern = (if negate then bs "!" else []) ++ body
    ∧ read_range_rune body = Ok (low, sl)
    ∧ read_range_rune (drop 1 (drop sl body)) = Ok (high, sh)
    ∧ drop sl body = bs "-" ++ drop 1 (drop sl body)
    ∧ drop sh (drop 1 (drop sl body)) = bs "]" ++ rest.
Proof.
  unfold parse_range. destruct pattern as [|b tail]; [done|].
  set (negate := b =? ch "!"). set (body := if negate then tail else b :: tail).
  cbn [mbind result_bind]. destruct (read_range_rune body) as [[low sl]|] eqn:E1; [|done].
  cbn [mbind result_bind]. destruct (strip_prefix (bs "-") (drop sl body)) as [p2|] eqn:E2; [|done].
  cbn [mbind result_bind ok_or]. destruct (read_range_rune p2) as [[high sh]|] eqn:E3; [|done].
  cbn [mbind result_bind]. destruct (strip_prefix (bs "]") (drop sh p2)) as [p3|] eqn:E4; [|done].
  cbn [mbind result_bind ok_or]. intros [= <- <-].
  apply strip_prefix_Some in E2 as E2', E4 as E4'.
  assert (drop 1 (drop sl body) = p2) as Ed by (by rewrite E2').
  exists negate, low, high, sl, sh, body. rewrite Ed. split_and!; [done| |done..].
  unfold body. destruct negate eqn:En; [|done]. unfold negate in En. apply Z.eqb_eq in En as ->. done.
Qed.

Lemma parse_range_shorter pattern e rest :
  parse_range pattern = Ok (e, rest) → (length rest < length pattern)%nat.
Proof.
  intros (negate & low & high & sl & sh & body & _ & -> & _ & _ & E1 & E2)%parse_range_spec.
  apply (f_equal length) in E1, E2. rewrite !length_app, ?length_drop in *. cbn in *. lia.
Qed.

Lemma parse_range_suffix pattern e rest :
  parse_range pattern = Ok (e, rest) → rest `suffix_of` pattern.
Proof.
  intros (negate & low & high & sl & sh & body & _ & -> & _ & _ & E1 & E2)%parse_range_spec.
  set (d1 := drop 1 (drop sl body)) in *.
  exists ((if negate then bs "!" else []) ++ take sl body ++ bs "-" ++ take sh d1 ++ bs "]").
  rewrite <-!app_assoc, <-E2, take_drop, <-E1, take_drop. done.
Qed.

(** Two steps of fuel per byte. *)
Lemma parse_fuel_enough fuel :
  (∀ nested elements pattern, (2 * length pattern + 1 <= fuel)%nat →
     ∃ r, parse_loop fuel nested elements pattern = Some r
       ∧ ∀ g rest, r = Ok (g, rest) → (length rest <= length pattern)%nat)
  ∧ (∀ members pattern, (2 * length pattern <= fuel)%nat → pattern ≠ [] →
     ∃ r, group_loop fuel members pattern = Some r
       ∧ ∀ ms rest, r = Ok (ms, rest) → (length rest < length pattern)%nat).
Proof.
  induction fuel as [|fuel [IHp IHg]].
  { split; intros; [lia|]. destruct pattern; [done|simpl in *; lia]. }
  assert (∀ nested elements (pattern p' : bytes), (2 * length pattern + 1 <= S fuel)%nat →
    (length p' < length pattern)%nat → ∃ r, parse_loop fuel nested elements p' = Some r
       ∧ ∀ g rest, r = Ok (g, rest) → (length rest <= length pattern)%nat) as Hnext.
  { intros nested elements pattern p' Hf Hlt. destruct (IHp nested elements p') as (r & E & Hr); [lia|].
    exists r. split; [done|]. intros g rest ->. specialize (Hr _ _ eq_refl). lia. }
  split.
  - intros nested elements [|b tail] Hf; cbn [parse_loop].
    { eexists. split; [done|]. intros g rest [= _ <-]. simpl. lia. }
    destruct (b =? ch "/") eqn:E1; [by apply (Hnext _ _ (b :: tail)); [|simpl; lia]|].
    destruct (_ && _) eqn:E2.
    { destruct (misplaced_star_star _ _); [by eexists|].
      destruct tail as [|c tail]; [by rewrite bool_decide_false, andb_false_r in E2|].
      apply (Hnext _ _ (b :: c :: tail)); [done|]. rewrite length_drop. simpl. lia. }
    destruct (b =? ch "*") eqn:E3; [by apply (Hnext _ _ (b :: tail)); [|simpl; lia]|].
    destruct (b =? ch "?") eqn:E4; [by apply (Hnext _ _ (b :: tail)); [|simpl; lia]|].
    destruct (b =? ch "{") eqn:E5.
    { destruct (IHg [] (b :: tail)) as (r & -> & Hr); [simpl in *; lia|done|].
      destruct r as [[ms p']|]; [|by eexists]. apply (Hnext _ _ (b :: tail)); [done|by eapply Hr]. }
    destruct (_ || _) eqn:E6.
    { destruct nested.
      - eexists. split; [done|]. by intros g rest [= _ <-].
      - destruct (parse_literal_spec (b :: tail) false) as (lit & rest & -> & Hsplit & Hlit).
        apply (Hnext _ _ (b :: tail)); [done|].
        assert (lit ≠ []).
        { apply (Hlit b tail eq_refl). apply orb_true_iff in E6 as [->%Z.eqb_eq| ->%Z.eqb_eq]; done. }
        rewrite Hsplit, length_app. destruct lit; [done|simpl; lia]. }
    destruct (b =? ch "[") eqn:E7.
    { destruct (parse_range tail) as [[e p']|] eqn:E; [|by eexists].
      apply parse_range_shorter in E. apply (Hnext _ _ (b :: tail)); [done|simpl; lia]. }
    destruct (parse_literal_spec (b :: tail) nested) as (lit & rest & -> & Hsplit & Hlit).
    apply (Hnext _ _ (b :: tail)); [done|].
    assert (lit ≠ []).
    { apply (Hlit b tail eq_refl). apply orb_false_iff in E6 as [E6 E6'].
      by apply not_special. }
    rewrite Hsplit, length_app. destruct lit; [done|simpl; lia].
  - intros members [|b tail] Hf Hne; [done|]. cbn [group_loop].
    destruct (b =? ch "}"); [eexists; split; [done|]; intros ms rest [= _ <-]; simpl; lia|].
    destruct (IHp true [] tail) as (r & -> & Hr); [simpl in *; lia|].
    destruct r as [[m rest]|]; [|by eexists]. specialize (Hr _ _ eq_refl).
    destruct (bool_decide_reflect (rest = [])); [by eexists|].
    destruct (IHg (members ++ [m]) rest) as (r & E & Hr'); [simpl in *; lia|done|].
    exists r. split; [done|]. intros ms rest' ->. specialize (Hr' _ _ eq_refl). simpl. lia.
Qed.

(** ** Printing undoes parsing *)

Fixpoint no_negate (e : Element) : bool :=
  match e with
  | CharRange negate _ _ => negb negate
  | Group members => forallb (λ member, forallb no_negate member) members
  | _ => true
  end.

Lemma glob_bytes_app a b : glob_bytes (a ++ b) = glob_bytes a ++ glob_bytes b.
Proof. unfold glob_bytes. by rewrite map_app, concat_app. Qed.

Lemma glob_bytes_one e : glob_bytes [e] = element_bytes e.
Proof. unfold glob_bytes. simpl. by rewrite app_nil_r. Qed.

Lemma push_rune_scalar c : scalar c → push_rune c = utf8_arith c.
Proof.
  intros [Hc Hs]. unfold code_point in Hc. unfold push_rune.
  destruct (Z.ltb_spec c 0); [lia|]. unfold char_from_u32. rewrite Hs.
  destruct (Z.leb_spec c 0x10ffff); [|lia]. cbn. apply char_encode_utf8_arith. lia.
Qed.

Lemma range_rune_bytes input rune size :
  all_bytes input → read_range_rune input = Ok (rune, size) → input = push_rune rune ++ drop size input.
Proof.
  intros Hb [Hd Hne]%read_range_rune_ok.
  assert (input ≠ []) as Hnil by (intros ->; apply Hne; injection Hd as <- <-; auto).
  destruct (decode_utf8_inv input Hb Hnil) as [E|(c & rest & Hc & E)].
  - rewrite Hd in E. injection E as -> ->. destruct Hne; auto.
  - rewrite E, decode_utf8_encoded in Hd by done. injection Hd as <- <-.
    rewrite push_rune_scalar, E, drop_app_length by done. done.
Qed.

Lemma range_bytes pattern e rest :
  all_bytes pattern → parse_range pattern = Ok (e, rest) → no_negate e = true →
  bs "[" ++ pattern = element_bytes e ++ rest.
Proof.
  intros Hb (negate & low & high & sl & sh & body & -> & -> & R1 & R2 & E1 & E2)%parse_range_spec Hn.
  cbn [no_negate] in Hn. apply negb_true_iff in Hn as ->. cbn [app] in *.
  apply range_rune_bytes in R1; [|done].
  apply range_rune_bytes in R2; [|by apply Forall_drop, Forall_drop].
  cbn [element_bytes]. rewrite R1, E1, R2, E2. by rewrite <-!app_assoc.
Qed.

Definition stops_at (nested : bool) (rest : bytes) : Prop :=
  rest = [] ∨ nested = true ∧ ∃ b t, rest = b :: t ∧ (b = ch "}" ∨ b = ch ",").

Definition prints_loop (fuel : nat) : Prop :=
  ∀ nested elements pattern g rest,
    all_bytes pattern → parse_loop fuel nested elements pattern = Some (Ok (g, rest)) →
    ∃ new, g = elements ++ new ∧ stops_at nested rest ∧ rest `suffix_of` pattern
      ∧ (forallb no_negate new = true → pattern = glob_bytes new ++ rest).

Definition prints_group (fuel : nat) : Prop :=
  ∀ members pattern ms rest,
    all_bytes pattern → group_loop fuel members pattern = Some (Ok (ms, rest)) →
    ∃ new, ms = members ++ new ∧ rest `suffix_of` pattern ∧ ∃ b tail, pattern = b :: tail
      ∧ (forallb (forallb no_negate) new = true →
         if b =? ch "}" then new = [] ∧ tail = rest
         else new ≠ [] ∧ tail = join_with (ch ",") (map glob_bytes new) ++ bs "}" ++ rest).

(** One more element in front of what the rest of the loop reads. *)
Lemma prints_step fuel nested elements e pattern tail g rest :
  prints_loop fuel → all_bytes pattern → tail `suffix_of` pattern →
  parse_loop fuel nested (elements ++ [e]) tail = Some (Ok (g, rest)) →
  (no_negate e = true → pattern = element_bytes e ++ tail) →
  ∃ new, g = elements ++ new ∧ stops_at nested rest ∧ rest `suffix_of` pattern
    ∧ (forallb no_negate new = true → pattern = glob_bytes new ++ rest).
Proof.
  intros IH Hb Hsuf Hp He.
  assert (all_bytes tail) as Hbt by (destruct Hsuf as [k ->]; by apply Forall_app in Hb as [_ ?]).
  destruct (IH _ _ _ _ _ Hbt Hp) as (new & -> & Hs & Hsuf' & Hnew).
  exists (e :: new). split_and!; [by rewrite <-app_assoc|done|by etrans|].
  cbn [forallb]. intros [H1 H2]%andb_true_iff. rewrite He, Hnew by done.
  change (e :: new) with ([e] ++ new). by rewrite glob_bytes_app, glob_bytes_one, <-app_assoc.
Qed.

Lemma suffix_tail {A} (b : A) tail rest : rest `suffix_of` tail → rest `suffix_of` (b :: tail).
Proof. intros [k ->]. by exists (b :: k). Qed.

Lemma prints_fuel fuel : prints_loop fuel ∧ prints_group fuel.
Proof.
  induction fuel as [|fuel [IHp IHg]]; [split; [by intros ? ? ? ? ? _ [=]|by intros ? [|??] ? ? _ [=]]|]. split.
  - intros nested elements [|b tail] g rest Hb E; cbn [parse_loop] in E.
    { injection E as <- <-. exists []. rewrite app_nil_r. split_and!; [done|by left|done|done]. }
    assert (tail `suffix_of` (b :: tail)) as Htail by (by exists [b]).
    destruct (Z.eqb_spec b (ch "/")) as [->|N1]; [by eapply (prints_step _ _ _ _ _ _ _ _ IHp Hb Htail E)|].
    destruct (_ && bool_decide _) eqn:E2.
    { destruct (misplaced_star_star _ _); [done|].
      apply andb_true_iff in E2 as [->%Z.eqb_eq E2%bool_decide_eq_true].
      destruct tail as [|c tail]; [done|]. injection E2 as ->.
      eapply prints_step; [done..| |done|done]. by exists [ch "*"; ch "*"]. }
    destruct (Z.eqb_spec b (ch "*")) as [->|N3]; [by eapply (prints_step _ _ _ _ _ _ _ _ IHp Hb Htail E)|].
    destruct (Z.eqb_spec b (ch "?")) as [->|N4]; [by eapply (prints_step _ _ _ _ _ _ _ _ IHp Hb Htail E)|].
    destruct (Z.eqb_spec b (ch "{")) as [->|N5].
    { destruct (group_loop fuel [] (ch "{" :: tail)) as [[[ms p']|]|] eqn:Eg; [|done..].
      destruct (IHg _ _ _ _ Hb Eg) as (new & -> & Hsg & b' & tail' & [= <- <-] & Hnew). cbn [app] in *.
      eapply prints_step; [done..|]. intros Hn. cbn [no_negate] in Hn. specialize (Hnew Hn).
      destruct Hnew as [_ ->]. cbn [element_bytes]. by rewrite <-!app_assoc. }
    destruct (_ || _) eqn:E6.
    { destruct nested.
      - injection E as <- <-. exists []. rewrite app_nil_r. split_and!; [done| |done|done].
        right. split; [done|]. eexists _, _. split; [done|].
        apply orb_true_iff in E6 as [->%Z.eqb_eq| ->%Z.eqb_eq]; auto.
      - destruct (parse_literal_spec (b :: tail) false) as (lit & rest' & El & Hsplit & _).
        rewrite El in E. eapply prints_step; [done|done| |done|done]. rewrite Hsplit. by exists lit. }
    destruct (Z.eqb_spec b (ch "[")) as [->|N7].
    { destruct (parse_range tail) as [[e p']|] eqn:Er; [|done]. apply Forall_cons in Hb as Hb'. destruct Hb' as [_ Hb'].
      eapply prints_step; [done|done| |done|]; [|intros Hn; by apply (range_bytes tail)].
      apply suffix_tail. by eapply parse_range_suffix. }
    destruct (parse_literal_spec (b :: tail) nested) as (lit & rest' & El & Hsplit & _).
    rewrite El in E. eapply prints_step; [done|done| |done|done]. rewrite Hsplit. by exists lit.
  - intros members [|b tail] ms rest Hb E; cbn [group_loop] in E; [done|].
    destruct (Z.eqb_spec b (ch "}")) as [->|N].
    { injection E as <- <-. exists []. rewrite app_nil_r. split_and!; [done|by apply suffix_tail|].
      by exists (ch "}"), tail. }
    apply Forall_cons in Hb as [_ Hb].
    destruct (parse_loop fuel true [] tail) as [[[m p']|]|] eqn:Em; [|done..].
    destruct (IHp _ _ _ _ _ Hb Em) as (new & -> & Hs & Hsp & Hnew). cbn [app] in *.
    destruct (bool_decide_reflect (p' = [])) as [|Hne]; [done|].
    destruct Hs as [|(_ & c & t & -> & Hc)]; [done|].
    assert (all_bytes (c :: t)) as Hbt by (destruct Hsp as [k ->]; by apply Forall_app in Hb as [_ ?]).
    destruct (IHg _ _ _ _ Hbt E) as (new' & -> & Hsg & c' & t' & [= <- <-] & Hnew').
    exists (new :: new'). split; [by rewrite <-app_assoc|].
    split; [by apply suffix_tail; etrans|]. exists b, tail. split; [done|].
    cbn [forallb]. intros [H1 H2]%andb_true_iff. apply Z.eqb_neq in N as ->. split; [done|].
    specialize (Hnew H1). specialize (Hnew' H2). rewrite Hnew. cbn [map].
    destruct (Z.eqb_spec c (ch "}")) as [->|Nc].
    + destruct Hnew' as [-> ->]. cbn. done.
    + destruct Hnew' as [Hne' ->]. destruct Hc as [| ->]; [done|].
      destruct new' as [|n ns]; [done|]. cbn [map join_with]. by rewrite <-app_assoc.
Qed.

(** [C34] Parsing always ends, and printing a parsed glob writes the pattern
    back byte for byte, nested groups and empty members included, unless it has
    a negated range: the mark of [\[!a-z\]] is the one thing printing loses. *)
Theorem glob_parse_print pattern :
  all_bytes pattern →
  ∃ r, glob_parse pattern = Some r
    ∧ ∀ g, r = Ok g → forallb no_negate g = true → glob_bytes g = pattern.
Proof.
  intros Hb. unfold glob_parse, parse.
  destruct (proj1 (parse_fuel_enough (2 * length pattern + 1)) false [] pattern) as (r & E & _); [done|].
  rewrite E. destruct r as [[g rest]|e]; (eexists; split; [done|]); [|done].
  intros g' [= <-] Hn. destruct (proj1 (prints_fuel _) _ _ _ _ _ Hb E) as (new & -> & Hs & _ & Hnew).
  destruct Hs as [->|[? _]]; [|done]. rewrite Hnew by done. by rewrite app_nil_r.
Qed.

Lemma glob_parse_print_witness :
  all_bytes (bs "src/**/{a,b[x-z]{,?}}*.ts")
  ∧ ∃ r, glob_parse (bs "src/**/{a,b[x-z]{,?}}*.ts") = Some r
    ∧ ∀ g, r = Ok g → forallb no_negate g = true → glob_bytes g = bs "src/**/{a,b[x-z]{,?}}*.ts".
Proof.
  assert (all_bytes (bs "src/**/{a,b[x-z]{,?}}*.ts")) as H by apply bs_all_bytes.
  split; [exact H|]. exact (glob_parse_print _ H).
Defined.

(** ** Matching *)

(** No separator at the end. *)
Definition open_ended (input : bytes) : Prop := last input ≠ Some (ch "/").

Lemma open_ended_suffix a b : open_ended (a ++ b) → open_ended b.
Proof. unfold open_ended. destruct b as [|x b]; [done|]. by rewrite last_app_cons. Qed.

Lemma open_ended_suffix_of s t : s `suffix_of` t → open_ended t → open_ended s.
Proof. intros [k ->]. apply open_ended_suffix. Qed.

Lemma eat_slashes_some input :
  open_ended input → input ≠ [] → ∃ rest, eat_slashes input = Some rest ∧ rest `suffix_of` input.
Proof.
  induction input as [|b input IH]; intros Ho Hne; [done|]. cbn [eat_slashes].
  destruct (Z.eqb_spec b (ch "/")) as [->|]; [|by exists (b :: input)].
  destruct (decide (input = [])) as [->|Hn]; [by destruct Ho|].
  destruct IH as (rest & E & Hs); [by apply (open_ended_suffix [ch "/"])|done|].
  exists rest. split; [done|]. by apply suffix_tail.
Qed.

Lemma skip_slashes_suffix input : skip_slashes input `suffix_of` input.
Proof.
  induction input as [|b input IH]; [done|]. cbn [skip_slashes]. destruct (b =? ch "/"); [|done].
  by apply suffix_tail.
Qed.

Lemma split_spec input :
  Forall (λ b, b ≠ ch "/") (split input).1 ∧ (split input).2 `suffix_of` input
  ∧ (input ≠ [] → (length (split input).2 < length input)%nat).
Proof.
  unfold split. destruct (position (Z.eqb (ch "/")) input) as [i|] eqn:E; cbn [fst snd].
  - apply position_Some in E as (x & Hx & Hsx & Hall). apply Z.eqb_eq in Hsx as <-.
    apply lookup_lt_Some in Hx as Hlt. split_and!.
    + apply (Forall_impl _ _ _ Hall). intros y Hy%Z.eqb_neq. congruence.
    + etrans; [apply skip_slashes_suffix|]. exists (take i input). by rewrite take_drop.
    + intros _. rewrite (drop_S _ _ _ Hx). cbn [skip_slashes]. rewrite Z.eqb_refl.
      destruct (skip_slashes_suffix (drop (S i) input)) as [k Ek].
      apply (f_equal length) in Ek. rewrite length_app, length_drop in Ek. lia.
  - apply position_None in E. split_and!.
    + apply (Forall_impl _ _ _ E). intros y Hy%Z.eqb_neq. congruence.
    + by exists input; rewrite app_nil_r.
    + intros Hne. destruct input; [done|]. simpl. lia.
Qed.

Lemma suffixes_suffix segment s : s ∈ suffixes segment → s `suffix_of` segment.
Proof.
  induction segment as [|b segment IH]; simpl; [by intros ?%not_elem_of_nil|].
  intros [->|Hs]%elem_of_cons; [done|]. by apply suffix_tail, IH.
Qed.

Lemma segment_starts_suffix fuel input s : s ∈ segment_starts fuel input → s `suffix_of` input.
Proof.
  revert input; induction fuel as [|fuel IH]; intros input; simpl; [by intros ?%not_elem_of_nil|].
  destruct input as [|b input]; [by intros ?%not_elem_of_nil|].
  intros [->|Hs]%elem_of_cons; [done|]. etrans; [by apply IH|]. apply split_spec.
Qed.

Lemma no_slash_open segment : Forall (λ b, b ≠ ch "/") segment → open_ended segment.
Proof.
  unfold open_ended. intros H. destruct (last segment) as [x|] eqn:E; [|done].
  apply last_Some in E as [l ->]. apply Forall_app in H as [_ H]. inversion H. congruence.
Qed.

Lemma glob_size_app a b : glob_size (a ++ b) = (glob_size a + glob_size b)%nat.
Proof. unfold glob_size. rewrite map_app. induction (map element_size a); simpl; lia. Qed.

Lemma glob_size_take_drop n g : (glob_size (take n g) <= glob_size g ∧ glob_size (drop n g) <= glob_size g)%nat.
Proof. rewrite <-(take_drop n g) at 2 4. rewrite glob_size_app. lia. Qed.

Lemma member_size m ms : m ∈ ms → (glob_size m < element_size (Group ms))%nat.
Proof.
  intros Hm. cbn [element_size]. fold glob_size. change (λ member, list_sum (map element_size member)) with glob_size.
  induction ms as [|x ms IH]; [by apply not_elem_of_nil in Hm|]. simpl.
  apply elem_of_cons in Hm as [->|Hm]; [lia|]. specialize (IH Hm). lia.
Qed.

Lemma any_match_some {A} (f : A → option bool) l :
  (∀ x, x ∈ l → is_Some (f x)) → is_Some (any_match f l).
Proof.
  induction l as [|x l IH]; intros H; [by eexists|]. simpl.
  destruct (H x) as [b ->]; [by left|]. cbn. destruct b; [by eexists|]. apply IH. intros y Hy. apply H. by right.
Qed.

Lemma match_fuel_some fuel elements input :
  (glob_size elements < fuel)%nat → open_ended input → is_Some (match_fuel fuel elements input).
Proof.
  revert elements input; induction fuel as [|fuel IH]; intros elements input Hf Ho; [lia|].
  destruct elements as [|e elements]; [by eexists|]. cbn [match_fuel].
  change (glob_size (e :: elements)) with (element_size e + glob_size elements)%nat in Hf.
  destruct e as [|b| | | |ms|negate low high].
  - case_bool_decide as Hh; [|by eexists]. assert (input ≠ []) as Hne by (by intros ->).
    destruct (eat_slashes_some input Ho Hne) as (rest & -> & Hs). cbn.
    apply IH; [simpl in *; lia|by eapply open_ended_suffix_of].
  - destruct (strip_prefix b input) as [rest|] eqn:E; [|by eexists].
    apply strip_prefix_Some in E as ->. apply IH; [simpl in *; lia|by eapply open_ended_suffix].
  - destruct (split_spec input) as (Hseg & Hrest & _). destruct (split input) as [segment rest].
    cbn [fst snd] in *. unfold split_elements.
    set (n := default (length elements) (position is_slash elements)).
    destruct (glob_size_take_drop n elements) as [Ht Hd].
    assert (is_Some (match_fuel fuel (drop n elements) rest)) as Hcont.
    { apply IH; [simpl in *; lia|by eapply open_ended_suffix_of]. }
    case_bool_decide; [done|].
    destruct (any_match_some (match_fuel fuel (take n elements)) (suffixes segment)) as [b ->].
    { intros s Hs%suffixes_suffix. apply IH; [simpl in *; lia|].
      eapply open_ended_suffix_of; [done|]. by apply no_slash_open. }
    cbn. destruct b; [done|by eexists].
  - destruct input as [|b input]; [by eexists|]. destruct (b =? ch "/"); [by eexists|].
    apply IH; [simpl in *; lia|by apply (open_ended_suffix [b])].
  - case_bool_decide; [by eexists|]. apply any_match_some. intros s Hs%segment_starts_suffix.
    apply IH; [|by eapply open_ended_suffix_of]. pose proof (glob_size_take_drop 1 elements). simpl in *; lia.
  - apply any_match_some. intros m Hm%member_size. apply IH; [rewrite glob_size_app; lia|done].
  - destruct input as [|b input]; [by eexists|]. destruct (b =? ch "/"); [by eexists|].
    destruct (decode_utf8 (b :: input)) as [rune size]. destruct (_ || _); [by eexists|].
    apply IH; [simpl in *; lia|]. eapply open_ended_suffix_of; [|exact Ho].
    exists (take size (b :: input)). by rewrite take_drop.
Qed.

(** The matcher ends and does not panic on any input that does not end in
    a separator, for every glob: the unguarded loop of the separator arm can
    only run off an input whose last byte is a slash. *)
Theorem match_elements_no_panic elements input :
  open_ended input → is_Some (match_elements elements input).
Proof. intros Ho. apply match_fuel_some; [lia|done]. Qed.

Lemma match_elements_no_panic_witness :
  open_ended (bs "a//b.ts") ∧ is_Some (match_elements [Literal (bs "a"); Slash; Star] (bs "a//b.ts")).
Proof.
  assert (open_ended (bs "a//b.ts")) as H by (vm_compute; discriminate).
  split; [exact H|]. exact (match_elements_no_panic [Literal (bs "a"); Slash; Star] _ H).
Defined.

(** The panic of the separator arm, and a star that cannot meet the separator
    behind it, because splitting the segment off consumes the separator too. *)
Example match_panics : glob_matches (bs "a/") (bs "a/") = None.
Proof. reflexivity. Qed.

Lemma skip_slashes_head input : head (skip_slashes input) ≠ Some (ch "/").
Proof.
  induction input as [|b input IH]; [done|]. cbn [skip_slashes].
  destruct (Z.eqb_spec b (ch "/")); [done|]. cbn. congruence.
Qed.

Lemma split_rest_head input : head (split input).2 ≠ Some (ch "/").
Proof.
  unfold split. destruct (position _ input); cbn [snd]; [apply skip_slashes_head|done].
Qed.

Lemma split_elements_at pre post :
  Forall (λ e, is_slash e = false) pre → split_elements (pre ++ Slash :: post) = (pre, Slash :: post).
Proof.
  intros Hp. unfold split_elements.
  assert (position is_slash (pre ++ Slash :: post) = Some (length pre)) as ->.
  { induction Hp as [|e pre He Hp IH]; [done|]. simpl. by rewrite He, IH. }
  cbn. by rewrite take_app_length, drop_app_length.
Qed.

(** A star before a separator of the same group level matches nothing at
    all: the segment is split off together with the separators behind it, and
    the separator element then finds none. *)
Theorem star_cannot_meet_separator pre post input :
  Forall (λ e, is_slash e = false) pre →
  match_elements (Star :: pre ++ Slash :: post) input = Some false.
Proof.
  intros Hp. unfold match_elements.
  change (glob_size (Star :: pre ++ Slash :: post)) with (S (glob_size (pre ++ Slash :: post))).
  assert (glob_size (pre ++ Slash :: post) < S (glob_size (pre ++ Slash :: post)))%nat as Hf by lia.
  revert Hf. generalize (glob_size (pre ++ Slash :: post)) at 2 3 as fuel. intros fuel Hf.
  remember (S fuel) as n eqn:En. cbn [match_fuel].
  destruct (split_spec input) as (Hseg & _). pose proof (split_rest_head input) as Hh.
  destruct (split input) as [segment rest]. cbn [fst snd] in *. rewrite split_elements_at by done.
  assert (match_fuel n (Slash :: post) rest = Some false) as Hno.
  { subst n. cbn [match_fuel]. by rewrite bool_decide_false. }
  rewrite Hno. case_bool_decide; [done|].
  destruct (any_match_some (match_fuel n pre) (suffixes segment)) as [b ->].
  { intros s Hs%suffixes_suffix. apply match_fuel_some; [rewrite glob_size_app in Hf; lia|].
    eapply open_ended_suffix_of; [done|]. by apply no_slash_open. }
  by destruct b.
Qed.

Lemma star_cannot_meet_separator_witness :
  Forall (λ e, is_slash e = false) [Literal (bs ".d")]
  ∧ match_elements (Star :: [Literal (bs ".d")] ++ [Slash; Literal (bs "b")]) (bs "a.d/b") = Some false.
Proof.
  assert (Forall (λ e, is_slash e = false) [Literal (bs ".d")]) as H by by repeat constructor.
  split; [exact H|]. exact (star_cannot_meet_separator _ [Literal (bs "b")] (bs "a.d/b") H).
Defined.
