(* ===== verification/GoSort.v ===== *)
(** The pattern-defeating quicksort of [crates/tsr_core/src/go_sort.rs], which
    keeps the comparison and swap order of Go's [slices.SortFunc].

    The slice is a list; an index out of range and a subtraction below zero are
    [None], the panic they are in the source. Loops take fuel, and running out
    of it is [None] as well, so that the theorem of [GoSortProps.v] that a sort
    is never [None] says both that it does not panic and that it ends. *)

From S2P Require Import Prelude.

Local Open Scope nat_scope.

Section GoSort.
Context {A : Type} (compare : A → A → comparison).

(** [compare(&data[i], &data[j]).is_lt()] *)
Definition lt_at (data : list A) (i j : nat) : option bool :=
  x ← data !! i; y ← data !! j;
  Some (match compare x y with Lt => true | _ => false end).

(** [data.swap(i, j)] *)
Definition swap (data : list A) (i j : nat) : option (list A) :=
  x ← data !! i; y ← data !! j; Some (<[i := y]> (<[j := x]> data)).

(** [j -= 1] on a [usize] *)
Definition decrement (j : nat) : option nat := match j with O => None | S j => Some j end.

(** [for i in indices { data = body(data, i) }] *)
Fixpoint for_each (indices : list nat) (body : list A → nat → option (list A)) (data : list A)
  : option (list A) :=
  match indices with
  | [] => Some data
  | i :: indices => data ← body data i; for_each indices body data
  end.

(** ** Insertion sort and heap sort *)

Fixpoint insertion_shift (data : list A) (a j : nat) : option (list A) :=
  match j with
  | O => Some data
  | S j' =>
      if a <? j then
        less ← lt_at data j j';
        if less : bool
        then data ← swap data j j'; insertion_shift data a j'
        else Some data
      else Some data
  end.

Definition insertion_sort (data : list A) (a b : nat) : option (list A) :=
  for_each (seq (a + 1) (b - (a + 1))) (λ data i, insertion_shift data a i) data.

Fixpoint sift_down_loop (fuel : nat) (data : list A) (root hi first : nat) : option (list A) :=
  match fuel with
  | O => None
  | S fuel =>
      let child := 2 * root + 1 in
      if hi <=? child then Some data
      else
        right ← (if child + 1 <? hi then lt_at data (first + child) (first + child + 1)
                 else Some false);
        let child := if right : bool then child + 1 else child in
        less ← lt_at data (first + root) (first + child);
        if negb less then Some data
        else
          data ← swap data (first + root) (first + child);
          sift_down_loop fuel data child hi first
  end.

Definition sift_down (data : list A) (lo hi first : nat) : option (list A) :=
  sift_down_loop (S hi) data lo hi first.

Definition heap_sort (data : list A) (a b : nat) : option (list A) :=
  let length := b - a in
  data ← for_each (rev (seq 0 (S ((length - 1) / 2))))
           (λ data i, sift_down data i length a) data;
  for_each (rev (seq 0 length))
    (λ data i, data ← swap data a (a + i); sift_down data 0 i a) data.

(** ** Partitioning *)

(** [while i <= j && test(i) { i += 1 }] *)
Fixpoint while_up (fuel : nat) (test : nat → option bool) (i j : nat) : option nat :=
  match fuel with
  | O => None
  | S fuel =>
      if i <=? j then
        more ← test i;
        if more : bool then while_up fuel test (i + 1) j else Some i
      else Some i
  end.

(** [while i <= j && test(j) { j -= 1 }] *)
Fixpoint while_down (fuel : nat) (test : nat → option bool) (i j : nat) : option nat :=
  match fuel with
  | O => None
  | S fuel =>
      if i <=? j then
        more ← test j;
        if more : bool then j ← decrement j; while_down fuel test i j else Some j
      else Some j
  end.

(** The two inner loops of [partition]. *)
Definition close_in (data : list A) (a i j : nat) : option (nat * nat) :=
  i ← while_up (S (S j - i)) (λ i, lt_at data i a) i j;
  j ← while_down (S (S j - i)) (λ j, negb <$> lt_at data j a) i j;
  Some (i, j).

Fixpoint partition_loop (fuel : nat) (data : list A) (a i j : nat)
  : option (list A * nat) :=
  match fuel with
  | O => None
  | S fuel =>
      '(i, j) ← close_in data a i j;
      if j <? i then Some (data, j)
      else
        data ← swap data i j;
        j ← decrement j;
        partition_loop fuel data a (i + 1) j
  end.

Definition partition (data : list A) (a b pivot : nat) : option (list A * (nat * bool)) :=
  data ← swap data a pivot;
  j ← decrement b;
  '(i, j) ← close_in data a (a + 1) j;
  if j <? i then data ← swap data j a; Some (data, (j, true))
  else
    data ← swap data i j;
    j ← decrement j;
    '(data, j) ← partition_loop (b - a) data a (i + 1) j;
    data ← swap data j a;
    Some (data, (j, false)).

Fixpoint partition_equal_loop (fuel : nat) (data : list A) (a i j : nat)
  : option (list A * nat) :=
  match fuel with
  | O => None
  | S fuel =>
      i ← while_up (S (S j - i)) (λ i, negb <$> lt_at data a i) i j;
      j ← while_down (S (S j - i)) (λ j, lt_at data a j) i j;
      if j <? i then Some (data, i)
      else
        data ← swap data i j;
        j ← decrement j;
        partition_equal_loop fuel data a (i + 1) j
  end.

Definition partition_equal (data : list A) (a b pivot : nat) : option (list A * nat) :=
  data ← swap data a pivot;
  j ← decrement b;
  partition_equal_loop (b - a) data a (a + 1) j.

(** ** Partial insertion sort *)

(** [for j in js { if !(data[j] < data[j - 1]) { break } data.swap(j, j - 1) }] *)
Fixpoint shift_while_less (data : list A) (js : list nat) : option (list A) :=
  match js with
  | [] => Some data
  | j :: js =>
      prev ← decrement j;
      less ← lt_at data j prev;
      if less : bool
      then data ← swap data j prev; shift_while_less data js
      else Some data
  end.

(** [while i < b && !(data[i] < data[i - 1]) { i += 1 }] *)
Fixpoint sorted_prefix (fuel : nat) (data : list A) (i b : nat) : option nat :=
  match fuel with
  | O => None
  | S fuel =>
      if i <? b then
        prev ← decrement i;
        less ← lt_at data i prev;
        if less : bool then Some i else sorted_prefix fuel data (i + 1) b
      else Some i
  end.

(** The rounds of [for _ in 0..5]. *)
Fixpoint partial_rounds (rounds : nat) (data : list A) (a b i : nat) : option (list A * bool) :=
  match rounds with
  | O => Some (data, false)
  | S rounds =>
      i ← sorted_prefix (S (b - i)) data i b;
      if i =? b then Some (data, true)
      else if b - a <? 50 then Some (data, false)
      else
        prev ← decrement i;
        data ← swap data i prev;
        data ← (if 2 <=? i - a then shift_while_less data (rev (seq 1 (i - 1))) else Some data);
        data ← (if 2 <=? b - i then shift_while_less data (seq (i + 1) (b - (i + 1)))
                else Some data);
        partial_rounds rounds data a b i
  end.

Definition partial_insertion_sort (data : list A) (a b : nat) : option (list A * bool) :=
  partial_rounds 5 data a b (a + 1).

(** ** Choosing a pivot *)

Inductive Hint := Unknown | Increasing | Decreasing.

#[global] Instance Hint_eq_dec : EqDecision Hint.
Proof. solve_decision. Defined.

(** One step of the xorshift generator on a [u64]. *)
Definition xorshift (random : Z) : Z :=
  let random := Z.lxor random (wrap_u 64 (Z.shiftl random 13)) in
  let random := Z.lxor random (Z.shiftr random 7) in
  Z.lxor random (wrap_u 64 (Z.shiftl random 17)).

(** [usize::BITS - n.leading_zeros()] *)
Definition bit_length (n : nat) : Z :=
  match n with O => 0%Z | _ => (Z.log2 (Z.of_nat n) + 1)%Z end.

(** [1_usize.checked_shl(bit_length).unwrap_or(0).wrapping_sub(1)] *)
Definition pattern_mask (length : nat) : Z :=
  let modulus := if (bit_length length <? 64)%Z then Z.shiftl 1 (bit_length length) else 0%Z in
  wrap_u 64 (modulus - 1).

Fixpoint break_loop (indices : list nat) (random : Z) (data : list A) (a length : nat)
  : option (list A) :=
  match indices with
  | [] => Some data
  | index :: indices =>
      let random := xorshift random in
      let other := Z.to_nat (Z.land random (pattern_mask length)) in
      let other := if length <=? other then other - length else other in
      data ← swap data index (a + other);
      break_loop indices random data a length
  end.

Definition break_patterns (data : list A) (a b : nat) : option (list A) :=
  let length := b - a in
  if 8 <=? length
  then break_loop (seq (a + length / 4 * 2 - 1) 3) (Z.of_nat length) data a length
  else Some data.

Definition order2 (data : list A) (a b swaps : nat) : option (nat * nat * nat) :=
  less ← lt_at data b a;
  Some (if less : bool then (b, a, swaps + 1) else (a, b, swaps)).

Definition median (data : list A) (a b c swaps : nat) : option (nat * nat) :=
  '(a, b, swaps) ← order2 data a b swaps;
  '(b, _, swaps) ← order2 data b c swaps;
  '(_, b, swaps) ← order2 data a b swaps;
  Some (b, swaps).

Definition choose_pivot (data : list A) (a b : nat) : option (nat * Hint) :=
  let length := b - a in
  let i := a + length / 4 in
  let j := a + length / 4 * 2 in
  let k := a + length / 4 * 3 in
  '(j, swaps) ←
    (if 8 <=? length then
       '(i, j, k, swaps) ←
         (if 50 <=? length then
            '(i, swaps) ← median data (i - 1) i (i + 1) 0;
            '(j, swaps) ← median data (j - 1) j (j + 1) swaps;
            '(k, swaps) ← median data (k - 1) k (k + 1) swaps;
            Some (i, j, k, swaps)
          else Some (i, j, k, 0));
       median data i j k swaps
     else Some (j, 0));
  Some (j, if swaps =? 0 then Increasing else if swaps =? 12 then Decreasing else Unknown).

(** ** The sort *)

(** [data[a..b].reverse()] *)
Definition reverse_range (data : list A) (a b : nat) : list A :=
  take a data ++ reverse (drop a (take b data)) ++ drop b data.

Fixpoint pdqsort (fuel : nat) (data : list A) (a b : nat) (limit : Z)
    (was_balanced was_partitioned : bool) : option (list A) :=
  match fuel with
  | O => None
  | S fuel =>
      let length := b - a in
      if length <=? 12 then insertion_sort data a b
      else if (limit =? 0)%Z then heap_sort data a b
      else
        data ← (if was_balanced then Some data else break_patterns data a b);
        let limit := if was_balanced then limit else (limit - 1)%Z in
        '(pivot, hint) ← choose_pivot data a b;
        let '(data, pivot, hint) :=
          if bool_decide (hint = Decreasing)
          then (reverse_range data a b, b - 1 - (pivot - a), Increasing)
          else (data, pivot, hint) in
        '(data, done) ←
          (if was_balanced && was_partitioned && bool_decide (hint = Increasing)
           then partial_insertion_sort data a b else Some (data, false));
        if done : bool then Some data
        else
          equal ← (if 0 <? a then negb <$> lt_at data (a - 1) pivot else Some false);
          if equal : bool then
            '(data, a) ← partition_equal data a b pivot;
            pdqsort fuel data a b limit was_balanced was_partitioned
          else
            '(data, (mid, was_partitioned)) ← partition data a b pivot;
            let left_len := mid - a in
            let right_len := b - mid in
            let balance_threshold := length / 8 in
            if left_len <? right_len then
              data ← pdqsort fuel data a mid limit true true;
              pdqsort fuel data (mid + 1) b limit (balance_threshold <=? left_len)
                was_partitioned
            else
              data ← pdqsort fuel data (mid + 1) b limit true true;
              pdqsort fuel data a mid limit (balance_threshold <=? right_len) was_partitioned
  end.

Definition sort (data : list A) : option (list A) :=
  pdqsort (S (length data)) data 0 (length data) (bit_length (length data)) true true.

End GoSort.

(** The definitions run: a list long enough for pivots, partitions and heaps. *)
Definition scrambled (n : nat) : list Z :=
  (λ k, (Z.of_nat k * 7919 + 13) mod 101)%Z <$> seq 0 n.

Example sort_runs :
  (sort Z.compare (scrambled 90)) ≫= (λ d, Some (take 6 d, drop 85 d))
  = Some ([0; 1; 2; 3; 4; 5], [96; 97; 98; 99; 100])%Z.
Proof. vm_compute. reflexivity. Qed.
