(* ===== verification/GoSortProps.v ===== *)
(** The sort of [GoSort.v] sorts: it never panics, always ends, returns a
    permutation of its input, and the permutation is in order, for every
    comparator that is a total preorder. *)

From Stdlib Require Import Sorted.
From S2P Require Import Prelude GoSort.

Local Open Scope nat_scope.

Section Sorting.
Context {A : Type} (compare : A → A → comparison) `{!TotalCmp compare}.
Implicit Types (d e : list A) (x y : A) (a b i j k p q : nat).

Local Abbreviation lt_at := (lt_at compare).

(** ** The order *)

Definition le (x y : A) : Prop := compare y x ≠ Lt.

Lemma le_refl x : le x x.
Proof. unfold le. by rewrite cmp_refl. Qed.

Lemma lt_le x y : compare x y = Lt → le x y.
Proof. unfold le. rewrite (cmp_opp (cmp := compare) x y). by intros ->. Qed.

Lemma le_trans x y z : le x y → le y z → le x z.
Proof.
  unfold le. intros H1 H2 Hzx. destruct (compare x y) eqn:E.
  - apply H2. by apply (cmp_eq_trans_l compare z x y).
  - apply H2. by apply (cmp_lt_trans (cmp := compare) z x y).
  - apply H1. by apply cmp_gt_lt.
Qed.

(** The elements at two indices are in order, strictly in order. *)
Definition le_at d i j : Prop := ∀ x y, d !! i = Some x → d !! j = Some y → le x y.
Definition less_at d i j : Prop := ∀ x y, d !! i = Some x → d !! j = Some y → compare x y = Lt.

Lemma less_le_at d i j : less_at d i j → le_at d i j.
Proof. intros H x y Hx Hy. by apply lt_le, H. Qed.

Lemma le_at_refl d i : le_at d i i.
Proof. intros x y ? ?. simplify_eq. apply le_refl. Qed.

Lemma le_at_trans d i j k : j < length d → le_at d i j → le_at d j k → le_at d i k.
Proof.
  intros [y Hy]%lookup_lt_is_Some_2 H1 H2 x z Hx Hz.
  apply (le_trans x y z); [by apply H1|by apply H2].
Qed.

Lemma lt_at_some d i j :
  i < length d → j < length d →
  ∃ r, lt_at d i j = Some r ∧ (r = true → less_at d i j) ∧ (r = false → le_at d j i).
Proof.
  intros [x Hx]%lookup_lt_is_Some_2 [y Hy]%lookup_lt_is_Some_2.
  unfold GoSort.lt_at, less_at, le_at, le. rewrite Hx, Hy. simpl.
  eexists; split; [reflexivity|].
  split; intros Hr x' y' ? ?; simplify_eq; destruct (compare x' y') eqn:E; try done.
  all: destruct (compare y' x') eqn:E'; congruence.
Qed.

(** ** Shuffles of a range *)

Definition in_span d a b x : Prop := ∃ i, a ≤ i < b ∧ d !! i = Some x.

Record Shuffle a b d e : Prop := {
  sh_length : length e = length d;
  sh_perm : d ≡ₚ e;
  sh_out i : i < a ∨ b ≤ i → e !! i = d !! i;
  sh_in x : in_span e a b x → in_span d a b x;
}.

Lemma Shuffle_refl a b d : Shuffle a b d d.
Proof. by split. Qed.

Lemma Shuffle_trans a b d e f : Shuffle a b d e → Shuffle a b e f → Shuffle a b d f.
Proof.
  intros [L1 P1 O1 I1] [L2 P2 O2 I2]. split.
  - congruence.
  - by etrans.
  - intros i Hi. by rewrite O2, O1.
  - auto.
Qed.

Lemma Shuffle_span a b lo hi d e x :
  Shuffle a b d e → lo ≤ a → b ≤ hi → in_span e lo hi x → in_span d lo hi x.
Proof.
  intros [_ _ O I] ? ? (i & Hi & Hx). destruct (decide (a ≤ i < b)) as [Hin|Hin].
  - destruct (I x) as (j & ? & ?); [by exists i|]. exists j. split; [lia|done].
  - exists i. rewrite <-O by lia. done.
Qed.

Lemma Shuffle_weaken a b a' b' d e : a' ≤ a → b ≤ b' → Shuffle a b d e → Shuffle a' b' d e.
Proof.
  intros ? ? Hs. pose proof Hs as [L P O I]. split; [done|done| |].
  - intros i ?. apply O. lia.
  - intros x. by apply (Shuffle_span a b).
Qed.

(** The transposition a swap applies to the indices. *)
Definition tr i j k : nat := if k =? i then j else if k =? j then i else k.

Lemma tr_invol i j k : tr i j (tr i j k) = k.
Proof. unfold tr. repeat (case_match; rewrite ?Nat.eqb_eq, ?Nat.eqb_neq in *); lia. Qed.

#[local] Instance tr_inj i j : Inj (=) (=) (tr i j).
Proof. intros p q H. by rewrite <-(tr_invol i j p), H, tr_invol. Qed.

Lemma swap_some d i j :
  i < length d → j < length d →
  ∃ e, swap d i j = Some e ∧ length e = length d ∧ ∀ k, e !! k = d !! tr i j k.
Proof.
  intros Hi Hj. pose proof (lookup_lt_is_Some_2 d i Hi) as [x Hx].
  pose proof (lookup_lt_is_Some_2 d j Hj) as [y Hy].
  unfold swap. rewrite Hx, Hy. simpl. eexists; split; [done|].
  split; [by rewrite !length_insert|]. intros k. unfold tr.
  destruct (Nat.eqb_spec k i) as [->|Hki].
  - rewrite list_lookup_insert_eq by (by rewrite length_insert). done.
  - rewrite list_lookup_insert_ne by done.
    destruct (Nat.eqb_spec k j) as [->|Hkj].
    + by rewrite list_lookup_insert_eq.
    + by rewrite list_lookup_insert_ne.
Qed.

Lemma tr_Shuffle a b d e i j :
  length e = length d → (∀ k, e !! k = d !! tr i j k) → a ≤ i < b → a ≤ j < b →
  Shuffle a b d e.
Proof.
  intros Hl Hk Hi Hj. split; [done| | |].
  - symmetry. apply Permutation_inj. split; [done|]. exists (tr i j). split; [apply tr_inj|done].
  - intros k Hout. rewrite Hk. unfold tr.
    rewrite (proj2 (Nat.eqb_neq _ _)) by lia. by rewrite (proj2 (Nat.eqb_neq _ _)) by lia.
  - intros x (k & Hin & Hx). rewrite Hk in Hx. exists (tr i j k). split; [|done].
    unfold tr. repeat case_match; lia.
Qed.

Lemma reverse_Shuffle a b d : a ≤ b ≤ length d → Shuffle a b d (reverse_range d a b).
Proof.
  intros Hab. unfold reverse_range.
  assert (d = take a d ++ drop a (take b d) ++ drop b d) as Hd.
  { rewrite app_assoc, <-(take_drop b d) at 1. f_equal.
    rewrite <-(take_drop a (take b d)) at 1. rewrite take_take. by rewrite Nat.min_l by lia. }
  set (m := drop a (take b d)) in *.
  assert (length m = b - a) as Hm by (subst m; rewrite length_drop, length_take; lia).
  assert (length (take a d) = a) as Hta by (rewrite length_take; lia).
  split.
  - rewrite !length_app, length_reverse, Hm, Hta, length_drop. lia.
  - transitivity (take a d ++ m ++ drop b d); [by rewrite <-Hd|]. by rewrite (reverse_Permutation m).
  - intros i Hi. transitivity ((take a d ++ m ++ drop b d) !! i); [|by rewrite <-Hd].
    destruct Hi as [Hi|Hi].
    + rewrite !lookup_app_l by lia. done.
    + rewrite !(lookup_app_r (take a d)) by lia.
      rewrite !lookup_app_r by (rewrite ?length_reverse; lia). by rewrite length_reverse.
  - intros x (i & Hi & Hx). rewrite lookup_app_r in Hx by lia.
    rewrite lookup_app_l in Hx by (rewrite length_reverse; lia).
    apply list_elem_of_lookup_2 in Hx. rewrite elem_of_reverse in Hx.
    apply list_elem_of_lookup in Hx as [k Hk]. pose proof (lookup_lt_Some _ _ _ Hk).
    exists (a + k). split; [lia|]. rewrite Hd, lookup_app_r by lia.
    rewrite lookup_app_l by lia. rewrite <-Hk. f_equal. lia.
Qed.

Lemma le_at_swap d e i j p q :
  (∀ k, e !! k = d !! tr i j k) → le_at e p q ↔ le_at d (tr i j p) (tr i j q).
Proof. intros H. unfold le_at. by setoid_rewrite H. Qed.

(** ** Insertion sort *)

Definition sorted_on d a b : Prop := ∀ i j, a ≤ i → i < j → j < b → le_at d i j.

(** Sorted but for the element at [j], which may belong further to the left. *)
Definition sorted_but d a hi j : Prop :=
  ∀ p q, a ≤ p → p < q → q < hi → q ≠ j → le_at d p q.

Lemma sorted_but_done d a hi j :
  hi ≤ length d → j < hi → sorted_but d a hi j →
  (j ≤ a ∨ ∃ j', j = S j' ∧ le_at d j' j) → sorted_on d a hi.
Proof.
  intros Hhi Hj Hb Hend p q Hp Hpq Hq. destruct (decide (q = j)) as [->|]; [|by apply Hb].
  destruct Hend as [|(j' & -> & Hle)]; [lia|].
  destruct (decide (p = j')) as [->|]; [done|].
  apply (le_at_trans d p j'); [lia| |done]. apply Hb; lia.
Qed.

(** A swap of neighbours moves the misplaced element one to the left. *)
Lemma sorted_but_swap d d' a hi j :
  j < hi → hi ≤ length d → a < S j → less_at d (S j) j → S j < hi →
  (∀ k, d' !! k = d !! tr (S j) j k) →
  sorted_but d a hi (S j) → sorted_but d' a hi j.
Proof.
  intros Hj Hhi Ha Hless HS Htr Hb p q Hp Hpq Hq Hne. rewrite (le_at_swap d) by done.
  unfold tr. repeat match goal with |- context [?k =? ?i] => destruct (Nat.eqb_spec k i) end;
    subst; try lia; try (apply Hb; lia). by apply less_le_at.
Qed.

Lemma insertion_shift_spec d a hi j :
  hi ≤ length d → j < hi → a ≤ j → sorted_but d a hi j →
  ∃ d', insertion_shift compare d a j = Some d' ∧ Shuffle a hi d d' ∧ sorted_on d' a hi.
Proof.
  revert d. induction j as [|j IH]; intros d Hhi Hj Ha Hb; cbn [insertion_shift].
  - exists d. split; [done|]. split; [apply Shuffle_refl|].
    apply (sorted_but_done d a hi 0); auto with lia.
  - destruct (Nat.ltb_spec a (S j)) as [Haj|Haj].
    2: { exists d. split; [done|]. split; [apply Shuffle_refl|].
         apply (sorted_but_done d a hi (S j)); auto with lia. }
    destruct (lt_at_some d (S j) j) as (r & -> & Ht & Hf); [lia..|]. simpl.
    destruct r.
    + destruct (swap_some d (S j) j) as (d1 & -> & Hl & Htr); [lia..|]. simpl.
      destruct (IH d1) as (d' & -> & Hs & Hd'); [lia..| |].
      { apply (sorted_but_swap d); auto with lia. }
      exists d'. split; [done|]. split; [|done].
      apply (Shuffle_trans _ _ _ d1); [|done]. apply (tr_Shuffle _ _ _ _ (S j) j); auto with lia.
    + exists d. split; [done|]. split; [apply Shuffle_refl|].
      apply (sorted_but_done d a hi (S j)); eauto with lia.
Qed.

Lemma sorted_on_snoc d a hi : sorted_on d a hi → sorted_but d a (S hi) hi.
Proof. intros Hs p q ? ? ? ?. apply Hs; lia. Qed.

(** A [for] loop whose body shuffles a range and keeps an invariant. *)
Lemma for_each_spec a b (inv : list A → nat → Prop) body len : ∀ lo d,
  (∀ d i, lo ≤ i < lo + len → inv d i →
     ∃ d', body d i = Some d' ∧ Shuffle a b d d' ∧ inv d' (S i)) →
  inv d lo →
  ∃ d', for_each (seq lo len) body d = Some d' ∧ Shuffle a b d d' ∧ inv d' (lo + len).
Proof.
  induction len as [|len IH]; intros lo d Hbody Hinv; simpl.
  - exists d. rewrite Nat.add_0_r. split; [done|]. split; [apply Shuffle_refl|done].
  - destruct (Hbody d lo) as (d1 & -> & Hs1 & Hi1); [lia|done|]. simpl.
    destruct (IH (S lo) d1) as (d2 & -> & Hs2 & Hi2); [|done|].
    { intros d' i Hi. apply Hbody. lia. }
    exists d2. split; [done|]. split; [by apply (Shuffle_trans _ _ _ d1)|].
    by replace (lo + S len) with (S lo + len) by lia.
Qed.

Lemma insertion_sort_spec d a b :
  a ≤ b ≤ length d →
  ∃ d', insertion_sort compare d a b = Some d' ∧ Shuffle a b d d' ∧ sorted_on d' a b.
Proof.
  intros Hab. unfold insertion_sort.
  destruct (for_each_spec a b (λ e i, length e = length d ∧ sorted_on e a (Nat.min i b))
              (λ data i, insertion_shift compare data a i) (b - (a + 1)) (a + 1) d)
    as (d' & -> & Hs & _ & Hd').
  - intros e i Hi [Hl He]. rewrite Nat.min_l in He by lia.
    destruct (insertion_shift_spec e a (S i) i) as (e' & -> & Hs & He'); [lia..| |].
    { by apply sorted_on_snoc. }
    exists e'. split; [done|]. split; [by apply (Shuffle_weaken a (S i)); [lia..|]|].
    split; [by rewrite (sh_length _ _ _ _ Hs)|]. by rewrite Nat.min_l by lia.
  - split; [done|]. intros i j ? ? ?. lia.
  - exists d'. split; [done|]. split; [done|]. intros i j ? ? ?. apply Hd'; lia.
Qed.

(** Order between a shuffled range and what lies outside it. *)
Lemma le_at_Shuffle_l lo hi d e p q :
  Shuffle lo hi d e → lo ≤ p < hi → q < lo ∨ hi ≤ q →
  (∀ p', lo ≤ p' < hi → le_at d p' q) → le_at e p q.
Proof.
  intros Hs Hp Hq H x y Hx Hy. rewrite (sh_out _ _ _ _ Hs) in Hy by done.
  destruct (sh_in _ _ _ _ Hs x) as (p' & Hp' & Hx'); [by exists p|]. by apply (H p').
Qed.

Lemma le_at_Shuffle_r lo hi d e p q :
  Shuffle lo hi d e → lo ≤ q < hi → p < lo ∨ hi ≤ p →
  (∀ q', lo ≤ q' < hi → le_at d p q') → le_at e p q.
Proof.
  intros Hs Hq Hp H x y Hx Hy. rewrite (sh_out _ _ _ _ Hs) in Hx by done.
  destruct (sh_in _ _ _ _ Hs y) as (q' & Hq' & Hy'); [by exists q|]. by apply (H q').
Qed.

Lemma le_at_Shuffle_out lo hi d e p q :
  Shuffle lo hi d e → p < lo ∨ hi ≤ p → q < lo ∨ hi ≤ q → le_at e p q ↔ le_at d p q.
Proof. intros Hs Hp Hq. unfold le_at. by rewrite !(sh_out _ _ _ _ Hs). Qed.

(** ** Heap sort *)

Definition child_of (r c : nat) : Prop := c = 2 * r + 1 ∨ c = 2 * r + 2.

(** No child among the first [n] elements from [f] is above its root, for the
    roots from [lo]; and the same with [root] itself left out. *)
Definition heap d f lo n : Prop :=
  ∀ r c, lo ≤ r → child_of r c → c < n → le_at d (f + c) (f + r).

Definition heap_but d f lo n root : Prop :=
  (∀ r c, lo ≤ r → r ≠ root → child_of r c → c < n → le_at d (f + c) (f + r))
  ∧ (∀ r c, lo ≤ r → child_of r root → child_of root c → c < n → le_at d (f + c) (f + r)).

Lemma heap_max d f n k : f + n ≤ length d → heap d f 0 n → k < n → le_at d (f + k) f.
Proof.
  intros Hf Hh. induction (lt_wf k) as [k _ IH]. intros Hk. destruct k as [|k].
  - rewrite Nat.add_0_r. apply le_at_refl.
  - pose proof (Nat.div_mod_eq k 2). pose proof (Nat.mod_upper_bound k 2 ltac:(lia)).
    apply (le_at_trans d _ (f + k / 2)); [lia| |apply IH; lia].
    apply Hh; unfold child_of; lia.
Qed.

(** The step of [sift_down]: the greater child moves up. *)
Lemma heap_but_swap d e f lo n root c :
  lo ≤ root → child_of root c → c < n → less_at d (f + root) (f + c) →
  (∀ c', child_of root c' → c' < n → le_at d (f + c') (f + c)) →
  (∀ k, e !! k = d !! tr (f + root) (f + c) k) →
  heap_but d f lo n root → heap_but e f lo n c.
Proof.
  intros Hlo Hc Hcn Hless Hmax Htr [H1 H2]. split.
  - intros r c0 Hr Hrc Hc0 Hn. rewrite (le_at_swap d) by done. unfold tr, child_of in *.
    repeat match goal with |- context [?k =? ?i] => destruct (Nat.eqb_spec k i) end;
      try lia; try (apply H1; lia).
    + apply H2; lia.
    + replace (f + c0) with (f + c) by lia. by apply less_le_at.
    + apply Hmax; lia.
  - intros r c0 Hr Hrc Hc0 Hn. rewrite (le_at_swap d) by done. unfold tr, child_of in *.
    repeat match goal with |- context [?k =? ?i] => destruct (Nat.eqb_spec k i) end; try lia.
    replace (f + r) with (f + root) by lia. apply H1; lia.
Qed.

Lemma heap_but_leaf d f lo n root :
  (∀ c, child_of root c → c < n → le_at d (f + c) (f + root)) →
  heap_but d f lo n root → heap d f lo n.
Proof.
  intros H [H1 _] r c Hr Hc Hn. destruct (decide (r = root)) as [->|]; [by apply H|by apply H1].
Qed.

Lemma greater_child d f n root :
  f + n ≤ length d → 2 * root + 1 < n →
  ∃ right, (if 2 * root + 1 + 1 <? n
            then lt_at d (f + (2 * root + 1)) (f + (2 * root + 1) + 1)
            else Some false) = Some right
    ∧ let c := if right : bool then 2 * root + 1 + 1 else 2 * root + 1 in
      child_of root c ∧ c < n ∧ ∀ c', child_of root c' → c' < n → le_at d (f + c') (f + c).
Proof.
  intros Hf Hc. destruct (Nat.ltb_spec (2 * root + 1 + 1) n) as [Hn|Hn].
  - destruct (lt_at_some d (f + (2 * root + 1)) (f + (2 * root + 1) + 1))
      as (r & -> & Ht & He); [lia..|].
    exists r. split; [done|]. unfold child_of. destruct r; cbn zeta.
    + split_and!; [lia|lia|]. intros c' [->| ->] _.
      * replace (f + (2 * root + 1 + 1)) with (f + (2 * root + 1) + 1) by lia.
        by apply less_le_at, Ht.
      * replace (2 * root + 2) with (2 * root + 1 + 1) by lia. apply le_at_refl.
    + split_and!; [lia|lia|]. intros c' [->| ->] _; [apply le_at_refl|].
      replace (f + (2 * root + 2)) with (f + (2 * root + 1) + 1) by lia. by apply He.
  - exists false. split; [done|]. unfold child_of. cbn zeta. split_and!; [lia|lia|].
    intros c' Hc' ?. replace c' with (2 * root + 1) by lia. apply le_at_refl.
Qed.

Lemma sift_down_spec f n lo fuel : ∀ d root,
  f + n ≤ length d → lo ≤ root → 0 < fuel → n < fuel + root → heap_but d f lo n root →
  ∃ d', sift_down_loop compare fuel d root n f = Some d'
    ∧ Shuffle f (f + n) d d' ∧ heap d' f lo n.
Proof.
  induction fuel as [|fuel IH]; intros d root Hf Hlo Hpos Hfuel Hb.
  - lia.
  - cbn [sift_down_loop]. destruct (Nat.leb_spec n (2 * root + 1)) as [Hn|Hn].
    + exists d. split; [done|]. split; [apply Shuffle_refl|].
      apply (heap_but_leaf _ _ _ _ root); [|done]. unfold child_of. intros; lia.
    + destruct (greater_child d f n root) as (right & -> & Hc & Hcn & Hmax); [done..|].
      cbn [mbind option_bind]. set (c := if right then _ else _) in *.
      destruct (lt_at_some d (f + root) (f + c)) as (less & -> & Ht & He);
        [unfold child_of in Hc; lia..|].
      cbn [mbind option_bind]. destruct less; simpl negb; cbv iota.
      * destruct (swap_some d (f + root) (f + c)) as (e & -> & Hl & Htr);
          [unfold child_of in Hc; lia..|].
        cbn [mbind option_bind]. destruct (IH e c) as (d' & -> & Hs & Hh);
          [lia|unfold child_of in Hc; lia..|by apply (heap_but_swap d _ _ _ _ root); auto|].
        exists d'. split; [done|]. split; [|done]. apply (Shuffle_trans _ _ _ e); [|done].
        apply (tr_Shuffle _ _ _ _ (f + root) (f + c)); unfold child_of in Hc; auto with lia.
      * exists d. split; [done|]. split; [apply Shuffle_refl|].
        apply (heap_but_leaf _ _ _ _ root); [|done]. intros c' Hc' Hn'.
        apply (le_at_trans d _ (f + c)); [lia|by apply Hmax|by apply He].
Qed.

(** The loop that runs down: the invariant holds at [hi], then at [0]. *)
Lemma for_each_rev_spec a b (inv : list A → nat → Prop) body hi : ∀ d,
  (∀ d i, i < hi → inv d (S i) →
     ∃ d', body d i = Some d' ∧ Shuffle a b d d' ∧ inv d' i) →
  inv d hi →
  ∃ d', for_each (rev (seq 0 hi)) body d = Some d' ∧ Shuffle a b d d' ∧ inv d' 0.
Proof.
  induction hi as [|hi IH]; intros d Hbody Hinv.
  - exists d. split; [done|]. split; [apply Shuffle_refl|done].
  - rewrite seq_S, rev_app_distr, Nat.add_0_l. cbn [rev app for_each].
    destruct (Hbody d hi) as (d1 & -> & Hs1 & Hi1); [lia|done|]. simpl.
    destruct (IH d1) as (d2 & -> & Hs2 & Hi2); [|done|].
    { intros d' i Hi. apply Hbody. lia. }
    exists d2. split; [done|]. split; [by apply (Shuffle_trans _ _ _ d1)|done].
Qed.

Lemma heapify_spec d a n :
  a + n ≤ length d →
  ∃ d', for_each (rev (seq 0 (S ((n - 1) / 2)))) (λ data i, sift_down compare data i n a) d
      = Some d' ∧ Shuffle a (a + n) d d' ∧ heap d' a 0 n.
Proof.
  intros Hn. destruct (for_each_rev_spec a (a + n)
    (λ e i, length e = length d ∧ heap e a i n)
    (λ data i, sift_down compare data i n a) (S ((n - 1) / 2)) d) as (d' & H & Hs & _ & Hh).
  - intros e i Hi [Hl Hh]. unfold sift_down.
    destruct (sift_down_spec a n i (S n) e i) as (e' & -> & Hs & Hh'); [lia..| |].
    { split.
      - intros r c ? ? ? ?. apply Hh; [lia|done..].
      - unfold child_of. intros; lia. }
    exists e'. split_and!; [done|done| |done]. by rewrite (sh_length _ _ _ _ Hs).
  - split; [done|]. intros r c Hr Hc Hcn. unfold child_of in Hc.
    pose proof (Nat.div_mod_eq (n - 1) 2). pose proof (Nat.mod_upper_bound (n - 1) 2 ltac:(lia)).
    lia.
  - by exists d'.
Qed.

(** What the second loop of [heap_sort] keeps: a heap of the [m] smallest,
    the others in order behind it. *)
Definition heap_prefix d a n m : Prop :=
  heap d a 0 m ∧ (∀ p q, p < m → m ≤ q < n → le_at d (a + p) (a + q)) ∧
  sorted_on d (a + m) (a + n).

Lemma heap_pop_spec d a n i :
  a + n ≤ length d → i < n → heap_prefix d a n (S i) →
  ∃ d', (data ← swap d a (a + i); sift_down compare data 0 i a) = Some d'
    ∧ Shuffle a (a + n) d d' ∧ heap_prefix d' a n i.
Proof.
  intros Hn Hi (Hh & Hle & Hsort).
  destruct (swap_some d a (a + i)) as (e & -> & Hl & Htr); [lia..|]. cbn [mbind option_bind].
  unfold sift_down.
  destruct (sift_down_spec a i 0 (S i) e 0) as (d' & -> & Hs & Hh'); [lia..| |].
  { split.
    - intros r c _ Hr Hc Hci. rewrite (le_at_swap d) by done. unfold child_of, tr in *.
      repeat match goal with |- context [?k =? ?i] => destruct (Nat.eqb_spec k i) end; try lia.
      apply Hh; unfold child_of; lia.
    - unfold child_of. intros; lia. }
  exists d'. split; [done|].
  split.
  { apply (Shuffle_trans _ _ _ e).
    - apply (tr_Shuffle _ _ _ _ a (a + i)); auto with lia.
    - by apply (Shuffle_weaken a (a + i)); [lia..|]. }
  assert (∀ p q, p < i → i ≤ q < n → le_at d' (a + p) (a + q)) as Hle'.
  { intros p q Hp Hq. apply (le_at_Shuffle_l _ _ _ _ _ _ Hs); [lia..|]. intros p' Hp'.
    rewrite (le_at_swap d) by done. unfold tr.
    repeat match goal with |- context [?k =? ?i] => destruct (Nat.eqb_spec k i) end; try lia.
    - apply (heap_max d a (S i) i); [lia|done|lia].
    - replace (a + i) with (a + i) by lia. apply Hle; lia.
    - replace p' with (a + (p' - a)) by lia. apply (heap_max d a (S i)); [lia|done|lia].
    - replace p' with (a + (p' - a)) by lia. apply Hle; lia. }
  split_and!; [done|done|]. intros p q Hp Hpq Hq.
  apply (le_at_Shuffle_out _ _ _ _ _ _ Hs); [lia..|]. rewrite (le_at_swap d) by done. unfold tr.
  repeat match goal with |- context [?k =? ?i] => destruct (Nat.eqb_spec k i) end; try lia.
  - replace q with (a + (q - a)) by lia. apply Hle; lia.
  - replace q with (a + (q - a)) by lia. rewrite <-(Nat.add_0_r a) at 1. apply Hle; lia.
  - apply Hsort; lia.
Qed.

Lemma heap_sort_spec d a b :
  a ≤ b ≤ length d →
  ∃ d', heap_sort compare d a b = Some d' ∧ Shuffle a b d d' ∧ sorted_on d' a b.
Proof.
  intros Hab. unfold heap_sort.
  destruct (heapify_spec d a (b - a)) as (e & -> & Hse & Hh); [lia|]. cbn [mbind option_bind].
  replace (a + (b - a)) with b in * by lia.
  destruct (for_each_rev_spec a b (λ e i, length e = length d ∧ heap_prefix e a (b - a) i)
    (λ data i, data ← swap data a (a + i); sift_down compare data 0 i a) (b - a) e)
    as (d' & -> & Hs & _ & _ & _ & Hd').
  - intros f i Hi [Hl Hp]. destruct (heap_pop_spec f a (b - a) i) as (f' & -> & Hs & Hp');
      [lia|done..|]. replace (a + (b - a)) with b in * by lia.
    exists f'. split_and!; [done|done| |done]. by rewrite (sh_length _ _ _ _ Hs).
  - split; [apply (sh_length _ _ _ _ Hse)|]. split_and!; [done| |]; intros p q ? ?; lia.
  - exists d'. split; [done|]. split; [by apply (Shuffle_trans _ _ _ e)|].
    intros i j ? ? ?. apply Hd'; lia.
Qed.

(** ** Partitioning *)

Lemma while_up_spec (P Q : nat → Prop) test j fuel : ∀ i,
  (∀ k, i ≤ k ≤ j → ∃ r, test k = Some r ∧ (r = true → P k) ∧ (r = false → Q k)) →
  i ≤ S j → S j - i < fuel →
  ∃ i', while_up fuel test i j = Some i' ∧ i ≤ i' ≤ S j ∧ (∀ k, i ≤ k < i' → P k)
    ∧ (i' ≤ j → Q i').
Proof.
  induction fuel as [|fuel IH]; intros i Htest Hij Hf; [lia|]. cbn [while_up].
  destruct (Nat.leb_spec i j) as [Hle|Hgt].
  - destruct (Htest i) as (r & -> & Ht & He); [lia|]. cbn [mbind option_bind]. destruct r.
    + destruct (IH (i + 1)) as (i' & -> & Hi' & HP & HQ); [|lia..|].
      { intros k ?. apply Htest. lia. }
      exists i'. split_and!; [done|lia|lia| |done]. intros k ?.
      destruct (decide (k = i)) as [->|]; [auto|apply HP; lia].
    + exists i. split_and!; [done|lia|lia| |auto]. intros k ?. lia.
  - exists i. split_and!; [done|lia|lia| |lia]. intros k ?. lia.
Qed.

Lemma while_down_spec (P Q : nat → Prop) test i fuel : ∀ j,
  (∀ k, i ≤ k ≤ j → ∃ r, test k = Some r ∧ (r = true → P k) ∧ (r = false → Q k)) →
  0 < i ≤ S j → S j - i < fuel →
  ∃ j', while_down fuel test i j = Some j' ∧ i ≤ S j' ∧ j' ≤ j ∧ (∀ k, j' < k ≤ j → P k)
    ∧ (i ≤ j' → Q j').
Proof.
  induction fuel as [|fuel IH]; intros j Htest Hij Hf; [lia|]. cbn [while_down].
  destruct (Nat.leb_spec i j) as [Hle|Hgt].
  - destruct (Htest j) as (r & -> & Ht & He); [lia|]. cbn [decrement mbind option_bind]. destruct r.
    + destruct j as [|j]; [lia|]. cbn [decrement mbind option_bind].
      destruct (IH j) as (j' & -> & Hi' & Hj' & HP & HQ); [|lia..|].
      { intros k ?. apply Htest. lia. }
      exists j'. split_and!; [done|lia|lia| |done]. intros k ?.
      destruct (decide (k = S j)) as [->|]; [auto|apply HP; lia].
    + exists j. split_and!; [done|lia|lia| |auto]. intros k ?. lia.
  - exists j. split_and!; [done|lia|lia| |lia]. intros k ?. lia.
Qed.

(** Both partitions keep small elements in front of [i] and large ones behind
    [j]; the pivot stays at [a]. *)
Definition part_inv (small large : list A → nat → nat → Prop) d a b i j : Prop :=
  a < i ≤ S j ∧ j < b ∧ (∀ k, a < k < i → small d k a) ∧ (∀ k, j < k < b → large d a k).

Lemma less_le_absurd d i j : i < length d → j < length d → less_at d i j → le_at d j i → False.
Proof.
  intros [x Hx]%lookup_lt_is_Some_2 [y Hy]%lookup_lt_is_Some_2 H1 H2.
  by apply (H2 y x); [..|apply H1].
Qed.

Lemma part_inv_swap (small large : list A → nat → nat → Prop) d e a b i j :
  (∀ d e i j i' j', e !! i' = d !! i → e !! j' = d !! j → small d i j → small e i' j') →
  (∀ d e i j i' j', e !! i' = d !! i → e !! j' = d !! j → large d i j → large e i' j') →
  (∀ k, e !! k = d !! tr i j k) → i < j →
  small d j a → large d a i → part_inv small large d a b i j →
  part_inv small large e a b (i + 1) (j - 1).
Proof.
  intros Hsmall Hlarge Htr Hij Hj Hi (Hb & Hjb & H1 & H2). split_and!; [lia|lia|lia| |].
  - intros k Hk. apply (Hsmall d e (tr i j k) a); [apply Htr| |].
    + rewrite Htr. f_equal. unfold tr. repeat case_match; rewrite ?Nat.eqb_eq in *; lia.
    + unfold tr. repeat match goal with |- context [?k =? ?i] => destruct (Nat.eqb_spec k i) end;
        [done|lia|apply H1; lia].
  - intros k Hk. apply (Hlarge d e a (tr i j k)); [|apply Htr|].
    + rewrite Htr. f_equal. unfold tr. repeat case_match; rewrite ?Nat.eqb_eq in *; lia.
    + unfold tr. repeat match goal with |- context [?k =? ?i] => destruct (Nat.eqb_spec k i) end;
        [lia|done|apply H2; lia].
Qed.

Lemma le_at_lookup d e i j i' j' :
  e !! i' = d !! i → e !! j' = d !! j → le_at d i j → le_at e i' j'.
Proof. unfold le_at. by intros -> ->. Qed.

Lemma less_at_lookup d e i j i' j' :
  e !! i' = d !! i → e !! j' = d !! j → less_at d i j → less_at e i' j'.
Proof. unfold less_at. by intros -> ->. Qed.

Lemma close_in_spec d a b i j :
  b ≤ length d → part_inv less_at le_at d a b i j →
  ∃ i' j', close_in compare d a i j = Some (i', j') ∧ part_inv less_at le_at d a b i' j'
    ∧ i ≤ i' ∧ j' ≤ j ∧ (i' ≤ j' → i' < j' ∧ less_at d j' a ∧ le_at d a i').
Proof.
  intros Hb (Hi & Hj & H1 & H2). unfold close_in.
  destruct (while_up_spec (λ k, less_at d k a) (λ k, le_at d a k) (λ i, lt_at d i a) j
              (S (S j - i)) i) as (i' & -> & Hi' & HP & HQ); [|lia..|].
  { intros k Hk. apply lt_at_some; lia. }
  cbn [mbind option_bind].
  destruct (while_down_spec (λ k, le_at d a k) (λ k, less_at d k a)
              (λ j, negb <$> lt_at d j a) i' (S (S j - i')) j)
    as (j' & -> & Hij' & Hj' & HP' & HQ'); [|lia..|].
  { intros k Hk. destruct (lt_at_some d k a) as (r & -> & Ht & Hf); [lia..|].
    exists (negb r). split; [done|]. destruct r; auto. }
  cbn [mbind option_bind]. exists i', j'. split; [done|]. split; [split_and!; [lia|lia|lia| |]|split_and!; [lia|lia|]].
  - intros k ?. destruct (decide (k < i)); [apply H1; lia|apply HP; lia].
  - intros k ?. destruct (decide (j < k)); [apply H2; lia|apply HP'; lia].
  - intros Hle. split_and!; [|by apply HQ'|apply HQ; lia].
    destruct (decide (i' = j')) as [->|]; [|lia].
    destruct (less_le_absurd d j' a); [lia|lia|by apply HQ'|apply HQ; lia].
Qed.

(** The last swap puts the pivot between the two parts. *)
Lemma partition_place d a b i j :
  b ≤ length d → part_inv less_at le_at d a b i j → j < i →
  ∃ e, swap d j a = Some e ∧ Shuffle a b d e ∧ a ≤ j < b
    ∧ (∀ k, a ≤ k < j → le_at e k j) ∧ (∀ k, j < k < b → le_at e j k).
Proof.
  intros Hb (Hi & Hj & H1 & H2) Hji.
  destruct (swap_some d j a) as (e & -> & Hl & Htr); [lia..|].
  exists e. split; [done|]. split; [apply (tr_Shuffle _ _ _ _ j a); auto with lia|].
  split; [lia|]. split; intros k Hk; rewrite (le_at_swap d) by done; unfold tr;
    repeat match goal with |- context [?k =? ?i] => destruct (Nat.eqb_spec k i) end; try lia.
  - apply less_le_at, H1; lia.
  - apply less_le_at, H1; lia.
  - apply H2; lia.
Qed.

Lemma partition_loop_spec a b fuel : ∀ d i j,
  b ≤ length d → S j - i < fuel → part_inv less_at le_at d a b i j →
  ∃ e j' i', partition_loop compare fuel d a i j = Some (e, j') ∧ Shuffle (S a) b d e
    ∧ part_inv less_at le_at e a b i' j' ∧ j' < i'.
Proof.
  induction fuel as [|fuel IH]; intros d i j Hb Hf Hinv; [lia|]. cbn [partition_loop].
  destruct (close_in_spec d a b i j) as (i' & j' & -> & Hinv' & Hi' & Hj' & Hcross); [done..|].
  cbn [mbind option_bind]. destruct (Nat.ltb_spec j' i') as [Hlt|Hge].
  - exists d, j', i'. split_and!; [done|apply Shuffle_refl|done|done].
  - destruct (Hcross Hge) as (Hne & Hless & Hle). pose proof Hinv' as (Hai & Hjb & _).
    destruct (swap_some d i' j') as (e & -> & Hl & Htr); [lia..|].
    cbn [mbind option_bind]. destruct j' as [|j']; [lia|]. cbn [decrement].
    cbn [mbind option_bind].
    destruct (IH e (i' + 1) j') as (f & j2 & i2 & -> & Hs & Hp & Hji); [lia|lia| |].
    { replace j' with (S j' - 1) by lia.
      apply (part_inv_swap _ _ d e _ _ i');
        first [exact less_at_lookup | exact le_at_lookup | done | lia]. }
    exists f, j2, i2. split_and!; [done| |done|done].
    apply (Shuffle_trans _ _ _ e); [|done]. apply (tr_Shuffle _ _ _ _ i' (S j')); auto with lia.
Qed.

Lemma partition_spec d a b pivot :
  a ≤ pivot < b → b ≤ length d →
  ∃ e mid r, partition compare d a b pivot = Some (e, (mid, r)) ∧ Shuffle a b d e ∧ a ≤ mid < b
    ∧ (∀ k, a ≤ k < mid → le_at e k mid) ∧ (∀ k, mid < k < b → le_at e mid k).
Proof.
  intros Hp Hb. unfold partition.
  destruct (swap_some d a pivot) as (d1 & -> & Hl & Htr); [lia..|].
  assert (Shuffle a b d d1) as Hs1 by (apply (tr_Shuffle _ _ _ _ a pivot); auto with lia).
  destruct b as [|b]; [lia|]. cbn [mbind option_bind decrement].
  destruct (close_in_spec d1 a (S b) (a + 1) b) as (i & j & -> & Hinv & Hi & Hj & Hcross); [lia| |].
  { split_and!; [lia|lia|lia| |]; intros k ?; lia. }
  cbn [mbind option_bind]. destruct (Nat.ltb_spec j i) as [Hlt|Hge].
  - destruct (partition_place d1 a (S b) i j) as (e & -> & Hs & Hj' & H1 & H2); [lia|done..|].
    cbn [mbind option_bind]. exists e, j, true. split_and!; [done| |lia|lia|done|done].
    by apply (Shuffle_trans _ _ _ d1).
  - destruct (Hcross Hge) as (Hne & Hless & Hle). pose proof Hinv as (Hai & Hjb & _).
    destruct (swap_some d1 i j) as (d2 & -> & Hl2 & Htr2); [lia..|].
    assert (Shuffle a (S b) d1 d2) as Hs2 by (apply (tr_Shuffle _ _ _ _ i j); auto with lia).
    cbn [mbind option_bind]. destruct j as [|j]; [lia|]. cbn [mbind option_bind decrement].
    destruct (partition_loop_spec a (S b) (S b - a) d2 (i + 1) j)
      as (d3 & j3 & i3 & -> & Hs3 & Hinv3 & Hji); [lia|lia| |].
    { replace j with (S j - 1) by lia.
      apply (part_inv_swap _ _ d1 d2 _ _ i);
        first [exact less_at_lookup | exact le_at_lookup | done | lia]. }
    cbn [mbind option_bind]. pose proof (sh_length _ _ _ _ Hs3).
    destruct (partition_place d3 a (S b) i3 j3) as (e & -> & Hs & Hj' & H1 & H2); [lia|done..|].
    cbn [mbind option_bind]. exists e, j3, false. split_and!; [done| |lia|lia|done|done].
    apply (Shuffle_trans _ _ _ d1); [done|]. apply (Shuffle_trans _ _ _ d2); [done|].
    apply (Shuffle_trans _ _ _ d3); [|done]. by apply (Shuffle_weaken (S a) (S b)); [lia..|].
Qed.

Lemma partition_equal_loop_spec a b fuel : ∀ d i j,
  b ≤ length d → S j - i < fuel → part_inv le_at less_at d a b i j →
  ∃ e i', partition_equal_loop compare fuel d a i j = Some (e, i') ∧ Shuffle (S a) b d e
    ∧ a < i' ≤ b ∧ (∀ k, a < k < i' → le_at e k a) ∧ (∀ k, i' ≤ k < b → le_at e a k).
Proof.
  induction fuel as [|fuel IH]; intros d i j Hb Hf (Hi & Hj & H1 & H2); [lia|].
  cbn [partition_equal_loop].
  destruct (while_up_spec (λ k, le_at d k a) (λ k, less_at d a k)
              (λ i, negb <$> lt_at d a i) j (S (S j - i)) i) as (i' & -> & Hi' & HP & HQ); [|lia..|].
  { intros k Hk. destruct (lt_at_some d a k) as (r & -> & Ht & Hfl); [lia..|].
    exists (negb r). split; [done|]. destruct r; auto. }
  cbn [mbind option_bind].
  destruct (while_down_spec (λ k, less_at d a k) (λ k, le_at d k a) (λ j, lt_at d a j) i'
              (S (S j - i')) j) as (j' & -> & Hij' & Hj' & HP' & HQ'); [|lia..|].
  { intros k Hk. apply lt_at_some; lia. }
  cbn [mbind option_bind].
  assert (∀ k, a < k < i' → le_at d k a) as H1'.
  { intros k ?. destruct (decide (k < i)); [apply H1; lia|apply HP; lia]. }
  assert (∀ k, j' < k < b → less_at d a k) as H2'.
  { intros k ?. destruct (decide (j < k)); [apply H2; lia|apply HP'; lia]. }
  destruct (Nat.ltb_spec j' i') as [Hlt|Hge].
  - exists d, i'. split_and!; [done|apply Shuffle_refl|lia|lia|done|].
    intros k ?. apply less_le_at, H2'. lia.
  - assert (i' < j') as Hne.
    { destruct (decide (i' = j')) as [->|]; [|lia].
      destruct (less_le_absurd d a j'); [lia|lia|apply HQ; lia|by apply HQ']. }
    destruct (swap_some d i' j') as (e & -> & Hl & Htr); [lia..|].
    cbn [mbind option_bind]. destruct j' as [|j']; [lia|]. cbn [mbind option_bind decrement].
    destruct (IH e (i' + 1) j') as (f & i2 & -> & Hs & Hrest); [lia|lia| |].
    { replace j' with (S j' - 1) by lia.
      apply (part_inv_swap _ _ d e _ _ i');
        [exact le_at_lookup|exact less_at_lookup|done|lia|by apply HQ'|apply HQ; lia|].
      split_and!; [lia|lia|lia|done|done]. }
    exists f, i2. split; [done|]. split; [|done].
    apply (Shuffle_trans _ _ _ e); [|done]. apply (tr_Shuffle _ _ _ _ i' (S j')); auto with lia.
Qed.

Lemma partition_equal_spec d a b pivot :
  a ≤ pivot < b → b ≤ length d →
  ∃ e i, partition_equal compare d a b pivot = Some (e, i) ∧ Shuffle a b d e ∧ a < i ≤ b
    ∧ e !! a = d !! pivot ∧ (∀ k, a < k < i → le_at e k a) ∧ (∀ k, i ≤ k < b → le_at e a k).
Proof.
  intros Hp Hb. unfold partition_equal.
  destruct (swap_some d a pivot) as (d1 & -> & Hl & Htr); [lia..|].
  destruct b as [|b]; [lia|]. cbn [mbind option_bind decrement].
  destruct (partition_equal_loop_spec a (S b) (S b - a) d1 (a + 1) b)
    as (e & i & -> & Hs & Hi & H1 & H2); [lia|lia| |].
  { split_and!; [lia|lia|lia| |]; intros k ?; lia. }
  exists e, i. split_and!; [done| |lia|lia| |done|done].
  - apply (Shuffle_trans _ _ _ d1); [|by apply (Shuffle_weaken (S a) (S b)); [lia..|]].
    apply (tr_Shuffle _ _ _ _ a pivot); auto with lia.
  - rewrite (sh_out _ _ _ _ Hs) by lia. rewrite Htr. unfold tr. by rewrite Nat.eqb_refl.
Qed.

(** ** Partial insertion sort *)

(** Everything in front of [a] is at most everything in the range. *)
Definition below d a b : Prop := ∀ p q, p < a → a ≤ q < b → le_at d p q.

Lemma below_Shuffle lo hi a b d e :
  a ≤ lo → hi ≤ b → Shuffle lo hi d e → below d a b → below e a b.
Proof.
  intros ? ? Hs%(Shuffle_weaken lo hi a b) Hd p q Hp Hq; [|lia..].
  apply (le_at_Shuffle_r _ _ _ _ _ _ Hs); [lia..|]. intros q' ?. by apply Hd.
Qed.

(** The loop down to index 1 stops at [a] because what is in front is no
    greater, so it is the insertion it means to be. *)
Lemma shift_left_spec a b hi j : ∀ d,
  b ≤ length d → hi ≤ b → a ≤ j < hi → below d a b → sorted_but d a hi j →
  ∃ e, shift_while_less compare d (rev (seq 1 j)) = Some e ∧ Shuffle a hi d e
    ∧ sorted_on e a hi.
Proof.
  induction j as [|j IH]; intros d Hb Hhi Hj Hbelow Hsb.
  - exists d. split; [done|]. split; [apply Shuffle_refl|].
    apply (sorted_but_done d a hi 0); auto with lia.
  - rewrite seq_S, rev_app_distr. cbn [rev app shift_while_less Nat.add decrement].
    cbn [mbind option_bind].
    destruct (lt_at_some d (S j) j) as (r & -> & Ht & Hf); [lia..|].
    cbn [mbind option_bind]. destruct r.
    + destruct (decide (a = S j)) as [->|Hne].
      { destruct (less_le_absurd d (S j) j); [lia|lia|by apply Ht|apply Hbelow; lia]. }
      destruct (swap_some d (S j) j) as (d1 & -> & Hl & Htr); [lia..|].
      cbn [mbind option_bind].
      assert (Shuffle a hi d d1) as Hs1 by (apply (tr_Shuffle _ _ _ _ (S j) j); auto with lia).
      destruct (IH d1) as (e & -> & Hs & He); [lia..| | |].
      { by apply (below_Shuffle a hi a b d); [lia..| |]. }
      { apply (sorted_but_swap d); auto with lia. }
      exists e. split; [done|]. split; [|done]. by apply (Shuffle_trans _ _ _ d1).
    + exists d. split; [done|]. split; [apply Shuffle_refl|].
      apply (sorted_but_done d a hi (S j)); eauto with lia.
Qed.

Lemma shift_right_spec lo b js : ∀ d,
  b ≤ length d → Forall (λ j, lo < j < b) js →
  ∃ e, shift_while_less compare d js = Some e ∧ Shuffle lo b d e.
Proof.
  induction js as [|j js IH]; intros d Hb Hjs; cbn [shift_while_less].
  { exists d. split; [done|apply Shuffle_refl]. }
  apply Forall_cons in Hjs as [Hj Hjs]. destruct j as [|j]; [lia|].
  cbn [decrement mbind option_bind].
  destruct (lt_at_some d (S j) j) as (r & -> & _); [lia..|]. cbn [mbind option_bind].
  destruct r; [|exists d; split; [done|apply Shuffle_refl]].
  destruct (swap_some d (S j) j) as (d1 & -> & Hl & Htr); [lia..|]. cbn [mbind option_bind].
  destruct (IH d1) as (e & -> & Hs); [lia|done|]. exists e. split; [done|].
  apply (Shuffle_trans _ _ _ d1); [|done]. apply (tr_Shuffle _ _ _ _ (S j) j); auto with lia.
Qed.

Lemma sorted_prefix_spec d a b fuel : ∀ i,
  b ≤ length d → a < i ≤ b → b - i < fuel → sorted_on d a i →
  ∃ i', sorted_prefix compare fuel d i b = Some i' ∧ i ≤ i' ≤ b ∧ sorted_on d a i'
    ∧ (i' < b → less_at d i' (i' - 1)).
Proof.
  induction fuel as [|fuel IH]; intros i Hb Hi Hf Hs; [lia|]. cbn [sorted_prefix].
  destruct (Nat.ltb_spec i b) as [Hlt|Hge].
  - destruct i as [|i]; [lia|]. cbn [decrement mbind option_bind].
    destruct (lt_at_some d (S i) i) as (r & -> & Ht & He); [lia..|].
    cbn [mbind option_bind]. destruct r.
    + exists (S i). split_and!; [done|lia|lia|done|]. intros _.
      replace (S i - 1) with i by lia. auto.
    + destruct (IH (S i + 1)) as (i' & -> & Hi' & Hs' & Hl); [lia..| |].
      { replace (S i + 1) with (S (S i)) by lia.
        apply (sorted_but_done d a (S (S i)) (S i)); [lia|lia|by apply sorted_on_snoc|].
        right. exists i. auto. }
      exists i'. split_and!; [done|lia|lia|done|done].
  - exists i. split_and!; [done|lia|lia|done|]. intros; lia.
Qed.

(** One round of [partial_insertion_sort] behind the test for its end. *)
Lemma partial_round_spec d a b i :
  b ≤ length d → a < i < b → below d a b → sorted_on d a i →
  ∃ prev e f g, decrement i = Some prev ∧ swap d i prev = Some e
    ∧ (if 2 <=? i - a then shift_while_less compare e (rev (seq 1 (i - 1))) else Some e) = Some f
    ∧ (if 2 <=? b - i then shift_while_less compare f (seq (i + 1) (b - (i + 1))) else Some f)
      = Some g
    ∧ Shuffle a b d g ∧ sorted_on g a i.
Proof.
  intros Hb Hi Hbelow Hs. destruct i as [|i]; [lia|].
  destruct (swap_some d (S i) i) as (e & He & Hl & Htr); [lia..|].
  assert (Shuffle a b d e) as Hse by (apply (tr_Shuffle _ _ _ _ (S i) i); auto with lia).
  assert (∃ f, (if 2 <=? S i - a then shift_while_less compare e (rev (seq 1 (S i - 1)))
                else Some e) = Some f ∧ Shuffle a b e f ∧ sorted_on f a (S i))
    as (f & Hf & Hsf & Hsort).
  { destruct (Nat.leb_spec 2 (S i - a)) as [H2|H2].
    - replace (S i - 1) with i by lia.
      destruct (shift_left_spec a b (S i) i e) as (f & Hf & Hsf & Hsort); [lia..| | |].
      + by apply (below_Shuffle a b a b d).
      + intros p q ? ? ? ?. rewrite (le_at_swap d) by done. unfold tr.
        repeat match goal with |- context [?k =? ?i] => destruct (Nat.eqb_spec k i) end;
          try lia. apply Hs; lia.
      + exists f. split_and!; [done| |done]. by apply (Shuffle_weaken a (S i)); [lia..|].
    - exists e. split_and!; [done|apply Shuffle_refl|]. intros p q ? ? ?; lia. }
  assert (length f = length d) as Hlf by (rewrite (sh_length _ _ _ _ Hsf); done).
  assert (∃ g, (if 2 <=? b - S i then shift_while_less compare f (seq (S i + 1) (b - (S i + 1)))
                else Some f) = Some g ∧ Shuffle (S i) b f g) as (g & Hg & Hsg).
  { destruct (2 <=? b - S i); [|exists f; split; [done|apply Shuffle_refl]].
    apply shift_right_spec; [lia|]. apply Forall_forall. intros j Hj%elem_of_seq. lia. }
  exists i, e, f, g. split_and!; [done|done|done|done| |].
  - apply (Shuffle_trans _ _ _ e); [done|]. apply (Shuffle_trans _ _ _ f); [done|].
    by apply (Shuffle_weaken (S i) b); [lia..|].
  - intros p q ? ? ?. apply (le_at_Shuffle_out _ _ _ _ _ _ Hsg); [lia..|]. apply Hsort; lia.
Qed.

Lemma partial_rounds_spec a b rounds : ∀ d i,
  b ≤ length d → a < i ≤ b → below d a b → sorted_on d a i →
  ∃ e r, partial_rounds compare rounds d a b i = Some (e, r) ∧ Shuffle a b d e
    ∧ (r = true → sorted_on e a b).
Proof.
  induction rounds as [|rounds IH]; intros d i Hb Hi Hbelow Hs; cbn [partial_rounds].
  { exists d, false. split_and!; [done|apply Shuffle_refl|done]. }
  destruct (sorted_prefix_spec d a b (S (b - i)) i) as (i' & -> & Hi' & Hs' & Hl); [lia..|done|].
  cbn [mbind option_bind]. destruct (Nat.eqb_spec i' b) as [->|Hne].
  { exists d, true. split_and!; [done|apply Shuffle_refl|done]. }
  destruct (b - a <? 50).
  { exists d, false. split_and!; [done|apply Shuffle_refl|done]. }
  destruct (partial_round_spec d a b i') as (prev & e & f & g & -> & He & Hf & Hg & Hsg & Hsort);
    [lia..|done|done|].
  cbn [mbind option_bind]. rewrite He. cbn [mbind option_bind]. rewrite Hf.
  cbn [mbind option_bind]. rewrite Hg. cbn [mbind option_bind].
  destruct (IH g i') as (h & r & -> & Hsh & Hr); [|lia| |done|].
  { by rewrite (sh_length _ _ _ _ Hsg). }
  { by apply (below_Shuffle a b a b d). }
  exists h, r. split_and!; [done| |done]. by apply (Shuffle_trans _ _ _ g).
Qed.

Lemma partial_insertion_sort_spec d a b :
  b ≤ length d → a < b → below d a b →
  ∃ e r, partial_insertion_sort compare d a b = Some (e, r) ∧ Shuffle a b d e
    ∧ (r = true → sorted_on e a b).
Proof.
  intros Hb Hab Hbelow. apply partial_rounds_spec; [done|lia|done|]. intros p q ? ? ?. lia.
Qed.

(** ** Pivots *)

(** The mask has at most one bit more than the length, so one subtraction
    brings an index under it into range. *)
Lemma pattern_mask_spec n :
  0 < n → (Z.of_nat n < 2 ^ 64)%Z →
  ∃ w : Z, (0 <= w)%Z ∧ pattern_mask n = Z.ones w ∧ (2 ^ w <= 2 * Z.of_nat n)%Z.
Proof.
  intros Hn H64. exists (bit_length n).
  assert (bit_length n = Z.log2 (Z.of_nat n) + 1)%Z as Hbl by (by destruct n; [lia|]).
  pose proof (Z.log2_nonneg (Z.of_nat n)). pose proof (Z.log2_spec (Z.of_nat n)) as Hlog.
  split; [lia|]. split; [|rewrite Hbl, Z.pow_add_r; lia].
  assert (Z.log2 (Z.of_nat n) < 64)%Z by (apply Z.log2_lt_pow2; lia).
  unfold pattern_mask. destruct (Z.ltb_spec (bit_length n) 64) as [Hlt|Hge].
  - rewrite Z.shiftl_1_l, Z.ones_equiv, <-Z.sub_1_r. apply wrap_u_id. split.
    + assert (0 < 2 ^ bit_length n)%Z by (apply Z.pow_pos_nonneg; lia). lia.
    + assert (2 ^ bit_length n < 2 ^ 64)%Z by (apply Z.pow_lt_mono_r; lia). lia.
  - replace (bit_length n) with 64%Z by lia. done.
Qed.

Lemma break_loop_spec a b indices : ∀ random d,
  b ≤ length d → 0 < b - a → (Z.of_nat (b - a) < 2 ^ 64)%Z →
  Forall (λ i, a ≤ i < b) indices →
  ∃ e, break_loop indices random d a (b - a) = Some e ∧ Shuffle a b d e.
Proof.
  induction indices as [|index indices IH]; intros random d Hb Hn H64 Hi; cbn [break_loop].
  { exists d. split; [done|apply Shuffle_refl]. }
  apply Forall_cons in Hi as [Hi His].
  set (other := Z.to_nat _).
  destruct (pattern_mask_spec (b - a)) as (w & Hw & Hmask & Hle); [done..|].
  assert (other < 2 * (b - a)) as Hother.
  { subst other. rewrite Hmask, Z.land_ones by done.
    pose proof (Z.mod_pos_bound (xorshift random) (2 ^ w)). lia. }
  assert ((if b - a <=? other then other - (b - a) else other) < b - a) as Hlt.
  { destruct (Nat.leb_spec (b - a) other); lia. }
  destruct (swap_some d index (a + (if b - a <=? other then other - (b - a) else other)))
    as (d1 & -> & Hl & Htr); [lia..|].
  cbn [mbind option_bind]. destruct (IH (xorshift random) d1) as (e & -> & Hs); [lia|done..|].
  exists e. split; [done|]. apply (Shuffle_trans _ _ _ d1); [|done].
  eapply tr_Shuffle; [done|exact Htr|lia|lia].
Qed.

Lemma break_patterns_spec d a b :
  a ≤ b ≤ length d → (Z.of_nat (b - a) < 2 ^ 64)%Z →
  ∃ e, break_patterns d a b = Some e ∧ Shuffle a b d e.
Proof.
  intros Hab H64. unfold break_patterns.
  destruct (Nat.leb_spec 8 (b - a)); [|exists d; split; [done|apply Shuffle_refl]].
  apply break_loop_spec; [lia..|]. apply Forall_forall. intros i Hi%elem_of_seq.
  pose proof (Nat.div_mod_eq (b - a) 4). pose proof (Nat.mod_upper_bound (b - a) 4 ltac:(lia)).
  lia.
Qed.

Lemma order2_spec d p q swaps (R : nat → Prop) :
  p < length d → q < length d → R p → R q →
  ∃ p' q' s, order2 compare d p q swaps = Some (p', q', s) ∧ R p' ∧ R q'
    ∧ p' < length d ∧ q' < length d.
Proof.
  intros Hp Hq ? ?. unfold order2. destruct (lt_at_some d q p) as (r & -> & _); [done..|].
  destruct r; eexists _, _, _; (split; [done|]); auto.
Qed.

Lemma median_spec d p q r swaps (R : nat → Prop) :
  p < length d → q < length d → r < length d → R p → R q → R r →
  ∃ m s, median compare d p q r swaps = Some (m, s) ∧ R m.
Proof.
  intros. unfold median.
  destruct (order2_spec d p q swaps R) as (p1 & q1 & s1 & -> & ? & ? & ? & ?); [done..|].
  cbn [mbind option_bind].
  destruct (order2_spec d q1 r s1 R) as (q2 & r2 & s2 & -> & ? & ? & ? & ?); [done..|].
  cbn [mbind option_bind].
  destruct (order2_spec d p1 q2 s2 R) as (p3 & q3 & s3 & -> & ? & ? & ? & ?); [done..|].
  cbn [mbind option_bind]. eauto.
Qed.

Lemma choose_pivot_spec d a b :
  b ≤ length d → 12 < b - a →
  ∃ pivot hint, choose_pivot compare d a b = Some (pivot, hint) ∧ a ≤ pivot < b.
Proof.
  intros Hb Hlen. unfold choose_pivot.
  pose proof (Nat.div_mod_eq (b - a) 4). pose proof (Nat.mod_upper_bound (b - a) 4 ltac:(lia)).
  rewrite (proj2 (Nat.leb_le 8 (b - a))) by lia.
  set (i := a + (b - a) / 4). set (j := a + (b - a) / 4 * 2). set (k := a + (b - a) / 4 * 3).
  assert (a + 3 ≤ i ∧ i < j ∧ j < k ∧ k + 1 < b) as (Hi & Hj & Hk & Hkb) by lia.
  clearbody i j k.
  assert (∃ i' j' k' s, (if 50 <=? b - a then
            '(i, swaps) ← median compare d (i - 1) i (i + 1) 0;
            '(j, swaps) ← median compare d (j - 1) j (j + 1) swaps;
            '(k, swaps) ← median compare d (k - 1) k (k + 1) swaps;
            Some (i, j, k, swaps)
          else Some (i, j, k, 0)) = Some (i', j', k', s)
          ∧ a ≤ i' < b ∧ a ≤ j' < b ∧ a ≤ k' < b) as (i' & j' & k' & s & -> & ? & ? & ?).
  { destruct (50 <=? b - a).
    - destruct (median_spec d (i - 1) i (i + 1) 0 (λ m, a ≤ m < b)) as (i' & s1 & -> & ?);
        [lia..|]. cbn [mbind option_bind].
      destruct (median_spec d (j - 1) j (j + 1) s1 (λ m, a ≤ m < b)) as (j' & s2 & -> & ?);
        [lia..|]. cbn [mbind option_bind].
      destruct (median_spec d (k - 1) k (k + 1) s2 (λ m, a ≤ m < b)) as (k' & s3 & -> & ?);
        [lia..|]. cbn [mbind option_bind]. by exists i', j', k', s3.
    - exists i, j, k, 0. split; [done|lia]. }
  cbn [mbind option_bind].
  destruct (median_spec d i' j' k' s (λ m, a ≤ m < b)) as (m & s' & -> & ?); [lia..|].
  cbn [mbind option_bind]. eauto.
Qed.

(** ** The sort *)

(** Two sorted parts around a pivot make a sorted whole. *)
Lemma sorted_on_join d a m b :
  b ≤ length d → a ≤ m < b → sorted_on d a m → sorted_on d (m + 1) b →
  (∀ k, a ≤ k < m → le_at d k m) → (∀ k, m < k < b → le_at d m k) → sorted_on d a b.
Proof.
  intros Hb Hm Hl Hr H1 H2 p q Hp Hpq Hq.
  destruct (decide (q < m)); [apply Hl; lia|]. destruct (decide (m < p)); [apply Hr; lia|].
  destruct (decide (p = m)) as [->|]; [apply H2; lia|].
  destruct (decide (q = m)) as [->|]; [apply H1; lia|].
  apply (le_at_trans d p m); [lia|apply H1; lia|apply H2; lia].
Qed.

(** What sorting either side of a pivot keeps of the other facts. *)
Lemma le_at_Shuffle_all lo hi d e a m b :
  Shuffle lo hi d e → (a ≤ lo ∧ hi ≤ m) ∨ (m < lo ∧ hi ≤ b) →
  (∀ k, a ≤ k < m → le_at d k m) ∧ (∀ k, m < k < b → le_at d m k) →
  (∀ k, a ≤ k < m → le_at e k m) ∧ (∀ k, m < k < b → le_at e m k).
Proof.
  intros Hs Hpos [H1 H2]. split; intros k Hk; destruct (decide (lo ≤ k < hi)) as [Hin|Hout].
  - apply (le_at_Shuffle_l _ _ _ _ _ _ Hs); [lia..|]. intros; apply H1; lia.
  - apply (le_at_Shuffle_out _ _ _ _ _ _ Hs); [lia..|]. apply H1; lia.
  - apply (le_at_Shuffle_r _ _ _ _ _ _ Hs); [lia..|]. intros; apply H2; lia.
  - apply (le_at_Shuffle_out _ _ _ _ _ _ Hs); [lia..|]. apply H2; lia.
Qed.

(** The range whose first part equals what is in front of it: only the rest is
    left to sort. *)
Lemma sorted_on_equal d e a i b :
  b ≤ length d → 0 < a < i → i ≤ b → below d a b →
  le_at d a (a - 1) → (∀ k, a < k < i → le_at d k a) → (∀ k, i ≤ k < b → le_at d a k) →
  Shuffle i b d e → sorted_on e i b → sorted_on e a b.
Proof.
  intros Hb Ha Hi Hbelow Hpiv H1 H2 Hs Hsort p q Hp Hpq Hq.
  destruct (decide (i ≤ p)); [apply Hsort; lia|].
  assert (∀ q', a ≤ q' < b → le_at d p q') as Hle.
  { intros q' ?. apply (le_at_trans d p a); [lia| |].
    - destruct (decide (p = a)) as [->|]; [apply le_at_refl|apply H1; lia].
    - apply (le_at_trans d a (a - 1)); [lia|done|apply Hbelow; lia]. }
  destruct (decide (q < i)).
  - apply (le_at_Shuffle_out _ _ _ _ _ _ Hs); [lia..|]. apply Hle. lia.
  - apply (le_at_Shuffle_r _ _ _ _ _ _ Hs); [lia..|]. intros; apply Hle; lia.
Qed.

Lemma below_after d a b i :
  b ≤ length d → 0 < a < i → i ≤ b → below d a b →
  (∀ k, a < k < i → le_at d k a) → (∀ k, i ≤ k < b → le_at d a k) → below d i b.
Proof.
  intros Hb Ha Hi Hbelow H1 H2 p q Hp Hq. destruct (decide (p < a)); [apply Hbelow; lia|].
  destruct (decide (p = a)) as [->|]; [apply H2; lia|].
  apply (le_at_trans d p a); [lia|apply H1; lia|apply H2; lia].
Qed.

Lemma below_sides d a b m :
  b ≤ length d → a ≤ m < b → below d a b →
  (∀ k, a ≤ k < m → le_at d k m) → (∀ k, m < k < b → le_at d m k) →
  below d a m ∧ below d (m + 1) b.
Proof.
  intros Hb Hm Hbelow H1 H2. split; intros p q Hp Hq; [apply Hbelow; lia|].
  destruct (decide (p < a)); [apply Hbelow; lia|].
  destruct (decide (p = m)) as [->|]; [apply H2; lia|].
  apply (le_at_trans d p m); [lia|apply H1; lia|apply H2; lia].
Qed.

(** A routine that sorts the range it is given. *)
Definition sorts (n lo hi : nat) (f : list A → option (list A)) : Prop :=
  ∀ d, length d = n → below d lo hi →
  ∃ e, f d = Some e ∧ Shuffle lo hi d e ∧ sorted_on e lo hi.

(** Sorting the two sides of a pivot, in either order. *)
Lemma sort_sides d a b m f1 f2 lo1 hi1 lo2 hi2 :
  b ≤ length d → a ≤ m < b → below d a b →
  (∀ k, a ≤ k < m → le_at d k m) ∧ (∀ k, m < k < b → le_at d m k) →
  (lo1 = a ∧ hi1 = m ∧ lo2 = m + 1 ∧ hi2 = b) ∨ (lo1 = m + 1 ∧ hi1 = b ∧ lo2 = a ∧ hi2 = m) →
  sorts (length d) lo1 hi1 f1 → sorts (length d) lo2 hi2 f2 →
  ∃ e, (d ← f1 d; f2 d) = Some e ∧ Shuffle a b d e ∧ sorted_on e a b.
Proof.
  intros Hb Hm Hbelow Hpart Hsides F1 F2.
  destruct (F1 d) as (e1 & -> & Hs1 & Hsort1); [done| |].
  { destruct (below_sides d a b m) as [? ?]; [done..|by apply Hpart|by apply Hpart|].
    by destruct Hsides as [(-> & -> & _)|(-> & -> & _)]. }
  cbn [mbind option_bind]. pose proof (sh_length _ _ _ _ Hs1) as Hl1.
  assert (below e1 a b) as Hbelow1 by (apply (below_Shuffle lo1 hi1 a b d); auto with lia).
  apply (le_at_Shuffle_all _ _ _ _ a m b Hs1) in Hpart; [|lia].
  destruct (F2 e1) as (e2 & -> & Hs2 & Hsort2); [done| |].
  { destruct (below_sides e1 a b m) as [? ?]; [lia|done..|by apply Hpart|by apply Hpart|].
    by destruct Hsides as [(_ & _ & -> & ->)|(_ & _ & -> & ->)]. }
  pose proof (sh_length _ _ _ _ Hs2) as Hl2.
  apply (le_at_Shuffle_all _ _ _ _ a m b Hs2) in Hpart; [|lia].
  exists e2. split; [done|]. split.
  - apply (Shuffle_trans _ _ _ e1); [apply (Shuffle_weaken lo1 hi1)|apply (Shuffle_weaken lo2 hi2)];
      auto with lia.
  - assert (sorted_on e2 lo1 hi1) as Hsort1'.
    { intros p q ? ? ?. apply (le_at_Shuffle_out _ _ _ _ _ _ Hs2); [lia..|]. apply Hsort1; lia. }
    apply (sorted_on_join e2 a m b); [lia|done| | |apply Hpart|apply Hpart].
    + by destruct Hsides as [(-> & -> & -> & ->)|(-> & -> & -> & ->)].
    + by destruct Hsides as [(-> & -> & -> & ->)|(-> & -> & -> & ->)].
Qed.

(** The part of a turn that ends with a pivot: patterns broken, a decreasing
    range reversed, nothing out of place. *)
Lemma prepare_spec d a b was_balanced :
  a ≤ b ≤ length d → 12 < b - a → (Z.of_nat (b - a) < 2 ^ 64)%Z →
  ∃ e pivot hint,
    (if was_balanced : bool then Some d else break_patterns d a b) = Some e
    ∧ choose_pivot compare e a b = Some (pivot, hint)
    ∧ let '(f, pivot, _) :=
        if bool_decide (hint = Decreasing)
        then (reverse_range e a b, b - 1 - (pivot - a), Increasing)
        else (e, pivot, hint) in
      Shuffle a b d f ∧ a ≤ pivot < b.
Proof.
  intros Hab Hlen H64.
  assert (∃ e, (if was_balanced : bool then Some d else break_patterns d a b) = Some e
               ∧ Shuffle a b d e) as (e & He & Hs).
  { destruct was_balanced; [exists d; split; [done|apply Shuffle_refl]|].
    by apply break_patterns_spec. }
  pose proof (sh_length _ _ _ _ Hs).
  destruct (choose_pivot_spec e a b) as (pivot & hint & Hp & Hpb); [lia..|].
  exists e, pivot, hint. split; [done|]. split; [done|]. case_bool_decide.
  - split; [|lia]. apply (Shuffle_trans _ _ _ e); [done|]. apply reverse_Shuffle. lia.
  - done.
Qed.

(** The choice of the loop behind the pivot. *)
Definition turn_end (fuel : nat) (data : list A) (a b pivot : nat) (limit : Z)
    (was_balanced was_partitioned : bool) : option (list A) :=
  equal ← (if 0 <? a then negb <$> lt_at data (a - 1) pivot else Some false);
  if equal : bool then
    '(data, i) ← partition_equal compare data a b pivot;
    pdqsort compare fuel data i b limit was_balanced was_partitioned
  else
    '(data, (mid, was_partitioned)) ← partition compare data a b pivot;
    if mid - a <? b - mid then
      data ← pdqsort compare fuel data a mid limit true true;
      pdqsort compare fuel data (mid + 1) b limit ((b - a) / 8 <=? mid - a) was_partitioned
    else
      data ← pdqsort compare fuel data (mid + 1) b limit true true;
      pdqsort compare fuel data a mid limit ((b - a) / 8 <=? b - mid) was_partitioned.

Lemma turn_end_spec fuel d a b pivot limit wb wp :
  (∀ lo hi limit wb wp, a ≤ lo → hi ≤ b → lo ≤ hi → hi - lo < b - a →
     sorts (length d) lo hi (λ d, pdqsort compare fuel d lo hi limit wb wp)) →
  a ≤ pivot < b → b ≤ length d → below d a b →
  ∃ e, turn_end fuel d a b pivot limit wb wp = Some e ∧ Shuffle a b d e ∧ sorted_on e a b.
Proof.
  intros IH Hp Hb Hbelow. unfold turn_end.
  assert (∃ equal, (if 0 <? a then negb <$> lt_at d (a - 1) pivot else Some false) = Some equal
            ∧ (equal = true → 0 < a ∧ le_at d pivot (a - 1))) as (equal & -> & Heq).
  { destruct (Nat.ltb_spec 0 a); [|by exists false].
    destruct (lt_at_some d (a - 1) pivot) as (r & -> & _ & Hf); [lia..|].
    exists (negb r). split; [done|]. destruct r; [done|]. auto. }
  cbn [mbind option_bind]. destruct equal.
  - destruct (Heq eq_refl) as [Ha Hpiv]. clear Heq.
    destruct (partition_equal_spec d a b pivot) as (e & i & -> & Hs & Hi & Hea & H1 & H2);
      [done..|]. cbn [mbind option_bind]. pose proof (sh_length _ _ _ _ Hs) as Hl.
    assert (below e a b) as Hbe by (by apply (below_Shuffle a b a b d)).
    destruct (IH i b limit wb wp) with (d := e) as (f & -> & Hsf & Hsort);
      [lia..|done|by apply (below_after e a b i); [lia|lia|lia|..]|].
    exists f. split; [done|]. split.
    + apply (Shuffle_trans _ _ _ e); [done|]. by apply (Shuffle_weaken i b); [lia..|].
    + apply (sorted_on_equal e f a i b); [lia|lia|lia|done| |done|done|done|done].
      apply (le_at_lookup d e pivot (a - 1)); [done| |done].
      apply (sh_out _ _ _ _ Hs). lia.
  - clear Heq. destruct (partition_spec d a b pivot) as (e & mid & r & -> & Hs & Hm & H1 & H2);
      [done..|]. cbn [mbind option_bind]. pose proof (sh_length _ _ _ _ Hs) as Hl.
    assert (below e a b) as Hbe by (by apply (below_Shuffle a b a b d)).
    assert (∃ f, (if mid - a <? b - mid then
        data ← pdqsort compare fuel e a mid limit true true;
        pdqsort compare fuel data (mid + 1) b limit ((b - a) / 8 <=? mid - a) r
      else
        data ← pdqsort compare fuel e (mid + 1) b limit true true;
        pdqsort compare fuel data a mid limit ((b - a) / 8 <=? b - mid) r) = Some f
      ∧ Shuffle a b e f ∧ sorted_on f a b) as (f & -> & Hsf & Hsort).
    { rewrite <-Hl in IH.
      destruct (mid - a <? b - mid).
      - apply (sort_sides e a b mid (λ d, pdqsort compare fuel d a mid limit true true)
          (λ d, pdqsort compare fuel d (mid + 1) b limit _ r) a mid (mid + 1) b);
          [lia|lia|done|done|auto|apply IH; lia..].
      - apply (sort_sides e a b mid (λ d, pdqsort compare fuel d (mid + 1) b limit true true)
          (λ d, pdqsort compare fuel d a mid limit _ r) (mid + 1) b a mid);
          [lia|lia|done|done|auto|apply IH; lia..]. }
    exists f. split; [done|]. split; [|done]. by apply (Shuffle_trans _ _ _ e).
Qed.

Lemma pdqsort_spec fuel : ∀ n a b limit wb wp,
  a ≤ b ≤ n → b - a < fuel → (Z.of_nat (b - a) < 2 ^ 64)%Z →
  sorts n a b (λ d, pdqsort compare fuel d a b limit wb wp).
Proof.
  induction fuel as [|fuel IH]; intros n a b limit wb wp Hab Hf H64 d <- Hbelow; [lia|].
  cbn [pdqsort]. destruct (Nat.leb_spec (b - a) 12) as [Hs|Hlen].
  { by apply insertion_sort_spec. }
  destruct (limit =? 0)%Z.
  { by apply heap_sort_spec. }
  destruct (prepare_spec d a b wb) as (e & pivot & hint & -> & Hp & Hprep); [done..|].
  cbn [mbind option_bind]. rewrite Hp. cbn [mbind option_bind].
  destruct (if bool_decide (hint = Decreasing) then _ else _) as [[f pivot'] hint'].
  destruct Hprep as [Hsf Hpiv]. pose proof (sh_length _ _ _ _ Hsf) as Hlf.
  assert (∃ g done', (if wb && wp && bool_decide (hint' = Increasing)
                      then partial_insertion_sort compare f a b else Some (f, false))
                     = Some (g, done')
            ∧ Shuffle a b f g ∧ (done' = true → sorted_on g a b)) as (g & done' & -> & Hsg & Hdone).
  { destruct (wb && wp && bool_decide (hint' = Increasing)).
    - apply partial_insertion_sort_spec; [lia..|]. by apply (below_Shuffle a b a b d).
    - exists f, false. split_and!; [done|apply Shuffle_refl|done]. }
  cbn [mbind option_bind]. pose proof (sh_length _ _ _ _ Hsg) as Hlg.
  assert (Shuffle a b d g) as Hs by (by apply (Shuffle_trans _ _ _ f)).
  destruct done'; [exists g; auto|].
  destruct (turn_end_spec fuel g a b pivot' (if wb then limit else (limit - 1)%Z) wb wp)
    as (h & Hh & Hsh & Hsort); [|lia|lia|by apply (below_Shuffle a b a b d)|].
  { intros lo hi limit' wb' wp' ? ? ? ?. apply IH; lia. }
  exists h. split; [exact Hh|]. split; [|done]. by apply (Shuffle_trans _ _ _ g).
Qed.

Lemma sorted_on_StronglySorted d : sorted_on d 0 (length d) → StronglySorted le d.
Proof.
  induction d as [|x d IH]; intros H; constructor.
  - apply IH. intros i j ? ? ? x' y Hx Hy. apply (H (S i) (S j)); simpl; [lia..|done|done].
  - apply Forall_forall. intros y [j Hj]%list_elem_of_lookup.
    apply (H 0 (S j)); simpl; [lia|lia| |done|done]. apply lookup_lt_Some in Hj. lia.
Qed.

(** [C30] The sort sorts: for every comparator that is a total preorder and
    every slice a [usize] can measure, it ends without an index out of range
    or a subtraction below zero, and returns a permutation of its input in
    order. That covers the insertion, heap and partial insertion sorts, the
    shuffled patterns and both partitions, whatever pivots they choose. *)
Theorem sort_sorts data :
  (Z.of_nat (length data) < 2 ^ 64)%Z →
  ∃ sorted, sort compare data = Some sorted ∧ sorted ≡ₚ data ∧ StronglySorted le sorted.
Proof.
  intros H64. unfold sort.
  destruct (pdqsort_spec (S (length data)) (length data) 0 (length data)
              (bit_length (length data)) true true) with (d := data) as (e & -> & Hs & Hsort).
  - lia.
  - lia.
  - by rewrite Nat.sub_0_r.
  - done.
  - intros p q ?. lia.
  - exists e. split; [done|]. split; [symmetry; apply (sh_perm _ _ _ _ Hs)|].
    apply sorted_on_StronglySorted. by rewrite (sh_length _ _ _ _ Hs).
Qed.
End Sorting.

Lemma sort_sorts_witness :
  (Z.of_nat (length (scrambled 90)) < 2 ^ 64)%Z
  ∧ ∃ sorted, sort Z.compare (scrambled 90) = Some sorted ∧ sorted ≡ₚ scrambled 90
      ∧ StronglySorted (le Z.compare) sorted.
Proof. split; [vm_compute; reflexivity|]. apply (sort_sorts Z.compare). vm_compute. reflexivity. Defined.
