(* ===== verification/OrderedMap.v ===== *)
(** Insertion-ordered maps and sets: [crates/tsr_core/src/collections/ordered_map.rs]
    and [ordered_set.rs].

    The key deque is a list and the hash table a [gmap]; the two are kept in
    step by every operation, and an operation that would find them out of step
    ([expect], indexing a missing key) is [None]. A callback that changes the
    map while it is traversed is a function on maps; since it may append for
    ever, that traversal takes fuel.

    The ordered map of [OrderedMap.v] implements an association list in insertion
    order: no sequence of its operations finds the keys and the table out of
    step, and its diffs describe how to get from one map to the other. *)

From stdpp Require Import gmap.
From S2P Require Import Prelude.

Local Open Scope nat_scope.

Record OrderedMap (K V : Type) `{Countable K} := MkOrderedMap {
  om_keys : list K;
  om_values : gmap K V;
}.
Arguments MkOrderedMap {K V _ _} _ _.
Arguments om_keys {K V _ _} _.
Arguments om_values {K V _ _} _.

(** One notification of a diff. *)
Inductive MapChange (K V : Type) :=
  | Added (key : K) (value : V)
  | Removed (key : K) (value : V)
  | Modified (key : K) (old new : V).
Arguments Added {K V} _ _.
Arguments Removed {K V} _ _.
Arguments Modified {K V} _ _ _.

Section Operations.
Context {K V : Type} `{Countable K}.
Implicit Types (m : OrderedMap K V) (key : K) (value : V).

Definition om_default : OrderedMap K V := MkOrderedMap [] ∅.

(** [with_capacity] allocates and adds nothing. *)
Definition with_capacity (capacity : nat) : OrderedMap K V := om_default.

Definition len m : nat := length (om_keys m).
Definition is_empty m : bool := bool_decide (om_keys m = []).
Definition key_at m (index : nat) : option K := om_keys m !! index.
Definition clear m : OrderedMap K V := MkOrderedMap [] ∅.

Definition get m key : option V := om_values m !! key.
Definition contains_key m key : bool := bool_decide (is_Some (om_values m !! key)).

(** [get_mut], as the update the caller makes through the reference. *)
Definition update m key (f : V → V) : OrderedMap K V :=
  MkOrderedMap (om_keys m) (alter f key (om_values m)).

(** [None] is the panic of indexing [values] with a key it does not hold. *)
Definition entry m key : option (K * V) := (λ value, (key, value)) <$> om_values m !! key.

(** The signed index: negative ones and ones past the end are a miss. *)
Definition entry_at m (index : Z) : option (option (K * V)) :=
  if (index <? 0)%Z then Some None
  else match om_keys m !! Z.to_nat index with
       | None => Some None
       | Some key => Some <$> entry m key
       end.

Definition entries m : option (list (K * V)) := mapM (entry m) (om_keys m).
Definition values m : option (list V) := map snd <$> entries m.

(** [for_each_value_mut] with the new value [visit] leaves behind each key. *)
Definition for_each_value_mut m (visit : K → V → V) : option (OrderedMap K V) :=
  foldl (λ acc key, m ← acc; value ← om_values m !! key;
           Some (MkOrderedMap (om_keys m) (<[key := visit key value]> (om_values m))))
    (Some m) (om_keys m).

(** The owning iterator: each step takes the value out of the table. *)
Fixpoint into_iter_loop (keys : list K) (table : gmap K V) : option (list (K * V)) :=
  match keys with
  | [] => Some []
  | key :: keys =>
      value ← table !! key;
      rest ← into_iter_loop keys (delete key table);
      Some ((key, value) :: rest)
  end.

Definition into_iter m : option (list (K * V)) := into_iter_loop (om_keys m) (om_values m).
Definition into_values m : option (list V) := map snd <$> into_iter m.

(** [VecDeque::remove] *)
Definition remove_at (index : nat) (keys : list K) : list K := take index keys ++ drop (S index) keys.

Definition remove m key : option (option V * OrderedMap K V) :=
  match om_values m !! key with
  | None => Some (None, m)
  | Some value =>
      index ← position (λ item, bool_decide (item = key)) (om_keys m);
      Some (Some value, MkOrderedMap (remove_at index (om_keys m)) (delete key (om_values m)))
  end.

Definition insert m key value : option V * OrderedMap K V :=
  match om_values m !! key with
  | Some old => (Some old, MkOrderedMap (om_keys m) (<[key := value]> (om_values m)))
  | None => (None, MkOrderedMap (om_keys m ++ [key]) (<[key := value]> (om_values m)))
  end.

Definition get_or_default `{Inhabited V} m key : V := default inhabitant (get m key).

Definition from_iter (items : list (K * V)) : OrderedMap K V :=
  foldl (λ m '(key, value), (insert m key value).2) (with_capacity (length items)) items.

(** [PartialEq]: the order of the keys counts. *)
Definition om_eq (value_eq : V → V → bool) m1 m2 : bool :=
  bool_decide (om_keys m1 = om_keys m2)
  && bool_decide (dom (om_values m1) = dom (om_values m2))
  && forallb (λ key, match om_values m1 !! key, om_values m2 !! key with
                     | Some a, Some b => value_eq a b
                     | _, _ => false
                     end) (elements (dom (om_values m1))).

(** ** Diffs *)

(** What each of the two loops of [diff_by] emits for one entry. *)
Definition added_change m (e : K * V) : list (MapChange K V) :=
  if contains_key m e.1 then [] else [Added e.1 e.2].

Definition old_change (equal : V → V → bool) (other : OrderedMap K V) (e : K * V)
  : list (MapChange K V) :=
  match get other e.1 with
  | Some new => if equal e.2 new then [] else [Modified e.1 e.2 new]
  | None => [Removed e.1 e.2]
  end.

Definition diff_by m (other : OrderedMap K V) (equal : V → V → bool)
  : option (list (MapChange K V)) :=
  new_entries ← entries other;
  old_entries ← entries m;
  Some ((new_entries ≫= added_change m) ++ (old_entries ≫= old_change equal other)).

(** ** Traversal with a callback that changes the map *)

(** [None]: out of fuel, since a callback that keeps appending never ends. *)
Fixpoint visit_keys_mut (fuel : nat) {St : Type}
    (visit : OrderedMap K V → K → St → OrderedMap K V * St * bool)
    (index : nat) m (st : St) : option (OrderedMap K V * St) :=
  match fuel with
  | O => None
  | S fuel =>
      match om_keys m !! index with
      | None => Some (m, st)
      | Some key =>
          let '(m, st, go_on) := visit m key st in
          if go_on : bool then visit_keys_mut fuel visit (S index) m st else Some (m, st)
      end
  end.
End Operations.

(** [DiffOrderedMaps] with the equality of the values. *)
Definition diff {K V} `{Countable K, EqDecision V} (m other : OrderedMap K V)
  : option (list (MapChange K V)) := diff_by m other (λ a b, bool_decide (a = b)).

(** ** Sets *)

Definition OrderedSet (K : Type) `{Countable K} : Type := OrderedMap K unit.

Definition os_values {K} `{Countable K} (s : OrderedSet K) : list K := om_keys s.
Definition os_contains {K} `{Countable K} (s : OrderedSet K) (key : K) : bool := contains_key s key.
Definition os_insert {K} `{Countable K} (s : OrderedSet K) (key : K) : bool * OrderedSet K :=
  let '(old, s) := insert s key tt in (bool_decide (old = None), s).
Definition os_remove {K} `{Countable K} (s : OrderedSet K) (key : K)
  : option (bool * OrderedSet K) :=
  '(old, s) ← remove s key; Some (bool_decide (is_Some old), s).

(** Deleting the current key in a traversal shifts the next one under the index
    already visited, which is skipped, as the comment in the source says. *)
Example visit_delete_skips :
  visit_keys_mut 5 (λ m key seen,
      (match remove m key with Some (_, m) => m | None => m end, seen ++ [key], true))
    0 (from_iter [(1%Z, tt); (2%Z, tt); (3%Z, tt); (4%Z, tt)]) []
  = Some (MkOrderedMap [2%Z; 4%Z] {[2%Z := tt; 4%Z := tt]}, [1%Z; 3%Z]).
Proof. vm_compute. reflexivity. Qed.

(** * The map as an association list *)

Section Refinement.
Context {K V : Type} `{Countable K}.
Implicit Types (m : OrderedMap K V) (l : list (K * V)) (k key : K) (value : V).

(** ** The specification: an association list *)

Fixpoint alist_get l key : option V :=
  match l with
  | [] => None
  | (k, v) :: l => if decide (k = key) then Some v else alist_get l key
  end.

(** Replacing keeps the position, a new key goes to the end. *)
Fixpoint alist_insert l key value : list (K * V) :=
  match l with
  | [] => [(key, value)]
  | (k, v) :: l => if decide (k = key) then (k, value) :: l else (k, v) :: alist_insert l key value
  end.

Definition alist_remove l key : list (K * V) := filter (λ e, e.1 ≠ key) l.

(** The abstraction: the deque holds the keys of the list, each once, and the
    table their values. *)
Definition represents m l : Prop :=
  NoDup l.*1 ∧ om_keys m = l.*1 ∧ om_values m = list_to_map l.

Lemma represents_default : represents om_default [].
Proof. split; [constructor|done]. Qed.

Lemma list_to_map_get l key : (list_to_map l : gmap K V) !! key = alist_get l key.
Proof.
  induction l as [|[k v] l IH]; simpl; [done|]. destruct (decide (k = key)) as [->|].
  - by rewrite lookup_insert_eq.
  - by rewrite lookup_insert_ne.
Qed.

Lemma alist_get_Some l key : is_Some (alist_get l key) ↔ key ∈ l.*1.
Proof.
  rewrite <-list_to_map_get, <-not_eq_None_Some, <-not_elem_of_list_to_map.
  split; [apply dec_stable|auto].
Qed.

Lemma represents_get m l key : represents m l → get m key = alist_get l key.
Proof. intros (_ & _ & Hv). unfold get. by rewrite Hv, list_to_map_get. Qed.

(** ** Reading *)

Lemma represents_entries m l : represents m l → entries m = Some l.
Proof.
  intros (Hnd & Hk & Hv). unfold entries. rewrite Hk. apply mapM_Some.
  apply Forall2_fmap_l, Forall2_same_length_lookup_2; [done|].
  intros i [k v] e' He He'. simplify_eq. unfold entry.
  rewrite Hv. simpl. rewrite (elem_of_list_to_map_1 l k v); [done|done|].
  by apply list_elem_of_lookup_2 in He.
Qed.

Lemma into_iter_loop_entries (t : gmap K V) l : ∀ (Hnd : NoDup l.*1),
  (∀ k v, (k, v) ∈ l → t !! k = Some v) → into_iter_loop l.*1 t = Some l.
Proof.
  revert t. induction l as [|[k v] l IH]; intros t Hnd Ht; [done|]. simpl in *.
  apply NoDup_cons in Hnd as [Hk Hnd].
  rewrite (Ht k v) by (left). simpl. rewrite IH; [done|done|].
  intros k' v' Hin. rewrite lookup_delete_ne.
  - apply Ht. by right.
  - intros <-. apply Hk. apply list_elem_of_fmap. by exists (k, v').
Qed.

Lemma represents_into_iter m l : represents m l → into_iter m = Some l.
Proof.
  intros (Hnd & Hk & Hv). unfold into_iter. rewrite Hk. apply into_iter_loop_entries; [done|].
  intros k v Hin. rewrite Hv. by apply elem_of_list_to_map_1.
Qed.

Lemma represents_entry_at m l (i : Z) :
  represents m l → entry_at m i = Some (if (i <? 0)%Z then None else l !! Z.to_nat i).
Proof.
  intros (Hnd & Hk & Hv). unfold entry_at. destruct (i <? 0)%Z; [done|]. rewrite Hk.
  rewrite list_lookup_fmap. destruct (l !! Z.to_nat i) as [[k v]|] eqn:E; simpl; [|done].
  unfold entry. rewrite Hv, (elem_of_list_to_map_1 l k v); [done|done|].
  by apply list_elem_of_lookup_2 in E.
Qed.

(** ** Writing *)

Lemma alist_insert_keys l key value :
  (alist_insert l key value).*1 = if decide (key ∈ l.*1) then l.*1 else l.*1 ++ [key].
Proof.
  induction l as [|[k v] l IH]; csimpl; [done|]. destruct (decide (k = key)) as [->|Hne]; csimpl.
  - rewrite decide_True by (by left). done.
  - rewrite IH. destruct (decide (key ∈ l.*1)) as [Hin|Hin].
    + by rewrite decide_True by (by right).
    + rewrite decide_False; [done|]. rewrite elem_of_cons. naive_solver.
Qed.

Lemma alist_insert_map l key value :
  list_to_map (alist_insert l key value) = <[key := value]> (list_to_map l : gmap K V).
Proof.
  induction l as [|[k v] l IH]; simpl; [done|]. destruct (decide (k = key)) as [->|Hne]; simpl.
  - by rewrite insert_insert_eq.
  - by rewrite IH, insert_insert_ne.
Qed.

Lemma insert_represents m l key value :
  represents m l →
  represents (insert m key value).2 (alist_insert l key value)
  ∧ (insert m key value).1 = alist_get l key.
Proof.
  intros Hr. pose proof (represents_get m l key Hr) as Hg. unfold get in Hg.
  destruct Hr as (Hnd & Hk & Hv). unfold insert. rewrite Hg.
  pose proof (alist_insert_keys l key value) as Hkeys.
  pose proof (alist_get_Some l key) as Hin.
  destruct (alist_get l key) as [old|] eqn:E; simpl.
  - rewrite decide_True in Hkeys by (apply Hin; eauto).
    split; [|done]. unfold represents. simpl. by rewrite Hkeys, alist_insert_map, Hv.
  - assert (key ∉ l.*1) as Hnot by (rewrite <-Hin; by intros [? ?]).
    rewrite decide_False in Hkeys by done. split; [|done]. unfold represents. simpl.
    rewrite Hkeys, alist_insert_map, Hv, Hk. split; [|done].
    apply NoDup_app. split; [done|]. split; [|apply NoDup_singleton].
    intros x Hx ->%list_elem_of_singleton. done.
Qed.

Lemma alist_remove_map l key :
  NoDup l.*1 → list_to_map (alist_remove l key) = delete key (list_to_map l : gmap K V).
Proof.
  unfold alist_remove. induction l as [|[k v] l IH]; simpl; intros Hnd; [by rewrite delete_empty|].
  apply NoDup_cons in Hnd as [Hk Hnd]. rewrite filter_cons. simpl.
  destruct (decide (k ≠ key)) as [Hne|Heq]; simpl.
  - by rewrite IH, delete_insert_ne.
  - apply dec_stable in Heq as ->. rewrite delete_insert_eq, IH by done.
    done.
Qed.

Lemma alist_remove_absent l key : key ∉ l.*1 → alist_remove l key = l.
Proof.
  unfold alist_remove. induction l as [|[k v] l IH]; [done|]. csimpl.
  rewrite not_elem_of_cons. intros [Hne Hin]. rewrite filter_cons_True by (simpl; congruence).
  by rewrite IH.
Qed.

Lemma remove_at_keys l key index :
  NoDup l.*1 → position (λ item, bool_decide (item = key)) l.*1 = Some index →
  remove_at index l.*1 = (alist_remove l key).*1.
Proof.
  unfold remove_at. revert index. induction l as [|[k v] l IH]; intros index; [done|].
  csimpl. intros [Hk Hnd]%NoDup_cons. unfold alist_remove. rewrite filter_cons. csimpl.
  case_bool_decide as Hkey.
  - intros [= <-]. subst k. rewrite decide_False by auto. csimpl.
    change (filter _ l) with (alist_remove l key). by rewrite alist_remove_absent.
  - destruct (position _ l.*1) as [i|] eqn:E; csimpl; [|done]. intros [= <-].
    rewrite decide_True by done. csimpl. f_equal. by apply (IH i).
Qed.

Lemma position_key l key :
  key ∈ l.*1 → ∃ index, position (λ item, bool_decide (item = key)) l.*1 = Some index.
Proof.
  intros Hin. destruct (position _ l.*1) as [i|] eqn:E; [eauto|].
  apply position_None in E. rewrite Forall_forall in E. specialize (E key Hin).
  by apply bool_decide_eq_false in E.
Qed.

Lemma remove_represents m l key :
  represents m l →
  ∃ m', remove m key = Some (alist_get l key, m') ∧ represents m' (alist_remove l key).
Proof.
  intros Hr. pose proof (represents_get m l key Hr) as Hg. unfold get in Hg.
  pose proof Hr as (Hnd & Hk & Hv). unfold remove. rewrite Hg.
  destruct (alist_get l key) as [old|] eqn:E.
  - destruct (position_key l key) as [i Hi]; [apply alist_get_Some; eauto|].
    rewrite Hk, Hi. simpl. eexists; split; [done|]. split_and!; simpl.
    + apply (sublist_NoDup _ l.*1); [done|]. apply fmap_sublist, sublist_filter.
    + by apply remove_at_keys.
    + by rewrite alist_remove_map, Hv.
  - eexists; split; [done|]. rewrite alist_remove_absent; [done|].
    rewrite <-alist_get_Some, E. by intros [? ?].
Qed.

(** ** Sequences of operations *)

Inductive Op := OpInsert (key : K) (value : V) | OpRemove (key : K) | OpClear.

Definition run_op (op : Op) m : option (option V * OrderedMap K V) :=
  match op with
  | OpInsert key value => Some (insert m key value)
  | OpRemove key => remove m key
  | OpClear => Some (None, clear m)
  end.

Fixpoint run_ops (ops : list Op) m : option (list (option V) * OrderedMap K V) :=
  match ops with
  | [] => Some ([], m)
  | op :: ops =>
      '(out, m) ← run_op op m;
      '(outs, m) ← run_ops ops m;
      Some (out :: outs, m)
  end.

Definition spec_op (op : Op) l : option V * list (K * V) :=
  match op with
  | OpInsert key value => (alist_get l key, alist_insert l key value)
  | OpRemove key => (alist_get l key, alist_remove l key)
  | OpClear => (None, [])
  end.

Fixpoint spec_ops (ops : list Op) l : list (option V) * list (K * V) :=
  match ops with
  | [] => ([], l)
  | op :: ops =>
      let '(out, l) := spec_op op l in
      let '(outs, l) := spec_ops ops l in (out :: outs, l)
  end.

Lemma run_op_represents op m l :
  represents m l →
  ∃ m', run_op op m = Some ((spec_op op l).1, m') ∧ represents m' (spec_op op l).2.
Proof.
  intros Hr. destruct op as [key value|key|]; simpl.
  - destruct (insert_represents m l key value Hr) as [Hr' Ho].
    exists (insert m key value).2. split; [|done]. rewrite <-Ho. by destruct (insert m key value).
  - by apply remove_represents.
  - eexists; split; [done|]. apply represents_default.
Qed.

Lemma run_ops_represents ops : ∀ m l,
  represents m l →
  ∃ m', run_ops ops m = Some ((spec_ops ops l).1, m') ∧ represents m' (spec_ops ops l).2.
Proof.
  induction ops as [|op ops IH]; intros m l Hr; simpl; [eauto|].
  destruct (run_op_represents op m l Hr) as (m1 & -> & Hr1).
  destruct (spec_op op l) as [out l1]. simpl in *.
  destruct (IH m1 l1 Hr1) as (m2 & -> & Hr2). destruct (spec_ops ops l1). simpl in *. eauto.
Qed.

(** [C31] Every sequence of insertions, removals and clearings, from the empty
    map, behaves as on an association list that replaces in place and appends
    new keys: no operation panics, each returns the value the list had, and the
    entries, the owning iterator, the lookups and the signed indices of the
    result are those of the list. *)
Theorem ordered_map_refines ops :
  let '(outs, l) := spec_ops ops [] in
  ∃ m, run_ops ops om_default = Some (outs, m)
    ∧ entries m = Some l ∧ into_iter m = Some l ∧ len m = length l
    ∧ (∀ key, get m key = alist_get l key)
    ∧ (∀ index, entry_at m index = Some (if (index <? 0)%Z then None else l !! Z.to_nat index)).
Proof.
  destruct (run_ops_represents ops om_default [] represents_default) as (m & Hrun & Hr).
  destruct (spec_ops ops []) as [outs l]. simpl in *. exists m. split_and!.
  - done.
  - by apply represents_entries.
  - by apply represents_into_iter.
  - unfold len. destruct Hr as (_ & -> & _). by rewrite length_fmap.
  - intros key. by apply represents_get.
  - intros index. by apply represents_entry_at.
Qed.
(** ** Diffs *)

Definition change_key (c : MapChange K V) : K :=
  match c with Added k _ | Removed k _ | Modified k _ _ => k end.

(** What the change says the key holds afterwards, and before. *)
Definition change_new (c : MapChange K V) : option V :=
  match c with Added _ v | Modified _ _ v => Some v | Removed _ _ => None end.
Definition change_old (c : MapChange K V) : option V :=
  match c with Added _ _ => None | Removed _ v | Modified _ v _ => Some v end.

(** Carrying a change out on a table. *)
Definition apply_change (t : gmap K V) (c : MapChange K V) : gmap K V :=
  match change_new c with
  | Some v => <[change_key c := v]> t
  | None => delete (change_key c) t
  end.

Lemma apply_change_eq t c : apply_change t c !! change_key c = change_new c.
Proof.
  unfold apply_change. destruct (change_new c); [apply lookup_insert_eq|apply lookup_delete_eq].
Qed.

Lemma apply_change_ne t c k : change_key c ≠ k → apply_change t c !! k = t !! k.
Proof.
  intros. unfold apply_change.
  destruct (change_new c); [by apply lookup_insert_ne|by apply lookup_delete_ne].
Qed.

(** Changes that are right about the target and touch every difference get there. *)
Lemma apply_changes_target cs (target : gmap K V) : ∀ t,
  (∀ c, c ∈ cs → change_new c = target !! change_key c) →
  (∀ k, k ∉ change_key <$> cs → t !! k = target !! k) →
  foldl apply_change t cs = target.
Proof.
  induction cs as [|c cs IH]; intros t Hnew Hsame; csimpl.
  - apply map_eq. intros k. apply Hsame. apply not_elem_of_nil.
  - apply IH; [intros c' Hc'; apply Hnew; by right|]. intros k Hk.
    destruct (decide (change_key c = k)) as [<-|Hne].
    + rewrite apply_change_eq. apply Hnew. by left.
    + rewrite apply_change_ne by done. apply Hsame. csimpl. rewrite not_elem_of_cons. auto.
Qed.

Lemma bind_changes_keys (f : K * V → list (MapChange K V)) l :
  (∀ e c, c ∈ f e → change_key c = e.1) → (∀ e, length (f e) ≤ 1) → NoDup l.*1 →
  NoDup (change_key <$> (l ≫= f)) ∧ ∀ k, k ∈ change_key <$> (l ≫= f) → k ∈ l.*1.
Proof.
  intros Hf Hone. induction l as [|e l IH]; intros Hnd; [split; [constructor|done]|].
  csimpl in *. apply NoDup_cons in Hnd as [He Hnd]. destruct (IH Hnd) as [IH1 IH2].
  specialize (Hone e). rewrite fmap_app.
  assert (∀ k, k ∈ change_key <$> f e → k = e.1) as Hkey.
  { intros k (c & -> & Hc)%list_elem_of_fmap. by apply Hf. }
  split.
  - apply NoDup_app. split_and!; [| |done].
    + destruct (f e) as [|c [|]]; csimpl in *; [constructor|apply NoDup_singleton|lia].
    + intros k ->%Hkey Hin. by apply He, IH2.
  - intros k [->%Hkey|Hin%IH2]%elem_of_app; [by left|by right].
Qed.

Lemma represents_elem m l k v : represents m l → (k, v) ∈ l ↔ get m k = Some v.
Proof.
  intros (Hnd & _ & Hv). unfold get. rewrite Hv. split; [by apply elem_of_list_to_map_1|].
  by apply elem_of_list_to_map_2.
Qed.

(** The first loop: the keys only the new map has. *)
Lemma added_changes_spec m other l' c :
  represents other l' →
  c ∈ l' ≫= added_change m ↔ ∃ k v, c = Added k v ∧ get m k = None ∧ get other k = Some v.
Proof.
  intros Hr'. rewrite list_elem_of_bind. unfold added_change, contains_key. split.
  - intros ([k v] & Hc & Hin). simpl in Hc. case_bool_decide as Hk; [by apply elem_of_nil in Hc|].
    apply list_elem_of_singleton in Hc as ->. exists k, v. split; [done|].
    split; [by apply eq_None_not_Some|by apply (represents_elem other l')].
  - intros (k & v & -> & Hm & Ho). exists (k, v). unfold get in Hm. simpl. rewrite Hm.
    rewrite bool_decide_eq_false_2 by (by intros [? ?]).
    split; [by left|by apply (represents_elem other l')].
Qed.

(** The second loop: the keys of the old map that are gone or changed. *)
Lemma old_changes_spec `{EqDecision V} m other l c :
  represents m l →
  c ∈ l ≫= old_change (λ a b, bool_decide (a = b)) other ↔
  ∃ k v, get m k = Some v ∧
    ((c = Removed k v ∧ get other k = None)
     ∨ ∃ v', c = Modified k v v' ∧ get other k = Some v' ∧ v ≠ v').
Proof.
  intros Hr. rewrite list_elem_of_bind. unfold old_change. split.
  - intros ([k v] & Hc & Hin%(represents_elem m l)); [|done]. simpl in Hc. exists k, v.
    split; [done|]. destruct (get other k) as [v'|].
    + case_bool_decide; [by apply elem_of_nil in Hc|].
      apply list_elem_of_singleton in Hc as ->. eauto.
    + apply list_elem_of_singleton in Hc as ->. eauto.
  - intros (k & v & Hm & Hc). exists (k, v). simpl.
    split; [|by apply (represents_elem m l)].
    destruct Hc as [[-> ->]|(v' & -> & -> & Hne)]; [by left|].
    rewrite bool_decide_eq_false_2 by done. by left.
Qed.

(** A diff is exact: it panics on no two maps, its notifications carried
    out on the old values give the new ones, each tells the value the key had
    and the one it gets, the two differ, and no key is notified twice. *)
Theorem diff_correct `{EqDecision V} m other l l' :
  represents m l → represents other l' →
  ∃ changes, diff m other = Some changes
    ∧ foldl apply_change (om_values m) changes = om_values other
    ∧ NoDup (change_key <$> changes)
    ∧ ∀ c, c ∈ changes →
        change_old c = get m (change_key c) ∧ change_new c = get other (change_key c)
        ∧ change_old c ≠ change_new c.
Proof.
  intros Hr Hr'. unfold diff, diff_by.
  rewrite (represents_entries m l Hr), (represents_entries other l' Hr'). simpl.
  eexists; split; [done|].
  assert (∀ c, c ∈ (l' ≫= added_change m) ++ (l ≫= old_change (λ a b, bool_decide (a = b)) other) →
    change_old c = get m (change_key c) ∧ change_new c = get other (change_key c)
    ∧ change_old c ≠ change_new c) as Hall.
  { intros c [Hc|Hc]%elem_of_app.
    - apply (added_changes_spec m other) in Hc as (k & v & -> & Hm & Ho); [|done]. simpl.
      by rewrite Hm, Ho.
    - apply (old_changes_spec m other) in Hc
        as (k & v & Hm & [[-> Ho]|(v' & -> & Ho & Hne)]); [..|done]; simpl;
        split_and!; congruence. }
  split; [|split; [|done]].
  - apply apply_changes_target; [intros c Hc; by apply Hall|]. intros k Hk.
    rewrite fmap_app, not_elem_of_app in Hk. destruct Hk as [Hk1 Hk2].
    apply dec_stable. intros Hne. fold (get m k) (get other k) in Hne.
    destruct (get m k) as [v|] eqn:Em; [apply Hk2|destruct (get other k) as [v'|] eqn:Eo; [|done]];
      [|apply Hk1].
    + apply list_elem_of_fmap. destruct (get other k) as [v'|] eqn:Eo.
      * exists (Modified k v v'). split; [done|]. apply (old_changes_spec m other l); [done|].
        exists k, v. split; [done|]. right. exists v'. split_and!; congruence.
      * exists (Removed k v). split; [done|]. apply (old_changes_spec m other l); [done|].
        exists k, v. auto.
    + apply list_elem_of_fmap. exists (Added k v'). split; [done|].
      apply (added_changes_spec m other l'); eauto.
  - rewrite fmap_app. apply NoDup_app. split_and!.
    + apply bind_changes_keys; [intros e c|intros e|apply Hr']; unfold added_change; case_match;
        first [by intros ?%elem_of_nil|by intros ->%list_elem_of_singleton|simpl; lia].
    + intros k (c & -> & Hc)%list_elem_of_fmap (c' & Heq & Hc')%list_elem_of_fmap.
      apply (added_changes_spec m other) in Hc as (k & v & -> & Hm & _); [|done].
      apply (old_changes_spec m other) in Hc' as (k' & v' & Hm' & Hc'); [|done].
      simpl in Heq. destruct Hc' as [[-> _]|(? & -> & _)]; simpl in Heq; congruence.
    + apply bind_changes_keys; [intros e c|intros e|apply Hr]; unfold old_change; repeat case_match;
        first [by intros ?%elem_of_nil|by intros ->%list_elem_of_singleton|simpl; lia].
Qed.
End Refinement.

Lemma diff_correct_witness :
  ∃ changes, diff (from_iter [(1, true); (2, false)]) (from_iter [(3, true); (2, true)])
      = Some changes
    ∧ foldl apply_change (om_values (from_iter [(1, true); (2, false)])) changes
      = om_values (from_iter [(3, true); (2, true)])
    ∧ NoDup (change_key <$> changes)
    ∧ ∀ c, c ∈ changes →
        change_old c = get (from_iter [(1, true); (2, false)]) (change_key c)
        ∧ change_new c = get (from_iter [(3, true); (2, true)]) (change_key c)
        ∧ change_old c ≠ change_new c.
Proof.
  apply (diff_correct _ _ [(1, true); (2, false)] [(3, true); (2, true)]);
    (split_and!; [apply (bool_decide_eq_true_1 _); vm_compute; reflexivity|vm_compute; reflexivity..]).
Defined.
