(* ===== verification/Bfs.v ===== *)
(** The parallel breadth-first search of [crates/tsr_core/src/bfs.rs].

    The threads of a level are interleaved one shared access at a time: every
    load, compare-exchange and lock of the source is one step of [thread_step],
    and [level_step] lets any unfinished thread make the next one. [neighbors],
    [visit], [get_key] and [preprocess_level] are the caller's functions. *)

From stdpp Require Import gmap.
From S2P Require Import Prelude OrderedMap.

Local Open Scope Z_scope.

(** A node and the job that queued it. *)
Inductive Job (N : Type) := MkJob (job_node : N) (job_parent : option (Job N)).
Arguments MkJob {N} _ _.

Definition job_node {N} (job : Job N) : N := match job with MkJob node _ => node end.
Definition job_parent {N} (job : Job N) : option (Job N) := match job with MkJob _ parent => parent end.

Fixpoint job_path {N} (job : Job N) : list N :=
  match job with
  | MkJob node None => [node]
  | MkJob node (Some parent) => node :: job_path parent
  end.

(** From the found node back to the start. *)
Definition create_path {N} (job : option (Job N)) : list N :=
  match job with None => [] | Some job => job_path job end.

(** ** [update_min] *)

(** Where a thread is in the loop of [update_min]: before the load, or with the
    value it loaded before the compare-exchange. *)
Inductive MinPc := MinLoad | MinCas (current : Z).

(** One atomic access: where the thread is next ([None]: returned) and the cell. *)
Definition update_min (candidate : Z) (pc : MinPc) (cell : Z) : option MinPc * Z :=
  match pc with
  | MinLoad => if cell <? candidate then (None, cell) else (Some (MinCas cell), cell)
  | MinCas current =>
      if cell =? current then (None, candidate) else (Some MinLoad, cell)
  end.

Section Search.
Context {N K : Type} `{Countable K}.
Context (get_key : N → K) (neighbors : N → list N) (visit : N → bool * bool).

(** ** The threads of one level *)

Inductive ThreadPc :=
  | LoadGoal
  | AddVisited
  | Visit
  | MinGoal (pc : MinPc)
  | MinFallback (pc : MinPc)
  | ReloadGoal
  | CountNeighbors
  | StoreNext
  | Finished.

#[global] Instance MinPc_eq_dec : EqDecision MinPc.
Proof. solve_decision. Defined.
#[global] Instance ThreadPc_eq_dec : EqDecision ThreadPc.
Proof. solve_decision. Defined.

Record Shared := MkShared {
  lowest_goal : Z;
  lowest_fallback : Z;
  next_job_count : Z;
  visited : gset K;
  next : list (list (Job N));
}.

Definition set_goal (goal : Z) (s : Shared) : Shared :=
  MkShared goal (lowest_fallback s) (next_job_count s) (visited s) (next s).
Definition set_fallback (fallback : Z) (s : Shared) : Shared :=
  MkShared (lowest_goal s) fallback (next_job_count s) (visited s) (next s).
Definition add_count (n : Z) (s : Shared) : Shared :=
  MkShared (lowest_goal s) (lowest_fallback s) (wrap_i64 (next_job_count s + n)) (visited s) (next s).
Definition add_visited (key : K) (s : Shared) : Shared :=
  MkShared (lowest_goal s) (lowest_fallback s) (next_job_count s) ({[key]} ∪ visited s) (next s).
Definition set_next (i : nat) (jobs : list (Job N)) (s : Shared) : Shared :=
  MkShared (lowest_goal s) (lowest_fallback s) (next_job_count s) (visited s) (<[i := jobs]> (next s)).

(** The jobs a job queues. *)
Definition child_jobs (job : Job N) : list (Job N) :=
  (λ child, MkJob child (Some job)) <$> neighbors (job_node job).

(** Where a thread goes once [visit] has answered. *)
Definition after_visit (has_fallback : bool) (result : bool * bool) : ThreadPc :=
  let '(is_result, stop) := result in
  if is_result then
    if stop then MinGoal MinLoad
    else if negb has_fallback then MinFallback MinLoad else ReloadGoal
  else ReloadGoal.

(** The next shared access of the thread of job [i]. *)
Definition thread_step (i : nat) (job : Job N) (has_fallback : bool) (pc : ThreadPc) (s : Shared)
  : option (ThreadPc * Shared) :=
  match pc with
  | LoadGoal => Some (if lowest_goal s <=? Z.of_nat i then Finished else AddVisited, s)
  | AddVisited =>
      Some (if bool_decide (get_key (job_node job) ∈ visited s) then (Finished, s)
            else (Visit, add_visited (get_key (job_node job)) s))
  | Visit => Some (after_visit has_fallback (visit (job_node job)), s)
  | MinGoal pc =>
      let '(pc, goal) := update_min (Z.of_nat i) pc (lowest_goal s) in
      Some (match pc with None => Finished | Some pc => MinGoal pc end, set_goal goal s)
  | MinFallback pc =>
      let '(pc, fallback) := update_min (Z.of_nat i) pc (lowest_fallback s) in
      Some (match pc with None => ReloadGoal | Some pc => MinFallback pc end,
            set_fallback fallback s)
  | ReloadGoal => Some (if lowest_goal s <=? Z.of_nat i then Finished else CountNeighbors, s)
  | CountNeighbors =>
      Some (if bool_decide (child_jobs job = []) then (Finished, s)
            else (StoreNext, add_count (Z.of_nat (length (child_jobs job))) s))
  | StoreNext => Some (Finished, set_next i (child_jobs job) s)
  | Finished => None
  end.

(** The threads of a level, in level order, and what they share. *)
Definition LevelState : Type := Shared * list ThreadPc.

Inductive level_step (jobs : list (Job N)) (has_fallback : bool) : LevelState → LevelState → Prop :=
  | step_thread i job pc pc' s s' pcs :
      jobs !! i = Some job → pcs !! i = Some pc →
      thread_step i job has_fallback pc s = Some (pc', s') →
      level_step jobs has_fallback (s, pcs) (s', <[i := pc']> pcs).

Definition level_start (jobs : list (Job N)) (seen : gset K) : LevelState :=
  (MkShared I64_MAX I64_MAX 0 seen (replicate (length jobs) []),
   replicate (length jobs) LoadGoal).

(** All threads joined. *)
Definition joined (st : LevelState) : Prop := Forall (λ pc, pc = Finished) st.2.

(** ** From level to level *)

Record LevelResult := MkLevelResult {
  stop : bool;
  found : option (Job N);
  next_jobs : OrderedMap K (Job N);
}.

Definition queue_job (m : OrderedMap K (Job N)) (job : Job N) : OrderedMap K (Job N) :=
  let key := get_key (job_node job) in
  if contains_key m key then m else (insert m key job).2.

(** What [process_level] returns once its threads are joined. *)
Definition level_result (jobs : OrderedMap K (Job N)) (has_fallback : bool) (s : Shared)
  : option LevelResult :=
  if negb (lowest_goal s =? I64_MAX) then
    e ← (entry_at jobs (lowest_goal s) : option (option (K * Job N)));
    Some (MkLevelResult true (option_map snd e) om_default)
  else
    found_job ← (if negb has_fallback && negb (lowest_fallback s =? I64_MAX)
             then e ← (entry_at jobs (lowest_fallback s) : option (option (K * Job N))); Some (option_map snd e)
             else (Some None : option (option (Job N))));
    Some (MkLevelResult false found_job
            (foldl queue_job (with_capacity (Z.to_nat (next_job_count s))) (concat (next s)))).

Context (preprocess_level : option (OrderedMap K (Job N) → OrderedMap K (Job N))).

Definition preprocess (jobs : OrderedMap K (Job N)) : OrderedMap K (Job N) :=
  match preprocess_level with None => jobs | Some f => f jobs end.

(** One run of [process_level]: some interleaving of its threads, to the end. *)
Definition process_level (jobs : OrderedMap K (Job N)) (fallback : option (Job N))
    (seen : gset K) (result : LevelResult) (seen' : gset K) : Prop :=
  ∃ js s pcs,
    values (preprocess jobs) = Some js
    ∧ rtc (level_step js (bool_decide (is_Some fallback))) (level_start js seen) (s, pcs)
    ∧ joined (s, pcs)
    ∧ level_result (preprocess jobs) (bool_decide (is_Some fallback)) s = Some result
    ∧ seen' = visited s.

(** The [while] loop over the levels. *)
Inductive search (seen : gset K) (level : OrderedMap K (Job N)) (fallback : option (Job N))
  : bool * list N → Prop :=
  | search_empty :
      is_empty level = true → search seen level fallback (false, create_path fallback)
  | search_stop result seen' :
      is_empty level = false → process_level level fallback seen result seen' →
      stop result = true → search seen level fallback (true, create_path (found result))
  | search_next result seen' answer :
      is_empty level = false → process_level level fallback seen result seen' →
      stop result = false →
      search seen' (next_jobs result)
        (if bool_decide (is_Some (found result)) && bool_decide (fallback = None)
         then found result else fallback) answer →
      search seen level fallback answer.

(** The same run one shared access at a time: between two levels, among the
    threads of a level (with its jobs as preprocessed), or returned. *)
Inductive RunState :=
  | AtLevel (seen : gset K) (level : OrderedMap K (Job N)) (fallback : option (Job N))
  | InLevel (jobs : OrderedMap K (Job N)) (fallback : option (Job N)) (js : list (Job N))
      (st : LevelState)
  | Answered (answer : bool * list N).

Inductive run_step : RunState → RunState → Prop :=
  | run_empty seen level fallback :
      is_empty level = true →
      run_step (AtLevel seen level fallback) (Answered (false, create_path fallback))
  | run_enter seen level fallback js :
      is_empty level = false → values (preprocess level) = Some js →
      run_step (AtLevel seen level fallback)
        (InLevel (preprocess level) fallback js (level_start js seen))
  | run_thread jobs fallback js st st' :
      level_step js (bool_decide (is_Some fallback)) st st' →
      run_step (InLevel jobs fallback js st) (InLevel jobs fallback js st')
  | run_stop jobs fallback js s pcs result :
      joined (s, pcs) → level_result jobs (bool_decide (is_Some fallback)) s = Some result →
      stop result = true →
      run_step (InLevel jobs fallback js (s, pcs)) (Answered (true, create_path (found result)))
  | run_next jobs fallback js s pcs result :
      joined (s, pcs) → level_result jobs (bool_decide (is_Some fallback)) s = Some result →
      stop result = false →
      run_step (InLevel jobs fallback js (s, pcs))
        (AtLevel (visited s) (next_jobs result)
           (if bool_decide (is_Some (found result)) && bool_decide (fallback = None)
            then found result else fallback)).

(** Where [breadth_first_search_parallel_ex] starts, with the visited set it starts from. *)
Definition run_start (start : N) (seen : gset K) : RunState :=
  AtLevel seen (insert om_default (get_key start) (MkJob start None)).2 None.

(** [breadth_first_search_parallel_ex] with the visited set it starts from. *)
Definition breadth_first_search_parallel_ex (start : N) (seen : gset K) (answer : bool * list N)
  : Prop :=
  search seen (insert om_default (get_key start) (MkJob start None)).2 None answer.
End Search.

(** The default: no visited set to share, nothing to prune, the node is its key. *)
Definition breadth_first_search_parallel {N} `{Countable N}
    (neighbors : N → list N) (visit : N → bool * bool) (start : N) (answer : bool * list N) : Prop :=
  breadth_first_search_parallel_ex (λ node, node) neighbors visit None start ∅ answer.
