(* ===== verification/BfsLevel.v ===== *)
(** One level of the parallel search: whatever the interleaving of its threads,
    the level ends, and what it returns is what visiting its jobs one after the
    other would. *)

From stdpp Require Import gmap relations.
From S2P Require Import Prelude OrderedMap Bfs.

Local Open Scope Z_scope.

Section Level.
Context {N K : Type} `{Countable K}.
Context (get_key : N → K) (neighbors : N → list N) (visit : N → bool * bool).
Implicit Types (job : Job N) (s : Shared (N := N) (K := K)) (i j : nat) (seen : gset K).

Local Abbreviation key job := (get_key (job_node job)).
Local Abbreviation answer job := (visit (job_node job)).
Local Abbreviation thread_step := (thread_step get_key neighbors visit).
Local Abbreviation level_step := (level_step get_key neighbors visit).

(** ** The sequential level *)

Definition goal_test seen job : bool :=
  bool_decide (key job ∉ seen) && bool_decide (answer job = (true, true)).
Definition fallback_test seen job : bool :=
  bool_decide (key job ∉ seen) && bool_decide (answer job = (true, false)).

(** What an unseen job queues when nothing stops the level. *)
Definition queued seen job : list (Job N) :=
  if bool_decide (key job ∈ seen) then [] else child_jobs neighbors job.

Definition spec_result (jobs : list (Job N)) (has_fallback : bool) seen : LevelResult (N := N) (K := K) :=
  match position (goal_test seen) jobs with
  | Some m => MkLevelResult true (jobs !! m) om_default
  | None =>
      MkLevelResult false
        (if has_fallback then None else position (fallback_test seen) jobs ≫= (jobs !!.))
        (foldl (queue_job get_key) om_default (concat (queued seen <$> jobs)))
  end.

Definition spec_seen (jobs : list (Job N)) seen : gset K := seen ∪ list_to_set ((λ job, key job) <$> jobs).

(** ** The invariant of the interleaving *)

Section Threads.
Context (jobs : list (Job N)) (has_fallback : bool) (seen : gset K).
Hypothesis keys_distinct : NoDup ((λ job, key job) <$> jobs).
Hypothesis jobs_small : Z.of_nat (length jobs) < I64_MAX.

(** A cell of [update_min] holds its start or an index that qualifies. *)
Definition cell_inv (test : Job N → bool) (cell : Z) : Prop :=
  cell = I64_MAX ∨ ∃ i job, cell = Z.of_nat i ∧ jobs !! i = Some job ∧ test job = true.

Definition min_inv (pc : MinPc) i : Prop :=
  match pc with MinLoad => True | MinCas current => Z.of_nat i <= current end.

(** What a thread past its [visit] knows when its job is no goal. *)
Definition passed s i job : Prop :=
  key job ∉ seen ∧ key job ∈ visited s ∧ answer job ≠ (true, true)
  ∧ (has_fallback = false → answer job = (true, false) → lowest_fallback s <= Z.of_nat i).

Definition thread_inv s i job (pc : ThreadPc) : Prop :=
  match pc with
  | LoadGoal | AddVisited => (key job ∈ visited s → key job ∈ seen) ∧ next s !! i = Some []
  | Visit => key job ∉ seen ∧ key job ∈ visited s ∧ next s !! i = Some []
  | MinGoal pc =>
      key job ∉ seen ∧ answer job = (true, true) ∧ min_inv pc i
  | MinFallback pc =>
      key job ∉ seen ∧ key job ∈ visited s ∧ answer job = (true, false) ∧ has_fallback = false
      ∧ min_inv pc i ∧ next s !! i = Some []
  | ReloadGoal | CountNeighbors | StoreNext => passed s i job ∧ next s !! i = Some []
  | Finished =>
      lowest_goal s <= Z.of_nat i
      ∨ (key job ∈ seen ∧ next s !! i = Some [])
      ∨ (passed s i job ∧ next s !! i = Some (child_jobs neighbors job))
  end.

Definition shared_inv s : Prop :=
  cell_inv (goal_test seen) (lowest_goal s)
  ∧ cell_inv (λ job, negb has_fallback && fallback_test seen job) (lowest_fallback s)
  ∧ seen ⊆ visited s ∧ visited s ⊆ spec_seen jobs seen ∧ length (next s) = length jobs.

Definition level_inv (st : LevelState (N := N) (K := K)) : Prop :=
  shared_inv st.1 ∧ length st.2 = length jobs
  ∧ ∀ i job pc, jobs !! i = Some job → st.2 !! i = Some pc → thread_inv st.1 i job pc.

(** What one step of the thread of job [i] may do to the shared state. *)
Record shared_change i job s s' : Prop := {
  change_goal : lowest_goal s' <= lowest_goal s;
  change_fallback : lowest_fallback s' <= lowest_fallback s;
  change_visited k : k ∈ visited s' ↔ k ∈ visited s ∨ (k = key job ∧ k ∈ visited s');
  change_next j : j ≠ i → next s' !! j = next s !! j;
}.

Lemma thread_inv_stable i job j job' s s' pc :
  shared_change i job s s' → jobs !! i = Some job → jobs !! j = Some job' → j ≠ i →
  thread_inv s j job' pc → thread_inv s' j job' pc.
Proof.
  intros [Hg Hf Hv Hn] Hi Hj Hne. assert (key job' ≠ key job) as Hkey.
  { intros Heq. apply Hne. apply (NoDup_lookup _ _ _ (key job') keys_distinct).
    - by rewrite list_lookup_fmap, Hj.
    - rewrite list_lookup_fmap, Hi. by rewrite Heq. }
  assert (passed s j job' → passed s' j job') as Hpassed.
  { unfold passed. intros (? & ? & ? & Hle). split_and!; [done|apply Hv; auto|done|].
    intros ? ?. specialize (Hle ltac:(done) ltac:(done)). lia. }
  destruct pc; unfold thread_inv; rewrite ?Hn by done; try naive_solver lia.
Qed.

Lemma update_min_spec test i job pc cell pc' cell' :
  jobs !! i = Some job → test job = true → cell_inv test cell → min_inv pc i →
  update_min (Z.of_nat i) pc cell = (pc', cell') →
  cell_inv test cell' ∧ cell' <= cell
  ∧ match pc' with None => cell' <= Z.of_nat i | Some pc' => min_inv pc' i end.
Proof.
  intros Hi Ht Hc Hp. destruct pc as [|current]; simpl in *.
  - destruct (Z.ltb_spec cell (Z.of_nat i)); intros [= <- <-]; (split; [done|]); simpl; lia.
  - destruct (Z.eqb_spec cell current); intros [= <- <-].
    + split; [right; eauto|lia].
    + split; [done|]. simpl. lia.
Qed.

Lemma shared_change_refl i job s : shared_change i job s s.
Proof. split; [lia|lia|naive_solver|done]. Qed.

Lemma goal_test_true job : goal_test seen job = true ↔ key job ∉ seen ∧ answer job = (true, true).
Proof. unfold goal_test. by rewrite andb_true_iff, !bool_decide_eq_true. Qed.

Lemma fallback_test_true job :
  fallback_test seen job = true ↔ key job ∉ seen ∧ answer job = (true, false).
Proof. unfold fallback_test. by rewrite andb_true_iff, !bool_decide_eq_true. Qed.

Lemma after_visit_inv s i job :
  key job ∉ seen → key job ∈ visited s → next s !! i = Some [] →
  thread_inv s i job (after_visit has_fallback (answer job)).
Proof.
  intros Hk Hv Hn. unfold after_visit. destruct (answer job) as [[] []] eqn:E;
    [|destruct has_fallback eqn:Ef|..]; simpl; unfold passed; rewrite E; naive_solver.
Qed.

Lemma key_in_spec_seen i job : jobs !! i = Some job → key job ∈ spec_seen jobs seen.
Proof.
  intros Hi. unfold spec_seen. apply elem_of_union. right. apply elem_of_list_to_set.
  apply list_elem_of_fmap. exists job. split; [done|]. by apply list_elem_of_lookup_2 in Hi.
Qed.

(** One access of one thread keeps the invariant of its thread and of what is
    shared, and changes the rest only as [shared_change] allows. *)
Lemma thread_step_inv i job pc s pc' s' :
  jobs !! i = Some job → shared_inv s → thread_inv s i job pc →
  thread_step i job has_fallback pc s = Some (pc', s') →
  shared_inv s' ∧ thread_inv s' i job pc' ∧ shared_change i job s s'.
Proof.
  intros Hi Hs Hp Hstep. pose proof Hs as (Hg & Hf & Hlo & Hhi & Hlen).
  pose proof (shared_change_refl i job s) as Hrefl.
  destruct pc as [| | |pc|pc| | | |]; simpl in Hstep; try done.
  - injection Hstep as <- <-. destruct (Z.leb_spec (lowest_goal s) (Z.of_nat i)); simpl; auto.
  - case_bool_decide as Hin; injection Hstep as <- <-.
    + destruct Hp as [Hp Hn]. split_and!; [done| |done]. simpl. right; left. auto.
    + destruct Hp as [Hp Hn]. split_and!.
      * split_and!; simpl; [done|done|set_solver| |done].
        apply union_subseteq. split; [|done]. apply singleton_subseteq_l.
        by apply (key_in_spec_seen i).
      * simpl. split_and!; [set_solver|set_solver|done].
      * split; simpl; [lia|lia| |done]. intros k. rewrite elem_of_union, elem_of_singleton.
        naive_solver.
  - injection Hstep as <- <-. destruct Hp as (? & ? & ?).
    split_and!; [done|by apply after_visit_inv|done].
  - destruct (update_min _ pc _) as [pc1 goal] eqn:E. injection Hstep as <- <-.
    destruct Hp as (Hk & Ha & Hm).
    apply (update_min_spec (goal_test seen) i job) in E as (Hg' & Hle & Hpc);
      [|done|by apply goal_test_true|done|done].
    split_and!.
    + by split_and!.
    + destruct pc1; simpl; auto.
    + split; simpl; [done|lia|naive_solver|done].
  - destruct (update_min _ pc _) as [pc1 fallback] eqn:E. injection Hstep as <- <-.
    destruct Hp as (Hk & Hv & Ha & Hhf & Hm & Hn).
    apply (update_min_spec (λ job, negb has_fallback && fallback_test seen job) i job)
      in E as (Hf' & Hle & Hpc); [|done|rewrite Hhf; by apply fallback_test_true|done|done].
    split_and!.
    + by split_and!.
    + destruct pc1; simpl; unfold passed; simpl; naive_solver congruence.
    + split; simpl; [lia|done|naive_solver|done].
  - injection Hstep as <- <-. destruct (Z.leb_spec (lowest_goal s) (Z.of_nat i)); simpl; auto.
  - destruct Hp as [Hp Hn]. case_bool_decide as Hc; injection Hstep as <- <-.
    + split_and!; [done| |done]. simpl. right; right. by rewrite Hc.
    + split_and!; [by split_and!| |by split; simpl; [lia|lia|naive_solver|]].
      by split.
  - destruct Hp as [Hp Hn]. injection Hstep as <- <-. split_and!.
    + split_and!; simpl; [done..|]. by rewrite length_insert.
    + simpl. right; right. split; [done|]. apply list_lookup_insert_eq.
      by apply lookup_lt_Some in Hn.
    + split; simpl; [lia|lia|naive_solver|]. intros j Hj. by apply list_lookup_insert_ne.
Qed.

Lemma level_step_inv st st' : level_inv st → level_step jobs has_fallback st st' → level_inv st'.
Proof.
  intros (Hs & Hl & Ht) Hstep. destruct Hstep as [i job pc pc' s s' pcs Hi Hpc Hstep]. simpl in *.
  destruct (thread_step_inv i job pc s pc' s') as (Hs' & Ht' & Hc); [done|done|by apply Ht|done|].
  split; [done|]. split; [simpl; by rewrite length_insert|]. simpl. intros j job' pcj Hj Hpcj.
  destruct (decide (j = i)) as [->|Hne].
  - rewrite list_lookup_insert_eq in Hpcj by (by apply lookup_lt_Some in Hpc).
    by simplify_eq.
  - rewrite list_lookup_insert_ne in Hpcj by done.
    apply (thread_inv_stable i job j job' s s'); auto.
Qed.

Lemma level_start_inv : level_inv (level_start jobs seen).
Proof.
  split; [|split]; simpl.
  - split_and!; simpl; [by left|by left|done|unfold spec_seen; set_solver|].
    by rewrite length_replicate.
  - by rewrite length_replicate.
  - intros i job pc Hi Hpc. apply lookup_replicate in Hpc as [-> Hlt]. simpl.
    split; [done|]. by apply lookup_replicate_2.
Qed.

Lemma level_reach_inv st : rtc (level_step jobs has_fallback) (level_start jobs seen) st → level_inv st.
Proof.
  intros Hr. pose proof level_start_inv as Hinv. revert Hr Hinv.
  generalize (level_start jobs seen : LevelState (N := N) (K := K)). intros st0 Hr.
  induction Hr as [|st1 st2 st3 Hstep Hr IH]; intros Hinv; [done|].
  apply IH. by apply (level_step_inv st1).
Qed.

(** ** When all threads are joined *)

Lemma position_first {A} (f : A → bool) l i x :
  l !! i = Some x → f x = true → ∃ m, position f l = Some m ∧ (m ≤ i)%nat.
Proof.
  intros Hi Hx. destruct (position f l) as [m|] eqn:E.
  - exists m. split; [done|]. apply position_Some in E as (y & Hy & _ & Hbefore).
    destruct (decide (i < m)%nat) as [Hlt|]; [|lia]. exfalso.
    rewrite Forall_forall in Hbefore. specialize (Hbefore x).
    rewrite Hbefore in Hx; [done|]. apply (list_elem_of_lookup_2 _ i).
    rewrite lookup_take. by rewrite decide_True by lia.
  - apply position_None in E. rewrite Forall_forall in E.
    rewrite E in Hx; [done|]. by apply (list_elem_of_lookup_2 _ i).
Qed.

(** The value a cell ends with: the first index that qualifies. *)
Lemma cell_final test cell :
  cell_inv test cell →
  (∀ i job, jobs !! i = Some job → test job = true → cell <= Z.of_nat i) →
  cell = match position test jobs with Some m => Z.of_nat m | None => I64_MAX end.
Proof.
  intros Hc Hmin. destruct (position test jobs) as [m|] eqn:E.
  - pose proof E as (job & Hm & Ht & _)%position_Some. specialize (Hmin m job Hm Ht).
    apply lookup_lt_Some in Hm. destruct Hc as [->|(i & job' & -> & Hi & Hti)]; [lia|].
    destruct (position_first test jobs i job' Hi Hti) as (m' & Hm' & Hle). simplify_eq. lia.
  - destruct Hc as [->|(i & job' & -> & Hi & Hti)]; [done|].
    destruct (position_first test jobs i job' Hi Hti) as (m' & Hm' & Hle). congruence.
Qed.

Lemma joined_thread s pcs i job :
  level_inv (s, pcs) → joined (s, pcs) → jobs !! i = Some job → thread_inv s i job Finished.
Proof.
  intros (_ & Hl & Ht) Hj Hi. simpl in *.
  assert (is_Some (pcs !! i)) as [pc Hpc].
  { apply lookup_lt_is_Some. rewrite Hl. by apply lookup_lt_Some in Hi. }
  unfold joined in Hj. simpl in Hj. rewrite Forall_lookup in Hj.
  apply (Ht i job) in Hpc as Hp; [|done]. by rewrite (Hj i pc Hpc) in Hp.
Qed.

Lemma joined_goal s pcs :
  level_inv (s, pcs) → joined (s, pcs) →
  lowest_goal s
  = match position (goal_test seen) jobs with Some m => Z.of_nat m | None => I64_MAX end.
Proof.
  intros Hinv Hj. apply cell_final; [apply Hinv|]. intros i job Hi Ht.
  apply goal_test_true in Ht as [Hk Ha].
  destruct (joined_thread s pcs i job Hinv Hj Hi) as [Hle|[[Hin _]|[(_ & _ & Hne & _) _]]]; [done|..];
    done.
Qed.

Lemma joined_no_goal s pcs i job :
  level_inv (s, pcs) → joined (s, pcs) → lowest_goal s = I64_MAX → jobs !! i = Some job →
  (key job ∈ seen ∧ next s !! i = Some [])
  ∨ (passed s i job ∧ next s !! i = Some (child_jobs neighbors job)).
Proof.
  intros Hinv Hj Hg Hi. pose proof (lookup_lt_Some _ _ _ Hi).
  destruct (joined_thread s pcs i job Hinv Hj Hi) as [Hle|Hrest]; [lia|done].
Qed.

Lemma joined_fallback s pcs :
  level_inv (s, pcs) → joined (s, pcs) → lowest_goal s = I64_MAX → has_fallback = false →
  lowest_fallback s
  = match position (fallback_test seen) jobs with Some m => Z.of_nat m | None => I64_MAX end.
Proof.
  intros Hinv Hj Hg Hhf. apply cell_final.
  - destruct Hinv as ((_ & Hf & _) & _). simpl in Hf. rewrite Hhf in Hf. done.
  - intros i job Hi [Hk Ha]%fallback_test_true.
    destruct (joined_no_goal s pcs i job Hinv Hj Hg Hi) as [[Hin _]|[(_ & _ & _ & Hle) _]]; [done|].
    by apply Hle.
Qed.

Lemma joined_next s pcs :
  level_inv (s, pcs) → joined (s, pcs) → lowest_goal s = I64_MAX →
  next s = queued seen <$> jobs ∧ visited s = spec_seen jobs seen.
Proof.
  intros Hinv Hj Hg. pose proof Hinv as ((_ & _ & Hlo & Hhi & Hlen) & _). simpl in *.
  assert (∀ i job, jobs !! i = Some job →
            next s !! i = Some (queued seen job) ∧ key job ∈ visited s) as Hjob.
  { intros i job Hi. unfold queued.
    destruct (joined_no_goal s pcs i job Hinv Hj Hg Hi) as [[Hin Hn]|[(Hin & Hv & _) Hn]].
    - rewrite bool_decide_eq_true_2 by done. auto.
    - by rewrite bool_decide_eq_false_2 by done. }
  split.
  - apply list_eq_same_length with (length jobs); [by rewrite length_fmap|done|].
    intros i x y Hi Hx Hy. rewrite list_lookup_fmap in Hy.
    destruct (jobs !! i) as [job|] eqn:E; simplify_eq/=.
    destruct (Hjob i job E) as [Hn _]. congruence.
  - apply set_eq. intros k. split; [apply Hhi|]. unfold spec_seen.
    rewrite elem_of_union, elem_of_list_to_set. intros [Hk|Hk]; [by apply Hlo|].
    apply list_elem_of_fmap in Hk as (job & -> & Hin). apply list_elem_of_lookup in Hin as [i Hi].
    by apply (Hjob i).
Qed.

(** ** Every interleaving ends *)

(** How many steps a loop of [update_min] has left, at most. *)
Definition min_rank (cell : Z) (pc : MinPc) : Z :=
  match pc with
  | MinLoad => 2 * cell + 2
  | MinCas current => if current =? cell then 2 * cell + 1 else 2 * cell + 3
  end.

Definition rank s (pc : ThreadPc) : Z :=
  match pc with
  | LoadGoal => 2 * lowest_goal s + 2 * lowest_fallback s + 10
  | AddVisited => 2 * lowest_goal s + 2 * lowest_fallback s + 9
  | Visit => 2 * lowest_goal s + 2 * lowest_fallback s + 8
  | MinGoal pc => 1 + min_rank (lowest_goal s) pc
  | MinFallback pc => 4 + min_rank (lowest_fallback s) pc
  | ReloadGoal => 3
  | CountNeighbors => 2
  | StoreNext => 1
  | Finished => 0
  end.

Definition level_rank (st : LevelState (N := N) (K := K)) : Z := foldr Z.add 0 (rank st.1 <$> st.2).

Lemma cell_inv_nonneg test cell : cell_inv test cell → 0 <= cell.
Proof. intros [->|(i & _ & -> & _)]; lia. Qed.

Lemma min_rank_mono cell cell' pc : cell' <= cell → min_rank cell' pc <= min_rank cell pc.
Proof. intros. destruct pc as [|current]; simpl; [lia|]. if_split; lia. Qed.

Lemma rank_mono i job s s' pc : shared_change i job s s' → rank s' pc <= rank s pc.
Proof.
  intros [Hg Hf _ _]. destruct pc as [| | |pc|pc| | | |]; simpl; try lia.
  - pose proof (min_rank_mono _ _ pc Hg). lia.
  - pose proof (min_rank_mono _ _ pc Hf). lia.
Qed.

Lemma rank_nonneg s pc : shared_inv s → 0 <= rank s pc.
Proof.
  intros (Hg%cell_inv_nonneg & Hf%cell_inv_nonneg & _).
  destruct pc as [| | |[]|[]| | | |]; simpl; if_split; lia.
Qed.

(** The thread that steps comes closer to its end. *)
Lemma thread_step_rank i job pc s pc' s' :
  shared_inv s → thread_step i job has_fallback pc s = Some (pc', s') → rank s' pc' < rank s pc.
Proof.
  intros (Hg%cell_inv_nonneg & Hf%cell_inv_nonneg & _) Hstep.
  destruct pc as [| | |[|current]|[|current]| | | |]; simpl in Hstep;
    repeat match type of Hstep with
    | context [if ?b then _ else _] => destruct b eqn:?
    end; simplify_eq/=; try lia.
  all: try (unfold after_visit; repeat case_match; simpl; lia).
  all: rewrite ?Z.eqb_refl; try lia.
  all: rewrite Z.eqb_sym; rewrite Heqb; lia.
Qed.

Lemma foldr_add_insert s s' pcs i (pc pc' : ThreadPc) :
  (∀ pc, rank s' pc <= rank s pc) → pcs !! i = Some pc → rank s' pc' < rank s pc →
  foldr Z.add 0 (rank s' <$> <[i := pc']> pcs) < foldr Z.add 0 (rank s <$> pcs).
Proof.
  intros Hle. revert i. induction pcs as [|p pcs IH]; intros i Hi Hlt; [done|].
  assert (foldr Z.add 0 (rank s' <$> pcs) <= foldr Z.add 0 (rank s <$> pcs)) as Hrest.
  { clear -Hle. induction pcs as [|q pcs IH]; csimpl; [lia|]. specialize (Hle q). lia. }
  destruct i as [|i]; csimpl in *.
  - simplify_eq. lia.
  - specialize (IH i Hi Hlt). specialize (Hle p). lia.
Qed.

Lemma level_step_rank st st' :
  level_inv st → level_step jobs has_fallback st st' → level_rank st' < level_rank st.
Proof.
  intros (Hs & _ & Ht) Hstep. destruct Hstep as [i job pc pc' s s' pcs Hi Hpc Hstep]. simpl in *.
  destruct (thread_step_inv i job pc s pc' s') as (_ & _ & Hc); [done|done|by apply Ht|done|].
  unfold level_rank. simpl. apply (foldr_add_insert s s' pcs i pc).
  - intros p. by apply (rank_mono i job).
  - done.
  - by apply (thread_step_rank i job).
Qed.

Lemma level_rank_nonneg st : level_inv st → 0 <= level_rank st.
Proof.
  intros (Hs & _). unfold level_rank. induction st.2 as [|pc pcs IH]; csimpl; [lia|].
  pose proof (rank_nonneg _ pc Hs). lia.
Qed.

Lemma level_terminates st : level_inv st → Acc (flip (level_step jobs has_fallback)) st.
Proof.
  remember (Z.to_nat (level_rank st)) as n eqn:Hn. revert st Hn.
  induction (lt_wf n) as [n _ IH]. intros st -> Hinv. constructor. intros st' Hstep.
  pose proof (level_step_inv st st' Hinv Hstep) as Hinv'.
  apply (IH (Z.to_nat (level_rank st'))); [|done|done].
  pose proof (level_step_rank st st' Hinv Hstep). pose proof (level_rank_nonneg st' Hinv'). lia.
Qed.

(** A thread that is not finished can always make its next access. *)
Lemma level_progress s pcs :
  level_inv (s, pcs) → joined (s, pcs) ∨ ∃ st', level_step jobs has_fallback (s, pcs) st'.
Proof.
  intros (_ & Hl & _). simpl in Hl.
  destruct (decide (Exists (λ pc, pc ≠ Finished) pcs)) as [Hex|Hno].
  - right. apply Exists_exists in Hex as (pc & Hin & Hne).
    apply list_elem_of_lookup in Hin as [i Hi].
    assert (is_Some (jobs !! i)) as [job Hj].
    { apply lookup_lt_is_Some. rewrite <-Hl. by apply lookup_lt_Some in Hi. }
    assert (∃ r, thread_step i job has_fallback pc s = Some r) as [[pc' s'] Hstep].
    { destruct pc as [| | |pc|pc| | | |]; simpl; try done; repeat case_match; eauto. }
    exists (s', <[i := pc']> pcs). by apply (step_thread _ _ _ _ _ i job pc).
  - left. unfold joined. simpl. apply Forall_forall. intros pc Hin.
    apply dec_stable. intros Hne. apply Hno. apply Exists_exists. eauto.
Qed.

Lemma level_joins st :
  level_inv st → ∃ st', rtc (level_step jobs has_fallback) st st' ∧ joined st'.
Proof.
  intros Hinv. pose proof (level_terminates st Hinv) as Hacc.
  induction Hacc as [[s pcs] _ IH].
  destruct (level_progress s pcs Hinv) as [Hj|[st' Hstep]].
  - exists (s, pcs). split; [apply rtc_refl|done].
  - destruct (IH st' Hstep) as (st2 & Hr & Hj); [by apply (level_step_inv (s, pcs))|].
    exists st2. split; [|done]. by apply (rtc_l _ _ st').
Qed.

(** ** The result of a level *)

Lemma level_result_spec ojobs l s pcs :
  represents ojobs l → l.*2 = jobs → level_inv (s, pcs) → joined (s, pcs) →
  level_result get_key ojobs has_fallback s = Some (spec_result jobs has_fallback seen).
Proof.
  intros Hr Hl Hinv Hj. unfold level_result, spec_result.
  pose proof (joined_goal s pcs Hinv Hj) as Hg. rewrite Hg.
  destruct (position (goal_test seen) jobs) as [m|] eqn:E.
  - pose proof (position_lt _ _ _ E). replace (Z.of_nat m =? I64_MAX) with false by lia. simpl.
    rewrite (represents_entry_at _ l) by done. replace (Z.of_nat m <? 0) with false by lia.
    rewrite Nat2Z.id. simpl. by rewrite <-Hl, list_lookup_fmap.
  - simpl. destruct (joined_next s pcs Hinv Hj Hg) as [-> _].
    destruct has_fallback eqn:Hhf; simpl; [done|].
    rewrite (joined_fallback s pcs Hinv Hj Hg) by done.
    destruct (position (fallback_test seen) jobs) as [m|] eqn:Ef; simpl; [|done].
    pose proof (position_lt _ _ _ Ef). replace (Z.of_nat m =? I64_MAX) with false by lia. simpl.
    rewrite (represents_entry_at _ l) by done. replace (Z.of_nat m <? 0) with false by lia.
    rewrite Nat2Z.id. simpl. by rewrite <-Hl, list_lookup_fmap.
Qed.
End Threads.

(** What the callers of [process_level] keep: a level is keyed by its nodes. *)
Definition level_ok (ojobs : OrderedMap K (Job N)) (l : list (K * Job N)) : Prop :=
  represents ojobs l ∧ Forall (λ e, e.1 = key e.2) l ∧ Z.of_nat (length l) < I64_MAX.

Lemma level_ok_values ojobs l : level_ok ojobs l → values ojobs = Some l.*2.
Proof. intros (Hr & _). unfold values. by rewrite (represents_entries ojobs l Hr). Qed.

Lemma level_ok_keys ojobs l : level_ok ojobs l → (λ job, key job) <$> l.*2 = l.*1.
Proof.
  intros (_ & Hk & _). rewrite <-list_fmap_compose. apply list_fmap_ext. intros i e Hi.
  rewrite Forall_lookup in Hk. symmetry. by apply (Hk i).
Qed.

Lemma level_ok_distinct ojobs l : level_ok ojobs l → NoDup ((λ job, key job) <$> l.*2).
Proof. intros Hok. rewrite (level_ok_keys ojobs) by done. apply Hok. Qed.

(** A level is deterministic although its threads race: under every
    interleaving of their loads, compare-exchanges and locks all threads end,
    and every complete run returns what the sequential level returns (the first
    goal in level order, or the first fallback and the jobs queued in order);
    where no goal stops it, the visited set is the same too. *)
Theorem level_deterministic preprocess_level jobs l fallback seen :
  level_ok (preprocess preprocess_level jobs) l →
  let has_fallback := bool_decide (is_Some fallback) in
  (∀ st, rtc (level_step l.*2 has_fallback) (level_start l.*2 seen) st →
     Acc (flip (level_step l.*2 has_fallback)) st)
  ∧ (∃ result seen',
       process_level get_key neighbors visit preprocess_level jobs fallback seen result seen')
  ∧ (∀ result seen',
       process_level get_key neighbors visit preprocess_level jobs fallback seen result seen' →
       result = spec_result l.*2 has_fallback seen
       ∧ (stop result = false → seen' = spec_seen l.*2 seen)).
Proof.
  intros Hok has_fallback. pose proof (level_ok_distinct _ _ Hok) as Hnd.
  pose proof Hok as (Hr & _ & Hlen). rewrite <-(length_fmap snd) in Hlen.
  split_and!.
  - intros st Hst. apply (level_terminates l.*2 has_fallback seen Hnd Hlen).
    by apply (level_reach_inv l.*2 has_fallback seen Hnd Hlen).
  - destruct (level_joins l.*2 has_fallback seen Hnd Hlen (level_start l.*2 seen))
      as ([s pcs] & Hrun & Hj); [by apply level_start_inv|].
    exists (spec_result l.*2 has_fallback seen), (visited s). exists l.*2, s, pcs.
    split_and!; [by apply level_ok_values|done|done| |done].
    apply (level_result_spec l.*2 has_fallback seen Hlen _ l s pcs); [done|done| |done].
    by apply (level_reach_inv l.*2 has_fallback seen Hnd Hlen).
  - intros result seen' (js & s & pcs & Hjs & Hrun & Hj & Hres & ->).
    rewrite (level_ok_values _ l Hok) in Hjs. injection Hjs as <-.
    apply (level_reach_inv l.*2 has_fallback seen Hnd Hlen) in Hrun.
    pose proof (level_result_spec l.*2 has_fallback seen Hlen _ l s pcs Hr eq_refl Hrun Hj).
    fold has_fallback in Hres. assert (result = spec_result l.*2 has_fallback seen) as -> by congruence.
    split; [done|]. intros Hstop. apply (joined_next l.*2 has_fallback seen Hlen s pcs);
      [done|done|].
    rewrite (joined_goal l.*2 has_fallback seen Hlen s pcs) by done. unfold spec_result in Hstop.
    by destruct (position (goal_test seen) l.*2).
Qed.
End Level.

(** A level of three jobs, the last two goals: the race is won by the first. *)
Definition example_level : OrderedMap Z (Job Z) :=
  from_iter [(1, MkJob 1 None); (2, MkJob 2 None); (3, MkJob 3 None)].
Definition example_entries : list (Z * Job Z) :=
  [(1, MkJob 1 None); (2, MkJob 2 None); (3, MkJob 3 None)].
Definition example_visit (n : Z) : bool * bool := (2 <=? n, true).

Lemma example_level_ok : level_ok (λ n, n) example_level example_entries.
Proof.
  split; [|split].
  - split_and!; [apply (bool_decide_eq_true_1 _); vm_compute; reflexivity|vm_compute; reflexivity..].
  - apply (bool_decide_eq_true_1 (Forall _ _)). vm_compute. reflexivity.
  - vm_compute. reflexivity.
Qed.

Lemma level_deterministic_witness :
  level_ok (λ n, n) (preprocess None example_level) example_entries
  ∧ ∀ result seen',
      process_level (λ n, n) (λ n, [n + 1]) example_visit None example_level None ∅ result seen' →
      result = MkLevelResult true (Some (MkJob 2 None)) om_default.
Proof.
  split; [exact example_level_ok|]. intros result seen' Hrun.
  destruct (level_deterministic (λ n, n) (λ n, [n + 1]) example_visit None example_level
              example_entries None ∅ example_level_ok) as (_ & _ & Hdet).
  destruct (Hdet result seen' Hrun) as [-> _]. vm_compute. reflexivity.
Defined.
