(* ===== verification/BfsProps.v ===== *)
(** The whole search of [Bfs.v] on a finite graph: it ends whatever the threads
    do, all runs agree, and the path it returns is a shortest one. *)

From stdpp Require Import gmap relations.
From S2P Require Import Prelude OrderedMap Bfs BfsLevel.

Local Open Scope Z_scope.

Lemma elem_of_concat {A} (x : A) ls : x ∈ concat ls ↔ ∃ l, x ∈ l ∧ l ∈ ls.
Proof. rewrite list_elem_of_In, in_concat. setoid_rewrite list_elem_of_In. naive_solver. Qed.

Section Graph.
Context {N : Type} `{Countable N}.
Context (neighbors : N → list N) (visit : N → bool * bool) (start : N).
Implicit Types (job : Job N) (seen : gset N) (path : list N) (l : list (N * Job N)).

Local Abbreviation node_key := (λ node : N, node).
Local Abbreviation search := (search node_key neighbors visit None).

(** A walk back to the start, as [create_path] lists it. *)
Inductive walk : list N → Prop :=
  | walk_start : walk [start]
  | walk_step n rest c : walk (n :: rest) → c ∈ neighbors n → walk (c :: n :: rest).

Definition is_goal (n : N) : Prop := visit n = (true, true).
Definition is_fallback (n : N) : Prop := visit n = (true, false).

(** A walk to a node that qualifies, no longer than any other. *)
Definition shortest (P : N → Prop) path : Prop :=
  walk path ∧ (∃ n rest, path = n :: rest ∧ P n)
  ∧ ∀ n rest, walk (n :: rest) → P n → (length path ≤ length (n :: rest))%nat.

(** What a search should answer. *)
Definition correct (answer : bool * list N) : Prop :=
  match answer with
  | (true, path) => shortest is_goal path
  | (false, path) =>
      (∀ n rest, walk (n :: rest) → ¬ is_goal n)
      ∧ ((path = [] ∧ ∀ n rest, walk (n :: rest) → ¬ is_fallback n) ∨ shortest is_fallback path)
  end.

(** ** Queueing the next level *)

Lemma alist_insert_elem l k (v : Job N) e : e ∈ alist_insert l k v → e ∈ l ∨ e = (k, v).
Proof.
  induction l as [|[k' v'] l IH]; simpl.
  - intros ->%list_elem_of_singleton. by right.
  - destruct (decide (k' = k)) as [->|]; rewrite !elem_of_cons; naive_solver.
Qed.

Definition keyed l : Prop := Forall (λ e, e.1 = job_node e.2) l.

Lemma queue_jobs_spec js : ∀ m l,
  represents m l → keyed l →
  ∃ l', represents (foldl (queue_job node_key) m js) l' ∧ keyed l'
    ∧ (∀ k, k ∈ l'.*1 ↔ k ∈ l.*1 ∨ k ∈ job_node <$> js)
    ∧ (∀ e, e ∈ l' → e ∈ l ∨ e.2 ∈ js).
Proof.
  induction js as [|job js IH]; intros m l Hr Hk; csimpl.
  { exists l. split_and!; [done|done| |auto]. intros k. split; [auto|].
    by intros [?|?%elem_of_nil]. }
  set (m1 := queue_job _ _ _).
  assert (∃ l1, represents m1 l1 ∧ keyed l1 ∧ (∀ k, k ∈ l1.*1 ↔ k ∈ l.*1 ∨ k = job_node job)
            ∧ (∀ e, e ∈ l1 → e ∈ l ∨ e.2 = job)) as (l1 & Hr1 & Hk1 & Hkeys1 & Hin1).
  { subst m1. unfold queue_job, contains_key. pose proof (represents_get m l (job_node job) Hr) as Hg.
    unfold get in Hg. rewrite Hg. pose proof (alist_get_Some l (job_node job)) as Hsome.
    case_bool_decide as Hc.
    - exists l. split_and!; [done|done| |auto]. intros k. split; [auto|]. intros [?| ->]; [done|].
      by apply Hsome.
    - exists (alist_insert l (job_node job) job). split_and!.
      + apply (insert_represents m l (job_node job) job Hr).
      + unfold keyed in *. rewrite Forall_forall in *. intros e [He| ->]%alist_insert_elem; [|done].
        by apply Hk.
      + intros k. rewrite alist_insert_keys, decide_False by (by rewrite <-Hsome).
        rewrite elem_of_app, list_elem_of_singleton. done.
      + intros e [He| ->]%alist_insert_elem; [by left|by right]. }
  destruct (IH m1 l1 Hr1 Hk1) as (l' & Hr' & Hk' & Hkeys' & Hin').
  exists l'. split_and!; [done|done| |].
  - intros k. rewrite Hkeys', Hkeys1, elem_of_cons. naive_solver.
  - intros e [He|He]%Hin'; [|by right; right]. apply Hin1 in He as [He| <-]; [by left|].
    right. by left.
Qed.

(** ** The invariant of the levels *)

(** At depth [d]: the jobs of the level hold walks of length [d + 1]; every
    shorter walk ends at a seen node and those of that length at a seen one or
    in the level; the seen nodes are no goals and all their neighbours are known. *)
Record level_at (universe : gset N) (d : nat) seen l (fallback : option (Job N)) : Prop := {
  la_jobs k job : (k, job) ∈ l →
    walk (job_path job) ∧ length (job_path job) = S d ∧ head (job_path job) = Some k;
  la_short n rest : walk (n :: rest) → (length (n :: rest) ≤ d)%nat → n ∈ seen;
  la_level n rest : walk (n :: rest) → length (n :: rest) = S d → n ∈ seen ∨ n ∈ l.*1;
  la_seen n : n ∈ seen →
    ¬ is_goal n ∧ (fallback = None → ¬ is_fallback n)
    ∧ ∀ c, c ∈ neighbors n → c ∈ seen ∨ c ∈ l.*1;
  la_universe n : n ∈ seen ∨ n ∈ l.*1 → n ∈ universe;
  la_fallback job : fallback = Some job → shortest is_fallback (job_path job);
}.

Lemma job_path_head job : head (job_path job) = Some (job_node job).
Proof. by destruct job as [n [p|]]. Qed.

Lemma job_path_cons job : ∃ rest, job_path job = job_node job :: rest.
Proof. destruct job as [n [p|]]; simpl; eauto. Qed.

Lemma walk_nonempty path : walk path → ∃ n rest, path = n :: rest.
Proof. destruct 1; eauto. Qed.

Local Abbreviation spec_result := (spec_result node_key neighbors visit).
Local Abbreviation spec_seen := (spec_seen (N := N) node_key).

Lemma level_at_job universe d seen l fallback job :
  level_at universe d seen l fallback → keyed l → job ∈ l.*2 →
  walk (job_path job) ∧ length (job_path job) = S d ∧ job_node job ∈ l.*1.
Proof.
  intros Hl Hk ([k job'] & -> & Hin)%list_elem_of_fmap. simpl.
  destruct (la_jobs _ _ _ _ _ Hl k job' Hin) as (Hw & Hlen & Hh). split_and!; [done|done|].
  unfold keyed in Hk. rewrite Forall_forall in Hk. specialize (Hk _ Hin). simpl in Hk.
  rewrite <-Hk. apply list_elem_of_fmap. by exists (k, job').
Qed.

Lemma level_key_job l k : keyed l → k ∈ l.*1 → ∃ job, job ∈ l.*2 ∧ job_node job = k.
Proof.
  intros Hk ([k' job] & -> & Hin)%list_elem_of_fmap. unfold keyed in Hk.
  rewrite Forall_forall in Hk. exists job. split; [|symmetry; by apply (Hk (k', job))].
  apply list_elem_of_fmap. by exists (k', job).
Qed.

(** The first job that passes a test holds a shortest walk, when no shorter
    walk and no seen node qualifies. *)
Lemma found_shortest (P : N → Prop) universe d seen l fallback m job :
  level_at universe d seen l fallback → keyed l →
  l.*2 !! m = Some job → P (job_node job) → (∀ n, n ∈ seen → ¬ P n) →
  shortest P (job_path job).
Proof.
  intros Hl Hk Hm HP Hseen. apply list_elem_of_lookup_2 in Hm as Hin.
  destruct (level_at_job _ _ _ _ _ job Hl Hk Hin) as (Hw & Hlen & _).
  split; [done|]. split.
  { destruct (job_path_cons job) as [rest ->]. by exists (job_node job), rest. }
  intros n rest Hwn HPn. rewrite Hlen. destruct (decide (length (n :: rest) ≤ d)%nat); [|lia].
  destruct (Hseen n); [by apply (la_short _ _ _ _ _ Hl n rest)|done].
Qed.

Lemma spec_stop universe d seen l fallback :
  level_at universe d seen l fallback → keyed l →
  stop (spec_result l.*2 (bool_decide (is_Some fallback)) seen) = true →
  shortest is_goal
    (create_path (found (spec_result l.*2 (bool_decide (is_Some fallback)) seen))).
Proof.
  intros Hl Hk. unfold spec_result.
  destruct (position (goal_test node_key visit seen) l.*2) as [m|] eqn:E; [intros _|done].
  apply position_Some in E as (job & Hm & Ht & _). simpl. rewrite Hm. simpl.
  apply goal_test_true in Ht as [_ Ht].
  apply (found_shortest is_goal universe d seen l fallback m); [done|done|done|done|].
  intros n Hn. by apply (la_seen _ _ _ _ _ Hl n).
Qed.

Lemma not_stop_no_goal seen l hf job :
  stop (spec_result l.*2 hf seen) = false → job ∈ l.*2 → job_node job ∉ seen →
  ¬ is_goal (job_node job).
Proof.
  unfold spec_result. destruct (position _ l.*2) as [m|] eqn:E; [done|]. intros _ Hin Hn Hg.
  apply position_None in E. rewrite Forall_forall in E. specialize (E job Hin).
  rewrite (proj2 (goal_test_true node_key visit seen job)) in E by done. done.
Qed.

(** The level the sequential step leaves satisfies the invariant one deeper. *)
Definition next_fallback (fallback : option (Job N)) (r : LevelResult (N := N) (K := N))
  : option (Job N) :=
  if bool_decide (is_Some (found r)) && bool_decide (fallback = None) then found r else fallback.

Lemma spec_next_level seen l hf :
  keyed l → stop (spec_result l.*2 hf seen) = false →
  ∃ l', represents (next_jobs (spec_result l.*2 hf seen)) l' ∧ keyed l'
    ∧ (∀ k, k ∈ l'.*1 ↔ ∃ job, job ∈ l.*2 ∧ job_node job ∉ seen ∧ k ∈ neighbors (job_node job))
    ∧ (∀ k job', (k, job') ∈ l' →
         ∃ job, job ∈ l.*2 ∧ job' = MkJob k (Some job) ∧ k ∈ neighbors (job_node job)).
Proof.
  intros Hk. unfold spec_result. destruct (position _ l.*2); [done|]. intros _. simpl.
  set (js := concat _).
  assert (∀ job', job' ∈ js ↔ ∃ job c, job ∈ l.*2 ∧ job_node job ∉ seen
            ∧ c ∈ neighbors (job_node job) ∧ job' = MkJob c (Some job)) as Hjs.
  { intros job'. subst js. rewrite elem_of_concat. split.
    - intros (x & Hin & (job & -> & Hjob)%list_elem_of_fmap). unfold queued in Hin.
      case_bool_decide as Hs; [by apply elem_of_nil in Hin|].
      apply list_elem_of_fmap in Hin as (c & -> & Hc). by exists job, c.
    - intros (job & c & Hjob & Hs & Hc & ->). exists (queued node_key neighbors seen job).
      split; [|apply list_elem_of_fmap; by exists job]. unfold queued. rewrite bool_decide_eq_false_2 by done.
      apply list_elem_of_fmap. by exists c. }
  destruct (queue_jobs_spec js om_default []) as (l' & Hr' & Hk' & Hkeys & Hin).
  { apply represents_default. }
  { constructor. }
  exists l'. split_and!; [done|done| |].
  - intros k. rewrite Hkeys. split.
    + intros [Hnil|(job' & -> & Hj)%list_elem_of_fmap]; [by apply elem_of_nil in Hnil|]. apply Hjs in Hj as (job & c & ? & ? & ? & ->).
      by exists job.
    + intros (job & ? & ? & ?). right. apply list_elem_of_fmap. exists (MkJob k (Some job)). split; [done|].
      apply Hjs. by exists job, k.
  - intros k job' He. pose proof He as Hkey. unfold keyed in Hk'. rewrite Forall_forall in Hk'.
    specialize (Hk' _ Hkey). simpl in Hk'.
    destruct (Hin _ He) as [Hnil|He']; [by apply elem_of_nil in Hnil|].
    apply Hjs in He' as (job & c & ? & ? & ? & Heq). simpl in Heq. subst job'. simpl in Hk'.
    subst c. by exists job.
Qed.

Lemma spec_seen_elem l seen n : keyed l → n ∈ spec_seen l.*2 seen ↔ n ∈ seen ∨ n ∈ l.*1.
Proof.
  intros Hk. unfold BfsLevel.spec_seen. rewrite elem_of_union, elem_of_list_to_set.
  rewrite list_elem_of_fmap. apply or_iff_compat_l. split.
  - intros (job & -> & Hin). apply list_elem_of_fmap in Hin as ([k job'] & -> & Hin).
    unfold keyed in Hk. rewrite Forall_forall in Hk. specialize (Hk _ Hin). simpl in *.
    rewrite <-Hk. apply list_elem_of_fmap. by exists (k, job').
  - intros Hn. destruct (level_key_job l n Hk Hn) as (job & ? & <-). by exists job.
Qed.

Lemma none_found_no_fallback seen l job :
  stop (spec_result l.*2 false seen) = false → found (spec_result l.*2 false seen) = None →
  job ∈ l.*2 → job_node job ∉ seen → ¬ is_fallback (job_node job).
Proof.
  unfold spec_result. destruct (position (goal_test _ _ _) l.*2); [done|]. intros _. simpl.
  destruct (position (fallback_test _ _ _) l.*2) as [m|] eqn:E; simpl.
  - apply position_Some in E as (job' & Hm & _). by rewrite Hm.
  - intros _ Hin Hn Hf. apply position_None in E. rewrite Forall_forall in E. specialize (E job Hin).
    rewrite (proj2 (fallback_test_true node_key visit seen job)) in E by done. done.
Qed.

Lemma found_fallback universe d seen l job :
  level_at universe d seen l None → keyed l →
  stop (spec_result l.*2 false seen) = false → found (spec_result l.*2 false seen) = Some job →
  shortest is_fallback (job_path job).
Proof.
  intros Hl Hk. unfold spec_result. destruct (position (goal_test _ _ _) l.*2); [done|]. intros _.
  simpl. destruct (position (fallback_test _ _ _) l.*2) as [m|] eqn:E; simpl; [|done].
  intros Hm. apply position_Some in E as (job' & Hm' & Ht & _). simplify_eq.
  apply fallback_test_true in Ht as [_ Ht].
  apply (found_shortest is_fallback universe d seen l None m); [done..|].
  intros n Hn. by apply (la_seen _ _ _ _ _ Hl n).
Qed.

Context (universe : gset N).
Hypothesis universe_closed : ∀ n c, n ∈ universe → c ∈ neighbors n → c ∈ universe.
Hypothesis universe_small : Z.of_nat (size universe) < I64_MAX.

Lemma next_level_at d seen l fallback l' :
  level_at universe d seen l fallback → keyed l →
  let r := spec_result l.*2 (bool_decide (is_Some fallback)) seen in
  stop r = false →
  (∀ k, k ∈ l'.*1 ↔ ∃ job, job ∈ l.*2 ∧ job_node job ∉ seen ∧ k ∈ neighbors (job_node job)) →
  (∀ k job', (k, job') ∈ l' →
     ∃ job, job ∈ l.*2 ∧ job' = MkJob k (Some job) ∧ k ∈ neighbors (job_node job)) →
  level_at universe (S d) (spec_seen l.*2 seen) l' (next_fallback fallback r).
Proof.
  intros Hl Hk r Hstop Hkeys Hjobs. unfold next_fallback. subst r.
  assert (∀ n, n ∈ l.*1 → n ∉ seen → ∃ job, job ∈ l.*2 ∧ job_node job = n ∧ job_node job ∉ seen)
    as Hunseen.
  { intros n Hn Hs. destruct (level_key_job l n Hk Hn) as (job & ? & <-). by exists job. }
  split.
  - intros k job' (job & Hin & -> & Hc)%Hjobs.
    destruct (level_at_job _ _ _ _ _ job Hl Hk Hin) as (Hw & Hlen & _).
    destruct (job_path_cons job) as [rest Hp]. simpl. rewrite Hp in *. split_and!; [|simpl in *; lia|done].
    by apply walk_step.
  - intros n rest Hw Hlen. apply spec_seen_elem; [done|].
    destruct (decide (length (n :: rest) = S d)) as [Heq|Hne]; [by apply (la_level _ _ _ _ _ Hl _ rest)|].
    left. apply (la_short _ _ _ _ _ Hl n rest); [done|lia].
  - intros n rest Hw Hlen. rewrite spec_seen_elem by done.
    inversion Hw as [|p rest' c Hw' Hc]; subst; [simpl in Hlen; lia|].
    destruct (decide (p ∈ seen)) as [Hp|Hp].
    + left. by apply (la_seen _ _ _ _ _ Hl p).
    + destruct (la_level _ _ _ _ _ Hl p rest' Hw') as [?|Hin]; [simpl in *; lia|done|].
      destruct (Hunseen p Hin Hp) as (job & ? & <- & ?). right. apply Hkeys. by exists job.
  - intros n Hn. apply spec_seen_elem in Hn; [|done].
    destruct (decide (n ∈ seen)) as [Hs|Hs].
    + destruct (la_seen _ _ _ _ _ Hl n Hs) as (Hg & Hf & Hc). split_and!; [done| |].
      * intros Hnone. apply Hf. destruct fallback; [|done]. by rewrite andb_false_r in Hnone.
      * intros c Hcn. left. apply spec_seen_elem; [done|]. by apply Hc.
    + destruct Hn as [?|Hn]; [done|]. destruct (Hunseen n Hn Hs) as (job & Hin & <- & _).
      split_and!.
      * by apply (not_stop_no_goal seen l (bool_decide (is_Some fallback))).
      * destruct fallback as [f|]; [by rewrite andb_false_r|]. simpl in *. intros Hnone.
        apply (none_found_no_fallback seen l); [done| |done|done].
        destruct (found _); [done|]. done.
      * intros c Hc. right. apply Hkeys. by exists job.
  - intros n Hn. rewrite spec_seen_elem in Hn by done. destruct Hn as [Hn|Hn].
    + by apply (la_universe _ _ _ _ _ Hl).
    + apply Hkeys in Hn as (job & Hin & _ & Hc). apply (universe_closed (job_node job)); [|done].
      apply (la_universe _ _ _ _ _ Hl). right. by apply (level_at_job _ _ _ _ _ job Hl Hk Hin).
  - intros job. destruct fallback as [f|].
    + rewrite andb_false_r. apply (la_fallback _ _ _ _ _ Hl).
    + simpl in *. rewrite andb_true_r. case_bool_decide; [|done].
      apply (found_fallback universe d seen l); done.
Qed.

Lemma level_ok_universe d seen level l fallback :
  level_at universe d seen l fallback → represents level l → keyed l →
  level_ok node_key level l.
Proof.
  intros Hl Hr Hk. split; [done|]. split; [done|].
  assert (length l ≤ size universe)%nat; [|lia].
  destruct Hr as (Hnd & _). rewrite <-(length_fmap fst).
  rewrite <-(size_list_to_set (C := gset N) l.*1) by done. apply subseteq_size.
  intros n Hn%elem_of_list_to_set. apply (la_universe _ _ _ _ _ Hl). by right.
Qed.

Lemma represents_is_empty level l : represents level l → is_empty level = bool_decide (l = []).
Proof.
  intros (_ & Hk & _). unfold is_empty. rewrite Hk. apply bool_decide_ext.
  by destruct l.
Qed.

(** Nothing left to do: every walk ends at a seen node. *)
Lemma empty_level_correct d seen fallback :
  level_at universe d seen [] fallback → correct (false, create_path fallback).
Proof.
  intros Hl.
  assert (∀ path, walk path → ∀ n rest, path = n :: rest → n ∈ seen) as Hall.
  { induction 1 as [|p rest' c Hw IH Hc]; intros n rest [= <- <-].
    - destruct (decide (1 ≤ d)%nat).
      + apply (la_short _ _ _ _ _ Hl start []); [constructor|simpl; lia].
      + destruct (la_level _ _ _ _ _ Hl start []) as [?|?%elem_of_nil];
          [constructor|simpl; lia|done..].
    - destruct (la_seen _ _ _ _ _ Hl p) as (_ & _ & Hcl); [by apply (IH p rest')|].
      destruct (Hcl c Hc) as [?|?%elem_of_nil]; done. }
  split.
  - intros n rest Hw. apply (la_seen _ _ _ _ _ Hl n). by apply (Hall (n :: rest) Hw n rest).
  - destruct fallback as [job|].
    + right. by apply (la_fallback _ _ _ _ _ Hl).
    + left. split; [done|]. intros n rest Hw. apply (la_seen _ _ _ _ _ Hl n); [|done].
      by apply (Hall (n :: rest) Hw n rest).
Qed.

(** The unseen nodes of the universe, and whether there is a level to process. *)
Definition search_rank seen l : nat :=
  (size (universe ∖ seen) + (if bool_decide (l = []) then 0 else 1))%nat.

Lemma next_rank d seen l fallback l' :
  level_at universe d seen l fallback → keyed l → l ≠ [] →
  (∀ k, k ∈ l'.*1 ↔ ∃ job, job ∈ l.*2 ∧ job_node job ∉ seen ∧ k ∈ neighbors (job_node job)) →
  (search_rank (spec_seen l.*2 seen) l' < search_rank seen l)%nat.
Proof.
  intros Hl Hk Hne Hkeys. unfold search_rank. rewrite (bool_decide_eq_false_2 (l = [])) by done.
  assert (universe ∖ spec_seen l.*2 seen ⊆ universe ∖ seen) as Hsub.
  { intros n. rewrite !elem_of_difference, spec_seen_elem by done. naive_solver. }
  destruct (decide (Exists (λ k, k ∉ seen) l.*1)) as [Hex|Hno].
  - apply Exists_exists in Hex as (k & Hin & Hs).
    assert (size (universe ∖ spec_seen l.*2 seen) < size (universe ∖ seen))%nat.
    { apply subset_size. split; [done|]. intros Hsup.
      assert (k ∈ universe ∖ spec_seen l.*2 seen) as Hk'.
      { apply Hsup, elem_of_difference. split; [|done]. apply (la_universe _ _ _ _ _ Hl). auto. }
      apply elem_of_difference in Hk' as [_ Hk']. apply Hk'. apply spec_seen_elem; auto. }
    case_bool_decide; lia.
  - apply subseteq_size in Hsub. rewrite bool_decide_eq_true_2; [lia|].
    destruct l' as [|[k job'] l']; [done|]. exfalso.
    destruct (proj1 (Hkeys k)) as (job & Hin & Hs & _); [by left|].
    apply Hno. apply Exists_exists. exists (job_node job). split; [|done].
    by apply (level_at_job _ _ _ _ _ job Hl Hk Hin).
Qed.

(** ** The run ends whatever the threads do *)

Local Abbreviation run_step := (run_step node_key neighbors visit None).
Implicit Types (st : RunState (N := N) (K := N)).

(** Every run from [st] ends, none gets stuck before it has answered, and the
    answer is [answer]. *)
Definition run_ends answer st : Prop :=
  Acc (flip run_step) st
  ∧ ∀ st', rtc run_step st st' → st' = Answered answer ∨ ∃ st'', run_step st' st''.

Lemma run_ends_answered answer : run_ends answer (Answered answer).
Proof.
  split; [constructor; intros st' Hs; inversion Hs|].
  intros st' Hr. inversion Hr as [|? st1 ? Hs]; subst; [by left|inversion Hs].
Qed.

Lemma run_ends_step answer st :
  (∃ st', run_step st st') → (∀ st', run_step st st' → run_ends answer st') → run_ends answer st.
Proof.
  intros Hex Hall. split; [constructor; intros st' Hs; by apply Hall|].
  intros st' Hr. inversion Hr as [|? st1 ? Hs Hr']; subst; [by right|].
  by apply (Hall st1 Hs).
Qed.

(** Where a joined level goes. *)
Definition after_level seen l (fallback : option (Job N)) : RunState (N := N) (K := N) :=
  let r := spec_result l.*2 (bool_decide (is_Some fallback)) seen in
  if stop r then Answered (true, create_path (found r))
  else AtLevel (spec_seen l.*2 seen) (next_jobs r) (next_fallback fallback r).

Lemma level_run_ends answer seen level l fallback (lst : LevelState (N := N) (K := N)) :
  level_ok node_key level l →
  run_ends answer (after_level seen l fallback) →
  level_inv node_key neighbors visit l.*2 (bool_decide (is_Some fallback)) seen lst →
  run_ends answer (InLevel level fallback l.*2 lst).
Proof.
  intros Hok Hnext. pose proof (level_ok_distinct _ _ _ Hok) as Hnd.
  pose proof Hok as (Hr & _ & Hlen). rewrite <-(length_fmap snd) in Hlen.
  set (hf := bool_decide (is_Some fallback)) in *. intros Hinv.
  pose proof (level_terminates _ _ _ l.*2 hf seen Hnd Hlen lst Hinv) as Hacc.
  induction Hacc as [[s pcs] _ IH].
  assert (joined (s, pcs) →
    level_result node_key level hf s = Some (spec_result l.*2 hf seen)
    ∧ (stop (spec_result l.*2 hf seen) = false → visited s = spec_seen l.*2 seen)) as Hjoined.
  { intros Hj. split; [by apply (level_result_spec _ _ _ l.*2 hf seen Hlen _ l s pcs)|].
    intros Hstop. apply (joined_next node_key neighbors visit l.*2 hf seen Hlen s pcs Hinv Hj).
    rewrite (joined_goal _ _ _ l.*2 hf seen Hlen s pcs) by done. unfold spec_result in Hstop.
    by destruct (position (goal_test _ _ seen) l.*2). }
  apply run_ends_step.
  - destruct (level_progress _ _ _ l.*2 hf seen s pcs Hinv) as [Hj|[st' Hs]].
    + destruct (Hjoined Hj) as [Hres _].
      destruct (stop (spec_result l.*2 hf seen)) eqn:Hstop; eexists;
        [by eapply run_stop|by eapply run_next].
    + exists (InLevel level fallback l.*2 st'). by apply run_thread.
  - intros st' Hs. unfold after_level in Hnext. fold hf in Hnext.
    inversion Hs as [| |? ? ? ? st1 Hs1|? ? ? ? ? r Hj Hres Hstop|? ? ? ? ? r Hj Hres Hstop]; subst.
    + apply IH; [done|]. by apply (level_step_inv _ _ _ l.*2 hf seen Hnd Hlen (s, pcs)).
    + destruct (Hjoined Hj) as [Hres' _]. fold hf in Hres. simplify_eq. by rewrite Hstop in Hnext.
    + destruct (Hjoined Hj) as [Hres' Hv]. fold hf in Hres. simplify_eq. rewrite Hstop in Hnext.
      by rewrite (Hv Hstop).
Qed.

Lemma search_from n : ∀ d seen level l fallback,
  (search_rank seen l ≤ n)%nat → represents level l → keyed l →
  level_at universe d seen l fallback →
  ∃ answer, search seen level fallback answer
    ∧ (∀ answer', search seen level fallback answer' → answer' = answer)
    ∧ run_ends answer (AtLevel seen level fallback) ∧ correct answer.
Proof.
  induction n as [n IH] using (well_founded_induction lt_wf).
  intros d seen level l fallback Hn Hr Hk Hl. pose proof (represents_is_empty level l Hr) as He.
  destruct (decide (l = [])) as [->|Hne].
  { rewrite bool_decide_eq_true_2 in He by done.
    exists (false, create_path fallback). split_and!; [by apply search_empty| | |].
    - intros answer' Hs. inversion Hs; congruence.
    - apply run_ends_step; [eexists; by apply run_empty|]. intros st' Hs.
      inversion Hs; simplify_eq; [apply run_ends_answered|congruence].
    - by apply (empty_level_correct d seen). }
  rewrite bool_decide_eq_false_2 in He by done.
  pose proof (level_ok_universe d seen level l fallback Hl Hr Hk) as Hok.
  assert (∀ answer, run_ends answer (after_level seen l fallback) →
            run_ends answer (AtLevel seen level fallback)) as Henter.
  { intros answer Hends. pose proof (level_ok_values _ _ _ Hok) as Hv.
    apply run_ends_step; [eexists; by apply run_enter|]. intros st' Hs.
    inversion Hs as [|? ? ? js _ Hv'| | |]; subst; [congruence|]. simpl in Hv'. simplify_eq.
    apply (level_run_ends answer seen); [done|done|].
    apply level_start_inv; [by apply (level_ok_distinct _ _ _ Hok)|].
    rewrite length_fmap. apply Hok. }
  destruct (level_deterministic node_key neighbors visit None level l fallback seen Hok)
    as (_ & (r0 & seen0 & Hrun) & Hdet).
  destruct (Hdet r0 seen0 Hrun) as [-> Hseen]. unfold after_level in Henter.
  destruct (stop (spec_result l.*2 (bool_decide (is_Some fallback)) seen)) eqn:Hstop.
  - eexists. split_and!; [by eapply search_stop; [done|exact Hrun|done]| | |].
    + intros answer' Hs. inversion Hs as [|r seen' _ Hrun' _|r seen' ? _ Hrun' Hstop' _]; subst.
      * congruence.
      * by destruct (Hdet r seen' Hrun') as [-> _].
      * destruct (Hdet r seen' Hrun') as [-> _]. congruence.
    + apply Henter, run_ends_answered.
    + simpl. by apply (spec_stop universe d).
  - specialize (Hseen eq_refl). subst seen0.
    destruct (spec_next_level seen l (bool_decide (is_Some fallback)) Hk Hstop)
      as (l' & Hr' & Hk' & Hkeys & Hjobs).
    pose proof (next_level_at d seen l fallback l' Hl Hk Hstop Hkeys Hjobs) as Hl'.
    pose proof (next_rank d seen l fallback l' Hl Hk Hne Hkeys) as Hrank.
    destruct (IH (search_rank (spec_seen l.*2 seen) l') ltac:(lia) (S d)
                (spec_seen l.*2 seen) _ l' _ ltac:(lia) Hr' Hk' Hl')
      as (answer & Hs & Huniq & Hends & Hc).
    exists answer.
    split_and!; [by eapply search_next; [done|exact Hrun|done|exact Hs]| |by apply Henter|done].
    intros answer' Hs'. inversion Hs' as [|r seen' _ Hrun' Hstop'|r seen' ? _ Hrun' Hstop' Hrest]; subst.
    + congruence.
    + destruct (Hdet r seen' Hrun') as [-> _]. congruence.
    + destruct (Hdet r seen' Hrun') as [-> Hseen']. rewrite (Hseen' Hstop') in Hrest.
      by apply Huniq.
Qed.

(** [C29] The parallel search is a breadth-first search, on a graph whose nodes
    reachable from the start are finitely many, and fewer than the largest [i64]. Every interleaving of the
    shared accesses of its threads ends: no run is infinite, a retried
    compare-exchange included, and none is stuck before it returns. All of them
    give the same answer. A positive answer is a shortest walk from the start
    to a goal; a negative one means that no goal is reachable and comes with a
    shortest walk to a fallback, if there is one. *)
Theorem bfs_correct :
  start ∈ universe →
  ∃ answer, breadth_first_search_parallel neighbors visit start answer
    ∧ (∀ answer', breadth_first_search_parallel neighbors visit start answer' → answer' = answer)
    ∧ (Acc (flip run_step) (run_start node_key start ∅)
       ∧ ∀ st, rtc run_step (run_start node_key start ∅) st →
           st = Answered answer ∨ ∃ st', run_step st st')
    ∧ correct answer.
Proof.
  intros Hstart. unfold breadth_first_search_parallel, breadth_first_search_parallel_ex.
  apply (search_from (search_rank ∅ [(start, MkJob start None)]) 0 ∅ _
           [(start, MkJob start None)] None); [done| | |].
  - apply (insert_represents om_default [] start (MkJob start None)), represents_default.
  - by constructor.
  - split.
    + intros k job Hin%list_elem_of_singleton. simplify_eq/=. split_and!; [constructor|done|done].
    + intros n rest _ Hlen. simpl in Hlen. lia.
    + intros n rest Hw Hlen. right. inversion Hw; subst; [by left|simpl in Hlen; lia].
    + intros n. set_solver.
    + intros n [?|Hn]; [set_solver|]. apply list_elem_of_singleton in Hn. by subst.
    + done.
Qed.
End Graph.

(** A graph with a goal two steps away, by two ways of different length. *)
Definition example_neighbors (n : Z) : list Z :=
  if decide (n = 0) then [1; 2] else if decide (n = 1) then [3] else if decide (n = 2) then [4]
  else if decide (n = 3) then [4] else [].
Definition example_goal (n : Z) : bool * bool := (bool_decide (n = 4), true).

Lemma bfs_correct_witness :
  ∃ answer, breadth_first_search_parallel example_neighbors example_goal 0 answer
    ∧ (∀ answer', breadth_first_search_parallel example_neighbors example_goal 0 answer' →
         answer' = answer)
    ∧ (Acc (flip (run_step (λ n, n) example_neighbors example_goal None))
         (run_start (λ n, n) 0 ∅)
       ∧ ∀ st, rtc (run_step (λ n, n) example_neighbors example_goal None)
                 (run_start (λ n, n) 0 ∅) st →
           st = Answered answer
           ∨ ∃ st', run_step (λ n, n) example_neighbors example_goal None st st')
    ∧ correct example_neighbors example_goal 0 answer.
Proof.
  apply (bfs_correct example_neighbors example_goal 0 (list_to_set [0; 1; 2; 3; 4])).
  - intros n c Hn Hc. unfold example_neighbors in Hc. set_unfold in Hn.
    repeat case_decide; set_unfold in Hc; set_solver by lia.
  - vm_compute. reflexivity.
  - set_solver.
Defined.
