(* ===== verification/Semaphore.v ===== *)
(** The bounded permits of [crates/tsr_core/src/semaphore.rs] as a machine of
    threads around one mutex and one condition variable.

    [acquire] tests and counts under the lock, and [wait] gives the lock up and
    falls asleep in one step; dropping a permit counts down under the lock and
    notifies after it. A condition variable may also wake a thread for nothing,
    and [notify_one] picks any sleeper. *)

From stdpp Require Import relations.
From S2P Require Import Prelude.

Local Open Scope nat_scope.

(** Where a thread is. [Woken] still has to take the lock and test again. *)
Inductive Pc := Outside | Sleeping | Woken | Holding | Notifying.

#[export] Instance Pc_eq_dec : EqDecision Pc.
Proof. solve_decision. Defined.

Record LimitedSemaphore := MkSemaphore { limit : nat; held : nat; threads : list Pc }.

(** [new]: a limit of zero is the panic of its [assert!]. *)
Definition new (max_concurrency threads : nat) : option LimitedSemaphore :=
  if (max_concurrency =? 0) then None
  else Some (MkSemaphore max_concurrency 0 (replicate threads Outside)).

Definition move (i : nat) (pc : Pc) (held : nat) (s : LimitedSemaphore) : LimitedSemaphore :=
  MkSemaphore (limit s) held (<[i := pc]> (threads s)).

(** [acquire] from its lock on: the test of the [while] loop, then either [wait]
    or the count. *)
Definition acquire (i : nat) (s : LimitedSemaphore) : LimitedSemaphore :=
  if (held s =? limit s) then move i Sleeping (held s) s else move i Holding (S (held s)) s.

(** [drop] of the permit up to the end of the lock guard. *)
Definition drop (i : nat) (s : LimitedSemaphore) : LimitedSemaphore :=
  move i Notifying (held s - 1) s.

Definition wake (j : nat) (s : LimitedSemaphore) : LimitedSemaphore := move j Woken (held s) s.

(** What the threads do among themselves. *)
Inductive step : LimitedSemaphore → LimitedSemaphore → Prop :=
  | step_enter i s : threads s !! i = Some Outside → step s (acquire i s)
  | step_retry i s : threads s !! i = Some Woken → step s (acquire i s)
  | step_drop i s : threads s !! i = Some Holding → step s (drop i s)
  | step_notify i j s :
      threads s !! i = Some Notifying → threads s !! j = Some Sleeping →
      step s (wake j (move i Outside (held s) s))
  | step_notify_nobody i s :
      threads s !! i = Some Notifying → Sleeping ∉ threads s →
      step s (move i Outside (held s) s).

(** With the wakeups a condition variable may make up. *)
Inductive run_step : LimitedSemaphore → LimitedSemaphore → Prop :=
  | run_plain s s' : step s s' → run_step s s'
  | run_spurious i s : threads s !! i = Some Sleeping → run_step s (wake i s).

(** ** Counting threads *)

Definition count (pc : Pc) (s : LimitedSemaphore) : nat :=
  length (filter (λ p, p = pc) (threads s)).

Lemma count_move i pc pc' n s old :
  threads s !! i = Some old →
  count pc (move i pc' n s) + (if decide (old = pc) then 1 else 0)
  = count pc s + (if decide (pc' = pc) then 1 else 0).
Proof.
  unfold count, move. simpl. generalize (threads s). intros pcs Hi. revert i Hi.
  induction pcs as [|p pcs IH]; intros [|i] Hi; simplify_eq/=.
  - rewrite !filter_cons. repeat case_decide; simpl; lia.
  - rewrite !filter_cons. specialize (IH i Hi). repeat case_decide; simpl; lia.
Qed.

Lemma count_pos i pc s : threads s !! i = Some pc → 0 < count pc s.
Proof.
  intros Hi%list_elem_of_lookup_2. unfold count.
  assert (pc ∈ filter (λ p, p = pc) (threads s)) as Hin by (by apply list_elem_of_filter).
  destruct (filter _ _); [by apply elem_of_nil in Hin|]. simpl. lia.
Qed.

Lemma count_zero pc s : pc ∉ threads s → count pc s = 0.
Proof.
  intros Hn. unfold count. destruct (filter _ (threads s)) as [|p l] eqn:E; [done|].
  assert (p ∈ filter (λ p, p = pc) (threads s)) as Hin by (rewrite E; by left).
  apply list_elem_of_filter in Hin as [-> ?]. done.
Qed.

Lemma count_pos_inv pc s : 0 < count pc s → ∃ i, threads s !! i = Some pc.
Proof.
  unfold count. intros Hp. destruct (filter _ (threads s)) as [|p l] eqn:E; simpl in Hp; [lia|].
  assert (p ∈ filter (λ p, p = pc) (threads s)) as Hin by (rewrite E; by left).
  apply list_elem_of_filter in Hin as [-> Hin]. by apply list_elem_of_lookup in Hin.
Qed.

(** ** The invariant *)

(** The counter counts the holders, and while somebody sleeps every free permit
    is matched by a thread on its way: woken, or about to notify. *)
Definition inv (s : LimitedSemaphore) : Prop :=
  0 < limit s ∧ held s ≤ limit s ∧ count Holding s = held s
  ∧ (0 < count Sleeping s → limit s ≤ held s + count Woken s + count Notifying s).

Ltac count_moves i pc' n s Hi :=
  pose proof (count_move i Holding pc' n s _ Hi);
  pose proof (count_move i Sleeping pc' n s _ Hi);
  pose proof (count_move i Woken pc' n s _ Hi);
  pose proof (count_move i Notifying pc' n s _ Hi);
  repeat match goal with
  | H : context [decide (?a = ?b)] |- _ =>
      first [rewrite (decide_True (P := a = b)) in H by reflexivity
            |rewrite (decide_False (P := a = b)) in H by discriminate]
  end.

Lemma acquire_inv i s old :
  threads s !! i = Some old → old = Outside ∨ old = Woken → inv s → inv (acquire i s).
Proof.
  intros Hi Hold (Hpos & Hle & Hh & Hs). unfold acquire.
  pose proof (count_pos i old s Hi).
  destruct (Nat.eqb_spec (held s) (limit s)) as [Heq|Hne].
  - destruct Hold as [-> | ->]; count_moves i Sleeping (held s) s Hi;
      unfold inv; simpl; split_and!; lia.
  - destruct Hold as [-> | ->]; count_moves i Holding (S (held s)) s Hi;
      unfold inv; simpl; split_and!; lia.
Qed.

Lemma step_inv s s' : inv s → step s s' → inv s'.
Proof.
  intros Hinv Hstep. pose proof Hinv as (Hpos & Hle & Hh & Hs).
  destruct Hstep as [i s Hi|i s Hi|i s Hi|i j s Hi Hj|i s Hi Hn].
  - by apply (acquire_inv i s Outside); auto.
  - by apply (acquire_inv i s Woken); auto.
  - pose proof (count_pos i Holding s Hi). unfold drop.
    count_moves i Notifying (held s - 1) s Hi. unfold inv; simpl; split_and!; lia.
  - pose proof (count_pos j Sleeping s Hj). count_moves i Outside (held s) s Hi.
    assert (threads (move i Outside (held s) s) !! j = Some Sleeping) as Hj'.
    { simpl. rewrite list_lookup_insert_ne; [done|]. intros ->. congruence. }
    unfold wake. count_moves j Woken (held s) (move i Outside (held s) s) Hj'.
    unfold inv; simpl in *; split_and!; lia.
  - pose proof (count_zero _ _ Hn). count_moves i Outside (held s) s Hi.
    unfold inv; simpl; split_and!; lia.
Qed.

Lemma run_step_inv s s' : inv s → run_step s s' → inv s'.
Proof.
  intros Hinv Hstep. destruct Hstep as [s1 s2 Hstep|i s1 Hi]; [by apply (step_inv s1)|].
  destruct Hinv as (Hpos & Hle & Hh & Hs). unfold wake.
  count_moves i Woken (held s1) s1 Hi. unfold inv; simpl; split_and!; lia.
Qed.

Lemma new_inv k n s : new k n = Some s → inv s.
Proof.
  unfold new. destruct (Nat.eqb_spec k 0); [done|]. intros [= <-]. unfold inv. simpl.
  assert (∀ pc, pc ≠ Outside → count pc (MkSemaphore k 0 (replicate n Outside)) = 0) as Hc;
    [|rewrite !Hc by done; split_and!; lia].
  intros pc Hne. apply count_zero. simpl. intros [i Hi]%list_elem_of_lookup.
  by apply lookup_replicate in Hi as [-> _].
Qed.

Lemma reach_inv k n s0 s : new k n = Some s0 → rtc run_step s0 s → inv s.
Proof.
  intros Hnew%new_inv Hr. revert Hnew.
  induction Hr as [|s1 s2 s3 Hstep Hr IH]; [done|]. intros Hinv. by apply IH, (run_step_inv s1).
Qed.

(** [C38] The permits bound the concurrency and no wakeup is lost: in every
    reachable state, spurious wakeups included, the threads that hold a permit
    are counted exactly and never more than the limit, and if somebody sleeps
    while a permit is free, some other thread is awake and on its way to take it
    or to notify. *)
Theorem permits_bounded k n s0 s :
  new k n = Some s0 → rtc run_step s0 s →
  count Holding s = held s ∧ held s ≤ k
  ∧ ∀ i, threads s !! i = Some Sleeping → held s < k →
      ∃ j, threads s !! j = Some Woken ∨ threads s !! j = Some Notifying.
Proof.
  intros Hnew Hr. pose proof (reach_inv k n s0 s Hnew Hr) as (_ & Hle & Hh & Hs).
  assert (limit s = k) as Hk.
  { unfold new in Hnew. destruct (k =? 0); [done|]. injection Hnew as <-.
    assert (∀ s s', run_step s s' → limit s' = limit s) as Hlim.
    { intros s1 s2 [s3 s4 []|]; simpl; unfold acquire; try done; by case_match. }
    clear -Hr Hlim. remember (MkSemaphore _ _ _) as s0 eqn:E.
    assert (limit s0 = k) as H by (by subst). clear E.
    induction Hr as [|s1 s2 s3 Hstep Hr IH]; [done|]. apply IH. by rewrite (Hlim s1 s2). }
  rewrite Hk in *. split_and!; [done|done|]. intros i Hi Hfree.
  apply count_pos in Hi. specialize (Hs Hi).
  destruct (decide (0 < count Woken s)) as [Hw|Hw].
  - apply count_pos_inv in Hw as [j Hj]. eauto.
  - destruct (count_pos_inv Notifying s) as [j Hj]; [lia|]. eauto.
Qed.

(** ** Progress *)

Lemma acquire_free i s old :
  threads s !! i = Some old → held s < limit s → threads (acquire i s) !! i = Some Holding.
Proof.
  intros Hi Hfree. unfold acquire. rewrite (proj2 (Nat.eqb_neq _ _)) by lia. simpl.
  apply list_lookup_insert_eq. by apply lookup_lt_Some in Hi.
Qed.

(** A thread about to notify can serve a given sleeper, if a permit is free. *)
Lemma notify_serves i j s :
  threads s !! i = Some Notifying → threads s !! j = Some Sleeping → held s < limit s →
  ∃ s', rtc step s s' ∧ threads s' !! j = Some Holding.
Proof.
  intros Hi Hj Hfree. assert (i ≠ j) as Hne by congruence.
  set (s1 := wake j (move i Outside (held s) s)).
  assert (threads s1 !! j = Some Woken) as Hj1.
  { simpl. apply list_lookup_insert_eq. rewrite length_insert. by apply lookup_lt_Some in Hj. }
  exists (acquire j s1). split; [|by apply (acquire_free j s1 Woken)].
  apply (rtc_l _ _ s1); [by apply step_notify|]. apply rtc_once. by apply step_retry.
Qed.

Lemma drop_serves i j s :
  inv s → threads s !! i = Some Holding → threads s !! j = Some Sleeping →
  ∃ s', rtc step s s' ∧ threads s' !! j = Some Holding.
Proof.
  intros (_ & Hle & Hh & _) Hi Hj. pose proof (count_pos i Holding s Hi).
  destruct (notify_serves i j (drop i s)) as (s' & Hr & Hs').
  - simpl. apply list_lookup_insert_eq. by apply lookup_lt_Some in Hi.
  - simpl. rewrite list_lookup_insert_ne; [done|congruence].
  - simpl. lia.
  - exists s'. split; [|done]. apply (rtc_l _ _ (drop i s)); [by apply step_drop|done].
Qed.

(** Nobody waits in vain: from every reachable state each thread that asks
    for a permit, sleeping or not, can still get one by steps the threads make
    themselves, without any spurious wakeup. *)
Theorem waiters_can_be_served k n s0 s i pc :
  new k n = Some s0 → rtc run_step s0 s → threads s !! i = Some pc →
  pc = Outside ∨ pc = Sleeping ∨ pc = Woken →
  ∃ s', rtc step s s' ∧ threads s' !! i = Some Holding.
Proof.
  intros Hnew Hr Hi Hpc. pose proof (reach_inv k n s0 s Hnew Hr) as Hinv. clear Hr Hnew.
  assert (∀ s, inv s → threads s !! i = Some Sleeping →
            ∃ s', rtc step s s' ∧ threads s' !! i = Some Holding) as Hsleeping.
  { clear. intros s Hinv Hi. pose proof Hinv as (Hpos & Hle & Hh & Hs).
    destruct (decide (0 < count Holding s)) as [[j Hj]%count_pos_inv|Hno];
      [by apply (drop_serves j i s)|].
    pose proof (count_pos i Sleeping s Hi) as Hp. specialize (Hs Hp).
    destruct (decide (0 < count Notifying s)) as [[j Hj]%count_pos_inv|Hno'].
    { apply (notify_serves j i s); [done|done|lia]. }
    destruct (count_pos_inv Woken s) as [j Hj]; [lia|].
    assert (i ≠ j) as Hne by congruence.
    destruct (drop_serves j i (acquire j s)) as (s' & Hr & Hs').
    - apply (step_inv s); [done|by apply step_retry].
    - apply (acquire_free j s Woken); [done|lia].
    - unfold acquire. rewrite (proj2 (Nat.eqb_neq _ _)) by lia. simpl.
      by rewrite list_lookup_insert_ne.
    - exists s'. split; [|done]. apply (rtc_l _ _ (acquire j s)); [by apply step_retry|done]. }
  destruct Hpc as [Hpc|[->|Hpc]]; [|by apply Hsleeping|].
  all: assert (step s (acquire i s)) as Hstep
      by (subst pc; first [by apply step_enter|by apply step_retry]).
  all: destruct (decide (held s < limit s)) as [Hfree|Hfull];
    [exists (acquire i s); split; [by apply rtc_once|by apply (acquire_free i s pc)]|].
  all: destruct (Hsleeping (acquire i s)) as (s' & Hr & Hs');
    [by apply (step_inv s)| |exists s'; split; [by apply (rtc_l _ _ (acquire i s))|done]].
  all: destruct Hinv as (_ & Hle & _); unfold acquire; rewrite (proj2 (Nat.eqb_eq _ _)) by lia;
    simpl; apply list_lookup_insert_eq; by apply lookup_lt_Some in Hi.
Qed.

(** One permit, two threads: the second falls asleep and is served in the end. *)
Definition two_threads : LimitedSemaphore := MkSemaphore 1 0 [Outside; Outside].
Definition second_asleep : LimitedSemaphore := MkSemaphore 1 1 [Holding; Sleeping].

Lemma second_asleep_reached : rtc run_step two_threads second_asleep.
Proof.
  apply (rtc_l _ _ (acquire 0 two_threads)); [by apply run_plain, step_enter|].
  apply rtc_once. apply (run_plain _ (acquire 1 (acquire 0 two_threads))). by apply step_enter.
Qed.

Lemma permits_bounded_witness :
  count Holding second_asleep = held second_asleep ∧ held second_asleep ≤ 1
  ∧ ∀ i, threads second_asleep !! i = Some Sleeping → held second_asleep < 1 →
      ∃ j, threads second_asleep !! j = Some Woken ∨ threads second_asleep !! j = Some Notifying.
Proof. apply (permits_bounded 1 2 two_threads); [reflexivity|apply second_asleep_reached]. Defined.

Lemma waiters_can_be_served_witness :
  ∃ s', rtc step second_asleep s' ∧ threads s' !! 1 = Some Holding.
Proof.
  apply (waiters_can_be_served 1 2 two_threads second_asleep 1 Sleeping);
    [reflexivity|apply second_asleep_reached|reflexivity|auto].
Defined.
