(* ===== verification/TextEdits.v ===== *)
(** Source ranges and text edits: [TextRange] of [crates/tsr_core/src/lib.rs] with
    the operations of [ranges.rs], and the edits of [text_change.rs]. *)

From S2P Require Import Prelude.

Local Open Scope Z_scope.

(** ** Ranges *)

(** The positions are stored as [i32]s. *)
Record TextRange := MkRange { pos : Z; end_ : Z }.

Definition range_new (p e : Z) : TextRange := MkRange (wrap_i32 p) (wrap_i32 e).
Definition undefined : TextRange := range_new (-1) (-1).

Definition range_len (r : TextRange) : Z := wrap_i32 (end_ r - pos r).
Definition range_is_empty (r : TextRange) : bool := pos r =? end_ r.
Definition range_is_valid (r : TextRange) : bool := (0 <=? pos r) || (0 <=? end_ r).
Definition range_contains (r : TextRange) (p : Z) : bool := (pos r <=? p) && (p <? end_ r).
Definition contains_inclusive (r : TextRange) (p : Z) : bool := (pos r <=? p) && (p <=? end_ r).
Definition contains_exclusive (r : TextRange) (p : Z) : bool := (pos r <? p) && (p <? end_ r).
Definition with_pos (r : TextRange) (p : Z) : TextRange := range_new p (end_ r).
Definition with_end (r : TextRange) (e : Z) : TextRange := range_new (pos r) e.
Definition contained_by (r other : TextRange) : bool :=
  (pos other <=? pos r) && (end_ r <=? end_ other).
Definition overlaps (r other : TextRange) : bool :=
  Z.max (pos r) (pos other) <? Z.min (end_ r) (end_ other).
Definition intersects (r other : TextRange) : bool :=
  Z.max (pos r) (pos other) <=? Z.min (end_ r) (end_ other).
Definition range_compare (r other : TextRange) : Z :=
  let p := pos r - pos other in if negb (p =? 0) then p else end_ r - end_ other.

(** ** Edits *)

Record TextChange := MkChange { range : TextRange; new_text : bytes }.

Record UnappliableEdits := MkUnappliable { low : Z; high : Z; capacity : option nat }.

Definition slice (text : bytes) (low high : Z) : result UnappliableEdits bytes :=
  let length := length text in
  if (high <? 0) || (Z.of_nat length <? high) then Err (MkUnappliable low high (Some length))
  else if (low <? 0) || (high <? low) then Err (MkUnappliable low high None)
  else Ok (take (Z.to_nat high - Z.to_nat low) (drop (Z.to_nat low) text)).

Definition apply_to (change : TextChange) (text : bytes) : result UnappliableEdits bytes :=
  before ← slice text 0 (pos (range change));
  after ← slice text (end_ (range change)) (Z.of_nat (length text));
  Ok (before ++ new_text change ++ after).

Fixpoint bulk_loop (text : bytes) (edits : list TextChange) (last_end : Z)
  : result UnappliableEdits bytes :=
  match edits with
  | [] => slice text last_end (Z.of_nat (length text))
  | edit :: edits =>
      let start := pos (range edit) in
      before ← (if negb (start =? last_end) then slice text last_end start else Ok []);
      rest ← bulk_loop text edits (end_ (range edit));
      Ok (before ++ new_text edit ++ rest)
  end.

Definition apply_bulk_edits (text : bytes) (edits : list TextChange)
  : result UnappliableEdits bytes := bulk_loop text edits 0.

(** ** What the edits mean *)

(** In order, one behind the other, inside the text. *)
Fixpoint ordered (last len : Z) (edits : list TextChange) : Prop :=
  match edits with
  | [] => last <= len
  | edit :: edits =>
      last <= pos (range edit) <= end_ (range edit) ∧ ordered (end_ (range edit)) len edits
  end.

(** One edit at a time, the last one first, so that no edit moves another. *)
Fixpoint apply_backwards (text : bytes) (edits : list TextChange)
  : result UnappliableEdits bytes :=
  match edits with
  | [] => Ok text
  | edit :: edits => text ← apply_backwards text edits; apply_to edit text
  end.

Lemma ordered_last last len edits : ordered last len edits → last <= len.
Proof.
  revert last. induction edits as [|e edits IH]; intros last; simpl; [done|].
  intros [? H%IH]. lia.
Qed.

Lemma slice_ok text lo hi :
  0 <= lo <= hi → hi <= Z.of_nat (length text) →
  slice text lo hi = Ok (take (Z.to_nat hi - Z.to_nat lo) (drop (Z.to_nat lo) text)).
Proof.
  intros Hlo Hhi. unfold slice.
  replace ((hi <? 0) || (Z.of_nat (length text) <? hi)) with false by lia.
  by replace ((lo <? 0) || (hi <? lo)) with false by lia.
Qed.

Lemma slice_ok_inv text lo hi b : slice text lo hi = Ok b → 0 <= lo <= hi ∧ hi <= Z.of_nat (length text).
Proof. unfold slice. if_split; intros; try done; lia. Qed.

Lemma slice_empty text p :
  0 <= p <= Z.of_nat (length text) → slice text p p = Ok [].
Proof. intros Hp. rewrite slice_ok by lia. by rewrite Nat.sub_diag. Qed.

(** The loop from [last] on writes what is left of the text with the edits made. *)
Lemma bulk_loop_spec text edits : ∀ last,
  0 <= last → ordered last (Z.of_nat (length text)) edits →
  ∃ out, apply_backwards text edits = Ok (take (Z.to_nat last) text ++ out)
    ∧ bulk_loop text edits last = Ok out.
Proof.
  induction edits as [|e edits IH]; intros last Hlast Hord; simpl in *.
  - exists (drop (Z.to_nat last) text). rewrite take_drop. split; [done|].
    rewrite slice_ok by lia. f_equal. apply take_ge. rewrite length_drop. lia.
  - destruct Hord as [Hpos Hord]. pose proof (ordered_last _ _ _ Hord) as Hend.
    destruct (IH (end_ (range e))) as (out & -> & ->); [lia|done|]. simpl.
    assert ((if negb (pos (range e) =? last) then slice text last (pos (range e)) else Ok [])
      = Ok (take (Z.to_nat (pos (range e)) - Z.to_nat last) (drop (Z.to_nat last) text))) as ->.
    { destruct (Z.eqb_spec (pos (range e)) last) as [->|]; simpl.
      - by rewrite Nat.sub_diag.
      - apply slice_ok; lia. }
    simpl. eexists; split; [|done].
    set (text' := take (Z.to_nat (end_ (range e))) text ++ out).
    assert (length (take (Z.to_nat (end_ (range e))) text) = Z.to_nat (end_ (range e))) as Hl.
    { rewrite length_take. lia. }
    unfold apply_to. rewrite !slice_ok by (subst text'; rewrite ?length_app; lia). simpl.
    rewrite Nat.sub_0_r, drop_0. f_equal.
    assert (take (Z.to_nat (pos (range e))) text' = take (Z.to_nat (pos (range e))) text) as ->.
    { subst text'. rewrite take_app_le by lia. rewrite take_take. f_equal. lia. }
    assert (drop (Z.to_nat (end_ (range e))) text' = out) as ->.
    { subst text'. by apply drop_app_length'. }
    rewrite (take_ge out) by (subst text'; rewrite length_app; lia).
    rewrite (app_assoc (take (Z.to_nat last) text)). f_equal.
    rewrite <-(take_drop (Z.to_nat last) (take (Z.to_nat (pos (range e))) text)).
    rewrite take_take, skipn_firstn_comm. f_equal. f_equal. lia.
Qed.

Lemma bulk_loop_ok_ordered text edits : ∀ last out,
  0 <= last → Forall (λ e, pos (range e) <= end_ (range e)) edits →
  bulk_loop text edits last = Ok out → ordered last (Z.of_nat (length text)) edits.
Proof.
  induction edits as [|e edits IH]; intros last out Hlast Hf; simpl.
  - intros H%slice_ok_inv. lia.
  - apply Forall_cons in Hf as [He Hf]. intros Hok.
    assert (last <= pos (range e)) as Hpos.
    { destruct (Z.eqb_spec (pos (range e)) last); simpl in Hok; [lia|].
      destruct (slice text last (pos (range e))) as [b|] eqn:E; [|done].
      apply slice_ok_inv in E. lia. }
    destruct (if negb _ then _ else _); simpl in Hok; [|done].
    destruct (bulk_loop text edits (end_ (range e))) as [rest|] eqn:E; simpl in Hok; [|done].
    split; [lia|]. apply (IH _ rest); [lia|done|done].
Qed.

(** Bulk edits are the single edits made from the last to the first: edits
    that are in order, do not overlap and lie inside the text are applied, and
    give the text that [apply_to] gives edit by edit; and of edits whose ranges
    are not inverted only those are applied, every other list is an error. *)
Theorem apply_bulk_edits_correct text edits :
  Forall (λ e, pos (range e) <= end_ (range e)) edits →
  (ordered 0 (Z.of_nat (length text)) edits →
   ∃ out, apply_bulk_edits text edits = Ok out ∧ apply_backwards text edits = Ok out)
  ∧ (∀ out, apply_bulk_edits text edits = Ok out → ordered 0 (Z.of_nat (length text)) edits).
Proof.
  intros Hf. split.
  - intros Hord. destruct (bulk_loop_spec text edits 0) as (out & Hb & Hl); [lia|done|].
    exists out. by rewrite Hb.
  - intros out. by apply bulk_loop_ok_ordered.
Qed.

Definition example_edits : list TextChange :=
  [MkChange (range_new 5 5) (bs " "); MkChange (range_new 8 9) []; MkChange (range_new 10 11) [];
   MkChange (range_new 12 13) []].

Lemma apply_bulk_edits_correct_witness :
  apply_bulk_edits (bs "var x= ( { } ) ;") example_edits = Ok (bs "var x = ({}) ;")
  ∧ ∃ out, apply_bulk_edits (bs "var x= ( { } ) ;") example_edits = Ok out
      ∧ apply_backwards (bs "var x= ( { } ) ;") example_edits = Ok out.
Proof.
  split; [vm_compute; reflexivity|].
  apply (apply_bulk_edits_correct (bs "var x= ( { } ) ;") example_edits).
  - apply (bool_decide_eq_true_1 (Forall _ _)). vm_compute. reflexivity.
  - vm_compute. repeat split; discriminate.
Defined.

(** With inverted ranges an edit list outside the text can slip through: the
    bounds of a piece are only looked at where two edits do not touch. *)
Example inverted_edits_slip_through :
  apply_bulk_edits (bs "0123")
    [MkChange (range_new 2 9) (bs "a"); MkChange (range_new 9 3) (bs "b")] = Ok (bs "01ab3").
Proof. vm_compute. reflexivity. Qed.
