(* ===== verification/Pattern.v ===== *)
(** Single-wildcard patterns: [crates/tsr_core/src/pattern.rs]. A panic (a slice
    out of range, a failed [assert!]) is [None]. *)

From S2P Require Import Prelude.

Local Open Scope nat_scope.

Record Pattern := MkPattern { text : bytes; star_index : Z }.

Definition STAR : Z := ch "*".

(** The zero value is invalid, exactly as in the source. *)
Definition pattern_default : Pattern := MkPattern [] 0.

Definition parse (pattern : bytes) : Pattern :=
  match position (Z.eqb STAR) pattern with
  | None => MkPattern pattern (-1)
  | Some index =>
      if existsb (Z.eqb STAR) (drop (index + 1) pattern) then pattern_default
      else MkPattern pattern (Z.of_nat index)
  end.

Definition is_valid (p : Pattern) : bool :=
  (star_index p =? -1)%Z || (star_index p <? Z.of_nat (length (text p)))%Z.

(** The suffix slice panics when the star is past the text. *)
Definition matches (p : Pattern) (candidate : bytes) : option bool :=
  if (star_index p =? -1)%Z then Some (bytes_eqb (text p) candidate)
  else
    let star := Z.to_nat (star_index p) in
    if negb (length (text p) - 1 <=? length candidate) then Some false
    else if (star_index p <? 0)%Z || (length (text p) <? star) then None
    else if negb (starts_with (take star (text p)) candidate) then Some false
    else if length (text p) <? star + 1 then None
    else Some (ends_with (drop (star + 1) (text p)) candidate).

Definition matched_text (p : Pattern) (candidate : bytes) : option bytes :=
  matched ← matches p candidate;
  if negb matched then None
  else if (star_index p =? -1)%Z then Some []
  else
    let start := Z.to_nat (star_index p) in
    let e := length candidate - (length (text p) - start - 1) in
    Some (take (e - start) (drop start candidate)).

(** One turn of the loop: the best value so far and its prefix length. *)
Definition best_step {T} (get_pattern : T → Pattern) (candidate : bytes) (best : T * Z) (value : T)
  : option (T * Z) :=
  let pattern := get_pattern value in
  if (star_index pattern =? -1)%Z || (best.2 <? star_index pattern)%Z
  then matched ← matches pattern candidate;
       Some (if matched : bool then (value, star_index pattern) else best)
  else Some best.

Fixpoint best_loop {T} (get_pattern : T → Pattern) (candidate : bytes) (best : T * Z)
    (values : list T) : option T :=
  match values with
  | [] => Some best.1
  | value :: values => best ← best_step get_pattern candidate best value;
                       best_loop get_pattern candidate best values
  end.

Definition find_best_pattern_match {T} (default : T) (values : list T)
    (get_pattern : T → Pattern) (candidate : bytes) : option T :=
  best_loop get_pattern candidate (default, -1)%Z values.

(** ** Correctness *)

(** A parsed pattern is a literal, or a prefix and a suffix around the star. *)
Inductive Parsed (p : Pattern) : Prop :=
  | parsed_literal : star_index p = (-1)%Z → Parsed p
  | parsed_star prefix suffix :
      text p = prefix ++ STAR :: suffix → star_index p = Z.of_nat (length prefix) → Parsed p.

Lemma parse_cases pattern : parse pattern = pattern_default ∨ Parsed (parse pattern).
Proof.
  unfold parse. destruct (position (Z.eqb STAR) pattern) as [i|] eqn:E.
  - destruct (existsb _ _); [by left|right].
    apply position_Some in E as (c & Hi & Hc & _). apply Z.eqb_eq in Hc as <-.
    apply (parsed_star _ (take i pattern) (drop (S i) pattern)); simpl.
    + symmetry. by apply take_drop_middle.
    + rewrite length_take. apply lookup_lt_Some in Hi. lia.
  - right. by apply parsed_literal.
Qed.

Lemma matches_star p prefix suffix candidate :
  text p = prefix ++ STAR :: suffix → star_index p = Z.of_nat (length prefix) →
  matches p candidate
  = Some ((length prefix + length suffix <=? length candidate)
          && starts_with prefix candidate && ends_with suffix candidate).
Proof.
  intros Ht Hs. unfold matches. rewrite Ht, Hs, Nat2Z.id, length_app.
  replace (Z.of_nat (length prefix) =? -1)%Z with false by lia. simpl.
  replace (length prefix + S (length suffix) - 1) with (length prefix + length suffix) by lia.
  destruct (Nat.leb_spec (length prefix + length suffix) (length candidate)); simpl; [|done].
  replace (Z.of_nat (length prefix) <? 0)%Z with false by lia. simpl.
  rewrite (proj2 (Nat.ltb_ge _ _)) by lia. rewrite take_app_length.
  destruct (starts_with prefix candidate); simpl; [|done].
  rewrite (proj2 (Nat.ltb_ge _ _)) by lia.
  rewrite drop_app_ge by lia. by replace (length prefix + 1 - length prefix) with 1 by lia.
Qed.

Lemma middle_parts (prefix suffix candidate : bytes) :
  length prefix + length suffix ≤ length candidate →
  starts_with prefix candidate = true → ends_with suffix candidate = true →
  ∃ mid, candidate = prefix ++ mid ++ suffix.
Proof.
  intros Hl Hp%starts_with_true Hs%ends_with_true.
  destruct Hp as [rest ->]. destruct Hs as [front Hf]. rewrite length_app in Hl.
  assert (rest = drop (length prefix) front ++ suffix) as ->.
  { rewrite <-(drop_app_length prefix rest), Hf. rewrite drop_app_le; [done|].
    apply (f_equal length) in Hf. rewrite !length_app in Hf. lia. }
  by exists (drop (length prefix) front).
Qed.

(** A parsed pattern matches what it says: no candidate makes it panic, a
    pattern without a star matches itself alone, one with a star exactly the
    candidates that have its prefix and its suffix without overlap, and then
    [matched_text] is what stands between them. *)
Theorem pattern_matches_correct pattern candidate :
  parse pattern ≠ pattern_default →
  (star_index (parse pattern) = (-1)%Z
   ∧ matches (parse pattern) candidate = Some (bool_decide (candidate = text (parse pattern))))
  ∨ ∃ prefix suffix b,
      text (parse pattern) = prefix ++ STAR :: suffix
      ∧ matches (parse pattern) candidate = Some b
      ∧ (b = true ↔ ∃ mid, candidate = prefix ++ mid ++ suffix)
      ∧ ∀ mid, candidate = prefix ++ mid ++ suffix →
          matched_text (parse pattern) candidate = Some mid.
Proof.
  intros Hne. destruct (parse_cases pattern) as [?|[Hlit|prefix suffix Ht Hs]]; [done|left|right].
  - split; [done|]. unfold matches. rewrite Hlit. simpl. f_equal.
    destruct (bytes_eqb _ _) eqn:E; symmetry.
    + apply bytes_eqb_true in E as <-. by apply bool_decide_eq_true.
    + apply bytes_eqb_false in E. apply bool_decide_eq_false. congruence.
  - exists prefix, suffix. eexists. split; [done|]. split; [by apply matches_star|].
    assert (∀ mid, candidate = prefix ++ mid ++ suffix →
      (length prefix + length suffix <=? length candidate)
      && starts_with prefix candidate && ends_with suffix candidate = true) as Hall.
    { intros mid ->. rewrite !andb_true_iff. split_and!.
      - rewrite !length_app. apply Nat.leb_le. lia.
      - apply starts_with_true. by exists (mid ++ suffix).
      - apply ends_with_true. exists (prefix ++ mid). by rewrite app_assoc. }
    split.
    + split; [|intros [mid Hm]; by apply (Hall mid)].
      rewrite !andb_true_iff, Nat.leb_le. intros [[Hl Hp] He]. by apply middle_parts.
    + intros mid Hm. unfold matched_text. rewrite (matches_star _ prefix suffix) by done. simpl.
      rewrite (Hall mid Hm). simpl. rewrite Hs, Nat2Z.id, Ht.
      replace (Z.of_nat (length prefix) =? -1)%Z with false by lia.
      rewrite Hm, !length_app. simpl. rewrite drop_app_length. f_equal.
      rewrite take_app_le by lia. apply take_ge. lia.
Qed.

Lemma pattern_matches_correct_witness :
  parse (bs "lib/*.d.ts") ≠ pattern_default
  ∧ ((star_index (parse (bs "lib/*.d.ts")) = (-1)%Z
      ∧ matches (parse (bs "lib/*.d.ts")) (bs "lib/es5.d.ts")
        = Some (bool_decide (bs "lib/es5.d.ts" = text (parse (bs "lib/*.d.ts")))))
     ∨ ∃ prefix suffix b,
         text (parse (bs "lib/*.d.ts")) = prefix ++ STAR :: suffix
         ∧ matches (parse (bs "lib/*.d.ts")) (bs "lib/es5.d.ts") = Some b
         ∧ (b = true ↔ ∃ mid, bs "lib/es5.d.ts" = prefix ++ mid ++ suffix)
         ∧ ∀ mid, bs "lib/es5.d.ts" = prefix ++ mid ++ suffix →
             matched_text (parse (bs "lib/*.d.ts")) (bs "lib/es5.d.ts") = Some mid).
Proof.
  split; [vm_compute; discriminate|].
  apply (pattern_matches_correct (bs "lib/*.d.ts") (bs "lib/es5.d.ts")). vm_compute. discriminate.
Defined.

(** An exact match resets the prefix length to -1, so a later, weaker pattern
    replaces it, as the source's test has it. *)
Example exact_match_is_overridden :
  find_best_pattern_match 0 [1; 3; 4]
    (λ i, parse (nth i [bs ""; bs "ab*"; bs "a*"; bs "abc"; bs "*c"] [])) (bs "abc") = Some 4.
Proof. vm_compute. reflexivity. Qed.
