(* ===== verification/BigInt.v ===== *)
(** Normalisation of bigint literals: [crates/tsr_jsnum/src/bigint.rs].

    The arbitrary-precision numbers are [Z]. What the source takes from the
    [num_bigint] crate is the class [NumBigint]: its documented parser of digits
    in a radix, which skips underscores after the first digit, and its printer. *)

From S2P Require Import Prelude.

Local Open Scope Z_scope.

Definition digit_value (b : Z) : option Z :=
  if in_range (ch "0") (ch "9") b then Some (b - ch "0")
  else if in_range (ch "a") (ch "f") b then Some (b - ch "a" + 10)
  else if in_range (ch "A") (ch "F") b then Some (b - ch "A" + 10)
  else None.

(** A digit of the radix. *)
Definition is_radix_digit (radix b : Z) : bool :=
  match digit_value b with Some d => d <? radix | None => false end.

(** The number a row of digits and separators writes. *)
Definition digits_value (radix : Z) (digits : bytes) : Z :=
  fold_left (λ n b, match digit_value b with Some d => n * radix + d | None => n end) digits 0.

Lemma digit_value_nonneg b d : digit_value b = Some d → 0 <= d.
Proof. unfold digit_value, in_range. chars. zbool; intros [= <-]; lia. Qed.

Lemma digits_value_nonneg radix digits : 0 <= radix → 0 <= digits_value radix digits.
Proof.
  intros Hr. unfold digits_value.
  assert (∀ n, 0 <= n → 0 <= fold_left (λ n b, match digit_value b with Some d => n * radix + d | None => n end)
            digits n) as Hall; [|by apply Hall].
  induction digits as [|x digits IH]; intros n Hn; [done|]. simpl. apply IH.
  destruct (digit_value x) as [d|] eqn:E; [|done]. apply digit_value_nonneg in E. nia.
Qed.

Class NumBigint := {
  parse_bytes : bytes → Z → option Z;
  bigint_to_string : Z → bytes;
  parse_bytes_digits first digits radix :
    is_radix_digit radix first = true →
    Forall (λ b, b = ch "_" ∨ is_radix_digit radix b = true) digits →
    parse_bytes (first :: digits) radix = Some (digits_value radix (first :: digits));
}.

Section BigInt.
Context `{NumBigint}.

(** The sign, the radix and the digits behind the prefix. *)
Definition radix_prefix (b : bytes) : Z * nat :=
  match b with
  | x :: y :: _ =>
      if (x =? ch "0") && ((y =? ch "b") || (y =? ch "B")) then (2, 2%nat)
      else if (x =? ch "0") && ((y =? ch "o") || (y =? ch "O")) then (8, 2%nat)
      else if (x =? ch "0") && ((y =? ch "x") || (y =? ch "X")) then (16, 2%nat)
      else if x =? ch "0" then (8, 1%nat)
      else (10, 0%nat)
  | _ => (10, 0%nat)
  end.

(** The scan of the digits: whether the last one was a digit (or the prefix),
    and how many there were. *)
Fixpoint check_digits (radix : Z) (digits : bytes) (previous_digit : bool) (digit_count : Z)
  : option (bool * Z) :=
  match digits with
  | [] => Some (previous_digit, digit_count)
  | byte :: digits =>
      if byte =? ch "_" then
        if negb previous_digit then None else check_digits radix digits false digit_count
      else
        digit ← digit_value byte;
        if radix <=? digit then None else check_digits radix digits true (digit_count + 1)
  end.

Definition parse_go_big_int (b : bytes) : option Z :=
  let '(negative, b) :=
    match strip_prefix (bs "-") b with
    | Some rest => (true, rest)
    | None => (false, default b (strip_prefix (bs "+") b))
    end in
  let '(radix, prefix_len) := radix_prefix b in
  let digits := drop prefix_len b in
  '(previous_digit, digit_count) ← check_digits radix digits (negb (prefix_len =? 0)%nat) 0;
  if (digit_count =? 0) || negb previous_digit then None
  else
    let digits := default digits (strip_prefix (bs "_") digits) in
    magnitude ← parse_bytes digits radix;
    Some (if negative then - magnitude else magnitude).

Definition is_radix_letter (b : Z) : bool :=
  existsb (Z.eqb b) [ch "b"; ch "B"; ch "o"; ch "O"; ch "x"; ch "X"].

(** [None]: the panic on a malformed number with a radix. *)
Definition parse_pseudo_big_int (b : bytes) : option bytes :=
  let b := default b (strip_suffix (bs "n") b) in
  if negb (match b with _ :: y :: _ => is_radix_letter y | _ => false end) then
    let start := default (length b) (position (λ x, negb (x =? ch "0")) b) in
    Some (if (start =? length b)%nat then bs "0" else drop start b)
  else bigint_to_string <$> parse_go_big_int b.

(** ** Literals of the scanner *)

Lemma check_digits_plain radix digits p n :
  Forall (λ b, is_radix_digit radix b = true) digits → digits ≠ [] →
  check_digits radix digits p n = Some (true, n + Z.of_nat (length digits)).
Proof.
  intros Hd. revert p n. induction Hd as [|b digits Hb Hd IH]; intros p n Hne; [done|].
  cbn [check_digits]. unfold is_radix_digit in Hb. destruct (digit_value b) as [d|] eqn:Ed; [|done].
  assert (b ≠ ch "_") as Hus by (intros ->; discriminate Ed).
  destruct (Z.eqb_spec b (ch "_")); [done|]. cbn [mbind option_bind].
  destruct (Z.leb_spec radix d); [lia|].
  destruct digits as [|c digits]; [simpl; f_equal; f_equal; lia|].
  rewrite IH by done. f_equal. f_equal. simpl. lia.
Qed.

(** The scanner's binary and octal literals, whose separators are gone, are
    numbers, and the number is the one their digits write. *)
Lemma parse_pseudo_big_int_scanned (letter : Z) radix digits :
  (letter = ch "b" ∧ radix = 2) ∨ (letter = ch "o" ∧ radix = 8) →
  digits ≠ [] → Forall (λ b, is_radix_digit radix b = true) digits →
  parse_pseudo_big_int (ch "0" :: letter :: digits ++ bs "n")
  = Some (bigint_to_string (digits_value radix digits)).
Proof.
  intros Hl Hne Hd. unfold parse_pseudo_big_int.
  assert (strip_suffix (bs "n") (ch "0" :: letter :: digits ++ bs "n")
          = Some (ch "0" :: letter :: digits)) as -> by (by apply strip_suffix_Some).
  cbn [default from_option id]. assert (is_radix_letter letter = true) as -> by (by destruct Hl as [[-> _]|[-> _]]).
  cbn [negb]. unfold parse_go_big_int.
  change (strip_prefix (bs "-") _) with (@None bytes).
  change (strip_prefix (bs "+") _) with (@None bytes). cbv iota zeta. cbn [default].
  assert (radix_prefix (ch "0" :: letter :: digits) = (radix, 2%nat)) as ->
    by (by destruct Hl as [[-> ->]|[-> ->]]).
  cbn [drop]. rewrite check_digits_plain by done. cbn [mbind option_bind].
  destruct digits as [|first digits]; [done|].
  replace (0 + _ =? 0) with false by (simpl; lia). cbn [orb negb].
  apply Forall_cons in Hd as [Hf Hd].
  rewrite drop_0.
  assert (strip_prefix (bs "_") (first :: digits) = None) as ->.
  { destruct (strip_prefix _ _) eqn:E; [|done]. apply strip_prefix_Some in E.
    injection E as -> _. discriminate Hf. }
  cbn [default]. rewrite parse_bytes_digits; [done|done|].
  apply (Forall_impl _ _ _ Hd). by right.
Qed.
End BigInt.
