(* ===== verification/ScannerKinds.v ===== *)
(** Token kinds and the scanner's spelling tables: [SyntaxKind] of
    [crates/tsr_ast/src/kinds_generated.rs] up to the last token,
    [crates/tsr_scanner/src/tables_generated.rs], and the functions of
    [identifier.rs] and [utilities.rs] that look tokens up. *)

From S2P Require Import Prelude.

Local Open Scope Z_scope.

(** ** Kinds *)

(** The kinds of syntax nodes, which follow [DeferKeyword], never leave the
    scanner. *)
Inductive SyntaxKind :=
  | Unknown | EndOfFile | SingleLineCommentTrivia | MultiLineCommentTrivia | NewLineTrivia
  | WhitespaceTrivia | ConflictMarkerTrivia | NonTextFileMarkerTrivia | NumericLiteral
  | BigIntLiteral | StringLiteral | JsxText | JsxTextAllWhiteSpaces | RegularExpressionLiteral
  | NoSubstitutionTemplateLiteral | TemplateHead | TemplateMiddle | TemplateTail
  | OpenBraceToken | CloseBraceToken | OpenParenToken | CloseParenToken | OpenBracketToken
  | CloseBracketToken | DotToken | DotDotDotToken | SemicolonToken | CommaToken
  | QuestionDotToken | LessThanToken | LessThanSlashToken | GreaterThanToken
  | LessThanEqualsToken | GreaterThanEqualsToken | EqualsEqualsToken | ExclamationEqualsToken
  | EqualsEqualsEqualsToken | ExclamationEqualsEqualsToken | EqualsGreaterThanToken | PlusToken
  | MinusToken | AsteriskToken | AsteriskAsteriskToken | SlashToken | PercentToken
  | PlusPlusToken | MinusMinusToken | LessThanLessThanToken | GreaterThanGreaterThanToken
  | GreaterThanGreaterThanGreaterThanToken | AmpersandToken | BarToken | CaretToken
  | ExclamationToken | TildeToken | AmpersandAmpersandToken | BarBarToken | QuestionToken
  | ColonToken | AtToken | QuestionQuestionToken | BacktickToken | HashToken | EqualsToken
  | PlusEqualsToken | MinusEqualsToken | AsteriskEqualsToken | AsteriskAsteriskEqualsToken
  | SlashEqualsToken | PercentEqualsToken | LessThanLessThanEqualsToken
  | GreaterThanGreaterThanEqualsToken | GreaterThanGreaterThanGreaterThanEqualsToken
  | AmpersandEqualsToken | BarEqualsToken | BarBarEqualsToken | AmpersandAmpersandEqualsToken
  | QuestionQuestionEqualsToken | CaretEqualsToken | Identifier | PrivateIdentifier
  | JSDocCommentTextToken | BreakKeyword | CaseKeyword | CatchKeyword | ClassKeyword
  | ConstKeyword | ContinueKeyword | DebuggerKeyword | DefaultKeyword | DeleteKeyword
  | DoKeyword | ElseKeyword | EnumKeyword | ExportKeyword | ExtendsKeyword | FalseKeyword
  | FinallyKeyword | ForKeyword | FunctionKeyword | IfKeyword | ImportKeyword | InKeyword
  | InstanceOfKeyword | NewKeyword | NullKeyword | ReturnKeyword | SuperKeyword | SwitchKeyword
  | ThisKeyword | ThrowKeyword | TrueKeyword | TryKeyword | TypeOfKeyword | VarKeyword
  | VoidKeyword | WhileKeyword | WithKeyword | ImplementsKeyword | InterfaceKeyword | LetKeyword
  | PackageKeyword | PrivateKeyword | ProtectedKeyword | PublicKeyword | StaticKeyword
  | YieldKeyword | AbstractKeyword | AccessorKeyword | AsKeyword | AssertsKeyword
  | AssertKeyword | AnyKeyword | AsyncKeyword | AwaitKeyword | BooleanKeyword
  | ConstructorKeyword | DeclareKeyword | GetKeyword | ImmediateKeyword | InferKeyword
  | IntrinsicKeyword | IsKeyword | KeyOfKeyword | ModuleKeyword | NamespaceKeyword
  | NeverKeyword | OutKeyword | ReadonlyKeyword | RequireKeyword | NumberKeyword | ObjectKeyword
  | SatisfiesKeyword | SetKeyword | StringKeyword | SymbolKeyword | TypeKeyword
  | UndefinedKeyword | UniqueKeyword | UnknownKeyword | UsingKeyword | FromKeyword
  | GlobalKeyword | BigIntKeyword | OverrideKeyword | OfKeyword | DeferKeyword.

(** [SyntaxKind::from_u16] *)
Definition ALL_KINDS : list SyntaxKind := [
  Unknown; EndOfFile; SingleLineCommentTrivia; MultiLineCommentTrivia; NewLineTrivia;
  WhitespaceTrivia; ConflictMarkerTrivia; NonTextFileMarkerTrivia; NumericLiteral; BigIntLiteral;
  StringLiteral; JsxText; JsxTextAllWhiteSpaces; RegularExpressionLiteral;
  NoSubstitutionTemplateLiteral; TemplateHead; TemplateMiddle; TemplateTail; OpenBraceToken;
  CloseBraceToken; OpenParenToken; CloseParenToken; OpenBracketToken; CloseBracketToken;
  DotToken; DotDotDotToken; SemicolonToken; CommaToken; QuestionDotToken; LessThanToken;
  LessThanSlashToken; GreaterThanToken; LessThanEqualsToken; GreaterThanEqualsToken;
  EqualsEqualsToken; ExclamationEqualsToken; EqualsEqualsEqualsToken;
  ExclamationEqualsEqualsToken; EqualsGreaterThanToken; PlusToken; MinusToken; AsteriskToken;
  AsteriskAsteriskToken; SlashToken; PercentToken; PlusPlusToken; MinusMinusToken;
  LessThanLessThanToken; GreaterThanGreaterThanToken; GreaterThanGreaterThanGreaterThanToken;
  AmpersandToken; BarToken; CaretToken; ExclamationToken; TildeToken; AmpersandAmpersandToken;
  BarBarToken; QuestionToken; ColonToken; AtToken; QuestionQuestionToken; BacktickToken;
  HashToken; EqualsToken; PlusEqualsToken; MinusEqualsToken; AsteriskEqualsToken;
  AsteriskAsteriskEqualsToken; SlashEqualsToken; PercentEqualsToken; LessThanLessThanEqualsToken;
  GreaterThanGreaterThanEqualsToken; GreaterThanGreaterThanGreaterThanEqualsToken;
  AmpersandEqualsToken; BarEqualsToken; BarBarEqualsToken; AmpersandAmpersandEqualsToken;
  QuestionQuestionEqualsToken; CaretEqualsToken; Identifier; PrivateIdentifier;
  JSDocCommentTextToken; BreakKeyword; CaseKeyword; CatchKeyword; ClassKeyword; ConstKeyword;
  ContinueKeyword; DebuggerKeyword; DefaultKeyword; DeleteKeyword; DoKeyword; ElseKeyword;
  EnumKeyword; ExportKeyword; ExtendsKeyword; FalseKeyword; FinallyKeyword; ForKeyword;
  FunctionKeyword; IfKeyword; ImportKeyword; InKeyword; InstanceOfKeyword; NewKeyword;
  NullKeyword; ReturnKeyword; SuperKeyword; SwitchKeyword; ThisKeyword; ThrowKeyword;
  TrueKeyword; TryKeyword; TypeOfKeyword; VarKeyword; VoidKeyword; WhileKeyword; WithKeyword;
  ImplementsKeyword; InterfaceKeyword; LetKeyword; PackageKeyword; PrivateKeyword;
  ProtectedKeyword; PublicKeyword; StaticKeyword; YieldKeyword; AbstractKeyword; AccessorKeyword;
  AsKeyword; AssertsKeyword; AssertKeyword; AnyKeyword; AsyncKeyword; AwaitKeyword;
  BooleanKeyword; ConstructorKeyword; DeclareKeyword; GetKeyword; ImmediateKeyword; InferKeyword;
  IntrinsicKeyword; IsKeyword; KeyOfKeyword; ModuleKeyword; NamespaceKeyword; NeverKeyword;
  OutKeyword; ReadonlyKeyword; RequireKeyword; NumberKeyword; ObjectKeyword; SatisfiesKeyword;
  SetKeyword; StringKeyword; SymbolKeyword; TypeKeyword; UndefinedKeyword; UniqueKeyword;
  UnknownKeyword; UsingKeyword; FromKeyword; GlobalKeyword; BigIntKeyword; OverrideKeyword;
  OfKeyword; DeferKeyword].

Definition from_u16 (kind : Z) : option SyntaxKind :=
  if kind <? 0 then None else ALL_KINDS !! Z.to_nat kind.

(** [token as u16] *)
Definition as_u16 (kind : SyntaxKind) : Z :=
  match kind with
  | Unknown => 0 | EndOfFile => 1 | SingleLineCommentTrivia => 2 | MultiLineCommentTrivia => 3
  | NewLineTrivia => 4 | WhitespaceTrivia => 5 | ConflictMarkerTrivia => 6
  | NonTextFileMarkerTrivia => 7 | NumericLiteral => 8 | BigIntLiteral => 9 | StringLiteral => 10
  | JsxText => 11 | JsxTextAllWhiteSpaces => 12 | RegularExpressionLiteral => 13
  | NoSubstitutionTemplateLiteral => 14 | TemplateHead => 15 | TemplateMiddle => 16
  | TemplateTail => 17 | OpenBraceToken => 18 | CloseBraceToken => 19 | OpenParenToken => 20
  | CloseParenToken => 21 | OpenBracketToken => 22 | CloseBracketToken => 23 | DotToken => 24
  | DotDotDotToken => 25 | SemicolonToken => 26 | CommaToken => 27 | QuestionDotToken => 28
  | LessThanToken => 29 | LessThanSlashToken => 30 | GreaterThanToken => 31
  | LessThanEqualsToken => 32 | GreaterThanEqualsToken => 33 | EqualsEqualsToken => 34
  | ExclamationEqualsToken => 35 | EqualsEqualsEqualsToken => 36
  | ExclamationEqualsEqualsToken => 37 | EqualsGreaterThanToken => 38 | PlusToken => 39
  | MinusToken => 40 | AsteriskToken => 41 | AsteriskAsteriskToken => 42 | SlashToken => 43
  | PercentToken => 44 | PlusPlusToken => 45 | MinusMinusToken => 46
  | LessThanLessThanToken => 47 | GreaterThanGreaterThanToken => 48
  | GreaterThanGreaterThanGreaterThanToken => 49 | AmpersandToken => 50 | BarToken => 51
  | CaretToken => 52 | ExclamationToken => 53 | TildeToken => 54 | AmpersandAmpersandToken => 55
  | BarBarToken => 56 | QuestionToken => 57 | ColonToken => 58 | AtToken => 59
  | QuestionQuestionToken => 60 | BacktickToken => 61 | HashToken => 62 | EqualsToken => 63
  | PlusEqualsToken => 64 | MinusEqualsToken => 65 | AsteriskEqualsToken => 66
  | AsteriskAsteriskEqualsToken => 67 | SlashEqualsToken => 68 | PercentEqualsToken => 69
  | LessThanLessThanEqualsToken => 70 | GreaterThanGreaterThanEqualsToken => 71
  | GreaterThanGreaterThanGreaterThanEqualsToken => 72 | AmpersandEqualsToken => 73
  | BarEqualsToken => 74 | BarBarEqualsToken => 75 | AmpersandAmpersandEqualsToken => 76
  | QuestionQuestionEqualsToken => 77 | CaretEqualsToken => 78 | Identifier => 79
  | PrivateIdentifier => 80 | JSDocCommentTextToken => 81 | BreakKeyword => 82
  | CaseKeyword => 83 | CatchKeyword => 84 | ClassKeyword => 85 | ConstKeyword => 86
  | ContinueKeyword => 87 | DebuggerKeyword => 88 | DefaultKeyword => 89 | DeleteKeyword => 90
  | DoKeyword => 91 | ElseKeyword => 92 | EnumKeyword => 93 | ExportKeyword => 94
  | ExtendsKeyword => 95 | FalseKeyword => 96 | FinallyKeyword => 97 | ForKeyword => 98
  | FunctionKeyword => 99 | IfKeyword => 100 | ImportKeyword => 101 | InKeyword => 102
  | InstanceOfKeyword => 103 | NewKeyword => 104 | NullKeyword => 105 | ReturnKeyword => 106
  | SuperKeyword => 107 | SwitchKeyword => 108 | ThisKeyword => 109 | ThrowKeyword => 110
  | TrueKeyword => 111 | TryKeyword => 112 | TypeOfKeyword => 113 | VarKeyword => 114
  | VoidKeyword => 115 | WhileKeyword => 116 | WithKeyword => 117 | ImplementsKeyword => 118
  | InterfaceKeyword => 119 | LetKeyword => 120 | PackageKeyword => 121 | PrivateKeyword => 122
  | ProtectedKeyword => 123 | PublicKeyword => 124 | StaticKeyword => 125 | YieldKeyword => 126
  | AbstractKeyword => 127 | AccessorKeyword => 128 | AsKeyword => 129 | AssertsKeyword => 130
  | AssertKeyword => 131 | AnyKeyword => 132 | AsyncKeyword => 133 | AwaitKeyword => 134
  | BooleanKeyword => 135 | ConstructorKeyword => 136 | DeclareKeyword => 137 | GetKeyword => 138
  | ImmediateKeyword => 139 | InferKeyword => 140 | IntrinsicKeyword => 141 | IsKeyword => 142
  | KeyOfKeyword => 143 | ModuleKeyword => 144 | NamespaceKeyword => 145 | NeverKeyword => 146
  | OutKeyword => 147 | ReadonlyKeyword => 148 | RequireKeyword => 149 | NumberKeyword => 150
  | ObjectKeyword => 151 | SatisfiesKeyword => 152 | SetKeyword => 153 | StringKeyword => 154
  | SymbolKeyword => 155 | TypeKeyword => 156 | UndefinedKeyword => 157 | UniqueKeyword => 158
  | UnknownKeyword => 159 | UsingKeyword => 160 | FromKeyword => 161 | GlobalKeyword => 162
  | BigIntKeyword => 163 | OverrideKeyword => 164 | OfKeyword => 165 | DeferKeyword => 166
  end.

Lemma from_as_u16 kind : from_u16 (as_u16 kind) = Some kind.
Proof. by destruct kind. Qed.

#[export] Instance as_u16_inj : Inj (=) (=) as_u16.
Proof. intros a b Heq. apply (f_equal from_u16) in Heq. rewrite !from_as_u16 in Heq. congruence. Qed.

#[export] Instance SyntaxKind_eq_dec : EqDecision SyntaxKind.
Proof. refine (λ a b, cast_if (decide (as_u16 a = as_u16 b))); [by apply (inj as_u16)|by intros ->]. Defined.

Definition kind_eqb (a b : SyntaxKind) : bool := as_u16 a =? as_u16 b.

Lemma kind_eqb_true a b : kind_eqb a b = true ↔ a = b.
Proof. unfold kind_eqb. rewrite Z.eqb_eq. split; [apply (inj as_u16)|by intros ->]. Qed.

(** ** Spelling tables *)

Definition KEYWORDS : list (bytes * Z) := [
  (bs "abstract", 127); (bs "accessor", 128); (bs "any", 132); (bs "as", 129);
  (bs "assert", 131); (bs "asserts", 130); (bs "async", 133); (bs "await", 134);
  (bs "bigint", 163); (bs "boolean", 135); (bs "break", 82); (bs "case", 83); (bs "catch", 84);
  (bs "class", 85); (bs "const", 86); (bs "constructor", 136); (bs "continue", 87);
  (bs "debugger", 88); (bs "declare", 137); (bs "default", 89); (bs "defer", 166);
  (bs "delete", 90); (bs "do", 91); (bs "else", 92); (bs "enum", 93); (bs "export", 94);
  (bs "extends", 95); (bs "false", 96); (bs "finally", 97); (bs "for", 98); (bs "from", 161);
  (bs "function", 99); (bs "get", 138); (bs "global", 162); (bs "if", 100);
  (bs "immediate", 139); (bs "implements", 118); (bs "import", 101); (bs "in", 102);
  (bs "infer", 140); (bs "instanceof", 103); (bs "interface", 119); (bs "intrinsic", 141);
  (bs "is", 142); (bs "keyof", 143); (bs "let", 120); (bs "module", 144); (bs "namespace", 145);
  (bs "never", 146); (bs "new", 104); (bs "null", 105); (bs "number", 150); (bs "object", 151);
  (bs "of", 165); (bs "out", 147); (bs "override", 164); (bs "package", 121);
  (bs "private", 122); (bs "protected", 123); (bs "public", 124); (bs "readonly", 148);
  (bs "require", 149); (bs "return", 106); (bs "satisfies", 152); (bs "set", 153);
  (bs "static", 125); (bs "string", 154); (bs "super", 107); (bs "switch", 108);
  (bs "symbol", 155); (bs "this", 109); (bs "throw", 110); (bs "true", 111); (bs "try", 112);
  (bs "type", 156); (bs "typeof", 113); (bs "undefined", 157); (bs "unique", 158);
  (bs "unknown", 159); (bs "using", 160); (bs "var", 114); (bs "void", 115); (bs "while", 116);
  (bs "with", 117); (bs "yield", 126)].

Definition TOKENS : list (bytes * Z) := [
  (bs "!", 53); (bs "!=", 35); (bs "!==", 37); (bs "#", 62); (bs "%", 44); (bs "%=", 69);
  (bs "&", 50); (bs "&&", 55); (bs "&&=", 76); (bs "&=", 73); (bs "(", 20); (bs ")", 21);
  (bs "*", 41); (bs "**", 42); (bs "**=", 67); (bs "*=", 66); (bs "+", 39); (bs "++", 45);
  (bs "+=", 64); (bs ",", 27); (bs "-", 40); (bs "--", 46); (bs "-=", 65); (bs ".", 24);
  (bs "...", 25); (bs "/", 43); (bs "/=", 68); (bs ":", 58); (bs ";", 26); (bs "<", 29);
  (bs "</", 30); (bs "<<", 47); (bs "<<=", 70); (bs "<=", 32); (bs "=", 63); (bs "==", 34);
  (bs "===", 36); (bs "=>", 38); (bs ">", 31); (bs ">=", 33); (bs ">>", 48); (bs ">>=", 71);
  (bs ">>>", 49); (bs ">>>=", 72); (bs "?", 57); (bs "?.", 28); (bs "??", 60); (bs "??=", 77);
  (bs "@", 59); (bs "[", 22); (bs "]", 23); (bs "^", 52); (bs "^=", 78); (bs "`", 61);
  (bs "abstract", 127); (bs "accessor", 128); (bs "any", 132); (bs "as", 129);
  (bs "assert", 131); (bs "asserts", 130); (bs "async", 133); (bs "await", 134);
  (bs "bigint", 163); (bs "boolean", 135); (bs "break", 82); (bs "case", 83); (bs "catch", 84);
  (bs "class", 85); (bs "const", 86); (bs "constructor", 136); (bs "continue", 87);
  (bs "debugger", 88); (bs "declare", 137); (bs "default", 89); (bs "defer", 166);
  (bs "delete", 90); (bs "do", 91); (bs "else", 92); (bs "enum", 93); (bs "export", 94);
  (bs "extends", 95); (bs "false", 96); (bs "finally", 97); (bs "for", 98); (bs "from", 161);
  (bs "function", 99); (bs "get", 138); (bs "global", 162); (bs "if", 100);
  (bs "immediate", 139); (bs "implements", 118); (bs "import", 101); (bs "in", 102);
  (bs "infer", 140); (bs "instanceof", 103); (bs "interface", 119); (bs "intrinsic", 141);
  (bs "is", 142); (bs "keyof", 143); (bs "let", 120); (bs "module", 144); (bs "namespace", 145);
  (bs "never", 146); (bs "new", 104); (bs "null", 105); (bs "number", 150); (bs "object", 151);
  (bs "of", 165); (bs "out", 147); (bs "override", 164); (bs "package", 121);
  (bs "private", 122); (bs "protected", 123); (bs "public", 124); (bs "readonly", 148);
  (bs "require", 149); (bs "return", 106); (bs "satisfies", 152); (bs "set", 153);
  (bs "static", 125); (bs "string", 154); (bs "super", 107); (bs "switch", 108);
  (bs "symbol", 155); (bs "this", 109); (bs "throw", 110); (bs "true", 111); (bs "try", 112);
  (bs "type", 156); (bs "typeof", 113); (bs "undefined", 157); (bs "unique", 158);
  (bs "unknown", 159); (bs "using", 160); (bs "var", 114); (bs "void", 115); (bs "while", 116);
  (bs "with", 117); (bs "yield", 126); (bs "{", 18); (bs "|", 51); (bs "|=", 74); (bs "||", 56);
  (bs "||=", 75); (bs "}", 19); (bs "~", 54)].

(** The [match] of [keyword_kind] has the rows of [KEYWORDS]. *)
Definition keyword_kind (text : bytes) : option Z :=
  snd <$> find (λ row, bytes_eqb row.1 text) KEYWORDS.

(** ** Lookups *)

(** A number of the table that is no kind would be the panic of [expect]. *)
Definition keyword (text : bytes) : option SyntaxKind :=
  match keyword_kind text with
  | None => Some Unknown
  | Some kind => from_u16 kind
  end.

Definition get_identifier_token (text : bytes) : option SyntaxKind :=
  if in_range 2 12 (Z.of_nat (length text))
     && match text with b :: _ => is_ascii_lowercase b | [] => false end
  then kind ← keyword text; Some (if kind_eqb kind Unknown then Identifier else kind)
  else Some Identifier.

(** The kinds are numbers of the table, so that a row's text is found by number. *)
Definition token_to_string (token : SyntaxKind) : bytes :=
  default [] (fst <$> find (λ row, row.2 =? as_u16 token) TOKENS).

(** [slice::binary_search_by]: the halving loop of the standard library, for a
    slice of [size] elements from [base] on; the index found, if any. *)
Fixpoint binary_search_loop {A} (fuel : nat) (f : A → comparison) (l : list A) (base size : nat)
  : option nat :=
  match fuel with
  | O => None
  | S fuel =>
      if (1 <? size)%nat then
        let half := (size / 2)%nat in
        let mid := (base + half)%nat in
        row ← l !! mid;
        binary_search_loop fuel f l (match f row with Gt => base | _ => mid end) (size - half)
      else
        row ← l !! base;
        match f row with Eq => Some base | _ => None end
  end.

Definition binary_search_by {A} (f : A → comparison) (l : list A) : option nat :=
  binary_search_loop (S (length l)) f l 0 (length l).

Definition string_to_token (text : bytes) : option SyntaxKind :=
  match binary_search_by (λ row, bytes_cmp row.1 text) TOKENS with
  | None => Some Unknown
  | Some index => row ← TOKENS !! index; from_u16 row.2
  end.

Definition get_viable_keyword_suggestions : list bytes :=
  fst <$> filter (λ row, 2 <? Z.of_nat (length row.1)) KEYWORDS.

Definition token_is_identifier_or_keyword (token : SyntaxKind) : bool :=
  as_u16 Identifier <=? as_u16 token.

(** ** Flags of a token ([crates/tsr_ast/src/tokens.rs]) *)

Definition PRECEDING_LINE_BREAK : Z := Z.shiftl 1 0.
Definition PRECEDING_JSDOC_COMMENT : Z := Z.shiftl 1 1.
Definition UNTERMINATED : Z := Z.shiftl 1 2.
Definition EXTENDED_UNICODE_ESCAPE : Z := Z.shiftl 1 3.
Definition SCIENTIFIC : Z := Z.shiftl 1 4.
Definition OCTAL : Z := Z.shiftl 1 5.
Definition HEX_SPECIFIER : Z := Z.shiftl 1 6.
Definition BINARY_SPECIFIER : Z := Z.shiftl 1 7.
Definition OCTAL_SPECIFIER : Z := Z.shiftl 1 8.
Definition CONTAINS_SEPARATOR : Z := Z.shiftl 1 9.
Definition UNICODE_ESCAPE : Z := Z.shiftl 1 10.
Definition CONTAINS_INVALID_ESCAPE : Z := Z.shiftl 1 11.
Definition HEX_ESCAPE : Z := Z.shiftl 1 12.
Definition CONTAINS_LEADING_ZERO : Z := Z.shiftl 1 13.
Definition CONTAINS_INVALID_SEPARATOR : Z := Z.shiftl 1 14.
Definition PRECEDING_JSDOC_LEADING_ASTERISKS : Z := Z.shiftl 1 15.
Definition SINGLE_QUOTE : Z := Z.shiftl 1 16.
Definition PRECEDING_JSDOC_WITH_DEPRECATED : Z := Z.shiftl 1 17.
Definition PRECEDING_JSDOC_WITH_SEE_OR_LINK : Z := Z.shiftl 1 18.
Definition BINARY_OR_OCTAL_SPECIFIER : Z := Z.lor BINARY_SPECIFIER OCTAL_SPECIFIER.

(** [flags & flag != 0] *)
Definition has_flag (flags flag : Z) : bool := negb (Z.land flags flag =? 0).

(** ** The tables fit together *)

Lemma binary_search_loop_spec {A} (f : A → comparison) l fuel base size :
  (size < fuel)%nat → (1 ≤ size)%nat → (base + size ≤ length l)%nat →
  (∀ i j x y, (i < j)%nat → l !! i = Some x → l !! j = Some y → f x ≠ Lt → f y = Gt) →
  (∀ i x, (i < base)%nat → l !! i = Some x → f x = Lt) →
  (∀ i x, (base + size ≤ i)%nat → l !! i = Some x → f x = Gt) →
  match binary_search_loop fuel f l base size with
  | Some i => ∃ x, l !! i = Some x ∧ f x = Eq
  | None => ∀ i x, l !! i = Some x → f x ≠ Eq
  end.
Proof.
  intros Hf Hs Hl Hord. revert base size Hf Hs Hl.
  induction fuel as [|fuel IH]; intros base size Hf Hs Hl Hlo Hhi; [lia|]. cbn [binary_search_loop].
  destruct (Nat.ltb_spec 1 size) as [Hgt|Hle].
  - pose proof (Nat.div_mod_eq size 2). pose proof (Nat.mod_upper_bound size 2 ltac:(lia)).
    destruct (lookup_lt_is_Some_2 l (base + size / 2)) as [row Hrow]; [lia|].
    rewrite Hrow. cbn [mbind option_bind]. destruct (f row) eqn:Ef; apply IH; try lia.
    + intros i x Hi Hx. destruct (f x) eqn:E; [|done|]; exfalso;
        specialize (Hord i _ x row Hi Hx Hrow); rewrite E, Ef in Hord; naive_solver.
    + intros i x Hi Hx. apply (Hhi i); [lia|done].
    + intros i x Hi Hx. destruct (f x) eqn:E; [|done|]; exfalso;
        specialize (Hord i _ x row Hi Hx Hrow); rewrite E, Ef in Hord; naive_solver.
    + intros i x Hi Hx. apply (Hhi i); [lia|done].
    + done.
    + intros i x Hi Hx. destruct (decide (i = (base + size / 2)%nat)) as [->|]; [congruence|].
      apply (Hord (base + size / 2)%nat i row x); [lia|done|done|congruence].
  - destruct (lookup_lt_is_Some_2 l base) as [row Hrow]; [lia|].
    rewrite Hrow. cbn [mbind option_bind]. destruct (f row) eqn:Ef; [eauto| |].
    all: intros i x Hx; destruct (lt_eq_lt_dec i base) as [[Hi| ->]|Hi];
      [rewrite (Hlo i x Hi Hx)|congruence|rewrite (Hhi i x ltac:(lia) Hx)]; done.
Qed.

Fixpoint rows_sorted (l : list (bytes * Z)) : bool :=
  match l with
  | x :: (y :: _) as l => bool_decide (bytes_cmp x.1 y.1 = Lt) && rows_sorted l
  | _ => true
  end.

Lemma rows_sorted_lookup l i j x y :
  rows_sorted l = true → (i < j)%nat → l !! i = Some x → l !! j = Some y →
  bytes_cmp x.1 y.1 = Lt.
Proof.
  revert i j x y. induction l as [|a [|b l] IH]; intros i j x y Hs Hij Hx Hy; [done| |].
  - apply lookup_lt_Some in Hx, Hy. simpl in *. lia.
  - change (bool_decide (bytes_cmp a.1 b.1 = Lt) && rows_sorted (b :: l) = true) in Hs.
    apply andb_true_iff in Hs as [Hab%bool_decide_eq_true_1 Hs].
    destruct j as [|j]; [lia|]. destruct i as [|i]; [|by apply (IH i j); [|lia|..]].
    injection Hx as <-. destruct j as [|j]; [by injection Hy as <-|].
    apply (cmp_lt_trans (cmp := bytes_cmp) _ b.1); [done|].
    by apply (IH 0%nat (S j)); [|lia|..].
Qed.

Lemma as_from_u16 z kind : from_u16 z = Some kind → as_u16 kind = z.
Proof.
  unfold from_u16. destruct (Z.ltb_spec z 0); [done|]. intros Hn.
  assert (∀ n k, ALL_KINDS !! n = Some k → as_u16 k = Z.of_nat n) as Hall.
  { intros n k. do 167 (destruct n as [|n]; [by intros [= <-]|]). done. }
  rewrite (Hall _ _ Hn). lia.
Qed.

(** The binary search finds exactly the rows of the table. *)
Lemma string_to_token_row text :
  match string_to_token text with
  | None => False
  | Some Unknown => text ∉ TOKENS.*1
  | Some kind => (text, as_u16 kind) ∈ TOKENS
  end.
Proof.
  assert (rows_sorted TOKENS = true) as Hs by (vm_compute; reflexivity).
  assert (Forall (λ row, is_Some (from_u16 row.2) ∧ from_u16 row.2 ≠ Some Unknown) TOKENS) as Hk
    by (apply (bool_decide_eq_true_1 (Forall _ _)); vm_compute; reflexivity).
  unfold string_to_token, binary_search_by.
  opose proof* (binary_search_loop_spec (λ row : bytes * Z, bytes_cmp row.1 text) TOKENS
    (S (length TOKENS)) 0 (length TOKENS) ltac:(lia) ltac:(vm_compute; lia) ltac:(lia)) as Hb.
  - intros i j x y Hij Hx Hy Hne. pose proof (rows_sorted_lookup _ _ _ _ _ Hs Hij Hx Hy) as Hxy.
    destruct (bytes_cmp x.1 text) eqn:E; [|done|].
    + apply (cmp_eq (cmp := bytes_cmp)) in E as <-. by rewrite (cmp_gt_lt bytes_cmp).
    + apply (cmp_gt_lt bytes_cmp) in E. rewrite (cmp_gt_lt bytes_cmp).
      by apply (cmp_lt_trans (cmp := bytes_cmp) _ x.1).
  - intros. lia.
  - intros i x Hi Hx. apply lookup_lt_Some in Hx. lia.
  - destruct (binary_search_loop _ _ _ _ _) as [i|].
    + destruct Hb as ([t z] & Hrow & Heq%(cmp_eq (cmp := bytes_cmp))). rewrite Hrow. simpl in *.
      subst t. rewrite Forall_lookup in Hk. destruct (Hk i _ Hrow) as [[kind Hkind] Hne].
      apply list_elem_of_lookup_2 in Hrow. simpl in *. rewrite Hkind in *.
      rewrite <-(as_from_u16 z kind Hkind) in Hrow. by destruct kind.
    + intros ([t z] & -> & [i Hi]%list_elem_of_lookup)%list_elem_of_fmap. apply (Hb i _ Hi).
      apply cmp_refl.
Qed.

Lemma string_to_token_elem text z : (text, z) ∈ TOKENS → string_to_token text = from_u16 z.
Proof.
  assert (Forall (λ row, string_to_token row.1 = from_u16 row.2) TOKENS) as H
    by (apply (bool_decide_eq_true_1 (Forall _ _)); vm_compute; reflexivity).
  rewrite Forall_forall in H. apply (H (text, z)).
Qed.

Lemma token_to_string_elem text z kind :
  (text, z) ∈ TOKENS → from_u16 z = Some kind → token_to_string kind = text.
Proof.
  assert (Forall (λ row, token_to_string (default Unknown (from_u16 row.2)) = row.1) TOKENS) as H
    by (apply (bool_decide_eq_true_1 (Forall _ _)); vm_compute; reflexivity).
  rewrite Forall_forall in H. intros Hin%H Hk. simpl in Hin. by rewrite Hk in Hin.
Qed.

Definition is_keyword (kind : SyntaxKind) : bool := in_range 82 166 (as_u16 kind).
Definition is_punctuation (kind : SyntaxKind) : bool := in_range 18 78 (as_u16 kind).

(** Neither the end of the file nor a token that is always spelled the same. *)
Definition plain_kind (kind : SyntaxKind) : bool :=
  negb (is_punctuation kind || is_keyword kind || kind_eqb kind EndOfFile).

Lemma plain_kind_not_end kind : plain_kind kind = true → kind ≠ EndOfFile.
Proof. by intros Hk ->. Qed.

Definition word_like (text : bytes) : bool :=
  in_range 2 12 (Z.of_nat (length text))
  && match text with b :: _ => is_ascii_lowercase b | [] => false end.

(** The keywords are the rows of [TOKENS] in their range, and all look like words. *)
Lemma keyword_rows text z :
  (text, z) ∈ KEYWORDS ↔ (text, z) ∈ TOKENS ∧ in_range 82 166 z = true.
Proof.
  assert (Forall (λ row, row ∈ TOKENS ∧ in_range 82 166 row.2 = true) KEYWORDS) as H1
    by (apply (bool_decide_eq_true_1 (Forall _ _)); vm_compute; reflexivity).
  assert (Forall (λ row, in_range 82 166 row.2 = true → row ∈ KEYWORDS) TOKENS) as H2
    by (apply (bool_decide_eq_true_1 (Forall _ _)); vm_compute; reflexivity).
  rewrite Forall_forall in H1, H2. split; [apply (H1 (text, z))|].
  intros [Hin Hr]. by apply (H2 (text, z)).
Qed.

Lemma keyword_word_like text z : (text, z) ∈ KEYWORDS → word_like text = true.
Proof.
  assert (Forall (λ row, word_like row.1 = true) KEYWORDS) as H
    by (apply (bool_decide_eq_true_1 (Forall _ _)); vm_compute; reflexivity).
  rewrite Forall_forall in H. apply (H (text, z)).
Qed.

Lemma keyword_kind_row text kind : keyword_kind text = Some kind → (text, kind) ∈ KEYWORDS.
Proof.
  unfold keyword_kind. intros ([t k] & Hf & [= <-])%fmap_Some.
  apply find_some in Hf as [Hin Ht%bytes_eqb_true]. simpl in Ht. subst t. by apply list_elem_of_In.
Qed.

Lemma keyword_kind_none text kind : keyword_kind text = None → (text, kind) ∉ KEYWORDS.
Proof.
  unfold keyword_kind. rewrite fmap_None. intros Hf Hin%list_elem_of_In.
  apply (find_none _ _ Hf) in Hin. simpl in Hin. by apply bytes_eqb_false in Hin.
Qed.

(** The keywords of [get_identifier_token], by the search of [string_to_token]. *)
Lemma get_identifier_token_kind text kind :
  string_to_token text = Some kind → (kind ≠ Unknown → (text, as_u16 kind) ∈ TOKENS) →
  get_identifier_token text = Some (if is_keyword kind then kind else Identifier).
Proof.
  intros Es Hin. unfold get_identifier_token. fold (word_like text). unfold keyword.
  destruct (keyword_kind text) as [z|] eqn:Ek.
  - apply keyword_kind_row in Ek. rewrite (keyword_word_like _ _ Ek).
    apply keyword_rows in Ek as [Ht Hr]. apply string_to_token_elem in Ht.
    rewrite <-Ht, Es. cbn [mbind option_bind].
    rewrite Es in Ht. symmetry in Ht. apply as_from_u16 in Ht as Hz.
    unfold is_keyword. rewrite Hz, Hr. destruct (kind_eqb kind Unknown) eqn:E; [|done].
    apply kind_eqb_true in E as ->. by subst z.
  - destruct (is_keyword kind) eqn:Hr; [|by destruct (word_like text)]. exfalso.
    apply (keyword_kind_none text (as_u16 kind)); [done|]. apply keyword_rows.
    split; [apply Hin; by intros ->|done].
Qed.

Lemma string_to_token_spelling text kind :
  string_to_token text = Some kind → kind ≠ Unknown → token_to_string kind = text.
Proof.
  intros Es Hne. pose proof (string_to_token_row text) as Hrow. rewrite Es in Hrow.
  apply (token_to_string_elem text (as_u16 kind)); [by destruct kind|apply from_as_u16].
Qed.

Lemma get_identifier_token_some text :
  ∃ kind, get_identifier_token text = Some kind
    ∧ (kind = Identifier ∨ is_keyword kind = true ∧ token_to_string kind = text).
Proof.
  pose proof (string_to_token_row text) as Hrow.
  destruct (string_to_token text) as [kind|] eqn:Es; [|done].
  rewrite (get_identifier_token_kind text kind Es) by (by destruct kind).
  eexists. split; [done|]. destruct (is_keyword kind) eqn:E; [right|by left].
  split; [done|]. apply string_to_token_spelling; [done|]. by intros ->.
Qed.

(** The three ways of looking a spelling up agree for every text: the
    binary search of [string_to_token] never fails and finds exactly the texts
    of the table, [token_to_string] gives each of them back, and
    [get_identifier_token], which looks only at lower-case words of two to
    twelve letters, recognises exactly the keywords among them. *)
Theorem spelling_tables_agree text :
  ∃ kind, string_to_token text = Some kind
    ∧ (kind = Unknown ↔ text ∉ TOKENS.*1)
    ∧ (kind ≠ Unknown → token_to_string kind = text)
    ∧ get_identifier_token text = Some (if is_keyword kind then kind else Identifier).
Proof.
  pose proof (string_to_token_row text) as Hrow.
  destruct (string_to_token text) as [kind|] eqn:Es; [|done]. exists kind. split; [done|].
  assert (kind ≠ Unknown → (text, as_u16 kind) ∈ TOKENS) as Hin by (by destruct kind).
  split; [|split].
  - split; [intros ->; done|]. intros Hno. apply dec_stable. intros Hne. apply Hno.
    apply list_elem_of_fmap. exists (text, as_u16 kind). split; [done|by apply Hin].
  - by apply string_to_token_spelling.
  - by apply get_identifier_token_kind.
Qed.
