(* ===== verification/ScannerState.v ===== *)
(** The scanner's state and its primitive operations:
    [crates/tsr_scanner/src/state.rs].

    A method that takes [&mut self] is a computation of the monad [M]: a state
    transformer over [Scanner] in which [None] is a panic. A [TokenValue] is its
    bytes, since the source compares, hashes and reads it as those; whether they
    are borrowed from the text, cooked or static is not kept. Positions are [i64]s
    with their wrap-around written out where the source wraps.

    Texts the scanner's clients ask about, without a scanner: the identifier
    predicates of [crates/tsr_scanner/src/identifier.rs] and the functions of
    [utilities.rs]. *)

From stdpp Require Import gmap.
From S2P Require Import Prelude Wtf8 LineMap TextEdits ScannerKinds.

Local Open Scope Z_scope.

(** ** Diagnostics *)

(** The messages of [tsr_diagnostics] the scanner reports. *)
Inductive Message :=
  | Unexpected_end_of_text
  | Unterminated_string_literal
  | Unterminated_template_literal
  | Asterisk_Slash_expected
  | Hexadecimal_digit_expected
  | Binary_digit_expected
  | Octal_digit_expected
  | Digit_expected
  | Invalid_character
  | File_appears_to_be_binary
  | Merge_conflict_marker_encountered
  | X_can_only_be_used_at_the_start_of_a_file
  | Numeric_separators_are_not_allowed_here
  | Multiple_consecutive_numeric_separators_are_not_permitted
  | Octal_literals_are_not_allowed_Use_the_syntax_0
  | Decimals_with_leading_zeros_are_not_allowed
  | A_bigint_literal_cannot_use_exponential_notation
  | A_bigint_literal_must_be_an_integer
  | An_identifier_or_keyword_cannot_immediately_follow_a_numeric_literal
  | Octal_escape_sequences_and_backreferences_are_not_allowed_in_a_character_class
  | Octal_escape_sequences_are_not_allowed_Use_the_syntax_0
  | Decimal_escape_sequences_and_backreferences_are_not_allowed_in_a_character_class
  | Escape_sequence_0_is_not_allowed
  | Unicode_escape_sequences_are_only_available_when_a_Unicode_flag_is_set
  | This_character_cannot_be_escaped_in_a_regular_expression
  | An_extended_Unicode_escape_value_must_be_between_0x0_and_0x10FFFF_inclusive
  | Unterminated_Unicode_escape_sequence
  | Unexpected_token_Did_you_mean_or_gt
  | Unexpected_token_Did_you_mean_or_rbrace
  | Unterminated_regular_expression_literal.

Inductive DiagnosticArgument := ArgString (s : bytes) | ArgInteger (n : Z).

Record ScannerDiagnostic := MkDiagnostic {
  message : Message;
  start : Z;
  length_ : Z;
  args : list DiagnosticArgument;
}.

(** A callback is known by what it has been called with. *)
Inductive ErrorSink :=
  | Ignore
  | Callback (delivered : list ScannerDiagnostic)
  | Buffered (errors : list ScannerDiagnostic).

Definition sink_push (sink : ErrorSink) (d : ScannerDiagnostic) : ErrorSink :=
  match sink with
  | Ignore => Ignore
  | Callback delivered => Callback (delivered ++ [d])
  | Buffered errors => Buffered (errors ++ [d])
  end.

(** ** State *)

Inductive CommentDirectiveKind := UnknownDirective | ExpectError | IgnoreDirective.

Record CommentDirective := MkDirective { loc : TextRange; kind : CommentDirectiveKind }.

(** The shared vector of directives, copied on write, is its contents. *)
Record ScannerState := MkState {
  pos : Z;
  full_start_pos : Z;
  token_start : Z;
  token : SyntaxKind;
  token_value : bytes;
  token_flags : Z;
  comment_directives : list CommentDirective;
  skip_jsdoc_leading_asterisks : Z;
}.

#[export] Instance eta_state : Eta ScannerState := λ s,
  MkState (pos s) (full_start_pos s) (token_start s) (token s) (token_value s) (token_flags s)
    (comment_directives s) (skip_jsdoc_leading_asterisks s).

Definition state_default : ScannerState := MkState 0 0 0 Unknown [] 0 [] 0.

(** [LanguageVariant] *)
Definition STANDARD : Z := 0.
Definition JSX : Z := 1.

(** The caches map texts to cooked texts. *)
Record Scanner := MkScanner {
  text : bytes;
  end_ : Z;
  state : ScannerState;
  language_variant : Z;
  script_target : Z;
  skips_trivia : bool;
  error_sink : ErrorSink;
  number_cache : gmap bytes bytes;
  hex_number_cache : gmap bytes bytes;
  hex_digit_cache : gmap bytes bytes;
  checkpoint_owner : option Z;
  next_checkpoint_id : Z;
  checkpoints : list Z;
}.

#[export] Instance eta_scanner : Eta Scanner := λ s,
  MkScanner (text s) (end_ s) (state s) (language_variant s) (script_target s) (skips_trivia s)
    (error_sink s) (number_cache s) (hex_number_cache s) (hex_digit_cache s)
    (checkpoint_owner s) (next_checkpoint_id s) (checkpoints s).

Definition default_scanner : Scanner :=
  {| text := []; end_ := 0; state := state_default; language_variant := STANDARD;
     script_target := 0; skips_trivia := true; error_sink := Ignore; number_cache := ∅;
     hex_number_cache := ∅; hex_digit_cache := ∅; checkpoint_owner := None;
     next_checkpoint_id := 0; checkpoints := [] |}.

(** What the scanner takes from [tsr_jsnum], whose numbers are not modelled: the
    text of a numeric literal read as a number and printed again. *)
Class JsNum := normalize_number : bytes → bytes.

(** ** The monad *)

Definition M (A : Type) : Type := Scanner → option (A * Scanner).

#[export] Instance M_ret : MRet M := λ A a s, Some (a, s).
#[export] Instance M_bind : MBind M := λ A B f m s,
  match m s with None => None | Some (a, s) => f a s end.

Definition panic {A} : M A := λ _, None.
Definition get : M Scanner := λ s, Some (s, s).
Definition put (s : Scanner) : M unit := λ _, Some (tt, s).
Definition gets {A} (f : Scanner → A) : M A := λ s, Some (f s, s).
Definition modify (f : Scanner → Scanner) : M unit := λ s, Some (tt, f s).
Definition modify_state (f : ScannerState → ScannerState) : M unit :=
  modify (λ s, s <| state := f (state s) |>).
Definition when (b : bool) (m : M unit) : M unit := if b then m else mret tt.
Definition lift {A} (o : option A) : M A := λ s, a ← o; Some (a, s).

(** A [while] or [loop] of the source: [inl] goes round again, [inr] breaks. The
    fuel is one more than the text is long. *)
Fixpoint iterate {St A} (fuel : nat) (body : St → M (St + A)) (st : St) : M A :=
  match fuel with
  | O => panic
  | S fuel =>
      r ← body st;
      match r with inl st => iterate fuel body st | inr a => mret a end
  end.

Definition loop {St A} (body : St → M (St + A)) (st : St) : M A :=
  λ s, iterate (S (S (length (text s)))) body st s.

(** ** Fields of the state *)

Definition get_pos : M Z := gets (λ s, pos (state s)).
Definition set_pos (p : Z) : M unit := modify_state (λ st, st <| pos := p |>).
Definition advance (n : Z) : M unit := modify_state (λ st, st <| pos := pos st + n |>).
Definition get_flags : M Z := gets (λ s, token_flags (state s)).
Definition set_flags (f : Z) : M unit := modify_state (λ st, st <| token_flags := f |>).
Definition add_flags (f : Z) : M unit :=
  modify_state (λ st, st <| token_flags := Z.lor (token_flags st) f |>).
Definition get_value : M bytes := gets (λ s, token_value (state s)).
Definition set_value (v : bytes) : M unit := modify_state (λ st, st <| token_value := v |>).
Definition get_token : M SyntaxKind := gets (λ s, token (state s)).
Definition set_token (k : SyntaxKind) : M unit := modify_state (λ st, st <| token := k |>).
Definition get_token_start : M Z := gets (λ s, token_start (state s)).
Definition set_token_start (p : Z) : M unit := modify_state (λ st, st <| token_start := p |>).
Definition get_full_start : M Z := gets (λ s, full_start_pos (state s)).
Definition set_full_start (p : Z) : M unit :=
  modify_state (λ st, st <| full_start_pos := p |>).
Definition get_text : M bytes := gets text.
Definition get_end : M Z := gets end_.

(** ** Reading the text *)

(** [&text[start..end]] and [&text[start..]] with their panics. *)
Definition text_slice (text : bytes) (start end_ : Z) : option bytes :=
  if (start <? 0) || (end_ <? start) || (Z.of_nat (length text) <? end_) then None
  else Some (take (Z.to_nat (end_ - start)) (drop (Z.to_nat start) text)).

Definition text_tail (text : bytes) (start : Z) : option bytes :=
  if (start <? 0) || (Z.of_nat (length text) <? start) then None
  else Some (drop (Z.to_nat start) text).

Definition text_at (text : bytes) (p : Z) : option Z :=
  if p <? 0 then None else text !! Z.to_nat p.

Definition slice (start end_ : Z) : M bytes := λ s, b ← text_slice (text s) start end_; Some (b, s).
Definition tail (start : Z) : M bytes := λ s, b ← text_tail (text s) start; Some (b, s).

(** [Scanner.char] and [char_at]: a byte, or -1 at the end. *)
Definition char_at (offset : Z) : M Z := λ s,
  let p := wrap_i64 (pos (state s) + offset) in
  if p <? end_ s then b ← text_at (text s) p; Some (b, s) else Some (-1, s).
Definition char : M Z := λ s,
  let p := pos (state s) in
  if p <? end_ s then b ← text_at (text s) p; Some (b, s) else Some (-1, s).

(** The decoder sees the whole tail, whatever [end_] is. *)
Definition char_and_size : M (Z * Z) := λ s,
  let p := pos (state s) in
  let decode :=
    b ← text_tail (text s) p;
    let '(rune, size) := decode_utf8 b in Some ((rune, Z.of_nat size), s) in
  if p <? end_ s then
    byte ← text_at (text s) p;
    if byte <? 0x80 then Some ((byte, 1), s) else decode
  else decode.

(** [iter().take_while(f).count()] *)
Fixpoint count_while (f : Z → bool) (b : bytes) : Z :=
  match b with
  | [] => 0
  | x :: b => if f x then 1 + count_while f b else 0
  end.

Definition scan_ascii_while (pred : Z → bool) : M unit :=
  p ← get_pos;
  e ← get_end;
  b ← slice p e;
  advance (count_while (λ byte, (byte <? 0x80) && pred byte) b).

(** ** Errors *)

Definition error_at (m : Message) (start length : Z) (args : list DiagnosticArgument) : M unit :=
  modify (λ s, s <| error_sink := sink_push (error_sink s) (MkDiagnostic m start length args) |>).

Definition error (m : Message) : M unit := p ← get_pos; error_at m p 0 [].

Definition set_on_error (callback : bool) : M unit :=
  modify (λ s, s <| error_sink := if callback then Callback [] else Ignore |>).
Definition buffer_diagnostics : M unit := modify (λ s, s <| error_sink := Buffered [] |>).

Definition drain_diagnostics : M (list ScannerDiagnostic) := λ s,
  match error_sink s with
  | Buffered errors => Some (errors, s <| error_sink := Buffered [] |>)
  | _ => Some ([], s)
  end.

(** ** Token views *)

Definition has_unicode_escape (s : Scanner) : bool := has_flag (token_flags (state s)) UNICODE_ESCAPE.
Definition has_extended_unicode_escape (s : Scanner) : bool :=
  has_flag (token_flags (state s)) EXTENDED_UNICODE_ESCAPE.
Definition has_preceding_line_break (s : Scanner) : bool :=
  has_flag (token_flags (state s)) PRECEDING_LINE_BREAK.
Definition has_preceding_jsdoc_comment (s : Scanner) : bool :=
  has_flag (token_flags (state s)) PRECEDING_JSDOC_COMMENT.
Definition has_preceding_jsdoc_leading_asterisks (s : Scanner) : bool :=
  has_flag (token_flags (state s)) PRECEDING_JSDOC_LEADING_ASTERISKS.
Definition has_preceding_jsdoc_with_deprecated_tag (s : Scanner) : bool :=
  has_flag (token_flags (state s)) PRECEDING_JSDOC_WITH_DEPRECATED.
Definition has_preceding_jsdoc_with_see_or_link (s : Scanner) : bool :=
  has_flag (token_flags (state s)) PRECEDING_JSDOC_WITH_SEE_OR_LINK.
Definition token_full_start (s : Scanner) : Z := full_start_pos (state s).
Definition token_end (s : Scanner) : Z := pos (state s).
Definition token_text (s : Scanner) : option bytes :=
  text_slice (text s) (token_start (state s)) (pos (state s)).
Definition token_range (s : Scanner) : TextRange :=
  range_new (token_start (state s)) (pos (state s)).

(** ** Configuration and resets *)

(** Everything but the outstanding checkpoints goes back to the default. *)
Definition reset : M unit := modify (λ s,
  default_scanner <| checkpoint_owner := checkpoint_owner s |>
    <| next_checkpoint_id := next_checkpoint_id s |> <| checkpoints := checkpoints s |>).

Definition reset_pos (p : Z) : M unit :=
  if p <? 0 then panic
  else modify_state (λ st, st <| pos := p |> <| full_start_pos := p |> <| token_start := p |>).

Definition reset_token_state (p : Z) : M unit :=
  reset_pos p;;
  modify_state (λ st, st <| token := Unknown |> <| token_value := [] |> <| token_flags := 0 |>).

Definition set_skip_jsdoc_leading_asterisks (skip : bool) : M unit :=
  modify_state (λ st, st <| skip_jsdoc_leading_asterisks :=
    wrap_i64 (skip_jsdoc_leading_asterisks st + (if skip then 1 else -1)) |>).

Definition set_skip_trivia (skip : bool) : M unit := modify (λ s, s <| skips_trivia := skip |>).
Definition set_text (t : bytes) : M unit :=
  modify (λ s, s <| text := t |> <| end_ := Z.of_nat (length t) |> <| state := state_default |>).
Definition set_language_variant (v : Z) : M unit :=
  modify (λ s, s <| language_variant := v |>).
Definition set_script_target (t : Z) : M unit := modify (λ s, s <| script_target := t |>).
Definition language_version (s : Scanner) : Z :=
  if script_target s =? 0 then 99 else script_target s.

(** ** Checkpoints *)

Record Checkpoint := MkCheckpoint { owner : Z; id : Z; saved_state : ScannerState }.

(** [fresh] is the identity a new owner would get from the allocator. *)
Definition mark (fresh : Z) : M Checkpoint := λ s,
  let o := default fresh (checkpoint_owner s) in
  let id := next_checkpoint_id s + 1 in
  if 18446744073709551615 <? id then None
  else Some (MkCheckpoint o id (state s),
             s <| checkpoint_owner := Some o |> <| next_checkpoint_id := id |>
               <| checkpoints := checkpoints s ++ [id] |>).

Definition consume_checkpoint (c : Checkpoint) : M unit := λ s,
  if negb (bool_decide (checkpoint_owner s = Some (owner c))) then None
  else if negb (bool_decide (last (checkpoints s) = Some (id c))) then None
  else Some (tt, s <| checkpoints := removelast (checkpoints s) |>).

Definition rewind (c : Checkpoint) : M unit :=
  consume_checkpoint c;; modify (λ s, s <| state := saved_state c |>).
Definition commit (c : Checkpoint) : M unit := consume_checkpoint c.

(** * Functions over texts *)

(** ** Identifiers *)

(** The Unicode tables of [tsr_jsstring] are generated data. The scanner relies on
    three things about them: the replacement character is in neither, and neither
    white space nor a line break starts an identifier. *)
Class IdentifierTables := {
  is_unicode_identifier_start : Z → bool;
  is_unicode_identifier_part : Z → bool;
  rune_error_not_start : is_unicode_identifier_start RUNE_ERROR = false;
  rune_error_not_part : is_unicode_identifier_part RUNE_ERROR = false;
  white_space_not_start rune :
    is_white_space_like rune = true → is_unicode_identifier_start rune = false;
}.

Section Text.
Context `{IdentifierTables}.

Definition is_word_character (c : Z) : bool := is_ascii_letter c || is_digit c || (c =? ch "_").

Definition is_identifier_start (c : Z) : bool :=
  is_ascii_letter c || (c =? ch "_") || (c =? ch "$")
  || (127 <? c) && is_unicode_identifier_start c.

Definition is_identifier_part_ex (c variant : Z) : bool :=
  is_word_character c || (c =? ch "$") || (127 <? c) && is_unicode_identifier_part c
  || (variant =? JSX) && (c =? ch "-").

Definition is_identifier_part (c : Z) : bool := is_identifier_part_ex c STANDARD.

(** The loop over a text, with the test for its next rune. *)
Fixpoint all_runes (fuel : nat) (f : Z → bool) (text : bytes) : bool :=
  match fuel with
  | O => false
  | S fuel =>
      if bool_decide (text = []) then true
      else
        let '(rune, size) := decode_utf8 text in
        f rune && all_runes fuel f (drop size text)
  end.

Definition is_valid_identifier (text : bytes) : bool :=
  if bool_decide (text = []) then false
  else
    let '(rune, size) := decode_utf8 text in
    is_identifier_start rune && all_runes (S (length text)) is_identifier_part (drop size text).

Definition is_identifier_text (name : bytes) (variant : Z) : bool :=
  let '(rune, size) := decode_utf8 name in
  is_identifier_start rune
  && all_runes (S (length name)) (λ rune, is_identifier_part_ex rune variant) (drop size name).

Definition is_intrinsic_jsx_name (name : bytes) : bool :=
  match name with
  | [] => false
  | b :: _ => is_ascii_lowercase b || contains_byte (ch "-") name
  end.
End Text.

(** ** Decoding backwards *)

(** Back over at most three continuation bytes. *)
Fixpoint last_rune_start (fuel : nat) (b : bytes) (start lower : nat) : nat :=
  match fuel with
  | O => start
  | S fuel =>
      if (lower <? start)%nat && (Z.land (nth start b 0) 0xc0 =? 0x80)
      then last_rune_start fuel b (start - 1) lower
      else start
  end.

(** [DecodeLastRune]: a malformed last byte is one byte wide. *)
Definition decode_last_utf8 (b : bytes) : Z * nat :=
  match last b with
  | None => (RUNE_ERROR, 0%nat)
  | Some final =>
      if final <? 0x80 then (final, 1%nat)
      else
        let end_ := length b in
        let start := last_rune_start 3 b (end_ - 1) (end_ - 4) in
        let '(rune, width) := decode_utf8 (drop start b) in
        if (start + width =? end_)%nat then (rune, width) else (RUNE_ERROR, 1%nat)
  end.

(** ** The text of a JSDoc type *)

Fixpoint trim_start_fuel (fuel : nat) (b : bytes) : bytes :=
  match fuel with
  | O => b
  | S fuel =>
      let '(rune, size) := decode_utf8 b in
      if (size =? 0)%nat || negb (is_white_space_like rune) then b
      else trim_start_fuel fuel (drop size b)
  end.
Definition trim_start_space (b : bytes) : bytes := trim_start_fuel (S (length b)) b.

Definition strip_leading_jsdoc_comment (line : bytes) : bytes :=
  let line := trim_start_space line in
  trim_start_space (default line (strip_prefix (bs "*") line)).

(** A line without the line breaks at its end. *)
Fixpoint trim_line_breaks (fuel : nat) (line : bytes) : bytes :=
  match fuel with
  | O => line
  | S fuel =>
      let '(rune, size) := decode_last_utf8 line in
      if negb (is_line_break rune) then line
      else trim_line_breaks fuel (take (length line - size) line)
  end.

(** The lines from their starts; [None]: an index out of range. *)
Fixpoint jsdoc_lines (text : bytes) (starts : list Z) : option (list bytes) :=
  match starts with
  | [] => Some []
  | start :: starts =>
      let end_ := match starts with [] => Z.of_nat (length text) | next :: _ => next end in
      line ← text_slice text start end_;
      rest ← jsdoc_lines text starts;
      Some (strip_leading_jsdoc_comment (trim_line_breaks (S (length line)) line) :: rest)
  end.

Definition normalize_jsdoc_type_source_text (text : bytes) : option bytes :=
  let starts := compute_ecma_line_starts text in
  if (length starts =? 1)%nat then Some (strip_leading_jsdoc_comment text)
  else join_with 10 <$> jsdoc_lines text starts.
