(* ===== verification/ScannerWp.v ===== *)
(** Reasoning about scanner computations: total weakest preconditions, the rule
    for loops, and the judgement [at_pos], which says where a scanner stands
    relative to the one a token started from. *)

From stdpp Require Import gmap.
From S2P Require Import Prelude Wtf8 TextEdits ScannerKinds ScannerState.

Local Open Scope Z_scope.

(** ** Weakest preconditions *)

(** [m] returns, without a panic, in a state that satisfies [Q]. *)
Definition wp {A} (m : M A) (Q : A → Scanner → Prop) (s : Scanner) : Prop :=
  match m s with Some (a, s') => Q a s' | None => False end.

Lemma wp_some {A} (m : M A) Q s :
  wp m Q s ↔ ∃ a s', m s = Some (a, s') ∧ Q a s'.
Proof. unfold wp. destruct (m s) as [[a s']|]; naive_solver. Qed.

Lemma wp_ret {A} (a : A) (Q : A → Scanner → Prop) s : Q a s → wp (mret a) Q s.
Proof. done. Qed.

Lemma wp_bind {A B} (m : M A) (f : A → M B) Q s :
  wp m (λ a, wp (f a) Q) s → wp (m ≫= f) Q s.
Proof. unfold wp, mbind, M_bind. by destruct (m s) as [[a s']|]. Qed.

Lemma wp_mono {A} (m : M A) (P Q : A → Scanner → Prop) s :
  wp m P s → (∀ a s', P a s' → Q a s') → wp m Q s.
Proof. unfold wp. destruct (m s) as [[a s']|]; naive_solver. Qed.

Lemma wp_gets {A} (f : Scanner → A) (Q : A → Scanner → Prop) s : Q (f s) s → wp (gets f) Q s.
Proof. done. Qed.

Lemma wp_when (b : bool) m (Q : unit → Scanner → Prop) s :
  (b = true → wp m Q s) → (b = false → Q tt s) → wp (when b m) Q s.
Proof. destruct b; simpl; [auto|]. intros _ HQ. by apply HQ. Qed.

Lemma wp_lift {A} (o : option A) (a : A) (Q : A → Scanner → Prop) s :
  o = Some a → Q a s → wp (lift o) Q s.
Proof. by intros ->. Qed.

(** A loop ends because a measure that is at most one more than the text is long
    decreases, and keeps its invariant until it breaks. *)
Lemma wp_iterate {St A} (body : St → M (St + A)) (I : St → Scanner → Prop)
    (μ : St → Scanner → Z) (Q : A → Scanner → Prop) :
  (∀ st s, I st s → 0 <= μ st s ∧
     wp (body st) (λ r s', match r with
       | inl st' => I st' s' ∧ μ st' s' < μ st s
       | inr a => Q a s' end) s) →
  ∀ fuel st s, I st s → μ st s < Z.of_nat fuel → wp (iterate fuel body st) Q s.
Proof.
  intros Hbody. induction fuel as [|fuel IH]; intros st s Hinv Hfuel.
  - destruct (Hbody st s Hinv). lia.
  - simpl. apply wp_bind. destruct (Hbody st s Hinv) as [Hpos Hwp].
    apply (wp_mono _ _ _ _ Hwp). intros [st'|a] s'; [|done].
    intros [Hinv' Hlt]. apply IH; [done|lia].
Qed.

Lemma wp_loop {St A} (body : St → M (St + A)) (I : St → Scanner → Prop)
    (μ : St → Scanner → Z) (Q : A → Scanner → Prop) st s :
  I st s → μ st s <= Z.of_nat (length (text s)) + 1 →
  (∀ st s, I st s → 0 <= μ st s ∧
     wp (body st) (λ r s', match r with
       | inl st' => I st' s' ∧ μ st' s' < μ st s
       | inr a => Q a s' end) s) →
  wp (loop body st) Q s.
Proof.
  intros Hinv Hμ Hbody. unfold loop, wp.
  apply (wp_iterate body I μ Q Hbody (S (S (length (text s)))) st s); [done|lia].
Qed.

(** ** Diagnostics inside the text *)

Definition text_length (t : bytes) : Z := Z.of_nat (length t).
Lemma text_length_nonneg t : 0 <= text_length t.
Proof. unfold text_length. lia. Qed.

Definition in_text (t : bytes) (d : ScannerDiagnostic) : Prop :=
  0 <= start d ∧ 0 <= length_ d ∧ start d + length_ d <= text_length t.

Fixpoint sink_app (sink : ErrorSink) (ds : list ScannerDiagnostic) : ErrorSink :=
  match ds with [] => sink | d :: ds => sink_app (sink_push sink d) ds end.

Lemma sink_app_app sink ds ds' : sink_app sink (ds ++ ds') = sink_app (sink_app sink ds) ds'.
Proof. revert sink. by induction ds; simpl. Qed.

(** ** Flags *)

Lemma has_flag_lor fl g f : has_flag (Z.lor fl g) f = has_flag fl f || has_flag g f.
Proof.
  unfold has_flag. rewrite Z.land_lor_distr_l.
  destruct (Z.eqb_spec (Z.lor (Z.land fl f) (Z.land g f)) 0) as [E|E].
  - apply Z.lor_eq_0_iff in E as [-> ->]. done.
  - rewrite Z.lor_eq_0_iff in E. destruct (Z.eqb_spec (Z.land fl f) 0); [|done].
    destruct (Z.eqb_spec (Z.land g f) 0); [naive_solver|done].
Qed.

(** ** Coherent caches

    What a cached value depends on is its key alone. *)

Definition hex_canonical (original : bytes) : bytes :=
  map to_ascii_lowercase (filter (λ b, b ≠ ch "_") original).

Section Frame.
Context `{JsNum}.

Record coherent (s : Scanner) : Prop := {
  coherent_number : map_Forall (λ k v, v = normalize_number k) (number_cache s);
  coherent_hex_number : map_Forall (λ k v, v = bs "0x" ++ k) (hex_number_cache s);
  coherent_hex_digit : map_Forall (λ k v, v = hex_canonical k) (hex_digit_cache s);
}.

(** ** What scanning one token leaves alone *)

Record frame (s s' : Scanner) : Prop := {
  frame_text : text s' = text s;
  frame_end : end_ s' = end_ s;
  frame_language : language_variant s' = language_variant s;
  frame_target : script_target s' = script_target s;
  frame_trivia : skips_trivia s' = skips_trivia s;
  frame_owner : checkpoint_owner s' = checkpoint_owner s;
  frame_next_id : next_checkpoint_id s' = next_checkpoint_id s;
  frame_checkpoints : checkpoints s' = checkpoints s;
  frame_full_start : full_start_pos (state s') = full_start_pos (state s);
  frame_token : token (state s') = token (state s);
  frame_jsdoc : skip_jsdoc_leading_asterisks (state s') = skip_jsdoc_leading_asterisks (state s);
  frame_directives : comment_directives (state s) `prefix_of` comment_directives (state s');
  frame_sink : ∃ ds, error_sink s' = sink_app (error_sink s) ds ∧ Forall (in_text (text s)) ds;
}.

#[global] Instance frame_refl : Reflexive frame.
Proof. intros s. split; try done. by exists []. Qed.

#[global] Instance frame_trans : Transitive frame.
Proof.
  intros s1 s2 s3 H1 H2. destruct H1, H2. split; try congruence.
  - by etrans.
  - destruct frame_sink0 as (ds & Heq & Hds), frame_sink1 as (ds' & -> & Hds').
    exists (ds ++ ds'). split; [by rewrite sink_app_app, Heq|]. apply Forall_app.
    split; [done|]. by rewrite <-frame_text0.
Qed.

(** ** Well-formed scanners *)

(** No limit but the text's end is set, the text leaves room for the lookahead
    in an [i64], and a minus sign has been read before anything follows it. *)
Record ok (s : Scanner) : Prop := {
  ok_end : end_ s = text_length (text s);
  ok_bytes : all_bytes (text s);
  ok_fits : text_length (text s) + 16 <= I64_MAX;
  ok_pos : 0 <= pos (state s) <= text_length (text s);
  ok_minus : token (state s) = MinusToken → 1 <= pos (state s);
  ok_coherent : coherent s;
}.

(** [s] scans a token of [s0] and stands at [p]; the token began at [ts], and has
    the flags [fl] and the value [tv] so far. *)
Record at_pos (s0 s : Scanner) (p ts fl : Z) (tv : bytes) : Prop := {
  at_frame : frame s0 s;
  at_end : end_ s = text_length (text s0);
  at_bytes : all_bytes (text s0);
  at_fits : text_length (text s0) + 16 <= I64_MAX;
  at_coherent : coherent s;
  at_position : pos (state s) = p;
  at_range : 0 <= p <= text_length (text s0);
  at_start : token_start (state s) = ts;
  at_flags : token_flags (state s) = fl;
  at_value : token_value (state s) = tv;
}.

Lemma at_text {s0 s p ts fl tv} : at_pos s0 s p ts fl tv → text s = text s0.
Proof. intros [[] ]. congruence. Qed.

Lemma at_refl s :
  ok s →
  at_pos s s (pos (state s)) (token_start (state s)) (token_flags (state s)) (token_value (state s)).
Proof. intros []. by split. Qed.

Lemma at_ok {s0 s p ts fl tv} :
  at_pos s0 s p ts fl tv → (token (state s0) = MinusToken → 1 <= p) → ok s.
Proof.
  intros Hat Hm. pose proof (at_text Hat) as Ht. destruct Hat as [[] ].
  split; try congruence; try lia. rewrite at_position0. intros ?. apply Hm. congruence.
Qed.

Lemma at_trans {s0 s s1 p q ts us fl fl' tv tv'} :
  at_pos s0 s p ts fl tv → at_pos s s1 q us fl' tv' → at_pos s0 s1 q us fl' tv'.
Proof.
  intros H1 H2. pose proof (at_text H1) as Ht. destruct H1, H2.
  split; try done; [by etrans|congruence..].
Qed.

(** ** Reading *)

Definition byte_at (t : bytes) (p : Z) : option Z := text_at t p.
Definition decode_at (t : bytes) (p : Z) : Z * Z :=
  let '(rune, size) := decode_utf8 (drop (Z.to_nat p) t) in (rune, Z.of_nat size).

(** What [char] says about the position it reads. *)
Definition char_in (t : bytes) (p c : Z) : Prop :=
  (p < text_length t ∧ 0 <= c < 256) ∨ (text_length t <= p ∧ c = -1).

Definition char_of (t : bytes) (p : Z) : Z :=
  if p <? text_length t then default (-1) (text_at t p) else -1.

Lemma text_at_some t p : 0 <= p < text_length t → is_Some (text_at t p).
Proof.
  intros Hp. unfold text_at. destruct (Z.ltb_spec p 0); [lia|].
  apply lookup_lt_is_Some. unfold text_length in Hp. lia.
Qed.

Lemma text_at_byte t p b : all_bytes t → text_at t p = Some b → 0 <= b < 256.
Proof.
  intros Ht. unfold text_at. destruct (p <? 0); [done|]. intros Hb.
  rewrite Forall_lookup in Ht. apply (Ht _ _ Hb).
Qed.

Lemma char_of_in t p : all_bytes t → 0 <= p → char_in t p (char_of t p).
Proof.
  intros Ht Hp. unfold char_in, char_of. destruct (Z.ltb_spec p (text_length t)) as [Hl|Hl].
  - left. split; [done|]. destruct (text_at_some t p) as [b Hb]; [lia|].
    rewrite Hb. by apply (text_at_byte t p).
  - right. split; [lia|done].
Qed.

Lemma wp_char_at {s0 s p ts fl tv} offset Q :
  at_pos s0 s p ts fl tv → 0 <= offset <= 16 →
  (char_in (text s0) (p + offset) (char_of (text s0) (p + offset)) →
   Q (char_of (text s0) (p + offset)) s) →
  wp (char_at offset) Q s.
Proof.
  intros Hat Ho HQ. pose proof (at_text Hat) as Ht. destruct Hat.
  unfold wp, char_at. rewrite at_position0, at_end0, Ht.
  rewrite wrap_i64_id by lia.
  specialize (HQ (char_of_in (text s0) (p + offset) at_bytes0 ltac:(lia))).
  unfold char_of in HQ. destruct (Z.ltb_spec (p + offset) (text_length (text s0))); [|done].
  destruct (text_at_some (text s0) (p + offset)) as [b Hb]; [lia|]. by rewrite Hb in *.
Qed.

Lemma wp_char {s0 s p ts fl tv} Q :
  at_pos s0 s p ts fl tv →
  (char_in (text s0) p (char_of (text s0) p) → Q (char_of (text s0) p) s) → wp char Q s.
Proof.
  intros Hat HQ. pose proof (at_text Hat) as Ht. destruct Hat.
  unfold wp, char. rewrite at_position0, at_end0, Ht.
  specialize (HQ (char_of_in (text s0) p at_bytes0 ltac:(lia))).
  unfold char_of in HQ. destruct (Z.ltb_spec p (text_length (text s0))); [|done].
  destruct (text_at_some (text s0) p) as [b Hb]; [lia|]. by rewrite Hb in *.
Qed.

(** A decoded rune has a width, inside the text, except at its end. *)
Definition rune_in (t : bytes) (p rune size : Z) : Prop :=
  (p < text_length t ∧ 1 <= size ∧ p + size <= text_length t)
  ∨ (p = text_length t ∧ size = 0 ∧ rune = RUNE_ERROR).

Lemma decode_at_in t p :
  0 <= p <= text_length t → rune_in t p (decode_at t p).1 (decode_at t p).2.
Proof.
  unfold text_length, rune_in, decode_at. intros Hp.
  destruct (decide (p = Z.of_nat (length t))) as [->|Hne].
  - right. rewrite Nat2Z.id, drop_all. by vm_compute.
  - left. pose proof (decode_utf8_step (drop (Z.to_nat p) t)) as Hs.
    destruct (decode_utf8 _) as [rune size]. simpl in *. rewrite length_drop in Hs.
    assert (drop (Z.to_nat p) t ≠ []) as Hd.
    { intros Hd. apply (f_equal length) in Hd. rewrite length_drop in Hd. simpl in Hd. lia. }
    specialize (Hs Hd). unfold text_length. lia.
Qed.

Lemma drop_text_at t p b : text_at t p = Some b → drop (Z.to_nat p) t = b :: drop (S (Z.to_nat p)) t.
Proof. unfold text_at. destruct (p <? 0); [done|]. intros Hb. by apply drop_S. Qed.

Lemma decode_at_ascii t p b : text_at t p = Some b → b < 0x80 → decode_at t p = (b, 1).
Proof.
  intros Hb Hlt. unfold decode_at. rewrite (drop_text_at t p b) by done.
  by rewrite decode_utf8_ascii.
Qed.

Lemma text_tail_some t p : 0 <= p <= text_length t → text_tail t p = Some (drop (Z.to_nat p) t).
Proof.
  intros Hp. unfold text_tail, text_length in *.
  by replace ((p <? 0) || (Z.of_nat (length t) <? p)) with false by lia.
Qed.

Lemma wp_char_and_size {s0 s p ts fl tv} Q :
  at_pos s0 s p ts fl tv →
  (rune_in (text s0) p (decode_at (text s0) p).1 (decode_at (text s0) p).2 →
   Q (decode_at (text s0) p) s) →
  wp char_and_size Q s.
Proof.
  intros Hat HQ. pose proof (at_text Hat) as Ht. destruct Hat.
  specialize (HQ (decode_at_in _ _ at_range0)).
  unfold wp, char_and_size. rewrite at_position0, at_end0, Ht, text_tail_some by done.
  assert (decode_at (text s0) p = let '(rune, size) := decode_utf8 (drop (Z.to_nat p) (text s0)) in
    (rune, Z.of_nat size)) as Hd by done.
  cbn [mbind option_bind]. destruct (decode_utf8 _) as [rune size]. rewrite Hd in HQ.
  destruct (Z.ltb_spec p (text_length (text s0))); [|done].
  destruct (text_at_some (text s0) p) as [b Hb]; [lia|]. rewrite Hb. cbn [mbind option_bind].
  destruct (Z.ltb_spec b 0x80); [|done]. rewrite (decode_at_ascii _ _ b) in Hd by done.
  cbn [fst snd] in HQ. by rewrite Hd.
Qed.

(** A slice inside the text. *)
Definition sub (t : bytes) (a b : Z) : bytes := take (Z.to_nat (b - a)) (drop (Z.to_nat a) t).

Lemma text_slice_some t a b : 0 <= a <= b → b <= text_length t → text_slice t a b = Some (sub t a b).
Proof.
  intros Ha Hb. unfold text_slice, text_length, sub in *.
  by replace ((a <? 0) || (b <? a) || (Z.of_nat (length t) <? b)) with false by lia.
Qed.

Lemma sub_empty t a : sub t a a = [].
Proof. unfold sub. by replace (Z.to_nat (a - a)) with 0%nat by lia. Qed.

Lemma length_sub t a b : 0 <= a <= b → b <= text_length t → text_length (sub t a b) = b - a.
Proof. unfold sub, text_length. intros. rewrite length_take, length_drop. lia. Qed.

Lemma sub_app t a b c : 0 <= a <= b → b <= c → sub t a b ++ sub t b c = sub t a c.
Proof.
  intros. unfold sub. replace (Z.to_nat (c - a)) with (Z.to_nat (b - a) + Z.to_nat (c - b))%nat by lia.
  rewrite <-(take_take_drop _ (Z.to_nat (b - a))), drop_drop. do 3 f_equal. lia.
Qed.

Lemma char_of_at t p : 0 <= p < text_length t → text_at t p = Some (char_of t p).
Proof.
  intros Hp. destruct (text_at_some t p Hp) as [b Hb]. unfold char_of.
  destruct (Z.ltb_spec p (text_length t)); [|lia]. by rewrite Hb.
Qed.

Lemma sub_one t p : 0 <= p < text_length t → sub t p (p + 1) = [char_of t p].
Proof.
  intros Hp. unfold sub. rewrite (drop_text_at t p (char_of t p)) by by apply char_of_at.
  by replace (Z.to_nat (p + 1 - p)) with 1%nat by lia.
Qed.

Lemma sub_snoc t a p : 0 <= a <= p → p < text_length t → sub t a (p + 1) = sub t a p ++ [char_of t p].
Proof. intros. by rewrite <-(sub_app t a p (p + 1)), sub_one by lia. Qed.

Lemma sub_Forall (P : Z → Prop) t a b :
  0 <= a <= b → b <= text_length t → (∀ i, a <= i < b → P (char_of t i)) → Forall P (sub t a b).
Proof.
  intros Hab Hb Hall. replace b with (a + Z.of_nat (Z.to_nat (b - a))) in * by lia.
  induction (Z.to_nat (b - a)) as [|n IH].
  - replace (a + Z.of_nat 0) with a by lia. rewrite sub_empty. constructor.
  - replace (a + Z.of_nat (S n)) with (a + Z.of_nat n + 1) in * by lia.
    rewrite sub_snoc by lia. apply Forall_app. rewrite Forall_singleton.
    split; [apply IH; [lia|lia|intros i Hi; apply Hall; lia]|apply Hall; lia].
Qed.

Lemma wp_slice {s0 s p ts fl tv} a b Q :
  at_pos s0 s p ts fl tv → 0 <= a <= b → b <= text_length (text s0) →
  Q (sub (text s0) a b) s → wp (slice a b) Q s.
Proof.
  intros Hat Ha Hb HQ. pose proof (at_text Hat) as Ht.
  unfold wp, slice. by rewrite Ht, text_slice_some by done.
Qed.

Lemma wp_tail {s0 s p ts fl tv} a Q :
  at_pos s0 s p ts fl tv → 0 <= a <= text_length (text s0) →
  Q (drop (Z.to_nat a) (text s0)) s → wp (tail a) Q s.
Proof.
  intros Hat Ha HQ. pose proof (at_text Hat) as Ht.
  unfold wp, tail. by rewrite Ht, text_tail_some by done.
Qed.

(** ** Writing *)

Lemma at_state {s0 s p ts fl tv} st :
  at_pos s0 s p ts fl tv →
  full_start_pos st = full_start_pos (state s) → token st = token (state s) →
  skip_jsdoc_leading_asterisks st = skip_jsdoc_leading_asterisks (state s) →
  comment_directives (state s) `prefix_of` comment_directives st →
  0 <= pos st <= text_length (text s0) →
  at_pos s0 (s <| state := st |>) (pos st) (token_start st) (token_flags st) (token_value st).
Proof.
  intros [Hf] Hfull Htok Hjs Hdir Hpos. split; simpl; try done.
  - etrans; [exact Hf|]. split; simpl; try done. by exists [].
  - by destruct at_coherent0.
Qed.

Lemma wp_modify_state {s0 s p ts fl tv} f q us fl' tv' (Q : unit → Scanner → Prop) :
  at_pos s0 s p ts fl tv →
  full_start_pos (f (state s)) = full_start_pos (state s) →
  token (f (state s)) = token (state s) →
  skip_jsdoc_leading_asterisks (f (state s)) = skip_jsdoc_leading_asterisks (state s) →
  comment_directives (state s) `prefix_of` comment_directives (f (state s)) →
  pos (f (state s)) = q → token_start (f (state s)) = us →
  token_flags (f (state s)) = fl' → token_value (f (state s)) = tv' →
  0 <= q <= text_length (text s0) →
  (∀ s', at_pos s0 s' q us fl' tv' → Q tt s') → wp (modify_state f) Q s.
Proof. intros Hat ???? <- <- <- <- ? HQ. apply HQ. by apply (at_state _ Hat). Qed.

Lemma wp_advance {s0 s p ts fl tv} n (Q : unit → Scanner → Prop) :
  at_pos s0 s p ts fl tv → 0 <= p + n <= text_length (text s0) →
  (∀ s', at_pos s0 s' (p + n) ts fl tv → Q tt s') → wp (advance n) Q s.
Proof.
  intros Hat Hn HQ. apply (wp_modify_state _ (p + n) ts fl tv _ Hat); try done; simpl;
    try apply Hat. by rewrite (at_position _ _ _ _ _ _ Hat).
Qed.

Lemma wp_set_pos {s0 s p ts fl tv} q (Q : unit → Scanner → Prop) :
  at_pos s0 s p ts fl tv → 0 <= q <= text_length (text s0) →
  (∀ s', at_pos s0 s' q ts fl tv → Q tt s') → wp (set_pos q) Q s.
Proof.
  intros Hat Hq HQ. apply (wp_modify_state _ q ts fl tv _ Hat); try done; apply Hat.
Qed.

Lemma wp_set_token_start {s0 s p ts fl tv} q (Q : unit → Scanner → Prop) :
  at_pos s0 s p ts fl tv → (∀ s', at_pos s0 s' p q fl tv → Q tt s') → wp (set_token_start q) Q s.
Proof.
  intros Hat HQ. apply (wp_modify_state _ p q fl tv _ Hat); try done; apply Hat.
Qed.

Lemma wp_add_flags {s0 s p ts fl tv} f (Q : unit → Scanner → Prop) :
  at_pos s0 s p ts fl tv → (∀ s', at_pos s0 s' p ts (Z.lor fl f) tv → Q tt s') → wp (add_flags f) Q s.
Proof.
  intros Hat HQ. apply (wp_modify_state _ p ts (Z.lor fl f) tv _ Hat); try done; try apply Hat.
  simpl. by rewrite (at_flags _ _ _ _ _ _ Hat).
Qed.

Lemma wp_set_flags {s0 s p ts fl tv} f (Q : unit → Scanner → Prop) :
  at_pos s0 s p ts fl tv → (∀ s', at_pos s0 s' p ts f tv → Q tt s') → wp (set_flags f) Q s.
Proof.
  intros Hat HQ. apply (wp_modify_state _ p ts f tv _ Hat); try done; apply Hat.
Qed.

Lemma wp_set_value {s0 s p ts fl tv} v (Q : unit → Scanner → Prop) :
  at_pos s0 s p ts fl tv → (∀ s', at_pos s0 s' p ts fl v → Q tt s') → wp (set_value v) Q s.
Proof.
  intros Hat HQ. apply (wp_modify_state _ p ts fl v _ Hat); try done; apply Hat.
Qed.

Lemma wp_get_pos {s0 s p ts fl tv} (Q : Z → Scanner → Prop) :
  at_pos s0 s p ts fl tv → Q p s → wp get_pos Q s.
Proof. intros Hat HQ. unfold wp, get_pos, gets. by rewrite (at_position _ _ _ _ _ _ Hat). Qed.

Lemma wp_get_end {s0 s p ts fl tv} (Q : Z → Scanner → Prop) :
  at_pos s0 s p ts fl tv → Q (text_length (text s0)) s → wp get_end Q s.
Proof. intros Hat HQ. unfold wp, get_end, gets. by rewrite (at_end _ _ _ _ _ _ Hat). Qed.

Lemma wp_get_flags {s0 s p ts fl tv} (Q : Z → Scanner → Prop) :
  at_pos s0 s p ts fl tv → Q fl s → wp get_flags Q s.
Proof. intros Hat HQ. unfold wp, get_flags, gets. by rewrite (at_flags _ _ _ _ _ _ Hat). Qed.

Lemma wp_get_value {s0 s p ts fl tv} (Q : bytes → Scanner → Prop) :
  at_pos s0 s p ts fl tv → Q tv s → wp get_value Q s.
Proof. intros Hat HQ. unfold wp, get_value, gets. by rewrite (at_value _ _ _ _ _ _ Hat). Qed.

Lemma wp_get_token {s0 s p ts fl tv} (Q : SyntaxKind → Scanner → Prop) :
  at_pos s0 s p ts fl tv → Q (token (state s0)) s → wp get_token Q s.
Proof. intros [[]] HQ. unfold wp, get_token, gets. by rewrite frame_token0. Qed.

Lemma wp_get_token_start {s0 s p ts fl tv} (Q : Z → Scanner → Prop) :
  at_pos s0 s p ts fl tv → Q ts s → wp get_token_start Q s.
Proof. intros Hat HQ. unfold wp, get_token_start, gets. by rewrite (at_start _ _ _ _ _ _ Hat). Qed.

Lemma wp_get_text {s0 s p ts fl tv} (Q : bytes → Scanner → Prop) :
  at_pos s0 s p ts fl tv → Q (text s0) s → wp get_text Q s.
Proof. intros Hat HQ. unfold wp, get_text, gets. by rewrite (at_text Hat). Qed.

Lemma wp_error_at {s0 s p ts fl tv} m st ln args (Q : unit → Scanner → Prop) :
  at_pos s0 s p ts fl tv → 0 <= st → 0 <= ln → st + ln <= text_length (text s0) →
  (∀ s', at_pos s0 s' p ts fl tv → Q tt s') → wp (error_at m st ln args) Q s.
Proof.
  intros Hat ??? HQ. apply HQ. pose proof (at_text Hat) as Ht. destruct Hat.
  split; simpl; try done; [|by destruct at_coherent0].
  etrans; [exact at_frame0|]. split; simpl; try done.
  exists [MkDiagnostic m st ln args]. split; [done|]. apply Forall_singleton.
  unfold in_text. simpl. by rewrite Ht.
Qed.

Lemma wp_error {s0 s p ts fl tv} m (Q : unit → Scanner → Prop) :
  at_pos s0 s p ts fl tv → (∀ s', at_pos s0 s' p ts fl tv → Q tt s') → wp (error m) Q s.
Proof.
  intros Hat HQ. apply wp_bind. apply (wp_get_pos _ Hat).
  pose proof (at_range _ _ _ _ _ _ Hat). apply (wp_error_at _ _ _ _ _ Hat); try done; lia.
Qed.

(** A loop that moves forward every time round. *)
Lemma wp_loop_at {s0 s p ts fl tv} {St A} (I : St → Z → Z → bytes → Prop)
    (body : St → M (St + A)) (st : St) (Q : A → Scanner → Prop) :
  at_pos s0 s p ts fl tv → I st p fl tv →
  (∀ st s q fl tv, at_pos s0 s q ts fl tv → p <= q → I st q fl tv →
     wp (body st) (λ r s', match r with
       | inl st' => ∃ q' fl' tv', at_pos s0 s' q' ts fl' tv' ∧ q < q' ∧ I st' q' fl' tv'
       | inr a => Q a s' end) s) →
  wp (loop body st) Q s.
Proof.
  intros Hat Hinv Hbody.
  apply (wp_loop body (λ st s, ∃ q fl tv, at_pos s0 s q ts fl tv ∧ p <= q ∧ I st q fl tv)
           (λ _ s, text_length (text s) - pos (state s))).
  - exists p, fl, tv. split_and!; [done|lia|done].
  - rewrite (at_text Hat), (at_position _ _ _ _ _ _ Hat). pose proof (at_range _ _ _ _ _ _ Hat).
    unfold text_length. lia.
  - clear s st fl tv Hat Hinv. intros st s (q & fl & tv & Hat & Hpq & Hinv).
    pose proof (at_range _ _ _ _ _ _ Hat) as Hr.
    rewrite (at_text Hat), (at_position _ _ _ _ _ _ Hat). split; [lia|].
    apply (wp_mono _ _ _ _ (Hbody st s q fl tv Hat Hpq Hinv)). intros [st'|a] s'; [|done].
    intros (q' & fl' & tv' & Hat' & Hlt & Hinv').
    rewrite (at_text Hat'), (at_position _ _ _ _ _ _ Hat'). split; [|lia].
    exists q', fl', tv'. split_and!; [done|lia|done].
Qed.

(** ** Runs of bytes *)

Lemma count_while_range f b : 0 <= count_while f b <= Z.of_nat (length b).
Proof. induction b as [|x b IH]; simpl; [lia|]. destruct (f x); lia. Qed.

(** The run from [p] on of the bytes that satisfy [f] ends here. *)
Definition run_end (f : Z → bool) (t : bytes) (p : Z) : Z :=
  p + count_while f (drop (Z.to_nat p) t).

Lemma run_end_range f t p : 0 <= p <= text_length t → p <= run_end f t p <= text_length t.
Proof.
  unfold run_end, text_length. intros Hp.
  pose proof (count_while_range f (drop (Z.to_nat p) t)) as Hc. rewrite length_drop in Hc. lia.
Qed.

Definition ascii_run (pred : Z → bool) : bytes → Z → Z :=
  run_end (λ byte, (byte <? 0x80) && pred byte).

Lemma wp_scan_ascii_while {s0 s p ts fl tv} pred (Q : unit → Scanner → Prop) :
  at_pos s0 s p ts fl tv →
  (∀ s', p <= ascii_run pred (text s0) p <= text_length (text s0) →
     at_pos s0 s' (ascii_run pred (text s0) p) ts fl tv → Q tt s') →
  wp (scan_ascii_while pred) Q s.
Proof.
  intros Hat HQ. pose proof (at_range _ _ _ _ _ _ Hat) as Hp.
  pose proof (run_end_range (λ byte, (byte <? 0x80) && pred byte) (text s0) p Hp) as Hr.
  unfold scan_ascii_while. apply wp_bind, (wp_get_pos _ Hat), wp_bind, (wp_get_end _ Hat).
  apply wp_bind, (wp_slice _ _ _ Hat); [lia|lia|].
  assert (sub (text s0) p (text_length (text s0)) = drop (Z.to_nat p) (text s0)) as ->.
  { unfold sub, text_length. apply take_ge. rewrite length_drop. lia. }
  apply (wp_advance _ _ Hat);
    [exact (conj (Z.le_trans _ _ _ (proj1 Hp) (proj1 Hr)) (proj2 Hr))|].
  intros s' Hs'. by apply HQ.
Qed.
End Frame.

(** ** Automation

    [wp_step] runs the next operation of the computation in the goal, taking the
    judgement on its state from the context; side conditions go to [lia], with
    what the tests so far say about the bytes read. *)

Ltac wp_ranges :=
  repeat match goal with
  | H : at_pos ?s0 ?s ?p ?ts ?fl ?tv |- _ =>
      lazymatch goal with
      | _ : 0 <= p <= text_length (text s0) |- _ => fail
      | |- _ => pose proof (at_range s0 s p ts fl tv H)
      end
  end.

Ltac wp_lia :=
  wp_ranges;
  unfold char_in, rune_in, is_hex_digit, is_digit, is_octal_digit, is_ascii_letter,
    is_ascii_digit, is_ascii_lowercase, is_ascii_uppercase, is_line_break, in_range in *;
  cbn [fst snd] in *; chars; lia.

Ltac wp_side := first [done | wp_lia].

(** The state an operation leaves is the new one to reason about. *)
Ltac wp_next s :=
  try clear dependent s;
  let s' := fresh "s" in let Hat := fresh "Hat" in intros s' Hat.

Ltac wp_prim s H :=
  lazymatch goal with
  | |- wp char _ _ => let c := fresh "Hc" in apply (wp_char _ H); intros c
  | |- wp (char_at _) _ _ => let c := fresh "Hc" in apply (wp_char_at _ _ H); [lia|]; intros c
  | |- wp char_and_size _ _ => let c := fresh "Hr" in apply (wp_char_and_size _ H); intros c
  | |- wp get_pos _ _ => apply (wp_get_pos _ H)
  | |- wp get_end _ _ => apply (wp_get_end _ H)
  | |- wp get_token_start _ _ => apply (wp_get_token_start _ H)
  | |- wp get_text _ _ => apply (wp_get_text _ H)
  | |- wp get_flags _ _ => apply (wp_get_flags _ H)
  | |- wp get_value _ _ => apply (wp_get_value _ H)
  | |- wp get_token _ _ => apply (wp_get_token _ H)
  | |- wp (slice _ _) _ _ => apply (wp_slice _ _ _ H); [wp_side..|]
  | |- wp (tail _) _ _ => apply (wp_tail _ _ H); [wp_side..|]
  | |- wp (advance _) _ _ => apply (wp_advance _ _ H); [wp_side|wp_next s]
  | |- wp (set_pos _) _ _ => apply (wp_set_pos _ _ H); [wp_side|wp_next s]
  | |- wp (set_token_start _) _ _ => apply (wp_set_token_start _ _ H); wp_next s
  | |- wp (add_flags _) _ _ => apply (wp_add_flags _ _ H); wp_next s
  | |- wp (set_flags _) _ _ => apply (wp_set_flags _ _ H); wp_next s
  | |- wp (set_value _) _ _ => apply (wp_set_value _ _ H); wp_next s
  | |- wp (error _) _ _ => apply (wp_error _ _ H); wp_next s
  | |- wp (error_at _ _ _ _) _ _ => apply (wp_error_at _ _ _ _ _ H); [wp_side..|wp_next s]
  | |- wp (scan_ascii_while _) _ _ => let Hrun := fresh "Hrun" in
      apply (wp_scan_ascii_while _ _ H); intros ? Hrun; try clear dependent s;
      let Hat := fresh "Hat" in intros Hat
  end.

Ltac wp_step :=
  lazymatch goal with
  | |- wp (_ ≫= _) _ _ => apply wp_bind
  | |- wp (mret _) _ _ => apply wp_ret
  | |- wp (when _ _) _ _ => let E := fresh "Eb" in apply wp_when; intros E; try discriminate E
  | |- wp (if ?b then _ else _) _ _ => let E := fresh "Eb" in destruct b eqn:E; try discriminate E
  | |- wp (let '(_, _) := ?x in _) _ _ =>
      lazymatch x with
      | (_, _) => cbn iota beta
      | _ => let r := fresh "rune" in let n := fresh "size" in destruct x as [r n] eqn:?
      end
  | |- wp _ _ ?s => match goal with H : at_pos _ s _ _ _ _ |- _ => wp_prim s H end
  end.

Ltac wp_steps := repeat wp_step.

(** Applies the specification of a called function. *)
Tactic Notation "wp_apply" uconstr(lem) := eapply lem; [eassumption|..].
