(* ===== verification/ScannerDigits.v ===== *)
(** Digits and separators: [crates/tsr_scanner/src/number.rs] up to the scan of
    one run of digits, and the suffix of a bigint literal.

    A concrete scanner, on which the theorems about the scanner are evaluated: simple
    functions in place of the parameters of the model, and a small source text. *)

From stdpp Require Import gmap.
From S2P Require Import Prelude Wtf8 TextEdits BigInt ScannerKinds ScannerState ScannerWp.

Local Open Scope Z_scope.

(** ** Radix values *)

(** The digit of a byte; the subtraction is on [u8] and panics below ["a"]. *)
Definition radix_digit (byte : Z) : option Z :=
  if is_ascii_digit byte then Some (byte - ch "0")
  else if to_ascii_lowercase byte <? ch "a" then None
  else Some (to_ascii_lowercase byte - ch "a" + 10).

(** [checked_mul] and [checked_add] on an [i64]. *)
Definition checked_i64 (n : Z) : option Z :=
  if in_range (-9223372036854775808) I64_MAX n then Some n else None.

Definition saturated_step (base maximum value digit : Z) : Z :=
  Z.min (default maximum (n ← checked_i64 (value * base); checked_i64 (n + digit))) maximum.

Fixpoint saturated_loop (base maximum : Z) (value : Z) (b : bytes) : option Z :=
  match b with
  | [] => Some value
  | byte :: b =>
      digit ← radix_digit byte;
      saturated_loop base maximum (saturated_step base maximum value digit) b
  end.

Definition saturated_radix (b : bytes) (base maximum : Z) : option Z :=
  saturated_loop base maximum 0 b.

(** [{value:o}] and the other radix formats, most significant digit first. *)
Fixpoint format_fuel (fuel : nat) (base n : Z) : bytes :=
  match fuel with
  | O => []
  | S fuel =>
      (if n <? base then [] else format_fuel fuel base (n / base))
      ++ [let d := n mod base in if d <? 10 then ch "0" + d else ch "a" + d - 10]
  end.
Definition format_radix (base n : Z) : bytes := format_fuel (Z.to_nat (Z.log2 n + 2)) base n.

Section Digits.
Context `{JsNum, NumBigint}.

Definition normalize_number_value : M unit :=
  value ← get_value; set_value (normalize_number value).

Definition append_token_value (suffix : bytes) : M unit :=
  value ← get_value; set_value (value ++ suffix).

(** ** Runs with separators *)

(** What an underscore does to the two flags of a run; only a run of decimal
    digits also marks the token when the separator is misplaced. *)
Definition separator_error (previous_separator : bool) : Message :=
  if previous_separator then Multiple_consecutive_numeric_separators_are_not_permitted
  else Numeric_separators_are_not_allowed_here.

Definition trailing_separator (previous_separator : bool) : M unit :=
  when previous_separator
    (p ← get_pos; error_at Numeric_separators_are_not_allowed_here (p - 1) 1 []).

(** The loop of [scan_number_fragment]: the start of the current piece, the two
    flags, and the pieces collected. *)
Definition number_fragment_body (st : Z * bool * bool * bytes)
  : M ((Z * bool * bool * bytes) + (Z * bool * bytes)) :=
  let '(start, allow_separator, previous_separator, result) := st in
  before ← get_pos;
  scan_ascii_while is_ascii_digit;;
  after ← get_pos;
  let '(allow_separator, previous_separator) :=
    if before <? after then (true, false) else (allow_separator, previous_separator) in
  c ← char;
  if negb (c =? ch "_") then mret (inr (start, previous_separator, result))
  else
    add_flags CONTAINS_SEPARATOR;;
    p ← get_pos;
    '(allow_separator, previous_separator, result) ←
      (if allow_separator : bool then
         piece ← slice start p; mret (false, true, result ++ piece)
       else
         add_flags CONTAINS_INVALID_SEPARATOR;;
         error_at (separator_error previous_separator) p 1 [];;
         mret (allow_separator, previous_separator, result));
    advance 1;;
    start ← get_pos;
    mret (inl (start, allow_separator, previous_separator, result)).

Definition scan_number_fragment : M bytes :=
  start ← get_pos;
  '(start, previous_separator, result) ← loop number_fragment_body (start, false, false, []);
  when previous_separator (add_flags CONTAINS_INVALID_SEPARATOR);;
  trailing_separator previous_separator;;
  p ← get_pos;
  tail ← slice start p;
  mret (result ++ tail).

Definition digits_body (octal : bool) : M (bool + bool) :=
  c ← char;
  if is_digit c then
    advance 1;; mret (inl (if negb (is_octal_digit c) then false else octal))
  else mret (inr octal).

Definition scan_digits : M (bytes * bool) :=
  start ← get_pos;
  octal ← loop digits_body true;
  p ← get_pos;
  digits ← slice start p;
  mret (digits, octal).

(** ** Hexadecimal digits *)

(** The loop: how many digits, and the two separator flags. *)
Definition hex_digits_body (minimum : Z) (many separators : bool) (st : Z * bool * bool)
  : M ((Z * bool * bool) + (Z * bool)) :=
  let '(count, allow_separator, previous_separator) := st in
  if negb ((count <? minimum) || many) then mret (inr (count, previous_separator))
  else
    c ← char;
    if is_hex_digit c then advance 1;; mret (inl (count + 1, separators, false))
    else if separators && (c =? ch "_") then
      add_flags CONTAINS_SEPARATOR;;
      if allow_separator : bool then advance 1;; mret (inl (count, false, true))
      else
        p ← get_pos;
        error_at (separator_error previous_separator) p 1 [];;
        advance 1;;
        mret (inl (count, allow_separator, previous_separator))
    else mret (inr (count, previous_separator)).

(** The digits in lower case, without their separators if the token has any. *)
Definition cook_hex_digits (flags : Z) (original : bytes) : bytes :=
  if existsb (λ b, is_ascii_uppercase b || (b =? ch "_")) original
  then map to_ascii_lowercase
         (filter (λ b, b ≠ ch "_" ∨ has_flag flags CONTAINS_SEPARATOR = false) original)
  else original.

Definition cached_hex_digits (original : bytes) : M bytes :=
  cached ← gets (λ s, hex_digit_cache s !! original);
  match cached with
  | Some value => mret value
  | None =>
      flags ← get_flags;
      let value := cook_hex_digits flags original in
      modify (λ s, s <| hex_digit_cache := <[original := value]> (hex_digit_cache s) |>);;
      mret value
  end.

Definition scan_hex_digits (minimum : Z) (many separators : bool) : M bytes :=
  start ← get_pos;
  '(count, previous_separator) ←
    loop (hex_digits_body minimum many separators) (0, false, false);
  trailing_separator previous_separator;;
  if count <? minimum then mret []
  else
    p ← get_pos;
    original ← slice start p;
    cached_hex_digits original.

(** ** Binary and octal digits *)

Definition binary_digits_body (base : Z) (st : bytes * bool * bool)
  : M ((bytes * bool * bool) + (bytes * bool)) :=
  let '(result, allow_separator, previous_separator) := st in
  c ← char;
  if is_digit c && (c - ch "0" <? base) then
    advance 1;; mret (inl (result ++ [c], true, false))
  else if c =? ch "_" then
    add_flags CONTAINS_SEPARATOR;;
    if allow_separator : bool then advance 1;; mret (inl (result, false, true))
    else
      p ← get_pos;
      error_at (separator_error previous_separator) p 1 [];;
      advance 1;;
      mret (inl (result, allow_separator, previous_separator))
  else mret (inr (result, previous_separator)).

Definition scan_binary_or_octal_digits (base : Z) : M bytes :=
  '(result, previous_separator) ← loop (binary_digits_body base) ([], false, false);
  trailing_separator previous_separator;;
  mret result.

(** ** The suffix of a bigint *)

Definition scan_big_int_suffix : M SyntaxKind :=
  c ← char;
  if c =? ch "n" then
    append_token_value (bs "n");;
    flags ← get_flags;
    when (has_flag flags BINARY_OR_OCTAL_SPECIFIER)
      (value ← get_value;
       value ← lift (parse_pseudo_big_int value);
       set_value (value ++ bs "n"));;
    advance 1;;
    mret BigIntLiteral
  else
    value ← get_value;
    cached ← gets (λ s, number_cache s !! value);
    match cached with
    | Some v => set_value v;; mret NumericLiteral
    | None =>
        normalize_number_value;;
        v ← get_value;
        modify (λ s, s <| number_cache := <[value := v]> (number_cache s) |>);;
        mret NumericLiteral
    end.
End Digits.

(** ** Values *)

Lemma saturated_step_in base maximum value d :
  0 < base → 0 <= maximum <= I64_MAX → 0 <= value → 0 <= d →
  saturated_step base maximum (Z.min maximum value) d = Z.min maximum (value * base + d).
Proof.
  intros Hb Hm Hv Hd. unfold saturated_step, checked_i64.
  assert (maximum <= maximum * base) as Hmul by nia.
  assert (value <= value * base) as Hval by nia.
  destruct (Z.le_gt_cases maximum value) as [Hle|Hgt];
    [rewrite (Z.min_l maximum value) by lia|rewrite (Z.min_r maximum value) by lia].
  all: destruct (in_range _ _ (_ * base)) eqn:E1; cbn [mbind option_bind from_option Datatypes.id];
    [destruct (in_range _ _ (_ + d)) eqn:E2; cbn [from_option Datatypes.id]|].
  all: unfold in_range in *; lia.
Qed.

Lemma radix_digit_value b :
  is_hex_digit b = true → ∃ d, 0 <= d ∧ radix_digit b = Some d ∧ digit_value b = Some d.
Proof.
  unfold is_hex_digit, is_digit, radix_digit, digit_value, to_ascii_lowercase, is_ascii_digit,
    is_ascii_uppercase. chars. intros Hb. exists (if b <? 65 then b - 48 else if b <? 97 then b - 55 else b - 87).
  unfold in_range in *. zbool; try discriminate; try lia; split_and!; try lia; f_equal; lia.
Qed.

(** The saturated value is the value, cut off at the maximum, whatever the length:
    neither step of the checked arithmetic loses the fact that it is large. *)
Lemma saturated_radix_value b base maximum :
  0 < base → 0 <= maximum <= I64_MAX → Forall (λ x, is_hex_digit x = true) b →
  saturated_radix b base maximum = Some (Z.min maximum (digits_value base b)).
Proof.
  intros Hb Hm Hd. unfold saturated_radix, digits_value.
  assert (∀ value, 0 <= value → saturated_loop base maximum (Z.min maximum value) b
    = Some (Z.min maximum (fold_left (λ n x, match digit_value x with Some d => n * base + d | None => n end)
        b value))) as Hall.
  { induction Hd as [|x b Hx Hd IH]; intros value Hv; [done|]. cbn [saturated_loop fold_left].
    destruct (radix_digit_value x Hx) as (d & Hpos & -> & ->). cbn [mbind option_bind].
    rewrite saturated_step_in by done. apply IH. nia. }
  rewrite <-(Hall 0) by done. by rewrite Z.min_r by lia.
Qed.

(** *** Printing and reading back *)

Lemma radix_digit_printed base d :
  2 <= base <= 16 → 0 <= d < base →
  let b := if d <? 10 then ch "0" + d else ch "a" + d - 10 in
  digit_value b = Some d ∧ is_hex_digit b = true.
Proof.
  intros Hb Hd. cbv zeta. unfold digit_value, is_hex_digit, is_digit, in_range. chars.
  destruct (Z.ltb_spec d 10); split; zbool; try lia; try done; f_equal; lia.
Qed.

Lemma format_fuel_value base n fuel :
  2 <= base <= 16 → 0 <= n < 2 ^ Z.of_nat fuel → (0 < fuel)%nat →
  digits_value base (format_fuel fuel base n) = n
  ∧ Forall (λ b, is_hex_digit b = true) (format_fuel fuel base n).
Proof.
  intros Hb. revert n. induction fuel as [|fuel IH]; intros n Hn Hf; [lia|]. cbn [format_fuel].
  pose proof (Z.mod_pos_bound n base ltac:(lia)) as Hm.
  destruct (radix_digit_printed base (n mod base) Hb Hm) as [Hv Hh]. cbv zeta.
  set (c := if n mod base <? 10 then _ else _) in *.
  destruct (Z.ltb_spec n base) as [Hlt|Hge].
  - cbn [app]. unfold digits_value. cbn [fold_left]. rewrite Hv, Z.mod_small by lia.
    split; [lia|]. by apply Forall_singleton.
  - assert (0 <= n / base < 2 ^ Z.of_nat fuel) as Hq.
    { split; [apply Z.div_pos; lia|]. apply Z.div_lt_upper_bound; [lia|].
      replace (Z.of_nat (S fuel)) with (Z.succ (Z.of_nat fuel)) in Hn by lia.
      rewrite Z.pow_succ_r in Hn by lia. nia. }
    destruct fuel as [|fuel]; [cbn in Hn; lia|].
    destruct (IH (n / base) Hq ltac:(lia)) as [IHv IHd]. split.
    + unfold digits_value in *. rewrite fold_left_app, IHv. cbn [fold_left]. rewrite Hv.
      rewrite (Z.div_mod n base) at 3 by lia. lia.
    + apply Forall_app. by split; [|apply Forall_singleton].
Qed.

Lemma format_radix_value base n :
  2 <= base <= 16 → 0 <= n →
  digits_value base (format_radix base n) = n
  ∧ Forall (λ b, is_hex_digit b = true) (format_radix base n).
Proof.
  intros Hb Hn. pose proof (Z.log2_nonneg n) as Hlog. apply format_fuel_value; [done| |lia].
  split; [done|]. rewrite Z2Nat.id by lia. destruct (decide (n = 0)) as [->|]; [done|].
  pose proof (Z.log2_spec n ltac:(lia)) as [_ Hlt].
  eapply Z.lt_le_trans; [exact Hlt|]. apply Z.pow_le_mono_r; lia.
Qed.

(** [C40] Reading digits in a radix is exact up to its bound and never overflows: the value
    of any number of digits, however long, is the number they write, cut off at the
    maximum, although it is computed with checked 64-bit arithmetic step by step; and a
    number printed in the radix, as in the suggestion for a legacy octal literal or an
    escape, reads back as itself. *)
Theorem saturated_radix_exact base maximum :
  2 <= base <= 16 → 0 <= maximum <= I64_MAX →
  (∀ b, Forall (λ x, is_hex_digit x = true) b →
     saturated_radix b base maximum = Some (Z.min maximum (digits_value base b)))
  ∧ (∀ n, 0 <= n → saturated_radix (format_radix base n) base maximum = Some (Z.min maximum n)).
Proof.
  intros Hb Hm. split; [intros b Hd; apply saturated_radix_value; (done || lia)|].
  intros n Hn. destruct (format_radix_value base n Hb Hn) as [Hv Hd].
  rewrite saturated_radix_value by (done || lia). by rewrite Hv.
Qed.

Lemma saturated_radix_exact_witness :
  (2 <= 16 <= 16 ∧ 0 <= I32_MAX <= I64_MAX)
  ∧ (∀ b, Forall (λ x, is_hex_digit x = true) b →
       saturated_radix b 16 I32_MAX = Some (Z.min I32_MAX (digits_value 16 b)))
  ∧ (∀ n, 0 <= n → saturated_radix (format_radix 16 n) 16 I32_MAX = Some (Z.min I32_MAX n)).
Proof.
  split; [split; [lia|by vm_compute]|]. apply (saturated_radix_exact 16 I32_MAX); [lia|by vm_compute].
Defined.

(** ** Specifications of the scans *)

Section Specs.
Context `{JsNum, NumBigint}.

Lemma wp_scan_digits {s0 s p ts fl tv} Q :
  at_pos s0 s p ts fl tv →
  (∀ s' q, at_pos s0 s' q ts fl tv → p <= q →
     Forall (λ b, is_digit b = true) (sub (text s0) p q) →
     Q (sub (text s0) p q, forallb is_octal_digit (sub (text s0) p q)) s') →
  wp scan_digits Q s.
Proof.
  intros Hat HQ. pose proof (at_range _ _ _ _ _ _ Hat) as Hp. unfold scan_digits. wp_steps.
  apply (wp_loop_at (λ octal q fl' tv', fl' = fl ∧ tv' = tv
    ∧ Forall (λ b, is_digit b = true) (sub (text s0) p q)
    ∧ octal = forallb is_octal_digit (sub (text s0) p q)) _ _ _ Hat).
  - by rewrite sub_empty.
  - clear dependent s. intros octal s q fl' tv' Hat Hpq (-> & -> & Hd & ->).
    unfold digits_body. wp_steps.
    + exists (q + 1), fl, tv. split_and!; [done|lia|done|done|..].
      * rewrite sub_snoc by wp_side. apply Forall_app. by rewrite Forall_singleton.
      * rewrite sub_snoc by wp_side. rewrite forallb_app. simpl.
        destruct (is_octal_digit _); simpl; by rewrite ?andb_true_r, ?andb_false_r.
    + by apply HQ.
Qed.
(** A run of digits without its separators. *)
Definition without_separators (b : bytes) : bytes := filter (λ x, x ≠ ch "_") b.

Lemma without_separators_app a b :
  without_separators (a ++ b) = without_separators a ++ without_separators b.
Proof. apply filter_app. Qed.

Lemma without_separators_none b :
  Forall (λ x, is_digit x = true) b → without_separators b = b.
Proof.
  unfold without_separators. induction 1 as [|x b Hx Hb IH]; [done|].
  rewrite filter_cons_True; [by f_equal|]. intros ->. discriminate Hx.
Qed.

Lemma ascii_run_digits t p :
  0 <= p <= text_length t →
  Forall (λ b, is_digit b = true) (sub t p (ascii_run is_ascii_digit t p)).
Proof.
  intros Hp. unfold ascii_run, run_end, sub.
  replace (Z.to_nat (p + _ - p)) with
    (Z.to_nat (count_while (λ b, (b <? 0x80) && is_ascii_digit b) (drop (Z.to_nat p) t))) by lia.
  induction (drop (Z.to_nat p) t) as [|x b IH]; [constructor|]. simpl.
  destruct ((x <? 128) && is_ascii_digit x) eqn:E; [|constructor].
  pose proof (count_while_range (λ b, (b <? 0x80) && is_ascii_digit b) b).
  replace (Z.to_nat (1 + _)) with
    (S (Z.to_nat (count_while (λ b, (b <? 0x80) && is_ascii_digit b) b))) by lia.
  simpl. constructor; [|done]. by apply andb_true_iff in E as [_ E].
Qed.

Lemma ascii_run_moves t p :
  0 <= p <= text_length t → is_digit (char_of t p) = true → p < ascii_run is_ascii_digit t p.
Proof.
  intros Hp Hd. assert (p < text_length t) as Hlt.
  { unfold char_of in Hd. by destruct (Z.ltb_spec p (text_length t)). }
  unfold ascii_run, run_end. rewrite (drop_text_at t p (char_of t p)) by (apply char_of_at; lia).
  cbn [count_while].
  assert (((char_of t p <? 0x80) && is_ascii_digit (char_of t p)) = true) as ->.
  { unfold is_digit, is_ascii_digit, in_range in *. chars. lia. }
  pose proof (count_while_range (λ byte, (byte <? 0x80) && is_ascii_digit byte)
    (drop (S (Z.to_nat p)) t)). lia.
Qed.

Lemma wp_trailing_separator {s0 s p ts fl tv} prev (Q : unit → Scanner → Prop) :
  at_pos s0 s p ts fl tv → (prev = true → 1 <= p) →
  (∀ s', at_pos s0 s' p ts fl tv → Q tt s') → wp (trailing_separator prev) Q s.
Proof.
  intros Hat Hp HQ. unfold trailing_separator. wp_steps; [specialize (Hp Eb)|by apply HQ].
  wp_steps. by apply HQ.
Qed.

(** Whether the token has a binary or an octal prefix, which no run of digits changes. *)
Definition radix_flag (fl : Z) : bool := has_flag fl BINARY_OR_OCTAL_SPECIFIER.

Lemma radix_flag_lor fl f : radix_flag f = false → radix_flag (Z.lor fl f) = radix_flag fl.
Proof. unfold radix_flag. rewrite has_flag_lor. intros ->. apply orb_false_r. Qed.

Lemma wp_scan_number_fragment {s0 s p ts fl tv} (Q : bytes → Scanner → Prop) :
  at_pos s0 s p ts fl tv →
  (∀ s' q fl', at_pos s0 s' q ts fl' tv → p <= q →
     (is_digit (char_of (text s0) p) = true → p < q) → radix_flag fl' = radix_flag fl →
     Q (without_separators (sub (text s0) p q)) s') →
  wp scan_number_fragment Q s.
Proof.
  intros Hat HQ. pose proof (at_range _ _ _ _ _ _ Hat) as Hp. unfold scan_number_fragment. wp_steps.
  apply (wp_loop_at (λ '(start, allow, prev, result) q fl' tv', tv' = tv
    ∧ radix_flag fl' = radix_flag fl ∧ (allow = false → start = q) ∧ p <= start <= q ∧ Forall (λ b, is_digit b = true) (sub (text s0) start q)
    ∧ (prev = true → start = q ∧ p < q)
    ∧ without_separators (sub (text s0) p q) = result ++ sub (text s0) start q) _ _ _ Hat).
  - rewrite sub_empty. split_and!; try done; lia.
  - clear dependent s. intros [[[start allow] prev] result] s q fl' tv' Hat Hpq
      (-> & Hfl & Hallow & Hst & Hd & Hprev & Heq).
    pose proof (at_range _ _ _ _ _ _ Hat) as Hq.
    pose proof (ascii_run_digits (text s0) q Hq) as Hrd.
    unfold number_fragment_body. do 6 wp_step.
    pose proof (ascii_run_moves (text s0) q Hq) as Hmove.
    set (r := ascii_run is_ascii_digit (text s0) q) in *.
    assert (Forall (λ b, is_digit b = true) (sub (text s0) start r)) as Hd'.
    { rewrite <-(sub_app (text s0) start q r) by lia. by apply Forall_app. }
    assert (without_separators (sub (text s0) p r) = result ++ sub (text s0) start r) as Heq'.
    { rewrite <-(sub_app (text s0) p q r), without_separators_app, Heq by lia.
      rewrite (without_separators_none (sub (text s0) q r)), <-app_assoc, sub_app by (done || lia).
      done. }
    clear Hd Heq Hrd. destruct (if q <? r then _ else _) as [allow' prev'] eqn:Ep.
    assert ((allow' = false → start = r) ∧ (prev' = true → start = r ∧ p < r)) as [Hallow' Hprev'].
    { destruct (Z.ltb_spec q r); injection Ep as <- <-; [done|].
      assert (q = r) as <- by lia. done. }
    clear Ep Hallow Hprev allow prev. do 3 wp_step.
    + do 3 wp_step; [wp_step|]; wp_step; (wp_apply wp_trailing_separator; [intros ->; destruct Hprev'; [done|lia]|]); wp_next s; wp_steps; rewrite <-Heq';
        (eapply HQ; [eassumption|lia| |by rewrite ?radix_flag_lor]);
        intros Hdig; (destruct (decide (p = q)) as [<-|]; [by apply Hmove|lia]).
    + assert (r < text_length (text s0)) as Hr by wp_side.
      apply negb_false_iff, Z.eqb_eq in Eb.
      assert (without_separators (sub (text s0) p (r + 1)) = result ++ sub (text s0) start r) as Heq.
      { rewrite sub_snoc, without_separators_app, Heq', Eb by lia. simpl. by rewrite app_nil_r. }
      wp_steps; (eexists _, _, _;
        split_and!; [eassumption|lia|done|by rewrite !radix_flag_lor|done|lia|lia| | |];
        [rewrite sub_empty; constructor|lia|]).
      * by rewrite Heq, sub_empty, app_nil_r.
      * rewrite Heq, (Hallow' eq_refl), !sub_empty. done.
Qed.
(** ** Hexadecimal digits *)

Definition hex_or_separator (separators : bool) (b : Z) : bool :=
  is_hex_digit b || separators && (b =? ch "_").

Lemma cook_hex_digits_canonical fl original :
  (ch "_" ∈ original → has_flag fl CONTAINS_SEPARATOR = true) →
  cook_hex_digits fl original = hex_canonical original.
Proof.
  intros Hfl. unfold cook_hex_digits, hex_canonical. destruct (existsb _ original) eqn:E.
  - f_equal. destruct (decide (has_flag fl CONTAINS_SEPARATOR = true)) as [Ht|Hf].
    + apply list_filter_iff. intros x. rewrite Ht. naive_solver.
    + assert (ch "_" ∉ original) as Hno by tauto. clear E Hfl.
      induction original as [|x b IH]; [done|]. apply not_elem_of_cons in Hno as [Hx Hb].
      rewrite !filter_cons_True by auto. f_equal. by apply IH.
  - clear Hfl. induction original as [|x b IH]; [done|]. simpl in E.
    apply orb_false_iff in E as [[Hu Hs]%orb_false_iff E].
    rewrite filter_cons_True by (intros ->; done). simpl. rewrite <-IH by done.
    unfold to_ascii_lowercase. by rewrite Hu.
Qed.

(** Caching does not show: what comes out is the canonical form of the digits. *)
Lemma wp_cached_hex_digits {s0 s p ts fl tv} original (Q : bytes → Scanner → Prop) :
  at_pos s0 s p ts fl tv →
  (ch "_" ∈ original → has_flag fl CONTAINS_SEPARATOR = true) →
  (∀ s', at_pos s0 s' p ts fl tv → Q (hex_canonical original) s') →
  wp (cached_hex_digits original) Q s.
Proof.
  intros Hat Hfl HQ. unfold cached_hex_digits. wp_step. apply wp_gets.
  destruct (hex_digit_cache s !! original) as [v|] eqn:E.
  - pose proof (coherent_hex_digit _ (at_coherent _ _ _ _ _ _ Hat) _ _ E) as ->.
    wp_steps. by apply HQ.
  - wp_steps. rewrite cook_hex_digits_canonical by done. apply HQ.
    pose proof (at_coherent _ _ _ _ _ _ Hat) as [Hn Hh Hd].
    destruct Hat as [Hf]. split; simpl; try done.
    + etrans; [exact Hf|]. split; simpl; try done. by exists [].
    + split; simpl; try done. by apply map_Forall_insert_2.
Qed.

Lemma wp_scan_hex_digits {s0 s p ts fl tv} minimum many separators (Q : bytes → Scanner → Prop) :
  at_pos s0 s p ts fl tv → 1 <= minimum →
  (∀ s' q fl' v, at_pos s0 s' q ts fl' tv → p <= q → radix_flag fl' = radix_flag fl →
     Forall (λ b, hex_or_separator separators b = true) (sub (text s0) p q) →
     v = [] ∨ v = hex_canonical (sub (text s0) p q) ∧ p < q → Q v s') →
  wp (scan_hex_digits minimum many separators) Q s.
Proof.
  intros Hat Hmin HQ. pose proof (at_range _ _ _ _ _ _ Hat) as Hp. unfold scan_hex_digits. wp_steps.
  apply (wp_loop_at (λ '(count, _, prev) q fl' tv', tv' = tv ∧ radix_flag fl' = radix_flag fl
    ∧ Forall (λ b, hex_or_separator separators b = true) (sub (text s0) p q)
    ∧ (prev = true ∨ 0 < count → p < q)
    ∧ (ch "_" ∈ sub (text s0) p q → has_flag fl' CONTAINS_SEPARATOR = true)) _ _ _ Hat).
  - rewrite sub_empty. split_and!; try done; [intros [?|?]; [done|lia]|].
    intros Hin. by apply elem_of_nil in Hin.
  - clear dependent s. intros [[count allow] prev] s q fl' tv' Hat Hpq (-> & Hrad & Hd & Hpos & Hfl).
    pose proof (at_range _ _ _ _ _ _ Hat) as Hq. unfold hex_digits_body.
    wp_steps.
    2-4: eexists _, _, _; split_and!; [eassumption|lia|done|by rewrite ?radix_flag_lor| |lia|];
      rewrite ?has_flag_lor, ?orb_true_r; try done; rewrite sub_snoc by wp_side.
    2, 4, 5: apply Forall_app; split; [done|]; rewrite Forall_singleton; unfold hex_or_separator;
      by rewrite ?Eb0, ?Eb1, ?orb_true_r.
    2: { rewrite elem_of_app, list_elem_of_singleton. intros [?|Hc']; [by apply Hfl|].
         rewrite <-Hc' in Eb0. discriminate Eb0. }
    all: wp_apply wp_trailing_separator; [intros Ht; specialize (Hpos (or_introl Ht)); lia|];
      wp_next s; wp_steps;
      [eapply HQ; [eassumption|done..|by left]|].
    all: wp_apply wp_cached_hex_digits; [done|]; wp_next s;
      eapply HQ; [eassumption|done..|right; split; [done|apply Hpos; right; lia]].
Qed.

Definition binary_or_separator (base b : Z) : bool :=
  is_digit b && (b - ch "0" <? base) || (b =? ch "_").

Lemma wp_scan_binary_or_octal_digits {s0 s p ts fl tv} base (Q : bytes → Scanner → Prop) :
  at_pos s0 s p ts fl tv →
  (∀ s' q fl', at_pos s0 s' q ts fl' tv → p <= q → radix_flag fl' = radix_flag fl →
     Forall (λ b, binary_or_separator base b = true) (sub (text s0) p q) →
     Q (without_separators (sub (text s0) p q)) s') →
  wp (scan_binary_or_octal_digits base) Q s.
Proof.
  intros Hat HQ. pose proof (at_range _ _ _ _ _ _ Hat) as Hp.
  unfold scan_binary_or_octal_digits. wp_steps.
  apply (wp_loop_at (λ '(result, _, prev) q fl' tv', tv' = tv ∧ radix_flag fl' = radix_flag fl
    ∧ Forall (λ b, binary_or_separator base b = true) (sub (text s0) p q)
    ∧ (prev = true → p < q)
    ∧ result = without_separators (sub (text s0) p q)) _ _ _ Hat).
  - by rewrite sub_empty.
  - clear dependent s. intros [[result allow] prev] s q fl' tv' Hat Hpq (-> & Hrad & Hd & Hpos & ->).
    pose proof (at_range _ _ _ _ _ _ Hat) as Hq. unfold binary_digits_body. wp_steps.
    1-3: eexists _, _, _; split_and!; [eassumption|lia|done|by rewrite ?radix_flag_lor| |lia|];
      rewrite sub_snoc by wp_side.
    1, 3, 5: apply Forall_app; split; [done|]; rewrite Forall_singleton; unfold binary_or_separator;
      by rewrite ?Eb, ?Eb0, ?orb_true_r.
    1: { rewrite without_separators_app. f_equal. symmetry. apply without_separators_none.
         apply Forall_singleton. by apply andb_true_iff in Eb as [? _]. }
    1-2: apply Z.eqb_eq in Eb0; rewrite without_separators_app, Eb0; simpl; by rewrite app_nil_r.
    wp_apply wp_trailing_separator; [intros Ht; specialize (Hpos Ht); lia|].
    wp_next s. wp_steps. by eapply HQ.
Qed.

(** ** The suffix *)

Lemma wp_normalize_number_value {s0 s p ts fl tv} (Q : unit → Scanner → Prop) :
  at_pos s0 s p ts fl tv →
  (∀ s', at_pos s0 s' p ts fl (normalize_number tv) → Q tt s') → wp normalize_number_value Q s.
Proof. intros Hat HQ. unfold normalize_number_value. wp_steps. by apply HQ. Qed.

Lemma wp_append_token_value {s0 s p ts fl tv} suffix (Q : unit → Scanner → Prop) :
  at_pos s0 s p ts fl tv →
  (∀ s', at_pos s0 s' p ts fl (tv ++ suffix) → Q tt s') → wp (append_token_value suffix) Q s.
Proof. intros Hat HQ. unfold append_token_value. wp_steps. by apply HQ. Qed.

(** What the value of the token has to look like for its suffix to be scanned. *)
Definition radix_literal (fl : Z) (tv : bytes) : Prop :=
  radix_flag fl = true →
  ∃ letter radix digits, tv = ch "0" :: letter :: digits
    ∧ ((letter = ch "b" ∧ radix = 2) ∨ (letter = ch "o" ∧ radix = 8))
    ∧ digits ≠ [] ∧ Forall (λ b, is_radix_digit radix b = true) digits.

Lemma wp_scan_big_int_suffix {s0 s p ts fl tv} (Q : SyntaxKind → Scanner → Prop) :
  at_pos s0 s p ts fl tv → radix_literal fl tv →
  (∀ s' kind tv', at_pos s0 s' (p + 1) ts fl tv' → char_of (text s0) p = ch "n" →
     kind = BigIntLiteral → Q kind s') →
  (∀ s' kind, at_pos s0 s' p ts fl (normalize_number tv) →
     kind = NumericLiteral → Q kind s') →
  wp scan_big_int_suffix Q s.
Proof.
  intros Hat Hrad HQ1 HQ2. pose proof (at_range _ _ _ _ _ _ Hat) as Hp.
  unfold scan_big_int_suffix. wp_step. wp_step. wp_step.
  - apply Z.eqb_eq in Eb. wp_step. wp_apply wp_append_token_value. wp_next s. wp_steps.
    + destruct (Hrad Eb0) as (letter & radix & digits & -> & Hl & Hne & Hd).
      apply (wp_lift _ _ _ _ (parse_pseudo_big_int_scanned letter radix digits Hl Hne Hd)).
      wp_steps. by eapply HQ1.
    + by eapply HQ1.
  - wp_step. wp_step. wp_step. apply wp_gets.
    destruct (number_cache s !! tv) as [v|] eqn:E.
    + pose proof (coherent_number _ (at_coherent _ _ _ _ _ _ Hat) _ _ E) as ->.
      wp_steps. by eapply HQ2.
    + wp_step. wp_apply wp_normalize_number_value. wp_next s. wp_steps. eapply HQ2; [|done].
      pose proof (at_coherent _ _ _ _ _ _ Hat) as [Hn Hh Hd].
      destruct Hat as [Hf]. split; simpl; try done.
      * etrans; [exact Hf|]. split; simpl; try done. by exists [].
      * split; simpl; try done. by apply map_Forall_insert_2.
Qed.
End Specs.

(** * Concrete parameters and a sample *)

(** Numbers that print as they are written, and a few letters beyond ASCII. *)
Definition plain_numbers : JsNum := λ b, b.

Definition plain_bigints : NumBigint.
Proof.
  refine {| parse_bytes digits radix := Some (digits_value radix digits);
            bigint_to_string n := format_radix 10 n |}.
  by intros.
Defined.

Definition latin_letters : IdentifierTables.
Proof.
  refine {| is_unicode_identifier_start c := in_range 0xc0 0x24f c;
            is_unicode_identifier_part c := in_range 0xc0 0x24f c |}; [done|done|].
  intros c. unfold is_white_space_like, is_white_space_single_line, is_line_break, in_range. lia.
Defined.

Definition scanner_of (t : bytes) : Scanner :=
  default_scanner <| text := t |> <| end_ := text_length t |> <| error_sink := Buffered [] |>.

Lemma scanner_of_ok `{JsNum} t : all_bytes t → text_length t + 16 <= I64_MAX → ok (scanner_of t).
Proof.
  intros Hb Hfit. split; [done|done|done|cbn; unfold text_length; lia|done|].
  split; apply map_Forall_empty.
Qed.

Definition sample : bytes := bs "#!x" ++ [10] ++ bs "let a = 0x1_Fn /* b */ + 'c'".

Lemma sample_ok `{JsNum} : ok (scanner_of sample).
Proof. apply scanner_of_ok; [|by vm_compute]. by repeat (constructor; [split; by vm_compute|]). Qed.
