(* ===== verification/ScannerEscape.v ===== *)
(** Escape sequences: [crates/tsr_scanner/src/escape.rs]. *)

From stdpp Require Import gmap.
From S2P Require Import Prelude Wtf8 TextEdits BigInt ScannerKinds ScannerState.
From S2P Require Import ScannerWp ScannerDigits.

Local Open Scope Z_scope.

(** ** Flags of an escape ([escape_flags] of [state.rs]) *)

Definition STRING : Z := Z.shiftl 1 0.
Definition REPORT_ERRORS : Z := Z.shiftl 1 1.
Definition REGULAR_EXPRESSION : Z := Z.shiftl 1 2.
Definition ANNEX_B : Z := Z.shiftl 1 3.
Definition ANY_UNICODE_MODE : Z := Z.shiftl 1 4.
Definition ATOM_ESCAPE : Z := Z.shiftl 1 5.
Definition REPORT_INVALID_ESCAPE_ERRORS : Z := Z.lor REGULAR_EXPRESSION REPORT_ERRORS.
Definition ALLOW_EXTENDED_UNICODE_ESCAPE : Z := Z.lor STRING ANY_UNICODE_MODE.

Section Escape.
Context `{JsNum, NumBigint, IdentifierTables}.

(** ** Unicode escapes *)

(** The checks behind the digits of an extended escape; whether it is invalid. *)
Definition extended_escape_range (report : bool) (start value : Z) : M bool :=
  if 0x10ffff <? value then
    p ← get_pos;
    when report
      (error_at An_extended_Unicode_escape_value_must_be_between_0x0_and_0x10FFFF_inclusive
         (start + 1) (p - start - 1) []);;
    mret true
  else mret false.

Definition extended_escape_end (report : bool) (invalid : bool) : M bool :=
  p ← get_pos;
  e ← get_end;
  if e <=? p then when report (error Unexpected_end_of_text);; mret true
  else
    c ← char;
    if c =? ch "}" then advance 1;; mret invalid
    else when report (error Unterminated_Unicode_escape_sequence);; mret true.

Definition scan_unicode_escape (report : bool) : M Z :=
  advance 2;;
  start ← get_pos;
  c ← char;
  let extended := c =? ch "{" in
  digits ← (if extended then advance 1;; scan_hex_digits 1 true false
            else add_flags UNICODE_ESCAPE;; scan_hex_digits 4 false false);
  if bool_decide (digits = []) then
    add_flags CONTAINS_INVALID_ESCAPE;;
    when report (error Hexadecimal_digit_expected);;
    mret (-1)
  else
    value ← lift (saturated_radix digits 16 I32_MAX);
    if extended then
      invalid ← extended_escape_range report start value;
      invalid ← extended_escape_end report invalid;
      if invalid : bool then add_flags CONTAINS_INVALID_ESCAPE;; mret (-1)
      else add_flags EXTENDED_UNICODE_ESCAPE;; mret value
    else mret value.

Definition scan_low_surrogate_escape (high : Z) : M (option Z) :=
  c ← char;
  c1 ← char_at 1;
  if negb (c =? ch "\") || negb (c1 =? ch "u") then mret None
  else
    saved_pos ← get_pos;
    saved_flags ← get_flags;
    low ← scan_unicode_escape false;
    if is_low_surrogate low then mret (Some (surrogate_pair_to_code_point high low))
    else set_pos saved_pos;; set_flags saved_flags;; mret None.

Definition peek_unicode_escape : M Z :=
  c1 ← char_at 1;
  if negb (c1 =? ch "u") then mret (-1)
  else
    saved_pos ← get_pos;
    saved_flags ← get_flags;
    code_point ← scan_unicode_escape false;
    set_pos saved_pos;; set_flags saved_flags;;
    mret code_point.

(** ** Escape sequences

    The arms of the [match] of [scan_escape_sequence]; [start] is the position of
    the backslash and the scanner stands behind the character that selects the arm. *)

Definition escape_reports (escape_flags : Z) : bool :=
  has_flag escape_flags REPORT_INVALID_ESCAPE_ERRORS.

(** [{code:02x}] *)
Definition two_hex_digits (code : Z) : bytes :=
  let digits := format_radix 16 code in
  if (length digits <? 2)%nat then ch "0" :: digits else digits.

Definition escape_octal (escape_flags start c : Z) : M bytes :=
  next ← char;
  if (c =? ch "0") && negb (is_digit next) then mret [0]
  else
    next ← char;
    when ((c <=? ch "3") && is_octal_digit next) (advance 1);;
    next ← char;
    when (is_octal_digit next) (advance 1);;
    add_flags CONTAINS_INVALID_ESCAPE;;
    p ← get_pos;
    if escape_reports escape_flags then
      digits ← slice (start + 1) p;
      code ← lift (saturated_radix digits 8 I32_MAX);
      error_at
        (if has_flag escape_flags REGULAR_EXPRESSION
            && negb (has_flag escape_flags ATOM_ESCAPE) && negb (c =? ch "0")
         then Octal_escape_sequences_and_backreferences_are_not_allowed_in_a_character_class
         else Octal_escape_sequences_are_not_allowed_Use_the_syntax_0)
        start (p - start) [ArgString (bs "\x" ++ two_hex_digits code)];;
      mret (encode_rune code)
    else slice start p.

Definition escape_decimal (escape_flags start : Z) : M bytes :=
  add_flags CONTAINS_INVALID_ESCAPE;;
  p ← get_pos;
  if escape_reports escape_flags then
    (if has_flag escape_flags REGULAR_EXPRESSION && negb (has_flag escape_flags ATOM_ESCAPE) then
       error_at Decimal_escape_sequences_and_backreferences_are_not_allowed_in_a_character_class
         start (p - start) []
     else
       whole ← slice start p;
       error_at Escape_sequence_0_is_not_allowed start (p - start) [ArgString whole]);;
    slice (start + 1) p
  else slice start p.

(** A high surrogate takes the low one of a following escape with it. *)
Definition join_low_surrogate (code_point : Z) : M bytes :=
  combined ← scan_low_surrogate_escape code_point;
  match combined with
  | Some combined => mret (encode_rune combined)
  | None => mret (encode_rune code_point)
  end.

(** The same in a regular expression with a Unicode flag: a failure only restores
    the position. *)
Definition join_low_surrogate_regexp (report : bool) (code_point : Z) : M bytes :=
  saved_pos ← get_pos;
  next ← scan_unicode_escape report;
  if is_low_surrogate next
  then mret (encode_rune (surrogate_pair_to_code_point code_point next))
  else set_pos saved_pos;; mret (encode_rune code_point).

Definition escape_unicode (escape_flags start : Z) : M bytes :=
  let report := escape_reports escape_flags in
  c ← char;
  let extended := c =? ch "{" in
  advance (-2);;
  code_point ← scan_unicode_escape report;
  if extended then
    when (negb (has_flag escape_flags ALLOW_EXTENDED_UNICODE_ESCAPE))
      (add_flags CONTAINS_INVALID_ESCAPE;;
       p ← get_pos;
       when report
         (error_at Unicode_escape_sequences_are_only_available_when_a_Unicode_flag_is_set
            start (p - start) []));;
    if code_point <? 0 then p ← get_pos; slice start p
    else if negb (has_flag escape_flags REGULAR_EXPRESSION) && is_high_surrogate code_point
    then join_low_surrogate code_point
    else mret (encode_rune code_point)
  else if code_point <? 0 then p ← get_pos; slice start p
  else if is_high_surrogate code_point then
    if negb (has_flag escape_flags REGULAR_EXPRESSION) then join_low_surrogate code_point
    else
      c ← char;
      c1 ← char_at 1;
      c2 ← char_at 2;
      if has_flag escape_flags ANY_UNICODE_MODE && (c =? ch "\") && (c1 =? ch "u")
         && negb (c2 =? ch "{")
      then join_low_surrogate_regexp report code_point
      else mret (encode_rune code_point)
  else mret (encode_rune code_point).

(** Both digits of a hexadecimal escape; [false] at the first that is missing. *)
Definition hex_escape_body (start : Z) (st : unit) : M (unit + bool) :=
  p ← get_pos;
  if negb (p <? start + 4) then mret (inr true)
  else
    c ← char;
    if negb (is_hex_digit c) then mret (inr false) else advance 1;; mret (inl tt).

Definition escape_hex (escape_flags start : Z) : M bytes :=
  complete ← loop (hex_escape_body start) tt;
  p ← get_pos;
  if negb complete then
    add_flags CONTAINS_INVALID_ESCAPE;;
    when (escape_reports escape_flags) (error Hexadecimal_digit_expected);;
    slice start p
  else
    add_flags HEX_ESCAPE;;
    digits ← slice (start + 2) p;
    code ← lift (saturated_radix digits 16 I32_MAX);
    mret (encode_rune code).

Definition escape_other (escape_flags start c : Z) : M bytes :=
  rune ← (if 128 <=? c then
            advance (-1);;
            p ← get_pos;
            rest ← tail p;
            let '(rune, size) := decode_utf8 rest in
            advance (Z.of_nat size);; mret rune
          else mret c);
  if (rune =? 0x2028) || (rune =? 0x2029) then mret []
  else
    p ← get_pos;
    when (has_flag escape_flags ANY_UNICODE_MODE
          || has_flag escape_flags REGULAR_EXPRESSION && negb (has_flag escape_flags ANNEX_B)
             && is_identifier_part rune)
      (error_at This_character_cannot_be_escaped_in_a_regular_expression start (p - start) []);;
    mret (encode_rune rune).

(** The one-character escapes. *)
Definition simple_escape (c : Z) : option bytes :=
  if c =? ch "b" then Some [8]
  else if c =? ch "t" then Some [9]
  else if c =? ch "n" then Some [10]
  else if c =? ch "v" then Some [11]
  else if c =? ch "f" then Some [12]
  else if c =? ch "r" then Some [13]
  else if (c =? 39) || (c =? 34) then Some [c]
  else None.

Definition scan_escape_sequence (escape_flags : Z) : M bytes :=
  start ← get_pos;
  advance 1;;
  c ← char;
  if c <? 0 then error Unexpected_end_of_text;; mret []
  else
    advance 1;;
    if in_range (ch "0") (ch "7") c then escape_octal escape_flags start c
    else if (c =? ch "8") || (c =? ch "9") then escape_decimal escape_flags start
    else match simple_escape c with
    | Some value => mret value
    | None =>
        if c =? ch "u" then escape_unicode escape_flags start
        else if c =? ch "x" then escape_hex escape_flags start
        else if c =? 13 then
          next ← char;
          when (next =? 10) (advance 1);;
          mret []
        else if c =? 10 then mret []
        else escape_other escape_flags start c
    end.
End Escape.

(** ** Specifications *)

Section Specs.
Context `{JsNum, NumBigint, IdentifierTables}.

Lemma hex_canonical_digits b :
  Forall (λ x, hex_or_separator false x = true) b →
  Forall (λ x, is_hex_digit x = true) (hex_canonical b).
Proof.
  intros Hb. unfold hex_canonical. apply Forall_map, Forall_forall. intros x Hx.
  apply list_elem_of_filter in Hx as [_ Hx]. rewrite Forall_forall in Hb.
  specialize (Hb x Hx). unfold hex_or_separator in Hb. simpl in Hb. rewrite orb_false_r in Hb.
  unfold to_ascii_lowercase. destruct (is_ascii_uppercase x) eqn:Hu; [|done].
  unfold is_ascii_uppercase, is_hex_digit, is_digit, in_range in *. chars. lia.
Qed.

Lemma wp_extended_escape_range {s0 s p ts fl tv} report start value (Q : bool → Scanner → Prop) :
  at_pos s0 s p ts fl tv → 0 <= start < p →
  (∀ s' b, at_pos s0 s' p ts fl tv → Q b s') → wp (extended_escape_range report start value) Q s.
Proof. intros Hat Hst HQ. unfold extended_escape_range. wp_steps; by apply HQ. Qed.

Lemma wp_extended_escape_end {s0 s p ts fl tv} report invalid (Q : bool → Scanner → Prop) :
  at_pos s0 s p ts fl tv →
  (∀ s' q b, at_pos s0 s' q ts fl tv → p <= q → Q b s') →
  wp (extended_escape_end report invalid) Q s.
Proof. intros Hat HQ. unfold extended_escape_end. wp_steps; eapply HQ; (done || lia). Qed.

Lemma wp_scan_unicode_escape {s0 s p ts fl tv} report (Q : Z → Scanner → Prop) :
  at_pos s0 s p ts fl tv → p + 2 <= text_length (text s0) →
  (∀ s' q fl' code, at_pos s0 s' q ts fl' tv → p + 2 <= q → -1 <= code → Q code s') →
  wp (scan_unicode_escape report) Q s.
Proof.
  intros Hat Hp2 HQ. pose proof (at_range _ _ _ _ _ _ Hat) as Hp.
  unfold scan_unicode_escape. do 6 wp_step.
  apply wp_bind, (wp_mono _ (λ digits s', ∃ q fl', at_pos s0 s' q ts fl' tv ∧ p + 2 <= q
    ∧ ((char_of (text s0) (p + 2) =? ch "{") = true → p + 2 < q) ∧ Forall (λ x, is_hex_digit x = true) digits)).
  { wp_steps; (wp_apply wp_scan_hex_digits; [lia|]); intros s' q fl' v Hat' Hq _ Hd Hv;
      exists q, fl'; (split_and!; [done|lia|first [lia|by rewrite Eb]|]);
      (destruct Hv as [->|[-> _]]; [constructor|by apply hex_canonical_digits]). }
  clear dependent s. intros digits s (q & fl' & Hat & Hq & Hext & Hd). wp_steps.
  1-2: eapply HQ; [done|lia|lia].
  apply (wp_lift _ _ _ _ (saturated_radix_value digits 16 I32_MAX ltac:(lia) ltac:(lia) Hd)).
  pose proof (digits_value_nonneg 16 digits ltac:(lia)). wp_step.
  - wp_step. wp_apply wp_extended_escape_range; [specialize (Hext eq_refl); lia|].
    clear dependent s. intros s invalid Hat. wp_step. wp_apply wp_extended_escape_end.
    clear dependent s. intros s q' invalid' Hat Hq'. wp_steps; (eapply HQ; [done|lia|lia]).
  - wp_steps. eapply HQ; [done|lia|lia].
Qed.

Lemma wp_scan_low_surrogate_escape {s0 s p ts fl tv} high (Q : option Z → Scanner → Prop) :
  at_pos s0 s p ts fl tv →
  (∀ s' q fl' low, at_pos s0 s' q ts fl' tv → p <= q → is_low_surrogate low = true →
     Q (Some (surrogate_pair_to_code_point high low)) s') →
  (∀ s', at_pos s0 s' p ts fl tv → Q None s') →
  wp (scan_low_surrogate_escape high) Q s.
Proof.
  intros Hat HQ1 HQ2. pose proof (at_range _ _ _ _ _ _ Hat) as Hp.
  unfold scan_low_surrogate_escape. wp_steps; [by apply HQ2|].
  wp_apply wp_scan_unicode_escape; [wp_side|]. clear dependent s.
  intros s q fl' low Hat Hq Hlow. wp_steps; [eapply HQ1; (done || lia)|by apply HQ2].
Qed.

Lemma wp_peek_unicode_escape {s0 s p ts fl tv} (Q : Z → Scanner → Prop) :
  at_pos s0 s p ts fl tv →
  (∀ s' code, at_pos s0 s' p ts fl tv → -1 <= code →
     (0 <= code → p + 2 <= text_length (text s0)) → Q code s') →
  wp peek_unicode_escape Q s.
Proof.
  intros Hat HQ. pose proof (at_range _ _ _ _ _ _ Hat) as Hp.
  unfold peek_unicode_escape. wp_steps; [apply HQ; [done|lia|lia]|].
  assert (p + 2 <= text_length (text s0)) by wp_side.
  wp_apply wp_scan_unicode_escape; [done|]. clear dependent s.
  intros s q fl' code Hat Hq Hcode. wp_steps. by apply HQ.
Qed.

(** ** The arms *)

Lemma octal_is_hex c : is_octal_digit c = true → is_hex_digit c = true.
Proof. unfold is_octal_digit, is_hex_digit, is_digit, in_range. chars. lia. Qed.

(** An arm started at the backslash and ends behind it. *)
Definition escape_post (s0 : Scanner) (ts : Z) (tv : bytes) (start : Z) (s : Scanner) : Prop :=
  ∃ q fl, at_pos s0 s q ts fl tv ∧ start < q.

Lemma wp_escape_octal {s0 s ts fl tv} escape_flags start c :
  at_pos s0 s (start + 2) ts fl tv → 0 <= start → is_octal_digit c = true →
  c = char_of (text s0) (start + 1) →
  wp (escape_octal escape_flags start c) (λ _, escape_post s0 ts tv start) s.
Proof.
  intros Hat Hst Hoct ->. unfold escape_octal.
  assert (∀ s' q fl', at_pos s0 s' q ts fl' tv → start + 2 <= q → escape_post s0 ts tv start s')
    as Hpost by (intros s' q fl' Hat' Hq; exists q, fl'; split; [done|lia]).
  pose proof (at_range _ _ _ _ _ _ Hat) as Hr.
  wp_steps; try (by eapply Hpost; [eassumption|lia]).
  all: eapply wp_lift; [apply saturated_radix_value; [lia|lia|]|
    wp_steps; eapply Hpost; [eassumption|lia]].
  all: apply sub_Forall; [lia|wp_lia|]; intros i Hi; apply octal_is_hex.
  all: repeat match goal with
    | H : andb _ _ = true |- _ => apply andb_true_iff in H as [? ?]
    end.
  all: destruct (decide (i = start + 1)) as [->|]; [done|].
  all: destruct (decide (i = start + 2)) as [->|]; [first [done|exfalso; lia]|].
  all: first [exfalso; lia|by replace i with (start + 2 + 1) by lia].
Qed.

Lemma wp_escape_decimal {s0 s ts fl tv} escape_flags start :
  at_pos s0 s (start + 2) ts fl tv → 0 <= start →
  wp (escape_decimal escape_flags start) (λ _, escape_post s0 ts tv start) s.
Proof.
  intros Hat Hst. unfold escape_decimal. wp_steps; eexists _, _; (split; [eassumption|lia]).
Qed.

Lemma wp_join_low_surrogate {s0 s p ts fl tv} start code :
  at_pos s0 s p ts fl tv → start < p →
  wp (join_low_surrogate code) (λ _, escape_post s0 ts tv start) s.
Proof.
  intros Hat Hp. unfold join_low_surrogate. wp_step. wp_apply wp_scan_low_surrogate_escape.
  - intros s' q fl' low Hat' Hq _. wp_steps. exists q, fl'. split; [done|lia].
  - intros s' Hat'. wp_steps. exists p, fl. split; [done|lia].
Qed.

Lemma wp_join_low_surrogate_regexp {s0 s p ts fl tv} start report code :
  at_pos s0 s p ts fl tv → start < p → p + 2 <= text_length (text s0) →
  wp (join_low_surrogate_regexp report code) (λ _, escape_post s0 ts tv start) s.
Proof.
  intros Hat Hp Hp2. pose proof (at_range _ _ _ _ _ _ Hat) as Hr.
  unfold join_low_surrogate_regexp. wp_steps.
  wp_apply wp_scan_unicode_escape; [done|]. intros s' q fl' next Hat' Hq _. wp_steps;
    eexists _, _; (split; [eassumption|lia]).
Qed.

Lemma wp_escape_unicode {s0 s ts fl tv} escape_flags start :
  at_pos s0 s (start + 2) ts fl tv → 0 <= start →
  wp (escape_unicode escape_flags start) (λ _, escape_post s0 ts tv start) s.
Proof.
  intros Hat Hst. pose proof (at_range _ _ _ _ _ _ Hat) as Hr. unfold escape_unicode.
  do 5 wp_step. wp_apply wp_scan_unicode_escape; [lia|]. clear dependent s.
  intros s q fl' code Hat Hq Hcode. wp_steps.
  all: try (wp_apply wp_join_low_surrogate; lia).
  all: try (wp_apply wp_join_low_surrogate_regexp; wp_lia).
  all: eexists _, _; (split; [eassumption|lia]).
Qed.

Lemma wp_escape_hex {s0 s ts fl tv} escape_flags start :
  at_pos s0 s (start + 2) ts fl tv → 0 <= start →
  wp (escape_hex escape_flags start) (λ _, escape_post s0 ts tv start) s.
Proof.
  intros Hat Hst. pose proof (at_range _ _ _ _ _ _ Hat) as Hr. unfold escape_hex. wp_step.
  apply (wp_loop_at (λ _ q fl' tv', fl' = fl ∧ tv' = tv ∧ start + 2 <= q <= start + 4
    ∧ Forall (λ x, is_hex_digit x = true) (sub (text s0) (start + 2) q)) _ _ _ Hat).
  - rewrite sub_empty. split_and!; try done; lia.
  - clear dependent s. intros [] s q fl' tv' Hat _ (-> & -> & Hq & Hd).
    unfold hex_escape_body. wp_steps; try (eexists _, _; (split; [eassumption|lia])).
    + eapply wp_lift; [apply saturated_radix_value; [lia|lia|exact Hd]|]. wp_steps.
      eexists _, _; (split; [eassumption|lia]).
    + apply negb_false_iff in Eb0. exists (q + 1), fl, tv. split_and!; try done; try lia.
      rewrite sub_snoc by wp_lia. apply Forall_app. by rewrite Forall_singleton.
Qed.
Lemma wp_escape_other {s0 s ts fl tv} escape_flags start c :
  at_pos s0 s (start + 2) ts fl tv → 0 <= start →
  wp (escape_other escape_flags start c) (λ _, escape_post s0 ts tv start) s.
Proof.
  intros Hat Hst. pose proof (at_range _ _ _ _ _ _ Hat) as Hr. unfold escape_other.
  apply wp_bind, (wp_mono _ (λ _, escape_post s0 ts tv start)).
  - wp_steps; [|eexists _, _; (split; [eassumption|lia])].
    pose proof (decode_at_in (text s0) (start + 1) ltac:(lia)) as Hd. unfold decode_at in Hd.
    replace (start + 2 + -1) with (start + 1) in * by lia.
    rewrite Heqp in Hd. cbn [fst snd] in Hd. unfold rune_in in Hd. wp_steps.
    eexists _, _; (split; [eassumption|lia]).
  - clear dependent s fl. intros rune s (q & fl & Hat & Hq). wp_steps;
      eexists _, _; (split; [eassumption|lia]).
Qed.

(** An escape sequence is scanned to its end, wherever the text breaks it off. *)
Lemma wp_scan_escape_sequence {s0 s p ts fl tv} escape_flags :
  at_pos s0 s p ts fl tv → p < text_length (text s0) →
  wp (scan_escape_sequence escape_flags) (λ _, escape_post s0 ts tv p) s.
Proof.
  intros Hat Hp. pose proof (at_range _ _ _ _ _ _ Hat) as Hr. unfold scan_escape_sequence.
  do 6 wp_step. wp_step.
  { wp_steps. eexists _, _; (split; [eassumption|lia]). }
  wp_step. wp_step. replace (p + 1 + 1) with (p + 2) in * by lia. wp_step.
  { apply (wp_escape_octal (fl := fl)); [done|lia|done|done]. }
  wp_step; [apply (wp_escape_decimal (fl := fl)); [done|lia]|].
  destruct (simple_escape _); [wp_steps; eexists _, _; (split; [eassumption|lia])|].
  wp_step; [apply (wp_escape_unicode (fl := fl)); [done|lia]|].
  wp_step; [apply (wp_escape_hex (fl := fl)); [done|lia]|].
  wp_step; [wp_steps; eexists _, _; (split; [eassumption|lia])|].
  wp_step; [wp_steps; eexists _, _; (split; [eassumption|lia])|].
  apply (wp_escape_other (fl := fl)); [done|lia].
Qed.
End Specs.
