(* ===== verification/ScannerLexemes.v ===== *)
(** Scanning identifiers: the methods of [crates/tsr_scanner/src/identifier.rs].

    Numeric literals: [Scanner.scan_number] of [crates/tsr_scanner/src/number.rs].

    String literals and templates: [crates/tsr_scanner/src/literal.rs]. *)

From stdpp Require Import gmap.
From S2P Require Import Prelude Wtf8 TextEdits BigInt ScannerKinds ScannerState ScannerWp ScannerDigits ScannerEscape.

Local Open Scope Z_scope.

Inductive IdentifierVariant := Standard | Jsx | RegExpGroupName.

Definition variant_eqb (a b : IdentifierVariant) : bool :=
  match a, b with
  | Standard, Standard | Jsx, Jsx | RegExpGroupName, RegExpGroupName => true
  | _, _ => false
  end.

(** The language whose identifier parts the variant accepts. *)
Definition variant_language (v : IdentifierVariant) : Z :=
  if variant_eqb v Jsx then JSX else STANDARD.

Section Identifier.
Context `{JsNum, NumBigint, IdentifierTables}.

Definition scan_identifier_escape (valid : Z → bool) (allow_pair : bool) : M (option Z) :=
  escaped ← peek_unicode_escape;
  if (0 <=? escaped) && valid escaped then
    code ← scan_unicode_escape true; mret (Some code)
  else
    c2 ← char_at 2;
    if allow_pair && negb (c2 =? ch "{") && is_high_surrogate escaped then
      saved_pos ← get_pos;
      saved_flags ← get_flags;
      scan_unicode_escape false;;
      c2 ← char_at 2;
      combined ← (if negb (c2 =? ch "{") then scan_low_surrogate_escape escaped else mret None);
      match combined with
      | Some combined =>
          if valid combined then mret (Some combined)
          else set_pos saved_pos;; set_flags saved_flags;; mret None
      | None => set_pos saved_pos;; set_flags saved_flags;; mret None
      end
    else mret None.

(** The start of the piece not yet copied, and what has been copied. *)
Definition identifier_parts_body (variant : IdentifierVariant) (st : Z * bytes)
  : M ((Z * bytes) + (Z * bytes)) :=
  let '(start, result) := st in
  '(c, size) ← char_and_size;
  if is_identifier_part_ex c (variant_language variant) then
    advance size;; mret (inl (start, result))
  else if c =? ch "\" then
    escape_start ← get_pos;
    escaped ← scan_identifier_escape (λ rune, is_identifier_part_ex rune (variant_language variant))
                (variant_eqb variant RegExpGroupName);
    match escaped with
    | Some escaped =>
        piece ← slice start escape_start;
        p ← get_pos;
        mret (inl (p, result ++ piece ++ encode_rune escaped))
    | None => mret (inr (start, result))
    end
  else mret (inr (start, result)).

Definition scan_identifier_parts (variant : IdentifierVariant) : M bytes :=
  start ← get_pos;
  '(start, result) ← loop (identifier_parts_body variant) (start, []);
  p ← get_pos;
  tail ← slice start p;
  mret (result ++ tail).

(** The run of identifier parts behind a start; the rune that ends it. *)
Definition identifier_run_body (language : Z) (size : Z) : M (Z + Z) :=
  advance size;;
  '(c, size) ← char_and_size;
  if is_identifier_part_ex c language then mret (inl size) else mret (inr c).

(** Without the run of ASCII letters tried first. *)
Definition scan_identifier_runes (start identifier_start : Z) (variant : IdentifierVariant)
  : M bool :=
  '(c, size) ← char_and_size;
  if is_identifier_start c then
    c ← loop (identifier_run_body (variant_language variant)) size;
    p ← get_pos;
    value ← slice start p;
    set_value value;;
    when (c =? ch "\")
      (suffix ← scan_identifier_parts variant;
       append_token_value suffix);;
    mret true
  else if c =? ch "\" then
    escaped ← scan_identifier_escape is_identifier_start (variant_eqb variant RegExpGroupName);
    match escaped with
    | Some escaped =>
        prefix ← slice start identifier_start;
        parts ← scan_identifier_parts variant;
        set_value (prefix ++ encode_rune escaped ++ parts);;
        mret true
    | None => mret false
    end
  else mret false.

Definition is_identifier_byte (b : Z) : bool :=
  is_ascii_alphanumeric b || (b =? ch "_") || (b =? ch "$").

Definition scan_identifier (prefix_length : Z) (variant : IdentifierVariant) : M bool :=
  start ← get_pos;
  advance prefix_length;;
  identifier_start ← get_pos;
  c ← char;
  if negb (variant_eqb variant Jsx)
     && (is_ascii_letter c || (c =? ch "_") || (c =? ch "$"))
  then
    advance 1;;
    scan_ascii_while is_identifier_byte;;
    c ← char;
    if (c <? 128) && negb (c =? ch "\") then
      p ← get_pos;
      value ← slice start p;
      set_value value;;
      mret true
    else
      set_pos identifier_start;;
      scan_identifier_runes start identifier_start variant
  else scan_identifier_runes start identifier_start variant.
End Identifier.

(** ** Specifications *)

Section Specs.
Context `{JsNum, NumBigint, IdentifierTables}.

Lemma wp_scan_identifier_escape {s0 s p ts fl tv} valid allow_pair (Q : option Z → Scanner → Prop) :
  at_pos s0 s p ts fl tv →
  (∀ s' q fl' code, at_pos s0 s' q ts fl' tv → p < q → Q (Some code) s') →
  (∀ s', at_pos s0 s' p ts fl tv → Q None s') →
  wp (scan_identifier_escape valid allow_pair) Q s.
Proof.
  intros Hat HQ1 HQ2. pose proof (at_range _ _ _ _ _ _ Hat) as Hp.
  unfold scan_identifier_escape. wp_step. wp_apply wp_peek_unicode_escape.
  clear dependent s. intros s escaped Hat Hesc Hp2. wp_step.
  - wp_step. wp_apply wp_scan_unicode_escape; [lia|]. clear dependent s.
    intros s q fl' code Hat Hq _. wp_steps. eapply HQ1; [done|lia].
  - wp_steps; [|by apply HQ2]. apply andb_true_iff in Eb0 as [_ Hhigh].
    assert (0 <= escaped) as Hpos.
    { unfold is_high_surrogate, in_range in Hhigh. lia. }
    wp_apply wp_scan_unicode_escape; [by apply Hp2|]. clear dependent s.
    intros s q fl' code Hat Hq _. wp_steps.
    + wp_apply wp_scan_low_surrogate_escape; clear dependent s.
      * intros s q' fl'' low Hat Hq' _. wp_steps; [eapply HQ1; [done|lia]|by apply HQ2].
      * intros s Hat. wp_steps. by apply HQ2.
    + by apply HQ2.
Qed.

(** A rune that is an identifier part was really there. *)
Lemma identifier_part_width t p language :
  0 <= p <= text_length t → is_identifier_part_ex (decode_at t p).1 language = true →
  p < text_length t ∧ 1 <= (decode_at t p).2 ∧ p + (decode_at t p).2 <= text_length t.
Proof.
  intros Hp Hpart. destruct (decode_at_in t p Hp) as [?|(-> & _ & Hr)]; [done|].
  rewrite Hr in Hpart. unfold is_identifier_part_ex in Hpart. rewrite rune_error_not_part in Hpart.
  by rewrite !andb_false_r in Hpart.
Qed.

Lemma identifier_start_width t p :
  0 <= p <= text_length t → is_identifier_start (decode_at t p).1 = true →
  p < text_length t ∧ 1 <= (decode_at t p).2 ∧ p + (decode_at t p).2 <= text_length t.
Proof.
  intros Hp Hpart. destruct (decode_at_in t p Hp) as [?|(-> & _ & Hr)]; [done|].
  rewrite Hr in Hpart. unfold is_identifier_start in Hpart. rewrite rune_error_not_start in Hpart.
  discriminate Hpart.
Qed.

Lemma wp_scan_identifier_parts {s0 s p ts fl tv} variant (Q : bytes → Scanner → Prop) :
  at_pos s0 s p ts fl tv →
  (∀ s' q fl' v, at_pos s0 s' q ts fl' tv → p <= q → Q v s') →
  wp (scan_identifier_parts variant) Q s.
Proof.
  intros Hat HQ. pose proof (at_range _ _ _ _ _ _ Hat) as Hp.
  unfold scan_identifier_parts. wp_steps.
  apply (wp_loop_at (λ '(start, _) q fl' tv', tv' = tv ∧ p <= start <= q) _ _ _ Hat).
  - split; [done|lia].
  - clear dependent s. intros [start result] s q fl' tv' Hat Hpq (-> & Hst).
    pose proof (at_range _ _ _ _ _ _ Hat) as Hq.
    unfold identifier_parts_body. do 2 wp_step.
    pose proof (identifier_part_width (text s0) q (variant_language variant) Hq) as Hw.
    destruct (decode_at (text s0) q) as [c size]. cbn [fst snd] in *. wp_step.
    + specialize (Hw eq_refl). wp_steps. eexists _, _, _. split_and!; [eassumption|lia|done|lia|lia].
    + wp_steps; [|by eapply HQ]. wp_apply wp_scan_identifier_escape.
      * clear dependent s. intros s q' fl'' code Hat Hlt. wp_steps.
        eexists _, _, _. split_and!; [eassumption|lia|done|lia|lia].
      * clear dependent s. intros s Hat. wp_steps. by eapply HQ.
Qed.
(** What makes an identifier begin: a rune that starts one, or an escape. *)
Definition starts_identifier (t : bytes) (p : Z) : Prop :=
  is_identifier_start (decode_at t p).1 = true ∨ (decode_at t p).1 = ch "\".

Lemma wp_scan_identifier_runes {s0 s p ts fl tv} start variant (Q : bool → Scanner → Prop) :
  at_pos s0 s p ts fl tv → 0 <= start <= p →
  (∀ s' q fl' tv', at_pos s0 s' q ts fl' tv' → p < q → starts_identifier (text s0) p → Q true s') →
  (∀ s', at_pos s0 s' p ts fl tv → Q false s') →
  wp (scan_identifier_runes start p variant) Q s.
Proof.
  intros Hat Hst HQ1 HQ2. pose proof (at_range _ _ _ _ _ _ Hat) as Hp.
  unfold scan_identifier_runes. do 2 wp_step.
  pose proof (identifier_start_width (text s0) p Hp) as Hw. unfold starts_identifier in HQ1.
  destruct (decode_at (text s0) p) as [c size]. cbn [fst snd] in *. wp_step.
  - specialize (Hw eq_refl). wp_step.
    apply (wp_loop_at (λ size q fl' tv', fl' = fl ∧ tv' = tv ∧ p <= q
      ∧ 1 <= size ∧ q + size <= text_length (text s0)) _ _ _ Hat); [split_and!; (done || lia)|].
    clear dependent s. intros size' s q fl' tv' Hat _ (-> & -> & Hpq & Hs & Hle).
    unfold identifier_run_body. do 4 wp_step.
    pose proof (identifier_part_width (text s0) (q + size') (variant_language variant)
                  (at_range _ _ _ _ _ _ Hat)) as Hw'.
    destruct (decode_at (text s0) (q + size')) as [c' size'']. cbn [fst snd] in *. wp_step.
    + specialize (Hw' eq_refl). wp_steps. eexists _, _, _. split_and!; [eassumption|lia|done..|lia|lia|lia].
    + wp_steps; [|eapply HQ1; [eassumption|lia|by left]].
      wp_apply wp_scan_identifier_parts. clear dependent s. intros s q' fl' v Hat Hq.
      wp_apply wp_append_token_value. clear dependent s. intros s Hat. wp_steps.
      eapply HQ1; [eassumption|lia|by left].
  - wp_steps; [|by apply HQ2]. apply Z.eqb_eq in Eb0. wp_apply wp_scan_identifier_escape.
    + clear dependent s. intros s q fl' code Hat Hq. wp_steps.
      wp_apply wp_scan_identifier_parts. clear dependent s. intros s q' fl'' v Hat Hq'. wp_steps.
      eapply HQ1; [eassumption|lia|by right].
    + clear dependent s. intros s Hat. wp_steps. by apply HQ2.
Qed.

Lemma wp_scan_identifier {s0 s p ts fl tv} n variant (Q : bool → Scanner → Prop) :
  at_pos s0 s p ts fl tv → 0 <= n → p + n <= text_length (text s0) →
  (∀ s' q fl' tv', at_pos s0 s' q ts fl' tv' → p + n < q →
     starts_identifier (text s0) (p + n) → Q true s') →
  (∀ s', at_pos s0 s' (p + n) ts fl tv → Q false s') →
  wp (scan_identifier n variant) Q s.
Proof.
  intros Hat Hn Hpn HQ1 HQ2. pose proof (at_range _ _ _ _ _ _ Hat) as Hp.
  unfold scan_identifier. do 9 wp_step; [|wp_apply wp_scan_identifier_runes; [lia|done|done]].
  assert (p + n < text_length (text s0)
    ∧ is_identifier_start (char_of (text s0) (p + n)) = true
    ∧ char_of (text s0) (p + n) < 128) as (Hlt & Hstart & Hascii).
  { apply andb_true_iff in Eb as [_ Eb].
    assert (0 <= char_of (text s0) (p + n) < 128) by wp_lia. split; [wp_lia|].
    split; [|lia]. unfold is_identifier_start. by rewrite Eb. }
  wp_steps.
  - eapply HQ1; [eassumption|lia|]. left.
    rewrite (decode_at_ascii _ _ (char_of (text s0) (p + n))); [done| |lia].
    apply char_of_at. lia.
  - wp_apply wp_scan_identifier_runes; [lia|done|done].
Qed.
End Specs.

(** * Numbers *)

Section Number.
Context `{JsNum, NumBigint, IdentifierTables}.

(** A literal with a leading zero and octal digits only, which ends the scan; the
    report takes in a minus sign before it. *)
Definition scan_legacy_octal (start : Z) (digits : bytes) : M unit :=
  value ← lift (saturated_radix digits 8 I64_MAX);
  set_value (format_radix 10 value);;
  add_flags OCTAL;;
  token ← get_token;
  let with_minus := kind_eqb token MinusToken in
  let replacement := (if with_minus then bs "-" else []) ++ bs "0o" ++ format_radix 8 value in
  let start := if with_minus then start - 1 else start in
  p ← get_pos;
  error_at Octal_literals_are_not_allowed_Use_the_syntax_0 start (p - start) [ArgString replacement].

(** The digits before the point; [None] when the literal was a legacy octal one. *)
Definition scan_fixed_part (start : Z) : M (option bytes) :=
  c ← char;
  if c =? ch "0" then
    advance 1;;
    c ← char;
    if c =? ch "_" then
      add_flags (Z.lor CONTAINS_SEPARATOR CONTAINS_INVALID_SEPARATOR);;
      p ← get_pos;
      error_at Numeric_separators_are_not_allowed_here p 1 [];;
      set_pos start;;
      part ← scan_number_fragment;
      mret (Some part)
    else
      '(digits, is_octal) ← scan_digits;
      if bool_decide (digits = []) then mret (Some (bs "0"))
      else if negb is_octal then add_flags CONTAINS_LEADING_ZERO;; mret (Some digits)
      else scan_legacy_octal start digits;; mret None
  else part ← scan_number_fragment; mret (Some part).

Definition scan_fractional_part : M bytes :=
  c ← char;
  if c =? ch "." then advance 1;; scan_number_fragment else mret [].

(** The preamble and the digits of the exponent, and where the literal ends. *)
Definition scan_exponent_part : M (bytes * bytes * Z) :=
  end_ ← get_pos;
  c ← char;
  if (c =? ch "E") || (c =? ch "e") then
    advance 1;;
    add_flags SCIENTIFIC;;
    c ← char;
    when ((c =? ch "+") || (c =? ch "-")) (advance 1);;
    start_numeric_part ← get_pos;
    exponent_part ← scan_number_fragment;
    if bool_decide (exponent_part = []) then error Digit_expected;; mret ([], [], end_)
    else
      preamble ← slice end_ start_numeric_part;
      p ← get_pos;
      mret (preamble, exponent_part, p)
  else mret ([], [], end_).

(** The text of the number: a slice, unless separators have to go. *)
Definition set_number_value (start end_ : Z) (fixed fractional preamble exponent : bytes) : M unit :=
  flags ← get_flags;
  if has_flag flags CONTAINS_SEPARATOR then
    set_value (fixed
      ++ (if bool_decide (fractional = []) then [] else ch "." :: fractional)
      ++ (if bool_decide (exponent = []) then [] else preamble ++ exponent))
  else value ← slice start end_; set_value value.

(** An identifier right behind the literal is reported; only the suffix of a bigint
    that cannot be one is taken in. *)
Definition check_number_suffix (start fixed_part_end : Z) (result : SyntaxKind) : M unit :=
  '(c, _) ← char_and_size;
  if is_identifier_start c then
    id_start ← get_pos;
    id ← scan_identifier_parts Standard;
    p ← get_pos;
    flags ← get_flags;
    text ← get_text;
    bigint ← (if negb (kind_eqb result BigIntLiteral) && (length id =? 1)%nat then
                b ← lift (text_at text id_start); mret (b =? ch "n")
              else mret false);
    if bigint && has_flag flags SCIENTIFIC then
      error_at A_bigint_literal_cannot_use_exponential_notation start (p - start) []
    else if bigint && (fixed_part_end <? id_start) then
      error_at A_bigint_literal_must_be_an_integer start (p - start) []
    else
      error_at An_identifier_or_keyword_cannot_immediately_follow_a_numeric_literal
        id_start (p - id_start) [];;
      set_pos id_start
  else mret tt.

Definition scan_number : M SyntaxKind :=
  start ← get_pos;
  fixed_part ← scan_fixed_part start;
  match fixed_part with
  | None => mret NumericLiteral
  | Some fixed_part =>
      fixed_part_end ← get_pos;
      fractional_part ← scan_fractional_part;
      '(exponent_preamble, exponent_part, end_) ← scan_exponent_part;
      set_number_value start end_ fixed_part fractional_part exponent_preamble exponent_part;;
      flags ← get_flags;
      if has_flag flags CONTAINS_LEADING_ZERO then
        p ← get_pos;
        error_at Decimals_with_leading_zeros_are_not_allowed start (p - start) [];;
        normalize_number_value;;
        mret NumericLiteral
      else
        p ← get_pos;
        result ← (if fixed_part_end =? p then scan_big_int_suffix
                  else normalize_number_value;; mret NumericLiteral);
        check_number_suffix start fixed_part_end result;;
        mret result
  end.
End Number.

(** ** Specifications *)

Section Specs.
Context `{JsNum, NumBigint, IdentifierTables}.

(** The scan went on from [p] and no radix prefix was seen. *)
Definition number_post (s0 : Scanner) (ts p : Z) (s : Scanner) : Prop :=
  ∃ q fl tv, at_pos s0 s q ts fl tv ∧ p <= q ∧ radix_flag fl = false.

Lemma wp_scan_legacy_octal {s0 s p ts fl tv} start digits :
  at_pos s0 s p ts fl tv → 0 <= start <= p → (token (state s0) = MinusToken → 1 <= start) →
  radix_flag fl = false →
  Forall (λ b, is_digit b = true) digits →
  wp (scan_legacy_octal start digits) (λ _, number_post s0 ts p) s.
Proof.
  intros Hat Hst Hm Hfl Hd. unfold scan_legacy_octal. wp_step.
  eapply wp_lift; [apply saturated_radix_value; [lia|lia|]|].
  { apply (Forall_impl _ _ _ Hd). intros b Hb. unfold is_hex_digit. by rewrite Hb. }
  wp_steps. cbv zeta.
  assert (0 <= (if kind_eqb (token (state s0)) MinusToken then start - 1 else start) <= p).
  { destruct (kind_eqb _ _) eqn:E; [|lia]. apply kind_eqb_true in E. specialize (Hm E). lia. }
  wp_steps. eexists _, _, _. split_and!; [eassumption|lia|by rewrite radix_flag_lor].
Qed.

Lemma wp_scan_fixed_part {s0 s p ts fl tv} (Q : option bytes → Scanner → Prop) :
  at_pos s0 s p ts fl tv → (token (state s0) = MinusToken → 1 <= p) → radix_flag fl = false →
  (∀ s' q fl' tv', at_pos s0 s' q ts fl' tv' → p < q → radix_flag fl' = false → Q None s') →
  (∀ s' q fl' part, at_pos s0 s' q ts fl' tv → p <= q →
     (is_digit (char_of (text s0) p) = true → p < q) → radix_flag fl' = false → Q (Some part) s') →
  wp (scan_fixed_part p) Q s.
Proof.
  intros Hat Hm Hfl HQ1 HQ2. pose proof (at_range _ _ _ _ _ _ Hat) as Hp.
  unfold scan_fixed_part. wp_steps.
  - wp_apply wp_scan_number_fragment. clear dependent s. intros s q fl' Hat Hq Hd Hfl'. wp_steps.
    eapply HQ2; [done|done|done|]. by rewrite Hfl', radix_flag_lor.
  - wp_apply wp_scan_digits. clear dependent s. intros s q Hat Hq Hd. wp_steps.
    + eapply HQ2; [done|lia|lia|done].
    + eapply HQ2; [done|lia|lia|by rewrite radix_flag_lor].
    + apply (wp_mono _ (λ _, number_post s0 ts q)).
      { apply (wp_scan_legacy_octal _ _ Hat); [lia|done|done|done]. }
      intros [] s' (q' & fl' & tv' & Hat' & Hq' & Hfl'). wp_steps. eapply HQ1; [done|lia|done].
  - wp_apply wp_scan_number_fragment. clear dependent s. intros s q fl' Hat Hq Hd Hfl'. wp_steps.
    eapply HQ2; [done|done|done|by rewrite Hfl'].
Qed.

Lemma wp_scan_fractional_part {s0 s p ts fl tv} (Q : bytes → Scanner → Prop) :
  at_pos s0 s p ts fl tv →
  (∀ s' q fl' part, at_pos s0 s' q ts fl' tv → p <= q →
     (char_of (text s0) p = ch "." → p < q) → radix_flag fl' = radix_flag fl → Q part s') →
  wp scan_fractional_part Q s.
Proof.
  intros Hat HQ. pose proof (at_range _ _ _ _ _ _ Hat) as Hp. unfold scan_fractional_part. wp_steps.
  - wp_apply wp_scan_number_fragment. clear dependent s. intros s q fl' Hat Hq Hd Hfl'.
    eapply HQ; [done|lia|lia|done].
  - eapply HQ; [done|lia|lia|done].
Qed.

Lemma wp_scan_exponent_part {s0 s p ts fl tv} (Q : bytes * bytes * Z → Scanner → Prop) :
  at_pos s0 s p ts fl tv →
  (∀ s' q fl' preamble part end_, at_pos s0 s' q ts fl' tv → p <= end_ <= q →
     radix_flag fl' = radix_flag fl → Q (preamble, part, end_) s') →
  wp scan_exponent_part Q s.
Proof.
  intros Hat HQ. pose proof (at_range _ _ _ _ _ _ Hat) as Hp. unfold scan_exponent_part.
  wp_step. wp_step. wp_step. wp_step. wp_step; [|wp_steps; eapply HQ; [done|lia|done]].
  wp_step. wp_step. wp_step. wp_step. wp_step. wp_step. wp_step. wp_step.
  all: wp_steps; wp_apply wp_scan_number_fragment; clear dependent s;
    intros s q fl' Hat Hq _ Hfl'; wp_steps; (eapply HQ; [done|lia|]).
  all: by rewrite Hfl', radix_flag_lor.
Qed.

Lemma wp_set_number_value {s0 s p ts fl tv} start end_ a b c d (Q : unit → Scanner → Prop) :
  at_pos s0 s p ts fl tv → 0 <= start <= end_ → end_ <= p →
  (∀ s' tv', at_pos s0 s' p ts fl tv' → Q tt s') →
  wp (set_number_value start end_ a b c d) Q s.
Proof.
  intros Hat Hst He HQ. pose proof (at_range _ _ _ _ _ _ Hat) as Hp.
  unfold set_number_value. wp_steps; by eapply HQ.
Qed.

Lemma wp_check_number_suffix {s0 s p ts fl tv} start fixed_part_end result (Q : unit → Scanner → Prop) :
  at_pos s0 s p ts fl tv → 0 <= start <= p →
  (∀ s' q fl', at_pos s0 s' q ts fl' tv → p <= q → Q tt s') →
  wp (check_number_suffix start fixed_part_end result) Q s.
Proof.
  intros Hat Hst HQ. pose proof (at_range _ _ _ _ _ _ Hat) as Hp.
  unfold check_number_suffix. do 2 wp_step.
  pose proof (identifier_start_width (text s0) p Hp) as Hw.
  destruct (decode_at (text s0) p) as [c size]. cbn [fst snd] in *. wp_step; [|wp_steps; by eapply HQ].
  destruct (Hw eq_refl) as (Hlt & _). wp_steps.
  wp_apply wp_scan_identifier_parts. clear dependent s. intros s q fl' v Hat Hq. wp_steps.
  1: eapply wp_lift; [apply char_of_at; lia|].
  all: wp_steps; (eapply HQ; [eassumption|lia]).
Qed.

(** A literal is scanned to its end wherever digits, separators, the point, the
    exponent or the suffix stop, and a digit or a point is never left where it was. *)
Lemma wp_scan_number {s0 s p ts fl tv} (Q : SyntaxKind → Scanner → Prop) :
  at_pos s0 s p ts fl tv → (token (state s0) = MinusToken → 1 <= p) → radix_flag fl = false →
  is_digit (char_of (text s0) p) = true ∨ char_of (text s0) p = ch "." →
  (∀ s' q fl' tv' kind, at_pos s0 s' q ts fl' tv' → p < q →
     kind = NumericLiteral ∨ kind = BigIntLiteral → Q kind s') →
  wp scan_number Q s.
Proof.
  intros Hat Hm Hfl Hc HQ. pose proof (at_range _ _ _ _ _ _ Hat) as Hp. unfold scan_number.
  wp_steps. wp_apply wp_scan_fixed_part; [done|done| |]; clear dependent s fl.
  { intros s q fl tv' Hat Hq _. wp_steps. eapply HQ; [done|done|by left]. }
  intros s q fl part Hat Hq Hdig Hfl. wp_steps. wp_apply wp_scan_fractional_part.
  clear dependent s. intros s q1 fl1 part1 Hat Hq1 Hdot Hfl1.
  assert (p < q1) as Hlt.
  { destruct Hc as [Hc|Hc]; [specialize (Hdig Hc); lia|].
    destruct (decide (p = q)) as [<-|]; [by apply Hdot|lia]. }
  wp_step. wp_apply wp_scan_exponent_part. clear dependent s.
  intros s q2 fl2 preamble part2 end_ Hat Hq2 Hfl2. cbn iota beta. wp_step.
  wp_apply wp_set_number_value; [lia|lia|]. clear dependent s. intros s tv2 Hat.
  wp_steps.
  - wp_apply wp_normalize_number_value. clear dependent s. intros s Hat. wp_steps.
    eapply HQ; [done|lia|by left].
  - wp_apply wp_scan_big_int_suffix; [congruence| |]; clear dependent s.
    + intros s kind tv3 Hat _ ->. wp_step. wp_apply wp_check_number_suffix; [lia|]. clear dependent s.
      intros s q3 fl3 Hat Hq3. wp_steps. eapply HQ; [done|lia|by right].
    + intros s kind Hat ->. wp_step. wp_apply wp_check_number_suffix; [lia|]. clear dependent s.
      intros s q3 fl3 Hat Hq3. wp_steps. eapply HQ; [done|lia|by left].
  - wp_apply wp_normalize_number_value. clear dependent s. intros s Hat. wp_steps.
    wp_apply wp_check_number_suffix; [lia|]. clear dependent s.
    intros s q3 fl3 Hat Hq3. wp_steps. eapply HQ; [done|lia|by left].
Qed.
End Specs.

(** * Strings and templates *)

Section Literal.
Context `{JsNum, NumBigint, IdentifierTables}.

(** ** Strings *)

(** One round of the loop: where the piece not yet copied starts, and what has been
    copied. The loop ends with those and with where the value ends. *)
Definition string_body (quote : Z) (jsx_attribute : bool) (st : Z * bytes)
  : M ((Z * bytes) + (Z * Z * bytes)) :=
  let '(start, result) := st in
  c ← char;
  if (c <? 0) || negb jsx_attribute && ((c =? 10) || (c =? 13)) then
    value_end ← get_pos;
    add_flags UNTERMINATED;;
    error Unterminated_string_literal;;
    mret (inr (start, value_end, result))
  else if c =? quote then
    value_end ← get_pos;
    advance 1;;
    mret (inr (start, value_end, result))
  else if (c =? ch "\") && negb jsx_attribute then
    p ← get_pos;
    piece ← slice start p;
    escaped ← scan_escape_sequence (Z.lor STRING REPORT_ERRORS);
    start ← get_pos;
    mret (inl (start, result ++ piece ++ escaped))
  else advance 1;; mret (inl (start, result)).

(** The scan of a string character by character. *)
Definition scan_string_loop (quote : Z) (jsx_attribute : bool) : M bytes :=
  start ← get_pos;
  '(start, value_end, result) ← loop (string_body quote jsx_attribute) (start, []);
  tail ← slice start value_end;
  mret (result ++ tail).

Definition needs_loop (b : Z) : bool := (b =? ch "\") || (b =? 13) || (b =? 10).

(** Behind the opening quote: a value without escapes and line breaks is sliced at
    once. *)
Definition scan_string_value (quote : Z) (jsx_attribute : bool) : M bytes :=
  p ← get_pos;
  rest ← tail p;
  match position (λ byte, byte =? quote) rest with
  | Some length =>
      value ← slice p (p + Z.of_nat length);
      if jsx_attribute || negb (existsb needs_loop value) then
        advance (Z.of_nat length + 1);; mret value
      else scan_string_loop quote jsx_attribute
  | None => scan_string_loop quote jsx_attribute
  end.

Definition scan_string (jsx_attribute : bool) : M bytes :=
  quote ← char;
  when (quote =? 39) (add_flags SINGLE_QUOTE);;
  advance 1;;
  scan_string_value quote jsx_attribute.

(** ** Templates *)

Definition is_template_byte (b : Z) : bool :=
  negb ((b =? ch "`") || (b =? ch "$") || (b =? ch "\") || (b =? 13)).

Definition template_body (backtick report : bool) (st : Z * bytes)
  : M ((Z * bytes) + (Z * Z * bytes * SyntaxKind)) :=
  let '(start, result) := st in
  scan_ascii_while is_template_byte;;
  c ← char;
  if (c <? 0) || (c =? ch "`") then
    value_end ← get_pos;
    (if c =? ch "`" then advance 1
     else add_flags UNTERMINATED;; error Unterminated_template_literal);;
    mret (inr (start, value_end, result,
               if backtick then NoSubstitutionTemplateLiteral else TemplateTail))
  else
    c1 ← char_at 1;
    if (c =? ch "$") && (c1 =? ch "{") then
      value_end ← get_pos;
      advance 2;;
      mret (inr (start, value_end, result, if backtick then TemplateHead else TemplateMiddle))
    else if c =? ch "\" then
      p ← get_pos;
      piece ← slice start p;
      escaped ← scan_escape_sequence (Z.lor STRING (if report then REPORT_ERRORS else 0));
      start ← get_pos;
      mret (inl (start, result ++ piece ++ escaped))
    else if c =? 13 then
      p ← get_pos;
      piece ← slice start p;
      advance 1;;
      c ← char;
      when (c =? 10) (advance 1);;
      start ← get_pos;
      mret (inl (start, result ++ piece ++ [10]))
    else advance 1;; mret (inl (start, result)).

Definition scan_template_and_set_token_value (report : bool) : M SyntaxKind :=
  c ← char;
  advance 1;;
  start ← get_pos;
  '(start, value_end, result, token) ← loop (template_body (c =? ch "`") report) (start, []);
  tail ← slice start value_end;
  set_value (result ++ tail);;
  mret token.
End Literal.

(** ** Specifications *)

Section Specs.
Context `{JsNum, NumBigint, IdentifierTables}.

Lemma wp_scan_string_loop {s0 s p ts fl tv} quote jsx (Q : bytes → Scanner → Prop) :
  at_pos s0 s p ts fl tv →
  (∀ s' q fl' v, at_pos s0 s' q ts fl' tv → p <= q → Q v s') →
  wp (scan_string_loop quote jsx) Q s.
Proof.
  intros Hat HQ. pose proof (at_range _ _ _ _ _ _ Hat) as Hp. unfold scan_string_loop. wp_steps.
  apply (wp_loop_at (λ '(start, _) q fl' tv', tv' = tv ∧ p <= start <= q) _ _ _ Hat).
  { split; [done|lia]. }
  clear dependent s. intros [start result] s q fl' tv' Hat Hpq (-> & Hst).
  pose proof (at_range _ _ _ _ _ _ Hat) as Hq. unfold string_body. wp_steps.
  1-2: by eapply HQ; [eassumption|lia].
  - eapply wp_mono; [apply (wp_scan_escape_sequence _ Hat); wp_lia|].
    intros escaped s' (q' & fl'' & Hat' & Hq'). wp_steps.
    eexists _, _, _. split_and!; [eassumption|lia|done|lia|lia].
  - eexists _, _, _. split_and!; [eassumption|lia|done|lia|lia].
Qed.

Lemma wp_scan_string {s0 s p ts fl tv} jsx (Q : bytes → Scanner → Prop) :
  at_pos s0 s p ts fl tv → p < text_length (text s0) →
  (∀ s' q fl' v, at_pos s0 s' q ts fl' tv → p < q → Q v s') →
  wp (scan_string jsx) Q s.
Proof.
  intros Hat Hlt HQ. pose proof (at_range _ _ _ _ _ _ Hat) as Hp. unfold scan_string.
  wp_step. wp_step. wp_step.
  apply (wp_mono _ (λ _ s', ∃ fl', at_pos s0 s' p ts fl' tv)).
  { wp_steps; by eexists. }
  clear dependent s fl. intros [] s (fl & Hat). unfold scan_string_value. do 6 wp_step.
  destruct (position _ _) as [n|] eqn:E.
  - apply position_lt in E. rewrite length_drop in E.
    assert (p + 1 + Z.of_nat n < text_length (text s0)) as Hend by (unfold text_length in *; lia).
    wp_steps.
    + eapply HQ; [eassumption|lia].
    + wp_apply wp_scan_string_loop. intros s' q fl' v Hat' Hq. eapply HQ; [done|lia].
  - wp_apply wp_scan_string_loop. intros s' q fl' v Hat' Hq. eapply HQ; [done|lia].
Qed.

Lemma wp_scan_template_and_set_token_value {s0 s p ts fl tv} report (Q : SyntaxKind → Scanner → Prop) :
  at_pos s0 s p ts fl tv → p < text_length (text s0) →
  (∀ s' q fl' tv' kind, at_pos s0 s' q ts fl' tv' → p < q → plain_kind kind = true → Q kind s') →
  wp (scan_template_and_set_token_value report) Q s.
Proof.
  intros Hat Hlt HQ. pose proof (at_range _ _ _ _ _ _ Hat) as Hp.
  unfold scan_template_and_set_token_value. wp_steps.
  apply (wp_loop_at (λ '(start, _) q fl' tv', p + 1 <= start <= q) _ _ _ Hat); [lia|].
  clear dependent s. intros [start result] s q fl' tv' Hat Hpq Hst.
  pose proof (at_range _ _ _ _ _ _ Hat) as Hq. unfold template_body. wp_steps.
  all: try (eapply HQ; [eassumption|lia|case_match; done]).
  all: try (eexists _, _, _; split_and!; [eassumption|lia|lia|lia]).
  eapply wp_mono; [apply (wp_scan_escape_sequence _ Hat); wp_lia|].
  intros escaped s'' (q' & fl'' & Hat' & Hq'). wp_steps.
  eexists _, _, _. split_and!; [eassumption|lia|lia|lia].
Qed.

(** ** The fast path of a string *)

Definition at_offset (s : Scanner) (p : Z) : Scanner := s <| state := (state s) <| pos := p |> |>.

Lemma char_exact s : 0 <= pos (state s) → end_ s = text_length (text s) →
  char s = Some (char_of (text s) (pos (state s)), s).
Proof.
  intros Hp He. unfold char. rewrite He. unfold char_of.
  destruct (Z.ltb_spec (pos (state s)) (text_length (text s))); [|done].
  destruct (text_at_some (text s) (pos (state s))) as [b Hb]; [lia|]. by rewrite Hb.
Qed.

(** A byte the loop of a string passes over. *)
Definition plain_byte (quote : Z) (jsx : bool) (b : Z) : Prop :=
  0 <= b ∧ b ≠ quote ∧ (jsx = false → needs_loop b = false).

Lemma string_body_plain quote jsx start result s :
  0 <= pos (state s) → end_ s = text_length (text s) →
  plain_byte quote jsx (char_of (text s) (pos (state s))) →
  string_body quote jsx (start, result) s
    = Some (inl (start, result), at_offset s (pos (state s) + 1)).
Proof.
  intros Hp He (Hb & Hq & Hn). unfold string_body, mbind, M_bind. rewrite char_exact by done.
  set (c := char_of _ _) in *. apply Z.ltb_ge in Hb as ->. apply Z.eqb_neq in Hq as ->.
  unfold needs_loop in Hn. destruct jsx; cbn [negb andb orb]; rewrite ?andb_false_r; [done|].
  specialize (Hn eq_refl). rewrite !orb_false_iff in Hn. destruct Hn as [[E1 E2] E3].
  by rewrite E1, E2, E3.
Qed.

Lemma string_body_quote quote jsx start result s :
  0 <= pos (state s) → end_ s = text_length (text s) → quote = 39 ∨ quote = 34 →
  char_of (text s) (pos (state s)) = quote →
  string_body quote jsx (start, result) s
    = Some (inr (start, pos (state s), result), at_offset s (pos (state s) + 1)).
Proof.
  intros Hp He Hq Hc. unfold string_body, mbind, M_bind. rewrite char_exact, Hc by done.
  rewrite Z.eqb_refl. by destruct Hq as [-> | ->], jsx.
Qed.

(** Plain bytes up to a closing quote are one round of the loop each. *)
Lemma string_loop_run quote jsx start result : quote = 39 ∨ quote = 34 → ∀ n fuel s,
  (n < fuel)%nat → 0 <= pos (state s) → end_ s = text_length (text s) →
  (∀ i, 0 <= i < Z.of_nat n → plain_byte quote jsx (char_of (text s) (pos (state s) + i))) →
  char_of (text s) (pos (state s) + Z.of_nat n) = quote →
  iterate fuel (string_body quote jsx) (start, result) s
    = Some ((start, pos (state s) + Z.of_nat n, result), at_offset s (pos (state s) + Z.of_nat n + 1)).
Proof.
  intros Hquote n. induction n as [|n IH]; intros [|fuel] s Hfuel Hp He Hplain Hc; try lia;
    cbn [iterate]; unfold mbind, M_bind.
  - rewrite Z.add_0_r in Hc |- *. by rewrite (string_body_quote quote).
  - rewrite string_body_plain; try done.
    + assert (pos (state s) + 1 + Z.of_nat n = pos (state s) + Z.of_nat (S n)) as Hend by lia.
      rewrite IH; change (pos (state (at_offset s (pos (state s) + 1)))) with (pos (state s) + 1);
        rewrite ?Hend; try done; try lia.
      intros i Hi. replace (pos (state s) + 1 + i) with (pos (state s) + (i + 1)) by lia.
      apply Hplain. lia.
    + rewrite <-(Z.add_0_r (pos (state s))). apply Hplain. lia.
Qed.

(** A slice of plain bytes and the quote behind it, read back as characters. *)
Lemma sliced_plain quote jsx t p n :
  all_bytes t → 0 <= p <= text_length t →
  position (λ byte, byte =? quote) (drop (Z.to_nat p) t) = Some n →
  jsx || negb (existsb needs_loop (sub t p (p + Z.of_nat n))) = true →
  (∀ i, 0 <= i < Z.of_nat n → plain_byte quote jsx (char_of t (p + i)))
  ∧ char_of t (p + Z.of_nat n) = quote.
Proof.
  intros Hb Hp E Hn. destruct (position_Some _ _ _ E) as (y & Hy & Hfy & Hall).
  assert (∀ i x, drop (Z.to_nat p) t !! i = Some x → char_of t (p + Z.of_nat i) = x) as Hat.
  { intros i x Hx. rewrite lookup_drop in Hx.
    replace (Z.to_nat p + i)%nat with (Z.to_nat (p + Z.of_nat i)) in Hx by lia.
    pose proof (lookup_lt_Some _ _ _ Hx). unfold char_of, text_at, text_length.
    destruct (Z.ltb_spec (p + Z.of_nat i) (Z.of_nat (length t))); [|lia].
    destruct (Z.ltb_spec (p + Z.of_nat i) 0); [lia|]. by rewrite Hx. }
  split; [|rewrite (Hat n y) by done; by apply Z.eqb_eq].
  intros i Hi. destruct (lookup_lt_is_Some_2 (drop (Z.to_nat p) t) (Z.to_nat i)) as [x Hx].
  { pose proof (lookup_lt_Some _ _ _ Hy). lia. }
  pose proof (Hat _ _ Hx) as Hc. rewrite Z2Nat.id in Hc by lia. rewrite Hc.
  assert (take n (drop (Z.to_nat p) t) !! Z.to_nat i = Some x) as Hx' by (rewrite lookup_take_lt; [done|lia]).
  rewrite Forall_lookup in Hall. specialize (Hall _ _ Hx'). apply Z.eqb_neq in Hall.
  split_and!; [|done|].
  - rewrite lookup_drop in Hx. rewrite Forall_lookup in Hb. by destruct (Hb _ _ Hx).
  - intros ->. cbn [orb] in Hn. apply negb_true_iff in Hn. destruct (needs_loop x) eqn:Ex; [|done].
    rewrite <-Hn. symmetry. apply existsb_exists. exists x. split; [|done].
    apply list_elem_of_In, list_elem_of_lookup. exists (Z.to_nat i). unfold sub.
    by replace (Z.to_nat (p + Z.of_nat n - p)) with n by lia.
Qed.

Lemma scan_string_value_is_loop quote jsx s :
  all_bytes (text s) → 0 <= pos (state s) <= text_length (text s) →
  end_ s = text_length (text s) → quote = 39 ∨ quote = 34 →
  scan_string_value quote jsx s = scan_string_loop quote jsx s.
Proof.
  intros Hb Hp He Hq. unfold scan_string_value, get_pos, gets, tail, mbind, M_bind.
  rewrite text_tail_some by done. cbn [mbind option_bind].
  destruct (position _ _) as [n|] eqn:E; [|done].
  pose proof (position_lt _ _ _ E) as Hin. rewrite length_drop in Hin.
  assert (pos (state s) + Z.of_nat n < text_length (text s)) as Hend by (unfold text_length in *; lia).
  unfold slice. rewrite text_slice_some by lia. cbn [mbind option_bind].
  destruct (jsx || _) eqn:Hn; [|done].
  destruct (sliced_plain _ _ _ _ _ Hb Hp E Hn) as [Hplain Hc].
  unfold scan_string_loop, get_pos, gets, loop, mbind, M_bind.
  rewrite (string_loop_run quote jsx (pos (state s)) [] Hq n); try done;
    [|unfold text_length in *; lia|lia].
  cbn beta iota. unfold slice.
  change (text (at_offset s (pos (state s) + Z.of_nat n + 1))) with (text s).
  rewrite text_slice_some by lia. cbn [mbind option_bind].
  unfold advance, modify_state, modify, at_offset, mret, M_ret.
  by rewrite <-(Z.add_assoc (pos (state s)) (Z.of_nat n) 1).
Qed.

(** The fast path of [scan_string], which looks for the closing quote first and
    slices the text between the quotes when it holds no escape and no line break,
    is not observable: at a quote, the scanner ends in the same state with the same
    value as with the loop over the characters alone. *)
Theorem scan_string_is_loop jsx s :
  ok s → char_of (text s) (pos (state s)) = 39 ∨ char_of (text s) (pos (state s)) = 34 →
  scan_string jsx s
    = (quote ← char;
       when (quote =? 39) (add_flags SINGLE_QUOTE);;
       advance 1;;
       scan_string_loop quote jsx) s.
Proof.
  intros [He Hb _ Hp _ _] Hquote. unfold scan_string, mbind, M_bind.
  rewrite char_exact by (done || lia). set (quote := char_of _ _) in *.
  assert (pos (state s) < text_length (text s)) as Hlt.
  { subst quote. unfold char_of in Hquote. destruct (Z.ltb_spec (pos (state s)) (text_length (text s)));
      [done|naive_solver]. }
  unfold when, add_flags, advance, modify_state, modify.
  destruct (quote =? 39); apply scan_string_value_is_loop; try done; cbn; lia.
Qed.
End Specs.

(** A text that starts with a string literal of two escapes. *)
Definition literal : bytes := bs "'a\n\x41 b' + c".

Lemma scan_string_is_loop_witness :
  let s := scanner_of literal in
  (@ok plain_numbers s ∧ char_of literal 0 = 39)
  ∧ @scan_string latin_letters false s
    = (quote ← char;
       when (quote =? 39) (add_flags SINGLE_QUOTE);;
       advance 1;;
       @scan_string_loop latin_letters quote false) s.
Proof.
  assert (@ok plain_numbers (scanner_of literal)) as Hok.
  { apply scanner_of_ok; [|by vm_compute]. by repeat (constructor; [split; by vm_compute|]). }
  split; [by split; [|vm_compute]|].
  apply (@scan_string_is_loop plain_numbers latin_letters false _ Hok). left. by vm_compute.
Defined.
