(* ===== verification/ScannerTrivia.v ===== *)
(** Trivia without a scanner: [crates/tsr_scanner/src/trivia.rs]. Positions are
    [i64]s; [None] is a panic.

    Trivia round by round: what one round of [skip_trivia] does at each character,
    and chains of rounds. The scanner's own loops are compared with these. *)

From stdpp Require Import gmap.
From S2P Require Import Prelude Wtf8 TextEdits ScannerKinds ScannerState ScannerWp.

Local Open Scope Z_scope.

(** ** Loops

    A loop over positions: [inl] goes round again, [inr] leaves. Every loop of the
    file moves forward, so that one more round than the text is long is enough. *)
Fixpoint while {St A} (fuel : nat) (body : St → option (St + A)) (st : St) : option A :=
  match fuel with
  | O => None
  | S fuel =>
      r ← body st;
      match r with inl st => while fuel body st | inr a => Some a end
  end.

Definition while_text {St A} (t : bytes) : (St → option (St + A)) → St → option A :=
  while (S (length t)).

(** [decode_utf8(&text[pos..])] *)
Definition decode_text (t : bytes) (p : Z) : option (Z * Z) :=
  b ← text_tail t p;
  let '(rune, size) := decode_utf8 b in Some (rune, Z.of_nat size).

(** To the end of the line, which comments, shebangs and conflict markers share. *)
Definition skip_line_body (t : bytes) (p : Z) : option (Z + Z) :=
  if p <? text_length t then
    '(c, size) ← decode_text t p;
    Some (if is_line_break c then inr p else inl (p + size))
  else Some (inr p).
Definition skip_line (t : bytes) : Z → option Z := while_text t (skip_line_body t).

(** Past the end of a block comment, or to the end of the text. *)
Definition skip_block_body (t : bytes) (p : Z) : option (Z + Z) :=
  if p <? text_length t then
    c ← text_at t p;
    closes ← (if (c =? ch "*") && (p + 1 <? text_length t)
              then next ← text_at t (p + 1); Some (next =? ch "/") else Some false);
    if closes : bool then Some (inr (p + 2))
    else '(_, size) ← decode_text t p; Some (inl (p + size))
  else Some (inr p).
Definition skip_block (t : bytes) : Z → option Z := while_text t (skip_block_body t).

(** ** Conflict markers *)

Definition is_conflict_marker_trivia (t : bytes) (p : Z) : option bool :=
  if p <? 0 then None
  else
    let next := wrap_i64 (p + 1) in
    if text_length t <=? next then Some false
    else
      b ← text_at t next;
      c ← text_at t p;
      if negb (b =? c) then Some false
      else
        at_line_start ← (if p =? 0 then Some true
                         else before ← text_at t (p - 1); Some (is_line_break before));
        (* the decoder sees the text up to two bytes back *)
        at_line_start ← (if negb at_line_start && (2 <=? p)
                         then before ← text_slice t 0 (p - 2);
                              Some (is_line_break (decode_last_utf8 before).1)
                         else Some at_line_start);
        if at_line_start : bool then
          let after_marker := wrap_i64 (p + 7) in
          if after_marker <? text_length t then
            marker ← text_slice t p after_marker;
            if existsb (λ x, negb (x =? c)) marker then Some false
            else if c =? ch "=" then Some true
            else after ← text_at t after_marker; Some (after =? ch " ")
          else Some false
        else Some false.

(** The middle of a conflict, up to the next marker of another kind. *)
Definition conflict_middle_body (t : bytes) (c p : Z) : option (Z + Z) :=
  if p <? text_length t then
    current ← text_at t p;
    stops ← (if ((current =? ch "=") || (current =? ch ">")) && negb (current =? c)
             then is_conflict_marker_trivia t p else Some false);
    Some (if stops : bool then inr p else inl (p + 1))
  else Some (inr p).

Definition scan_conflict_marker_trivia (t : bytes) (p : Z) : option Z :=
  '(c, _) ← decode_text t p;
  if (c =? ch "<") || (c =? ch ">") then skip_line t p
  else if (c =? ch "|") || (c =? ch "=") then while_text t (conflict_middle_body t c) p
  else None.

(** ** Shebangs *)

Definition is_shebang_trivia (t : bytes) (p : Z) : option bool :=
  if text_length t <? 2 then Some false
  else if negb (p =? 0) then None
  else Some (starts_with (bs "#!") t).

Definition scan_shebang_trivia (t : bytes) (p : Z) : option Z := skip_line t (wrap_i64 (p + 2)).

Definition get_shebang (t : bytes) : option bytes :=
  shebang ← is_shebang_trivia t 0;
  if shebang : bool then e ← scan_shebang_trivia t 0; text_slice t 0 e else Some [].

(** ** Skipping trivia *)

Definition could_start_trivia (t : bytes) (p : Z) : option bool :=
  c ← text_at t p;
  Some (if c =? ch "#" then p =? 0
        else (c =? 13) || (c =? 10) || (c =? 9) || (c =? 11) || (c =? 12) || (c =? ch " ")
             || (c =? ch "/") || (c =? ch "<") || (c =? ch "|") || (c =? ch "=") || (c =? ch ">")
             || (127 <? c)).

Record SkipTriviaOptions := MkSkipTriviaOptions {
  stop_after_line_break : bool;
  stop_at_comments : bool;
  in_jsdoc : bool;
}.

Definition default_options : SkipTriviaOptions := MkSkipTriviaOptions false false false.

(** Past a line break; a carriage return takes the line feed behind it along. *)
Definition after_line_break (t : bytes) (c p : Z) : option Z :=
  crlf ← (if (c =? 13) && (p + 1 <? text_length t)
          then next ← text_at t (p + 1); Some (next =? 10) else Some false);
  Some (if crlf : bool then p + 2 else p + 1).

(** A slash: the comment behind it, or its own position. *)
Definition skip_comment (t : bytes) (p : Z) : option (Z * bool + Z) :=
  if p + 1 <? text_length t then
    next ← text_at t (p + 1);
    if next =? ch "/" then q ← skip_line t (p + 2); Some (inl (q, false))
    else if next =? ch "*" then q ← skip_block t (p + 2); Some (inl (q, false))
    else Some (inr p)
  else Some (inr p).

(** One round: the position and whether a star may be skipped. *)
Definition skip_trivia_body (t : bytes) (options : SkipTriviaOptions) (st : Z * bool)
  : option (Z * bool + Z) :=
  let '(p, can_consume_star) := st in
  if text_length t <=? p then Some (inr p)
  else
    '(c, width) ← decode_text t p;
    if (c =? 10) || (c =? 13) then
      q ← after_line_break t c p;
      Some (if stop_after_line_break options then inr q else inl (q, in_jsdoc options))
    else if (c =? 9) || (c =? 11) || (c =? 12) || (c =? ch " ") then
      Some (inl (p + 1, can_consume_star))
    else if c =? ch "/" then
      if stop_at_comments options then Some (inr p) else skip_comment t p
    else if (c =? ch "<") || (c =? ch "|") || (c =? ch "=") || (c =? ch ">") then
      marker ← is_conflict_marker_trivia t p;
      if marker : bool then q ← scan_conflict_marker_trivia t p; Some (inl (q, false))
      else Some (inr p)
    else if c =? ch "#" then
      shebang ← (if p =? 0 then is_shebang_trivia t p else Some false);
      if shebang : bool then q ← scan_shebang_trivia t p; Some (inl (q, false))
      else Some (inr p)
    else if c =? ch "*" then
      Some (if can_consume_star then inl (p + 1, false) else inr p)
    else if (127 <? c) && is_white_space_like c then Some (inl (p + width, can_consume_star))
    else Some (inr p).

Definition skip_trivia_ex (t : bytes) (p : Z) (options : option SkipTriviaOptions) : option Z :=
  if p <? 0 then Some p
  else while_text t (skip_trivia_body t (default default_options options)) (p, false).

Definition skip_trivia (t : bytes) (p : Z) : option Z := skip_trivia_ex t p None.

Example skip_trivia_ex1 :
  skip_trivia_ex (bs " *") 0 (Some (MkSkipTriviaOptions false false true)) = Some 1
  ∧ skip_trivia_ex ([10] ++ bs " **x") 0 (Some (MkSkipTriviaOptions false false true)) = Some 3
  ∧ skip_trivia_ex ([32; 13; 10] ++ bs "*") 0 (Some (MkSkipTriviaOptions true false false)) = Some 3
  ∧ skip_trivia [] (-4) = Some (-4)
  ∧ skip_trivia (bs "x") 9223372036854775807 = Some 9223372036854775807
  ∧ is_conflict_marker_trivia (bs "=======") 0 = Some false
  ∧ is_conflict_marker_trivia (bs "=======x") 0 = Some true
  ∧ is_conflict_marker_trivia (bs "||||||| x") 0 = Some true
  ∧ is_conflict_marker_trivia (encode_rune 0x2028 ++ bs "======= x") 3 = Some false
  ∧ is_conflict_marker_trivia (encode_rune 0x2028 ++ bs "xy======= x") 5 = Some true.
Proof. by vm_compute. Qed.

(** ** Reasoning about the loops *)

(** [body] goes from [st] to [a] in some number of rounds. *)
Inductive runs {St A} (body : St → option (St + A)) : St → A → Prop :=
  | runs_stop st a : body st = Some (inr a) → runs body st a
  | runs_round st st' a : body st = Some (inl st') → runs body st' a → runs body st a.

Lemma runs_deterministic {St A} (body : St → option (St + A)) st a a' :
  runs body st a → runs body st a' → a = a'.
Proof.
  induction 1 as [st a Hstop|st st' a Hround _ IH]; inversion 1 as [? ? Hs|? ? ? Hr Hrest]; subst;
    [congruence..|]. apply IH. congruence.
Qed.

Lemma while_runs {St A} (body : St → option (St + A)) fuel st a :
  while fuel body st = Some a → runs body st a.
Proof.
  revert st. induction fuel as [|fuel IH]; intros st; [done|]. simpl.
  destruct (body st) as [[st'|a']|] eqn:E; cbn [mbind option_bind]; [|intros [= <-]|done].
  - intros Hrest. by eapply runs_round, IH.
  - by apply runs_stop.
Qed.

Lemma runs_inr {St A} (body : St → option (St + A)) st a a' :
  runs body st a → body st = Some (inr a') → a = a'.
Proof. destruct 1 as [st a E|st st' a E _]; congruence. Qed.

(** A measure that decreases ends a loop. *)
Lemma while_total {St A} (body : St → option (St + A)) (I : St → Prop) (μ : St → Z) (Q : A → Prop) :
  (∀ st, I st → 0 <= μ st ∧ ∃ r, body st = Some r ∧ match r with
     | inl st' => I st' ∧ μ st' < μ st
     | inr a => Q a end) →
  ∀ fuel st, I st → μ st < Z.of_nat fuel → ∃ a, while fuel body st = Some a ∧ Q a.
Proof.
  intros Hbody. induction fuel as [|fuel IH]; intros st Hinv Hfuel.
  - destruct (Hbody st Hinv). lia.
  - simpl. destruct (Hbody st Hinv) as (Hpos & [st'|a] & -> & Hr); cbn [mbind option_bind].
    + destruct Hr as [Hinv' Hlt]. apply IH; [done|lia].
    + by exists a.
Qed.

(** A loop over positions: it ends inside the text, behind where it began. *)
Lemma while_text_total {A} (t : bytes) (body : Z → option (Z + A)) (p : Z) (Q : A → Prop) :
  0 <= p <= text_length t →
  (∀ q, p <= q <= text_length t → ∃ r, body q = Some r ∧ match r with
     | inl q' => q < q' <= text_length t
     | inr a => Q a end) →
  ∃ a, while_text t body p = Some a ∧ Q a.
Proof.
  intros Hp Hbody. apply (while_total body (λ q, p <= q <= text_length t) (λ q, text_length t - q) Q);
    [|lia|unfold text_length; lia].
  intros q Hq. split; [lia|]. destruct (Hbody q Hq) as (r & Hr & Hpost). exists r.
  split; [done|]. destruct r; [lia|done].
Qed.

Lemma decode_text_some t p : 0 <= p <= text_length t → decode_text t p = Some (decode_at t p).
Proof.
  intros Hp. unfold decode_text, decode_at. rewrite text_tail_some by done. cbn [mbind option_bind].
  by destruct (decode_utf8 _).
Qed.

(** What decodes as ASCII is a byte, and only that does. *)
Lemma decode_at_cases t p :
  all_bytes t → 0 <= p < text_length t →
  (0 <= char_of t p < 0x80 ∧ decode_at t p = (char_of t p, 1))
  ∨ (0x80 <= char_of t p ∧ 0x80 <= (decode_at t p).1 ∧ 1 <= (decode_at t p).2
     ∧ p + (decode_at t p).2 <= text_length t).
Proof.
  intros Hb Hp. pose proof (char_of_at t p Hp) as Hc.
  pose proof (text_at_byte _ _ _ Hb Hc) as Hbyte.
  destruct (Z.lt_ge_cases (char_of t p) 0x80) as [Hlt|Hge].
  - left. split; [lia|]. by apply decode_at_ascii.
  - right. destruct (decode_at_in t p) as [(_ & Hs & He)|?]; [lia| |lia]. split_and!; try done.
    unfold decode_at. rewrite (drop_text_at _ _ _ Hc).
    set (rest := drop (S (Z.to_nat p)) t) in *.
    destruct (decode_utf8_inv (char_of t p :: rest)) as [Hd|(c & rest' & Hs' & Heq)]; [|done| |].
    + subst rest. rewrite <-(drop_text_at _ _ _ Hc). by apply Forall_drop.
    + rewrite Hd. cbn. unfold RUNE_ERROR. lia.
    + rewrite Heq, decode_utf8_encoded by done. cbn [fst].
      unfold utf8_arith in Heq. destruct (Z.ltb_spec c 128); [|lia]. injection Heq as <- _. lia.
Qed.

Section Text.
Context (t : bytes) (t_bytes : all_bytes t) (t_fits : text_length t + 16 <= I64_MAX).

Lemma skip_line_body_some p :
  0 <= p <= text_length t →
  skip_line_body t p = Some (if (p <? text_length t) && negb (is_line_break (decode_at t p).1)
                             then inl (p + (decode_at t p).2) else inr p).
Proof.
  intros Hp. unfold skip_line_body. destruct (Z.ltb_spec p (text_length t)); [|done].
  rewrite decode_text_some by done. cbn [mbind option_bind].
  destruct (decode_at t p) as [c size]. cbn [fst snd andb]. by destruct (is_line_break c).
Qed.

Lemma decode_at_size p : 0 <= p < text_length t → p < p + (decode_at t p).2 <= text_length t.
Proof. intros Hp. destruct (decode_at_in t p) as [?|?]; lia. Qed.

Lemma skip_line_spec p :
  0 <= p <= text_length t →
  ∃ q, skip_line t p = Some q ∧ p <= q <= text_length t
    ∧ (q = text_length t ∨ is_line_break (decode_at t q).1 = true).
Proof.
  intros Hp. destruct (while_text_total t (skip_line_body t) p (λ q, p <= q <= text_length t
    ∧ (q = text_length t ∨ is_line_break (decode_at t q).1 = true)) Hp) as (q & Hq & Hpost);
    [|by exists q].
  intros q Hq. rewrite skip_line_body_some by lia. eexists. split; [done|].
  destruct (Z.ltb_spec q (text_length t)); cbn [andb].
  - destruct (is_line_break _) eqn:E; cbn [negb]; [naive_solver|]. apply decode_at_size. lia.
  - split; [lia|left; lia].
Qed.

Lemma skip_block_body_some p :
  0 <= p <= text_length t →
  skip_block_body t p = Some (
    if p <? text_length t then
      if (char_of t p =? ch "*") && (char_of t (p + 1) =? ch "/") then inr (p + 2)
      else inl (p + (decode_at t p).2)
    else inr p).
Proof.
  intros Hp. unfold skip_block_body. destruct (Z.ltb_spec p (text_length t)); [|done].
  rewrite (char_of_at t p) by lia. cbn [mbind option_bind]. rewrite decode_text_some by done.
  destruct (char_of t p =? ch "*"); cbn [andb]; [|by destruct (decode_at t p)].
  destruct (Z.ltb_spec (p + 1) (text_length t)).
  - rewrite char_of_at by lia. cbn [mbind option_bind].
    destruct (char_of t (p + 1) =? ch "/"); [done|by destruct (decode_at t p)].
  - cbn [mbind option_bind]. unfold char_of at 1.
    destruct (Z.ltb_spec (p + 1) (text_length t)); [lia|]. by destruct (decode_at t p).
Qed.

Lemma char_of_inside p c : char_of t p = c → 0 <= c → p < text_length t.
Proof. unfold char_of. destruct (Z.ltb_spec p (text_length t)); [done|lia]. Qed.

Lemma skip_block_spec p :
  0 <= p <= text_length t → ∃ q, skip_block t p = Some q ∧ p <= q <= text_length t.
Proof.
  intros Hp. apply while_text_total; [done|]. intros q Hq. rewrite skip_block_body_some by lia.
  eexists. split; [done|]. destruct (Z.ltb_spec q (text_length t)); [|lia].
  destruct ((char_of t q =? _) && _) eqn:E; [|apply decode_at_size; lia].
  apply andb_true_iff in E as [_ E]. apply Z.eqb_eq, char_of_inside in E; [lia|by vm_compute].
Qed.

Lemma is_conflict_marker_trivia_some p :
  0 <= p <= text_length t → ∃ b, is_conflict_marker_trivia t p = Some b
    ∧ (b = true → p + 7 < text_length t).
Proof.
  intros Hp. unfold is_conflict_marker_trivia. destruct (Z.ltb_spec p 0); [lia|].
  rewrite !wrap_i64_id by lia. destruct (Z.leb_spec (text_length t) (p + 1)); [by exists false|].
  rewrite (char_of_at t (p + 1)), (char_of_at t p) by lia. cbn [mbind option_bind].
  destruct (negb _); [by exists false|].
  assert (∃ a, (if p =? 0 then Some true
                else before ← text_at t (p - 1); Some (is_line_break before)) = Some a) as [a ->].
  { destruct (Z.eqb_spec p 0); [by exists true|]. rewrite char_of_at by lia. by eexists. }
  cbn [mbind option_bind].
  assert (∃ a', (if negb a && (2 <=? p) then before ← text_slice t 0 (p - 2);
                   Some (is_line_break (decode_last_utf8 before).1) else Some a) = Some a') as [a' ->].
  { destruct a; [by eexists|]. cbn [negb andb]. destruct (Z.leb_spec 2 p); [|by eexists].
    rewrite text_slice_some by lia. by eexists. }
  cbn [mbind option_bind]. destruct a'; [|by exists false].
  destruct (Z.ltb_spec (p + 7) (text_length t)); [|by exists false].
  rewrite text_slice_some by lia. cbn [mbind option_bind]. destruct (existsb _ _); [by exists false|].
  destruct (_ =? ch "="); [by exists true|]. rewrite char_of_at by lia. by eexists.
Qed.

Lemma scan_conflict_marker_trivia_spec p :
  0 <= p < text_length t → char_of t p ∈ [ch "<"; ch ">"; ch "|"; ch "="] →
  ∃ q, scan_conflict_marker_trivia t p = Some q ∧ p < q <= text_length t.
Proof.
  intros Hp Hc. unfold scan_conflict_marker_trivia. rewrite decode_text_some by lia.
  cbn [mbind option_bind].
  assert (decode_at t p = (char_of t p, 1)) as Hd.
  { apply decode_at_ascii; [by apply char_of_at|]. revert Hc. chars. set_solver by lia. }
  rewrite Hd. destruct (_ || _) eqn:E.
  - destruct (skip_line_spec p) as (q & Hq & Hr & Hend); [lia|]. exists q. split; [done|].
    destruct (decide (p = q)) as [<-|]; [|lia]. destruct Hend as [?|Hend]; [lia|].
    rewrite Hd in Hend. cbn [fst] in Hend. revert E Hend. unfold is_line_break. chars. lia.
  - assert ((char_of t p =? ch "|") || (char_of t p =? ch "=") = true) as ->.
    { revert Hc E. chars. rewrite !elem_of_cons, elem_of_nil. lia. }
    destruct (while_text_total t (conflict_middle_body t (char_of t p)) p
      (λ q, p < q <= text_length t)) as (q & Hq & Hr); [lia| |by exists q].
    intros q Hq. unfold conflict_middle_body. destruct (Z.ltb_spec q (text_length t)).
    + rewrite char_of_at by lia. cbn [mbind option_bind]. destruct (_ && _) eqn:Es.
      * destruct (is_conflict_marker_trivia_some q) as (b & -> & _); [lia|]. eexists. split; [done|].
        destruct b; [|lia]. destruct (decide (p = q)) as [<-|]; [|lia]. revert Es. lia.
      * exists (inl (q + 1)). split; [done|lia].
    + exists (inr q). split; [done|lia].
Qed.

Lemma after_line_break_some c p :
  0 <= p < text_length t → ∃ q, after_line_break t c p = Some q ∧ p < q <= text_length t.
Proof.
  intros Hp. unfold after_line_break. destruct (c =? 13); cbn [andb].
  - destruct (Z.ltb_spec (p + 1) (text_length t)).
    + rewrite char_of_at by lia. cbn [mbind option_bind]. eexists. split; [done|].
      destruct (_ =? 10); lia.
    + exists (p + 1). split; [done|lia].
  - exists (p + 1). split; [done|lia].
Qed.

Lemma is_shebang_trivia_some : ∃ b, is_shebang_trivia t 0 = Some b ∧ (b = true → 2 <= text_length t).
Proof.
  unfold is_shebang_trivia. destruct (Z.ltb_spec (text_length t) 2); [by exists false|].
  by eexists.
Qed.

(** What a round does: it moves on, or it stops where it is; only the option that
    stops after a line break stops behind one. *)
Definition round_ok (options : SkipTriviaOptions) (p : Z) (star : bool) (r : Z * bool + Z) : Prop :=
  match r with
  | inl (q, star') =>
      p < q <= text_length t ∧ (in_jsdoc options = false → star = false → star' = false)
  | inr q => p <= q <= text_length t ∧ (stop_after_line_break options = false → q = p)
  end.

Lemma skip_comment_spec p :
  0 <= p < text_length t → ∃ r, skip_comment t p = Some r ∧ ∀ options star, round_ok options p star r.
Proof.
  intros Hp. unfold skip_comment. destruct (Z.ltb_spec (p + 1) (text_length t)).
  - rewrite char_of_at by lia. cbn [mbind option_bind]. destruct (_ =? ch "/").
    + destruct (skip_line_spec (p + 2)) as (q & -> & Hq & _); [lia|].
      eexists. split; [done|]. intros options star. split; [lia|done].
    + destruct (_ =? ch "*").
      * destruct (skip_block_spec (p + 2)) as (q & -> & Hq); [lia|].
        eexists. split; [done|]. intros options star. split; [lia|done].
      * eexists. split; [done|]. intros options star. split; [lia|done].
  - eexists. split; [done|]. intros options star. split; [lia|done].
Qed.

Lemma round_stop options p star : 0 <= p <= text_length t → round_ok options p star (inr p).
Proof. intros Hp. split; [lia|done]. Qed.
Lemma round_go options p star q star' :
  p < q <= text_length t → star' = star ∨ star' = false ∨ star' = in_jsdoc options →
  round_ok options p star (inl (q, star')).
Proof. intros Hq Hstar. split; [lia|]. intros Hjs Hs. naive_solver. Qed.

Lemma skip_trivia_body_spec options p star :
  0 <= p <= text_length t →
  ∃ r, skip_trivia_body t options (p, star) = Some r ∧ round_ok options p star r.
Proof.
  intros Hp. unfold skip_trivia_body. destruct (Z.leb_spec (text_length t) p).
  { eexists. split; [done|]. by apply round_stop. }
  pose proof (decode_at_size p ltac:(lia)) as Hsize.
  pose proof (decode_at_cases t p t_bytes ltac:(lia)) as Hcase.
  rewrite decode_text_some by lia. cbn [mbind option_bind].
  destruct (decode_at t p) as [c width]. cbn [fst snd] in *.
  assert (c < 128 → c = char_of t p) as Hascii.
  { destruct Hcase as [(_ & Heq)|(_ & Hc & _)]; [by injection Heq|lia]. }
  clear Hcase. destruct ((c =? 10) || (c =? 13)).
  { destruct (after_line_break_some c p) as (q & Hq & Hr); [lia|]. rewrite Hq. eexists. split; [done|].
    destruct (stop_after_line_break options) eqn:E; [|by apply round_go; [|right; right]].
    split; [lia|congruence]. }
  destruct (_ || (c =? ch " ")); [eexists; split; [done|]; apply round_go; [lia|by left]|].
  destruct (c =? ch "/").
  { destruct (stop_at_comments options); [eexists; split; [done|]; by apply round_stop|].
    destruct (skip_comment_spec p) as (r & Hr & Hok); [lia|]. by exists r. }
  destruct (_ || (c =? ch ">")) eqn:E.
  { destruct (is_conflict_marker_trivia_some p) as (b & Hb & _); [lia|]. rewrite Hb.
    cbn [mbind option_bind]. destruct b; [|eexists; split; [done|]; by apply round_stop].
    destruct (scan_conflict_marker_trivia_spec p) as (q & Hq & Hr); [lia| |].
    - rewrite <-Hascii by (revert E; chars; lia). revert E. chars. rewrite !elem_of_cons, elem_of_nil. lia.
    - rewrite Hq. eexists. split; [done|]. by apply round_go; [|right; left]. }
  destruct (c =? ch "#").
  { destruct (Z.eqb_spec p 0) as [->|]; [|eexists; split; [done|]; by apply round_stop].
    destruct is_shebang_trivia_some as (b & Hb & Hlen). rewrite Hb. cbn [mbind option_bind].
    destruct b; [|eexists; split; [done|]; by apply round_stop]. specialize (Hlen eq_refl).
    unfold scan_shebang_trivia. rewrite wrap_i64_id by lia.
    destruct (skip_line_spec 2) as (q & Hq & Hr & _); [lia|]. change (0 + 2) with 2. rewrite Hq.
    eexists. split; [done|]. by apply round_go; [lia|right; left]. }
  destruct (c =? ch "*"); [|destruct (_ && _)]; (eexists; split; [done|]).
  - destruct star; [by apply round_go; [lia|right; left]|by apply round_stop].
  - apply round_go; [lia|by left].
  - by apply round_stop.
Qed.

(** The whole scan: it ends behind [pos] inside the text, and unless it was told to
    stop after a line break, at a position where another round would stop. *)
Lemma skip_trivia_ex_stops options p :
  0 <= p <= text_length t →
  ∃ q, skip_trivia_ex t p options = Some q ∧ p <= q <= text_length t
    ∧ (stop_after_line_break (default default_options options) = false →
       in_jsdoc (default default_options options) = false →
       skip_trivia_body t (default default_options options) (q, false) = Some (inr q)).
Proof.
  intros Hp. unfold skip_trivia_ex. destruct (Z.ltb_spec p 0); [lia|].
  set (o := default default_options options).
  apply (while_total (skip_trivia_body t o)
    (λ st, p <= st.1 <= text_length t ∧ (in_jsdoc o = false → st.2 = false))
    (λ st, text_length t - st.1)); [|by split; [cbn; lia|]|unfold text_length; cbn; lia].
  intros [q star] [Hq Hstar]. cbn [fst snd] in *. split; [lia|].
  destruct (skip_trivia_body_spec o q star) as (r & Hr & Hok); [lia|]. exists r. split; [done|].
  destruct r as [[q' star']|q']; destruct Hok as [Hq' Hrest]; cbn [fst snd].
  - split; [split; [lia|]|lia]. intros Hjs. by apply Hrest; [|apply Hstar].
  - split; [lia|]. intros Hstop Hjs. specialize (Hrest Hstop) as ->. by rewrite Hstar in Hr.
Qed.
End Text.


(** Skipping trivia never panics; from a position inside the text it ends inside
    the text and not before that position, and from any other position it stays. *)
Lemma skip_trivia_ex_total t p options :
  all_bytes t → text_length t + 16 <= I64_MAX →
  ∃ q, skip_trivia_ex t p options = Some q
    ∧ if in_range 0 (text_length t) p then p <= q <= text_length t else q = p.
Proof.
  intros Hb Hfit. destruct (in_range 0 (text_length t) p) eqn:E.
  - apply in_range_true in E. destruct (skip_trivia_ex_stops t Hb Hfit options p E) as (q & ? & ? & _).
    by exists q.
  - apply in_range_false in E. exists p. split; [|done]. unfold skip_trivia_ex.
    destruct (Z.ltb_spec p 0); [done|]. unfold while_text, while, skip_trivia_body.
    destruct (Z.leb_spec (text_length t) p); [done|lia].
Qed.

(** Skipping trivia leaves nothing to skip: where it ends, it stays, whether it
    passes over comments or stops at them. *)
Theorem skip_trivia_idempotent t p q comments :
  all_bytes t → text_length t + 16 <= I64_MAX →
  skip_trivia_ex t p (Some (MkSkipTriviaOptions false comments false)) = Some q →
  skip_trivia_ex t q (Some (MkSkipTriviaOptions false comments false)) = Some q.
Proof.
  intros Hb Hfit Hskip. destruct (in_range 0 (text_length t) p) eqn:E.
  - apply in_range_true in E.
    destruct (skip_trivia_ex_stops t Hb Hfit (Some (MkSkipTriviaOptions false comments false)) p E)
      as (q' & Hq' & Hr & Hstop).
    rewrite Hskip in Hq'. injection Hq' as <-. specialize (Hstop eq_refl eq_refl).
    unfold skip_trivia_ex. destruct (Z.ltb_spec q 0); [done|]. unfold while_text. cbn [while default] in *.
    cbn [from_option Datatypes.id] in *. by rewrite Hstop.
  - destruct (skip_trivia_ex_total t p (Some (MkSkipTriviaOptions false comments false)) Hb Hfit)
      as (q' & Hq' & Hr). rewrite E in Hr. subst q'. congruence.
Qed.

Lemma skip_trivia_idempotent_witness :
  let t := bs " /* a */ x" in
  let o := Some (MkSkipTriviaOptions false false false) in
  (all_bytes t ∧ text_length t + 16 <= I64_MAX ∧ skip_trivia_ex t 0 o = Some 9)
  ∧ skip_trivia_ex t 9 o = Some 9.
Proof.
  assert (all_bytes (bs " /* a */ x")) by apply bs_all_bytes.
  split; [split_and!; [done|by vm_compute|by vm_compute]|].
  apply (skip_trivia_idempotent _ 0); [done|by vm_compute|by vm_compute].
Defined.

(** * Skipping trivia again *)

#[local] Arguments skip_line : simpl never.
#[local] Arguments skip_block : simpl never.
#[local] Arguments is_shebang_trivia : simpl never.
#[local] Arguments scan_shebang_trivia : simpl never.
#[local] Arguments text_at : simpl never.

(** The blanks and line breaks that [scan] runs over after a line break. *)
Definition is_ascii_blank (b : Z) : bool := (b =? ch " ") || in_range 9 13 b.

Section Steps.
Context (t : bytes) (t_bytes : all_bytes t) (t_fits : text_length t + 16 <= I64_MAX).

(** One round that skips something, and a position where nothing is skipped. *)
Definition skip_step (p q : Z) : Prop :=
  skip_trivia_body t default_options (p, false) = Some (inl (q, false)).
Definition skip_stops (p : Z) : Prop :=
  skip_trivia_body t default_options (p, false) = Some (inr p).

Lemma runs_rtc {A} (body : Z → option (Z + A)) p q a :
  rtc (λ p q, body p = Some (inl q)) p q → body q = Some (inr a) → runs body p a.
Proof. induction 1 as [p|p p' q Hp _ IH]; intros Hq; [by apply runs_stop|by eapply runs_round, IH]. Qed.

Lemma skip_trivia_reaches p q :
  0 <= p <= text_length t → rtc skip_step p q → skip_stops q → skip_trivia t p = Some q.
Proof.
  intros Hp Hsteps Hstop. destruct (skip_trivia_ex_stops t t_bytes t_fits None p Hp) as (q' & Hq' & _).
  assert (runs (skip_trivia_body t default_options) (p, false) q) as Hruns.
  { clear Hp Hq'. induction Hsteps as [p|p p' q Hp _ IH]; [by apply runs_stop|].
    eapply runs_round; [exact Hp|by apply IH]. }
  unfold skip_trivia. rewrite Hq'. f_equal.
  unfold skip_trivia_ex in Hq'. destruct (Z.ltb_spec p 0); [lia|]. apply while_runs in Hq'.
  by eapply runs_deterministic.
Qed.

Lemma skip_line_reaches p q :
  0 <= p <= text_length t → rtc (λ p q, skip_line_body t p = Some (inl q)) p q →
  skip_line_body t q = Some (inr q) → skip_line t p = Some q.
Proof.
  intros Hp Hsteps Hstop. destruct (skip_line_spec t p Hp) as (q' & Hq' & _). rewrite Hq'. f_equal.
  apply while_runs in Hq'. eapply runs_deterministic; [exact Hq'|by eapply runs_rtc].
Qed.

Lemma skip_block_reaches p q a :
  0 <= p <= text_length t → rtc (λ p q, skip_block_body t p = Some (inl q)) p q →
  skip_block_body t q = Some (inr a) → skip_block t p = Some a.
Proof.
  intros Hp Hsteps Hstop. destruct (skip_block_spec t p Hp) as (q' & Hq' & _). rewrite Hq'. f_equal.
  apply while_runs in Hq'. eapply runs_deterministic; [exact Hq'|by eapply runs_rtc].
Qed.

(** A rune that begins no trivia whatever follows it. *)
Definition begins_no_trivia (c : Z) : bool :=
  negb ((c =? 10) || (c =? 13) || (c =? 9) || (c =? 11) || (c =? 12) || (c =? ch " ")
        || (c =? ch "/") || (c =? ch "<") || (c =? ch "|") || (c =? ch "=") || (c =? ch ">")
        || (c =? ch "#") || (127 <? c) && is_white_space_like c).

Lemma skip_stops_rune p :
  0 <= p <= text_length t → begins_no_trivia (decode_at t p).1 = true → skip_stops p.
Proof.
  intros Hp Hc. unfold skip_stops, skip_trivia_body. destruct (Z.leb_spec (text_length t) p); [done|].
  rewrite decode_text_some by lia. cbn [mbind option_bind].
  destruct (decode_at t p) as [c width]. unfold begins_no_trivia in Hc. cbn [fst] in Hc.
  rewrite negb_true_iff, !orb_false_iff in Hc.
  destruct Hc as [[[[[[[[[[[[E1 E2] E3] E4] E5] E6] E7] E8] E9] E10] E11] E12] E13].
  rewrite E1, E2, E3, E4, E5, E6, E7, E8, E9, E10, E11, E12, E13. cbn [orb].
  by destruct (c =? ch "*").
Qed.

Lemma skip_stops_char p :
  0 <= p < text_length t → char_of t p < 128 → begins_no_trivia (char_of t p) = true → skip_stops p.
Proof.
  intros Hp Hc Hno. apply skip_stops_rune; [lia|].
  rewrite (decode_at_ascii t p (char_of t p)); [done|by apply char_of_at|done].
Qed.

(** A round at an ASCII character, with the character looked up. *)
Lemma skip_body_ascii p :
  0 <= p < text_length t → char_of t p < 128 →
  decode_text t p = Some (char_of t p, 1) ∧ (text_length t <=? p) = false.
Proof.
  intros Hp Hc. split; [|lia]. rewrite decode_text_some by lia. f_equal.
  by apply decode_at_ascii; [apply char_of_at|].
Qed.

Ltac skip_ascii Hp Hc :=
  let Hd := fresh "Hd" in let Hl := fresh "Hl" in
  destruct (skip_body_ascii _ Hp Hc) as [Hd Hl];
  unfold skip_step, skip_stops, skip_trivia_body; rewrite Hl, Hd; clear Hd Hl;
  cbn [mbind option_bind].

(** A line break or a blank, with what a carriage return takes along. *)
Lemma skip_step_blank p :
  0 <= p < text_length t → is_ascii_blank (char_of t p) = true →
  skip_step p (if (char_of t p =? 13) && (char_of t (p + 1) =? 10) then p + 2 else p + 1).
Proof.
  intros Hp Hb. assert (char_of t p < 128) as Hc by (revert Hb; unfold is_ascii_blank, in_range; chars; lia).
  skip_ascii Hp Hc. destruct ((char_of t p =? 10) || (char_of t p =? 13)) eqn:E.
  - unfold after_line_break. destruct (char_of t p =? 13); cbn [andb]; [|done].
    destruct (Z.ltb_spec (p + 1) (text_length t)).
    + rewrite char_of_at by lia. done.
    + cbn [mbind option_bind]. unfold char_of. by destruct (Z.ltb_spec (p + 1) (text_length t)); [lia|].
  - assert ((char_of t p =? 13) = false) as -> by (by apply orb_false_iff in E as [_ ?]). cbn [andb].
    assert (((char_of t p =? 9) || (char_of t p =? 11) || (char_of t p =? 12) || (char_of t p =? ch " "))
      = true) as ->; [|done].
    revert Hb E. unfold is_ascii_blank, in_range. chars. lia.
Qed.

Lemma skip_blanks p r :
  0 <= p <= r → r <= text_length t → (∀ i, p <= i < r → is_ascii_blank (char_of t i) = true) →
  is_ascii_blank (char_of t r) = false → rtc skip_step p r.
Proof.
  intros Hp Hr Hall Hend. remember (Z.to_nat (r - p)) as n eqn:Hn.
  revert p Hp Hall Hn. induction n as [n IH] using lt_wf_ind. intros p Hp Hall Hn.
  destruct (decide (p = r)) as [->|]; [done|].
  pose proof (skip_step_blank p ltac:(lia) (Hall p ltac:(lia))) as Hstep.
  destruct ((char_of t p =? 13) && (char_of t (p + 1) =? 10)) eqn:E.
  - assert (p + 1 ≠ r) as Hne.
    { intros <-. apply andb_true_iff in E as [_ E]. apply Z.eqb_eq in E. by rewrite E in Hend. }
    eapply rtc_l; [exact Hstep|]. apply (IH (Z.to_nat (r - (p + 2)))); [lia|lia| |done].
    intros i Hi. apply Hall. lia.
  - eapply rtc_l; [exact Hstep|]. apply (IH (Z.to_nat (r - (p + 1)))); [lia|lia| |done].
    intros i Hi. apply Hall. lia.
Qed.

(** ** Comments *)

Lemma skip_step_line_comment p e :
  0 <= p → char_of t p = ch "/" → char_of t (p + 1) = ch "/" → skip_line t (p + 2) = Some e →
  skip_step p e.
Proof.
  intros Hp0 Hc Hc1 He. assert (p + 1 < text_length t) as Hlt by (by eapply char_of_inside).
  assert (0 <= p < text_length t) as Hp by lia.
  assert (char_of t p < 128) as Ha by (by rewrite Hc). skip_ascii Hp Ha. rewrite Hc. cbn.
  unfold skip_comment. rewrite (proj2 (Z.ltb_lt _ _) Hlt), char_of_at, Hc1 by lia. cbn. by rewrite He.
Qed.

Lemma skip_step_block_comment p e :
  0 <= p → char_of t p = ch "/" → char_of t (p + 1) = ch "*" → skip_block t (p + 2) = Some e →
  skip_step p e.
Proof.
  intros Hp0 Hc Hc1 He. assert (p + 1 < text_length t) as Hlt by (by eapply char_of_inside).
  assert (0 <= p < text_length t) as Hp by lia.
  assert (char_of t p < 128) as Ha by (by rewrite Hc). skip_ascii Hp Ha. rewrite Hc. cbn.
  unfold skip_comment. rewrite (proj2 (Z.ltb_lt _ _) Hlt), char_of_at, Hc1 by lia. cbn. by rewrite He.
Qed.

Lemma skip_stops_slash p :
  0 <= p < text_length t → char_of t p = ch "/" → char_of t (p + 1) ≠ ch "/" →
  char_of t (p + 1) ≠ ch "*" → skip_stops p.
Proof.
  intros Hp Hc Hc1 Hc2. assert (char_of t p < 128) as Ha by (by rewrite Hc). skip_ascii Hp Ha.
  rewrite Hc. cbn. unfold skip_comment. destruct (Z.ltb_spec (p + 1) (text_length t)); [|done].
  rewrite char_of_at by lia. cbn [mbind option_bind].
  apply Z.eqb_neq in Hc1 as ->. by apply Z.eqb_neq in Hc2 as ->.
Qed.

(** ** Conflict markers *)

Definition marker_char (c : Z) : bool := (c =? ch "<") || (c =? ch "|") || (c =? ch "=") || (c =? ch ">").

Lemma marker_round p :
  0 <= p < text_length t → marker_char (char_of t p) = true →
  skip_trivia_body t default_options (p, false)
    = (marker ← is_conflict_marker_trivia t p;
       if marker : bool then q ← scan_conflict_marker_trivia t p; Some (inl (q, false))
       else Some (inr p)).
Proof.
  intros Hp Hm. assert (char_of t p < 128) as Ha by (revert Hm; unfold marker_char; chars; lia).
  skip_ascii Hp Ha. unfold marker_char in Hm. rewrite Hm.
  assert (((char_of t p =? 10) || (char_of t p =? 13)) = false
    ∧ ((char_of t p =? 9) || (char_of t p =? 11) || (char_of t p =? 12) || (char_of t p =? ch " ")) = false
    ∧ (char_of t p =? ch "/") = false) as (-> & -> & ->); [|done].
  revert Hm. chars. lia.
Qed.

Lemma skip_step_marker p q :
  0 <= p < text_length t → marker_char (char_of t p) = true → is_conflict_marker_trivia t p = Some true →
  scan_conflict_marker_trivia t p = Some q → skip_step p q.
Proof. intros Hp Hm Hc Hq. unfold skip_step. by rewrite marker_round, Hc, Hq. Qed.

Lemma skip_stops_marker p :
  0 <= p < text_length t → marker_char (char_of t p) = true → is_conflict_marker_trivia t p = Some false →
  skip_stops p.
Proof. intros Hp Hm Hc. unfold skip_stops. by rewrite marker_round, Hc. Qed.

Lemma no_marker_alone p :
  0 <= p < text_length t → char_of t (p + 1) ≠ char_of t p → is_conflict_marker_trivia t p = Some false.
Proof.
  intros Hp Hc. unfold is_conflict_marker_trivia. destruct (Z.ltb_spec p 0); [lia|].
  rewrite wrap_i64_id by lia. destruct (Z.leb_spec (text_length t) (p + 1)); [done|].
  rewrite (char_of_at t (p + 1)), (char_of_at t p) by lia. cbn [mbind option_bind].
  by apply Z.eqb_neq in Hc as ->.
Qed.

(** ** Shebangs *)

Lemma starts_with_shebang :
  starts_with (bs "#!") t = (char_of t 0 =? ch "#") && (char_of t 1 =? ch "!").
Proof.
  destruct t as [|a [|b t']]; [done| |].
  - unfold starts_with. cbn. by destruct (_ =? _); rewrite ?andb_false_r.
  - change (char_of (a :: b :: t') 0) with a.
    assert (char_of (a :: b :: t') 1 = b) as ->.
    { unfold char_of. destruct (Z.ltb_spec 1 (text_length (a :: b :: t'))) as [|Hl]; [done|].
      unfold text_length in Hl. cbn [length] in Hl. lia. }
    unfold starts_with. cbn [bs strip_prefix String.list_ascii_of_string fmap list_fmap].
    rewrite (Z.eqb_sym a), (Z.eqb_sym b). by destruct (_ =? a), (_ =? b).
Qed.

Lemma skip_step_shebang e :
  char_of t 0 = ch "#" → char_of t 1 = ch "!" → skip_line t 2 = Some e → skip_step 0 e.
Proof.
  intros Hc Hc1 He. assert (1 < text_length t) as Hlt by (by eapply char_of_inside).
  assert (is_shebang_trivia t 0 = Some true) as Hs.
  { unfold is_shebang_trivia. destruct (Z.ltb_spec (text_length t) 2); [lia|].
    by rewrite starts_with_shebang, Hc, Hc1. }
  assert (scan_shebang_trivia t 0 = Some e) as Hscan.
  { unfold scan_shebang_trivia. by rewrite wrap_i64_id by lia. }
  assert (0 <= 0 < text_length t) as Hp by lia.
  assert (char_of t 0 < 128) as Ha by (by rewrite Hc). skip_ascii Hp Ha. rewrite Hc.
  change (0 =? 0) with true. cbv iota. rewrite Hs. cbn [mbind option_bind]. by rewrite Hscan.
Qed.

Lemma skip_stops_hash p :
  0 <= p < text_length t → char_of t p = ch "#" → (p = 0 → char_of t 1 ≠ ch "!") → skip_stops p.
Proof.
  intros Hp Hc Hc1. assert (char_of t p < 128) as Ha by (by rewrite Hc). skip_ascii Hp Ha. rewrite Hc. cbn.
  destruct (Z.eqb_spec p 0) as [->|]; [|done]. specialize (Hc1 eq_refl).
  unfold is_shebang_trivia. destruct (Z.ltb_spec (text_length t) 2); [done|].
  cbn [negb Z.eqb]. rewrite starts_with_shebang. apply Z.eqb_neq in Hc1 as ->. by rewrite andb_false_r.
Qed.

(** ** White space beyond ASCII *)

Lemma skip_step_wide p :
  0 <= p < text_length t → 127 < (decode_at t p).1 → is_white_space_like (decode_at t p).1 = true →
  skip_step p (p + (decode_at t p).2).
Proof.
  intros Hp Hc Hw. unfold skip_step, skip_trivia_body. destruct (Z.leb_spec (text_length t) p); [lia|].
  rewrite decode_text_some by lia. cbn [mbind option_bind]. destruct (decode_at t p) as [c size].
  cbn [fst snd] in *. rewrite Hw.
  assert (127 <? c = true) as -> by lia. cbn [andb].
  assert (((c =? 10) || (c =? 13)) = false
    ∧ ((c =? 9) || (c =? 11) || (c =? 12) || (c =? ch " ")) = false ∧ (c =? ch "/") = false
    ∧ ((c =? ch "<") || (c =? ch "|") || (c =? ch "=") || (c =? ch ">")) = false
    ∧ (c =? ch "#") = false ∧ (c =? ch "*") = false) as (-> & -> & -> & -> & -> & ->); [|done].
  chars. lia.
Qed.
End Steps.
