(* ===== verification/ScannerComments.v ===== *)
(** The comments around a token: the iterator [CommentRanges] of
    [crates/tsr_scanner/src/trivia.rs]. *)

From stdpp Require Import gmap sorting.
From S2P Require Import LineMap Prelude Wtf8 TextEdits ScannerKinds ScannerState ScannerWp.
From S2P Require Import ScannerTrivia.

Local Open Scope Z_scope.

Module Comment.
Record CommentRange := MkCommentRange {
  loc : TextRange;
  kind : SyntaxKind;
  has_trailing_new_line : bool;
}.
End Comment.

Module Ranges.
Import Comment.

Record CommentRanges := MkRanges {
  text : bytes;
  pos : Z;
  trailing : bool;
  collecting : bool;
  started : bool;
  finished : bool;
  pending : option CommentRange;
}.

#[export] Instance eta_ranges : Eta CommentRanges := λ r,
  MkRanges (text r) (pos r) (trailing r) (collecting r) (started r) (finished r) (pending r).

Definition iterate_comment_ranges (text : bytes) (pos : Z) (trailing : bool) : CommentRanges :=
  {| text := text; pos := pos; trailing := trailing; collecting := trailing; started := false;
     finished := false; pending := None |}.

(** The pending range has a line break behind it. *)
Definition mark_new_line (pending : option CommentRange) : option CommentRange :=
  (λ r, MkCommentRange (loc r) (kind r) true) <$> pending.

(** Where a comment that starts at [p] ends, and whether at a line break. *)
Definition comment_end (t : bytes) (single : bool) (p : Z) : option (Z * bool) :=
  if single then
    e ← skip_line t (p + 2);
    Some (e, e <? text_length t)
  else
    remaining ← text_tail t (p + 2);
    Some (match find_sub (bs "*/") remaining with
          | Some offset => p + 2 + Z.of_nat offset + 2
          | None => text_length t end, false).

(** Leaves the loop; what is pending is the last range. *)
Definition finish (r : CommentRanges) : option CommentRange * CommentRanges :=
  (pending r, r <| finished := true |> <| pending := None |>).

(** At a slash: the next comment replaces the pending one, which is handed out. *)
Definition comment_body (r : CommentRanges)
  : option (CommentRanges + option CommentRange * CommentRanges) :=
  let next := default 0 (text_at (text r) (pos r + 1)) in
  if negb (next =? ch "/") && negb (next =? ch "*") then Some (inr (finish r))
  else
    let single := next =? ch "/" in
    '(e, has_trailing_new_line) ← comment_end (text r) single (pos r);
    let moved := r <| pos := e |> in
    if collecting r then
      let range := MkCommentRange (range_new (pos r) e)
        (if single then SingleLineCommentTrivia else MultiLineCommentTrivia) has_trailing_new_line in
      let moved := moved <| pending := Some range |> in
      Some (match pending r with Some old => inr (Some old, moved) | None => inl moved end)
    else Some (inl moved).

(** One round of the loop of [next]. *)
Definition next_body (r : CommentRanges)
  : option (CommentRanges + option CommentRange * CommentRanges) :=
  if (0 <=? pos r) && (pos r <? text_length (text r)) then
    '(c, width) ← decode_text (text r) (pos r);
    if (c =? 10) || (c =? 13) then
      p ← after_line_break (text r) c (pos r);
      let r := r <| pos := p |> in
      Some (if trailing r then inr (finish r)
            else inl (r <| collecting := true |> <| pending := mark_new_line (pending r) |>))
    else if (c =? 9) || (c =? 11) || (c =? 12) || (c =? ch " ") then
      Some (inl (r <| pos := pos r + 1 |>))
    else if c =? ch "/" then comment_body r
    else if (127 <? c) && is_white_space_like c then
      let r' := if is_line_break c then r <| pending := mark_new_line (pending r) |> else r in
      Some (inl (r' <| pos := pos r + width |>))
    else Some (inr (finish r))
  else Some (inr (finish r)).

(** The first call skips a shebang at the start of the text. *)
Definition start_ranges (r : CommentRanges) : option CommentRanges :=
  if started r then Some r
  else
    let r := r <| started := true |> in
    if pos r =? 0 then
      shebang ← is_shebang_trivia (text r) 0;
      p ← (if shebang : bool then scan_shebang_trivia (text r) 0 else Some (pos r));
      Some (r <| collecting := true |> <| pos := p |>)
    else Some r.

Definition next (r : CommentRanges) : option (option CommentRange * CommentRanges) :=
  if finished r then Some (None, r)
  else
    r ← start_ranges r;
    while_text (text r) next_body r.

(** All that the iterator hands out. *)
Fixpoint collect (fuel : nat) (r : CommentRanges) : option (list CommentRange) :=
  match fuel with
  | O => None
  | S fuel =>
      '(range, r) ← next r;
      match range with
      | None => Some []
      | Some range => rest ← collect fuel r; Some (range :: rest)
      end
  end.

Definition comment_ranges (t : bytes) (p : Z) (trailing : bool) : option (list CommentRange) :=
  collect (S (S (length t))) (iterate_comment_ranges t p trailing).
Definition get_leading_comment_ranges (t : bytes) (p : Z) := comment_ranges t p false.
Definition get_trailing_comment_ranges (t : bytes) (p : Z) := comment_ranges t p true.

Definition shown (rs : option (list CommentRange)) : option (list (Z * Z * bool)) :=
  map (λ r, (TextEdits.pos (loc r), TextEdits.end_ (loc r), has_trailing_new_line r)) <$> rs.

Example comment_ranges_ex :
  shown (get_trailing_comment_ranges (bs "/*a*/" ++ [13; 10] ++ bs "/*b*/x") 0) = Some [(0, 5, false)]
  ∧ shown (get_leading_comment_ranges (bs "/*a*/" ++ [13; 10] ++ bs "/*b*/x") 0)
    = Some [(0, 5, true); (7, 12, false)]
  ∧ shown (get_trailing_comment_ranges (bs "/*a*/" ++ encode_rune 0x2028 ++ bs "/*b*/x") 0)
    = Some [(0, 5, true); (8, 13, false)]
  ∧ shown (get_leading_comment_ranges (bs "x" ++ encode_rune 0x2028 ++ bs "/*a*/") 1) = Some []
  ∧ shown (get_trailing_comment_ranges (bs "x" ++ encode_rune 0x2028 ++ bs "/*a*/") 1)
    = Some [(4, 9, false)]
  ∧ shown (get_leading_comment_ranges (bs "#!x" ++ [10] ++ bs "//a" ++ [10]) 0) = Some [(4, 7, true)]
  ∧ shown (get_trailing_comment_ranges (bs "#!x" ++ [10] ++ bs "//a" ++ [10]) 0) = Some [].
Proof. by vm_compute. Qed.

(** ** Where comments end *)

(** The least position from [lo] on with [P]. *)
Definition first_from (P : Z → Prop) (lo q : Z) : Prop :=
  lo <= q ∧ P q ∧ ∀ q', lo <= q' < q → ¬ P q'.

(** The text ends, or a line break stands there. *)
Definition line_ends (t : bytes) (q : Z) : Prop :=
  text_length t <= q ∨ is_line_break (decode_at t q).1 = true.

Definition closes (t : bytes) (q : Z) : Prop := sub t (q - 2) q = bs "*/".

(** The comment of a kind that starts at [s] ends at [e]: a line comment at the first line
    break or the end of the text, another behind the first closing, which does not overlap
    the opening, or at the end of the text if there is none. *)
Definition comment_span (t : bytes) (k : SyntaxKind) (s e : Z) : Prop :=
  k = SingleLineCommentTrivia ∧ sub t s (s + 2) = bs "//" ∧ first_from (line_ends t) (s + 2) e
  ∨ k = MultiLineCommentTrivia ∧ sub t s (s + 2) = bs "/*"
    ∧ (first_from (closes t) (s + 4) e
       ∨ e = text_length t ∧ ∀ q, s + 4 <= q <= text_length t → ¬ closes t q).

Lemma decode_continuation b x rest :
  b = x :: rest → is_continuation x = true → (decode_utf8 b).1 = RUNE_ERROR.
Proof.
  intros -> [H1 H2]%is_continuation_true. unfold decode_utf8.
  destruct (Z.ltb_spec x 0x80); [lia|]. assert (utf8_lead x = None) as ->; [|done].
  unfold utf8_lead, in_range. by repeat match goal with
    | |- context [if ?b then _ else _] => replace b with false by lia
    end.
Qed.

(** No line break inside an encoded character. *)
Lemma no_break_inside t p q :
  0 <= p < text_length t → p < q < p + (decode_at t p).2 → is_line_break (decode_at t q).1 = false.
Proof.
  intros Hp Hq. pose proof (decode_at_in t p ltac:(lia)) as Hin. unfold rune_in in Hin.
  unfold decode_at in *. set (b := drop (Z.to_nat p) t) in *. set (n := Z.to_nat (q - p)).
  replace (drop (Z.to_nat q) t) with (drop n b) by (subst b n; rewrite drop_drop; f_equal; lia).
  destruct (drop n b) as [|x rest] eqn:Ed; [done|].
  destruct (is_continuation x) eqn:Ex.
  { pose proof (decode_continuation _ x rest Ed Ex) as H. rewrite <-Ed in *. destruct (decode_utf8 (drop n b)). cbn in *. by subst. }
  exfalso. assert (decode_utf8 b = decode_utf8 (take n b)) as Heq.
  { rewrite <-(take_drop n b) at 1. apply decode_utf8_app.
    - destruct b; [by rewrite drop_nil in Ed|]. subst n. by destruct (Z.to_nat (q - p)) eqn:?; [lia|].
    - intros y Hy. rewrite Ed in Hy. by injection Hy as <-. }
  pose proof (decode_at_in (take n b) 0) as Hin'. unfold rune_in, decode_at, text_length in Hin'.
  change (drop (Z.to_nat 0) (take n b)) with (take n b) in Hin'. rewrite <-Heq in Hin'.
  destruct (decode_utf8 b) as [c w]. cbn in *. rewrite length_take in Hin'. lia.
Qed.

Lemma skip_line_first t p :
  0 <= p <= text_length t →
  ∃ q, skip_line t p = Some q ∧ q <= text_length t ∧ first_from (line_ends t) p q.
Proof.
  intros Hp. unfold skip_line, while_text.
  destruct (while_total (skip_line_body t)
    (λ q, p <= q <= text_length t ∧ ∀ q', p <= q' < q → ¬ line_ends t q') (λ q, text_length t - q)
    (λ q, q <= text_length t ∧ first_from (line_ends t) p q)) with (fuel := S (length t)) (st := p)
    as (q & Hq & Hpost); [| |unfold text_length; lia|by exists q].
  - intros q [Hq Hno]. split; [lia|]. rewrite skip_line_body_some by lia. eexists. split; [done|].
    destruct (Z.ltb_spec q (text_length t)); cbn [andb]; [|split; [lia|]; split_and!; [lia|by left|done]].
    destruct (is_line_break _) eqn:E; cbn [negb]; [split; [lia|]; split_and!; [lia|by right|done]|].
    pose proof (decode_at_size t q ltac:(lia)). split; [|lia]. split; [lia|].
    intros q' Hq' [?|Hb]; [lia|]. destruct (Z.lt_trichotomy q' q) as [?|[->|?]].
    + apply (Hno q'); [lia|by right].
    + congruence.
    + rewrite (no_break_inside t q) in Hb by lia. done.
  - split; [lia|]. intros q'. lia.
Qed.

Lemma find_sub_first pat s : ∀ k,
  match find_sub pat s with Some e => (k < e)%nat | None => (k <= length s)%nat end → starts_with pat (drop k s) = false.
Proof.
  induction s as [|x s IH]; intros k; simpl; destruct (starts_with pat _) eqn:E; try lia.
  - intros Hk. by replace k with 0%nat by lia.
  - destruct k as [|k]; [done|]. intros Hk. cbn. apply IH. destruct (find_sub pat s); simpl in Hk; lia.
Qed.

Lemma closes_at t p k :
  0 <= p → Z.of_nat k + p + 2 <= text_length t →
  closes t (p + Z.of_nat k + 2) ↔ starts_with (bs "*/") (drop k (drop (Z.to_nat p) t)) = true.
Proof.
  intros Hp Hk. unfold closes, sub. rewrite starts_with_true, drop_drop.
  replace (Z.to_nat (_ - (_ - 2))) with 2%nat by lia.
  replace (Z.to_nat (p + Z.of_nat k + 2 - 2)) with (Z.to_nat p + k)%nat by lia. split.
  - intros <-. exists (drop 2 (drop (Z.to_nat p + k) t)). by rewrite take_drop.
  - intros [rest ->]. done.
Qed.

(** ** What the iterator hands out *)

Section Spec.
Context (t : bytes) (t_bytes : all_bytes t) (t_fits : text_length t <= I32_MAX).

(** A comment of the text, as long as its kind says, not before [lo]. *)
Inductive comment_at (lo : Z) (r : CommentRange) : Prop :=
  | comment_at_intro s e :
      loc r = MkRange s e → lo <= s → s + 2 <= e <= text_length t → comment_span t (kind r) s e →
      comment_at lo r.

Record behind (lo : Z) (r : CommentRanges) : Prop := {
  behind_text : text r = t;
  behind_lo : 0 <= lo;
  behind_pos : lo <= pos r <= text_length t;
  behind_pending : ∀ x, pending r = Some x → comment_at lo x ∧ TextEdits.end_ (loc x) <= pos r;
  behind_live : finished r = false;
}.

Lemma sub_two p : 0 <= p → p + 1 < text_length t → sub t p (p + 2) = [char_of t p; char_of t (p + 1)].
Proof.
  intros Hp Hlt. replace (p + 2) with (p + 1 + 1) by lia. rewrite sub_snoc, sub_one by lia. done.
Qed.

Lemma block_end_first p :
  0 <= p → p + 2 <= text_length t →
  let e := match find_sub (bs "*/") (drop (Z.to_nat (p + 2)) t) with
           | Some offset => p + 2 + Z.of_nat offset + 2
           | None => text_length t
           end in
  p + 2 <= e <= text_length t
  ∧ (first_from (closes t) (p + 4) e ∨ e = text_length t ∧ ∀ q, p + 4 <= q <= text_length t → ¬ closes t q).
Proof.
  intros Hp Hlt e. subst e. set (rest := drop (Z.to_nat (p + 2)) t).
  assert (text_length rest = text_length t - p - 2) as Hrest
    by (unfold text_length in *; subst rest; rewrite length_drop; lia).
  pose proof (find_sub_first (bs "*/") rest) as Hfirst.
  assert (∀ q k, q = p + 2 + Z.of_nat k + 2 → q <= text_length t →
    closes t q ↔ starts_with (bs "*/") (drop k rest) = true) as Hcl.
  { intros q k -> Hq. apply closes_at; lia. }
  destruct (find_sub (bs "*/") rest) as [n|] eqn:E.
  - apply find_sub_Some in E as (a & b & Hab & Hlen).
    assert (length rest = (n + (2 + length b))%nat) as Hl by (rewrite Hab, !length_app, Hlen; done).
    unfold text_length in Hrest. rewrite Hl in Hrest. fold (text_length t) in Hrest. split; [lia|]. left. split_and!; [lia| |].
    + apply (Hcl _ n); [done|lia|]. apply starts_with_true. exists b. rewrite Hab. by rewrite drop_app_length'.
    + intros q Hq. rewrite (Hcl q (Z.to_nat (q - p - 4))) by lia. rewrite Hfirst by lia. done.
  - split; [lia|]. right. split; [done|]. intros q Hq. rewrite (Hcl q (Z.to_nat (q - p - 4))) by lia.
    unfold text_length in *. rewrite Hfirst by lia. done.
Qed.

Lemma comment_end_spec (single : bool) p :
  0 <= p → p + 1 < text_length t → char_of t p = ch "/" →
  char_of t (p + 1) = (if single then ch "/" else ch "*") →
  ∃ e, comment_end t single p = Some (e, single && (e <? text_length t)) ∧ p + 2 <= e <= text_length t
    ∧ range_new p e = MkRange p e
    ∧ comment_span t (if single then SingleLineCommentTrivia else MultiLineCommentTrivia) p e.
Proof.
  intros Hp Hlt Hc Hnext. pose proof (sub_two p Hp Hlt) as Hsub. rewrite Hc, Hnext in Hsub.
  assert (∀ e, p + 2 <= e <= text_length t → range_new p e = MkRange p e) as Hrange.
  { intros e He. unfold range_new. by rewrite !wrap_i32_id by lia. }
  unfold comment_end. destruct single.
  - destruct (skip_line_first t (p + 2)) as (e & He & Hle & Hf); [lia|]. pose proof (proj1 Hf). rewrite He.
    exists e. split_and!; [done|lia|lia|apply Hrange; lia|]. left. by split_and!.
  - rewrite text_tail_some by lia. cbn [mbind option_bind].
    destruct (block_end_first p) as [He Hf]; [lia..|]. eexists. split_and!; [done|apply He|apply He|by apply Hrange|].
    right. by split_and!.
Qed.

Definition handed (lo : Z) (res : option CommentRange * CommentRanges) : Prop :=
  match res.1 with
  | Some x =>
      comment_at lo x ∧ (finished res.2 = true ∨ behind (TextEdits.end_ (loc x)) res.2)
  | None => True
  end.

Lemma finish_handed lo r : behind lo r → handed lo (finish r).
Proof.
  intros [_ _ _ Hpend _]. unfold handed, finish. cbn [fst snd].
  destruct (pending r) as [x|] eqn:E; [|done]. split; [by apply (Hpend x)|by left].
Qed.

Lemma behind_move lo r q : behind lo r → pos r <= q <= text_length t → behind lo (r <| pos := q |>).
Proof.
  intros [Ht Hlo Hpos Hpend Hlive] Hq. split; cbn; try done; [lia|].
  intros x Hx. destruct (Hpend x Hx). split; [done|lia].
Qed.

Lemma behind_mark lo r : behind lo r → behind lo (r <| pending := mark_new_line (pending r) |>).
Proof.
  intros [Ht Hlo Hpos Hpend Hlive]. split; cbn; try done.
  intros x Hx. unfold mark_new_line in Hx. apply fmap_Some in Hx as (y & Hy & ->).
  destruct (Hpend y Hy) as [[s e Hloc Hs He Hkind] Hend]. split; [|done]. by eapply comment_at_intro.
Qed.

Lemma behind_collecting lo r b : behind lo r → behind lo (r <| collecting := b |>).
Proof. by intros []. Qed.

(** What a round leaves: it moves on, or hands out what it found. *)
Definition round_post (lo : Z) (r : CommentRanges)
    (res : CommentRanges + option CommentRange * CommentRanges) : Prop :=
  match res with
  | inl r' => behind lo r' ∧ pos r < pos r'
  | inr res => handed lo res
  end.

Lemma comment_body_spec lo r :
  behind lo r → pos r < text_length t → char_of t (pos r) = ch "/" →
  ∃ res, comment_body r = Some res ∧ round_post lo r res.
Proof.
  intros Hr Hlt Hc. pose proof Hr as [Ht Hlo Hpos Hpend Hlive]. unfold comment_body. rewrite Ht.
  assert (∀ c, 0 < c → (default 0 (text_at t (pos r + 1)) =? c) = (char_of t (pos r + 1) =? c)) as Hnext.
  { intros c Hc0. unfold char_of. destruct (Z.ltb_spec (pos r + 1) (text_length t)).
    - destruct (text_at_some t (pos r + 1)) as [b ->]; [lia|]. done.
    - unfold text_at, text_length in *. destruct (Z.ltb_spec (pos r + 1) 0); [lia|].
      rewrite lookup_ge_None_2 by lia. change (default 0 None) with 0. lia. }
  rewrite !Hnext by by vm_compute.
  destruct (negb (char_of t (pos r + 1) =? ch "/") && _) eqn:E.
  { eexists. split; [done|]. by apply finish_handed. }
  assert (char_of t (pos r + 1) = if char_of t (pos r + 1) =? ch "/" then ch "/" else ch "*") as Hsingle.
  { destruct (Z.eqb_spec (char_of t (pos r + 1)) (ch "/")); [done|]. cbn [negb andb] in E.
    by apply negb_false_iff, Z.eqb_eq in E. }
  assert (pos r + 1 < text_length t) as Hlt'.
  { apply (char_of_inside t (pos r + 1) _ Hsingle). by destruct (_ =? _). }
  destruct (comment_end_spec (char_of t (pos r + 1) =? ch "/") (pos r)) as (e & He & Hle & Hrange & Hspan);
    [lia|done|done|done|].
  rewrite He. cbn [mbind option_bind].
  destruct (collecting r).
  - eexists. split; [done|]. set (moved := _ <| pending := Some _ |>).
    assert (∀ lo', 0 <= lo' <= pos r → behind lo' moved) as Hmoved.
    { intros lo' Hlo'. split; cbn; try done; [lia..|]. intros x [= <-].
      rewrite Hrange. split; [|cbn; lia]. apply (comment_at_intro _ _ (pos r) e); [done|lia|lia|done]. }
    destruct (pending r) as [old|] eqn:Eold; cbn [round_post].
    + destruct (Hpend old eq_refl) as [Hold Hend]. split; [done|]. right. apply Hmoved.
      destruct Hold as [s e' Hloc Hs He' _]. rewrite Hloc in *. cbn in *. lia.
    + split; [apply Hmoved; lia|cbn; lia].
  - eexists. split; [done|]. cbn [round_post]. split; [|cbn; lia]. apply behind_move; [done|lia].
Qed.

Lemma next_body_spec lo r :
  behind lo r → ∃ res, next_body r = Some res ∧ round_post lo r res.
Proof.
  intros Hr. pose proof Hr as [Ht Hlo Hpos Hpend Hlive]. unfold next_body. rewrite Ht.
  assert (round_post lo r (inr (finish r))) as Hfin by by apply finish_handed.
  destruct (Z.leb_spec 0 (pos r)), (Z.ltb_spec (pos r) (text_length t)); cbn [andb]; try by eexists.
  pose proof (decode_at_size t (pos r) ltac:(lia)) as Hsize.
  pose proof (decode_at_cases t (pos r) t_bytes ltac:(lia)) as Hcase.
  rewrite decode_text_some by lia. cbn [mbind option_bind].
  destruct (decode_at t (pos r)) as [c width]. cbn [fst snd] in *.
  assert (c < 128 → c = char_of t (pos r)) as Hascii.
  { destruct Hcase as [(_ & Heq)|(_ & Hc & _)]; [by injection Heq|lia]. }
  assert (∀ r' q, behind lo r' → pos r' = pos r → pos r < q <= text_length t →
    round_post lo r (inl (r' <| pos := q |>))) as Hgo.
  { intros r' q Hr' Heq Hq. split; [apply behind_move; [done|lia]|cbn; lia]. }
  clear Hcase. destruct ((c =? 10) || (c =? 13)).
  { destruct (after_line_break_some t c (pos r)) as (q & Hq & Hle); [lia|]. rewrite Hq.
    eexists. split; [done|]. change (trailing (r <| pos := q |>)) with (trailing r).
    destruct (trailing r); [by apply finish_handed, behind_move; [|lia]|].
    assert (pos r <= q <= text_length t) as Hq' by lia. split; [|cbn; lia].
    exact (behind_mark _ _ (behind_collecting _ _ true (behind_move _ _ q Hr Hq'))). }
  destruct (_ || (c =? ch " ")); [eexists; split; [done|]; by apply Hgo; [| |lia]|].
  destruct (Z.eqb_spec c (ch "/")) as [->|].
  { apply comment_body_spec; [done|done|]. symmetry. apply Hascii. by vm_compute. }
  destruct (_ && _); [|by eexists]. eexists. split; [done|].
  destruct (is_line_break c); apply Hgo; try done; try lia. by apply behind_mark.
Qed.

Lemma start_ranges_spec lo r :
  behind lo r → ∃ r', start_ranges r = Some r' ∧ behind lo r'.
Proof.
  intros Hr. pose proof Hr as [Ht Hlo Hpos Hpend Hlive]. unfold start_ranges.
  destruct (started r); [by eexists|]. change (pos (r <| started := true |>)) with (pos r).
  change (text (r <| started := true |>)) with (text r). rewrite Ht. cbv zeta. destruct (Z.eqb_spec (pos r) 0) as [Hz|].
  - destruct (is_shebang_trivia_some t) as (b & Hb & Hlen). rewrite Hb. cbn [mbind option_bind].
    assert (∃ q, (if b then scan_shebang_trivia t 0 else Some (pos r)) = Some q
      ∧ pos r <= q <= text_length t) as (q & Hq & Hle).
    { destruct b; [|exists (pos r); split; [done|lia]]. specialize (Hlen eq_refl).
      unfold scan_shebang_trivia. rewrite wrap_i64_id by lia.
      destruct (skip_line_spec t (0 + 2)) as (q & Hq & Hle & _); [lia|]. exists q. split; [done|lia]. }
    rewrite Hq. eexists. split; [done|]. split; cbn; try done; [lia|].
    intros x Hx. destruct (Hpend x Hx). split; [done|lia].
  - eexists. split; [done|]. by split.
Qed.

Lemma next_spec lo r : behind lo r → ∃ res, next r = Some res ∧ handed lo res.
Proof.
  intros Hr. unfold next. rewrite (behind_live _ _ Hr).
  destruct (start_ranges_spec lo r Hr) as (r' & -> & Hr'). cbn [mbind option_bind]. unfold while_text.
  rewrite (behind_text _ _ Hr').
  apply (while_total next_body (behind lo) (λ r, text_length t - pos r)); [|done|].
  - intros r1 Hr1. pose proof (behind_pos _ _ Hr1). split; [lia|].
    destruct (next_body_spec lo r1 Hr1) as (res & Hres & Hpost). exists res. split; [done|].
    destruct res; [|done]. destruct Hpost as [? ?]. split; [done|lia].
  - pose proof (behind_pos _ _ Hr'). pose proof (behind_lo _ _ Hr'). unfold text_length in *. lia.
Qed.

Lemma next_finished r : finished r = true → next r = Some (None, r).
Proof. unfold next. by intros ->. Qed.

Lemma collect_spec fuel : ∀ lo r,
  behind lo r → text_length t - lo + 1 < Z.of_nat fuel →
  ∃ rs, collect fuel r = Some rs ∧ Forall (comment_at lo) rs
    ∧ StronglySorted (λ a b, TextEdits.end_ (loc a) <= TextEdits.pos (loc b)) rs.
Proof.
  induction fuel as [|fuel IH]; intros lo r Hr Hfuel.
  { pose proof (behind_pos _ _ Hr). lia. }
  destruct (next_spec lo r Hr) as ([[x|] r'] & Hnext & Hpost); cbn [collect]; rewrite Hnext;
    cbn [mbind option_bind]; [|exists []; by repeat constructor].
  destruct Hpost as [Hx Hrest]. cbn [fst snd] in *.
  assert (∃ s e, loc x = MkRange s e ∧ lo <= s ∧ s + 2 <= e <= text_length t) as (s & e & Hloc & Hs & He).
  { destruct Hx as [s e]. by exists s, e. }
  rewrite Hloc in Hrest. cbn [TextEdits.end_] in Hrest.
  assert (∃ rs, collect fuel r' = Some rs ∧ Forall (comment_at e) rs
    ∧ StronglySorted (λ a b, TextEdits.end_ (loc a) <= TextEdits.pos (loc b)) rs)
    as (rs & Hrs & Hall & Hsorted).
  { destruct Hrest as [Hfin|Hr']; [|apply IH; [done|lia]].
    destruct fuel as [|fuel]; [pose proof (behind_lo _ _ Hr); lia|]. cbn [collect].
    rewrite next_finished by done. exists []. by repeat constructor. }
  rewrite Hrs. cbn [mbind option_bind]. eexists. split; [done|]. split.
  - constructor; [done|]. apply (Forall_impl _ _ _ Hall). intros y [s' e' Hl Hs' He' Hk].
    eapply comment_at_intro; [done|lia|done|done].
  - constructor; [done|]. apply (Forall_impl _ _ _ Hall). intros y [s' e' Hl Hs' He' Hk].
    rewrite Hloc, Hl. done.
Qed.

(** ** All comments

    What stands at a position where comments are looked for. *)

Definition blank (c : Z) : bool :=
  (c =? 9) || (c =? 11) || (c =? 12) || (c =? ch " ") || (127 <? c) && is_white_space_like c.

(** A line feed or a carriage return; one that a line feed follows goes with it. *)
Definition line_end (p q : Z) : Prop :=
  char_of t p = 10 ∧ q = p + 1
  ∨ char_of t p = 13 ∧ q = if char_of t (p + 1) =? 10 then p + 2 else p + 1.

Definition opens_comment (p : Z) : Prop :=
  char_of t p = ch "/" ∧ (char_of t (p + 1) = ch "/" ∨ char_of t (p + 1) = ch "*").

(** [trivia trailing collecting p broken rs]: the white space and the comments from [p] on
    have the comments [rs], and [broken] says that a line break stands before the first of
    them, or before the end if there is none. What trails a token ends with its line; what
    leads it begins with its line. *)
Inductive trivia (trailing : bool) : bool → Z → bool → list CommentRange → Prop :=
  | trivia_end collecting p :
      (p < text_length t → ¬ opens_comment p ∧ blank (decode_at t p).1 = false
         ∧ char_of t p ≠ 10 ∧ char_of t p ≠ 13) →
      trivia trailing collecting p false []
  | trivia_line_over collecting p q : trailing = true → line_end p q → trivia trailing collecting p false []
  | trivia_line collecting p q broken rs :
      trailing = false → line_end p q → trivia trailing true q broken rs →
      trivia trailing collecting p true rs
  | trivia_blank collecting p broken rs :
      p < text_length t → blank (decode_at t p).1 = true →
      trivia trailing collecting (p + (decode_at t p).2) broken rs →
      trivia trailing collecting p (is_line_break (decode_at t p).1 || broken) rs
  | trivia_passed p k e broken rs :
      comment_span t k p e → trivia trailing false e broken rs → trivia trailing false p broken rs
  | trivia_comment p k e broken rs :
      comment_span t k p e → trivia trailing true e broken rs →
      trivia trailing true p false
        (MkCommentRange (MkRange p e) k
           (kind_eqb k SingleLineCommentTrivia && (e <? text_length t) || broken) :: rs).

(** Where the trivia begin: what leads the first token begins behind a shebang, and there
    comments are taken at once. *)
Definition trivia_from (p : Z) (trailing collecting : bool) (q : Z) : Prop :=
  p ≠ 0 ∧ collecting = trailing ∧ q = p
  ∨ p = 0 ∧ collecting = true
    ∧ if starts_with (bs "#!") t then first_from (line_ends t) 2 q else q = 0.

(** The pending comment comes first, with the line breaks that follow it. *)
Definition resolve (pending : option CommentRange) (broken : bool) (rs : list CommentRange) : list CommentRange :=
  match pending with
  | Some x => MkCommentRange (loc x) (kind x) (has_trailing_new_line x || broken) :: rs
  | None => rs
  end.

(** What is still to come from a state. *)
Definition yields (r : CommentRanges) (rs : list CommentRange) : Prop :=
  if finished r then rs = []
  else ∃ broken rs', trivia (trailing r) (collecting r) (pos r) broken rs' ∧ rs = resolve (pending r) broken rs'.

Definition leads (r : CommentRanges) (res : option CommentRange * CommentRanges) : Prop :=
  match res.1 with
  | Some x => started res.2 = true ∧ ∀ rs, yields res.2 rs → yields r (x :: rs)
  | None => yields r []
  end.

Lemma resolve_mark x broken rs : resolve (mark_new_line x) broken rs = resolve x true rs.
Proof. destruct x; cbn; [|done]. by rewrite orb_true_r. Qed.

Lemma finish_leads r :
  started r = true → finished r = false → trivia (trailing r) (collecting r) (pos r) false [] → leads r (finish r).
Proof.
  intros Hs Hf Ht. unfold leads, finish. cbn [fst snd]. destruct (pending r) as [[l k b]|] eqn:E.
  - split; [done|]. intros rs Hrs. unfold yields in *. cbn in Hrs. subst. rewrite Hf, E.
    exists false, []. split; [done|]. cbn. by rewrite orb_false_r.
  - unfold yields. rewrite Hf, E. by exists false, [].
Qed.

(** What a round does. *)
Definition round_leads (r : CommentRanges) (res : CommentRanges + option CommentRange * CommentRanges) : Prop :=
  match res with
  | inl r' => started r' = true ∧ ∀ rs, yields r' rs → yields r rs
  | inr res => leads r res
  end.

Lemma yields_live r rs :
  finished r = false → yields r rs →
  ∃ broken rs', trivia (trailing r) (collecting r) (pos r) broken rs' ∧ rs = resolve (pending r) broken rs'.
Proof. unfold yields. by intros ->. Qed.

Lemma live_yields r broken rs :
  finished r = false → trivia (trailing r) (collecting r) (pos r) broken rs →
  yields r (resolve (pending r) broken rs).
Proof. unfold yields. intros ->. eauto. Qed.

Lemma next_char_eqb p c : 0 <= p → 0 < c → (default 0 (text_at t p) =? c) = (char_of t p =? c).
Proof.
  intros Hp Hc. unfold char_of. destruct (Z.ltb_spec p (text_length t)).
  - by destruct (text_at_some t p) as [b ->].
  - unfold text_at, text_length in *. destruct (Z.ltb_spec p 0); [lia|].
    rewrite lookup_ge_None_2 by lia. change (default 0 None) with 0. lia.
Qed.

Lemma comment_body_leads lo r res :
  behind lo r → started r = true → pos r < text_length t → char_of t (pos r) = ch "/" →
  (decode_at t (pos r)).1 = ch "/" → comment_body r = Some res → round_leads r res.
Proof.
  intros Hr Hs Hlt Hc Hd. pose proof Hr as [Ht Hlo Hpos _ Hlive]. unfold comment_body. rewrite Ht.
  rewrite !next_char_eqb by (lia || by vm_compute). set (next := char_of t (pos r + 1)).
  destruct (negb (next =? ch "/") && _) eqn:E.
  { intros [= <-]. apply finish_leads; [done|done|]. apply trivia_end. intros _. rewrite Hc, Hd.
    split_and!; [|done..]. intros [_ Ho]. fold next in Ho. lia. }
  assert (next = if next =? ch "/" then ch "/" else ch "*") as Hsingle by (destruct (Z.eqb_spec next (ch "/")); lia).
  assert (pos r + 1 < text_length t) as Hlt'.
  { apply (char_of_inside t (pos r + 1) _ Hsingle). by destruct (_ =? _). }
  destruct (comment_end_spec (next =? ch "/") (pos r)) as (e & -> & Hle & Hrange & Hspan); [lia|done|done|done|].
  cbn [mbind option_bind]. set (k := if next =? ch "/" then SingleLineCommentTrivia else MultiLineCommentTrivia) in *.
  assert (kind_eqb k SingleLineCommentTrivia = (next =? ch "/")) as Hk by (subst k; by destruct (next =? ch "/")).
  destruct (collecting r) eqn:Ecol.
  - rewrite Hrange. set (moved := _ <| pending := Some _ |>). intros [= <-].
    assert (∀ rs, yields moved rs → ∃ rs', trivia (trailing r) true (pos r) false rs' ∧ rs = rs') as Hmoved.
    { intros rs (broken & rs' & Htr & ->)%yields_live; [|done]. cbn in Htr. rewrite Ecol in Htr.
      eexists. split; [by eapply trivia_comment|]. cbn. by rewrite Hk. }
    destruct (pending r) as [[l k' b]|] eqn:Eold; cbn [round_leads]; unfold leads; cbn [fst snd];
      (split; [done|]); intros rs (rs' & Htr & ->)%Hmoved; rewrite <-Ecol in Htr.
    + pose proof (live_yields r _ _ Hlive Htr) as Hy. rewrite Eold in Hy. cbn in Hy. by rewrite orb_false_r in Hy.
    + pose proof (live_yields r _ _ Hlive Htr) as Hy. by rewrite Eold in Hy.
  - intros [= <-]. split; [done|]. intros rs (broken & rs' & Htr & ->)%yields_live; [|done]. cbn in Htr.
    rewrite Ecol in Htr. apply (live_yields r); [done|]. rewrite Ecol. by eapply trivia_passed.
Qed.

Lemma after_line_break_line_end p q :
  0 <= p < text_length t → char_of t p = 10 ∨ char_of t p = 13 →
  after_line_break t (char_of t p) p = Some q → line_end p q.
Proof.
  intros Hp Hc. unfold after_line_break, line_end. destruct Hc as [-> | ->].
  - intros [= <-]. by left.
  - change (13 =? 13) with true. cbn [andb]. destruct (Z.ltb_spec (p + 1) (text_length t)).
    + rewrite char_of_at by lia. cbn [mbind option_bind]. destruct (char_of t (p + 1) =? 10); intros [= <-]; by right.
    + intros [= <-]. right. split; [done|]. unfold char_of. by destruct (Z.ltb_spec (p + 1) (text_length t)); [lia|].
Qed.

Lemma next_body_leads lo r res :
  behind lo r → started r = true → next_body r = Some res → round_leads r res.
Proof.
  intros Hr Hs. pose proof Hr as [Ht Hlo Hpos _ Hlive]. unfold next_body. rewrite Ht.
  destruct (Z.leb_spec 0 (pos r)); [|lia]. destruct (Z.ltb_spec (pos r) (text_length t)) as [Hlt|]; cbn [andb].
  2: { intros [= <-]. apply finish_leads; [done|done|]. apply trivia_end. lia. }
  pose proof (decode_at_cases t (pos r) t_bytes ltac:(lia)) as Hcase.
  rewrite decode_text_some by lia. cbn [mbind option_bind].
  destruct (decode_at t (pos r)) as [c width] eqn:Ed.
  assert (∀ c', 0 <= c' < 128 → c = c' ↔ char_of t (pos r) = c') as Hascii.
  { intros c' Hc'. cbn in Hcase. destruct Hcase as [(_ & [= -> _])|(? & ? & _)]; [done|lia]. }
  destruct ((c =? 10) || (c =? 13)) eqn:Eline.
  { assert (char_of t (pos r) = 10 ∨ char_of t (pos r) = 13) as Hchar.
    { apply orb_true_iff in Eline as [->%Z.eqb_eq| ->%Z.eqb_eq]; [left|right]; (apply Hascii; [lia|done]). }
    assert (c = char_of t (pos r)) as -> by (destruct Hchar as [H1|H1]; rewrite H1; apply Hascii; (lia || done)).
    destruct (after_line_break t _ _) as [q|] eqn:Eq; cbn [mbind option_bind]; [|done].
    pose proof (after_line_break_line_end (pos r) q ltac:(lia) Hchar Eq) as Hend.
    change (trailing (r <| pos := q |>)) with (trailing r). destruct (trailing r) eqn:Etr; intros [= <-].
    - assert (trivia (trailing r) (collecting r) (pos r) false []) as Htr by (rewrite Etr; by eapply trivia_line_over).
      exact (finish_leads r Hs Hlive Htr).
    - split; [done|]. intros rs (broken & rs' & Htr & ->)%yields_live; [|done]. cbn in Htr. rewrite Etr in Htr.
      cbn [pending]. cbn. rewrite resolve_mark. apply (live_yields r); [done|]. rewrite Etr. by eapply trivia_line. }
  assert (∀ rs r', blank c = true → finished r' = false → trailing r' = trailing r → collecting r' = collecting r →
    pos r' = pos r + width → pending r' = (if is_line_break c then mark_new_line (pending r) else pending r) →
    yields r' rs → yields r rs) as Hblank.
  { intros rs r' Hb Hf' E1 E2 E3 E4 (broken & rs' & Htr & ->)%yields_live; [|done].
    rewrite E1, E2, E3 in Htr.
    assert (trivia (trailing r) (collecting r) (pos r) (is_line_break c || broken) rs') as Htr'.
    { pose proof (trivia_blank (trailing r) (collecting r) (pos r) broken rs') as Hc. rewrite Ed in Hc. by apply Hc. }
    pose proof (live_yields r _ _ Hlive Htr') as Hy. rewrite E4. by destruct (is_line_break c); [rewrite resolve_mark|]. }
  destruct (_ || (c =? ch " ")) eqn:Esp.
  { intros [= <-]. assert (blank c = true) as Hb by (unfold blank; by rewrite Esp).
    change (ch " ") with 32 in Esp. assert (c < 128) as Hsmall by lia.
    assert (width = 1) as -> by (cbn in Hcase; destruct Hcase as [(_ & [= _ ->])|(_ & ? & _)]; [done|lia]).
    split; [done|]. intros rs. apply (Hblank rs _ Hb); try done.
    replace (is_line_break c) with false; [done|]. unfold is_line_break. lia. }
  destruct (Z.eqb_spec c (ch "/")) as [Hslash|Hslash].
  { apply (comment_body_leads lo); [done|done|done| |by rewrite Ed]. by apply (Hascii (ch "/")). }
  destruct ((127 <? c) && is_white_space_like c) eqn:Ewide; intros [= <-].
  - assert (blank c = true) as Hb by (unfold blank; rewrite Ewide; apply orb_true_r).
    split; [by destruct (is_line_break c)|]. intros rs. apply (Hblank rs _ Hb); by destruct (is_line_break c).
  - apply finish_leads; [done|done|]. apply trivia_end. intros _. rewrite Ed. cbn [fst].
    assert (∀ c', 0 <= c' < 128 → c ≠ c' → char_of t (pos r) ≠ c') as Hne by (intros c' Hc' Hn Heq; by apply Hn, Hascii).
    split_and!; [intros [Ho _]; revert Ho; by apply Hne| |apply Hne; lia|apply Hne; lia].
    unfold blank. by rewrite Esp, Ewide.
Qed.

Lemma while_leads lo fuel r res :
  behind lo r → started r = true → while fuel next_body r = Some res → leads r res.
Proof.
  revert r. induction fuel as [|fuel IH]; intros r Hr Hs; cbn [while]; [done|].
  destruct (next_body_spec lo r Hr) as (res1 & Hres & Hpost). rewrite Hres. cbn [mbind option_bind].
  pose proof (next_body_leads lo r res1 Hr Hs Hres) as Hround.
  destruct res1 as [r'|res1]; [|by intros [= <-]]. destruct Hpost as [Hr' _], Hround as [Hs' Hy]. intros Hw.
  specialize (IH r' Hr' Hs' Hw). unfold leads in *. destruct res.1; [|by apply Hy].
  destruct IH as [? Hx]. split; [done|]. intros rs Hrs. by apply Hy, Hx.
Qed.

(** A started iterator hands out the comments of the trivia before it. *)
Lemma collect_yields fuel : ∀ lo r rs,
  behind lo r → started r = true → collect fuel r = Some rs → yields r rs.
Proof.
  induction fuel as [|fuel IH]; intros lo r rs Hr Hs; cbn [collect]; [done|].
  destruct (next_spec lo r Hr) as ([x r'] & Hnext & Hpost). rewrite Hnext. cbn [mbind option_bind].
  assert (leads r (x, r')) as Hleads.
  { unfold next in Hnext. rewrite (behind_live _ _ Hr) in Hnext. unfold start_ranges in Hnext. rewrite Hs in Hnext.
    by eapply while_leads. }
  unfold leads in Hleads. cbn [fst snd] in *. destruct x as [x|]; [|by intros [= <-]].
  destruct Hleads as [Hs' Hy]. destruct (collect fuel r') as [rest|] eqn:Ec; cbn [mbind option_bind]; [|done].
  intros [= <-]. apply Hy. destruct Hpost as [_ [Hfin|Hr']]; [|by eapply IH].
  cbn in Hfin. unfold yields. rewrite Hfin. destruct fuel as [|fuel]; [done|]. cbn [collect] in Ec.
  rewrite next_finished in Ec by done. by injection Ec as <-.
Qed.

Lemma shebang_from trailing r :
  0 <= 0 <= text_length t → iterate_comment_ranges t 0 trailing = r →
  ∃ r', start_ranges r = Some r' ∧ trivia_from 0 trailing (collecting r') (pos r').
Proof.
  intros Hl <-. unfold start_ranges, trivia_from. cbn -[bs starts_with scan_shebang_trivia is_shebang_trivia].
  unfold is_shebang_trivia. cbn -[bs starts_with scan_shebang_trivia].
  assert (∀ (r' : CommentRanges) (P : Prop), collecting r' = true → P →
    0 ≠ 0 ∧ collecting r' = trailing ∧ pos r' = 0 ∨ 0 = 0 ∧ collecting r' = true ∧ P) as Hright by (intros; by right).
  destruct (Z.ltb_spec (text_length t) 2) as [Hlt|Hge]; cbn [mbind option_bind].
  - eexists. split; [done|]. apply Hright; [done|].
    destruct (starts_with (bs "#!") t) eqn:E; [|done]. exfalso. apply starts_with_true in E as [rest Hrest].
    unfold text_length in Hlt. rewrite Hrest, length_app in Hlt. cbn in Hlt. lia.
  - destruct (starts_with (bs "#!") t) eqn:E; cbn [mbind option_bind].
    + unfold scan_shebang_trivia. rewrite wrap_i64_id by lia.
      destruct (skip_line_first t (0 + 2)) as (q & -> & _ & Hq); [lia|]. eexists. split; [done|]. by apply Hright.
    + eexists. split; [done|]. by apply Hright.
Qed.

Lemma start_from p trailing :
  0 <= p <= text_length t →
  ∃ r, start_ranges (iterate_comment_ranges t p trailing) = Some r ∧ behind p r
    ∧ trivia_from p trailing (collecting r) (pos r)
    ∧ started r = true ∧ Ranges.trailing r = trailing ∧ pending r = None.
Proof.
  intros Hp. destruct (start_ranges_spec p (iterate_comment_ranges t p trailing)) as (r & Hr & Hb).
  { split; cbn; try done; lia. }
  assert (started r = true ∧ Ranges.trailing r = trailing ∧ pending r = None) as Hrest.
  { unfold start_ranges in Hr. cbn in Hr. destruct (p =? 0); [|by injection Hr as <-].
    destruct (is_shebang_trivia t 0) as [b|]; [|done]. cbn in Hr. destruct (if b then _ else _); [|done].
    by injection Hr as <-. }
  exists r. split; [done|]. split; [done|]. split; [|done]. destruct (decide (p = 0)) as [->|Hne].
  - destruct (shebang_from trailing _ Hp eq_refl) as (r' & Hr' & Hfrom). congruence.
  - unfold start_ranges in Hr. cbn in Hr. destruct (Z.eqb_spec p 0); [done|]. injection Hr as <-. by left.
Qed.

(** The first call of [next] starts the iterator. *)
Lemma collect_started fuel r r' :
  finished r = false → finished r' = false → start_ranges r = Some r' → started r' = true →
  collect fuel r = collect fuel r'.
Proof.
  intros Hf Hf' Hr Hs. destruct fuel as [|fuel]; [done|]. cbn [collect]. unfold next.
  rewrite Hf, Hf', Hr. unfold start_ranges. by rewrite Hs.
Qed.
End Spec.

(** [C39] The comments before or behind a position. The iterator never panics and ends, and
    it hands out exactly the comments of the white space and comments that stand there, in
    order: from the position on (behind a shebang at the start of the text) up to the first
    character that is neither, for those behind a token up to the end of its line; those
    before a token begin with its line, or at the start of the text. A line comment reaches
    to the first line break or the end of the text, another to the first closing behind its
    opening or the end of the text. A comment is marked if a line break stands between it
    and the next one or the end. They lie in the text, not before the position, and do not
    overlap. *)
Theorem comment_ranges_ordered t p trailing :
  all_bytes t → text_length t <= I32_MAX → 0 <= p <= text_length t →
  ∃ rs, comment_ranges t p trailing = Some rs
    ∧ (∃ collecting q broken, trivia_from t p trailing collecting q ∧ trivia t trailing collecting q broken rs)
    ∧ Forall (comment_at t p) rs
    ∧ StronglySorted (λ a b, TextEdits.end_ (loc a) <= TextEdits.pos (loc b)) rs.
Proof.
  intros Hb Hfit Hp. unfold comment_ranges.
  destruct (collect_spec t Hb Hfit (S (S (length t))) p (iterate_comment_ranges t p trailing))
    as (rs & Hrs & Hall & Hsorted); [split; cbn; try done; lia|unfold text_length in *; lia|].
  exists rs. split_and!; [done| |done|done].
  destruct (start_from t p trailing Hp) as (r & Hr & Hbehind & Hfrom & Hs & Htr & Hpend).
  pose proof (behind_live _ _ _ Hbehind) as Hlive.
  rewrite (collect_started _ _ r) in Hrs by done.
  pose proof (collect_yields t Hb Hfit _ _ _ _ Hbehind Hs Hrs) as (broken & rs' & Ht & ->)%yields_live; [|done].
  rewrite Hpend, Htr in *. by exists (collecting r), (pos r), broken.
Qed.

Lemma comment_ranges_ordered_witness :
  let t := bs " /*a*/ //b" in
  (all_bytes t ∧ text_length t <= I32_MAX ∧ 0 <= 0 <= text_length t)
  ∧ (length <$> comment_ranges t 0 false = Some 2%nat)
  ∧ ∃ rs, comment_ranges t 0 false = Some rs
    ∧ (∃ collecting q broken, trivia_from t 0 false collecting q ∧ trivia t false collecting q broken rs)
    ∧ Forall (comment_at t 0) rs
    ∧ StronglySorted (λ a b, TextEdits.end_ (loc a) <= TextEdits.pos (loc b)) rs.
Proof.
  assert (all_bytes (bs " /*a*/ //b")) by apply bs_all_bytes.
  split; [split_and!; [done|by vm_compute|done|by vm_compute]|]. split; [by vm_compute|].
  apply comment_ranges_ordered; [done|by vm_compute|split; by vm_compute].
Defined.
End Ranges.
