(* ===== verification/ScannerScan.v ===== *)
(** The scanner's main entry, [Scanner.scan]: [crates/tsr_scanner/src/scan.rs]. *)

From stdpp Require Import gmap.
From S2P Require Import Prelude Wtf8 TextEdits BigInt ScannerKinds ScannerState.
From S2P Require Import ScannerDigits ScannerEscape ScannerLexemes.
From S2P Require Import ScannerWp ScannerTrivia.

Local Open Scope Z_scope.

(** ** Tags of JSDoc comments *)

Definition ends_jsdoc_tag (b : Z) : bool :=
  (b =? ch " ") || (b =? 9) || (b =? 10) || (b =? 13) || (b =? ch "}") || (b =? ch "*").

Definition has_jsdoc_tag (text : bytes) (tags : list bytes) : bool :=
  existsb (λ tag, match strip_prefix tag text with
                  | Some [] => true
                  | Some (b :: _) => ends_jsdoc_tag b
                  | None => false end) tags.

Definition see_or_link : list bytes := [bs "see"; bs "link"; bs "linkcode"; bs "linkplain"].

(** The flags after looking at the tag that begins with [text]. *)
Definition jsdoc_tag_flags (text : bytes) (flags : Z) : Z :=
  let flags :=
    if negb (has_flag flags PRECEDING_JSDOC_WITH_DEPRECATED) && has_jsdoc_tag text [bs "deprecated"]
    then Z.lor flags PRECEDING_JSDOC_WITH_DEPRECATED else flags in
  if negb (has_flag flags PRECEDING_JSDOC_WITH_SEE_OR_LINK) && has_jsdoc_tag text see_or_link
  then Z.lor flags PRECEDING_JSDOC_WITH_SEE_OR_LINK else flags.

(** From one at sign to the next, until both kinds of tag have been seen. *)
Fixpoint jsdoc_flags (text : bytes) (flags : Z) : Z :=
  match text with
  | [] => flags
  | b :: text =>
      if b =? ch "@" then
        let flags := jsdoc_tag_flags text flags in
        let both := Z.lor PRECEDING_JSDOC_WITH_DEPRECATED PRECEDING_JSDOC_WITH_SEE_OR_LINK in
        if Z.land flags both =? both then flags else jsdoc_flags text flags
      else jsdoc_flags text flags
  end.

(** ** Punctuation *)

(** The operator that begins with [byte] and its width, given the two characters
    behind it; the bytes the dispatch does not send here panic. *)
Definition operator (jsx : bool) (byte next third : Z) : option (SyntaxKind * Z) :=
  let equals := next =? ch "=" in
  if byte =? ch "!" then
    Some (if equals then
            if third =? ch "=" then (ExclamationEqualsEqualsToken, 3) else (ExclamationEqualsToken, 2)
          else (ExclamationToken, 1))
  else if byte =? ch "%" then
    Some (if equals then (PercentEqualsToken, 2) else (PercentToken, 1))
  else if byte =? ch "^" then
    Some (if equals then (CaretEqualsToken, 2) else (CaretToken, 1))
  else if byte =? ch "+" then
    Some (if equals then (PlusEqualsToken, 2)
          else if next =? ch "+" then (PlusPlusToken, 2) else (PlusToken, 1))
  else if byte =? ch "-" then
    Some (if equals then (MinusEqualsToken, 2)
          else if next =? ch "-" then (MinusMinusToken, 2) else (MinusToken, 1))
  else if byte =? ch "*" then
    Some (if equals then (AsteriskEqualsToken, 2)
          else if next =? ch "*" then
            if third =? ch "=" then (AsteriskAsteriskEqualsToken, 3) else (AsteriskAsteriskToken, 2)
          else (AsteriskToken, 1))
  else if byte =? ch "&" then
    Some (if next =? ch "&" then
            if third =? ch "=" then (AmpersandAmpersandEqualsToken, 3)
            else (AmpersandAmpersandToken, 2)
          else if equals then (AmpersandEqualsToken, 2) else (AmpersandToken, 1))
  else if byte =? ch "|" then
    Some (if next =? ch "|" then
            if third =? ch "=" then (BarBarEqualsToken, 3) else (BarBarToken, 2)
          else if equals then (BarEqualsToken, 2) else (BarToken, 1))
  else if byte =? ch "?" then
    Some (if (next =? ch ".") && negb (is_digit third) then (QuestionDotToken, 2)
          else if next =? ch "?" then
            if third =? ch "=" then (QuestionQuestionEqualsToken, 3) else (QuestionQuestionToken, 2)
          else (QuestionToken, 1))
  else if byte =? ch "<" then
    Some (if next =? ch "<" then
            if third =? ch "=" then (LessThanLessThanEqualsToken, 3) else (LessThanLessThanToken, 2)
          else if equals then (LessThanEqualsToken, 2)
          else if jsx && (next =? ch "/") && negb (third =? ch "*") then (LessThanSlashToken, 2)
          else (LessThanToken, 1))
  else if byte =? ch "=" then
    Some (if equals then
            if third =? ch "=" then (EqualsEqualsEqualsToken, 3) else (EqualsEqualsToken, 2)
          else if next =? ch ">" then (EqualsGreaterThanToken, 2) else (EqualsToken, 1))
  else if byte =? ch ">" then Some (GreaterThanToken, 1)
  else if byte =? ch "(" then Some (OpenParenToken, 1)
  else if byte =? ch ")" then Some (CloseParenToken, 1)
  else if byte =? ch "," then Some (CommaToken, 1)
  else if byte =? ch ":" then Some (ColonToken, 1)
  else if byte =? ch ";" then Some (SemicolonToken, 1)
  else if byte =? ch "[" then Some (OpenBracketToken, 1)
  else if byte =? ch "]" then Some (CloseBracketToken, 1)
  else if byte =? ch "{" then Some (OpenBraceToken, 1)
  else if byte =? ch "}" then Some (CloseBraceToken, 1)
  else if byte =? ch "~" then Some (TildeToken, 1)
  else if byte =? ch "@" then Some (AtToken, 1)
  else None.

Definition punctuation (byte : Z) : M (SyntaxKind * Z) :=
  next ← char_at 1;
  third ← char_at 2;
  jsx ← gets (λ s, language_variant s =? JSX);
  lift (operator jsx byte next third).

(** ** Tokens *)

Definition take_token (token : SyntaxKind) (width : Z) : M SyntaxKind :=
  advance width;; set_token token;; mret token.

Definition consume_conflict_marker : M unit :=
  p ← get_pos;
  error_at Merge_conflict_marker_encountered p 7 [];;
  text ← get_text;
  q ← lift (scan_conflict_marker_trivia text p);
  set_pos q.

Definition scan_invalid_character : M unit :=
  '(_, size) ← char_and_size;
  p ← get_pos;
  error_at Invalid_character p size [];;
  take_token Unknown size;;
  mret tt.

(** [while pos < end && f(self.text[pos]) { pos += 1 }] *)
Definition skip_while (f : Z → bool) (p end_ : Z) : M Z :=
  if p <? end_ then b ← slice p end_; mret (p + count_while f b) else mret p.

Definition is_blank (b : Z) : bool := (b =? ch " ") || (b =? 9).

Definition process_comment_directive (start end_ : Z) (multiline : bool) : M unit :=
  p ← (if multiline then
         p ← skip_while is_blank start end_;
         skip_while (λ b, (b =? ch "/") || (b =? ch "*")) p end_
       else skip_while (λ b, b =? ch "/") (start + 2) end_);
  p ← skip_while is_blank p end_;
  text ← get_text;
  at_sign ← (if end_ <=? p then mret false else b ← lift (text_at text p); mret (b =? ch "@"));
  if at_sign : bool then
    rest ← tail (p + 1);
    let push kind := modify_state (λ st, st <| comment_directives :=
      comment_directives st ++ [MkDirective (range_new start end_) kind] |>) in
    if starts_with (bs "ts-expect-error") rest then push ExpectError
    else if starts_with (bs "ts-ignore") rest then push IgnoreDirective
    else mret tt
  else mret tt.

Definition scan_jsdoc_comment_for_tags (text : bytes) : M unit :=
  flags ← get_flags; set_flags (jsdoc_flags text flags).

Section Scan.
Context `{JsNum, NumBigint, IdentifierTables}.

(** ** The arms of the dispatch

    An arm that yields no token ([continue]) is [inl]. *)

Definition token_of (m : M SyntaxKind) : M (unit + SyntaxKind) := k ← m; mret (inr k).
Definition skipped : M (unit + SyntaxKind) := mret (inl tt).

(** Past white space of one line. *)
Definition white_space_body (st : unit) : M (unit + unit) :=
  '(rune, size) ← char_and_size;
  if negb (is_white_space_single_line rune) then mret (inr tt) else advance size;; mret (inl tt).

(** To the end of the line of a shebang. *)
Definition shebang_body (st : unit) : M (unit + unit) :=
  '(rune, size) ← char_and_size;
  if (size =? 0) || is_line_break rune then mret (inr tt) else advance size;; mret (inl tt).

(** To the end of the line of a comment, ASCII in runs. *)
Definition line_comment_body (st : unit) : M (unit + unit) :=
  scan_ascii_while (λ b, negb (b =? 10) && negb (b =? 13));;
  shebang_body st.

(** Through a block comment: where its last line starts; whether it is closed. *)
Definition block_comment_body (last_line_start : Z) : M (Z + Z * bool) :=
  scan_ascii_while (λ b, negb ((b =? ch "*") || (b =? 10) || (b =? 13)));;
  '(rune, size) ← char_and_size;
  if size =? 0 then mret (inr (last_line_start, false))
  else
    c1 ← char_at 1;
    if (rune =? ch "*") && (c1 =? ch "/") then
      advance 2;; mret (inr (last_line_start, true))
    else
      advance size;;
      if is_line_break rune then
        p ← get_pos;
        add_flags PRECEDING_LINE_BREAK;;
        mret (inl p)
      else mret (inl last_line_start).

Definition scan_blank : M (unit + SyntaxKind) :=
  advance 1;;
  skip ← gets skips_trivia;
  if skip : bool then skipped
  else
    loop white_space_body tt;;
    token_of (take_token WhitespaceTrivia 0).

Definition scan_line_break (c : Z) : M (unit + SyntaxKind) :=
  add_flags PRECEDING_LINE_BREAK;;
  skip ← gets skips_trivia;
  if skip : bool then advance 1;; scan_ascii_while is_ascii_blank;; skipped
  else
    c1 ← char_at 1;
    token_of (take_token NewLineTrivia (if (c =? 13) && (c1 =? 10) then 2 else 1)).

Definition scan_line_comment : M (unit + SyntaxKind) :=
  advance 2;;
  loop line_comment_body tt;;
  start ← get_token_start;
  p ← get_pos;
  process_comment_directive start p false;;
  skip ← gets skips_trivia;
  if skip : bool then skipped else token_of (take_token SingleLineCommentTrivia 0).

Definition scan_block_comment : M (unit + SyntaxKind) :=
  advance 2;;
  c ← char;
  c1 ← char_at 1;
  start ← get_token_start;
  '(last_line_start, closed) ← loop block_comment_body start;
  when ((c =? ch "*") && negb (c1 =? ch "/"))
    (add_flags PRECEDING_JSDOC_COMMENT;;
     p ← get_pos;
     text ← slice start p;
     scan_jsdoc_comment_for_tags text);;
  p ← get_pos;
  process_comment_directive last_line_start p true;;
  when (negb closed) (error Asterisk_Slash_expected);;
  skip ← gets skips_trivia;
  if skip : bool then skipped
  else
    when (negb closed) (add_flags UNTERMINATED);;
    token_of (take_token MultiLineCommentTrivia 0).

Definition scan_slash : M (unit + SyntaxKind) :=
  c1 ← char_at 1;
  if c1 =? ch "/" then scan_line_comment
  else if c1 =? ch "*" then scan_block_comment
  else token_of (if c1 =? ch "=" then take_token SlashEqualsToken 2 else take_token SlashToken 1).

Definition scan_hex_literal : M SyntaxKind :=
  start ← get_pos;
  advance 2;;
  digits ← scan_hex_digits 1 true true;
  digits ← (if bool_decide (digits = []) then error Hexadecimal_digit_expected;; mret (bs "0")
            else mret digits);
  cached ← gets (λ s, hex_number_cache s !! digits);
  match cached with
  | Some value => set_value value
  | None =>
      p ← get_pos;
      raw ← slice start p;
      let value := if starts_with (bs "0x") raw && bool_decide (drop 2 raw = digits) then raw
                   else bs "0x" ++ digits in
      set_value value;;
      modify (λ s, s <| hex_number_cache := <[digits := value]> (hex_number_cache s) |>)
  end;;
  add_flags HEX_SPECIFIER;;
  token ← scan_big_int_suffix;
  take_token token 0.

Definition scan_binary_or_octal_literal (binary : bool) : M SyntaxKind :=
  advance 2;;
  digits ← scan_binary_or_octal_digits (if binary then 2 else 8);
  digits ← (if bool_decide (digits = []) then
              error (if binary then Binary_digit_expected else Octal_digit_expected);;
              mret (digits ++ bs "0")
            else mret digits);
  set_value ((if binary then bs "0b" else bs "0o") ++ digits);;
  add_flags (if binary then BINARY_SPECIFIER else OCTAL_SPECIFIER);;
  token ← scan_big_int_suffix;
  take_token token 0.

Definition take_number : M SyntaxKind := token ← scan_number; take_token token 0.

Definition scan_zero : M SyntaxKind :=
  c1 ← char_at 1;
  if (c1 =? ch "X") || (c1 =? ch "x") then scan_hex_literal
  else if (c1 =? ch "B") || (c1 =? ch "b") || (c1 =? ch "O") || (c1 =? ch "o")
  then scan_binary_or_octal_literal ((c1 =? ch "B") || (c1 =? ch "b"))
  else take_number.

Definition scan_dot : M SyntaxKind :=
  c1 ← char_at 1;
  if is_digit c1 then take_number
  else
    c2 ← char_at 2;
    if (c1 =? ch ".") && (c2 =? ch ".") then take_token DotDotDotToken 3 else take_token DotToken 1.

Definition scan_hash : M (unit + SyntaxKind) :=
  c1 ← char_at 1;
  p ← get_pos;
  if c1 =? ch "!" then
    if p =? 0 then advance 2;; loop shebang_body tt;; skipped
    else
      error_at X_can_only_be_used_at_the_start_of_a_file p 2 [];;
      token_of (take_token Unknown 2)
  else
    found ← scan_identifier 1 Standard;
    when (negb found)
      (p ← get_pos;
       error_at Invalid_character (p - 1) 1 [];;
       set_value (bs "#"));;
    token_of (take_token PrivateIdentifier 0).

Definition take_operator (c : Z) : M (unit + SyntaxKind) :=
  '(kind, size) ← punctuation c; token_of (take_token kind size).

Definition scan_angle_or_bar (c : Z) : M (unit + SyntaxKind) :=
  c1 ← char_at 1;
  text ← get_text;
  p ← get_pos;
  marker ← (if c1 =? c then lift (is_conflict_marker_trivia text p) else mret false);
  if marker : bool then
    consume_conflict_marker;;
    skip ← gets skips_trivia;
    if skip : bool then skipped else token_of (take_token ConflictMarkerTrivia 0)
  else take_operator c.

Definition scan_asterisk : M (unit + SyntaxKind) :=
  '(kind, size) ← punctuation (ch "*");
  advance size;;
  skip ← gets (λ s, skip_jsdoc_leading_asterisks (state s));
  flags ← get_flags;
  if kind_eqb kind AsteriskToken && negb (skip =? 0)
     && negb (has_flag flags PRECEDING_JSDOC_LEADING_ASTERISKS)
     && has_flag flags PRECEDING_LINE_BREAK
  then add_flags PRECEDING_JSDOC_LEADING_ASTERISKS;; skipped
  else token_of (take_token kind 0).

(** What is left when no identifier starts here. *)
Definition scan_other : M (unit + SyntaxKind) :=
  '(rune, size) ← char_and_size;
  if rune =? RUNE_ERROR then
    error_at File_appears_to_be_binary 0 0 [];;
    text ← get_text;
    set_pos (text_length text);;
    token_of (take_token NonTextFileMarkerTrivia 0)
  else if is_white_space_single_line rune then
    advance size;;
    skip ← gets skips_trivia;
    if (rune =? 0x85) || skip then skipped
    else
      loop white_space_body tt;;
      token_of (take_token WhitespaceTrivia 0)
  else if is_line_break rune then
    add_flags PRECEDING_LINE_BREAK;;
    advance size;;
    skipped
  else
    scan_invalid_character;;
    token_of get_token.

Definition scan_word (otherwise : M (unit + SyntaxKind)) : M (unit + SyntaxKind) :=
  found ← scan_identifier 0 Standard;
  if found : bool then
    value ← get_value;
    kind ← lift (get_identifier_token value);
    token_of (take_token kind 0)
  else otherwise.

Definition operator_bytes : bytes := bs "!%&()+,-:;?[]^{}~@".

(** One round of the loop of [scan]. *)
Definition scan_round (st : unit) : M (unit + SyntaxKind) :=
  c ← char;
  p ← get_pos;
  set_token_start p;;
  if c <? 0 then token_of (take_token EndOfFile 0)
  else if (c =? 9) || (c =? 11) || (c =? 12) || (c =? ch " ") then scan_blank
  else if (c =? 10) || (c =? 13) then scan_line_break c
  else if (c =? 39) || (c =? 34) then
    value ← scan_string false;
    set_value value;;
    token_of (take_token StringLiteral 0)
  else if c =? ch "`" then
    token ← scan_template_and_set_token_value false;
    token_of (take_token token 0)
  else if c =? ch "/" then scan_slash
  else if c =? ch "0" then token_of scan_zero
  else if in_range (ch "1") (ch "9") c then token_of take_number
  else if c =? ch "." then token_of scan_dot
  else if c =? ch "#" then scan_hash
  else if (c =? ch "<") || (c =? ch "=") || (c =? ch ">") || (c =? ch "|") then scan_angle_or_bar c
  else if c =? ch "*" then scan_asterisk
  else if contains_byte c operator_bytes then take_operator c
  else if c =? ch "\" then scan_word (scan_invalid_character;; token_of get_token)
  else scan_word scan_other.

Definition scan : M SyntaxKind :=
  p ← get_pos;
  set_full_start p;;
  set_flags 0;;
  loop scan_round tt.
End Scan.
