(* ===== verification/ScannerScanSpec.v ===== *)
(** What one round of [scan] does: it skips trivia exactly as [skip_trivia] does, or
    it leaves a token that starts where there is nothing to skip. *)

From stdpp Require Import gmap.
From S2P Require Import Prelude Wtf8 TextEdits BigInt ScannerKinds ScannerState ScannerWp.
From S2P Require Import ScannerDigits ScannerEscape ScannerLexemes.
From S2P Require Import ScannerTrivia ScannerScan.

Local Open Scope Z_scope.

(** ** Runs of ASCII *)

Lemma count_while_lookup f b i :
  (i < Z.to_nat (count_while f b))%nat → ∃ x, b !! i = Some x ∧ f x = true.
Proof.
  revert i. induction b as [|x b IH]; intros i; cbn [count_while]; [lia|].
  destruct (f x) eqn:E; [|lia]. pose proof (count_while_range f b).
  destruct i as [|i]; [by exists x|]. intros Hi. apply IH. lia.
Qed.

Lemma count_while_stop f b x : b !! Z.to_nat (count_while f b) = Some x → f x = false.
Proof.
  induction b as [|y b IH]; cbn [count_while]; [done|]. pose proof (count_while_range f b).
  destruct (f y) eqn:E; [|by intros [= ->]].
  by replace (Z.to_nat (1 + count_while f b)) with (S (Z.to_nat (count_while f b))) by lia.
Qed.

Lemma char_of_lookup t p i x :
  0 <= p → drop (Z.to_nat p) t !! i = Some x → char_of t (p + Z.of_nat i) = x.
Proof.
  intros Hp Hx. rewrite lookup_drop in Hx.
  replace (Z.to_nat p + i)%nat with (Z.to_nat (p + Z.of_nat i)) in Hx by lia.
  pose proof (lookup_lt_Some _ _ _ Hx). unfold char_of, text_at, text_length.
  destruct (Z.ltb_spec (p + Z.of_nat i) (Z.of_nat (length t))); [|lia].
  destruct (Z.ltb_spec (p + Z.of_nat i) 0); [lia|]. by rewrite Hx.
Qed.

Lemma ascii_run_inside pred t p i :
  0 <= p → p <= i < ascii_run pred t p → char_of t i < 128 ∧ pred (char_of t i) = true.
Proof.
  unfold ascii_run, run_end. intros Hp Hi.
  destruct (count_while_lookup (λ byte, (byte <? 0x80) && pred byte) (drop (Z.to_nat p) t)
    (Z.to_nat (i - p))) as (x & Hx & Hf); [lia|].
  apply char_of_lookup in Hx; [|done]. replace (p + Z.of_nat (Z.to_nat (i - p))) with i in Hx by lia.
  rewrite Hx. apply andb_true_iff in Hf as [? ?]. split; [lia|done].
Qed.

Lemma ascii_run_end pred t p :
  0 <= p → ascii_run pred t p < text_length t →
  (char_of t (ascii_run pred t p) <? 0x80) && pred (char_of t (ascii_run pred t p)) = false.
Proof.
  unfold ascii_run, run_end. intros Hp Hlt. set (f := λ byte, (byte <? 0x80) && pred byte) in *.
  pose proof (count_while_range f (drop (Z.to_nat p) t)) as Hr. rewrite length_drop in Hr.
  unfold text_length in Hlt.
  destruct (lookup_lt_is_Some_2 (drop (Z.to_nat p) t) (Z.to_nat (count_while f (drop (Z.to_nat p) t))))
    as [x Hx]; [rewrite length_drop; lia|].
  pose proof (count_while_stop _ _ _ Hx) as Hf. apply char_of_lookup in Hx; [|done].
  rewrite Z2Nat.id in Hx by lia. rewrite Hx. exact Hf.
Qed.

(** A loop of single steps passes over a run. *)
Lemma run_rtc (R : Z → Z → Prop) p r :
  p <= r → (∀ i, p <= i < r → R i (i + 1)) → rtc R p r.
Proof.
  intros Hp Hall. remember (Z.to_nat (r - p)) as n eqn:Hn. revert p Hp Hall Hn.
  induction n as [|n IH]; intros p Hp Hall Hn; [by replace p with r by lia|].
  eapply rtc_l; [apply Hall; lia|]. apply IH; [lia| |lia]. intros i Hi. apply Hall. lia.
Qed.

Lemma sub_three t p n :
  0 <= p → 1 <= n <= 3 → p + n <= text_length t →
  sub t p (p + n) = take (Z.to_nat n) [char_of t p; char_of t (p + 1); char_of t (p + 2)].
Proof.
  intros Hp Hn Hle. assert (n = 1 ∨ n = 2 ∨ n = 3) as [->|[->| ->]] by lia.
  - by rewrite sub_one by lia.
  - replace (p + 2) with (p + 1 + 1) at 1 by lia. by rewrite (sub_snoc t p (p + 1)), sub_one by lia.
  - replace (p + 3) with (p + 1 + 1 + 1) by lia. rewrite (sub_snoc t p (p + 1 + 1)), (sub_snoc t p (p + 1)), sub_one by lia.
    by replace (p + 1 + 1) with (p + 2) by lia.
Qed.

Section Spec.
Context `{JsNum, NumBigint, IdentifierTables}.

(** Trivia is skipped, and no star either. *)
Definition plain (s : Scanner) : Prop :=
  skips_trivia s = true ∧ skip_jsdoc_leading_asterisks (state s) = 0.

(** Punctuation and keywords are spelled as they print: the one by their text, the
    other, which may contain escapes, by their value. *)
Definition spelled (t : bytes) (p q : Z) (tv : bytes) (kind : SyntaxKind) : Prop :=
  (is_punctuation kind = true → sub t p q = token_to_string kind)
  ∧ (is_keyword kind = true → tv = token_to_string kind).

Lemma spelled_plain t p q tv kind : plain_kind kind = true → spelled t p q tv kind.
Proof.
  unfold plain_kind. rewrite negb_true_iff, !orb_false_iff. intros [[Hp Hk] _].
  split; congruence.
Qed.

(** A token of kind [kind] that starts at [p]. *)
Definition token_post (s0 : Scanner) (p : Z) (kind : SyntaxKind) (s' : Scanner) : Prop :=
  ∃ s q fl tv, at_pos s0 s q p fl tv ∧ s' = s <| state := (state s) <| token := kind |> |>
    ∧ spelled (text s0) p q tv kind
    ∧ (if decide (kind = EndOfFile) then p = q ∧ q = text_length (text s0) else p < q)
    ∧ (plain s0 → skip_stops (text s0) p).

(** What a round leaves that started at [p]. *)
Definition round_post (s0 : Scanner) (p : Z) (r : unit + SyntaxKind) (s' : Scanner) : Prop :=
  match r with
  | inl _ => ∃ q ts fl tv, at_pos s0 s' q ts fl tv ∧ p < q ∧ radix_flag fl = false
      ∧ (plain s0 → rtc (skip_step (text s0)) p q)
  | inr kind => token_post s0 p kind s'
  end.

Lemma wp_gets_trivia {s0 s p ts fl tv} (Q : bool → Scanner → Prop) :
  at_pos s0 s p ts fl tv → Q (skips_trivia s0) s → wp (gets skips_trivia) Q s.
Proof. intros Hat HQ. apply wp_gets. by rewrite (frame_trivia _ _ (at_frame _ _ _ _ _ _ Hat)). Qed.

Lemma wp_take_spelled {s0 s p q fl tv} kind n :
  at_pos s0 s q p fl tv → 0 <= q + n <= text_length (text s0) → p < q + n → kind ≠ EndOfFile →
  spelled (text s0) p (q + n) tv kind →
  (plain s0 → skip_stops (text s0) p) →
  wp (take_token kind n) (token_post s0 p) s.
Proof.
  intros Hat Hn Hlt Hk Hsp Hstop. unfold take_token. wp_steps.
  exists s, (q + n), fl, tv. split; [done|]. split; [done|]. split; [done|]. by rewrite decide_False.
Qed.

Lemma wp_take_token {s0 s p q fl tv} kind n :
  at_pos s0 s q p fl tv → 0 <= q + n <= text_length (text s0) → p < q + n → plain_kind kind = true →
  (plain s0 → skip_stops (text s0) p) →
  wp (take_token kind n) (token_post s0 p) s.
Proof.
  intros Hat Hn Hlt Hk Hstop.
  apply (wp_take_spelled _ _ Hat); [done|done|by apply plain_kind_not_end|by apply spelled_plain|done].
Qed.

Lemma wp_token_of {s0 p} m s :
  wp m (token_post s0 p) s → wp (token_of m) (round_post s0 p) s.
Proof. intros Hm. unfold token_of. apply wp_bind. apply (wp_mono _ _ _ _ Hm). done. Qed.

Lemma wp_skipped {s0 s p q ts fl tv} :
  at_pos s0 s q ts fl tv → p < q → radix_flag fl = false →
  (plain s0 → rtc (skip_step (text s0)) p q) →
  wp skipped (round_post s0 p) s.
Proof. intros Hat Hlt Hfl Hsteps. apply wp_ret. by exists q, ts, fl, tv. Qed.

(** ** Blanks and line breaks *)

Lemma wp_white_space {s0 s p ts fl tv} (Q : unit → Scanner → Prop) :
  at_pos s0 s p ts fl tv → (∀ s' q, at_pos s0 s' q ts fl tv → p <= q → Q tt s') →
  wp (loop white_space_body tt) Q s.
Proof.
  intros Hat HQ.
  apply (wp_loop_at (λ _ q fl' tv', fl' = fl ∧ tv' = tv) _ _ _ Hat); [done|].
  clear dependent s. intros [] s q fl' tv' Hat Hpq [-> ->].
  pose proof (at_range _ _ _ _ _ _ Hat) as Hq. unfold white_space_body. do 2 wp_step.
  destruct (decode_at (text s0) q) as [rune size] eqn:E. cbn [fst snd] in *. wp_step.
  - wp_steps. by eapply HQ.
  - destruct Hr as [(Hlt & Hs & Hle)|(_ & _ & ->)]; [|discriminate Eb].
    wp_steps. exists (q + size), fl, tv. split_and!; [done|lia|done|done].
Qed.

Lemma wp_scan_blank {s0 s p fl tv} :
  at_pos s0 s p p fl tv → p < text_length (text s0) → radix_flag fl = false →
  is_ascii_blank (char_of (text s0) p) = true → char_of (text s0) p ≠ 13 →
  wp scan_blank (round_post s0 p) s.
Proof.
  intros Hat Hlt Hfl Hc Hcr. pose proof (at_range _ _ _ _ _ _ Hat) as Hp. unfold scan_blank.
  do 2 wp_step. wp_step. wp_apply wp_gets_trivia. wp_step.
  - eapply wp_skipped; [eassumption|lia|done|]. intros _. apply rtc_once.
    pose proof (skip_step_blank (text s0) p ltac:(lia) Hc) as Hstep.
    by apply Z.eqb_neq in Hcr as Hcr'; rewrite Hcr' in Hstep.
  - wp_step. wp_apply wp_white_space. intros s' q Hat' Hq. apply wp_token_of.
    wp_apply wp_take_token; [wp_lia|lia|done|]. intros [Htriv _]. congruence.
Qed.

Lemma wp_scan_line_break {s0 s p fl tv} c :
  at_pos s0 s p p fl tv → p < text_length (text s0) → radix_flag fl = false →
  c = char_of (text s0) p → c = 10 ∨ c = 13 →
  wp (scan_line_break c) (round_post s0 p) s.
Proof.
  intros Hat Hlt Hfl Hc Hbr. pose proof (at_range _ _ _ _ _ _ Hat) as Hp. unfold scan_line_break.
  do 2 wp_step. wp_step. wp_apply wp_gets_trivia. wp_step.
  - wp_steps. eapply wp_skipped; [eassumption|lia|by rewrite radix_flag_lor|]. intros _.
    apply skip_blanks; [lia|lia| |].
    + intros i Hi. destruct (decide (i = p)) as [->|].
      * rewrite <-Hc. by destruct Hbr as [-> | ->].
      * by apply (ascii_run_inside is_ascii_blank _ (p + 1)); lia.
    + destruct (Z.lt_ge_cases (ascii_run is_ascii_blank (text s0) (p + 1)) (text_length (text s0))) as [Hr|Hr].
      * pose proof (ascii_run_end is_ascii_blank (text s0) (p + 1) ltac:(lia) Hr) as Hend.
        destruct (is_ascii_blank _) eqn:E; [|done]. rewrite andb_true_r in Hend.
        revert E Hend. unfold is_ascii_blank, in_range. chars. lia.
      * unfold char_of. by destruct (Z.ltb_spec (ascii_run is_ascii_blank (text s0) (p + 1))
          (text_length (text s0))); [lia|].
  - wp_steps. apply wp_token_of. wp_apply wp_take_token; [| |done|intros [Htriv _]; congruence].
    all: destruct ((c =? 13) && _) eqn:E; wp_lia.
Qed.

(** ** Lines and comments *)

Definition line_step (t : bytes) (p q : Z) : Prop := skip_line_body t p = Some (inl q).
Definition block_step (t : bytes) (p q : Z) : Prop := skip_block_body t p = Some (inl q).

Lemma wp_shebang_body {s0 s q ts fl tv} :
  at_pos s0 s q ts fl tv →
  wp (shebang_body tt) (λ r s', match r with
    | inl _ => ∃ q', at_pos s0 s' q' ts fl tv ∧ q < q' ∧ line_step (text s0) q q'
    | inr _ => at_pos s0 s' q ts fl tv ∧ skip_line_body (text s0) q = Some (inr q) end) s.
Proof.
  intros Hat. pose proof (at_range _ _ _ _ _ _ Hat) as Hq. unfold shebang_body. do 2 wp_step.
  unfold line_step. rewrite !skip_line_body_some by done.
  destruct (decode_at (text s0) q) as [rune size] eqn:E. cbn [fst snd] in *. wp_step.
  - wp_steps. split; [done|]. destruct Hr as [(Hlt & Hs & Hle)|(-> & _ & _)].
    + rewrite (proj2 (Z.eqb_neq size 0)) in Eb by lia. cbn [orb] in Eb. rewrite Eb.
      by rewrite andb_false_r.
    + by rewrite Z.ltb_irrefl.
  - apply orb_false_iff in Eb as [Hsz Hlb]. destruct Hr as [(Hlt & Hs & Hle)|(-> & -> & _)]; [|done].
    wp_steps. exists (q + size). split_and!; [done|lia|]. rewrite Hlb.
    by rewrite (proj2 (Z.ltb_lt _ _) Hlt).
Qed.

Lemma wp_shebang_line {s0 s p ts fl tv} (Q : unit → Scanner → Prop) :
  at_pos s0 s p ts fl tv →
  (∀ s' e, at_pos s0 s' e ts fl tv → p <= e → skip_line (text s0) p = Some e → Q tt s') →
  wp (loop shebang_body tt) Q s.
Proof.
  intros Hat HQ. pose proof (at_range _ _ _ _ _ _ Hat) as Hp.
  apply (wp_loop_at (λ _ q fl' tv', fl' = fl ∧ tv' = tv ∧ rtc (line_step (text s0)) p q) _ _ _ Hat);
    [done|].
  clear dependent s. intros [] s q fl' tv' Hat Hpq (-> & -> & Hsteps).
  apply (wp_mono _ _ _ _ (wp_shebang_body Hat)). intros [[]|[]] s'.
  - intros (q' & Hat' & Hlt & Hstep). exists q', fl, tv. split_and!; try done. by eapply rtc_r.
  - intros [Hat' Hend]. eapply HQ; [done|done|]. by apply (skip_line_reaches (text s0) p q).
Qed.

(** Single steps over a run of ASCII without line breaks. *)
Lemma line_run t p :
  0 <= p <= text_length t →
  rtc (line_step t) p (ascii_run (λ b, negb (b =? 10) && negb (b =? 13)) t p).
Proof.
  intros Hp. pose proof (run_end_range (λ b, (b <? 0x80) && (negb (b =? 10) && negb (b =? 13))) t p Hp)
    as Hr.
  apply run_rtc; [unfold ascii_run; lia|]. intros i Hi.
  destruct (ascii_run_inside _ t p i ltac:(lia) Hi) as [Hc Hn].
  assert (i < text_length t) by (unfold ascii_run in Hi; lia).
  unfold line_step. rewrite skip_line_body_some by lia.
  rewrite (decode_at_ascii t i (char_of t i)) by (try apply char_of_at; lia). cbn [fst snd].
  rewrite (proj2 (Z.ltb_lt _ _)) by done.
  assert (is_line_break (char_of t i) = false) as ->; [|done].
  unfold is_line_break. revert Hn. lia.
Qed.

Lemma wp_line_comment {s0 s p ts fl tv} (Q : unit → Scanner → Prop) :
  at_pos s0 s p ts fl tv →
  (∀ s' e, at_pos s0 s' e ts fl tv → p <= e → skip_line (text s0) p = Some e → Q tt s') →
  wp (loop line_comment_body tt) Q s.
Proof.
  intros Hat HQ. pose proof (at_range _ _ _ _ _ _ Hat) as Hp.
  apply (wp_loop_at (λ _ q fl' tv', fl' = fl ∧ tv' = tv ∧ rtc (line_step (text s0)) p q) _ _ _ Hat);
    [done|].
  clear dependent s. intros [] s q fl' tv' Hat Hpq (-> & -> & Hsteps).
  pose proof (line_run (text s0) q (at_range _ _ _ _ _ _ Hat)) as Hline.
  unfold line_comment_body. wp_step. wp_step.
  apply (wp_mono _ _ _ _ (wp_shebang_body Hat)). intros [[]|[]] s''.
  - intros (q' & Hat' & Hlt & Hstep). exists q', fl, tv. split_and!; try done; [lia|].
    etrans; [exact Hsteps|]. by eapply rtc_r.
  - intros [Hat' Hend]. eapply HQ; [done|lia|]. eapply (skip_line_reaches (text s0)); [done| |done].
    by etrans.
Qed.

(** Single steps over a run of ASCII without stars. *)
Lemma block_run t p :
  0 <= p <= text_length t →
  rtc (block_step t) p (ascii_run (λ b, negb ((b =? ch "*") || (b =? 10) || (b =? 13))) t p).
Proof.
  intros Hp.
  pose proof (run_end_range (λ b, (b <? 0x80) && negb ((b =? ch "*") || (b =? 10) || (b =? 13))) t p Hp)
    as Hr.
  apply run_rtc; [unfold ascii_run; lia|]. intros i Hi.
  destruct (ascii_run_inside _ t p i ltac:(lia) Hi) as [Hc Hn].
  assert (i < text_length t) by (unfold ascii_run in Hi; lia).
  unfold block_step. rewrite skip_block_body_some by lia.
  rewrite (decode_at_ascii t i (char_of t i)) by (try apply char_of_at; lia). cbn [fst snd].
  rewrite (proj2 (Z.ltb_lt _ _)) by done. apply negb_true_iff in Hn.
  rewrite !orb_false_iff in Hn. destruct Hn as [[-> _] _]. done.
Qed.

(** One round at a character of a comment: the decoder sees a star where the byte is one. *)
Lemma star_is_byte t p :
  all_bytes t → 0 <= p < text_length t →
  ((decode_at t p).1 =? ch "*") = (char_of t p =? ch "*").
Proof.
  intros Hb Hp. destruct (decode_at_cases t p Hb Hp) as [[Hc ->]|(Hc & Hd & _)]; [done|]. chars. lia.
Qed.

Lemma wp_block_comment_body {s0 s q ts fl tv} last_line_start :
  at_pos s0 s q ts fl tv → 0 <= last_line_start <= q →
  wp (block_comment_body last_line_start) (λ r s', ∃ q' fl',
    at_pos s0 s' q' ts fl' tv ∧ radix_flag fl' = radix_flag fl ∧ q <= q'
    ∧ match r with
      | inl lls => q < q' ∧ 0 <= lls <= q' ∧ rtc (block_step (text s0)) q q'
      | inr (lls, _) => 0 <= lls <= q' ∧ ∃ r, rtc (block_step (text s0)) q r
          ∧ 0 <= r ∧ skip_block_body (text s0) r = Some (inr q')
      end) s.
Proof.
  intros Hat Hlls. pose proof (at_range _ _ _ _ _ _ Hat) as Hq.
  pose proof (block_run (text s0) q Hq) as Hrun'. unfold block_comment_body. wp_step. wp_step.
  set (r := ascii_run _ (text s0) q) in *. do 2 wp_step.
  pose proof (star_is_byte (text s0) r (at_bytes _ _ _ _ _ _ Hat)) as Hstar.
  pose proof (skip_block_body_some (text s0) r ltac:(lia)) as Hbody.
  destruct (decode_at (text s0) r) as [rune size] eqn:E. cbn [fst snd] in *. wp_step.
  - apply Z.eqb_eq in Eb as ->. destruct Hr as [?|(Hend & _)]; [lia|]. wp_step.
    exists r, fl. split_and!; try done; try lia. exists r. split_and!; [done|lia|].
    rewrite Hbody, Hend. by rewrite Z.ltb_irrefl.
  - apply Z.eqb_neq in Eb. destruct Hr as [(Hlt & Hs & Hle)|(_ & ? & _)]; [|lia].
    rewrite Hstar in * by lia. rewrite (proj2 (Z.ltb_lt _ _) Hlt) in Hbody. wp_step. wp_step. wp_step.
    + assert (r + 1 < text_length (text s0)) by wp_lia. wp_steps. exists (r + 2), fl.
      split_and!; try done; try lia. exists r. split_and!; [done|lia|]. by rewrite Hbody.
    + wp_step. wp_step. wp_step; wp_steps; (eexists _, _; split_and!; [eassumption|..]);
        rewrite ?radix_flag_lor; try done; try lia; by eapply rtc_r.
Qed.

Lemma wp_block_comment {s0 s p ts fl tv} start (Q : Z * bool → Scanner → Prop) :
  at_pos s0 s p ts fl tv → 0 <= start <= p →
  (∀ s' e fl' lls closed, at_pos s0 s' e ts fl' tv → p <= e → radix_flag fl' = radix_flag fl →
     0 <= lls <= e → skip_block (text s0) p = Some e → Q (lls, closed) s') →
  wp (loop block_comment_body start) Q s.
Proof.
  intros Hat Hst HQ. pose proof (at_range _ _ _ _ _ _ Hat) as Hp.
  apply (wp_loop_at (λ lls q fl' tv', tv' = tv ∧ radix_flag fl' = radix_flag fl ∧ 0 <= lls <= q
    ∧ rtc (block_step (text s0)) p q) _ _ _ Hat); [by split_and!; try lia|].
  clear dependent s. intros lls s q fl' tv' Hat Hpq (-> & Hfl & Hlls & Hsteps).
  apply (wp_mono _ _ _ _ (wp_block_comment_body lls Hat Hlls)).
  intros [lls'|[lls' closed]] s' (q' & fl'' & Hat' & Hfl' & Hle & Hpost).
  - destruct Hpost as (Hlt & Hl & Hsteps'). exists q', fl'', tv. split_and!; try done; try lia; [congruence|].
    by etrans.
  - destruct Hpost as (Hl & r & Hsteps' & Hr & Hend). eapply HQ; [done|lia|congruence|lia|].
    eapply (skip_block_reaches (text s0)); [done| |exact Hend]. by etrans.
Qed.

Lemma wp_skip_while {s0 s p ts fl tv} f a e (Q : Z → Scanner → Prop) :
  at_pos s0 s p ts fl tv → 0 <= a → e <= text_length (text s0) →
  (∀ s' q, at_pos s0 s' p ts fl tv → a <= q → q <= Z.max a e → Q q s') → wp (skip_while f a e) Q s.
Proof.
  intros Hat Ha He HQ. unfold skip_while. wp_step; [|wp_steps; apply HQ; [done|lia|lia]].
  wp_step. wp_step. wp_step. pose proof (count_while_range f (sub (text s0) a e)) as Hc.
  pose proof (length_sub (text s0) a e ltac:(lia) He) as Hl. unfold text_length in Hl.
  apply HQ; [done|lia|lia].
Qed.

Lemma wp_process_comment_directive {s0 s p ts fl tv} start e multiline (Q : unit → Scanner → Prop) :
  at_pos s0 s p ts fl tv → 0 <= start <= e → e <= text_length (text s0) →
  (∀ s', at_pos s0 s' p ts fl tv → Q tt s') →
  wp (process_comment_directive start e multiline) Q s.
Proof.
  intros Hat Hst He HQ. unfold process_comment_directive. wp_step.
  apply (wp_mono _ (λ q s', 0 <= q ∧ at_pos s0 s' p ts fl tv)).
  { wp_step; [wp_step; wp_apply wp_skip_while; [lia|lia|]; clear dependent s; intros s q Hat Hq _|];
      (wp_apply wp_skip_while; [lia|lia|]); clear dependent s; intros s q' Hat Hq' _; split; (done || lia). }
  clear dependent s. intros q s [Hq Hat]. wp_step. wp_apply wp_skip_while; [lia|lia|].
  clear dependent s. intros s q' Hat Hq' _. do 3 wp_step.
  apply (wp_mono _ (λ b s', at_pos s0 s' p ts fl tv ∧ (b = true → q' < e))).
  { wp_step; [by wp_steps|]. wp_step. eapply wp_lift; [apply char_of_at; lia|]. wp_steps. split; [done|lia]. }
  clear dependent s. intros b s [Hat Hb]. wp_step; [|wp_steps; by apply HQ]. specialize (Hb eq_refl).
  do 2 wp_step. assert (∀ kind, wp (modify_state (λ st, st <| comment_directives :=
      comment_directives st ++ [MkDirective (range_new start e) kind] |>)) Q s) as Hpush.
  { intros kind. apply (wp_modify_state _ p ts fl tv _ Hat); try done; try apply Hat.
    by eexists. }
  wp_step; [apply Hpush|]. wp_step; [apply Hpush|]. wp_steps. by apply HQ.
Qed.

Lemma radix_flag_jsdoc t fl : radix_flag (jsdoc_flags t fl) = radix_flag fl.
Proof.
  revert fl. induction t as [|b t IH]; intros fl; [done|]. cbn [jsdoc_flags].
  assert (radix_flag (jsdoc_tag_flags t fl) = radix_flag fl) as Htag.
  { unfold jsdoc_tag_flags. repeat destruct (_ && _); by rewrite ?radix_flag_lor. }
  destruct (b =? ch "@"); [|done]. destruct (_ =? _); [done|]. by rewrite IH.
Qed.

(** ** The arms *)

Lemma wp_scan_line_comment {s0 s p fl tv} :
  at_pos s0 s p p fl tv → radix_flag fl = false →
  char_of (text s0) p = ch "/" → char_of (text s0) (p + 1) = ch "/" →
  wp scan_line_comment (round_post s0 p) s.
Proof.
  intros Hat Hfl Hc Hc1. pose proof (at_range _ _ _ _ _ _ Hat) as Hp.
  assert (p + 1 < text_length (text s0)) as Hlt by (by eapply char_of_inside).
  unfold scan_line_comment. wp_step. wp_step. wp_step. wp_apply wp_line_comment. clear dependent s.
  intros s e Hat He Hline. pose proof (at_range _ _ _ _ _ _ Hat). do 4 wp_step.
  wp_step. wp_apply wp_process_comment_directive; [lia|lia|]. clear dependent s. intros s Hat.
  wp_step. wp_apply wp_gets_trivia. wp_step.
  - eapply wp_skipped; [eassumption|lia|done|]. intros _. apply rtc_once.
    apply skip_step_line_comment; done || lia.
  - apply wp_token_of. wp_apply wp_take_token; [wp_lia|lia|done|]. intros [Htriv _]. congruence.
Qed.

Lemma wp_scan_block_comment {s0 s p fl tv} :
  at_pos s0 s p p fl tv → radix_flag fl = false →
  char_of (text s0) p = ch "/" → char_of (text s0) (p + 1) = ch "*" →
  wp scan_block_comment (round_post s0 p) s.
Proof.
  intros Hat Hfl Hc Hc1. pose proof (at_range _ _ _ _ _ _ Hat) as Hp.
  assert (p + 1 < text_length (text s0)) as Hlt by (by eapply char_of_inside).
  unfold scan_block_comment. do 9 wp_step.
  wp_apply wp_block_comment; [lia|]. clear dependent s.
  intros s e fl1 lls closed Hat He Hfl1 Hlls Hblock. pose proof (at_range _ _ _ _ _ _ Hat).
  cbn iota beta. wp_step.
  apply (wp_mono _ (λ _ s', ∃ fl2, at_pos s0 s' e p fl2 tv ∧ radix_flag fl2 = false)).
  { unfold scan_jsdoc_comment_for_tags. wp_steps; (eexists; split; [eassumption|]);
      rewrite ?radix_flag_jsdoc, ?radix_flag_lor by done; congruence. }
  clear dependent s fl1. intros [] s (fl1 & Hat & Hfl1). do 3 wp_step.
  wp_apply wp_process_comment_directive; [lia|lia|]. clear dependent s. intros s Hat. wp_step.
  apply (wp_mono _ (λ _ s', at_pos s0 s' e p fl1 tv)); [by wp_steps|].
  clear dependent s. intros [] s Hat. wp_step. wp_apply wp_gets_trivia. wp_step.
  - eapply wp_skipped; [eassumption|lia|done|]. intros _. apply rtc_once.
    apply skip_step_block_comment; done || lia.
  - wp_step. apply (wp_mono _ (λ _ s', ∃ fl2, at_pos s0 s' e p fl2 tv)); [by wp_steps; eexists|].
    clear dependent s. intros [] s (fl2 & Hat). apply wp_token_of.
    wp_apply wp_take_token; [wp_lia|lia|done|]. intros [Htriv _]. congruence.
Qed.

Lemma wp_scan_slash {s0 s p fl tv} :
  at_pos s0 s p p fl tv → radix_flag fl = false → char_of (text s0) p = ch "/" →
  wp scan_slash (round_post s0 p) s.
Proof.
  intros Hat Hfl Hc. pose proof (at_range _ _ _ _ _ _ Hat) as Hp.
  assert (p < text_length (text s0)) as Hlt by (by eapply char_of_inside).
  unfold scan_slash. wp_step. wp_step. wp_step.
  { by wp_apply wp_scan_line_comment; [| |apply Z.eqb_eq]. }
  apply Z.eqb_neq in Eb. wp_step.
  { by wp_apply wp_scan_block_comment; [| |apply Z.eqb_eq]. }
  apply Z.eqb_neq in Eb0. assert (skip_stops (text s0) p) as Hstop by (apply skip_stops_slash; done || lia).
  apply wp_token_of. pose proof (sub_one (text s0) p ltac:(lia)) as Hone. rewrite Hc in Hone. wp_step.
  - apply Z.eqb_eq in Eb1. assert (p + 1 < text_length (text s0)) by (by eapply char_of_inside).
    wp_apply wp_take_spelled; [wp_lia|lia|done| |done]. split; [intros _|done].
    replace (p + 2) with (p + 1 + 1) by lia. by rewrite sub_snoc, Hone, Eb1 by lia.
  - wp_apply wp_take_spelled; [wp_lia|lia|done| |done]. split; [intros _|done]. by rewrite Hone.
Qed.

(** ** Numbers *)

Lemma wp_big_int_token {s0 s p q fl tv} :
  at_pos s0 s q p fl tv → p < q → radix_literal fl tv → (plain s0 → skip_stops (text s0) p) →
  wp (token ← scan_big_int_suffix; take_token token 0) (token_post s0 p) s.
Proof.
  intros Hat Hlt Hrad Hstop. wp_step. wp_apply wp_scan_big_int_suffix; [done| |].
  - intros s' kind tv' Hat' _ ->. wp_apply wp_take_token; [wp_lia|lia|done|done].
  - intros s' kind Hat' ->. wp_apply wp_take_token; [wp_lia|lia|done|done].
Qed.

(** Putting a hexadecimal literal together, from the cache or not. *)
Lemma hex_value raw digits :
  (if starts_with (bs "0x") raw && bool_decide (drop 2 raw = digits) then raw else bs "0x" ++ digits)
  = bs "0x" ++ digits.
Proof.
  destruct (starts_with _ _) eqn:E; [|done]. cbn [andb]. case_bool_decide as Hd; [|done].
  apply starts_with_true in E as [rest ->]. by subst digits.
Qed.

Lemma wp_scan_hex_literal {s0 s p fl tv} :
  at_pos s0 s p p fl tv → radix_flag fl = false → p + 1 < text_length (text s0) →
  (plain s0 → skip_stops (text s0) p) →
  wp scan_hex_literal (token_post s0 p) s.
Proof.
  intros Hat Hfl Hlt Hstop. pose proof (at_range _ _ _ _ _ _ Hat) as Hp. unfold scan_hex_literal.
  do 5 wp_step. wp_apply wp_scan_hex_digits; [lia|]. clear dependent s.
  intros s q fl' digits Hat Hq Hfl' _ _. rewrite Hfl in Hfl'. clear fl Hfl. wp_step.
  apply (wp_mono _ (λ _ s', at_pos s0 s' q p fl' tv)); [by wp_steps|].
  clear dependent s digits. intros digits s Hat. wp_step. apply wp_gets. wp_step.
  apply (wp_mono _ (λ _ s', ∃ tv', at_pos s0 s' q p fl' tv')).
  - destruct (hex_number_cache s !! digits) as [v|] eqn:E; [by wp_steps; eexists|].
    do 4 wp_step. rewrite hex_value. cbv zeta. do 2 wp_step. eexists.
    pose proof (at_coherent _ _ _ _ _ _ Hat) as [Hn Hh Hd].
    destruct Hat as [Hf]. split; simpl; try done.
    + etrans; [exact Hf|]. split; simpl; try done. by exists [].
    + split; simpl; try done. by apply map_Forall_insert_2.
  - clear dependent s. intros [] s (tv' & Hat). do 2 wp_step.
    wp_apply wp_big_int_token; [lia| |done]. intros Hr. by rewrite radix_flag_lor, Hfl' in Hr.
Qed.

Lemma binary_digits base radix b :
  (base = 2 ∧ radix = 2) ∨ (base = 8 ∧ radix = 8) →
  Forall (λ x, binary_or_separator base x = true) b →
  Forall (λ x, is_radix_digit radix x = true) (without_separators b).
Proof.
  intros Hbase Hb. unfold without_separators. apply Forall_forall. intros x [Hx Hin]%list_elem_of_filter.
  rewrite Forall_forall in Hb. specialize (Hb x Hin). unfold binary_or_separator in Hb.
  apply Z.eqb_neq in Hx. rewrite Hx, orb_false_r in Hb. revert Hb.
  unfold is_radix_digit, digit_value, is_digit. chars. intros [Hd Hlt]%andb_true_iff.
  rewrite Hd. lia.
Qed.

Lemma wp_scan_binary_or_octal_literal {s0 s p fl tv} binary :
  at_pos s0 s p p fl tv → p + 1 < text_length (text s0) →
  (plain s0 → skip_stops (text s0) p) →
  wp (scan_binary_or_octal_literal binary) (token_post s0 p) s.
Proof.
  intros Hat Hlt Hstop. pose proof (at_range _ _ _ _ _ _ Hat) as Hp.
  unfold scan_binary_or_octal_literal. do 3 wp_step. wp_apply wp_scan_binary_or_octal_digits.
  clear dependent s. intros s q fl' Hat Hq _ Hd. wp_step.
  set (base := if binary then 2 else 8) in *.
  apply (wp_mono _ (λ digits s', at_pos s0 s' q p fl' tv ∧ digits ≠ []
    ∧ Forall (λ x, is_radix_digit base x = true) digits)).
  - apply (binary_digits base base) in Hd; [|by destruct binary; [left|right]].
    wp_step; wp_steps; (split; [done|]).
    + apply bool_decide_eq_true in Eb as ->. split; [done|]. constructor; [|done]. by destruct binary.
    + by apply bool_decide_eq_false in Eb.
  - clear dependent s. intros digits s (Hat & Hne & Hdig). do 4 wp_step.
    wp_apply wp_big_int_token; [lia| |done]. intros _.
    destruct binary; [exists (ch "b"), 2, digits|exists (ch "o"), 8, digits]; split_and!; try done;
      [by left|by right].
Qed.

Lemma wp_take_number {s0 s p fl tv} :
  at_pos s0 s p p fl tv → (token (state s0) = MinusToken → 1 <= p) → radix_flag fl = false →
  is_digit (char_of (text s0) p) = true ∨ char_of (text s0) p = ch "." →
  (plain s0 → skip_stops (text s0) p) →
  wp take_number (token_post s0 p) s.
Proof.
  intros Hat Hm Hfl Hc Hstop. unfold take_number. wp_step.
  wp_apply wp_scan_number; [done|done|done|]. clear dependent s. intros s q fl' tv' kind Hat Hq Hkind.
  wp_apply wp_take_token; [wp_lia|lia|by destruct Hkind as [-> | ->]|done].
Qed.

Lemma wp_scan_zero {s0 s p fl tv} :
  at_pos s0 s p p fl tv → (token (state s0) = MinusToken → 1 <= p) → radix_flag fl = false →
  char_of (text s0) p = ch "0" → (plain s0 → skip_stops (text s0) p) →
  wp scan_zero (token_post s0 p) s.
Proof.
  intros Hat Hm Hfl Hc Hstop. pose proof (at_range _ _ _ _ _ _ Hat) as Hp. unfold scan_zero.
  wp_step. wp_step. wp_step; [|wp_step].
  - wp_apply wp_scan_hex_literal; [done|wp_lia|done].
  - wp_apply wp_scan_binary_or_octal_literal; [wp_lia|done].
  - wp_apply wp_take_number; [done|done|left; by rewrite Hc|done].
Qed.

Lemma wp_scan_dot {s0 s p fl tv} :
  at_pos s0 s p p fl tv → (token (state s0) = MinusToken → 1 <= p) → radix_flag fl = false →
  char_of (text s0) p = ch "." → (plain s0 → skip_stops (text s0) p) →
  wp scan_dot (token_post s0 p) s.
Proof.
  intros Hat Hm Hfl Hc Hstop. pose proof (at_range _ _ _ _ _ _ Hat) as Hp.
  assert (p < text_length (text s0)) as Hlt by (by eapply char_of_inside).
  pose proof (sub_one (text s0) p ltac:(lia)) as Hone. rewrite Hc in Hone.
  unfold scan_dot. wp_step. wp_step. wp_step; [|wp_step; wp_step; wp_step].
  - wp_apply wp_take_number; [done|done|by right|done].
  - apply andb_true_iff in Eb0 as [E1%Z.eqb_eq E2%Z.eqb_eq].
    assert (p + 2 < text_length (text s0)) by (by eapply char_of_inside).
    wp_apply wp_take_spelled; [wp_lia|lia|done| |done]. split; [intros _|done].
    by rewrite sub_three, Hc, E1, E2 by lia.
  - wp_apply wp_take_spelled; [wp_lia|lia|done| |done]. split; [intros _|done]. by rewrite Hone.
Qed.

(** ** Operators *)

Lemma operator_width jsx c next third kind n :
  operator jsx c next third = Some (kind, n) →
  kind ≠ EndOfFile ∧ is_keyword kind = false ∧ 1 <= n <= 3
  ∧ (2 <= n → 0 <= next) ∧ (3 <= n → 0 <= third)
  ∧ token_to_string kind = take (Z.to_nat n) [c; next; third].
Proof.
  unfold operator. intros Ho. cbv zeta in Ho.
  repeat match type of Ho with
  | Some (if ?b then _ else _) = _ => destruct b eqn:?
  | (if ?b then _ else _) = _ => destruct b eqn:?
  | Some (_, _) = Some (_, _) => injection Ho as <- <-
  end; try discriminate Ho; (split; [done|]);
    repeat match goal with E : andb _ _ = true |- _ => apply andb_true_iff in E as [? ?] end;
    repeat match goal with E : (next =? _) = true |- _ => apply Z.eqb_eq in E as -> end;
    repeat match goal with E : (third =? _) = true |- _ => apply Z.eqb_eq in E as -> end;
    repeat match goal with E : (c =? _) = true |- _ => apply Z.eqb_eq in E as -> end;
    split_and!; intros; first [done|lia|by vm_compute].
Qed.

Definition dispatched : bytes := operator_bytes ++ bs "<=>|*".

Lemma operator_some jsx c next third :
  contains_byte c dispatched = true → is_Some (operator jsx c next third).
Proof.
  unfold contains_byte. rewrite existsb_exists. intros (x & Hin & ->%Z.eqb_eq).
  apply list_elem_of_In in Hin. revert x Hin. apply Forall_forall.
  repeat (constructor; [unfold operator; cbv zeta; cbn [Z.eqb]; eexists; reflexivity|]). constructor.
Qed.

Lemma wp_punctuation {s0 s p ts fl tv} (Q : SyntaxKind * Z → Scanner → Prop) :
  at_pos s0 s p ts fl tv → p < text_length (text s0) →
  contains_byte (char_of (text s0) p) dispatched = true →
  (∀ kind n, kind ≠ EndOfFile → 1 <= n → p + n <= text_length (text s0) →
     spelled (text s0) p (p + n) tv kind → Q (kind, n) s) →
  wp (punctuation (char_of (text s0) p)) Q s.
Proof.
  intros Hat Hlt Hc HQ. pose proof (at_range _ _ _ _ _ _ Hat) as Hp. unfold punctuation.
  do 4 wp_step. wp_step. apply wp_gets.
  destruct (operator_some (language_variant s =? JSX) _ (char_of (text s0) (p + 1))
    (char_of (text s0) (p + 2)) Hc) as [[kind n] Ho].
  eapply wp_lift; [exact Ho|].
  destruct (operator_width _ _ _ _ _ _ Ho) as (Hk & Hkey & Hn & H2 & H3 & Hsp).
  assert (p + n <= text_length (text s0)) as Hle by wp_lia.
  apply HQ; [done|lia|done|]. split; [intros _|congruence]. rewrite Hsp.
  apply sub_three; [apply Hp|done|done].
Qed.

Lemma wp_take_operator {s0 s p fl tv} :
  at_pos s0 s p p fl tv → p < text_length (text s0) →
  contains_byte (char_of (text s0) p) dispatched = true → (plain s0 → skip_stops (text s0) p) →
  wp (take_operator (char_of (text s0) p)) (round_post s0 p) s.
Proof.
  intros Hat Hlt Hc Hstop. pose proof (at_range _ _ _ _ _ _ Hat) as Hp. unfold take_operator.
  wp_step. wp_apply wp_punctuation; [done|done|]. intros kind n Hk Hn Hle Hsp. cbn iota beta.
  apply wp_token_of. wp_apply wp_take_spelled; [lia|lia|done|done|done].
Qed.

Lemma wp_consume_conflict_marker {s0 s p ts fl tv} (Q : unit → Scanner → Prop) :
  at_pos s0 s p ts fl tv → p + 7 < text_length (text s0) → marker_char (char_of (text s0) p) = true →
  (∀ s' q, at_pos s0 s' q ts fl tv → p < q → scan_conflict_marker_trivia (text s0) p = Some q → Q tt s') →
  wp consume_conflict_marker Q s.
Proof.
  intros Hat Hlt Hm HQ. pose proof (at_range _ _ _ _ _ _ Hat) as Hp. unfold consume_conflict_marker.
  wp_step. wp_step. wp_step. wp_step. wp_step. wp_step. wp_step.
  destruct (scan_conflict_marker_trivia_spec (text s0) (at_bytes _ _ _ _ _ _ Hat)
    (at_fits _ _ _ _ _ _ Hat) p) as (q & Hq & Hr); [lia| |].
  { revert Hm. unfold marker_char. rewrite !elem_of_cons. lia. }
  eapply wp_lift; [exact Hq|]. wp_step. eapply HQ; [eassumption|lia|done].
Qed.

Lemma wp_scan_angle_or_bar {s0 s p fl tv} :
  at_pos s0 s p p fl tv → radix_flag fl = false → p < text_length (text s0) →
  marker_char (char_of (text s0) p) = true →
  wp (scan_angle_or_bar (char_of (text s0) p)) (round_post s0 p) s.
Proof.
  intros Hat Hfl Hlt Hm. pose proof (at_range _ _ _ _ _ _ Hat) as Hp.
  destruct (is_conflict_marker_trivia_some (text s0) (at_fits _ _ _ _ _ _ Hat) p) as (b & Hb & Hb7); [lia|].
  unfold scan_angle_or_bar. do 7 wp_step.
  apply (wp_mono _ (λ b' s', b' = b ∧ at_pos s0 s' p p fl tv)).
  { wp_step; [eapply wp_lift; [exact Hb|done]|]. wp_steps. split; [|done]. apply Z.eqb_neq in Eb.
    rewrite (no_marker_alone (text s0)) in Hb; [congruence|apply Hat|lia|done]. }
  clear dependent s. intros b' s [-> Hat]. wp_step.
  - wp_step. wp_apply wp_consume_conflict_marker; [by apply Hb7|done|]. clear dependent s.
    intros s q Hat Hlt' Hq. wp_step. wp_apply wp_gets_trivia. wp_step.
    + eapply wp_skipped; [eassumption|lia|done|]. intros _. apply rtc_once.
      apply skip_step_marker; done || lia.
    + apply wp_token_of. wp_apply wp_take_token; [wp_lia|lia|done|]. intros [Htriv _]. congruence.
  - wp_apply wp_take_operator; [done| |].
    + revert Hm. unfold marker_char. intros Hm. unfold contains_byte, dispatched. rewrite existsb_app.
      apply orb_true_iff. right. cbn [bs existsb fmap list_fmap String.list_ascii_of_string].
      revert Hm. lia.
    + intros _. apply skip_stops_marker; done || lia.
Qed.

Lemma wp_scan_asterisk {s0 s p fl tv} :
  at_pos s0 s p p fl tv → radix_flag fl = false → p < text_length (text s0) →
  char_of (text s0) p = ch "*" →
  wp scan_asterisk (round_post s0 p) s.
Proof.
  intros Hat Hfl Hlt Hc. pose proof (at_range _ _ _ _ _ _ Hat) as Hp. unfold scan_asterisk.
  rewrite <-Hc. wp_step. wp_apply wp_punctuation; [done|by rewrite Hc|]. intros kind n Hk Hn Hle Hsp.
  cbn iota beta. wp_step. wp_step. wp_step. apply wp_gets.
  rewrite (frame_jsdoc _ _ (at_frame _ _ _ _ _ _ Hat)). wp_step. wp_step. wp_step.
  - wp_steps. eapply wp_skipped; [eassumption|lia|by rewrite radix_flag_lor|]. intros [_ Hz].
    rewrite Hz in Eb. by rewrite !andb_false_r in Eb.
  - apply wp_token_of. wp_apply wp_take_spelled; [lia|lia|done|by rewrite Z.add_0_r|]. intros _.
    apply skip_stops_char; [lia|by rewrite Hc|by rewrite Hc].
Qed.

(** ** Words and everything else *)

Lemma wp_invalid_character {s0 s p fl tv} :
  at_pos s0 s p p fl tv → p < text_length (text s0) → (plain s0 → skip_stops (text s0) p) →
  wp (scan_invalid_character;; token_of get_token) (round_post s0 p) s.
Proof.
  intros Hat Hlt Hstop. pose proof (at_range _ _ _ _ _ _ Hat) as Hp. unfold scan_invalid_character.
  wp_step. wp_step. wp_step. pose proof (decode_at_size (text s0) p ltac:(lia)) as Hsize.
  destruct (decode_at (text s0) p) as [rune size]. cbn [fst snd] in *. do 4 wp_step.
  wp_step. apply (wp_mono _ (token_post s0 p)).
  { wp_apply wp_take_token; [lia|lia|done|done]. }
  clear dependent s. intros kind s' Hpost. apply wp_ret. unfold token_of.
  assert (token (state s') = kind) as Hk by (by destruct Hpost as (? & ? & ? & ? & ? & -> & _)).
  unfold wp, mbind, M_bind, get_token, gets, mret, M_ret. by rewrite Hk.
Qed.

(** What starts an identifier is no trivia. *)
Lemma identifier_stops t p :
  0 <= p <= text_length t → starts_identifier t p → skip_stops t p.
Proof.
  intros Hp Hid. apply skip_stops_rune; [done|]. unfold starts_identifier in Hid.
  destruct (decode_at t p) as [c size]. cbn [fst] in *. destruct Hid as [Hid| ->]; [|done].
  unfold begins_no_trivia. destruct (Z.ltb_spec 127 c); cbn [andb].
  - destruct (is_white_space_like c) eqn:E.
    + apply white_space_not_start in E. unfold is_identifier_start in Hid. rewrite E in Hid.
      exfalso. revert Hid. unfold is_ascii_letter, in_range. chars. rewrite andb_false_r. lia.
    + chars. lia.
  - rewrite orb_false_r. revert Hid. unfold is_identifier_start, is_ascii_letter, in_range. chars. lia.
Qed.

Lemma wp_scan_word {s0 s p fl tv} otherwise :
  at_pos s0 s p p fl tv →
  (∀ s', at_pos s0 s' p p fl tv → wp otherwise (round_post s0 p) s') →
  wp (scan_word otherwise) (round_post s0 p) s.
Proof.
  intros Hat Hother. pose proof (at_range _ _ _ _ _ _ Hat) as Hp. unfold scan_word. wp_step.
  wp_apply wp_scan_identifier; [done|lia| |]; clear dependent s.
  - intros s q fl' tv' Hat Hq Hid. rewrite Z.add_0_r in *. do 3 wp_step.
    destruct (get_identifier_token_some tv') as (kind & Hkind & Hk). eapply wp_lift; [exact Hkind|].
    apply wp_token_of. wp_apply wp_take_spelled; [wp_lia|lia| | |].
    + destruct Hk as [->|[Hk _]]; [done|by intros ->].
    + destruct Hk as [->|[Hk Hsp]]; [by apply spelled_plain|]. split; [|done].
      revert Hk. unfold is_keyword, is_punctuation, in_range. lia.
    + intros _. by apply identifier_stops.
  - intros s Hat. rewrite Z.add_0_r in *. by apply Hother.
Qed.

Lemma wp_scan_hash {s0 s p fl tv} :
  at_pos s0 s p p fl tv → radix_flag fl = false → char_of (text s0) p = ch "#" →
  wp scan_hash (round_post s0 p) s.
Proof.
  intros Hat Hfl Hc. pose proof (at_range _ _ _ _ _ _ Hat) as Hp.
  assert (p < text_length (text s0)) as Hlt by (by eapply char_of_inside).
  pose proof (at_bytes _ _ _ _ _ _ Hat) as Hbytes. pose proof (at_fits _ _ _ _ _ _ Hat) as Hfits.
  unfold scan_hash. do 4 wp_step. wp_step; [wp_step|].
  - apply Z.eqb_eq in Eb, Eb0. subst p. wp_step. wp_step.
    wp_step. wp_apply wp_shebang_line. clear dependent s. intros s e Hat He Hline.
    eapply wp_skipped; [eassumption|lia|done|]. intros _. apply rtc_once.
    by apply skip_step_shebang.
  - apply Z.eqb_eq in Eb. apply Z.eqb_neq in Eb0.
    assert (p + 1 < text_length (text s0)) by (by eapply char_of_inside). wp_step. wp_step.
    apply wp_token_of. wp_apply wp_take_token; [wp_lia|lia|done|]. intros _.
    apply skip_stops_hash; done || lia.
  - apply Z.eqb_neq in Eb. assert (skip_stops (text s0) p) as Hstop.
    { apply skip_stops_hash; try done; [lia|]. by intros ->. }
    wp_step. wp_apply wp_scan_identifier; [lia|lia| |]; clear dependent s.
    + intros s q fl' tv' Hat Hq _. wp_steps. apply wp_token_of.
      wp_apply wp_take_token; [wp_lia|lia|done|done].
    + intros s Hat. wp_steps. apply wp_token_of. wp_apply wp_take_token; [wp_lia|lia|done|done].
Qed.

(** [c] is what the round dispatched on: no arm but the last one takes it. *)
Definition left_over (c : Z) : bool :=
  negb ((c =? 10) || (c =? 13) || (c =? 9) || (c =? 11) || (c =? 12) || (c =? ch " ")
        || (c =? ch "/") || (c =? ch "<") || (c =? ch "|") || (c =? ch "=") || (c =? ch ">")
        || (c =? ch "#")).

Lemma wp_scan_other {s0 s p fl tv} :
  at_pos s0 s p p fl tv → radix_flag fl = false → p < text_length (text s0) →
  left_over (char_of (text s0) p) = true →
  wp scan_other (round_post s0 p) s.
Proof.
  intros Hat Hfl Hlt Hc. pose proof (at_range _ _ _ _ _ _ Hat) as Hp. unfold scan_other.
  do 2 wp_step. pose proof (decode_at_size (text s0) p ltac:(lia)) as Hsize.
  pose proof (skip_step_wide (text s0) p ltac:(lia)) as Hwide.
  pose proof (skip_stops_rune (text s0) p Hp) as Hrune.
  assert ((decode_at (text s0) p).1 < 128 → left_over (decode_at (text s0) p).1 = true) as Hleft.
  { destruct (decode_at_cases (text s0) p) as [[_ ->]|(_ & ? & _)]; [apply Hat|lia|done|lia]. }
  assert (begins_no_trivia (decode_at (text s0) p).1 = true
    ∨ 127 < (decode_at (text s0) p).1 ∧ is_white_space_like (decode_at (text s0) p).1 = true) as Hcase.
  { set (c := (decode_at (text s0) p).1) in *. clearbody c. clear -Hleft.
    unfold begins_no_trivia. destruct (Z.ltb_spec 127 c); cbn [andb].
    - destruct (is_white_space_like c) eqn:E; [by right|left]. chars. lia.
    - left. rewrite orb_false_r. apply Hleft. lia. }
  destruct (decode_at (text s0) p) as [rune size] eqn:E. cbn [fst snd] in *. wp_step; [|wp_step; [|wp_step]].
  - apply Z.eqb_eq in Eb as ->. do 6 wp_step. apply wp_token_of.
    wp_apply wp_take_token; [wp_lia|lia|done|]. intros _. by apply Hrune.
  - assert (127 < rune ∧ is_white_space_like rune = true) as [H127 Hw].
    { destruct Hcase as [Hno|]; [|done]. unfold is_white_space_like. rewrite Eb0. split; [|done].
      revert Hno Eb0. unfold begins_no_trivia, is_white_space_single_line, in_range. chars. lia. }
    do 2 wp_step. wp_step. wp_apply wp_gets_trivia. wp_step.
    + eapply wp_skipped; [eassumption|lia|done|]. intros _. apply rtc_once. by apply Hwide.
    + wp_step. wp_apply wp_white_space. intros s' q Hat' Hq. apply wp_token_of.
      wp_apply wp_take_token; [wp_lia|lia|done|]. intros [Htriv _]. rewrite Htriv, orb_true_r in Eb1. done.
  - assert (127 < rune ∧ is_white_space_like rune = true) as [H127 Hw].
    { destruct Hcase as [Hno|]; [|done]. unfold is_white_space_like. rewrite Eb1, orb_true_r.
      split; [|done]. revert Hno Eb1. unfold begins_no_trivia, is_line_break. chars. lia. }
    do 4 wp_step. eapply wp_skipped; [eassumption|lia|by rewrite radix_flag_lor|]. intros _.
    apply rtc_once. by apply Hwide.
  - wp_apply wp_invalid_character; [done|]. intros _. apply Hrune. destruct Hcase as [?|[_ Hw]]; [done|].
    unfold is_white_space_like in Hw. by rewrite Eb0, Eb1 in Hw.
Qed.

(** ** A round *)

Lemma wp_scan_text {s0 s p fl tv} :
  at_pos s0 s p p fl tv → p < text_length (text s0) → (plain s0 → skip_stops (text s0) p) →
  wp (value ← scan_string false; set_value value;; token_of (take_token StringLiteral 0))
    (round_post s0 p) s
  ∧ wp (token ← scan_template_and_set_token_value false; token_of (take_token token 0))
    (round_post s0 p) s.
Proof.
  intros Hat Hlt Hstop. split; wp_step.
  - wp_apply wp_scan_string; [done|]. clear dependent s. intros s q fl' v Hat Hq.
    do 2 wp_step. apply wp_token_of. wp_apply wp_take_token; [wp_lia|lia|done|done].
  - wp_apply wp_scan_template_and_set_token_value; [done|]. clear dependent s.
    intros s q fl' tv' kind Hat Hq Hk. apply wp_token_of.
    wp_apply wp_take_token; [wp_lia|lia|done|done].
Qed.

Lemma wp_scan_round {s0 s p ts fl tv} :
  at_pos s0 s p ts fl tv → (token (state s0) = MinusToken → 1 <= p) → radix_flag fl = false →
  wp (scan_round tt) (round_post s0 p) s.
Proof.
  intros Hat Hm Hfl. pose proof (at_range _ _ _ _ _ _ Hat) as Hp. unfold scan_round.
  do 6 wp_step. wp_step.
  { assert (p = text_length (text s0)) as Hend by wp_lia.
    apply wp_token_of. unfold take_token. wp_steps. exists s, (p + 0), fl, tv. split; [done|].
    split; [done|]. split; [by split|]. split; [|intros _; unfold skip_stops, skip_trivia_body;
      destruct (Z.leb_spec (text_length (text s0)) p); [done|lia]].
    rewrite decide_True by done. split; lia. }
  assert (p < text_length (text s0)) as Hlt by wp_lia.
  assert (begins_no_trivia (char_of (text s0) p) = true → char_of (text s0) p < 128 →
    plain s0 → skip_stops (text s0) p) as Hstop by (intros; apply skip_stops_char; done || lia).
  wp_step.
  { wp_apply wp_scan_blank; [done|done| |]; revert Eb0; unfold is_ascii_blank, in_range; chars; lia. }
  wp_step; [wp_apply wp_scan_line_break; [done|done|done|lia]|].
  wp_step; [wp_apply wp_scan_text; [done|apply Hstop; revert Eb2; unfold begins_no_trivia; chars; lia]|].
  wp_step; [wp_apply wp_scan_text; [done|apply Hstop; revert Eb3; unfold begins_no_trivia; chars; lia]|].
  wp_step; [wp_apply wp_scan_slash; [done|by apply Z.eqb_eq]|].
  wp_step.
  { apply Z.eqb_eq in Eb5. apply wp_token_of. wp_apply wp_scan_zero; [done|done|done|].
    apply Hstop; by rewrite Eb5. }
  wp_step.
  { apply wp_token_of. wp_apply wp_take_number; [done|done| |].
    - left. revert Eb6. unfold is_digit, in_range. chars. lia.
    - apply Hstop; revert Eb6; unfold begins_no_trivia, in_range; chars; lia. }
  wp_step.
  { apply Z.eqb_eq in Eb7. apply wp_token_of. wp_apply wp_scan_dot; [done|done|done|].
    apply Hstop; by rewrite Eb7. }
  wp_step; [wp_apply wp_scan_hash; [done|by apply Z.eqb_eq]|].
  wp_step.
  { wp_apply wp_scan_angle_or_bar; [done|done|]. revert Eb9. unfold marker_char. lia. }
  wp_step; [wp_apply wp_scan_asterisk; [done|done|by apply Z.eqb_eq]|].
  wp_step.
  { wp_apply wp_take_operator; [done| |].
    - unfold contains_byte, dispatched in *. by rewrite existsb_app, Eb11.
    - apply Hstop; revert Eb11; unfold contains_byte, operator_bytes;
        cbn [bs existsb fmap list_fmap String.list_ascii_of_string]; unfold begins_no_trivia; chars; lia. }
  wp_step.
  { wp_apply wp_scan_word. clear dependent s. intros s Hat. wp_apply wp_invalid_character; [done|].
    apply Z.eqb_eq in Eb12. apply Hstop; by rewrite Eb12. }
  wp_apply wp_scan_word. clear dependent s. intros s Hat. wp_apply wp_scan_other; [done|done|].
  unfold left_over. revert Eb0 Eb1 Eb4 Eb8 Eb9. chars. lia.
Qed.
End Spec.
