(* ===== verification/ScannerTokens.v ===== *)
(** What [scan] promises: it never panics and moves on inside the text, a token
    starts where the trivia before it ends, and scanning again and again divides the
    text into tokens and reaches its end. *)

From stdpp Require Import gmap.
From S2P Require Import Prelude Wtf8 TextEdits BigInt ScannerKinds ScannerState ScannerWp.
From S2P Require Import ScannerDigits ScannerTrivia ScannerScan ScannerScanSpec.

Local Open Scope Z_scope.

(** ** The whole scan *)

(** What scanning leaves alone: the text and the settings; directives and
    diagnostics are only added. *)
Record kept (s s' : Scanner) : Prop := {
  kept_text : text s' = text s;
  kept_end : end_ s' = end_ s;
  kept_language : language_variant s' = language_variant s;
  kept_target : script_target s' = script_target s;
  kept_trivia : skips_trivia s' = skips_trivia s;
  kept_owner : checkpoint_owner s' = checkpoint_owner s;
  kept_next_id : next_checkpoint_id s' = next_checkpoint_id s;
  kept_checkpoints : checkpoints s' = checkpoints s;
  kept_jsdoc : skip_jsdoc_leading_asterisks (state s') = skip_jsdoc_leading_asterisks (state s);
  kept_directives : comment_directives (state s) `prefix_of` comment_directives (state s');
  kept_sink : ∃ ds, error_sink s' = sink_app (error_sink s) ds ∧ Forall (in_text (text s)) ds;
}.

(** [kind] was scanned from [s], leaving [s']. *)
Record scanned (s : Scanner) (kind : SyntaxKind) (s' : Scanner) : Prop := {
  scanned_kept : kept s s';
  scanned_token : token (state s') = kind;
  scanned_full_start : full_start_pos (state s') = pos (state s);
  scanned_start : pos (state s) <= token_start (state s') <= pos (state s');
  scanned_end : pos (state s') <= text_length (text s);
  scanned_progress :
    if decide (kind = EndOfFile) then token_start (state s') = text_length (text s)
    else token_start (state s') < pos (state s');
  scanned_spelled : spelled (text s) (token_start (state s')) (pos (state s'))
    (token_value (state s')) kind;
}.

Section Tokens.
Context `{JsNum, NumBigint, IdentifierTables}.

(** The state in which the loop of [scan] starts. *)
Definition scan_from (s : Scanner) : Scanner :=
  s <| state := (state s) <| full_start_pos := pos (state s) |> <| token_flags := 0 |> |>.

Lemma scan_loop s : scan s = loop scan_round tt (scan_from s).
Proof. done. Qed.

Lemma ok_scan_from s : ok s → ok (scan_from s).
Proof. intros [? ? ? ? ? []]. by split. Qed.

Lemma wp_scan_loop s :
  ok s → radix_flag (token_flags (state s)) = false →
  wp (loop scan_round tt) (λ kind s', ∃ p, pos (state s) <= p ∧ token_post s p kind s'
    ∧ (plain s → rtc (skip_step (text s)) (pos (state s)) p)) s.
Proof.
  intros Hok Hfl. pose proof (ok_pos s Hok) as Hpos.
  apply (wp_loop _ (λ _ s', ∃ q ts fl tv, at_pos s s' q ts fl tv ∧ pos (state s) <= q
    ∧ radix_flag fl = false ∧ (plain s → rtc (skip_step (text s)) (pos (state s)) q))
    (λ _ s', text_length (text s) - pos (state s'))).
  - eexists _, _, _, _. split_and!; [by apply at_refl|lia|done|done].
  - unfold text_length. lia.
  - intros [] s1 (q & ts & fl & tv & Hat & Hq & Hfl' & Hsteps).
    rewrite (at_position _ _ _ _ _ _ Hat). pose proof (at_range _ _ _ _ _ _ Hat). split; [lia|].
    assert (token (state s) = MinusToken → 1 <= q) as Hm by (intros Ht%(ok_minus s Hok); lia).
    apply (wp_mono _ _ _ _ (wp_scan_round Hat Hm Hfl')). intros [[]|kind] s2.
    + intros (q' & ts' & fl2 & tv2 & Hat' & Hlt & Hfl2 & Hsteps').
      rewrite (at_position _ _ _ _ _ _ Hat'). split; [|lia]. exists q', ts', fl2, tv2.
      split_and!; [done|lia|done|]. intros Hplain. etrans; [by apply Hsteps|by apply Hsteps'].
    + intros Hpost. by exists q.
Qed.

Lemma scan_spec s :
  ok s → wp scan (λ kind s', ok s' ∧ scanned s kind s'
    ∧ (plain s → rtc (skip_step (text s)) (pos (state s)) (token_start (state s'))
       ∧ skip_stops (text s) (token_start (state s')))) s.
Proof.
  intros Hok. unfold wp. rewrite scan_loop.
  apply (wp_mono _ _ _ _ (wp_scan_loop (scan_from s) (ok_scan_from s Hok) eq_refl)).
  intros kind s' (p & Hp & (s1 & q & fl & tv & Hat & -> & Hsp & Hend & Hstop) & Hsteps).
  change (text (scan_from s)) with (text s) in *. change (pos (state (scan_from s))) with (pos (state s)) in *.
  pose proof (ok_pos s Hok) as Hpos. destruct Hat as [Hf He Hb Hfit Hcoh Hq Hr Hst Hfl Hv].
  assert (p <= q) as Hpq by (destruct (decide _); lia). split_and!.
  - split; cbn; rewrite ?(frame_text _ _ Hf); [done|done|done|lia| |by destruct Hcoh].
    intros ->. rewrite decide_False in Hend by done. lia.
  - destruct Hf as [? ? ? ? ? ? ? ? Hfull ? ? ? Hsink].
    split; cbn; [by split|done|exact Hfull|lia|rewrite Hq; apply Hr| |].
    + rewrite Hst. destruct (decide _); lia.
    + rewrite Hst, Hq, Hv. exact Hsp.
  - intros Hplain. cbn. rewrite Hst. by split; [apply Hsteps|apply Hstop].
Qed.
End Tokens.

(** [C17] Scanning a token never panics: the scanner stays well formed, keeps its text
    and settings, reports only inside the text, and the new token begins behind the
    end of the last one and ends inside the text, behind its own start unless the
    text has ended; a punctuation token has the text its kind prints as, and a keyword,
    which may be written with escapes, that value. *)
Theorem scan_total `{JsNum, NumBigint, IdentifierTables} s :
  ok s → ∃ kind s', scan s = Some (kind, s') ∧ ok s' ∧ scanned s kind s'.
Proof.
  intros Hok. pose proof (scan_spec s Hok) as Hwp. apply wp_some in Hwp as (kind & s' & Hs & Hok' & Hpost & _).
  by exists kind, s'.
Qed.

(** [C18] The two readings of trivia agree: a scanner that skips trivia, and no stars
    of a comment, starts its token exactly where [skip_trivia] ends. *)
Theorem scan_starts_after_trivia `{JsNum, NumBigint, IdentifierTables} s kind s' :
  ok s → skips_trivia s = true → skip_jsdoc_leading_asterisks (state s) = 0 →
  scan s = Some (kind, s') →
  skip_trivia (text s) (pos (state s)) = Some (token_start (state s')).
Proof.
  intros Hok Htriv Hjs Hscan. pose proof (scan_spec s Hok) as Hwp. unfold wp in Hwp. rewrite Hscan in Hwp.
  destruct Hwp as (_ & _ & Hplain). destruct Hplain as [Hsteps Hstop]; [done|].
  destruct Hok. by apply skip_trivia_reaches.
Qed.

(** ** All tokens of a text *)

Record Token := MkToken { token_kind : SyntaxKind; full_start : Z; token_from : Z; token_to : Z }.

Section All.
Context `{JsNum, NumBigint, IdentifierTables}.

Definition last_token (s : Scanner) : Token :=
  MkToken (token (state s)) (full_start_pos (state s)) (token_start (state s)) (pos (state s)).

(** Scans to the end of the text. *)
Fixpoint scan_all (fuel : nat) : M (list Token) :=
  match fuel with
  | O => panic
  | S fuel =>
      kind ← scan;
      token ← gets last_token;
      if kind_eqb kind EndOfFile then mret [token]
      else tokens ← scan_all fuel; mret (token :: tokens)
  end.

(** Each token begins where the last one ended, the trivia before it included, and
    the end of the file is the last one, at the end of the text. *)
Inductive tiles (t : bytes) : Z → list Token → Prop :=
  | tiles_end p :
      p <= text_length t →
      tiles t p [MkToken EndOfFile p (text_length t) (text_length t)]
  | tiles_token kind p q r tokens :
      kind ≠ EndOfFile → p <= q → q < r → r <= text_length t → tiles t r tokens →
      tiles t p (MkToken kind p q r :: tokens).

Lemma scan_all_tiles fuel : ∀ s,
  ok s → text_length (text s) - pos (state s) < Z.of_nat fuel →
  ∃ tokens s', scan_all fuel s = Some (tokens, s') ∧ tiles (text s) (pos (state s)) tokens.
Proof.
  induction fuel as [|fuel IH]; intros s Hok Hfuel; [pose proof (ok_pos s Hok); lia|].
  pose proof (scan_spec s Hok) as Hwp. apply wp_some in Hwp as (kind & s' & Hs & Hok' & [Hk Ht Hf Hst He Hp] & _).
  cbn [scan_all]. unfold mbind, M_bind, gets. rewrite Hs. pose proof (kept_text _ _ Hk) as Htext.
  destruct (kind_eqb kind EndOfFile) eqn:Ek.
  - apply kind_eqb_true in Ek as ->. rewrite decide_True in Hp by done. eexists _, _. split; [done|].
    unfold last_token. rewrite Ht, Hf, Hp. replace (pos (state s')) with (text_length (text s)) by lia.
    apply tiles_end. lia.
  - assert (kind ≠ EndOfFile) as Hne by (intros ->; by rewrite (proj2 (kind_eqb_true _ _) eq_refl) in Ek).
    rewrite decide_False in Hp by done.
    destruct (IH s' Hok') as (tokens & s2 & Hall & Htiles); [rewrite Htext; lia|].
    rewrite Hall. eexists _, _. split; [done|]. unfold last_token. rewrite Ht, Hf.
    apply tiles_token; [done|lia|lia|lia|]. by rewrite <-Htext.
Qed.

Definition full_text (t : bytes) (tok : Token) : bytes := sub t (full_start tok) (token_to tok).

Lemma tiles_text t p tokens :
  0 <= p → tiles t p tokens → concat (map (full_text t) tokens) = sub t p (text_length t).
Proof.
  intros Hp Ht. induction Ht as [p He|kind p q r tokens Hk Hpq Hqr Hr _ IH]; cbn.
  - by rewrite app_nil_r.
  - rewrite IH by lia. unfold full_text. cbn. apply sub_app; lia.
Qed.
End All.

(** [C16] Scanning again and again ends, after at most one token more than there are
    bytes left: each token begins, with the trivia before it, where the one before it
    ended, every token but the last one has a text, the last one is the end of the
    file, and together they are the text from the position on, byte for byte. *)
Theorem scan_all_tokens `{JsNum, NumBigint, IdentifierTables} s :
  ok s →
  ∃ tokens s', scan_all (S (length (text s))) s = Some (tokens, s')
    ∧ tiles (text s) (pos (state s)) tokens
    ∧ concat (map (full_text (text s)) tokens) = drop (Z.to_nat (pos (state s))) (text s).
Proof.
  intros Hok. pose proof (ok_pos s Hok) as Hp.
  destruct (scan_all_tiles (S (length (text s))) s Hok) as (tokens & s' & Hall & Htiles).
  { unfold text_length. lia. }
  exists tokens, s'. split_and!; [done|done|]. rewrite (tiles_text _ _ _ (proj1 Hp) Htiles).
  unfold sub, text_length. apply take_ge. rewrite length_drop. lia.
Qed.

(** ** The theorems on a concrete text *)

Lemma scan_total_witness :
  @ok plain_numbers (scanner_of sample)
  ∧ ∃ kind s', @scan plain_numbers plain_bigints latin_letters (scanner_of sample) = Some (kind, s')
      ∧ @ok plain_numbers s' ∧ scanned (scanner_of sample) kind s'.
Proof.
  split; [apply sample_ok|]. apply (@scan_total plain_numbers plain_bigints latin_letters), sample_ok.
Defined.

Lemma scan_starts_after_trivia_witness :
  let scan := @scan plain_numbers plain_bigints latin_letters in
  (@ok plain_numbers (scanner_of sample) ∧ skips_trivia (scanner_of sample) = true
   ∧ skip_jsdoc_leading_asterisks (state (scanner_of sample)) = 0
   ∧ ∃ s', scan (scanner_of sample) = Some (LetKeyword, s') ∧ token_start (state s') = 4)
  ∧ skip_trivia sample 0 = Some 4.
Proof.
  assert (∃ s', @scan plain_numbers plain_bigints latin_letters (scanner_of sample)
    = Some (LetKeyword, s') ∧ token_start (state s') = 4) as Hscan.
  { eexists. split; [vm_compute; reflexivity|vm_compute; reflexivity]. }
  split; [split_and!; [apply sample_ok|done|done|exact Hscan]|].
  destruct Hscan as (s' & Hs & <-).
  exact (@scan_starts_after_trivia plain_numbers plain_bigints latin_letters _ _ _ sample_ok eq_refl
    eq_refl Hs).
Defined.

Lemma scan_all_tokens_witness :
  @ok plain_numbers (scanner_of sample)
  ∧ ∃ tokens s', @scan_all plain_numbers plain_bigints latin_letters (S (length sample))
        (scanner_of sample) = Some (tokens, s')
      ∧ tiles sample 0 tokens
      ∧ concat (map (full_text sample) tokens) = sample.
Proof.
  split; [apply sample_ok|].
  exact (@scan_all_tokens plain_numbers plain_bigints latin_letters (scanner_of sample) sample_ok).
Defined.

Example sample_tokens :
  (λ r, map token_kind r.1) <$> @scan_all plain_numbers plain_bigints latin_letters 40 (scanner_of sample)
  = Some [LetKeyword; Identifier; EqualsToken; BigIntLiteral; PlusToken; StringLiteral; EndOfFile].
Proof. by vm_compute. Qed.
