(* ===== verification/ScannerRescan.v ===== *)
(** Reading a token again, and the tokens of JSX and JSDoc: the public methods of
    [crates/tsr_scanner/src/rescan.rs].

    A client that knows what it parses has the scanner go back to the start of its
    token and take more, less or something else. [rescan_slash_token] is modelled as
    the parser and the formatter call it, without reports about the flags and the
    body of a regular expression. *)

From stdpp Require Import gmap.
From S2P Require Import Prelude Wtf8 TextEdits BigInt ScannerKinds ScannerState.
From S2P Require Import ScannerWp ScannerDigits ScannerEscape ScannerLexemes.
From S2P Require Import ScannerTrivia ScannerScan.

Local Open Scope Z_scope.

(** ** Operators *)

(** Back to one byte behind the start of the token. *)
Definition after_first : M unit := ts ← get_token_start; set_pos (ts + 1).

Definition rescan_less_than_token : M SyntaxKind :=
  token ← get_token;
  when (kind_eqb token LessThanLessThanToken) (after_first;; set_token LessThanToken);;
  get_token.

(** Behind the first [>], without trivia: the operator that [>] begins. *)
Definition rescan_greater_than_token_inner : M unit :=
  after_first;;
  c ← char;
  if c =? ch ">" then
    c1 ← char_at 1;
    if c1 =? ch ">" then
      c2 ← char_at 2;
      (if c2 =? ch "=" then take_token GreaterThanGreaterThanGreaterThanEqualsToken 3
       else take_token GreaterThanGreaterThanGreaterThanToken 2);; mret tt
    else if c1 =? ch "=" then take_token GreaterThanGreaterThanEqualsToken 2;; mret tt
    else take_token GreaterThanGreaterThanToken 1;; mret tt
  else if c =? ch "=" then take_token GreaterThanEqualsToken 1;; mret tt
  else mret tt.

Definition rescan_greater_than_token : M SyntaxKind :=
  token ← get_token;
  when (kind_eqb token GreaterThanToken) rescan_greater_than_token_inner;;
  get_token.

(** The assertion that only the token [expected] is read again. *)
Definition assert_token (expected : SyntaxKind) : M unit :=
  token ← get_token; if kind_eqb token expected then mret tt else panic.

Definition rescan_asterisk_equals_token : M SyntaxKind :=
  assert_token AsteriskEqualsToken;; after_first;; take_token EqualsToken 0.

Definition rescan_question_token : M SyntaxKind :=
  assert_token QuestionQuestionToken;; after_first;; take_token QuestionToken 0.

Definition rescan_hash_token : M SyntaxKind :=
  token ← get_token;
  when (kind_eqb token PrivateIdentifier) (after_first;; set_token HashToken);;
  get_token.

(** ** Regular expressions *)

(** Where the body of a regular expression may end: its state is the position, whether
    a backslash precedes it, whether it is in a class, and whether a named group has
    been seen. A line break or the end of the text leaves it unterminated. *)
Record SlashState := MkSlash { sl_pos : Z; sl_escape : bool; sl_class : bool; sl_named : bool }.

(** [pos + 1 < end && text[pos + 1] == '?' && ...] after an opening parenthesis. *)
Definition starts_named_group (t : bytes) (e p : Z) : bool :=
  let at_ i := if p + i <? e then text_at t (p + i) else None in
  bool_decide (at_ 1 = Some (ch "?")) && bool_decide (at_ 2 = Some (ch "<"))
  && negb (bool_decide (at_ 3 = Some (ch "=")) || bool_decide (at_ 3 = Some (ch "!"))).

Definition slash_body (st : SlashState) : M (SlashState + Z * bool) :=
  let '(MkSlash p in_escape in_class named) := st in
  e ← get_end;
  if e <=? p then add_flags UNTERMINATED;; mret (inr (p, named))
  else
    t ← get_text;
    c ← lift (text_at t p);
    if is_line_break c then add_flags UNTERMINATED;; mret (inr (p, named))
    else if in_escape then mret (inl (MkSlash (p + 1) false in_class named))
    else if (c =? ch "/") && negb in_class then mret (inr (p, named))
    else if c =? ch "[" then mret (inl (MkSlash (p + 1) false true named))
    else if c =? ch "\" then mret (inl (MkSlash (p + 1) true in_class named))
    else if c =? ch "]" then mret (inl (MkSlash (p + 1) false false named))
    else mret (inl (MkSlash (p + 1) false in_class
                 (named || negb in_class && (c =? ch "(") && starts_named_group t e p))).

(** How far an unterminated body is taken to reach: over balanced groups, classes and
    quantifiers, to the first bracket that closes none of them. *)
Record BodyState := MkBody {
  bo_pos : Z; bo_escape : bool; bo_classes : Z; bo_quantifier : bool; bo_groups : Z }.

Definition body_step (c : Z) (st : BodyState) : option BodyState :=
  let '(MkBody p in_escape classes in_quantifier groups) := st in
  if in_escape then Some (MkBody (p + 1) false classes in_quantifier groups)
  else if c =? ch "\" then Some (MkBody (p + 1) true classes in_quantifier groups)
  else if c =? ch "[" then Some (MkBody (p + 1) false (classes + 1) in_quantifier groups)
  else if (c =? ch "]") && negb (classes =? 0) then
    Some (MkBody (p + 1) false (classes - 1) in_quantifier groups)
  else if negb (classes =? 0) then Some (MkBody (p + 1) false classes in_quantifier groups)
  else if c =? ch "{" then Some (MkBody (p + 1) false classes true groups)
  else if (c =? ch "}") && in_quantifier then Some (MkBody (p + 1) false classes false groups)
  else if in_quantifier then Some (MkBody (p + 1) false classes in_quantifier groups)
  else if c =? ch "(" then Some (MkBody (p + 1) false classes in_quantifier (groups + 1))
  else if (c =? ch ")") && negb (groups =? 0) then
    Some (MkBody (p + 1) false classes in_quantifier (groups - 1))
  else if (c =? ch ")") || (c =? ch "]") || (c =? ch "}") then None
  else Some (MkBody (p + 1) false classes in_quantifier groups).

Definition balanced_body (body_end : Z) (st : BodyState) : M (BodyState + Z) :=
  if body_end <=? bo_pos st then mret (inr (bo_pos st))
  else
    t ← get_text;
    c ← lift (text_at t (bo_pos st));
    match body_step c st with
    | Some st => mret (inl st)
    | None => mret (inr (bo_pos st))
    end.

(** Back over white space and semicolons, not before the body. *)
Definition trim_body (body_start p : Z) : M (Z + Z) :=
  if p <=? body_start then mret (inr p)
  else
    b ← slice 0 p;
    let '(rune, size) := decode_last_utf8 b in
    if is_white_space_like rune || (rune =? ch ";") then mret (inl (p - Z.of_nat size))
    else mret (inr p).

Section Rescan.
Context `{JsNum, NumBigint, IdentifierTables}.

(** Past the flags. *)
Definition regexp_flags_body (p : Z) : M (Z + Z) :=
  e ← get_end;
  if e <=? p then mret (inr p)
  else
    rest ← tail p;
    let '(rune, size) := decode_utf8 rest in
    if (rune =? RUNE_ERROR) || negb (is_identifier_part rune) then mret (inr p)
    else mret (inl (p + Z.of_nat size)).

Definition rescan_slash_token : M SyntaxKind :=
  token ← get_token;
  if negb (kind_eqb token SlashToken) && negb (kind_eqb token SlashEqualsToken) then mret token
  else
    ts ← get_token_start;
    let body_start := ts + 1 in
    '(body_end, _) ← loop slash_body (MkSlash body_start false false false);
    flags ← get_flags;
    p ← (if has_flag flags UNTERMINATED then
           p ← loop (balanced_body body_end) (MkBody body_start false 0 false 0);
           p ← loop (trim_body body_start) p;
           error_at Unterminated_regular_expression_literal ts (p - ts) [];;
           mret p
         else
           p ← loop regexp_flags_body (body_end + 1);
           set_pos p;;
           mret p);
    set_pos p;;
    value ← slice ts p;
    set_value value;;
    take_token RegularExpressionLiteral 0.

(** ** Templates *)

Definition rescan_template_token (tagged : bool) : M SyntaxKind :=
  ts ← get_token_start;
  set_pos ts;;
  token ← scan_template_and_set_token_value (negb tagged);
  set_token token;;
  mret token.

(** ** JSX *)

(** The text of an element, to the next brace or tag. [first_non_whitespace] is -1 once
    a line break has been seen before anything but white space. *)
Definition jsx_text_body (multiline : bool) (first_non_whitespace : Z)
  : M (Z + option Z) :=
  '(rune, size) ← char_and_size;
  if (size =? 0) || (rune =? ch "{") then mret (inr (Some first_non_whitespace))
  else
    t ← get_text;
    p ← get_pos;
    marker ← (if rune =? ch "<" then lift (is_conflict_marker_trivia t p) else mret false);
    if marker : bool then consume_conflict_marker;; mret (inr None)
    else if rune =? ch "<" then mret (inr (Some first_non_whitespace))
    else
      when (rune =? ch ">") (error_at Unexpected_token_Did_you_mean_or_gt p 1 []);;
      when (rune =? ch "}") (error_at Unexpected_token_Did_you_mean_or_rbrace p 1 []);;
      if is_line_break rune && (first_non_whitespace =? 0) then advance size;; mret (inl (-1))
      else if negb multiline && is_line_break rune && (0 <? first_non_whitespace)
      then mret (inr (Some first_non_whitespace))
      else
        advance size;;
        mret (inl (if is_white_space_like rune then first_non_whitespace else p)).

Definition scan_jsx_token_ex (multiline : bool) : M SyntaxKind :=
  p ← get_pos;
  set_full_start p;;
  set_token_start p;;
  c ← char;
  if c <? 0 then take_token EndOfFile 0
  else if c =? ch "<" then
    c1 ← char_at 1;
    if c1 =? ch "/" then take_token LessThanSlashToken 2 else take_token LessThanToken 1
  else if c =? ch "{" then take_token OpenBraceToken 1
  else
    found ← loop (jsx_text_body multiline) 0;
    match found with
    | None => take_token ConflictMarkerTrivia 0
    | Some first_non_whitespace =>
        q ← get_pos;
        value ← slice p q;
        set_value value;;
        take_token (if first_non_whitespace =? -1 then JsxTextAllWhiteSpaces else JsxText) 0
    end.

Definition scan_jsx_token : M SyntaxKind := scan_jsx_token_ex true.

Definition rescan_jsx_token (multiline : bool) : M SyntaxKind :=
  p ← get_full_start;
  set_pos p;;
  set_token_start p;;
  token ← scan_jsx_token_ex multiline;
  set_token token;;
  mret token.

(** An identifier takes the dashes behind it along. *)
Definition scan_jsx_identifier : M SyntaxKind :=
  token ← get_token;
  when (token_is_identifier_or_keyword token)
    (suffix ← scan_identifier_parts Jsx;
     append_token_value suffix;;
     value ← get_value;
     kind ← lift (get_identifier_token value);
     set_token kind);;
  get_token.

Definition white_space_like_body (st : unit) : M (unit + unit) :=
  '(rune, size) ← char_and_size;
  if (size =? 0) || negb (is_white_space_like rune) then mret (inr tt)
  else advance size;; mret (inl tt).

Definition scan_jsx_attribute_value : M SyntaxKind :=
  p ← get_pos;
  set_full_start p;;
  loop white_space_like_body tt;;
  q ← get_pos;
  set_token_start q;;
  c ← char;
  if (c =? 34) || (c =? 39) then
    value ← scan_string true;
    set_value value;;
    take_token StringLiteral 0
  else scan.

Definition rescan_jsx_attribute_value : M SyntaxKind :=
  p ← get_full_start;
  set_pos p;;
  set_token_start p;;
  scan_jsx_attribute_value.

(** ** JSDoc *)

Definition can_follow_jsdoc_at : M bool :=
  p ← get_pos;
  t ← get_text;
  if text_length t <=? p then mret true
  else
    rest ← tail p;
    let '(rune, _) := decode_utf8 rest in
    mret (is_identifier_start rune || is_white_space_single_line rune || is_line_break rune).

(** The white space behind a first blank. *)
Definition jsdoc_blank_body (st : unit) : M (unit + unit) :=
  '(rune, size) ← char_and_size;
  if (size =? 0) || negb (is_white_space_single_line rune) then mret (inr tt)
  else advance size;; mret (inl tt).

Definition jsdoc_punctuation (rune : Z) : option SyntaxKind :=
  if rune =? ch "@" then Some AtToken
  else if rune =? ch "*" then Some AsteriskToken
  else if rune =? ch "{" then Some OpenBraceToken
  else if rune =? ch "}" then Some CloseBraceToken
  else if rune =? ch "[" then Some OpenBracketToken
  else if rune =? ch "]" then Some CloseBracketToken
  else if rune =? ch "(" then Some OpenParenToken
  else if rune =? ch ")" then Some CloseParenToken
  else if rune =? ch "<" then Some LessThanToken
  else if rune =? ch ">" then Some GreaterThanToken
  else if rune =? ch "=" then Some EqualsToken
  else if rune =? ch "," then Some CommaToken
  else if rune =? ch "." then Some DotToken
  else if rune =? ch "`" then Some BacktickToken
  else if rune =? ch "#" then Some HashToken
  else None.

Definition scan_jsdoc_token : M SyntaxKind :=
  p ← get_pos;
  set_full_start p;;
  set_flags 0;;
  t ← get_text;
  if text_length t <=? p then take_token EndOfFile 0
  else
    set_token_start p;;
    '(rune, size) ← char_and_size;
    advance size;;
    if (rune =? 9) || (rune =? 11) || (rune =? 12) || (rune =? ch " ") then
      loop jsdoc_blank_body tt;;
      take_token WhitespaceTrivia 0
    else if (rune =? 13) || (rune =? 10) then
      c ← char;
      when ((rune =? 13) && (c =? 10)) (advance 1);;
      add_flags PRECEDING_LINE_BREAK;;
      take_token NewLineTrivia 0
    else
      match jsdoc_punctuation rune with
      | Some token => take_token token 0
      | None =>
          set_pos p;;
          found ← scan_identifier 0 Jsx;
          if found : bool then
            value ← get_value;
            kind ← lift (get_identifier_token value);
            take_token kind 0
          else
            set_pos (p + size);;
            take_token Unknown 0
      end.

(** An at sign starts a tag when white space precedes it and an identifier follows. *)
Definition at_jsdoc_tag (p size : Z) : M bool :=
  before ← slice 0 p;
  if is_white_space_single_line (decode_last_utf8 before).1 then
    rest ← tail (p + size);
    mret (is_identifier_start (decode_utf8 rest).1)
  else mret false.

Definition jsdoc_text_body (in_backticks : bool) (st : unit) : M (unit + unit) :=
  '(rune, size) ← char_and_size;
  p ← get_pos;
  t ← get_text;
  if (text_length t <=? p) || is_line_break rune || (rune =? ch "`") then mret (inr tt)
  else
    stop ← (if in_backticks then mret false
            else if rune =? ch "{" then mret true
            else if (rune =? ch "@") && (0 <=? p) then at_jsdoc_tag p size
            else mret false);
    if stop : bool then mret (inr tt) else advance size;; mret (inl tt).

Definition scan_jsdoc_comment_text_token (in_backticks : bool) : M SyntaxKind :=
  p ← get_pos;
  set_full_start p;;
  set_flags 0;;
  t ← get_text;
  if text_length t <=? p then take_token EndOfFile 0
  else
    set_token_start p;;
    loop (jsdoc_text_body in_backticks) tt;;
    q ← get_pos;
    if q =? p then scan_jsdoc_token
    else
      value ← slice p q;
      set_value value;;
      take_token JSDocCommentTextToken 0.
End Rescan.
