(* ===== verification/ScannerRescanSpec.v ===== *)
(** Every way a client has of moving the scanner on leaves it settled: well formed, with
    its positions inside the text and in front of where it stands. *)

From stdpp Require Import gmap.
From S2P Require Import Prelude Wtf8 TextEdits BigInt ScannerKinds ScannerState ScannerWp.
From S2P Require Import ScannerDigits ScannerEscape ScannerLexemes ScannerTrivia.
From S2P Require Import ScannerTrivia ScannerScan ScannerScanSpec ScannerTokens ScannerRescan.

Local Open Scope Z_scope.

(** ** Settled scanners *)

Section Settled.
Context `{JsNum}.

(** A token, unless it is the end of the file or nothing has been scanned, has a text. *)
Definition has_width (kind : SyntaxKind) : Prop := kind ≠ EndOfFile ∧ kind ≠ Unknown.

Definition is_slash (kind : SyntaxKind) : bool :=
  kind_eqb kind SlashToken || kind_eqb kind SlashEqualsToken.

Record settled (s : Scanner) : Prop := {
  settled_ok : ok s;
  settled_full_start : 0 <= full_start_pos (state s) <= pos (state s);
  settled_start : 0 <= token_start (state s) <= pos (state s);
  settled_width : has_width (token (state s)) →
    full_start_pos (state s) <= token_start (state s) < pos (state s);
  settled_slash : is_slash (token (state s)) = true → char_of (text s) (token_start (state s)) = ch "/";
}.

Lemma plain_kind_not_slash kind : plain_kind kind = true → is_slash kind = false.
Proof. by destruct kind. Qed.

(** From [s], the token [kind] was read, which left [s']. *)
Record settles (s : Scanner) (kind : SyntaxKind) (s' : Scanner) : Prop := {
  settles_settled : settled s';
  settles_kept : kept s s';
  settles_token : token (state s') = kind;
}.

#[global] Instance kept_refl : Reflexive kept.
Proof. intros s. split; try done. by exists []. Qed.

#[global] Instance kept_trans : Transitive kept.
Proof.
  intros s1 s2 s3 H1 H2. destruct H1, H2. split; try congruence; [by etrans|].
  destruct kept_sink as (ds & Heq & Hds), kept_sink0 as (ds' & -> & Hds').
  exists (ds ++ ds'). split; [by rewrite sink_app_app, Heq|]. apply Forall_app.
  split; [done|]. by rewrite <-kept_text.
Qed.

Lemma at_kept {s0 s p ts fl tv} : at_pos s0 s p ts fl tv → kept s0 s.
Proof. intros [[]]. by split. Qed.

(** Where the token and its full start are set is of no concern. *)
Lemma kept_state s st :
  skip_jsdoc_leading_asterisks st = skip_jsdoc_leading_asterisks (state s) →
  comment_directives st = comment_directives (state s) → kept s (s <| state := st |>).
Proof. intros Hj Hd. split; cbn; try done; [by rewrite Hd|]. by exists []. Qed.

Lemma settles_from s s1 kind s' : kept s s1 → settles s1 kind s' → settles s kind s'.
Proof. intros Hk []. split; [done|by etrans|done]. Qed.

Lemma settled_at s :
  settled s →
  at_pos s s (pos (state s)) (token_start (state s)) (token_flags (state s)) (token_value (state s)).
Proof. intros [Hok _ _ _ _]. by apply at_refl. Qed.

(** Naming a token that ends where the scanner stands. *)
Lemma at_settles {s0 s q ts fl tv} kind :
  at_pos s0 s q ts fl tv → is_slash kind = false →
  0 <= full_start_pos (state s0) <= q → 0 <= ts <= q → (has_width kind → full_start_pos (state s0) <= ts < q) →
  settles s0 kind (s <| state := (state s) <| token := kind |> |>).
Proof.
  intros Hat Hsl Hfull Hts Hw. pose proof (at_text Hat) as Ht. pose proof (at_kept Hat) as Hk.
  assert (full_start_pos (state s) = full_start_pos (state s0)) as Hf by apply Hat.
  destruct Hat as [_ He Hb Hfits Hcoh Hpos Hr Hst _ _].
  split; [|etrans; [exact Hk|by apply kept_state]|done].
  split; cbn; rewrite ?Hf; [|lia|lia|rewrite Hpos, Hst; done|by rewrite Hsl].
  split; cbn; rewrite ?Ht; [done|done|done|lia| |by destruct Hcoh].
  intros ->. assert (full_start_pos (state s0) <= ts < q); [by apply Hw|lia].
Qed.

Lemma wp_take_settles {s0 s q ts fl tv} kind n (Q : SyntaxKind → Scanner → Prop) :
  at_pos s0 s q ts fl tv → is_slash kind = false → q + n <= text_length (text s0) →
  0 <= full_start_pos (state s0) <= q + n → 0 <= ts <= q + n → (has_width kind → full_start_pos (state s0) <= ts < q + n) →
  (∀ s', settles s0 kind s' → Q kind s') → wp (take_token kind n) Q s.
Proof.
  intros Hat Hsl Hn Hfull Hts Hw HQ. unfold take_token.
  apply wp_bind, (wp_advance _ _ Hat); [lia|]. clear dependent s. intros s Hat.
  apply HQ. by apply (at_settles _ Hat).
Qed.

(** The last thing a scan that does not name its token does. *)
Lemma at_settles_same {s0 s q ts fl tv} :
  at_pos s0 s q ts fl tv → is_slash (token (state s0)) = false →
  0 <= full_start_pos (state s0) <= q → 0 <= ts <= q → (has_width (token (state s0)) → full_start_pos (state s0) <= ts < q) → settles s0 (token (state s0)) s.
Proof.
  intros Hat Hsl Hfull Hts Hw. assert (token (state s) = token (state s0)) as Hk by apply Hat.
  pose proof (at_settles (token (state s0)) Hat Hsl Hfull Hts Hw) as Hs.
  replace (s <| state := (state s) <| token := token (state s0) |> |>) with s in Hs; [done|].
  destruct s as [? ? []]. cbn in *. by rewrite Hk.
Qed.
End Settled.

(** What a read token leaves. *)
Abbreviation reads m s := (wp m (settles s) s).

Section Rescans.
Context `{JsNum, NumBigint, IdentifierTables}.

(** ** Operators *)

Lemma wp_after_first {s0 s p ts fl tv} (Q : unit → Scanner → Prop) :
  at_pos s0 s p ts fl tv → 0 <= ts < p →
  (∀ s', at_pos s0 s' (ts + 1) ts fl tv → Q tt s') → wp after_first Q s.
Proof.
  intros Hat Hts HQ. pose proof (at_range _ _ _ _ _ _ Hat). unfold after_first. wp_steps.
  by apply HQ.
Qed.

Lemma settled_wide s k :
  settled s → token (state s) = k → has_width k →
  0 <= full_start_pos (state s) <= token_start (state s) ∧ token_start (state s) < pos (state s).
Proof. intros [_ ? ? Hw _] <- Hk. specialize (Hw Hk). lia. Qed.

Lemma settled_in s : settled s → 0 <= pos (state s) <= text_length (text s).
Proof. by intros [[]]. Qed.

(** Naming the token and reading its name back. *)
Lemma wp_name_token {s0 s q ts fl tv} kind (Q : SyntaxKind → Scanner → Prop) :
  at_pos s0 s q ts fl tv → is_slash kind = false →
  0 <= full_start_pos (state s0) <= q → 0 <= ts <= q → (has_width kind → full_start_pos (state s0) <= ts < q) →
  (∀ s', settles s0 kind s' → Q kind s') → wp (set_token kind) (λ _, wp get_token Q) s.
Proof. intros Hat Hsl Hfull Hts Hw HQ. apply HQ. by apply (at_settles _ Hat). Qed.

Lemma wp_take_name {s0 s q ts fl tv} kind n (Q : SyntaxKind → Scanner → Prop) :
  at_pos s0 s q ts fl tv → is_slash kind = false → q + n <= text_length (text s0) →
  0 <= full_start_pos (state s0) <= q + n → 0 <= ts <= q + n →
  (has_width kind → full_start_pos (state s0) <= ts < q + n) →
  (∀ s', settles s0 kind s' → Q kind s') →
  wp (take_token kind n) (λ _, wp (mret tt) (λ _, wp get_token Q)) s.
Proof.
  intros Hat Hsl Hn Hfull Hts Hw HQ. wp_apply wp_take_settles; [done..|].
  intros s' Hs'. unfold wp. cbn. rewrite (settles_token _ _ _ Hs'). by apply HQ.
Qed.

(** The token is left as it is. *)
Lemma wp_keep_token s (Q : SyntaxKind → Scanner → Prop) :
  settled s → Q (token (state s)) s → wp get_token Q s.
Proof. done. Qed.

Lemma settles_same s : settled s → settles s (token (state s)) s.
Proof. by split. Qed.

Lemma rescan_first_settles s k kind :
  settled s → token (state s) = k → has_width k → is_slash kind = false →
  wp (after_first;; set_token kind) (λ _, wp get_token (settles s)) s.
Proof.
  intros Hs Hk Hw Hsl. pose proof (settled_at s Hs) as Hat. pose proof (settled_in s Hs) as Hp.
  pose proof (settled_wide s k Hs Hk Hw) as Hts.
  wp_step. wp_apply wp_after_first; [lia|]. intros s' Hat'.
  eapply (wp_name_token _ _ Hat'); [done|lia|lia|lia|done].
Qed.

Lemma rescan_less_settles s : settled s → reads rescan_less_than_token s.
Proof.
  intros Hs. unfold rescan_less_than_token. apply wp_bind, (wp_get_token _ (settled_at s Hs)), wp_bind.
  apply wp_when; intros Hk.
  - apply (rescan_first_settles s LessThanLessThanToken); [done|by apply kind_eqb_true|done|done].
  - by apply wp_keep_token, settles_same.
Qed.

Lemma rescan_hash_settles s : settled s → reads rescan_hash_token s.
Proof.
  intros Hs. unfold rescan_hash_token. apply wp_bind, (wp_get_token _ (settled_at s Hs)), wp_bind.
  apply wp_when; intros Hk.
  - apply (rescan_first_settles s PrivateIdentifier); [done|by apply kind_eqb_true|done|done].
  - by apply wp_keep_token, settles_same.
Qed.

Lemma rescan_greater_settles s : settled s → reads rescan_greater_than_token s.
Proof.
  intros Hs. pose proof (settled_at s Hs) as Hat. pose proof (settled_in s Hs) as Hp.
  unfold rescan_greater_than_token. apply wp_bind, (wp_get_token _ Hat), wp_bind.
  apply wp_when; intros Hk; [|by apply wp_keep_token, settles_same].
  apply kind_eqb_true in Hk. pose proof (settled_wide s _ Hs Hk ltac:(done)) as Hts.
  unfold rescan_greater_than_token_inner. wp_step. wp_apply wp_after_first; [lia|].
  clear Hat. intros s' Hat.
  wp_steps; try (apply (wp_take_name _ _ _ Hat); [done|wp_lia|lia|lia|lia|done]).
  apply (at_settles_same Hat); [by rewrite Hk|lia|lia|lia].
Qed.

Lemma wp_assert_token s kind (Q : unit → Scanner → Prop) :
  token (state s) = kind → Q tt s → wp (assert_token kind) Q s.
Proof. intros <- HQ. apply wp_bind, wp_gets. by rewrite (proj2 (kind_eqb_true _ _) eq_refl). Qed.

(** Reading the first byte of the token [k] as a token of its own. *)
Lemma rescan_asserted_settles s k kind :
  settled s → token (state s) = k → has_width k → is_slash kind = false →
  reads (assert_token k;; after_first;; take_token kind 0) s.
Proof.
  intros Hs Hk Hw Hsl. pose proof (settled_at s Hs) as Hat. pose proof (settled_in s Hs) as Hp.
  pose proof (settled_wide s k Hs Hk Hw) as Hts.
  wp_step. apply (wp_assert_token _ _ _ Hk). wp_step. wp_apply wp_after_first; [lia|]. intros s' Hat'.
  by apply (wp_take_settles _ _ _ Hat'); [|lia..|].
Qed.

Lemma scan_settles s : ok s → reads scan s.
Proof.
  intros Hok. apply (wp_mono _ _ _ _ (scan_spec s Hok)). intros kind s' (Hok' & Hsc & _).
  destruct Hsc as [Hk Ht Hf Hst He Hw [Hsp _]]. pose proof (ok_pos s Hok) as Hp.
  split; [|done|done]. split; [done|lia|lia| |].
  - rewrite Ht. intros [Hne _]. rewrite decide_False in Hw by done. lia.
  - rewrite Ht, (kept_text _ _ Hk). unfold is_slash. rewrite orb_true_iff, !kind_eqb_true.
    intros Hsl. rewrite decide_False in Hw by (by destruct Hsl as [-> | ->]).
    assert (sub (text s) (token_start (state s')) (token_start (state s') + 1)
      ++ sub (text s) (token_start (state s') + 1) (pos (state s')) = token_to_string kind) as Hcat.
    { rewrite sub_app by lia. apply Hsp. by destruct Hsl as [-> | ->]. }
    rewrite sub_one in Hcat by lia. by destruct Hsl as [-> | ->]; injection Hcat.
Qed.

(** ** Templates *)

(** The scan of a template begins at a byte of the text. *)
Lemma rescan_template_settles s tagged :
  settled s → full_start_pos (state s) <= token_start (state s) < text_length (text s) →
  reads (rescan_template_token tagged) s.
Proof.
  intros Hs Hts. pose proof (settled_at s Hs) as Hat. pose proof (settled_in s Hs) as Hp.
  pose proof (settled_full_start s Hs) as Hf. pose proof (settled_start s Hs).
  unfold rescan_template_token. wp_steps.
  wp_apply wp_scan_template_and_set_token_value; [lia|]. intros s' q fl tv kind Hat' Hq Hk.
  unfold wp. cbn. apply (at_settles _ Hat'); [by apply plain_kind_not_slash|lia..].
Qed.

(** ** JSX *)

(** A scanner relative to itself, whatever its state is set to. *)
Lemma at_self {s0 s p ts fl tv} st :
  at_pos s0 s p ts fl tv → 0 <= pos st <= text_length (text s0) →
  let s1 := s <| state := st |> in
  at_pos s1 s1 (pos st) (token_start st) (token_flags st) (token_value st).
Proof.
  intros Hat Hp. pose proof (at_text Hat) as Ht. destruct Hat as [_ He Hb Hfits Hcoh _ _ _ _ _].
  split; cbn; rewrite ?Ht; try done. by destruct Hcoh.
Qed.

(** A read that starts where the scanner stands. *)
Lemma reads_from_here {s0 s p ts fl tv} m :
  at_pos s0 s p ts fl tv →
  (∀ s1, at_pos s1 s1 p ts fl tv → full_start_pos (state s1) = p → text s1 = text s0 →
     token (state s1) = token (state s) → reads (m p) s1) →
  reads (p ← get_pos; set_full_start p;; m p) s.
Proof.
  intros Hat Hm. set (s1 := s <| state := (state s) <| full_start_pos := pos (state s) |> |>).
  change (wp (m (pos (state s))) (settles s) s1). rewrite (at_position _ _ _ _ _ _ Hat).
  assert (at_pos s1 s1 p ts fl tv) as Hat1.
  { pose proof (at_self (state s1) Hat) as Ha. destruct Hat as [_ _ _ _ _ <- Hr <- <- <-]. by apply Ha. }
  apply (wp_mono _ (settles s1)); [|intros kind s'; by apply settles_from, kept_state].
  apply Hm; [done|apply Hat|apply (at_text Hat)|done].
Qed.

(** A loop over runes of which nothing but the position is kept. *)
Lemma wp_skip_runes {s0 s p ts fl tv} body (Q : unit → Scanner → Prop) :
  at_pos s0 s p ts fl tv →
  (∀ s q, at_pos s0 s q ts fl tv → p <= q → wp (body tt) (λ r s', match r with
     | inl _ => ∃ q', at_pos s0 s' q' ts fl tv ∧ q < q'
     | inr _ => at_pos s0 s' q ts fl tv end) s) →
  (∀ s q, at_pos s0 s q ts fl tv → p <= q → Q tt s) →
  wp (loop body tt) Q s.
Proof.
  intros Hat Hbody HQ. apply (wp_loop_at (λ _ _ fl' tv', fl' = fl ∧ tv' = tv) _ _ _ Hat); [done|].
  clear dependent s. intros [] s q fl' tv' Hat Hpq [-> ->].
  apply (wp_mono _ _ _ _ (Hbody s q Hat Hpq)). intros [[]|[]] s'.
  - intros (q' & Hat' & Hlt). by exists q', fl, tv.
  - intros Hat'. by eapply HQ.
Qed.

(** The three loops that skip some kind of white space. *)
Lemma wp_skip_blanks {s0 s p ts fl tv} body (Q : unit → Scanner → Prop) :
  at_pos s0 s p ts fl tv → body ∈ [white_space_body; white_space_like_body; jsdoc_blank_body] →
  (∀ s q, at_pos s0 s q ts fl tv → p <= q → Q tt s) → wp (loop body tt) Q s.
Proof.
  intros Hat Hbody HQ. apply (wp_skip_runes _ _ Hat); [|done]. clear dependent s HQ. intros s q Hat Hpq.
  assert (body tt = white_space_body tt ∨ body tt = white_space_like_body tt
    ∨ body tt = jsdoc_blank_body tt) as [-> | [-> | ->]] by set_solver.
  all: unfold white_space_body, white_space_like_body, jsdoc_blank_body; do 2 wp_step.
  all: destruct (decode_at (text s0) q) as [rune size] eqn:E; cbn [fst snd] in *; wp_step; wp_steps; try done.
  all: destruct Hr as [(? & ? & ?)|(_ & -> & ->)]; [|discriminate Eb]; wp_steps.
  all: exists (q + size); split; [done|lia].
Qed.

Lemma rune_is_byte t p c :
  all_bytes t → 0 <= p < text_length t → c < 0x80 → (decode_at t p).1 = c → char_of t p = c.
Proof. intros Hb Hp Hc Hd. destruct (decode_at_cases t p Hb Hp) as [[? E]|(? & ? & _)]; [by rewrite E in Hd|lia]. Qed.

(** What ends the text of an element. *)
Definition jsx_stops (t : bytes) (q first : Z) : Prop :=
  q = text_length t ∨ char_of t q = ch "{" ∨ char_of t q = ch "<" ∨ 0 < first.

Lemma wp_jsx_text_body {s0 s q ts fl tv} multiline first :
  at_pos s0 s q ts fl tv →
  wp (jsx_text_body multiline first) (λ r s', match r with
    | inl first' => ∃ q', at_pos s0 s' q' ts fl tv ∧ q < q'
    | inr None => ∃ q', at_pos s0 s' q' ts fl tv ∧ q < q'
    | inr (Some first') => at_pos s0 s' q ts fl tv ∧ jsx_stops (text s0) q first
    end) s.
Proof.
  intros Hat. pose proof (at_range _ _ _ _ _ _ Hat) as Hq. pose proof (at_bytes _ _ _ _ _ _ Hat) as Hb.
  unfold jsx_text_body, jsx_stops. do 2 wp_step.
  pose proof (λ c, rune_is_byte (text s0) q c Hb) as Hbyte.
  destruct (decode_at (text s0) q) as [rune size] eqn:E. cbn [fst snd] in *. wp_step.
  { wp_steps. split; [done|]. destruct Hr as [(Hlt & Hs & Hle)|(-> & _)]; [right; left|by left].
    apply Hbyte; [lia|by vm_compute|lia]. }
  destruct Hr as [(Hlt & Hs & Hle)|(_ & -> & _)]; [|done]. do 5 wp_step.
  destruct (is_conflict_marker_trivia_some (text s0) (at_fits _ _ _ _ _ _ Hat) q Hq) as (b & Hm & Hm7).
  apply (wp_mono _ (λ m s', at_pos s0 s' q ts fl tv ∧ (m = true → rune = ch "<" ∧ b = true))).
  { wp_step; [eapply wp_lift; [exact Hm|]; split; [done|]; split; [lia|done]|by wp_steps]. }
  clear dependent s. intros m s [Hat Hmark]. wp_step.
  { destruct (Hmark eq_refl) as [-> ->]. assert (char_of (text s0) q = ch "<") as Hc by (apply Hbyte; done || lia).
    wp_step. wp_apply wp_consume_conflict_marker; [by apply Hm7|by rewrite Hc|]. clear dependent s.
    intros s q' Hat Hq' _. wp_steps. by exists q'. }
  clear Hmark. wp_step. { wp_steps. split; [done|]. right; right; left. apply Hbyte; [lia|done|lia]. }
  wp_step. apply (wp_mono _ (λ _ s', at_pos s0 s' q ts fl tv)). { by wp_steps. }
  clear dependent s. intros _ s Hat. wp_step. apply (wp_mono _ (λ _ s', at_pos s0 s' q ts fl tv)). { by wp_steps. }
  clear dependent s. intros _ s Hat. wp_steps; try (exists (q + size); split; [done|lia]).
  split; [done|]. lia.
Qed.

Lemma wp_jsx_text {s0 s p ts fl tv} multiline (Q : option Z → Scanner → Prop) :
  at_pos s0 s p ts fl tv → p < text_length (text s0) → char_of (text s0) p ≠ ch "{" →
  char_of (text s0) p ≠ ch "<" →
  (∀ s r q, at_pos s0 s q ts fl tv → p < q → Q r s) →
  wp (loop (jsx_text_body multiline) 0) Q s.
Proof.
  intros Hat Hlt Hc1 Hc2 HQ.
  apply (wp_loop_at (λ first q fl' tv', fl' = fl ∧ tv' = tv ∧ (q = p → first = 0)) _ _ _ Hat); [done|].
  clear dependent s. intros first s q fl' tv' Hat Hpq (-> & -> & Hfirst).
  apply (wp_mono _ _ _ _ (wp_jsx_text_body multiline first Hat)). intros [first'|[first'|]] s'.
  - intros (q' & Hat' & Hlt'). exists q', fl, tv. split_and!; done || lia.
  - intros [Hat' Hst]. apply (HQ _ _ q); [done|]. unfold jsx_stops in Hst.
    destruct (decide (q = p)) as [->|]; [|lia]. rewrite Hfirst in Hst by done. lia.
  - intros (q' & Hat' & Hlt'). apply (HQ _ _ q'); [done|lia].
Qed.

Lemma scan_jsx_settles {s0 s p ts fl tv} multiline :
  at_pos s0 s p ts fl tv → reads (scan_jsx_token_ex multiline) s.
Proof.
  intros Hat. apply (reads_from_here _ Hat). clear Hat. intros s1 Hat Hfull _ _.
  pose proof (at_range _ _ _ _ _ _ Hat) as Hp. do 4 wp_step. clear Hat.
  wp_step. { wp_apply wp_take_settles; [done|lia|lia|lia|by intros []|done]. }
  assert (p < text_length (text s1)) as Hlt by wp_lia.
  wp_step. { wp_step. wp_step. wp_step; (wp_apply wp_take_settles; [done|wp_lia|lia|lia|lia|done]). }
  wp_step. { wp_apply wp_take_settles; [done|lia|lia|lia|lia|done]. }
  apply Z.eqb_neq in Eb0, Eb1. wp_step. wp_apply wp_jsx_text; [done|done|done|].
  intros s3 r q Hat Hq. pose proof (at_range _ _ _ _ _ _ Hat) as Hr. destruct r as [first|].
  - wp_steps. wp_apply wp_take_settles; [by destruct (first =? -1)|lia..|done].
  - wp_apply wp_take_settles; [done|lia..|done].
Qed.

(** Back to where the trivia of the token begins. *)
Lemma wp_to_full_start s m (Q : SyntaxKind → Scanner → Prop) :
  settled s →
  (let p := full_start_pos (state s) in
   ∀ s1, at_pos s s1 p p (token_flags (state s)) (token_value (state s)) → wp m Q s1) →
  wp (p ← get_full_start; set_pos p;; set_token_start p;; m) Q s.
Proof.
  intros Hs Hm. pose proof (settled_at s Hs) as Hat. pose proof (settled_full_start s Hs).
  pose proof (settled_in s Hs). apply wp_bind, wp_gets. do 4 wp_step. by apply Hm.
Qed.

Lemma rescan_jsx_settles s multiline : settled s → reads (rescan_jsx_token multiline) s.
Proof.
  intros Hs. unfold rescan_jsx_token. apply wp_to_full_start; [done|]. cbv zeta. intros s1 Hat. wp_step.
  apply (wp_mono _ _ _ _ (scan_jsx_settles multiline Hat)). intros kind s' [Hs' Hk Ht].
  assert (s' <| state := (state s') <| token := kind |> |> = s') as Heq.
  { destruct s' as [? ? []]. cbn in *. by rewrite Ht. }
  change (settles s kind (s' <| state := (state s') <| token := kind |> |>)). rewrite Heq. split; [done| |done]. etrans; [apply (at_kept Hat)|done].
Qed.

Lemma keyword_not_slash kind : is_keyword kind = true → is_slash kind = false.
Proof. by destruct kind. Qed.

(** A word's kind, which is a keyword's or an identifier's. *)
Lemma wp_word_kind value s (Q : SyntaxKind → Scanner → Prop) :
  (∀ kind, is_slash kind = false → Q kind s) → wp (lift (get_identifier_token value)) Q s.
Proof.
  intros HQ. destruct (get_identifier_token_some value) as (kind & Hkind & Hk).
  eapply wp_lift; [exact Hkind|]. apply HQ. destruct Hk as [->|[Hk _]]; [done|by apply keyword_not_slash].
Qed.

Lemma scan_jsx_identifier_settles s : settled s → reads scan_jsx_identifier s.
Proof.
  intros Hs. pose proof (settled_at s Hs) as Hat. unfold scan_jsx_identifier.
  pose proof (settled_full_start s Hs) as Hf. pose proof (settled_start s Hs) as Hst.
  wp_step. wp_step. wp_step. apply wp_when; intros Hid; [|by apply wp_keep_token, settles_same].
  assert (has_width (token (state s))) as Hw%(settled_width s Hs).
  { unfold has_width. split; intros E; by rewrite E in Hid. }
  wp_step. wp_apply wp_scan_identifier_parts. clear Hat. intros s1 q fl v Hat Hq. wp_step.
  wp_apply wp_append_token_value. clear dependent s1. intros s1 Hat. do 3 wp_step.
  apply wp_word_kind. intros kind Hk. apply (wp_name_token _ _ Hat); [done|lia..|done].
Qed.

Lemma scan_jsx_attribute_settles {s0 s p ts fl tv} :
  at_pos s0 s p ts fl tv → (token (state s) = MinusToken → 1 <= p) →
  reads scan_jsx_attribute_value s.
Proof.
  intros Hat Hm. apply (reads_from_here _ Hat). clear Hat. intros s1 Hat Hfull _ Ht. rewrite <-Ht in Hm.
  wp_step. wp_apply wp_skip_blanks; [set_solver|].
  pose proof (at_range _ _ _ _ _ _ Hat) as Hp. clear Hat. intros s2 q Hat Hq.
  pose proof (at_range _ _ _ _ _ _ Hat) as Hr. do 6 wp_step. wp_step.
  - wp_step. wp_apply wp_scan_string; [wp_lia|]. clear dependent s2. intros s2 q' fl' v Hat Hq'. do 2 wp_step.
    wp_apply wp_take_settles; [done|wp_lia|wp_lia|lia|lia|done].
  - assert (ok s2) as Hok by (apply (at_ok Hat); intros Ht2%Hm; lia).
    apply (wp_mono _ _ _ _ (scan_settles _ Hok)). intros kind s'. apply settles_from, (at_kept Hat).
Qed.

Lemma rescan_jsx_attribute_settles s :
  settled s → (token (state s) = MinusToken → 1 <= full_start_pos (state s)) →
  reads rescan_jsx_attribute_value s.
Proof.
  intros Hs Hm. apply wp_to_full_start; [done|]. cbv zeta. intros s1 Hat.
  assert (token (state s1) = token (state s)) as Ht by apply Hat. rewrite <-Ht in Hm.
  apply (wp_mono _ _ _ _ (scan_jsx_attribute_settles Hat Hm)). intros kind s'.
  apply settles_from, (at_kept Hat).
Qed.

(** ** JSDoc *)

Lemma can_follow_jsdoc_total {s0 s p ts fl tv} :
  at_pos s0 s p ts fl tv → wp can_follow_jsdoc_at (λ _ s', s' = s) s.
Proof.
  intros Hat. unfold can_follow_jsdoc_at. do 5 wp_step; [by wp_steps|]. wp_step. wp_step.
  by destruct (decode_utf8 _).
Qed.

Lemma jsdoc_punctuation_not_slash rune kind : jsdoc_punctuation rune = Some kind → is_slash kind = false.
Proof. unfold jsdoc_punctuation. intros Hp. by repeat case_match; simplify_eq. Qed.

Lemma scan_jsdoc_settles {s0 s p ts fl tv} :
  at_pos s0 s p ts fl tv → 0 <= ts <= p → reads scan_jsdoc_token s.
Proof.
  intros Hat Hts. apply (reads_from_here _ Hat). clear Hat. intros s1 Hat Hfull _ _.
  pose proof (at_range _ _ _ _ _ _ Hat) as Hp. do 4 wp_step. clear Hat. wp_step.
  { wp_apply wp_take_settles; [done|lia..|by intros []|done]. }
  assert (p < text_length (text s1)) as Hlt by lia. do 3 wp_step. wp_step.
  pose proof (decode_at_size (text s1) p ltac:(lia)) as Hsize.
  destruct (decode_at (text s1) p) as [rune size]. cbn [fst snd] in *. do 2 wp_step. wp_step.
  { wp_step. wp_apply wp_skip_blanks; [set_solver|]. intros s3 q Hat' Hq.
    pose proof (at_range _ _ _ _ _ _ Hat'). wp_apply wp_take_settles; [done|lia..|done]. }
  wp_step.
  { wp_step. wp_step. wp_step. apply (wp_mono _ (λ _ s', ∃ q, at_pos s1 s' q p 0 tv ∧ p < q)).
    { wp_steps; (eexists; split; [eassumption|lia]). }
    intros _ s3 (q & Hat' & Hq). pose proof (at_range _ _ _ _ _ _ Hat'). do 2 wp_step.
    wp_apply wp_take_settles; [done|lia..|done]. }
  destruct (jsdoc_punctuation rune) as [kind|] eqn:Hk.
  { wp_apply wp_take_settles; [by eapply jsdoc_punctuation_not_slash|lia..|done]. }
  do 3 wp_step. wp_apply wp_scan_identifier; [done|lia| |].
  - intros s3 q fl' tv' Hat' Hq _. pose proof (at_range _ _ _ _ _ _ Hat'). wp_steps.
    apply wp_word_kind. intros kind Hkind. wp_apply wp_take_settles; [done|lia..|done].
  - intros s3 Hat'. wp_steps. wp_apply wp_take_settles; [done|lia..|by intros []|done].
Qed.

Lemma wp_at_jsdoc_tag {s0 s p ts fl tv} size (Q : bool → Scanner → Prop) :
  at_pos s0 s p ts fl tv → 0 <= size → p + size <= text_length (text s0) →
  (∀ b, Q b s) → wp (at_jsdoc_tag p size) Q s.
Proof. intros Hat Hs Hle HQ. pose proof (at_range _ _ _ _ _ _ Hat). unfold at_jsdoc_tag. wp_steps; apply HQ. Qed.

Lemma wp_jsdoc_text {s0 s p ts fl tv} in_backticks (Q : unit → Scanner → Prop) :
  at_pos s0 s p ts fl tv → (∀ s q, at_pos s0 s q ts fl tv → p <= q → Q tt s) →
  wp (loop (jsdoc_text_body in_backticks) tt) Q s.
Proof.
  intros Hat HQ. apply (wp_skip_runes _ _ Hat); [|done]. clear dependent s HQ. intros s q Hat Hpq.
  pose proof (at_range _ _ _ _ _ _ Hat) as Hq. unfold jsdoc_text_body. do 2 wp_step.
  destruct (decode_at (text s0) q) as [rune size]. cbn [fst snd] in *. do 5 wp_step; [by wp_steps|].
  assert (1 <= size ∧ q + size <= text_length (text s0)) as [Hs Hle].
  { rewrite !orb_false_iff, Z.leb_gt in Eb. destruct Hr as [?|?]; lia. }
  wp_step. apply (wp_mono _ (λ _ s', s' = s)).
  { wp_steps; try done. wp_apply wp_at_jsdoc_tag; [lia|done|done]. }
  intros stop s' ->. wp_steps; [done|]. exists (q + size). split; [done|lia].
Qed.

Lemma scan_jsdoc_text_settles {s0 s p ts fl tv} in_backticks :
  at_pos s0 s p ts fl tv → 0 <= ts <= p → reads (scan_jsdoc_comment_text_token in_backticks) s.
Proof.
  intros Hat Hts. apply (reads_from_here _ Hat). clear Hat. intros s1 Hat Hfull _ _.
  pose proof (at_range _ _ _ _ _ _ Hat) as Hp. do 4 wp_step. clear Hat. wp_step.
  { wp_apply wp_take_settles; [done|lia..|by intros []|done]. }
  do 3 wp_step. wp_apply wp_jsdoc_text. intros s3 q Hat3 Hq. pose proof (at_range _ _ _ _ _ _ Hat3) as Hr.
  wp_step. wp_step. wp_step.
  - apply (wp_mono _ _ _ _ (scan_jsdoc_settles Hat3 ltac:(lia))). intros kind s'.
    apply settles_from, (at_kept Hat3).
  - do 4 wp_step. wp_apply wp_take_settles; [done|lia..|done].
Qed.

(** ** Regular expressions *)

(** Slashes are ASCII, so a run of white space decoded backwards stops at one. *)
Lemma decode_utf8_wide b :
  (2 ≤ (decode_utf8 b).2)%nat → Forall (λ x, 128 <= x) (take (decode_utf8 b).2 b).
Proof.
  destruct b as [|a b]; [rewrite take_nil; constructor|].
  destruct (decode_utf8_shape a b) as [->|[Ha|[Hs|[Hs|Hs]]]]; [cbn; intros; lia| | | |].
  - rewrite decode_utf8_ascii by done. cbn. intros; lia.
  - destruct Hs as (b0 & t & -> & Ha & Hb). rewrite decode_utf8_two by done. intros _.
    repeat (constructor; [lia|]). constructor.
  - destruct Hs as (b0 & b1 & t & -> & Hv & Hb). rewrite decode_utf8_three by done. intros _.
    unfold valid3 in Hv. repeat (constructor; [lia|]). constructor.
  - destruct Hs as (b0 & b1 & b2 & t & -> & Hv & Hb & Hb'). rewrite decode_utf8_four by done. intros _.
    unfold valid4 in Hv. repeat (constructor; [lia|]). constructor.
Qed.

Lemma last_rune_start_le fuel b start lower : (last_rune_start fuel b start lower ≤ start)%nat.
Proof.
  revert start. induction fuel as [|fuel IH]; intros start; cbn; [done|].
  destruct (_ && _); [|done]. specialize (IH (start - 1)%nat). lia.
Qed.

Lemma decode_last_utf8_spec b :
  b ≠ [] → let n := (decode_last_utf8 b).2 in
  (1 ≤ n ≤ length b)%nat ∧ ((2 ≤ n)%nat → Forall (λ x, 128 <= x) (drop (length b - n) b)).
Proof.
  intros Hne. cbv zeta. unfold decode_last_utf8.
  destruct (last b) as [final|] eqn:Hl; [|by apply last_None in Hl].
  assert (1 ≤ length b)%nat as Hlen by (destruct b; [done|cbn; lia]).
  destruct (final <? 0x80); [cbn; lia|]. cbv zeta.
  pose proof (last_rune_start_le 3 b (length b - 1) (length b - 4)) as Hstart.
  set (start := last_rune_start 3 b _ _) in *. clearbody start.
  pose proof (decode_utf8_wide (drop start b)) as Hwide.
  destruct (decode_utf8 (drop start b)) as [rune width]. cbn [snd] in Hwide.
  destruct (Nat.eqb_spec (start + width) (length b)) as [Hw|]; cbn [snd]; [|lia].
  split; [lia|]. intros H2. replace (length b - width)%nat with start by lia.
  specialize (Hwide H2). rewrite take_ge in Hwide; [done|]. rewrite length_drop. lia.
Qed.

(** One step back from behind an ASCII byte does not pass it. *)
Lemma decode_last_behind t a p :
  0 <= a → a + 1 < p → p <= text_length t → char_of t a < 128 →
  let n := Z.of_nat (decode_last_utf8 (sub t 0 p)).2 in 1 <= n ∧ a + 1 <= p - n.
Proof.
  intros Ha Hap Hp Hc. cbv zeta. pose proof (length_sub t 0 p ltac:(lia) Hp) as Hlen. unfold text_length in Hlen.
  assert (sub t 0 p ≠ []) as Hne by (intros E; rewrite E in Hlen; cbn in Hlen; lia).
  destruct (decode_last_utf8_spec _ Hne) as [Hn Hwide]. set (n := (decode_last_utf8 _).2) in *. clearbody n.
  split; [lia|]. destruct (decide (2 ≤ n)%nat) as [H2|]; [|lia]. specialize (Hwide H2).
  destruct (Z.le_gt_cases (a + 1) (p - Z.of_nat n)); [done|]. exfalso.
  assert (sub t 0 p !! Z.to_nat a = Some (char_of t a)) as Hat.
  { unfold sub. rewrite lookup_take_lt by lia. rewrite lookup_drop.
    pose proof (char_of_at t a ltac:(lia)) as Htext. unfold text_at in Htext.
    by rewrite (proj2 (Z.ltb_ge a 0)) in Htext by lia. }
  assert (128 <= char_of t a); [|lia]. rewrite Forall_lookup in Hwide.
  apply (Hwide (Z.to_nat a - (length (sub t 0 p) - n))%nat). rewrite lookup_drop, <-Hat. f_equal. lia.
Qed.

(** A loop over positions of its own, which reports nothing and moves nothing. *)
Lemma wp_loop_in {s0 s p ts fl tv} {St A} (I : St → Z → Prop) (μ : St → Z) (body : St → M (St + A)) st
    (Q : A → Scanner → Prop) :
  at_pos s0 s p ts fl tv → I st fl → μ st <= text_length (text s0) + 1 →
  (∀ st s fl, at_pos s0 s p ts fl tv → I st fl → 0 <= μ st ∧ wp (body st) (λ r s', match r with
     | inl st' => ∃ fl', at_pos s0 s' p ts fl' tv ∧ I st' fl' ∧ μ st' < μ st
     | inr a => Q a s' end) s) →
  wp (loop body st) Q s.
Proof.
  intros Hat Hinv Hμ Hbody.
  apply (wp_loop body (λ st s, ∃ fl, at_pos s0 s p ts fl tv ∧ I st fl) (λ st _, μ st)).
  - by exists fl.
  - rewrite (at_text Hat). exact Hμ.
  - clear dependent s fl. intros st' s (fl & Hat & Hinv). destruct (Hbody st' s fl Hat Hinv) as [Hpos Hwp].
    split; [done|]. apply (wp_mono _ _ _ _ Hwp). intros [st2|a] s'; [|done].
    intros (fl' & Hat' & Hinv' & Hlt). split; [by exists fl'|done].
Qed.

Lemma wp_slash_loop {s0 s p ts fl tv} a (Q : Z * bool → Scanner → Prop) :
  at_pos s0 s p ts fl tv → 0 <= a <= text_length (text s0) →
  (∀ s' fl' e named, at_pos s0 s' p ts fl' tv → a <= e <= text_length (text s0) →
     (has_flag fl' UNTERMINATED = false → e < text_length (text s0)) → Q (e, named) s') →
  wp (loop slash_body (MkSlash a false false false)) Q s.
Proof.
  intros Hat Ha HQ.
  apply (wp_loop_in (λ st _, a <= sl_pos st <= text_length (text s0))
    (λ st, text_length (text s0) - sl_pos st) _ _ _ Hat); [cbn; lia|cbn; lia|].
  clear dependent s fl. intros [q esc cls named] s fl Hat Hq. cbn [sl_pos] in *. split; [lia|].
  unfold slash_body. do 2 wp_step. wp_step.
  { wp_steps. eapply HQ; [done|done|]. by rewrite has_flag_lor, orb_true_r. }
  do 3 wp_step. eapply wp_lift; [apply char_of_at; lia|].
  wp_steps; try (eexists; split_and!; [eassumption|cbn; lia..]).
  - eapply HQ; [done|lia|]. by rewrite has_flag_lor, orb_true_r.
  - eapply HQ; [done|lia|lia].
Qed.

Lemma wp_balanced_loop {s0 s p ts fl tv} a e (Q : Z → Scanner → Prop) :
  at_pos s0 s p ts fl tv → 0 <= a <= e → e <= text_length (text s0) →
  (∀ q, a <= q <= e → Q q s) →
  wp (loop (balanced_body e) (MkBody a false 0 false 0)) Q s.
Proof.
  intros Hat Ha He HQ.
  apply (wp_loop (balanced_body e) (λ st s', s' = s ∧ a <= bo_pos st <= e) (λ st _, e - bo_pos st)).
  { cbn. split; [done|lia]. }
  { rewrite (at_text Hat). cbn. unfold text_length in He. lia. }
  intros st s' [-> Hq]. split; [lia|]. unfold balanced_body. wp_step; [wp_steps; by apply HQ|].
  do 3 wp_step. eapply wp_lift; [apply char_of_at; lia|].
  assert (∀ c st', body_step c st = Some st' → bo_pos st' = bo_pos st + 1) as Hstep.
  { intros c st'. destruct st. unfold body_step. intros Hs. by repeat case_match; simplify_eq. }
  destruct (body_step _ st) as [st'|] eqn:E; wp_steps; [|apply HQ; lia].
  apply Hstep in E. split; [split; [done|lia]|lia].
Qed.

Lemma wp_trim_loop {s0 s p ts fl tv} a q (Q : Z → Scanner → Prop) :
  at_pos s0 s p ts fl tv → 0 <= a → a + 1 <= q <= text_length (text s0) →
  char_of (text s0) a < 128 → (∀ q', a + 1 <= q' <= q → Q q' s) →
  wp (loop (trim_body (a + 1)) q) Q s.
Proof.
  intros Hat Ha Hq Hc HQ.
  apply (wp_loop (trim_body (a + 1)) (λ q' s', s' = s ∧ a + 1 <= q' <= q) (λ q' _, q')).
  { split; [done|lia]. }
  { rewrite (at_text Hat). unfold text_length in Hq. lia. }
  intros q' s' [-> Hq']. split; [lia|]. unfold trim_body. wp_step; [wp_steps; apply HQ; lia|].
  do 2 wp_step. destruct (decode_last_behind (text s0) a q') as [Hn Hle]; [lia..|done|].
  destruct (decode_last_utf8 _) as [rune size]. cbn [snd] in *. wp_steps; [|apply HQ; lia].
  split; [split; [done|lia]|lia].
Qed.

Lemma wp_flags_loop {s0 s p ts fl tv} a (Q : Z → Scanner → Prop) :
  at_pos s0 s p ts fl tv → 0 <= a <= text_length (text s0) →
  (∀ q, a <= q <= text_length (text s0) → Q q s) →
  wp (loop regexp_flags_body a) Q s.
Proof.
  intros Hat Ha HQ.
  apply (wp_loop regexp_flags_body (λ q s', s' = s ∧ a <= q <= text_length (text s0))
    (λ q _, text_length (text s0) - q)).
  { split; [done|lia]. }
  { rewrite (at_text Hat). unfold text_length. lia. }
  intros q s' [-> Hq]. split; [lia|]. unfold regexp_flags_body. do 2 wp_step. wp_step; [wp_steps; by apply HQ|].
  do 2 wp_step. pose proof (decode_at_size (text s0) q ltac:(lia)) as Hs. unfold decode_at in Hs.
  destruct (decode_utf8 _) as [rune size]. cbn [snd] in *. wp_steps; [apply HQ; lia|].
  split; [split; [done|lia]|lia].
Qed.

Lemma rescan_slash_settles s : settled s → reads rescan_slash_token s.
Proof.
  intros Hs. pose proof (settled_at s Hs) as Hat. pose proof (settled_in s Hs) as Hp.
  unfold rescan_slash_token. do 2 wp_step. wp_step; [by wp_steps; apply settles_same|].
  assert (is_slash (token (state s)) = true) as Hsl.
  { unfold is_slash. by destruct (kind_eqb _ SlashToken), (kind_eqb _ SlashEqualsToken). }
  pose proof (settled_slash s Hs Hsl) as Hc.
  assert (has_width (token (state s))) as Hw.
  { unfold has_width. split; intros E; by rewrite E in Hsl. }
  pose proof (settled_wide s _ Hs eq_refl Hw) as Hts. do 3 wp_step.
  wp_apply wp_slash_loop; [lia|]. clear Hat. intros s1 fl e named Hat He Hend. cbn iota beta. do 3 wp_step.
  apply (wp_mono _ (λ q s', (∃ p', at_pos s s' p' (token_start (state s)) fl (token_value (state s)))
    ∧ token_start (state s) < q <= text_length (text s))).
  { wp_step.
    - wp_step. wp_apply wp_balanced_loop; [lia|lia|]. intros q Hq. wp_step.
      wp_apply wp_trim_loop; [lia|lia|rewrite Hc; by vm_compute|]. intros q' Hq'. wp_steps.
      split; [by eexists|lia].
    - specialize (Hend eq_refl). wp_step. wp_apply wp_flags_loop; [lia|]. intros q Hq. wp_steps.
      split; [by eexists|lia]. }
  clear dependent s1. intros q s1 [[p' Hat] Hq]. wp_steps. wp_apply wp_take_settles; [done|lia..|done].
Qed.
End Rescans.
