(* ===== verification/ScannerReplay.v ===== *)
(** What a scan depends on: the text, the settings and the state, and neither the caches,
    nor the checkpoints, nor what has been reported so far. Two scanners that agree on the
    former read the same tokens and report the same diagnostics. *)

From stdpp Require Import gmap.
From S2P Require Import Prelude Wtf8 TextEdits BigInt ScannerKinds ScannerState ScannerWp.
From S2P Require Import ScannerDigits ScannerEscape ScannerLexemes.
From S2P Require Import ScannerTrivia ScannerScan ScannerScanSpec ScannerRescan.

Local Open Scope Z_scope.

(** ** Agreement *)

Section Agree.
Context `{JsNum}.

Record agree (s1 s2 : Scanner) : Prop := {
  agree_text : text s1 = text s2;
  agree_end : end_ s1 = end_ s2;
  agree_state : state s1 = state s2;
  agree_language : language_variant s1 = language_variant s2;
  agree_target : script_target s1 = script_target s2;
  agree_trivia : skips_trivia s1 = skips_trivia s2;
  agree_coherent1 : coherent s1;
  agree_coherent2 : coherent s2;
  agree_fits : text_length (text s1) <= I64_MAX;
}.

(** The same result, in states that agree again, after the same reports. *)
Definition same_outcome {A} (s1 s2 : Scanner) (r1 r2 : option (A * Scanner)) : Prop :=
  match r1, r2 with
  | Some (a1, s1'), Some (a2, s2') =>
      a1 = a2 ∧ agree s1' s2'
      ∧ ∃ ds, error_sink s1' = sink_app (error_sink s1) ds ∧ error_sink s2' = sink_app (error_sink s2) ds
  | None, None => True
  | _, _ => False
  end.

Definition replays {A} (m : M A) : Prop := ∀ s1 s2, agree s1 s2 → same_outcome s1 s2 (m s1) (m s2).

(** ** Closure *)

Lemma replays_ret {A} (a : A) : replays (mret a).
Proof. intros s1 s2 Hs. split_and!; [done|done|by exists []]. Qed.

Lemma replays_panic {A} : replays (panic (A := A)).
Proof. by intros s1 s2 Hs. Qed.

(** What follows may use what is known of the states the first part ends in. *)
Lemma same_outcome_bind {A B} (m : M A) (f : A → M B) s1 s2 :
  same_outcome s1 s2 (m s1) (m s2) →
  (∀ a s1' s2', m s1 = Some (a, s1') → m s2 = Some (a, s2') → agree s1' s2' →
     same_outcome s1' s2' (f a s1') (f a s2')) →
  same_outcome s1 s2 ((m ≫= f) s1) ((m ≫= f) s2).
Proof.
  unfold mbind, M_bind. intros Hm Hf.
  destruct (m s1) as [[a1 s1']|], (m s2) as [[a2 s2']|]; try done.
  destruct Hm as (-> & Hs' & ds & E1 & E2). specialize (Hf a2 s1' s2' eq_refl eq_refl Hs').
  destruct (f a2 s1') as [[b1 s1'']|], (f a2 s2') as [[b2 s2'']|]; try done.
  destruct Hf as (-> & Hs'' & ds' & E1' & E2'). split_and!; [done|done|].
  exists (ds ++ ds'). by rewrite !sink_app_app, E1', E2', E1, E2.
Qed.

Lemma replays_bind {A B} (m : M A) (f : A → M B) :
  replays m → (∀ a, replays (f a)) → replays (m ≫= f).
Proof. intros Hm Hf s1 s2 Hs. apply same_outcome_bind; [by apply Hm|]. intros a s1' s2' _ _. apply Hf. Qed.

Lemma replays_when (b : bool) m : replays m → replays (when b m).
Proof. intros Hm. destruct b; [done|apply replays_ret]. Qed.

Lemma replays_iterate {St A} fuel (body : St → M (St + A)) st :
  (∀ st, replays (body st)) → replays (iterate fuel body st).
Proof.
  intros Hbody. revert st. induction fuel as [|fuel IH]; intros st; [apply replays_panic|].
  apply replays_bind; [done|]. intros [st'|a]; [apply IH|apply replays_ret].
Qed.

Lemma replays_loop {St A} (body : St → M (St + A)) st :
  (∀ st, replays (body st)) → replays (loop body st).
Proof.
  intros Hbody s1 s2 Hs. unfold loop. rewrite (agree_text _ _ Hs). by apply replays_iterate.
Qed.

(** ** Operations on the state *)

(** A test of what the two agree on. *)
Lemma replays_gets {A} (f : Scanner → A) : (∀ s1 s2, agree s1 s2 → f s1 = f s2) → replays (gets f).
Proof. intros Hf s1 s2 Hs. split_and!; [by apply Hf|done|by exists []]. Qed.

Lemma replays_get_state {A} (f : ScannerState → A) : replays (gets (λ s, f (state s))).
Proof. apply replays_gets. by intros s1 s2 [_ _ ->]. Qed.

Lemma replays_modify_state f : replays (modify_state f).
Proof.
  intros s1 s2 [Ht He Hs Hl Hg Hk Hc1 Hc2]. split_and!; [done| |by exists []].
  split; cbn; try done; [by rewrite Hs|by destruct Hc1|by destruct Hc2].
Qed.

Lemma replays_lift {A} (o : option A) : replays (lift o).
Proof. intros s1 s2 Hs. destruct o; [|done]. split_and!; [done|done|by exists []]. Qed.

(** A reader of text, end and state. *)
Lemma replays_reader {A} (r : bytes → Z → ScannerState → option A) (m : M A) :
  (∀ s, m s = a ← r (text s) (end_ s) (state s); Some (a, s)) → replays m.
Proof.
  intros Hm s1 s2 Hs. rewrite !Hm. destruct Hs as [Ht He Hst Hl Hg Hk Hc1 Hc2].
  rewrite Ht, He, Hst. destruct (r _ _ _) as [a|]; [|done]. cbn.
  split_and!; [done|by split|by exists []].
Qed.

Lemma replays_char_at offset : replays (char_at offset).
Proof.
  apply (replays_reader (λ t e st, let p := wrap_i64 (pos st + offset) in
    if p <? e then text_at t p else Some (-1))).
  intros s. unfold char_at. by destruct (_ <? _).
Qed.

Lemma replays_char : replays char.
Proof.
  apply (replays_reader (λ t e st, if pos st <? e then text_at t (pos st) else Some (-1))).
  intros s. unfold char. by destruct (_ <? _).
Qed.

Lemma replays_char_and_size : replays char_and_size.
Proof.
  apply (replays_reader (λ t e st,
    let decode := b ← text_tail t (pos st); let '(rune, size) := decode_utf8 b in Some (rune, Z.of_nat size) in
    if pos st <? e then byte ← text_at t (pos st); if byte <? 0x80 then Some (byte, 1) else decode
    else decode)).
  intros s. unfold char_and_size. destruct (text_tail _ _) as [b|]; cbn [mbind option_bind];
    [destruct (decode_utf8 b) as [rune size]|].
  all: destruct (_ <? end_ s); try done; destruct (text_at _ _) as [byte|]; cbn; try done; by destruct (byte <? 0x80).
Qed.

Lemma replays_slice a b : replays (slice a b).
Proof. by apply (replays_reader (λ t _ _, text_slice t a b)). Qed.

Lemma replays_tail a : replays (tail a).
Proof. by apply (replays_reader (λ t _ _, text_tail t a)). Qed.

Lemma replays_error_at m start length args : replays (error_at m start length args).
Proof.
  intros s1 s2 [Ht He Hs Hl Hg Hk Hc1 Hc2]. split_and!; [done| |].
  - split; cbn; try done; [by destruct Hc1|by destruct Hc2].
  - by exists [MkDiagnostic m start length args].
Qed.

Lemma replays_token_of m : replays m → replays (token_of m).
Proof. intros Hm. apply replays_bind; [done|]. intros k. apply replays_ret. Qed.
End Agree.

(** One step of a proof that a computation replays. *)
Create HintDb replays.
#[export] Hint Resolve replays_ret replays_panic replays_get_state replays_modify_state replays_lift
  replays_char replays_char_at replays_char_and_size replays_slice replays_tail replays_error_at : replays.

Ltac replay_step :=
  lazymatch goal with
  | |- replays (_ ≫= _) => apply replays_bind; [|intros ?]
  | |- replays (when _ _) => apply replays_when
  | |- replays (if ?b then _ else _) => destruct b
  | |- replays (let '(_, _) := ?x in _) => destruct x
  | |- replays (match ?x with _ => _ end) => destruct x
  | |- replays (token_of _) => apply replays_token_of
  | |- replays (loop _ _) => apply replays_loop; intros ?
  | |- _ => solve [auto with replays nocore]
  end.
Ltac replay := cbv zeta; repeat (replay_step; cbv beta zeta).

Section Replay.
Context `{JsNum, NumBigint, IdentifierTables}.

(** ** Primitives *)

Lemma replays_set_pos p : replays (set_pos p).
Proof. apply replays_modify_state. Qed.
Lemma replays_advance n : replays (advance n).
Proof. apply replays_modify_state. Qed.
Lemma replays_set_flags f : replays (set_flags f).
Proof. apply replays_modify_state. Qed.
Lemma replays_add_flags f : replays (add_flags f).
Proof. apply replays_modify_state. Qed.
Lemma replays_set_value v : replays (set_value v).
Proof. apply replays_modify_state. Qed.
Lemma replays_set_token k : replays (set_token k).
Proof. apply replays_modify_state. Qed.
Lemma replays_set_token_start p : replays (set_token_start p).
Proof. apply replays_modify_state. Qed.
Lemma replays_set_full_start p : replays (set_full_start p).
Proof. apply replays_modify_state. Qed.
Lemma replays_get_pos : replays get_pos.
Proof. apply (replays_get_state pos). Qed.
Lemma replays_get_flags : replays get_flags.
Proof. apply (replays_get_state token_flags). Qed.
Lemma replays_get_value : replays get_value.
Proof. apply (replays_get_state token_value). Qed.
Lemma replays_get_token : replays get_token.
Proof. apply (replays_get_state token). Qed.
Lemma replays_get_token_start : replays get_token_start.
Proof. apply (replays_get_state token_start). Qed.
Lemma replays_get_full_start : replays get_full_start.
Proof. apply (replays_get_state full_start_pos). Qed.
Lemma replays_get_text : replays get_text.
Proof. apply replays_gets. by intros s1 s2 []. Qed.
Lemma replays_get_end : replays get_end.
Proof. apply replays_gets. by intros s1 s2 []. Qed.
Lemma replays_get_trivia : replays (gets skips_trivia).
Proof. apply replays_gets. by intros s1 s2 []. Qed.
Lemma replays_get_jsx : replays (gets (λ s, language_variant s =? JSX)).
Proof. apply replays_gets. by intros s1 s2 [_ _ _ ->]. Qed.

#[local] Hint Resolve replays_set_pos replays_advance replays_set_flags replays_add_flags
  replays_set_value replays_set_token replays_set_token_start replays_set_full_start
  replays_get_pos replays_get_flags replays_get_value replays_get_token replays_get_token_start
  replays_get_full_start replays_get_text replays_get_end replays_get_trivia replays_get_jsx : replays.

Lemma replays_error m : replays (error m).
Proof. unfold error. replay. Qed.
Lemma replays_scan_ascii_while pred : replays (scan_ascii_while pred).
Proof. unfold scan_ascii_while. replay. Qed.
#[local] Hint Resolve replays_error replays_scan_ascii_while : replays.

(** ** Numbers *)

Lemma replays_number_fragment : replays scan_number_fragment.
Proof. unfold scan_number_fragment, number_fragment_body, trailing_separator. replay. Qed.
Lemma replays_scan_digits : replays scan_digits.
Proof. unfold scan_digits, digits_body. replay. Qed.
Lemma replays_binary_digits base : replays (scan_binary_or_octal_digits base).
Proof. unfold scan_binary_or_octal_digits, binary_digits_body, trailing_separator. replay. Qed.
Lemma replays_append_token_value suffix : replays (append_token_value suffix).
Proof. unfold append_token_value. replay. Qed.
#[local] Hint Resolve replays_number_fragment replays_scan_digits replays_binary_digits
  replays_append_token_value : replays.

(** ** Caches

    What a cache holds is what would be computed, so that it does not show whether
    there is an entry. *)

(** Either the entry or the computation, which adds it. *)
Lemma same_outcome_number_cache k s1 s2 :
  agree s1 s2 → token_value (state s1) = k →
  let m := (cached ← gets (λ s, number_cache s !! k);
    match cached with
    | Some v => set_value v;; mret NumericLiteral
    | None =>
        normalize_number_value;;
        v ← get_value;
        modify (λ s, s <| number_cache := <[k := v]> (number_cache s) |>);;
        mret NumericLiteral
    end) in
  same_outcome s1 s2 (m s1) (m s2).
Proof.
  intros Hs Hv. pose proof Hs as [Ht He Hst Hl Hg Hk [Hn1 Hh1 Hd1] [Hn2 Hh2 Hd2]]. cbv zeta.
  unfold mbind, M_bind, gets.
  destruct (number_cache s1 !! k) as [v1|] eqn:E1, (number_cache s2 !! k) as [v2|] eqn:E2;
    try (pose proof (Hn1 _ _ E1) as ->); try (pose proof (Hn2 _ _ E2) as ->); cbn;
    (split_and!; [done| |by exists []]).
  all: rewrite Hst in Hv; split; cbn; rewrite ?Hst, ?Hv; try done.
  all: split; cbn; try done; by apply map_Forall_insert_2.
Qed.

Lemma replays_big_int_suffix : replays scan_big_int_suffix.
Proof.
  unfold scan_big_int_suffix. apply replays_bind; [replay|]. intros c. destruct (c =? ch "n"); [replay|].
  intros s1 s2 Hs. apply same_outcome_bind; [by apply replays_get_value|].
  intros v s1' s2' E1 _ Hs'. injection E1 as <- <-. by apply same_outcome_number_cache.
Qed.

(** *** Hexadecimal digits *)

(** A fact about states that a loop keeps. *)
Lemma iterate_keeps {St A} (I : Scanner → Prop) (body : St → M (St + A)) :
  (∀ st s r s', I s → body st s = Some (r, s') → I s') →
  ∀ fuel st s a s', I s → iterate fuel body st s = Some (a, s') → I s'.
Proof.
  intros Hbody. induction fuel as [|fuel IH]; intros st s a s' HI; [done|].
  cbn [iterate]. unfold mbind, M_bind. destruct (body st s) as [[r s1]|] eqn:E; [|done].
  pose proof (Hbody _ _ _ _ HI E) as HI1. destruct r as [st'|a']; [by apply IH|].
  intros [= <- <-]. done.
Qed.

(** A separator among the digits from [start] on has been noted. *)
Definition separators_noted (start : Z) (s : Scanner) : Prop :=
  ∀ digits, text_slice (text s) start (pos (state s)) = Some digits → ch "_" ∈ digits →
    has_flag (token_flags (state s)) CONTAINS_SEPARATOR = true.

Lemma text_slice_Some t a b x :
  text_slice t a b = Some x → 0 <= a <= b ∧ b <= text_length t ∧ x = sub t a b.
Proof.
  unfold text_slice, text_length. destruct (Z.ltb_spec a 0); [done|].
  destruct (Z.ltb_spec b a); [done|]. destruct (Z.ltb_spec (Z.of_nat (length t)) b); [done|].
  intros [= <-]. split_and!; try lia. done.
Qed.

Lemma separators_noted_step start s s' c :
  separators_noted start s → text s' = text s → pos (state s') = pos (state s) + 1 →
  text_at (text s) (pos (state s)) = Some c →
  (c = ch "_" → has_flag (token_flags (state s')) CONTAINS_SEPARATOR = true) →
  (has_flag (token_flags (state s)) CONTAINS_SEPARATOR = true →
   has_flag (token_flags (state s')) CONTAINS_SEPARATOR = true) →
  separators_noted start s'.
Proof.
  intros Hnoted Ht Hp Hc Hnew Hold digits Hd Hin. rewrite Ht, Hp in Hd.
  apply text_slice_Some in Hd as (Ha & Hb & ->).
  destruct (decide (start = pos (state s) + 1)) as [->|].
  { rewrite sub_empty in Hin. by apply elem_of_nil in Hin. }
  rewrite sub_snoc in Hin by lia. rewrite char_of_at in Hc by lia. injection Hc as Hc.
  apply elem_of_app in Hin as [Hin|Hin%list_elem_of_singleton]; [|apply Hnew; congruence].
  apply Hold, (Hnoted (sub (text s) start (pos (state s)))); [|done].
  apply text_slice_some; lia.
Qed.

Lemma hex_digits_body_noted start minimum many separators st s r s' :
  separators_noted start s → hex_digits_body minimum many separators st s = Some (r, s') →
  separators_noted start s'.
Proof.
  intros Hn. unfold hex_digits_body. destruct st as [[count allow] prev].
  destruct (negb _); [by intros [= <- <-]|].
  unfold mbind at 1, M_bind at 1, char. destruct (pos (state s) <? end_ s).
  2: { cbn. destruct separators; by intros [= <- <-]. }
  destruct (text_at (text s) (pos (state s))) as [c|] eqn:Hc; [|done]. cbn [mbind option_bind].
  destruct (is_hex_digit c) eqn:Eh.
  { intros [= <- <-]. apply (separators_noted_step _ s _ c); try done. by intros ->. }
  destruct (separators && (c =? ch "_")); [|by intros [= <- <-]].
  assert (∀ fl, has_flag (Z.lor fl CONTAINS_SEPARATOR) CONTAINS_SEPARATOR = true) as Hlor.
  { intros fl. by rewrite has_flag_lor, orb_true_r. }
  destruct allow; intros [= <- <-]; apply (separators_noted_step _ s _ c); try done; intros; apply Hlor.
Qed.

Lemma hex_run_noted minimum many separators s s' r :
  loop (hex_digits_body minimum many separators) (0, false, false) s = Some (r, s') →
  separators_noted (pos (state s)) s'.
Proof.
  unfold loop. destruct r as [count prev]. apply iterate_keeps.
  - intros st s1 r s2. apply hex_digits_body_noted.
  - intros digits (_ & _ & ->)%text_slice_Some Hin. rewrite sub_empty in Hin. by apply elem_of_nil in Hin.
Qed.

Lemma trailing_separator_state prev s a s' :
  trailing_separator prev s = Some (a, s') → state s' = state s ∧ text s' = text s.
Proof. destruct prev; by intros [= <- <-]. Qed.

Lemma same_outcome_hex_digit_cache original s1 s2 :
  agree s1 s2 → (ch "_" ∈ original → has_flag (token_flags (state s1)) CONTAINS_SEPARATOR = true) →
  same_outcome s1 s2 (cached_hex_digits original s1) (cached_hex_digits original s2).
Proof.
  intros Hs Hfl. pose proof Hs as [Ht He Hst Hl Hg Hk [Hn1 Hh1 Hd1] [Hn2 Hh2 Hd2]].
  unfold cached_hex_digits, mbind, M_bind, gets.
  destruct (hex_digit_cache s1 !! original) as [v1|] eqn:E1,
    (hex_digit_cache s2 !! original) as [v2|] eqn:E2;
    try (pose proof (Hd1 _ _ E1) as ->); try (pose proof (Hd2 _ _ E2) as ->);
    cbn; rewrite <-?Hst, ?cook_hex_digits_canonical by done; (split_and!; [done| |by exists []]).
  all: split; cbn; try done; split; cbn; try done; by apply map_Forall_insert_2.
Qed.

Lemma replays_hex_digits minimum many separators : replays (scan_hex_digits minimum many separators).
Proof.
  intros s1 s2 Hs. unfold scan_hex_digits.
  apply same_outcome_bind; [by apply replays_get_pos|]. intros start t1 t2 E1 E2 Ht.
  apply same_outcome_bind.
  { apply replays_loop; [|done]. intros [[count allow] prev]. unfold hex_digits_body, separator_error. replay. }
  intros [count prev] u1 u2 F1 _ Hu.
  apply same_outcome_bind; [unfold trailing_separator; by apply replays_when; [replay|]|].
  intros [] v1 v2 G1 _ Hv. destruct (count <? minimum); [by apply replays_ret|].
  apply same_outcome_bind; [by apply replays_get_pos|]. intros p w1 w2 [= <- <-] _ Hw.
  apply same_outcome_bind; [by apply replays_slice|]. intros original x1 x2 Hsl _ Hx.
  unfold slice in Hsl. destruct (text_slice _ _ _) as [d|] eqn:Ed; [|done]. injection Hsl as -> <-.
  apply same_outcome_hex_digit_cache; [done|].
  injection E1 as <- <-. pose proof (hex_run_noted _ _ _ _ _ _ F1) as Hnoted.
  apply trailing_separator_state in G1 as [Gs Gt]. rewrite Gs, Gt in *. by apply Hnoted.
Qed.
#[local] Hint Resolve replays_big_int_suffix replays_hex_digits : replays.

(** *** Hexadecimal literals *)

(** The digits end in the text, not before they start. *)
Lemma hex_digits_body_within start minimum many separators st s r s' :
  start <= pos (state s) <= text_length (text s) →
  hex_digits_body minimum many separators st s = Some (r, s') →
  start <= pos (state s') <= text_length (text s').
Proof.
  intros Hn. unfold hex_digits_body. destruct st as [[count allow] prev].
  destruct (negb _); [by intros [= <- <-]|].
  unfold mbind at 1, M_bind at 1, char. destruct (pos (state s) <? end_ s).
  2: { cbn. destruct separators; by intros [= <- <-]. }
  destruct (text_at (text s) (pos (state s))) as [c|] eqn:Hc; [|done]. cbn [mbind option_bind].
  assert (start <= pos (state s) + 1 <= text_length (text s)) as Hnext.
  { unfold text_at in Hc. destruct (pos (state s) <? 0); [done|].
    apply lookup_lt_Some in Hc. unfold text_length in *. lia. }
  destruct (is_hex_digit c); [by intros [= <- <-]|].
  destruct (separators && (c =? ch "_")); [|by intros [= <- <-]].
  by destruct allow; intros [= <- <-].
Qed.

Lemma hex_digits_within minimum many separators s v s' :
  0 <= pos (state s) <= text_length (text s) →
  scan_hex_digits minimum many separators s = Some (v, s') →
  pos (state s) <= pos (state s') <= text_length (text s').
Proof.
  intros Hp. unfold scan_hex_digits, get_pos, gets. unfold mbind at 1 2, M_bind at 1 2.
  destruct (loop _ _ s) as [[[count prev] u]|] eqn:Eu; [|done].
  assert (pos (state s) <= pos (state u) <= text_length (text u)) as Hu.
  { unfold loop in Eu.
    apply (iterate_keeps (λ u, pos (state s) <= pos (state u) <= text_length (text u))) in Eu; [done| |lia].
    intros st s1 r s2 Hs1. by apply hex_digits_body_within. }
  clear Eu. unfold mbind at 1, M_bind at 1. destruct (trailing_separator prev u) as [[[] w]|] eqn:Ew; [|done].
  apply trailing_separator_state in Ew as [Es Et].
  destruct (count <? minimum). { intros [= <- <-]. by rewrite Es, Et. }
  unfold mbind, M_bind, slice. destruct (text_slice _ _ _) as [d|]; [|done]. cbn.
  unfold cached_hex_digits, mbind, M_bind, gets. destruct (hex_digit_cache w !! d).
  all: intros [= <- <-]; cbn; by rewrite Es, Et.
Qed.

Lemma same_outcome_hex_number_cache digits start s1 s2 :
  agree s1 s2 → 0 <= start <= pos (state s1) → pos (state s1) <= text_length (text s1) →
  let m := (cached ← gets (λ s, hex_number_cache s !! digits);
    match cached with
    | Some value => set_value value
    | None =>
        p ← get_pos;
        raw ← slice start p;
        let value := if starts_with (bs "0x") raw && bool_decide (drop 2 raw = digits) then raw
                     else bs "0x" ++ digits in
        set_value value;;
        modify (λ s, s <| hex_number_cache := <[digits := value]> (hex_number_cache s) |>)
    end) in
  same_outcome s1 s2 (m s1) (m s2).
Proof.
  intros Hs Hst Hp. pose proof Hs as [Ht He Hstate Hl Hg Hk [Hn1 Hh1 Hd1] [Hn2 Hh2 Hd2]]. cbv zeta.
  assert (∀ s, text s = text s1 → state s = state s1 →
    slice start (pos (state s)) s = Some (sub (text s1) start (pos (state s1)), s)) as Hslice.
  { intros s Et Es. unfold slice. by rewrite Et, Es, text_slice_some. }
  unfold mbind, M_bind, get_pos, gets.
  destruct (hex_number_cache s1 !! digits) as [v1|] eqn:E1,
    (hex_number_cache s2 !! digits) as [v2|] eqn:E2;
    try (pose proof (Hh1 _ _ E1) as ->); try (pose proof (Hh2 _ _ E2) as ->);
    rewrite ?Hslice, ?hex_value by done; cbn [fst snd]; (split_and!; [done| |by exists []]).
  all: split; cbn; rewrite ?Hstate; try done; split; cbn; try done; by apply map_Forall_insert_2.
Qed.

Lemma bind_assoc {A B C} (m : M A) (f : A → M B) (g : B → M C) s :
  (m ≫= λ a, f a ≫= g) s = ((m ≫= f) ≫= g) s.
Proof. unfold mbind, M_bind. by destruct (m s) as [[a s']|]. Qed.

Lemma same_outcome_take_token kind width : replays (take_token kind width).
Proof. unfold take_token. replay. Qed.
#[local] Hint Resolve same_outcome_take_token : replays.

Lemma same_outcome_hex_literal s1 s2 :
  agree s1 s2 → 0 <= pos (state s1) → pos (state s1) + 2 <= text_length (text s1) →
  same_outcome s1 s2 (scan_hex_literal s1) (scan_hex_literal s2).
Proof.
  intros Hs Hp Hlen. unfold scan_hex_literal.
  apply same_outcome_bind; [by apply replays_get_pos|]. intros start t1 t2 [= <- <-] _ Ht.
  apply same_outcome_bind; [by apply replays_advance|]. intros [] u1 u2 [= <-] _ Hu.
  apply same_outcome_bind; [by apply replays_hex_digits|]. intros digits v1 v2 Ev _ Hv.
  apply hex_digits_within in Ev; [|cbn; lia]. cbn in Ev.
  apply same_outcome_bind.
  { assert (replays (if bool_decide (digits = []) then error Hexadecimal_digit_expected;; mret (bs "0")
      else mret digits)) as Hd by replay. by apply Hd. }
  intros digits' w1 w2 Ew _ Hw.
  assert (pos (state w1) = pos (state v1) ∧ text w1 = text v1) as [Ep Et].
  { revert Ew. by case_bool_decide; intros [= <- <-]. }
  rewrite (bind_assoc _ _ _ w1), (bind_assoc _ _ _ w2). apply same_outcome_bind.
  - apply (same_outcome_hex_number_cache digits'); [done|rewrite Ep; lia|rewrite Ep, Et; lia].
  - intros [] x1 x2 _ _ Hx.
    assert (replays (add_flags HEX_SPECIFIER;; token ← scan_big_int_suffix; take_token token 0)) as Hd
      by replay. by apply Hd.
Qed.

Lemma char_at_reads i s c s' :
  char_at i s = Some (c, s') → c ≠ -1 → s' = s ∧ text_at (text s) (wrap_i64 (pos (state s) + i)) = Some c.
Proof.
  unfold char_at. destruct (_ <? _).
  - destruct (text_at _ _) as [b|]; [|done]. by intros [= <- <-].
  - by intros [= <- <-].
Qed.

(** ** Escapes, identifiers and literals *)

Lemma replays_unicode_escape report : replays (scan_unicode_escape report).
Proof. unfold scan_unicode_escape, extended_escape_range, extended_escape_end. replay. Qed.
#[local] Hint Resolve replays_unicode_escape : replays.
Lemma replays_low_surrogate high : replays (scan_low_surrogate_escape high).
Proof. unfold scan_low_surrogate_escape. replay. Qed.
Lemma replays_peek_escape : replays peek_unicode_escape.
Proof. unfold peek_unicode_escape. replay. Qed.
#[local] Hint Resolve replays_low_surrogate replays_peek_escape : replays.

Lemma replays_escape_sequence escape_flags : replays (scan_escape_sequence escape_flags).
Proof.
  unfold scan_escape_sequence, escape_octal, escape_decimal, escape_unicode, escape_hex, hex_escape_body, escape_other, join_low_surrogate,
    join_low_surrogate_regexp. replay.
Qed.
#[local] Hint Resolve replays_escape_sequence : replays.

Lemma replays_identifier_escape valid allow_pair : replays (scan_identifier_escape valid allow_pair).
Proof. unfold scan_identifier_escape. replay. Qed.
#[local] Hint Resolve replays_identifier_escape : replays.
Lemma replays_identifier_parts variant : replays (scan_identifier_parts variant).
Proof. unfold scan_identifier_parts, identifier_parts_body. replay. Qed.
#[local] Hint Resolve replays_identifier_parts : replays.
Lemma replays_identifier prefix_length variant : replays (scan_identifier prefix_length variant).
Proof. unfold scan_identifier, scan_identifier_runes, identifier_run_body. replay. Qed.
#[local] Hint Resolve replays_identifier : replays.

Lemma replays_number : replays scan_number.
Proof.
  unfold scan_number, scan_fixed_part, scan_legacy_octal, scan_fractional_part, scan_exponent_part,
    set_number_value, check_number_suffix, normalize_number_value. replay.
Qed.
Lemma replays_string jsx_attribute : replays (scan_string jsx_attribute).
Proof. unfold scan_string, scan_string_value, scan_string_loop, string_body. replay. Qed.
Lemma replays_template report : replays (scan_template_and_set_token_value report).
Proof. unfold scan_template_and_set_token_value, template_body. replay. Qed.
#[local] Hint Resolve replays_number replays_string replays_template : replays.

(** ** Tokens *)

Lemma replays_take_number : replays take_number.
Proof. unfold take_number. replay. Qed.
Lemma replays_radix_literal binary : replays (scan_binary_or_octal_literal binary).
Proof. unfold scan_binary_or_octal_literal. replay. Qed.
#[local] Hint Resolve replays_take_number replays_radix_literal : replays.

Lemma same_outcome_scan_zero s1 s2 :
  agree s1 s2 → 0 <= pos (state s1) < text_length (text s1) →
  same_outcome s1 s2 (scan_zero s1) (scan_zero s2).
Proof.
  intros Hs Hp. unfold scan_zero. apply same_outcome_bind; [by apply replays_char_at|].
  intros c t1 t2 Ec _ Ht. destruct ((c =? ch "X") || (c =? ch "x")) eqn:Ex.
  - apply char_at_reads in Ec as [-> Ec]; [|intros ->; discriminate Ex].
    pose proof (agree_fits _ _ Hs) as Hfit. rewrite wrap_i64_id in Ec by lia.
    unfold text_at in Ec. destruct (_ <? 0); [done|]. apply lookup_lt_Some in Ec.
    apply same_outcome_hex_literal; [done|lia|unfold text_length in *; lia].
  - clear Ec Ex. revert t1 t2 Ht. change (replays (if (c =? ch "B") || (c =? ch "b") || (c =? ch "O") || (c =? ch "o")
      then scan_binary_or_octal_literal ((c =? ch "B") || (c =? ch "b")) else take_number)). replay.
Qed.

Lemma replays_conflict_marker : replays consume_conflict_marker.
Proof. unfold consume_conflict_marker. replay. Qed.
Lemma replays_invalid_character : replays scan_invalid_character.
Proof. unfold scan_invalid_character. replay. Qed.
Lemma replays_comment_directive start end_ multiline :
  replays (process_comment_directive start end_ multiline).
Proof. unfold process_comment_directive, skip_while. replay. Qed.
Lemma replays_jsdoc_tags t : replays (scan_jsdoc_comment_for_tags t).
Proof. unfold scan_jsdoc_comment_for_tags. replay. Qed.
Lemma replays_punctuation byte : replays (punctuation byte).
Proof. unfold punctuation. replay. Qed.
Lemma replays_get_asterisks : replays (gets (λ s, skip_jsdoc_leading_asterisks (state s))).
Proof. apply (replays_get_state skip_jsdoc_leading_asterisks). Qed.
#[local] Hint Resolve replays_conflict_marker replays_invalid_character replays_comment_directive
  replays_jsdoc_tags replays_punctuation replays_get_asterisks : replays.

Lemma replays_blank : replays scan_blank.
Proof. unfold scan_blank, white_space_body, skipped. replay. Qed.
Lemma replays_line_break c : replays (scan_line_break c).
Proof. unfold scan_line_break, skipped. replay. Qed.
Lemma replays_slash : replays scan_slash.
Proof.
  unfold scan_slash, scan_line_comment, scan_block_comment, line_comment_body, shebang_body,
    block_comment_body, skipped. replay.
Qed.
Lemma replays_dot : replays scan_dot.
Proof. unfold scan_dot. replay. Qed.
Lemma replays_scan_hash : replays scan_hash.
Proof. unfold scan_hash, shebang_body, skipped. replay. Qed.
Lemma replays_take_operator c : replays (take_operator c).
Proof. unfold take_operator. replay. Qed.
#[local] Hint Resolve replays_take_operator : replays.
Lemma replays_angle_or_bar c : replays (scan_angle_or_bar c).
Proof. unfold scan_angle_or_bar, skipped. replay. Qed.
Lemma replays_asterisk : replays scan_asterisk.
Proof. unfold scan_asterisk, skipped. replay. Qed.
Lemma replays_other : replays scan_other.
Proof. unfold scan_other, white_space_body, skipped. replay. Qed.
Lemma replays_word otherwise : replays otherwise → replays (scan_word otherwise).
Proof. intros Ho. unfold scan_word. by replay. Qed.
#[local] Hint Resolve replays_blank replays_line_break replays_slash replays_dot replays_scan_hash
  replays_angle_or_bar replays_asterisk replays_other replays_word : replays.

Lemma replays_scan_round st : replays (scan_round st).
Proof.
  intros s1 s2 Hs. unfold scan_round.
  apply same_outcome_bind; [by apply replays_char|]. intros c t1 t2 Ec _ Ht.
  apply same_outcome_bind; [by apply replays_get_pos|]. intros p u1 u2 [= <- <-] _ Hu.
  apply same_outcome_bind; [by apply replays_set_token_start|]. intros [] v1 v2 [= <-] _ Hv.
  destruct (c =? ch "0") eqn:E0.
  - apply Z.eqb_eq in E0 as ->. cbn -[scan_zero text_length state].
    unfold char in Ec. destruct (_ <? _); [|discriminate Ec].
    destruct (text_at _ _) as [b|] eqn:Eb; [|done]. injection Ec as -> <-.
    unfold text_at in Eb. destruct (Z.ltb_spec (pos (state s1)) 0); [done|]. apply lookup_lt_Some in Eb.
    apply same_outcome_bind.
    + apply same_outcome_scan_zero; [done|]. cbn. unfold text_length. lia.
    + intros k w1 w2 _ _ Hw. by apply replays_ret.
  - match goal with |- same_outcome ?a ?b (?m ?a) (?m ?b) => assert (replays m) as Hm; [|by apply Hm] end.
    unfold skipped. replay. apply replays_word. replay.
Qed.
#[local] Hint Resolve replays_scan_round : replays.

Lemma replays_scan : replays scan.
Proof. unfold scan. replay. Qed.
#[local] Hint Resolve replays_scan : replays.

(** ** Reading again *)

Lemma replays_rescan_less : replays rescan_less_than_token.
Proof. unfold rescan_less_than_token, after_first. replay. Qed.
Lemma replays_rescan_greater : replays rescan_greater_than_token.
Proof. unfold rescan_greater_than_token, rescan_greater_than_token_inner, after_first. replay. Qed.
Lemma replays_rescan_asterisk : replays rescan_asterisk_equals_token.
Proof. unfold rescan_asterisk_equals_token, assert_token, after_first. replay. Qed.
Lemma replays_rescan_question : replays rescan_question_token.
Proof. unfold rescan_question_token, assert_token, after_first. replay. Qed.
Lemma replays_rescan_hash : replays rescan_hash_token.
Proof. unfold rescan_hash_token, after_first. replay. Qed.
Lemma replays_rescan_slash : replays rescan_slash_token.
Proof.
  unfold rescan_slash_token, slash_body, balanced_body, trim_body, regexp_flags_body. replay.
Qed.
Lemma replays_rescan_template tagged : replays (rescan_template_token tagged).
Proof. unfold rescan_template_token. replay. Qed.
Lemma replays_jsx_token multiline : replays (scan_jsx_token_ex multiline).
Proof. unfold scan_jsx_token_ex, jsx_text_body. replay. Qed.
#[local] Hint Resolve replays_jsx_token : replays.
Lemma replays_rescan_jsx multiline : replays (rescan_jsx_token multiline).
Proof. unfold rescan_jsx_token. replay. Qed.
Lemma replays_jsx_identifier : replays scan_jsx_identifier.
Proof. unfold scan_jsx_identifier. replay. Qed.
Lemma replays_jsx_attribute : replays scan_jsx_attribute_value.
Proof. unfold scan_jsx_attribute_value, white_space_like_body. replay. Qed.
#[local] Hint Resolve replays_jsx_attribute : replays.
Lemma replays_rescan_jsx_attribute : replays rescan_jsx_attribute_value.
Proof. unfold rescan_jsx_attribute_value. replay. Qed.
Lemma replays_jsdoc : replays scan_jsdoc_token.
Proof. unfold scan_jsdoc_token, jsdoc_blank_body. replay. Qed.
#[local] Hint Resolve replays_jsdoc : replays.
Lemma replays_jsdoc_text in_backticks : replays (scan_jsdoc_comment_text_token in_backticks).
Proof. unfold scan_jsdoc_comment_text_token, jsdoc_text_body, at_jsdoc_tag. replay. Qed.
Lemma replays_can_follow_jsdoc : replays can_follow_jsdoc_at.
Proof. unfold can_follow_jsdoc_at. replay. Qed.
Lemma replays_reset_token_state p : replays (reset_token_state p).
Proof. unfold reset_token_state, reset_pos. replay. Qed.
Lemma replays_set_skip_asterisks skip : replays (set_skip_jsdoc_leading_asterisks skip).
Proof. apply replays_modify_state. Qed.
End Replay.
