(* ===== verification/ScannerSession.v ===== *)
(** A client at work on a scanner: every public operation of
    [crates/tsr_scanner/src/scan.rs], [rescan.rs] and [state.rs] that moves a scanner on,
    with the checkpoints the client holds. What an operation asks of its caller is
    [enabled]; every sequence of enabled operations is carried out without a panic.

    Speculation: a client marks a position, reads ahead, and goes back. What it has read
    leaves no trace but the diagnostics reported meanwhile: the scanner stands where it
    stood, the client holds the checkpoints it held, and everything read from then on is
    what would have been read without the excursion. *)

From stdpp Require Import gmap.
From S2P Require Import Prelude Wtf8 TextEdits BigInt ScannerKinds ScannerState ScannerWp ScannerDigits ScannerScan ScannerTokens ScannerRescan ScannerRescanSpec ScannerReplay.

Local Open Scope Z_scope.

(** ** Operations *)

Inductive Operation :=
  | Scan
  | RescanLessThan
  | RescanGreaterThan
  | RescanAsteriskEquals
  | RescanQuestion
  | RescanHash
  | RescanSlash
  | RescanTemplate (tagged : bool)
  | ScanJsx (multiline : bool)
  | RescanJsx (multiline : bool)
  | ScanJsxIdentifier
  | ScanJsxAttributeValue
  | RescanJsxAttributeValue
  | ScanJSDoc
  | ScanJSDocText (in_backticks : bool)
  | CanFollowJSDoc
  | ResetTokenState (p : Z)
  | SetSkipTrivia (skip : bool)
  | SetSkipAsterisks (skip : bool)
  | DrainDiagnostics
  | Mark (fresh : Z)
  | Rewind
  | Commit.

(** The scanner, and the checkpoints taken and not yet given back, the latest first. *)
Record Session := MkSession { scanner : Scanner; stack : list Checkpoint }.

Section Session.
Context `{JsNum, NumBigint, IdentifierTables}.

Definition read (m : M SyntaxKind) : M unit := m;; mret tt.

(** The operations that leave the checkpoints alone. *)
Definition run_scanner (o : Operation) : M unit :=
  match o with
  | Scan => read scan
  | RescanLessThan => read rescan_less_than_token
  | RescanGreaterThan => read rescan_greater_than_token
  | RescanAsteriskEquals => read rescan_asterisk_equals_token
  | RescanQuestion => read rescan_question_token
  | RescanHash => read rescan_hash_token
  | RescanSlash => read rescan_slash_token
  | RescanTemplate tagged => read (rescan_template_token tagged)
  | ScanJsx multiline => read (scan_jsx_token_ex multiline)
  | RescanJsx multiline => read (rescan_jsx_token multiline)
  | ScanJsxIdentifier => read scan_jsx_identifier
  | ScanJsxAttributeValue => read scan_jsx_attribute_value
  | RescanJsxAttributeValue => read rescan_jsx_attribute_value
  | ScanJSDoc => read scan_jsdoc_token
  | ScanJSDocText in_backticks => read (scan_jsdoc_comment_text_token in_backticks)
  | CanFollowJSDoc => can_follow_jsdoc_at;; mret tt
  | ResetTokenState p => reset_token_state p
  | SetSkipTrivia skip => set_skip_trivia skip
  | SetSkipAsterisks skip => set_skip_jsdoc_leading_asterisks skip
  | DrainDiagnostics => drain_diagnostics;; mret tt
  | Mark _ | Rewind | Commit => panic
  end.

Definition run (o : Operation) (σ : Session) : option Session :=
  match o, stack σ with
  | Mark fresh, cs => '(c, s) ← mark fresh (scanner σ); Some (MkSession s (c :: cs))
  | Rewind, c :: cs => '(_, s) ← rewind c (scanner σ); Some (MkSession s cs)
  | Commit, c :: cs => '(_, s) ← commit c (scanner σ); Some (MkSession s cs)
  | Rewind, [] | Commit, [] => None
  | o, cs => '(_, s) ← run_scanner o (scanner σ); Some (MkSession s cs)
  end.

Fixpoint run_all (os : list Operation) (σ : Session) : option Session :=
  match os with [] => Some σ | o :: os => σ ← run o σ; run_all os σ end.

(** What the caller has to see to. The assertions of the source are among it; a template
    or the text of an element is read again where there is text, an attribute value not
    in front of the text's first minus sign; a checkpoint is given back last in, first
    out, and fewer than 2^64 are ever taken. *)
Definition enabled (o : Operation) (σ : Session) : Prop :=
  let s := scanner σ in
  let st := state s in
  match o with
  | RescanAsteriskEquals => token st = AsteriskEqualsToken
  | RescanQuestion => token st = QuestionQuestionToken
  | RescanTemplate _ => full_start_pos st <= token_start st < text_length (text s)
  | ScanJsxAttributeValue => token st = MinusToken → 1 <= pos st
  | RescanJsxAttributeValue => token st = MinusToken → 1 <= full_start_pos st
  | ResetTokenState p => 0 <= p <= text_length (text s)
  | Mark _ => next_checkpoint_id s < 18446744073709551615
  | Rewind | Commit => stack σ ≠ []
  | _ => True
  end.

(** ** The invariant *)

(** The saved states are those of settled scanners over the same text, and the scanner
    knows the client's checkpoints, in their order. *)
Record live (σ : Session) : Prop := {
  live_settled : settled (scanner σ);
  live_saved : Forall (λ c, settled (scanner σ <| state := saved_state c |>)) (stack σ);
  live_owner : Forall (λ c, checkpoint_owner (scanner σ) = Some (owner c)) (stack σ);
  live_ids : checkpoints (scanner σ) = reverse (map id (stack σ));
}.

(** The operations that neither change a setting nor take diagnostics away. *)
Definition reading (o : Operation) : bool :=
  match o with SetSkipTrivia _ | DrainDiagnostics => false | _ => true end.

(** What the operations on tokens leave alone. *)
Record same_checkpoints (s s' : Scanner) : Prop := {
  same_text : text s' = text s;
  same_end : end_ s' = end_ s;
  same_language : language_variant s' = language_variant s;
  same_target : script_target s' = script_target s;
  same_owner : checkpoint_owner s' = checkpoint_owner s;
  same_next : next_checkpoint_id s' = next_checkpoint_id s;
  same_ids : checkpoints s' = checkpoints s;
}.

Lemma kept_same s s' : kept s s' → same_checkpoints s s'.
Proof. by intros []. Qed.

Lemma settled_transport s s' st :
  settled (s <| state := st |>) → settled s' → text s' = text s → settled (s' <| state := st |>).
Proof.
  intros [Hok Hfull Hst Hw Hsl] [Hok' _ _ _ _] Ht. destruct Hok as [? ? ? Hp ?], Hok'. cbn in *.
  split; cbn; rewrite ?Ht; try done. split; cbn; rewrite ?Ht; try done; [congruence|].
  by destruct ok_coherent0.
Qed.

(** Settings and sinks do not matter. *)
Lemma settled_settings s s' :
  settled s → text s' = text s → end_ s' = end_ s →
  number_cache s' = number_cache s → hex_number_cache s' = hex_number_cache s →
  hex_digit_cache s' = hex_digit_cache s →
  (∃ j, state s' = (state s) <| skip_jsdoc_leading_asterisks := j |>) → settled s'.
Proof.
  intros [[He Hb Hf Hp Hm [Hn Hh Hd]] Hfull Hst Hw Hsl] Ht Hend E1 E2 E3 [j Hs].
  split; rewrite ?Hs, ?Ht; cbn; try done. split; rewrite ?Hs, ?Ht; cbn; try done; [congruence|].
  split; by rewrite ?E1, ?E2, ?E3.
Qed.

Lemma run_read m s :
  reads m s →
  wp (read m) (λ _ s', settled s' ∧ same_checkpoints s s' ∧ skips_trivia s' = skips_trivia s) s.
Proof.
  intros Hm. apply wp_bind, (wp_mono _ _ _ _ Hm). intros kind s' [Hs' Hk _]. apply wp_ret.
  split_and!; [done|by apply kept_same|by destruct Hk].
Qed.

Lemma run_scanner_spec o s cs :
  settled s → enabled o (MkSession s cs) →
  match o with Mark _ | Rewind | Commit => True
  | _ => wp (run_scanner o) (λ _ s', settled s' ∧ same_checkpoints s s'
           ∧ (reading o = true → skips_trivia s' = skips_trivia s)) s end.
Proof.
  intros Hs Hen. pose proof (settled_at s Hs) as Hat. pose proof (settled_ok s Hs) as Hok.
  pose proof (settled_start s Hs) as Hst. destruct o; cbn in Hen; try done;
    try (eapply wp_mono; [apply run_read|by intros [] s' (? & ? & ?)]).
  - by apply scan_settles.
  - by apply rescan_less_settles.
  - by apply rescan_greater_settles.
  - by apply rescan_asserted_settles.
  - by apply rescan_asserted_settles.
  - by apply rescan_hash_settles.
  - by apply rescan_slash_settles.
  - by apply rescan_template_settles.
  - by apply (scan_jsx_settles multiline Hat).
  - by apply rescan_jsx_settles.
  - by apply scan_jsx_identifier_settles.
  - by apply (scan_jsx_attribute_settles Hat).
  - by apply rescan_jsx_attribute_settles.
  - by apply (scan_jsdoc_settles Hat).
  - by apply (scan_jsdoc_text_settles in_backticks Hat).
  - apply wp_bind, (wp_mono _ _ _ _ (can_follow_jsdoc_total Hat)). intros b s' ->. by apply wp_ret.
  - unfold wp, run_scanner, reset_token_state, reset_pos. rewrite (proj2 (Z.ltb_ge p 0)) by lia.
    cbn. split_and!; [|done|done]. destruct Hok as [? ? ? ? ? []].
    split; cbn; [by split|lia|lia|by intros []|done].
  - split_and!; [|done|done]. by apply (settled_settings s); try done; exists (skip_jsdoc_leading_asterisks (state s)); destruct s as [? ? []].
  - split_and!; [|done|done]. apply (settled_settings s); try done. by eexists.
  - unfold wp, run_scanner, drain_diagnostics, mbind, M_bind. destruct (error_sink s); cbn; try done.
    split_and!; [|done|done]. apply (settled_settings s); try done.
    exists (skip_jsdoc_leading_asterisks (state s)). by destruct s as [? ? []].
Qed.

Lemma mark_live fresh s cs :
  live (MkSession s cs) → next_checkpoint_id s < 18446744073709551615 →
  ∃ c s', mark fresh s = Some (c, s') ∧ live (MkSession s' (c :: cs)) ∧ saved_state c = state s.
Proof.
  intros [Hs Hsaved Hown Hids] Hid. cbn [scanner stack] in *. unfold mark.
  rewrite (proj2 (Z.ltb_ge 18446744073709551615 _)) by lia. eexists _, _. split; [done|]. split; [|done].
  set (s' := s <| checkpoint_owner := _ |> <| next_checkpoint_id := _ |> <| checkpoints := _ |>).
  assert (settled s') as Hs'.
  { apply (settled_settings s); try done. exists (skip_jsdoc_leading_asterisks (state s)).
    by destruct s as [? ? []]. }
  split; cbn [scanner stack].
  - done.
  - constructor; [by destruct s|]. eapply Forall_impl; [exact Hsaved|]. intros c Hc.
    by apply (settled_transport s).
  - constructor; [done|]. eapply Forall_impl; [exact Hown|]. intros c Hc. cbn. by rewrite Hc.
  - cbn [map]. rewrite reverse_cons, <-Hids. done.
Qed.

Lemma consume_live c s cs :
  live (MkSession s (c :: cs)) →
  ∃ s', consume_checkpoint c s = Some (tt, s') ∧ live (MkSession s' cs)
    ∧ settled (s' <| state := saved_state c |>)
    ∧ text s' = text s ∧ checkpoint_owner s' = checkpoint_owner s ∧ state s' = state s.
Proof.
  intros [Hs Hsaved Hown Hids]. cbn [scanner stack map] in *. rewrite reverse_cons in Hids.
  apply Forall_cons in Hsaved as [Hc Hsaved]. apply Forall_cons in Hown as [Hoc Hown].
  unfold consume_checkpoint. rewrite Hids, last_snoc, removelast_last, !bool_decide_true by done.
  eexists. split; [done|]. set (s' := s <| checkpoints := _ |>).
  assert (settled s') as Hs'.
  { apply (settled_settings s); try done. exists (skip_jsdoc_leading_asterisks (state s)).
    by destruct s as [? ? []]. }
  split; [|by split; [apply (settled_transport s)|]].
  split; cbn [scanner stack]; [done| |done|done].
  eapply Forall_impl; [exact Hsaved|]. intros c' Hc'. by apply (settled_transport s).
Qed.

Lemma run_live o σ :
  live σ → enabled o σ → ∃ σ', run o σ = Some σ' ∧ live σ'.
Proof.
  intros Hl Hen. destruct σ as [s cs]. pose proof (run_scanner_spec o s cs (live_settled _ Hl) Hen) as Hrun.
  assert (∀ m : M unit, wp m (λ _ s', settled s' ∧ same_checkpoints s s'
      ∧ (reading o = true → skips_trivia s' = skips_trivia s)) s →
    ∃ σ', ('(_, s') ← m s; Some (MkSession s' cs)) = Some σ' ∧ live σ') as Hscan.
  { destruct Hl as [Hs Hsaved Hown Hids]. cbn [scanner stack] in *.
    intros m Hm. apply wp_some in Hm as (? & s' & -> & Hs' & [Ht _ _ _ Ho Hn Hi] & _).
    eexists. split; [done|]. split; cbn [scanner stack]; [done| |by rewrite Ho|by rewrite Hi].
    eapply Forall_impl; [exact Hsaved|]. intros c Hc. by apply (settled_transport s). }
  destruct o; try by apply Hscan.
  - destruct (mark_live fresh s cs Hl Hen) as (c & s' & Hm & Hl' & _). cbn [run scanner stack].
    rewrite Hm. by eexists.
  - destruct cs as [|c cs]; [done|]. destruct (consume_live c s cs Hl) as (s' & Hc & Hl' & Hs' & Ht & _).
    cbn [run scanner stack]. unfold rewind, mbind, M_bind. rewrite Hc. eexists. split; [done|].
    destruct Hl' as [_ Hsaved Hown Hids]. by split.
  - destruct cs as [|c cs]; [done|]. destruct (consume_live c s cs Hl) as (s' & Hc & Hl' & _).
    cbn [run scanner stack]. unfold commit. rewrite Hc. by eexists.
Qed.

(** ** Sessions *)

(** The caller keeps its side of every step. *)
Inductive session (σ : Session) : list Operation → Session → Prop :=
  | session_start : session σ [] σ
  | session_step os o σ' σ'' :
      session σ os σ' → enabled o σ' → run o σ' = Some σ'' → session σ (os ++ [o]) σ''.

Lemma session_live σ os σ' : live σ → session σ os σ' → live σ'.
Proof.
  intros Hl Hs. induction Hs as [|os o σ1 σ2 Hs IH Hen Hrun]; [done|].
  destruct (run_live o σ1 IH Hen) as (σ3 & Hrun' & Hl'). congruence.
Qed.

Lemma session_trans σ os σ' os' σ'' :
  session σ os σ' → session σ' os' σ'' → session σ (os ++ os') σ''.
Proof.
  intros Hs. induction 1 as [|os' o σ1 σ2 Hs' IH Hen Hrun]; [by rewrite app_nil_r|].
  rewrite app_assoc. by eapply session_step.
Qed.

(** Every operation of the list is enabled when its turn comes. *)
Fixpoint all_enabled (os : list Operation) (σ : Session) : Prop :=
  match os with
  | [] => True
  | o :: os => enabled o σ ∧ match run o σ with Some σ => all_enabled os σ | None => False end
  end.

Lemma all_enabled_session os σ σ' : all_enabled os σ → run_all os σ = Some σ' → session σ os σ'.
Proof.
  revert σ. induction os as [|o os IH]; intros σ; cbn [all_enabled run_all].
  - intros _ [= <-]. constructor.
  - destruct (run o σ) as [σ1|] eqn:E; [|by intros [_ []]]. intros [Hen Hall] Hrun.
    apply (session_trans _ [o] σ1 os); [|by apply IH].
    by apply (session_step _ [] o σ σ1); [constructor|..].
Qed.

(** A session starts with a scanner over a text that fits. *)
Lemma start_live t :
  all_bytes t → text_length t + 16 <= I64_MAX → live (MkSession (scanner_of t) []).
Proof.
  intros Hb Hfit. split; cbn [scanner stack]; try done.
  split; cbn; [by apply scanner_of_ok|done|done|by intros []|done].
Qed.
End Session.

(** [C20] No sequence of the scanner's operations can make it panic, as long as the
    caller keeps the conditions of [enabled]: after any of them every enabled operation
    returns. The positions of the scanner then lie in order inside the text, a token
    that is not the end of the file has a text, and the scanner's list of checkpoints is
    the stack of those its client holds, whose saved states it can go back to. *)
Theorem session_safe `{JsNum, NumBigint, IdentifierTables} t os σ o :
  all_bytes t → text_length t + 16 <= I64_MAX →
  session (MkSession (scanner_of t) []) os σ → enabled o σ →
  live σ ∧ ∃ σ', run o σ = Some σ' ∧ live σ'.
Proof.
  intros Hb Hfit Hs Hen.
  assert (live σ) as Hl by (eapply session_live, Hs; by apply start_live).
  split; [done|]. by apply run_live.
Qed.

(** A shift that is read three times, twice from marks. *)
#[local] Existing Instances plain_numbers plain_bigints latin_letters.
Definition shifts : bytes := bs "a >>= /x/g".
Definition start_session : Session := MkSession (scanner_of shifts) [].
Definition reading_shifts : list Operation :=
  [Scan; Mark 7; Scan; RescanGreaterThan; Rewind; Mark 7; Scan; Commit].

Lemma shifts_ok : all_bytes shifts ∧ text_length shifts + 16 <= I64_MAX.
Proof. split; [|by vm_compute]. by repeat (constructor; [split; by vm_compute|]). Qed.

Lemma session_safe_witness :
  let σ := default start_session (run_all reading_shifts start_session) in
  (session start_session reading_shifts σ ∧ enabled RescanGreaterThan σ)
  ∧ live σ ∧ ∃ σ', run RescanGreaterThan σ = Some σ' ∧ live σ'.
Proof.
  cbv zeta. set (σ := default _ _).
  assert (session start_session reading_shifts σ) as Hs.
  { apply all_enabled_session; [|by vm_compute]. vm_compute. repeat split; discriminate. }
  split; [by split|].
  exact (session_safe shifts reading_shifts σ RescanGreaterThan (proj1 shifts_ok) (proj2 shifts_ok) Hs I).
Defined.

(** * Speculation *)

(** How many checkpoints more than before are held after an operation; giving back one
    of those from before is not counted, it is excluded. *)
Definition depth_step (depth : nat) (o : Operation) : option nat :=
  match o, depth with
  | Mark _, _ => Some (S depth)
  | Rewind, S depth | Commit, S depth => Some depth
  | Rewind, O | Commit, O => None
  | _, _ => Some depth
  end.

Definition depth_after (depth : nat) (os : list Operation) : option nat :=
  foldl (λ d o, d ← d; depth_step d o) (Some depth) os.

Lemma depth_after_snoc depth os o :
  depth_after depth (os ++ [o]) = (d ← depth_after depth os; depth_step d o).
Proof. unfold depth_after. by rewrite foldl_app. Qed.

(** The operations that read and hold no checkpoint. *)
Definition plain_reading (o : Operation) : bool :=
  match o with Mark _ | Rewind | Commit => false | o => reading o end.

Record same_settings (s s' : Scanner) : Prop := {
  settings_text : text s' = text s;
  settings_end : end_ s' = end_ s;
  settings_language : language_variant s' = language_variant s;
  settings_target : script_target s' = script_target s;
  settings_trivia : skips_trivia s' = skips_trivia s;
}.

#[global] Instance same_settings_refl : Reflexive same_settings.
Proof. by intros s. Qed.
#[global] Instance same_settings_trans : Transitive same_settings.
Proof. intros s1 s2 s3 [] []. split; congruence. Qed.

Section Speculation.
Context `{JsNum, NumBigint, IdentifierTables}.

(** One operation after another. *)
Fixpoint run_each (os : list Operation) : M unit :=
  match os with [] => mret tt | o :: os => run_scanner o;; run_each os end.

Lemma replays_run_scanner o : plain_reading o = true → replays (run_scanner o).
Proof.
  assert (∀ m, replays m → replays (read m)) as Hread.
  { intros m Hm. apply replays_bind; [done|]. intros k. apply replays_ret. }
  intros Ho. destruct o; try discriminate Ho; try apply Hread.
  - apply replays_scan.
  - apply replays_rescan_less.
  - apply replays_rescan_greater.
  - apply replays_rescan_asterisk.
  - apply replays_rescan_question.
  - apply replays_rescan_hash.
  - apply replays_rescan_slash.
  - apply replays_rescan_template.
  - apply replays_jsx_token.
  - apply replays_rescan_jsx.
  - apply replays_jsx_identifier.
  - apply replays_jsx_attribute.
  - apply replays_rescan_jsx_attribute.
  - apply replays_jsdoc.
  - apply replays_jsdoc_text.
  - apply replays_bind; [apply replays_can_follow_jsdoc|]. intros b. apply replays_ret.
  - apply replays_reset_token_state.
  - apply replays_set_skip_asterisks.
Qed.

Lemma replays_run_each os : forallb plain_reading os = true → replays (run_each os).
Proof.
  induction os as [|o os IH]; cbn [forallb run_each]; [intros _; apply replays_ret|].
  intros [Ho Hos]%andb_true_iff. apply replays_bind; [by apply replays_run_scanner|].
  intros []. by apply IH.
Qed.

(** ** What an operation does to the settings and the stack *)

Definition stack_step (o : Operation) (cs cs' : list Checkpoint) : Prop :=
  match o with
  | Mark _ => ∃ c, cs' = c :: cs
  | Rewind | Commit => ∃ c, cs = c :: cs'
  | _ => cs' = cs
  end.

Lemma run_settings o σ σ' :
  live σ → enabled o σ → reading o = true → run o σ = Some σ' →
  same_settings (scanner σ) (scanner σ') ∧ stack_step o (stack σ) (stack σ').
Proof.
  intros Hl Hen Ho Hrun. destruct σ as [s cs].
  pose proof (run_scanner_spec o s cs (live_settled _ Hl) Hen) as Hspec. cbn [scanner stack].
  assert (∀ m : M unit, wp m (λ _ s', settled s' ∧ same_checkpoints s s'
      ∧ (reading o = true → skips_trivia s' = skips_trivia s)) s →
    ('(_, s') ← m s; Some (MkSession s' cs)) = Some σ' →
    same_settings s (scanner σ') ∧ stack σ' = cs) as Hscan.
  { intros m Hm. apply wp_some in Hm as (? & s' & -> & _ & [? ? ? ? _ _ _] & Htr).
    intros [= <-]. cbn. specialize (Htr Ho). by split. }
  destruct o; try (destruct (Hscan _ Hspec Hrun) as [? ?]; by split); clear Hspec Hscan;
    cbn [run scanner stack] in Hrun.
  - unfold mark in Hrun. destruct (_ <? _); [done|]. injection Hrun as <-. cbn. split; [done|by eexists].
  - destruct cs as [|c cs]; [done|]. unfold rewind, consume_checkpoint, mbind, M_bind in Hrun.
    destruct (negb _); [done|]. destruct (negb _); [done|]. injection Hrun as <-. split; [done|by exists c].
  - destruct cs as [|c cs]; [done|]. unfold commit, consume_checkpoint in Hrun.
    destruct (negb _); [done|]. destruct (negb _); [done|]. injection Hrun as <-. split; [done|by exists c].
Qed.

Lemma session_settings σ os σ' :
  live σ → session σ os σ' → forallb reading os = true → ∀ depth, depth_after 0 os = Some depth →
  same_settings (scanner σ) (scanner σ') ∧ ∃ top, stack σ' = top ++ stack σ ∧ length top = depth.
Proof.
  intros Hl Hs. induction Hs as [|os o σ1 σ2 Hs IH Hen Hrun].
  { intros _ depth [= <-]. split; [done|by exists []]. }
  intros Hr depth Hd. rewrite forallb_app in Hr. apply andb_true_iff in Hr as [Hr Ho].
  cbn [forallb] in Ho. rewrite andb_true_r in Ho.
  rewrite depth_after_snoc in Hd. destruct (depth_after 0 os) as [d|]; [|done]. cbn in Hd.
  destruct (IH Hr d eq_refl) as (Hset & top & Htop & Hlen).
  destruct (run_settings o σ1 σ2 (session_live _ _ _ Hl Hs) Hen Ho Hrun) as [Hset' Hstep].
  split; [by etrans|]. rewrite Htop in Hstep.
  destruct o; cbn in Hstep, Hd; try (injection Hd as <-; by exists top).
  - destruct Hstep as [c ->]. injection Hd as <-. exists (c :: top). by rewrite <-Hlen.
  - destruct Hstep as [c Hc]. destruct d as [|d]; [done|]. injection Hd as <-.
    destruct top as [|c' top]; [done|]. injection Hc as -> Hc. injection Hlen as <-. by exists top.
  - destruct Hstep as [c Hc]. destruct d as [|d]; [done|]. injection Hd as <-.
    destruct top as [|c' top]; [done|]. injection Hc as -> Hc. injection Hlen as <-. by exists top.
Qed.

Lemma settings_agree s s' :
  settled s → settled s' → same_settings s s' → state s' = state s → agree s s'.
Proof.
  intros Hs Hs' [] Hst. pose proof (settled_ok _ Hs) as [? ? Hfit ? ? ?].
  pose proof (settled_ok _ Hs') as []. split; try congruence. lia.
Qed.
End Speculation.

(** [C19] Speculation leaves no trace: in a session, between a mark and its rewind any
    operations may have been carried out - any token read in any way, positions reset,
    further checkpoints taken and given back, but no setting changed and no diagnostics
    taken away - and the scanner then stands in the state it had at the mark, its client
    holds the checkpoints it held, and whatever is read from then on is read with the
    same results, the same states and the same new diagnostics as from the marked
    scanner. The caches filled and the checkpoints numbered meanwhile do not show. *)
Theorem speculation_transparent `{JsNum, NumBigint, IdentifierTables} t before fresh os σ σ1 σ2 :
  all_bytes t → text_length t + 16 <= I64_MAX →
  session (MkSession (scanner_of t) []) before σ →
  run (Mark fresh) σ = Some σ1 → session σ1 os σ2 →
  forallb reading os = true → depth_after 0 os = Some 0%nat →
  ∃ σ3, run Rewind σ2 = Some σ3
    ∧ state (scanner σ3) = state (scanner σ) ∧ stack σ3 = stack σ
    ∧ ∀ later, forallb plain_reading later = true →
        same_outcome (scanner σ) (scanner σ3) (run_each later (scanner σ)) (run_each later (scanner σ3)).
Proof.
  intros Hb Hfit Hbefore Hmark Hos Hread Hdepth.
  assert (live σ) as Hl by (eapply session_live, Hbefore; by apply start_live).
  assert (enabled (Mark fresh) σ) as Hen.
  { cbn in *. unfold mark in Hmark. destruct (Z.ltb_spec 18446744073709551615 (next_checkpoint_id (scanner σ) + 1));
      [done|lia]. }
  destruct σ as [s cs]. destruct (mark_live fresh s cs Hl Hen) as (c & s1 & Em & Hl1 & Hc).
  cbn [run scanner stack] in Hmark. rewrite Em in Hmark. injection Hmark as <-.
  assert (same_settings s s1) as Hset1.
  { apply (run_settings (Mark fresh) (MkSession s cs) (MkSession s1 (c :: cs))); try done.
    cbn [run scanner stack]. by rewrite Em. }
  destruct (session_settings _ _ _ Hl1 Hos Hread 0 Hdepth) as (Hset2 & top & Htop & Hlen).
  apply nil_length_inv in Hlen as ->. pose proof (session_live _ _ _ Hl1 Hos) as Hl2.
  destruct σ2 as [s2 cs2]. cbn [scanner stack app] in *. subst cs2.
  destruct (run_live Rewind _ Hl2 ltac:(done)) as (σ3 & Hrun & Hl3). exists σ3. split; [done|].
  destruct (run_settings Rewind _ _ Hl2 ltac:(done) eq_refl Hrun) as (Hset3 & c' & Hcs).
  cbn [scanner stack] in *. injection Hcs as <- Hcs.
  assert (state (scanner σ3) = state s) as Hst.
  { cbn [run scanner stack] in Hrun. destruct (consume_live c s2 cs Hl2) as (s3 & Ec & _).
    unfold rewind, mbind, M_bind in Hrun. rewrite Ec in Hrun. injection Hrun as <-. by rewrite <-Hc. }
  split_and!; [done|done|]. intros later Hlater. apply replays_run_each; [done|].
  apply settings_agree; try done; [apply Hl|apply Hl3|].
  etrans; [exact Hset1|]. by etrans.
Qed.


(** To the end of the text and back, with an excursion on the way. *)
Definition excursion : list Operation :=
  [Scan; RescanGreaterThan; Mark 8; Scan; RescanSlash; Rewind; ScanJSDoc; Scan].

Lemma speculation_transparent_witness :
  let σ := default start_session (run_all [Scan] start_session) in
  let σ1 := default σ (run (Mark 7) σ) in
  let σ2 := default σ1 (run_all excursion σ1) in
  (session start_session [Scan] σ ∧ run (Mark 7) σ = Some σ1 ∧ session σ1 excursion σ2)
  ∧ ∃ σ3, run Rewind σ2 = Some σ3
    ∧ state (scanner σ3) = state (scanner σ) ∧ stack σ3 = stack σ
    ∧ ∀ later, forallb plain_reading later = true →
        same_outcome (scanner σ) (scanner σ3) (run_each later (scanner σ)) (run_each later (scanner σ3)).
Proof.
  cbv zeta. set (σ := default start_session _). set (σ1 := default σ _). set (σ2 := default σ1 _).
  assert (session start_session [Scan] σ) as Hs.
  { apply all_enabled_session; [|by vm_compute]. vm_compute. by repeat split. }
  assert (run (Mark 7) σ = Some σ1) as Hm by by vm_compute.
  assert (session σ1 excursion σ2) as Hs2.
  { apply all_enabled_session; [|by vm_compute]. vm_compute. repeat split; discriminate. }
  split; [done|].
  exact (speculation_transparent shifts [Scan] 7 excursion σ σ1 σ2 (proj1 shifts_ok) (proj2 shifts_ok)
    Hs Hm Hs2 eq_refl eq_refl).
Defined.
