(* ===== verification/ParserCore.v ===== *)
(** The parser's state and its operations on tokens and diagnostics:
    [crates/tsr_parser/src/state.rs], [tokens.rs] and [diagnostics.rs].

    A method that takes [&mut self] is a computation of the monad [P] over the record
    [Parser]. It returns, it panics, or it stops because the scanner has given out the
    last of its 2^64 - 1 checkpoint numbers, which is a panic of the source kept apart
    here. The buffers the source reuses between calls, the options and the shared
    owner of the text are left out. *)

From stdpp Require Import gmap.
From S2P Require Import Prelude TextEdits BigInt ScannerKinds ScannerState ScannerDigits.
From S2P Require Import ScannerTrivia ScannerScan ScannerRescan.

Local Open Scope Z_scope.

(** ** Diagnostics *)

(** The messages of [tsr_diagnostics] that the modelled part of the parser reports. *)
Inductive ParserMessage :=
  | Scanned (m : Message)
  | X_0_expected
  | The_parser_expected_to_find_a_1_to_match_the_0_token_here
  | Keywords_cannot_contain_escape_characters
  | An_enum_member_name_must_be_followed_by_a_or
  | Declaration_or_statement_expected
  | X_case_or_default_expected
  | Statement_expected
  | Property_or_signature_expected
  | Unexpected_token_A_constructor_method_accessor_or_property_was_expected
  | Enum_member_expected
  | Expression_expected
  | X_0_is_not_allowed_as_a_variable_declaration_name
  | Variable_declaration_expected
  | Property_destructuring_pattern_expected
  | Array_element_destructuring_pattern_expected
  | Argument_expression_expected
  | Property_assignment_expected
  | Expression_or_comma_expected
  | X_0_is_not_allowed_as_a_parameter_name
  | Parameter_declaration_expected
  | Type_parameter_declaration_expected
  | Type_argument_expected
  | Type_expected
  | Unexpected_token_expected
  | Identifier_expected
  | Identifier_or_string_literal_expected
  | Identifier_expected_0_is_a_reserved_word_that_cannot_be_used_here
  | Private_identifiers_are_not_allowed_outside_class_bodies
  | Unicode_escape_sequence_cannot_appear_here
  | Invalid_reference_directive_syntax
  | X_resolution_mode_should_be_either_require_or_import.

Inductive Diagnostic := MkDiag {
  d_loc : TextRange;
  d_message : ParserMessage;
  d_args : list bytes;
  d_related : list Diagnostic;
}.

Definition diagnostic_new (loc : TextRange) (m : ParserMessage) (args : list bytes) : Diagnostic :=
  MkDiag loc m args [].

(** ** What the parser takes from elsewhere *)

(** The nodes of the syntax tree are made by a factory the parser is generic over: the
    trait [ParserFactory], whose operations keep a state of their own. *)
Class ParserFactory := {
  Factory : Type;
  NodeId : Type;
  NodeListId : Type;
  NodeSlice : Type;
  new_token : SyntaxKind → Factory → NodeId * Factory;
  new_identifier_node : bytes → Factory → NodeId * Factory;
  new_private_identifier : bytes → Factory → NodeId * Factory;
  new_keyword_expression : SyntaxKind → Factory → NodeId * Factory;
  new_literal : SyntaxKind → bytes → Z → Factory → NodeId * Factory;
  new_modifier : SyntaxKind → Factory → NodeId * Factory;
  factory_finish_node : NodeId → TextRange → Z → Factory → Factory;
  factory_override_parent : NodeId → Factory → Factory;
  inline_buffers : bool;
  alloc_nodes : list (option NodeId) → Factory → NodeSlice * Factory;
  node_slice_from_slice : list (option NodeId) → Factory → NodeSlice * Factory;
  empty_slice : NodeSlice;
  alloc_list : TextRange → NodeSlice → Factory → NodeListId * Factory;
  factory_mark_list_missing : NodeListId → Factory → Factory;
  is_js_type_alias_or_import : NodeId → Factory → bool;
}.

(** The identity a scanner gets as the owner of checkpoints when it gives out its first. *)
Class OwnerAllocator := new_owner : Z.

(** ** Script kinds and node flags *)

Definition SCRIPT_UNKNOWN : Z := 0.
Definition SCRIPT_JS : Z := 1.
Definition SCRIPT_JSX : Z := 2.
Definition SCRIPT_TS : Z := 3.
Definition SCRIPT_TSX : Z := 4.
Definition SCRIPT_JSON : Z := 6.

Definition get_language_variant (kind : Z) : Z :=
  if (kind =? SCRIPT_JS) || (kind =? SCRIPT_JSX) || (kind =? SCRIPT_TSX) || (kind =? SCRIPT_JSON)
  then JSX else STANDARD.

Definition DISALLOW_IN_CONTEXT : Z := Z.shiftl 1 10.
Definition YIELD_CONTEXT : Z := Z.shiftl 1 11.
Definition DECORATOR_CONTEXT : Z := Z.shiftl 1 12.
Definition AWAIT_CONTEXT : Z := Z.shiftl 1 13.
Definition DISALLOW_CONDITIONAL_TYPES_CONTEXT : Z := Z.shiftl 1 14.
Definition THIS_NODE_HAS_ERROR : Z := Z.shiftl 1 15.
Definition JAVA_SCRIPT_FILE : Z := Z.shiftl 1 16.
Definition JSON_FILE : Z := Z.shiftl 1 25.

(** ** The parser *)

Section Parser.
Context `{ParserFactory}.

Record JSDocInfo := MkJSDocInfo { parent : NodeId; js_docs : list NodeId }.

Record Parser := MkParser {
  p_scanner : Scanner;
  p_factory : Factory;
  p_source_text : bytes;
  p_script_kind : Z;
  p_language_variant : Z;
  p_diagnostics : list Diagnostic;
  p_js_diagnostics : list Diagnostic;
  p_jsdoc_diagnostics : list Diagnostic;
  p_token : SyntaxKind;
  p_source_flags : Z;
  p_context_flags : Z;
  p_parsing_contexts : Z;
  p_statement_has_await_identifier : bool;
  p_has_deprecated_tag : bool;
  p_has_parse_error : bool;
  p_identifier_count : Z;
  p_not_parenthesized_arrow : gset Z;
  p_jsdoc_infos : list JSDocInfo;
  p_possible_await_spans : list Z;
  p_reparse_list : list NodeId;
  p_reparsed_clones : list NodeId;
}.

#[export] Instance eta_parser : Eta Parser := λ p,
  MkParser (p_scanner p) (p_factory p) (p_source_text p) (p_script_kind p) (p_language_variant p)
    (p_diagnostics p) (p_js_diagnostics p) (p_jsdoc_diagnostics p) (p_token p) (p_source_flags p)
    (p_context_flags p) (p_parsing_contexts p) (p_statement_has_await_identifier p)
    (p_has_deprecated_tag p) (p_has_parse_error p) (p_identifier_count p)
    (p_not_parenthesized_arrow p) (p_jsdoc_infos p) (p_possible_await_spans p) (p_reparse_list p)
    (p_reparsed_clones p).

(** [Parser::new]; the script kind has to be known. *)
Definition parser_new (source : bytes) (script_kind : Z) (factory : Factory) : option Parser :=
  if script_kind =? SCRIPT_UNKNOWN then None
  else
    let variant := get_language_variant script_kind in
    let scanner :=
      (set_text source;; buffer_diagnostics;; set_language_variant variant) default_scanner in
    '(_, scanner) ← scanner;
    Some (MkParser scanner factory source script_kind variant [] [] [] Unknown 0
      (if (script_kind =? SCRIPT_JS) || (script_kind =? SCRIPT_JSX) then JAVA_SCRIPT_FILE
       else if script_kind =? SCRIPT_JSON then Z.lor JAVA_SCRIPT_FILE JSON_FILE else 0)
      0 false false false 0 ∅ [] [] [] []).

(** ** The monad *)

Inductive Outcome (A : Type) :=
  | Returns (a : A) (p : Parser)
  | Exhausted (p : Parser)
  | Panics.

Definition P (A : Type) : Type := Parser → Outcome A.
End Parser.

Arguments Returns {_ _} _ _.
Arguments Exhausted {_ _} _.
Arguments Panics {_ _}.

#[export] Instance P_ret `{ParserFactory} : MRet P := λ A a p, Returns a p.
#[export] Instance P_bind `{ParserFactory} : MBind P := λ A B f m p,
  match m p with
  | Returns a p => f a p
  | Exhausted p => Exhausted p
  | Panics => Panics
  end.

Declare Scope parser_scope.
Delimit Scope parser_scope with parser.

Section Monad.
Context `{ParserFactory}.

Definition ppanic {A} : P A := λ _, Panics.
Definition pgets {A} (f : Parser → A) : P A := λ p, Returns (f p) p.
Definition pmodify (f : Parser → Parser) : P unit := λ p, Returns tt (f p).
Definition pwhen (b : bool) (m : P unit) : P unit := if b then m else mret tt.
Definition plift {A} (o : option A) : P A := λ p,
  match o with Some a => Returns a p | None => Panics end.

(** [||], [&&] and [!] of conditions that change the parser. *)
Definition por (m n : P bool) : P bool := b ← m; if b : bool then mret true else n.
Definition pand (m n : P bool) : P bool := b ← m; if b : bool then n else mret false.
Definition pnot (m : P bool) : P bool := b ← m; mret (negb b).

(** A loop: [inl] goes round again, [inr] breaks. A round either moves over a token or
    breaks, and there are fewer tokens than the text has bytes. *)
Fixpoint piterate {St A} (fuel : nat) (body : St → P (St + A)) (st : St) : P A :=
  match fuel with
  | O => ppanic
  | S fuel =>
      r ← body st;
      match r with inl st => piterate fuel body st | inr a => mret a end
  end.

Definition ploop {St A} (body : St → P (St + A)) (st : St) : P A :=
  λ p, piterate (S (S (S (length (p_source_text p))))) body st p.

Definition factory_op {A} (f : Factory → A * Factory) : P A := λ p,
  let '(a, factory) := f (p_factory p) in Returns a (p <| p_factory := factory |>).
End Monad.

Infix "|||" := por (at level 50, left associativity) : parser_scope.
Infix "&&&" := pand (at level 40, left associativity) : parser_scope.
Local Open Scope parser_scope.

(** [matches!(kind, A | B | ...)] *)
Definition one_of (kind : SyntaxKind) (kinds : list SyntaxKind) : bool :=
  existsb (kind_eqb kind) kinds.

(** ** Kinds *)

Definition is_modifier_kind (kind : SyntaxKind) : bool :=
  one_of kind [AbstractKeyword; AccessorKeyword; AsyncKeyword; ConstKeyword; DeclareKeyword;
    DefaultKeyword; ExportKeyword; InKeyword; PrivateKeyword; ProtectedKeyword; PublicKeyword;
    ReadonlyKeyword; OutKeyword; OverrideKeyword; StaticKeyword].

Definition is_keyword_kind (kind : SyntaxKind) : bool :=
  (as_u16 BreakKeyword <=? as_u16 kind) && (as_u16 kind <=? as_u16 DeferKeyword).
Definition is_punctuation_kind (kind : SyntaxKind) : bool :=
  (as_u16 OpenBraceToken <=? as_u16 kind) && (as_u16 kind <=? as_u16 CaretEqualsToken).
Definition is_keyword_or_punctuation (kind : SyntaxKind) : bool :=
  is_keyword_kind kind || is_punctuation_kind kind.
Definition token_is_identifier_or_keyword_or_greater_than (kind : SyntaxKind) : bool :=
  kind_eqb kind GreaterThanToken || token_is_identifier_or_keyword kind.
Definition is_reserved_word (kind : SyntaxKind) : bool :=
  (as_u16 BreakKeyword <=? as_u16 kind) && (as_u16 kind <=? as_u16 WithKeyword).

(** [number.to_string()] *)
Definition integer_to_string (n : Z) : bytes :=
  if n <? 0 then ch "-" :: format_radix 10 (- n) else format_radix 10 n.

Definition argument_text (arg : DiagnosticArgument) : bytes :=
  match arg with ArgString b => b | ArgInteger n => integer_to_string n end.

Section Core.
Context `{ParserFactory}.

(** ** Diagnostics ([diagnostics.rs]) *)

(** Whether the last diagnostic is at another position. *)
Definition is_free (loc : TextRange) (ds : list Diagnostic) : bool :=
  match last ds with
  | Some d => negb (TextEdits.pos (d_loc d) =? TextEdits.pos loc)
  | None => true
  end.

(** Two diagnostics in a row are never at one position; the pending error bit is set
    even so. The result is the index of the diagnostic that was added. *)
Definition append_error (loc : TextRange) (m : ParserMessage) (args : list bytes) : P (option nat) :=
  λ p,
    let free := is_free loc (p_diagnostics p) in
    Returns (if free then Some (length (p_diagnostics p)) else None)
      ((if free then p <| p_diagnostics := p_diagnostics p ++ [diagnostic_new loc m args] |> else p)
         <| p_has_parse_error := true |>).

Definition scan_error (d : ScannerDiagnostic) : P unit :=
  append_error (range_new (start d) (wrap_i64 (start d + length_ d))) (Scanned (message d))
    (map argument_text (args d));;
  mret tt.

Fixpoint scan_errors (ds : list ScannerDiagnostic) : P unit :=
  match ds with [] => mret tt | d :: ds => scan_error d;; scan_errors ds end.

(** What the scanner reports while it works is taken over before anything else. *)
Definition scan_operation {A} (operation : M A) : P A := λ p,
  match operation (p_scanner p) with
  | None => Panics
  | Some (a, s) =>
      match drain_diagnostics s with
      | None => Panics
      | Some (ds, s) => (scan_errors ds;; mret a) (p <| p_scanner := s |>)
      end
  end.

Definition parse_error_at_range (loc : TextRange) (m : ParserMessage) (args : list bytes)
  : P (option nat) := append_error loc m args.
Definition parse_error_at (p e : Z) (m : ParserMessage) (args : list bytes) : P (option nat) :=
  parse_error_at_range (range_new p e) m args.
Definition parse_error_at_current_token (m : ParserMessage) (args : list bytes) : P (option nat) :=
  loc ← pgets (λ p, token_range (p_scanner p)); parse_error_at_range loc m args.

(** ** Speculation ([state.rs]) *)

(** A [ParserState]: the scanner's checkpoint and how long the lists were. *)
Record Speculation := MkSpeculation {
  scanner_state : Checkpoint;
  saved_context_flags : Z;
  diagnostics_len : nat;
  js_diagnostics_len : nat;
  jsdoc_infos_len : nat;
  reparsed_clones_len : nat;
  saved_statement_has_await_identifier : bool;
  saved_has_parse_error : bool;
}.

Context `{OwnerAllocator}.

Definition mark : P Speculation := λ p,
  if next_checkpoint_id (p_scanner p) =? U64_MAX then Exhausted p
  else
    match ScannerState.mark new_owner (p_scanner p) with
    | None => Panics
    | Some (c, s) =>
        Returns
          (MkSpeculation c (p_context_flags p) (length (p_diagnostics p))
             (length (p_js_diagnostics p)) (length (p_jsdoc_infos p)) (length (p_reparsed_clones p))
             (p_statement_has_await_identifier p) (p_has_parse_error p))
          (p <| p_scanner := s |>)
    end.

Definition rewind (st : Speculation) : P unit := λ p,
  match ScannerState.rewind (scanner_state st) (p_scanner p) with
  | None => Panics
  | Some (_, s) =>
      Returns tt
        (p <| p_scanner := s |> <| p_token := token (state s) |>
           <| p_context_flags := saved_context_flags st |>
           <| p_diagnostics := take (diagnostics_len st) (p_diagnostics p) |>
           <| p_js_diagnostics := take (js_diagnostics_len st) (p_js_diagnostics p) |>
           <| p_jsdoc_infos := take (jsdoc_infos_len st) (p_jsdoc_infos p) |>
           <| p_reparsed_clones := take (reparsed_clones_len st) (p_reparsed_clones p) |>
           <| p_statement_has_await_identifier := saved_statement_has_await_identifier st |>
           <| p_has_parse_error := saved_has_parse_error st |>)
  end.

Definition commit (st : Speculation) : P unit := λ p,
  match ScannerState.commit (scanner_state st) (p_scanner p) with
  | None => Panics
  | Some (_, s) => Returns tt (p <| p_scanner := s |>)
  end.

Definition look_ahead (callback : P bool) : P bool :=
  st ← mark; result ← callback; rewind st;; mret result.

(** The same shape where the answer is not a truth value. *)
Definition marked {A} (callback : P A) : P A :=
  st ← mark; result ← callback; rewind st;; mret result.

(** ** Views of the state *)

Definition get_token : P SyntaxKind := pgets p_token.
Definition token_is (kind : SyntaxKind) : P bool := pgets (λ p, kind_eqb (p_token p) kind).
Definition token_in (kinds : list SyntaxKind) : P bool := pgets (λ p, one_of (p_token p) kinds).

Definition is_java_script : P bool :=
  pgets (λ p, (p_script_kind p =? SCRIPT_JS) || (p_script_kind p =? SCRIPT_JSX)).
Definition node_pos : P Z := pgets (λ p, token_full_start (p_scanner p)).
Definition has_preceding_line_break : P bool :=
  pgets (λ p, ScannerState.has_preceding_line_break (p_scanner p)).
Definition jsdoc_scanner_info : P Z := pgets (λ p,
  let s := p_scanner p in
  if negb (has_preceding_jsdoc_comment s) then 0
  else Z.lor (Z.lor 1 (if has_preceding_jsdoc_with_deprecated_tag s then 2 else 0))
         (if has_preceding_jsdoc_with_see_or_link s then 4 else 0)).

Definition in_flag (flag : Z) : P bool := pgets (λ p, has_flag (p_context_flags p) flag).
Definition in_yield_context : P bool := in_flag YIELD_CONTEXT.
Definition in_await_context : P bool := in_flag AWAIT_CONTEXT.
Definition in_disallow_in_context : P bool := in_flag DISALLOW_IN_CONTEXT.
Definition in_disallow_conditional_types_context : P bool :=
  in_flag DISALLOW_CONDITIONAL_TYPES_CONTEXT.
Definition in_decorator_context : P bool := in_flag DECORATOR_CONTEXT.

(** [self.context_flags |= flags] or [&= !flags]. *)
Definition set_context_flags (flags : Z) (value : bool) : P unit :=
  pmodify (λ p, p <| p_context_flags :=
    if value then Z.lor (p_context_flags p) flags else Z.ldiff (p_context_flags p) flags |>).

Definition do_in_context {A} (flags : Z) (value : bool) (callback : P A) : P A :=
  saved ← pgets p_context_flags;
  set_context_flags flags value;;
  result ← callback;
  pmodify (λ p, p <| p_context_flags := saved |>);;
  mret result.

Definition skip_range_trivia (loc : TextRange) : P TextRange :=
  t ← pgets p_source_text;
  q ← plift (skip_trivia t (TextEdits.pos loc));
  mret (range_new q (TextEdits.end_ loc)).
End Core.

Section Tokens.
Context `{ParserFactory, JsNum, NumBigint, IdentifierTables}.

(** ** Tokens ([tokens.rs]) *)

(** [self.token = self.scan_operation(m)] *)
Definition take_operation (m : M SyntaxKind) : P SyntaxKind :=
  kind ← scan_operation m; pmodify (λ p, p <| p_token := kind |>);; mret kind.

Definition next_token_without_check : P SyntaxKind := take_operation scan.

Definition next_token : P SyntaxKind :=
  kind ← get_token;
  escaped ← pgets (λ p, has_unicode_escape (p_scanner p)
                        || has_extended_unicode_escape (p_scanner p));
  pwhen (is_keyword_kind kind && escaped)
    (parse_error_at_current_token Keywords_cannot_contain_escape_characters [];; mret tt);;
  next_token_without_check.

Definition next_token_jsdoc : P SyntaxKind := take_operation scan_jsdoc_token.
Definition next_jsdoc_comment_text_token (in_backticks : bool) : P SyntaxKind :=
  take_operation (scan_jsdoc_comment_text_token in_backticks).
Definition re_scan_less_than_token : P SyntaxKind := take_operation rescan_less_than_token.
Definition re_scan_greater_than_token : P SyntaxKind := take_operation rescan_greater_than_token.
Definition re_scan_slash_token : P SyntaxKind := take_operation rescan_slash_token.
Definition re_scan_template_token (tagged : bool) : P SyntaxKind :=
  take_operation (rescan_template_token tagged).

Definition parse_optional (kind : SyntaxKind) : P bool :=
  here ← token_is kind;
  if here : bool then next_token;; mret true else mret false.

Definition parse_expected_with_diagnostic (kind : SyntaxKind) (m : option ParserMessage)
    (should_advance : bool) : P bool :=
  here ← token_is kind;
  if here : bool then pwhen should_advance (next_token;; mret tt);; mret true
  else
    match m with
    | Some m => parse_error_at_current_token m []
    | None => parse_error_at_current_token X_0_expected [token_to_string kind]
    end;;
    mret false.

Definition parse_expected (kind : SyntaxKind) : P bool := parse_expected_with_diagnostic kind None true.
Definition parse_expected_without_advancing (kind : SyntaxKind) : P bool :=
  parse_expected_with_diagnostic kind None false.

(** The missing bracket is reported, with a note at the bracket it would have closed. *)
Definition parse_expected_matching_brackets (open_kind close_kind : SyntaxKind) (open_parsed : bool)
    (open_position : Z) : P unit :=
  here ← token_is close_kind;
  if here : bool then next_token;; mret tt
  else
    error ← parse_error_at_current_token X_0_expected [token_to_string close_kind];
    match error with
    | Some index => if open_parsed then
        diagnostics ← pgets p_diagnostics;
        d ← plift (diagnostics !! index);
        let note := diagnostic_new (range_new open_position open_position)
          The_parser_expected_to_find_a_1_to_match_the_0_token_here
          [token_to_string open_kind; token_to_string close_kind] in
        pmodify (λ p, p <| p_diagnostics := <[index := MkDiag (d_loc d) (d_message d) (d_args d)
          (d_related d ++ [note])]> (p_diagnostics p) |>)
      else mret tt
    | None => mret tt
    end.

Definition parse_expected_jsdoc (kind : SyntaxKind) : P bool :=
  here ← token_is kind;
  if here : bool then next_token_jsdoc;; mret true
  else if is_keyword_or_punctuation kind then
    parse_error_at_current_token X_0_expected [token_to_string kind];; mret false
  else ppanic.

Definition can_parse_semicolon : P bool :=
  (token_in [SemicolonToken; CloseBraceToken; EndOfFile] ||| has_preceding_line_break)%parser.

Definition try_parse_semicolon : P bool :=
  able ← can_parse_semicolon;
  if able : bool then
    here ← token_is SemicolonToken;
    pwhen here (next_token;; mret tt);;
    mret true
  else mret false.

Definition parse_semicolon : P bool := (try_parse_semicolon ||| parse_expected SemicolonToken)%parser.

(** ** Nodes of one token *)

Definition finish_node_with_end (node : NodeId) (p e : Z) : P NodeId :=
  flags ← pgets (λ p, Z.lor (p_context_flags p) (if p_has_parse_error p then THIS_NODE_HAS_ERROR else 0));
  pmodify (λ st, st <| p_factory := factory_finish_node node (range_new p e) flags (p_factory st) |>
                    <| p_has_parse_error := false |>);;
  pmodify (λ st, st <| p_factory := factory_override_parent node (p_factory st) |>);;
  mret node.

Definition finish_node (node : NodeId) (p : Z) : P NodeId :=
  e ← node_pos; finish_node_with_end node p e.

Definition parse_token_node : P NodeId :=
  p ← node_pos;
  kind ← get_token;
  next_token;;
  node ← factory_op (new_token kind);
  finish_node node p.

Definition parse_optional_token (kind : SyntaxKind) : P (option NodeId) :=
  here ← token_is kind;
  if here : bool then node ← parse_token_node; mret (Some node) else mret None.

Definition parse_expected_token (kind : SyntaxKind) : P NodeId :=
  node ← parse_optional_token kind;
  match node with
  | Some node => mret node
  | None =>
      parse_error_at_current_token X_0_expected [token_to_string kind];;
      node ← factory_op (new_token kind);
      p ← node_pos;
      finish_node node p
  end.

Definition parse_optional_token_jsdoc (kind : SyntaxKind) : P (option NodeId) :=
  parse_optional_token kind.

Definition parse_expected_token_jsdoc (kind : SyntaxKind) : P NodeId :=
  node ← parse_optional_token_jsdoc kind;
  match node with
  | Some node => mret node
  | None =>
      if is_keyword_or_punctuation kind then
        parse_error_at_current_token X_0_expected [token_to_string kind];;
        node ← factory_op (new_token kind);
        p ← node_pos;
        finish_node node p
      else ppanic
  end.
End Tokens.
