(* ===== verification/ParserPredicates.v ===== *)
(** The questions the parser answers by looking at tokens, most of them some tokens ahead:
    [crates/tsr_parser/src/predicates.rs], [modifiers.rs], and the predicates of
    [identifiers.rs], [expressions.rs], [ambiguity.rs], [access.rs], [bindings.rs],
    [classes.rs], [declarations.rs], [imports.rs], [signatures.rs] and [types.rs]. *)

From stdpp Require Import gmap.
From S2P Require Import Prelude TextEdits BigInt ScannerKinds ScannerState ParserCore.

Local Open Scope Z_scope.
Local Open Scope parser_scope.

(** ** Operator precedence and modifiers *)

Definition INVALID_PRECEDENCE : Z := -1.

Definition get_binary_operator_precedence (kind : SyntaxKind) : Z :=
  match kind with
  | QuestionQuestionToken => 5
  | BarBarToken => 5
  | AmpersandAmpersandToken => 6
  | BarToken => 7
  | CaretToken => 8
  | AmpersandToken => 9
  | EqualsEqualsToken | ExclamationEqualsToken | EqualsEqualsEqualsToken
  | ExclamationEqualsEqualsToken => 10
  | LessThanToken | GreaterThanToken | LessThanEqualsToken | GreaterThanEqualsToken
  | InstanceOfKeyword | InKeyword | AsKeyword | SatisfiesKeyword => 11
  | LessThanLessThanToken | GreaterThanGreaterThanToken
  | GreaterThanGreaterThanGreaterThanToken => 12
  | PlusToken | MinusToken => 13
  | AsteriskToken | SlashToken | PercentToken => 14
  | AsteriskAsteriskToken => 15
  | _ => INVALID_PRECEDENCE
  end.

Definition modifier_to_flag (kind : SyntaxKind) : Z :=
  match kind with
  | PublicKeyword => Z.shiftl 1 0
  | PrivateKeyword => Z.shiftl 1 1
  | ProtectedKeyword => Z.shiftl 1 2
  | ReadonlyKeyword => Z.shiftl 1 3
  | OverrideKeyword => Z.shiftl 1 4
  | ExportKeyword => Z.shiftl 1 5
  | AbstractKeyword => Z.shiftl 1 6
  | DeclareKeyword => Z.shiftl 1 7
  | StaticKeyword => Z.shiftl 1 8
  | AccessorKeyword => Z.shiftl 1 9
  | AsyncKeyword => Z.shiftl 1 10
  | DefaultKeyword => Z.shiftl 1 11
  | ConstKeyword => Z.shiftl 1 12
  | InKeyword => Z.shiftl 1 13
  | OutKeyword => Z.shiftl 1 14
  | _ => 0
  end.

(** [PUBLIC | PRIVATE | PROTECTED | READONLY | OVERRIDE] *)
Definition PARAMETER_PROPERTY_MODIFIER : Z :=
  Z.lor (Z.lor (Z.lor (Z.lor (Z.shiftl 1 0) (Z.shiftl 1 1)) (Z.shiftl 1 2)) (Z.shiftl 1 3)) (Z.shiftl 1 4).

Definition is_class_member_modifier (kind : SyntaxKind) : bool :=
  has_flag (modifier_to_flag kind) PARAMETER_PROPERTY_MODIFIER
  || one_of kind [StaticKeyword; OverrideKeyword; AccessorKeyword].

Section Predicates.
Context `{ParserFactory, JsNum, NumBigint, IdentifierTables, OwnerAllocator}.

(** ** Identifiers *)

(** [self.token > SyntaxKind::LastReservedWord] *)
Definition above_reserved (kind : SyntaxKind) : bool := as_u16 WithKeyword <? as_u16 kind.

Definition is_identifier : P bool := pgets (λ p,
  let token := p_token p in
  if kind_eqb token Identifier then true
  else if kind_eqb token YieldKeyword && has_flag (p_context_flags p) YIELD_CONTEXT
       || kind_eqb token AwaitKeyword && has_flag (p_context_flags p) AWAIT_CONTEXT then false
  else above_reserved token).

Definition is_binding_identifier : P bool :=
  pgets (λ p, kind_eqb (p_token p) Identifier || above_reserved (p_token p)).

Definition is_literal_property_name : P bool := pgets (λ p,
  token_is_identifier_or_keyword (p_token p)
  || one_of (p_token p) [StringLiteral; NumericLiteral; BigIntLiteral]).

Definition is_import_attribute_name : P bool := pgets (λ p,
  token_is_identifier_or_keyword (p_token p) || kind_eqb (p_token p) StringLiteral).

Definition is_binding_identifier_or_private_identifier_or_pattern : P bool :=
  token_in [OpenBraceToken; OpenBracketToken; PrivateIdentifier] ||| is_binding_identifier.

Definition is_parameter_name_start : P bool :=
  is_binding_identifier ||| token_in [OpenBracketToken; OpenBraceToken].

(** ** What the next token is *)

Definition on_same_line : P bool := pnot has_preceding_line_break.

(** [matches!(self.next_token(), A | B)] *)
Definition next_token_in (kinds : list SyntaxKind) : P bool :=
  kind ← next_token; mret (one_of kind kinds).

Definition next_token_is_identifier_or_keyword : P bool :=
  kind ← next_token; mret (token_is_identifier_or_keyword kind).
Definition next_token_is_identifier_or_keyword_on_same_line : P bool :=
  next_token_is_identifier_or_keyword &&& on_same_line.
Definition next_token_is_identifier_or_keyword_or_greater_than : P bool :=
  kind ← next_token; mret (token_is_identifier_or_keyword_or_greater_than kind).
Definition next_token_is_identifier_or_keyword_or_literal_on_same_line : P bool :=
  (next_token_is_identifier_or_keyword
   ||| token_in [NumericLiteral; BigIntLiteral; StringLiteral]) &&& on_same_line.
Definition next_token_is_identifier : P bool := next_token;; is_identifier.
Definition next_token_is_identifier_on_same_line : P bool :=
  next_token;; is_identifier &&& on_same_line.
Definition next_token_is_identifier_or_string_literal_on_same_line : P bool :=
  next_token;; (is_identifier ||| token_is StringLiteral) &&& on_same_line.
Definition next_is_identifier_and_close_paren : P bool :=
  next_token_is_identifier &&& next_token_in [CloseParenToken].
Definition next_token_is_numeric_or_big_int_literal : P bool :=
  next_token_in [NumericLiteral; BigIntLiteral].
Definition next_token_is_open_paren_or_less_than_or_dot : P bool :=
  next_token_in [OpenParenToken; LessThanToken; DotToken].
Definition next_token_is_open_paren_or_less_than : P bool :=
  next_token;; token_in [OpenParenToken; LessThanToken].
Definition next_token_is_open_paren : P bool := next_token_in [OpenParenToken].
Definition next_token_is_open_brace : P bool := next_token_in [OpenBraceToken].
Definition next_token_is_dot : P bool := next_token_in [DotToken].
Definition next_is_not_dot : P bool := pnot (next_token_in [DotToken]).
Definition next_token_is_new_keyword : P bool := next_token_in [NewKeyword].
Definition next_token_is_token_string_literal : P bool := next_token_in [StringLiteral].
Definition next_token_is_from_keyword_or_equals_token : P bool :=
  next_token;; token_in [FromKeyword; EqualsToken].
Definition next_token_is_equals_or_semicolon_or_colon_token : P bool :=
  next_token_in [EqualsToken; SemicolonToken; ColonToken].
Definition next_token_is_class_keyword_on_same_line : P bool :=
  next_token_in [ClassKeyword] &&& on_same_line.
Definition next_token_is_function_keyword_on_same_line : P bool :=
  next_token_in [FunctionKeyword] &&& on_same_line.
Definition next_token_is_colon_or_question_colon : P bool :=
  next_token_in [ColonToken] ||| (token_is QuestionToken &&& next_token_in [ColonToken]).
Definition scan_start_of_named_tuple_element : P bool :=
  rest ← token_is DotDotDotToken;
  if rest : bool then next_token_is_identifier_or_keyword &&& next_token_is_colon_or_question_colon
  else pgets (λ p, token_is_identifier_or_keyword (p_token p)) &&& next_token_is_colon_or_question_colon.
Definition next_is_start_of_type_of_import_type : P bool := next_token;; token_is ImportKeyword.

Definition next_is_start_of_mapped_type : P bool :=
  next_token;;
  sign ← token_in [PlusToken; MinusToken];
  if sign : bool then next_token_in [ReadonlyKeyword]
  else
    readonly ← token_is ReadonlyKeyword;
    pwhen readonly (next_token;; mret tt);;
    token_is OpenBracketToken &&& next_token_is_identifier &&& next_token_in [InKeyword].

Definition is_template_start_of_tagged_template : P bool :=
  token_in [NoSubstitutionTemplateLiteral; TemplateHead].
Definition next_token_is_identifier_or_keyword_or_open_bracket_or_template : P bool :=
  next_token;;
  pgets (λ p, token_is_identifier_or_keyword (p_token p))
  ||| token_is OpenBracketToken ||| is_template_start_of_tagged_template.
Definition is_start_of_optional_property_or_element_access_chain : P bool :=
  token_is QuestionDotToken
  &&& look_ahead next_token_is_identifier_or_keyword_or_open_bracket_or_template.

(** ** Modifiers *)

Definition can_follow_modifier : P bool :=
  token_in [OpenBracketToken; OpenBraceToken; AsteriskToken; DotDotDotToken]
  ||| is_literal_property_name.
Definition can_follow_get_or_set_keyword : P bool :=
  token_is OpenBracketToken ||| is_literal_property_name.
Definition can_follow_export_modifier : P bool :=
  token_is AtToken
  ||| pnot (token_in [AsteriskToken; AsKeyword; OpenBraceToken]) &&& can_follow_modifier.
Definition next_token_can_follow_export_modifier : P bool := next_token;; can_follow_export_modifier.
Definition next_token_is_on_same_line_and_can_follow_modifier : P bool :=
  next_token;; on_same_line &&& can_follow_modifier.

Definition next_token_can_follow_default_keyword : P bool :=
  kind ← next_token;
  match kind with
  | ClassKeyword | FunctionKeyword | InterfaceKeyword | AtToken => mret true
  | AbstractKeyword => look_ahead next_token_is_class_keyword_on_same_line
  | AsyncKeyword => look_ahead next_token_is_function_keyword_on_same_line
  | _ => mret false
  end.

Definition next_token_can_follow_modifier : P bool :=
  kind ← get_token;
  match kind with
  | ConstKeyword => next_token_in [EnumKeyword]
  | ExportKeyword =>
      next_token;;
      kind ← get_token;
      match kind with
      | DefaultKeyword => look_ahead next_token_can_follow_default_keyword
      | TypeKeyword => look_ahead next_token_can_follow_export_modifier
      | _ => can_follow_export_modifier
      end
  | DefaultKeyword => next_token_can_follow_default_keyword
  | StaticKeyword => next_token;; can_follow_modifier
  | GetKeyword | SetKeyword => next_token;; can_follow_get_or_set_keyword
  | _ => next_token_is_on_same_line_and_can_follow_modifier
  end.

(** Takes the modifier if it is one, and stays in front of it otherwise. *)
Definition try_contextual (is_modifier : P bool) : P bool :=
  st ← mark;
  taken ← is_modifier &&& next_token_can_follow_modifier;
  if taken : bool then commit st;; mret true else rewind st;; mret false.

Definition parse_contextual_modifier (kind : SyntaxKind) : P bool := try_contextual (token_is kind).
Definition parse_any_contextual_modifier : P bool :=
  try_contextual (pgets (λ p, is_modifier_kind (p_token p))).

(** ** Members *)

(** Over modifiers; whether there were any. *)
Definition type_modifiers_body (identifier : bool) : P (bool + bool) :=
  kind ← get_token;
  if is_modifier_kind kind then next_token;; mret (inl true) else mret (inr identifier).

Definition scan_type_member_start : P bool :=
  at_once ← token_in [OpenParenToken; LessThanToken; GetKeyword; SetKeyword];
  if at_once : bool then mret true
  else
    identifier ← ploop type_modifiers_body false;
    bracket ← token_is OpenBracketToken;
    if bracket : bool then mret true
    else
      name ← is_literal_property_name;
      pwhen name (next_token;; mret tt);;
      mret (identifier || name)
      &&& (token_in [OpenParenToken; LessThanToken; QuestionToken; ColonToken; CommaToken]
           ||| can_parse_semicolon).

(** Over modifiers, up to one that only a class member has; the last one. *)
Definition class_modifiers_body (identifier : SyntaxKind) : P (SyntaxKind + option SyntaxKind) :=
  kind ← get_token;
  if is_modifier_kind kind then
    if is_class_member_modifier kind then mret (inr None)
    else next_token;; mret (inl kind)
  else mret (inr (Some identifier)).

(** What decides when only a name has been seen. *)
Definition class_member_after (identifier : SyntaxKind) : P bool :=
  if kind_eqb identifier Unknown then mret false
  else if negb (is_keyword_kind identifier) || one_of identifier [SetKeyword; GetKeyword]
  then mret true
  else
    token_in [OpenParenToken; LessThanToken; ExclamationToken; ColonToken; EqualsToken; QuestionToken]
    ||| can_parse_semicolon.

Definition scan_class_member_start : P bool :=
  at_sign ← token_is AtToken;
  if at_sign : bool then mret true
  else
    identifier ← ploop class_modifiers_body Unknown;
    match identifier with
    | None => mret true
    | Some identifier =>
        star ← token_is AsteriskToken;
        if star : bool then mret true
        else
          name ← is_literal_property_name;
          kind ← get_token;
          pwhen name (next_token;; mret tt);;
          bracket ← token_is OpenBracketToken;
          if bracket : bool then mret true
          else class_member_after (if name : bool then kind else identifier)
    end.

(** ** Types and parameters *)

Definition starts_type_at_once (kind : SyntaxKind) : bool :=
  one_of kind [AnyKeyword; UnknownKeyword; StringKeyword; NumberKeyword; BigIntKeyword;
    BooleanKeyword; ReadonlyKeyword; SymbolKeyword; UniqueKeyword; VoidKeyword; UndefinedKeyword;
    NullKeyword; ThisKeyword; TypeOfKeyword; NeverKeyword; OpenBraceToken; OpenBracketToken;
    LessThanToken; BarToken; AmpersandToken; NewKeyword; StringLiteral; NumericLiteral;
    BigIntLiteral; TrueKeyword; FalseKeyword; ObjectKeyword; AsteriskToken; QuestionToken;
    ExclamationToken; DotDotDotToken; InferKeyword; ImportKeyword; AssertsKeyword;
    NoSubstitutionTemplateLiteral; TemplateHead].

Definition is_start_of_parameter_with (start_of_type : bool → P bool) (jsdoc : bool) : P bool :=
  token_is DotDotDotToken
  ||| is_binding_identifier_or_private_identifier_or_pattern
  ||| pgets (λ p, is_modifier_kind (p_token p))
  ||| token_is AtToken
  ||| start_of_type (negb jsdoc).

Definition next_is_parenthesized_or_function_type_with (start_of_type : bool → P bool) : P bool :=
  next_token;;
  token_is CloseParenToken ||| is_start_of_parameter_with start_of_type false ||| start_of_type false.

(** A parenthesis is followed by another question about a type, one token on. *)
Fixpoint is_start_of_type_fuel (fuel : nat) (parameter : bool) : P bool :=
  match fuel with
  | O => ppanic
  | S fuel =>
      kind ← get_token;
      if starts_type_at_once kind then mret true
      else if kind_eqb kind FunctionKeyword then mret (negb parameter)
      else if kind_eqb kind MinusToken then
        if parameter then mret false else look_ahead next_token_is_numeric_or_big_int_literal
      else if kind_eqb kind OpenParenToken then
        if parameter then mret false
        else look_ahead (next_is_parenthesized_or_function_type_with (is_start_of_type_fuel fuel))
      else is_identifier
  end.

Definition is_start_of_type (parameter : bool) : P bool :=
  λ p, is_start_of_type_fuel (S (S (S (length (p_source_text p))))) parameter p.

Definition is_start_of_parameter (jsdoc : bool) : P bool :=
  is_start_of_parameter_with is_start_of_type jsdoc.
Definition next_is_parenthesized_or_function_type : P bool :=
  next_is_parenthesized_or_function_type_with is_start_of_type.
Definition next_is_start_of_type : P bool := next_token;; is_start_of_type false.

Definition next_is_unambiguously_index_signature : P bool :=
  next_token;;
  done ← token_in [DotDotDotToken; CloseBracketToken];
  if done : bool then mret true
  else
    modifier ← pgets (λ p, is_modifier_kind (p_token p));
    name ← is_identifier;
    decided ← (if modifier : bool then
                 next_token;;
                 name ← is_identifier;
                 mret (if name : bool then Some true else None)
               else if negb name then mret (Some false)
               else next_token;; mret None);
    match decided with
    | Some answer => mret answer
    | None =>
        colon ← token_in [ColonToken; CommaToken];
        if colon : bool then mret true
        else
          question ← token_is QuestionToken;
          if negb question then mret false
          else next_token;; token_in [ColonToken; CommaToken; CloseBracketToken]
    end.

Definition is_index_signature : P bool :=
  token_is OpenBracketToken &&& look_ahead next_is_unambiguously_index_signature.

(** ** Expressions *)

Definition is_binary_operator : P bool :=
  pnot (in_disallow_in_context &&& token_is InKeyword)
  &&& pgets (λ p, negb (get_binary_operator_precedence (p_token p) =? INVALID_PRECEDENCE)).

Definition is_start_of_left_hand_side_expression : P bool :=
  kind ← get_token;
  if one_of kind [ThisKeyword; SuperKeyword; NullKeyword; TrueKeyword; FalseKeyword; NumericLiteral;
      BigIntLiteral; StringLiteral; NoSubstitutionTemplateLiteral; TemplateHead; OpenParenToken;
      OpenBracketToken; OpenBraceToken; FunctionKeyword; ClassKeyword; NewKeyword; SlashToken;
      SlashEqualsToken; Identifier] then mret true
  else if kind_eqb kind ImportKeyword then
    look_ahead (next_token_in [OpenParenToken; LessThanToken; DotToken])
  else is_identifier.

Definition is_start_of_expression : P bool :=
  is_start_of_left_hand_side_expression
  ||| token_in [PlusToken; MinusToken; TildeToken; ExclamationToken; DeleteKeyword; TypeOfKeyword;
        VoidKeyword; PlusPlusToken; MinusMinusToken; LessThanToken; AwaitKeyword; YieldKeyword;
        PrivateIdentifier; AtToken]
  ||| is_binary_operator
  ||| is_identifier.

Definition is_start_of_expression_statement : P bool :=
  pnot (token_in [OpenBraceToken; FunctionKeyword; ClassKeyword; AtToken]) &&& is_start_of_expression.

Definition next_is_start_of_expression : P bool := next_token;; is_start_of_expression.

Definition is_update_expression : P bool := pgets (λ p,
  if one_of (p_token p) [PlusToken; MinusToken; TildeToken; ExclamationToken; DeleteKeyword;
       TypeOfKeyword; VoidKeyword; AwaitKeyword] then false
  else if kind_eqb (p_token p) LessThanToken then p_language_variant p =? JSX
  else true).

Definition is_yield_expression : P bool :=
  token_is YieldKeyword
  &&& (in_yield_context ||| look_ahead next_token_is_identifier_or_keyword_or_literal_on_same_line).
Definition is_await_expression : P bool :=
  token_is AwaitKeyword
  &&& (in_await_context ||| look_ahead next_token_is_identifier_or_keyword_or_literal_on_same_line).

Definition can_follow_type_arguments_in_expression : P bool :=
  kind ← get_token;
  match kind with
  | OpenParenToken | NoSubstitutionTemplateLiteral | TemplateHead => mret true
  | LessThanToken | GreaterThanToken | PlusToken | MinusToken => mret false
  | _ => has_preceding_line_break ||| is_binary_operator ||| pnot is_start_of_expression
  end.

(** ** Heritage clauses *)

Definition is_heritage_clause : P bool := token_in [ExtendsKeyword; ImplementsKeyword].
Definition is_heritage_clause_extends_or_implements_keyword : P bool :=
  is_heritage_clause &&& look_ahead next_is_start_of_expression.
Definition next_is_valid_heritage_clause_object_literal : P bool :=
  kind ← next_token;
  if kind_eqb kind CloseBraceToken
  then next_token_in [CommaToken; OpenBraceToken; ExtendsKeyword; ImplementsKeyword]
  else mret true.
Definition is_valid_heritage_clause_object_literal : P bool :=
  look_ahead next_is_valid_heritage_clause_object_literal.
Definition is_implements_clause : P bool :=
  token_is ImplementsKeyword &&& look_ahead next_token_is_identifier_or_keyword.

(** ** Declarations *)

Definition next_token_is_binding_identifier_or_start_of_destructuring : P bool :=
  next_token;; is_binding_identifier ||| token_in [OpenBraceToken; OpenBracketToken].
Definition is_let_declaration : P bool :=
  look_ahead next_token_is_binding_identifier_or_start_of_destructuring.

Definition next_token_is_binding_identifier_or_start_of_destructuring_on_same_line
    (disallow_of : bool) : P bool :=
  next_token;;
  contextual ← mret disallow_of &&& token_is OfKeyword;
  if contextual : bool then look_ahead next_token_is_equals_or_semicolon_or_colon_token
  else (is_binding_identifier ||| token_is OpenBraceToken) &&& on_same_line.
Definition next_token_is_binding_identifier_or_start_of_destructuring_on_same_line_disallow_of
    : P bool :=
  next_token_is_binding_identifier_or_start_of_destructuring_on_same_line true.
Definition is_using_declaration : P bool :=
  look_ahead (next_token_is_binding_identifier_or_start_of_destructuring_on_same_line false).

Definition
  next_is_using_keyword_then_binding_identifier_or_start_of_object_destructuring_on_same_line
    : P bool :=
  next_token_in [UsingKeyword]
  &&& next_token_is_binding_identifier_or_start_of_destructuring_on_same_line false.
Definition is_await_using_declaration : P bool :=
  look_ahead
    next_is_using_keyword_then_binding_identifier_or_start_of_object_destructuring_on_same_line.

Definition is_next_token_open_paren_or_less_than_or_dot : P bool :=
  look_ahead next_token_is_open_paren_or_less_than_or_dot.

(** The round over [export]. *)
Definition after_export : P (unit + bool) :=
  next_token;;
  done ← token_in [EqualsToken; AsteriskToken; OpenBraceToken; DefaultKeyword; AsKeyword; AtToken];
  if done : bool then mret (inr true)
  else
    alias ← token_is TypeKeyword;
    if alias : bool then
      next_token;;
      answer ← token_in [AsteriskToken; OpenBraceToken] ||| is_identifier &&& on_same_line;
      mret (inr answer)
    else mret (inl tt).

(** One round: over a modifier, or the answer. *)
Definition declaration_body (_ : unit) : P (unit + bool) :=
  previous ← get_token;
  match previous with
  | VarKeyword | LetKeyword | ConstKeyword | FunctionKeyword | ClassKeyword | EnumKeyword =>
      mret (inr true)
  | UsingKeyword => answer ← is_using_declaration; mret (inr answer)
  | AwaitKeyword => answer ← is_await_using_declaration; mret (inr answer)
  | InterfaceKeyword | TypeKeyword | DeferKeyword =>
      answer ← next_token_is_identifier_on_same_line; mret (inr answer)
  | ModuleKeyword | NamespaceKeyword =>
      answer ← next_token_is_identifier_or_string_literal_on_same_line; mret (inr answer)
  | AbstractKeyword | AccessorKeyword | AsyncKeyword | DeclareKeyword | PrivateKeyword
  | ProtectedKeyword | PublicKeyword | ReadonlyKeyword =>
      next_token;;
      broken ← has_preceding_line_break;
      if broken : bool then mret (inr false)
      else
        alias ← mret (kind_eqb previous DeclareKeyword) &&& token_is TypeKeyword;
        mret (if alias : bool then inr true else inl tt)
  | GlobalKeyword =>
      next_token;;
      answer ← token_in [OpenBraceToken; Identifier; ExportKeyword]; mret (inr answer)
  | ImportKeyword =>
      next_token;;
      answer ← token_in [DeferKeyword; StringLiteral; AsteriskToken; OpenBraceToken]
               ||| pgets (λ p, token_is_identifier_or_keyword (p_token p));
      mret (inr answer)
  | ExportKeyword => after_export
  | StaticKeyword => next_token;; mret (inl tt)
  | _ => mret (inr false)
  end.

Definition scan_start_of_declaration : P bool := ploop declaration_body tt.
Definition is_start_of_declaration : P bool := look_ahead scan_start_of_declaration.

(** ** Statements *)

Definition starts_statement_at_once (kind : SyntaxKind) : bool :=
  one_of kind [AtToken; SemicolonToken; OpenBraceToken; VarKeyword; LetKeyword; UsingKeyword;
    FunctionKeyword; ClassKeyword; EnumKeyword; IfKeyword; DoKeyword; WhileKeyword; ForKeyword;
    ContinueKeyword; BreakKeyword; ReturnKeyword; WithKeyword; SwitchKeyword; ThrowKeyword;
    TryKeyword; DebuggerKeyword; CatchKeyword; FinallyKeyword; AsyncKeyword; DeclareKeyword;
    InterfaceKeyword; ModuleKeyword; NamespaceKeyword; TypeKeyword; GlobalKeyword; DeferKeyword].

Definition is_start_of_statement : P bool :=
  kind ← get_token;
  if starts_statement_at_once kind then mret true
  else
    match kind with
    | ImportKeyword => is_start_of_declaration ||| is_next_token_open_paren_or_less_than_or_dot
    | ConstKeyword | ExportKeyword => is_start_of_declaration
    | AccessorKeyword | PublicKeyword | PrivateKeyword | ProtectedKeyword | StaticKeyword
    | ReadonlyKeyword =>
        is_start_of_declaration
        ||| pnot (look_ahead next_token_is_identifier_or_keyword_on_same_line)
    | _ => is_start_of_expression
    end.

(** ** Arrow functions ([ambiguity.rs]) *)

Inductive Tristate := TUnknown | TFalse | TTrue.

Definition tristate (b : bool) : Tristate := if b then TTrue else TFalse.

(** After the parenthesis, where the next token neither closes it nor opens a pattern. *)
Definition arrow_after_paren (second : SyntaxKind) : P Tristate :=
  modifier ← mret (is_modifier_kind second && negb (kind_eqb second AsyncKeyword))
             &&& look_ahead next_token_is_identifier;
  if modifier : bool then
    kind ← next_token; mret (tristate (negb (kind_eqb kind AsKeyword)))
  else
    name ← is_identifier;
    if negb name && negb (kind_eqb second ThisKeyword) then mret TFalse
    else
      kind ← next_token;
      match kind with
      | ColonToken => mret TTrue
      | QuestionToken =>
          answer ← next_token_in [ColonToken; CommaToken; EqualsToken; CloseParenToken];
          mret (tristate answer)
      | CommaToken | EqualsToken | CloseParenToken => mret TUnknown
      | _ => mret TFalse
      end.

Definition is_jsx_arrow : P bool :=
  parse_optional ConstKeyword;;
  kind ← next_token;
  match kind with
  | ExtendsKeyword => pnot (next_token_in [EqualsToken; GreaterThanToken; SlashToken])
  | CommaToken | EqualsToken => mret true
  | _ => mret false
  end.

Definition arrow_after_less_than : P Tristate :=
  start ← is_identifier ||| token_is ConstKeyword;
  if negb start then mret TFalse
  else
    variant ← pgets p_language_variant;
    if variant =? JSX then arrow ← look_ahead is_jsx_arrow; mret (tristate arrow)
    else mret TUnknown.

Definition next_is_parenthesized_arrow_function_expression : P Tristate :=
  async ← token_is AsyncKeyword;
  bare ← (if async : bool then
            next_token;;
            has_preceding_line_break ||| pnot (token_in [OpenParenToken; LessThanToken])
          else mret false);
  if bare : bool then mret TFalse
  else
    first ← get_token;
    second ← next_token;
    match first with
    | OpenParenToken =>
        match second with
        | CloseParenToken =>
            answer ← next_token_in [EqualsGreaterThanToken; ColonToken; OpenBraceToken];
            mret (tristate answer)
        | OpenBracketToken | OpenBraceToken => mret TUnknown
        | DotDotDotToken => mret TTrue
        | _ => arrow_after_paren second
        end
    | LessThanToken => arrow_after_less_than
    | _ => ppanic
    end.

Definition is_parenthesized_arrow_function_expression : P Tristate :=
  start ← token_in [OpenParenToken; LessThanToken; AsyncKeyword];
  if start : bool then marked next_is_parenthesized_arrow_function_expression
  else arrow ← token_is EqualsGreaterThanToken; mret (tristate arrow).

Definition next_is_un_parenthesized_async_arrow_function : P bool :=
  async ← token_is AsyncKeyword;
  if negb async then mret false
  else
    next_token;;
    bare ← has_preceding_line_break ||| token_is EqualsGreaterThanToken ||| pnot is_identifier;
    if bare : bool then mret false
    else next_token_without_check;; on_same_line &&& token_is EqualsGreaterThanToken.
End Predicates.
