(* ===== verification/ParserListBuffer.v ===== *)
(** The buffer a list of nodes is collected in: [crates/tsr_parser/src/list_buffer.rs].
    It holds up to four nodes in place and moves to the heap with the fifth. It behaves
    as the list of what was pushed; the capacities it reserves are left out. *)

From stdpp Require Import list.
From S2P Require Import Prelude.

(** [usize::MAX], on 64-bit machines. *)
Abbreviation USIZE_MAX := U64_MAX (only parsing).

Section ListBuffer.
Context {NodeId : Type}.

Inductive ListBuffer :=
  | Inline (nodes : list (option NodeId)) (len : nat)
  | Heap (nodes : list NodeId).

Definition inline : ListBuffer := Inline (replicate 4 None) 0.
Definition heap : ListBuffer := Heap [].

Definition len (b : ListBuffer) : nat :=
  match b with Inline _ len => len | Heap nodes => length nodes end.
Definition is_empty (b : ListBuffer) : bool := len b =? 0.

Definition inline_nodes (b : ListBuffer) : option (list (option NodeId)) :=
  match b with Inline nodes len => Some (take len nodes) | Heap _ => None end.

(** [nodes.iter().map(|node| node.expect("filled parser list slot"))] *)
Definition filled (nodes : list (option NodeId)) : option (list NodeId) := mapM id nodes.

Definition push (b : ListBuffer) (node : NodeId) : option ListBuffer :=
  match b with
  | Inline nodes len =>
      if len <? length nodes then Some (Inline (<[len := Some node]> nodes) (S len))
      else spilled ← filled (take len nodes); Some (Heap (spilled ++ [node]))
  | Heap nodes => Some (Heap (nodes ++ [node]))
  end.

(** Slot by slot; a slot that is not there is a panic. *)
Fixpoint fill (nodes : list (option NodeId)) (len : nat) (suffix : list NodeId) : option ListBuffer :=
  match suffix with
  | [] => Some (Inline nodes len)
  | node :: suffix =>
      if len <? length nodes then fill (<[len := Some node]> nodes) (S len) suffix else None
  end.

Definition append (b : ListBuffer) (suffix : list NodeId) : option ListBuffer :=
  match b with
  | Inline nodes len =>
      let required := len + length suffix in
      if (USIZE_MAX <? Z.of_nat required)%Z then None
      else if required <=? length nodes then fill nodes len suffix
      else spilled ← filled (take len nodes); Some (Heap (spilled ++ suffix))
  | Heap nodes => Some (Heap (nodes ++ suffix))
  end.

Definition into_vec (b : ListBuffer) : option (list NodeId) :=
  match b with Heap nodes => Some nodes | Inline nodes len => filled (take len nodes) end.

(** ** The list a buffer stands for *)

(** The slots in use come first and are filled; the others are empty. *)
Definition holds (b : ListBuffer) (l : list NodeId) : Prop :=
  match b with
  | Inline nodes len =>
      len = length l ∧ len <= 4 ∧ nodes = map Some l ++ replicate (4 - len) None
  | Heap nodes => nodes = l
  end.

Lemma filled_map (l : list NodeId) : filled (map Some l) = Some l.
Proof. unfold filled. induction l as [|x l IH]; [done|]. cbn. by rewrite IH. Qed.

Lemma take_held (l : list NodeId) : take (length l) (map Some l ++ replicate (4 - length l) None) = map Some l.
Proof. by rewrite take_app_length' by by rewrite length_map. Qed.

Lemma insert_held (l : list NodeId) (node : NodeId) :
  length l < 4 →
  <[length l := Some node]> (map Some l ++ replicate (4 - length l) None)
  = map Some (l ++ [node]) ++ replicate (4 - length (l ++ [node])) None.
Proof.
  intros Hl. rewrite insert_app_r_alt, length_map, Nat.sub_diag, map_app, length_app, <-app_assoc
    by by rewrite length_map. cbn [length].
  replace (4 - length l) with (S (4 - (length l + 1))) by lia. done.
Qed.

Lemma length_held (l : list NodeId) :
  length l <= 4 → length (map Some l ++ replicate (4 - length l) None) = 4.
Proof. intros Hl. rewrite length_app, length_map, length_replicate. lia. Qed.

Lemma inline_holds : holds inline [].
Proof. split_and!; [done|lia|done]. Qed.
Lemma heap_holds : holds heap [].
Proof. done. Qed.

Lemma len_holds b l : holds b l → len b = length l.
Proof. destruct b; [by intros [-> _]|by intros ->]. Qed.

Lemma is_empty_holds b l : holds b l → is_empty b = bool_decide (l = []).
Proof. intros Hb. unfold is_empty. rewrite (len_holds b l Hb). by destruct l. Qed.

Lemma into_vec_holds b l : holds b l → into_vec b = Some l.
Proof.
  destruct b as [nodes n|nodes]; [|by intros ->]. intros (-> & Hn & ->). cbn.
  by rewrite take_held, filled_map.
Qed.

Lemma inline_nodes_holds b l values :
  holds b l → inline_nodes b = Some values → values = map Some l.
Proof.
  destruct b as [nodes n|nodes]; [|done]. intros (-> & Hn & ->). cbn. rewrite take_held. by intros [= <-].
Qed.

Lemma push_holds b l node : holds b l → ∃ b', push b node = Some b' ∧ holds b' (l ++ [node]).
Proof.
  destruct b as [nodes n|nodes]; [|intros ->; by eexists]. intros (-> & Hn & ->). cbn [push].
  rewrite length_held by done. destruct (Nat.ltb_spec (length l) 4).
  - eexists. split; [done|]. cbn. rewrite length_app. split_and!; [cbn; lia|lia|].
    rewrite insert_held by done. by rewrite length_app, Nat.add_1_r.
  - rewrite take_held, filled_map. by eexists.
Qed.

Lemma fill_holds (l suffix : list NodeId) :
  length l + length suffix <= 4 →
  ∃ b', fill (map Some l ++ replicate (4 - length l) None) (length l) suffix = Some b'
    ∧ holds b' (l ++ suffix).
Proof.
  revert l. induction suffix as [|node suffix IH]; intros l Hl; cbn [fill length] in *.
  - eexists. split; [done|]. rewrite app_nil_r. split_and!; [done|lia|done].
  - rewrite length_held by lia. rewrite (proj2 (Nat.ltb_lt _ _)) by lia. rewrite insert_held by lia.
    destruct (IH (l ++ [node])) as (b' & Hb & Hh); [rewrite length_app; cbn; lia|].
    exists b'. rewrite length_app, Nat.add_1_r in Hb. rewrite length_app, Nat.add_1_r.
    split; [done|]. by rewrite <-app_assoc in Hh.
Qed.

Lemma append_holds b l suffix :
  holds b l → (Z.of_nat (length l + length suffix) <= USIZE_MAX)%Z →
  ∃ b', append b suffix = Some b' ∧ holds b' (l ++ suffix).
Proof.
  destruct b as [nodes n|nodes]; [|intros -> _; by eexists]. intros (-> & Hn & ->) Hfit. cbn [append].
  rewrite (proj2 (Z.ltb_ge _ _)) by done. rewrite length_held by done.
  destruct (Nat.leb_spec (length l + length suffix) 4); [by apply fill_holds|].
  rewrite take_held, filled_map. by eexists.
Qed.

(** ** Uses of a buffer *)

Inductive Use := Push (node : NodeId) | Append (suffix : list NodeId).

Definition use (b : ListBuffer) (u : Use) : option ListBuffer :=
  match u with Push node => push b node | Append suffix => append b suffix end.
Definition use_all (b : ListBuffer) (us : list Use) : option ListBuffer :=
  foldl (λ b u, b ← b; use b u) (Some b) us.

Definition collected (us : list Use) : list NodeId :=
  us ≫= λ u, match u with Push node => [node] | Append suffix => suffix end.

Lemma use_all_holds b l us :
  holds b l → (Z.of_nat (length l + length (collected us)) <= USIZE_MAX)%Z →
  ∃ b', use_all b us = Some b' ∧ holds b' (l ++ collected us).
Proof.
  revert b l. induction us as [|u us IH]; intros b l Hb Hfit.
  { exists b. cbn. by rewrite app_nil_r. }
  set (new := match u with Push node => [node] | Append suffix => suffix end).
  assert (collected (u :: us) = new ++ collected us) as Hnew by done.
  rewrite Hnew, length_app in Hfit.
  assert (∃ b', use b u = Some b' ∧ holds b' (l ++ new)) as (b' & Hu & Hb').
  { destruct u; [by apply push_holds|]. apply append_holds; [done|]. subst new. lia. }
  destruct (IH b' (l ++ new) Hb') as (b'' & Hus & Hb''); [rewrite length_app; lia|].
  exists b''. rewrite Hnew, app_assoc. split; [|done].
  unfold use_all in *. cbn [foldl mbind option_bind]. by rewrite Hu.
Qed.
End ListBuffer.
Arguments ListBuffer : clear implicits.
Arguments Use : clear implicits.

(** A buffer behaves as the list of what was put into it: after any sequence of
    pushes and appends, started in place or on the heap, nothing has panicked, its length
    is the number of nodes, taking the nodes out gives them in the order they went in,
    and so do the slots of a buffer that is still in place. *)
Theorem list_buffer_refines {NodeId} (b : ListBuffer NodeId) (us : list (Use NodeId)) :
  b = inline ∨ b = heap → (Z.of_nat (length (collected us)) <= USIZE_MAX)%Z →
  ∃ b', use_all b us = Some b'
    ∧ len b' = length (collected us) ∧ into_vec b' = Some (collected us)
    ∧ ∀ values, inline_nodes b' = Some values → values = map Some (collected us).
Proof.
  intros Hstart Hfit. destruct (use_all_holds b [] us) as (b' & Hus & Hb'); [|done|].
  { destruct Hstart as [-> | ->]; [apply inline_holds|apply heap_holds]. }
  exists b'. split_and!; [done|by apply len_holds|by apply into_vec_holds|].
  intros values. by apply inline_nodes_holds.
Qed.

Lemma list_buffer_refines_witness :
  let us := [Append [1; 2; 3]; Push 4; Push 5; Append [6]] in
  ∃ b', use_all inline us = Some b'
    ∧ len b' = length (collected us) ∧ into_vec b' = Some (collected us)
    ∧ ∀ values, inline_nodes b' = Some values → values = map Some (collected us).
Proof. apply list_buffer_refines; [by left|by vm_compute]. Defined.
