(* ===== verification/ParserLists.v ===== *)
(** Lists of elements and recovery inside them: [crates/tsr_parser/src/lists.rs], with the
    list operations of [state.rs] and [factory.rs]. What an element is parsed by is a
    parameter, as it is in the source. *)

From stdpp Require Import gmap.
From S2P Require Import Prelude TextEdits BigInt ScannerKinds ScannerState ParserCore.
From S2P Require Import ParserPredicates ParserListBuffer.

Local Open Scope Z_scope.
Local Open Scope parser_scope.

(** ** Parsing contexts *)

Inductive ParsingContext :=
  | SourceElements | BlockStatements | SwitchClauses | SwitchClauseStatements | TypeMembers
  | ClassMembers | EnumMembers | HeritageClauseElement | VariableDeclarations
  | ObjectBindingElements | ArrayBindingElements | ArgumentExpressions | ObjectLiteralMembers
  | JsxAttributes | JsxChildren | ArrayLiteralMembers | Parameters | JSDocParameters
  | RestProperties | TypeParameters | TypeArguments | TupleElementTypes | HeritageClauses
  | ImportOrExportSpecifiers | ImportAttributes | JSDocComment.

(** [ParsingContext::ALL] *)
Definition ALL : list ParsingContext :=
  [SourceElements; BlockStatements; SwitchClauses; SwitchClauseStatements; TypeMembers;
   ClassMembers; EnumMembers; HeritageClauseElement; VariableDeclarations; ObjectBindingElements;
   ArrayBindingElements; ArgumentExpressions; ObjectLiteralMembers; JsxAttributes; JsxChildren;
   ArrayLiteralMembers; Parameters; JSDocParameters; RestProperties; TypeParameters; TypeArguments;
   TupleElementTypes; HeritageClauses; ImportOrExportSpecifiers; ImportAttributes; JSDocComment].

#[export] Instance parsing_context_eq_dec : EqDecision ParsingContext.
Proof. solve_decision. Defined.

(** [kind as u8]: the constructors in the order of the declaration. *)
Definition context_number (kind : ParsingContext) : Z :=
  match list_find (kind =.) ALL with Some (n, _) => Z.of_nat n | None => 0 end.
(** [1 << kind as u8] *)
Definition context_bit (kind : ParsingContext) : Z := Z.shiftl 1 (context_number kind).

Definition context_in (kind : ParsingContext) (kinds : list ParsingContext) : bool :=
  bool_decide (kind ∈ kinds).

Section Lists.
Context `{ParserFactory, JsNum, NumBigint, IdentifierTables, OwnerAllocator}.

(** ** What starts an element and what ends a list *)

Definition is_list_element (kind : ParsingContext) (recovery : bool) : P bool :=
  match kind with
  | SourceElements | BlockStatements | SwitchClauseStatements =>
      pnot (token_is SemicolonToken &&& mret recovery) &&& is_start_of_statement
  | SwitchClauses => token_in [CaseKeyword; DefaultKeyword]
  | TypeMembers => look_ahead scan_type_member_start
  | ClassMembers =>
      look_ahead scan_class_member_start ||| token_is SemicolonToken &&& mret (negb recovery)
  | EnumMembers => token_is OpenBracketToken ||| is_literal_property_name
  | ObjectLiteralMembers =>
      token_in [OpenBracketToken; AsteriskToken; DotDotDotToken; DotToken]
      ||| is_literal_property_name
  | RestProperties => is_literal_property_name
  | ObjectBindingElements =>
      token_in [OpenBracketToken; DotDotDotToken] ||| is_literal_property_name
  | ImportAttributes => is_import_attribute_name
  | HeritageClauseElement =>
      brace ← token_is OpenBraceToken;
      if brace : bool then is_valid_heritage_clause_object_literal
      else
        (if recovery then is_identifier else is_start_of_left_hand_side_expression)
        &&& pnot is_heritage_clause_extends_or_implements_keyword
  | VariableDeclarations => is_binding_identifier_or_private_identifier_or_pattern
  | ArrayBindingElements =>
      token_in [CommaToken; DotDotDotToken]
      ||| is_binding_identifier_or_private_identifier_or_pattern
  | TypeParameters => token_in [InKeyword; ConstKeyword] ||| is_identifier
  | ArrayLiteralMembers =>
      token_in [CommaToken; DotToken] ||| (token_is DotDotDotToken ||| is_start_of_expression)
  | ArgumentExpressions => token_is DotDotDotToken ||| is_start_of_expression
  | Parameters => is_start_of_parameter false
  | JSDocParameters => is_start_of_parameter true
  | TypeArguments | TupleElementTypes => token_is CommaToken ||| is_start_of_type false
  | HeritageClauses => is_heritage_clause
  | ImportOrExportSpecifiers =>
      from_clause ← token_is FromKeyword &&& look_ahead (next_token_in [StringLiteral]);
      if from_clause : bool then mret false
      else
        token_is StringLiteral ||| pgets (λ p, token_is_identifier_or_keyword (p_token p))
  | JsxAttributes =>
      pgets (λ p, token_is_identifier_or_keyword (p_token p)) ||| token_is OpenBraceToken
  | JsxChildren | JSDocComment => mret true
  end.

Definition is_list_terminator (kind : ParsingContext) : P bool :=
  token_is EndOfFile |||
  match kind with
  | BlockStatements | SwitchClauses | TypeMembers | ClassMembers | EnumMembers
  | ObjectLiteralMembers | ObjectBindingElements | ImportOrExportSpecifiers | ImportAttributes =>
      token_is CloseBraceToken
  | SwitchClauseStatements => token_in [CloseBraceToken; CaseKeyword; DefaultKeyword]
  | HeritageClauseElement => token_in [OpenBraceToken; ExtendsKeyword; ImplementsKeyword]
  | VariableDeclarations =>
      can_parse_semicolon ||| token_in [InKeyword; OfKeyword; EqualsGreaterThanToken]
  | TypeParameters =>
      token_in [GreaterThanToken; OpenParenToken; OpenBraceToken; ExtendsKeyword; ImplementsKeyword]
  | ArgumentExpressions => token_in [CloseParenToken; SemicolonToken]
  | ArrayLiteralMembers | TupleElementTypes | ArrayBindingElements => token_is CloseBracketToken
  | JSDocParameters | Parameters | RestProperties => token_in [CloseParenToken; CloseBracketToken]
  | TypeArguments => pnot (token_is CommaToken)
  | HeritageClauses => token_in [OpenBraceToken; CloseBraceToken]
  | JsxAttributes => token_in [GreaterThanToken; SlashToken]
  | JsxChildren => token_is LessThanToken &&& look_ahead (next_token_in [SlashToken])
  | SourceElements | JSDocComment => mret false
  end.

(** ** Recovery *)

(** The contexts around are asked one by one, until one takes the token. *)
Fixpoint in_some_context (kinds : list ParsingContext) : P bool :=
  match kinds with
  | [] => mret false
  | kind :: kinds =>
      pgets (λ p, has_flag (p_parsing_contexts p) (context_bit kind))
      &&& (is_list_element kind true ||| is_list_terminator kind)
      ||| in_some_context kinds
  end.

(** [debug::assert] is on in every build. *)
Definition is_in_some_parsing_context : P bool :=
  contexts ← pgets p_parsing_contexts;
  if contexts =? 0 then ppanic else in_some_context ALL.

(** The message and its arguments. *)
Definition context_error (kind : ParsingContext) (token : SyntaxKind) : ParserMessage * list bytes :=
  match kind with
  | SourceElements =>
      if kind_eqb token DefaultKeyword then (X_0_expected, [bs "export"])
      else (Declaration_or_statement_expected, [])
  | BlockStatements => (Declaration_or_statement_expected, [])
  | SwitchClauses => (X_case_or_default_expected, [])
  | SwitchClauseStatements => (Statement_expected, [])
  | RestProperties | TypeMembers => (Property_or_signature_expected, [])
  | ClassMembers =>
      (Unexpected_token_A_constructor_method_accessor_or_property_was_expected, [])
  | EnumMembers => (Enum_member_expected, [])
  | HeritageClauseElement => (Expression_expected, [])
  | VariableDeclarations =>
      if is_keyword_kind token
      then (X_0_is_not_allowed_as_a_variable_declaration_name, [token_to_string token])
      else (Variable_declaration_expected, [])
  | ObjectBindingElements => (Property_destructuring_pattern_expected, [])
  | ArrayBindingElements => (Array_element_destructuring_pattern_expected, [])
  | ArgumentExpressions => (Argument_expression_expected, [])
  | ObjectLiteralMembers => (Property_assignment_expected, [])
  | ArrayLiteralMembers => (Expression_or_comma_expected, [])
  | Parameters =>
      if is_keyword_kind token
      then (X_0_is_not_allowed_as_a_parameter_name, [token_to_string token])
      else (Parameter_declaration_expected, [])
  | JSDocParameters => (Parameter_declaration_expected, [])
  | TypeParameters => (Type_parameter_declaration_expected, [])
  | TypeArguments => (Type_argument_expected, [])
  | TupleElementTypes => (Type_expected, [])
  | HeritageClauses => (Unexpected_token_expected, [])
  | ImportOrExportSpecifiers =>
      if kind_eqb token FromKeyword then (X_0_expected, [bs "}"]) else (Identifier_expected, [])
  | JsxAttributes | JsxChildren | JSDocComment => (Identifier_expected, [])
  | ImportAttributes => (Identifier_or_string_literal_expected, [])
  end.

Definition parsing_context_errors (kind : ParsingContext) : P unit :=
  token ← get_token;
  let '(message, args) := context_error kind token in
  parse_error_at_current_token message args;;
  mret tt.

Definition abort_parsing_list_or_move_to_next_token (kind : ParsingContext) : P bool :=
  parsing_context_errors kind;;
  outside ← is_in_some_parsing_context;
  if outside : bool then mret true else next_token;; mret false.

(** ** The lists themselves *)

(** [start_list_buffer] and [finish_list_buffer], of the trait and of [AstBuilder]. *)
Definition start_list_buffer : ListBuffer NodeId :=
  if inline_buffers then inline else heap.

Definition finish_list_buffer (nodes : ListBuffer NodeId) : P NodeSlice :=
  if is_empty nodes then mret empty_slice
  else
    match (if inline_buffers then inline_nodes nodes else None) with
    | Some values => factory_op (node_slice_from_slice values)
    | None => values ← plift (into_vec nodes); factory_op (alloc_nodes (map Some values))
    end.

Definition new_parsed_node_list (loc : TextRange) (nodes : ListBuffer NodeId) : P NodeListId :=
  nodes ← finish_list_buffer nodes; factory_op (alloc_list loc nodes).

Definition new_node_list (loc : TextRange) (nodes : list NodeId) : P NodeListId :=
  nodes ← (if bool_decide (length nodes = 0%nat) then mret empty_slice
           else factory_op (alloc_nodes (map Some nodes)));
  factory_op (alloc_list loc nodes).

Definition parse_empty_node_list : P NodeListId :=
  p ← node_pos; new_node_list (range_new p p) [].

Definition create_missing_list : P NodeListId :=
  list ← parse_empty_node_list;
  pmodify (λ p, p <| p_factory := factory_mark_list_missing list (p_factory p) |>);;
  mret list.

Definition enter_context (kind : ParsingContext) : P Z :=
  saved ← pgets p_parsing_contexts;
  pmodify (λ p, p <| p_parsing_contexts := Z.lor (p_parsing_contexts p) (context_bit kind) |>);;
  mret saved.
Definition leave_context (saved : Z) : P unit :=
  pmodify (λ p, p <| p_parsing_contexts := saved |>).

(** The nodes of [reparse_list], in their order: some are kept for the list outside. *)
Fixpoint drain_reparsed (kind : ParsingContext) (reparsed : list NodeId) (factory : Factory)
    (outer : list NodeId) (list : ListBuffer NodeId)
  : option (Datatypes.list NodeId * ListBuffer NodeId) :=
  match reparsed with
  | [] => Some (outer, list)
  | node :: reparsed =>
      if is_js_type_alias_or_import node factory
         && negb (context_in kind [SourceElements; BlockStatements])
      then drain_reparsed kind reparsed factory (outer ++ [node]) list
      else list ← push list node; drain_reparsed kind reparsed factory outer list
  end.

Definition list_index_body (kind : ParsingContext) (parse_element : nat → P NodeId)
    (st : list NodeId * ListBuffer NodeId)
  : P ((list NodeId * ListBuffer NodeId) + (list NodeId * ListBuffer NodeId)) :=
  let '(outer, list) := st in
  done ← is_list_terminator kind;
  if done : bool then mret (inr (outer, list))
  else
    element ← is_list_element kind false;
    if element : bool then
      element ← parse_element (len list);
      reparsed ← pgets p_reparse_list;
      factory ← pgets p_factory;
      pmodify (λ p, p <| p_reparse_list := [] |>);;
      '(outer, list) ← plift (drain_reparsed kind reparsed factory outer list);
      list ← plift (push list element);
      mret (inl (outer, list))
    else
      aborted ← abort_parsing_list_or_move_to_next_token kind;
      mret (if aborted : bool then inr (outer, list) else inl (outer, list)).

Definition parse_list_index (kind : ParsingContext) (parse_element : nat → P NodeId)
  : P (ListBuffer NodeId) :=
  saved ← enter_context kind;
  outer ← pgets p_reparse_list;
  pmodify (λ p, p <| p_reparse_list := [] |>);;
  '(outer, list) ← ploop (list_index_body kind parse_element) (outer, start_list_buffer);
  pmodify (λ p, p <| p_reparse_list := outer |>);;
  leave_context saved;;
  mret list.

Definition parse_list (kind : ParsingContext) (parse_element : P NodeId) : P NodeListId :=
  p ← node_pos;
  nodes ← parse_list_index kind (λ _, parse_element);
  e ← node_pos;
  new_parsed_node_list (range_new p e) nodes.

(** What follows an element where neither a comma nor the end of the list does. *)
Definition missing_comma (kind : ParsingContext) : P unit :=
  comma ← token_is CommaToken;
  (if negb comma && context_in kind [EnumMembers]
   then parse_error_at_current_token An_enum_member_name_must_be_followed_by_a_or [];; mret tt
   else parse_expected CommaToken;; mret tt);;
  semicolon ← mret (context_in kind [ObjectLiteralMembers; ImportAttributes])
              &&& token_is SemicolonToken &&& on_same_line;
  pwhen semicolon (next_token;; mret tt).

(** [None] is an element parser that gave up. *)
Definition delimited_list_body (kind : ParsingContext) (parse_element : P (option NodeId))
    (list : ListBuffer NodeId) : P (ListBuffer NodeId + option (ListBuffer NodeId)) :=
  element ← is_list_element kind false;
  if element : bool then
    start ← node_pos;
    element ← parse_element;
    match element with
    | None => mret (inr None)
    | Some element =>
        list ← plift (push list element);
        comma ← parse_optional CommaToken;
        if comma : bool then mret (inl list)
        else
          done ← is_list_terminator kind;
          if done : bool then mret (inr (Some list))
          else
            missing_comma kind;;
            here ← node_pos;
            pwhen (start =? here) (next_token;; mret tt);;
            mret (inl list)
    end
  else
    done ← is_list_terminator kind ||| abort_parsing_list_or_move_to_next_token kind;
    mret (if done : bool then inr (Some list) else inl list).

Definition parse_delimited_list (kind : ParsingContext) (parse_element : P (option NodeId))
  : P (option NodeListId) :=
  p ← node_pos;
  saved ← enter_context kind;
  list ← ploop (delimited_list_body kind parse_element) start_list_buffer;
  leave_context saved;;
  match list with
  | None => mret None
  | Some list =>
      e ← node_pos;
      list ← new_parsed_node_list (range_new p e) list;
      mret (Some list)
  end.

Definition parse_bracketed_list (kind : ParsingContext) (parse_element : P (option NodeId))
    (opening closing : SyntaxKind) : P (option NodeListId) :=
  open ← parse_expected opening;
  if open : bool then
    result ← parse_delimited_list kind parse_element;
    parse_expected closing;;
    mret result
  else list ← create_missing_list; mret (Some list).
End Lists.
