(* ===== verification/ParserWp.v ===== *)
(** Reasoning about parser computations: total weakest preconditions, what it takes for a
    parser to be fit, how the operations on tokens move it, and the relational judgement
    [in_step]: two parsers that differ in what the scanner has cached and in how many
    checkpoints it has given out carry out the same computation in step. *)

From stdpp Require Import gmap.
From S2P Require Import Prelude Wtf8 TextEdits BigInt ScannerKinds ScannerState ScannerWp.
From S2P Require Import ScannerDigits ScannerScan ScannerTokens ScannerRescan ScannerRescanSpec.
From S2P Require Import ScannerReplay ScannerSession ParserCore.

Local Open Scope Z_scope.

(** ** Diagnostics inside the text *)

Definition range_in (t : bytes) (r : TextRange) : Prop :=
  0 <= TextEdits.pos r ∧ TextEdits.pos r <= TextEdits.end_ r ∧ TextEdits.end_ r <= text_length t.

(** In the text, and no two in a row at one position. *)
Record tidy (t : bytes) (ds : list Diagnostic) : Prop := {
  tidy_inside : Forall (λ d, range_in t (d_loc d)) ds;
  tidy_apart : ∀ i d d', ds !! i = Some d → ds !! S i = Some d' →
    TextEdits.pos (d_loc d) ≠ TextEdits.pos (d_loc d');
}.

Lemma tidy_nil t : tidy t [].
Proof. by split. Qed.

Lemma tidy_take t n ds : tidy t ds → tidy t (take n ds).
Proof.
  intros [Hin Hap]. split; [by apply Forall_take|].
  intros i d d' Hd Hd'. apply lookup_take_Some in Hd as [Hd _], Hd' as [Hd' _]. by eapply Hap.
Qed.

Lemma tidy_snoc t ds d :
  tidy t ds → range_in t (d_loc d) →
  (∀ d0, last ds = Some d0 → TextEdits.pos (d_loc d0) ≠ TextEdits.pos (d_loc d)) →
  tidy t (ds ++ [d]).
Proof.
  intros [Hin Hap] Hd Hlast. split; [by apply Forall_app; split; [|constructor]|].
  intros i d1 d2 H1 H2. apply lookup_app_Some in H2 as [H2|[Hi H2]].
  - apply lookup_app_Some in H1 as [H1|[Hi _]]; [by eapply Hap|]. apply lookup_lt_Some in H2. lia.
  - apply list_lookup_singleton_Some in H2 as [H2 <-]. apply lookup_app_Some in H1 as [H1|[Hi' _]]; [|lia].
    apply Hlast. rewrite last_lookup. by replace (Nat.pred (length ds)) with i by lia.
Qed.

(** ** Parsers *)

Section Fit.
Context `{ParserFactory, JsNum}.

Definition scan_state (p : Parser) : ScannerState := state (p_scanner p).
(** [self.node_pos()] *)
Definition here (p : Parser) : Z := full_start_pos (scan_state p).

(** A parser that stands at a token: its scanner is settled and reports into a buffer
    that has been emptied, both agree about the text and the token, which has a width
    unless it is the end, and the positions of the text fit a diagnostic. *)
Record fit (p : Parser) : Prop := {
  fit_settled : settled (p_scanner p);
  fit_width : token (scan_state p) ≠ EndOfFile →
    full_start_pos (scan_state p) <= token_start (scan_state p) < pos (scan_state p);
  fit_sink : error_sink (p_scanner p) = Buffered [];
  fit_token : p_token p = token (scan_state p);
  fit_text : text (p_scanner p) = p_source_text p;
  fit_length : text_length (p_source_text p) <= I32_MAX;
  fit_ids : next_checkpoint_id (p_scanner p) <= U64_MAX;
  fit_tidy : tidy (p_source_text p) (p_diagnostics p);
}.

(** What reading a token asks of the parser. *)
Record ready (p : Parser) : Prop := {
  ready_sink : error_sink (p_scanner p) = Buffered [];
  ready_text : text (p_scanner p) = p_source_text p;
  ready_length : text_length (p_source_text p) <= I32_MAX;
  ready_ids : next_checkpoint_id (p_scanner p) <= U64_MAX;
  ready_tidy : tidy (p_source_text p) (p_diagnostics p);
}.

Lemma fit_ready p : fit p → ready p.
Proof. by intros []. Qed.

(** The parser has gone on to a token, or stays, and may have reported something. *)
Record moves (p p' : Parser) : Prop := {
  moves_rest : p' = p <| p_scanner := p_scanner p' |> <| p_token := p_token p' |>
    <| p_diagnostics := p_diagnostics p' |> <| p_has_parse_error := p_has_parse_error p' |>;
  moves_settings : same_settings (p_scanner p) (p_scanner p');
  moves_checkpoints : checkpoints (p_scanner p') = checkpoints (p_scanner p);
  moves_owner : ∀ o, checkpoint_owner (p_scanner p) = Some o → checkpoint_owner (p_scanner p') = Some o;
  moves_ids : next_checkpoint_id (p_scanner p) <= next_checkpoint_id (p_scanner p');
  moves_diagnostics : p_diagnostics p `prefix_of` p_diagnostics p';
  moves_forward : here p <= here p';
}.

(** Only the caches of the scanner and the number of checkpoints given out differ. *)
Record unmoved (p p' : Parser) : Prop := {
  unmoved_rest : p' = p <| p_scanner := p_scanner p' |>;
  unmoved_state : scan_state p' = scan_state p;
  unmoved_settings : same_settings (p_scanner p) (p_scanner p');
  unmoved_checkpoints : checkpoints (p_scanner p') = checkpoints (p_scanner p);
  unmoved_owner : ∀ o, checkpoint_owner (p_scanner p) = Some o → checkpoint_owner (p_scanner p') = Some o;
  unmoved_ids : next_checkpoint_id (p_scanner p) <= next_checkpoint_id (p_scanner p');
}.

#[global] Instance moves_refl : Reflexive moves.
Proof. intros p. split; try done. by destruct p. Qed.
#[global] Instance moves_trans : Transitive moves.
Proof.
  intros p1 p2 p3 H1 H2. destruct H1 as [E1 ? C1 ? ? ? ?], H2 as [E2 ? C2 ? ? ? ?]. split.
  - rewrite E2, E1. done.
  - by etrans.
  - congruence.
  - auto.
  - lia.
  - by etrans.
  - lia.
Qed.

#[global] Instance unmoved_refl : Reflexive unmoved.
Proof. intros p. split; try done. by destruct p. Qed.
#[global] Instance unmoved_trans : Transitive unmoved.
Proof.
  intros p1 p2 p3 H1 H2. destruct H1 as [E1 S1 ? C1 ? ?], H2 as [E2 S2 ? C2 ? ?]. split.
  - rewrite E2, E1. done.
  - congruence.
  - by etrans.
  - congruence.
  - auto.
  - lia.
Qed.

#[global] Instance moves_preorder : PreOrder moves.
Proof. split; apply _. Qed.
#[global] Instance unmoved_preorder : PreOrder unmoved.
Proof. split; apply _. Qed.

Lemma unmoved_moves p p' : unmoved p p' → moves p p'.
Proof.
  intros [E S ? ? ? ?]. assert (p_diagnostics p' = p_diagnostics p) as Ed by by rewrite E.
  split; try done.
  - rewrite E. by destruct p.
  - by rewrite Ed.
  - unfold here. by rewrite S.
Qed.

(** Two fit parsers that differ at most as [unmoved] ones do. *)
Record twin (p q : Parser) : Prop := {
  twin_fit : fit p;
  twin_fit' : fit q;
  twin_scanner : agree (p_scanner p) (p_scanner q);
  twin_rest : q = p <| p_scanner := p_scanner q |>;
}.

Lemma twin_refl p : fit p → twin p p.
Proof.
  intros Hp. split; try done; [|by destruct p]. apply settings_agree; try done; apply Hp.
Qed.

Lemma twin_state p q : twin p q → scan_state q = scan_state p.
Proof. intros [_ _ [_ _ E] _]. by unfold scan_state. Qed.

Lemma twin_here p q : twin p q → here q = here p.
Proof. intros Hpq. unfold here. by rewrite (twin_state _ _ Hpq). Qed.

Lemma unmoved_twin p p' : fit p → fit p' → unmoved p p' → twin p p'.
Proof. intros Hp Hp' []. split; try done. apply settings_agree; try done; [apply Hp|apply Hp']. Qed.

(** Another scanner in the same state. *)
Lemma refit p p' :
  fit p → p' = p <| p_scanner := p_scanner p' |> → scan_state p' = scan_state p →
  text (p_scanner p') = text (p_scanner p) → settled (p_scanner p') →
  error_sink (p_scanner p') = Buffered [] → next_checkpoint_id (p_scanner p') <= U64_MAX → fit p'.
Proof.
  intros [] E S Ht Hs Hsink Hids.
  assert (p_source_text p' = p_source_text p ∧ p_token p' = p_token p ∧ p_diagnostics p' = p_diagnostics p)
    as (E1 & E2 & E3) by by rewrite E.
  split; rewrite ?S, ?E1, ?E2, ?E3; try done. congruence.
Qed.

(** ** Weakest preconditions *)

(** All the numbers of checkpoints have been given out. *)
Definition spent (p : Parser) : Prop := next_checkpoint_id (p_scanner p) = U64_MAX.

Definition pwp {A} (m : P A) (Q : A → Parser → Prop) (p : Parser) : Prop :=
  match m p with Returns a p' => Q a p' | Exhausted p' => spent p' | Panics => False end.

Lemma pwp_ret {A} (a : A) (Q : A → Parser → Prop) p : Q a p → pwp (mret a) Q p.
Proof. done. Qed.

Lemma pwp_bind {A B} (m : P A) (f : A → P B) Q p : pwp m (λ a, pwp (f a) Q) p → pwp (m ≫= f) Q p.
Proof. unfold pwp, mbind, P_bind. by destruct (m p). Qed.

Lemma pwp_mono {A} (m : P A) (Q Q' : A → Parser → Prop) p :
  pwp m Q p → (∀ a p', Q a p' → Q' a p') → pwp m Q' p.
Proof. unfold pwp. destruct (m p); naive_solver. Qed.

Lemma pwp_and {A} (m : P A) (Q Q' : A → Parser → Prop) p :
  pwp m Q p → pwp m Q' p → pwp m (λ a p', Q a p' ∧ Q' a p') p.
Proof. unfold pwp. by destruct (m p). Qed.

Lemma pwp_iterate {St A} (body : St → P (St + A)) (I : St → Parser → Prop)
    (μ : St → Parser → Z) (Q : A → Parser → Prop) :
  (∀ st p, I st p → 0 <= μ st p ∧
     pwp (body st) (λ r p', match r with
       | inl st' => I st' p' ∧ μ st' p' < μ st p
       | inr a => Q a p' end) p) →
  ∀ fuel st p, I st p → μ st p < Z.of_nat fuel → pwp (piterate fuel body st) Q p.
Proof.
  intros Hbody. induction fuel as [|fuel IH]; intros st p Hinv Hfuel.
  - destruct (Hbody st p Hinv). lia.
  - cbn [piterate]. apply pwp_bind. destruct (Hbody st p Hinv) as [Hpos Hwp].
    apply (pwp_mono _ _ _ _ Hwp). intros [st'|a] p'; [|done].
    intros [Hinv' Hlt]. apply IH; [done|lia].
Qed.

Lemma pwp_loop {St A} (body : St → P (St + A)) (I : St → Parser → Prop)
    (μ : St → Parser → Z) (Q : A → Parser → Prop) st p :
  I st p → μ st p <= text_length (p_source_text p) + 2 →
  (∀ st p, I st p → 0 <= μ st p ∧
     pwp (body st) (λ r p', match r with
       | inl st' => I st' p' ∧ μ st' p' < μ st p
       | inr a => Q a p' end) p) →
  pwp (ploop body st) Q p.
Proof.
  intros Hinv Hμ Hbody. unfold ploop, pwp.
  apply (pwp_iterate body I μ Q Hbody (S (S (S (length (p_source_text p))))) st p); [done|].
  unfold text_length in Hμ. lia.
Qed.

(** ** Two parsers in step *)

(** What a computation leaves: a fit parser, related to the one it started from by [W]. *)
Definition good {A} (W : Parser → Parser → Prop) (R : A → Parser → Prop) (p : Parser)
    (a : A) (p' : Parser) : Prop := fit p' ∧ W p p' ∧ R a p'.

Definition same_answer {A} (m : P A) (p q : Parser) : Prop :=
  match m p, m q with
  | Returns a p', Returns b q' => a = b ∧ twin p' q'
  | _, _ => True
  end.

Definition in_step {A} (W : Parser → Parser → Prop) (m : P A) (R : A → Parser → Prop)
    (p q : Parser) : Prop :=
  pwp m (good W R p) p ∧ pwp m (good W R q) q ∧ same_answer m p q.

(** From twins, [m] is carried out in step, and both are moved as [W] says. *)
Definition steps {A} (W : Parser → Parser → Prop) (m : P A) : Prop :=
  ∀ p q, twin p q → in_step W m (λ _ _, True) p q.
End Fit.
