(* ===== verification/ParserStep.v ===== *)
(** The rules of [in_step], for every way the parser's computations are put together, and
    the operations on tokens, on diagnostics and of speculation under these rules. *)

From stdpp Require Import gmap.
From S2P Require Import Prelude Wtf8 TextEdits BigInt ScannerKinds ScannerState ScannerWp.
From S2P Require Import ScannerDigits ScannerScan ScannerTokens ScannerRescan ScannerRescanSpec.
From S2P Require Import ScannerReplay ScannerSession ParserCore ParserWp.

Local Open Scope Z_scope.

Create HintDb parser_steps.

(** ** Structural rules *)

Section Rules.
Context `{ParserFactory, JsNum}.
Context (W : Parser → Parser → Prop) `{!PreOrder W}.

Lemma in_step_mono {A} (m : P A) (R R' : A → Parser → Prop) p q :
  in_step W m R p q → (∀ a p', R a p' → R' a p') → in_step W m R' p q.
Proof.
  intros (Hp & Hq & Ha) HR. split_and!; [..|done]; eapply pwp_mono; try done;
    intros a p' (? & ? & ?); split_and!; auto.
Qed.

Lemma in_step_weaken (W' : Parser → Parser → Prop) {A} (m : P A) R p q :
  (∀ p p', W' p p' → W p p') → in_step W' m R p q → in_step W m R p q.
Proof.
  intros HW (Hp & Hq & Ha). split_and!; [..|done]; eapply pwp_mono; try done;
    intros a p' (? & ? & ?); split_and!; auto.
Qed.

Lemma in_step_ret {A} (a : A) (R : A → Parser → Prop) p q :
  twin p q → R a p → R a q → in_step W (mret a) R p q.
Proof. intros Hpq Hp Hq. split_and!; try done; split_and!; try done; apply Hpq. Qed.

Lemma in_step_gets {A} (f : Parser → A) (R : A → Parser → Prop) p q :
  twin p q → f q = f p → R (f p) p → R (f p) q → in_step W (pgets f) R p q.
Proof.
  intros Hpq Hf Hp Hq. split_and!.
  - split_and!; try done; apply Hpq.
  - unfold pwp, pgets. rewrite Hf. split_and!; try done; apply Hpq.
  - by unfold same_answer, pgets.
Qed.

Lemma in_step_bind {A B} (m : P A) (f : A → P B) (R : A → Parser → Prop) R' p q :
  in_step W m R p q →
  (∀ a p' q', twin p' q' → R a p' → R a q' → in_step W (f a) R' p' q') →
  in_step W (m ≫= f) R' p q.
Proof.
  intros (Hp & Hq & Ha) Hf.
  assert (∀ p0, pwp m (good W R p0) p0 → pwp (m ≫= f) (good W R' p0) p0) as Hone.
  { intros p0 Hp0. apply pwp_bind, (pwp_mono _ _ _ _ Hp0). intros a p' (Hfit & HW & HR).
    destruct (Hf a p' p' (twin_refl _ Hfit) HR HR) as (Hp' & _ & _).
    apply (pwp_mono _ _ _ _ Hp'). intros b p'' (? & ? & ?). split_and!; [done|by etrans|done]. }
  split_and!; [by apply Hone|by apply Hone|].
  unfold same_answer, pwp, mbind, P_bind in *.
  destruct (m p) as [a p'| |], (m q) as [b q'| |]; try done.
  - destruct Ha as [-> Hpq']. destruct Hp as (_ & _ & HR), Hq as (_ & _ & HR').
    by destruct (Hf b p' q' Hpq' HR HR') as (_ & _ & Hs).
  - by destruct (f a p').
Qed.

Lemma steps_in_step {A} (m : P A) p q : steps W m → twin p q → in_step W m (λ _ _, True) p q.
Proof. auto. Qed.

Lemma steps_ret {A} (a : A) : steps W (mret a).
Proof. intros p q Hpq. by apply in_step_ret. Qed.

Lemma steps_gets {A} (f : Parser → A) : (∀ p q, twin p q → f q = f p) → steps W (pgets f).
Proof. intros Hf p q Hpq. apply in_step_gets; auto. Qed.

Lemma steps_bind {A B} (m : P A) (f : A → P B) : steps W m → (∀ a, steps W (f a)) → steps W (m ≫= f).
Proof. intros Hm Hf p q Hpq. eapply in_step_bind; [by apply Hm|]. intros a p' q' Hpq' _ _. by apply Hf. Qed.

(** [kind ← get_token; f kind], where what follows may use which token it is. *)
Lemma steps_token {A} (f : SyntaxKind → P A) :
  (∀ kind p q, twin p q → p_token p = kind → in_step W (f kind) (λ _ _, True) p q) →
  steps W (kind ← get_token; f kind).
Proof.
  intros Hf p q Hpq. assert (p_token q = p_token p) as Eq by (rewrite (twin_rest _ _ Hpq); done).
  eapply in_step_bind; [apply (in_step_gets _ (λ kind p', p_token p' = kind)); done|].
  intros kind p' q' Hpq' Hk _. by apply Hf.
Qed.

Lemma steps_when (b : bool) m : steps W m → steps W (pwhen b m).
Proof. intros Hm. destruct b; [done|apply steps_ret]. Qed.

Lemma steps_if {A} (b : bool) (m n : P A) : steps W m → steps W n → steps W (if b then m else n).
Proof. by destruct b. Qed.

Lemma steps_por m n : steps W m → steps W n → steps W (por m n).
Proof. intros Hm Hn. apply steps_bind; [done|]. intros []; [apply steps_ret|done]. Qed.

Lemma steps_pand m n : steps W m → steps W n → steps W (pand m n).
Proof. intros Hm Hn. apply steps_bind; [done|]. intros []; [done|apply steps_ret]. Qed.

Lemma steps_pnot m : steps W m → steps W (pnot m).
Proof. intros Hm. apply steps_bind; [done|]. intros b. apply steps_ret. Qed.

(** An alternative, where the second part is only asked where [I] holds. *)
Lemma in_step_por (I : Parser → Prop) m n p q :
  twin p q → (∀ p p', I p → W p p' → I p') → I p → I q →
  in_step W m (λ _ _, True) p q →
  (∀ p' q', twin p' q' → I p' → in_step W n (λ _ _, True) p' q') →
  in_step W (por m n) (λ _ _, True) p q.
Proof.
  intros Hpq HI Hp Hq (Hmp & Hmq & Hm) Hn.
  apply (in_step_bind _ _ (λ _, I)).
  - split_and!; [eapply pwp_mono; [exact Hmp|]|eapply pwp_mono; [exact Hmq|]|done];
      intros b p' (? & ? & _); split_and!; eauto.
  - intros [] p' q' Hpq' Hp' Hq'; [by apply in_step_ret|by apply Hn].
Qed.

(** What is known of one parser alone. *)
Lemma steps_pwp {A} (m : P A) p : steps W m → fit p → pwp m (λ _ p', fit p' ∧ W p p') p.
Proof.
  intros Hm Hp. destruct (Hm p p (twin_refl _ Hp)) as (Hwp & _ & _).
  apply (pwp_mono _ _ _ _ Hwp). by intros a p' (? & ? & _).
Qed.
End Rules.

Section Views.
Context `{ParserFactory, JsNum}.

Lemma steps_weaken {A} (m : P A) : steps unmoved m → steps moves m.
Proof. intros Hm p q Hpq. eapply in_step_weaken; [by apply unmoved_moves|by apply Hm]. Qed.

(** What is seen of a parser is the same in its twin. *)
Lemma twin_token p q : twin p q → p_token q = p_token p.
Proof. intros Hpq. by rewrite (twin_rest _ _ Hpq). Qed.
Lemma twin_contexts p q : twin p q → p_parsing_contexts q = p_parsing_contexts p.
Proof. intros Hpq. by rewrite (twin_rest _ _ Hpq). Qed.
Lemma twin_flags p q : twin p q → p_context_flags q = p_context_flags p.
Proof. intros Hpq. by rewrite (twin_rest _ _ Hpq). Qed.
Lemma twin_variant p q : twin p q → p_language_variant q = p_language_variant p.
Proof. intros Hpq. by rewrite (twin_rest _ _ Hpq). Qed.
Lemma twin_source p q : twin p q → p_source_text q = p_source_text p.
Proof. intros Hpq. by rewrite (twin_rest _ _ Hpq). Qed.
Lemma twin_diagnostics p q : twin p q → p_diagnostics q = p_diagnostics p.
Proof. intros Hpq. by rewrite (twin_rest _ _ Hpq). Qed.

Lemma moves_source p p' : moves p p' → p_source_text p' = p_source_text p.
Proof. intros Hm. by rewrite (moves_rest _ _ Hm). Qed.

Lemma here_range p : fit p → 0 <= here p <= text_length (p_source_text p).
Proof.
  intros Hp. pose proof (fit_settled _ Hp) as Hs. pose proof (settled_full_start _ Hs).
  pose proof (ok_pos _ (settled_ok _ Hs)). rewrite <-(fit_text _ Hp). unfold here, scan_state. lia.
Qed.

Context (W : Parser → Parser → Prop) `{!PreOrder W}.

Lemma steps_token_is kind : steps W (token_is kind).
Proof. apply steps_gets; [done|]. intros p q Hpq. by rewrite (twin_token _ _ Hpq). Qed.
Lemma steps_token_in kinds : steps W (token_in kinds).
Proof. apply steps_gets; [done|]. intros p q Hpq. by rewrite (twin_token _ _ Hpq). Qed.
Lemma steps_get_token : steps W get_token.
Proof. apply steps_gets; [done|]. intros p q Hpq. by rewrite (twin_token _ _ Hpq). Qed.
Lemma steps_token_test (f : SyntaxKind → bool) : steps W (pgets (λ p, f (p_token p))).
Proof. apply steps_gets; [done|]. intros p q Hpq. by rewrite (twin_token _ _ Hpq). Qed.
Lemma steps_line_break : steps W has_preceding_line_break.
Proof.
  apply steps_gets; [done|]. intros p q Hpq. pose proof (twin_state _ _ Hpq) as E. unfold scan_state in E.
  unfold ScannerState.has_preceding_line_break. by rewrite E.
Qed.
Lemma steps_in_flag flag : steps W (in_flag flag).
Proof. apply steps_gets; [done|]. intros p q Hpq. by rewrite (twin_flags _ _ Hpq). Qed.
Lemma steps_node_pos : steps W node_pos.
Proof.
  apply steps_gets; [done|]. intros p q Hpq. pose proof (twin_state _ _ Hpq) as E. unfold scan_state in E.
  unfold token_full_start. by rewrite E.
Qed.
End Views.

(** ** Diagnostics *)

Section Diagnostics.
Context `{ParserFactory, JsNum}.

(** The list after a report. *)
Definition note (loc : TextRange) (m : ParserMessage) (args : list bytes) (ds : list Diagnostic)
  : list Diagnostic :=
  if is_free loc ds then ds ++ [diagnostic_new loc m args] else ds.

Definition note_scanned (d : ScannerDiagnostic) : list Diagnostic → list Diagnostic :=
  note (range_new (start d) (wrap_i64 (start d + length_ d))) (Scanned (message d))
    (map argument_text (args d)).

Lemma append_error_note loc m args p :
  ∃ i, append_error loc m args p
    = Returns i (p <| p_diagnostics := note loc m args (p_diagnostics p) |> <| p_has_parse_error := true |>).
Proof. unfold append_error, note. cbv zeta. destruct (is_free _ _); by eexists. Qed.

Lemma note_prefix loc m args ds : ds `prefix_of` note loc m args ds.
Proof. unfold note. destruct (is_free _ _); [by eexists|done]. Qed.

Lemma note_tidy t loc m args ds : tidy t ds → range_in t loc → tidy t (note loc m args ds).
Proof.
  intros Hds Hloc. unfold note, is_free. destruct (last ds) as [d0|] eqn:E.
  - destruct (Z.eqb_spec (TextEdits.pos (d_loc d0)) (TextEdits.pos loc)); [done|].
    apply tidy_snoc; [done|done|]. rewrite E. by intros d [= <-].
  - apply tidy_snoc; [done|done|]. intros d Hd. congruence.
Qed.

Lemma in_text_range t d :
  text_length t <= I32_MAX → in_text t d →
  range_in t (range_new (start d) (wrap_i64 (start d + length_ d))).
Proof.
  unfold in_text. intros Hlen (? & ? & ?). unfold range_in, range_new; cbn.
  rewrite wrap_i64_id by lia. rewrite !wrap_i32_id by lia. lia.
Qed.

Lemma scan_errors_note ds p :
  ∃ e, scan_errors ds p
    = Returns tt (p <| p_diagnostics := foldl (flip note_scanned) (p_diagnostics p) ds |>
        <| p_has_parse_error := e |>)
    ∧ e = p_has_parse_error p || negb (bool_decide (ds = [])).
Proof.
  revert p. induction ds as [|d ds IH]; intros p.
  { exists (p_has_parse_error p). split; [by destruct p|]. by rewrite orb_false_r. }
  cbn [scan_errors foldl]. unfold scan_error, mbind at 1, P_bind at 1, mbind at 1, P_bind at 1.
  destruct (append_error_note (range_new (start d) (wrap_i64 (start d + length_ d)))
    (Scanned (message d)) (map argument_text (args d)) p) as [i ->]. cbn [mret P_ret].
  edestruct IH as (e & -> & ->). eexists. split; [done|]. cbn. by rewrite orb_true_r.
Qed.

Lemma notes_prefix sds ds : ds `prefix_of` foldl (flip note_scanned) ds sds.
Proof.
  revert ds. induction sds as [|d sds IH]; intros ds; [done|]. etrans; [|apply IH]. apply note_prefix.
Qed.

Lemma notes_tidy t sds ds :
  text_length t <= I32_MAX → Forall (in_text t) sds → tidy t ds →
  tidy t (foldl (flip note_scanned) ds sds).
Proof.
  intros Hlen Hsds. revert ds. induction Hsds as [|d sds Hd _ IH]; intros ds Hds; [done|].
  apply IH, note_tidy; [done|]. by apply in_text_range.
Qed.

(** A report inside the text. *)
Lemma append_error_fit loc m args p :
  fit p → range_in (p_source_text p) loc →
  ∃ i p', append_error loc m args p = Returns i p' ∧ fit p' ∧ moves p p'.
Proof.
  intros Hp Hloc. destruct (append_error_note loc m args p) as [i E]. eexists i, _. split; [exact E|].
  pose proof (note_prefix loc m args (p_diagnostics p)). split; [|by split].
  destruct Hp. split; cbn; try done. by apply note_tidy.
Qed.

Lemma steps_error_here m args : steps moves (parse_error_at_current_token m args).
Proof.
  assert (∀ p, fit p → parse_error_at_current_token m args p =
    append_error (token_range (p_scanner p)) m args p) as Hun by done.
  assert (∀ p, fit p → pwp (parse_error_at_current_token m args) (good moves (λ _ _, True) p) p) as Hone.
  { intros p Hp. unfold pwp. rewrite Hun by done.
    destruct (append_error_fit (token_range (p_scanner p)) m args p) as (i & p' & -> & ? & ?); [done| |done].
    pose proof (fit_settled _ Hp) as Hs. pose proof (settled_start _ Hs).
    pose proof (ok_pos _ (settled_ok _ Hs)) as Hpos. rewrite (fit_text _ Hp) in Hpos.
    pose proof (fit_length _ Hp) as Hlen.
    unfold range_in, token_range, range_new; cbn. rewrite !wrap_i32_id by lia. lia. }
  intros p q Hpq. split_and!; [apply Hone, Hpq|apply Hone, Hpq|]. unfold same_answer.
  rewrite !Hun by apply Hpq.
  assert (token_range (p_scanner q) = token_range (p_scanner p)) as Er.
  { pose proof (twin_state _ _ Hpq) as E. unfold scan_state in E. unfold token_range. by rewrite E. }
  rewrite Er. pose proof (Hone p (twin_fit _ _ Hpq)) as Hp'. pose proof (Hone q (twin_fit' _ _ Hpq)) as Hq'.
  unfold pwp in Hp', Hq'. rewrite Hun in Hp', Hq' by apply Hpq. rewrite Er in Hq'.
  pose proof (twin_diagnostics _ _ Hpq) as Ed. pose proof (twin_rest _ _ Hpq) as Eq.
  unfold append_error in *. rewrite Ed in *.
  destruct (is_free _ _); (split; [done|]);
    destruct Hp' as (Hfp & _), Hq' as (Hfq & _); split; try done; try apply Hpq; by rewrite Eq.
Qed.
End Diagnostics.
#[export] Hint Resolve steps_error_here : parser_steps.

(** ** Tokens *)

Section Tokens.
Context `{ParserFactory, JsNum, NumBigint, IdentifierTables}.

Lemma sink_app_buffered es ds : sink_app (Buffered es) ds = Buffered (es ++ ds).
Proof.
  revert es. induction ds as [|d ds IH]; intros es; [by rewrite app_nil_r|]. cbn.
  by rewrite IH, <-app_assoc.
Qed.

(** What a token that was read leaves: the token, and where it starts. *)
Definition reads_to (R : SyntaxKind → ScannerState → Prop) (m : M SyntaxKind) (s : Scanner) : Prop :=
  wp m (λ kind s', settles s kind s' ∧ full_start_pos (state s) <= full_start_pos (state s')
    ∧ (kind ≠ EndOfFile → full_start_pos (state s') <= token_start (state s') < pos (state s'))
    ∧ R kind (state s')) s.

Lemma take_operation_reads R m p :
  ready p → reads_to R m (p_scanner p) →
  ∃ kind s ds s1, m (p_scanner p) = Some (kind, s1)
    ∧ error_sink s1 = sink_app (Buffered []) ds
    ∧ take_operation m p = Returns kind s
    ∧ s = p <| p_scanner := s1 <| error_sink := Buffered [] |> |>
            <| p_diagnostics := foldl (flip note_scanned) (p_diagnostics p) ds |>
            <| p_has_parse_error := p_has_parse_error p || negb (bool_decide (ds = [])) |>
            <| p_token := kind |>
    ∧ good moves (λ kind p', p_token p' = kind ∧ R kind (scan_state p')) p kind s.
Proof.
  intros Hp Hm. apply wp_some in Hm as (kind & s1 & E & [Hs1 Hk Ht] & Hfull & Hw & HR).
  destruct (kept_sink _ _ Hk) as (ds & Hsink & Hds). rewrite (ready_sink _ Hp) in Hsink.
  pose proof (sink_app_buffered [] ds : _ = Buffered ds) as Hbuf.
  exists kind. eexists. exists ds, s1. split; [done|]. split; [done|]. split; [|split; [done|]].
  - unfold take_operation, scan_operation, mbind, P_bind. rewrite E. unfold drain_diagnostics.
    rewrite Hsink, Hbuf.
    destruct (scan_errors_note ds (p <| p_scanner := s1 <| error_sink := Buffered [] |> |>)) as (e & -> & ->).
    done.
  - assert (settled (s1 <| error_sink := Buffered [] |>)) as Hs1'.
    { apply (settled_settings s1); try done. exists (skip_jsdoc_leading_asterisks (state s1)).
      by destruct s1 as [? ? []]. }
    destruct Hk as [Kt Ke Kl Kg Kk Ko Kn Kc _ _ _]. destruct Hp as [? Htext Hlen Hids Htidy].
    rewrite Htext in *. split_and!.
    + split; cbn; try done; [by rewrite Ht|by rewrite Kn|by apply notes_tidy].
    + split; cbn; try done; [by split; cbn; congruence|by rewrite Ko|lia|apply notes_prefix].
    + done.
    + done.
Qed.

Lemma in_step_take (R : SyntaxKind → ScannerState → Prop) m p q :
  twin p q → replays m → reads_to R m (p_scanner p) → reads_to R m (p_scanner q) →
  in_step moves (take_operation m) (λ kind p', p_token p' = kind ∧ R kind (scan_state p')) p q.
Proof.
  intros Hpq Hrep Hp Hq.
  destruct (take_operation_reads R m p (fit_ready _ (twin_fit _ _ Hpq)) Hp) as (k & p' & ds & s1 & E1 & Hs1 & Et1 & Ep & Hg1).
  destruct (take_operation_reads R m q (fit_ready _ (twin_fit' _ _ Hpq)) Hq) as (k' & q' & ds' & s2 & E2 & Hs2 & Et2 & Eq & Hg2).
  unfold in_step, pwp, same_answer. rewrite Et1, Et2. split; [done|]. split; [done|].
  pose proof (Hrep _ _ (twin_scanner _ _ Hpq)) as Hsame. rewrite E1, E2 in Hsame.
  destruct Hsame as (-> & Hagree & ds0 & S1 & S2). split; [done|].
  rewrite (fit_sink _ (twin_fit _ _ Hpq)) in S1. rewrite (fit_sink _ (twin_fit' _ _ Hpq)) in S2.
  rewrite Hs1 in S1. rewrite Hs2 in S2. rewrite !sink_app_buffered in S1, S2.
  injection S1 as ->. injection S2 as ->.
  split; [apply Hg1|apply Hg2| |].
  - rewrite Ep, Eq. cbn. destruct Hagree as [? ? ? ? ? ? [] [] ?]. split; try done; by split.
  - rewrite Ep, Eq. by rewrite (twin_rest _ _ Hpq).
Qed.

Lemma scan_reads s : ok s → 0 <= full_start_pos (state s) <= pos (state s) →
  reads_to (λ _ st, full_start_pos st = pos (state s)) scan s.
Proof.
  intros Hok Hfull. pose proof (scan_spec s Hok) as Hsp. pose proof (scan_settles s Hok) as Hset.
  unfold reads_to, reads, wp in *. destruct (scan s) as [[kind s']|]; [|done].
  destruct Hsp as (_ & [Hk Ht Hf Hst He Hw _] & _).
  split_and!; [done|lia| |done]. intros Hne. rewrite decide_False in Hw by done. lia.
Qed.

(** The next token is read where the last one ended. *)
Definition advances (x : Parser) (kind : SyntaxKind) (p' : Parser) : Prop :=
  p_token p' = kind ∧ (p_token x ≠ EndOfFile → here x < here p').

Lemma in_step_scan p q :
  twin p q → in_step moves next_token_without_check (advances p) p q.
Proof.
  intros Hpq. pose proof (twin_state _ _ Hpq) as Est. unfold scan_state in Est.
  assert (∀ p0, fit p0 → reads_to (λ _ st, full_start_pos st = pos (scan_state p0)) scan (p_scanner p0)) as Hr.
  { intros p0 Hp0. pose proof (fit_settled _ Hp0) as Hs. apply scan_reads; apply Hs. }
  pose proof (Hr p (twin_fit _ _ Hpq)) as Hp. pose proof (Hr q (twin_fit' _ _ Hpq)) as Hq.
  unfold scan_state in Hq. rewrite Est in Hq.
  eapply in_step_mono; [by apply (in_step_take (λ _ st, full_start_pos st = pos (scan_state p)));
    [|apply replays_scan|exact Hp|exact Hq]|].
  intros kind p' [Hk Hpos]. split; [done|]. intros Hne. unfold here at 2. rewrite Hpos.
  pose proof (twin_fit _ _ Hpq) as Hfit. rewrite (fit_token _ Hfit) in Hne.
  pose proof (fit_width _ Hfit Hne). unfold here. lia.
Qed.

Lemma in_step_next_token p q : twin p q → in_step moves next_token (advances p) p q.
Proof.
  intros Hpq. unfold next_token.
  set (same := λ p', here p' = here p ∧ p_token p' = p_token p).
  assert (same p ∧ same q) as [Hsp Hsq].
  { subst same. cbn. by rewrite (twin_here _ _ Hpq), (twin_token _ _ Hpq). }
  eapply (in_step_bind moves _ _ (λ _, same)); [apply in_step_gets; [apply _|done|by apply twin_token|done|done]|].
  intros kind p1 q1 Hpq1 Hp1 Hq1.
  eapply (in_step_bind moves _ _ (λ _, same)).
  { apply in_step_gets; [apply _|done| |done|done]. pose proof (twin_state _ _ Hpq1) as E.
    unfold has_unicode_escape, has_extended_unicode_escape. unfold scan_state in E. by rewrite E. }
  intros escaped p2 q2 Hpq2 Hp2 Hq2.
  eapply (in_step_bind moves _ _ (λ _, same)).
  { destruct (_ && _); cbn [pwhen]; [|apply in_step_ret; [apply _|done..]].
    assert (∀ p0, fit p0 → same p0 → pwp (parse_error_at_current_token
      Keywords_cannot_contain_escape_characters [];; mret tt) (good moves (λ _, same) p0) p0) as Hone.
    { intros p0 Hp0 Hs0. apply pwp_bind.
      pose proof (proj1 (steps_error_here Keywords_cannot_contain_escape_characters [] p0 p0 (twin_refl _ Hp0))) as Hwp.
      unfold pwp, parse_error_at_current_token, mbind, P_bind, pgets, parse_error_at_range in *.
      destruct (append_error_note (token_range (p_scanner p0)) Keywords_cannot_contain_escape_characters [] p0)
        as [i Ei]. rewrite Ei in *. destruct Hwp as (? & ? & _). by split_and!. }
    split_and!; [apply Hone; [apply Hpq2|done]|apply Hone; [apply Hpq2|done]|].
    assert (steps moves (parse_error_at_current_token Keywords_cannot_contain_escape_characters [];; mret tt))
      as Hst by (apply steps_bind; [apply _|apply steps_error_here|intros; apply steps_ret; apply _]).
    by destruct (Hst p2 q2 Hpq2) as (_ & _ & ?). }
  intros [] p3 q3 Hpq3 [Hh Ht] _. eapply in_step_mono; [by apply in_step_scan|].
  unfold advances. rewrite Hh, Ht. done.
Qed.

Lemma steps_next_token : steps moves next_token.
Proof. intros p q Hpq. by eapply in_step_mono; [apply in_step_next_token|]. Qed.
Lemma steps_scan : steps moves next_token_without_check.
Proof. intros p q Hpq. by eapply in_step_mono; [apply in_step_scan|]. Qed.
End Tokens.
#[export] Hint Resolve steps_next_token steps_scan : parser_steps.

(** ** Speculation *)

Section Speculation.
Context `{ParserFactory, JsNum, OwnerAllocator}.

Lemma twin_sym p q : twin p q → twin q p.
Proof.
  intros [? ? [] E]. split; try done; [split; congruence|]. rewrite E. by destruct p.
Qed.
Lemma twin_trans p q r : twin p q → twin q r → twin p r.
Proof.
  intros [? ? [] E] [? ? [] E']. split; try done; [split; congruence|]. by rewrite E', E.
Qed.

(** [st] was taken in [p], which became [p']. *)
Record marks (p : Parser) (st : Speculation) (p' : Parser) : Prop := {
  marks_fit : fit p';
  marks_rest : p' = p <| p_scanner := p_scanner p' |>;
  marks_scan_state : scan_state p' = scan_state p;
  marks_settings : same_settings (p_scanner p) (p_scanner p');
  marks_checkpoints : checkpoints (p_scanner p') = checkpoints (p_scanner p) ++ [id (scanner_state st)];
  marks_owner : checkpoint_owner (p_scanner p') = Some (owner (scanner_state st));
  marks_owner_kept : ∀ o, checkpoint_owner (p_scanner p) = Some o → checkpoint_owner (p_scanner p') = Some o;
  marks_ids : next_checkpoint_id (p_scanner p) <= next_checkpoint_id (p_scanner p');
  marks_saved : st = MkSpeculation (scanner_state st) (p_context_flags p) (length (p_diagnostics p))
    (length (p_js_diagnostics p)) (length (p_jsdoc_infos p)) (length (p_reparsed_clones p))
    (p_statement_has_await_identifier p) (p_has_parse_error p);
  marks_state : saved_state (scanner_state st) = scan_state p;
}.

Lemma settled_with s s' :
  settled s → text s' = text s → end_ s' = end_ s → state s' = state s →
  number_cache s' = number_cache s → hex_number_cache s' = hex_number_cache s →
  hex_digit_cache s' = hex_digit_cache s → settled s'.
Proof.
  intros Hs Ht He Hst E1 E2 E3. apply (settled_settings s); try done. rewrite Hst.
  exists (skip_jsdoc_leading_asterisks (state s)). by destruct s as [? ? []].
Qed.

Lemma mark_fit p :
  fit p → (mark p = Exhausted p ∧ spent p) ∨ ∃ st p', mark p = Returns st p' ∧ marks p st p'.
Proof.
  intros Hp. pose proof (fit_ids _ Hp) as Hids. unfold mark.
  destruct (Z.eqb_spec (next_checkpoint_id (p_scanner p)) 18446744073709551615) as [E|E]; [by left|right].
  unfold ScannerState.mark. rewrite (proj2 (Z.ltb_ge _ _)) by lia.
  eexists _, _. split; [done|]. split; cbn; try done; [|by intros o ->|lia].
  apply (refit p); cbn; try done; [|apply Hp|lia].
  apply (settled_with (p_scanner p)); try done. apply Hp.
Qed.

Lemma marks_twin p st p' : fit p → marks p st p' → twin p p'.
Proof.
  intros Hp [? ? Hst Hset ? ? ? ? ? ?]. split; try done.
  apply settings_agree; try done; [apply Hp|by apply fit_settled].
Qed.

Lemma consume_marked p st p1 p2 :
  marks p st p1 → moves p1 p2 → fit p2 →
  consume_checkpoint (scanner_state st) (p_scanner p2)
  = Some (tt, p_scanner p2 <| checkpoints := checkpoints (p_scanner p) |>).
Proof.
  intros Hm Hmv Hp2. unfold consume_checkpoint.
  rewrite (moves_owner _ _ Hmv _ (marks_owner _ _ _ Hm)), (moves_checkpoints _ _ Hmv), (marks_checkpoints _ _ _ Hm).
  by rewrite last_snoc, removelast_last, !bool_decide_true.
Qed.

Lemma rewind_marked p st p1 p2 :
  fit p → marks p st p1 → fit p2 → moves p1 p2 →
  ∃ p3, rewind st p2 = Returns tt p3 ∧ fit p3 ∧ unmoved p p3.
Proof.
  intros Hp Hm Hp2 Hmv. unfold rewind, ScannerState.rewind, mbind, M_bind.
  rewrite (consume_marked p st p1 p2) by done. eexists. split; [done|].
  pose proof (marks_rest _ _ _ Hm) as E1. pose proof (moves_rest _ _ Hmv) as E2.
  destruct (moves_diagnostics _ _ Hmv) as [more Ed].
  assert (p_diagnostics p1 = p_diagnostics p) as Ed1 by by rewrite E1.
  destruct Hm as [_ _ Hst [] _ _ ? ? Hsaved Hstate], Hmv as [_ [] _ ? ? _ _].
  set (p3 := _ <| p_has_parse_error := _ |>).
  assert (p3 = p <| p_scanner := p_scanner p3 |>) as E3.
  { subst p3. rewrite Hsaved. cbn. rewrite Ed, Ed1, take_app_length, E2, E1, Hstate. cbn.
    rewrite !take_ge by done. rewrite <-(fit_token _ Hp). by destruct p. }
  assert (unmoved p p3) as Hun.
  { split; [done|done| |done|cbn; auto|cbn; lia]. split; cbn; congruence. }
  split; [|done]. apply (refit p); try done; [apply Hun| |apply Hp2|apply Hp2].
  pose proof (fit_settled _ Hp) as Hs. pose proof (fit_settled _ Hp2) as Hs2.
  apply (settled_with (p_scanner p2 <| state := scan_state p |>)); try done.
  apply (settled_transport (p_scanner p)); [|done|congruence].
  revert Hs. unfold scan_state. by destruct (p_scanner p).
Qed.

Lemma commit_marked p st p1 p2 :
  fit p → marks p st p1 → fit p2 → moves p1 p2 →
  ∃ p3, commit st p2 = Returns tt p3 ∧ moves p p3 ∧ twin p2 p3.
Proof.
  intros Hp Hm Hp2 Hmv. unfold commit, ScannerState.commit.
  rewrite (consume_marked p st p1 p2) by done. eexists. split; [done|].
  pose proof (marks_rest _ _ _ Hm) as E1. pose proof (moves_rest _ _ Hmv) as E2.
  assert (p_diagnostics p1 = p_diagnostics p) as Ed1 by by rewrite E1.
  pose proof (marks_twin p st p1 Hp Hm) as Htw. pose proof (twin_here _ _ Htw) as Hh.
  destruct Hm as [_ _ Hst [] _ _ ? ? Hsaved Hstate], Hmv as [_ [] _ ? ? Hd ?].
  set (p3 := p2 <| p_scanner := _ |>).
  assert (fit p3) as Hp3.
  { apply (refit p2); try done; [|apply Hp2|apply Hp2].
    apply (settled_with (p_scanner p2)); try done. apply Hp2. }
  split; [|split; try done].
  - split; cbn; try done.
    + subst p3. rewrite E2, E1. done.
    + split; cbn; congruence.
    + auto.
    + lia.
    + by rewrite <-Ed1.
    + change (here p3) with (here p2). lia.
  - apply settings_agree; try done; [apply Hp2|apply Hp3].
Qed.

(** What a speculation that goes back leaves, and from where it got its answer. *)
Lemma marked_one {A} (callback : P A) p :
  fit p → (∀ p1, twin p p1 → in_step moves callback (λ _ _, True) p1 p1) →
  pwp (marked callback) (λ a p', fit p' ∧ unmoved p p' ∧ ∃ p1 p2, twin p p1 ∧ callback p1 = Returns a p2) p.
Proof.
  intros Hp Hcb. unfold pwp, marked, mbind, P_bind.
  destruct (mark_fit p Hp) as [[-> Hsp]|(st & p1 & -> & Hm)]; [done|].
  pose proof (marks_twin p st p1 Hp Hm) as Htw.
  pose proof (Hcb p1 Htw) as (Hwp & _ & _). unfold pwp in Hwp.
  destruct (callback p1) as [a p2| |] eqn:E; [|done|done]. destruct Hwp as (Hp2 & Hmv & _).
  destruct (rewind_marked p st p1 p2) as (p3 & -> & Hp3 & Hun); try done.
  split_and!; [done|done|]. by exists p1, p2.
Qed.

Lemma in_step_marked {A} (callback : P A) p q :
  twin p q → (∀ p1 q1, twin p p1 → twin p1 q1 → in_step moves callback (λ _ _, True) p1 q1) →
  in_step unmoved (marked callback) (λ _ _, True) p q.
Proof.
  intros Hpq Hcb. pose proof (twin_fit _ _ Hpq) as Hfp. pose proof (twin_fit' _ _ Hpq) as Hfq.
  assert (pwp (marked callback) (λ a p', fit p' ∧ unmoved p p' ∧ ∃ p1 p2, twin p p1 ∧ callback p1 = Returns a p2) p)
    as Hp by (apply marked_one; [done|]; intros p1 Hp1; apply Hcb; [done|]; apply twin_refl, Hp1).
  assert (pwp (marked callback) (λ a p', fit p' ∧ unmoved q p' ∧ ∃ p1 p2, twin q p1 ∧ callback p1 = Returns a p2) q)
    as Hq by (apply marked_one; [done|]; intros q1 Hq1; apply Hcb; [by apply (twin_trans p q)|apply twin_refl, Hq1]).
  split_and!; [eapply pwp_mono; [exact Hp|]; intros a p' (? & ? & _); by split_and!
    |eapply pwp_mono; [exact Hq|]; intros a p' (? & ? & _); by split_and!|].
  unfold same_answer, pwp in *.
  destruct (marked callback p) as [a p'| |], (marked callback q) as [b q'| |]; try done.
  destruct Hp as (Hp' & Hup & p1 & p2 & Hp1 & Ep), Hq as (Hq' & Huq & q1 & q2 & Hq1 & Eq).
  assert (twin p1 q1) as Hpq1
    by (apply (twin_trans p1 p); [by apply twin_sym|by apply (twin_trans p q)]).
  destruct (Hcb p1 q1 Hp1 Hpq1) as (_ & _ & Hs). unfold same_answer in Hs. rewrite Ep, Eq in Hs.
  split; [apply Hs|].
  apply (twin_trans p' p); [by apply twin_sym, unmoved_twin|].
  apply (twin_trans p q); [done|]. by apply unmoved_twin.
Qed.

Lemma steps_marked {A} (callback : P A) : steps moves callback → steps unmoved (marked callback).
Proof. intros Hcb p q Hpq. apply in_step_marked; auto. Qed.

Lemma steps_look_ahead callback : steps moves callback → steps unmoved (look_ahead callback).
Proof. apply steps_marked. Qed.

(** A speculation that goes on where the answer is yes. *)
Definition speculate (callback : P bool) : P bool :=
  st ← mark; taken ← callback; if taken : bool then commit st;; mret true else rewind st;; mret false.

Lemma speculate_one callback p :
  steps moves callback → fit p →
  pwp (speculate callback) (λ a p', fit p' ∧ moves p p' ∧ ∃ p1 p2, twin p p1 ∧ callback p1 = Returns a p2
    ∧ twin (if a then p2 else p) p') p.
Proof.
  intros Hcb Hp. unfold pwp, speculate, mbind, P_bind.
  destruct (mark_fit p Hp) as [[-> Hsp]|(st & p1 & -> & Hm)]; [done|].
  pose proof (marks_twin p st p1 Hp Hm) as Htw.
  pose proof (steps_pwp _ _ p1 Hcb (marks_fit _ _ _ Hm)) as Hwp. unfold pwp in Hwp.
  destruct (callback p1) as [[] p2| |] eqn:E; [..|done|done]; destruct Hwp as [Hp2 Hmv].
  - destruct (commit_marked p st p1 p2) as (p3 & -> & Hp3 & Htw3); try done.
    split_and!; [apply Htw3|done|]. by exists p1, p2.
  - destruct (rewind_marked p st p1 p2) as (p3 & -> & Hp3 & Hun); try done.
    split_and!; [done|by apply unmoved_moves|]. exists p1, p2. split_and!; [done|done|].
    by apply unmoved_twin.
Qed.

Lemma steps_speculate callback : steps moves callback → steps moves (speculate callback).
Proof.
  intros Hcb p q Hpq.
  pose proof (speculate_one callback p Hcb (twin_fit _ _ Hpq)) as Hp.
  pose proof (speculate_one callback q Hcb (twin_fit' _ _ Hpq)) as Hq.
  split_and!; [eapply pwp_mono; [exact Hp|]; by intros a p' (? & ? & _)
    |eapply pwp_mono; [exact Hq|]; intros a p' (? & ? & _); by split_and!|].
  unfold same_answer, pwp in *.
  destruct (speculate callback p) as [a p'| |], (speculate callback q) as [b q'| |]; try done.
  destruct Hp as (Hp' & Hup & p1 & p2 & Hp1 & Ep & Tp), Hq as (Hq' & Huq & q1 & q2 & Hq1 & Eq & Tq).
  assert (twin p1 q1) as Hpq1 
    by (apply (twin_trans p1 p); [by apply twin_sym|by apply (twin_trans p q)]).
  destruct (Hcb p1 q1 Hpq1) as (_ & _ & Hs). unfold same_answer in Hs. rewrite Ep, Eq in Hs.
  destruct Hs as [-> Hpq2]. split; [done|].
  apply (twin_trans p' (if b then p2 else p)); [by apply twin_sym|].
  apply (twin_trans _ (if b then q2 else q)); [by destruct b|done].
Qed.
End Speculation.

(** ** Loops *)

Section Loops.
Context `{ParserFactory, JsNum}.

(** Every round but the last goes on to another token. *)
Lemma steps_loop {St A} (body : St → P (St + A)) st :
  (∀ st p q, twin p q →
     in_step moves (body st) (λ r p', match r with inl _ => here p < here p' | inr _ => True end) p q) →
  steps moves (ploop body st).
Proof.
  intros Hbody p q Hpq. unfold ploop.
  assert (∀ fuel st p q, twin p q → text_length (p_source_text p) - here p < Z.of_nat fuel →
    in_step moves (piterate fuel body st) (λ _ _, True) p q) as Hit.
  { clear st p q Hpq. induction fuel as [|fuel IH]; intros st p q Hpq Hfuel.
    { pose proof (here_range p (twin_fit _ _ Hpq)). lia. }
    cbn [piterate]. set (text := p_source_text p) in *.
    eapply (in_step_bind moves _ _ (λ r p', p_source_text p' = text
      ∧ match r with inl _ => here p < here p' | inr _ => True end)).
    { destruct (Hbody st p q Hpq) as (Hp & Hq & Hs).
      split_and!; [eapply pwp_mono; [exact Hp|]|eapply pwp_mono; [exact Hq|]|done];
        intros r p' (Hp' & Hmv & Hr); (split_and!; [done|done| |done]).
      - by apply moves_source.
      - rewrite (moves_source _ _ Hmv). by apply twin_source. }
    intros [st'|a] p' q' Hpq' [Ht Hr] _; [|by apply in_step_ret; [apply _|..]].
    apply IH; [done|]. rewrite Ht. subst text. lia. }
  pose proof (here_range p (twin_fit _ _ Hpq)).
  pose proof (Hit (S (S (S (length (p_source_text p))))) st p q Hpq) as Hloop.
  unfold in_step, pwp, same_answer in *. rewrite (twin_source _ _ Hpq). apply Hloop. unfold text_length in *. lia.
Qed.
End Loops.

(** ** Rounds *)

Section Rounds.
Context `{ParserFactory, JsNum, NumBigint, IdentifierTables}.

(** A round that goes on over a token. *)
Lemma in_step_over {A} (n : P A) p q :
  twin p q → p_token p ≠ EndOfFile → steps moves n →
  in_step moves (next_token;; n) (λ _ p', here p < here p') p q.
Proof.
  intros Hpq Hne Hn.
  apply (in_step_bind moves _ _ (λ _ p', here p < here p')).
  { eapply in_step_mono; [by apply in_step_next_token|]. intros kind p' [_ Hadv]. auto. }
  intros kind p' q' Hpq' Hp' Hq'. destruct (Hn p' q' Hpq') as (Hp & Hq & Hs).
  split_and!; [eapply pwp_mono; [exact Hp|]|eapply pwp_mono; [exact Hq|]|done];
    intros a p'' (? & Hmv & _); (split_and!; [done|done|]); pose proof (moves_forward _ _ Hmv); lia.
Qed.

(** The last round. *)
Lemma in_step_answer {St A B} (m : P B) (f : B → A) (R : St → Parser → Prop) p q :
  twin p q → steps moves m →
  in_step moves (b ← m; mret (inr (f b))) (λ r p', match r with inl st => R st p' | inr _ => True end) p q.
Proof.
  intros Hpq Hm. apply (in_step_bind moves _ _ (λ _ _, True)); [by apply Hm|].
  intros b p' q' Hpq' _ _. apply in_step_ret; [apply _|done..].
Qed.

(** What follows a look at the token knows it, and that nothing has moved. *)
Lemma in_step_token W {A} (f : SyntaxKind → P A) R p q :
  twin p q → in_step W (f (p_token p)) R p q → in_step W (kind ← get_token; f kind) R p q.
Proof.
  intros Hpq Hf. destruct Hf as (Hp & Hq & Hs). pose proof (twin_token _ _ Hpq) as Et.
  split_and!; [exact Hp| |].
  - unfold pwp, mbind, P_bind, get_token, pgets in *. by rewrite Et.
  - unfold same_answer, mbind, P_bind, get_token, pgets in *. by rewrite Et.
Qed.
End Rounds.

(** ** Automation *)

#[export] Hint Resolve steps_token_is steps_token_in steps_get_token steps_token_test
  steps_line_break steps_in_flag steps_node_pos : parser_steps.

(** Takes a computation apart; what it is made of is in the hint database. *)
Ltac parser_step :=
  match goal with
  | |- steps _ (mret _) => apply steps_ret; typeclasses eauto
  | |- steps _ (por _ _) => apply steps_por; [typeclasses eauto|..]
  | |- steps _ (pand _ _) => apply steps_pand; [typeclasses eauto|..]
  | |- steps _ (pnot _) => apply steps_pnot; [typeclasses eauto|..]
  | |- steps _ (pwhen _ _) => apply steps_when; [typeclasses eauto|..]
  | |- steps _ (if _ then _ else _) => apply steps_if
  | |- steps unmoved (look_ahead _) => apply steps_look_ahead
  | |- steps unmoved (marked _) => apply steps_marked
  | |- steps moves (look_ahead _) => apply steps_weaken, steps_look_ahead
  | |- steps moves (marked _) => apply steps_weaken, steps_marked
  | |- steps _ (match ?x with _ => _ end) => destruct x
  | |- steps _ in_yield_context => apply steps_in_flag; typeclasses eauto
  | |- steps _ in_await_context => apply steps_in_flag; typeclasses eauto
  | |- steps _ in_disallow_in_context => apply steps_in_flag; typeclasses eauto
  | |- steps _ _ => solve [auto with parser_steps typeclass_instances nocore]
  | |- steps moves _ => solve [apply steps_weaken; auto with parser_steps typeclass_instances nocore]
  | |- steps _ (_ ≫= _) => apply steps_bind; [typeclasses eauto| |intros ?]
  | |- steps _ (pgets _) =>
      apply steps_gets; [typeclasses eauto|]; intros ?p ?q Hpq; by rewrite (twin_rest _ _ Hpq)
  end.
Ltac parser_steps := repeat parser_step.
