(* ===== verification/ParserLookAhead.v ===== *)
(** The parser's questions about the tokens ahead: each of them is answered, without a
    panic, for every text; those that look ahead leave the parser where it was, and are
    answered alike when they are asked again.

    The token layer of the parser as its grammar uses it: tokens taken, expected and
    reported, modifiers tried, and questions asked. No sequence of these operations
    panics, and a question leaves no trace: whatever follows is as if it had not been
    asked. *)

From stdpp Require Import gmap.
From S2P Require Import Prelude Wtf8 TextEdits BigInt ScannerKinds ScannerState ScannerWp ScannerDigits ScannerScan ScannerRescanSpec ScannerReplay ParserCore ParserPredicates ParserListBuffer ParserLists ParserWp ParserStep.

Local Open Scope Z_scope.

Section Steps.
Context `{ParserFactory, JsNum, NumBigint, IdentifierTables, OwnerAllocator}.

(** ** Single tokens *)

Lemma steps_is_identifier : steps unmoved is_identifier.
Proof. unfold is_identifier. parser_steps. Qed.
#[local] Hint Resolve steps_is_identifier : parser_steps.
Lemma steps_is_binding_identifier : steps unmoved is_binding_identifier.
Proof. unfold is_binding_identifier. parser_steps. Qed.
#[local] Hint Resolve steps_is_binding_identifier : parser_steps.
Lemma steps_is_literal_property_name : steps unmoved is_literal_property_name.
Proof. unfold is_literal_property_name. parser_steps. Qed.
#[local] Hint Resolve steps_is_literal_property_name : parser_steps.
Lemma steps_is_import_attribute_name : steps unmoved is_import_attribute_name.
Proof. unfold is_import_attribute_name. parser_steps. Qed.
#[local] Hint Resolve steps_is_import_attribute_name : parser_steps.
Lemma steps_is_binding_identifier_or_private_identifier_or_pattern : steps unmoved is_binding_identifier_or_private_identifier_or_pattern.
Proof. unfold is_binding_identifier_or_private_identifier_or_pattern. parser_steps. Qed.
#[local] Hint Resolve steps_is_binding_identifier_or_private_identifier_or_pattern : parser_steps.
Lemma steps_is_parameter_name_start : steps unmoved is_parameter_name_start.
Proof. unfold is_parameter_name_start. parser_steps. Qed.
#[local] Hint Resolve steps_is_parameter_name_start : parser_steps.
Lemma steps_on_same_line : steps unmoved on_same_line.
Proof. unfold on_same_line. parser_steps. Qed.
#[local] Hint Resolve steps_on_same_line : parser_steps.
Lemma steps_is_template_start_of_tagged_template : steps unmoved is_template_start_of_tagged_template.
Proof. unfold is_template_start_of_tagged_template. parser_steps. Qed.
#[local] Hint Resolve steps_is_template_start_of_tagged_template : parser_steps.
Lemma steps_can_parse_semicolon : steps unmoved can_parse_semicolon.
Proof. unfold can_parse_semicolon. parser_steps. Qed.
#[local] Hint Resolve steps_can_parse_semicolon : parser_steps.
Lemma steps_can_follow_modifier : steps unmoved can_follow_modifier.
Proof. unfold can_follow_modifier. parser_steps. Qed.
#[local] Hint Resolve steps_can_follow_modifier : parser_steps.
Lemma steps_can_follow_get_or_set_keyword : steps unmoved can_follow_get_or_set_keyword.
Proof. unfold can_follow_get_or_set_keyword. parser_steps. Qed.
#[local] Hint Resolve steps_can_follow_get_or_set_keyword : parser_steps.
Lemma steps_can_follow_export_modifier : steps unmoved can_follow_export_modifier.
Proof. unfold can_follow_export_modifier. parser_steps. Qed.
#[local] Hint Resolve steps_can_follow_export_modifier : parser_steps.
Lemma steps_is_heritage_clause : steps unmoved is_heritage_clause.
Proof. unfold is_heritage_clause. parser_steps. Qed.
#[local] Hint Resolve steps_is_heritage_clause : parser_steps.
Lemma steps_is_binary_operator : steps unmoved is_binary_operator.
Proof. unfold is_binary_operator. parser_steps. Qed.
#[local] Hint Resolve steps_is_binary_operator : parser_steps.
Lemma steps_is_update_expression : steps unmoved is_update_expression.
Proof. unfold is_update_expression. parser_steps. Qed.
#[local] Hint Resolve steps_is_update_expression : parser_steps.

Lemma steps_next_token_in kinds : steps moves (next_token_in kinds).
Proof. unfold next_token_in. parser_steps. Qed.
#[local] Hint Resolve steps_next_token_in : parser_steps.
Lemma steps_next_token_is_identifier_or_keyword : steps moves next_token_is_identifier_or_keyword.
Proof. unfold next_token_is_identifier_or_keyword. parser_steps. Qed.
#[local] Hint Resolve steps_next_token_is_identifier_or_keyword : parser_steps.
Lemma steps_next_token_is_identifier_or_keyword_on_same_line : steps moves next_token_is_identifier_or_keyword_on_same_line.
Proof. unfold next_token_is_identifier_or_keyword_on_same_line. parser_steps. Qed.
#[local] Hint Resolve steps_next_token_is_identifier_or_keyword_on_same_line : parser_steps.
Lemma steps_next_token_is_identifier_or_keyword_or_literal_on_same_line : steps moves next_token_is_identifier_or_keyword_or_literal_on_same_line.
Proof. unfold next_token_is_identifier_or_keyword_or_literal_on_same_line. parser_steps. Qed.
#[local] Hint Resolve steps_next_token_is_identifier_or_keyword_or_literal_on_same_line : parser_steps.
Lemma steps_next_token_is_identifier : steps moves next_token_is_identifier.
Proof. unfold next_token_is_identifier. parser_steps. Qed.
#[local] Hint Resolve steps_next_token_is_identifier : parser_steps.
Lemma steps_next_token_is_identifier_on_same_line : steps moves next_token_is_identifier_on_same_line.
Proof. unfold next_token_is_identifier_on_same_line. parser_steps. Qed.
#[local] Hint Resolve steps_next_token_is_identifier_on_same_line : parser_steps.
Lemma steps_next_token_is_identifier_or_string_literal_on_same_line : steps moves next_token_is_identifier_or_string_literal_on_same_line.
Proof. unfold next_token_is_identifier_or_string_literal_on_same_line. parser_steps. Qed.
#[local] Hint Resolve steps_next_token_is_identifier_or_string_literal_on_same_line : parser_steps.
Lemma steps_next_is_identifier_and_close_paren : steps moves next_is_identifier_and_close_paren.
Proof. unfold next_is_identifier_and_close_paren. parser_steps. Qed.
#[local] Hint Resolve steps_next_is_identifier_and_close_paren : parser_steps.
Lemma steps_next_token_is_numeric_or_big_int_literal : steps moves next_token_is_numeric_or_big_int_literal.
Proof. unfold next_token_is_numeric_or_big_int_literal. parser_steps. Qed.
#[local] Hint Resolve steps_next_token_is_numeric_or_big_int_literal : parser_steps.
Lemma steps_next_token_is_open_paren_or_less_than_or_dot : steps moves next_token_is_open_paren_or_less_than_or_dot.
Proof. unfold next_token_is_open_paren_or_less_than_or_dot. parser_steps. Qed.
#[local] Hint Resolve steps_next_token_is_open_paren_or_less_than_or_dot : parser_steps.
Lemma steps_next_token_is_equals_or_semicolon_or_colon_token : steps moves next_token_is_equals_or_semicolon_or_colon_token.
Proof. unfold next_token_is_equals_or_semicolon_or_colon_token. parser_steps. Qed.
#[local] Hint Resolve steps_next_token_is_equals_or_semicolon_or_colon_token : parser_steps.
Lemma steps_next_token_is_class_keyword_on_same_line : steps moves next_token_is_class_keyword_on_same_line.
Proof. unfold next_token_is_class_keyword_on_same_line. parser_steps. Qed.
#[local] Hint Resolve steps_next_token_is_class_keyword_on_same_line : parser_steps.
Lemma steps_next_token_is_function_keyword_on_same_line : steps moves next_token_is_function_keyword_on_same_line.
Proof. unfold next_token_is_function_keyword_on_same_line. parser_steps. Qed.
#[local] Hint Resolve steps_next_token_is_function_keyword_on_same_line : parser_steps.
Lemma steps_next_token_is_colon_or_question_colon : steps moves next_token_is_colon_or_question_colon.
Proof. unfold next_token_is_colon_or_question_colon. parser_steps. Qed.
#[local] Hint Resolve steps_next_token_is_colon_or_question_colon : parser_steps.
Lemma steps_scan_start_of_named_tuple_element : steps moves scan_start_of_named_tuple_element.
Proof. unfold scan_start_of_named_tuple_element. parser_steps. Qed.
#[local] Hint Resolve steps_scan_start_of_named_tuple_element : parser_steps.
Lemma steps_next_is_start_of_type_of_import_type : steps moves next_is_start_of_type_of_import_type.
Proof. unfold next_is_start_of_type_of_import_type. parser_steps. Qed.
#[local] Hint Resolve steps_next_is_start_of_type_of_import_type : parser_steps.
Lemma steps_next_is_start_of_mapped_type : steps moves next_is_start_of_mapped_type.
Proof. unfold next_is_start_of_mapped_type. parser_steps. Qed.
#[local] Hint Resolve steps_next_is_start_of_mapped_type : parser_steps.
Lemma steps_next_token_is_identifier_or_keyword_or_open_bracket_or_template : steps moves next_token_is_identifier_or_keyword_or_open_bracket_or_template.
Proof. unfold next_token_is_identifier_or_keyword_or_open_bracket_or_template. parser_steps. Qed.
#[local] Hint Resolve steps_next_token_is_identifier_or_keyword_or_open_bracket_or_template : parser_steps.

(** ** Questions *)

Lemma steps_is_start_of_optional_property_or_element_access_chain : steps unmoved is_start_of_optional_property_or_element_access_chain.
Proof. unfold is_start_of_optional_property_or_element_access_chain. parser_steps. Qed.
#[local] Hint Resolve steps_is_start_of_optional_property_or_element_access_chain : parser_steps.
Lemma steps_next_token_can_follow_default_keyword : steps moves next_token_can_follow_default_keyword.
Proof. unfold next_token_can_follow_default_keyword. parser_steps. Qed.
#[local] Hint Resolve steps_next_token_can_follow_default_keyword : parser_steps.
Lemma steps_next_token_can_follow_export_modifier : steps moves next_token_can_follow_export_modifier.
Proof. unfold next_token_can_follow_export_modifier. parser_steps. Qed.
#[local] Hint Resolve steps_next_token_can_follow_export_modifier : parser_steps.
Lemma steps_next_token_is_on_same_line_and_can_follow_modifier : steps moves next_token_is_on_same_line_and_can_follow_modifier.
Proof. unfold next_token_is_on_same_line_and_can_follow_modifier. parser_steps. Qed.
#[local] Hint Resolve steps_next_token_is_on_same_line_and_can_follow_modifier : parser_steps.
Lemma steps_next_token_can_follow_modifier : steps moves next_token_can_follow_modifier.
Proof. unfold next_token_can_follow_modifier. parser_steps. Qed.
#[local] Hint Resolve steps_next_token_can_follow_modifier : parser_steps.

Lemma steps_try_contextual m : steps moves m → steps moves (try_contextual m).
Proof. intros Hm. apply (steps_speculate (pand m _)). parser_steps. Qed.
Lemma steps_parse_contextual_modifier kind : steps moves (parse_contextual_modifier kind).
Proof. apply steps_try_contextual. parser_steps. Qed.
Lemma steps_parse_any_contextual_modifier : steps moves parse_any_contextual_modifier.
Proof. apply steps_try_contextual. parser_steps. Qed.

(** ** Members *)

Lemma modifier_not_end kind : is_modifier_kind kind = true → kind ≠ EndOfFile.
Proof. by destruct kind. Qed.

Lemma steps_type_modifiers identifier : steps moves (ploop type_modifiers_body identifier).
Proof.
  apply steps_loop. intros st p q Hpq. apply in_step_token; [done|].
  destruct (is_modifier_kind _) eqn:E; [|by apply in_step_ret; [apply _|..]].
  eapply in_step_mono; [apply in_step_over; [done|by apply modifier_not_end|parser_steps]|].
  by intros [] p'.
Qed.
#[local] Hint Resolve steps_type_modifiers : parser_steps.

Lemma steps_class_modifiers identifier : steps moves (ploop class_modifiers_body identifier).
Proof.
  apply steps_loop. intros st p q Hpq. apply in_step_token; [done|].
  destruct (is_modifier_kind _) eqn:E; [|by apply in_step_ret; [apply _|..]].
  destruct (is_class_member_modifier _); [by apply in_step_ret; [apply _|..]|].
  eapply in_step_mono; [apply in_step_over; [done|by apply modifier_not_end|parser_steps]|].
  by intros [] p'.
Qed.
#[local] Hint Resolve steps_class_modifiers : parser_steps.

Lemma steps_class_member_after identifier : steps unmoved (class_member_after identifier).
Proof. unfold class_member_after. parser_steps. Qed.
#[local] Hint Resolve steps_class_member_after : parser_steps.

Lemma steps_scan_type_member_start : steps moves scan_type_member_start.
Proof. unfold scan_type_member_start. parser_steps. Qed.
#[local] Hint Resolve steps_scan_type_member_start : parser_steps.
Lemma steps_scan_class_member_start : steps moves scan_class_member_start.
Proof. unfold scan_class_member_start. parser_steps. Qed.
#[local] Hint Resolve steps_scan_class_member_start : parser_steps.

(** ** Types *)

(** What is answered in front of [x], with a text of [n] bytes behind it. *)
Definition past (text : bytes) (x : Z) (p : Parser) : Prop := p_source_text p = text ∧ x <= here p.

Lemma past_moves text x p p' : past text x p → moves p p' → past text x p'.
Proof.
  intros [Ht Hx] Hmv. split; [by rewrite (moves_source _ _ Hmv)|]. pose proof (moves_forward _ _ Hmv). lia.
Qed.
Lemma past_twin text x p q : twin p q → past text x p → past text x q.
Proof. intros Hpq [Ht Hx]. split; [by rewrite (twin_source _ _ Hpq)|by rewrite (twin_here _ _ Hpq)]. Qed.

(** [||] with a part on its right that is asked past [x]. *)
Lemma in_step_por_past text x m n p q :
  twin p q → past text x p → in_step moves m (λ _ _, True) p q →
  (∀ p' q', twin p' q' → past text x p' → in_step moves n (λ _ _, True) p' q') →
  in_step moves (por m n) (λ _ _, True) p q.
Proof.
  intros Hpq Hp Hm Hn. apply (in_step_por moves (past text x)); try done.
  - intros p0 p1. apply past_moves.
  - by apply (past_twin text x p).
Qed.

Lemma in_step_start_of_parameter start_of_type jsdoc text x p q :
  (∀ parameter p' q', twin p' q' → past text x p' → in_step moves (start_of_type parameter) (λ _ _, True) p' q') →
  twin p q → past text x p →
  in_step moves (is_start_of_parameter_with start_of_type jsdoc) (λ _ _, True) p q.
Proof.
  intros Hsot Hpq Hp. apply (in_step_por_past text x); [done|done| |intros; by apply Hsot].
  assert (steps moves (token_is DotDotDotToken ||| is_binding_identifier_or_private_identifier_or_pattern
    ||| pgets (λ p, is_modifier_kind (p_token p)) ||| token_is AtToken)%parser) as Hs by parser_steps.
  by apply Hs.
Qed.

Lemma in_step_start_of_type fuel parameter p q :
  twin p q → text_length (p_source_text p) - here p < Z.of_nat fuel →
  in_step unmoved (is_start_of_type_fuel fuel parameter) (λ _ _, True) p q.
Proof.
  revert parameter p q. induction fuel as [|fuel IH]; intros parameter p q Hpq Hfuel.
  { pose proof (here_range p (twin_fit _ _ Hpq)). lia. }
  cbn [is_start_of_type_fuel]. apply in_step_token; [done|].
  destruct (starts_type_at_once _); [by apply in_step_ret; [apply _|..]|].
  destruct (kind_eqb _ FunctionKeyword); [by apply in_step_ret; [apply _|..]|].
  destruct (kind_eqb _ MinusToken).
  { revert p q Hpq Hfuel. assert (steps unmoved (if parameter then mret false
      else look_ahead next_token_is_numeric_or_big_int_literal)) as Hs by parser_steps. auto. }
  destruct (kind_eqb _ OpenParenToken) eqn:Eopen; [|by apply steps_is_identifier].
  destruct parameter; [by apply in_step_ret; [apply _|..]|].
  apply in_step_marked; [done|]. intros p1 q1 Hp1 Hpq1.
  set (text := p_source_text p) in *.
  apply (in_step_bind moves _ _ (λ _ p', past text (here p + 1) p')).
  { destruct (in_step_next_token p1 q1 Hpq1) as (Hp & Hq & Hs).
    assert (∀ p0, twin p p0 → pwp next_token (good moves (advances p1) p0) p0 →
      pwp next_token (good moves (λ _ p', past text (here p + 1) p') p0) p0) as Hone.
    { intros p0 Hp0 Hwp. apply (pwp_mono _ _ _ _ Hwp). intros kind p' (? & Hmv & _ & Hadv).
      split_and!; [done|done|]. split; [rewrite (moves_source _ _ Hmv); by apply twin_source|].
      apply kind_eqb_true in Eopen. rewrite (twin_token _ _ Hp1), (twin_here _ _ Hp1), Eopen in Hadv.
      specialize (Hadv ltac:(done)). lia. }
    split_and!; [by apply Hone|apply Hone; [by apply (twin_trans p p1)|done]|done]. }
  intros kind p2 q2 Hpq2 Hpast _.
  assert (∀ parameter p' q', twin p' q' → past text (here p + 1) p' →
    in_step moves (is_start_of_type_fuel fuel parameter) (λ _ _, True) p' q') as Hsot.
  { intros parameter p' q' Hpq' [Ht Hx]. eapply in_step_weaken; [apply unmoved_moves|].
    apply IH; [done|]. rewrite Ht. lia. }
  apply (in_step_por_past text (here p + 1)); [done|done| |intros; by apply Hsot].
  apply (in_step_por_past text (here p + 1)); [done|done| |].
  - by apply (steps_token_is moves).
  - intros p' q' Hpq' Hp'. by eapply in_step_start_of_parameter.
Qed.

Lemma steps_is_start_of_type parameter : steps unmoved (is_start_of_type parameter).
Proof.
  intros p q Hpq. pose proof (here_range p (twin_fit _ _ Hpq)).
  pose proof (in_step_start_of_type (S (S (S (length (p_source_text p))))) parameter p q Hpq) as Hs.
  unfold is_start_of_type, in_step, pwp, same_answer in *. rewrite (twin_source _ _ Hpq). apply Hs.
  unfold text_length in *. lia.
Qed.
#[local] Hint Resolve steps_is_start_of_type : parser_steps.

Lemma steps_is_start_of_parameter jsdoc : steps unmoved (is_start_of_parameter jsdoc).
Proof. unfold is_start_of_parameter, is_start_of_parameter_with. parser_steps. Qed.
#[local] Hint Resolve steps_is_start_of_parameter : parser_steps.
Lemma steps_parenthesized_type : steps moves next_is_parenthesized_or_function_type.
Proof.
  unfold next_is_parenthesized_or_function_type, next_is_parenthesized_or_function_type_with,
    is_start_of_parameter_with. parser_steps.
Qed.
#[local] Hint Resolve steps_parenthesized_type : parser_steps.
Lemma steps_next_is_start_of_type : steps moves next_is_start_of_type.
Proof. unfold next_is_start_of_type. parser_steps. Qed.
#[local] Hint Resolve steps_next_is_start_of_type : parser_steps.
Lemma steps_next_is_unambiguously_index_signature : steps moves next_is_unambiguously_index_signature.
Proof. unfold next_is_unambiguously_index_signature. parser_steps. Qed.
#[local] Hint Resolve steps_next_is_unambiguously_index_signature : parser_steps.
Lemma steps_is_index_signature : steps unmoved is_index_signature.
Proof. unfold is_index_signature. parser_steps. Qed.
#[local] Hint Resolve steps_is_index_signature : parser_steps.

(** ** Expressions *)

Lemma steps_is_start_of_left_hand_side_expression : steps unmoved is_start_of_left_hand_side_expression.
Proof. unfold is_start_of_left_hand_side_expression. parser_steps. Qed.
#[local] Hint Resolve steps_is_start_of_left_hand_side_expression : parser_steps.
Lemma steps_is_start_of_expression : steps unmoved is_start_of_expression.
Proof. unfold is_start_of_expression. parser_steps. Qed.
#[local] Hint Resolve steps_is_start_of_expression : parser_steps.
Lemma steps_is_start_of_expression_statement : steps unmoved is_start_of_expression_statement.
Proof. unfold is_start_of_expression_statement. parser_steps. Qed.
#[local] Hint Resolve steps_is_start_of_expression_statement : parser_steps.
Lemma steps_next_is_start_of_expression : steps moves next_is_start_of_expression.
Proof. unfold next_is_start_of_expression. parser_steps. Qed.
#[local] Hint Resolve steps_next_is_start_of_expression : parser_steps.
Lemma steps_is_yield_expression : steps unmoved is_yield_expression.
Proof. unfold is_yield_expression. parser_steps. Qed.
#[local] Hint Resolve steps_is_yield_expression : parser_steps.
Lemma steps_is_await_expression : steps unmoved is_await_expression.
Proof. unfold is_await_expression. parser_steps. Qed.
#[local] Hint Resolve steps_is_await_expression : parser_steps.
Lemma steps_can_follow_type_arguments_in_expression : steps unmoved can_follow_type_arguments_in_expression.
Proof. unfold can_follow_type_arguments_in_expression. parser_steps. Qed.
#[local] Hint Resolve steps_can_follow_type_arguments_in_expression : parser_steps.
Lemma steps_is_heritage_clause_extends_or_implements_keyword : steps unmoved is_heritage_clause_extends_or_implements_keyword.
Proof. unfold is_heritage_clause_extends_or_implements_keyword. parser_steps. Qed.
#[local] Hint Resolve steps_is_heritage_clause_extends_or_implements_keyword : parser_steps.
Lemma steps_next_is_valid_heritage_clause_object_literal : steps moves next_is_valid_heritage_clause_object_literal.
Proof. unfold next_is_valid_heritage_clause_object_literal. parser_steps. Qed.
#[local] Hint Resolve steps_next_is_valid_heritage_clause_object_literal : parser_steps.
Lemma steps_is_valid_heritage_clause_object_literal : steps unmoved is_valid_heritage_clause_object_literal.
Proof. unfold is_valid_heritage_clause_object_literal. parser_steps. Qed.
#[local] Hint Resolve steps_is_valid_heritage_clause_object_literal : parser_steps.
Lemma steps_is_implements_clause : steps unmoved is_implements_clause.
Proof. unfold is_implements_clause. parser_steps. Qed.
#[local] Hint Resolve steps_is_implements_clause : parser_steps.

(** ** Declarations and statements *)

Lemma steps_next_token_is_binding_identifier_or_start_of_destructuring : steps moves next_token_is_binding_identifier_or_start_of_destructuring.
Proof. unfold next_token_is_binding_identifier_or_start_of_destructuring. parser_steps. Qed.
#[local] Hint Resolve steps_next_token_is_binding_identifier_or_start_of_destructuring : parser_steps.
Lemma steps_is_let_declaration : steps unmoved is_let_declaration.
Proof. unfold is_let_declaration. parser_steps. Qed.
#[local] Hint Resolve steps_is_let_declaration : parser_steps.
Lemma steps_next_token_is_binding_identifier_or_start_of_destructuring_on_same_line disallow_of : steps moves (next_token_is_binding_identifier_or_start_of_destructuring_on_same_line disallow_of).
Proof. unfold next_token_is_binding_identifier_or_start_of_destructuring_on_same_line. parser_steps. Qed.
#[local] Hint Resolve steps_next_token_is_binding_identifier_or_start_of_destructuring_on_same_line : parser_steps.
Lemma steps_is_using_declaration : steps unmoved is_using_declaration.
Proof. unfold is_using_declaration. parser_steps. Qed.
#[local] Hint Resolve steps_is_using_declaration : parser_steps.
Lemma steps_next_is_using_keyword_then_binding_identifier_or_start_of_object_destructuring_on_same_line : steps moves next_is_using_keyword_then_binding_identifier_or_start_of_object_destructuring_on_same_line.
Proof. unfold next_is_using_keyword_then_binding_identifier_or_start_of_object_destructuring_on_same_line. parser_steps. Qed.
#[local] Hint Resolve steps_next_is_using_keyword_then_binding_identifier_or_start_of_object_destructuring_on_same_line : parser_steps.
Lemma steps_is_await_using_declaration : steps unmoved is_await_using_declaration.
Proof. unfold is_await_using_declaration. parser_steps. Qed.
#[local] Hint Resolve steps_is_await_using_declaration : parser_steps.
Lemma steps_is_next_token_open_paren_or_less_than_or_dot : steps unmoved is_next_token_open_paren_or_less_than_or_dot.
Proof. unfold is_next_token_open_paren_or_less_than_or_dot. parser_steps. Qed.
#[local] Hint Resolve steps_is_next_token_open_paren_or_less_than_or_dot : parser_steps.

(** A round that goes on is one over a modifier. *)
Lemma in_step_declaration_body st p q :
  twin p q →
  in_step moves (declaration_body st) (λ r p', match r with inl _ => here p < here p' | inr _ => True end) p q.
Proof.
  intros Hpq.
  assert (∀ (n : P (unit + bool)), p_token p ≠ EndOfFile → steps moves n →
    in_step moves (next_token;; n) (λ r p', match r with inl _ => here p < here p' | inr _ => True end) p q) as Hover.
  { intros n Hne Hn. eapply in_step_mono; [by apply in_step_over|]. by intros [[]|b] p'. }
  apply in_step_token; [done|]. destruct (p_token p) eqn:Ek;
    first [by apply in_step_ret; [apply _|..]
      |apply Hover; [done|parser_steps]
      |apply (in_step_answer _ (λ b, b)); [done|parser_steps]].
Qed.

Lemma steps_scan_start_of_declaration : steps moves scan_start_of_declaration.
Proof. apply steps_loop. apply in_step_declaration_body. Qed.
#[local] Hint Resolve steps_scan_start_of_declaration : parser_steps.
Lemma steps_is_start_of_declaration : steps unmoved is_start_of_declaration.
Proof. unfold is_start_of_declaration. parser_steps. Qed.
#[local] Hint Resolve steps_is_start_of_declaration : parser_steps.
Lemma steps_is_start_of_statement : steps unmoved is_start_of_statement.
Proof. unfold is_start_of_statement. parser_steps. Qed.
#[local] Hint Resolve steps_is_start_of_statement : parser_steps.

(** ** Arrow functions *)

Lemma steps_parse_optional kind : steps moves (parse_optional kind).
Proof. unfold parse_optional. parser_steps. Qed.
#[local] Hint Resolve steps_parse_optional : parser_steps.
Lemma steps_is_jsx_arrow : steps moves is_jsx_arrow.
Proof. unfold is_jsx_arrow. parser_steps. Qed.
#[local] Hint Resolve steps_is_jsx_arrow : parser_steps.
Lemma steps_arrow_after_paren second : steps moves (arrow_after_paren second).
Proof. unfold arrow_after_paren. parser_steps. Qed.
#[local] Hint Resolve steps_arrow_after_paren : parser_steps.
Lemma steps_arrow_after_less_than : steps unmoved arrow_after_less_than.
Proof. unfold arrow_after_less_than. parser_steps. Qed.
#[local] Hint Resolve steps_arrow_after_less_than : parser_steps.

(** What is asked in front of a parenthesis or a less-than sign. *)
Lemma in_step_arrow_at p q :
  twin p q → p_token p = OpenParenToken ∨ p_token p = LessThanToken →
  in_step moves (
    first ← get_token; second ← next_token;
    match first with
    | OpenParenToken =>
        match second with
        | CloseParenToken =>
            answer ← next_token_in [EqualsGreaterThanToken; ColonToken; OpenBraceToken];
            mret (tristate answer)
        | OpenBracketToken | OpenBraceToken => mret TUnknown
        | DotDotDotToken => mret TTrue
        | _ => arrow_after_paren second
        end
    | LessThanToken => arrow_after_less_than
    | _ => ppanic
    end) (λ _ _, True) p q.
Proof.
  intros Hpq Htok. apply in_step_token; [done|]. destruct Htok as [-> | ->]; revert p q Hpq;
    match goal with |- ∀ p q, twin p q → in_step moves ?m _ p q =>
      enough (steps moves m) as Hs by exact Hs; parser_steps end.
Qed.

(** After [async]: whether nothing follows that an arrow function could start with. *)
Lemma in_step_after_async p q :
  twin p q →
  in_step moves (next_token;; has_preceding_line_break ||| pnot (token_in [OpenParenToken; LessThanToken]))%parser
    (λ bare p', bare = false → p_token p' = OpenParenToken ∨ p_token p' = LessThanToken) p q.
Proof.
  intros Hpq. apply (in_step_bind moves _ _ (λ _ _, True)); [by apply steps_next_token|].
  clear p q Hpq. intros _ p q Hpq _ _.
  apply (in_step_bind moves _ _ (λ _ _, True)); [by apply steps_line_break; [apply _|]|].
  clear p q Hpq. intros [] p q Hpq _ _; [by apply in_step_ret; [apply _|..]|].
  apply (in_step_bind moves _ _ (λ b p', b = one_of (p_token p') [OpenParenToken; LessThanToken])).
  { apply in_step_gets; [apply _|done| |done|]; by rewrite (twin_token _ _ Hpq). }
  intros b p' q' Hpq' Hp' Hq'. apply in_step_ret; [apply _|done|..].
  - rewrite Hp'. destruct (p_token p'); naive_solver.
  - rewrite Hq'. destruct (p_token q'); naive_solver.
Qed.

Lemma in_step_next_is_arrow p q :
  twin p q → one_of (p_token p) [OpenParenToken; LessThanToken; AsyncKeyword] = true →
  in_step moves next_is_parenthesized_arrow_function_expression (λ _ _, True) p q.
Proof.
  intros Hpq Htok.
  set (R := λ bare p', bare = false → p_token p' = OpenParenToken ∨ p_token p' = LessThanToken).
  apply (in_step_bind moves _ _ (λ b p', b = kind_eqb (p_token p) AsyncKeyword ∧ p_token p' = p_token p)).
  { apply in_step_gets; [apply _|done| |done|]; by rewrite (twin_token _ _ Hpq). }
  intros b p1 q1 Hpq1 [-> Ep1] [_ Eq1]. apply (in_step_bind moves _ _ R).
  { destruct (kind_eqb (p_token p) AsyncKeyword) eqn:Ea; [by apply in_step_after_async|].
    apply in_step_ret; [apply _|done|..]; intros _; rewrite ?Ep1, ?Eq1.
    all: destruct (p_token p); naive_solver. }
  intros [] p2 q2 Hpq2 Hp2 Hq2; [by apply in_step_ret; [apply _|..]|].
  apply in_step_arrow_at; auto.
Qed.

Lemma steps_is_parenthesized_arrow : steps unmoved is_parenthesized_arrow_function_expression.
Proof.
  intros p q Hpq. set (starts := one_of (p_token p) [OpenParenToken; LessThanToken; AsyncKeyword]).
  apply (in_step_bind unmoved _ _ (λ b p', b = starts ∧ p_token p' = p_token p)).
  { apply in_step_gets; [apply _|done| |done|]; by rewrite (twin_token _ _ Hpq). }
  intros b p1 q1 Hpq1 [-> Ep1] _. destruct starts eqn:Es.
  - apply in_step_marked; [done|]. intros p2 q2 Hp2 Hpq2. apply in_step_next_is_arrow; [done|].
    by rewrite (twin_token _ _ Hp2), Ep1.
  - apply (steps_bind unmoved _ _ (steps_token_is unmoved _)); [|done]. intros b. by apply steps_ret; apply _.
Qed.
#[local] Hint Resolve steps_is_parenthesized_arrow : parser_steps.

Lemma steps_next_is_un_parenthesized_async_arrow_function : steps moves next_is_un_parenthesized_async_arrow_function.
Proof. unfold next_is_un_parenthesized_async_arrow_function. parser_steps. Qed.
#[local] Hint Resolve steps_next_is_un_parenthesized_async_arrow_function : parser_steps.

(** ** Lists *)

Lemma steps_is_list_element kind recovery : steps unmoved (is_list_element kind recovery).
Proof. unfold is_list_element. parser_steps. Qed.
#[local] Hint Resolve steps_is_list_element : parser_steps.

Lemma steps_is_list_terminator kind : steps unmoved (is_list_terminator kind).
Proof. unfold is_list_terminator. parser_steps. Qed.
#[local] Hint Resolve steps_is_list_terminator : parser_steps.

Lemma steps_in_some_context kinds : steps unmoved (in_some_context kinds).
Proof. induction kinds; cbn [in_some_context]; parser_steps. Qed.
End Steps.

(** * Sessions and look-ahead *)

(** ** Questions and operations *)

Inductive Question :=
  | ListElement (kind : ParsingContext) (recovery : bool)
  | ListTerminator (kind : ParsingContext)
  | StartOfStatement
  | StartOfDeclaration
  | StartOfExpression
  | StartOfExpressionStatement
  | StartOfLeftHandSide
  | StartOfType (parameter : bool)
  | StartOfParameter (jsdoc : bool)
  | IndexSignature
  | LetDeclaration
  | UsingDeclaration
  | AwaitUsingDeclaration
  | YieldExpression
  | AwaitExpression
  | UpdateExpression
  | BinaryOperator
  | HeritageClause
  | ImplementsClause
  | OptionalChain
  | AfterTypeArguments
  | CanParseSemicolon
  | ParenthesizedArrow.

Inductive Act :=
  | Ask (q : Question)
  | Next
  | NextWithoutCheck
  | Optional (kind : SyntaxKind)
  | Expected (kind : SyntaxKind)
  | ExpectedHere (kind : SyntaxKind)
  | Semicolon
  | TrySemicolon
  | Modifier (kind : SyntaxKind)
  | AnyModifier.

Section LookAhead.
Context `{ParserFactory, JsNum, NumBigint, IdentifierTables, OwnerAllocator}.

Definition yes_or_no (m : P bool) : P Tristate := b ← m; mret (tristate b).

Definition ask (q : Question) : P Tristate :=
  match q with
  | ListElement kind recovery => yes_or_no (is_list_element kind recovery)
  | ListTerminator kind => yes_or_no (is_list_terminator kind)
  | StartOfStatement => yes_or_no is_start_of_statement
  | StartOfDeclaration => yes_or_no is_start_of_declaration
  | StartOfExpression => yes_or_no is_start_of_expression
  | StartOfExpressionStatement => yes_or_no is_start_of_expression_statement
  | StartOfLeftHandSide => yes_or_no is_start_of_left_hand_side_expression
  | StartOfType parameter => yes_or_no (is_start_of_type parameter)
  | StartOfParameter jsdoc => yes_or_no (is_start_of_parameter jsdoc)
  | IndexSignature => yes_or_no is_index_signature
  | LetDeclaration => yes_or_no is_let_declaration
  | UsingDeclaration => yes_or_no is_using_declaration
  | AwaitUsingDeclaration => yes_or_no is_await_using_declaration
  | YieldExpression => yes_or_no is_yield_expression
  | AwaitExpression => yes_or_no is_await_expression
  | UpdateExpression => yes_or_no is_update_expression
  | BinaryOperator => yes_or_no is_binary_operator
  | HeritageClause => yes_or_no is_heritage_clause_extends_or_implements_keyword
  | ImplementsClause => yes_or_no is_implements_clause
  | OptionalChain => yes_or_no is_start_of_optional_property_or_element_access_chain
  | AfterTypeArguments => yes_or_no can_follow_type_arguments_in_expression
  | CanParseSemicolon => yes_or_no can_parse_semicolon
  | ParenthesizedArrow => is_parenthesized_arrow_function_expression
  end.

Definition act (a : Act) : P Tristate :=
  match a with
  | Ask q => ask q
  | Next => next_token;; mret TUnknown
  | NextWithoutCheck => next_token_without_check;; mret TUnknown
  | Optional kind => yes_or_no (parse_optional kind)
  | Expected kind => yes_or_no (parse_expected kind)
  | ExpectedHere kind => yes_or_no (parse_expected_without_advancing kind)
  | Semicolon => yes_or_no parse_semicolon
  | TrySemicolon => yes_or_no try_parse_semicolon
  | Modifier kind => yes_or_no (parse_contextual_modifier kind)
  | AnyModifier => yes_or_no parse_any_contextual_modifier
  end.

(** The answers, one after another. *)
Fixpoint perform (acts : list Act) : P (list Tristate) :=
  match acts with
  | [] => mret []
  | a :: acts => answer ← act a; answers ← perform acts; mret (answer :: answers)
  end.

#[local] Hint Resolve steps_is_list_element steps_is_list_terminator steps_is_start_of_statement
  steps_is_start_of_declaration steps_is_start_of_expression steps_is_start_of_expression_statement
  steps_is_start_of_left_hand_side_expression steps_is_start_of_type steps_is_start_of_parameter
  steps_is_index_signature steps_is_let_declaration steps_is_using_declaration
  steps_is_await_using_declaration steps_is_yield_expression steps_is_await_expression
  steps_is_update_expression steps_is_binary_operator
  steps_is_heritage_clause_extends_or_implements_keyword steps_is_implements_clause
  steps_is_start_of_optional_property_or_element_access_chain
  steps_can_follow_type_arguments_in_expression steps_can_parse_semicolon
  steps_is_parenthesized_arrow steps_parse_optional steps_parse_contextual_modifier
  steps_parse_any_contextual_modifier : parser_steps.

Lemma steps_ask q : steps unmoved (ask q).
Proof. destruct q; unfold ask, yes_or_no; parser_steps. Qed.
#[local] Hint Resolve steps_ask : parser_steps.

Lemma steps_parse_expected_with kind m should_advance :
  steps moves (parse_expected_with_diagnostic kind m should_advance).
Proof. unfold parse_expected_with_diagnostic. parser_steps. Qed.
#[local] Hint Resolve steps_parse_expected_with : parser_steps.

Lemma steps_try_parse_semicolon : steps moves try_parse_semicolon.
Proof. unfold try_parse_semicolon. parser_steps. Qed.
#[local] Hint Resolve steps_try_parse_semicolon : parser_steps.

Lemma steps_act a : steps moves (act a).
Proof.
  destruct a; unfold act, yes_or_no, parse_semicolon, parse_expected, parse_expected_without_advancing;
    parser_steps.
Qed.
#[local] Hint Resolve steps_act : parser_steps.

Lemma steps_perform acts : steps moves (perform acts).
Proof. induction acts; cbn [perform]; parser_steps. Qed.

(** ** The beginning *)

Lemma first_token_fit source script_kind factory p :
  all_bytes source → text_length source <= I32_MAX →
  parser_new source script_kind factory = Some p →
  ∃ kind p', next_token p = Returns kind p' ∧ fit p'.
Proof.
  intros Hb Hlen Hnew. unfold parser_new in Hnew. destruct (_ =? _); [done|].
  injection Hnew as <-. set (p := MkParser _ _ _ _ _ _ _ _ _ _ _ _ _ _ _ _ _ _ _ _ _).
  assert (ready p) as Hp by (split; cbn; (done || apply tidy_nil)).
  assert (ok (p_scanner p)) as Hok.
  { split; cbn; try done; [lia|unfold text_length; lia]. }
  destruct (take_operation_reads _ scan p Hp (scan_reads (p_scanner p) Hok ltac:(cbn; lia)))
    as (kind & p' & _ & _ & _ & _ & Et & _ & Hfit & _).
  exists kind, p'. split; [|done]. unfold next_token, get_token, pgets, mbind, P_bind. cbn [p_token p].
  exact Et.
Qed.
End LookAhead.

(** ** A concrete parser *)

(** Nodes are numbered, and a list is its slots. *)
Definition plain_factory : ParserFactory := {|
  Factory := Z; NodeId := Z; NodeListId := Z * list (option Z); NodeSlice := list (option Z);
  new_token kind f := (f, f + 1);
  new_identifier_node text f := (f, f + 1);
  new_private_identifier text f := (f, f + 1);
  new_keyword_expression kind f := (f, f + 1);
  new_literal kind text flags f := (f, f + 1);
  new_modifier kind f := (f, f + 1);
  factory_finish_node node loc flags f := f;
  factory_override_parent node f := f;
  inline_buffers := true;
  alloc_nodes nodes f := (nodes, f);
  node_slice_from_slice nodes f := (nodes, f);
  empty_slice := [];
  alloc_list loc slice f := ((f, slice), f + 1);
  factory_mark_list_missing list f := f;
  is_js_type_alias_or_import node f := false;
|}.
Definition owner_seven : OwnerAllocator := 7.

#[local] Existing Instances plain_numbers plain_bigints latin_letters plain_factory owner_seven.

(** The parser at the first token of a text. *)
Definition parser_at (source : bytes) : option Parser :=
  p ← parser_new source SCRIPT_TS (0 : Factory);
  match next_token p with Returns _ p => Some p | _ => None end.

Lemma parser_at_fit source p :
  all_bytes source → text_length source <= I32_MAX → parser_at source = Some p → fit p.
Proof.
  intros Hb Hlen. unfold parser_at. destruct (parser_new _ _ _) as [p0|] eqn:E; [|done].
  destruct (first_token_fit _ _ _ _ Hb Hlen E) as (kind & p' & Hn & Hfit). cbn. rewrite Hn. by intros [= <-].
Qed.

(** [C14] Any use of the parser's token layer is safe, from the first token of any text a
    32-bit position can address: taking, requiring and reporting tokens, trying modifiers
    and asking any question about the tokens ahead, in any order. None of it panics -
    only the 2^64 - 1 numbers of checkpoints may run out -, and the parser stays fit:
    its scanner settled, its token the scanner's, its diagnostics inside the text and no
    two in a row at one position; diagnostics are only added, and it never goes back. *)
Theorem parser_session_safe `{ParserFactory, JsNum, NumBigint, IdentifierTables, OwnerAllocator}
    source script_kind factory p acts :
  all_bytes source → text_length source <= I32_MAX →
  parser_new source script_kind factory = Some p →
  ∃ kind p1, next_token p = Returns kind p1
    ∧ pwp (perform acts) (λ answers p2, length answers = length acts ∧ fit p2 ∧ moves p1 p2) p1.
Proof.
  intros Hb Hlen Hnew. destruct (first_token_fit _ _ _ _ Hb Hlen Hnew) as (kind & p1 & Hn & Hp1).
  exists kind, p1. split; [done|]. apply pwp_and; [|by apply steps_pwp, Hp1; apply steps_perform].
  assert (∀ p, fit p → pwp (perform acts) (λ answers _, length answers = length acts) p) as Hlength; [|by apply Hlength].
  clear. induction acts as [|a acts IH]; intros p Hp; [done|]. cbn [perform].
  apply pwp_bind. eapply pwp_mono; [apply (steps_pwp _ _ _ (steps_act a) Hp)|]. intros answer p1 [Hp1 _].
  apply pwp_bind. eapply pwp_mono; [by apply IH|]. intros answers p2 Hl. apply pwp_ret. cbn. by rewrite Hl.
Qed.

Definition arrows : bytes := bs "(a?: b, [c]) => async <T>(d) /* e */ static declare".
Definition acts_on_arrows : list Act :=
  [Ask ParenthesizedArrow; Ask (ListElement SourceElements false); Next; Ask (StartOfType false);
   Expected CloseParenToken; Expected CommaToken; AnyModifier; Semicolon].

Lemma arrows_ok : all_bytes arrows ∧ text_length arrows <= I32_MAX.
Proof. split; [|by vm_compute]. by repeat (constructor; [split; by vm_compute|]). Qed.

Lemma parser_session_safe_witness :
  ∃ p, parser_new arrows SCRIPT_TS (0 : Factory) = Some p ∧
  ∃ kind p1, next_token p = Returns kind p1
    ∧ pwp (perform acts_on_arrows) (λ answers p2, length answers = length acts_on_arrows ∧ fit p2 ∧ moves p1 p2) p1.
Proof.
  eexists. split; [reflexivity|].
  apply (parser_session_safe arrows SCRIPT_TS _ _ acts_on_arrows (proj1 arrows_ok) (proj2 arrows_ok) eq_refl).
Defined.

(** [C13] A question leaves no trace. Asked of a fit parser, it is answered - or the
    numbers of checkpoints run out -, and the parser is as it was but for the caches of
    its scanner and the count of checkpoints: the same token, diagnostics and flags, the
    same checkpoints held. Whatever is done next, further questions included, has the
    same answers and leaves the same parser, in all that can be seen of it, as if the
    question had not been asked. *)
Theorem question_leaves_no_trace `{ParserFactory, JsNum, NumBigint, IdentifierTables, OwnerAllocator}
    q later p :
  fit p →
  pwp (ask q) (λ _ p', unmoved p p' ∧ fit p'
    ∧ match perform later p, perform later p' with
      | Returns answers p1, Returns answers' p2 => answers = answers' ∧ twin p1 p2
      | Exhausted p1, _ => spent p1
      | _, Exhausted p2 => spent p2
      | _, _ => False
      end) p.
Proof.
  intros Hp. eapply pwp_mono; [apply (steps_pwp _ _ _ (steps_ask q) Hp)|]. intros answer p' [Hp' Hun].
  split_and!; [done|done|].
  destruct (steps_perform later p p' (unmoved_twin _ _ Hp Hp' Hun)) as (Hw & Hw' & Hs).
  unfold pwp, same_answer in *. by destruct (perform later p), (perform later p').
Qed.

Lemma question_leaves_no_trace_witness :
  ∃ p, parser_at arrows = Some p ∧ fit p
  ∧ pwp (ask ParenthesizedArrow) (λ _ p', unmoved p p' ∧ fit p'
    ∧ match perform acts_on_arrows p, perform acts_on_arrows p' with
      | Returns answers p1, Returns answers' p2 => answers = answers' ∧ twin p1 p2
      | Exhausted p1, _ => spent p1
      | _, Exhausted p2 => spent p2
      | _, _ => False
      end) p.
Proof.
  destruct (parser_at arrows) as [p|] eqn:Hp; [|by vm_compute in Hp].
  assert (fit p) as Hfit by by apply (parser_at_fit arrows); [apply arrows_ok..|].
  exists p. split; [reflexivity|]. split; [exact Hfit|].
  exact (question_leaves_no_trace ParenthesizedArrow acts_on_arrows p Hfit).
Defined.

(** ** What is required *)

(** [C21] A token that is required is taken where it is there. Where it is not, nothing
    is taken: the answer is no, the pending error bit is set, a diagnostic stands at the
    current token - a new one that names what was expected, unless one stood there
    already -, and requiring another token that is not there adds nothing. *)
Theorem expected_token_reported `{ParserFactory, JsNum, NumBigint, IdentifierTables, OwnerAllocator}
    kind other p :
  fit p →
  (p_token p = kind → pwp (parse_expected kind) (λ taken p', taken = true ∧ fit p' ∧ moves p p'
     ∧ (kind ≠ EndOfFile → here p < here p')) p)
  ∧ (p_token p ≠ kind →
      let missing := diagnostic_new (token_range (p_scanner p)) X_0_expected [token_to_string kind] in
      ∃ p', parse_expected kind p = Returns false p' ∧ fit p' ∧ scan_state p' = scan_state p
        ∧ p_has_parse_error p' = true
        ∧ (p_diagnostics p' = p_diagnostics p ++ [missing]
           ∨ p_diagnostics p' = p_diagnostics p
             ∧ ∃ d, last (p_diagnostics p) = Some d
                 ∧ TextEdits.pos (d_loc d) = token_start (scan_state p))
        ∧ (p_token p ≠ other → parse_expected other p' = Returns false p')).
Proof.
  intros Hp. unfold parse_expected, parse_expected_with_diagnostic. split; intros Hk.
  - apply pwp_bind. unfold pwp at 1, token_is, pgets. rewrite (proj2 (kind_eqb_true _ _) Hk).
    cbn [pwhen]. do 2 apply pwp_bind.
    destruct (in_step_next_token p p (twin_refl _ Hp)) as (Hwp & _ & _).
    apply (pwp_mono _ _ _ _ Hwp). intros k p' (Hp' & Hmv & _ & Hadv). do 2 apply pwp_ret.
    rewrite Hk in Hadv. auto.
  - assert (∀ k, p_token p ≠ k → kind_eqb (p_token p) k = false) as Hne.
    { intros k Hk'. apply not_true_is_false. by rewrite kind_eqb_true. }
    pose proof (fit_settled _ Hp) as Hs. pose proof (settled_start _ Hs).
    pose proof (ok_pos _ (settled_ok _ Hs)) as Hpos. rewrite (fit_text _ Hp) in Hpos.
    pose proof (fit_length _ Hp) as Hlen.
    assert (TextEdits.pos (token_range (p_scanner p)) = token_start (scan_state p)) as Hstart.
    { unfold token_range, range_new, scan_state; cbn. rewrite wrap_i32_id; lia. }
    pose proof (steps_pwp _ _ p (steps_error_here X_0_expected [token_to_string kind]) Hp) as Hwp.
    cbv zeta. set (loc := token_range (p_scanner p)) in *.
    destruct (append_error_note loc X_0_expected [token_to_string kind] p) as [i Ei].
    set (p1 := p <| p_diagnostics := _ |> <| p_has_parse_error := true |>) in Ei.
    assert (parse_error_at_current_token X_0_expected [token_to_string kind] p = Returns i p1) as Ee by exact Ei.
    unfold pwp in Hwp. rewrite Ee in Hwp. destruct Hwp as [Hp1 _].
    exists p1. split_and!; try done.
    + unfold mbind, P_bind, token_is, pgets. by rewrite Hne, Ee.
    + cbn. unfold note, is_free. destruct (last (p_diagnostics p)) as [d|]; [|by left].
      destruct (Z.eqb_spec (TextEdits.pos (d_loc d)) (TextEdits.pos loc)) as [E|]; [right|by left].
      split; [done|]. exists d. by rewrite E.
    + intros Hother. unfold mbind, P_bind, token_is, pgets. cbn [p_token p1].
      rewrite (Hne other Hother : kind_eqb (p_token p1) other = false).
      assert (parse_error_at_current_token X_0_expected [token_to_string other] p1 = Returns None p1) as ->; [|done].
      assert (is_free loc (p_diagnostics p1) = false) as Hfree.
      { cbn. unfold note. destruct (is_free loc (p_diagnostics p)) eqn:E; [|done].
        unfold is_free. rewrite last_snoc. cbn. by rewrite Z.eqb_refl. }
      change (append_error loc X_0_expected [token_to_string other] p1 = Returns None p1).
      unfold append_error. by rewrite Hfree.
Qed.

Lemma expected_token_reported_witness :
  ∃ p, parser_at arrows = Some p ∧ fit p ∧ p_token p ≠ CommaToken ∧ p_token p ≠ SemicolonToken
  ∧ (p_token p = CommaToken → pwp (parse_expected CommaToken) (λ taken p', taken = true ∧ fit p' ∧ moves p p'
     ∧ (CommaToken ≠ EndOfFile → here p < here p')) p)
  ∧ (p_token p ≠ CommaToken →
      let missing := diagnostic_new (token_range (p_scanner p)) X_0_expected [token_to_string CommaToken] in
      ∃ p', parse_expected CommaToken p = Returns false p' ∧ fit p' ∧ scan_state p' = scan_state p
        ∧ p_has_parse_error p' = true
        ∧ (p_diagnostics p' = p_diagnostics p ++ [missing]
           ∨ p_diagnostics p' = p_diagnostics p
             ∧ ∃ d, last (p_diagnostics p) = Some d
                 ∧ TextEdits.pos (d_loc d) = token_start (scan_state p))
        ∧ (p_token p ≠ SemicolonToken → parse_expected SemicolonToken p' = Returns false p')).
Proof.
  destruct (parser_at arrows) as [p|] eqn:Hp; [|by vm_compute in Hp].
  assert (fit p) as Hfit by by apply (parser_at_fit arrows); [apply arrows_ok..|].
  exists p. split; [reflexivity|]. split; [exact Hfit|].
  split; [|split; [|exact (expected_token_reported CommaToken SemicolonToken p Hfit)]].
  all: vm_compute in Hp; injection Hp as <-; discriminate.
Defined.
