(* ===== verification/ParserListsSpec.v ===== *)
(** Lists end. Whatever an element is parsed by, as long as it keeps the parser fit, does
    not go back and gives back the contexts it was given, a delimited list is left, at a
    token that ends it or that a list around it is waiting for; an undelimited list is
    left likewise, if its elements are not empty. *)

From stdpp Require Import gmap.
From S2P Require Import Prelude Wtf8 TextEdits BigInt ScannerKinds ScannerState ScannerWp.
From S2P Require Import ScannerDigits ParserCore ParserPredicates ParserListBuffer ParserLists.
From S2P Require Import ParserWp ParserStep ParserLookAhead.

Local Open Scope Z_scope.

Section Spec.
Context `{ParserFactory, JsNum, NumBigint, IdentifierTables, OwnerAllocator}.

(** ** What a list asks of its elements *)

Record leads (p p' : Parser) : Prop := {
  leads_fit : fit p';
  leads_source : p_source_text p' = p_source_text p;
  leads_contexts : p_parsing_contexts p' = p_parsing_contexts p;
  leads_forward : here p <= here p';
}.

Lemma moves_leads p p' : moves p p' → fit p' → leads p p'.
Proof.
  intros Hmv Hp'. split; [done|by apply moves_source| |apply Hmv]. by rewrite (moves_rest _ _ Hmv).
Qed.

Lemma leads_trans p1 p2 p3 : leads p1 p2 → leads p2 p3 → leads p1 p3.
Proof. intros [] []. split; [done|congruence|congruence|lia]. Qed.

(** The nodes it gives satisfy [E]. *)
Definition tame (E : NodeId → Prop) (parse_element : P (option NodeId)) : Prop :=
  ∀ p, fit p → pwp parse_element (λ r p', leads p p' ∧ ∀ node, r = Some node → E node) p.

(** ** Rules *)

Lemma pwp_eq {A} (m : P A) Q p : pwp m Q p → pwp m (λ a p', Q a p' ∧ m p = Returns a p') p.
Proof. unfold pwp. by destruct (m p). Qed.

Lemma pwp_steps {A B} W (m : P A) (f : A → P B) Q p :
  steps W m → fit p → (∀ a p', fit p' → W p p' → m p = Returns a p' → pwp (f a) Q p') →
  pwp (m ≫= f) Q p.
Proof.
  intros Hm Hp Hf. apply pwp_bind. eapply pwp_mono; [apply pwp_eq, (steps_pwp _ _ _ Hm Hp)|].
  intros a p' [[Hp' HW] E]. by apply Hf.
Qed.

Lemma pwp_gets {A B} (g : Parser → A) (f : A → P B) Q p : pwp (f (g p)) Q p → pwp (pgets g ≫= f) Q p.
Proof. done. Qed.
Lemma pwp_token_is {B} kind (f : bool → P B) Q p :
  pwp (f (kind_eqb (p_token p) kind)) Q p → pwp (token_is kind ≫= f) Q p.
Proof. done. Qed.

Lemma unmoved_token p p' : unmoved p p' → p_token p' = p_token p.
Proof. intros Hun. by rewrite (unmoved_rest _ _ Hun). Qed.
Lemma unmoved_here p p' : unmoved p p' → here p' = here p.
Proof. intros Hun. unfold here. by rewrite (unmoved_state _ _ Hun). Qed.
Lemma unmoved_leads p p' : unmoved p p' → fit p' → leads p p'.
Proof. intros Hun. by apply moves_leads, unmoved_moves. Qed.

(** Other fields of the parser do not matter. *)
Lemma fit_ext p p' :
  fit p → p_scanner p' = p_scanner p → p_token p' = p_token p →
  p_source_text p' = p_source_text p → p_diagnostics p' = p_diagnostics p → fit p'.
Proof.
  intros [] Es Et Ex Ed. unfold scan_state in *.
  split; unfold scan_state; rewrite ?Es, ?Et, ?Ex, ?Ed; done.
Qed.

Lemma pwp_next_token p :
  fit p → pwp next_token (λ _ p', leads p p' ∧ (p_token p ≠ EndOfFile → here p < here p')) p.
Proof.
  intros Hp. destruct (in_step_next_token p p (twin_refl _ Hp)) as (Hwp & _ & _).
  apply (pwp_mono _ _ _ _ Hwp). intros kind p' (Hp' & Hmv & _ & Hadv). split; [by apply moves_leads|done].
Qed.

Lemma pwp_parse_optional kind p :
  fit p → kind ≠ EndOfFile →
  pwp (parse_optional kind) (λ taken p', leads p p' ∧ if taken : bool then here p < here p' else p' = p) p.
Proof.
  intros Hp Hkind. unfold parse_optional. apply pwp_token_is.
  destruct (kind_eqb (p_token p) kind) eqn:E.
  - apply kind_eqb_true in E. apply pwp_bind. eapply pwp_mono; [by apply pwp_next_token|].
    intros k p' [Hl Hadv]. split; [done|]. apply Hadv. congruence.
  - split; [|done]. by apply moves_leads.
Qed.

Lemma pwp_terminator kind p :
  fit p → pwp (is_list_terminator kind) (λ b p', unmoved p p' ∧ fit p'
    ∧ (b = true → is_list_terminator kind p = Returns true p') ∧ (b = false → p_token p ≠ EndOfFile)) p.
Proof.
  intros Hp. eapply pwp_mono; [apply pwp_eq, (steps_pwp _ _ _ (steps_is_list_terminator kind) Hp)|].
  intros b p' [[Hp' Hun] E]. split_and!; [done|done|by intros ->|]. intros -> Et.
  unfold is_list_terminator, por, mbind, P_bind, token_is, pgets in E. by rewrite Et in E.
Qed.

(** ** Recovery *)

Lemma context_bit_nonzero saved kind : Z.lor saved (context_bit kind) ≠ 0.
Proof. intros [_ Hbit]%Z.lor_eq_0_iff. by destruct kind. Qed.

Lemma pwp_in_some_context p :
  fit p → p_parsing_contexts p ≠ 0 →
  pwp is_in_some_parsing_context (λ b p', unmoved p p' ∧ fit p'
    ∧ (b = true → is_in_some_parsing_context p = Returns true p')) p.
Proof.
  intros Hp Hc.
  assert (is_in_some_parsing_context p = in_some_context ALL p) as Ein.
  { unfold is_in_some_parsing_context, mbind, P_bind, pgets. by rewrite (proj2 (Z.eqb_neq _ _) Hc). }
  pose proof (pwp_eq _ _ _ (steps_pwp _ _ _ (steps_in_some_context ALL) Hp)) as Hwp.
  unfold pwp in *. rewrite Ein. apply (pwp_mono (in_some_context ALL) _ _ p Hwp).
  intros b p' [[Hp' Hun] E]. split_and!; [done|done|]. by intros ->.
Qed.

(** An error at the token changes nothing else. *)
Lemma pwp_error_here m args p :
  fit p → pwp (parse_error_at_current_token m args)
    (λ _ p', leads p p' ∧ scan_state p' = scan_state p ∧ p_token p' = p_token p) p.
Proof.
  intros Hp. pose proof (steps_pwp _ _ p (steps_error_here m args) Hp) as Hwp. unfold pwp in *.
  destruct (append_error_note (token_range (p_scanner p)) m args p) as [i Ei].
  assert (parse_error_at_current_token m args p = append_error (token_range (p_scanner p)) m args p) as E by done.
  rewrite E, Ei in *. destruct Hwp as [Hp' Hmv]. split_and!; [by apply moves_leads|done|done].
Qed.

(** Where a list stops: at a token that ends it, or that a context around it takes. The
    question was put to a parser that stood there, in the contexts [contexts]. *)
Definition stopped (kind : ParsingContext) (contexts : Z) (p : Parser) : Prop :=
  ∃ p0 p1, fit p0 ∧ scan_state p0 = scan_state p ∧ p_source_text p0 = p_source_text p
    ∧ p_parsing_contexts p0 = contexts
    ∧ (is_list_terminator kind p0 = Returns true p1 ∨ is_in_some_parsing_context p0 = Returns true p1).

Lemma stopped_unmoved kind p p1 p' :
  fit p → unmoved p p' →
  is_list_terminator kind p = Returns true p1 ∨ is_in_some_parsing_context p = Returns true p1 →
  stopped kind (p_parsing_contexts p') p'.
Proof.
  intros Hp Hun Hq. exists p, p1. pose proof (unmoved_rest _ _ Hun) as E.
  split_and!; [done|by rewrite (unmoved_state _ _ Hun)|by rewrite E|by rewrite E|done].
Qed.

Lemma pwp_abort kind p :
  fit p → p_parsing_contexts p ≠ 0 → p_token p ≠ EndOfFile →
  pwp (abort_parsing_list_or_move_to_next_token kind) (λ aborted p', leads p p'
    ∧ if aborted : bool then stopped kind (p_parsing_contexts p') p' else here p < here p') p.
Proof.
  intros Hp Hc Htok. unfold abort_parsing_list_or_move_to_next_token. apply pwp_bind.
  apply (pwp_mono _ (λ _ p', leads p p' ∧ scan_state p' = scan_state p ∧ p_token p' = p_token p)).
  { unfold parsing_context_errors. apply pwp_gets.
    destruct (context_error kind (p_token p)) as [m args]. apply pwp_bind.
    eapply pwp_mono; [by apply pwp_error_here|]. done. }
  intros [] p1 (Hl1 & Hs1 & Ht1). pose proof (leads_fit _ _ Hl1) as Hp1. apply pwp_bind.
  eapply pwp_mono; [apply pwp_in_some_context; [done|by rewrite (leads_contexts _ _ Hl1)]|].
  intros b p2 (Hun & Hp2 & Hb). assert (leads p p2) as Hl2 by by eapply leads_trans, unmoved_leads.
  destruct b.
  - apply pwp_ret. split; [done|]. apply (stopped_unmoved kind p1 p2); auto.
  - apply pwp_bind. eapply pwp_mono; [by apply pwp_next_token|]. intros k p3 [Hl3 Hadv]. apply pwp_ret.
    split; [by eapply leads_trans|]. rewrite (unmoved_token _ _ Hun), Ht1, (unmoved_here _ _ Hun) in Hadv.
    pose proof (leads_forward _ _ Hl1). specialize (Hadv Htok). lia.
Qed.

(** ** Delimited lists *)

Lemma pand_token c kind m p p' :
  pand (pand (mret c) (token_is kind)) m p = Returns true p' → p_token p = kind.
Proof.
  unfold pand, mbind, P_bind, mret, P_ret, token_is, pgets. destruct c; [|done].
  destruct (kind_eqb (p_token p) kind) eqn:E; [|done]. intros _. by apply kind_eqb_true.
Qed.

Lemma pwp_missing_comma kind p :
  fit p → pwp (missing_comma kind) (λ _ p', leads p p' ∧ (p_token p' = p_token p ∨ here p < here p')) p.
Proof.
  intros Hp. unfold missing_comma. apply pwp_token_is, pwp_bind.
  apply (pwp_mono _ (λ _ p', leads p p' ∧ (p_token p' = p_token p ∨ here p < here p'))).
  { destruct (_ && _).
    - apply pwp_bind. eapply pwp_mono; [by apply pwp_error_here|]. intros i p' (Hl & _ & Ht). by split; [|left].
    - apply pwp_bind. unfold parse_expected, parse_expected_with_diagnostic. apply pwp_token_is.
      destruct (kind_eqb (p_token p) CommaToken) eqn:E.
      + apply kind_eqb_true in E. cbn [pwhen]. do 2 apply pwp_bind. eapply pwp_mono; [by apply pwp_next_token|].
        intros k p' [Hl Hadv]. split; [done|]. right. apply Hadv. congruence.
      + apply pwp_bind. eapply pwp_mono; [by apply pwp_error_here|].
        intros i p' (Hl & _ & Ht). by split; [|left]. }
  intros [] p1 [Hl1 Hor]. pose proof (leads_fit _ _ Hl1) as Hp1.
  apply (pwp_steps unmoved); [parser_steps; apply steps_on_same_line|done|].
  intros semicolon p2 Hp2 Hun E.
  assert (leads p p2) as Hl2 by by eapply leads_trans, unmoved_leads.
  destruct semicolon; cbn [pwhen].
  - assert (p_token p2 ≠ EndOfFile) as Hne.
    { rewrite (unmoved_token _ _ Hun). intros Et.
      by rewrite (pand_token _ _ _ _ _ E) in Et. }
    apply pwp_bind. eapply pwp_mono; [by apply pwp_next_token|]. intros k p3 [Hl3 Hadv]. apply pwp_ret.
    split; [by eapply leads_trans|]. right. pose proof (leads_forward _ _ Hl2). specialize (Hadv Hne). lia.
  - apply pwp_ret. split; [done|]. rewrite (unmoved_token _ _ Hun), (unmoved_here _ _ Hun). done.
Qed.

(** A round of a delimited list in the text [t], in the contexts [c], begun behind [x]. *)
Record in_list (E : NodeId → Prop) (t : bytes) (c x : Z) (list : ListBuffer NodeId) (p : Parser) : Prop := {
  in_list_fit : fit p;
  in_list_source : p_source_text p = t;
  in_list_contexts : p_parsing_contexts p = c;
  in_list_past : x <= here p;
  in_list_holds : ∃ l, holds list l ∧ Forall E l;
}.

Lemma in_list_leads E t c x list p p' : in_list E t c x list p → leads p p' → in_list E t c x list p'.
Proof. intros [] []. split; [done|congruence|congruence|lia|done]. Qed.

Lemma in_list_push E t c x list p node :
  in_list E t c x list p → E node → ∃ list', push list node = Some list' ∧ in_list E t c x list' p.
Proof.
  intros [? ? ? ? (l & Hl & HE)] Hn. destruct (push_holds list l node Hl) as (list' & Hp & Hl').
  exists list'. split; [done|]. split; try done. exists (l ++ [node]). split; [done|].
  apply Forall_app. by split; [|constructor].
Qed.

Lemma stopped_token kind c p p' :
  stopped kind c p → scan_state p' = scan_state p → p_source_text p' = p_source_text p → stopped kind c p'.
Proof. intros (p0 & p1 & ? & ? & ? & ? & ?) Hs Ht. exists p0, p1. split_and!; try done; congruence. Qed.

Lemma pwp_delimited_body E kind parse_element t c x list p :
  tame E parse_element → c ≠ 0 → in_list E t c x list p →
  pwp (delimited_list_body kind parse_element list) (λ r p', match r with
    | inl list' => in_list E t c x list' p' ∧ here p < here p'
    | inr (Some list') => in_list E t c x list' p' ∧ stopped kind c p'
    | inr None => in_list E t c x list p'
    end) p.
Proof.
  intros Hel Hc Hin. pose proof (in_list_contexts _ _ _ _ _ _ Hin) as Ec.
  unfold delimited_list_body. apply (pwp_steps unmoved); [apply steps_is_list_element|apply Hin|].
  intros element p1 Hp1 Hun1 _. pose proof (unmoved_leads _ _ Hun1 Hp1) as Hl1.
  pose proof (in_list_leads _ _ _ _ _ _ _ Hin Hl1) as Hin1.
  destruct element.
  - apply pwp_gets, pwp_bind. eapply pwp_mono; [by apply Hel|]. intros node p2 [Hl2 HE].
    pose proof (in_list_leads _ _ _ _ _ _ _ Hin1 Hl2) as Hin2.
    destruct node as [node|]; [|done]. apply pwp_bind.
    destruct (in_list_push _ _ _ _ _ _ node Hin2 (HE _ eq_refl)) as (list' & Epush & Hin2').
    unfold plift, pwp at 1. rewrite Epush. apply pwp_bind.
    eapply pwp_mono; [by apply pwp_parse_optional; [apply Hl2|]|]. intros comma p3 [Hl3 Hcomma].
    pose proof (leads_forward _ _ Hl1) as F1. pose proof (leads_forward _ _ Hl2) as F2.
    destruct comma; [apply pwp_ret; split; [by eapply in_list_leads|lia]|]. subst p3. apply pwp_bind.
    eapply pwp_mono; [apply pwp_terminator, Hl2|]. intros done p3 (Hun3 & Hp3 & Hyes & Hno).
    pose proof (unmoved_leads _ _ Hun3 Hp3) as Hl3'. pose proof (in_list_leads _ _ _ _ _ _ _ Hin2' Hl3') as Hin3.
    destruct done.
    { apply pwp_ret. split; [done|]. rewrite <-(in_list_contexts _ _ _ _ _ _ Hin3).
      apply (stopped_unmoved kind p2 p3); [apply Hl2|done|left; auto]. }
    apply pwp_bind. eapply pwp_mono; [by apply pwp_missing_comma|]. intros [] p4 [Hl4 Hor].
    apply pwp_gets. pose proof (leads_forward _ _ Hl3') as F3. pose proof (leads_forward _ _ Hl4) as F4.
    destruct (Z.eqb_spec (token_full_start (p_scanner p1)) (token_full_start (p_scanner p4))) as [Eh|Eh];
      change (here p1 = here p4) in Eh || change (here p1 ≠ here p4) in Eh; cbn [pwhen].
    + assert (p_token p4 ≠ EndOfFile) as Hne.
      { destruct Hor as [-> |]; [|lia]. rewrite (unmoved_token _ _ Hun3). auto. }
      do 2 apply pwp_bind. eapply pwp_mono; [by apply pwp_next_token, Hl4|]. intros k p5 [Hl5 Hadv].
      do 2 apply pwp_ret. specialize (Hadv Hne). split; [|lia].
      eapply in_list_leads; [exact Hin3|]. by eapply leads_trans.
    + apply pwp_bind, pwp_ret, pwp_ret. split; [by eapply in_list_leads|lia].
  - apply pwp_bind. eapply (pwp_mono _ (λ done p', in_list E t c x list p'
      ∧ if done : bool then stopped kind c p' else here p < here p')).
    2:{ intros [] p' [? ?]; apply pwp_ret; auto. }
    unfold por. apply pwp_bind. eapply pwp_mono; [by apply pwp_terminator|].
    intros done p2 (Hun2 & Hp2 & Hyes & Hno).
    pose proof (unmoved_leads _ _ Hun2 Hp2) as Hl2. pose proof (in_list_leads _ _ _ _ _ _ _ Hin1 Hl2) as Hin2.
    destruct done.
    + apply pwp_ret. split; [done|]. rewrite <-(in_list_contexts _ _ _ _ _ _ Hin2).
      apply (stopped_unmoved kind p1 p2); auto.
    + eapply pwp_mono; [apply pwp_abort; [done|by rewrite (in_list_contexts _ _ _ _ _ _ Hin2)|]|].
      { rewrite (unmoved_token _ _ Hun2). auto. }
      intros aborted p3 [Hl3 Hab]. pose proof (in_list_leads _ _ _ _ _ _ _ Hin2 Hl3) as Hin3.
      split; [done|]. destruct aborted.
      * by rewrite <-(in_list_contexts _ _ _ _ _ _ Hin3).
      * pose proof (leads_forward _ _ Hl1). pose proof (leads_forward _ _ Hl2). lia.
Qed.

(** ** Allocation *)

(** The list [id] is allocated over the range [loc], with the nodes [l]. *)
Definition allocated (loc : TextRange) (l : list NodeId) (f : Factory) (id : NodeListId) (f' : Factory) : Prop :=
  ∃ slice f1,
    ((l = [] ∧ slice = empty_slice ∧ f1 = f)
     ∨ (l ≠ [] ∧ ((slice, f1) = alloc_nodes (map Some l) f ∨ (slice, f1) = node_slice_from_slice (map Some l) f)))
    ∧ alloc_list loc slice f1 = (id, f').

Lemma pwp_new_parsed_node_list loc list l p :
  holds list l →
  pwp (new_parsed_node_list loc list)
    (λ id p', p' = p <| p_factory := p_factory p' |> ∧ allocated loc l (p_factory p) id (p_factory p')) p.
Proof.
  intros Hl. unfold new_parsed_node_list. apply pwp_bind.
  apply (pwp_mono _ (λ slice p', p' = p <| p_factory := p_factory p' |> ∧
    ((l = [] ∧ slice = empty_slice ∧ p_factory p' = p_factory p)
     ∨ (l ≠ [] ∧ ((slice, p_factory p') = alloc_nodes (map Some l) (p_factory p)
                  ∨ (slice, p_factory p') = node_slice_from_slice (map Some l) (p_factory p)))))).
  2:{ intros slice p1 [E1 Hs]. unfold factory_op, pwp.
      destruct (alloc_list loc slice (p_factory p1)) as [id f'] eqn:Ea. split.
      - rewrite E1. done.
      - by exists slice, (p_factory p1). }
  unfold finish_list_buffer. rewrite (is_empty_holds list l Hl). case_bool_decide as He.
  { split; [by destruct p|by left]. }
  destruct (if inline_buffers then inline_nodes list else None) as [values|] eqn:Ev.
  - destruct inline_buffers; [|done]. apply (inline_nodes_holds _ l) in Ev; [|done]. subst values.
    unfold factory_op, pwp. destruct (node_slice_from_slice _ _) as [slice f'] eqn:Ea.
    split; [done|]. right. split; [done|]. by right.
  - apply pwp_bind. unfold plift, pwp at 1. rewrite (into_vec_holds list l Hl).
    unfold factory_op, pwp. destruct (alloc_nodes _ _) as [slice f'] eqn:Ea.
    split; [done|]. right. split; [done|]. by left.
Qed.

Lemma start_list_holds : holds start_list_buffer [].
Proof. unfold start_list_buffer. destruct inline_buffers; [apply inline_holds|apply heap_holds]. Qed.

(** ** Delimited lists *)

Lemma pwp_delimited_list E kind parse_element p :
  tame E parse_element → fit p →
  pwp (parse_delimited_list kind parse_element) (λ r p', leads p p' ∧ ∀ list, r = Some list →
      stopped kind (Z.lor (p_parsing_contexts p) (context_bit kind)) p'
      ∧ ∃ l f, Forall E l ∧ allocated (range_new (here p) (here p')) l f list (p_factory p')) p.
Proof.
  intros Hel Hp. unfold parse_delimited_list. apply pwp_gets. apply pwp_bind.
  unfold enter_context. apply pwp_gets, pwp_bind. unfold pwp at 1, pmodify. apply pwp_ret.
  set (c := Z.lor (p_parsing_contexts p) (context_bit kind)).
  set (p1 := p <| p_parsing_contexts := c |>). apply pwp_bind.
  set (I := in_list E (p_source_text p) c (here p)).
  apply (pwp_mono _ (λ r p', match r with
    | Some list => I list p' ∧ stopped kind c p' | None => ∃ list, I list p' end)).
  { apply (pwp_loop _ I (λ _ p', text_length (p_source_text p) - here p')).
    - split; [by apply (fit_ext p)|done|done|done|]. exists []. split; [apply start_list_holds|done].
    - pose proof (here_range p Hp). change (here p1) with (here p). change (p_source_text p1) with (p_source_text p). lia.
    - intros list p2 Hin. pose proof (here_range p2 (in_list_fit _ _ _ _ _ _ Hin)) as Hr.
      rewrite (in_list_source _ _ _ _ _ _ Hin) in Hr. split; [lia|].
      eapply pwp_mono; [apply pwp_delimited_body; [done| |exact Hin]|]; [apply context_bit_nonzero|].
      intros [list'|[list'|]] p3; [|done|by exists list]. intros [Hin3 Hlt]. split; [done|lia]. }
  intros r p2 Hr. apply pwp_bind. unfold leave_context, pwp at 1, pmodify.
  set (p3 := p2 <| p_parsing_contexts := p_parsing_contexts p |>).
  assert (∀ list, I list p2 → leads p p3) as Hleads.
  { intros list [Hf Ht _ Hx _]. split; [by apply (fit_ext p2)|done|done|done]. }
  destruct r as [list|].
  - destruct Hr as [Hin Hstop]. apply pwp_gets. apply pwp_bind.
    destruct (in_list_holds _ _ _ _ _ _ Hin) as (l & Hl & HE).
    eapply pwp_mono; [by apply (pwp_new_parsed_node_list _ _ l)|]. intros id p4 [E4 Hal]. apply pwp_ret.
    assert (leads p3 p4) as Hl4.
    { pose proof (leads_fit _ _ (Hleads _ Hin)) as Hf3.
      rewrite E4. split; [by apply (fit_ext p3)|done|done|done]. }
    assert (here p4 = here p3 ∧ scan_state p4 = scan_state p3 ∧ p_source_text p4 = p_source_text p3)
      as (Eh & Es & Ex) by (by rewrite E4).
    split; [by eapply leads_trans; [apply (Hleads _ Hin)|]|]. intros ? [= <-]. split.
    + apply (stopped_token kind c p3); [|done|done]. by apply (stopped_token kind c p2).
    + exists l, (p_factory p3). split; [done|]. by rewrite Eh.
  - destruct Hr as [list Hin]. apply pwp_ret. split; [by apply (Hleads list)|done].
Qed.

(** ** Lists without a delimiter *)

(** An element that is not empty. *)
Definition tame_index (parse_element : nat → P NodeId) : Prop :=
  ∀ n p, fit p → p_token p ≠ EndOfFile → pwp (parse_element n) (λ _ p', leads p p' ∧ here p < here p') p.

(** The reparsed nodes that a list leaves to the list around it. *)
Definition lifted (kind : ParsingContext) (f : Factory) (node : NodeId) : bool :=
  is_js_type_alias_or_import node f && negb (context_in kind [SourceElements; BlockStatements]).

Lemma drain_reparsed_holds kind reparsed f outer list l :
  holds list l →
  ∃ list', drain_reparsed kind reparsed f outer list = Some (outer ++ filter (lifted kind f) reparsed, list')
    ∧ holds list' (l ++ filter (λ node, negb (lifted kind f node)) reparsed).
Proof.
  revert outer list l. induction reparsed as [|node reparsed IH]; intros outer list l Hl.
  { exists list. by rewrite !app_nil_r. }
  cbn [drain_reparsed]. fold (lifted kind f node). rewrite !filter_cons.
  destruct (lifted kind f node); cbn [negb].
  - destruct (IH (outer ++ [node]) list l Hl) as (list' & Hd & Hl'). exists list'.
    rewrite Hd, <-app_assoc. rewrite decide_True by done. rewrite decide_False by (by intros []). by split.
  - destruct (push_holds list l node Hl) as (list1 & -> & Hl1).
    destruct (IH outer list1 (l ++ [node]) Hl1) as (list' & Hd & Hl'). exists list'. cbn [mbind option_bind].
    rewrite Hd. rewrite decide_False by (by intros []). rewrite decide_True by done. by rewrite <-app_assoc in Hl'.
Qed.

(** A round of a list in the text [t], in the contexts [c], begun behind [x]. *)
Record in_index (t : bytes) (c x : Z) (reparsed : list NodeId)
    (st : list NodeId * ListBuffer NodeId) (p : Parser) : Prop := {
  in_index_list : in_list (λ _, True) t c x st.2 p;
  in_index_outer : reparsed `prefix_of` st.1;
}.

Lemma in_list_any t c x list l p :
  fit p → p_source_text p = t → p_parsing_contexts p = c → x <= here p → holds list l →
  in_list (λ _, True) t c x list p.
Proof. intros. split; try done. exists l. split; [done|]. by apply Forall_true. Qed.

Lemma pwp_list_index_body kind parse_element t c x reparsed st p :
  tame_index parse_element → c ≠ 0 → in_index t c x reparsed st p →
  pwp (list_index_body kind parse_element st) (λ r p', match r with
    | inl st' => in_index t c x reparsed st' p' ∧ here p < here p'
    | inr st' => in_index t c x reparsed st' p' ∧ stopped kind c p'
    end) p.
Proof.
  intros Hel Hc Hst. destruct st as [outer list]. destruct Hst as [Hin Hpre]. cbn [fst snd] in *.
  pose proof (in_list_fit _ _ _ _ _ _ Hin) as Hp.
  unfold list_index_body. apply pwp_bind. eapply pwp_mono; [by apply pwp_terminator|].
  intros done p1 (Hun1 & Hp1 & Hyes & Hno). pose proof (unmoved_leads _ _ Hun1 Hp1) as Hl1.
  pose proof (in_list_leads _ _ _ _ _ _ _ Hin Hl1) as Hin1. destruct done.
  { apply pwp_ret. split; [done|]. rewrite <-(in_list_contexts _ _ _ _ _ _ Hin1).
    apply (stopped_unmoved kind p p1); auto. }
  apply (pwp_steps unmoved); [apply steps_is_list_element|done|]. intros element p2 Hp2 Hun2 _.
  pose proof (unmoved_leads _ _ Hun2 Hp2) as Hl2. pose proof (in_list_leads _ _ _ _ _ _ _ Hin1 Hl2) as Hin2.
  assert (p_token p2 ≠ EndOfFile) as Hne by (rewrite (unmoved_token _ _ Hun2), (unmoved_token _ _ Hun1); auto).
  pose proof (leads_forward _ _ Hl1) as F1. pose proof (leads_forward _ _ Hl2) as F2. destruct element.
  - apply pwp_bind. eapply pwp_mono; [by apply Hel|]. intros node p3 [Hl3 Hlt].
    pose proof (in_list_leads _ _ _ _ _ _ _ Hin2 Hl3) as [Hf3 Ht3 Hc3 Hx3 (l & Hl & _)].
    do 2 apply pwp_gets. apply pwp_bind. unfold pwp at 1, pmodify. apply pwp_bind.
    destruct (drain_reparsed_holds kind (p_reparse_list p3) (p_factory p3) outer list l Hl)
      as (list1 & -> & Hlist1). unfold plift at 1, pwp at 1. apply pwp_bind.
    destruct (push_holds list1 _ node Hlist1) as (list2 & Epush & Hlist2). cbn iota beta.
    rewrite Epush. unfold plift, pwp at 1. apply pwp_ret.
    set (p4 := p3 <| p_reparse_list := [] |>). split; [split; cbn [fst snd]|].
    + apply (in_list_any _ _ _ _ _ _ (fit_ext p3 p4 Hf3 eq_refl eq_refl eq_refl eq_refl) Ht3 Hc3 Hx3 Hlist2).
    + by apply prefix_app_r.
    + change (here p4) with (here p3). lia.
  - apply pwp_bind. eapply pwp_mono; [apply (pwp_abort kind p2 Hp2)|]; [|done|].
    { by rewrite (in_list_contexts _ _ _ _ _ _ Hin2). }
    intros aborted p3 [Hl3 Hab]. pose proof (in_list_leads _ _ _ _ _ _ _ Hin2 Hl3) as Hin3. apply pwp_ret.
    destruct aborted; (split; [done|]).
    + by rewrite <-(in_list_contexts _ _ _ _ _ _ Hin3).
    + lia.
Qed.

Lemma pwp_list_index kind parse_element p :
  tame_index parse_element → fit p →
  pwp (parse_list_index kind parse_element) (λ list p', leads p p' ∧ (∃ l, holds list l)
      ∧ stopped kind (Z.lor (p_parsing_contexts p) (context_bit kind)) p'
      ∧ p_reparse_list p `prefix_of` p_reparse_list p') p.
Proof.
  intros Hel Hp. unfold parse_list_index. apply pwp_bind.
  unfold enter_context. apply pwp_gets, pwp_bind. unfold pwp at 1, pmodify at 1. apply pwp_ret, pwp_gets.
  apply pwp_bind. unfold pwp at 1, pmodify at 1.
  set (c := Z.lor (p_parsing_contexts p) (context_bit kind)).
  change (p_reparse_list (p <| p_parsing_contexts := c |>)) with (p_reparse_list p).
  set (p1 := p <| p_parsing_contexts := c |> <| p_reparse_list := [] |>). apply pwp_bind.
  set (I := in_index (p_source_text p) c (here p) (p_reparse_list p)).
  apply (pwp_mono _ (λ st p', I st p' ∧ stopped kind c p')).
  { apply (pwp_loop _ I (λ _ p', text_length (p_source_text p) - here p')).
    - split; [|done]. by apply (in_list_any _ _ _ _ []); [by apply (fit_ext p)|..|apply start_list_holds].
    - pose proof (here_range p Hp). change (here p1) with (here p).
      change (p_source_text p1) with (p_source_text p). lia.
    - intros st p2 Hin. pose proof (in_index_list _ _ _ _ _ _ Hin) as Hlist.
      pose proof (here_range p2 (in_list_fit _ _ _ _ _ _ Hlist)) as Hr.
      rewrite (in_list_source _ _ _ _ _ _ Hlist) in Hr. split; [lia|].
      eapply pwp_mono; [apply pwp_list_index_body; [done| |exact Hin]|]; [apply context_bit_nonzero|].
      intros [st'|st'] p3 [Hin3 Hrest]; (split; [done|]); [lia|done]. }
  intros [outer list] p2 [[[Hf Ht _ Hx (l & Hl & _)] Hpre] Hstop]. cbn [fst snd] in *.
  do 2 (apply pwp_bind; unfold pwp at 1, leave_context, pmodify at 1). apply pwp_ret.
  set (p3 := p2 <| p_reparse_list := outer |> <| p_parsing_contexts := p_parsing_contexts p |>).
  split_and!; [by split; [apply (fit_ext p2)|..]|by exists l| |done].
  by apply (stopped_token kind c p2).
Qed.

(** ** The element of one token *)

Lemma pwp_parse_token_node p :
  fit p → pwp parse_token_node (λ _ p', leads p p' ∧ (p_token p ≠ EndOfFile → here p < here p')) p.
Proof.
  intros Hp. unfold parse_token_node. do 2 apply pwp_gets. apply pwp_bind.
  eapply pwp_mono; [by apply pwp_next_token|]. intros k p1 [Hl Hadv]. apply pwp_bind.
  unfold factory_op, pwp at 1. destruct (new_token _ _) as [node f].
  set (p2 := p1 <| p_factory := f |>). unfold finish_node. apply pwp_gets. unfold finish_node_with_end.
  apply pwp_gets. do 2 (apply pwp_bind; unfold pwp at 1, pmodify at 1). apply pwp_ret.
  set (p3 := _ <| p_factory := _ |>). change (here p3) with (here p1). split; [|done].
  destruct Hl as [Hf ? ? ?]. split; [by apply (fit_ext p1)|done|done|done].
Qed.
End Spec.

(** A delimited list ends, whatever its elements are parsed by: an element parser
    that leaves the parser fit, does not go back and gives the contexts back - it may
    stand still, report, allocate and give up. Unless the element parser gives up, the
    list is allocated over the range from where it began to where the parser now stands,
    it holds only nodes the element parser gave, the contexts are those from before, and
    the parser stands at a token that ends the list or that a list around it takes. *)
Theorem delimited_list_ends `{ParserFactory, JsNum, NumBigint, IdentifierTables, OwnerAllocator}
    E kind parse_element p :
  tame E parse_element → fit p →
  pwp (parse_delimited_list kind parse_element) (λ r p', leads p p' ∧ ∀ list, r = Some list →
      stopped kind (Z.lor (p_parsing_contexts p) (context_bit kind)) p'
      ∧ ∃ l f, Forall E l ∧ allocated (range_new (here p) (here p')) l f list (p_factory p')) p.
Proof. apply pwp_delimited_list. Qed.

(** [C15] A list without a delimiter ends, if its elements are not empty: it stops at a
    token that ends it or that a list around it takes, not before where it began, gives
    the contexts back, only adds to the declarations that wait to be put into the list
    around it, and is allocated over the range from where it began to where it ended. *)
Theorem list_ends `{ParserFactory, JsNum, NumBigint, IdentifierTables, OwnerAllocator}
    kind (parse_element : P NodeId) p :
  tame_index (λ _, parse_element) → fit p →
  pwp (parse_list kind parse_element) (λ list p', leads p p'
      ∧ stopped kind (Z.lor (p_parsing_contexts p) (context_bit kind)) p'
      ∧ p_reparse_list p `prefix_of` p_reparse_list p'
      ∧ ∃ l f, allocated (range_new (here p) (here p')) l f list (p_factory p')) p.
Proof.
  intros Hel Hp. unfold parse_list. apply pwp_gets, pwp_bind.
  eapply pwp_mono; [by apply pwp_list_index|]. intros list p1 (Hl & (l & Hlist) & Hstop & Hpre).
  apply pwp_gets. eapply pwp_mono; [by apply (pwp_new_parsed_node_list _ _ l)|]. intros id p2 [E2 Hal].
  assert (here p2 = here p1 ∧ scan_state p2 = scan_state p1 ∧ p_source_text p2 = p_source_text p1
    ∧ p_reparse_list p2 = p_reparse_list p1) as (Eh & Es & Ex & Er) by (by rewrite E2).
  split_and!.
  - eapply leads_trans; [done|]. rewrite E2. destruct Hl as [Hf _ _ _].
    split; [by apply (fit_ext p1)|done|done|done].
  - by eapply stopped_token.
  - by rewrite Er.
  - exists l, (p_factory p1). rewrite Eh. done.
Qed.

#[local] Existing Instances plain_numbers plain_bigints latin_letters plain_factory owner_seven.

(** Every token is an element. *)
Definition any_token : P (option NodeId) := node ← parse_token_node; mret (Some node).

Lemma any_token_tame : tame (λ _, True) any_token.
Proof.
  intros p Hp. apply pwp_bind. eapply pwp_mono; [by apply pwp_parse_token_node|]. intros node p' [Hl _].
  by apply pwp_ret.
Qed.

Lemma delimited_list_ends_witness :
  ∃ p, parser_at arrows = Some p ∧ fit p ∧ tame (λ _, True) any_token
  ∧ pwp (parse_delimited_list ArgumentExpressions any_token) (λ r p', leads p p' ∧ ∀ list, r = Some list →
      stopped ArgumentExpressions (Z.lor (p_parsing_contexts p) (context_bit ArgumentExpressions)) p'
      ∧ ∃ l f, Forall (λ _, True) l ∧ allocated (range_new (here p) (here p')) l f list (p_factory p')) p.
Proof.
  destruct (parser_at arrows) as [p|] eqn:Hp; [|by vm_compute in Hp].
  assert (fit p) as Hfit by by apply (parser_at_fit arrows); [apply arrows_ok..|].
  exists p. split; [reflexivity|]. split; [exact Hfit|]. split; [exact any_token_tame|].
  exact (delimited_list_ends (λ _, True) ArgumentExpressions any_token p any_token_tame Hfit).
Defined.

Lemma list_ends_witness :
  ∃ p, parser_at arrows = Some p ∧ fit p ∧ tame_index (λ _, parse_token_node)
  ∧ pwp (parse_list SourceElements parse_token_node) (λ list p', leads p p'
      ∧ stopped SourceElements (Z.lor (p_parsing_contexts p) (context_bit SourceElements)) p'
      ∧ p_reparse_list p `prefix_of` p_reparse_list p'
      ∧ ∃ l f, allocated (range_new (here p) (here p')) l f list (p_factory p')) p.
Proof.
  destruct (parser_at arrows) as [p|] eqn:Hp; [|by vm_compute in Hp].
  assert (fit p) as Hfit by by apply (parser_at_fit arrows); [apply arrows_ok..|].
  assert (tame_index (λ _, parse_token_node)) as Hel.
  { intros n p0 Hp0 Hne. eapply pwp_mono; [by apply pwp_parse_token_node|]. intros node p' [Hl Hadv]. auto. }
  exists p. split; [reflexivity|]. split; [exact Hfit|]. split; [exact Hel|].
  exact (list_ends SourceElements parse_token_node p Hel Hfit).
Defined.
