(* ===== verification/Pragmas.v ===== *)
(** Pragmas: the directives in the comments at the beginning of a file, and the fields of
    the file they set: [crates/tsr_parser/src/pragmas.rs]. *)

From stdpp Require Import gmap sorting.
From S2P Require Import Prelude Wtf8 TextEdits PathComponents PathCompare ScannerKinds ScannerState ScannerWp.
From S2P Require Import ScannerTrivia ScannerComments ParserCore.

Import Comment Ranges.
Local Open Scope Z_scope.

(** ** Reading a comment *)

Definition matches_text (t : bytes) (p : Z) (needle : bytes) : option bool :=
  rest ← text_tail t p; Some (starts_with needle rest).

Definition is_pragma_blank (b : Z) : bool := (b =? ch " ") || (b =? 9).
Definition skip_blanks (t : bytes) (p : Z) : Z := p + count_while is_pragma_blank (drop (Z.to_nat p) t).

Definition is_not_blank (b : Z) : bool := negb (is_pragma_blank b || (b =? 13) || (b =? 10)).
Definition skip_non_blanks (t : bytes) (p : Z) : Z := p + count_while is_not_blank (drop (Z.to_nat p) t).

Definition skip_to (t : bytes) (p : Z) (needle : bytes) : option Z :=
  if text_length t <=? p then None
  else if bool_decide (needle = []) then Some p
  else (λ index, p + Z.of_nat index) <$> find_sub needle (drop (Z.to_nat p) t).

Definition line_end_body (t : bytes) (p : Z) : option (Z + Z) :=
  if p <? text_length t then
    '(rune, size) ← decode_text t p;
    Some (if is_line_break rune then inr p else inl (p + size))
  else Some (inr (text_length t)).
Definition line_end_pos (t : bytes) (p : Z) : option Z := while_text t (line_end_body t) p.

Definition is_name_byte (b : Z) : bool := is_ascii_alphabetic b || (b =? ch "-").
Definition extract_name (t : bytes) (p : Z) : option bytes :=
  name ← text_slice t p (p + count_while is_name_byte (drop (Z.to_nat p) t));
  Some (map to_ascii_lowercase name).

(** The inner option is the result of the source. *)
Definition extract_quoted_string (t : bytes) (p : Z) : option (option bytes) :=
  if p =? text_length t then Some None
  else
    quote ← text_at t p;
    if negb ((quote =? ch "'") || (quote =? 34)) then Some None
    else
      let e := p + 1 + count_while (λ b, negb (b =? quote)) (drop (Z.to_nat (p + 1)) t) in
      if e <? text_length t then value ← text_slice t (p + 1) e; Some (Some value) else Some None.

(** ** Pragmas *)

Record PragmaArgument := MkArgument { arg_loc : TextRange; arg_name : bytes; arg_value : bytes }.
Record Pragma := MkPragma {
  pragma_range : CommentRange;
  pragma_name : bytes;
  pragma_args : gmap bytes PragmaArgument;
}.

(** One attribute of a [reference] element. *)
Definition reference_body (range : CommentRange) (t : bytes) (st : Z * gmap bytes PragmaArgument)
  : option ((Z * gmap bytes PragmaArgument) + gmap bytes PragmaArgument) :=
  let '(p, args) := st in
  let p := skip_blanks t p in
  closed ← matches_text t p (bs "/>");
  if closed : bool then Some (inr args)
  else
    name ← extract_name t p;
    if bool_decide (name = []) then Some (inr args)
    else
      let p := skip_blanks t (p + text_length name) in
      equals ← matches_text t p (bs "=");
      if negb equals then Some (inr args)
      else
        let p := skip_blanks t (p + 1) in
        value ← extract_quoted_string t p;
        match value with
        | None => Some (inr args)
        | Some value =>
            let start := TextEdits.pos (loc range) + p + 1 in
            let arg := MkArgument (range_new start (start + text_length value)) name value in
            Some (inl (p + text_length value + 2, <[name := arg]> args))
        end.

Definition extract_single_line (range : CommentRange) (t : bytes) : option (list Pragma) :=
  triple_slash ← matches_text t 2 (bs "/");
  let p := skip_blanks t (if triple_slash : bool then 3 else 2) in
  element ← (if triple_slash : bool then matches_text t p (bs "<") else Some false);
  if element : bool then
    name ← extract_name t (p + 1);
    if negb (bytes_eqb name (bs "reference")) then Some []
    else
      args ← while_text t (reference_body range t) (p + 10, ∅);
      Some [MkPragma range (bs "reference") args]
  else
    at_sign ← matches_text t p (bs "@");
    if at_sign : bool then
      name ← extract_name t (p + 1);
      if negb (bytes_eqb name (bs "ts-check")) && negb (bytes_eqb name (bs "ts-nocheck")) then Some []
      else Some [MkPragma range name ∅]
    else Some [].

Section Pragmas.
Context `{CaseTables}.

Definition is_jsx_pragma (name : bytes) : bool :=
  bytes_eqb name (bs "jsx") || bytes_eqb name (bs "jsxfrag") || bytes_eqb name (bs "jsximportsource")
  || bytes_eqb name (bs "jsxruntime").

(** One at sign of a block comment. *)
Definition block_pragma_body (range : CommentRange) (t : bytes) (st : Z * list Pragma)
  : option ((Z * list Pragma) + list Pragma) :=
  let '(p, pragmas) := st in
  match skip_to t p (bs "@") with
  | None => Some (inr pragmas)
  | Some p =>
      let name_pos := p + 1 in
      let name_end := skip_non_blanks t name_pos in
      if name_end =? name_pos then Some (inl (p + 1, pragmas))
      else
        line_end ← line_end_pos t p;
        name ← text_slice t name_pos name_end;
        let name := to_lower_go name in
        let start := skip_blanks t name_end in
        let e := skip_non_blanks t start in
        if is_jsx_pragma name && negb (e =? start) then
          value ← text_slice t start e;
          let arg := MkArgument
            (range_new (TextEdits.pos (loc range) + start) (TextEdits.pos (loc range) + e))
            (bs "factory") value in
          Some (inl (line_end, pragmas ++ [MkPragma range name {[bs "factory" := arg]}]))
        else Some (inl (line_end, pragmas))
  end.

Definition extract_multi_line (range : CommentRange) (t : bytes) : option (list Pragma) :=
  let t := default t (strip_suffix (bs "*/") t) in
  while_text t (block_pragma_body range t) (2, []).

Definition extract_pragmas (range : CommentRange) (t : bytes) : option (list Pragma) :=
  if kind_eqb (kind range) SingleLineCommentTrivia then extract_single_line range t
  else if kind_eqb (kind range) MultiLineCommentTrivia then extract_multi_line range t
  else Some [].

Fixpoint pragmas_of (t : bytes) (comments : list CommentRange) : option (list Pragma) :=
  match comments with
  | [] => Some []
  | c :: comments =>
      comment ← text_slice t (TextEdits.pos (loc c)) (TextEdits.end_ (loc c));
      pragmas ← extract_pragmas c comment;
      rest ← pragmas_of t comments;
      Some (pragmas ++ rest)
  end.

Definition get_comment_pragmas (t : bytes) : option (list Pragma) :=
  comments ← get_leading_comment_ranges t 0; pragmas_of t comments.
End Pragmas.

(** ** The fields of a file *)

Record FileReference := MkReference {
  ref_loc : TextRange;
  ref_file_name : bytes;
  ref_resolution_mode : Z;
  ref_preserve : bool;
}.
Record CheckJsDirective := MkCheckJs { check_enabled : bool; check_range : CommentRange }.

Record PragmaFields := MkFields {
  check_js_directive : option CheckJsDirective;
  referenced_files : list FileReference;
  type_reference_directives : list FileReference;
  lib_reference_directives : list FileReference;
}.
#[export] Instance eta_fields : Eta PragmaFields := λ f,
  MkFields (check_js_directive f) (referenced_files f) (type_reference_directives f)
    (lib_reference_directives f).

Section Fields.
Context `{ParserFactory}.

Definition parse_resolution_mode (mode : bytes) (p e : Z) : P Z :=
  if bytes_eqb mode (bs "import") then mret 99
  else if bytes_eqb mode (bs "require") then mret 1
  else parse_error_at p e X_resolution_mode_should_be_either_require_or_import [];; mret 0.

Definition is_true (arg : option PragmaArgument) : bool :=
  match arg with Some arg => bytes_eqb (arg_value arg) (bs "true") | None => false end.

Definition reference_to (arg : PragmaArgument) (resolution_mode : Z) (preserve : bool) : FileReference :=
  MkReference (arg_loc arg) (arg_value arg) resolution_mode preserve.

Definition process_reference (pragma : Pragma) (f : PragmaFields) : P PragmaFields :=
  let get key := pragma_args pragma !! key in
  let preserve := is_true (get (bs "preserve")) in
  if is_true (get (bs "no-default-lib")) then mret f
  else
    match get (bs "types"), get (bs "lib"), get (bs "path") with
    | Some arg, _, _ =>
        mode ← match get (bs "resolution-mode") with
               | Some mode =>
                   parse_resolution_mode (arg_value mode) (TextEdits.pos (arg_loc mode))
                     (TextEdits.end_ (arg_loc mode))
               | None => mret 0
               end;
        mret (f <| type_reference_directives :=
          type_reference_directives f ++ [reference_to arg mode preserve] |>)
    | None, Some arg, _ =>
        mret (f <| lib_reference_directives := lib_reference_directives f ++ [reference_to arg 0 preserve] |>)
    | None, None, Some arg =>
        mret (f <| referenced_files := referenced_files f ++ [reference_to arg 0 preserve] |>)
    | None, None, None =>
        parse_error_at_range (loc (pragma_range pragma)) Invalid_reference_directive_syntax [];; mret f
    end.

Definition process_check (pragma : Pragma) (f : PragmaFields) : PragmaFields :=
  let later := match check_js_directive f with
               | None => true
               | Some d => TextEdits.pos (loc (check_range d)) <? TextEdits.pos (loc (pragma_range pragma))
               end in
  if later then
    f <| check_js_directive := Some (MkCheckJs (bytes_eqb (pragma_name pragma) (bs "ts-check")) (pragma_range pragma)) |>
  else f.

Definition process_pragma (pragma : Pragma) (f : PragmaFields) : P PragmaFields :=
  let name := pragma_name pragma in
  if bytes_eqb name (bs "reference") then process_reference pragma f
  else if bytes_eqb name (bs "ts-check") || bytes_eqb name (bs "ts-nocheck") then mret (process_check pragma f)
  else if is_jsx_pragma name then mret f
  else ppanic.

Fixpoint process_pragmas (pragmas : list Pragma) (f : PragmaFields) : P PragmaFields :=
  match pragmas with
  | [] => mret f
  | pragma :: pragmas => f ← process_pragma pragma f; process_pragmas pragmas f
  end.

(** From the pragmas of the source file; where it keeps them and the fields is left out. *)
Definition process_pragmas_into_fields (pragmas : list Pragma) : P PragmaFields :=
  process_pragmas pragmas (MkFields None [] [] []).
End Fields.

#[local] Existing Instance ascii_tables.
Definition directives : bytes :=
  bs "#!x" ++ [10] ++ bs "/// <reference path='a.ts' types= " ++ [34] ++ bs "b" ++ [34] ++ bs "/>" ++ [10]
  ++ bs "// @ts-nocheck" ++ [10] ++ bs "/* @jsx h" ++ [10] ++ bs " @ @JsxFrag F*/ // @ts-check".
