(* ===== verification/PragmasSpec.v ===== *)
(** Reading the pragmas of a file never panics; every argument is at the place in the text
    that it says, and the fields of the file follow from the pragmas. *)

From stdpp Require Import gmap sorting.
From S2P Require Import Prelude Wtf8 TextEdits PathComponents PathCompare BigInt ScannerKinds ScannerState ScannerWp.
From S2P Require Import ScannerTrivia ScannerComments ScannerDigits ScannerRescanSpec ParserCore ParserWp ParserStep ParserLookAhead Pragmas.

Import Comment Ranges.
Local Open Scope Z_scope.

(** ** Reading a comment *)

Lemma count_from_range f t p :
  0 <= p <= text_length t → p <= p + count_while f (drop (Z.to_nat p) t) <= text_length t.
Proof.
  intros Hp. pose proof (count_while_range f (drop (Z.to_nat p) t)) as Hc. rewrite length_drop in Hc.
  unfold text_length in *. lia.
Qed.

Lemma skip_blanks_range t p : 0 <= p <= text_length t → p <= skip_blanks t p <= text_length t.
Proof. apply count_from_range. Qed.
Lemma skip_non_blanks_range t p : 0 <= p <= text_length t → p <= skip_non_blanks t p <= text_length t.
Proof. apply count_from_range. Qed.

Lemma matches_text_some t p needle :
  0 <= p <= text_length t →
  ∃ b, matches_text t p needle = Some b ∧ (b = true → p + text_length needle <= text_length t).
Proof.
  intros Hp. unfold matches_text. rewrite text_tail_some by done. eexists. split; [done|].
  intros [rest Hrest]%starts_with_true. apply (f_equal length) in Hrest.
  rewrite length_drop, length_app in Hrest. unfold text_length in *. lia.
Qed.

Lemma extract_name_some t p :
  0 <= p <= text_length t →
  ∃ name, extract_name t p = Some name ∧ p + text_length name <= text_length t.
Proof.
  intros Hp. pose proof (count_from_range is_name_byte t p Hp) as Hr. unfold extract_name.
  rewrite text_slice_some by lia. eexists. split; [done|].
  set (e := p + _) in *. unfold text_length at 1. rewrite length_map.
  fold (text_length (sub t p e)). rewrite length_sub; lia.
Qed.

Lemma extract_quoted_string_some t p :
  0 <= p <= text_length t →
  ∃ r, extract_quoted_string t p = Some r
    ∧ ∀ value, r = Some value → p + text_length value + 2 <= text_length t
        ∧ sub t (p + 1) (p + 1 + text_length value) = value.
Proof.
  intros Hp. unfold extract_quoted_string. destruct (Z.eqb_spec p (text_length t)); [by eexists|].
  rewrite char_of_at by lia. cbn [mbind option_bind]. destruct (negb _); [by eexists|].
  pose proof (count_from_range (λ b, negb (b =? char_of t p)) t (p + 1) ltac:(lia)) as Hr.
  set (e := p + 1 + _) in *. destruct (Z.ltb_spec e (text_length t)); [|by eexists].
  rewrite text_slice_some by lia. eexists. split; [done|]. intros ? [= <-].
  rewrite length_sub by lia. split; [lia|]. f_equal. lia.
Qed.

Lemma skip_to_at t p r :
  0 <= p → skip_to t p (bs "@") = Some r → p <= r < text_length t ∧ text_at t r = Some (ch "@").
Proof.
  intros Hp. unfold skip_to. destruct (Z.leb_spec (text_length t) p); [done|].
  rewrite bool_decide_false by done. intros (n & Hn & ->)%fmap_Some.
  apply find_sub_Some in Hn as (a & b & Hab & Hlen).
  assert (drop (Z.to_nat p) t !! n = Some (ch "@")) as Hc by by rewrite Hab, lookup_app_r, Hlen, Nat.sub_diag by lia.
  rewrite lookup_drop in Hc. replace (Z.to_nat p + n)%nat with (Z.to_nat (p + Z.of_nat n)) in Hc by lia.
  pose proof (lookup_lt_Some _ _ _ Hc). unfold text_at, text_length in *.
  destruct (Z.ltb_spec (p + Z.of_nat n) 0); [lia|]. split; [lia|done].
Qed.

Lemma line_end_pos_some t p :
  0 <= p < text_length t → is_line_break (decode_at t p).1 = false →
  ∃ e, line_end_pos t p = Some e ∧ p < e <= text_length t.
Proof.
  intros Hp Hc. unfold line_end_pos.
  apply (while_text_total t (line_end_body t) p (λ e, p < e <= text_length t)); [lia|].
  intros q Hq. unfold line_end_body. destruct (Z.ltb_spec q (text_length t)).
  - rewrite decode_text_some by lia. pose proof (decode_at_size t q ltac:(lia)).
    cbn [mbind option_bind]. destruct (decode_at t q) as [rune size] eqn:E. eexists. split; [done|].
    destruct (is_line_break rune) eqn:Er; [|cbn in *; lia].
    destruct (decide (q = p)) as [->|]; [|lia]. rewrite E in Hc. cbn in Hc. congruence.
  - eexists. split; [done|]. cbn. lia.
Qed.

Lemma sub_of_sub t s e a b :
  0 <= s → s <= e <= text_length t → 0 <= a <= b → b <= e - s →
  sub (sub t s e) a b = sub t (s + a) (s + b).
Proof.
  intros Hs He Ha Hb. unfold sub. replace (Z.to_nat (s + a)) with (Z.to_nat s + Z.to_nat a)%nat by lia.
  rewrite <-drop_drop, skipn_firstn_comm, take_take. f_equal. lia.
Qed.

Section Spec.
Context (T : bytes) (T_bytes : all_bytes T) (T_fits : text_length T <= I32_MAX).

(** An argument stands inside its comment, where it says. *)
Record arg_at (c : CommentRange) (key : bytes) (a : PragmaArgument) : Prop := {
  arg_at_name : arg_name a = key;
  arg_at_inside : TextEdits.pos (loc c) <= TextEdits.pos (arg_loc a) <= TextEdits.end_ (arg_loc a)
    ∧ TextEdits.end_ (arg_loc a) <= TextEdits.end_ (loc c);
  arg_at_text : sub T (TextEdits.pos (arg_loc a)) (TextEdits.end_ (arg_loc a)) = arg_value a;
}.

Definition is_check_pragma (g : Pragma) : bool :=
  bytes_eqb (pragma_name g) (bs "ts-check") || bytes_eqb (pragma_name g) (bs "ts-nocheck").

(** A pragma of the comment [c]: its range is that of the comment, and a line comment has
    other pragmas than a block comment. *)
Record pragma_at (c : CommentRange) (g : Pragma) : Prop := {
  pragma_at_range : pragma_range g = c;
  pragma_at_args : map_Forall (arg_at c) (pragma_args g);
  pragma_at_name : if kind_eqb (kind c) SingleLineCommentTrivia
    then pragma_name g = bs "reference" ∨ pragma_args g = ∅ ∧ is_check_pragma g = true
    else is_jsx_pragma (pragma_name g) = true ∧ ∃ a, pragma_args g = {[bs "factory" := a]};
}.

(** *** One comment *)

Section OneComment.
Context (c : CommentRange) (s e : Z) (c_loc : loc c = MkRange s e) (s_at : 0 <= s)
  (e_at : s + 2 <= e <= text_length T).

Lemma arg_at_intro key a b :
  0 <= a <= b → b <= e - s → arg_at c key (MkArgument (range_new (s + a) (s + b)) key (sub T (s + a) (s + b))).
Proof.
  intros Ha Hb. pose proof (text_length_nonneg T).
  split; unfold range_new; cbn [arg_name arg_loc arg_value TextEdits.pos TextEdits.end_]; [done|..];
    rewrite ?c_loc; cbn [TextEdits.pos TextEdits.end_]; rewrite !wrap_i32_id by lia; [lia|done].
Qed.

Lemma reference_args_some p :
  0 <= p <= e - s →
  ∃ args, while_text (sub T s e) (reference_body c (sub T s e)) (p, ∅) = Some args
    ∧ map_Forall (arg_at c) args.
Proof.
  intros Hp. pose proof (length_sub T s e ltac:(lia) ltac:(lia)) as Hlen. set (t := sub T s e) in *.
  apply (while_total (reference_body c t)
    (λ st, 0 <= st.1 <= e - s ∧ map_Forall (arg_at c) st.2) (λ st, text_length t - st.1));
    [|by split; [cbn; lia|apply map_Forall_empty]|cbn; unfold text_length; lia].
  intros [q args] [Hq Hargs]. cbn [fst snd] in *. split; [lia|]. unfold reference_body.
  pose proof (skip_blanks_range t q ltac:(lia)). set (q1 := skip_blanks t q) in *.
  destruct (matches_text_some t q1 (bs "/>") ltac:(lia)) as (closed & -> & _). cbn [mbind option_bind].
  destruct closed; [by eexists|].
  destruct (extract_name_some t q1 ltac:(lia)) as (name & -> & Hname). cbn [mbind option_bind].
  destruct (bool_decide (name = [])); [by eexists|]. pose proof (text_length_nonneg name).
  pose proof (skip_blanks_range t (q1 + text_length name) ltac:(lia)).
  set (q2 := skip_blanks t (q1 + _)) in *.
  destruct (matches_text_some t q2 (bs "=") ltac:(lia)) as (equals & -> & He). cbn [mbind option_bind].
  destruct equals; [|by eexists]. specialize (He eq_refl). change (text_length (bs "=")) with 1 in He.
  pose proof (skip_blanks_range t (q2 + 1) ltac:(lia)). cbn [negb]. set (q3 := skip_blanks t (q2 + 1)) in *.
  destruct (extract_quoted_string_some t q3 ltac:(lia)) as ([value|] & -> & Hvalue); [|by eexists].
  cbn [mbind option_bind]. destruct (Hvalue _ eq_refl) as [Hend Hsub].
  pose proof (text_length_nonneg value). eexists. split; [done|]. split; [|cbn; lia]. split; [cbn; lia|].
  cbn [snd]. apply map_Forall_insert_2; [|done]. rewrite c_loc. cbn [TextEdits.pos].
  unfold t in Hsub at 1. rewrite sub_of_sub in Hsub by lia. rewrite <-Hsub at 2.
  replace (s + q3 + 1) with (s + (q3 + 1)) by lia.
  replace (s + (q3 + 1) + text_length value) with (s + (q3 + 1 + text_length value)) by lia.
  apply arg_at_intro; lia.
Qed.

Lemma extract_single_line_some :
  kind c = SingleLineCommentTrivia →
  ∃ gs, extract_single_line c (sub T s e) = Some gs ∧ Forall (pragma_at c) gs ∧ (length gs <= 1)%nat.
Proof.
  intros Hkind. pose proof (length_sub T s e ltac:(lia) ltac:(lia)) as Hlen. set (t := sub T s e) in *.
  assert (kind_eqb (kind c) SingleLineCommentTrivia = true) as Hk by by rewrite Hkind.
  assert (∀ g, pragma_at c g → ∃ gs, Some [g] = Some gs ∧ Forall (pragma_at c) gs ∧ (length gs <= 1)%nat)
    as Hone by (intros g Hg; exists [g]; split_and!; [done|by apply Forall_singleton|done]).
  assert (∃ gs, Some [] = Some gs ∧ Forall (pragma_at c) gs ∧ (length gs <= 1)%nat) as Hnone.
  { exists []. split_and!; [done|constructor|cbn; lia]. }
  unfold extract_single_line.
  destruct (matches_text_some t 2 (bs "/") ltac:(lia)) as (triple & -> & Ht). cbn [mbind option_bind].
  assert (2 <= (if triple then 3 else 2) <= e - s) as Hp.
  { destruct triple; [specialize (Ht eq_refl); change (text_length (bs "/")) with 1 in Ht|]; lia. }
  pose proof (skip_blanks_range t (if triple then 3 else 2) ltac:(lia)) as Hq.
  set (q := skip_blanks t _) in *.
  assert (∃ element, (if triple then matches_text t q (bs "<") else Some false) = Some element
    ∧ (element = true → q + 1 <= e - s)) as (element & -> & He).
  { destruct triple; [|by eexists]. destruct (matches_text_some t q (bs "<") ltac:(lia)) as (b & -> & Hb).
    exists b. split; [done|]. intros Hb'. specialize (Hb Hb'). change (text_length (bs "<")) with 1 in Hb. lia. }
  cbn [mbind option_bind]. destruct element.
  - specialize (He eq_refl). destruct (extract_name_some t (q + 1) ltac:(lia)) as (name & -> & Hname).
    cbn [mbind option_bind]. destruct (bytes_eqb name (bs "reference")) eqn:Er; [|exact Hnone].
    apply bytes_eqb_true in Er as ->. change (text_length (bs "reference")) with 9 in Hname.
    destruct (reference_args_some (q + 10) ltac:(lia)) as (args & Eargs & Hargs). fold t in Eargs.
    cbn [negb]. rewrite Eargs. cbn [mbind option_bind].
    apply Hone. split; [done|done|]. rewrite Hk. by left.
  - destruct (matches_text_some t q (bs "@") ltac:(lia)) as (at_sign & -> & Ha). cbn [mbind option_bind].
    destruct at_sign; [|exact Hnone]. specialize (Ha eq_refl). change (text_length (bs "@")) with 1 in Ha.
    destruct (extract_name_some t (q + 1) ltac:(lia)) as (name & -> & Hname). cbn [mbind option_bind].
    destruct (bytes_eqb name (bs "ts-check")) eqn:E1, (bytes_eqb name (bs "ts-nocheck")) eqn:E2; cbn [negb andb];
      try exact Hnone; (apply Hone; split; [done|apply map_Forall_empty|]; rewrite Hk; right; split; [done|];
        unfold is_check_pragma; cbn [pragma_name]; by rewrite E1, ?E2).
Qed.

Context `{CaseTables}.

Lemma block_pragmas_some e' :
  s <= e' <= e → kind_eqb (kind c) SingleLineCommentTrivia = false →
  ∃ gs, while_text (sub T s e') (block_pragma_body c (sub T s e')) (2, []) = Some gs ∧ Forall (pragma_at c) gs.
Proof.
  intros He Hkind. pose proof (length_sub T s e' ltac:(lia) ltac:(lia)) as Hlen. set (t := sub T s e') in *.
  apply (while_total (block_pragma_body c t) (λ st, 2 <= st.1 ∧ Forall (pragma_at c) st.2)
    (λ st, Z.max 0 (text_length t - st.1))); [|done|cbn; unfold text_length; lia].
  intros [p gs] [Hp Hgs]. cbn [fst snd] in *. split; [lia|]. unfold block_pragma_body.
  destruct (skip_to t p (bs "@")) as [q|] eqn:Eq; [|by eexists].
  destruct (skip_to_at t p q ltac:(lia) Eq) as [Hq Hat].
  pose proof (skip_non_blanks_range t (q + 1) ltac:(lia)). set (ne := skip_non_blanks t (q + 1)) in *.
  destruct (Z.eqb_spec ne (q + 1)); [eexists; split; [done|]; cbn; split_and!; (done || lia)|].
  destruct (line_end_pos_some t q) as (le & -> & Hle); [lia|by rewrite (decode_at_ascii _ _ _ Hat)|].
  cbn [mbind option_bind]. rewrite (text_slice_some t (q + 1) ne) by lia. cbn [mbind option_bind].
  pose proof (skip_blanks_range t ne ltac:(lia)). set (a := skip_blanks t ne) in *.
  pose proof (skip_non_blanks_range t a ltac:(lia)). set (b := skip_non_blanks t a) in *.
  destruct (is_jsx_pragma _) eqn:Ej, (b =? a); cbn [negb andb];
    try (eexists; split; [done|]; cbn; split_and!; (done || lia)).
  rewrite text_slice_some by lia. cbn [mbind option_bind]. eexists. split; [done|]. cbn [fst snd].
  split_and!; [lia| |lia]. apply Forall_app. split; [done|]. apply Forall_singleton.
  split; [done| |rewrite Hkind; split; [done|by eexists]]. apply map_Forall_singleton.
  unfold t. rewrite c_loc, sub_of_sub by lia. apply arg_at_intro; lia.
Qed.

Lemma extract_multi_line_some :
  kind c = MultiLineCommentTrivia →
  ∃ gs, extract_multi_line c (sub T s e) = Some gs ∧ Forall (pragma_at c) gs.
Proof.
  intros Hkind. unfold extract_multi_line.
  assert (kind_eqb (kind c) SingleLineCommentTrivia = false) as Hk by by rewrite Hkind.
  pose proof (length_sub T s e ltac:(lia) ltac:(lia)) as Hlen.
  destruct (strip_suffix (bs "*/") (sub T s e)) as [t|] eqn:E; cbn [default];
    [|by apply block_pragmas_some; [lia|]].
  apply strip_suffix_Some in E.
  assert (t = sub T s (e - 2)) as ->; [|by apply block_pragmas_some; [lia|]].
  pose proof (text_length_nonneg t). assert (text_length t = e - s - 2) as Ht.
  { rewrite E in Hlen. unfold text_length in *. rewrite length_app in Hlen. cbn in Hlen. lia. }
  rewrite <-(take_app_length t (bs "*/")), <-E. unfold sub. rewrite take_take. f_equal.
  unfold text_length in Ht. lia.
Qed.

Lemma extract_pragmas_some :
  kind c = SingleLineCommentTrivia ∨ kind c = MultiLineCommentTrivia →
  ∃ gs, extract_pragmas c (sub T s e) = Some gs ∧ Forall (pragma_at c) gs
    ∧ (kind c = SingleLineCommentTrivia → (length gs <= 1)%nat).
Proof.
  unfold extract_pragmas. intros [Hk|Hk]; rewrite Hk; cbn [kind_eqb].
  - destruct (extract_single_line_some Hk) as (gs & E & Hgs & Hone). exists gs. split; [exact E|done].
  - destruct (extract_multi_line_some Hk) as (gs & E & Hgs). exists gs. by split; [exact E|].
Qed.
End OneComment.

(** *** All the comments *)

Lemma leading_comments :
  ∃ cs, get_leading_comment_ranges T 0 = Some cs ∧ Forall (comment_at T 0) cs
    ∧ StronglySorted (λ a b, TextEdits.end_ (loc a) <= TextEdits.pos (loc b)) cs.
Proof.
  apply (collect_spec T T_bytes T_fits); [|unfold text_length in *; lia].
  pose proof (text_length_nonneg T). by split.
Qed.

Context `{CaseTables}.

(** The pragmas of a comment: a line comment has one at most. *)
Definition pragmas_at (c : CommentRange) (gs : list Pragma) : Prop :=
  Forall (pragma_at c) gs ∧ (kind c = SingleLineCommentTrivia → (length gs <= 1)%nat).

Lemma pragmas_of_some lo cs :
  0 <= lo → Forall (comment_at T lo) cs → ∃ gss, pragmas_of T cs = Some (concat gss) ∧ Forall2 pragmas_at cs gss.
Proof.
  intros Hlo. induction 1 as [|c cs Hc _ (gss & E & Hgss)]; [by exists []|]. cbn [pragmas_of].
  destruct Hc as [s e Hloc Hs He Hkind]. rewrite Hloc. cbn [TextEdits.pos TextEdits.end_].
  rewrite text_slice_some by lia. cbn [mbind option_bind].
  destruct (extract_pragmas_some c s e Hloc ltac:(lia) ltac:(lia) ltac:(unfold comment_span in Hkind; tauto)) as (gs & -> & Hgs & Hone).
  cbn [mbind option_bind]. rewrite E. exists (gs :: gss). split; [done|]. by constructor.
Qed.

Definition checks (gs : list Pragma) : list Pragma := filter (λ g, is_check_pragma g) gs.
Definition before (g g' : Pragma) : Prop :=
  TextEdits.pos (loc (pragma_range g)) < TextEdits.pos (loc (pragma_range g')).

Lemma jsx_not_check g : is_jsx_pragma (pragma_name g) = true → is_check_pragma g = false.
Proof.
  unfold is_jsx_pragma, is_check_pragma.
  rewrite !orb_true_iff, !bytes_eqb_true. by intros [[[-> | ->] | ->] | ->]; vm_compute.
Qed.

Lemma checks_at c gs : pragmas_at c gs → (length (checks gs) <= 1)%nat.
Proof.
  intros [Hgs Hone]. destruct (kind_eqb (kind c) SingleLineCommentTrivia) eqn:E.
  - apply kind_eqb_true in E. etrans; [apply length_filter|auto].
  - assert (checks gs = []) as ->; [|cbn; lia]. induction Hgs as [|g gs [_ _ Hname] _ IH]; [done|].
    rewrite E in Hname. destruct Hname as [Hname _]. unfold checks.
    rewrite filter_cons_False; [|rewrite (jsx_not_check _ Hname); by intros []]. apply IH. intros Hk. by rewrite Hk in E.
Qed.

Lemma pragma_of_comment cs gss g :
  Forall2 pragmas_at cs gss → g ∈ concat gss → ∃ c, c ∈ cs ∧ pragma_at c g.
Proof.
  induction 1 as [|c gs cs gss [Hgs _] _ IH]; cbn [concat]; [by intros ?%elem_of_nil|].
  rewrite elem_of_app. intros [Hg|Hg].
  - exists c. split; [constructor|]. by apply (proj1 (Forall_forall _ _) Hgs).
  - destruct (IH Hg) as (c' & ? & ?). exists c'. split; [by constructor|done].
Qed.

Lemma checks_ordered lo cs gss :
  Forall (comment_at T lo) cs → StronglySorted (λ a b, TextEdits.end_ (loc a) <= TextEdits.pos (loc b)) cs →
  Forall2 pragmas_at cs gss → StronglySorted before (checks (concat gss)).
Proof.
  intros Hcs Hsorted H2. induction H2 as [|c gs cs gss Hgs H2 IH]; [constructor|].
  apply Forall_cons in Hcs as [[s e Hloc _ He _] Hcs]. apply StronglySorted_inv in Hsorted as [Hsorted Hc].
  cbn [concat]. unfold checks. rewrite filter_app. apply StronglySorted_app; split_and!.
  - intros g g' Hg Hg'. apply list_elem_of_filter in Hg as [_ Hg], Hg' as [_ Hg'].
    pose proof (proj1 (Forall_forall _ _) (proj1 Hgs) g Hg) as [Er _ _].
    destruct (pragma_of_comment _ _ _ H2 Hg') as (c' & Hc' & [Er' _ _]).
    pose proof (proj1 (Forall_forall _ _) Hc c' Hc'). unfold before. rewrite Er, Er'.
    rewrite Hloc in *. cbn in *. lia.
  - pose proof (checks_at _ _ Hgs). unfold checks in *.
    destruct (filter _ gs) as [|g [|]]; [constructor|by repeat constructor|cbn in *; lia].
  - by apply IH.
Qed.
End Spec.

(** ** The fields of the file *)

(** A reference is to the file that its text names. *)
Definition reference_at (t : bytes) (r : FileReference) : Prop :=
  range_in t (ref_loc r) ∧ sub t (TextEdits.pos (ref_loc r)) (TextEdits.end_ (ref_loc r)) = ref_file_name r.

Definition references (f : PragmaFields) : list FileReference :=
  type_reference_directives f ++ lib_reference_directives f ++ referenced_files f.
Definition located (t : bytes) (f : PragmaFields) : Prop := Forall (reference_at t) (references f).

(** The argument of a pragma that is a reference. *)
Definition target (g : Pragma) : option PragmaArgument :=
  if is_true (pragma_args g !! bs "no-default-lib") then None
  else
    match pragma_args g !! bs "types", pragma_args g !! bs "lib" with
    | Some arg, _ => Some arg
    | None, Some arg => Some arg
    | None, None => pragma_args g !! bs "path"
    end.

(** What is kept is kept; the target of a pragma is. *)
Definition keeps (f f' : PragmaFields) : Prop := references f ⊆ references f'.
Definition kept (f : PragmaFields) (g : Pragma) : Prop :=
  ∀ a, target g = Some a → arg_loc a ∈ map ref_loc (references f).

#[global] Instance keeps_preorder : PreOrder keeps.
Proof. split; unfold keeps; [by intros ?|by intros ???; etrans]. Qed.

Lemma kept_keeps f f' g : kept f g → keeps f f' → kept f' g.
Proof.
  intros Hg Hf a (r & Hr & Hin)%Hg%list_elem_of_fmap. apply list_elem_of_fmap. exists r. auto.
Qed.

Definition directive (g : Pragma) : CheckJsDirective :=
  MkCheckJs (bytes_eqb (pragma_name g) (bs "ts-check")) (pragma_range g).

Section Fields.
Context `{ParserFactory, JsNum} (T : bytes).

(** A pragma of some comment of the text. *)
Definition pragma_of (g : Pragma) : Prop := ∃ c, comment_at T 0 c ∧ pragma_at T c g.

Lemma pragma_of_arg g key a :
  pragma_of g → pragma_args g !! key = Some a →
  range_in T (arg_loc a) ∧ ∀ mode preserve, reference_at T (reference_to a mode preserve).
Proof.
  intros (c & [s e Hloc Hs He _] & [_ Hargs _]) Ha. destruct (Hargs _ _ Ha) as [_ Hin Htext].
  rewrite Hloc in Hin. cbn [TextEdits.pos TextEdits.end_] in Hin.
  assert (range_in T (arg_loc a)) by (unfold range_in; lia). done.
Qed.

Lemma pragma_of_range g : pragma_of g → range_in T (loc (pragma_range g)).
Proof.
  intros (c & [s e Hloc Hs He _] & [-> _ _]). rewrite Hloc. unfold range_in; cbn. lia.
Qed.

(** The pragma [g] turns the fields [f] into [f'], with references [refs] more. *)
Record settles (g : Pragma) (f f' : PragmaFields) : Prop := {
  settles_located : located T f → located T f';
  settles_keeps : keeps f f';
  settles_kept : kept f' g;
}.

Lemma settles_one g f f' a mode preserve refs refs' refs'' :
  (∀ mode preserve, reference_at T (reference_to a mode preserve)) →
  target g = Some a → refs ++ refs' ++ refs'' = [reference_to a mode preserve] →
  type_reference_directives f' = type_reference_directives f ++ refs →
  lib_reference_directives f' = lib_reference_directives f ++ refs' →
  referenced_files f' = referenced_files f ++ refs'' → settles g f f'.
Proof.
  intros Ha Hg Hrefs E1 E2 E3.
  assert (∀ r, r ∈ references f' ↔ r ∈ references f ∨ r ∈ refs ++ refs' ++ refs'') as Hin.
  { intros r. unfold references. rewrite E1, E2, E3, !elem_of_app. tauto. }
  rewrite Hrefs in Hin. setoid_rewrite list_elem_of_singleton in Hin. split.
  - unfold located. rewrite !Forall_forall. intros Hf r [?| ->]%Hin; auto.
  - intros r Hr. apply Hin. by left.
  - intros a' Ha'. assert (a' = a) as -> by congruence. apply list_elem_of_fmap.
    exists (reference_to a mode preserve). split; [done|]. apply Hin. by right.
Qed.

Lemma settles_nothing g f f' : target g = None → references f' = references f → settles g f f'.
Proof.
  intros Hg E. split; unfold located, keeps; rewrite ?E; [done..|]. intros a Ha. congruence.
Qed.

(** The result of an operation that only reports. *)
Definition answers {A} (m : P A) (p : Parser) (Q : A → Prop) : Prop :=
  ∃ a p', m p = Returns a p' ∧ fit p' ∧ moves p p' ∧ Q a.

Lemma answers_ret {A} (a : A) p (Q : A → Prop) : fit p → Q a → answers (mret a) p Q.
Proof. intros Hp Ha. by exists a, p. Qed.

Lemma answers_mono {A} (m : P A) p (Q Q' : A → Prop) : answers m p Q → (∀ a, Q a → Q' a) → answers m p Q'.
Proof. intros (a & p' & ? & ? & ? & ?) HQ. exists a, p'. auto. Qed.

Lemma answers_bind {A B} (m : P A) (f : A → P B) p (R : A → Prop) (Q : B → Prop) :
  answers m p R → (∀ a p', fit p' → p_source_text p' = p_source_text p → R a → answers (f a) p' Q) →
  answers (m ≫= f) p Q.
Proof.
  intros (a & p1 & E1 & Hp1 & Hm1 & Ha) Hf.
  destruct (Hf a p1 Hp1) as (b & p2 & E2 & Hp2 & Hm2 & Hb); [by rewrite (moves_rest _ _ Hm1)|done|].
  exists b, p2. split_and!; [|done|by etrans|done]. unfold mbind, P_bind. by rewrite E1.
Qed.

Lemma answers_error l m args p : fit p → range_in (p_source_text p) l → answers (append_error l m args) p (λ _, True).
Proof. intros Hp Hl. destruct (append_error_fit l m args p Hp Hl) as (i & p' & ? & ? & ?). by exists i, p'. Qed.

Lemma answers_process_reference g f p :
  fit p → p_source_text p = T → pragma_of g →
  answers (process_reference g f) p (λ f', settles g f f' ∧ check_js_directive f' = check_js_directive f).
Proof.
  intros Hp HT Hg. unfold process_reference. pose proof (eq_refl : target g = target g) as Htarget.
  unfold target in Htarget at 2. destruct (is_true (pragma_args g !! bs "no-default-lib"));
    [apply answers_ret; [done|]; split; [by apply settles_nothing|done]|].
  destruct (pragma_args g !! bs "types") as [a|] eqn:Ea.
  { apply (answers_bind _ _ _ (λ _, True)).
    - destruct (pragma_args g !! bs "resolution-mode") as [m|] eqn:Em; [|by apply answers_ret].
      unfold parse_resolution_mode. do 2 (destruct (bytes_eqb _ _); [by apply answers_ret|]).
      apply (answers_bind _ _ _ (λ _, True)); [|intros; by apply answers_ret].
      destruct (pragma_of_arg _ _ _ Hg Em) as [Hin _]. apply answers_error; [done|]. rewrite HT.
      pose proof (fit_length _ Hp) as Hlen. rewrite HT in Hlen. unfold range_in, range_new in *; cbn.
      rewrite !wrap_i32_id by lia. lia.
    - intros mode p' Hp' _ _. apply answers_ret; [done|]. split; [|done].
      eapply (settles_one g f _ a mode _ [_] [] []); [by apply (pragma_of_arg g (bs "types"))|..];
        (done || by rewrite app_nil_r). }
  destruct (pragma_args g !! bs "lib") as [a|] eqn:El.
  { apply answers_ret; [done|]. split; [|done].
    eapply (settles_one g f _ a 0 _ [] [_] []); [by apply (pragma_of_arg g (bs "lib"))|..];
      (done || by rewrite app_nil_r). }
  destruct (pragma_args g !! bs "path") as [a|] eqn:Eq.
  { apply answers_ret; [done|]. split; [|done].
    eapply (settles_one g f _ a 0 _ [] [] [_]); [by apply (pragma_of_arg g (bs "path"))|..];
      (done || by rewrite app_nil_r). }
  apply (answers_bind _ _ _ (λ _, True)).
  - apply answers_error; [done|]. rewrite HT. by apply pragma_of_range.
  - intros _ p' Hp' _ _. apply answers_ret; [done|]. split; [by apply settles_nothing|done].
Qed.

(** The directives that are set come later and later. *)
Definition later_than (d : option CheckJsDirective) (g : Pragma) : Prop :=
  ∀ d', d = Some d' → TextEdits.pos (loc (check_range d')) < TextEdits.pos (loc (pragma_range g)).

Lemma no_target g : pragma_of g → pragma_name g ≠ bs "reference" → target g = None.
Proof.
  intros (c & _ & [_ _ Hname]) Hg. unfold target. destruct (kind_eqb _ _).
  - destruct Hname as [?|[-> _]]; [done|]. by rewrite !lookup_empty.
  - destruct Hname as [_ [a ->]]. by rewrite !lookup_singleton_ne.
Qed.

Lemma answers_process_pragma g f p :
  fit p → p_source_text p = T → pragma_of g →
  (is_check_pragma g = true → later_than (check_js_directive f) g) →
  answers (process_pragma g f) p (λ f', settles g f f'
    ∧ check_js_directive f' = if is_check_pragma g then Some (directive g) else check_js_directive f).
Proof.
  intros Hp HT Hg Hlater. unfold process_pragma.
  destruct (bytes_eqb (pragma_name g) (bs "reference")) eqn:Er.
  { assert (is_check_pragma g = false) as ->; [|by apply answers_process_reference].
    apply bytes_eqb_true in Er. unfold is_check_pragma. by rewrite Er. }
  apply bytes_eqb_false in Er. pose proof (no_target g Hg Er) as Hnone.
  change (bytes_eqb (pragma_name g) (bs "ts-check") || bytes_eqb (pragma_name g) (bs "ts-nocheck"))
    with (is_check_pragma g). destruct (is_check_pragma g) eqn:Ec.
  - apply answers_ret; [done|]. unfold process_check.
    destruct (check_js_directive f) as [d|] eqn:Ed; [|split; [by apply settles_nothing|done]].
    specialize (Hlater eq_refl d eq_refl).
    destruct (Z.ltb_spec (TextEdits.pos (loc (check_range d))) (TextEdits.pos (loc (pragma_range g)))); [|lia].
    split; [by apply settles_nothing|done].
  - destruct Hg as (c & _ & [_ _ Hname]).
    destruct (kind_eqb _ _); [destruct Hname as [|[_ ?]]; congruence|]. destruct Hname as [-> _].
    apply answers_ret; [done|]. split; [by apply settles_nothing|done].
Qed.

Lemma answers_process_pragmas gs : ∀ f p,
  fit p → p_source_text p = T → Forall pragma_of gs → located T f →
  StronglySorted before (checks gs) → Forall (later_than (check_js_directive f)) (checks gs) →
  answers (process_pragmas gs f) p (λ f', located T f' ∧ keeps f f' ∧ Forall (kept f') gs
    ∧ check_js_directive f' = match last (checks gs) with
                              | Some g => Some (directive g)
                              | None => check_js_directive f
                              end).
Proof.
  induction gs as [|g gs IH]; intros f p Hp HT Hgs Hf Hsorted Hlater; [by apply answers_ret|].
  apply Forall_cons in Hgs as [Hg Hgs]. cbn [process_pragmas]. unfold checks in *.
  rewrite filter_cons in Hsorted, Hlater |- *.
  assert (∀ f' p' d, p_source_text p' = p_source_text p → settles g f f' → fit p' →
    StronglySorted before (filter (λ g, is_check_pragma g) gs) → check_js_directive f' = d →
    Forall (later_than d) (filter (λ g, is_check_pragma g) gs) →
    answers (process_pragmas gs f') p' (λ f'', located T f'' ∧ keeps f f'' ∧ Forall (kept f'') (g :: gs)
      ∧ check_js_directive f'' = match last (filter (λ g, is_check_pragma g) gs) with
                              | Some g => Some (directive g) | None => d end)) as Hrest.
  { intros f' p' d HT' [Hl Hk Hkept] Hp' Hsorted' Hd Hlater'. rewrite HT in HT'. subst d.
    apply (answers_mono _ _ _ _ (IH f' p' Hp' HT' Hgs (Hl Hf) Hsorted' Hlater')).
    intros f'' (Hl'' & Hk'' & Hkept'' & ->). split_and!; [done|by etrans| |done].
    constructor; [by eapply kept_keeps|done]. }
  destruct (decide (is_check_pragma g)) as [Hc|Hc].
  - apply Is_true_true in Hc. apply Forall_cons in Hlater as [Hl _].
    apply StronglySorted_inv in Hsorted as [Hsorted Hbefore].
    eapply answers_bind; [by apply answers_process_pragma|]. rewrite Hc. intros f' p' Hp' HT' [Hs Hd].
    eapply answers_mono; [apply (Hrest f' p' _ HT' Hs Hp' Hsorted Hd)|].
    + apply (Forall_impl _ _ _ Hbefore). by intros g' Hg' d' [= <-].
    + cbn. intros f''. rewrite last_cons. by destruct (last _).
  - apply Is_true_false in Hc. eapply answers_bind; [apply answers_process_pragma; try done; by rewrite Hc|].
    rewrite Hc. intros f' p' Hp' HT' [Hs Hd]. by apply Hrest.
Qed.
End Fields.

(** [C22] Reading the pragmas of a file never panics. The comments before the first token
    are read in order, a line comment giving one pragma at most; every pragma is of a kind
    that its comment allows, every one of its arguments stands inside the comment, and the
    text at the place where it says it stands is its value. The [ts-check] and
    [ts-nocheck] pragmas come in the order of the text. *)
Theorem pragmas_located `{CaseTables} T :
  all_bytes T → text_length T <= I32_MAX →
  ∃ cs gss, get_leading_comment_ranges T 0 = Some cs ∧ get_comment_pragmas T = Some (concat gss)
    ∧ Forall2 (λ c gs, Forall (pragma_at T c) gs
        ∧ (kind c = SingleLineCommentTrivia → (length gs <= 1)%nat)) cs gss
    ∧ StronglySorted before (checks (concat gss)).
Proof.
  intros Hb Hlen. destruct (leading_comments T Hb Hlen) as (cs & Hcs & Hall & Hsorted).
  destruct (pragmas_of_some T Hlen 0 cs ltac:(lia) Hall) as (gss & Hgss & H2).
  exists cs, gss. split; [done|]. unfold get_comment_pragmas. rewrite Hcs. split; [done|].
  split; [done|]. by eapply checks_ordered.
Qed.

#[local] Existing Instances ascii_tables plain_numbers plain_bigints latin_letters plain_factory owner_seven.

Lemma directives_ok : all_bytes directives ∧ text_length directives <= I32_MAX.
Proof. split; [|by vm_compute]. by repeat (constructor; [split; by vm_compute|]). Qed.

Lemma pragmas_located_witness :
  (all_bytes directives ∧ text_length directives <= I32_MAX)
  ∧ ∃ cs gss, get_leading_comment_ranges directives 0 = Some cs
    ∧ get_comment_pragmas directives = Some (concat gss)
    ∧ Forall2 (λ c gs, Forall (pragma_at directives c) gs
        ∧ (kind c = SingleLineCommentTrivia → (length gs <= 1)%nat)) cs gss
    ∧ StronglySorted before (checks (concat gss)).
Proof. split; [exact directives_ok|]. apply (pragmas_located directives); apply directives_ok. Defined.

(** [C23] Setting the fields of a file from its pragmas never panics, in a parser fit to
    parse the file: the parser stays where it is up to what it reports, inside the text.
    Every reference stands in the text where it says, and names the file that the text has
    there; the target of a pragma, its [types], [lib] or [path] unless it opts out of the
    default library, is among them; of the [ts-check] and [ts-nocheck] pragmas the last
    counts. *)
Theorem pragma_fields_set `{CaseTables, ParserFactory, JsNum} p :
  fit p →
  ∃ gs f p', get_comment_pragmas (p_source_text p) = Some gs
    ∧ process_pragmas_into_fields gs p = Returns f p' ∧ fit p' ∧ moves p p'
    ∧ Forall (reference_at (p_source_text p)) (references f) ∧ Forall (kept f) gs
    ∧ check_js_directive f = directive <$> last (checks gs).
Proof.
  intros Hp. pose proof (fit_length _ Hp) as Hlen.
  assert (all_bytes (p_source_text p)) as Hb.
  { rewrite <-(fit_text _ Hp). apply ok_bytes, settled_ok, Hp. }
  set (T := p_source_text p) in *. destruct (leading_comments T Hb Hlen) as (cs & Hcs & Hall & Hsorted).
  destruct (pragmas_of_some T Hlen 0 cs ltac:(lia) Hall) as (gss & Hgss & H2).
  assert (Forall (pragma_of T) (concat gss)) as Hgs.
  { apply Forall_forall. intros g Hg. destruct (pragma_of_comment _ _ _ _ H2 Hg) as (c & Hc & Hat).
    exists c. split; [|done]. by apply (proj1 (Forall_forall _ _) Hall). }
  destruct (answers_process_pragmas T (concat gss) (MkFields None [] [] []) p Hp eq_refl Hgs)
    as (f & p' & E & Hp' & Hm & Hf & _ & Hkept & Hd); [by constructor|by eapply checks_ordered|by apply Forall_true|].
  exists (concat gss), f, p'. unfold get_comment_pragmas. by rewrite Hcs.
Qed.

Lemma pragma_fields_set_witness :
  ∃ p, parser_at directives = Some p ∧ fit p
  ∧ ∃ gs f p', get_comment_pragmas (p_source_text p) = Some gs
    ∧ process_pragmas_into_fields gs p = Returns f p' ∧ fit p' ∧ moves p p'
    ∧ Forall (reference_at (p_source_text p)) (references f) ∧ Forall (kept f) gs
    ∧ check_js_directive f = directive <$> last (checks gs).
Proof.
  destruct (parser_at directives) as [p|] eqn:Hp; [|by vm_compute in Hp].
  assert (fit p) as Hfit by by apply (parser_at_fit directives); [apply directives_ok..|].
  exists p. split; [reflexivity|]. split; [exact Hfit|]. exact (pragma_fields_set p Hfit).
Defined.
