(* ===== verification/Escape.v ===== *)
(** Escaping the contents of literals for printing: [crates/tsr_jsstring/src/escape.rs].

    The scanner on one escape of a string literal: exact runs, which leave everything but
    the position, the flags and a cache as it was, so that nothing is reported. *)

From stdpp Require Import gmap.
From S2P Require Import Prelude Wtf8 TextEdits BigInt ScannerKinds ScannerState ScannerWp ScannerDigits ScannerEscape ScannerLexemes ScannerTrivia.

Local Open Scope Z_scope.

(** ** Quotes and flags *)

Inductive QuoteChar := Single | Double | Backtick.
#[export] Instance quote_char_eq_dec : EqDecision QuoteChar.
Proof. solve_decision. Defined.

(** [quote as u8] *)
Definition quote_byte (quote : QuoteChar) : Z :=
  match quote with Single => 39 | Double => 34 | Backtick => 96 end.

Definition NEVER_ASCII_ESCAPE : Z := 1.
Definition JSX_ATTRIBUTE_ESCAPE : Z := 2.
Definition TERMINATE_UNTERMINATED_LITERALS : Z := 4.
Definition ALLOW_NUMERIC_SEPARATOR : Z := 8.

(** [!15] of a [u8] is 240. *)
Definition from_bits (bits : Z) : option Z := if Z.land bits 240 =? 0 then Some bits else None.
Definition contains (flags other : Z) : bool := Z.land flags other =? other.

(** ** Escapes *)

Definition to_ascii_uppercase (b : Z) : Z := if is_ascii_lowercase b then b - 32 else b.

(** [{rune:X}] and [{rune:04X}] of a rune, which is not negative. *)
Definition upper_hex (rune : Z) : bytes := map to_ascii_uppercase (format_radix 16 rune).
Definition upper_hex4 (rune : Z) : bytes :=
  let digits := upper_hex rune in repeat (ch "0") (4 - length digits) ++ digits.

Definition encode_jsx_character_entity (rune : Z) : bytes := bs "&#x" ++ upper_hex rune ++ bs ";".
Definition encode_utf16_escape_sequence (rune : Z) : bytes := bs "\u" ++ upper_hex4 rune.

Definition canonical_escape (rune : Z) : option bytes :=
  if is_surrogate rune || (0x10ffff <? rune) then None
  else if rune =? 9 then Some (bs "\t")
  else if rune =? 11 then Some (bs "\v")
  else if rune =? 12 then Some (bs "\f")
  else if rune =? 8 then Some (bs "\b")
  else if rune =? 13 then Some (bs "\r")
  else if rune =? 10 then Some (bs "\n")
  else if rune =? ch "\" then Some (bs "\\")
  else if rune =? 34 then Some (bs "\" ++ [34])
  else if rune =? 39 then Some (bs "\'")
  else if rune =? 96 then Some (bs "\`")
  else if rune =? ch "$" then Some (bs "\$")
  else if rune =? 0x2028 then Some (bs "\u2028")
  else if rune =? 0x2029 then Some (bs "\u2029")
  else if rune =? 0x85 then Some (bs "\u0085")
  else None.

(** ** Literals *)

Section Literal.
Context (quote : QuoteChar) (flags : Z).

Definition jsx : bool := contains flags JSX_ATTRIBUTE_ESCAPE.
Definition never_ascii_escape : bool := contains flags NEVER_ASCII_ESCAPE.

(** Whether the rune is escaped; [next] is the byte behind its first. *)
Definition must_escape (next : option Z) (rune width : Z) : bool :=
  let escape := is_surrogate rune || (rune =? RUNE_ERROR) && (width =? 1) in
  if rune =? ch "\" then escape || negb jsx
  else if rune =? ch "$" then
    escape || bool_decide (quote = Backtick) && bool_decide (next = Some (ch "{"))
  else if (rune =? quote_byte quote) || (rune =? 0x2028) || (rune =? 0x2029) || (rune =? 0x85)
          || (rune =? 13) then true
  else if rune =? 10 then escape || bool_decide (quote ≠ Backtick)
  else escape || (rune <=? 0x1f) || negb never_ascii_escape && (0x7f <? rune).

(** The escape of a rune, and how many bytes it stands for. *)
Definition escape_rune (next : option Z) (rune width : Z) : bytes * Z :=
  if jsx then
    (if rune =? 0 then bs "&#0;" else if rune =? 34 then bs "&quot;" else if rune =? 39 then bs "&apos;"
     else encode_jsx_character_entity rune, width)
  else if (rune =? 13) && bool_decide (quote = Backtick) && bool_decide (next = Some 10) then
    (bs "\r\n", width + 1)
  else if 0xffff <? rune then
    let rune := rune - 0x10000 in
    (encode_utf16_escape_sequence (Z.shiftr rune 10 + 0xd800)
     ++ encode_utf16_escape_sequence (Z.land rune 0x3ff + 0xdc00), width)
  else if is_surrogate rune then (encode_utf16_escape_sequence rune, width)
  else if rune =? 0 then
    (match next with Some d => if is_ascii_digit d then bs "\x00" else bs "\0" | None => bs "\0" end, width)
  else
    (match canonical_escape rune with Some escaped => escaped | None => encode_utf16_escape_sequence rune end,
     width).

(** One round of the loop: what has been written, how far the text is copied, and
    where the next rune is. *)
Definition escape_body (t : bytes) (st : bytes * Z * Z) : option ((bytes * Z * Z) + bytes) :=
  let '(output, copied_until, offset) := st in
  if offset <? text_length t then
    rest ← text_tail t offset;
    let '(rune, width) := decode_rune rest in
    let width := Z.of_nat width in
    let next := text_at t (offset + 1) in
    if must_escape next rune width then
      copied ← text_slice t copied_until offset;
      let '(escaped, width) := escape_rune next rune width in
      Some (inl (output ++ copied ++ escaped, offset + width, offset + width))
    else Some (inl (output, copied_until, offset + width))
  else
    copied ← text_tail t copied_until;
    Some (inr (output ++ copied)).

Definition escape_string_with_flags (t : bytes) : option bytes := while_text t (escape_body t) ([], 0, 0).
End Literal.

Definition escape_string (t : bytes) (quote : QuoteChar) : option bytes :=
  escape_string_with_flags quote NEVER_ASCII_ESCAPE t.
Definition escape_non_ascii_string (t : bytes) (quote : QuoteChar) : option bytes :=
  escape_string_with_flags quote 0 t.
Definition escape_jsx_attribute_string (t : bytes) (quote : QuoteChar) : option bytes :=
  escape_string_with_flags quote (Z.lor JSX_ATTRIBUTE_ESCAPE NEVER_ASCII_ESCAPE) t.

Example escape_ex :
  escape_non_ascii_string ([0; 49] ++ encode_rune 0x1f600 ++ encode_rune 0xd83d ++ [0x80; 10; 34; 39]) Double
    = Some (bs "\x001\uD83D\uDE00\uD83D\uFFFD\n\" ++ [34; 39])
  ∧ escape_string ([13; 10; 10; 13] ++ bs "$a${`\" ++ encode_rune 0xe9 ++ [0x1b]) Backtick
    = Some (bs "\r\n" ++ [10] ++ bs "\r$a\${\`\\" ++ encode_rune 0xe9 ++ bs "\u001B")
  ∧ escape_jsx_attribute_string (bs "a\'" ++ [34; 10]) Single = Some (bs "a\&apos;" ++ [34] ++ bs "&#xA;").
Proof. by vm_compute. Qed.

(** * Runs of an escaped text *)

(** ** Exact runs *)

Lemma bind_exact {A B} (m : M A) (f : A → M B) s a s' : m s = Some (a, s') → (m ≫= f) s = f a s'.
Proof. unfold mbind, M_bind. by intros ->. Qed.

(** The scanner at a position, with the flags of the token so far. *)
Definition at_ (s : Scanner) (p fl : Z) : Scanner :=
  s <| state := (state s) <| pos := p |> <| token_flags := fl |> |>.

(** ** Hexadecimal digits *)

Definition HEX_DIGITS : bytes := bs "0123456789abcdefABCDEF".

(** What holds of the 22 digits. *)
Lemma hex_digit_all (f : Z → bool) x : forallb f HEX_DIGITS = true → is_hex_digit x = true → f x = true.
Proof.
  rewrite forallb_forall. intros Hall Hx. apply Hall. cbn.
  unfold is_hex_digit, is_digit, in_range in Hx. chars. lia.
Qed.

Lemma digit_value_upper x :
  is_hex_digit x = true → digit_value (to_ascii_uppercase x) = digit_value x.
Proof.
  intros Hx. apply (hex_digit_all (λ x, bool_decide (digit_value (to_ascii_uppercase x) = digit_value x))) in Hx;
    [by apply bool_decide_eq_true in Hx|by vm_compute].
Qed.

Lemma digit_value_lower x :
  is_hex_digit x = true → digit_value (to_ascii_lowercase x) = digit_value x.
Proof.
  intros Hx. apply (hex_digit_all (λ x, bool_decide (digit_value (to_ascii_lowercase x) = digit_value x))) in Hx;
    [by apply bool_decide_eq_true in Hx|by vm_compute].
Qed.

Lemma is_hex_digit_case x :
  is_hex_digit x = true → is_hex_digit (to_ascii_uppercase x) && is_hex_digit (to_ascii_lowercase x) = true.
Proof.
  apply (hex_digit_all (λ x, is_hex_digit (to_ascii_uppercase x) && is_hex_digit (to_ascii_lowercase x))).
  by vm_compute.
Qed.

Lemma digits_value_map f b :
  (∀ x, is_hex_digit x = true → digit_value (f x) = digit_value x) →
  Forall (λ x, is_hex_digit x = true) b → digits_value 16 (map f b) = digits_value 16 b.
Proof.
  intros Hf Hb. unfold digits_value. generalize 0 as n.
  induction Hb as [|x b Hx Hb IH]; intros n; [done|]. cbn [map fold_left]. by rewrite Hf, IH.
Qed.

Lemma format_fuel_length fuel base n k :
  2 <= base → 0 <= n < base ^ Z.of_nat (S k) → (length (format_fuel fuel base n) <= S k)%nat.
Proof.
  intros Hb. revert n k. induction fuel as [|fuel IH]; intros n k Hn; [cbn; lia|]. cbn [format_fuel].
  rewrite length_app. cbn [length]. destruct (Z.ltb_spec n base); [cbn; lia|]. destruct k as [|k]; [lia|].
  enough (length (format_fuel fuel base (n / base)) <= S k)%nat by lia. apply IH.
  rewrite (Nat2Z.inj_succ (S k)), Z.pow_succ_r in Hn by lia.
  split; [apply Z.div_pos; lia|apply Z.div_lt_upper_bound; lia].
Qed.

Lemma digits_value_zeros k b : digits_value 16 (repeat (ch "0") k ++ b) = digits_value 16 b.
Proof. unfold digits_value. rewrite fold_left_app. f_equal. by induction k. Qed.

(** Four digits, which have the value. *)
Lemma upper_hex4_digits n :
  0 <= n <= 0xffff →
  length (upper_hex4 n) = 4%nat ∧ Forall (λ x, is_hex_digit x = true) (upper_hex4 n)
  ∧ digits_value 16 (upper_hex4 n) = n.
Proof.
  intros Hn. destruct (format_radix_value 16 n ltac:(lia) ltac:(lia)) as [Hv Hd].
  assert (length (upper_hex n) <= 4)%nat as Hl.
  { unfold upper_hex. rewrite length_map. apply (format_fuel_length _ _ _ 3); lia. }
  unfold upper_hex4. cbv zeta. split_and!.
  - rewrite length_app, repeat_length. lia.
  - apply Forall_app. split; [by apply Forall_forall; intros x ->%list_elem_of_In%repeat_spec|].
    apply Forall_map. apply (Forall_impl _ _ _ Hd). by intros x [? _]%is_hex_digit_case%andb_true_iff.
  - rewrite digits_value_zeros. unfold upper_hex. by rewrite digits_value_map by (done || apply digit_value_upper).
Qed.

Lemma hex_canonical_lower d : Forall (λ x, is_hex_digit x = true) d → hex_canonical d = map to_ascii_lowercase d.
Proof.
  intros Hd. unfold hex_canonical. f_equal. induction Hd as [|x d Hx Hd IH]; [done|].
  rewrite filter_cons_True by (intros ->; done). by rewrite IH.
Qed.

(** What the scanner makes of digits has their value. *)
Lemma hex_canonical_value d :
  Forall (λ x, is_hex_digit x = true) d →
  saturated_radix (hex_canonical d) 16 I32_MAX = Some (Z.min I32_MAX (digits_value 16 d)).
Proof.
  intros Hd. rewrite hex_canonical_lower by done. rewrite saturated_radix_value; [|lia|done|].
  - by rewrite digits_value_map by (done || apply digit_value_lower).
  - apply Forall_map. apply (Forall_impl _ _ _ Hd). by intros x [_ ?]%is_hex_digit_case%andb_true_iff.
Qed.

Section Exact.
Context `{JsNum, NumBigint, IdentifierTables} (T : bytes) (T_bytes : all_bytes T)
  (T_fits : text_length T + 16 <= I64_MAX).

(** A scanner of the text. *)
Record reader (s : Scanner) : Prop := {
  reader_text : text s = T;
  reader_end : end_ s = text_length T;
  reader_coherent : coherent s;
}.

(** Scanners of the text that differ in a cache, and in the state. *)
Record kin (s s' : Scanner) : Prop := {
  kin_reader : reader s';
  kin_rest : s' = s <| hex_digit_cache := hex_digit_cache s' |>;
}.

Lemma kin_refl s : reader s → kin s s.
Proof. intros Hs. split; [done|by destruct s]. Qed.
Lemma kin_trans s s1 s2 : kin s s1 → kin s1 s2 → kin s s2.
Proof. intros [_ E1] [H2 E2]. split; [done|]. rewrite E2, E1. done. Qed.

(** What stands at a position. *)
Definition stands (p : Z) (rest : bytes) : Prop := 0 <= p <= text_length T ∧ drop (Z.to_nat p) T = rest.

Lemma stands_length p rest : stands p rest → p + text_length rest = text_length T.
Proof. intros [Hp <-]. unfold text_length in *. rewrite length_drop. lia. Qed.

Lemma stands_skip p a rest : stands p (a ++ rest) → stands (p + text_length a) rest.
Proof.
  intros Hs. pose proof (stands_length _ _ Hs) as Hl. destruct Hs as [Hp Hd].
  unfold text_length in *. rewrite length_app in Hl. split; [unfold text_length; lia|].
  replace (Z.to_nat (p + Z.of_nat (length a))) with (Z.to_nat p + length a)%nat by lia.
  by rewrite <-drop_drop, Hd, drop_app_length.
Qed.

Lemma stands_sub p a rest : stands p (a ++ rest) → sub T p (p + text_length a) = a.
Proof.
  intros [Hp Hd]. unfold sub. rewrite Hd. unfold text_length.
  replace (Z.to_nat _) with (length a) by lia. apply take_app_length.
Qed.

Lemma stands_char p rest n :
  stands p rest → 0 <= n → char_of T (p + n) = default (-1) (rest !! Z.to_nat n).
Proof.
  intros Hs Hn. pose proof (stands_length _ _ Hs) as Hl. destruct Hs as [Hp <-].
  rewrite lookup_drop. unfold char_of, text_at. unfold text_length in *.
  rewrite length_drop in Hl. destruct (Z.ltb_spec (p + n) (Z.of_nat (length T))).
  - destruct (Z.ltb_spec (p + n) 0); [lia|]. by replace (Z.to_nat (p + n)) with (Z.to_nat p + Z.to_nat n)%nat by lia.
  - by rewrite lookup_ge_None_2 by lia.
Qed.

Lemma run_char s p fl rest :
  reader s → stands p rest → char (at_ s p fl) = Some (default (-1) (rest !! 0%nat), at_ s p fl).
Proof.
  intros [Ht He _] Hs. pose proof (stands_char p rest 0 Hs ltac:(lia)) as Hc. rewrite Z.add_0_r in Hc.
  destruct Hs as [Hp _]. rewrite char_exact; cbn; rewrite ?Ht; [|lia|done]. by rewrite Hc.
Qed.

Lemma run_char_at s p fl rest n :
  reader s → stands p rest → 0 <= n <= 16 →
  char_at n (at_ s p fl) = Some (default (-1) (rest !! Z.to_nat n), at_ s p fl).
Proof.
  intros [Ht He _] Hs Hn. pose proof (stands_char p rest n Hs ltac:(lia)) as Hc. destruct Hs as [Hp _].
  rewrite <-Hc. unfold char_at. cbn. rewrite wrap_i64_id, Ht, He by lia. unfold char_of.
  destruct (Z.ltb_spec (p + n) (text_length T)); [|done].
  destruct (text_at_some T (p + n)) as [b Hb]; [lia|]. by rewrite Hb.
Qed.

Lemma run_slice s p fl a b : reader s → 0 <= a <= b → b <= text_length T →
  slice a b (at_ s p fl) = Some (sub T a b, at_ s p fl).
Proof. intros [Ht _ _] Ha Hb. unfold slice. cbn. by rewrite Ht, text_slice_some. Qed.

Lemma run_advance s p fl n : advance n (at_ s p fl) = Some (tt, at_ s (p + n) fl).
Proof. done. Qed.
Lemma run_set_pos s p fl q : set_pos q (at_ s p fl) = Some (tt, at_ s q fl).
Proof. done. Qed.
Lemma run_get_pos s p fl : get_pos (at_ s p fl) = Some (p, at_ s p fl).
Proof. done. Qed.
Lemma run_add_flags s p fl f : add_flags f (at_ s p fl) = Some (tt, at_ s p (Z.lor fl f)).
Proof. done. Qed.
Lemma run_set_flags s p fl f : set_flags f (at_ s p fl) = Some (tt, at_ s p f).
Proof. done. Qed.
Lemma run_get_flags s p fl : get_flags (at_ s p fl) = Some (fl, at_ s p fl).
Proof. done. Qed.
Lemma run_when_false m s : when false m s = Some (tt, s).
Proof. done. Qed.
Lemma run_lift {A} (o : option A) a s : o = Some a → lift o s = Some (a, s).
Proof. unfold lift. by intros ->. Qed.

(** One operation of the scanner, carried out. *)
Ltac run_step :=
  first
    [ rewrite (bind_exact (advance _) _ _ _ _ (run_advance _ _ _ _))
    | rewrite (bind_exact (set_pos _) _ _ _ _ (run_set_pos _ _ _ _))
    | rewrite (bind_exact get_pos _ _ _ _ (run_get_pos _ _ _))
    | rewrite (bind_exact (add_flags _) _ _ _ _ (run_add_flags _ _ _ _))
    | rewrite (bind_exact (set_flags _) _ _ _ _ (run_set_flags _ _ _ _))
    | rewrite (bind_exact get_flags _ _ _ _ (run_get_flags _ _ _))
    | rewrite (bind_exact (when false _) _ _ _ _ (run_when_false _ _))
    | erewrite (bind_exact char) by (eapply run_char; eassumption)
    | erewrite (bind_exact (char_at _)) by (eapply run_char_at; [eassumption|eassumption|lia]) ];
  cbn beta iota.

(** *** Hexadecimal digits *)

Lemma run_hex_loop s fl rest : reader s → ∀ d count p fuel,
  stands p (d ++ rest) → Forall (λ x, is_hex_digit x = true) d → count + text_length d = 4 →
  (length d < fuel)%nat →
  iterate fuel (hex_digits_body 4 false false) (count, false, false) (at_ s p fl)
    = Some ((4, false), at_ s (p + text_length d) fl).
Proof.
  intros Hs d. induction d as [|x d IH]; intros count p [|fuel] Hst Hd Hc Hf; try (cbn in Hf; lia);
    cbn [iterate].
  - change (text_length []) with 0 in *. replace count with 4 by lia. cbn.
    unfold hex_digits_body, mbind, M_bind; cbn. by rewrite Z.add_0_r.
  - unfold text_length in Hc. cbn [length] in Hc. apply Forall_cons in Hd as [Hx Hd].
    rewrite (bind_exact _ _ _ (inl (count + 1, false, false)) (at_ s (p + 1) fl)).
    + rewrite (IH (count + 1) (p + 1)); try done; [|by apply (stands_skip p [x])|unfold text_length; lia|cbn in Hf; lia].
      do 3 f_equal. unfold text_length. cbn [length]. lia.
    + unfold hex_digits_body. destruct (Z.ltb_spec count 4); [|lia]. cbn [orb negb]. run_step. cbn.
      rewrite Hx. by run_step.
Qed.

Lemma hex_digit_not_underscore d : Forall (λ x, is_hex_digit x = true) d → ch "_" ∉ d.
Proof. intros Hd Hin. rewrite Forall_forall in Hd. by specialize (Hd _ Hin). Qed.

Lemma run_cached_hex_digits s p fl d :
  reader s → Forall (λ x, is_hex_digit x = true) d →
  ∃ s', cached_hex_digits d (at_ s p fl) = Some (hex_canonical d, at_ s' p fl) ∧ kin s s'.
Proof.
  intros Hs Hd. pose proof (hex_digit_not_underscore d Hd) as Hno. unfold cached_hex_digits.
  destruct (hex_digit_cache s !! d) as [v|] eqn:E.
  - exists s. split; [|by apply kin_refl].
    rewrite (bind_exact _ _ _ (Some v) (at_ s p fl)) by (unfold gets; cbn; by rewrite E).
    destruct (reader_coherent _ Hs) as [_ _ Hc]. by rewrite (Hc _ _ E).
  - rewrite (bind_exact _ _ _ None (at_ s p fl)) by (unfold gets; cbn; by rewrite E). run_step.
    rewrite cook_hex_digits_canonical by (intros ?; by destruct Hno).
    exists (s <| hex_digit_cache := <[d := hex_canonical d]> (hex_digit_cache s) |>).
    split; [done|]. destruct Hs as [Ht He [Hn Hh Hc]]. split; [|done]. split; cbn; try done.
    split; cbn; try done. by apply map_Forall_insert_2.
Qed.

Lemma run_hex4 s p fl d rest :
  reader s → stands p (d ++ rest) → Forall (λ x, is_hex_digit x = true) d → length d = 4%nat →
  ∃ s', scan_hex_digits 4 false false (at_ s p fl) = Some (hex_canonical d, at_ s' (p + 4) fl) ∧ kin s s'.
Proof.
  intros Hs Hst Hd Hl. unfold scan_hex_digits. run_step.
  assert (text_length d = 4) as Hl' by (unfold text_length; lia).
  pose proof (stands_length _ _ Hst) as Hlen. unfold text_length in Hlen. rewrite length_app, Hl in Hlen.
  pose proof (proj1 Hst).
  rewrite (bind_exact _ _ _ (4, false) (at_ s (p + 4) fl)).
  - cbn beta iota. unfold trailing_separator. run_step. cbn. run_step.
    destruct Hst as [Hp Hdrop]. rewrite (bind_exact _ _ _ d (at_ s (p + 4) fl)).
    + by apply run_cached_hex_digits.
    + rewrite run_slice by (done || unfold text_length; lia). rewrite <-Hl'.
      by rewrite (stands_sub p d rest) by (split; [lia|done]).
  - pose proof (run_hex_loop s fl rest Hs d 0 p (S (S (length T))) Hst Hd ltac:(lia) ltac:(lia)) as E.
    rewrite Hl' in E. unfold loop. destruct Hs as [Ht _ _]. cbn. by rewrite Ht.
Qed.

(** *** Escapes *)

Definition unit_escape (n : Z) : bytes := encode_utf16_escape_sequence n.

Lemma run_unicode_escape report s p fl n rest :
  reader s → stands p (unit_escape n ++ rest) → 0 <= n <= 0xffff →
  ∃ s', scan_unicode_escape report (at_ s p fl) = Some (n, at_ s' (p + 6) (Z.lor fl UNICODE_ESCAPE)) ∧ kin s s'.
Proof.
  intros Hs Hst Hn. destruct (upper_hex4_digits n Hn) as (Hl & Hd & Hv).
  unfold unit_escape, encode_utf16_escape_sequence in Hst. rewrite <-app_assoc in Hst.
  pose proof (stands_skip p _ _ Hst) as Hst2. change (text_length (bs "\u")) with 2 in Hst2.
  unfold scan_unicode_escape. run_step. run_step. run_step.
  set (d := upper_hex4 n) in *. destruct d as [|x d'] eqn:Ed; [done|]. cbn [lookup list_lookup app default]; unfold Datatypes.id.
  assert (x =? ch "{" = false) as Hx.
  { apply Forall_cons in Hd as [Hx _]. apply Z.eqb_neq. by intros ->. }
  cbn. rewrite Hx. rewrite <-Ed in *.
  destruct (run_hex4 s (p + 2) (Z.lor fl UNICODE_ESCAPE) d rest Hs Hst2 Hd Hl) as (s' & E & Hk).
  exists s'. split; [|done].
  rewrite (bind_exact _ _ _ (hex_canonical d) (at_ s' (p + 2 + 4) (Z.lor fl UNICODE_ESCAPE))) by (by run_step).
  assert (hex_canonical d ≠ []) as Hne by by rewrite hex_canonical_lower, Ed by done.
  rewrite bool_decide_false by done.
  rewrite (bind_exact _ _ _ n (at_ s' (p + 2 + 4) (Z.lor fl UNICODE_ESCAPE))).
  - unfold mret, M_ret. do 3 f_equal. lia.
  - apply run_lift. rewrite hex_canonical_value, Hv by done. f_equal. lia.
Qed.

(** Flags that say nothing bad about the token. *)
Definition keeps_valid (fl fl' : Z) : Prop :=
  ∃ x, fl' = Z.lor fl x ∧ Z.land x (Z.lor UNTERMINATED CONTAINS_INVALID_ESCAPE) = 0.

Lemma keeps_valid_refl fl : keeps_valid fl fl.
Proof. exists 0. by rewrite Z.lor_0_r. Qed.
Lemma keeps_valid_trans fl fl1 fl2 : keeps_valid fl fl1 → keeps_valid fl1 fl2 → keeps_valid fl fl2.
Proof.
  intros (x & -> & Hx) (y & -> & Hy). exists (Z.lor x y). rewrite Z.lor_assoc. split; [done|].
  by rewrite Z.land_lor_distr_l, Hx, Hy.
Qed.
Lemma keeps_valid_unicode fl : keeps_valid fl (Z.lor fl UNICODE_ESCAPE).
Proof. by exists UNICODE_ESCAPE. Qed.

Definition STRING_ESCAPE : Z := Z.lor STRING REPORT_ERRORS.

(** The escape [e], read in front of [rest], has the value [v]. *)
Definition reads_escape (e v rest : bytes) : Prop :=
  ∀ s p fl, reader s → stands p (e ++ rest) →
  ∃ s' fl', scan_escape_sequence STRING_ESCAPE (at_ s p fl) = Some (v, at_ s' (p + text_length e) fl')
    ∧ kin s s' ∧ keeps_valid fl fl'.

Lemma reads_simple c v rest : simple_escape c = Some v → reads_escape ([ch "\"; c]) v rest.
Proof.
  intros Hc s p fl Hs Hst. pose proof (stands_skip p [ch "\"] _ Hst) as Hst1.
  change (text_length [ch "\"]) with 1 in Hst1. exists s, fl.
  split; [|split; [by apply kin_refl|apply keeps_valid_refl]].
  unfold scan_escape_sequence. do 3 run_step. cbn.
  assert (0 <= c ∧ in_range (ch "0") (ch "7") c = false ∧ (c =? ch "8") || (c =? ch "9") = false) as (Hc0 & Hc1 & Hc2).
  { unfold simple_escape, in_range in *. revert Hc. chars. repeat (case_match; try lia); done. }
  destruct (Z.ltb_spec c 0); [lia|]. run_step. rewrite Hc1, Hc2, Hc. unfold mret, M_ret.
  do 3 f_equal. change (text_length [ch "\"; c]) with 2. lia.
Qed.

Lemma reads_other c rest : c = ch "\" ∨ c = ch "`" ∨ c = ch "$" → reads_escape [ch "\"; c] [c] rest.
Proof.
  intros Hc s p fl Hs Hst. pose proof (stands_skip p [ch "\"] _ Hst) as Hst1.
  change (text_length [ch "\"]) with 1 in Hst1. exists s, fl.
  split; [|split; [by apply kin_refl|apply keeps_valid_refl]].
  unfold scan_escape_sequence. do 3 run_step. cbn [lookup list_lookup app default]; unfold Datatypes.id.
  replace (p + text_length [ch "\"; c]) with (p + 1 + 1) by (change (text_length [ch "\"; c]) with 2; lia).
  by destruct Hc as [-> |[-> | ->]].
Qed.

Lemma reads_null rest :
  is_digit (default (-1) (rest !! 0%nat)) = false → reads_escape [ch "\"; ch "0"] [0] rest.
Proof.
  intros Hr s p fl Hs Hst. pose proof (stands_skip p [ch "\"] _ Hst) as Hst1.
  pose proof (stands_skip p [ch "\"; ch "0"] _ Hst) as Hst2.
  change (text_length [ch "\"]) with 1 in Hst1. change (text_length [ch "\"; ch "0"]) with 2 in *.
  exists s, fl. split; [|split; [by apply kin_refl|apply keeps_valid_refl]].
  unfold scan_escape_sequence. do 3 run_step. cbn [lookup list_lookup app default]; unfold Datatypes.id.
  replace (p + 2) with (p + 1 + 1) in * by lia.
  change (ch "0" <? 0) with false. change (in_range (ch "0") (ch "7") (ch "0")) with true. cbn beta iota.
  run_step. unfold escape_octal. run_step. by rewrite Hr.
Qed.

Lemma reads_x00 rest : reads_escape (bs "\x00") [0] rest.
Proof.
  change (bs "\x00") with [ch "\"; ch "x"; ch "0"; ch "0"]. intros s p fl Hs Hst.
  pose proof (stands_skip p [ch "\"] _ Hst) as Hst1.
  pose proof (stands_skip p [ch "\"; ch "x"] _ Hst) as Hst2.
  pose proof (stands_skip p [ch "\"; ch "x"; ch "0"] _ Hst) as Hst3.
  pose proof (stands_length _ _ Hst) as Hlen. unfold text_length in Hlen. rewrite length_app in Hlen.
  cbn [length] in Hlen. pose proof (proj1 Hst).
  change (text_length [ch "\"]) with 1 in Hst1. change (text_length [ch "\"; ch "x"]) with 2 in Hst2.
  change (text_length [ch "\"; ch "x"; ch "0"]) with 3 in Hst3.
  change (text_length _) with 4 at 1. exists s, (Z.lor fl HEX_ESCAPE).
  split; [|split; [by apply kin_refl|by exists HEX_ESCAPE]].
  unfold scan_escape_sequence. do 3 run_step. cbn [lookup list_lookup app default]; unfold Datatypes.id.
  replace (p + 2) with (p + 1 + 1) in * by lia. replace (p + 3) with (p + 1 + 1 + 1) in * by lia.
  change (ch "x" <? 0) with false. cbn beta iota. run_step.
  change (in_range (ch "0") (ch "7") (ch "x")) with false.
  change ((ch "x" =? ch "8") || (ch "x" =? ch "9")) with false. change (simple_escape (ch "x")) with (@None bytes). cbn beta iota.
  change (ch "x" =? ch "u") with false. change (ch "x" =? ch "x") with true. cbn beta iota.
  unfold escape_hex. rewrite (bind_exact _ _ _ true (at_ s (p + 4) fl)).
  - run_step. cbn [negb]. run_step.
    rewrite (bind_exact _ _ _ [ch "0"; ch "0"] (at_ s (p + 4) (Z.lor fl HEX_ESCAPE))); [done|].
    rewrite run_slice by (done || unfold text_length in *; lia).
    replace (p + 4) with (p + 1 + 1 + text_length [ch "0"; ch "0"]) by (change (text_length _) with 2; lia).
    replace (p + 2) with (p + 1 + 1) by lia. by rewrite (stands_sub _ [ch "0"; ch "0"] rest) by done.
  - unfold loop. rewrite (reader_text _ Hs : text (at_ s _ _) = T).
    assert (∃ n, S (S (length T)) = S (S (S n))) as [n ->] by (exists (length T - 1)%nat; lia).
    cbn [iterate].
    rewrite (bind_exact _ _ _ (inl tt) (at_ s (p + 1 + 1 + 1) fl)).
    + rewrite (bind_exact _ _ _ (inl tt) (at_ s (p + 1 + 1 + 1 + 1) fl)).
      * rewrite (bind_exact _ _ _ (inr true) (at_ s (p + 1 + 1 + 1 + 1) fl)); [|unfold hex_escape_body].
        -- unfold mret, M_ret. do 3 f_equal. lia.
        -- run_step. by replace (p + 1 + 1 + 1 + 1 <? p + 4) with false by lia.
      * unfold hex_escape_body. run_step. replace (p + 1 + 1 + 1 <? p + 4) with true by lia. cbn [negb].
        by run_step.
    + unfold hex_escape_body. run_step. replace (p + 1 + 1 <? p + 4) with true by lia. cbn [negb].
      by run_step.
Qed.

(** *** Escapes of UTF-16 units *)

(** No escape of a low surrogate, which would be read together with a high one. *)
Definition no_low (rest : bytes) : Prop :=
  (∀ r, rest ≠ ch "\" :: ch "u" :: r)
  ∨ ∃ n r, rest = unit_escape n ++ r ∧ 0 <= n <= 0xffff ∧ is_low_surrogate n = false.

Lemma run_escape_unit s p fl n rest :
  reader s → stands p (unit_escape n ++ rest) → 0 <= n <= 0xffff →
  ∃ s', kin s s' ∧
  scan_escape_sequence STRING_ESCAPE (at_ s p fl)
  = (if is_high_surrogate n then join_low_surrogate n else mret (encode_rune n))
      (at_ s' (p + 6) (Z.lor fl UNICODE_ESCAPE)).
Proof.
  intros Hs Hst Hn. destruct (run_unicode_escape true s p fl n rest Hs Hst Hn) as (s' & E & Hk).
  exists s'. split; [done|]. destruct (upper_hex4_digits n Hn) as (Hl & Hd & _).
  assert (unit_escape n ++ rest = ch "\" :: ch "u" :: upper_hex4 n ++ rest) as Eu by done.
  rewrite Eu in Hst.
  pose proof (stands_skip p [ch "\"] _ Hst) as Hst1. change (text_length [ch "\"]) with 1 in Hst1.
  pose proof (stands_skip p [ch "\"; ch "u"] _ Hst) as Hst2.
  change (text_length [ch "\"; ch "u"]) with 2 in Hst2. replace (p + 2) with (p + 1 + 1) in Hst2 by lia.
  unfold scan_escape_sequence. do 3 run_step. cbn [lookup list_lookup default from_option]; unfold Datatypes.id.
  change (ch "u" <? 0) with false. cbn beta iota. run_step.
  change (in_range (ch "0") (ch "7") (ch "u")) with false.
  change ((ch "u" =? ch "8") || (ch "u" =? ch "9")) with false. change (simple_escape (ch "u")) with (@None bytes).
  change (ch "u" =? ch "u") with true. cbn beta iota. unfold escape_unicode. run_step.
  destruct (upper_hex4 n) as [|x d] eqn:Ed; [done|]. cbn [lookup list_lookup default from_option app]; unfold Datatypes.id.
  assert (x =? ch "{" = false) as Hx.
  { apply Forall_cons in Hd as [Hx _]. apply Z.eqb_neq. by intros ->. }
  rewrite Hx. run_step. replace (p + 1 + 1 + -2) with p by lia.
  change (escape_reports STRING_ESCAPE) with true. rewrite (bind_exact _ _ _ _ _ E). cbn beta iota.
  destruct (Z.ltb_spec n 0); [lia|]. by destruct (is_high_surrogate n).
Qed.

Lemma reads_unit n rest :
  0 <= n <= 0xffff → is_high_surrogate n = false → reads_escape (unit_escape n) (encode_rune n) rest.
Proof.
  intros Hn Hh s p fl Hs Hst. destruct (run_escape_unit s p fl n rest Hs Hst Hn) as (s' & Hk & ->).
  rewrite Hh. exists s', (Z.lor fl UNICODE_ESCAPE).
  assert (text_length (unit_escape n) = 6) as ->.
  { destruct (upper_hex4_digits n Hn) as [Hl _]. unfold text_length. cbn. lia. }
  split; [done|]. split; [done|apply keeps_valid_unicode].
Qed.

Lemma unit_escape_length n : 0 <= n <= 0xffff → text_length (unit_escape n) = 6.
Proof. intros Hn. destruct (upper_hex4_digits n Hn) as [Hl _]. unfold text_length. cbn. lia. Qed.

Lemma run_low_surrogate s p fl high n rest :
  reader s → stands p (unit_escape n ++ rest) → 0 <= n <= 0xffff →
  ∃ s', kin s s' ∧
  scan_low_surrogate_escape high (at_ s p fl)
  = Some (if is_low_surrogate n
          then (Some (surrogate_pair_to_code_point high n), at_ s' (p + 6) (Z.lor fl UNICODE_ESCAPE))
          else (None, at_ s' p fl)).
Proof.
  intros Hs Hst Hn. destruct (run_unicode_escape false s p fl n rest Hs Hst Hn) as (s' & E & Hk).
  exists s'. split; [done|]. unfold scan_low_surrogate_escape.
  assert (stands p (ch "\" :: ch "u" :: upper_hex4 n ++ rest)) as Hst' by exact Hst.
  clear Hst. run_step. cbn [lookup list_lookup default from_option]; unfold Datatypes.id.
  run_step. change (Z.to_nat 1) with 1%nat. cbn [lookup list_lookup default from_option]; unfold Datatypes.id.
  rewrite !Z.eqb_refl. cbn [negb orb]. do 2 run_step. rewrite (bind_exact _ _ _ _ _ E). cbn beta iota.
  destruct (is_low_surrogate n); [done|]. by do 2 run_step.
Qed.

Lemma run_no_low_surrogate s p fl high rest :
  reader s → stands p rest → no_low rest →
  ∃ s', kin s s' ∧ scan_low_surrogate_escape high (at_ s p fl) = Some (None, at_ s' p fl).
Proof.
  intros Hs Hst [Hno|(n & r & -> & Hn & Hlow)].
  - exists s. split; [by apply kin_refl|]. unfold scan_low_surrogate_escape. do 2 run_step.
    change (Z.to_nat 1) with 1%nat.
    destruct rest as [|x rest]; [done|]. cbn [lookup list_lookup default from_option]; unfold Datatypes.id.
    destruct (Z.eqb_spec x (ch "\")) as [->|]; [|done]. destruct rest as [|y rest]; [done|].
    cbn [lookup list_lookup default from_option]; unfold Datatypes.id.
    destruct (Z.eqb_spec y (ch "u")) as [->|]; [|done]. by destruct (Hno rest).
  - destruct (run_low_surrogate s p fl high n r Hs Hst Hn) as (s' & Hk & E). exists s'. split; [done|].
    by rewrite E, Hlow.
Qed.

Lemma reads_high n rest :
  is_high_surrogate n = true → no_low rest → reads_escape (unit_escape n) (encode_rune n) rest.
Proof.
  intros Hh Hno s p fl Hs Hst.
  assert (0 <= n <= 0xffff) as Hn by (unfold is_high_surrogate, in_range in Hh; lia).
  destruct (run_escape_unit s p fl n rest Hs Hst Hn) as (s1 & Hk1 & ->).
  pose proof (stands_skip p _ _ Hst) as Hst1. rewrite unit_escape_length in * by done.
  rewrite Hh. unfold join_low_surrogate.
  destruct (run_no_low_surrogate s1 (p + 6) (Z.lor fl UNICODE_ESCAPE) n rest) as (s2 & Hk2 & E);
    [apply Hk1|done|done|].
  rewrite (bind_exact _ _ _ _ _ E). exists s2, (Z.lor fl UNICODE_ESCAPE).
  split; [done|]. split; [by eapply kin_trans|apply keeps_valid_unicode].
Qed.

Lemma reads_pair high low rest :
  is_high_surrogate high = true → is_low_surrogate low = true →
  reads_escape (unit_escape high ++ unit_escape low) (encode_rune (surrogate_pair_to_code_point high low)) rest.
Proof.
  intros Hh Hl s p fl Hs Hst.
  assert (0 <= high <= 0xffff) as Hn by (unfold is_high_surrogate, in_range in Hh; lia).
  assert (0 <= low <= 0xffff) as Hn' by (unfold is_low_surrogate, in_range in Hl; lia).
  assert (text_length (unit_escape high ++ unit_escape low) = 12) as ->.
  { unfold text_length in *. rewrite length_app. pose proof (unit_escape_length high Hn).
    pose proof (unit_escape_length low Hn'). unfold text_length in *. lia. }
  rewrite <-app_assoc in Hst.
  destruct (run_escape_unit s p fl high _ Hs Hst Hn) as (s1 & Hk1 & ->).
  pose proof (stands_skip p _ _ Hst) as Hst1. rewrite unit_escape_length in * by done.
  rewrite Hh. unfold join_low_surrogate.
  destruct (run_low_surrogate s1 (p + 6) (Z.lor fl UNICODE_ESCAPE) high low rest) as (s2 & Hk2 & E);
    [apply Hk1|done|done|].
  rewrite Hl in E. rewrite (bind_exact _ _ _ _ _ E). cbn beta iota.
  exists s2, (Z.lor (Z.lor fl UNICODE_ESCAPE) UNICODE_ESCAPE).
  split; [unfold mret, M_ret; do 3 f_equal; lia|]. split; [by eapply kin_trans|].
  eapply keeps_valid_trans; apply keeps_valid_unicode.
Qed.
End Exact.
