(* ===== verification/EscapeReadBack.v ===== *)
(** What the printer escapes, the scanner reads back: a literal around the escaped form of
    a text has the text as its value. *)

From stdpp Require Import gmap.
From S2P Require Import Prelude Wtf8 TextEdits BigInt ScannerKinds ScannerState ScannerWp.
From S2P Require Import ScannerDigits ScannerEscape ScannerLexemes ScannerTrivia Escape.

Local Open Scope Z_scope.

(** ** The escaped text, piece by piece *)

Section Pieces.
Context (quote : QuoteChar) (flags : Z).

(** What is written for the rune a text begins with, and how long that is in the text. *)
Definition piece (rest : bytes) : bytes * nat :=
  let '(rune, width) := decode_rune rest in
  let next := rest !! 1%nat in
  if must_escape quote flags next rune (Z.of_nat width)
  then let '(escaped, width) := escape_rune quote flags next rune (Z.of_nat width) in (escaped, Z.to_nat width)
  else (take width rest, width).

Fixpoint escaped_fuel (fuel : nat) (rest : bytes) : bytes :=
  match fuel, rest with
  | S fuel, _ :: _ => let '(b, n) := piece rest in b ++ escaped_fuel fuel (drop n rest)
  | _, _ => []
  end.

(** The whole text, escaped. *)
Definition escaped (t : bytes) : bytes := escaped_fuel (length t) t.

Lemma escape_rune_width next rune w :
  (escape_rune quote flags next rune w).2 = w
  ∨ (escape_rune quote flags next rune w).2 = w + 1 ∧ rune = 13 ∧ next = Some 10.
Proof.
  unfold escape_rune. destruct (jsx flags); [by left|].
  destruct ((rune =? 13) && bool_decide (quote = Backtick) && bool_decide (next = Some 10)) eqn:E.
  - right. apply andb_true_iff in E as [[?%Z.eqb_eq _]%andb_true_iff ?%bool_decide_eq_true]. done.
  - left. by repeat case_match.
Qed.

Lemma decode_carriage_return rest w : all_bytes rest → decode_rune rest = (13, w) → w = 1%nat.
Proof.
  intros Hb Hd. destruct (decide (rest = [])) as [->|Hne]; [done|].
  destruct (decode_rune_inv rest Hb Hne) as [E|(c & t & Hc & ->)];
    [rewrite E in Hd; by injection Hd as _ <-|].
  rewrite decode_rune_encoded in Hd by done. by injection Hd as -> <-.
Qed.

Lemma piece_length rest : all_bytes rest → rest ≠ [] → (1 <= (piece rest).2 <= length rest)%nat.
Proof.
  intros Hb Hne. pose proof (decode_rune_step rest Hne) as Hw. unfold piece.
  destruct (decode_rune rest) as [rune w] eqn:E. cbn [snd] in Hw.
  destruct (must_escape _ _ _ _ _); [|done].
  pose proof (escape_rune_width (rest !! 1%nat) rune (Z.of_nat w)) as Hr.
  destruct (escape_rune _ _ _ _ _) as [e w']. cbn [snd] in *.
  destruct Hr as [->|(-> & -> & Hn)]; [lia|]. apply lookup_lt_Some in Hn.
  rewrite (decode_carriage_return _ _ Hb E). lia.
Qed.

Lemma escaped_fuel_enough f1 f2 t :
  all_bytes t → (length t <= f1)%nat → (length t <= f2)%nat → escaped_fuel f1 t = escaped_fuel f2 t.
Proof.
  revert f2 t. induction f1 as [|f1 IH]; intros f2 t Hb H1 H2.
  - destruct t; [by destruct f2|cbn in H1; lia].
  - destruct t as [|x t]; [by destruct f2|]. destruct f2 as [|f2]; [cbn in H2; lia|]. cbn [escaped_fuel].
    pose proof (piece_length (x :: t) Hb ltac:(done)) as Hn. destruct (piece (x :: t)) as [b n].
    cbn [snd] in Hn. f_equal. apply IH; [by apply Forall_drop|rewrite length_drop; lia..].
Qed.

Lemma escaped_cons t b n :
  all_bytes t → t ≠ [] → piece t = (b, n) → escaped t = b ++ escaped (drop n t).
Proof.
  intros Hb Hne E. unfold escaped. pose proof (piece_length t Hb Hne) as Hn. rewrite E in Hn. cbn [snd] in Hn.
  destruct t as [|x t]; [done|]. cbn [length escaped_fuel]. rewrite E. f_equal.
  apply escaped_fuel_enough; [by apply Forall_drop|rewrite length_drop; cbn in *; lia..].
Qed.

Lemma escape_string_pieces t :
  all_bytes t → escape_string_with_flags quote flags t = Some (escaped t).
Proof.
  intros Hb.
  assert (∃ out, escape_string_with_flags quote flags t = Some out ∧ out = escaped t) as (out & -> & ->);
    [|done].
  apply (while_total (escape_body quote flags t)
    (λ '(out, c, p), 0 <= c <= p ∧ p <= text_length t
       ∧ out ++ sub t c p ++ escaped (drop (Z.to_nat p) t) = escaped t)
    (λ '(_, _, p), text_length t - p)).
  2: { rewrite sub_empty. pose proof (text_length_nonneg t). split_and!; (lia || done). }
  2: { unfold text_length. lia. }
  intros [[out c] p] (Hc & Hp & Heq). split; [lia|]. unfold escape_body.
  destruct (Z.ltb_spec p (text_length t)) as [Hlt|Hge].
  - rewrite text_tail_some by lia. cbn [mbind option_bind]. set (rest := drop (Z.to_nat p) t) in *.
    assert (all_bytes rest) as Hbr by by apply Forall_drop.
    assert (rest ≠ []) as Hne.
    { intros E. apply (f_equal length) in E. unfold rest in E. rewrite length_drop in E.
      unfold text_length in *. cbn in E. lia. }
    assert (text_at t (p + 1) = rest !! 1%nat) as ->.
    { unfold text_at, rest. destruct (Z.ltb_spec (p + 1) 0); [lia|]. rewrite lookup_drop. f_equal. lia. }
    pose proof (piece_length rest Hbr Hne) as Hn. destruct (piece rest) as [b n] eqn:Ep. cbn [snd] in Hn.
    rewrite (escaped_cons rest b n Hbr Hne Ep) in Heq. unfold piece in Ep.
    assert (p + Z.of_nat n <= text_length t) as Hend.
    { unfold rest in Hn. rewrite length_drop in Hn. unfold text_length in *. lia. }
    assert (drop n rest = drop (Z.to_nat (p + Z.of_nat n)) t) as Hdrop.
    { unfold rest. rewrite drop_drop. f_equal. lia. }
    destruct (decode_rune rest) as [rune w] eqn:Ed.
    destruct (must_escape _ _ _ _ _) eqn:Em.
    + rewrite text_slice_some by lia. cbn [mbind option_bind].
      pose proof (escape_rune_width (rest !! 1%nat) rune (Z.of_nat w)) as Hw.
      destruct (escape_rune _ _ _ _ _) as [e w']. cbn [snd] in Hw. injection Ep as -> <-.
      replace (p + w') with (p + Z.of_nat (Z.to_nat w')) by lia. eexists. split; [done|].
      split; [|lia]. split_and!; [lia..|]. rewrite sub_empty, <-Hdrop, <-Heq, <-!(assoc_L (++)). done.
    + injection Ep as <- <-. eexists. split; [done|]. split; [|lia]. split_and!; [lia..|].
      rewrite <-Hdrop, <-Heq. f_equal. rewrite (assoc_L (++)). f_equal.
      rewrite <-(sub_app t c p (p + Z.of_nat w)) by lia. f_equal. unfold sub. f_equal. lia.
  - rewrite text_tail_some by lia. cbn [mbind option_bind]. eexists. split; [done|]. cbn beta iota.
    rewrite <-Heq. replace p with (text_length t) by lia. unfold text_length at 2. rewrite Nat2Z.id, drop_all.
    cbn. rewrite app_nil_r. f_equal. unfold sub, text_length. rewrite take_ge; [done|]. rewrite length_drop. lia.
Qed.
End Pieces.

(** ** What the pieces look like *)

Section Shapes.
Context (quote : QuoteChar) (flags : Z) (flags_plain : jsx flags = false) (quote_string : quote ≠ Backtick).
Notation q := (quote_byte quote).

(** The form of the piece for the code point [c] in front of [rest]. *)
Inductive shape (c : Z) (rest : bytes) : bytes → Prop :=
  | shape_raw : is_surrogate c = false → Forall (plain_byte q false) (utf8_arith c) → shape c rest (utf8_arith c)
  | shape_simple x : simple_escape x = Some (encode_rune c) → shape c rest [ch "\"; x]
  | shape_other : c = ch "\" ∨ c = ch "`" ∨ c = ch "$" → shape c rest [ch "\"; c]
  | shape_null : c = 0 → is_digit (default (-1) (rest !! 0%nat)) = false → shape c rest [ch "\"; ch "0"]
  | shape_x00 : c = 0 → shape c rest (bs "\x00")
  | shape_unit : 0 <= c <= 0xffff → shape c rest (unit_escape c)
  | shape_pair high low :
      is_high_surrogate high = true → is_low_surrogate low = true → surrogate_pair_to_code_point high low = c →
      shape c rest (unit_escape high ++ unit_escape low).

Lemma supplementary_pair c :
  0xffff < c <= 0x10ffff →
  let high := Z.shiftr (c - 0x10000) 10 + 0xd800 in
  let low := Z.land (c - 0x10000) 0x3ff + 0xdc00 in
  is_high_surrogate high = true ∧ is_low_surrogate low = true ∧ surrogate_pair_to_code_point high low = c.
Proof.
  intros Hc. cbv zeta. rewrite Z.shiftr_div_pow2 by lia. change 0x3ff with (Z.ones 10).
  rewrite Z.land_ones by lia. change (2 ^ 10) with 1024. set (v := c - 0x10000).
  assert (is_high_surrogate (v / 1024 + 0xd800) = true) as Hh.
  { unfold is_high_surrogate. apply in_range_true. unfold v. zdiv. }
  assert (is_low_surrogate (v mod 1024 + 0xdc00) = true) as Hl.
  { unfold is_low_surrogate. apply in_range_true. zdiv. }
  split_and!; [done|done|]. unfold surrogate_pair_to_code_point. rewrite Hh, Hl. cbn [andb].
  rewrite Z.shiftl_mul_pow2 by lia. unfold v. zdiv.
Qed.

(** A rune that is not escaped has plain bytes only. *)
Lemma raw_bytes c next w :
  code_point c → must_escape quote flags next c w = false →
  is_surrogate c = false ∧ Forall (plain_byte q false) (utf8_arith c).
Proof.
  intros Hc Hm. unfold must_escape in Hm. rewrite flags_plain in Hm. cbn [negb] in Hm.
  destruct (Z.eqb_spec c (ch "\")) as [->|Hb]; [by rewrite orb_true_r in Hm|].
  assert (is_surrogate c = false ∧ c ≠ q ∧ c ≠ 13 ∧ c ≠ 10) as (Hs & Hq & Hcr & Hlf).
  { destruct (Z.eqb_spec c (ch "$")) as [->|]; [by destruct quote|].
    destruct (Z.eqb_spec c q); [done|]. cbn [orb] in Hm.
    destruct (_ || _) eqn:E; [done|]. rewrite !orb_false_iff in E.
    destruct (Z.eqb_spec c 10); [rewrite bool_decide_true in Hm by done; by rewrite orb_true_r in Hm|].
    destruct (is_surrogate c); [done|]. split_and!; try done. lia. }
  split; [done|]. destruct (Z.lt_ge_cases c 128).
  - unfold utf8_arith. destruct (Z.ltb_spec c 128); [|lia]. apply Forall_singleton.
    split_and!; [apply Hc|done|]. intros _. unfold needs_loop. rewrite !orb_false_iff. lia.
  - assert (Forall (λ x, 128 <= x) (utf8_arith c)) as Hall.
    { destruct (utf8_arith_lead c) as (x & t & E & Hx); [unfold code_point in Hc; lia|]. rewrite E.
      constructor; [lia|]. pose proof (utf8_arith_tail _ _ _ Hc E) as Ht.
      apply (Forall_impl _ _ _ Ht). intros; cbn in *; lia. }
    apply (Forall_impl _ _ _ Hall). intros x Hx. cbn in Hx. split_and!; [lia|destruct quote; cbn; lia|].
    intros _. unfold needs_loop. chars. lia.
Qed.

Lemma escape_rune_shape c rest w :
  code_point c →
  ∃ e, escape_rune quote flags ((utf8_arith c ++ rest) !! 1%nat) c w = (e, w) ∧ shape c rest e.
Proof.
  intros Hc. unfold escape_rune. rewrite flags_plain, (bool_decide_false (quote = Backtick)) by done.
  rewrite andb_false_r. cbn [andb]. destruct (Z.ltb_spec 0xffff c).
  { eexists. split; [done|]. apply shape_pair; apply supplementary_pair; unfold code_point in Hc; lia. }
  assert (0 <= c <= 0xffff) as Hu by (unfold code_point in Hc; lia).
  destruct (is_surrogate c) eqn:Es; [eexists; split; [done|by apply shape_unit]|].
  destruct (Z.eqb_spec c 0) as [->|Hz].
  { change (utf8_arith 0) with [0]. cbn [app lookup list_lookup]. eexists. split; [done|].
    destruct rest as [|d rest]; [by apply shape_null|]. destruct (is_ascii_digit d) eqn:Ed.
    - replace (_ !! 0%nat) with (Some d) by done. rewrite Ed. by apply shape_x00.
    - replace (_ !! 0%nat) with (Some d) by done. rewrite Ed. apply shape_null; [done|exact Ed]. }
  eexists. split; [done|]. unfold canonical_escape. rewrite Es. replace (0x10ffff <? c) with false by lia.
  cbn [orb].
  repeat match goal with
  | |- shape c rest (match (if ?c =? ?x then _ else _) with Some _ => _ | None => _ end) =>
      destruct (Z.eqb_spec c x) as [->|];
      [first [by apply shape_simple|by apply (shape_other _ _); auto|by apply (shape_unit x)]|]
  end.
  by apply shape_unit.
Qed.

Lemma piece_shape c rest :
  code_point c → ∃ e, piece quote flags (utf8_arith c ++ rest) = (e, length (utf8_arith c)) ∧ shape c rest e.
Proof.
  intros Hc. unfold piece. rewrite decode_rune_encoded by done.
  destruct (must_escape _ _ _ _ _) eqn:Em.
  - destruct (escape_rune_shape c rest (Z.of_nat (length (utf8_arith c))) Hc) as (e & -> & He).
    exists e. by rewrite Nat2Z.id.
  - destruct (raw_bytes _ _ _ Hc Em). exists (utf8_arith c). rewrite take_app_length. split; [done|].
    by apply shape_raw.
Qed.

Lemma piece_surrogate c rest :
  is_surrogate c = true → piece quote flags (utf8_arith c ++ rest) = (unit_escape c, length (utf8_arith c)).
Proof.
  intros Hs. assert (55296 <= c <= 57343) as Hc by by apply is_surrogate_true.
  unfold piece. rewrite decode_rune_encoded by (unfold code_point; lia).
  unfold must_escape, escape_rune. rewrite flags_plain, Hs. cbn [orb].
  replace (c =? ch "\") with false by (chars; lia). replace (c =? ch "$") with false by (chars; lia).
  replace (c =? 10) with false by lia. replace (c =? 13) with false by lia. cbn [andb].
  replace (0xffff <? c) with false by lia. destruct (_ || _); by rewrite Nat2Z.id.
Qed.

Lemma piece_error b0 rest :
  decode_rune (b0 :: rest) = (RUNE_ERROR, 1%nat) → piece quote flags (b0 :: rest) = (unit_escape RUNE_ERROR, 1%nat).
Proof.
  intros Hd. unfold piece. rewrite Hd. unfold must_escape, escape_rune. rewrite flags_plain.
  replace (RUNE_ERROR =? q) with false by by destruct quote. done.
Qed.
End Shapes.

(** ** The value of a literal *)

(** The code points of a text, its surrogate pairs joined and its malformed bytes
    replaced, in bytes again. *)
Definition literal_value (t : bytes) : bytes := concat (map encode_rune (join_pairs (code_points t))).

Lemma literal_value_single c rest :
  code_point c → all_bytes rest → (is_high_surrogate c = true → is_low_surrogate (decode_rune rest).1 = false) →
  literal_value (utf8_arith c ++ rest) = encode_rune c ++ literal_value rest.
Proof.
  intros Hc Hb Hh. unfold literal_value.
  rewrite code_points_encoded, join_pairs_single; [done| |done|done|by apply utf8_arith_bytes].
  intros E. specialize (Hh E). pose proof (code_points_head rest) as Hd. by destruct (code_points rest); subst.
Qed.

Lemma literal_value_pair high low rest :
  is_high_surrogate high = true → is_low_surrogate low = true → all_bytes rest →
  literal_value (utf8_arith high ++ utf8_arith low ++ rest)
  = encode_rune (surrogate_pair_to_code_point high low) ++ literal_value rest.
Proof.
  intros Hh Hl Hb. destruct (high_surrogate_code_point _ Hh) as [Hc _], (low_surrogate_code_point _ Hl) as [Hc' _].
  pose proof (utf8_arith_bytes _ Hc). pose proof (utf8_arith_bytes _ Hc'). unfold literal_value.
  rewrite !code_points_encoded; try done; [|by apply Forall_app]. cbn [join_pairs]. by rewrite Hh, Hl.
Qed.

Lemma literal_value_error b0 rest :
  decode_rune (b0 :: rest) = (RUNE_ERROR, 1%nat) →
  literal_value (b0 :: rest) = encode_rune RUNE_ERROR ++ literal_value rest.
Proof. intros Hd. unfold literal_value. by rewrite code_points_error, join_pairs_single. Qed.

(** ** Reading back *)

Section ReadBack.
Context `{JsNum, NumBigint, IdentifierTables} (T : bytes) (T_bytes : all_bytes T)
  (T_fits : text_length T + 16 <= I64_MAX).
Context (quote : QuoteChar) (flags : Z) (flags_plain : jsx flags = false) (quote_string : quote ≠ Backtick).
Notation q := (quote_byte quote).
Notation escaped := (escaped quote flags).

Lemma shape_no_low c rest e r : shape quote c rest e → is_low_surrogate c = false → no_low (e ++ r).
Proof.
  intros He Hl. destruct He as [_ Hraw|x Hx|Hc|_ _|_|Hc|high low Hh Hlow _].
  - left. intros r' E. destruct (utf8_arith c) as [|x t] eqn:Ec; [by apply utf8_arith_not_nil in Ec|]. injection E as -> _.
    apply Forall_cons in Hraw as [(_ & _ & Hn) _]. by specialize (Hn eq_refl).
  - left. intros r' [= ->]. change (simple_escape (ch "u")) with (@None bytes) in Hx. done.
  - left. intros r' [= ->]. vm_compute in Hc. by destruct Hc as [|[]].
  - left. by intros r' [= ?].
  - left. by intros r' [= ?].
  - right. by exists c, r.
  - right. exists high, (unit_escape low ++ r). rewrite <-(assoc_L (++)). split; [done|].
    unfold is_high_surrogate, is_low_surrogate in *. apply in_range_true in Hh.
    split; [lia|]. apply not_true_is_false. rewrite in_range_true. lia.
Qed.

(** The piece a nonempty text begins with. *)
Lemma escaped_view rest :
  all_bytes rest → rest = []
  ∨ (∃ c rest' e, rest = utf8_arith c ++ rest' ∧ code_point c ∧ all_bytes rest' ∧ (decode_rune rest).1 = c
       ∧ escaped rest = e ++ escaped rest' ∧ shape quote c rest' e)
  ∨ ∃ b0 rest', rest = b0 :: rest' ∧ decode_rune rest = (RUNE_ERROR, 1%nat) ∧ all_bytes rest'
      ∧ escaped rest = unit_escape RUNE_ERROR ++ escaped rest'.
Proof.
  intros Hb. destruct (decide (rest = [])) as [->|Hne]; [by left|right].
  destruct (decode_rune_inv rest Hb Hne) as [Hd|(c & rest' & Hc & ->)].
  - right. destruct rest as [|b0 rest']; [done|]. exists b0, rest'. apply Forall_cons in Hb as [Hb0 Hb].
    split_and!; try done.
    apply (escaped_cons quote flags (b0 :: rest') _ 1); [by constructor|done|by apply piece_error].
  - left. destruct (piece_shape quote flags flags_plain quote_string c rest' Hc) as (e & Hp & He).
    exists c, rest', e. split_and!; try done; [by apply Forall_app in Hb as [_ ?]|by rewrite decode_rune_encoded|].
    by rewrite (escaped_cons quote flags _ _ _ Hb Hne Hp), drop_app_length.
Qed.

Lemma escaped_no_low rest post :
  all_bytes rest → is_low_surrogate (decode_rune rest).1 = false → no_low (escaped rest ++ q :: post).
Proof.
  intros Hb Hl. destruct (escaped_view rest Hb) as [->|[(c & rest' & e & -> & Hc & Hb' & Hd & -> & He)|
    (b0 & rest' & -> & _ & _ & ->)]].
  - left. intros r. cbn. by destruct quote.
  - rewrite <-(assoc_L (++)). apply (shape_no_low _ _ _ _ He). by rewrite <-Hd.
  - right. exists RUNE_ERROR, (escaped rest' ++ q :: post). by rewrite (assoc_L (++)).
Qed.

Lemma escaped_digit rest post :
  all_bytes rest → is_digit (default (-1) (rest !! 0%nat)) = false →
  is_digit (default (-1) ((escaped rest ++ q :: post) !! 0%nat)) = false.
Proof.
  intros Hb Hl. destruct (escaped_view rest Hb) as [->|[(c & rest' & e & -> & Hc & Hb' & Hd & -> & He)|
    (b0 & rest' & -> & _ & _ & ->)]].
  - cbn. by destruct quote.
  - destruct He; try done. pose proof (utf8_arith_not_nil c). by destruct (utf8_arith c).
  - done.
Qed.

(** An escape is read in front of what follows it in the literal. *)
Lemma shape_reads c rest e post :
  shape quote c rest e → all_bytes rest →
  (is_high_surrogate c = true → is_low_surrogate (decode_rune rest).1 = false) →
  e = utf8_arith c ∧ is_surrogate c = false ∧ Forall (plain_byte q false) e
  ∨ reads_escape T e (encode_rune c) (escaped rest ++ q :: post) ∧ head e = Some (ch "\").
Proof.
  intros He Hb Hh. destruct He as [Hs Hraw|x Hx|Hc|Hc Hn|Hc|Hc|high low Hhigh Hlow <-]; [by left|right..];
    split; try done.
  - by apply reads_simple.
  - assert (encode_rune c = [c]) as -> by by destruct Hc as [-> |[-> | ->]]. by apply reads_other.
  - rewrite Hc. apply reads_null; [done..|]. by apply escaped_digit.
  - rewrite Hc. by apply reads_x00.
  - destruct (is_high_surrogate c) eqn:E; [|by apply reads_unit].
    apply reads_high; [done..|]. apply escaped_no_low; auto.
  - by apply reads_pair.
Qed.

(** *** The loop over a string *)

(** The loop, from a position with what it has read so far, ends at the quote at [e]
    with the value. *)
Definition ends (fuel : nat) (st : Z * bytes) (s : Scanner) (p fl e : Z) (value : bytes) : Prop :=
  ∃ s' fl' start result,
    iterate fuel (string_body q false) st (at_ s p fl) = Some ((start, e, result), at_ s' (e + 1) fl')
    ∧ kin T s s' ∧ keeps_valid fl fl' ∧ 0 <= start <= e ∧ result ++ sub T start e = value.

Lemma ends_quote fuel start result s p fl post :
  reader T s → stands T p (q :: post) → 0 <= start <= p →
  ends (S fuel) (start, result) s p fl p (result ++ sub T start p).
Proof.
  intros Hs Hst Hstart. pose proof (stands_char T p _ 0 Hst ltac:(lia)) as Hc. rewrite Z.add_0_r in Hc.
  exists s, fl, start, result. split_and!; [|by apply kin_refl|apply keeps_valid_refl|lia..|done].
  cbn [iterate]. rewrite (bind_exact _ _ _ (inr (start, p, result)) (at_ s (p + 1) fl)); [done|].
  destruct Hs as [Ht He _], Hst as [Hp _].
  apply (string_body_quote q false start result (at_ s p fl)); cbn; rewrite ?Ht; try done; [lia|].
  destruct quote; auto; done.
Qed.

Lemma ends_raw b rest e value : ∀ fuel st s p fl,
  reader T s → stands T p (b ++ rest) → Forall (plain_byte q false) b →
  ends fuel st s (p + text_length b) fl e value → ends (length b + fuel) st s p fl e value.
Proof.
  induction b as [|x b IH]; intros fuel st s p fl Hs Hst Hb Hend.
  { by rewrite Z.add_0_r in Hend. }
  apply Forall_cons in Hb as [Hx Hb].
  pose proof (stands_char T p _ 0 Hst ltac:(lia)) as Hc. rewrite Z.add_0_r in Hc.
  pose proof (stands_skip T p [x] (b ++ rest) Hst) as Hst1. change (text_length [x]) with 1 in Hst1.
  destruct (IH fuel st s (p + 1) fl Hs Hst1 Hb) as (s' & fl' & start & result & E & Hrest).
  { replace (p + 1 + text_length b) with (p + text_length (x :: b)); [done|].
    unfold text_length. cbn [length]. lia. }
  exists s', fl', start, result. split; [|done]. cbn [length Nat.add iterate].
  rewrite (bind_exact _ _ _ (inl st) (at_ s (p + 1) fl)); [exact E|].
  destruct st as [start0 result0], Hs as [Ht He _], Hst as [Hp _].
  apply (string_body_plain q false start0 result0 (at_ s p fl)); cbn; rewrite ?Ht; try done; [lia|].
  by rewrite Hc.
Qed.

Lemma ends_escape esc v rest e value fuel start result s p fl :
  reader T s → stands T p (esc ++ rest) → reads_escape T esc v rest → head esc = Some (ch "\") →
  0 <= start <= p →
  (∀ s' fl', kin T s s' →
     ends fuel (p + text_length esc, result ++ sub T start p ++ v) s' (p + text_length esc) fl' e value) →
  ends (S fuel) (start, result) s p fl e value.
Proof.
  intros Hs Hst Hreads Hhead Hstart Hnext. destruct (Hreads s p fl Hs Hst) as (s1 & fl1 & E1 & Hk1 & Hfl1).
  destruct (Hnext s1 fl1 Hk1) as (s2 & fl2 & start2 & result2 & E2 & Hk2 & Hfl2 & Hrest).
  exists s2, fl2, start2, result2. split_and!; [|by eapply kin_trans|by eapply keeps_valid_trans|apply Hrest..].
  cbn [iterate]. rewrite (bind_exact _ _ _ (inl (p + text_length esc, result ++ sub T start p ++ v))
    (at_ s1 (p + text_length esc) fl1)); [exact E2|]. unfold string_body.
  rewrite (bind_exact _ _ _ _ _ (run_char T s p fl _ Hs Hst)). cbn beta iota.
  destruct esc as [|x esc]; [done|]. injection Hhead as ->.
  cbn [app lookup list_lookup default from_option]; unfold Datatypes.id.
  replace (ch "\" =? q) with false by by destruct quote. change (ch "\" <? 0) with false.
  change (ch "\" =? 10) with false. change (ch "\" =? 13) with false. change (ch "\" =? ch "\") with true.
  cbn [orb andb negb]. rewrite (bind_exact _ _ _ _ _ (run_get_pos s p fl)). cbn beta iota.
  destruct Hst as [Hp _]. rewrite (bind_exact _ _ _ _ _ (run_slice T s p fl start p Hs Hstart ltac:(lia))).
  cbn beta iota. rewrite (bind_exact _ _ _ _ _ E1). cbn beta iota.
  by rewrite (bind_exact _ _ _ _ _ (run_get_pos _ _ _)).
Qed.

(** One piece, and what is behind it. *)
Lemma ends_piece rest esc v rest' s p fl start result fuel post :
  (∀ s p fl start result fuel, reader T s → stands T p (escaped rest' ++ q :: post) → 0 <= start <= p →
     (length (escaped rest') < fuel)%nat →
     ends fuel (start, result) s p fl (p + text_length (escaped rest'))
       (result ++ sub T start p ++ literal_value rest')) →
  escaped rest = esc ++ escaped rest' → literal_value rest = v ++ literal_value rest' →
  esc = v ∧ Forall (plain_byte q false) esc
    ∨ reads_escape T esc v (escaped rest' ++ q :: post) ∧ head esc = Some (ch "\") →
  reader T s → stands T p (escaped rest ++ q :: post) → 0 <= start <= p → (length (escaped rest) < fuel)%nat →
  ends fuel (start, result) s p fl (p + text_length (escaped rest)) (result ++ sub T start p ++ literal_value rest).
Proof.
  intros IH -> -> Hesc Hs Hst Hstart Hfuel.
  rewrite <-(assoc_L (++)) in Hst. rewrite length_app in Hfuel.
  pose proof (stands_skip T p _ _ Hst) as Hst'. pose proof (stands_sub T p _ _ Hst) as Hsub.
  pose proof (text_length_nonneg esc).
  replace (p + text_length (esc ++ escaped rest')) with (p + text_length esc + text_length (escaped rest'))
    by (unfold text_length; rewrite length_app; lia).
  destruct Hesc as [[<- Hraw]|[Hreads Hhead]].
  - replace fuel with (length esc + (fuel - length esc))%nat by lia.
    apply (ends_raw _ (escaped rest' ++ q :: post)); [done..|].
    replace (result ++ sub T start p ++ esc ++ literal_value rest')
      with (result ++ sub T start (p + text_length esc) ++ literal_value rest').
    + apply (IH s); [done|done|lia|lia].
    + f_equal. rewrite <-(sub_app T start p) by lia. by rewrite Hsub, (assoc_L (++)).
  - destruct fuel as [|fuel]; [lia|]. apply (ends_escape esc v (escaped rest' ++ q :: post)); [done..|].
    intros s1 fl1 Hk. replace (result ++ sub T start p ++ v ++ literal_value rest') with
      ((result ++ sub T start p ++ v) ++ sub T (p + text_length esc) (p + text_length esc) ++ literal_value rest')
      by by rewrite sub_empty, <-!(assoc_L (++)).
    apply (IH s1); [apply Hk|done|lia|]. destruct esc; [done|]. cbn in Hfuel. lia.
Qed.

Lemma ends_escaped n : ∀ rest, (length rest <= n)%nat → all_bytes rest →
  ∀ post s p fl start result fuel,
  reader T s → stands T p (escaped rest ++ q :: post) → 0 <= start <= p → (length (escaped rest) < fuel)%nat →
  ends fuel (start, result) s p fl (p + text_length (escaped rest))
    (result ++ sub T start p ++ literal_value rest).
Proof.
  induction n as [|n IH]; intros rest Hn Hb post; destruct (combine_view_total rest Hb) as
    [|high low rest' Hh Hl|c rest' Hc Hh|b0 rest' Hd].
  1, 5: intros s p fl start result [|fuel] Hs Hst Hstart Hfuel; [cbn in Hfuel; lia|]; cbn; rewrite app_nil_r, Z.add_0_r;
    by apply (ends_quote fuel start result s p fl post).
  - destruct (high_surrogate_code_point _ Hh) as [Hc _]. pose proof (utf8_arith_width high).
    rewrite length_app in Hn. lia.
  - pose proof (utf8_arith_width c). rewrite length_app in Hn. lia.
  - cbn in Hn. lia.
  - destruct (high_surrogate_code_point _ Hh) as [Hc Hs], (low_surrogate_code_point _ Hl) as [Hc' Hs'].
    apply Forall_app in Hb as [Hbh Hb]. pose proof Hb as Hb2. apply Forall_app in Hb as [Hbl Hb'].
    intros s p fl start result fuel. apply (ends_piece _ (unit_escape high ++ unit_escape low)
      (encode_rune (surrogate_pair_to_code_point high low)) rest').
    + intros s0 p0 fl0 start0 result0 fuel0. apply (IH rest'); [|done].
      rewrite !length_app in Hn. pose proof (utf8_arith_width high). lia.
    + rewrite (escaped_cons quote flags (utf8_arith high ++ _) (unit_escape high) (length (utf8_arith high)));
        [|by apply Forall_app| |by apply piece_surrogate].
      * rewrite drop_app_length, <-(assoc_L (++)). f_equal.
        rewrite (escaped_cons quote flags (utf8_arith low ++ _) (unit_escape low) (length (utf8_arith low)));
          [by rewrite drop_app_length|done| |by apply piece_surrogate].
        intros [? _]%app_nil. by apply utf8_arith_not_nil in H2.
      * intros [? _]%app_nil. by apply utf8_arith_not_nil in H2.
    + by apply literal_value_pair.
    + right. split; [by apply reads_pair|done].
  - assert (all_bytes rest') as Hb' by by apply Forall_app in Hb as [_ ?].
    destruct (piece_shape quote flags flags_plain quote_string c rest' Hc) as (e & Hp & He).
    intros s p fl start result fuel. apply (ends_piece _ e (encode_rune c) rest').
    + intros s0 p0 fl0 start0 result0 fuel0. apply (IH rest'); [|done].
      rewrite length_app in Hn. pose proof (utf8_arith_width c). lia.
    + rewrite (escaped_cons quote flags _ e _ Hb ltac:(by intros [? _]%app_nil; by eapply utf8_arith_not_nil) Hp).
      by rewrite drop_app_length.
    + by apply literal_value_single.
    + destruct (shape_reads c rest' e post He Hb' Hh) as [(-> & _ & Hraw)|?]; [left|by right].
      by rewrite encode_rune_arith.
  - assert (all_bytes rest') as Hb' by by apply Forall_cons in Hb as [_ ?].
    intros s p fl start result fuel. apply (ends_piece _ (unit_escape RUNE_ERROR) (encode_rune RUNE_ERROR) rest').
    + intros s0 p0 fl0 start0 result0 fuel0. apply (IH rest'); [|done]. cbn in Hn. lia.
    + by apply (escaped_cons quote flags (b0 :: rest') _ 1); [|done|apply piece_error].
    + by apply literal_value_error.
    + right. split; [by apply reads_unit|done].
Qed.
End ReadBack.

(** ** The theorem *)

(** What is wrong with a string literal, as its flags say it. *)
Definition bad_flags (fl : Z) : Z := Z.land fl (Z.lor UNTERMINATED CONTAINS_INVALID_ESCAPE).

Lemma keeps_valid_bad fl fl' : keeps_valid fl fl' → bad_flags fl' = bad_flags fl.
Proof. intros (x & -> & Hx). unfold bad_flags. by rewrite Z.land_lor_distr_l, Hx, Z.lor_0_r. Qed.

Lemma code_points_concat cs :
  Forall code_point cs → code_points (concat (map encode_rune cs)) = cs ∧ all_bytes (concat (map encode_rune cs)).
Proof.
  induction 1 as [|c cs Hc _ [IH Hb]]; [done|]. cbn [map concat]. rewrite encode_rune_arith by done.
  pose proof (utf8_arith_bytes c Hc). split; [by rewrite code_points_encoded, IH|by apply Forall_app].
Qed.

Section Literals.
Context `{JsNum, NumBigint, IdentifierTables}.

Lemma scan_string_read_back quote flags t s before post :
  quote ≠ Backtick → jsx flags = false → all_bytes t → ok s →
  text s = before ++ quote_byte quote :: escaped quote flags t ++ quote_byte quote :: post →
  pos (state s) = text_length before →
  ∃ s', scan_string false s = Some (literal_value t, s')
    ∧ pos (state s') = pos (state s) + text_length (escaped quote flags t) + 2
    ∧ error_sink s' = error_sink s
    ∧ bad_flags (token_flags (state s')) = bad_flags (token_flags (state s)).
Proof.
  intros Hquote Hjsx Hb [He Hbs Hfits Hpos _ Hco] Htext Hbefore. set (T := text s) in *. set (p := pos (state s)) in *.
  set (q := quote_byte quote) in *. set (e := escaped quote flags t) in *.
  assert (reader T s) as Hs by done.
  assert (stands T p (q :: e ++ q :: post)) as Hst.
  { split; [done|]. rewrite Htext, Hbefore. unfold text_length. by rewrite Nat2Z.id, drop_app_length. }
  pose proof (stands_skip T p [q] _ Hst) as Hst1. change (text_length [q]) with 1 in Hst1.
  assert (s = at_ s p (token_flags (state s))) as Es by (unfold p; destruct s as [? ? []]; done).
  set (fl := token_flags (state s)) in *.
  set (fl1 := if q =? 39 then Z.lor fl SINGLE_QUOTE else fl).
  assert (keeps_valid fl fl1) as Hfl1.
  { unfold fl1. destruct (q =? 39); [by exists SINGLE_QUOTE|apply keeps_valid_refl]. }
  assert (scan_string false s = scan_string false (at_ s p fl)) as -> by by rewrite <-Es.
  unfold scan_string. rewrite (bind_exact _ _ _ _ _ (run_char T s p fl _ Hs Hst)).
  cbn [lookup list_lookup default from_option]; unfold Datatypes.id.
  rewrite (bind_exact _ _ _ tt (at_ s p fl1)) by (unfold fl1; by destruct (q =? 39)).
  rewrite (bind_exact _ _ _ _ _ (run_advance s p fl1 1)).
  rewrite scan_string_value_is_loop; [|exact Hbs|apply Hst1|exact He|unfold q; destruct quote; auto; done].
  unfold scan_string_loop. rewrite (bind_exact _ _ _ _ _ (run_get_pos s (p + 1) fl1)).
  destruct (ends_escaped T Hfits quote flags Hjsx Hquote (length t) t ltac:(lia) Hb post s (p + 1) fl1 (p + 1) []
    (S (S (length T)))) as (s' & fl' & start & result & E & Hk & Hfl' & Hstart & Hvalue); [done|done|lia| |].
  { pose proof (stands_length _ _ _ Hst1) as Hl. unfold text_length in Hl. rewrite length_app in Hl.
    fold e. lia. }
  fold e in E, Hstart, Hvalue. change (loop (string_body q false) (p + 1, []) (at_ s (p + 1) fl1) =
    Some ((start, p + 1 + text_length e, result), at_ s' (p + 1 + text_length e + 1) fl')) in E.
  rewrite (bind_exact _ _ _ _ _ E). cbn beta iota.
  pose proof (stands_skip T _ _ _ Hst1) as [Hend _]. destruct Hk as [Hs' Hrest].
  rewrite (bind_exact _ _ _ _ _ (run_slice T s' (p + 1 + text_length e + 1) fl' _ _ Hs' Hstart ltac:(lia))).
  exists (at_ s' (p + 1 + text_length e + 1) fl'). split_and!.
  - unfold mret, M_ret. rewrite Hvalue, sub_empty. done.
  - cbn. lia.
  - cbn. by rewrite Hrest.
  - apply keeps_valid_bad. by eapply keeps_valid_trans.
Qed.

(** [C12] What the printer writes for a string literal, the scanner reads back, whatever the
    text and wherever the literal stands. Escaping never panics; scanning the literal
    ends behind its closing quote, reports nothing and finds nothing wrong with it; and
    its value is the text, with its surrogate pairs joined and U+FFFD for a byte that is
    not part of a code point. In particular the value of a text made of code points is
    that text unless it has a high surrogate in front of a low one. *)
Theorem escaped_string_reads_back quote flags t :
  quote ≠ Backtick → jsx flags = false → all_bytes t →
  ∃ e, escape_string_with_flags quote flags t = Some e
  ∧ (∀ s before post, ok s → text s = before ++ quote_byte quote :: e ++ quote_byte quote :: post →
       pos (state s) = text_length before →
       ∃ s', scan_string false s = Some (literal_value t, s')
         ∧ pos (state s') = pos (state s) + text_length e + 2
         ∧ error_sink s' = error_sink s
         ∧ bad_flags (token_flags (state s')) = bad_flags (token_flags (state s)))
  ∧ ∀ cs, Forall code_point cs → t = concat (map encode_rune cs) →
      literal_value t = concat (map encode_rune (join_pairs cs)).
Proof.
  intros Hquote Hjsx Hb. exists (escaped quote flags t). split_and!; [by apply escape_string_pieces|..].
  - intros s before post. by apply scan_string_read_back.
  - intros cs Hcs ->. unfold literal_value. by rewrite (proj1 (code_points_concat cs Hcs)).
Qed.
End Literals.

#[local] Existing Instances plain_numbers plain_bigints latin_letters.

Definition mixed : bytes :=
  [0; 49; 13; 10; 34; 39; 92; 0x80] ++ encode_rune 0x1f600 ++ encode_rune 0xd83d ++ encode_rune 0xdcff ++ encode_rune 0x2028.

Lemma escaped_string_reads_back_witness :
  (Single ≠ Backtick ∧ jsx 0 = false ∧ all_bytes mixed) ∧
  ∃ e, escape_string_with_flags Single 0 mixed = Some e
  ∧ (∀ s before post, ok s → text s = before ++ quote_byte Single :: e ++ quote_byte Single :: post →
       pos (state s) = text_length before →
       ∃ s', scan_string false s = Some (literal_value mixed, s')
         ∧ pos (state s') = pos (state s) + text_length e + 2
         ∧ error_sink s' = error_sink s
         ∧ bad_flags (token_flags (state s')) = bad_flags (token_flags (state s)))
  ∧ ∀ cs, Forall code_point cs → mixed = concat (map encode_rune cs) →
      literal_value mixed = concat (map encode_rune (join_pairs cs)).
Proof.
  assert (all_bytes mixed) as Hb by by repeat (constructor; [split; by vm_compute|]).
  split; [done|]. by apply (escaped_string_reads_back Single 0 mixed).
Defined.
