(* ===== verification/TextWriter.v ===== *)
(** The writers of the printer: [crates/tsr_printer/src/emit_text_writer.rs],
    [text_writer.rs], [single_line_string_writer.rs] and [semicolon_writer.rs]. *)

From S2P Require Import Prelude Wtf8 LineMap ScannerState.

Local Open Scope Z_scope.

(** ** The interface

    A method that writes gives the writer behind it; [None] is a panic. The
    notifications about nodes do nothing in these writers and are left out, as is the
    symbol of [write_symbol], which none of them reads. *)

Class EmitTextWriter (W : Type) := {
  write : bytes → W → option W;
  write_trailing_semicolon : bytes → W → option W;
  write_comment : bytes → W → option W;
  write_keyword : bytes → W → option W;
  write_operator : bytes → W → option W;
  write_punctuation : bytes → W → option W;
  write_space : bytes → W → option W;
  write_string_literal : bytes → W → option W;
  write_parameter : bytes → W → option W;
  write_property : bytes → W → option W;
  write_symbol : bytes → W → option W;
  write_line : W → option W;
  write_line_force : bool → W → option W;
  increase_indent : W → option W;
  decrease_indent : W → option W;
  clear : W → option W;
  text_of : W → bytes;
  raw_write : bytes → W → option W;
  write_literal : bytes → W → option W;
  get_text_pos : W → Z;
  get_line : W → Z;
  get_column : W → option Z;
  get_indent : W → Z;
  is_at_start_of_line : W → bool;
  has_trailing_comment : W → bool;
  has_trailing_whitespace : W → bool;
}.

(** How far back a start byte is looked for, from [start] down to [limit]. *)
Fixpoint back_to_start (fuel : nat) (b : bytes) (limit start : nat) : nat :=
  match fuel with
  | O => start
  | S fuel =>
      if (limit <? start)%nat && is_continuation (nth start b 0) then back_to_start fuel b limit (Nat.pred start)
      else start
  end.

(** The last rune, if it is whole and not U+FFFD; [str::from_utf8] takes what
    [decode_utf8] decodes without an error. *)
Definition decode_last_rune (b : bytes) : option Z :=
  match last b with
  | None => None
  | Some last =>
      if last <? 0x80 then Some last
      else
        let limit := (length b - 4)%nat in
        let rest := drop (back_to_start 4 b limit (length b - 1)) b in
        let '(rune, width) := decode_utf8 rest in
        if (width =? length rest)%nat && negb (rune =? RUNE_ERROR) then Some rune else None
  end.

Definition ends_in_white_space (b : bytes) : bool :=
  match decode_last_rune b with Some rune => is_white_space_like rune | None => false end.

(** ** The text writer *)

Definition DEFAULT_INDENT_SIZE : Z := 4.

(** A negative count panics. The product of indents that a program can reach stays far
    below the range of an [isize]. *)
Definition indent_string (indent indent_size : Z) : option bytes :=
  if indent =? 0 then Some []
  else if indent * indent_size <? 0 then None
  else Some (repeat (ch " ") (Z.to_nat (indent * indent_size))).

Record TextWriter := MkWriter {
  new_line : bytes;
  indent_size : Z;
  builder : bytes;
  last_written_len : nat;
  indent : Z;
  line_start : bool;
  line_count : Z;
  line_pos : Z;
  has_trailing_comment_state : bool;
}.
#[export] Instance eta_writer : Eta TextWriter := λ w,
  MkWriter (new_line w) (indent_size w) (builder w) (last_written_len w) (indent w) (line_start w)
    (line_count w) (line_pos w) (has_trailing_comment_state w).

Definition writer_clear (w : TextWriter) : TextWriter :=
  w <| builder := [] |> <| last_written_len := 0%nat |> <| indent := 0 |> <| line_start := true |>
    <| line_count := 0 |> <| line_pos := 0 |> <| has_trailing_comment_state := false |>.

Definition writer_new (new_line : bytes) (indent_size : Z) : TextWriter :=
  let indent_size := if indent_size <=? 0 then DEFAULT_INDENT_SIZE else indent_size in
  writer_clear (MkWriter new_line indent_size [] 0 0 false 0 0 false).

Definition with_indent_size (new_line : bytes) (indent_size : Z) : TextWriter :=
  let writer := writer_new new_line indent_size in
  if indent_size =? 0 then writer <| TextWriter.indent_size := 0 |> else writer.

Definition last_written (w : TextWriter) : bytes := drop (length (builder w) - last_written_len w) (builder w).

Definition append (s : bytes) (w : TextWriter) : TextWriter :=
  w <| builder := builder w ++ s |> <| last_written_len := length s |>.

Definition update_line_count_and_pos_for (s : bytes) (w : TextWriter) : TextWriter :=
  let starts := compute_ecma_line_starts s in
  let count := Z.of_nat (length starts) in
  if 1 <? count then
    let current_len := Z.of_nat (length (builder w)) in
    let p := current_len - Z.of_nat (length s) + default 0 (last starts) in
    w <| line_count := line_count w + (count - 1) |> <| line_pos := p |> <| line_start := p =? current_len |>
  else w <| line_start := false |>.

Definition write_text (s : bytes) (w : TextWriter) : option TextWriter :=
  if bool_decide (s = []) then Some w
  else
    w ← (if line_start w then
           spaces ← indent_string (indent w) (indent_size w);
           Some (w <| builder := builder w ++ spaces |> <| line_start := false |>)
         else Some w);
    Some (update_line_count_and_pos_for s (append s w)).

Definition write_line_raw (w : TextWriter) : TextWriter :=
  let w := append (new_line w) w in
  w <| line_count := line_count w + 1 |> <| line_pos := Z.of_nat (length (builder w)) |>
    <| line_start := true |> <| has_trailing_comment_state := false |>.

Definition writer_write (s : bytes) (w : TextWriter) : option TextWriter :=
  write_text s (if bool_decide (s = []) then w else w <| has_trailing_comment_state := false |>).

Definition writer_write_comment (s : bytes) (w : TextWriter) : option TextWriter :=
  write_text s (if bool_decide (s = []) then w else w <| has_trailing_comment_state := true |>).

Definition writer_raw_write (s : bytes) (w : TextWriter) : TextWriter :=
  update_line_count_and_pos_for s
    (if bool_decide (s = []) then w else (append s w) <| has_trailing_comment_state := false |>).

Definition writer_get_column (w : TextWriter) : option Z :=
  if line_start w then Some (indent w * indent_size w)
  else line ← text_tail (builder w) (line_pos w); Some (utf16_len line).

#[export] Instance text_writer : EmitTextWriter TextWriter := {|
  write := writer_write;
  write_trailing_semicolon := writer_write;
  write_comment := writer_write_comment;
  write_keyword := writer_write;
  write_operator := writer_write;
  write_punctuation := writer_write;
  write_space := writer_write;
  write_string_literal := writer_write;
  write_parameter := writer_write;
  write_property := writer_write;
  write_symbol := writer_write;
  write_line w := Some (if line_start w then w else write_line_raw w);
  write_line_force force w := Some (if negb (line_start w) || force then write_line_raw w else w);
  increase_indent w := Some (w <| indent := indent w + 1 |>);
  decrease_indent w := Some (w <| indent := indent w - 1 |>);
  clear w := Some (writer_clear w);
  text_of := builder;
  raw_write s w := Some (writer_raw_write s w);
  write_literal := writer_write;
  get_text_pos w := Z.of_nat (length (builder w));
  get_line := line_count;
  get_column := writer_get_column;
  get_indent := indent;
  is_at_start_of_line := line_start;
  has_trailing_comment := has_trailing_comment_state;
  has_trailing_whitespace w :=
    if bool_decide (builder w = []) then false else ends_in_white_space (last_written w);
|}.

(** ** The writer of one line *)

Record SingleLineStringWriter := MkSingleLine { sl_builder : bytes; sl_last_written_len : nat }.

Definition sl_new : SingleLineStringWriter := MkSingleLine [] 0.
Definition sl_append (s : bytes) (w : SingleLineStringWriter) : option SingleLineStringWriter :=
  Some (MkSingleLine (sl_builder w ++ s) (length s)).
Definition sl_last_written (w : SingleLineStringWriter) : bytes :=
  drop (length (sl_builder w) - sl_last_written_len w) (sl_builder w).

#[export] Instance single_line_string_writer : EmitTextWriter SingleLineStringWriter := {|
  write := sl_append;
  write_trailing_semicolon := sl_append;
  write_comment := sl_append;
  write_keyword := sl_append;
  write_operator := sl_append;
  write_punctuation := sl_append;
  write_space := sl_append;
  write_string_literal := sl_append;
  write_parameter := sl_append;
  write_property := sl_append;
  write_symbol := sl_append;
  write_line := sl_append (bs " ");
  write_line_force _ := sl_append (bs " ");
  increase_indent := Some;
  decrease_indent := Some;
  clear _ := Some sl_new;
  text_of := sl_builder;
  raw_write := sl_append;
  write_literal := sl_append;
  get_text_pos w := Z.of_nat (length (sl_builder w));
  get_line _ := 0;
  get_column _ := Some 0;
  get_indent _ := 0;
  is_at_start_of_line _ := false;
  has_trailing_comment _ := false;
  has_trailing_whitespace w :=
    if bool_decide (sl_builder w = []) then false else ends_in_white_space (sl_last_written w);
|}.

(** ** The writer that holds a semicolon back *)

Record TrailingSemicolonDeferringWriter (W : Type) := MkDeferring { inner : W; has_pending_semicolon : bool }.
Arguments MkDeferring {W} _ _.
Arguments inner {W} _.
Arguments has_pending_semicolon {W} _.

Definition deferring_new {W} (inner : W) : TrailingSemicolonDeferringWriter W := MkDeferring inner false.

Section Deferring.
Context {W : Type} `{EmitTextWriter W}.

Definition commit_semicolon (w : TrailingSemicolonDeferringWriter W) : option W :=
  if has_pending_semicolon w then write_trailing_semicolon (bs ";") (inner w) else Some (inner w).

(** A method that commits the semicolon before the wrapped writer has its turn. *)
Definition committed (method : W → option W) (w : TrailingSemicolonDeferringWriter W)
  : option (TrailingSemicolonDeferringWriter W) :=
  inner ← commit_semicolon w; inner ← method inner; Some (MkDeferring inner false).

#[export] Instance deferring_writer : EmitTextWriter (TrailingSemicolonDeferringWriter W) := {|
  write s := committed (write s);
  write_trailing_semicolon _ w := Some (MkDeferring (inner w) true);
  write_comment s := committed (write_comment s);
  write_keyword s := committed (write_keyword s);
  write_operator s := committed (write_operator s);
  write_punctuation s := committed (write_punctuation s);
  write_space s := committed (write_space s);
  write_string_literal s := committed (write_string_literal s);
  write_parameter s := committed (write_parameter s);
  write_property s := committed (write_property s);
  write_symbol s := committed (write_symbol s);
  write_line := committed write_line;
  write_line_force force := committed (write_line_force force);
  increase_indent := committed increase_indent;
  decrease_indent := committed decrease_indent;
  clear w := inner ← clear (inner w); Some (MkDeferring inner false);
  text_of w := text_of (inner w);
  raw_write s := committed (raw_write s);
  write_literal s := committed (write_literal s);
  get_text_pos w := get_text_pos (inner w);
  get_line w := get_line (inner w);
  get_column w := get_column (inner w);
  get_indent w := get_indent (inner w);
  is_at_start_of_line w := is_at_start_of_line (inner w);
  has_trailing_comment w := has_trailing_comment (inner w);
  has_trailing_whitespace w := has_trailing_whitespace (inner w);
|}.
End Deferring.

(** ** Operations as data *)

Inductive WriterOp :=
  | Write (s : bytes)
  | TrailingSemicolon (s : bytes)
  | Comment (s : bytes)
  | Keyword (s : bytes)
  | Operator (s : bytes)
  | Punctuation (s : bytes)
  | Space (s : bytes)
  | StringLiteral (s : bytes)
  | Parameter_ (s : bytes)
  | Property (s : bytes)
  | Symbol_ (s : bytes)
  | Line
  | LineForce (force : bool)
  | IncreaseIndent
  | DecreaseIndent
  | Clear
  | RawWrite (s : bytes)
  | Literal (s : bytes).

Section Perform.
Context {W : Type} `{EmitTextWriter W}.

Definition perform (op : WriterOp) : W → option W :=
  match op with
  | Write s => write s
  | TrailingSemicolon s => write_trailing_semicolon s
  | Comment s => write_comment s
  | Keyword s => write_keyword s
  | Operator s => write_operator s
  | Punctuation s => write_punctuation s
  | Space s => write_space s
  | StringLiteral s => write_string_literal s
  | Parameter_ s => write_parameter s
  | Property s => write_property s
  | Symbol_ s => write_symbol s
  | Line => write_line
  | LineForce force => write_line_force force
  | IncreaseIndent => increase_indent
  | DecreaseIndent => decrease_indent
  | Clear => clear
  | RawWrite s => raw_write s
  | Literal s => write_literal s
  end.

Fixpoint performs (ops : list WriterOp) (w : W) : option W :=
  match ops with
  | [] => Some w
  | op :: ops => w ← perform op w; performs ops w
  end.
End Perform.

Example writer_ex :
  let w := performs [Write (bs "if (x) {"); IncreaseIndent; Line; Line; Keyword (bs "return"); TrailingSemicolon (bs ";");
                     DecreaseIndent; Line; Punctuation (bs "}"); TrailingSemicolon (bs ";")]
             (deferring_new (writer_new [13; 10] 2)) in
  text_of <$> w = Some (bs "if (x) {" ++ [13; 10] ++ bs "  return;" ++ [13; 10] ++ bs "}")
  ∧ get_line <$> w = Some 2 ∧ (w ≫= get_column) = Some 1.
Proof. by vm_compute. Qed.
