(* ===== verification/TextWriterLines.v ===== *)
(** What the writers of [crates/tsr_printer/src] promise: the text writer's line and column
    are those of the pieces of text it has written, and of the whole text where no line break
    is split between them; the deferring writer passes on the operations it was given, less the semicolons that nothing follows. *)

From S2P Require Import Prelude Wtf8 LineMap ScannerState ScannerWp TextWriter.

Local Open Scope Z_scope.

(** ** The line state of a text *)

(** [count] breaks, the last line from [p] on, and no CR that a LF could join. *)
Record lines_ok (text : bytes) (count p : Z) : Prop := {
  lines_len : text_pos_len text;
  lines_count : Z.of_nat (length (compute_ecma_line_starts text)) = count + 1;
  lines_last : last (compute_ecma_line_starts text) = Some p;
  lines_end : last text ≠ Some 0x0D;
}.

(** A text that a writer can take anywhere: it starts with a whole sequence and its last
    line break, if it ends in one, is complete. *)
Definition clean_text (s : bytes) : Prop := starts_sequence s ∧ last s ≠ Some 0x0D.

Lemma text_pos_len_app a b : text_pos_len (a ++ b) → text_pos_len a ∧ text_pos_len b.
Proof. unfold text_pos_len. rewrite length_app. lia. Qed.

Lemma last_app_not_cr (a b : bytes) : last a ≠ Some 0x0D → last b ≠ Some 0x0D → last (a ++ b) ≠ Some 0x0D.
Proof. intros Ha Hb. rewrite last_app. by destruct (last b). Qed.

Lemma lines_ok_app text s count p :
  lines_ok text count p → clean_text s → text_pos_len (text ++ s) →
  let starts := compute_ecma_line_starts s in
  lines_ok (text ++ s) (count + (Z.of_nat (length starts) - 1))
    (if 1 <? Z.of_nat (length starts) then Z.of_nat (length text) + default 0 (last starts) else p).
Proof.
  intros [Hlen Hcount Hlast Hend] [Hs Hcr] Hl starts. subst starts.
  destruct (line_starts_head s) as [rest Hrest]; [by apply (text_pos_len_app text)|].
  assert (joins text s) as Hj by (split; [done|by intros []]).
  constructor; [done| | |by apply last_app_not_cr]; rewrite line_starts_app, Hrest by done; cbn [list.tail length].
  - rewrite length_app, length_fmap. lia.
  - rewrite last_app, fmap_last, last_cons. destruct rest as [|r rest]; [done|].
    rewrite (proj2 (Z.ltb_lt _ _)) by (cbn [length]; lia). destruct (last (r :: rest)) eqn:E; [done|].
    by apply last_None in E.
Qed.

Lemma spaces_clean n : clean_text (repeat (ch " ") n).
Proof.
  split.
  - intros x. destruct n; [done|]. by intros [= <-].
  - induction n as [|[|n] IH]; [done..|]. exact IH.
Qed.

Lemma spaces_one_line n : text_pos_len (repeat (ch " ") n) → compute_ecma_line_starts (repeat (ch " ") n) = [0].
Proof.
  induction n as [|n IH]; [done|]. intros Hl. change (repeat (ch " ") (S n)) with ([ch " "] ++ repeat (ch " ") n) in *.
  rewrite line_starts_app; [|split; [apply spaces_clean|by intros []]|done].
  by rewrite IH by (by apply (text_pos_len_app [ch " "])).
Qed.

Lemma lines_ok_spaces text n count p :
  lines_ok text count p → text_pos_len (text ++ repeat (ch " ") n) → lines_ok (text ++ repeat (ch " ") n) count p.
Proof.
  intros Hok Hl. pose proof (lines_ok_app _ _ _ _ Hok (spaces_clean n) Hl) as H. cbv zeta in H.
  rewrite spaces_one_line in H by (by apply (text_pos_len_app text)). cbn in H. by rewrite Z.add_0_r in H.
Qed.

(** ** Pieces

    The text of a writer is made of the texts it was given, of indentations and of line
    ends; each has its own line breaks. *)

Definition breaks (s : bytes) : Z := Z.of_nat (length (compute_ecma_line_starts s)) - 1.
Definition total_breaks (ps : list bytes) : Z := foldr Z.add 0 (breaks <$> ps).

(** The last line starts behind the last line break of the last piece that has one. *)
Definition last_line (ps : list bytes) (start : Z) : Prop :=
  Forall (λ p, breaks p = 0) ps ∧ start = 0
  ∨ ∃ before p after last_start,
      ps = before ++ p :: after ∧ 0 < breaks p ∧ Forall (λ p, breaks p = 0) after
      ∧ last (compute_ecma_line_starts p) = Some last_start
      ∧ start = Z.of_nat (length (concat before)) + last_start.

(** Nothing stands behind the last line break of the last piece. *)
Definition ends_line (ps : list bytes) : bool :=
  match last ps with
  | None => true
  | Some p => (0 <? breaks p) && bool_decide (last (compute_ecma_line_starts p) = Some (Z.of_nat (length p)))
  end.

Lemma total_breaks_snoc ps p : total_breaks (ps ++ [p]) = total_breaks ps + breaks p.
Proof. unfold total_breaks. induction ps as [|q ps IH]; csimpl; [lia|]. rewrite IH. lia. Qed.

Lemma breaks_nonneg s : text_pos_len s → 0 <= breaks s.
Proof. intros Hl. unfold breaks. destruct (line_starts_head s Hl) as [rest ->]. cbn [length]. lia. Qed.

(** Where the last line starts once a piece is added. *)
Definition moved (ps : list bytes) (p : bytes) (start : Z) : Z :=
  if 0 <? breaks p then Z.of_nat (length (concat ps)) + default 0 (last (compute_ecma_line_starts p)) else start.

Lemma last_line_snoc ps p start :
  text_pos_len p → last_line ps start → last_line (ps ++ [p]) (moved ps p start).
Proof.
  intros Hl Hs. pose proof (breaks_nonneg p Hl) as Hb. unfold moved. destruct (Z.ltb_spec 0 (breaks p)) as [Hlt|Hge].
  - right. destruct (line_starts_head p Hl) as [rest Hr]. exists ps, p, []. rewrite Hr. rewrite last_cons.
    destruct (last rest) as [l|]; eexists; split_and!; (done || by constructor).
  - assert (Forall (λ p, breaks p = 0) [p]) as Hp by (constructor; [lia|constructor]).
    destruct Hs as [[Hall ->]|(b & q & a & l & -> & Hq & Ha & Hlast & ->)]; [left; by rewrite Forall_app|].
    right. exists b, q, (a ++ [p]), l. rewrite <-app_assoc. split_and!; [done|done|by apply Forall_app|done|done].
Qed.

Lemma last_line_inside ps start :
  text_pos_len (concat ps) → last_line ps start → 0 <= start <= Z.of_nat (length (concat ps)).
Proof.
  intros Hl [[_ ->]|(b & p & a & l & -> & _ & _ & Hlast & ->)]; [lia|].
  rewrite concat_app in *. cbn in *. apply text_pos_len_app in Hl as [_ [Hp _]%text_pos_len_app].
  apply last_Some_elem_of, line_starts_inside in Hlast; [|done]. rewrite !length_app. lia.
Qed.

(** Pieces that do not meet inside a line break or a sequence: their lines are those of the
    whole text. *)
Lemma pieces_lines ps : ∀ start,
  Forall clean_text ps → text_pos_len (concat ps) → last_line ps start →
  lines_ok (concat ps) (total_breaks ps) start.
Proof.
  assert (∀ ps, Forall clean_text ps → text_pos_len (concat ps) →
            ∃ start, last_line ps start ∧ lines_ok (concat ps) (total_breaks ps) start) as Hex.
  { intros qs. induction qs as [|p qs IH] using rev_ind; [exists 0; split; [by left|by constructor]|].
    rewrite Forall_app, Forall_singleton, concat_app. cbn. rewrite app_nil_r. intros [Hqs Hp] Hl.
    apply text_pos_len_app in Hl as Hl'. destruct Hl' as [Hlq Hlp]. destruct (IH Hqs Hlq) as (start & Hs & Hok).
    exists (moved qs p start). split; [by apply last_line_snoc|]. rewrite total_breaks_snoc.
    pose proof (lines_ok_app _ _ _ _ Hok Hp Hl) as H. cbv zeta in H. unfold moved, breaks.
    by replace (0 <? _ - 1) with (1 <? Z.of_nat (length (compute_ecma_line_starts p))) by lia. }
  intros start Hc Hl Hs. destruct (Hex ps Hc Hl) as (start' & Hs' & Hok). replace start with start'; [done|].
  clear Hex Hok Hc Hl. revert start start' Hs Hs'.
  induction ps as [|p ps IH] using rev_ind; intros start start' Hs Hs'.
  - destruct Hs as [[_ ->]|([] & ? & ? & ? & [=] & _)], Hs' as [[_ ->]|([] & ? & ? & ? & [=] & _)]. done.
  - assert (∀ start, last_line (ps ++ [p]) start →
      (0 < breaks p ∧ ∃ l, last (compute_ecma_line_starts p) = Some l ∧ start = Z.of_nat (length (concat ps)) + l)
      ∨ breaks p = 0 ∧ last_line ps start) as Hinv.
    { clear. intros start [[Hall ->]|(b & q & a & l & Heq & Hq & Ha & Hl & ->)].
      - apply Forall_app in Hall as [Hall Hp]. right. split; [by inversion Hp|by left].
      - destruct a as [|x a _] using rev_ind.
        + apply app_inj_tail in Heq as [-> ->]. left. eauto.
        + rewrite app_comm_cons, app_assoc in Heq. apply app_inj_tail in Heq as [-> ->].
          apply Forall_app in Ha as [Ha Hx]. right. split; [by inversion Hx|]. right. by exists b, q, a, l. }
    destruct (Hinv _ Hs) as [(Hp & l & Hl & ->)|[Hp H1]], (Hinv _ Hs') as [(Hp' & l' & Hl' & ->)|[Hp' H2]];
      [congruence|lia|lia|by apply IH].
Qed.

(** ** What the operations write *)

Definition is_new_line (s : bytes) : Prop := s = [10] ∨ s = [13; 10].

(** The text an operation is given. *)
Definition op_text (op : WriterOp) : bytes :=
  match op with
  | Write s | TrailingSemicolon s | Comment s | Keyword s | Operator s | Punctuation s | Space s | StringLiteral s
  | Parameter_ s | Property s | Symbol_ s | RawWrite s | Literal s => s
  | Line | LineForce _ | IncreaseIndent | DecreaseIndent | Clear => []
  end.

(** What stands in front of the text of a write. *)
Definition pending_indent (w : TextWriter) : bytes :=
  if line_start w then repeat (ch " ") (Z.to_nat (indent w * indent_size w)) else [].

(** The pieces once an operation is done. *)
Definition pieces_after (op : WriterOp) (w : TextWriter) (ps : list bytes) : list bytes :=
  match op with
  | Clear => []
  | IncreaseIndent | DecreaseIndent => ps
  | Line => if line_start w then ps else ps ++ [new_line w]
  | LineForce force => if line_start w && negb force then ps else ps ++ [new_line w]
  | RawWrite s => ps ++ [s]
  | _ => if bool_decide (op_text op = []) then ps else ps ++ [pending_indent w; op_text op]
  end.

(** The states of a new writer under operations, with the pieces of their texts, while the
    buffer's offsets are [i32] values. *)
Inductive written (nl : bytes) (size : Z) : list bytes → TextWriter → Prop :=
  | written_new : written nl size [] (writer_new nl size)
  | written_op op ps w w' :
      written nl size ps w → perform op w = Some w' → text_pos_len (builder w') →
      written nl size (pieces_after op w ps) w'.

Record tracks (nl : bytes) (ps : list bytes) (w : TextWriter) : Prop := {
  tr_text : builder w = concat ps;
  tr_len : text_pos_len (builder w);
  tr_count : line_count w = total_breaks ps;
  tr_pos : last_line ps (line_pos w);
  tr_start : line_start w = ends_line ps;
  tr_new_line : new_line w = nl;
  tr_indent_size : 0 < indent_size w;
}.

Lemma new_line_starts s : is_new_line s → compute_ecma_line_starts s = [0; Z.of_nat (length s)].
Proof. by intros [-> | ->]. Qed.

(** The line state once [s] is appended to what [w] holds. *)
Lemma update_tracks nl ps w s :
  builder w = concat ps ++ s → text_pos_len (builder w) → line_count w = total_breaks ps →
  last_line ps (line_pos w) → new_line w = nl → 0 < indent_size w →
  tracks nl (ps ++ [s]) (update_line_count_and_pos_for s w).
Proof.
  intros Hb Hl Hc Hp Hn Hi. pose proof Hl as Hls. rewrite Hb in Hls. apply text_pos_len_app in Hls as [_ Hls].
  pose proof (last_line_snoc ps s _ Hls Hp) as Hmoved. unfold moved in Hmoved.
  assert (builder w = concat (ps ++ [s])) as Hb' by (rewrite Hb, concat_app; cbn; by rewrite app_nil_r).
  pose proof (breaks_nonneg s Hls) as Hnn. destruct (line_starts_head s Hls) as [rest Hr].
  unfold update_line_count_and_pos_for.
  replace (Z.of_nat (length (builder w)) - Z.of_nat (length s)) with (Z.of_nat (length (concat ps)))
    by (rewrite Hb, length_app; lia).
  replace (1 <? Z.of_nat (length (compute_ecma_line_starts s))) with (0 <? breaks s) by (unfold breaks; lia).
  destruct (Z.ltb_spec 0 (breaks s)) as [Hlt|Hge].
  - constructor; cbn; [done|done|by rewrite total_breaks_snoc, Hc; unfold breaks|done| |done|done].
    unfold ends_line. rewrite last_snoc, (proj2 (Z.ltb_lt _ _)) by done. rewrite Hr, last_cons. cbn [andb].
    rewrite Hb, length_app. apply Bool.eq_iff_eq_true. rewrite Z.eqb_eq, bool_decide_eq_true.
    destruct (last rest); cbn; (split; [intros; f_equal; lia|intros; simplify_eq; lia]).
  - constructor; cbn; [done|done|rewrite total_breaks_snoc, Hc; lia|done| |done|done].
    unfold ends_line. rewrite last_snoc. by rewrite (proj2 (Z.ltb_ge _ _)).
Qed.

Lemma builder_update s w : builder (update_line_count_and_pos_for s w) = builder w.
Proof. unfold update_line_count_and_pos_for. by destruct (_ <? _). Qed.

Lemma flagged_tracks nl ps w flag : tracks nl ps w → tracks nl ps (w <| has_trailing_comment_state := flag |>).
Proof. by intros []. Qed.

(** A write in closed form: it panics on a negative indentation, at the start of a line. *)
Lemma write_text_eq w s :
  0 < indent_size w →
  write_text s w
  = if bool_decide (s = []) then Some w
    else if line_start w && (indent w <? 0) then None
    else Some (update_line_count_and_pos_for s (append s
           (w <| builder := builder w ++ pending_indent w |> <| line_start := false |>))).
Proof.
  intros Hz. unfold write_text, pending_indent, indent_string. case_bool_decide; [done|].
  destruct w as [nl sz b lw ind st lc lp hc]. cbn in *. destruct st; cbn; [|by rewrite app_nil_r].
  destruct (Z.eqb_spec ind 0) as [->|]; [done|].
  replace (ind * sz <? 0) with (ind <? 0); [by destruct (ind <? 0)|].
  destruct (Z.ltb_spec ind 0), (Z.ltb_spec (ind * sz) 0); (done || nia).
Qed.

Lemma write_text_tracks nl ps w s w' :
  tracks nl ps w → write_text s w = Some w' → text_pos_len (builder w') →
  tracks nl (if bool_decide (s = []) then ps else ps ++ [pending_indent w; s]) w'.
Proof.
  intros [Ht Hl Hc Hp Hst Hn Hi]. rewrite write_text_eq by done. case_bool_decide; [by intros [= <-]|].
  destruct (_ && _); [done|]. intros [= <-]. rewrite builder_update. cbn. intros Hlen.
  change [pending_indent w; s] with ([pending_indent w] ++ [s]). rewrite app_assoc.
  assert (text_pos_len (pending_indent w)) as Hlp by (apply text_pos_len_app in Hlen as [[_ ?]%text_pos_len_app _]; done).
  assert (breaks (pending_indent w) = 0) as Hbr.
  { unfold breaks, pending_indent in *. destruct (line_start w); [by rewrite spaces_one_line|done]. }
  apply update_tracks; cbn; try done.
  - rewrite Ht, concat_app. cbn. by rewrite app_nil_r.
  - rewrite total_breaks_snoc. lia.
  - pose proof (last_line_snoc ps _ _ Hlp Hp) as Hm. unfold moved in Hm. by rewrite Hbr in Hm.
Qed.

Lemma write_line_tracks nl ps w :
  is_new_line nl → tracks nl ps w → text_pos_len (builder (write_line_raw w)) →
  tracks nl (ps ++ [new_line w]) (write_line_raw w).
Proof.
  intros Hnl [Ht Hl Hc Hp Hst Hn Hi]. cbn. rewrite Hn. intros Hlen.
  pose proof (text_pos_len_app _ _ Hlen) as [_ Hln].
  assert (breaks nl = 1) as Hbr by (unfold breaks; by rewrite new_line_starts).
  pose proof (last_line_snoc ps nl _ Hln Hp) as H. unfold moved in H. rewrite Hbr, new_line_starts in H by done. cbn in H.
  constructor; cbn; rewrite ?Hn; try done.
  - rewrite Ht, concat_app. cbn. by rewrite app_nil_r.
  - rewrite total_breaks_snoc. lia.
  - by rewrite Ht, length_app, Nat2Z.inj_add.
  - unfold ends_line. rewrite last_snoc, Hbr, new_line_starts by done. cbn. by rewrite bool_decide_eq_true_2.
Qed.

Lemma flag_pending w flag : pending_indent (w <| has_trailing_comment_state := flag |>) = pending_indent w.
Proof. done. Qed.

Lemma flagged_write_tracks nl ps w s flag w' :
  tracks nl ps w →
  write_text s (if bool_decide (s = []) then w else w <| has_trailing_comment_state := flag |>) = Some w' →
  text_pos_len (builder w') → tracks nl (if bool_decide (s = []) then ps else ps ++ [pending_indent w; s]) w'.
Proof.
  intros Hw. case_bool_decide as Hs.
  - intros H Hl. pose proof (write_text_tracks nl ps w s w' Hw H Hl) as Hr. by rewrite bool_decide_eq_true_2 in Hr.
  - intros H Hl. pose proof (write_text_tracks nl ps _ s w' (flagged_tracks _ _ _ flag Hw) H Hl) as Hr.
    by rewrite bool_decide_eq_false_2 in Hr.
Qed.

Lemma perform_tracks nl ps op w w' :
  is_new_line nl → tracks nl ps w → perform op w = Some w' → text_pos_len (builder w') →
  tracks nl (pieces_after op w ps) w'.
Proof.
  intros Hnl Hw. pose proof (write_line_tracks nl ps w Hnl Hw) as Hline.
  destruct op as [s|s|s|s|s|s|s|s|s|s|s| |force| | | |s|s]; cbn [perform pieces_after op_text];
    try exact (flagged_write_tracks nl ps w s false w' Hw).
  - exact (flagged_write_tracks nl ps w s true w' Hw).
  - cbn. intros [= <-]. destruct (line_start w); [done|apply Hline].
  - cbn. intros [= <-]. destruct (line_start w), force; cbn; (done || apply Hline).
  - intros [= <-] _. by destruct Hw.
  - intros [= <-] _. by destruct Hw.
  - intros [= <-] Hl. destruct Hw. constructor; cbn; try done. by left.
  - cbn. intros [= <-]. unfold writer_raw_write. rewrite builder_update. intros Hl. destruct Hw.
    apply update_tracks; case_bool_decide; cbn; try done; subst; [by rewrite app_nil_r|congruence].
Qed.

Lemma written_tracks nl size ps w : is_new_line nl → written nl size ps w → tracks nl ps w.
Proof.
  intros Hn. induction 1 as [|op ps w w' _ IH Hp Hl]; [|by eapply perform_tracks].
  constructor; [done|done|done|by left|done|done|]. cbn. destruct (Z.leb_spec size 0); unfold DEFAULT_INDENT_SIZE; lia.
Qed.

(** The operations that write behind the indentation. *)
Definition indents (op : WriterOp) : bool :=
  match op with
  | Line | LineForce _ | IncreaseIndent | DecreaseIndent | Clear | RawWrite _ => false
  | _ => true
  end.

Lemma write_panics w s flag :
  0 < indent_size w →
  write_text s (if bool_decide (s = []) then w else w <| has_trailing_comment_state := flag |>) = None
  ↔ s ≠ [] ∧ line_start w = true ∧ indent w < 0.
Proof.
  intros Hz. rewrite write_text_eq by (by case_bool_decide). case_bool_decide as Hs; [naive_solver|]. cbn.
  destruct (line_start w), (Z.ltb_spec (indent w) 0); cbn; split; naive_solver lia.
Qed.

Lemma perform_panics op w :
  0 < indent_size w →
  perform op w = None ↔ indents op = true ∧ op_text op ≠ [] ∧ line_start w = true ∧ indent w < 0.
Proof.
  intros Hz. destruct op as [s|s|s|s|s|s|s|s|s|s|s| |force| | | |s|s]; cbn [perform indents op_text];
    try (change (perform _ w) with (writer_write s w));
    try (etrans; [exact (write_panics w s false Hz)|naive_solver]);
    try (etrans; [exact (write_panics w s true Hz)|naive_solver]); split; [done|naive_solver..].
Qed.

(** [C26] The line and the column that a [TextWriter] reports, as the source map and the
    comment emitter read them. After any operations on a new writer with either line ending,
    as long as the text's length is an [i32]: the text is the pieces the operations wrote, in
    order - each text behind the indentation that was pending, and the line ends. The line is
    the number of line breaks in the pieces, counted in each piece by itself; the last line
    starts behind the last of them, inside the text; the writer is at the start of a line
    exactly if nothing stands behind it in the last piece; the column is the pending
    indentation there and the UTF-16 length of the last line otherwise. Where no piece ends
    in a carriage return or starts inside an encoded character, the line and the start of
    the last line are those of the whole text. An operation panics exactly if it would
    write a text at the start of a line behind a negative indentation, which a raw write
    does not. *)
Theorem writer_tracks_lines nl size ps w :
  is_new_line nl → written nl size ps w →
  text_of w = concat ps
  ∧ get_line w = total_breaks ps
  ∧ is_at_start_of_line w = ends_line ps
  ∧ (∃ start, last_line ps start ∧ 0 <= start <= get_text_pos w
      ∧ (is_at_start_of_line w = true → start = get_text_pos w)
      ∧ get_column w = Some (if is_at_start_of_line w then get_indent w * indent_size w
                             else utf16_len (drop (Z.to_nat start) (text_of w)))
      ∧ (Forall clean_text ps →
           let starts := compute_ecma_line_starts (text_of w) in
           get_line w = Z.of_nat (length starts) - 1 ∧ last starts = Some start))
  ∧ (∀ op, perform op w = None
       ↔ indents op = true ∧ op_text op ≠ [] ∧ is_at_start_of_line w = true ∧ get_indent w < 0)
  ∧ (∀ s w', write s w = Some w' →
       text_of w' = text_of w ++ (if bool_decide (s = []) then [] else pending_indent w) ++ s).
Proof.
  intros Hn Hr. destruct (written_tracks _ _ _ _ Hn Hr) as [Ht Hlen Hc Hp Hst Hnl Hi].
  cbn [text_of get_text_pos get_line get_column get_indent is_at_start_of_line write text_writer] in *.
  pose proof Hlen as Hlen'. rewrite Ht in Hlen'. pose proof (last_line_inside _ _ Hlen' Hp) as Hin.
  rewrite <-Ht in Hin. split_and!; [done|done|done| |intros op; by apply perform_panics|].
  - exists (line_pos w). split_and!; [done|lia|lia| | |].
    + rewrite Hst. unfold ends_line. destruct Hp as [[Hall ->]|(b & p & a & l & -> & Hb & Ha & Hl & ->)].
      * destruct ps as [|p ps _] using rev_ind; [by rewrite Ht|]. rewrite last_snoc.
        apply Forall_app in Hall as [_ Hp]. inversion Hp as [|? ? Hz _]. subst. by rewrite Hz.
      * destruct a as [|q a _] using rev_ind.
        -- rewrite last_snoc. intros [_ Hd%bool_decide_eq_true_1]%andb_true_iff.
           rewrite Ht, concat_app, length_app. cbn. rewrite app_nil_r. simplify_eq. lia.
        -- rewrite app_comm_cons, app_assoc, last_snoc. apply Forall_app in Ha as [_ Hq]. inversion Hq as [|? ? Hz _]. subst. by rewrite Hz.
    + unfold writer_get_column. destruct (line_start w); [done|]. by rewrite text_tail_some.
    + intros Hclean. destruct (pieces_lines ps _ Hclean Hlen' Hp) as [_ H1 H2 _]. rewrite Ht. split; [lia|done].
  - intros s w'. unfold writer_write. rewrite write_text_eq by (by case_bool_decide).
    case_bool_decide as Hs; [subst; intros [= <-]; by rewrite app_nil_r|]. cbn.
    destruct (_ && _); [done|]. intros [= <-]. rewrite builder_update. cbn. by rewrite app_assoc.
Qed.

(** [if (a) {⏎  é], with an indentation of two and a comment that holds a line separator;
    then a text that ends in CR and one that starts with LF, and an indentation too few. *)
Definition sample_ops : list WriterOp :=
  [Write (bs "if (a) {"); IncreaseIndent; Line; Line; Comment (bs "/*" ++ [226; 128; 168] ++ bs "*/");
   StringLiteral [195; 169; 240; 157; 132; 158]].
Definition sample_cr_ops : list WriterOp := [Write (bs "a" ++ [13]); Write [10]; DecreaseIndent].

Fixpoint run_pieces (ops : list WriterOp) (ps : list bytes) (w : TextWriter) : option (list bytes * TextWriter) :=
  match ops with
  | [] => Some (ps, w)
  | op :: ops =>
      w' ← perform op w;
      if Z.of_nat (length (builder w')) <=? I32_MAX then run_pieces ops (pieces_after op w ps) w' else None
  end.

Lemma run_pieces_written nl size ops ps w ps' w' :
  written nl size ps w → run_pieces ops ps w = Some (ps', w') → written nl size ps' w'.
Proof.
  revert ps w. induction ops as [|op ops IH]; intros ps w Hw; cbn [run_pieces]; [by intros [= <- <-]|].
  destruct (perform op w) as [w1|] eqn:E; cbn [mbind option_bind]; [|done].
  destruct (Z.leb_spec (Z.of_nat (length (builder w1))) I32_MAX) as [Hl|]; [|done].
  intros Hrun. eapply IH; [|exact Hrun]. by apply (written_op _ _ op).
Qed.

Definition sample_run (ops : list WriterOp) : list bytes * TextWriter :=
  default ([], writer_new [10] 2) (run_pieces ops [] (writer_new [10] 2)).

Lemma sample_written ops :
  is_Some (run_pieces ops [] (writer_new [10] 2)) → written [10] 2 (sample_run ops).1 (sample_run ops).2.
Proof.
  intros [[ps w] Hrun]. unfold sample_run. rewrite Hrun. eapply run_pieces_written; [apply written_new|done].
Qed.

Lemma writer_tracks_lines_witness :
  (let w := (sample_run sample_ops).2 in
   text_of w = bs "if (a) {" ++ [10] ++ bs "  /*" ++ [226; 128; 168] ++ bs "*/" ++ [195; 169; 240; 157; 132; 158]
   ∧ get_line w = 2 ∧ get_column w = Some 5
   ∧ get_line w = Z.of_nat (length (compute_ecma_line_starts (text_of w))) - 1)
  ∧ (let '(ps, w) := sample_run sample_cr_ops in
     get_line w = 2 ∧ length (compute_ecma_line_starts (text_of w)) = 2%nat
     ∧ get_line w = total_breaks ps ∧ perform (Write (bs "b")) w = None).
Proof.
  split.
  - cbv zeta. split_and!; [by vm_compute..|].
    destruct (writer_tracks_lines [10] 2 _ _ (or_introl eq_refl)
                (sample_written sample_ops ltac:(vm_compute; by eexists))) as (_ & _ & _ & (start & _ & _ & _ & _ & Hlines) & _).
    apply Hlines, Forall_forall. intros p Hp. vm_compute in Hp.
    repeat (apply elem_of_cons in Hp as [->|Hp];
      [split; [intros x Hx; vm_compute in Hx; by simplify_eq|by vm_compute]|]).
    by apply elem_of_nil in Hp.
  - assert (written [10] 2 (sample_run sample_cr_ops).1 (sample_run sample_cr_ops).2) as Hw
      by (apply sample_written; vm_compute; by eexists).
    rewrite (surjective_pairing (sample_run sample_cr_ops)). split_and!; [by vm_compute..| |].
    + apply (writer_tracks_lines [10] 2 _ _ (or_introl eq_refl) Hw).
    + apply (writer_tracks_lines [10] 2 _ _ (or_introl eq_refl) Hw). by vm_compute.
Defined.

(** ** The deferring writer *)

(** The operations that reach the wrapped writer: a semicolon only where an operation that is
    neither a semicolon nor [clear] comes next. *)
Fixpoint passed_on (ops : list WriterOp) : list WriterOp :=
  match ops with
  | [] => []
  | TrailingSemicolon _ :: rest =>
      match rest with
      | [] | TrailingSemicolon _ :: _ | Clear :: _ => passed_on rest
      | _ => TrailingSemicolon (bs ";") :: passed_on rest
      end
  | op :: rest => op :: passed_on rest
  end.

Definition is_semicolon (op : WriterOp) : bool := match op with TrailingSemicolon _ => true | _ => false end.
Definition waits (ops : list WriterOp) : bool := from_option is_semicolon false (last ops).

(** What the wrapped writer sees from a state with or without a semicolon waiting. *)
Lemma performs_deferring {W} `{EmitTextWriter W} ops (w : W) pending :
  performs ops (MkDeferring w pending)
  = (λ w', MkDeferring w' (from_option is_semicolon pending (last ops)))
    <$> performs (passed_on (if pending then TrailingSemicolon (bs ";") :: ops else ops)) w.
Proof.
  revert w pending; induction ops as [|op ops IH]; intros w pending; [by destruct pending|].
  assert (∀ b, from_option is_semicolon (is_semicolon op) (last ops) = from_option is_semicolon b (last (op :: ops))) as Hlast
    by (intros b; rewrite last_cons; by destruct (last ops)).
  rewrite <-Hlast. destruct op; destruct pending; cbn [performs perform passed_on is_semicolon]; cbn;
    unfold committed, commit_semicolon; cbn [has_pending_semicolon inner mbind option_bind];
    repeat match goal with
    | |- context [mbind _ (?m ?w)] => destruct (m w) as [?|]; cbn [mbind option_bind fmap option_fmap option_map]; [|done]
    end; by rewrite ?IH.
Qed.

(** The writer that defers a trailing semicolon is a filter in front of the writer it
    wraps, whatever that writer does: running operations through it is running on the
    wrapped writer the same operations, in order, less the semicolons that nothing follows -
    of those written in a row one is passed on, as [;], just before the operation that comes
    next, and none before [clear] or at the end, where one waits. If an operation of the
    wrapped writer panics, both do. *)
Theorem deferring_writer_filters {W} `{EmitTextWriter W} ops (w : W) :
  performs ops (deferring_new w) = (λ w', MkDeferring w' (waits ops)) <$> performs (passed_on ops) w.
Proof. apply (performs_deferring ops w false). Qed.
