(* ===== verification/BuildGraph.v ===== *)
(** The graph of a build: [crates/tsr_build/src/graph.rs], with the parts of
    [tsr_build/src/lib.rs], [host.rs] and [task.rs] it works on and the resolution of
    references of [crates/tsr_tsoptions/src].

    Reading a configuration file is a parameter. The readers of a batch run in any order,
    but their results are sorted by position before anything looks at them, so a batch is
    the list of its results. A [None] of the model is a panic. Closing the projects of
    content mappers and the clock are left out. *)

From stdpp Require Import gmap.
From S2P Require Import Prelude PathComponents PathCompare PathExtension.

Local Open Scope nat_scope.

(** ** Configurations *)

Record ProjectReference := MkReference { ref_path : bytes; original_path : bytes; circular : bool }.

(** The part of a parsed configuration that the graph reads. *)
Record ParsedCommandLine := MkCommandLine { project_references : option (list ProjectReference) }.

Definition resolve_config_file_name_of_project_reference (name : bytes) : bytes :=
  if file_extension_is name (bs ".json") then name else combine name [bs "tsconfig.json"].

Definition resolve_project_reference_path (reference : ProjectReference) : bytes :=
  resolve_config_file_name_of_project_reference (ref_path reference).

Definition resolved_project_reference_paths (config : ParsedCommandLine) : list bytes :=
  resolve_project_reference_path <$> default [] (project_references config).

(** The projects of a build command. *)
Definition resolved_project_paths (current_directory : bytes) (projects : list bytes) : list bytes :=
  (λ project, resolve_config_file_name_of_project_reference (resolve current_directory [project])) <$> projects.

(** ** Tasks *)

Inductive Message := Project_references_may_not_form_a_circular_graph_Cycle_detected_Colon_0.
Record Diagnostic := MkDiagnostic { message : Message; args : list bytes }.

Record BuildHost := MkHost { cwd : bytes; case_sensitive : bool }.

Section Graph.
Context `{CaseTables} {Info E : Type}.
Context (host : BuildHost) (watch : bool) (read_config_file : bytes → result E (option ParsedCommandLine)).

Definition path (name : bytes) : bytes := to_path name (cwd host) (case_sensitive host).

(** The fields of a task that the graph reads or writes. *)
Record BuildTask := MkTask {
  config : bytes;
  resolved : option ParsedCommandLine;
  info : option Info;
  initial_cycle : bool;
  dirty : bool;
}.

Definition task_new (config : bytes) (resolved : option ParsedCommandLine) : BuildTask :=
  MkTask config resolved None true false.

Record Node := MkNode { task : BuildTask; upstream : list (nat * nat); downstream : list nat }.

Record Orchestrator := MkOrchestrator {
  tasks : list Node;
  by_path : gmap bytes nat;
  order : list bytes;
  order_indices : list nat;
  errors : list Diagnostic;
}.
#[local] Instance eta_orchestrator : Eta Orchestrator := λ o,
  MkOrchestrator (tasks o) (by_path o) (order o) (order_indices o) (errors o).
#[local] Instance eta_node : Eta Node := λ n, MkNode (task n) (upstream n) (downstream n).
#[local] Instance eta_task : Eta BuildTask := λ t, MkTask (config t) (resolved t) (info t) (initial_cycle t) (dirty t).

Definition index (name : bytes) (o : Orchestrator) : option nat := by_path o !! path name.

(** ** Discovery *)

(** [pending.retain(|name| scheduled.insert(path(name)))] *)
Fixpoint retain_new (pending : list bytes) (scheduled : gset bytes) : list bytes * gset bytes :=
  match pending with
  | [] => ([], scheduled)
  | name :: pending =>
      if decide (path name ∈ scheduled) then retain_new pending scheduled
      else let '(kept, scheduled) := retain_new pending ({[path name]} ∪ scheduled) in (name :: kept, scheduled)
  end.

(** What one reader of a batch pushes: the old task unless it is dirty, or a new one that
    takes over the build information of the old. *)
Definition parse_task (old : gmap bytes BuildTask) (initial : bool) (name : bytes) : result E BuildTask :=
  let previous := old !! path name in
  match previous with
  | Some task => if dirty task then
      command_line ← read_config_file name;
      Ok (task_new name command_line <| initial_cycle := initial |> <| info := info task |>)
    else Ok task
  | None =>
      command_line ← read_config_file name;
      Ok (task_new name command_line <| initial_cycle := initial |>)
  end.

(** Adds the tasks of a batch up to its first error, and collects what they refer to. *)
Fixpoint add_parsed (parsed : list (result E BuildTask)) (pending : list bytes) (o : Orchestrator)
  : Orchestrator * result E (list bytes) :=
  match parsed with
  | [] => (o, Ok pending)
  | Err error :: _ => (o, Err error)
  | Ok task :: parsed =>
      let pending := pending ++ from_option resolved_project_reference_paths [] (resolved task) in
      let o := o <| by_path := <[path (config task) := length (tasks o)]> (by_path o) |> in
      let o := o <| tasks := tasks o ++ [MkNode task [] []] |> in
      add_parsed parsed pending o
  end.

(** The batches, until one finds nothing new. Only the files can make this end, so the
    fuel is the caller's. *)
Fixpoint discover (fuel : nat) (old : gmap bytes BuildTask) (initial : bool)
    (scheduled : gset bytes) (pending : list bytes) (o : Orchestrator) : option (Orchestrator * result E ()) :=
  match fuel with
  | O => None
  | S fuel =>
      if bool_decide (pending = []) then Some (o, Ok ())
      else
        let '(pending, scheduled) := retain_new pending scheduled in
        match add_parsed (parse_task old initial <$> pending) [] o with
        | (o, Err error) => Some (o, Err error)
        | (o, Ok pending) => discover fuel old initial scheduled pending o
        end
  end.

(** ** The order *)

Record Setup := MkSetup {
  orch : Orchestrator;
  completed : gset nat;
  analyzing : gset nat;
  stack : list bytes;
}.
#[local] Instance eta_setup : Eta Setup := λ s, MkSetup (orch s) (completed s) (analyzing s) (stack s).

(** [[a, b].join(&b'\n')] *)
Fixpoint join_lines (lines : list bytes) : bytes :=
  match lines with
  | [] => []
  | [line] => line
  | line :: lines => line ++ [10%Z] ++ join_lines lines
  end.

Definition cycle_detected (stack : list bytes) : Diagnostic :=
  MkDiagnostic Project_references_may_not_form_a_circular_graph_Cycle_detected_Colon_0 [join_lines stack].

(** The references of a task and whether they may be circular. *)
Definition references (task : BuildTask) : list (bytes * bool) :=
  match resolved task with
  | Some config =>
      zip (resolved_project_reference_paths config) (circular <$> default [] (project_references config))
  | None => []
  end.

Definition push_upstream (index : nat) (edge : nat * nat) (s : Setup) : Setup :=
  s <| orch := (orch s) <| tasks := alter (λ n, n <| upstream := upstream n ++ [edge] |>) index (tasks (orch s)) |> |>.

Definition push_downstream (index : nat) (downstream_ : option nat) (s : Setup) : Setup :=
  match downstream_ with
  | Some d =>
      if watch then
        s <| orch := (orch s) <| tasks := alter (λ n, n <| downstream := downstream n ++ [d] |>) index (tasks (orch s)) |> |>
      else s
  | None => s
  end.

(** The loop over the references of the task [current], with the recursive call given. *)
Fixpoint setup_references (setup : nat → option nat → bool → Setup → option (option nat * Setup))
    (current : nat) (circular : bool) (ref_index : nat) (refs : list (bytes * bool)) (s : Setup) : option Setup :=
  match refs with
  | [] => Some s
  | (name, ref_circular) :: refs =>
      next ← index name (orch s);
      '(upstream, s) ← setup next (Some current) (circular || ref_circular) s;
      let s := match upstream with
               | Some upstream => push_upstream current (upstream, ref_index) s
               | None => s
               end in
      setup_references setup current circular (S ref_index) refs s
  end.

(** Each call below another one puts one more task under analysis, so as many levels as
    there are tasks are enough. *)
Fixpoint setup_task (fuel : nat) (index : nat) (downstream : option nat) (circular : bool) (s : Setup)
  : option (option nat * Setup) :=
  match fuel with
  | O => None
  | S fuel =>
      if decide (index ∈ completed s) then Some (Some index, push_downstream index downstream s)
      else if decide (index ∈ analyzing s) then
        Some (None,
          if circular then s
          else s <| orch := (orch s) <| errors := errors (orch s) ++ [cycle_detected (stack s)] |> |>)
      else
        let s := s <| analyzing := {[index]} ∪ analyzing s |> in
        node ← tasks (orch s) !! index;
        let config_name := config (task node) in
        let s := s <| stack := stack s ++ [config_name] |> in
        s ← setup_references (setup_task fuel) index circular 0 (references (task node)) s;
        let s := s <| stack := removelast (stack s) |> <| completed := {[index]} ∪ completed s |> in
        let s := s <| orch := (orch s) <| order := order (orch s) ++ [config_name] |>
                                      <| order_indices := order_indices (orch s) ++ [index] |> |> in
        Some (Some index, push_downstream index downstream s)
  end.

(** The call for each root, with an empty stack. *)
Fixpoint setup_roots (roots : list bytes) (s : Setup) : option Setup :=
  match roots with
  | [] => Some s
  | root :: roots =>
      i ← index root (orch s);
      '(_, s) ← setup_task (S (length (tasks (orch s)))) i None false (s <| stack := [] |>);
      setup_roots roots s
  end.

Definition generate_graph_with_tasks (fuel : nat) (roots : list bytes) (old : gmap bytes BuildTask) (initial : bool)
  : option (Orchestrator * result E ()) :=
  let o := MkOrchestrator [] ∅ [] [] [] in
  '(o, found) ← discover fuel old initial ∅ roots o;
  match found with
  | Err error => Some (o, Err error)
  | Ok _ => s ← setup_roots roots (MkSetup o ∅ ∅ []); Some (orch s, Ok ())
  end.

Definition generate_graph (fuel : nat) (roots : list bytes) : option (Orchestrator * result E ()) :=
  generate_graph_with_tasks fuel roots ∅ true.

(** The old tasks by path; a later one of the same path replaces an earlier. *)
Definition tasks_by_path (o : Orchestrator) : gmap bytes BuildTask :=
  fold_left (λ m node, <[path (config (task node)) := task node]> m) (tasks o) ∅.

Definition generate_graph_reusing_old_tasks (fuel : nat) (roots : list bytes) (o : Orchestrator)
  : option (Orchestrator * result E ()) :=
  generate_graph_with_tasks fuel roots (tasks_by_path o) false.
End Graph.

(** Three projects: [a] refers to [b] and [c], [b] to [c], and, if [cyclic], [c] to [a]. *)
Definition sample_read (cyclic : bool) (name : bytes) : result () (option ParsedCommandLine) :=
  let refer ps := Some (MkCommandLine (Some ((λ p, MkReference p p false) <$> ps))) in
  if bool_decide (name = bs "/a/tsconfig.json") then Ok (refer [bs "/b"; bs "/c/tsconfig.json"])
  else if bool_decide (name = bs "/b/tsconfig.json") then Ok (refer [bs "/c"])
  else if bool_decide (name = bs "/c/tsconfig.json") then Ok (refer (if cyclic then [bs "/a"] else []))
  else Err ().

Example generate_graph_ex :
  let tables := ascii_tables in
  let run cyclic := generate_graph (Info := ()) (MkHost (bs "/") true) false (sample_read cyclic) 4
                      (resolved_project_paths (bs "/") [bs "a"]) in
  ((λ '(o, r), (order_indices o, upstream <$> tasks o, errors o, r)) <$> run false)
    = Some ([2; 1; 0], [[(1, 0); (2, 1)]; [(2, 0)]; []], [], Ok ())
  ∧ ((λ '(o, r), (order_indices o, upstream <$> tasks o, errors o)) <$> run true)
    = Some ([2; 1; 0], [[(1, 0); (2, 1)]; [(2, 0)]; []],
        [cycle_detected [bs "/a/tsconfig.json"; bs "/b/tsconfig.json"; bs "/c/tsconfig.json"]]).
Proof. by vm_compute. Qed.
