(* ===== verification/BuildGraphSpec.v ===== *)
(** The order of a build, [crates/tsr_build/src/graph.rs]: tasks come after what they refer
    to, every task that the roots lead to comes once, and a cycle is reported. *)

From stdpp Require Import gmap relations sets.
From S2P Require Import Prelude PathComponents PathCompare PathExtension BuildGraph.

Local Open Scope nat_scope.

#[local] Existing Instances eta_orchestrator eta_node eta_task eta_setup.

Section Spec.
Context `{CaseTables} {Info E : Type}.
Context (host : BuildHost) (watch : bool).

(** ** The graph a set-up works on

    The tasks and their paths, which it does not change. Every reference leads to a task. *)

Context (T : list (BuildTask (Info := Info))) (BP : gmap bytes nat).

Definition ref_edge (i k j : nat) : Prop :=
  ∃ t name circ, T !! i = Some t ∧ references t !! k = Some (name, circ) ∧ BP !! path host name = Some j.
Definition edge (i j : nat) : Prop := ∃ k, ref_edge i k j.
Definition cyclic : Prop := ∃ i, tc edge i i.

Definition refs_closed : Prop :=
  ∀ t name circ, t ∈ T → (name, circ) ∈ references t → ∃ j, BP !! path host name = Some j ∧ j < length T.

(** A reference of [i] to [j] that says that it may be circular. *)
Definition may_be_circular (i j : nat) : Prop :=
  ∃ t name, T !! i = Some t ∧ (name, true) ∈ references t ∧ BP !! path host name = Some j.

(** What such a reference leads to. *)
Definition lenient (x : nat) : Prop := ∃ i j, may_be_circular i j ∧ rtc edge j x.

Notation Setup := (Setup (Info := Info)).
Implicit Types (s : Setup) (i j k x : nat).

Definition upstream_of s i : list (nat * nat) := from_option upstream [] (tasks (orch s) !! i).

(** Each reference of [i] has its entry. *)
Definition complete s i : Prop :=
  ∀ t, T !! i = Some t → snd <$> upstream_of s i = seq 0 (length (references t)).

(** Each reference of [i] has its entry, unless a reference that may be circular leads to its target. *)
Definition complete_strict s i : Prop := ∀ j k, ref_edge i k j → ¬ lenient j → (j, k) ∈ upstream_of s i.

Record inv s : Prop := {
  inv_tasks : task <$> tasks (orch s) = T;
  inv_paths : by_path (orch s) = BP;
  inv_nodup : NoDup (order_indices (orch s));
  inv_completed x : x ∈ completed s ↔ x ∈ order_indices (orch s);
  inv_order : Some <$> order (orch s) = (λ i, config <$> T !! i) <$> order_indices (orch s);
  inv_analyzing x : x ∈ completed s → x ∈ analyzing s;
  inv_bound x : x ∈ analyzing s → x < length T;
  inv_edge i j k : (j, k) ∈ upstream_of s i → ref_edge i k j;
  inv_fresh i : i ∉ analyzing s → upstream_of s i = [];
  inv_before l1 i l2 j k :
    order_indices (orch s) = l1 ++ i :: l2 → (j, k) ∈ upstream_of s i → j ∈ l1;
  inv_open i j k : (j, k) ∈ upstream_of s i → j ∈ completed s;
  inv_closed i j : i ∈ completed s → edge i j → j ∈ analyzing s;
}.

(** What is open: analysed, and not completed. *)
Definition open s x : Prop := x ∈ analyzing s ∧ x ∉ completed s.

(** How a call changes the state; [but] is the task whose own references are at work. *)
Record grows (but : option nat) s s' : Prop := {
  g_analyzing x : x ∈ analyzing s → x ∈ analyzing s';
  g_completed x : x ∈ completed s → x ∈ completed s';
  g_open x : open s' x ↔ open s x;
  g_stack : stack s' = stack s;
  g_upstream x : x ∈ analyzing s → but ≠ Some x → upstream_of s' x = upstream_of s x;
  g_errors : errors (orch s) `prefix_of` errors (orch s');
}.

(** Either nothing went wrong or the graph has a cycle; and if nothing was reported then all went
    well where no reference that may be circular leads. *)
Definition outcome s s' (good strict : Prop) : Prop :=
  (errors (orch s') = errors (orch s) ∧ good ∧ (∀ x, x ∈ completed s' → x ∉ completed s → complete s' x)
   ∨ cyclic)
  ∧ (errors (orch s') = errors (orch s) →
     strict ∧ ∀ x, x ∈ completed s' → x ∉ completed s → complete_strict s' x).

Lemma grows_refl b s : grows b s s.
Proof. by constructor. Qed.

Lemma grows_trans b s1 s2 s3 : grows b s1 s2 → grows b s2 s3 → grows b s1 s3.
Proof.
  intros [A1 C1 O1 S1 U1 E1] [A2 C2 O2 S2 U2 E2].
  constructor; [by eauto|by eauto|intros x; by rewrite O2|by rewrite S2| |by etrans].
  intros x Hx Hb. rewrite U2, U1; auto.
Qed.

Lemma grows_weaken b s1 s2 : grows None s1 s2 → grows b s1 s2.
Proof. intros []. constructor; eauto. Qed.

(** ** The pushes *)

Lemma tasks_alter_upstream (f : Node (Info := Info) → Node) i (l : list Node) :
  (∀ n, task (f n) = task n) → task <$> alter f i l = task <$> l.
Proof.
  intros Hf. apply list_eq. intros x. rewrite !list_lookup_fmap. destruct (decide (x = i)) as [->|Hne].
  - rewrite list_lookup_alter_eq. destruct (l !! i); cbn; [|done]. by rewrite Hf.
  - by rewrite list_lookup_alter_ne.
Qed.

Lemma upstream_of_push i edge_ s x :
  i < length (tasks (orch s)) →
  upstream_of (push_upstream i edge_ s) x = if decide (x = i) then upstream_of s i ++ [edge_] else upstream_of s x.
Proof.
  intros Hi. unfold upstream_of. cbn. destruct (decide (x = i)) as [->|Hne].
  - rewrite list_lookup_alter_eq. apply lookup_lt_is_Some_2 in Hi as [n Hn]. by rewrite Hn.
  - by rewrite list_lookup_alter_ne.
Qed.

Lemma upstream_of_downstream i d s x : upstream_of (push_downstream watch i d s) x = upstream_of s x.
Proof.
  unfold push_downstream. destruct d as [d|]; [|done]. destruct watch; [|done]. unfold upstream_of. cbn.
  destruct (decide (x = i)) as [->|Hne]; [|by rewrite list_lookup_alter_ne].
  rewrite list_lookup_alter_eq. by destruct (tasks (orch s) !! i).
Qed.

(** What the invariant and [grows] look at. *)
Lemma push_downstream_same i d s :
  let s' := push_downstream watch i d s in
  (task <$> tasks (orch s') = task <$> tasks (orch s)) ∧ by_path (orch s') = by_path (orch s)
  ∧ order (orch s') = order (orch s) ∧ order_indices (orch s') = order_indices (orch s)
  ∧ errors (orch s') = errors (orch s)
  ∧ completed s' = completed s ∧ analyzing s' = analyzing s ∧ stack s' = stack s.
Proof.
  unfold push_downstream. destruct d as [d|]; [|done]. destruct watch; [|done]. cbn. by rewrite tasks_alter_upstream.
Qed.

Lemma inv_length s : inv s → length (tasks (orch s)) = length T.
Proof. intros Hs. by rewrite <-(inv_tasks _ Hs), length_fmap. Qed.

Lemma inv_downstream i d s : inv s → inv (push_downstream watch i d s).
Proof.
  destruct (push_downstream_same i d s) as (Ht & Hp & Ho & Hi & He & Hc & Ha & Hst).
  intros []. constructor; intros *; rewrite ?upstream_of_downstream, ?Ht, ?Hp, ?Ho, ?Hi, ?Hc, ?Ha; eauto.
Qed.

Lemma grows_downstream b i d s : grows b s (push_downstream watch i d s).
Proof.
  destruct (push_downstream_same i d s) as (Ht & Hp & Ho & Hi & He & Hc & Ha & Hst).
  constructor; intros *; unfold open; rewrite ?Ha, ?Hc, ?He, ?Hst, ?upstream_of_downstream; done.
Qed.

Lemma inv_push i j k s :
  inv s → open s i → ref_edge i k j → j ∈ completed s → inv (push_upstream i (j, k) s).
Proof.
  intros Hs [Hi Hni] He Hj. pose proof (inv_length _ Hs) as Hlen. pose proof (inv_bound _ Hs _ Hi) as Hlt.
  rewrite <-Hlen in Hlt. destruct Hs. constructor; intros *; rewrite ?upstream_of_push by done; cbn; eauto.
  - by rewrite tasks_alter_upstream.
  - case_decide; [|eauto]. subst. rewrite elem_of_app, list_elem_of_singleton. intros [?| [= -> ->]]; eauto.
  - case_decide; [by subst|eauto].
  - intros Ho. case_decide; [|eauto]. subst. exfalso. apply Hni, inv_completed0. rewrite Ho.
    apply elem_of_app. right. left.
  - case_decide; [|eauto]. rewrite elem_of_app, list_elem_of_singleton. intros [?| [= -> ->]]; eauto.
Qed.

Lemma grows_push i e s : inv s → i < length T → grows (Some i) s (push_upstream i e s).
Proof.
  intros Hs Hi. constructor; try done. intros x Hx Hne. rewrite upstream_of_push by (by rewrite inv_length).
  case_decide; [by subst|done].
Qed.

(** A task is taken up. *)
Lemma inv_begin i name s :
  inv s → i ∉ analyzing s → i < length T →
  inv (s <| analyzing := {[i]} ∪ analyzing s |> <| stack := stack s ++ [name] |>).
Proof.
  intros Hs Hi Hlt. destruct Hs. constructor; intros *; unfold upstream_of in *; cbn; eauto.
  - intros Hx. apply elem_of_union. eauto.
  - rewrite elem_of_union, elem_of_singleton. intros [->|?]; eauto.
  - intros Hx. apply inv_fresh0. set_solver.
  - intros Hc He. apply elem_of_union. eauto.
Qed.

(** A task is done with. *)
Definition finish (i : nat) (name : bytes) s : Setup :=
  let s := s <| stack := removelast (stack s) |> <| completed := {[i]} ∪ completed s |> in
  s <| orch := (orch s) <| order := order (orch s) ++ [name] |> <| order_indices := order_indices (orch s) ++ [i] |> |>.

Lemma inv_finish i t s :
  inv s → open s i → T !! i = Some t → (∀ j, edge i j → j ∈ analyzing s) → inv (finish i (config t) s).
Proof.
  intros Hs [Hi Hni] Ht He. destruct Hs. constructor; intros *; unfold upstream_of in *; cbn; eauto.
  - apply NoDup_app. split_and!; [done| |apply NoDup_singleton]. intros x Hx ->%list_elem_of_singleton.
    by apply Hni, inv_completed0.
  - rewrite elem_of_union, elem_of_singleton, elem_of_app, list_elem_of_singleton, inv_completed0. tauto.
  - rewrite !fmap_app, inv_order0. cbn. by rewrite Ht.
  - rewrite elem_of_union, elem_of_singleton. intros [->|?]; eauto.
  - intros Ho. destruct l2 as [|y l2 _] using rev_ind.
    + apply app_inj_tail in Ho as [<- <-]. intros Hu. apply inv_completed0. eauto.
    + rewrite app_comm_cons, app_assoc in Ho. apply app_inj_tail in Ho as [Ho _]. eauto.
  - intros Hu. apply elem_of_union. eauto.
  - rewrite elem_of_union, elem_of_singleton. intros [->|?]; eauto.
Qed.

(** ** The calls *)

Lemma inv_analyzing_size s : inv s → size (analyzing s) <= length T.
Proof.
  intros Hs. transitivity (size (set_seq (C := gset nat) 0 (length T))).
  - apply subseteq_size. intros x Hx. apply elem_of_set_seq. pose proof (inv_bound _ Hs _ Hx). lia.
  - by rewrite size_set_seq.
Qed.

Lemma complete_upstream s s' i : upstream_of s' i = upstream_of s i → complete s i → complete s' i.
Proof. intros Hu Hc t Ht. rewrite Hu. by apply Hc. Qed.

Lemma complete_strict_upstream s s' i :
  upstream_of s' i = upstream_of s i → complete_strict s i → complete_strict s' i.
Proof. intros Hu Hc j k. rewrite Hu. apply Hc. Qed.

Lemma no_errors_between (l1 l2 l3 : list Diagnostic) :
  l1 `prefix_of` l2 → l2 `prefix_of` l3 → l3 = l1 → l2 = l1 ∧ l3 = l2.
Proof.
  intros [a ->] [b ->] Heq. rewrite <-app_assoc in Heq. apply (f_equal length) in Heq.
  rewrite !length_app in Heq. by rewrite (nil_length_inv a), (nil_length_inv b), !app_nil_r by lia.
Qed.

(** What one reference does, then the others. *)
Lemma outcome_trans s1 s2 s3 (P Q R P' Q' R' : Prop) b :
  inv s2 → grows b s1 s2 → grows b s2 s3 → (∀ x, x ∈ completed s2 → b ≠ Some x) →
  (P → Q → R) → (P' → Q' → R') → outcome s1 s2 P P' → outcome s2 s3 Q Q' → outcome s1 s3 R R'.
Proof.
  intros Hi G1 G2 Hb HR HR' [O1 N1] [O2 N2].
  assert (∀ x, x ∈ completed s2 → upstream_of s3 x = upstream_of s2 x) as Hu.
  { intros x Hx. apply (g_upstream _ _ _ G2); [by apply (inv_analyzing _ Hi)|by apply Hb]. }
  split.
  - destruct O1 as [(E1 & HP & C1)|Hc]; [|by right]. destruct O2 as [(E2 & HQ & C2)|Hc]; [|by right].
    left. split_and!; [by rewrite E2|auto|]. intros x Hx Hnx.
    destruct (decide (x ∈ completed s2)) as [Hx2|]; [|auto]. apply (complete_upstream s2); auto.
  - intros Heq. destruct (no_errors_between _ _ _ (g_errors _ _ _ G1) (g_errors _ _ _ G2) Heq) as [E1 E2].
    destruct (N1 E1) as [HP C1], (N2 E2) as [HQ C2]. split; [auto|]. intros x Hx Hnx.
    destruct (decide (x ∈ completed s2)) as [Hx2|]; [|auto]. apply (complete_strict_upstream s2); auto.
Qed.

Lemma lenient_step i j : lenient i → edge i j → lenient j.
Proof. intros (a & b & Hab & Hr) He. exists a, b. split; [done|]. by eapply rtc_r. Qed.

Lemma lenient_flag i t k name j circ rc :
  T !! i = Some t → references t !! k = Some (name, rc) → BP !! path host name = Some j →
  (circ = true → lenient i) → circ || rc = true → lenient j.
Proof.
  intros Ht Hk Hj Hc [->| ->]%orb_true_iff.
  - apply (lenient_step i); [by apply Hc|]. exists k. by exists t, name, rc.
  - exists i, j. split; [|apply rtc_refl]. exists t, name. split_and!; [done| |done].
    by eapply list_elem_of_lookup_2.
Qed.

Definition call_ok (setup : nat → option nat → bool → Setup → option (option nat * Setup)) (room : nat) : Prop :=
  ∀ s i d circ,
    inv s → i < length T → length T - size (analyzing s) < room → (∀ y, open s y → tc edge y i) →
    (circ = true → lenient i) →
    ∃ r s', setup i d circ s = Some (r, s') ∧ inv s' ∧ grows None s s' ∧ i ∈ analyzing s'
      ∧ (r = None ∨ r = Some i ∧ i ∈ completed s') ∧ outcome s s' (r = Some i) (¬ lenient i → r = Some i).

Lemma setup_references_ok setup room i t circ :
  call_ok setup room → refs_closed → T !! i = Some t →
  ∀ refs k s, (∀ m, references t !! (k + m) = refs !! m) →
  inv s → open s i → length T - size (analyzing s) < room → (∀ y, open s y → rtc edge y i) →
  (circ = true → lenient i) →
  ∃ s', setup_references host setup i circ k refs s = Some s' ∧ inv s' ∧ grows (Some i) s s'
    ∧ (∀ m j, m < length refs → ref_edge i (k + m) j → j ∈ analyzing s')
    ∧ outcome s s' (snd <$> upstream_of s' i = (snd <$> upstream_of s i) ++ seq k (length refs))
        (upstream_of s i `prefix_of` upstream_of s' i
         ∧ ∀ m j, m < length refs → ref_edge i (k + m) j → ¬ lenient j → (j, k + m) ∈ upstream_of s' i).
Proof.
  intros Hcall Hcl Ht. assert (t ∈ T) as HtT by (by eapply list_elem_of_lookup_2).
  induction refs as [|[name rc] refs IH]; intros k s Hrefs Hs Hi Hroom Hopen Hflag.
  { exists s. split_and!; [done|done|apply grows_refl|intros m j Hm; cbn in Hm; lia|]. split.
    - left. split_and!; [done|by rewrite app_nil_r|done].
    - intros _. split_and!; [done|intros m j Hm; cbn in Hm; lia|done]. }
  cbn [setup_references]. pose proof (Hrefs 0) as Hk. rewrite Nat.add_0_r in Hk. cbn in Hk.
  destruct (Hcl t name rc HtT) as (j & Hj & Hjlt); [by eapply list_elem_of_lookup_2|].
  assert (ref_edge i k j) as He by (by exists t, name, rc).
  unfold index. rewrite (inv_paths _ Hs), Hj. cbn [mbind option_bind].
  destruct (Hcall s j (Some i) (circ || rc) Hs Hjlt Hroom) as (r & s1 & -> & Hs1 & G1 & Hja & Hr & O1).
  { intros y Hy. eapply tc_rtc_l; [by apply Hopen|]. apply tc_once. by exists k. }
  { by apply (lenient_flag i t k name). }
  cbn [mbind option_bind].
  assert (open s1 i) as Hi1 by (by apply (g_open _ _ _ G1)).
  set (s2 := match r with Some u => push_upstream i (u, k) s1 | None => s1 end).
  assert (inv s2 ∧ grows (Some i) s s2 ∧ completed s2 = completed s1 ∧ analyzing s2 = analyzing s1
    ∧ outcome s s2 (snd <$> upstream_of s2 i = (snd <$> upstream_of s i) ++ [k])
        (upstream_of s i `prefix_of` upstream_of s2 i ∧ (¬ lenient j → (j, k) ∈ upstream_of s2 i)))
    as (Hs2 & G2 & Hc2 & Ha2 & O2).
  { pose proof (inv_bound _ Hs1 _ (proj1 Hi1)) as Hilt.
    assert (upstream_of s1 i = upstream_of s i) as Hui by (by apply (g_upstream _ _ _ G1); [apply Hi|]).
    destruct O1 as [O1 N1]. destruct Hr as [->|[-> Hjc]]; subst s2.
    - split_and!; [done|by apply grows_weaken|done|done|]. split.
      + right. by destruct O1 as [(_ & ? & _)|Hcyc].
      + intros E1. destruct (N1 E1) as [Hn C1]. split_and!; [by rewrite Hui| |done]. intros Hl. by specialize (Hn Hl).
    - assert (∀ x, x ∈ completed s1 → upstream_of (push_upstream i (j, k) s1) x = upstream_of s1 x) as Hux.
      { intros x Hx. rewrite upstream_of_push by (by rewrite inv_length). rewrite decide_False; [done|]. intros ->. by apply Hi1. }
      assert (upstream_of (push_upstream i (j, k) s1) i = upstream_of s i ++ [(j, k)]) as Hupi.
      { by rewrite upstream_of_push, decide_True, Hui by (done || by rewrite inv_length). }
      split_and!; [by apply inv_push| |done|done|].
      + eapply grows_trans; [by apply grows_weaken|]. by apply grows_push.
      + split.
        * destruct O1 as [(He1 & _ & Hc1)|Hcyc]; [left|by right]. split_and!; [done|by rewrite Hupi, fmap_app|].
          intros x Hx Hnx. apply (complete_upstream s1); [by apply Hux|by apply Hc1].
        * intros E1. destruct (N1 E1) as [_ C1]. rewrite Hupi. split_and!; [by eexists| |].
          -- intros _. apply elem_of_app. right. left.
          -- intros x Hx Hnx. apply (complete_strict_upstream s1); [by apply Hux|by apply C1]. }
  destruct (IH (S k) s2) as (s3 & E3 & Hs3 & G3 & Hall & O3).
  { intros m. specialize (Hrefs (S m)). by rewrite <-Nat.add_succ_comm in Hrefs. }
  { done. }
  { by apply (g_open _ _ _ G2). }
  { assert (size (analyzing s) <= size (analyzing s2)); [|lia]. apply subseteq_size. intros x. apply (g_analyzing _ _ _ G2). }
  { intros y Hy. apply Hopen. by apply (g_open _ _ _ G2). }
  { done. }
  exists s3. split_and!; [done|done|by eapply grows_trans| |].
  - intros m j' Hm Hm'. destruct m as [|m].
    + rewrite Nat.add_0_r in Hm'. destruct Hm' as (t' & n' & c' & Ht' & Hk' & Hj'). simplify_eq.
      apply (g_analyzing _ _ _ G3). by rewrite Ha2.
    + apply (Hall m); [cbn in Hm; lia|]. by rewrite <-Nat.add_succ_comm in Hm'.
  - eapply (outcome_trans s s2 s3); [exact Hs2|exact G2|exact G3| | | |exact O2|exact O3].
    + intros x Hx [= ->]. rewrite Hc2 in Hx. by apply Hi1.
    + intros H2 H3. rewrite H3, H2, <-app_assoc. done.
    + intros [P2 H2] [P3 H3]. split; [by etrans|]. intros [|m] j' Hm Hm' Hl.
      * rewrite Nat.add_0_r in *. destruct Hm' as (t' & n' & c' & Ht' & Hk' & Hj'). simplify_eq.
        eapply elem_of_prefix; [by apply H2|done].
      * rewrite <-Nat.add_succ_comm in *. apply H3; [cbn in Hm; lia|done|done].
Qed.

Lemma setup_task_ok : refs_closed → ∀ fuel, call_ok (setup_task host watch fuel) fuel.
Proof.
  intros Hcl. induction fuel as [|fuel IH]; intros s i d circ Hs Hlt Hroom Hopen Hflag; [lia|]. cbn [setup_task].
  destruct (decide (i ∈ completed s)) as [Hc|Hc]; [|destruct (decide (i ∈ analyzing s)) as [Ha|Ha]].
  - eexists _, _. split; [done|]. destruct (push_downstream_same i d s) as (_ & _ & _ & _ & He & Hco & Ha & _).
    split_and!; [by apply inv_downstream|by apply grows_downstream|rewrite Ha; by apply (inv_analyzing _ Hs)| |].
    + right. by rewrite Hco.
    + split; [left; by rewrite He, Hco|]. intros _. by rewrite Hco.
  - eexists _, _. split; [done|]. assert (cyclic) as Hcyc by (exists i; by apply Hopen).
    destruct circ.
    + split_and!; [done|apply grows_refl|done|by left|]. split; [by right|]. intros _.
      split; [|done]. intros Hl. by destruct Hl; apply Hflag.
    + split_and!; [by destruct Hs| |done|by left|].
      * constructor; try done. by eexists.
      * split; [by right|]. cbn. intros E1%(f_equal length). rewrite length_app in E1. cbn in E1. lia.
  - destruct (lookup_lt_is_Some_2 (tasks (orch s)) i) as [n Hn]; [by rewrite inv_length|].
    assert (T !! i = Some (task n)) as Ht by (rewrite <-(inv_tasks _ Hs), list_lookup_fmap, Hn; done).
    cbn [orch tasks mbind option_bind]. change (tasks (orch (s <| analyzing := {[i]} ∪ analyzing s |>))) with (tasks (orch s)).
    rewrite Hn. cbn [mbind option_bind].
    set (s1 := _ <| stack := _ |>). assert (inv s1) as Hs1 by exact (inv_begin i _ s Hs Ha Hlt).
    assert (open s1 i) as Hi1 by (split; [cbn; set_solver|done]).
    destruct (setup_references_ok _ _ i (task n) circ IH Hcl Ht (references (task n)) 0 s1)
      as (s2 & -> & Hs2 & G2 & Hall & O2); [done|done|done| | |done|].
    { cbn. rewrite size_union, size_singleton by set_solver. pose proof (inv_analyzing_size _ Hs1) as Hsz. cbn in Hsz.
      rewrite size_union, size_singleton in Hsz by set_solver. lia. }
    { intros y [Hy Hny]. cbn in Hy, Hny. destruct (decide (y = i)) as [->|Hne]; [done|].
      apply tc_rtc, Hopen. split; [set_solver|done]. }
    cbn [mbind option_bind]. set (s3 := finish i (config (task n)) s2).
    assert (open s2 i) as Hi2 by (by apply (g_open _ _ _ G2)).
    assert (inv s3) as Hs3.
    { apply inv_finish; [done|done|done|]. intros j (k & t & nm & c & Ht' & Hk & Hj). simplify_eq.
      apply (Hall k); [by eapply lookup_lt_Some|]. by exists (task n), nm, c. }
    assert (grows None s s3) as G3.
    { destruct G2 as [A C O S U Er]. constructor.
      - intros x Hx. apply A. cbn. set_solver.
      - intros x Hx. cbn. apply elem_of_union. right. by apply C.
      - intros x. specialize (O x). unfold open in *. cbn in *. set_solver.
      - cbn. rewrite S. cbn. apply removelast_last.
      - intros x Hx _. apply U; [cbn; set_solver|]. intros [= ->]. done.
      - done. }
    assert (upstream_of s1 i = []) as Hu1 by (by apply (inv_fresh _ Hs)).
    assert (∀ x, x ∈ completed s3 → x = i ∨ x ∈ completed s2) as Hcs3.
    { intros x Hx. cbn in Hx. by apply elem_of_union in Hx as [->%elem_of_singleton|Hx]; [left|right]. }
    assert (outcome s s3 (Some i = Some i) (¬ lenient i → Some i = Some i)) as O3.
    { destruct O2 as [O2 N2]. split.
      - destruct O2 as [(E2 & Hup & C2)|Hcyc]; [left|by right]. split_and!; [done|done|].
        intros x [->|Hx]%Hcs3 Hnx; [|by apply C2].
        intros t Ht'. simplify_eq. change (upstream_of s3 i) with (upstream_of s2 i). by rewrite Hup, Hu1.
      - intros E2. destruct (N2 E2) as [[_ Hup] C2]. split; [done|].
        intros x [->|Hx]%Hcs3 Hnx; [|by apply C2].
        intros j k Hjk Hl. apply (Hup k j); [|done|done]. destruct Hjk as (t' & n' & c' & Ht' & Hk' & _). simplify_eq.
        by eapply lookup_lt_Some. }
    eexists _, _. split; [done|]. change (_ <| orch := _ |>) with s3.
    destruct (push_downstream_same i d s3) as (_ & _ & _ & _ & He & Hco & Ha3 & _).
    split_and!; [by apply inv_downstream|eapply grows_trans; [done|by apply grows_downstream]| | |].
    + rewrite Ha3. apply (inv_analyzing _ Hs3). cbn. set_solver.
    + right. rewrite Hco. split; [done|]. cbn. set_solver.
    + destruct O3 as [O3 N3]. split; rewrite He, Hco.
      * destruct O3 as [(E3 & _ & C3)|Hcyc]; [left|by right]. split_and!; [done|done|]. intros x Hx Hnx.
        apply (complete_upstream s3); [apply upstream_of_downstream|by apply C3].
      * intros E3. destruct (N3 E3) as [_ C3]. split; [done|]. intros x Hx Hnx.
        apply (complete_strict_upstream s3); [apply upstream_of_downstream|by apply C3].
Qed.

Lemma inv_restart s : inv s → inv (s <| stack := [] |>).
Proof. by intros []. Qed.

(** The calls for the roots leave nothing open. *)
Lemma setup_roots_ok roots : refs_closed → (∀ root, root ∈ roots → ∃ j, BP !! path host root = Some j ∧ j < length T) →
  ∀ s, inv s → (∀ x, ¬ open s x) →
  ∃ s', setup_roots host watch roots s = Some s' ∧ inv s' ∧ (∀ x, ¬ open s' x)
    ∧ (∀ x, x ∈ completed s → x ∈ completed s')
    ∧ (∀ root j, root ∈ roots → BP !! path host root = Some j → j ∈ completed s')
    ∧ errors (orch s) `prefix_of` errors (orch s')
    ∧ ((∀ x, x ∈ completed s → complete s x) →
       errors (orch s') = errors (orch s) ∧ (∀ x, x ∈ completed s' → complete s' x) ∨ cyclic)
    ∧ ((∀ x, x ∈ completed s → complete_strict s x) →
       errors (orch s') = errors (orch s) → ∀ x, x ∈ completed s' → complete_strict s' x).
Proof.
  intros Hcl. induction roots as [|root roots IH]; intros Hroots s Hs Hopen; cbn [setup_roots].
  { exists s. split_and!; [done..|by intros ? ? ?%elem_of_nil|done|by left|done]. }
  destruct (Hroots root) as (j & Hj & Hlt); [left|]. unfold index. rewrite (inv_paths _ Hs), Hj. cbn [mbind option_bind].
  rewrite inv_length by done.
  destruct (setup_task_ok Hcl (S (length T)) (s <| stack := [] |>) j None false) as (r & s1 & -> & Hs1 & G1 & Hja & Hr & O1);
    [by apply inv_restart|done|lia|by intros y ?%Hopen|done|]. cbn [mbind option_bind].
  assert (∀ x, ¬ open s1 x) as Hopen1 by (intros x Hx; by apply (g_open _ _ _ G1), Hopen in Hx).
  assert (j ∈ completed s1) as Hjc by (destruct (decide (j ∈ completed s1)); [done|by destruct (Hopen1 j)]).
  destruct (IH ltac:(by intros ? ?; apply Hroots; right) s1 Hs1 Hopen1) as (s2 & -> & Hs2 & Hopen2 & Hmono & Hall & Hpre & Hout & Hstrict).
  assert (∀ x, x ∈ completed s → upstream_of s1 x = upstream_of s x) as Hu.
  { intros x Hx. apply (g_upstream _ _ _ G1); [by apply (inv_analyzing _ Hs)|done]. }
  destruct O1 as [O1 N1]. exists s2. split_and!; [done|done|done| | | | |].
  - intros x Hx. by apply Hmono, (g_completed _ _ _ G1).
  - intros root' j' [->|Hin]%elem_of_cons Hj'; [|by eapply Hall]. simplify_eq. by apply Hmono.
  - etrans; [apply (g_errors _ _ _ G1)|done].
  - intros Hc. destruct O1 as [(E1 & _ & C1)|Hcyc]; [|by right]. cbn in E1. rewrite <-E1. apply Hout.
    intros x Hx. destruct (decide (x ∈ completed s)) as [Hxs|]; [|by apply C1].
    apply (complete_upstream s); [by apply Hu|by apply Hc].
  - intros Hc Heq. destruct (no_errors_between _ _ _ (g_errors _ _ _ G1) Hpre Heq) as [E1 E2].
    destruct (N1 E1) as [_ C1]. apply Hstrict; [|done]. intros x Hx.
    destruct (decide (x ∈ completed s)) as [Hxs|]; [|by apply C1].
    apply (complete_strict_upstream s); [by apply Hu|by apply Hc].
Qed.

(** ** The finished order *)

Definition all_done s : Prop := inv s ∧ (∀ x, ¬ open s x).

Lemma done_closed s i j : all_done s → i ∈ completed s → rtc edge i j → j ∈ completed s.
Proof.
  intros [Hs Ho] Hi Hr. revert Hi. induction Hr as [|x y z Hxy _ IH]; intros Hx; [done|]. apply IH.
  destruct (decide (y ∈ completed s)); [done|]. destruct (Ho y). split; [|done]. by apply (inv_closed _ Hs x).
Qed.

Lemma complete_edge s i j k : inv s → complete s i → ref_edge i k j → (j, k) ∈ upstream_of s i.
Proof.
  intros Hs Hc (t & name & c & Ht & Hk & Hj).
  assert (k ∈ snd <$> upstream_of s i) as Hin.
  { rewrite (Hc t Ht). apply elem_of_seq. pose proof (lookup_lt_Some _ _ _ Hk). lia. }
  apply list_elem_of_fmap in Hin as ([j' k'] & -> & Hin). pose proof (inv_edge _ Hs _ _ _ Hin) as (t' & n' & c' & Ht' & Hk' & Hj').
  cbn in *. by simplify_eq.
Qed.

Lemma lenient_rtc i j : lenient i → rtc edge i j → lenient j.
Proof. intros (a & b & Hab & Hr) He. exists a, b. split; [done|]. by etrans. Qed.

(** Where every reference leads to an earlier task, or to where one that may be circular leads,
    there is no cycle elsewhere. *)
Lemma ordered_acyclic (l : list nat) :
  NoDup l → (∀ i, i < length T → i ∈ l) →
  (∀ l1 i l2 j, l = l1 ++ i :: l2 → edge i j → ¬ lenient j → j ∈ l1) → ∀ x, ¬ lenient x → ¬ tc edge x x.
Proof.
  intros Hnd Hall Hbefore x Hl Hx.
  assert (∀ i j, tc edge i j → ¬ lenient j → ∀ l1 l2, l = l1 ++ i :: l2 → j ∈ l1) as Htc.
  { induction 1 as [i j Hij|i y j Hiy Hyj IH]; intros Hlj l1 l2 Hsplit; [by eapply Hbefore|].
    assert (¬ lenient y) as Hly by (intros Hy; apply Hlj, (lenient_rtc y); [done|by apply tc_rtc]).
    pose proof (Hbefore _ _ _ _ Hsplit Hiy Hly) as Hy. apply list_elem_of_split in Hy as (a & b & ->).
    apply elem_of_app. left. apply (IH Hlj a (b ++ i :: l2)). by rewrite Hsplit, <-app_assoc. }
  assert (∀ a b, tc edge a b → ∃ y, edge a y) as Hst by (intros a b []; eauto).
  destruct (Hst _ _ Hx) as [y (k & t & n & c & Ht & _)].
  destruct (list_elem_of_split l x) as (l1 & l2 & Hsplit); [apply Hall; by eapply lookup_lt_Some|].
  pose proof (Htc _ _ Hx Hl _ _ Hsplit) as Hin. rewrite Hsplit in Hnd. apply NoDup_app in Hnd as (_ & Hd & _).
  apply (Hd x Hin). left.
Qed.
End Spec.
