(* ===== verification/BuildGraphFound.v ===== *)
(** The tasks of a build, [crates/tsr_build/src/graph.rs]: the batches find what the roots
    lead to, once each, and end if that is finite; then the whole graph. *)

From stdpp Require Import gmap relations sets.
From S2P Require Import Prelude PathComponents PathCompare PathExtension BuildGraph BuildGraphSpec.

Local Open Scope nat_scope.

#[local] Existing Instances eta_orchestrator eta_node eta_task eta_setup.

Section Found.
Context `{CaseTables} {Info E : Type}.
Context (host : BuildHost) (read : bytes → result E (option ParsedCommandLine)).
Context (roots : list bytes) (old : gmap bytes (BuildTask (Info := Info))) (initial : bool).

(** The old tasks stand at their paths. *)
Definition keyed : Prop := ∀ p t, old !! p = Some t → path host (config t) = p.

Notation Orchestrator := (Orchestrator (Info := Info)).
Notation path := (path host).
Notation parse := (parse_task host read old initial).
Implicit Types (o : Orchestrator) (name p : bytes) (i j : nat).

Definition ref_names (t : BuildTask (Info := Info)) : list bytes :=
  from_option resolved_project_reference_paths [] (resolved t).

Lemma references_names t name : name ∈ ref_names t ↔ ∃ c, (name, c) ∈ references t.
Proof.
  unfold ref_names, references. destruct (resolved t) as [c|]; cbn; [|set_solver].
  unfold resolved_project_reference_paths. split.
  - intros Hn. apply list_elem_of_lookup in Hn as [k Hk]. rewrite list_lookup_fmap in Hk.
    destruct (default [] (project_references c) !! k) as [r|] eqn:Er; [|done]. cbn in Hk. simplify_eq.
    exists (circular r). apply list_elem_of_lookup. exists k. apply lookup_zip_with_Some.
    exists (resolve_project_reference_path r), (circular r). by rewrite !list_lookup_fmap, Er.
  - intros [b Hb]. by apply elem_of_zip_l in Hb.
Qed.

(** What has been found so far. *)
Record found o : Prop := {
  f_paths p i : by_path o !! p = Some i ↔ ∃ node, tasks o !! i = Some node ∧ path (config (task node)) = p;
  f_fresh node : node ∈ tasks o → upstream node = [];
  f_read node : node ∈ tasks o → ∃ name, parse name = Ok (task node);
  f_order : order o = [];
  f_indices : order_indices o = [];
  f_errors : errors o = [];
}.

Definition edge_of o : relation nat := edge host (task <$> tasks o) (by_path o).

(** Some root leads to the task. *)
Definition led_to o i : Prop :=
  ∃ root r, root ∈ roots ∧ by_path o !! path root = Some r ∧ rtc (edge_of o) r i.

(** Where a name comes from. *)
Definition origin o name : Prop := name ∈ roots ∨ ∃ node, node ∈ tasks o ∧ name ∈ ref_names (task node).

Lemma parse_path name t : keyed → parse name = Ok t → path (config t) = path name.
Proof.
  intros Hk. unfold parse_task. destruct (old !! path name) as [prev|] eqn:Eo.
  - destruct (dirty prev); [|intros [= <-]; by apply Hk].
    destruct (read name); cbn; [|done]. by intros [= <-].
  - destruct (read name); cbn; [|done]. by intros [= <-].
Qed.

(** ** One task more *)

Definition add_task (t : BuildTask) o : Orchestrator :=
  let o := o <| by_path := <[path (config t) := length (tasks o)]> (by_path o) |> in
  o <| tasks := tasks o ++ [MkNode t [] []] |>.

Lemma add_task_edge t o i j :
  by_path o !! path (config t) = None → edge_of o i j → edge_of (add_task t o) i j.
Proof.
  intros Hn (k & t' & name & c & Ht & Hk & Hj). exists k, t', name, c. cbn. split_and!; [|done|].
  - rewrite fmap_app. by apply lookup_app_l_Some.
  - rewrite lookup_insert_ne; [done|]. intros Heq. by rewrite Heq, Hj in Hn.
Qed.

Lemma add_task_found t o :
  found o → by_path o !! path (config t) = None → (∃ name, parse name = Ok t) → found (add_task t o).
Proof.
  intros [Fp Ff Fr Fo Fi Fe] Hn Ht. constructor; [|..]; cbn; try done.
  - intros p i. destruct (decide (p = path (config t))) as [->|Hne].
    + rewrite lookup_insert_eq. split.
      * intros [= <-]. eexists. split; [by apply list_lookup_middle|done].
      * intros (node & Hi & Hp). destruct (decide (i < length (tasks o))).
        -- rewrite lookup_app_l in Hi by done. assert (by_path o !! path (config t) = Some i); [|congruence].
           apply Fp. by exists node.
        -- apply lookup_lt_Some in Hi. rewrite length_app in Hi. cbn in Hi. f_equal. lia.
    + rewrite lookup_insert_ne by done. rewrite Fp. split.
      * intros (node & Hi & Hp). exists node. split; [by apply lookup_app_l_Some|done].
      * intros (node & Hi & Hp). exists node. split; [|done]. apply lookup_app_Some in Hi as [|[_ Hi]]; [done|].
        apply list_lookup_singleton_Some in Hi as [_ <-]. done.
  - intros node [?| ->%list_elem_of_singleton]%elem_of_app; [by apply Ff|done].
  - intros node [?| ->%list_elem_of_singleton]%elem_of_app; [by apply Fr|done].
Qed.

Lemma led_to_mono t o i : by_path o !! path (config t) = None → led_to o i → led_to (add_task t o) i.
Proof.
  intros Hn (root & r & Hr & Hp & Hrtc). exists root, r. split_and!; [done| |].
  - cbn. rewrite lookup_insert_ne; [done|]. intros Heq. by rewrite Heq, Hp in Hn.
  - revert Hrtc. apply rtc_subrel. intros x y. by apply add_task_edge.
Qed.

Lemma add_task_led_to t name o :
  found o → by_path o !! path (config t) = None → path (config t) = path name → origin o name →
  (∀ i, i < length (tasks o) → led_to o i) → ∀ i, i < length (tasks (add_task t o)) → led_to (add_task t o) i.
Proof.
  intros Hf Hn Hp Ho Hall i. cbn. rewrite length_app. cbn. intros Hi.
  destruct (decide (i < length (tasks o))); [by apply led_to_mono, Hall|]. assert (i = length (tasks o)) as -> by lia.
  assert (by_path (add_task t o) !! path name = Some (length (tasks o))) as Hnew by (cbn; by rewrite <-Hp, lookup_insert_eq).
  destruct Ho as [Hr|(node & Hnode & Href)].
  - by exists name, (length (tasks o)).
  - apply list_elem_of_lookup in Hnode as [x Hx].
    destruct (led_to_mono t o x Hn (Hall x (lookup_lt_Some _ _ _ Hx))) as (root & r & Hr & Hpr & Hrtc).
    exists root, r. split_and!; [done|done|]. eapply rtc_r; [done|].
    apply references_names in Href as [c Hc]. apply list_elem_of_lookup in Hc as [k Hk].
    exists k, (task node), name, c. split_and!; [|done|done]. cbn. rewrite fmap_app. apply lookup_app_l_Some.
    by rewrite list_lookup_fmap, Hx.
Qed.

Lemma origin_mono t o name : origin o name → origin (add_task t o) name.
Proof. intros [|(node & Hn & Hr)]; [by left|right]. exists node. split; [|done]. cbn. apply elem_of_app. by left. Qed.

(** ** A batch *)

Lemma retain_new_spec pending scheduled :
  let '(kept, scheduled') := retain_new host pending scheduled in
  NoDup (path <$> kept) ∧ scheduled' = scheduled ∪ list_to_set (path <$> kept)
  ∧ (∀ name, name ∈ kept → name ∈ pending ∧ path name ∉ scheduled)
  ∧ (∀ name, name ∈ pending → path name ∈ scheduled').
Proof.
  revert scheduled; induction pending as [|name pending IH]; intros scheduled; cbn [retain_new].
  { split_and!; [constructor|set_solver|set_solver|set_solver]. }
  destruct (decide (path name ∈ scheduled)) as [Hin|Hni].
  - specialize (IH scheduled). destruct (retain_new host pending scheduled) as [kept s'].
    destruct IH as (Hnd & -> & Hk & Hall). split_and!; [done|done| |].
    + intros n Hn. destruct (Hk n Hn). split; [by right|done].
    + intros n [->|Hn]%elem_of_cons; [set_solver|by apply Hall].
  - specialize (IH ({[path name]} ∪ scheduled)). destruct (retain_new host pending _) as [kept s'].
    destruct IH as (Hnd & -> & Hk & Hall). split_and!.
    + cbn. constructor; [|done]. intros (n & Heq & Hn)%list_elem_of_fmap. destruct (Hk n Hn). set_solver.
    + cbn. set_solver.
    + intros n [->|Hn]%elem_of_cons; [split; [left|done]|]. destruct (Hk n Hn). split; [by right|set_solver].
    + intros n [->|Hn]%elem_of_cons; [set_solver|by apply Hall].
Qed.

Lemma add_parsed_ok names acc o o' acc' :
  keyed → add_parsed host (parse <$> names) acc o = (o', Ok acc') →
  NoDup (path <$> names) → (∀ name, name ∈ names → by_path o !! path name = None ∧ origin o name) →
  found o → (∀ i, i < length (tasks o) → led_to o i) → (∀ name, name ∈ acc → origin o name) →
  found o' ∧ (∀ i, i < length (tasks o') → led_to o' i) ∧ (∀ name, name ∈ acc' → origin o' name)
  ∧ (∀ p, is_Some (by_path o' !! p) ↔ is_Some (by_path o !! p) ∨ p ∈ path <$> names)
  ∧ (∀ name, origin o' name → origin o name ∨ name ∈ acc') ∧ (∀ name, name ∈ acc → name ∈ acc').
Proof.
  intros Hkey. revert acc o. induction names as [|name names IH]; intros acc o; cbn [fmap list_fmap add_parsed].
  { intros [= <- <-] Hnd Hnew Hf Hled Hacc. split_and!; [done..| |by left|done]. intros p. cbn. set_solver. }
  destruct (parse name) as [t|] eqn:Et; [|done]. cbn. fold (ref_names t). change (list_fmap _ _ parse names) with (parse <$> names).
  change (add_parsed _ _ _ _) with (add_parsed host (parse <$> names) (acc ++ ref_names t) (add_task t o)).
  intros E1 Hnd Hnew Hf Hled Hacc. apply NoDup_cons in Hnd as [Hni Hnd].
  pose proof (parse_path _ _ Hkey Et) as Hp. destruct (Hnew name) as [Hnone Ho]; [left|]. rewrite <-Hp in Hnone.
  destruct (IH _ _ E1 Hnd) as (Hf' & Hled' & Hacc' & Hdom & Hor & Hsub).
  - intros n Hn. destruct (Hnew n) as [Hn' Hon]; [by right|]. split; [|by apply origin_mono].
    cbn. rewrite lookup_insert_ne; [done|]. rewrite Hp. intros Heq. apply Hni, list_elem_of_fmap. by exists n.
  - apply add_task_found; [done..|by exists name].
  - by apply (add_task_led_to t name).
  - intros n [Hn|Hn]%elem_of_app; [by apply origin_mono, Hacc|]. right. exists (MkNode t [] []).
    split; [cbn; apply elem_of_app; right; by left|done].
  - split_and!; [done|done|done| | |].
    + intros p. rewrite Hdom. cbn. rewrite elem_of_cons. destruct (decide (p = path name)) as [->|Hne].
      * rewrite <-Hp, lookup_insert_eq. split; [by right; left|by left].
      * rewrite Hp, lookup_insert_ne by done. tauto.
    + intros n Hn. destruct (Hor n Hn) as [[Hr|(node & Hnode & Href)]|]; [by left; left| |by right].
      cbn in Hnode. apply elem_of_app in Hnode as [Hnode| ->%list_elem_of_singleton]; [left; right; by exists node|].
      right. apply Hsub, elem_of_app. by right.
    + intros n Hn. apply Hsub, elem_of_app. by left.
Qed.

(** Where the search stands. *)
Record searching (scheduled : gset bytes) (pending : list bytes) o : Prop := {
  s_found : found o;
  s_led i : i < length (tasks o) → led_to o i;
  s_scheduled p : p ∈ scheduled ↔ is_Some (by_path o !! p);
  s_origin name : name ∈ pending → origin o name;
  s_pending name : origin o name → path name ∈ scheduled ∨ name ∈ pending;
}.

Lemma searching_step scheduled pending o kept scheduled' o' pending' :
  keyed → searching scheduled pending o → retain_new host pending scheduled = (kept, scheduled') →
  add_parsed host (parse <$> kept) [] o = (o', Ok pending') → searching scheduled' pending' o'.
Proof.
  intros Hkey [Hf Hled Hsch Hor Hpe] Er Ea. pose proof (retain_new_spec pending scheduled) as Hret. rewrite Er in Hret.
  destruct Hret as (Hnd & -> & Hk & Hall).
  destruct (add_parsed_ok _ _ _ _ _ Hkey Ea Hnd) as (Hf' & Hled' & Hacc & Hdom & Hor' & _); [|done|done|set_solver|].
  { intros n Hn. destruct (Hk n Hn) as [Hin Hni]. split; [|by apply Hor].
    rewrite Hsch, <-eq_None_not_Some in Hni. done. }
  constructor; [done|done| |done|].
  - intros p. rewrite Hdom, <-Hsch. set_solver.
  - intros n Hn. destruct (Hor' n Hn) as [Ho|]; [|by right]. left. destruct (Hpe n Ho); [set_solver|by apply Hall].
Qed.

Lemma discover_ok fuel scheduled pending o o' :
  keyed → searching scheduled pending o → discover host read fuel old initial scheduled pending o = Some (o', Ok ()) →
  ∃ scheduled', searching scheduled' [] o'.
Proof.
  intros Hkey. revert scheduled pending o. induction fuel as [|fuel IH]; intros scheduled pending o Hs; cbn [discover]; [done|].
  case_bool_decide as Hp; [intros [= <-]; subst; by exists scheduled|].
  destruct (retain_new host pending scheduled) as [kept scheduled'] eqn:Er.
  destruct (add_parsed host _ [] o) as [o1 [pending'|]] eqn:Ea; [|done]. apply IH. by eapply searching_step.
Qed.

(** ** The end of the search *)

(** The paths of [U] hold everything that the configurations there lead to. *)
Definition closed (U : gset bytes) : Prop :=
  ∀ name t, path name ∈ U → parse name = Ok t → ∀ r, r ∈ ref_names t → path r ∈ U.

Lemma add_parsed_inside U names acc o o' acc' :
  closed U → add_parsed host (parse <$> names) acc o = (o', Ok acc') →
  (∀ name, name ∈ names → path name ∈ U) → (∀ name, name ∈ acc → path name ∈ U) → ∀ name, name ∈ acc' → path name ∈ U.
Proof.
  intros Hc. revert acc o. induction names as [|name names IH]; intros acc o; cbn [fmap list_fmap add_parsed].
  { by intros [= <- <-]. }
  destruct (parse name) as [t|] eqn:Et; [|done]. cbn. intros E1 Hn Ha.
  apply (IH _ _ E1); [intros n Hin; apply Hn; by right|]. intros n [Hin|Hin]%elem_of_app; [by apply Ha|].
  apply (Hc name t); [apply Hn; left|done|done].
Qed.

Lemma discover_ends U fuel scheduled pending o :
  closed U → (∀ name, name ∈ pending → path name ∈ U) → size (U ∖ scheduled) + 2 <= fuel →
  is_Some (discover host read fuel old initial scheduled pending o).
Proof.
  intros Hc. revert scheduled pending o. induction fuel as [|fuel IH]; intros scheduled pending o Hp Hf; [lia|].
  cbn [discover]. case_bool_decide as Hne; [by eexists|].
  pose proof (retain_new_spec pending scheduled) as Hret. destruct (retain_new host pending scheduled) as [kept scheduled'].
  destruct Hret as (_ & -> & Hk & _). destruct (add_parsed host _ [] o) as [o1 [pending'|]] eqn:Ea; [|by eexists].
  destruct kept as [|name kept].
  { cbn in Ea. injection Ea as <- <-. destruct fuel as [|fuel]; [lia|]. by eexists. }
  apply IH.
  - apply (add_parsed_inside U _ _ _ _ _ Hc Ea); [|set_solver]. intros n Hn. apply Hp. by apply Hk.
  - destruct (Hk name) as [Hin Hni]; [left|]. specialize (Hp _ Hin).
    assert (size (U ∖ (scheduled ∪ list_to_set (path <$> name :: kept))) < size (U ∖ scheduled)); [|lia].
    apply subset_size. set_solver.
Qed.

(** ** The whole graph *)

Context (watch : bool).
Notation task_list o := (task <$> tasks o).
Notation generate fuel := (generate_graph_with_tasks host watch read fuel roots old initial).

Lemma searching_start : searching ∅ roots (MkOrchestrator [] ∅ [] [] []).
Proof.
  constructor.
  - constructor; cbn; try done; [|set_solver..]. intros p i. rewrite lookup_empty. split; [done|by intros (? & ? & _)].
  - cbn. lia.
  - intros p. cbn. rewrite lookup_empty. split; [set_solver|by intros []].
  - by left.
  - intros name [Hr|(? & Hn & _)]; [by right|]. cbn in Hn. set_solver.
Qed.

Section Ended.
Context (scheduled : gset bytes) (o : Orchestrator) (Hend : searching scheduled [] o).

Lemma ended_bound p j : by_path o !! p = Some j → j < length (task_list o).
Proof.
  intros Hj. apply (f_paths _ (s_found _ _ _ Hend)) in Hj as (node & Hn & _). rewrite length_fmap. by eapply lookup_lt_Some.
Qed.

Lemma ended_origin name : origin o name → ∃ j, by_path o !! path name = Some j ∧ j < length (task_list o).
Proof.
  intros Ho. destruct (s_pending _ _ _ Hend _ Ho) as [Hin|Hin]; [|set_solver].
  apply (s_scheduled _ _ _ Hend) in Hin as [j Hj]. exists j. split; [done|by eapply ended_bound].
Qed.

Lemma ended_closed : refs_closed host (task_list o) (by_path o).
Proof.
  intros t name c Ht Hr. apply list_elem_of_fmap in Ht as (node & -> & Hn). apply ended_origin. right.
  exists node. split; [done|]. apply references_names. by exists c.
Qed.

Lemma ended_inv : inv host (task_list o) (by_path o) (MkSetup o ∅ ∅ []).
Proof.
  destruct (s_found _ _ _ Hend) as [Fp Ff Fr Fo Fi Fe].
  assert (∀ i, upstream_of (MkSetup o ∅ ∅ []) i = []) as Hu.
  { intros i. unfold upstream_of. cbn. destruct (tasks o !! i) as [n|] eqn:En; [|done]. by eapply Ff, list_elem_of_lookup_2. }
  constructor; intros *; cbn; rewrite ?Fi, ?Fo, ?Hu; try done;
    try (by intros ?%elem_of_empty); try (by intros ?%elem_of_nil); try (by intros _ ?%elem_of_nil).
  - apply NoDup_nil_2.
  - by rewrite elem_of_empty, elem_of_nil.
Qed.
End Ended.

(** The calls work on what the search has found, and finish all of it. *)
Lemma generate_done fuel o :
  keyed → generate fuel = Some (o, Ok ()) →
  ∃ scheduled o1 s, searching scheduled [] o1 ∧ o = orch s ∧ all_done host (task_list o1) (by_path o1) s
    ∧ (∀ i, i < length (task_list o1) → i ∈ completed s)
    ∧ (errors o = [] ∧ (∀ i, i ∈ completed s → complete (task_list o1) s i)
       ∨ cyclic host (task_list o1) (by_path o1))
    ∧ (errors o = [] → ∀ i, i ∈ completed s → complete_strict host (task_list o1) (by_path o1) s i).
Proof.
  intros Hkey. unfold generate_graph_with_tasks.
  destruct (discover _ _ _ _ _ _ _ _) as [[o1 [[]|]]|] eqn:Ed; cbn; [|done..].
  destruct (discover_ok _ _ _ _ _ Hkey searching_start Ed) as [scheduled Hend].
  pose proof (ended_inv _ _ Hend) as Hinv.
  destruct (setup_roots_ok host watch (task_list o1) (by_path o1) roots (ended_closed _ _ Hend)) with (s := MkSetup o1 ∅ ∅ [])
    as (s & -> & Hs & Hopen & _ & Hroots & _ & Hout & Hstrict); [|done|by intros x []|].
  { intros root Hr. apply (ended_origin _ _ Hend). by left. }
  intros [= <-]. exists scheduled, o1, s. cbn in Hout, Hstrict.
  rewrite (f_errors _ (s_found _ _ _ Hend)) in Hout, Hstrict. split_and!; [done|done|done| | |].
  - intros i Hi. rewrite length_fmap in Hi. destruct (s_led _ _ _ Hend i Hi) as (root & r & Hr & Hp & Hrtc).
    eapply done_closed; [done|by eapply Hroots|done].
  - apply Hout. set_solver.
  - apply Hstrict. set_solver.
Qed.

(** [C9] The order of a build. When the graph is made without an error of reading, its
    tasks are exactly what the roots lead to, each is what reading its configuration gave
    and is found under its path; every task stands in the order once; and what a task waits
    for stands before it and is one of its references. *)
Theorem build_order fuel o :
  keyed → generate fuel = Some (o, Ok ()) →
  (∀ i, i < length (tasks o) ↔ led_to o i)
  ∧ (∀ i node, tasks o !! i = Some node →
       index host (config (task node)) o = Some i ∧ ∃ name, parse name = Ok (task node))
  ∧ order_indices o ≡ₚ seq 0 (length (tasks o))
  ∧ Some <$> order o = (λ i, config ∘ task <$> tasks o !! i) <$> order_indices o
  ∧ (∀ l1 i l2 node j k, order_indices o = l1 ++ i :: l2 → tasks o !! i = Some node → (j, k) ∈ upstream node →
       j ∈ l1 ∧ ref_edge host (task_list o) (by_path o) i k j).
Proof.
  intros Hkey Hg. destruct (generate_done _ _ Hkey Hg) as (sch & o1 & s & Hend & -> & [Hs Hopen] & Hall & _).
  pose proof (inv_tasks _ _ _ _ Hs) as Ht. pose proof (inv_paths _ _ _ _ Hs) as Hp.
  assert (length (tasks (orch s)) = length (tasks o1)) as Hlen by (by rewrite <-(length_fmap task), Ht, length_fmap).
  unfold led_to, edge_of, index. rewrite Ht, Hp. split_and!.
  - intros i. rewrite Hlen. split; [apply (s_led _ _ _ Hend)|]. intros (root & r & _ & Hr & Hrtc).
    rewrite <-(length_fmap task). apply rtc_inv_r in Hrtc as [->|(y & _ & k & t & n & c & _ & _ & Hj)];
      by eapply (ended_bound _ _ Hend).
  - intros i node Hn. assert (task_list o1 !! i = Some (task node)) as Hi by (by rewrite <-Ht, list_lookup_fmap, Hn).
    rewrite list_lookup_fmap in Hi. destruct (tasks o1 !! i) as [n1|] eqn:E1; [|done]. injection Hi as Hi.
    rewrite <-Hi. split; [by apply (f_paths _ (s_found _ _ _ Hend)); exists n1|].
    apply (f_read _ (s_found _ _ _ Hend)). by eapply list_elem_of_lookup_2.
  - apply NoDup_Permutation; [apply (inv_nodup _ _ _ _ Hs)|apply NoDup_seq|]. intros x.
    rewrite <-(inv_completed _ _ _ _ Hs), elem_of_seq, Hlen, <-(length_fmap task (tasks o1)). split; [|intros [_ ?]; by apply Hall].
    intros Hx. split; [lia|]. apply (inv_bound _ _ _ _ Hs), (inv_analyzing _ _ _ _ Hs), Hx.
  - rewrite (inv_order _ _ _ _ Hs), <-Ht. apply list_fmap_ext. intros _ i _. rewrite list_lookup_fmap. by destruct (_ !! i).
  - intros l1 i l2 node j k Ho Hn Hu. assert ((j, k) ∈ upstream_of s i) as Hin by (unfold upstream_of; by rewrite Hn).
    split; [by eapply (inv_before _ _ _ _ Hs)|by apply (inv_edge _ _ _ _ Hs)].
Qed.

(** [C10] Cycles. If the references form no cycle then none is reported and every task waits
    for all that it refers to. A cycle is reported unless a reference that says that it may be
    circular leads to it: such a permission holds for all that is reached through it. *)
Theorem cycle_reported fuel o :
  keyed → generate fuel = Some (o, Ok ()) →
  let T := task_list o in
  (¬ cyclic host T (by_path o) → errors o = []
     ∧ ∀ i k j, ref_edge host T (by_path o) i k j → ∃ node, tasks o !! i = Some node ∧ (j, k) ∈ upstream node)
  ∧ (∀ i, tc (edge host T (by_path o)) i i → ¬ lenient host T (by_path o) i → errors o ≠ []).
Proof.
  intros Hkey Hg. destruct (generate_done _ _ Hkey Hg) as (sch & o1 & s & Hend & -> & [Hs Hopen] & Hall & Hout & Hstrict).
  pose proof (inv_tasks _ _ _ _ Hs) as Ht. cbv zeta. rewrite Ht, (inv_paths _ _ _ _ Hs).
  assert (∀ i k j, ref_edge host (task_list o1) (by_path o1) i k j → i ∈ completed s) as Hin.
  { intros i k j (t & ? & ? & Hi & _). apply Hall. by eapply lookup_lt_Some. }
  split.
  - intros Hac. destruct Hout as [[He Hc]|Hcyc]; [|done]. split; [done|]. intros i k j Hij.
    pose proof (complete_edge _ _ _ _ _ _ _ Hs (Hc _ (Hin _ _ _ Hij)) Hij) as Hup.
    unfold upstream_of in Hup. destruct (tasks (orch s) !! i) as [node|]; [by exists node|by apply elem_of_nil in Hup].
  - intros x Hx Hl He. revert Hl Hx.
    apply (ordered_acyclic _ _ _ (order_indices (orch s))); [apply (inv_nodup _ _ _ _ Hs)| |].
    + intros i Hi. by apply (inv_completed _ _ _ _ Hs), Hall.
    + intros l1 i l2 j Hl [k Hij] Hn. eapply (inv_before _ _ _ _ Hs); [done|]. by apply (Hstrict He i (Hin _ _ _ Hij)).
Qed.

(** [C11] Making the graph ends, and does not panic, whenever the roots lead to finitely many
    paths: the batches are at most two more than those, and the recursion over references
    needs no more levels than there are tasks. *)
Theorem graph_ends U fuel :
  keyed → closed U → (∀ root, root ∈ roots → path root ∈ U) → size U + 2 <= fuel → is_Some (generate fuel).
Proof.
  intros Hkey Hc Hr Hf. unfold generate_graph_with_tasks.
  destruct (discover_ends U fuel ∅ roots (MkOrchestrator [] ∅ [] [] [])) as [[o1 [[]|]] Ed]; [done|done| | |].
  { etrans; [|exact Hf]. apply Nat.add_le_mono_r, subseteq_size. set_solver. }
  - rewrite Ed. cbn. destruct (discover_ok _ _ _ _ _ Hkey searching_start Ed) as [scheduled Hend].
    destruct (setup_roots_ok host watch (task_list o1) (by_path o1) roots (ended_closed _ _ Hend)) with (s := MkSetup o1 ∅ ∅ [])
      as (s & -> & _); [|by apply (ended_inv _ _ Hend)|by intros x []|by eexists].
    intros root Hroot. apply (ended_origin _ _ Hend). by left.
  - rewrite Ed. by eexists.
Qed.
End Found.

(** ** Three projects *)

Definition sample_host : BuildHost := MkHost (bs "/") true.
Definition sample_roots : list bytes := resolved_project_paths (bs "/") [bs "a"].
Definition sample_run (cyc : bool) : option (Orchestrator (Info := ()) * result () ()) :=
  @generate_graph_with_tasks ascii_tables () () sample_host false (sample_read cyc) 5 sample_roots ∅ true.
Definition sample_graph (cyc : bool) : Orchestrator (Info := ()) :=
  from_option fst (MkOrchestrator [] ∅ [] [] []) (sample_run cyc).

Lemma sample_generated cyc : sample_run cyc = Some (sample_graph cyc, Ok ()).
Proof. by destruct cyc; vm_compute. Qed.

Lemma empty_keyed `{CaseTables} {Info} host : keyed host (∅ : gmap bytes (BuildTask (Info := Info))).
Proof. intros p t. by rewrite lookup_empty. Qed.

(** No reference says that it may be circular. *)
Lemma strict_bool `{CaseTables} {Info} (host : BuildHost) (T : list (BuildTask (Info := Info))) (BP : gmap bytes nat) x :
  forallb (λ t, forallb (λ r, negb r.2) (references t)) T = true → ¬ lenient host T BP x.
Proof.
  rewrite forallb_forall. intros Hall (i & j & (t & name & Ht & Hr & _) & _).
  apply list_elem_of_lookup_2, list_elem_of_In, Hall in Ht. rewrite forallb_forall in Ht.
  by apply list_elem_of_In, Ht in Hr.
Qed.

Lemma build_order_witness :
  order (sample_graph true) = [bs "/c/tsconfig.json"; bs "/b/tsconfig.json"; bs "/a/tsconfig.json"]
  ∧ order_indices (sample_graph true) ≡ₚ seq 0 (length (tasks (sample_graph true))).
Proof.
  split; [by vm_compute|].
  apply (@build_order ascii_tables () () sample_host (sample_read true) sample_roots ∅ true false 5);
    [apply empty_keyed|exact (sample_generated true)].
Defined.

Definition has_edge `{CaseTables} {Info} (host : BuildHost) (T : list (BuildTask (Info := Info))) (BP : gmap bytes nat) i j : bool :=
  match T !! i with
  | Some t => existsb (λ r, bool_decide (BP !! path host r.1 = Some j)) (references t)
  | None => false
  end.

Lemma has_edge_true `{CaseTables} {Info} (host : BuildHost) (T : list (BuildTask (Info := Info))) (BP : gmap bytes nat) i j :
  has_edge host T BP i j = true → edge host T BP i j.
Proof.
  unfold has_edge. destruct (T !! i) as [t|] eqn:Ht; [|done].
  rewrite existsb_exists. intros ([name c] & Hr & Hj%bool_decide_eq_true_1).
  apply list_elem_of_In, list_elem_of_lookup in Hr as [k Hk]. exists k. by exists t, name, c.
Qed.

(** The three projects have a cycle from the first to the last and back. *)
Lemma cycle_reported_witness :
  errors (sample_graph true) ≠ []
  ∧ errors (sample_graph false) = [].
Proof.
  split.
  - apply (@cycle_reported ascii_tables () () sample_host (sample_read true) sample_roots ∅ true false 5 (sample_graph true)
             (empty_keyed _) (sample_generated true)) with (i := 0); [|apply strict_bool; by vm_compute].
    apply (tc_l _ _ 2).
    + apply has_edge_true. by vm_compute.
    + apply tc_once, has_edge_true. by vm_compute.
  - by vm_compute.
Defined.

Definition sample_paths : gset bytes := {[bs "/a/tsconfig.json"; bs "/b/tsconfig.json"; bs "/c/tsconfig.json"]}.

Lemma sample_closed : @closed ascii_tables () () sample_host (sample_read true) ∅ true sample_paths.
Proof.
  intros name t _. unfold parse_task. rewrite lookup_empty. unfold sample_read.
  repeat case_bool_decide; cbn [mbind result_bind]; intros [= <-] r Hr; vm_compute in Hr;
    repeat (apply elem_of_cons in Hr as [->|Hr]; [apply (bool_decide_unpack _); by vm_compute|]); by apply elem_of_nil in Hr.
Qed.

Lemma graph_ends_witness : size sample_paths = 3 ∧ is_Some (sample_run true).
Proof.
  split; [by vm_compute|]. unfold sample_run.
  apply (@graph_ends ascii_tables () () sample_host (sample_read true) sample_roots ∅ true false sample_paths 5);
    [apply empty_keyed|exact sample_closed| |by vm_compute; lia].
  intros root Hr. vm_compute in Hr. apply elem_of_cons in Hr as [->|Hr]; [|by apply elem_of_nil in Hr].
  apply (bool_decide_unpack _). by vm_compute.
Defined.
