(* ===== verification/BuildRun.v ===== *)
(** The builders of [crates/tsr_build/src/lib.rs]: [Orchestrator::build_or_clean] as a
    machine of threads that take the projects of the graph one by one.

    One step is one access of the shared state. A [Completion] is a flag under a mutex with
    a condition variable: [wait] tests the flag and, if it is not set, gives the lock up and
    falls asleep in one step; [finish] sets it and wakes all who sleep on it; a sleeper may
    also wake for nothing. What building or cleaning a project does is the caller's: it
    ends, with any outcome. The observer of the tests is left out, and so is the callback of
    the test system, whose panic is one of a report. *)

From stdpp Require Import gmap sets relations.
From S2P Require Import Prelude BuildGraph.

Local Open Scope nat_scope.

Inductive Completion := Done (index : nat) | ReportDone (index : nat).
#[export] Instance completion_eq_dec : EqDecision Completion.
Proof. solve_decision. Defined.

(** What can be told of a build from outside, in the order in which it happens. *)
Inductive Event := Began (index : nat) | Ended (index : nat) | Reported (index : nat).

Section Run.
Context {TaskResult Error Panic : Type}.
(** The text a result holds, and the result of a project that was not built. *)
Context (output : TaskResult → bytes) (skipped : TaskResult).

Inductive Outcome :=
  | Completed (result : TaskResult)
  | Failed (error : Error)
  | Panicked (panic : Panic).

(** Where a builder is in its loop. *)
Inductive Pc :=
  | Fetch
  | AwaitUpstream (position index : nat) (rest : list nat)
  | RunTask (position index : nat)
  | Returned (position index : nat) (outcome : Outcome)
  | Settle (position index : nat) (result : TaskResult)
  | FinishDone (position index : nat) (result : TaskResult)
  | AwaitReport (position index : nat) (result : TaskResult)
  | Report (position index : nat) (result : TaskResult)
  | StoreResult (position index : nat) (result : TaskResult)
  | FinishReport (position index : nat)
  | Exited.

Record Shared := MkShared {
  current : nat;
  done_ : gset nat;
  report_done : gset nat;
  failure : option Error;
  first_panic : option Panic;
  build_errors : gset nat;
  settled : gset nat;
  results : gmap nat TaskResult;
  written : bytes;
  history : list Event;
  threads : list Pc;
  asleep : gset nat;
}.
#[local] Instance eta_shared : Eta Shared := λ s,
  MkShared (current s) (done_ s) (report_done s) (failure s) (first_panic s) (build_errors s) (settled s)
    (results s) (written s) (history s) (threads s) (asleep s).

(** The order of the graph, the upstream tasks of each, and whether the build watches. *)
Context (order_indices : list nat) (upstream_of : nat → list nat) (watch : bool).

(** The state after the completions of an earlier run have been reset. *)
Definition start (builders : nat) : Shared :=
  MkShared 0 ∅ ∅ None None ∅ ∅ ∅ [] [] (replicate builders Fetch) ∅.

Definition goto (t : nat) (pc : Pc) (s : Shared) : Shared := s <| threads := <[t := pc]> (threads s) |>.
Definition note (e : Event) (s : Shared) : Shared := s <| history := history s ++ [e] |>.
Definition get_or_insert {A} (a : A) (o : option A) : option A := match o with Some _ => o | None => Some a end.

(** The completion a builder is about to look at. *)
Definition waits_on (pc : Pc) : option Completion :=
  match pc with
  | AwaitUpstream _ _ (u :: _) => Some (Done u)
  | AwaitReport (S position) _ _ => ReportDone <$> order_indices !! position
  | _ => None
  end.

Definition is_set (c : Completion) (s : Shared) : bool :=
  match c with
  | Done i => bool_decide (i ∈ done_ s)
  | ReportDone i => bool_decide (i ∈ report_done s)
  end.

(** [current.fetch_add(1)] and the end of the loop behind the last project. *)
Definition fetch (t : nat) (s : Shared) : Shared :=
  let position := current s in
  let s := s <| current := S position |> in
  match order_indices !! position with
  | Some index => goto t (AwaitUpstream position index (upstream_of index)) s
  | None => goto t Exited s
  end.

(** Where a builder is after it has seen the flag it looked at. *)
Definition seen (pc : Pc) : Pc :=
  match pc with
  | AwaitUpstream position index rest => AwaitUpstream position index (List.tl rest)
  | AwaitReport position index result => Report position index result
  | pc => pc
  end.

(** One round of [Completion::wait]. *)
Definition wait (t : nat) (pc : Pc) (c : Completion) (s : Shared) : Shared :=
  if is_set c s then goto t (seen pc) s else s <| asleep := {[t]} ∪ asleep s |>.

(** [notify_all]: who sleeps on [c] wakes. *)
Definition notify_all (c : Completion) (s : Shared) : Shared :=
  s <| asleep := filter (λ t, (threads s !! t ≫= waits_on) ≠ Some c) (asleep s) |>.

Definition finish (c : Completion) (s : Shared) : Shared :=
  notify_all c (match c with
                | Done i => s <| done_ := {[i]} ∪ done_ s |>
                | ReportDone i => s <| report_done := {[i]} ∪ report_done s |>
                end).

(** The outcome of a project becomes its result; an error and a panic are kept if they are
    the first. *)
Definition record (position index : nat) (outcome : Outcome) (t : nat) (s : Shared) : Shared :=
  match outcome with
  | Completed result => goto t (Settle position index result) s
  | Failed error =>
      goto t (Settle position index skipped)
        (s <| failure := get_or_insert error (failure s) |> <| build_errors := {[index]} ∪ build_errors s |>)
  | Panicked panic =>
      goto t (Settle position index skipped)
        (s <| first_panic := get_or_insert panic (first_panic s) |> <| build_errors := {[index]} ∪ build_errors s |>)
  end.

Inductive step (s : Shared) : Shared → Prop :=
  | step_fetch t : threads s !! t = Some Fetch → step s (fetch t s)
  | step_wait t pc c :
      threads s !! t = Some pc → waits_on pc = Some c → t ∉ asleep s → step s (wait t pc c s)
  | step_upstream_done t position index :
      threads s !! t = Some (AwaitUpstream position index []) → step s (goto t (RunTask position index) s)
  | step_run t position index outcome :
      threads s !! t = Some (RunTask position index) →
      step s (goto t (Returned position index outcome) (note (Began index) s))
  | step_cancelled t position index :
      threads s !! t = Some (RunTask position index) → watch = false →
      step s (goto t (Settle position index skipped) (s <| build_errors := {[index]} ∪ build_errors s |>))
  | step_record t position index outcome :
      threads s !! t = Some (Returned position index outcome) → step s (record position index outcome t s)
  | step_settle t position index result :
      threads s !! t = Some (Settle position index result) →
      step s (goto t (FinishDone position index result) (s <| settled := {[index]} ∪ settled s |>))
  | step_finish_done t position index result :
      threads s !! t = Some (FinishDone position index result) →
      step s (finish (Done index) (goto t (AwaitReport position index result) (note (Ended index) s)))
  | step_first t index result :
      threads s !! t = Some (AwaitReport 0 index result) → step s (goto t (Report 0 index result) s)
  | step_report t position index result :
      threads s !! t = Some (Report position index result) →
      step s (goto t (StoreResult position index result)
        (note (Reported index) (s <| written := written s ++ output result |>)))
  | step_report_panic t position index result n panic :
      threads s !! t = Some (Report position index result) →
      step s (goto t (StoreResult position index result)
        (note (Reported index) (s <| written := written s ++ take n (output result) |>
                                  <| first_panic := get_or_insert panic (first_panic s) |>)))
  | step_store t position index result :
      threads s !! t = Some (StoreResult position index result) →
      step s (goto t (FinishReport position index) (s <| results := <[index := result]> (results s) |>))
  | step_finish_report t position index :
      threads s !! t = Some (FinishReport position index) →
      step s (finish (ReportDone index) (goto t Fetch s)).

(** A sleeper wakes for nothing. *)
Inductive run_step (s : Shared) : Shared → Prop :=
  | run_plain s' : step s s' → run_step s s'
  | run_spurious t : t ∈ asleep s → run_step s (s <| asleep := asleep s ∖ {[t]} |>).

Definition reachable (builders : nat) : Shared → Prop := rtc run_step (start builders).

(** Every builder has left its loop. *)
Definition final (s : Shared) : Prop := ∀ t pc, threads s !! t = Some pc → pc = Exited.

(** ** Schedules

    The builders named one after the other each make their next step; [outcome_of] is what
    building a project comes to. A builder that sleeps or has left is passed over. *)

Definition advance (outcome_of : nat → Outcome) (t : nat) (s : Shared) : option Shared :=
  pc ← threads s !! t;
  match pc with
  | Fetch => Some (fetch t s)
  | AwaitUpstream position index [] => Some (goto t (RunTask position index) s)
  | RunTask position index => Some (goto t (Returned position index (outcome_of index)) (note (Began index) s))
  | Returned position index outcome => Some (record position index outcome t s)
  | Settle position index result =>
      Some (goto t (FinishDone position index result) (s <| settled := {[index]} ∪ settled s |>))
  | FinishDone position index result =>
      Some (finish (Done index) (goto t (AwaitReport position index result) (note (Ended index) s)))
  | AwaitReport 0 index result => Some (goto t (Report 0 index result) s)
  | Report position index result =>
      Some (goto t (StoreResult position index result) (note (Reported index) (s <| written := written s ++ output result |>)))
  | StoreResult position index result =>
      Some (goto t (FinishReport position index) (s <| results := <[index := result]> (results s) |>))
  | FinishReport position index => Some (finish (ReportDone index) (goto t Fetch s))
  | _ =>
      c ← waits_on pc;
      if decide (t ∈ asleep s) then None else Some (wait t pc c s)
  end.

Definition run_schedule (outcome_of : nat → Outcome) (schedule : list nat) (s : Shared) : Shared :=
  fold_left (λ s t, default s (advance outcome_of t s)) schedule s.

Lemma advance_step outcome_of t s s' : advance outcome_of t s = Some s' → step s s'.
Proof.
  unfold advance. destruct (threads s !! t) as [pc|] eqn:Ht; [|done]. cbn.
  assert (∀ c, waits_on pc = Some c → (if decide (t ∈ asleep s) then None else Some (wait t pc c s)) = Some s' → step s s') as Hwait.
  { intros c Hw. destruct (decide (t ∈ asleep s)); [done|]. intros [= <-]. by apply step_wait. }
  destruct pc as [|p i [|u rest]|p i|p i out|p i res|p i res|[|p] i res|p i res|p i res|p i|]; try (intros [= <-]; by econstructor).
  - by apply Hwait.
  - intros Hs. destruct (waits_on (AwaitReport (S p) i res)) as [c|] eqn:Hw; [|done]. by apply (Hwait c).
Qed.

Lemma run_schedule_reachable builders outcome_of schedule :
  reachable builders (run_schedule outcome_of schedule (start builders)).
Proof.
  unfold reachable, run_schedule. generalize (start builders). induction schedule as [|t schedule IH]; intros s; [done|].
  cbn. destruct (advance outcome_of t s) as [s'|] eqn:Ha; cbn; [|apply IH].
  eapply rtc_l; [|apply IH]. by eapply run_plain, advance_step.
Qed.
End Run.

(** ** What the build comes to *)

Definition ProjectReferenceCycle_OutputsSkipped : Z := 4.

(** The totals over the results; the timing of the statistics is left out. *)
Record Totals := MkTotals {
  status : Z;
  all_errors : list Diagnostic;
  all_deletes : list bytes;
  projects : nat;
  projects_built : nat;
  timestamp_updates : nat;
}.

Inductive Conclusion (Error Panic : Type) :=
  | Cycle (status : Z) (errors : list Diagnostic)
  | ResumeUnwind (panic : Panic)
  | BuildError (error : Error)
  | BuildTotals (totals : Totals).
Arguments Cycle {Error Panic} _ _.
Arguments ResumeUnwind {Error Panic} _.
Arguments BuildError {Error Panic} _.
Arguments BuildTotals {Error Panic} _.

Section Conclude.
Context {TaskResult Error Panic : Type}.
Context (exit_status : TaskResult → Z) (result_errors : TaskResult → list Diagnostic) (deletes : TaskResult → list bytes).
Context (built pseudo : TaskResult → bool).

Definition add_result (t : Totals) (r : TaskResult) : Totals :=
  MkTotals (Z.max (status t) (exit_status r)) (all_errors t ++ result_errors r) (all_deletes t ++ deletes r) (projects t)
    (projects_built t + if built r then 1 else 0) (timestamp_updates t + if pseudo r then 1 else 0).

(** A graph with errors is not built. *)
Definition before_build (errors : list Diagnostic) : option (Conclusion Error Panic) :=
  match errors with [] => None | _ => Some (Cycle ProjectReferenceCycle_OutputsSkipped errors) end.

(** When the builders have left: the first panic goes on, else the first error is returned,
    else the results are added up in the order of the graph. *)
Definition after_build (order_indices : list nat) (s : Shared (TaskResult := TaskResult) (Error := Error) (Panic := Panic))
  : Conclusion Error Panic :=
  match first_panic s, failure s with
  | Some panic, _ => ResumeUnwind panic
  | None, Some error => BuildError error
  | None, None =>
      BuildTotals (fold_left add_result (omap (λ i, results s !! i) order_indices)
        (MkTotals 0 [] [] (length order_indices) 0 0))
  end.
End Conclude.

(** Two builders and three projects of which 0 waits for 1 and 2, and 1 for 2. Building 1
    fails; the first builder is ahead of the other at first. *)
Example run_ex :
  let ups i := match i with 0 => [1; 2] | 1 => [2] | _ => [] end in
  let out i : Outcome (Error := bytes) (Panic := bytes) := if i =? 1 then Failed (bs "no") else Completed [Z.of_nat (48 + i)] in
  let s := run_schedule id (bs "-") [2; 1; 0] ups out
             (concat (replicate 9 [0; 0; 0; 1]) ++ concat (replicate 30 [1; 0])) (start 2) in
  history s = [Began 2; Ended 2; Reported 2; Began 1; Ended 1; Began 0; Reported 1; Ended 0; Reported 0]
  ∧ written s = bs "2-0" ∧ failure s = Some (bs "no") ∧ threads s = [Exited; Exited].
Proof. by vm_compute. Qed.
