(* ===== verification/BuildRunInv.v ===== *)
(** The invariants of the builders of [crates/tsr_build/src/lib.rs]: who holds which project,
    what has been built and what has been reported. *)

From stdpp Require Import gmap sets relations.
From S2P Require Import Prelude BuildGraph BuildRun.

Local Open Scope nat_scope.

Section Inv.
Context {TaskResult Error Panic : Type}.
Context (L : list nat) (ups : nat → list nat).

Notation Pc := (Pc (TaskResult := TaskResult) (Error := Error) (Panic := Panic)).
Implicit Types (pc : Pc) (ths : list Pc) (t p i u : nat).

(** Every project stands once in the order, behind what it waits for. *)
Definition well_ordered : Prop :=
  NoDup L ∧ ∀ p i u, L !! p = Some i → u ∈ ups i → ∃ q, q < p ∧ L !! q = Some u.

Definition pc_at pc : option (nat * nat) :=
  match pc with
  | Fetch | Exited => None
  | AwaitUpstream p i _ | RunTask p i | Returned p i _ | Settle p i _ | FinishDone p i _ | AwaitReport p i _
  | Report p i _ | StoreResult p i _ | FinishReport p i => Some (p, i)
  end.

(** How far a builder has come with its project. *)
Definition rank pc : nat :=
  match pc with
  | Fetch | Exited => 0
  | AwaitUpstream _ _ _ => 1
  | RunTask _ _ => 2
  | Returned _ _ _ => 3
  | Settle _ _ _ => 4
  | FinishDone _ _ _ => 5
  | AwaitReport _ _ _ => 6
  | Report _ _ _ => 7
  | StoreResult _ _ _ => 8
  | FinishReport _ _ => 9
  end.

Definition rest_of pc : list nat := match pc with AwaitUpstream _ _ rest => rest | _ => [] end.

Definition holds ths t pc p i : Prop := ths !! t = Some pc ∧ pc_at pc = Some (p, i).

Lemma holds_insert ths t pc0 pc1 t' pc p i :
  ths !! t = Some pc0 → holds (<[t := pc1]> ths) t' pc p i →
  t' = t ∧ pc = pc1 ∧ pc_at pc1 = Some (p, i) ∨ t' ≠ t ∧ holds ths t' pc p i.
Proof.
  intros Ht [Hl Hp]. destruct (decide (t' = t)) as [->|Hne].
  - rewrite list_lookup_insert_eq in Hl by (by eapply lookup_lt_Some). simplify_eq. by left.
  - rewrite list_lookup_insert_ne in Hl by done. by right.
Qed.

Lemma holds_new ths t pc0 pc1 p i :
  ths !! t = Some pc0 → pc_at pc1 = Some (p, i) → holds (<[t := pc1]> ths) t pc1 p i.
Proof. intros Ht Hp. split; [|done]. apply list_lookup_insert_eq. by eapply lookup_lt_Some. Qed.

Lemma holds_other ths t pc1 t' pc p i : t' ≠ t → holds ths t' pc p i → holds (<[t := pc1]> ths) t' pc p i.
Proof. intros Hne [Hl Hp]. split; [|done]. by rewrite list_lookup_insert_ne. Qed.

(** ** Who holds what *)

Record held ths (cur : nat) (rd : gset nat) : Prop := {
  a_held t pc p i : holds ths t pc p i → p < cur ∧ L !! p = Some i;
  a_unique t1 t2 pc1 pc2 p i j : holds ths t1 pc1 p i → holds ths t2 pc2 p j → t1 = t2;
  a_claimed p i : p < cur → L !! p = Some i → i ∈ rd ∨ ∃ t pc, holds ths t pc p i;
  a_free t pc p i : holds ths t pc p i → i ∉ rd;
  a_reported i : i ∈ rd → ∃ p, p < cur ∧ L !! p = Some i;
  a_exit t : ths !! t = Some Exited → length L <= cur;
}.

Lemma held_start n : held (replicate n Fetch) 0 ∅.
Proof.
  assert (∀ t pc p i, ¬ holds (replicate n Fetch) t pc p i) as Hn.
  { intros t pc p i [[-> _]%lookup_replicate Hp]. done. }
  constructor.
  - by intros t pc p i ?%Hn.
  - by intros t1 t2 pc1 pc2 p i j ?%Hn.
  - lia.
  - by intros t pc p i ?%Hn.
  - by intros i ?%elem_of_empty.
  - by intros t [? _]%lookup_replicate.
Qed.

(** A builder goes on with its project. *)
Lemma held_move ths cur rd t pc0 pc1 p i :
  held ths cur rd → ths !! t = Some pc0 → pc_at pc0 = Some (p, i) → pc_at pc1 = Some (p, i) →
  held (<[t := pc1]> ths) cur rd.
Proof.
  intros [Hh Hu Hc Hf Hr He] Ht H0 H1. assert (holds ths t pc0 p i) as H00 by done. constructor; [..|done|].
  - intros t' pc p' i' [(-> & -> & Heq)|[Hne Hx]]%(holds_insert _ _ pc0); [|by eapply Hh|done].
    rewrite H1 in Heq. simplify_eq. by eapply Hh.
  - intros t1 t2 pc2 pc3 p' i1 i2 Ha Hb.
    apply (holds_insert _ _ pc0) in Ha as [(-> & -> & Ea)|[Na Ha]]; [| |done];
      apply (holds_insert _ _ pc0) in Hb as [(-> & -> & Eb)|[Nb Hb]]; try done; rewrite ?H1 in *; simplify_eq; by eapply Hu.
  - intros p' i' Hp Hl. destruct (Hc p' i' Hp Hl) as [|(t' & pc & Hx)]; [by left|right].
    destruct (decide (t' = t)) as [->|Hne].
    + exists t, pc1. destruct Hx as [Hx Hy]. simplify_eq. by eapply holds_new.
    + exists t', pc. by apply holds_other.
  - intros t' pc p' i' [(-> & -> & Heq)|[Hne Hx]]%(holds_insert _ _ pc0); [|by eapply Hf|done].
    rewrite H1 in Heq. simplify_eq. by eapply Hf.
  - intros t' Hx. destruct (decide (t' = t)) as [->|Hne].
    + rewrite list_lookup_insert_eq in Hx by (by eapply lookup_lt_Some). by simplify_eq.
    + rewrite list_lookup_insert_ne in Hx by done. by eapply He.
Qed.

(** A builder takes the next project. *)
Lemma held_claim ths cur rd t i rest :
  well_ordered → held ths cur rd → ths !! t = Some Fetch → L !! cur = Some i →
  held (<[t := AwaitUpstream cur i rest]> ths) (S cur) rd.
Proof.
  intros [Hnd _] [Hh Hu Hc Hf Hr He] Ht Hi. constructor.
  - intros t' pc p' i' [(-> & -> & Heq)|[Hne Hx]]%(holds_insert _ _ Fetch); [| |done].
    + cbn in Heq. simplify_eq. split; [lia|done].
    + destruct (Hh _ _ _ _ Hx). split; [lia|done].
  - intros t1 t2 pc2 pc3 p' i1 i2 Ha Hb.
    apply (holds_insert _ _ Fetch) in Ha as [(-> & -> & Ea)|[Na Ha]]; [| |done];
      apply (holds_insert _ _ Fetch) in Hb as [(-> & -> & Eb)|[Nb Hb]]; try done.
    + cbn in Ea. simplify_eq. destruct (Hh _ _ _ _ Hb). lia.
    + cbn in Eb. simplify_eq. destruct (Hh _ _ _ _ Ha). lia.
    + by eapply Hu.
  - intros p' i' Hp Hl. destruct (decide (p' = cur)) as [->|Hpne].
    + right. simplify_eq. exists t, (AwaitUpstream cur i rest). by eapply holds_new.
    + destruct (Hc p' i') as [|(t' & pc & Hx)]; [lia|done|by left|right]. exists t', pc.
      apply holds_other; [|done]. intros ->. destruct Hx as [Hx Hy]. by simplify_eq.
  - intros t' pc p' i' [(-> & -> & Heq)|[Hne Hx]]%(holds_insert _ _ Fetch); [|by eapply Hf|done].
    cbn in Heq. simplify_eq. intros (q & Hq & Hlq)%Hr. assert (q = p') by (by eapply NoDup_lookup). lia.
  - intros i' (q & Hq & Hlq)%Hr. exists q. split; [lia|done].
  - intros t' Hx. destruct (decide (t' = t)) as [->|Hne].
    + rewrite list_lookup_insert_eq in Hx by (by eapply lookup_lt_Some). by simplify_eq.
    + rewrite list_lookup_insert_ne in Hx by done. transitivity cur; [by eapply He|lia].
Qed.

(** A builder leaves. *)
Lemma held_exit ths cur rd t :
  held ths cur rd → ths !! t = Some Fetch → L !! cur = None → held (<[t := Exited]> ths) (S cur) rd.
Proof.
  intros [Hh Hu Hc Hf Hr He] Ht Hi. apply lookup_ge_None in Hi.
  assert (∀ t' pc p i, holds (<[t := Exited]> ths) t' pc p i → holds ths t' pc p i) as Hold.
  { intros t' pc p i [(-> & -> & Heq)|[Hne Hx]]%(holds_insert _ _ Fetch); done. }
  constructor.
  - intros t' pc p i Hx%Hold. destruct (Hh _ _ _ _ Hx). split; [lia|done].
  - intros t1 t2 pc1 pc2 p i j Ha%Hold Hb%Hold. by eapply Hu.
  - intros p i Hp Hl. pose proof (lookup_lt_Some _ _ _ Hl). destruct (Hc p i) as [|(t' & pc & Hx)]; [lia|done|by left|right].
    exists t', pc. apply holds_other; [|done]. intros ->. destruct Hx as [Hx Hy]. by simplify_eq.
  - intros t' pc p i Hx%Hold. by eapply Hf.
  - intros i (q & Hq & Hlq)%Hr. exists q. split; [lia|done].
  - intros. lia.
Qed.

(** A builder is done with its project. *)
Lemma held_finish ths cur rd t p i :
  well_ordered → held ths cur rd → ths !! t = Some (FinishReport p i) →
  held (<[t := Fetch]> ths) cur ({[i]} ∪ rd).
Proof.
  intros [Hnd _] [Hh Hu Hc Hf Hr He] Ht. assert (holds ths t (FinishReport p i) p i) as H0 by done.
  destruct (Hh _ _ _ _ H0) as [Hp Hi].
  assert (∀ t' pc q j, holds (<[t := Fetch]> ths) t' pc q j → t' ≠ t ∧ holds ths t' pc q j) as Hold.
  { intros t' pc q j [(-> & -> & Heq)|[Hne Hx]]%(holds_insert _ _ (FinishReport p i)); done. }
  constructor.
  - intros t' pc q j [_ Hx]%Hold. by eapply Hh.
  - intros t1 t2 pc1 pc2 q j k [_ Ha]%Hold [_ Hb]%Hold. by eapply Hu.
  - intros q j Hq Hl. destruct (Hc q j Hq Hl) as [|(t' & pc & Hx)]; [left; set_solver|].
    destruct (decide (t' = t)) as [->|Hne].
    + left. destruct Hx as [Hx Hy]. simplify_eq. cbn in Hy. simplify_eq. set_solver.
    + right. exists t', pc. by apply holds_other.
  - intros t' pc q j [Hne Hx]%Hold. rewrite elem_of_union, elem_of_singleton. intros [->|Hin]; [|by eapply Hf].
    destruct (Hh _ _ _ _ Hx) as [_ Hj]. assert (q = p) as -> by (by eapply NoDup_lookup). by destruct Hne; eapply Hu.
  - intros j. rewrite elem_of_union, elem_of_singleton. intros [->|Hin]; [by exists p|by apply Hr].
  - intros t' Hx. destruct (decide (t' = t)) as [->|Hne].
    + rewrite list_lookup_insert_eq in Hx by (by eapply lookup_lt_Some). by simplify_eq.
    + rewrite list_lookup_insert_ne in Hx by done. by eapply He.
Qed.

(** A builder that holds nothing and will hold nothing. *)
Lemma holds_idle ths t pc0 pc1 t' pc p i :
  ths !! t = Some pc0 → pc_at pc1 = None → holds (<[t := pc1]> ths) t' pc p i → t' ≠ t ∧ holds ths t' pc p i.
Proof. intros Ht H1 [(-> & -> & Heq)|Hx]%(holds_insert _ _ pc0); [congruence|done|done]. Qed.

(** ** What has been built *)

Definition began (e : Event) : option nat := match e with Began i => Some i | _ => None end.

Record built ths (dn rd : gset nat) (hist : list Event) : Prop := {
  b_done i : i ∈ dn ↔ i ∈ rd ∨ ∃ t pc p, holds ths t pc p i ∧ 6 <= rank pc;
  b_upstream t pc p i u : holds ths t pc p i → u ∈ ups i → u ∈ dn ∨ u ∈ rest_of pc;
  b_rest t pc p i u : holds ths t pc p i → u ∈ rest_of pc → u ∈ ups i;
  b_ended i : i ∈ dn ↔ Ended i ∈ hist;
  b_began i : Began i ∈ hist → i ∈ rd ∨ ∃ t pc p, holds ths t pc p i ∧ 3 <= rank pc;
  b_once : NoDup (omap began hist);
  b_before h1 i h2 u : hist = h1 ++ Began i :: h2 → u ∈ ups i → Ended u ∈ h1;
}.

Lemma built_start n : built (replicate n Fetch) ∅ ∅ [].
Proof.
  assert (∀ t pc p i, ¬ holds (replicate n Fetch) t pc p i) as Hn.
  { intros t pc p i [[-> _]%lookup_replicate Hp]. done. }
  constructor.
  - intros i. split; [by intros ?%elem_of_empty|]. intros [?%elem_of_empty|(t & pc & p & ?%Hn & _)]; done.
  - by intros t pc p i u ?%Hn.
  - by intros t pc p i u ?%Hn.
  - intros i. by rewrite elem_of_empty, elem_of_nil.
  - by intros i ?%elem_of_nil.
  - constructor.
  - intros h1 i h2 u Heq%(f_equal length). rewrite length_app in Heq. cbn in Heq. lia.
Qed.

(** The builder of [t] goes from [pc0] to [pc1]. *)
Lemma held_after ths t pc0 pc1 n i :
  ths !! t = Some pc0 → pc_at pc0 = pc_at pc1 → (n <= rank pc0 → n <= rank pc1) →
  (∃ t pc p, holds ths t pc p i ∧ n <= rank pc) → ∃ t' pc p, holds (<[t := pc1]> ths) t' pc p i ∧ n <= rank pc.
Proof.
  intros Ht Hat Hn (t' & pc & q & Hx & Hr). destruct (decide (t' = t)) as [->|Hne].
  - destruct Hx as [Hx Hq]. simplify_eq. exists t, pc1, q. split; [|auto]. eapply holds_new; [done|congruence].
  - exists t', pc, q. split; [by apply holds_other|done].
Qed.

Lemma built_pc ths dn rd hist t pc0 pc1 p i :
  built ths dn rd hist → ths !! t = Some pc0 → pc_at pc0 = Some (p, i) → pc_at pc1 = Some (p, i) →
  (6 <= rank pc0 ↔ 6 <= rank pc1) → (3 <= rank pc0 → 3 <= rank pc1) →
  (∀ u, u ∈ ups i → u ∈ dn ∨ u ∈ rest_of pc1) → (∀ u, u ∈ rest_of pc1 → u ∈ rest_of pc0) →
  built (<[t := pc1]> ths) dn rd hist.
Proof.
  intros [Hd Hu Hr He Hb Ho Hbf] Ht H0 H1 H6 H3 Hup Hrest. constructor; [| | |done| |done|done].
  - intros j. rewrite Hd. split; (intros [|Hx]; [by left|right]).
    + apply (held_after _ _ pc0 pc1); [done|congruence|by intros ?; apply H6|done].
    + destruct Hx as (t' & pc & q & [(-> & -> & Heq)|[Hne Hx]]%(holds_insert _ _ pc0) & Hrk); [| |done].
      * rewrite H1 in Heq. simplify_eq. exists t, pc0, q. split; [done|by apply H6].
      * by exists t', pc, q.
  - intros t' pc q j u [(-> & -> & Heq)|[Hne Hx]]%(holds_insert _ _ pc0); [|by eapply Hu|done].
    rewrite H1 in Heq. simplify_eq. apply Hup.
  - intros t' pc q j u [(-> & -> & Heq)|[Hne Hx]]%(holds_insert _ _ pc0); [|by eapply Hr|done].
    rewrite H1 in Heq. simplify_eq. intros Hin. eapply (Hr t pc0); [done|by apply Hrest].
  - intros j [|Hx]%Hb; [by left|right]. apply (held_after _ _ pc0 pc1); [done|congruence|done|done].
Qed.

Lemma snoc_inv {A} (l : list A) x h1 y h2 :
  l ++ [x] = h1 ++ y :: h2 → x = y ∧ h1 = l ∨ ∃ h2', l = h1 ++ y :: h2'.
Proof.
  destruct h2 as [|z h2 _] using rev_ind; intros Heq.
  - apply app_inj_tail in Heq as [-> ->]. by left.
  - rewrite app_comm_cons, app_assoc in Heq. apply app_inj_tail in Heq as [-> ->]. right. by exists h2.
Qed.

Lemma built_reported ths dn rd hist i : built ths dn rd hist → built ths dn rd (hist ++ [Reported i]).
Proof.
  intros [Hd Hu Hr He Hb Ho Hbf]. constructor; [done|done|done| | | |].
  - intros j. rewrite He, elem_of_app, list_elem_of_singleton. naive_solver.
  - intros j [Hj|Hj%list_elem_of_singleton]%elem_of_app; [by apply Hb|done].
  - rewrite omap_app. cbn. by rewrite app_nil_r.
  - intros h1 j h2 u [[? _]|[h2' Heq]]%snoc_inv; [done|by eapply Hbf].
Qed.

(** The task of a builder is held by nobody else. *)
Lemma held_by ths cur rd t pc p i t' pc' q :
  well_ordered → held ths cur rd → holds ths t pc p i → holds ths t' pc' q i → t' = t ∧ pc' = pc ∧ q = p.
Proof.
  intros [Hnd _] Hheld H0 H1. destruct (a_held _ _ _ Hheld _ _ _ _ H0) as [_ Hp], (a_held _ _ _ Hheld _ _ _ _ H1) as [_ Hq].
  assert (q = p) as -> by (by eapply NoDup_lookup). assert (t' = t) as -> by (by eapply (a_unique _ _ _ Hheld)).
  destruct H0 as [H0 _], H1 as [H1 _]. by simplify_eq.
Qed.

Lemma built_run ths cur dn rd hist t p i outcome :
  well_ordered → held ths cur rd → built ths dn rd hist → ths !! t = Some (RunTask p i) →
  built (<[t := Returned p i outcome]> ths) dn rd (hist ++ [Began i]).
Proof.
  intros Hwo Hheld Hbuilt Ht. assert (holds ths t (RunTask p i) p i) as H0 by done.
  assert (∀ u, u ∈ ups i → u ∈ dn) as Hup.
  { intros u Hin. destruct (b_upstream _ _ _ _ Hbuilt _ _ _ _ _ H0 Hin) as [|?%elem_of_nil]; done. }
  assert (Began i ∉ hist) as Hni.
  { intros [Hin|(t' & pc & q & Hx & Hrk)]%(b_began _ _ _ _ Hbuilt); [by eapply (a_free _ _ _ Hheld)|].
    destruct (held_by _ _ _ _ _ _ _ _ _ _ Hwo Hheld H0 Hx) as (-> & -> & ->). cbn in Hrk. lia. }
  destruct (built_pc _ _ _ _ t _ (Returned p i outcome) p i Hbuilt Ht) as [Hd Hu Hr He Hb Ho Hbf];
    [done|done|cbn; lia|cbn; lia|by left; apply Hup|done|].
  constructor; [done|done|done| | | |].
  - intros j. rewrite He, elem_of_app, list_elem_of_singleton. naive_solver.
  - intros j [Hj|[= ->]%list_elem_of_singleton]%elem_of_app; [by apply Hb|]. right.
    exists t, (Returned p i outcome), p. split; [by eapply holds_new|cbn; lia].
  - rewrite omap_app. apply NoDup_app. split_and!; [done| |cbn; apply NoDup_singleton].
    intros j (e & He' & Hj)%list_elem_of_omap ->%list_elem_of_singleton. destruct e; simplify_eq/=. done.
  - intros h1 j h2 u [[[= ->] ->]|[h2' Heq]]%snoc_inv; [|by eapply Hbf]. intros Hin. by apply He, Hup.
Qed.

Lemma built_end ths cur dn rd hist t p i result :
  well_ordered → held ths cur rd → built ths dn rd hist → ths !! t = Some (FinishDone p i result) →
  built (<[t := AwaitReport p i result]> ths) ({[i]} ∪ dn) rd (hist ++ [Ended i]).
Proof.
  intros Hwo Hheld [Hd Hu Hr He Hb Ho Hbf] Ht. assert (holds ths t (FinishDone p i result) p i) as H0 by done. constructor.
  - intros j. rewrite elem_of_union, elem_of_singleton, Hd. split.
    + intros [->|[|Hx]]; [|by left|].
      * right. exists t, (AwaitReport p i result), p. split; [by eapply holds_new|done].
      * right. apply (held_after _ _ (FinishDone p i result)); [done|done|cbn; lia|done].
    + intros [|(t' & pc & q & [(-> & -> & Heq)|[Hne Hx]]%(holds_insert _ _ (FinishDone p i result)) & Hrk)]; [by right; left| | |done].
      * cbn in Heq. simplify_eq. by left.
      * right. right. by exists t', pc, q.
  - intros t' pc q j u [(-> & -> & Heq)|[Hne Hx]]%(holds_insert _ _ (FinishDone p i result)) Hin; [| |done].
    + cbn in Heq. simplify_eq. destruct (Hu _ _ _ _ _ H0 Hin) as [|?%elem_of_nil]; [left; set_solver|done].
    + destruct (Hu _ _ _ _ _ Hx Hin); [left; set_solver|by right].
  - intros t' pc q j u [(-> & -> & Heq)|[Hne Hx]]%(holds_insert _ _ (FinishDone p i result)); [by intros ?%elem_of_nil|by eapply Hr|done].
  - intros j. rewrite elem_of_union, elem_of_singleton, elem_of_app, list_elem_of_singleton, He. naive_solver.
  - intros j [Hj|Hj%list_elem_of_singleton]%elem_of_app; [|done]. destruct (Hb j Hj) as [|Hx]; [by left|right].
    apply (held_after _ _ (FinishDone p i result)); [done|done|cbn; lia|done].
  - rewrite omap_app. cbn. by rewrite app_nil_r.
  - intros h1 j h2 u [[? _]|[h2' Heq]]%snoc_inv; [done|by eapply Hbf].
Qed.

Lemma built_claim ths cur dn rd hist t i :
  built ths dn rd hist → ths !! t = Some Fetch → built (<[t := AwaitUpstream cur i (ups i)]> ths) dn rd hist.
Proof.
  intros [Hd Hu Hr He Hb Ho Hbf] Ht.
  assert (∀ j n, 0 < n → (∃ t pc p, holds ths t pc p j ∧ n <= rank pc) →
    ∃ t' pc p, holds (<[t := AwaitUpstream cur i (ups i)]> ths) t' pc p j ∧ n <= rank pc) as Hkeep.
  { intros j n Hn (t' & pc & q & Hx & Hrk). exists t', pc, q. split; [|done]. apply holds_other; [|done].
    intros ->. destruct Hx as [Hx _]. simplify_eq. cbn in Hrk. lia. }
  constructor; [| | |done| |done|done].
  - intros j. rewrite Hd. split; (intros [|Hx]; [by left|right]); [apply Hkeep; [lia|done]|].
    destruct Hx as (t' & pc & q & [(-> & -> & Heq)|[Hne Hx]]%(holds_insert _ _ Fetch) & Hrk); [cbn in Hrk; lia| |done].
    by exists t', pc, q.
  - intros t' pc q j u [(-> & -> & Heq)|[Hne Hx]]%(holds_insert _ _ Fetch); [|by eapply Hu|done].
    cbn in Heq. simplify_eq. by right.
  - intros t' pc q j u [(-> & -> & Heq)|[Hne Hx]]%(holds_insert _ _ Fetch); [|by eapply Hr|done].
    cbn in Heq. by simplify_eq.
  - intros j [|Hx]%Hb; [by left|right]. apply Hkeep; [lia|done].
Qed.

Lemma built_exit ths dn rd hist t : built ths dn rd hist → ths !! t = Some Fetch → built (<[t := Exited]> ths) dn rd hist.
Proof.
  intros [Hd Hu Hr He Hb Ho Hbf] Ht.
  assert (∀ t' pc q j, holds (<[t := Exited]> ths) t' pc q j ↔ holds ths t' pc q j) as Hsame.
  { intros t' pc q j. split; [by intros [_ ?]%(holds_idle _ _ Fetch)|]. intros Hx. apply holds_other; [|done].
    intros ->. destruct Hx. by simplify_eq. }
  constructor; [| | |done| |done|done]; intros *; setoid_rewrite Hsame; eauto.
Qed.

Lemma built_finish ths cur dn rd hist t p i :
  well_ordered → held ths cur rd → built ths dn rd hist → ths !! t = Some (FinishReport p i) →
  built (<[t := Fetch]> ths) dn ({[i]} ∪ rd) hist.
Proof.
  intros Hwo Hheld [Hd Hu Hr He Hb Ho Hbf] Ht. assert (holds ths t (FinishReport p i) p i) as H0 by done.
  assert (∀ j n, (∃ t pc p, holds ths t pc p j ∧ n <= rank pc) →
    j ∈ ({[i]} ∪ rd : gset nat) ∨ ∃ t' pc p, holds (<[t := Fetch]> ths) t' pc p j ∧ n <= rank pc) as Hkeep.
  { intros j n (t' & pc & q & Hx & Hrk). destruct (decide (t' = t)) as [->|Hne].
    - left. destruct Hx as [Hx Hq]. simplify_eq. cbn in Hq. simplify_eq. set_solver.
    - right. exists t', pc, q. split; [by apply holds_other|done]. }
  constructor; [| | |done| |done|done].
  - intros j. rewrite Hd. split.
    + intros [Hj|Hx]; [left; set_solver|by apply Hkeep].
    + rewrite elem_of_union, elem_of_singleton. intros [[->|Hj]|(t' & pc & q & [Hne Hx]%(holds_idle _ _ (FinishReport p i)) & Hrk)];
        [|by left| |done|done]; right.
      * exists t, (FinishReport p i), p. split; [done|cbn; lia].
      * by exists t', pc, q.
  - intros t' pc q j u [Hne Hx]%(holds_idle _ _ (FinishReport p i)); [by eapply Hu|done|done].
  - intros t' pc q j u [Hne Hx]%(holds_idle _ _ (FinishReport p i)); [by eapply Hr|done|done].
  - intros j [Hj|Hx]%Hb; [left; set_solver|by apply Hkeep].
Qed.

(** ** What has been reported *)

Record reporting ths (cur : nat) (rd : gset nat) (reports : list nat) : Prop := {
  d_prefix : reports = take (length reports) L;
  d_before t pc p i : holds ths t pc p i → rank pc < 7 → length reports <= p;
  d_at t pc p i : holds ths t pc p i → rank pc = 7 → length reports = p;
  d_after t pc p i : holds ths t pc p i → 7 < rank pc → p < length reports;
  d_done p i : i ∈ rd → L !! p = Some i → p < length reports;
  d_current : length reports <= cur;
}.

Lemma reporting_start n : reporting (replicate n Fetch) 0 ∅ [].
Proof.
  assert (∀ t pc p i, ¬ holds (replicate n Fetch) t pc p i) as Hn.
  { intros t pc p i [[-> _]%lookup_replicate Hp]. done. }
  constructor; [done|by intros t pc p i ?%Hn..|by intros p i ?%elem_of_empty|done].
Qed.

Lemma reporting_move ths cur rd reports t pc0 pc1 p i :
  reporting ths cur rd reports → ths !! t = Some pc0 → pc_at pc0 = Some (p, i) → pc_at pc1 = Some (p, i) →
  rank pc0 < 7 ∧ rank pc1 < 7 ∨ 7 < rank pc0 ∧ 7 < rank pc1 → reporting (<[t := pc1]> ths) cur rd reports.
Proof.
  intros [Hpre Hb Ha Haf Hd Hc] Ht H0 H1 Hrk. assert (holds ths t pc0 p i) as Hx0 by done.
  constructor; [done| | | |done|done];
    (intros t' pc q j [(-> & -> & Heq)|[Hne Hx]]%(holds_insert _ _ pc0) Hr; [rewrite H1 in Heq; simplify_eq|by eauto|done]).
  - eapply Hb; [done|lia].
  - lia.
  - eapply Haf; [done|lia].
Qed.

(** A builder sees that the report before its own is out. *)
Lemma reporting_enter ths cur rd reports t p i result :
  reporting ths cur rd reports → ths !! t = Some (AwaitReport p i result) →
  (∀ q, p = S q → ∃ j, L !! q = Some j ∧ j ∈ rd) → reporting (<[t := Report p i result]> ths) cur rd reports.
Proof.
  intros [Hpre Hb Ha Haf Hd Hc] Ht Hprev. assert (holds ths t (AwaitReport p i result) p i) as Hx0 by done.
  assert (length reports = p) as Hlen.
  { pose proof (Hb _ _ _ _ Hx0 ltac:(cbn; lia)). destruct p as [|q]; [lia|].
    destruct (Hprev q eq_refl) as (j & Hj & Hin). pose proof (Hd _ _ Hin Hj). lia. }
  constructor; [done| | | |done|done];
    (intros t' pc q j [(-> & -> & Heq)|[Hne Hx]]%(holds_insert _ _ (AwaitReport p i result)) Hr;
     [cbn in Heq, Hr; simplify_eq; lia|by eauto|done]).
Qed.

Lemma reporting_report ths cur rd reports t p i result :
  held ths cur rd → reporting ths cur rd reports → ths !! t = Some (Report p i result) →
  reporting (<[t := StoreResult p i result]> ths) cur rd (reports ++ [i]).
Proof.
  intros Hheld [Hpre Hb Ha Haf Hd Hc] Ht. assert (holds ths t (Report p i result) p i) as Hx0 by done.
  pose proof (Ha _ _ _ _ Hx0 eq_refl) as Hlen. destruct (a_held _ _ _ Hheld _ _ _ _ Hx0) as [Hp Hi].
  assert (∀ t' pc q j, t' ≠ t → holds ths t' pc q j → q ≠ p) as Hne.
  { intros t' pc q j Hne Hx ->. by eapply Hne, (a_unique _ _ _ Hheld). }
  constructor; rewrite ?length_app; cbn [length].
  - rewrite Nat.add_comm. cbn [Nat.add]. rewrite (take_S_r _ _ i) by (by rewrite Hlen). by rewrite <-Hpre.
  - intros t' pc q j [(-> & -> & Heq)|[Hn Hx]]%(holds_insert _ _ (Report p i result)) Hr; [cbn in Hr; lia| |done].
    pose proof (Hb _ _ _ _ Hx Hr). pose proof (Hne _ _ _ _ Hn Hx). lia.
  - intros t' pc q j [(-> & -> & Heq)|[Hn Hx]]%(holds_insert _ _ (Report p i result)) Hr; [done| |done].
    pose proof (Ha _ _ _ _ Hx Hr). pose proof (Hne _ _ _ _ Hn Hx). lia.
  - intros t' pc q j [(-> & -> & Heq)|[Hn Hx]]%(holds_insert _ _ (Report p i result)) Hr; [| |done].
    + cbn in Heq. simplify_eq. lia.
    + pose proof (Haf _ _ _ _ Hx Hr). lia.
  - intros q j Hin Hj. pose proof (Hd _ _ Hin Hj). lia.
  - lia.
Qed.

Lemma reporting_claim ths cur rd reports t i rest :
  reporting ths cur rd reports → ths !! t = Some Fetch →
  reporting (<[t := AwaitUpstream cur i rest]> ths) (S cur) rd reports.
Proof.
  intros [Hpre Hb Ha Haf Hd Hc] Ht.
  constructor; [done| | | |done|lia];
    (intros t' pc q j [(-> & -> & Heq)|[Hne Hx]]%(holds_insert _ _ Fetch) Hr;
     [cbn in Heq, Hr; simplify_eq; lia|by eauto|done]).
Qed.

Lemma reporting_idle ths cur cur' rd reports t pc0 pc1 :
  reporting ths cur rd reports → ths !! t = Some pc0 → pc_at pc1 = None → cur <= cur' →
  reporting (<[t := pc1]> ths) cur' rd reports.
Proof.
  intros [Hpre Hb Ha Haf Hd Hc] Ht H1 Hle.
  constructor; [done| | | |done|lia]; (intros t' pc q j [Hne Hx]%(holds_idle _ _ pc0) Hr; [by eauto|done|done]).
Qed.

Lemma reporting_finish ths cur rd reports t p i :
  well_ordered → held ths cur rd → reporting ths cur rd reports → ths !! t = Some (FinishReport p i) →
  reporting (<[t := Fetch]> ths) cur ({[i]} ∪ rd) reports.
Proof.
  intros [Hnd _] Hheld Hrep Ht. assert (holds ths t (FinishReport p i) p i) as Hx0 by done.
  pose proof (d_after _ _ _ _ Hrep _ _ _ _ Hx0 ltac:(cbn; lia)) as Hlt.
  destruct (a_held _ _ _ Hheld _ _ _ _ Hx0) as [_ Hi].
  destruct (reporting_idle ths cur cur rd reports t _ Fetch Hrep Ht eq_refl (le_n cur)) as [Hpre Hb Ha Haf Hd Hc].
  constructor; try done. intros q j. rewrite elem_of_union, elem_of_singleton. intros [->|Hin]; [|by apply Hd].
  intros Hj. assert (q = p) as -> by (by eapply NoDup_lookup). done.
Qed.

(** ** Results and the text written *)

Context (output : TaskResult → bytes).

Record recorded ths (cur : nat) (rd : gset nat) (res : gmap nat TaskResult) (fp : option Panic) (wr : bytes)
    (reports : list nat) : Prop := {
  e_done i : i ∈ rd → is_Some (res !! i);
  e_held t pc p i : holds ths t pc p i → rank pc = 9 → is_Some (res !! i);
  e_none t pc p i : holds ths t pc p i → rank pc <= 8 → res !! i = None;
  e_free p i : L !! p = Some i → cur <= p → res !! i = None;
  e_written : fp = None → ∃ rs, length rs = length reports ∧ wr = concat (output <$> rs)
    ∧ ∀ p i r, rs !! p = Some r → L !! p = Some i → res !! i = Some r ∨ ∃ t, ths !! t = Some (StoreResult p i r);
}.

Lemma recorded_start n : recorded (replicate n Fetch) 0 ∅ ∅ None [] [].
Proof.
  assert (∀ t pc p i, ¬ holds (replicate n Fetch) t pc p i) as Hn.
  { intros t pc p i [[-> _]%lookup_replicate Hp]. done. }
  constructor; [by intros i ?%elem_of_empty|by intros t pc p i ?%Hn..|done|]. intros _. by exists [].
Qed.

Lemma recorded_move ths cur rd res fp fp' wr reports t pc0 pc1 p i :
  recorded ths cur rd res fp wr reports → ths !! t = Some pc0 → pc_at pc0 = Some (p, i) → pc_at pc1 = Some (p, i) →
  rank pc0 < 8 → rank pc1 < 8 → (fp' = None → fp = None) → recorded (<[t := pc1]> ths) cur rd res fp' wr reports.
Proof.
  intros [Hd Hh Hn Hf Hw] Ht H0 H1 Hr0 Hr1 Hfp. assert (holds ths t pc0 p i) as Hx0 by done. constructor; [done| | |done|].
  - intros t' pc q j [(-> & -> & Heq)|[Hne Hx]]%(holds_insert _ _ pc0) Hr; [lia|by eauto|done].
  - intros t' pc q j [(-> & -> & Heq)|[Hne Hx]]%(holds_insert _ _ pc0) Hr; [|by eauto|done].
    rewrite H1 in Heq. simplify_eq. eapply Hn; [done|lia].
  - intros (rs & Hlen & Hwr & Hrs)%Hfp%Hw. exists rs. split_and!; [done|done|]. intros q j r Hq Hj.
    destruct (Hrs q j r Hq Hj) as [|[t' Hx]]; [by left|right]. exists t'. rewrite list_lookup_insert_ne; [done|].
    intros ->. simplify_eq. cbn in Hr0. lia.
Qed.

(** A claim or an exit: an idle builder and the next position. *)
Lemma recorded_next ths cur rd res fp wr reports t pc1 :
  recorded ths cur rd res fp wr reports → ths !! t = Some Fetch →
  (∀ p i, pc_at pc1 = Some (p, i) → L !! cur = Some i) → rank pc1 <= 1 →
  recorded (<[t := pc1]> ths) (S cur) rd res fp wr reports.
Proof.
  intros [Hd Hh Hn Hf Hw] Ht H1 Hr1. constructor; [done| | | |].
  - intros t' pc q j [(-> & -> & Heq)|[Hne Hx]]%(holds_insert _ _ Fetch) Hr; [lia|by eauto|done].
  - intros t' pc q j [(-> & -> & Heq)|[Hne Hx]]%(holds_insert _ _ Fetch) Hr; [|by eauto|done]. eapply Hf; [by eapply H1|done].
  - intros q j Hq Hle. eapply Hf; [done|lia].
  - intros (rs & Hlen & Hwr & Hrs)%Hw. exists rs. split_and!; [done|done|]. intros q j r Hq Hj.
    destruct (Hrs q j r Hq Hj) as [|[t' Hx]]; [by left|right]. exists t'. rewrite list_lookup_insert_ne; [done|].
    intros ->. by simplify_eq.
Qed.

Lemma recorded_report ths cur rd res fp fp' wr wr' reports t p i result :
  held ths cur rd → reporting ths cur rd reports → recorded ths cur rd res fp wr reports →
  ths !! t = Some (Report p i result) → (fp' = None → fp = None ∧ wr' = wr ++ output result) →
  recorded (<[t := StoreResult p i result]> ths) cur rd res fp' wr' (reports ++ [i]).
Proof.
  intros Hheld Hrep [Hd Hh Hn Hf Hw] Ht Hfp. assert (holds ths t (Report p i result) p i) as Hx0 by done.
  pose proof (d_at _ _ _ _ Hrep _ _ _ _ Hx0 eq_refl) as Hlen0. destruct (a_held _ _ _ Hheld _ _ _ _ Hx0) as [_ Hi].
  constructor; [done| | |done|].
  - intros t' pc q j [(-> & -> & Heq)|[Hne Hx]]%(holds_insert _ _ (Report p i result)) Hr; [done|by eauto|done].
  - intros t' pc q j [(-> & -> & Heq)|[Hne Hx]]%(holds_insert _ _ (Report p i result)) Hr; [|by eauto|done].
    cbn in Heq. simplify_eq. eapply Hn; [exact Hx0|cbn; lia].
  - intros Hnone. destruct (Hfp Hnone) as [(rs & Hlen & Hwr & Hrs)%Hw ->]. exists (rs ++ [result]). split_and!.
    + rewrite !length_app, Hlen. done.
    + by rewrite Hwr, fmap_app, concat_app; cbn; rewrite app_nil_r.
    + intros q j r [Hq|[Hge Hq]]%lookup_app_Some Hj.
      * destruct (Hrs q j r Hq Hj) as [|[t' Hx]]; [by left|right]. exists t'. rewrite list_lookup_insert_ne; [done|].
        intros ->. by simplify_eq.
      * apply list_lookup_singleton_Some in Hq as [Hq <-]. assert (q = p) as -> by lia. simplify_eq. right. exists t.
        apply list_lookup_insert_eq. by eapply lookup_lt_Some.
Qed.

Lemma recorded_store ths cur rd res fp wr reports t p i result :
  well_ordered → held ths cur rd → recorded ths cur rd res fp wr reports → ths !! t = Some (StoreResult p i result) →
  recorded (<[t := FinishReport p i]> ths) cur rd (<[i := result]> res) fp wr reports.
Proof.
  intros Hwo Hheld [Hd Hh Hn Hf Hw] Ht. assert (holds ths t (StoreResult p i result) p i) as Hx0 by done.
  destruct (a_held _ _ _ Hheld _ _ _ _ Hx0) as [Hp Hi].
  assert (∀ t' pc q j, t' ≠ t → holds ths t' pc q j → j ≠ i) as Hother.
  { intros t' pc q j Hne Hx ->. by destruct (held_by _ _ _ _ _ _ _ _ _ _ Hwo Hheld Hx0 Hx). }
  constructor.
  - intros j Hj. destruct (decide (j = i)) as [->|]; [rewrite lookup_insert_eq; by eexists|].
    rewrite lookup_insert_ne by done. by apply Hd.
  - intros t' pc q j [(-> & -> & Heq)|[Hne Hx]]%(holds_insert _ _ (StoreResult p i result)) Hr; [| |done].
    + cbn in Heq. simplify_eq. rewrite lookup_insert_eq. by eexists.
    + rewrite lookup_insert_ne by (intros ->; by eapply Hother). by eapply Hh.
  - intros t' pc q j [(-> & -> & Heq)|[Hne Hx]]%(holds_insert _ _ (StoreResult p i result)) Hr; [cbn in Hr; lia| |done].
    rewrite lookup_insert_ne by (intros ->; by eapply Hother). by eapply Hn.
  - intros q j Hq Hle. rewrite lookup_insert_ne; [by eapply Hf|]. intros ->.
    assert (q = p) as -> by (destruct Hwo; by eapply NoDup_lookup). lia.
  - intros (rs & Hlen & Hwr & Hrs)%Hw. exists rs. split_and!; [done|done|]. intros q j r Hq Hj.
    destruct (decide (j = i)) as [->|Hne].
    + left. rewrite lookup_insert_eq. destruct (Hrs q i r Hq Hj) as [Hr|[t' Hx]].
      * assert (res !! i = None) as Hnone by (eapply Hn; [exact Hx0|cbn; lia]). congruence.
      * destruct (held_by ths cur rd _ _ _ _ t' (StoreResult q i r) q Hwo Hheld Hx0) as (_ & Heq & _); [done|]. by simplify_eq.
    + rewrite lookup_insert_ne by done. destruct (Hrs q j r Hq Hj) as [|[t' Hx]]; [by left|right]. exists t'.
      rewrite list_lookup_insert_ne; [done|]. intros ->. simplify_eq.
Qed.

Lemma recorded_finish ths cur rd res fp wr reports t p i :
  recorded ths cur rd res fp wr reports → ths !! t = Some (FinishReport p i) →
  recorded (<[t := Fetch]> ths) cur ({[i]} ∪ rd) res fp wr reports.
Proof.
  intros [Hd Hh Hn Hf Hw] Ht. assert (holds ths t (FinishReport p i) p i) as Hx0 by done. constructor; [| | |done|].
  - intros j. rewrite elem_of_union, elem_of_singleton. intros [->|]; [by eapply Hh|by apply Hd].
  - intros t' pc q j [Hne Hx]%(holds_idle _ _ (FinishReport p i)) Hr; [by eauto|done|done].
  - intros t' pc q j [Hne Hx]%(holds_idle _ _ (FinishReport p i)) Hr; [by eauto|done|done].
  - intros (rs & Hlen & Hwr & Hrs)%Hw. exists rs. split_and!; [done|done|]. intros q j r Hq Hj.
    destruct (Hrs q j r Hq Hj) as [|[t' Hx]]; [by left|right]. exists t'. rewrite list_lookup_insert_ne; [done|].
    intros ->. by simplify_eq.
Qed.
End Inv.
