(* ===== verification/BuildRunEnds.v ===== *)
(** The builders of [crates/tsr_build/src/lib.rs]: projects are built after those they wait
    for and reported in the order of the graph, and the builders always come to an end.

    The builders of [crates/tsr_build/src/lib.rs] over a graph of [graph.rs]: what they
    promise while they run, that none of them is stuck, and that they come to an end. *)

From stdpp Require Import gmap sets relations.
From S2P Require Import Prelude PathComponents BuildGraph BuildGraphSpec BuildGraphFound BuildRun BuildRunInv.

Local Open Scope nat_scope.

#[local] Existing Instance eta_shared.

Section Spec.
Context {TaskResult Error Panic : Type}.
Context (output : TaskResult → bytes) (skipped : TaskResult).
Context (L : list nat) (ups : nat → list nat) (watch : bool).

Notation Pc := (Pc (TaskResult := TaskResult) (Error := Error) (Panic := Panic)).
Notation Shared := (Shared (TaskResult := TaskResult) (Error := Error) (Panic := Panic)).
Notation step := (step output skipped L ups watch).
Notation run_step := (run_step output skipped L ups watch).
Implicit Types (pc : Pc) (s : Shared) (t p i u : nat).

Definition reported (e : Event) : option nat := match e with Reported i => Some i | _ => None end.
Definition reports s : list nat := omap reported (history s).

(** A sleeper waits for what is not set. *)
Definition sleeping (ths : list Pc) (dn rd asl : gset nat) : Prop :=
  ∀ t, t ∈ asl → ∃ pc c, ths !! t = Some pc ∧ waits_on L pc = Some c
    ∧ match c with Done i => i ∉ dn | ReportDone i => i ∉ rd end.

Record ok s : Prop := {
  ok_held : held L (threads s) (current s) (report_done s);
  ok_built : built ups (threads s) (done_ s) (report_done s) (history s);
  ok_reporting : reporting L (threads s) (current s) (report_done s) (reports s);
  ok_recorded : recorded L output (threads s) (current s) (report_done s) (results s) (first_panic s) (written s) (reports s);
  ok_sleeping : sleeping (threads s) (done_ s) (report_done s) (asleep s);
}.

Lemma start_ok n : ok (start n).
Proof.
  constructor; [apply held_start|apply built_start|apply reporting_start|apply recorded_start|].
  by intros t ?%elem_of_empty.
Qed.

Lemma reports_snoc s e : omap reported (history s ++ [e]) = reports s ++ option_list (reported e).
Proof. rewrite omap_app. cbn. by destruct (reported e). Qed.

(** ** Sleepers *)

Lemma sleeping_move ths dn rd asl t pc0 pc1 :
  sleeping ths dn rd asl → ths !! t = Some pc0 → waits_on L pc0 = None ∨ t ∉ asl → sleeping (<[t := pc1]> ths) dn rd asl.
Proof.
  intros Hs Ht Hno t' Hin. destruct (Hs t' Hin) as (pc & c & Hl & Hw & Hc). exists pc, c. split_and!; [|done|done].
  rewrite list_lookup_insert_ne; [done|]. intros ->. simplify_eq. destruct Hno; [congruence|done].
Qed.

Lemma notify_all_sleeping c s :
  sleeping (threads s) (done_ s) (report_done s) (asleep s) →
  let s' := finish L c s in
  sleeping (threads s') (done_ s') (report_done s') (asleep s').
Proof.
  intros Hs s' t Hin. assert (threads s' = threads s) as Ht by (by destruct c). rewrite Ht.
  assert (t ∈ asleep s ∧ (threads s !! t ≫= waits_on L) ≠ Some c) as [Ha Hne].
  { destruct c; apply elem_of_filter in Hin as [? ?]; done. }
  destruct (Hs t Ha) as (pc & c' & Hl & Hw & Hc). exists pc, c'. split_and!; [done|done|].
  rewrite Hl in Hne. cbn in Hne. rewrite Hw in Hne.
  destruct c as [i|i], c' as [j|j]; cbn; rewrite ?elem_of_union, ?elem_of_singleton; try done; intros [->|?]; done.
Qed.

(** ** Every step keeps the invariant *)

(** A step inside the work on a project, up to the report. *)
Lemma ok_move s s' t pc0 pc1 p i :
  ok s → threads s !! t = Some pc0 → pc_at pc0 = Some (p, i) → pc_at pc1 = Some (p, i) →
  rank pc0 < 7 → rank pc1 < 7 → (6 <= rank pc0 ↔ 6 <= rank pc1) → (3 <= rank pc0 → 3 <= rank pc1) →
  (∀ u, u ∈ ups i → u ∈ done_ s ∨ u ∈ rest_of pc1) → (∀ u, u ∈ rest_of pc1 → u ∈ rest_of pc0) →
  waits_on L pc0 = None ∨ t ∉ asleep s →
  threads s' = <[t := pc1]> (threads s) → current s' = current s → report_done s' = report_done s → done_ s' = done_ s →
  history s' = history s → results s' = results s → written s' = written s → asleep s' = asleep s →
  (first_panic s' = None → first_panic s = None) → ok s'.
Proof.
  intros [A B C D F] Ht H0 H1 R0 R1 H6 H3 Hup Hrest Hno Et Ec Er Ed Eh Ers Ew Ea Hfp.
  constructor; unfold reports; rewrite ?Et, ?Ec, ?Er, ?Ed, ?Eh, ?Ers, ?Ew, ?Ea.
  - by apply (held_move L _ _ _ t pc0 pc1 p i).
  - by apply (built_pc ups _ _ _ _ t pc0 pc1 p i).
  - apply (reporting_move L _ _ _ _ t pc0 pc1 p i); try done. by left.
  - apply (recorded_move L output _ _ _ _ (first_panic s) _ _ _ t pc0 pc1 p i); try done; lia.
  - by apply (sleeping_move _ _ _ _ t pc0 pc1).
Qed.

Lemma built_upstream_done s t pc p i :
  ok s → holds (threads s) t pc p i → rest_of pc = [] → ∀ u, u ∈ ups i → u ∈ done_ s.
Proof.
  intros Hok Hx Hr u Hin. destruct (b_upstream _ _ _ _ _ (ok_built _ Hok) _ _ _ _ _ Hx Hin) as [|Hin']; [done|].
  rewrite Hr in Hin'. by apply elem_of_nil in Hin'.
Qed.

Ltac move_on pc0 pc1 :=
  eapply (ok_move _ _ _ pc0 pc1); try done; cbn; try lia; try (by left); try (by intros ? ?%elem_of_nil);
  try (intros ? ?; left; eapply built_upstream_done; [done|by split|done|done]).

Lemma wait_ok t pc c s :
  well_ordered L ups → ok s → threads s !! t = Some pc → waits_on L pc = Some c → t ∉ asleep s → ok (wait t pc c s).
Proof.
  intros Hwo Hok Ht Hw Ha. unfold wait. destruct (is_set c s) eqn:Hset.
  - destruct pc as [| p i [|u rest]| | | | |[|p] i result| | | |]; try done; cbn in Hw.
    + injection Hw as <-. cbn in Hset. apply bool_decide_eq_true in Hset.
      eapply (ok_move _ _ _ (AwaitUpstream p i (u :: rest)) (AwaitUpstream p i rest)); try done; cbn; try lia; [| |by right].
      * intros v Hin. destruct (b_upstream _ _ _ _ _ (ok_built _ Hok) t (AwaitUpstream p i (u :: rest)) p i v) as [|Hv]; [done|done|by left|].
        cbn in Hv. apply elem_of_cons in Hv as [->|]; [by left|by right].
      * intros v Hin. by right.
    + destruct (L !! p) as [j|] eqn:Hj; [|done]. injection Hw as <-. cbn in Hset. apply bool_decide_eq_true in Hset.
      destruct Hok as [A B C D F]. constructor; unfold reports; cbn.
      * by apply (held_move L _ _ _ t (AwaitReport (S p) i result) _ (S p) i).
      * apply (built_pc ups _ _ _ _ t (AwaitReport (S p) i result) _ (S p) i); try done; cbn; try lia.
        intros v Hin. left. by eapply (built_upstream_done s t (AwaitReport (S p) i result)).
      * eapply reporting_enter; [done..|]. intros q [= <-]. by exists j.
      * apply (recorded_move L output _ _ _ _ (first_panic s) _ _ _ t (AwaitReport (S p) i result) _ (S p) i); try done; cbn; lia.
      * apply (sleeping_move _ _ _ _ t (AwaitReport (S p) i result)); [done..|by right].
  - destruct Hok as [A B C D F]. constructor; cbn; try done. intros t' Hin.
    apply elem_of_union in Hin as [->%elem_of_singleton|Hin]; [|by apply F].
    exists pc, c. split_and!; [done|done|]. destruct c; cbn in Hset; by apply bool_decide_eq_false in Hset.
Qed.

Lemma record_ok t p i outcome s :
  ok s → threads s !! t = Some (Returned p i outcome) → ok (record skipped p i outcome t s).
Proof.
  intros Hok Ht. assert (∀ pc1 u, u ∈ ups i → u ∈ done_ s ∨ u ∈ rest_of pc1) as Hup.
  { intros pc1 u Hin. left. by eapply (built_upstream_done s t (Returned p i outcome)). }
  destruct outcome as [result|error|panic]; cbn.
  - move_on (Returned (Error := Error) (Panic := Panic) p i (Completed result)) (Settle (Error := Error) (Panic := Panic) p i result).
  - move_on (Returned (TaskResult := TaskResult) (Panic := Panic) p i (Failed error)) (Settle (Error := Error) (Panic := Panic) p i skipped).
  - move_on (Returned (TaskResult := TaskResult) (Error := Error) p i (Panicked panic)) (Settle (Error := Error) (Panic := Panic) p i skipped).
    by destruct (first_panic s).
Qed.

Lemma fetch_ok t s : well_ordered L ups → ok s → threads s !! t = Some Fetch → ok (fetch L ups t s).
Proof.
  intros Hwo [A B C D F] Ht. unfold fetch. cbn. destruct (L !! current s) as [i|] eqn:Hi.
  - constructor; cbn.
    + by apply held_claim with (ups := ups).
    + by apply built_claim.
    + by apply reporting_claim.
    + eapply recorded_next; [done|done| |cbn; lia]. intros p j [= <- <-]. done.
    + apply (sleeping_move _ _ _ _ t Fetch); [done|done|by left].
  - constructor; cbn.
    + by apply held_exit.
    + by apply built_exit.
    + apply (reporting_idle L _ (current s) _ _ _ t Fetch); [done|done|done|lia].
    + eapply recorded_next; [done|done|done|cbn; lia].
    + apply (sleeping_move _ _ _ _ t Fetch); [done|done|by left].
Qed.

Lemma run_ok t p i outcome s :
  well_ordered L ups → ok s → threads s !! t = Some (RunTask p i) → ok (goto t (Returned p i outcome) (note (Began i) s)).
Proof.
  intros Hwo [A B C D F] Ht. constructor; unfold reports; cbn; rewrite ?reports_snoc, ?app_nil_r.
  - by apply (held_move L _ _ _ t (RunTask p i) _ p i).
  - by apply (built_run L ups _ (current s)).
  - apply (reporting_move L _ _ _ _ t (RunTask p i) _ p i); try done. cbn. left. lia.
  - apply (recorded_move L output _ _ _ _ (first_panic s) _ _ _ t (RunTask p i) _ p i); try done; cbn; lia.
  - apply (sleeping_move _ _ _ _ t (RunTask p i)); [done|done|by left].
Qed.

Lemma finish_done_ok t p i result s :
  well_ordered L ups → ok s → threads s !! t = Some (FinishDone p i result) →
  ok (finish L (Done i) (goto t (AwaitReport p i result) (note (Ended i) s))).
Proof.
  intros Hwo [A B C D F] Ht. constructor; [| | | |apply notify_all_sleeping; cbn]; unfold reports; cbn;
    rewrite ?reports_snoc, ?app_nil_r.
  - by apply (held_move L _ _ _ t (FinishDone p i result) _ p i).
  - by apply (built_end L ups _ (current s)).
  - apply (reporting_move L _ _ _ _ t (FinishDone p i result) _ p i); try done. cbn. left. lia.
  - apply (recorded_move L output _ _ _ _ (first_panic s) _ _ _ t (FinishDone p i result) _ p i); try done; cbn; lia.
  - apply (sleeping_move _ _ _ _ t (FinishDone p i result)); [done|done|by left].
Qed.

Lemma first_ok t i result s :
  ok s → threads s !! t = Some (AwaitReport 0 i result) → ok (goto t (Report 0 i result) s).
Proof.
  intros Hok Ht. pose proof Hok as [A B C D F]. constructor; unfold reports; cbn.
  - by apply (held_move L _ _ _ t (AwaitReport 0 i result) _ 0 i).
  - apply (built_pc ups _ _ _ _ t (AwaitReport 0 i result) _ 0 i); try done; cbn; try lia.
    intros v Hin. left. by eapply (built_upstream_done s t (AwaitReport 0 i result)).
  - by eapply reporting_enter.
  - apply (recorded_move L output _ _ _ _ (first_panic s) _ _ _ t (AwaitReport 0 i result) _ 0 i); try done; cbn; lia.
  - apply (sleeping_move _ _ _ _ t (AwaitReport 0 i result)); [done|done|by left].
Qed.

(** A report, with what has been written and whether it panicked. *)
Lemma report_ok t p i result s s' :
  ok s → threads s !! t = Some (Report p i result) →
  threads s' = <[t := StoreResult p i result]> (threads s) → current s' = current s → report_done s' = report_done s →
  done_ s' = done_ s → history s' = history s ++ [Reported i] → results s' = results s → asleep s' = asleep s →
  (first_panic s' = None → first_panic s = None ∧ written s' = written s ++ output result) → ok s'.
Proof.
  intros Hok Ht Et Ec Er Ed Eh Ers Ea Hfp. pose proof Hok as [A B C D F].
  constructor; unfold reports; rewrite ?Et, ?Ec, ?Er, ?Ed, ?Eh, ?Ers, ?Ea, ?reports_snoc; cbn.
  - by apply (held_move L _ _ _ t (Report p i result) _ p i).
  - apply built_reported, (built_pc ups _ _ _ _ t (Report p i result) _ p i); try done; cbn; try lia.
    intros v Hin. left. by eapply (built_upstream_done s t (Report p i result)).
  - by apply (reporting_report L _ _ _ _ t p i result).
  - by apply (recorded_report L output _ _ _ _ (first_panic s) _ (written s)).
  - apply (sleeping_move _ _ _ _ t (Report p i result)); [done|done|by left].
Qed.

Lemma store_ok t p i result s :
  well_ordered L ups → ok s → threads s !! t = Some (StoreResult p i result) →
  ok (goto t (FinishReport p i) (s <| results := <[i := result]> (results s) |>)).
Proof.
  intros Hwo Hok Ht. pose proof Hok as [A B C D F]. constructor; unfold reports; cbn.
  - by apply (held_move L _ _ _ t (StoreResult p i result) _ p i).
  - apply (built_pc ups _ _ _ _ t (StoreResult p i result) _ p i); try done; cbn; try lia.
    intros v Hin. left. by eapply (built_upstream_done s t (StoreResult p i result)).
  - apply (reporting_move L _ _ _ _ t (StoreResult p i result) _ p i); try done. cbn. right. lia.
  - by apply (recorded_store L ups output).
  - apply (sleeping_move _ _ _ _ t (StoreResult p i result)); [done|done|by left].
Qed.

Lemma finish_report_ok t p i s :
  well_ordered L ups → ok s → threads s !! t = Some (FinishReport p i) → ok (finish L (ReportDone i) (goto t Fetch s)).
Proof.
  intros Hwo [A B C D F] Ht. constructor; [| | | |apply notify_all_sleeping; cbn]; unfold reports; cbn.
  - by apply (held_finish L ups _ _ _ t p).
  - by apply (built_finish L ups _ (current s) _ _ _ t p).
  - by apply (reporting_finish L ups _ _ _ _ t p).
  - by apply (recorded_finish L output _ _ _ _ _ _ _ t p).
  - apply (sleeping_move _ _ _ _ t (FinishReport p i)); [done|done|by left].
Qed.

Lemma step_ok s s' : well_ordered L ups → ok s → step s s' → ok s'.
Proof.
  intros Hwo Hok. destruct 1 as [t Ht|t pc c Ht Hw Ha|t p i Ht|t p i outcome Ht|t p i Ht _|t p i outcome Ht|t p i result Ht
    |t p i result Ht|t i result Ht|t p i result Ht|t p i result n panic Ht|t p i result Ht|t p i Ht].
  - by apply fetch_ok.
  - by apply wait_ok.
  - move_on (AwaitUpstream (TaskResult := TaskResult) (Error := Error) (Panic := Panic) p i [])
      (RunTask (TaskResult := TaskResult) (Error := Error) (Panic := Panic) p i).
  - by apply run_ok.
  - move_on (RunTask (TaskResult := TaskResult) (Error := Error) (Panic := Panic) p i)
      (Settle (Error := Error) (Panic := Panic) p i skipped).
  - by apply record_ok.
  - move_on (Settle (Error := Error) (Panic := Panic) p i result) (FinishDone (Error := Error) (Panic := Panic) p i result).
  - by apply finish_done_ok.
  - by apply first_ok.
  - by eapply report_ok.
  - eapply report_ok; try done. cbn. by destruct (first_panic s).
  - by apply store_ok.
  - by eapply finish_report_ok.
Qed.

Lemma run_step_ok s s' : well_ordered L ups → ok s → run_step s s' → ok s'.
Proof.
  intros Hwo Hok [s1 Hs|t Ht]; [by eapply step_ok|]. destruct Hok as [A B C D F]. constructor; try done.
  intros t' Hin. apply F. set_solver.
Qed.

Lemma reachable_ok n s : well_ordered L ups → reachable output skipped L ups watch n s → ok s.
Proof.
  intros Hwo. unfold reachable. intros Hr. assert (ok (start (Error := Error) (Panic := Panic) n)) as Hok by apply start_ok.
  revert Hok. induction Hr; [done|]. intros Hok. by eapply IHHr, run_step_ok.
Qed.
End Spec.

(** * Progress and the end *)

Section Ends.
Context {TaskResult Error Panic : Type}.
Context (output : TaskResult → bytes) (skipped : TaskResult).
Context (L : list nat) (ups : nat → list nat) (watch : bool).

Notation Pc := (Pc (TaskResult := TaskResult) (Error := Error) (Panic := Panic)).
Notation Shared := (Shared (TaskResult := TaskResult) (Error := Error) (Panic := Panic)).
Notation step := (step output skipped L ups watch).
Notation ok := (ok output L ups).
Implicit Types (pc : Pc) (s : Shared) (t p i u : nat).

(** ** Nobody is stuck *)

(** A step of builder [t]: its own place in the loop changes. *)
Definition moves t s s' : Prop := step s s' ∧ threads s' !! t ≠ threads s !! t.

Lemma goto_moves t pc0 pc1 s : threads s !! t = Some pc0 → pc1 ≠ pc0 → <[t := pc1]> (threads s) !! t ≠ threads s !! t.
Proof. intros Ht Hne. rewrite list_lookup_insert_eq by (by eapply lookup_lt_Some). rewrite Ht. congruence. Qed.

Ltac goes rule := eexists; split; [by eapply rule|cbn; by eapply goto_moves].

Lemma free_moves t pc p i s (outcome : Outcome (TaskResult := TaskResult) (Error := Error) (Panic := Panic)) :
  ok s → holds (threads s) t pc p i → waits_on L pc = None → ∃ s', moves t s s'.
Proof.
  intros Hok [Ht Hp] Hw. destruct pc as [| q j [|u rest]| q j|q j out|q j res|q j res|[|q] j res|q j res|q j res|q j|]; try done.
  - goes @step_upstream_done.
  - exists (goto t (Returned q j outcome) (note (Began j) s)). split; [by eapply step_run|cbn; by eapply goto_moves].
  - eexists. split; [by eapply step_record|]. destruct out; cbn; by eapply goto_moves.
  - goes @step_settle.
  - goes @step_finish_done.
  - goes @step_first.
  - cbn in Hw. injection Hp as <- <-. destruct (a_held _ _ _ _ (ok_held _ _ _ _ Hok) t (AwaitReport (S q) j res) (S q) j) as [_ Hl]; [done|].
    destruct (lookup_lt_is_Some_2 L q) as [k Hk]; [apply lookup_lt_Some in Hl; lia|]. by rewrite Hk in Hw.
  - goes @step_report.
  - goes @step_store.
  - goes @step_finish_report.
Qed.

(** Whoever holds a project can go on, or somebody with an earlier project can. *)
Lemma holder_moves s (outcome : Outcome (TaskResult := TaskResult) (Error := Error) (Panic := Panic)) :
  well_ordered L ups → ok s →
  ∀ p t pc i, holds (threads s) t pc p i → ∃ t' pc' p' i' s', holds (threads s) t' pc' p' i' ∧ moves t' s s'.
Proof.
  intros Hwo Hok p. pose proof Hok as [A B C D F].
  induction p as [p IH] using (well_founded_induction lt_wf). intros t pc i Hx.
  destruct (waits_on L pc) as [c|] eqn:Hw; [|destruct (free_moves t pc p i s outcome) as [s' Hs']; [done..|by exists t, pc, p, i, s']].
  destruct (is_set c s) eqn:Hset.
  - exists t, pc, p, i, (wait t pc c s). split; [done|]. destruct Hx as [Ht Hp]. split.
    + apply step_wait; [done|done|]. intros (pc' & c' & Ht' & Hw' & Hc)%F. simplify_eq.
      destruct c; cbn in Hset; by apply bool_decide_eq_true in Hset.
    + unfold wait. rewrite Hset. cbn. eapply goto_moves; [done|].
      destruct pc as [|q j [|u rest]| | | | |[|q] j res| | | |]; try done. cbn. intros [= Heq%(f_equal length)]. cbn in Heq. lia.
  - destruct (a_held _ _ _ _ A _ _ _ _ Hx) as [Hcur Hi].
    assert (∃ q j, q < p ∧ L !! q = Some j ∧ j ∉ report_done s) as (q & j & Hq & Hj & Hnr).
    { destruct Hx as [Ht Hp]. destruct pc as [|q j [|u rest]| | | | |[|q] j res| | | |]; try done; cbn in Hw, Hp; simplify_eq.
      - destruct (proj2 Hwo p i u Hi) as (q & Hq & Hu).
        { eapply (b_rest _ _ _ _ _ B t); [by split|by left]. }
        exists q, u. split_and!; [done|done|]. cbn in Hset. apply bool_decide_eq_false in Hset.
        intros Hin. apply Hset, (b_done _ _ _ _ _ B). by left.
      - destruct (L !! q) as [k|] eqn:Hk; [|done]. injection Hw as <-. exists q, k. split_and!; [lia|done|].
        cbn in Hset. by apply bool_decide_eq_false in Hset. }
    destruct (a_claimed _ _ _ _ A q j) as [|(t' & pc' & Hx')]; [lia|done|done|]. by eapply (IH q Hq t' pc' j).
Qed.

(** ** The builders come to an end *)

(** What a builder still has to do; finishing a completion pays for those it wakes. *)
Definition cost (n : nat) pc : nat :=
  match pc with
  | Exited => 0
  | Fetch => 1
  | FinishReport _ _ => n + 2
  | StoreResult _ _ _ => n + 3
  | Report _ _ _ => n + 4
  | AwaitReport _ _ _ => n + 5
  | FinishDone _ _ _ => 2 * n + 6
  | Settle _ _ _ => 2 * n + 7
  | Returned _ _ _ => 2 * n + 8
  | RunTask _ _ => 2 * n + 9
  | AwaitUpstream _ _ rest => 2 * n + 10 + length rest
  end.

Definition budget (n : nat) (i : nat) : nat := 2 * n + 10 + length (ups i).

Definition weight s : nat :=
  let n := length (threads s) in
  sum_list (cost n <$> threads s) + (n - size (asleep s)) + sum_list (budget n <$> drop (current s) L).

Lemma sum_list_insert (f : Pc → nat) ths t pc0 pc1 :
  ths !! t = Some pc0 → sum_list (f <$> <[t := pc1]> ths) + f pc0 = sum_list (f <$> ths) + f pc1.
Proof.
  revert t; induction ths as [|pc ths IH]; intros [|t] Ht; simplify_eq/=; [lia|]. specialize (IH _ Ht). cbn in IH. lia.
Qed.

Lemma asleep_bound s : sleeping L (threads s) (done_ s) (report_done s) (asleep s) → size (asleep s) <= length (threads s).
Proof.
  intros Hs. transitivity (size (set_seq (C := gset nat) 0 (length (threads s)))); [|by rewrite size_set_seq].
  apply subseteq_size. intros t (pc & c & Ht & _)%Hs. apply elem_of_set_seq. pose proof (lookup_lt_Some _ _ _ Ht). lia.
Qed.

(** A step that moves one builder and wakes nobody. *)
Lemma weight_move s s' t pc0 pc1 :
  threads s !! t = Some pc0 → threads s' = <[t := pc1]> (threads s) → current s' = current s → asleep s' = asleep s →
  cost (length (threads s)) pc1 < cost (length (threads s)) pc0 → weight s' < weight s.
Proof.
  intros Ht Et Ec Ea Hc. unfold weight. rewrite Et, Ec, Ea, length_insert.
  pose proof (sum_list_insert (cost (length (threads s))) _ _ _ pc1 Ht). lia.
Qed.

(** A step that finishes a completion. *)
Lemma weight_finish s s' t pc0 pc1 c :
  threads s !! t = Some pc0 → threads s' = <[t := pc1]> (threads s) → current s' = current s →
  cost (length (threads s)) pc1 + length (threads s) < cost (length (threads s)) pc0 → weight (finish L c s') < weight s.
Proof.
  intros Ht Et Ec Hc. unfold weight. assert (threads (finish L c s') = threads s') as -> by (by destruct c).
  assert (current (finish L c s') = current s') as -> by (by destruct c). rewrite Et, Ec, length_insert.
  pose proof (sum_list_insert (cost (length (threads s))) _ _ _ pc1 Ht). lia.
Qed.

Lemma step_weight s s' : ok s → step s s' → weight s' < weight s.
Proof.
  intros Hok. pose proof (asleep_bound _ (ok_sleeping _ _ _ _ Hok)) as Hsz. set (n := length (threads s)) in *.
  destruct 1 as [t Ht|t pc c Ht Hw Ha|t p i Ht|t p i out Ht|t p i Ht _|t p i out Ht|t p i result Ht
    |t p i result Ht|t i result Ht|t p i result Ht|t p i result k panic Ht|t p i result Ht|t p i Ht].
  - unfold weight, fetch. cbn. pose proof (sum_list_insert (cost n) _ _ _ Exited Ht) as He. cbn in He.
    destruct (L !! current s) as [i|] eqn:Hi; cbn; rewrite length_insert; fold n.
    + pose proof (sum_list_insert (cost n) _ _ _ (AwaitUpstream (current s) i (ups i)) Ht) as Hs. cbn in Hs.
      rewrite (drop_S L i (current s)) by done. cbn. unfold budget. lia.
    + rewrite !drop_ge by (apply lookup_ge_None in Hi; lia). cbn. lia.
  - unfold wait. destruct (is_set c s).
    + eapply weight_move; [done..|]. destruct pc as [|q j [|u rest]| | | | |[|q] j res| | | |]; try done; cbn; lia.
    + unfold weight. cbn. fold n. rewrite size_union, size_singleton by set_solver.
      assert (size ({[t]} ∪ asleep s) <= n) as Hle; [|rewrite size_union, size_singleton in Hle by set_solver; lia].
      transitivity (size (set_seq (C := gset nat) 0 n)); [|by rewrite size_set_seq]. apply subseteq_size. intros t'.
      rewrite elem_of_union, elem_of_singleton, elem_of_set_seq.
      intros [->|(pc' & c' & Ht' & _)%(ok_sleeping _ _ _ _ Hok)]; [apply lookup_lt_Some in Ht|apply lookup_lt_Some in Ht']; unfold n; lia.
  - eapply weight_move; [done..|cbn; lia].
  - eapply weight_move; [done..|cbn; lia].
  - eapply weight_move; [done..|cbn; lia].
  - destruct out; (eapply weight_move; [done..|cbn; lia]).
  - eapply weight_move; [done..|cbn; lia].
  - eapply weight_finish; [done..|cbn; fold n; lia].
  - eapply weight_move; [done..|cbn; lia].
  - eapply weight_move; [done..|cbn; lia].
  - eapply weight_move; [done..|cbn; lia].
  - eapply weight_move; [done..|cbn; lia].
  - eapply weight_finish; [done..|cbn; fold n; lia].
Qed.

Lemma steps_weight k s s' : well_ordered L ups → ok s → nsteps step k s s' → k + weight s' <= weight s.
Proof.
  intros Hwo Hok Hn. revert Hok. induction Hn as [s|k s s1 s' Hs Hn IH]; intros Hok; [done|].
  specialize (IH (step_ok _ _ _ _ _ _ _ Hwo Hok Hs)). pose proof (step_weight _ _ Hok Hs). lia.
Qed.

(** ** The end *)

Lemma final_state s :
  ok s → final s → 0 < length (threads s) →
  reports s = L ∧ (∀ i, i ∈ L → is_Some (results s !! i))
  ∧ (first_panic s = None → written s = concat (from_option output [] <$> ((λ i, results s !! i) <$> L))).
Proof.
  intros [A B C D F] Hfin Hpos.
  assert (∀ t pc p i, ¬ holds (threads s) t pc p i) as Hno by (intros t pc p i [Ht Hp]; by rewrite (Hfin t pc Ht) in Hp).
  assert (length L <= current s) as Hcur.
  { destruct (lookup_lt_is_Some_2 (threads s) 0 Hpos) as [pc Ht]. apply (a_exit _ _ _ _ A 0). by rewrite Ht, (Hfin 0 pc Ht). }
  assert (∀ p i, L !! p = Some i → i ∈ report_done s) as Hall.
  { intros p i Hi. destruct (a_claimed _ _ _ _ A p i) as [|(t & pc & ?%Hno)]; [|done|done|done].
    apply lookup_lt_Some in Hi. lia. }
  assert (length L <= length (reports s)) as Hlen.
  { destruct (decide (length L = 0)) as [|Hne]; [lia|].
    destruct (lookup_lt_is_Some_2 L (pred (length L))) as [i Hi]; [lia|].
    pose proof (d_done _ _ _ _ _ C _ _ (Hall _ _ Hi) Hi). lia. }
  assert (reports s = L) as HR by (rewrite (d_prefix _ _ _ _ _ C); by apply take_ge).
  split_and!; [done| |].
  - intros i [p Hp]%list_elem_of_lookup. apply (e_done _ _ _ _ _ _ _ _ _ D). by eapply Hall.
  - intros (rs & Hlrs & -> & Hrs)%(e_written _ _ _ _ _ _ _ _ _ D). f_equal. rewrite HR in Hlrs.
    apply list_eq. intros p. rewrite !list_lookup_fmap. destruct (L !! p) as [i|] eqn:Hi.
    + destruct (lookup_lt_is_Some_2 rs p) as [r Hr]; [apply lookup_lt_Some in Hi; lia|]. rewrite Hr. cbn.
      destruct (Hrs p i r Hr Hi) as [->|[t Ht]]; [done|]. by apply Hfin in Ht.
    + rewrite (lookup_ge_None_2 rs p); [done|]. apply lookup_ge_None in Hi. lia.
Qed.
End Ends.

(** ** Over the graph *)

Section Build.
Context `{CaseTables} {Info E TaskResult Error Panic : Type}.
Context (host : BuildHost) (read : bytes → result E (option ParsedCommandLine)) (roots : list bytes).
Context (old : gmap bytes (BuildTask (Info := Info))) (initial watch : bool).
Context (output : TaskResult → bytes) (skipped : TaskResult).

Notation Shared := (Shared (TaskResult := TaskResult) (Error := Error) (Panic := Panic)).
Notation generated fuel o := (generate_graph_with_tasks host watch read fuel roots old initial = Some (o, Ok ())).

(** [tasks[index].upstream], as indices. *)
Definition upstream_tasks (o : Orchestrator (Info := Info)) (i : nat) : list nat := (upstream_of (MkSetup o ∅ ∅ []) i).*1.

Notation builds o := (reachable output skipped (order_indices o) (upstream_tasks o) watch).
Notation build_step o := (step output skipped (order_indices o) (upstream_tasks o) watch).

Lemma graph_well_ordered fuel o : keyed host old → generated fuel o → well_ordered (order_indices o) (upstream_tasks o).
Proof.
  intros Hkey Hg. destruct (generate_done _ _ _ _ _ _ _ _ Hkey Hg) as (sch & o1 & s & _ & -> & [Hs _] & _ & _).
  split; [apply (inv_nodup _ _ _ _ Hs)|]. intros p i u Hp Hu. apply list_elem_of_fmap in Hu as ([j k] & -> & Hu). cbn.
  assert (j ∈ take p (order_indices (orch s))) as Hin.
  { apply (inv_before _ _ _ _ Hs _ i (drop (S p) (order_indices (orch s))) j k); [|done]. symmetry. by apply take_drop_middle. }
  apply list_elem_of_lookup in Hin as [q Hq]. apply lookup_take_Some in Hq as [Hq Hlt]. by exists q.
Qed.

(** [C6] While any number of builders works on a graph, in any interleaving: no project is
    begun twice; when one is begun, all it waits for have ended before; and the reports that
    are out are those of the first projects of the order, in that order. *)
Theorem builders_respect_graph fuel o n (s : Shared) :
  keyed host old → generated fuel o → builds o n s →
  NoDup (omap began (history s))
  ∧ (∀ h1 i h2 u, history s = h1 ++ Began i :: h2 → u ∈ upstream_tasks o i → Ended u ∈ h1)
  ∧ omap reported (history s) `prefix_of` order_indices o.
Proof.
  intros Hkey Hg Hr. pose proof (graph_well_ordered _ _ Hkey Hg) as Hwo.
  destruct (reachable_ok _ _ _ _ _ _ _ Hwo Hr) as [_ B C _ _]. split_and!.
  - apply (b_once _ _ _ _ _ B).
  - apply (b_before _ _ _ _ _ B).
  - change (omap reported (history s)) with (reports s). rewrite (d_prefix _ _ _ _ _ C). apply prefix_take.
Qed.

(** [C7] The builders are never stuck: while one of them has a project, one that has a
    project can go on, whatever the others do; and unless all have left their loops some step
    can be taken. Every sequence of steps ends, apart from wakeups for nothing: each lowers
    [weight]. *)
Theorem builders_progress fuel o n (s : Shared) (outcome : Outcome (TaskResult := TaskResult) (Error := Error) (Panic := Panic)) :
  keyed host old → generated fuel o → builds o n s →
  (∀ t pc p i, holds (threads s) t pc p i → ∃ t' pc' p' i' s', holds (threads s) t' pc' p' i'
     ∧ build_step o s s' ∧ threads s' !! t' ≠ threads s !! t')
  ∧ (final s ∨ ∃ s', build_step o s s')
  ∧ ∀ k s', nsteps (build_step o) k s s' → k <= weight (order_indices o) (upstream_tasks o) s.
Proof.
  intros Hkey Hg Hr. pose proof (graph_well_ordered _ _ Hkey Hg) as Hwo. pose proof (reachable_ok _ _ _ _ _ _ _ Hwo Hr) as Hok.
  assert (∀ t pc p i, holds (threads s) t pc p i → ∃ t' pc' p' i' s', holds (threads s) t' pc' p' i'
     ∧ build_step o s s' ∧ threads s' !! t' ≠ threads s !! t') as Hmove.
  { intros t pc p i Hx. by eapply (holder_moves output skipped _ _ watch s outcome Hwo Hok p). }
  split_and!; [done| |].
  - destruct (decide (Forall (λ pc, pc_at pc = None) (threads s))) as [Hidle|Hbusy].
    + rewrite Forall_lookup in Hidle. destruct (decide (Forall (λ pc, pc_at pc = None ∧ rank pc = 0 ∧ cost 0 pc = 0) (threads s))) as [Hex|Hne].
      * left. rewrite Forall_lookup in Hex. intros t pc Ht. destruct (Hex t pc Ht) as (_ & _ & Hc). by destruct pc; cbn in Hc; try lia.
      * right. apply not_Forall_Exists in Hne; [|by intros ?; apply _]. apply Exists_exists in Hne as (pc & [t Ht]%list_elem_of_lookup & Hn).
        pose proof (Hidle t pc Ht) as Hp. destruct pc; try done; [|by destruct Hn]. eexists. by eapply step_fetch.
    + right. apply not_Forall_Exists in Hbusy; [|by intros ?; apply _].
      apply Exists_exists in Hbusy as (pc & [t Ht]%list_elem_of_lookup & Hn). destruct (pc_at pc) as [[p i]|] eqn:Hp; [|done].
      destruct (Hmove t pc p i) as (t' & pc' & p' & i' & s' & _ & Hs & _); [done|by exists s'].
  - intros k s' Hk. pose proof (steps_weight _ _ _ _ _ _ _ _ Hwo Hok Hk). lia.
Qed.

Lemma threads_length o n (s : Shared) : builds o n s → length (threads s) = n.
Proof.
  intros Hr. assert (length (threads (start (TaskResult := TaskResult) (Error := Error) (Panic := Panic) n)) = n) as Hn
    by (apply length_replicate).
  revert Hn. induction Hr as [|s1 s2 s3 Hs Hr IH]; [done|]. intros Hn. apply IH. rewrite <-Hn.
  destruct Hs as [s2 Hs|]; [|done].
  destruct Hs as [| | | | |? ? ? out| | | | | | |]; unfold fetch, wait; try destruct (order_indices _ !! _);
    try destruct (is_set _ _); try destruct out; cbn; by rewrite ?length_insert.
Qed.

(** [C8] When the builders have all left, every project of the graph has its result and has
    been reported, and unless something panicked the text written is the outputs of the
    results in the order of the graph: it does not depend on who built what when. *)
Theorem build_complete fuel o n (s : Shared) :
  keyed host old → generated fuel o → builds o n s → final s → 0 < n →
  omap reported (history s) = order_indices o
  ∧ (∀ i, i ∈ order_indices o → is_Some (results s !! i))
  ∧ (first_panic s = None → written s = concat (from_option output [] <$> ((λ i, results s !! i) <$> order_indices o))).
Proof.
  intros Hkey Hg Hr Hfin Hn. pose proof (graph_well_ordered _ _ Hkey Hg) as Hwo.
  apply (final_state output _ _ _ (reachable_ok _ _ _ _ _ _ _ Hwo Hr) Hfin). by rewrite (threads_length _ _ _ Hr).
Qed.
End Build.

(** ** The three projects of [sample_graph], built by two *)

Definition sample_outcome (i : nat) : Outcome (TaskResult := bytes) (Error := ()) (Panic := ()) := Completed [Z.of_nat (48 + i)].
Definition sample_state (schedule : list nat) : Shared (TaskResult := bytes) (Error := ()) (Panic := ()) :=
  run_schedule id [] (order_indices (sample_graph false)) (upstream_tasks (sample_graph false)) sample_outcome schedule (start 2).
Definition sample_schedule : list nat := concat (replicate 9 [0; 0; 0; 1]) ++ concat (replicate 30 [1; 0]).

Lemma sample_reachable schedule :
  reachable id [] (order_indices (sample_graph false)) (upstream_tasks (sample_graph false)) false 2 (sample_state schedule).
Proof. apply run_schedule_reachable. Qed.

Lemma builders_respect_graph_witness :
  history (sample_state (take 30 sample_schedule)) = [Began 2; Ended 2; Reported 2; Began 1; Ended 1]
  ∧ omap reported (history (sample_state (take 30 sample_schedule))) `prefix_of` order_indices (sample_graph false).
Proof.
  split; [by vm_compute|].
  apply (@builders_respect_graph ascii_tables () () bytes () () sample_host (sample_read false) sample_roots ∅ true false id []
    5 (sample_graph false) 2); [apply empty_keyed|exact (sample_generated false)|apply sample_reachable].
Defined.

(** Builder 0 sleeps until builder 1 has ended project 2. *)
Lemma builders_progress_witness :
  threads (sample_state [1; 1; 1; 0; 0]) = [AwaitUpstream 1 1 [2]; Returned 0 2 (Completed (bs "2"))]
  ∧ asleep (sample_state [1; 1; 1; 0; 0]) = {[0]}
  ∧ (final (sample_state [1; 1; 1; 0; 0])
     ∨ ∃ s', step id [] (order_indices (sample_graph false)) (upstream_tasks (sample_graph false)) false
               (sample_state [1; 1; 1; 0; 0]) s').
Proof.
  split_and!; [by vm_compute..|].
  apply (@builders_progress ascii_tables () () bytes () () sample_host (sample_read false) sample_roots ∅ true false id []
    5 (sample_graph false) 2 _ (Completed [])); [apply empty_keyed|exact (sample_generated false)|apply sample_reachable].
Defined.

Lemma sample_final : final (sample_state sample_schedule).
Proof.
  assert (threads (sample_state sample_schedule) = [Exited; Exited]) as Ht by (by vm_compute).
  intros t pc. rewrite Ht. by destruct t as [|[|]]; intros [= <-].
Qed.

Lemma build_complete_witness :
  first_panic (sample_state sample_schedule) = None ∧ written (sample_state sample_schedule) = bs "210"
  ∧ omap reported (history (sample_state sample_schedule)) = order_indices (sample_graph false).
Proof.
  split_and!; [by vm_compute..|].
  apply (@build_complete ascii_tables () () bytes () () sample_host (sample_read false) sample_roots ∅ true false id []
    5 (sample_graph false) 2); [apply empty_keyed|exact (sample_generated false)|apply sample_reachable|exact sample_final|lia].
Defined.
