(* ===== verification/BaseProto.v ===== *)
(** The base protocol of the language server: [crates/tsr_jsonrpc/src/base_proto.rs].
    Payloads are framed by [Content-Length] headers.

    The reader is a [BufReader] of the standard library over any source of bytes. A read of
    the source gives as many bytes as it likes, up to what the caller has room for, and none
    only at its end; it may also be interrupted or fail. Running out of memory for a payload
    is left out.

    The base protocol, [crates/tsr_jsonrpc/src/base_proto.rs]: however the source cuts the
    bytes up, the reader sees the frames that are in them, and the frames of the writer are
    read back. *)

From S2P Require Import Prelude Semver SemverRange.

Local Open Scope Z_scope.

(** ** The source *)

Inductive IoError := Interrupted | OtherError (code : Z).

(** What the next read does: give at most so many bytes more than one, or an error. *)
Inductive SourceEvent := UpTo (n : nat) | Raise (error : IoError).

(** The bytes to come; when the events run out a read gives all there is room for. *)
Record Source := MkSource { content : bytes; events : list SourceEvent }.

(** [inner.read(buf)] with room for [room] bytes. *)
Definition source_read (room : nat) (s : Source) : result IoError bytes * Source :=
  match events s with
  | Raise error :: events => (Err error, MkSource (content s) events)
  | UpTo n :: events =>
      let k := Nat.min (S n) room in (Ok (take k (content s)), MkSource (drop k (content s)) events)
  | [] => (Ok (take room (content s)), MkSource (drop room (content s)) [])
  end.

(** ** [BufReader] *)

Definition DEFAULT_BUF_SIZE : nat := 8192.

Record BufReader := MkBufReader { buffer : bytes; source : Source }.

(** [fill_buf]: reads when the buffer is empty. *)
Definition fill_buf (r : BufReader) : result IoError () * BufReader :=
  match buffer r with
  | _ :: _ => (Ok (), r)
  | [] =>
      match source_read DEFAULT_BUF_SIZE (source r) with
      | (Ok b, s) => (Ok (), MkBufReader b s)
      | (Err error, s) => (Err error, MkBufReader [] s)
      end
  end.

(** [read_until(delimiter, &mut line)]: an interruption is tried again. *)
Fixpoint read_until_loop (fuel : nat) (delimiter : Z) (line : bytes) (r : BufReader) : option (result IoError bytes * BufReader) :=
  match fuel with
  | O => None
  | S fuel =>
      match fill_buf r with
      | (Err Interrupted, r) => read_until_loop fuel delimiter line r
      | (Err error, r) => Some (Err error, r)
      | (Ok _, r) =>
          match position (Z.eqb delimiter) (buffer r) with
          | Some i => Some (Ok (line ++ take (S i) (buffer r)), MkBufReader (drop (S i) (buffer r)) (source r))
          | None =>
              if bool_decide (buffer r = []) then Some (Ok line, r)
              else read_until_loop fuel delimiter (line ++ buffer r) (MkBufReader [] (source r))
          end
      end
  end.

(** Every round but the last takes an event or a byte. *)
Definition reader_fuel (r : BufReader) : nat := length (buffer r) + length (content (source r)) + length (events (source r)) + 2.
Definition read_until (delimiter : Z) (r : BufReader) : option (result IoError bytes * BufReader) :=
  read_until_loop (reader_fuel r) delimiter [] r.

(** [read(buf)] with room for [room] bytes: past an empty buffer if there is room enough. *)
Definition buf_read (room : nat) (r : BufReader) : result IoError bytes * BufReader :=
  if bool_decide (buffer r = []) && (DEFAULT_BUF_SIZE <=? room)%nat then
    let '(b, s) := source_read room (source r) in (b, MkBufReader [] s)
  else
    match fill_buf r with
    | (Err error, r) => (Err error, r)
    | (Ok _, r) =>
        let k := Nat.min room (length (buffer r)) in (Ok (take k (buffer r)), MkBufReader (drop k (buffer r)) (source r))
    end.

(** ** The protocol *)

Inductive LengthError := InvalidSyntax (text : bytes) | OutOfRange (text : bytes) | NegativeValue (n : Z).

Inductive FramingError :=
  | Eof
  | ReadHeader (error : IoError)
  | InvalidHeader (line : bytes)
  | InvalidContentLength (detail : LengthError)
  | NoContentLength
  | ReadContentEof
  | ReadContentUnexpectedEof
  | ReadContent (error : IoError).

(** [u8::is_ascii_whitespace] and [trim_ascii] *)
Definition is_ascii_whitespace (b : Z) : bool :=
  (b =? 0x20) || (b =? 0x09) || (b =? 0x0A) || (b =? 0x0C) || (b =? 0x0D).
Fixpoint trim_ascii_start (b : bytes) : bytes :=
  match b with
  | x :: rest => if is_ascii_whitespace x then trim_ascii_start rest else b
  | [] => []
  end.
Definition trim_ascii (b : bytes) : bytes := rev (trim_ascii_start (rev (trim_ascii_start b))).

(** The digits of an [i64] from the left: whatever comes first, a byte that is no digit or
    a value out of range, is the error. *)
Fixpoint parse_digits (negative : bool) (text : bytes) (value : Z) (digits : bytes) : result LengthError Z :=
  match digits with
  | [] => Ok value
  | c :: digits =>
      if negb (is_ascii_digit c) then Err (InvalidSyntax text)
      else
        let value := if negative then value * 10 - (c - 48) else value * 10 + (c - 48) in
        if in_range (-9223372036854775808) 9223372036854775807 value then parse_digits negative text value digits
        else Err (OutOfRange text)
  end.

(** [text.parse::<i64>()]: one sign, and at least one digit. Text that is not UTF-8 has no
    digits in the places that [from_utf8_lossy] replaces; an error keeps the text as it is. *)
Definition parse_int (text : bytes) : result LengthError Z :=
  let '(negative, digits) :=
    match text with
    | c :: rest => if c =? ch "-" then (true, rest) else if c =? ch "+" then (false, rest) else (false, text)
    | [] => (false, [])
    end in
  if bool_decide (digits = []) then Err (InvalidSyntax text) else parse_digits negative text 0 digits.

(** A header line: the content length it sets, if it is that header. *)
Definition read_header (line : bytes) (content_length : Z) : result FramingError Z :=
  match position (Z.eqb (ch ":")) line with
  | None => Err (InvalidHeader line)
  | Some colon =>
      let key := take colon line in
      let value := drop (S colon) line in
      if bool_decide (key = bs "Content-Length") then
        match parse_int (trim_ascii value) with
        | Err detail => Err (InvalidContentLength detail)
        | Ok n => if n <? 0 then Err (InvalidContentLength (NegativeValue n)) else Ok n
        end
      else Ok content_length
  end.

(** The loop over the headers. Each takes a byte at least. *)
Fixpoint read_headers (fuel : nat) (content_length : Z) (r : BufReader) : option (result FramingError Z * BufReader) :=
  match fuel with
  | O => None
  | S fuel =>
      '(line, r) ← read_until 10 r;
      match line with
      | Err error => Some (Err (ReadHeader error), r)
      | Ok line =>
          if negb (bool_decide (last line = Some 10)) then Some (Err Eof, r)
          else if bool_decide (line = [13; 10]) then Some (Ok content_length, r)
          else match read_header line content_length with
               | Err error => Some (Err error, r)
               | Ok content_length => read_headers fuel content_length r
               end
      end
  end.

(** The loop that fills the payload; [filled] is what there is of it. *)
Fixpoint read_content (fuel : nat) (length_ : nat) (filled : bytes) (r : BufReader)
  : option (result FramingError bytes * BufReader) :=
  match fuel with
  | O => None
  | S fuel =>
      if (length filled <? length_)%nat then
        match buf_read (length_ - length filled) r with
        | (Ok [], r) => Some (Err (if bool_decide (filled = []) then ReadContentEof else ReadContentUnexpectedEof), r)
        | (Ok b, r) => read_content fuel length_ (filled ++ b) r
        | (Err Interrupted, r) => read_content fuel length_ filled r
        | (Err error, r) => Some (Err (ReadContent error), r)
        end
      else Some (Ok filled, r)
  end.

Definition read (r : BufReader) : option (result FramingError bytes * BufReader) :=
  '(content_length, r) ← read_headers (reader_fuel r) 0 r;
  match content_length with
  | Err error => Some (Err error, r)
  | Ok content_length =>
      if content_length <=? 0 then Some (Err NoContentLength, r)
      else read_content (reader_fuel r) (Z.to_nat content_length) [] r
  end.

(** [write(data)]: what the sink has got after the flush. The length is a [u64]. *)
Definition write (data : bytes) (sink : bytes) : bytes :=
  sink ++ bs "Content-Length: " ++ decimal_fuel 20 (Z.of_nat (length data)) ++ [13; 10; 13; 10] ++ data.

(** One message after the other, whatever comes of each. *)
Fixpoint reads (n : nat) (r : BufReader) : option (list (result FramingError bytes) * BufReader) :=
  match n with
  | O => Some ([], r)
  | S n => '(m, r) ← read r; '(ms, r) ← reads n r; Some (m :: ms, r)
  end.

Example read_ex :
  let sink := write (bs "[]") (write (bs "{a:1}") []) in
  let r := MkBufReader [] (MkSource sink [UpTo 2; Raise Interrupted; UpTo 20; UpTo 0; Raise Interrupted]) in
  from_option fst [] (reads 3 r) = [Ok (bs "{a:1}"); Ok (bs "[]"); Err Eof]
  ∧ from_option fst [] (reads 1 (MkBufReader [] (MkSource (bs "Content-Length: 4" ++ [13; 10; 13; 10] ++ bs "{}") [])))
    = [Err ReadContentUnexpectedEof].
Proof. by vm_compute. Qed.

(** * What frames are read as *)

(** What is still to be read. *)
Definition remaining (r : BufReader) : bytes := buffer r ++ content (source r).

(** No read fails, except for interruptions. *)
Definition calm_event (e : SourceEvent) : Prop := match e with Raise (OtherError _) => False | _ => True end.
Definition calm (r : BufReader) : Prop := Forall calm_event (events (source r)).

(** What is left to happen. *)
Definition room_left (r : BufReader) : nat := length (remaining r) + length (events (source r)).

(** ** One read of the source *)

Lemma source_read_calm room s r s' :
  Forall calm_event (events s) → (0 < room)%nat → source_read room s = (r, s') →
  Forall calm_event (events s')
  ∧ (r = Err Interrupted ∧ content s' = content s ∧ (length (events s') < length (events s))%nat
     ∨ ∃ b, r = Ok b ∧ content s = b ++ content s' ∧ (length b <= room)%nat ∧ (b = [] → content s = [])
       ∧ (length (events s') <= length (events s))%nat).
Proof.
  intros Hc Hroom. unfold source_read. destruct (events s) as [|[n|e] ev] eqn:Ev.
  - intros [= <- <-]. split; [constructor|]. right. eexists. split_and!; [done|by cbn; rewrite take_drop|rewrite length_take; lia| |done].
    intros Hn%(f_equal length). rewrite length_take in Hn. cbn in Hn. apply nil_length_inv. lia.
  - destruct room as [|room]; [lia|]. intros [= <- <-]. apply Forall_cons in Hc as [_ Hc]. split; [done|]. right. eexists.
    split_and!; [done|by cbn; rewrite take_drop|rewrite length_take; lia| |cbn; lia].
    intros Hn%(f_equal length). rewrite length_take in Hn. change (length []) with 0%nat in Hn. apply nil_length_inv. lia.
  - apply Forall_cons in Hc as [He Hc]. destruct e as [|code]; [|done]. intros [= <- <-]. split; [done|]. left.
    split_and!; [done|done|cbn; lia].
Qed.

Lemma fill_buf_calm r : calm r →
  (∃ r', fill_buf r = (Err Interrupted, r') ∧ calm r' ∧ remaining r' = remaining r ∧ (room_left r' < room_left r)%nat)
  ∨ ∃ r', fill_buf r = (Ok (), r') ∧ calm r' ∧ remaining r' = remaining r ∧ (room_left r' <= room_left r)%nat
      ∧ (buffer r' = [] → remaining r = []).
Proof.
  intros Hc. unfold fill_buf. destruct (buffer r) as [|x b] eqn:Eb; [|right; exists r; split_and!; [done..|by rewrite Eb]].
  destruct (source_read DEFAULT_BUF_SIZE (source r)) as [res s'] eqn:Es.
  apply source_read_calm in Es as [Hc' [(-> & Hcont & Hlt)|(b & -> & Hcont & _ & Hnil & Hle)]]; [| |done|apply Nat.lt_0_succ].
  - left. eexists. split; [done|]. unfold remaining, room_left, remaining. cbn. rewrite Eb, Hcont. cbn. split_and!; [done|done|lia].
  - right. eexists. split; [done|]. unfold remaining, room_left, remaining. cbn. rewrite Eb, Hcont. cbn.
    split_and!; [done|done|lia|]. intros ->. by rewrite <-Hcont, Hnil.
Qed.

(** ** Lines *)

(** The bytes up to the first line feed and with it, and those behind. *)
Definition cut_line (b : bytes) : bytes * bytes :=
  match position (Z.eqb 10) b with
  | Some i => (take (S i) b, drop (S i) b)
  | None => (b, [])
  end.

Lemma cut_line_app b1 b2 :
  cut_line (b1 ++ b2) =
  match position (Z.eqb 10) b1 with
  | Some i => (take (S i) b1, drop (S i) b1 ++ b2)
  | None => let '(line, rest) := cut_line b2 in (b1 ++ line, rest)
  end.
Proof.
  unfold cut_line. induction b1 as [|x b1 IH]; cbn [app position].
  - by destruct (position _ b2).
  - destruct (10 =? x); [done|].
    destruct (position _ (b1 ++ b2)) as [i|], (position _ b1) as [j|]; cbn [fmap option_fmap option_map];
      try destruct (position _ b2); cbn [take drop app]; try done; injection IH as H1 H2;
      by rewrite ?H1, ?H2.
Qed.

Lemma read_until_calm fuel line r :
  calm r → (room_left r < fuel)%nat →
  ∃ r', read_until_loop fuel 10 line r = Some (Ok (line ++ fst (cut_line (remaining r))), r')
    ∧ calm r' ∧ remaining r' = snd (cut_line (remaining r)) ∧ (room_left r' <= room_left r)%nat.
Proof.
  revert line r. induction fuel as [|fuel IH]; intros line r Hc Hf; [lia|]. cbn [read_until_loop].
  destruct (fill_buf_calm r Hc) as [(r1 & -> & Hc1 & Hr1 & Hlt)|(r1 & -> & Hc1 & Hr1 & Hle & Hnil)].
  { destruct (IH line r1 Hc1 ltac:(lia)) as (r' & -> & Hc' & Hr' & Hl'). exists r'. rewrite <-Hr1. split_and!; [done..|lia]. }
  pose proof (cut_line_app (buffer r1) (content (source r1))) as Hcut. fold (remaining r1) in Hcut.
  rewrite <-Hr1, Hcut. clear Hcut. destruct (position (Z.eqb 10) (buffer r1)) as [i|] eqn:Ei.
  - eexists. split; [done|]. split_and!; [done|done|]. unfold room_left, remaining in *. cbn.
    rewrite !length_app, length_drop in *. lia.
  - case_bool_decide as Hb.
    + rewrite Hb in *. specialize (Hnil eq_refl). rewrite <-Hr1 in Hnil. unfold remaining in Hnil. rewrite Hb in Hnil. cbn in Hnil.
      rewrite Hnil. cbn. exists r1. rewrite app_nil_r. unfold remaining. by rewrite Hb, Hnil.
    + destruct (IH (line ++ buffer r1) (MkBufReader [] (source r1)) Hc1) as (r' & -> & Hc' & Hr' & Hl').
      { unfold room_left, remaining in *. cbn. rewrite !length_app in *. destruct (buffer r1); [done|]. cbn in *. lia. }
      change (remaining (MkBufReader [] (source r1))) with (content (source r1)) in *.
      destruct (cut_line (content (source r1))) as [l rest]. cbn in *. exists r'. rewrite <-app_assoc. split_and!; [done..|].
      unfold room_left, remaining in *. cbn in *. rewrite !length_app in *. lia.
Qed.

(** ** The frames that are in the bytes *)

Fixpoint frame_headers (fuel : nat) (content_length : Z) (b : bytes) : result FramingError Z * bytes :=
  match fuel with
  | O => (Err Eof, b)
  | S fuel =>
      let '(line, rest) := cut_line b in
      if negb (bool_decide (last line = Some 10)) then (Err Eof, rest)
      else if bool_decide (line = [13; 10]) then (Ok content_length, rest)
      else match read_header line content_length with
           | Err error => (Err error, rest)
           | Ok content_length => frame_headers fuel content_length rest
           end
  end.

(** The first frame and what is behind it. *)
Definition frame (b : bytes) : result FramingError bytes * bytes :=
  match frame_headers (S (length b)) 0 b with
  | (Err error, rest) => (Err error, rest)
  | (Ok n, rest) =>
      if n <=? 0 then (Err NoContentLength, rest)
      else
        let k := Z.to_nat n in
        if (k <=? length rest)%nat then (Ok (take k rest), drop k rest)
        else (Err (if bool_decide (rest = []) then ReadContentEof else ReadContentUnexpectedEof), [])
  end.

Lemma cut_line_shorter b : last (fst (cut_line b)) = Some 10 → (length (snd (cut_line b)) < length b)%nat.
Proof.
  unfold cut_line. destruct (position _ b) as [i|] eqn:Ei; cbn.
  - apply position_lt in Ei. rewrite length_drop. lia.
  - intros Hl. destruct b; [done|cbn; lia].
Qed.

Lemma read_headers_calm fuel fuel' n r :
  calm r → (length (remaining r) < fuel)%nat → (length (remaining r) < fuel')%nat →
  ∃ r', read_headers fuel n r = Some (fst (frame_headers fuel' n (remaining r)), r')
    ∧ calm r' ∧ remaining r' = snd (frame_headers fuel' n (remaining r)).
Proof.
  revert fuel' n r. induction fuel as [|fuel IH]; intros [|fuel'] n r Hc Hf Hf'; [lia..|]. cbn [read_headers frame_headers].
  destruct (read_until_calm (reader_fuel r) [] r Hc) as (r1 & E1 & Hc1 & Hr1 & _).
  { unfold reader_fuel, room_left, remaining. rewrite length_app. lia. }
  unfold read_until. rewrite E1. cbn [mbind option_bind app]. pose proof (cut_line_shorter (remaining r)) as Hs.
  destruct (cut_line (remaining r)) as [line rest]. cbn [fst snd] in *.
  case_bool_decide as Hl; cbn [negb]; [|by exists r1]. case_bool_decide; [by exists r1|].
  destruct (read_header line n) as [n'|e]; [|by exists r1]. rewrite <-Hr1. specialize (Hs Hl). apply IH; [done| |]; rewrite Hr1; lia.
Qed.

(** ** Payloads *)

Lemma buf_read_calm room r : calm r → (0 < room)%nat →
  (∃ r', buf_read room r = (Err Interrupted, r') ∧ calm r' ∧ remaining r' = remaining r ∧ (room_left r' < room_left r)%nat)
  ∨ ∃ b r', buf_read room r = (Ok b, r') ∧ calm r' ∧ remaining r = b ++ remaining r' ∧ (length b <= room)%nat
      ∧ (b = [] → remaining r = []) ∧ (room_left r' + length b <= room_left r)%nat.
Proof.
  intros Hc Hroom. unfold buf_read. destruct (bool_decide (buffer r = []) && _) eqn:E.
  - apply andb_true_iff in E as [Eb%bool_decide_eq_true _].
    destruct (source_read room (source r)) as [res s'] eqn:Es.
    apply source_read_calm in Es as [Hc' [(-> & Hcont & Hlt)|(b & -> & Hcont & Hle & Hnil & Hev)]]; [| |done|done].
    + left. eexists. split; [done|]. unfold remaining, room_left, remaining. cbn. rewrite Eb, Hcont. cbn. split_and!; [done|done|lia].
    + right. exists b. eexists. split; [done|]. unfold remaining, room_left, remaining. cbn. rewrite Eb, Hcont. cbn.
      split_and!; [done|done|done|by rewrite <-Hcont|]. rewrite length_app. lia.
  - destruct (fill_buf_calm r Hc) as [(r1 & -> & Hc1 & Hr1 & Hlt)|(r1 & -> & Hc1 & Hr1 & Hle & Hnil)]; [left; by exists r1|].
    right. eexists _, _. split; [done|]. rewrite <-Hr1. unfold remaining, room_left, remaining in *. cbn.
    split_and!; [done|by rewrite app_assoc, take_drop|rewrite length_take; lia| |].
    + intros Hn%(f_equal length). rewrite length_take in Hn. cbn in Hn. rewrite Hr1. apply Hnil, nil_length_inv. lia.
    + rewrite !length_app, length_take, length_drop in *. lia.
Qed.

Lemma read_content_calm fuel k filled r :
  calm r → (room_left r < fuel)%nat → (length filled <= k)%nat →
  ∃ r', calm r' ∧ read_content fuel k filled r = Some (
      (if (k - length filled <=? length (remaining r))%nat then Ok (filled ++ take (k - length filled) (remaining r))
       else Err (if bool_decide (filled ++ remaining r = []) then ReadContentEof else ReadContentUnexpectedEof)), r')
    ∧ remaining r' = drop (k - length filled) (remaining r).
Proof.
  revert filled r. induction fuel as [|fuel IH]; intros filled r Hc Hf Hk; [lia|]. cbn [read_content].
  destruct (Nat.ltb_spec (length filled) k) as [Hlt|Hge].
  2:{ exists r. replace (k - length filled)%nat with 0%nat by lia. cbn. by rewrite app_nil_r, drop_0. }
  destruct (buf_read_calm (k - length filled) r Hc ltac:(lia))
    as [(r1 & -> & Hc1 & Hr1 & Hl1)|(b & r1 & -> & Hc1 & Hr1 & Hb & Hnil & Hl1)].
  { destruct (IH filled r1 Hc1 ltac:(lia) Hk) as (r' & Hc' & -> & Hr'). exists r'. by rewrite <-Hr1. }
  destruct b as [|x b].
  { specialize (Hnil eq_refl). exists r1. rewrite Hnil in *. cbn [length].
    replace (k - length filled <=? 0)%nat with false by (symmetry; apply Nat.leb_gt; lia).
    rewrite app_nil_r, drop_nil. split_and!; [done|done|]. by destruct (remaining r1). }
  set (d := x :: b) in *. assert (0 < length d)%nat as Hd by (cbn; lia).
  destruct (IH (filled ++ d) r1 Hc1) as (r' & Hc' & Er' & Hr'); [lia|rewrite length_app; lia|].
  exists r'. split; [done|]. change (match d with [] => _ | _ :: _ => _ end) with (read_content fuel k (filled ++ d) r1).
  rewrite Er', Hr', Hr1, !length_app. replace (k - (length filled + length d))%nat with (k - length filled - length d)%nat by lia. split.
  - do 2 f_equal. rewrite <-app_assoc. destruct (Nat.leb_spec (k - length filled - length d) (length (remaining r1))).
    + rewrite (proj2 (Nat.leb_le _ _)) by lia. by rewrite take_app_ge by lia.
    + rewrite (proj2 (Nat.leb_gt _ _)) by lia. by rewrite <-app_assoc.
  - by rewrite drop_app_ge by lia.
Qed.

Lemma room_left_fuel r : (room_left r < reader_fuel r)%nat.
Proof. unfold reader_fuel, room_left, remaining. rewrite length_app. lia. Qed.

Lemma read_calm r : calm r →
  ∃ r', read r = Some (fst (frame (remaining r)), r') ∧ calm r' ∧ remaining r' = snd (frame (remaining r)).
Proof.
  intros Hc. unfold read. destruct (read_headers_calm (reader_fuel r) (S (length (remaining r))) 0 r Hc) as (r1 & -> & Hc1 & Hr1);
    [pose proof (room_left_fuel r); unfold room_left in *; lia|lia|]. cbn [mbind option_bind]. unfold frame.
  destruct (frame_headers _ 0 (remaining r)) as [[n|e] rest]; cbn [fst snd] in *; [|by exists r1].
  destruct (n <=? 0); [by exists r1|].
  destruct (read_content_calm (reader_fuel r1) (Z.to_nat n) [] r1 Hc1 (room_left_fuel r1)) as (r' & Hc' & -> & Hr'); [cbn; lia|].
  exists r'. cbn [length] in Hr'. rewrite Nat.sub_0_r in *. rewrite Hr', Hr1. cbn [app].
  destruct (Nat.leb_spec (Z.to_nat n) (length rest)); [done|]. split_and!; [done|done|]. cbn. apply drop_ge. lia.
Qed.

(** [C24] The reader does not depend on how its source cuts the bytes up: with any sizes of
    the reads and any interruptions, as long as no read fails, the next message or error is
    the one that the bytes still to come determine, and the reader goes on behind it. *)
Theorem read_depends_on_bytes r1 r2 :
  calm r1 → calm r2 → remaining r1 = remaining r2 →
  ∃ m r1' r2', read r1 = Some (m, r1') ∧ read r2 = Some (m, r2')
    ∧ calm r1' ∧ calm r2' ∧ remaining r1' = remaining r2' ∧ (m, remaining r1') = frame (remaining r1).
Proof.
  intros H1 H2 He. destruct (read_calm r1 H1) as (r1' & E1 & C1 & R1), (read_calm r2 H2) as (r2' & E2 & C2 & R2).
  rewrite <-He in E2, R2. exists (fst (frame (remaining r1))), r1', r2'. rewrite R1, R2. split_and!; try done. by destruct (frame _).
Qed.

Lemma read_depends_on_bytes_witness :
  remaining (MkBufReader (bs "Co") (MkSource (bs "ntent-Length: 1" ++ [13; 10; 13; 10] ++ bs "a") [UpTo 0; Raise Interrupted]))
  = bs "Content-Length: 1" ++ [13; 10; 13; 10] ++ bs "a"
  ∧ ∃ m r1' r2',
      read (MkBufReader (bs "Co") (MkSource (bs "ntent-Length: 1" ++ [13; 10; 13; 10] ++ bs "a") [UpTo 0; Raise Interrupted])) = Some (m, r1')
      ∧ read (MkBufReader [] (MkSource (bs "Content-Length: 1" ++ [13; 10; 13; 10] ++ bs "a") [])) = Some (m, r2').
Proof.
  split; [by vm_compute|].
  destruct (read_depends_on_bytes
    (MkBufReader (bs "Co") (MkSource (bs "ntent-Length: 1" ++ [13; 10; 13; 10] ++ bs "a") [UpTo 0; Raise Interrupted]))
    (MkBufReader [] (MkSource (bs "Content-Length: 1" ++ [13; 10; 13; 10] ++ bs "a") [])))
    as (m & r1' & r2' & E1 & E2 & _); [by repeat constructor|by repeat constructor|by vm_compute|].
  by exists m, r1', r2'.
Defined.

(** ** The writer's frames *)

(** A payload that the protocol can carry: its length is a positive [i64]. *)
Definition payload (m : bytes) : Prop := 0 < Z.of_nat (length m) <= 9223372036854775807.

Lemma cut_line_plain l rest : Forall (λ b, (10 =? b) = false) l → cut_line (l ++ 10 :: rest) = (l ++ [10], rest).
Proof.
  intros Hl. rewrite cut_line_app, (proj2 (position_None _ _) Hl). done.
Qed.

Lemma trim_start_digits d rest : digits d → d ≠ [] → trim_ascii_start (d ++ rest) = d ++ rest.
Proof.
  destruct d as [|x l]; [done|]. intros [Hx _]%Forall_cons _. cbn. unfold is_ascii_whitespace.
  destruct (Z.eqb_spec x 32), (Z.eqb_spec x 9), (Z.eqb_spec x 10), (Z.eqb_spec x 12), (Z.eqb_spec x 13); try done; lia.
Qed.

Lemma trim_value d : digits d → d ≠ [] → trim_ascii ([32] ++ d ++ [13; 10]) = d.
Proof.
  intros Hd Hne. unfold trim_ascii.
  change (trim_ascii_start ([32] ++ d ++ [13; 10])) with (trim_ascii_start (d ++ [13; 10])).
  rewrite trim_start_digits, rev_app_distr by done. change (rev [13; 10] ++ rev d) with (10 :: 13 :: rev d).
  change (trim_ascii_start (10 :: 13 :: rev d)) with (trim_ascii_start (rev d)). rewrite <-(app_nil_r (rev d)).
  rewrite trim_start_digits, app_nil_r; [apply rev_involutive|by apply Forall_rev|].
  intros Hn%(f_equal (@rev Z)). by rewrite rev_involutive in Hn.
Qed.

Lemma parse_digits_value text d v :
  digits d → 0 <= v → fold_left (λ acc c, acc * 10 + (c - 48)) d v <= 9223372036854775807 →
  v <= fold_left (λ acc c, acc * 10 + (c - 48)) d v
  ∧ parse_digits false text v d = Ok (fold_left (λ acc c, acc * 10 + (c - 48)) d v).
Proof.
  intros Hd. revert v. induction d as [|c d IH]; intros v Hv Hmax; [done|].
  pose proof (proj2 (digits_forallb _) Hd) as Hc. apply Forall_cons in Hd as [Hd1 Hd]. cbn in Hmax, Hc |- *.
  apply andb_prop in Hc as [-> _]. cbn [negb].
  destruct (IH Hd (v * 10 + (c - 48)) ltac:(lia) Hmax) as [Hle ->].
  rewrite (proj2 (in_range_true _ _ _)) by lia. split; [lia|done].
Qed.

Lemma parse_int_decimal n : 0 <= n <= 9223372036854775807 → parse_int (decimal_fuel 20 n) = Ok n.
Proof.
  intros Hn. destruct (decimal_fuel_spec 20 n) as (Hd & Hv & Hne & _ & _).
  { split; [lia|]. apply (Z.le_lt_trans _ 9223372036854775807); [lia|done]. }
  { lia. }
  unfold parse_int. destruct (decimal_fuel 20 n) as [|c text] eqn:Ed; [done|].
  pose proof Hd as [Hc _]%Forall_cons. rewrite (proj2 (Z.eqb_neq c (ch "-"))), (proj2 (Z.eqb_neq c (ch "+"))) by (intros ->; by destruct Hc).
  rewrite bool_decide_false by done. unfold digits_value in Hv.
  destruct (parse_digits_value (c :: text) (c :: text) 0 Hd) as [_ ->]; [lia| |]; by rewrite Hv; try lia.
Qed.

(** The frame of a payload. *)
Definition framed (m : bytes) : bytes := write m [].

Lemma write_framed m sink : write m sink = sink ++ framed m.
Proof. done. Qed.

Lemma frame_framed m rest : payload m → frame (framed m ++ rest) = (Ok m, rest).
Proof.
  intros Hm. unfold payload in Hm. set (n := Z.of_nat (length m)) in *. set (d := decimal_fuel 20 n).
  assert (parse_int d = Ok n) as Hparse by (apply parse_int_decimal; lia).
  assert (digits d ∧ d ≠ []) as [Hd Hne].
  { destruct (decimal_fuel_spec 20 n) as (? & _ & ? & _); [|lia|done]. split; [lia|]. apply (Z.le_lt_trans _ 9223372036854775807); [lia|done]. }
  set (line := bs "Content-Length: " ++ d ++ [13]).
  assert (framed m ++ rest = line ++ 10 :: [13] ++ 10 :: m ++ rest) as ->.
  { unfold framed, write, line. fold n d. rewrite app_nil_l, <-!app_assoc. done. }
  assert (Forall (λ b, (10 =? b) = false) line) as Hline.
  { unfold line. rewrite !Forall_app. split_and!; [by repeat constructor| |by repeat constructor].
    apply (Forall_impl _ _ _ Hd). intros x Hx. apply Z.eqb_neq. lia. }
  assert (read_header (line ++ [10]) 0 = Ok n) as Hheader.
  { unfold read_header. assert (position (Z.eqb (ch ":")) (line ++ [10]) = Some 14%nat) as -> by done.
    assert (take 14 (line ++ [10]) = bs "Content-Length") as -> by done. rewrite bool_decide_true by done.
    assert (trim_ascii (drop 15 (line ++ [10])) = d) as ->; [|rewrite Hparse; by destruct (Z.ltb_spec n 0); [lia|]].
    assert (drop 15 (line ++ [10]) = [32] ++ d ++ [13; 10]) as -> by (unfold line; by rewrite <-!app_assoc).
    by apply trim_value. }
  unfold frame. cbn [frame_headers]. rewrite cut_line_plain by done.
  rewrite last_snoc, bool_decide_true by done. cbn [negb]. rewrite bool_decide_false by (unfold line; done). rewrite Hheader.
  assert (∃ k, length (line ++ 10 :: [13] ++ 10 :: m ++ rest) = S k) as [k ->] by (by eexists).
  cbn [frame_headers]. rewrite (cut_line_plain [13]) by (by repeat constructor). cbn [app last]. rewrite !bool_decide_true by done.
  cbn [negb]. rewrite (proj2 (Z.leb_gt n 0)) by lia. unfold n. rewrite Nat2Z.id, length_app.
  rewrite (proj2 (Nat.leb_le _ _)) by lia. by rewrite take_app_length, drop_app_length.
Qed.

Lemma reads_framed ms r :
  calm r → remaining r = concat (framed <$> ms) → Forall payload ms →
  ∃ r', reads (S (length ms)) r = Some ((Ok <$> ms) ++ [Err Eof], r').
Proof.
  revert r; induction ms as [|m ms IH]; intros r Hc Hr Hms.
  - destruct (read_calm r Hc) as (r' & Er & _). rewrite Hr in Er. exists r'. cbn [length reads]. by rewrite Er.
  - apply Forall_cons in Hms as [Hm Hms]. destruct (read_calm r Hc) as (r1 & Er & Hc1 & Hr1).
    rewrite Hr in Er, Hr1. cbn [fmap list_fmap concat] in Er, Hr1. rewrite frame_framed in Er, Hr1 by done.
    destruct (IH r1 Hc1 Hr1 Hms) as (r' & Ers). exists r'. cbn [length]. change (reads (S (S (length ms))) r) with
      ('(m, r) ← read r; '(ms, r) ← reads (S (length ms)) r; Some (m :: ms, r)). rewrite Er. cbn [mbind option_bind fst].
    by rewrite Ers.
Qed.

(** [C25] The frames of the writer are read back: the payloads that a writer has written come
    out of the reader in order, each whole and followed by the next, then the end of the
    stream, whatever the sizes of the reads in between. A payload must not be empty: a frame
    of no bytes is an error for the reader. *)
Theorem frames_round_trip ms r :
  calm r → remaining r = fold_left (λ sink m, write m sink) ms [] → Forall payload ms →
  ∃ r', reads (S (length ms)) r = Some ((Ok <$> ms) ++ [Err Eof], r').
Proof.
  intros Hc Hr Hms. apply reads_framed; [done| |done]. rewrite Hr.
  assert (∀ sink, fold_left (λ sink m, write m sink) ms sink = sink ++ concat (framed <$> ms)) as Hfold; [|by rewrite Hfold].
  clear. induction ms as [|m ms IH]; intros sink; cbn; [by rewrite app_nil_r|]. by rewrite IH, write_framed, <-app_assoc.
Qed.

Lemma frames_round_trip_witness :
  let sink := fold_left (λ sink m, write m sink) [bs "{}"; bs "[1]"] [] in
  let r := MkBufReader [] (MkSource sink [UpTo 20; Raise Interrupted; UpTo 0; UpTo 3]) in
  sink = bs "Content-Length: 2" ++ [13; 10; 13; 10] ++ bs "{}Content-Length: 3" ++ [13; 10; 13; 10] ++ bs "[1]"
  ∧ ∃ r', reads 3 r = Some ([Ok (bs "{}"); Ok (bs "[1]"); Err Eof], r').
Proof.
  split; [by vm_compute|].
  exact (frames_round_trip [bs "{}"; bs "[1]"] (MkBufReader [] (MkSource _ [UpTo 20; Raise Interrupted; UpTo 0; UpTo 3]))
    ltac:(by repeat constructor) eq_refl ltac:(apply Forall_cons; split; [unfold payload; cbn; lia|]; apply Forall_cons; split; [unfold payload; cbn; lia|]; constructor)).
Defined.

(** A frame without a payload, which [write] makes of an empty message, cannot be read. *)
Example empty_payload_unreadable :
  from_option fst [] (reads 1 (MkBufReader [] (MkSource (write [] []) []))) = [Err NoContentLength].
Proof. by vm_compute. Qed.
