(* ===== verification/JsonState.v ===== *)
(** Kinds, tokens, errors and the grammar state that the JSON encoder and decoder share:
    [crates/tsr_json/src/token.rs], [error.rs] and [state.rs].

    Positions are [nat]: a [usize] that counts bytes in memory. The innermost frame of a
    stack stands first here, last in the source. *)

From stdpp Require Import gmap.
From S2P Require Import Prelude Wtf8 Semver BaseProto.

Local Open Scope Z_scope.

(** ** Kinds and tokens *)

Module Kind.
Inductive Kind :=
  | Invalid | Null | False_ | True_ | String | Number
  | BeginObject | EndObject | BeginArray | EndArray.
#[export] Instance kind_eq_dec : EqDecision Kind.
Proof. solve_decision. Defined.

Definition from_byte (b : Z) : Kind :=
  if b =? ch "n" then Null
  else if b =? ch "f" then False_
  else if b =? ch "t" then True_
  else if b =? 34 then String
  else if (b =? ch "-") || is_ascii_digit b then Number
  else if b =? ch "{" then BeginObject
  else if b =? ch "}" then EndObject
  else if b =? ch "[" then BeginArray
  else if b =? ch "]" then EndArray
  else Invalid.

Definition is_end (k : Kind) : bool := match k with EndObject | EndArray => true | _ => false end.
End Kind.
Import Kind(Kind).
Export (hints) Kind.

Module Token.
Inductive Token :=
  | Null
  | Boolean (b : bool)
  | String (s : bytes)
  | Number (s : bytes)
  | BeginObject | EndObject | BeginArray | EndArray.

Definition kind (t : Token) : Kind :=
  match t with
  | Null => Kind.Null
  | Boolean false => Kind.False_
  | Boolean true => Kind.True_
  | String _ => Kind.String
  | Number _ => Kind.Number
  | BeginObject => Kind.BeginObject
  | EndObject => Kind.EndObject
  | BeginArray => Kind.BeginArray
  | EndArray => Kind.EndArray
  end.

Definition text (t : Token) : bytes :=
  match t with
  | Null => bs "null"
  | Boolean false => bs "false"
  | Boolean true => bs "true"
  | String s | Number s => s
  | BeginObject => bs "{"
  | EndObject => bs "}"
  | BeginArray => bs "["
  | EndArray => bs "]"
  end.
End Token.
Import Token(Token).

(** ** Errors *)

Record SyntaxError := MkSyntaxError {
  e_offset : nat;
  e_pointer : bytes;
  e_message : bytes;
  duplicate_name : bool;
  unexpected_eof : bool;
}.
#[export] Instance eta_syntax_error : Eta SyntaxError := λ e,
  MkSyntaxError (e_offset e) (e_pointer e) (e_message e) (duplicate_name e) (unexpected_eof e).

(** An error of the reader or the writer is kept as it came, where the source keeps its
    text; a text of the encoder's own is on the right. *)
Inductive Error :=
  | Syntax (e : SyntaxError)
  | Semantic (marshal : bool) (offset : nat) (pointer : bytes) (kind : Kind) (value : option bytes) (type_name : bytes)
      (cause : option Error)
  | Eof
  | Io (action : bytes) (error : IoError + bytes)
  | Message (s : bytes)
  | InvalidIndent.

Definition syntax (offset : nat) (pointer message : bytes) : Error :=
  Syntax (MkSyntaxError offset pointer message false false).
Definition truncated (offset : nat) (pointer : bytes) : Error :=
  Syntax (MkSyntaxError offset pointer (bs "unexpected EOF") false true).
Definition duplicate (offset : nat) (pointer : bytes) : Error :=
  Syntax (MkSyntaxError offset pointer (bs "duplicate object member name") true false).

(** [if let Error::Syntax(e) = &mut error { .. }] *)
Definition map_syntax (f : SyntaxError → SyntaxError) (e : Error) : Error :=
  match e with Syntax e => Syntax (f e) | e => e end.

(** ** Names *)

(** The names of an object: one buffer with the ends of the names in it, and a hash set as
    well when there are many. *)
Record Names := MkNames { n_bytes : bytes; ends : list nat; large : option (gset bytes) }.
#[export] Instance eta_names : Eta Names := λ n, MkNames (n_bytes n) (ends n) (large n).
Definition names_default : Names := MkNames [] [] None.

(** [&bytes[start..end]] for each end in turn. *)
Fixpoint slices (b : bytes) (start : nat) (ends : list nat) : list bytes :=
  match ends with
  | [] => []
  | e :: ends => take (e - start) (drop start b) :: slices b e ends
  end.

Definition push_name (name : bytes) (n : Names) : Names :=
  let b := n_bytes n ++ name in n <| n_bytes := b |> <| ends := ends n ++ [length b] |>.

Definition insert (name : bytes) (n : Names) : bool * Names :=
  let n := match large n with
           | None =>
               if (64 <? length (ends n))%nat || (1024 <? length (n_bytes n))%nat
               then n <| large := Some (list_to_set (slices (n_bytes n) 0 (ends n))) |>
               else n
           | Some _ => n
           end in
  match large n with
  | Some l =>
      if decide (name ∈ l) then (false, n)
      else (true, push_name name (n <| large := Some ({[name]} ∪ l) |>))
  | None =>
      if decide (name ∈ slices (n_bytes n) 0 (ends n)) then (false, n) else (true, push_name name n)
  end.

(** ** Frames *)

Record Frame := MkFrame { f_kind : Kind; count : nat; name : bytes; names : Names }.
#[export] Instance eta_frame : Eta Frame := λ f, MkFrame (f_kind f) (count f) (name f) (names f).
Definition frame_new (kind : Kind) : Frame := MkFrame kind 0 [] names_default.

Definition expects_name (f : Frame) : bool := bool_decide (f_kind f = Kind.BeginObject) && Nat.even (count f).

(** [self.stack.last().is_some_and(Frame::expects_name)] *)
Definition top_expects_name (stack : list Frame) : bool := from_option expects_name false (head stack).

(** [self.stack.last().is_some_and(|f| f.kind == required)] *)
Definition top_is (required : Kind) (stack : list Frame) : bool :=
  from_option (λ f, bool_decide (f_kind f = required)) false (head stack).

(** [if let Some(f) = stack.last_mut() { .. }] *)
Definition on_top (f : Frame → Frame) (stack : list Frame) : list Frame :=
  match stack with frame :: rest => f frame :: rest | [] => [] end.

(** A [u8] that is the first of a sequence with so many valid bytes behind it is replaced
    together with these. *)
Definition bad_width (b : bytes) : nat :=
  match utf8_lead (nth 0 b 0%Z) with
  | Some (width, second_min, second_max, _) =>
      if negb (in_range second_min second_max (nth 1 b 0%Z)) then 1
      else if (width =? 2)%nat || negb (is_continuation (nth 2 b 0%Z)) then 2 else 3
  | None => 1
  end%nat.

Fixpoint from_utf8_lossy_fuel (fuel : nat) (b : bytes) : bytes :=
  match fuel, b with
  | S fuel, _ :: _ =>
      let '(rune, width) := decode_utf8 b in
      if (rune =? RUNE_ERROR) && (width =? 1)%nat
      then char_encode_utf8 RUNE_ERROR ++ from_utf8_lossy_fuel fuel (drop (bad_width b) b)
      else take width b ++ from_utf8_lossy_fuel fuel (drop width b)
  | _, _ => []
  end.

(** [String::from_utf8_lossy] *)
Definition from_utf8_lossy (b : bytes) : bytes := from_utf8_lossy_fuel (length b) b.

Definition append_pointer (out name : bytes) : bytes :=
  out ++ [ch "/"]
  ++ concat ((λ c, if c =? ch "~" then bs "~0" else if c =? ch "/" then bs "~1" else [c]) <$> from_utf8_lossy name).

Definition to_string (n : nat) : bytes := decimal_fuel 20 (Z.of_nat n).

(** The frames from the outermost on; [last] is the innermost. *)
Fixpoint pointer_loop (frames : list Frame) (next : bool) (out : bytes) : bytes :=
  match frames with
  | [] => out
  | f :: frames =>
      let last := bool_decide (frames = []) in
      if bool_decide (f_kind f = Kind.BeginObject) then
        if (count f =? 0)%nat || last && next && expects_name f then pointer_loop frames next out
        else pointer_loop frames next (append_pointer out (name f))
      else if (0 <? count f)%nat || last && next then
        pointer_loop frames next (append_pointer out (to_string (if last && next then count f else count f - 1)))
      else pointer_loop frames next out
  end.

Definition pointer (stack : list Frame) (next : bool) : bytes := pointer_loop (rev stack) next [].

Example pointer_ex :
  let f1 := MkFrame Kind.BeginObject 2 (bs "a/b") names_default in
  let f2 := MkFrame Kind.BeginArray 3 [] names_default in
  pointer [f2; f1] false = bs "/a~1b/2" ∧ pointer [f2; f1] true = bs "/a~1b/3" ∧ pointer [f1] true = [].
Proof. by vm_compute. Qed.
