(* ===== verification/JsonWire.v ===== *)
(** The byte lexer of JSON, [crates/tsr_json/src/wire.rs]: the input with its buffer, the
    spelling of strings, numbers and literals, and the string writer. *)

From S2P Require Import Prelude Wtf8 BaseProto JsonState.

Local Open Scope Z_scope.

(** ** Computations

    A method with [&mut self] is a computation over the state of [self]: it ends with a
    result, the state changed so far, or [None] when the fuel of a loop runs out. *)

Definition St (S A : Type) : Type := S → option (result Error A * S).
#[export] Instance st_ret {S} : MRet (St S) := λ A a s, Some (Ok a, s).
#[export] Instance st_bind {S} : MBind (St S) := λ A B f m s,
  match m s with
  | Some (Ok a, s) => f a s
  | Some (Err e, s) => Some (Err e, s)
  | None => None
  end.

Definition fail {S A} (e : Error) : St S A := λ s, Some (Err e, s).
Definition gets {S A} (f : S → A) : St S A := λ s, Some (Ok (f s), s).
Definition modify {S} (f : S → S) : St S unit := λ s, Some (Ok tt, f s).

(** [m.map_err(f)] *)
Definition map_err {S A} (f : Error → Error) (m : St S A) : St S A := λ s,
  match m s with Some (Err e, s) => Some (Err (f e), s) | r => r end.

(** A loop whose body goes on with [inl] and ends with [inr]. *)
Fixpoint loop_fuel {S X R} (fuel : nat) (body : X → St S (X + R)) (x : X) : St S R :=
  match fuel with
  | O => λ _, None
  | S fuel => r ← body x; match r with inl x => loop_fuel fuel body x | inr r => mret r end
  end.

(** ** The input *)

Record Input := MkInput {
  reader : Source;
  i_bytes : bytes;
  eof : bool;
  noncanonical : bool;
}.
#[export] Instance eta_input : Eta Input := λ i, MkInput (reader i) (i_bytes i) (eof i) (noncanonical i).

Abbreviation J := (St Input).

Definition input_new (reader : Source) : Input := MkInput reader [] false false.
Definition from_slice (b : bytes) : Input := MkInput (MkSource [] []) b true false.

Definition CHUNK : nat := 512.

(** One round of [fill]: a read, repeated when it is interrupted. *)
Definition fill_round (index : nat) (_ : ()) : J (() + option Z) := λ i,
  if (length (i_bytes i) <=? index)%nat && negb (eof i) then
    match source_read CHUNK (reader i) with
    | (Err Interrupted, s) => Some (Ok (inl tt), i <| reader := s |>)
    | (Err error, s) => Some (Err (Io (bs "read") (inl error)), i <| reader := s |>)
    | (Ok [], s) => Some (Ok (inl tt), i <| reader := s |> <| eof := true |>)
    | (Ok chunk, s) => Some (Ok (inl tt), i <| reader := s |> <| i_bytes := i_bytes i ++ chunk |>)
    end
  else Some (Ok (inr (i_bytes i !! index)), i).

(** Every round takes an event or a byte of the source, or finds its end. *)
Definition fill (index : nat) : J (option Z) := λ i,
  loop_fuel (length (content (reader i)) + length (events (reader i)) + 3) (fill_round index) tt i.

(** [at(index)] *)
Definition byte_at (index : nat) : J (option Z) := λ i,
  match i_bytes i !! index with
  | Some b => Some (Ok (Some b), i)
  | None => fill index i
  end.

(** What a loop over the input can take. *)
Definition input_fuel (i : Input) : nat := length (i_bytes i) + length (content (reader i)) + 2.
Definition loop {X R} (body : X → J (X + R)) (x : X) : J R := λ i, loop_fuel (input_fuel i) body x i.

Definition set_noncanonical : J () := modify (λ i, i <| noncanonical := true |>).

Definition is_space (b : Z) : bool := (b =? 32) || (b =? 9) || (b =? 13) || (b =? 10).

(** [while self.at(index)?.is_some_and(f) { index += 1; }] *)
Definition skip_while (f : Z → bool) (index : nat) : J nat :=
  loop (λ index, b ← byte_at index; if from_option f false b then mret (inl (S index)) else mret (inr index)) index.

Definition space (index : nat) : J nat :=
  let start := index in
  index ← skip_while is_space index;
  (if (index =? start)%nat then mret tt else set_noncanonical);;
  mret index.

Definition lower_hex_digit (d : Z) : Z := if d <? 10 then 48 + d else 87 + d.

(** The character as it stands in a message. *)
Definition quote_byte (b : Z) : bytes :=
  [39] ++ (if b =? 10 then bs "\n" else if b =? 13 then bs "\r" else if b =? 9 then bs "\t"
           else if b =? 39 then bs "\'" else if b =? 92 then bs "\\"
           else if in_range 32 126 b then [b]
           else bs "\x" ++ [lower_hex_digit (b / 16); lower_hex_digit (b mod 16)]) ++ [39].

Definition invalid (index : nat) (pointer context : bytes) (i : Input) : Error :=
  syntax index pointer (bs "invalid character " ++ quote_byte (default 0 (i_bytes i !! index)) ++ bs " " ++ context).

(** [Err(self.invalid(index, pointer, context))] *)
Definition fail_invalid {A} (index : nat) (pointer context : bytes) : J A := λ i,
  Some (Err (invalid index pointer context i), i).

(** ** Numbers and literals *)

Definition EXPECTING_DIGIT : bytes := bs "in number (expecting digit)".

Definition digits (index : nat) (pointer : bytes) : J nat :=
  b ← byte_at index;
  match b with
  | None => fail (truncated index pointer)
  | Some b => if negb (is_ascii_digit b) then fail_invalid index pointer EXPECTING_DIGIT
              else skip_while is_ascii_digit index
  end.

(** [if self.at(i)?.is_some_and(f) { i += 1; }] *)
Definition skip_if (f : Z → bool) (index : nat) : J nat :=
  b ← byte_at index; mret (if from_option f false b then S index else index).

Definition is_exponent (b : Z) : bool := (b =? ch "e") || (b =? ch "E").
Definition is_sign (b : Z) : bool := (b =? ch "+") || (b =? ch "-").

Definition integer_part (i : nat) (pointer : bytes) : J nat :=
  b ← byte_at i;
  match b with
  | None => fail (truncated i pointer)
  | Some b =>
      if b =? ch "0" then mret (S i)
      else if in_range (ch "1") (ch "9") b then skip_while is_ascii_digit (S i)
      else fail_invalid i pointer EXPECTING_DIGIT
  end.

Definition fraction_part (i : nat) (pointer : bytes) : J nat :=
  b ← byte_at i;
  if bool_decide (b = Some (ch ".")) then digits (S i) pointer else mret i.

Definition exponent_part (i : nat) (pointer : bytes) : J nat :=
  b ← byte_at i;
  if from_option is_exponent false b then i ← skip_if is_sign (S i); digits i pointer else mret i.

Definition number (start : nat) (pointer : bytes) : J nat :=
  i ← skip_if (Z.eqb (ch "-")) start;
  i ← integer_part i pointer;
  i ← fraction_part i pointer;
  exponent_part i pointer.

Fixpoint literal_from (word : bytes) (index : nat) (rest pointer : bytes) : J nat :=
  match rest with
  | [] => mret index
  | expected :: rest =>
      b ← byte_at index;
      match b with
      | None => fail (truncated index pointer)
      | Some b => if b =? expected then literal_from word (S index) rest pointer
                  else fail_invalid index pointer (bs "in literal " ++ word)
      end
  end.

Definition literal (start : nat) (word pointer : bytes) : J nat := literal_from word start word pointer.

(** ** Strings *)

Definition hex_value (b : Z) : option Z :=
  if in_range (ch "0") (ch "9") b then Some (b - 48)
  else if in_range (ch "a") (ch "f") b then Some (b - 97 + 10)
  else if in_range (ch "A") (ch "F") b then Some (b - 65 + 10)
  else None.

(** [hex4(start, slash, pointer)], from the [k]th digit to the last. *)
Fixpoint hex4_from (k : nat) (index slash : nat) (pointer : bytes) (value : Z) : J Z :=
  match k with
  | O => mret value
  | S k =>
      b ← byte_at index;
      match b with
      | None => fail (truncated slash pointer)
      | Some b => match hex_value b with
                  | Some d => hex4_from k (S index) slash pointer (value * 16 + d)
                  | None => fail_invalid index pointer (bs "in string escape sequence")
                  end
      end
  end.
Definition hex4 (start slash : nat) (pointer : bytes) : J Z := hex4_from 4 start slash pointer 0.

(** [char::from_u32(rune).unwrap_or(REPLACEMENT_CHARACTER)], encoded. *)
Definition append_rune (rune : Z) : bytes := char_encode_utf8 (default RUNE_ERROR (char_from_u32 rune)).

Definition emit (out : option bytes) (b : bytes) : option bytes := (λ o, o ++ b) <$> out.

(** The bytes that a run of a string takes as they are. *)
Definition is_plain (b : Z) : bool := negb ((b =? 34) || (b =? 92) || (b <=? 31) || (128 <=? b)).

(** [if let Ok(second) = self.hex4(..)]: an error of a look ahead is dropped. *)
Definition try_ {A} (m : J A) : J (option A) := λ i,
  match m i with
  | Some (Ok a, i) => Some (Ok (Some a), i)
  | Some (Err _, i) => Some (Ok None, i)
  | None => None
  end.

(** The second half of a surrogate pair, if it stands at [i]. *)
Definition low_half (first : Z) (i : nat) (pointer : bytes) : J (option Z) :=
  if first <=? 0xdbff then
    b ← byte_at i;
    if bool_decide (b = Some (ch "\")) then
      b ← byte_at (S i);
      if bool_decide (b = Some (ch "u")) then
        second ← try_ (hex4 (i + 2) i pointer);
        mret (match second with Some second => if is_low_surrogate second then Some second else None | None => None end)
      else mret None
    else mret None
  else mret None.

(** The rune of an escape [\uXXXX], whose digits end at [i], and where it ends. *)
Definition escaped_rune (first : Z) (i slash : nat) (pointer : bytes) (allow_invalid : bool) : J (Z * nat) :=
  if is_surrogate first then
    pair ← low_half first i pointer;
    match pair with
    | Some second => mret (0x10000 + Z.shiftl (first - 0xd800) 10 + (second - 0xdc00), (i + 6)%nat)
    | None =>
        if allow_invalid then mret (RUNE_ERROR, i)
        else
          byte_at (slash + 11);;
          b ← gets i_bytes;
          fail (syntax slash pointer
            (bs "invalid surrogate pair `" ++ from_utf8_lossy (take 12 (drop slash b)) ++ bs "` in string"))
    end
  else mret (first, i).

(** An escape whose backslash is at [i]. *)
Definition string_escape (i : nat) (pointer : bytes) (allow_invalid : bool) (out : option bytes) : J (nat * option bytes) :=
  let slash := i in
  escape ← byte_at (S i);
  match escape with
  | None => fail (truncated i pointer)
  | Some escape =>
      let i := (i + 2)%nat in
      if (escape =? 34) || (escape =? 92) then mret (i, emit out [escape])
      else if escape =? ch "/" then set_noncanonical;; mret (i, emit out [escape])
      else if escape =? ch "b" then mret (i, emit out [8])
      else if escape =? ch "f" then mret (i, emit out [12])
      else if escape =? ch "n" then mret (i, emit out [10])
      else if escape =? ch "r" then mret (i, emit out [13])
      else if escape =? ch "t" then mret (i, emit out [9])
      else if escape =? ch "u" then
        set_noncanonical;;
        first ← hex4 i slash pointer;
        '(rune, i) ← escaped_rune first (i + 4) slash pointer allow_invalid;
        mret (i, emit out (append_rune rune))
      else fail_invalid (i - 1) pointer (bs "in string escape sequence")
  end.

(** What stands behind a run: the end of the string, an escape or a rune. *)
Definition string_round (pointer : bytes) (allow_invalid : bool) (i : nat) (out : option bytes)
  : J ((nat * option bytes) + (nat * option bytes)) :=
  b ← byte_at i;
  match b with
  | None => fail (truncated i pointer)
  | Some b =>
      if b =? 34 then mret (inr (S i, out))
      else if b =? 92 then st ← string_escape i pointer allow_invalid out; mret (inl st)
      else if b <=? 31 then fail_invalid i pointer (bs "in string")
      else if 128 <=? b then
        byte_at (i + 3);;
        buffered ← gets i_bytes;
        let '(rune, width) := decode_utf8 (drop i buffered) in
        (if (rune =? RUNE_ERROR) && (width =? 1)%nat then
           if allow_invalid then set_noncanonical else fail (syntax i pointer (bs "invalid UTF-8"))
         else mret tt);;
        mret (inl ((i + width)%nat, emit out (append_rune rune)))
      else mret (inl (S i, emit out [b]))
  end.

(** One round of [string_into]: a run of buffered plain bytes is taken as one slice. *)
Definition string_body (pointer : bytes) (allow_invalid : bool) (st : nat * option bytes)
  : J ((nat * option bytes) + (nat * option bytes)) :=
  let '(i, out) := st in
  b ← gets i_bytes;
  let rest := drop i b in
  let run := default (length rest) (position (λ b, negb (is_plain b)) rest) in
  string_round pointer allow_invalid (i + run) (if (0 <? run)%nat then emit out (take run rest) else out).

(** The end of the string that opens at [start], and its text if [keep]. *)
Definition string_into (start : nat) (pointer : bytes) (allow_invalid keep : bool) : J (nat * option bytes) :=
  loop (string_body pointer allow_invalid) (S start, if keep then Some [] else None).

(** ** The string writer *)

Definition needs_no_escape (b : Z) : bool := negb ((b <=? 0x1f) || (0x80 <=? b) || (b =? 34) || (b =? 92)).

Definition write_rune (rune : Z) : bytes :=
  if rune =? 8 then bs "\b" else if rune =? 9 then bs "\t" else if rune =? 10 then bs "\n"
  else if rune =? 12 then bs "\f" else if rune =? 13 then bs "\r" else if rune =? 34 then [92; 34]
  else if rune =? 92 then bs "\\"
  else if in_range 0 31 rune then bs "\u00" ++ [lower_hex_digit (rune / 16); lower_hex_digit (rune mod 16)]
  else append_rune rune.

(** The loop of [append_string]: [offset] is where [rest] stands in the text; an error is
    the offset of a byte that is not UTF-8. The second result is the text decoded. *)
Fixpoint append_string_loop (fuel : nat) (allow_invalid : bool) (offset : nat) (rest out decoded : bytes)
  : result nat (bytes * bytes) :=
  match fuel, rest with
  | S fuel, _ :: _ =>
      let run := default (length rest) (position (λ b, negb (needs_no_escape b)) rest) in
      if (0 <? run)%nat then
        append_string_loop fuel allow_invalid (offset + run) (drop run rest) (out ++ take run rest) (decoded ++ take run rest)
      else
        let '(rune, width) := decode_utf8 rest in
        let bad := (rune =? RUNE_ERROR) && (width =? 1)%nat in
        if bad && negb allow_invalid then Err offset
        else
          append_string_loop fuel allow_invalid (offset + width) (drop width rest) (out ++ write_rune rune)
            (decoded ++ if bad then append_rune rune else take width rest)
  | _, _ => Ok (out ++ [34], decoded)
  end.

Definition append_string (out b : bytes) (allow_invalid : bool) : result nat (bytes * bytes) :=
  append_string_loop (length b) allow_invalid 0 b (out ++ [34]) [].

(** ** Numbers at once *)

(** [i] past the digits at it. *)
Definition past_digits (b : bytes) (i : nat) : nat :=
  i + default (length (drop i b)) (position (λ b, negb (is_ascii_digit b)) (drop i b)).

Definition valid_number (b : bytes) : bool :=
  let i := if bool_decide (head b = Some (ch "-")) then 1%nat else 0%nat in
  match (match b !! i with
         | Some d => if d =? ch "0" then Some (S i)
                     else if in_range (ch "1") (ch "9") d then Some (past_digits b (S i)) else None
         | None => None
         end) with
  | None => false
  | Some i =>
      match (if bool_decide (b !! i = Some (ch ".")) then
               let start := S i in
               let i := past_digits b start in
               if (i =? start)%nat then None else Some i
             else Some i) with
      | None => false
      | Some i =>
          match (if from_option is_exponent false (b !! i) then
                   let start := if from_option is_sign false (b !! S i) then S (S i) else S i in
                   let i := past_digits b start in
                   if (i =? start)%nat then None else Some i
                 else Some i) with
          | None => false
          | Some i => (i =? length b)%nat
          end
      end
  end.

Example number_ex :
  map valid_number [bs "0"; bs "-12.50e+3"; bs "01"; bs "1."; bs "1e"; bs "-"; bs ""; bs "1 "]
    = [true; true; false; false; false; false; false; false].
Proof. by vm_compute. Qed.

Example string_into_ex :
  let lex b allow := fst <$> string_into 0 [] allow true (from_slice (34 :: b ++ [34])) in
  lex (bs "a\n\ud83d\ude00\u0041" ++ [0xc3; 0xa9]) false
    = Some (Ok (25%nat, Some (bs "a" ++ [10; 0xf0; 0x9f; 0x98; 0x80; 65; 0xc3; 0xa9])))
  ∧ lex (bs "\ud83dx") true = Some (Ok (9%nat, Some [0xef; 0xbf; 0xbd; 120]))
  ∧ lex (bs "\ud83dx") false = Some (Err (syntax 1 [] (bs "invalid surrogate pair `\ud83dx" ++ 34 :: bs "` in string"))).
Proof. by vm_compute. Qed.
