(* ===== verification/JsonDecoder.v ===== *)
(** The JSON decoder: [crates/tsr_json/src/decoder.rs], a state machine over tokens with a
    stack of frames. *)

From S2P Require Import Prelude Wtf8 BaseProto JsonState JsonWire.
Import JsonState.Kind(Kind) JsonState.Token(Token).

Local Open Scope nat_scope.

(** ** Options *)

Record Options := MkOptions {
  indent : option bytes;
  prefix : option bytes;
  allow_duplicate_names : option bool;
  deterministic : option bool;
  allow_invalid_utf8 : option bool;
}.
Definition options_default : Options := MkOptions None None None None None.

(** [join]: what the other sets counts. *)
Definition join (self other : Options) : Options :=
  let pick {A} (a b : option A) := match b with Some _ => b | None => a end in
  MkOptions (pick (indent self) (indent other)) (pick (prefix self) (prefix other))
    (pick (allow_duplicate_names self) (allow_duplicate_names other)) (pick (deterministic self) (deterministic other))
    (pick (allow_invalid_utf8 self) (allow_invalid_utf8 other)).

Definition allows_duplicates (o : Options) : bool := default false (allow_duplicate_names o).
Definition allows_invalid (o : Options) : bool := default false (allow_invalid_utf8 o).

(** ** One token *)

Definition MAX_DEPTH : Z := 10000.
Definition too_deep (depth : nat) : bool := (MAX_DEPTH <=? Z.of_nat depth)%Z.

Definition in_pointer (stack : list Frame) (e : Error) : Error :=
  map_syntax (λ s, s <| e_pointer := pointer stack true ++ e_pointer s |>) e.

(** The position of the next token: past white space and the delimiter that the grammar
    asks for. *)
Definition prepare_inner (pos : nat) (stack : list Frame) : J nat :=
  i ← space pos;
  match stack with
  | [] => mret i
  | frame :: _ =>
      b ← byte_at i;
      let in_object := bool_decide (f_kind frame = Kind.BeginObject) in
      if in_object && negb (expects_name frame) then
        match b with
        | None => fail (truncated i [])
        | Some b =>
            if Z.eqb b (ch ":") then space (S i)
            else fail_invalid i [] (bs "after object name (expecting ':')")
        end
      else if (0 <? count frame) && negb (bool_decide (b = Some (ch (if in_object then "}" else "]")))) then
        match b with
        | None => fail (truncated i [])
        | Some b =>
            if Z.eqb b (ch ",") then
              i ← space (S i);
              b ← byte_at i;
              if bool_decide (b = Some (ch "}")) || bool_decide (b = Some (ch "]"))
              then fail_invalid i [] (bs "at start of value")
              else mret i
            else fail_invalid i [] (if in_object then bs "after object value (expecting ',' or '}')"
                                    else bs "after array element (expecting ',' or ']')")
        end
      else mret i
  end.

Definition prepare (pos : nat) (stack : list Frame) : J nat := map_err (in_pointer stack) (prepare_inner pos stack).

(** The input, the position in it and the stack, which [next] is handed together. *)
Record Cursor := MkCursor { input : Input; pos : nat; stack : list Frame }.
#[export] Instance eta_cursor : Eta Cursor := λ c, MkCursor (input c) (pos c) (stack c).
Abbreviation C := (St Cursor).

Definition on_input {A} (m : J A) : C A := λ c,
  match m (input c) with Some (r, i) => Some (r, c <| input := i |>) | None => None end.

Definition set_stack (frames : list Frame) : C () := modify (λ c, c <| stack := frames |>).
Definition set_pos (p : nat) : C () := modify (λ c, c <| pos := p |>).

Definition opening (end_ : Kind) : Kind :=
  if bool_decide (end_ = Kind.EndObject) then Kind.BeginObject else Kind.BeginArray.
Definition is_begin (k : Kind) : bool := match k with Kind.BeginObject | Kind.BeginArray => true | _ => false end.

(** The token of a value that starts at [start], and its end. *)
Definition scan_value (kind : Kind) (start : nat) (options : Options) (keep : bool) : J (Token * nat) :=
  match kind with
  | Kind.String =>
      '(end_, text) ← string_into start [] (allows_invalid options) keep;
      mret (Token.String (default [] text), end_)
  | Kind.Number => end_ ← number start []; b ← gets i_bytes; mret (Token.Number (take (end_ - start) (drop start b)), end_)
  | Kind.Null => end_ ← literal start (bs "null") []; mret (Token.Null, end_)
  | Kind.True_ => end_ ← literal start (bs "true") []; mret (Token.Boolean true, end_)
  | Kind.False_ => end_ ← literal start (bs "false") []; mret (Token.Boolean false, end_)
  | Kind.BeginObject => mret (Token.BeginObject, S start)
  | Kind.BeginArray => mret (Token.BeginArray, S start)
  | _ => fail_invalid start [] (bs "at start of value")
  end.

(** The name of a member goes into its object unless it is there already. *)
Definition take_name (token : Token) (start : nat) (options : Options) : C () :=
  frames ← gets stack;
  match frames with
  | frame :: rest =>
      if expects_name frame then
        let text := match token with Token.String text => text | _ => [] end in
        let '(fresh, ns) := if allows_duplicates options then (true, names frame) else insert text (names frame) in
        let frame := frame <| names := ns |> in
        if fresh then set_stack (frame <| name := text |> :: rest)
        else set_stack (frame :: rest);; fail (duplicate start (append_pointer [] text))
      else mret tt
  | [] => mret tt
  end.

Definition count_value : C () := modify (λ c, c <| stack := on_top (λ f, f <| count := S (count f) |>) (stack c) |>).

(** [next], once the position of the token is known. *)
Definition next_at (options : Options) (base_depth : nat) (keep : bool) (frames : list Frame) (start : nat) : C (Token * nat) :=
  b ← on_input (byte_at start);
  match b with
  | None => fail (if bool_decide (frames = []) then Eof else truncated start [])
  | Some b =>
      let kind := Kind.from_byte b in
      let name_expected := top_expects_name frames in
      if Kind.is_end kind then
        if negb (top_is (opening kind) frames) then on_input (fail_invalid start [] (bs "at start of value"))
        else if bool_decide (opening kind = Kind.BeginObject) && negb name_expected then
          on_input (fail_invalid start [] (bs "at start of value"))
        else
          set_stack (List.tl frames);; set_pos (S start);;
          mret (if bool_decide (kind = Kind.EndObject) then Token.EndObject else Token.EndArray, start)
      else if name_expected && negb (bool_decide (kind = Kind.String)) then
        fail (syntax start [] (bs "object member name must be a string"))
      else if is_begin kind && too_deep (base_depth + length frames) then
        fail (syntax start [] (bs "exceeded max depth"))
      else
        '(token, end_) ← on_input (scan_value kind start options (keep || name_expected));
        take_name token start options;;
        count_value;;
        (if is_begin kind then modify (λ c, c <| stack := frame_new kind :: stack c |>) else mret tt);;
        set_pos end_;;
        mret (token, start)
  end.

Definition next_inner (options : Options) (base_depth : nat) (keep : bool) : C (Token * nat) :=
  frames ← gets stack;
  p ← gets pos;
  start ← on_input (prepare_inner p frames);
  next_at options base_depth keep frames start.

(** The pointer of an error is the one of the stack as [next] leaves it. *)
Definition next (options : Options) (base_depth : nat) (keep : bool) : C (Token * nat) := λ c,
  match next_inner options base_depth keep c with
  | Some (Err e, c) => Some (Err (in_pointer (stack c) e), c)
  | r => r
  end.

(** ** The decoder *)

Record Decoder := MkDecoder {
  cursor : Cursor;
  base : nat;
  options : Options;
  root_count : nat;
  previous_start : option nat;
  base_depth : nat;
}.
#[export] Instance eta_decoder : Eta Decoder := λ d,
  MkDecoder (cursor d) (base d) (options d) (root_count d) (previous_start d) (base_depth d).
Abbreviation D := (St Decoder).

Definition from_input (i : Input) (o : Options) : Decoder := MkDecoder (MkCursor i 0 []) 0 o 0 None 0.
Definition with_options (reader : Source) (options : Options) : Decoder := from_input (input_new reader) options.
Definition from_slice_with_options (b : bytes) (options : Options) : Decoder := from_input (from_slice b) options.

Definition on_cursor {A} (m : C A) : D A := λ d,
  match m (cursor d) with Some (r, c) => Some (r, d <| cursor := c |>) | None => None end.

Definition d_stack (d : Decoder) : list Frame := stack (cursor d).
Definition input_offset (d : Decoder) : nat := base d + pos (cursor d).
Definition stack_depth (d : Decoder) : nat := length (d_stack d).
Definition stack_pointer (d : Decoder) : bytes := pointer (d_stack d) false.
Definition depth_length (d : Decoder) : nat * nat :=
  (length (d_stack d), from_option count (root_count d) (head (d_stack d))).
Definition unread_buffer (d : Decoder) : bytes := drop (pos (cursor d)) (i_bytes (input (cursor d))).
Definition is_canonical (d : Decoder) : bool := negb (noncanonical (input (cursor d))).

(** The offset of an error counts from the start of the stream. *)
Definition absolute_error (base : nat) (e : Error) : Error :=
  map_syntax (λ s, s <| e_offset := e_offset s + base |>) e.
Definition absolute {A} (m : D A) : D A := λ d,
  match m d with Some (Err e, d) => Some (Err (absolute_error (base d) e), d) | r => r end.

Definition COMPACT_AT : Z := 4096.

Definition compact : D () := modify (λ d,
  let c := cursor d in
  if (COMPACT_AT <=? Z.of_nat (pos c))%Z && negb (eof (input c)) then
    d <| cursor := MkCursor ((input c) <| i_bytes := drop (pos c) (i_bytes (input c)) |>) 0 (stack c) |>
      <| base := base d + pos c |>
  else d).

(** [prepare(&mut self.input, self.pos, &self.stack)] *)
Definition d_prepare : D nat :=
  c ← gets cursor; on_cursor (on_input (prepare (pos c) (stack c))).

Definition next_location : D (nat * bytes) := absolute (
  p ← d_prepare;
  d ← gets id;
  mret (base d + p, pointer (d_stack d) true)).

(** An error is swallowed: the kind is then [Invalid]. *)
Definition peek_kind : D Kind := λ d,
  match (p ← d_prepare; on_cursor (on_input (byte_at p))) (d <| previous_start := None |>) with
  | Some (Ok (Some b), d) => Some (Ok (Kind.from_byte b), d)
  | Some (_, d) => Some (Ok Kind.Invalid, d)
  | None => None
  end.

Definition read_token : D Token :=
  compact;;
  d ← gets id;
  let at_root := bool_decide (d_stack d = []) in
  '(token, start) ← absolute (on_cursor (next (options d) (base_depth d) true));
  modify (λ d, d <| previous_start := Some (base d + start) |>);;
  modify (λ d, if at_root then d <| root_count := S (root_count d) |> else d);;
  mret token.

(** The rest of a value: tokens until no frame is open. Each takes a byte. *)
Fixpoint skip_frames (fuel : nat) (options : Options) (base_depth : nat) : C () :=
  match fuel with
  | O => λ _, None
  | S fuel =>
      frames ← gets stack;
      if bool_decide (frames = []) then mret tt
      else next options base_depth false;; skip_frames fuel options base_depth
  end.

(** The first token of a value and where the value ends, from a cursor of its own. *)
Definition value_tokens (options : Options) (depth start : nat) : J (Token * nat) := λ i,
  match ('(first, _) ← next options depth true;
         i ← gets input;
         skip_frames (input_fuel i) options depth;;
         cursor ← gets pos;
         mret (first, cursor)) (MkCursor i start []) with
  | Some (r, c) => Some (r, input c)
  | None => None
  end.

(** A value as a whole counts as one in the frame around it; as a name it is checked. *)
Definition take_value (first : Token) (start : nat) : D () :=
  d ← gets id;
  match d_stack d with
  | parent :: rest =>
      if expects_name parent then
        match first with
        | Token.String text =>
            let '(fresh, ns) :=
              if allows_duplicates (options d) then (true, names parent) else insert text (names parent) in
            let parent := parent <| names := ns |> in
            if fresh then
              let parent := parent <| name := text |> <| count := S (count parent) |> in
              on_cursor (set_stack (parent :: rest))
            else
              on_cursor (set_stack (parent :: rest));;
              fail (duplicate (base d + start) (append_pointer (pointer (parent :: rest) true) text))
        | _ => fail (syntax (base d + start) (pointer (d_stack d) true) (bs "object member name must be a string"))
        end
      else on_cursor count_value
  | [] => modify (λ d, d <| root_count := S (root_count d) |>)
  end.

Definition value_error (frames : list Frame) (start : nat) (e : Error) : Error :=
  let e := match e with Eof => if bool_decide (frames = []) then Eof else truncated start [] | e => e end in
  in_pointer frames e.

(** One complete value, in range of the buffer. *)
Definition read_value_range : D (nat * nat) :=
  compact;;
  start ← absolute d_prepare;
  d ← gets id;
  '(first, end_) ← absolute (map_err (value_error (d_stack d) start)
    (on_cursor (on_input (value_tokens (options d) (base_depth d + length (d_stack d)) start))));
  take_value first start;;
  on_cursor (set_pos end_);;
  modify (λ d, d <| previous_start := Some (base d + start) |>);;
  mret (start, end_).

Definition read_value : D bytes :=
  '(start, end_) ← read_value_range;
  b ← gets (λ d, i_bytes (input (cursor d)));
  mret (take (end_ - start) (drop start b)).

Definition skip_value : D () := _ ← read_value_range; mret tt.

(** Nothing but white space is left. *)
Definition finish : D () :=
  c ← gets cursor;
  p ← on_cursor (on_input (space (pos c)));
  b ← on_cursor (on_input (byte_at p));
  match b with
  | Some _ => absolute (on_cursor (on_input (fail_invalid p [] (bs "after top-level value"))))
  | None => mret tt
  end.

(** Tokens until an error, which is the last of the results. *)
Fixpoint read_tokens (n : nat) : D (list Token) :=
  match n with
  | O => mret []
  | S n => token ← read_token; tokens ← read_tokens n; mret (token :: tokens)
  end.

Example read_tokens_ex :
  let d := with_options (MkSource (bs " {'a' : [1, true]} null") []) options_default in
  let text := map (λ b, if Z.eqb b 39 then 34 else b)%Z in
  let d s := with_options (MkSource (text s) [UpTo 1; Raise Interrupted; UpTo 3]) options_default in
  (fst <$> read_tokens 8 (d (bs " {'a' : [1, true]} null")))
    = Some (Ok [Token.BeginObject; Token.String (bs "a"); Token.BeginArray; Token.Number (bs "1"); Token.Boolean true;
                Token.EndArray; Token.EndObject; Token.Null])
  ∧ (fst <$> read_tokens 8 (d (bs "{'a':[1,{'b':0,'b':2}]}")))
    = Some (Err (duplicate 15 (bs "/a/1/b")))
  ∧ (fst <$> read_value (d (bs " [1, {} ] 2"))) = Some (Ok (bs "[1, {} ]"))
  ∧ (fst <$> read_value (d (bs "[1, }"))) = Some (Err (syntax 4 (bs "/1") (bs "invalid character '}' at start of value"))).
Proof. by vm_compute. Qed.
