(* ===== verification/JsonEncoder.v ===== *)
(** The JSON encoder: [crates/tsr_json/src/encoder.rs], one grammar for tokens and raw values.
    Numbers of binary floating point are left out. *)

From S2P Require Import Prelude Wtf8 BaseProto JsonState JsonWire JsonDecoder.
Import JsonState.Kind(Kind) JsonState.Token(Token).

Local Open Scope nat_scope.

(** ** The writer behind an encoder *)

(** What the next write does: take at most so many bytes, or fail. *)
Inductive SinkEvent := Take (n : nat) | Refuse (error : IoError).

(** The bytes received; when the events run out a write takes all. *)
Record Sink := MkSink { received : bytes; sink_events : list SinkEvent }.

(** [sink.write(buf)] *)
Definition sink_write (b : bytes) (s : Sink) : result IoError nat * Sink :=
  match sink_events s with
  | Take n :: events => (Ok (Nat.min n (length b)), MkSink (received s ++ take n b) events)
  | Refuse error :: events => (Err error, MkSink (received s) events)
  | [] => (Ok (length b), MkSink (received s ++ b) [])
  end.

(** ** The encoder *)

Record Encoder := MkEncoder {
  out : bytes;
  o_base : nat;
  roots : nat;
  flushed : nat;
  frames : list Frame;
  opts : Options;
  sink : option Sink;
  omit_top_level_newline : bool;
}.
#[export] Instance eta_encoder : Eta Encoder := λ e,
  MkEncoder (out e) (o_base e) (roots e) (flushed e) (frames e) (opts e) (sink e) (omit_top_level_newline e).
Abbreviation W := (St Encoder).

Definition blank (b : Z) : bool := (Z.eqb b 32) || (Z.eqb b 9).

Definition encoder_new (o : Options) : result Error Encoder :=
  if negb (forallb blank (default [] (prefix o))) || negb (from_option (forallb blank) true (indent o))
  then Err InvalidIndent
  else Ok (MkEncoder [] 0 0 0 [] o None false).

Definition with_writer (writer : Sink) (o : Options) : result Error Encoder :=
  match encoder_new o with Ok e => Ok (e <| sink := Some writer |>) | Err e => Err e end.

Definition output_offset (e : Encoder) : nat := o_base e + length (out e).
Definition written_bytes (e : Encoder) : bytes := take (flushed e) (out e).
Definition buffered_bytes (e : Encoder) : bytes := drop (flushed e) (out e).
Definition e_stack_pointer (e : Encoder) : bytes := pointer (frames e) false.
Definition e_depth_length (e : Encoder) : nat * nat :=
  (length (frames e), from_option count (roots e) (head (frames e))).

(** ** What stands in front of a token *)

Record Prefix := MkPrefix {
  delimiter : option Z;
  p_space : bool;
  p_indent : option bytes;
  p_depth : nat;
  line_start : bytes;
}.

Definition prefix_of (o : Options) (stack : list Frame) (kind : Kind) : Prefix :=
  let line_start := default [] (prefix o) in
  match stack with
  | [] => MkPrefix None false None 0 line_start
  | f :: _ =>
      let in_value := bool_decide (f_kind f = Kind.BeginObject) && negb (expects_name f) in
      let delimiter :=
        if Kind.is_end kind then None
        else if in_value then Some (ch ":") else if 0 <? count f then Some (ch ",") else None in
      match indent o with
      | Some indent =>
          if in_value && negb (Kind.is_end kind) then MkPrefix delimiter true None 0 line_start
          else if negb (Kind.is_end kind) || (0 <? count f)
               then MkPrefix delimiter false (Some indent) (length stack - if Kind.is_end kind then 1 else 0) line_start
               else MkPrefix delimiter false None 0 line_start
      | None => MkPrefix delimiter false None 0 line_start
      end
  end.

Definition prefix_len (p : Prefix) : nat :=
  (match delimiter p with Some _ => 1 | None => 0 end) + (if p_space p then 1 else 0)
  + match p_indent p with Some s => 1 + length (line_start p) + p_depth p * length s | None => 0 end.

(** The bytes that [append_prefix] adds. *)
Definition prefix_bytes (p : Prefix) : bytes :=
  option_list (delimiter p) ++ (if p_space p then [32]%Z else [])
  ++ match p_indent p with Some s => [10]%Z ++ line_start p ++ concat (replicate (p_depth p) s) | None => [] end.

Definition token_prefix (e : Encoder) (kind : Kind) : Prefix := prefix_of (opts e) (frames e) kind.

Definition semantic (type_name : bytes) (cause : Error) (e : Encoder) : Error :=
  Semantic true (output_offset e + prefix_len (token_prefix e Kind.Null)) (pointer (frames e) true) Kind.Invalid None
    type_name (Some cause).

(** ** Flushing *)

(** The loop that hands the buffer to the writer. Only the writer's events can keep it up. *)
Fixpoint flush_loop (fuel : nat) (s : Sink) : W () := λ e,
  match fuel with
  | O => None
  | S fuel =>
      if flushed e <? length (out e) then
        match sink_write (drop (flushed e) (out e)) s with
        | (Ok 0, s) => Some (Err (Io (bs "write") (inr (bs "failed to write whole buffer"))), e <| sink := Some s |>)
        | (Ok n, s) => flush_loop fuel s (e <| flushed := flushed e + n |> <| sink := Some s |>)
        | (Err Interrupted, s) => flush_loop fuel s (e <| sink := Some s |>)
        | (Err error, s) => Some (Err (Io (bs "write") (inl error)), e <| sink := Some s |>)
        end
      else
        Some (Ok tt, e <| sink := Some s |> <| o_base := o_base e + length (out e) |> <| out := [] |> <| flushed := 0 |>)
  end.

Definition flush : W () := λ e,
  match sink e with
  | Some s => flush_loop (length (sink_events s) + 2) s e
  | None => Some (Ok tt, e <| flushed := length (out e) |>)
  end.

Definition FLUSH_AT : Z := 4096.

(** After a token or a value. *)
Definition settle : W () := λ e,
  if bool_decide (frames e = []) then
    flush (if omit_top_level_newline e then e else e <| out := out e ++ [10]%Z |>)
  else if (FLUSH_AT <=? Z.of_nat (length (out e) - flushed e))%Z then flush e
  else Some (Ok tt, e).

(** ** Tokens *)

Definition ensure (ok : bool) (error : Error) : result Error () := if ok then Ok tt else Err error.
Definition append (b : bytes) : W () := modify (λ e, e <| out := out e ++ b |>).
Definition lift {A} (r : result Error A) : W A := λ e, Some (r, e).

(** The grammar: whether a token can stand here, at this offset. *)
Definition check_token (kind : Kind) (offset : nat) (stack : list Frame) : result Error () :=
  let error message := syntax offset (pointer stack true) message in
  let name_expected := top_expects_name stack in
  (if Kind.is_end kind then
     ensure (top_is (opening kind) stack) (error (bs "mismatching structural token for object or array"));;
     ensure (negb (bool_decide (opening kind = Kind.BeginObject) && negb name_expected))
       (error (bs "missing value after object name"))
   else ensure (negb (name_expected && negb (bool_decide (kind = Kind.String)))) (error (bs "object member name must be a string")));;
  ensure (negb (is_begin kind && too_deep (length stack))) (error (bs "exceeded max depth")).

(** Appends the text of the token, which starts at [offset]; the text of a string is
    returned as it is read back. *)
Definition append_text (token : Token) (offset : nat) : W (option bytes) := λ e,
  match token with
  | Token.String b =>
      match append_string (out e) b (allows_invalid (opts e)) with
      | Ok (written, decoded) => Some (Ok (Some decoded), e <| out := written |>)
      | Err at_ => Some (Err (syntax (offset + 1 + at_) (pointer (frames e) true) (bs "invalid UTF-8")), e)
      end
  | Token.Number b =>
      if valid_number b then Some (Ok None, e <| out := out e ++ b |>)
      else
        match number 0 [] (input_new (MkSource b [])) with
        | Some (Ok end_, _) => Some (Err (syntax (offset + end_) (pointer (frames e) true) (bs "invalid number token")), e)
        | Some (Err error, _) =>
            Some (Err (map_syntax (λ s, s <| e_offset := e_offset s + offset |> <| e_pointer := pointer (frames e) true |>) error), e)
        | None => None
        end
  | _ => Some (Ok None, e <| out := out e ++ Token.text token |>)
  end.

(** The name of a member goes into its object unless it is there already. *)
Definition append_name (decoded : bytes) (offset : nat) : W () := λ e,
  match frames e with
  | frame :: rest =>
      let '(fresh, ns) := if allows_duplicates (opts e) then (true, names frame) else insert decoded (names frame) in
      let frame := frame <| names := ns |> in
      let e := e <| frames := frame :: rest |> in
      if fresh then Some (Ok tt, e <| frames := frame <| name := decoded |> :: rest |>)
      else Some (Err (duplicate offset (append_pointer (pointer (frames e) true) decoded)), e)
  | [] => None
  end.

Definition advance (kind : Kind) : W () := modify (λ e,
  if Kind.is_end kind then e <| frames := List.tl (frames e) |>
  else
    let e := if bool_decide (frames e = []) then e <| roots := S (roots e) |>
             else e <| frames := on_top (λ f, f <| count := S (count f) |>) (frames e) |> in
    if is_begin kind then e <| frames := frame_new kind :: frames e |> else e).

Definition append_token (token : Token) : W () :=
  let kind := Token.kind token in
  e ← gets id;
  let offset := output_offset e + prefix_len (token_prefix e kind) in
  let name_expected := top_expects_name (frames e) in
  lift (check_token kind offset (frames e));;
  append (prefix_bytes (token_prefix e kind));;
  decoded ← append_text token offset;
  (if name_expected && negb (Kind.is_end kind) then
     match decoded with Some decoded => append_name decoded offset | None => λ _, None end
   else mret tt);;
  advance kind.

(** A token that fails leaves the output as it was. *)
Definition write_token (token : Token) : W () := λ e,
  match append_token token e with
  | Some (Ok _, e') => settle e'
  | Some (Err error, e') => Some (Err error, e' <| out := take (length (out e)) (out e') |>)
  | None => None
  end.

Fixpoint write_tokens (tokens : list Token) : W () :=
  match tokens with
  | [] => mret tt
  | token :: tokens => write_token token;; write_tokens tokens
  end.

(** ** Raw values *)

(** One value that is known to be canonical, as it is. *)
Definition append_value (b : bytes) : W () := λ e,
  let kind := Kind.from_byte (default 0%Z (head b)) in
  let e := e <| out := out e ++ prefix_bytes (token_prefix e kind) ++ b |> in
  settle (if bool_decide (frames e = []) then e <| roots := S (roots e) |>
          else e <| frames := on_top (λ f, f <| count := S (count f) |>) (frames e) |>).

(** [loop { match decoder.read_token() { .. } }]: each round takes a byte. *)
Fixpoint copy_tokens (fuel : nat) (d : Decoder) : W () := λ e,
  match fuel with
  | O => None
  | S fuel =>
      match read_token d with
      | Some (Ok token, d) =>
          match write_token token e with
          | Some (Ok _, e) => copy_tokens fuel d e
          | r => r
          end
      | Some (Err Eof, _) => Some (Ok tt, e)
      | Some (Err error, _) => Some (Err error, e)
      | None => None
      end
  end.

(** A raw value is checked before anything is written. *)
Definition write_value (b : bytes) : W () := λ e,
  let d := from_slice_with_options b (opts e) <| base_depth := length (frames e) |> in
  match (skip_value;; finish) d with
  | Some (Ok _, d) =>
      if is_canonical d && bool_decide (indent (opts e) = None) && negb (top_expects_name (frames e))
      then append_value b e
      else copy_tokens (length b + 2) (from_slice_with_options b (opts e)) e
  | Some (Err error, _) =>
      let error := match error with Eof => truncated (length b) [] | error => error end in
      let offset := output_offset e + prefix_len (token_prefix e (Kind.from_byte (default 0%Z (head b)))) in
      Some (Err (map_syntax (λ s, s <| e_offset := e_offset s + offset |>
                                    <| e_pointer := pointer (frames e) true ++ e_pointer s |>) error), e)
  | None => None
  end.

(** A value that the encoder is said to have made itself. *)
Definition write_encoded_value (b : bytes) : W () := λ e,
  if bool_decide (b = []) || bool_decide (indent (opts e) ≠ None) || top_expects_name (frames e)
  then write_value b e else append_value b e.

Example write_tokens_ex :
  let text := map (λ b, if Z.eqb b 39 then 34 else b)%Z in
  let run o ts := match encoder_new o with Ok e => match write_tokens ts e with Some (r, e) => Some (r, out e) | None => None end
                  | Err _ => None end in
  let ts := [Token.BeginObject; Token.String (bs "a"); Token.BeginArray; Token.Number (bs "1"); Token.String [10]%Z;
             Token.EndArray; Token.String (bs "b"); Token.BeginObject; Token.EndObject; Token.EndObject] in
  run options_default ts = Some (Ok tt, text (bs "{'a':[1,'\n'],'b':{}}") ++ [10]%Z)
  ∧ run (MkOptions (Some (bs "  ")) None None None None) ts
    = Some (Ok tt, text (bs "{" ++ 10 :: bs "  'a': [" ++ 10 :: bs "    1," ++ 10 :: bs "    '\n'" ++ 10 :: bs "  ],"
                          ++ 10 :: bs "  'b': {}" ++ 10 :: bs "}" ++ [10])%Z)
  ∧ run options_default [Token.BeginObject; Token.String (bs "a"); Token.Null; Token.String (bs "a")]
    = Some (Err (duplicate 10 (bs "/a")), text (bs "{'a':null")).
Proof. by vm_compute. Qed.

Example write_value_ex :
  let text := map (λ b, if Z.eqb b 39 then 34 else b)%Z in
  let run b := match encoder_new options_default with
               | Ok e => match (write_token Token.BeginArray;; write_value (text b)) e with Some (r, e) => Some (r, out e) | None => None end
               | Err _ => None end in
  run (bs "{'a':[1,'x']}") = Some (Ok tt, text (bs "[{'a':[1,'x']}"))
  ∧ run (bs " [1, '\/'] ") = Some (Ok tt, text (bs "[[1,'/']"))
  ∧ run (bs "[1,]") = Some (Err (syntax 4 (bs "/0/1") (bs "invalid character ']' at start of value")), bs "[").
Proof. by vm_compute. Qed.
