(* ===== verification/JsonLex.v ===== *)
(** How the JSON lexer reads a text: the judgement [settles], and its rules.

    An input views a text when what it has buffered and what its reader will still give make
    it up. A computation settles when it ends alike on every input that views the text,
    however much of it is buffered.

    How the JSON lexer spells numbers and literals: every function of [JsonWire] settles, and
    what it takes of the text. *)

From S2P Require Import Prelude Wtf8 BaseProto JsonState JsonWire.

Local Open Scope nat_scope.

(** ** Inputs that view a text *)

(** At least [k] bytes of [t] are buffered. *)
Record views (t : bytes) (k : nat) (i : Input) : Prop := {
  v_text : i_bytes i ++ content (reader i) = t;
  v_eof : eof i = true → content (reader i) = [];
  v_calm : Forall calm_event (events (reader i));
  v_buffered : k <= length (i_bytes i);
}.

Lemma views_weaken t k k' i : k' <= k → views t k i → views t k' i.
Proof. intros Hk []. split; [done..|lia]. Qed.

Lemma views_lookup t k i index b : views t k i → i_bytes i !! index = Some b → t !! index = Some b.
Proof. intros [<- _ _ _] Hb. by apply lookup_app_l_Some. Qed.

Lemma views_buffered t k i index : views t k i → index < k → i_bytes i !! index = t !! index.
Proof. intros [<- _ _ Hk] Hi. rewrite lookup_app_l by lia. done. Qed.

Lemma views_length t k i : views t k i → length (i_bytes i) + length (content (reader i)) = length t.
Proof. intros [<- _ _ _]. by rewrite length_app. Qed.

Lemma views_prefix t k i : views t k i → i_bytes i `prefix_of` t.
Proof. intros [<- _ _ _]. by eexists. Qed.

Lemma views_slice b : views b (length b) (from_slice b).
Proof. split; [by rewrite app_nil_r|done|constructor|done]. Qed.

Lemma views_new s : Forall calm_event (events s) → views (content s) 0 (input_new s).
Proof. by split. Qed.

(** ** The judgement *)

Definition gives {A} (t : bytes) (k : nat) (m : J A) (r : result Error A) (k' : nat) (nc : bool) : Prop :=
  ∀ i, views t k i → ∃ i', m i = Some (r, i') ∧ views t k' i' ∧ noncanonical i' = noncanonical i || nc.

Definition settles {A} (t : bytes) (k : nat) (m : J A) (Q : result Error A → nat → bool → Prop) : Prop :=
  ∃ r k' nc, gives t k m r k' nc ∧ k <= k' ∧ Q r k' nc.

Section Rules.
Context (t : bytes).

Lemma settles_mono {A} k (m : J A) (Q Q' : result Error A → nat → bool → Prop) :
  settles t k m Q → (∀ r k' nc, k <= k' → Q r k' nc → Q' r k' nc) → settles t k m Q'.
Proof. intros (r & k' & nc & ? & ? & ?) HQ. exists r, k', nc. auto. Qed.

Lemma settles_ret {A} k (a : A) Q : Q (Ok a) k false → settles t k (mret a) Q.
Proof.
  intros HQ. exists (Ok a), k, false. split_and!; [|done..]. intros i Hi. exists i. by rewrite orb_false_r.
Qed.

Lemma settles_fail {A} k e (Q : result Error A → nat → bool → Prop) : Q (Err e) k false → settles t k (fail e) Q.
Proof.
  intros HQ. exists (Err e), k, false. split_and!; [|done..]. intros i Hi. exists i. by rewrite orb_false_r.
Qed.

Lemma settles_bind {A B} k (m : J A) (f : A → J B) Q :
  settles t k m (λ r k' nc, match r with
    | Ok a => settles t k' (f a) (λ r k'' nc', Q r k'' (nc || nc'))
    | Err e => Q (Err e) k' nc
    end) →
  settles t k (m ≫= f) Q.
Proof.
  intros (r & k1 & nc1 & Hm & Hk & HQ). destruct r as [a|e].
  - destruct HQ as (r2 & k2 & nc2 & Hf & Hk2 & HQ). exists r2, k2, (nc1 || nc2). split_and!; [|lia|done].
    intros i Hi. destruct (Hm i Hi) as (i1 & E1 & Hi1 & N1). destruct (Hf i1 Hi1) as (i2 & E2 & Hi2 & N2).
    exists i2. unfold mbind, st_bind. rewrite E1, E2. split_and!; [done..|]. by rewrite N2, N1, orb_assoc.
  - exists (Err e), k1, nc1. split_and!; [|done..]. intros i Hi. destruct (Hm i Hi) as (i1 & E1 & Hi1 & N1).
    exists i1. unfold mbind, st_bind. by rewrite E1.
Qed.

Lemma settles_noncanonical k (Q : result Error () → nat → bool → Prop) : Q (Ok tt) k true → settles t k set_noncanonical Q.
Proof.
  intros HQ. exists (Ok tt), k, true. split_and!; [|done..]. intros i Hi. eexists. split; [done|].
  split; [by destruct Hi; split|]. by rewrite orb_true_r.
Qed.

Lemma settles_map_err {A} k (f : Error → Error) (m : J A) Q :
  settles t k m (λ r k nc, Q (match r with Ok a => Ok a | Err e => Err (f e) end) k nc) → settles t k (map_err f m) Q.
Proof.
  intros (r & k1 & nc1 & Hm & Hk & HQ). eexists _, k1, nc1. split_and!; [|done|exact HQ].
  intros i Hi. destruct (Hm i Hi) as (i1 & E1 & Hi1 & N1). exists i1. unfold map_err. rewrite E1. by destruct r.
Qed.

Lemma settles_try {A} k (m : J A) Q :
  settles t k m (λ r k nc, Q (Ok (match r with Ok a => Some a | Err _ => None end)) k nc) → settles t k (try_ m) Q.
Proof.
  intros (r & k1 & nc1 & Hm & Hk & HQ). eexists _, k1, nc1. split_and!; [|done|exact HQ].
  intros i Hi. destruct (Hm i Hi) as (i1 & E1 & Hi1 & N1). exists i1. unfold try_. rewrite E1. by destruct r.
Qed.

(** What depends only on the bytes that are sure to be buffered. *)
Lemma settles_gets {A} k (f : bytes → J A) (m : J A) Q :
  (∀ b, b `prefix_of` t → k <= length b → f b = m) → settles t k m Q → settles t k (gets i_bytes ≫= f) Q.
Proof.
  intros Hf (r & k1 & nc1 & Hm & Hk & HQ). exists r, k1, nc1. split_and!; [|done..].
  intros i Hi. unfold mbind, st_bind, gets. rewrite (Hf (i_bytes i)); [by apply Hm|by eapply views_prefix|apply Hi].
Qed.

Definition invalid_at (index : nat) (pointer context : bytes) : Error :=
  syntax index pointer (bs "invalid character " ++ quote_byte (default 0%Z (t !! index)) ++ bs " " ++ context).

Lemma settles_invalid {A} k index pointer context (Q : result Error A → nat → bool → Prop) :
  index < k ∨ length t <= k → Q (Err (invalid_at index pointer context)) k false → settles t k (fail_invalid index pointer context) Q.
Proof.
  intros Hi HQ. eexists _, k, false. split_and!; [|done|exact HQ]. intros i Hv. exists i.
  rewrite orb_false_r. split_and!; [|done..]. unfold fail_invalid, invalid, invalid_at. do 5 f_equal.
  pose proof (views_prefix _ _ _ Hv) as [t' Ht]. destruct Hi as [Hi|Hi]; [by rewrite (views_buffered _ _ _ _ Hv)|].
  pose proof (v_buffered _ _ _ Hv). rewrite Ht, length_app in Hi. destruct t'; [by rewrite Ht, app_nil_r|cbn in Hi; lia].
Qed.

(** ** Reading a byte *)

Lemma fill_round_done index i :
  length (i_bytes i) <=? index = false ∨ eof i = true → fill_round index tt i = Some (Ok (inr (i_bytes i !! index)), i).
Proof. intros H. unfold fill_round. destruct H as [-> | ->]; [done|]. by rewrite andb_false_r. Qed.

Lemma fill_gives k index : k <= index → gives t k (fill index) (Ok (t !! index)) (max k (min (S index) (length t))) false.
Proof.
  intros Hk i Hi. rewrite orb_false_r. unfold fill.
  assert (∀ n i, views t k i →
    (if eof i then 0 else length (content (reader i)) + length (events (reader i)) + 1) < n →
    ∃ i', loop_fuel n (fill_round index) tt i = Some (Ok (t !! index), i')
      ∧ views t (max k (min (S index) (length t))) i' ∧ noncanonical i' = noncanonical i) as H;
    [|apply H; [done|destruct (eof i); lia]].
  clear i Hi. intros n. induction n as [|n IH]; intros i Hi Hn; [lia|]. cbn [loop_fuel]. unfold mbind at 1, st_bind at 1.
  destruct (length (i_bytes i) <=? index) eqn:Hlen; [destruct (eof i) eqn:He|].
  - rewrite fill_round_done by (by right). apply Nat.leb_le in Hlen. exists i.
    pose proof (v_eof _ _ _ Hi He) as Hc. pose proof (v_text _ _ _ Hi) as Ht. rewrite Hc, app_nil_r in Ht. rewrite Ht.
    split_and!; [done| |done]. destruct Hi as [? ? ? Hb]. split; [done..|]. rewrite <-Ht in *. lia.
  - unfold fill_round at 1. rewrite Hlen, He. cbn [andb negb].
    destruct (source_read CHUNK (reader i)) as [res s'] eqn:Es.
    apply source_read_calm in Es as [Hc' [(-> & Hcont & Hlt)|(b & -> & Hcont & _ & Hnil & Hle)]];
      [| |by apply Hi|unfold CHUNK; lia].
    + edestruct (IH (i <| reader := s' |>)) as (i' & E & Hi' & N'); [| |exists i'; by rewrite E].
      * destruct Hi. split; cbn; [by rewrite Hcont|by rewrite Hcont|done|done].
      * cbn. rewrite He, Hcont. lia.
    + destruct b as [|x b].
      * edestruct (IH (i <| reader := s' |> <| eof := true |>)) as (i' & E & Hi' & N'); [| |exists i'; by rewrite E].
        -- cbn in Hcont. destruct Hi. split; cbn; [by rewrite <-Hcont|intros _; rewrite <-Hcont; by apply Hnil|done|done].
        -- cbn. lia.
      * edestruct (IH (i <| reader := s' |> <| i_bytes := i_bytes i ++ x :: b |>)) as (i' & E & Hi' & N'); [| |exists i'; by rewrite E].
        -- destruct Hi. split; cbn; [by rewrite <-app_assoc, <-Hcont|by rewrite He|done|rewrite length_app; lia].
        -- cbn. rewrite He. rewrite Hcont in Hn. cbn in Hn. rewrite length_app in Hn. lia.
  - rewrite fill_round_done by (by left). apply Nat.leb_gt in Hlen. exists i. split_and!; [|apply (views_weaken _ (max k (S index))); [lia|destruct Hi; split; [done..|lia]]|done].
    cbn. unfold mret, st_ret. do 3 f_equal. apply (views_buffered t (S index)); [|lia]. destruct Hi; split; [done..|lia].
Qed.

(** The bytes up to the [j]th are buffered, those that there are. *)
Definition near (k j : nat) : Prop := S j <= k ∨ length t <= k.

Lemma settles_at k index Q :
  (∀ k', k <= k' → near k' index → Q (Ok (t !! index)) k' false) → settles t k (byte_at index) Q.
Proof.
  intros HQ. exists (Ok (t !! index)), (max k (min (S index) (length t))), false.
  split_and!; [|lia|apply HQ; unfold near; lia]. intros i Hi. unfold byte_at.
  destruct (i_bytes i !! index) as [b|] eqn:Hb.
  - exists i. rewrite orb_false_r. split_and!; [by rewrite (views_lookup _ _ _ _ _ Hi Hb)| |done].
    apply lookup_lt_Some in Hb. apply (views_weaken _ (max k (S index))); [lia|]. destruct Hi. split; [done..|lia].
  - apply lookup_ge_None in Hb.
    assert (views t (min k index) i) as Hi' by (eapply views_weaken; [|done]; lia).
    destruct (fill_gives (min k index) index ltac:(lia) i Hi') as (i' & E & Hv & N). exists i'. split_and!; [done| |done].
    pose proof (v_buffered _ _ _ Hi). eapply views_weaken; [|done]. lia.
Qed.

(** ** Loops *)

Lemma settles_loop {X R} k (body : X → J (X + R)) x (I : X → nat → bool → Prop) (μ : X → nat) Q :
  (∀ x k' nc, k <= k' → I x k' nc → settles t k' (body x) (λ r k'' nc', match r with
     | Ok (inl x') => I x' k'' (nc || nc') ∧ μ x' < μ x
     | Ok (inr y) => Q (Ok y) k'' (nc || nc')
     | Err e => Q (Err e) k'' (nc || nc')
     end)) →
  I x k false → μ x <= length t + 1 → settles t k (loop body x) Q.
Proof.
  intros Hbody HI Hμ.
  assert (∀ n x k' nc, k <= k' → I x k' nc → μ x < n → settles t k' (loop_fuel n body x) (λ r k'' nc', Q r k'' (nc || nc'))) as H.
  { intros n. induction n as [|n IH]; intros y k' nc Hk Hy Hn; [lia|]. cbn [loop_fuel]. apply settles_bind.
    eapply settles_mono; [by apply (Hbody y k' nc Hk Hy)|]. intros r k'' nc' Hk' Hr. destruct r as [[x'|z]|e]; cbn in Hr.
    - destruct Hr as [Hr Hlt]. eapply settles_mono; [apply (IH x' k'' (nc || nc')); [lia|done|lia]|].
      intros r k3 nc3 _ HQ. by rewrite orb_assoc.
    - apply settles_ret. by rewrite orb_false_r.
    - done. }
  destruct (H (length t + 2) x k false (Nat.le_refl k) HI ltac:(lia)) as (r & k' & nc & Hg & Hk & HQ). exists r, k', nc.
  split_and!; [|done..]. intros i Hi. unfold loop, input_fuel. rewrite (views_length _ _ _ Hi). by apply Hg.
Qed.
End Rules.

(** * The spelling of numbers *)

(** ** Runs *)

(** How many elements satisfy [f] before the first that does not. *)
Fixpoint run {A} (f : A → bool) (l : list A) : nat :=
  match l with x :: l => if f x then S (run f l) else 0 | [] => 0 end.

Lemma run_position {A} (f : A → bool) l : default (length l) (position (λ x, negb (f x)) l) = run f l.
Proof. induction l as [|x l IH]; [done|]. cbn. destruct (f x); cbn; [|done]. rewrite <-IH. by destruct (position _ l). Qed.

Lemma run_le {A} (f : A → bool) l : run f l <= length l.
Proof. induction l as [|x l IH]; [done|]. cbn. destruct (f x); lia. Qed.

Lemma run_take {A} (f : A → bool) l : Forall (λ x, f x = true) (take (run f l) l).
Proof. induction l as [|x l IH]; [constructor|]. cbn. destruct (f x) eqn:Hx; cbn; [by constructor|constructor]. Qed.

Lemma run_stop {A} (f : A → bool) l : from_option f false (l !! run f l) = false.
Proof. induction l as [|y l IH]; [done|]. cbn. destruct (f y) eqn:Hy; cbn; [done|]. done. Qed.

Lemma run_app {A} (f : A → bool) l1 l2 :
  Forall (λ x, f x = true) l1 → from_option f false (head l2) = false → run f (l1 ++ l2) = length l1.
Proof.
  intros Hl H2. induction Hl as [|x l1 Hx Hl IH]; cbn; [destruct l2 as [|y l2]; [done|]; cbn in *; by rewrite H2|].
  by rewrite Hx, IH.
Qed.

Lemma run_zero {A} (f : A → bool) l : run f l = 0 ↔ from_option f false (head l) = false.
Proof. destruct l as [|x l]; [done|]. cbn. by destruct (f x). Qed.

Lemma run_cut {A} (f : A → bool) l n tail :
  run f l <= n → from_option f false (head tail) = false → run f (take n l ++ tail) = run f l.
Proof.
  intros Hn Ht. destruct (decide (run f l = n)) as [E|Hne].
  - rewrite run_app; [rewrite length_take; pose proof (run_le f l); lia| |done]. rewrite <-E. apply run_take.
  - pose proof (run_le f l). rewrite <-(take_drop (run f l) (take n l)), take_take, Nat.min_l, <-app_assoc by lia.
    rewrite run_app; [rewrite length_take; lia|apply run_take|]. rewrite head_app, head_lookup, lookup_drop, Nat.add_0_r.
    destruct (decide (run f l < length l)).
    + rewrite lookup_take_lt by lia. pose proof (run_stop f l) as Hs. destruct (l !! run f l); [done|by cbn].
    + rewrite lookup_ge_None_2 by (rewrite length_take; lia). done.
Qed.

Lemma lookup_head_drop {A} (l : list A) i : head (drop i l) = l !! i.
Proof. by rewrite head_lookup, lookup_drop, Nat.add_0_r. Qed.

Section Spelling.
Context (t : bytes).

Lemma settles_skip_while k f p Q :
  (∀ k', k <= k' → near t k' (p + run f (drop p t)) → Q (Ok (p + run f (drop p t))) k' false) →
  settles t k (skip_while f p) Q.
Proof.
  intros HQ. unfold skip_while.
  apply (settles_loop t k _ p (λ i _ nc, nc = false ∧ p <= i ∧ i + run f (drop i t) = p + run f (drop p t)) (λ i, length t - i)); [|done|lia].
  intros i k' nc Hk (-> & Hp & Hrun). apply settles_bind, settles_at. intros k1 Hk1 Hn.
  destruct (t !! i) as [b|] eqn:Hb; cbn [from_option].
  - pose proof (drop_S _ _ _ Hb) as Hd. rewrite Hd in Hrun. cbn in Hrun. destruct (f b).
    + apply settles_ret. apply lookup_lt_Some in Hb. split; [split_and!; [done|lia|]|]; lia.
    + apply settles_ret. rewrite Nat.add_0_r in Hrun. subst i. cbn. apply HQ; [lia|done].
  - apply settles_ret. apply lookup_ge_None in Hb. rewrite drop_ge in Hrun by lia. cbn in Hrun.
    rewrite Nat.add_0_r in Hrun. subst i. apply HQ; [lia|done].
Qed.

Lemma settles_space k p Q :
  (∀ k', k <= k' → near t k' (p + run is_space (drop p t)) →
     Q (Ok (p + run is_space (drop p t))) k' (negb (run is_space (drop p t) =? 0))) →
  settles t k (space p) Q.
Proof.
  intros HQ. apply settles_bind, settles_skip_while. intros k' Hk Hn. specialize (HQ k' Hk Hn). apply settles_bind.
  destruct (Nat.eqb_spec (p + run is_space (drop p t)) p) as [E|E].
  - apply settles_ret, settles_ret. assert (run is_space (drop p t) = 0) as Hz by lia. by rewrite Hz in *.
  - apply settles_noncanonical, settles_ret. by destruct (Nat.eqb_spec (run is_space (drop p t)) 0); [lia|].
Qed.

(** ** Literals *)

Lemma settles_literal_from word k p rest pointer Q :
  (∀ k', k <= k' → rest `prefix_of` drop p t → p + length rest <= k' ∨ rest = [] → Q (Ok (p + length rest)) k' false) →
  (∀ k' e, k <= k' → ¬ rest `prefix_of` drop p t → Q (Err e) k' false) →
  settles t k (literal_from word p rest pointer) Q.
Proof.
  revert k p Q. induction rest as [|x rest IH]; intros k p Q HQ HE; cbn [literal_from].
  - apply settles_ret. rewrite Nat.add_0_r in HQ. apply HQ; [done|apply prefix_nil|by right].
  - apply settles_bind, settles_at. intros k' Hk Hn. destruct (t !! p) as [b|] eqn:Hb.
    + pose proof (drop_S _ _ _ Hb) as Hd. rewrite Hd in *. pose proof (lookup_lt_Some _ _ _ Hb). unfold near in Hn.
      destruct (Z.eqb_spec b x) as [->|Hne].
      * eapply settles_mono; [apply (IH k' (S p) (λ r k nc, Q r k nc))|done].
        -- intros k'' Hk' Hpre Hle. cbn [length] in *. rewrite Nat.add_succ_r in HQ. apply HQ; [lia|by apply prefix_cons|left].
           destruct Hle as [Hle| ->]; [lia|cbn; lia].
        -- intros k'' e Hk' Hpre. apply HE; [lia|]. intros Hp%prefix_cons_inv_2. done.
      * apply settles_invalid; [lia|]. apply HE; [lia|]. intros Hp%prefix_cons_inv_1. done.
    + apply settles_fail, HE; [lia|]. apply lookup_ge_None in Hb. rewrite drop_ge by done. apply prefix_nil_not.
Qed.

Lemma settles_literal k p word pointer Q :
  word ≠ [] →
  (∀ k', k <= k' → p + length word <= k' → word `prefix_of` drop p t → Q (Ok (p + length word)) k' false) →
  (∀ k' e, k <= k' → ¬ word `prefix_of` drop p t → Q (Err e) k' false) →
  settles t k (literal p word pointer) Q.
Proof.
  intros Hne HQ HE. apply settles_literal_from; [|done]. intros k' Hk Hp [Hle|?]; [|done]. by apply HQ.
Qed.

(** ** Numbers *)

Lemma settles_digits k p pointer Q :
  (∀ k', k <= k' → near t k' (p + run is_ascii_digit (drop p t)) → 0 < run is_ascii_digit (drop p t) →
     Q (Ok (p + run is_ascii_digit (drop p t))) k' false) →
  (∀ k' e, k <= k' → run is_ascii_digit (drop p t) = 0 → Q (Err e) k' false) →
  settles t k (digits p pointer) Q.
Proof.
  intros HQ HE. apply settles_bind, settles_at. intros k' Hk Hn. destruct (t !! p) as [b|] eqn:Hb.
  - pose proof (lookup_lt_Some _ _ _ Hb). unfold near in Hn. pose proof (drop_S _ _ _ Hb) as Hd. destruct (is_ascii_digit b) eqn:Hdig; cbn [negb].
    + apply settles_skip_while. intros k'' Hk' Hn'. apply HQ; [lia|done|]. rewrite Hd. cbn. rewrite Hdig. lia.
    + apply settles_invalid; [lia|]. apply HE; [lia|]. rewrite Hd. cbn. by rewrite Hdig.
  - apply settles_fail, HE; [lia|]. apply lookup_ge_None in Hb. by rewrite drop_ge.
Qed.
End Spelling.

(** The length of the number at the front of [b], if there is one. *)
Definition digits_len (b : bytes) (i : nat) : option nat :=
  let n := run is_ascii_digit (drop i b) in if n =? 0 then None else Some (i + n).

Definition int_len (b : bytes) : option nat :=
  let i := if bool_decide (head b = Some (ch "-")) then 1 else 0 in
  d ← b !! i;
  if Z.eqb d (ch "0") then Some (S i)
  else if in_range (ch "1") (ch "9") d then Some (S i + run is_ascii_digit (drop (S i) b)) else None.

Definition frac_len (b : bytes) (i : nat) : option nat :=
  if bool_decide (b !! i = Some (ch ".")) then digits_len b (S i) else Some i.

Definition exp_len (b : bytes) (i : nat) : option nat :=
  if from_option is_exponent false (b !! i)
  then digits_len b (if from_option is_sign false (b !! S i) then S (S i) else S i) else Some i.

Definition number_len (b : bytes) : option nat := i ← int_len b; i ← frac_len b i; exp_len b i.

Lemma past_digits_run b i : past_digits b i = i + run is_ascii_digit (drop i b).
Proof. unfold past_digits. by rewrite run_position. Qed.

Lemma digits_len_past b i : (if past_digits b i =? i then None else Some (past_digits b i)) = digits_len b i.
Proof.
  rewrite past_digits_run. unfold digits_len. destruct (Nat.eqb_spec (i + run is_ascii_digit (drop i b)) i), (Nat.eqb_spec (run is_ascii_digit (drop i b)) 0); done || lia.
Qed.

Lemma valid_number_len b : valid_number b = bool_decide (number_len b = Some (length b)).
Proof.
  unfold valid_number. 
  assert (int_len b = match b !! (if bool_decide (head b = Some (ch "-")) then 1 else 0) with
    | Some d => if Z.eqb d (ch "0") then Some (S (if bool_decide (head b = Some (ch "-")) then 1 else 0))
                else if in_range (ch "1") (ch "9") d then Some (past_digits b (S (if bool_decide (head b = Some (ch "-")) then 1 else 0))) else None
    | None => None end) as Hint.
  { unfold int_len. destruct (b !! _) as [d|]; [|done]. cbn [mbind option_bind]. by rewrite past_digits_run. }
  unfold number_len. rewrite Hint. clear Hint. set (o := match b !! _ with Some _ => _ | None => _ end).
  destruct o as [i|]; cbn [mbind option_bind]; [|by rewrite bool_decide_false]. unfold frac_len. rewrite <-digits_len_past.
  set (o2 := if bool_decide (b !! i = Some (ch ".")) then _ else _). destruct o2 as [i2|]; cbn [mbind option_bind]; [|by rewrite bool_decide_false].
  unfold exp_len. rewrite <-digits_len_past. 
  set (o3 := if from_option is_exponent false (b !! i2) then _ else _). destruct o3 as [i3|]; [|by rewrite bool_decide_false].
  destruct (Nat.eqb_spec i3 (length b)) as [->|Hne]; [by rewrite bool_decide_true|]. rewrite bool_decide_false; [done|]. by intros [= ->].
Qed.

(** What cannot go on a number. *)
Definition is_number_byte (b : Z) : bool :=
  is_ascii_digit b || Z.eqb b (ch ".") || is_exponent b.
Definition stops (tail : bytes) : Prop := from_option is_number_byte false (head tail) = false.

Lemma stops_digit tail : stops tail → from_option is_ascii_digit false (head tail) = false.
Proof. unfold stops, is_number_byte. destruct tail; [done|]. cbn. by intros [[? _]%orb_false_iff _]%orb_false_iff. Qed.

Section Cut.
Context (b : bytes) (n : nat) (tail : bytes).
Hypothesis (Htail : stops tail).

Lemma lookup_cut_lt i : i < n → n <= length b → (take n b ++ tail) !! i = b !! i.
Proof. intros Hi Hn. rewrite lookup_app_l by (rewrite length_take; lia). by rewrite lookup_take_lt. Qed.

Lemma lookup_cut_end : n <= length b → (take n b ++ tail) !! n = head tail.
Proof.
  intros Hn. rewrite lookup_app_r by (rewrite length_take; lia). by rewrite length_take, Nat.min_l, Nat.sub_diag, head_lookup by lia.
Qed.

Lemma run_cut_from i :
  n <= length b → i + run is_ascii_digit (drop i b) <= n → run is_ascii_digit (drop i (take n b ++ tail)) = run is_ascii_digit (drop i b).
Proof.
  intros Hn Hi. rewrite drop_app_le by (rewrite length_take; lia). rewrite skipn_firstn_comm.
  apply run_cut; [lia|by apply stops_digit].
Qed.

Lemma digits_len_cut i : n <= length b → digits_len b i = Some n → digits_len (take n b ++ tail) i = Some n.
Proof.
  unfold digits_len. intros Hn. destruct (Nat.eqb_spec (run is_ascii_digit (drop i b)) 0) as [|Hne]; [done|]. intros [= Hi].
  rewrite run_cut_from by lia. by destruct (Nat.eqb_spec (run is_ascii_digit (drop i b)) 0); [|rewrite Hi].
Qed.

Lemma stops_head c : head tail = Some c → is_number_byte c = false.
Proof. unfold stops in Htail. destruct tail; [done|]. by intros [= ->]. Qed.

Lemma exp_len_cut i : n <= length b → i <= n → exp_len b i = Some n → exp_len (take n b ++ tail) i = Some n.
Proof.
  intros Hn Hi. unfold exp_len. destruct (from_option is_exponent false (b !! i)) eqn:He.
  - intros Hd. assert (i < n ∧ S i < n) as [Hlt Hlt'].
    { unfold digits_len in Hd. destruct (Nat.eqb_spec (run is_ascii_digit (drop (if from_option is_sign false (b !! S i) then S (S i) else S i) b)) 0); [done|].
      injection Hd as Hd. destruct (from_option is_sign _ _); lia. }
    rewrite !lookup_cut_lt by lia. rewrite He. by apply digits_len_cut.
  - intros [= ->]. rewrite lookup_cut_end by done. destruct (head tail) as [c|] eqn:Hc; [|done].
    apply stops_head in Hc. cbn. unfold is_number_byte in Hc. apply orb_false_iff in Hc as [_ ->]. done.
Qed.

Lemma digits_len_bound i j : digits_len b i = Some j → S i <= j <= length b.
Proof.
  unfold digits_len. destruct (Nat.eqb_spec (run is_ascii_digit (drop i b)) 0); [done|]. intros [= <-].
  pose proof (run_le is_ascii_digit (drop i b)) as Hr. rewrite length_drop in Hr. lia.
Qed.

Lemma exp_len_bound i j : i <= length b → exp_len b i = Some j → i <= j <= length b.
Proof.
  unfold exp_len. intros Hi. destruct (from_option is_exponent false (b !! i)); [|intros [= <-]; lia].
  intros Hd%digits_len_bound. destruct (from_option is_sign _ _); lia.
Qed.

Lemma frac_len_bound i j : i <= length b → frac_len b i = Some j → i <= j <= length b.
Proof.
  unfold frac_len. intros Hi. destruct (bool_decide _); [|intros [= <-]; lia]. intros Hd%digits_len_bound. lia.
Qed.

Lemma int_len_bound i : int_len b = Some i → 1 <= i <= length b.
Proof.
  unfold int_len. set (s := if bool_decide _ then _ else _). destruct (b !! s) as [d|] eqn:Hd; [|done]. cbn [mbind option_bind].
  apply lookup_lt_Some in Hd. pose proof (run_le is_ascii_digit (drop (S s) b)) as Hr. rewrite length_drop in Hr.
  destruct (Z.eqb d (ch "0")); [intros [= <-]; lia|]. destruct (in_range _ _ _); [|done]. intros [= <-]. lia.
Qed.

Lemma frac_len_cut i j : n <= length b → i <= j → j <= n → frac_len b i = Some j → (j = n → frac_len (take n b ++ tail) i = Some j)
  ∧ (j < n → is_number_byte (default 0%Z (b !! j)) = true → frac_len (take n b ++ tail) i = Some j).
Proof.
  intros Hn Hij Hj. unfold frac_len. case_bool_decide as Hdot.
  - intros Hd. pose proof (digits_len_bound _ _ Hd). rewrite lookup_cut_lt, bool_decide_true by (done || lia). split.
    + intros ->. by apply digits_len_cut.
    + intros Hlt _. unfold digits_len in *. rewrite run_cut_from; [done|done|].
      destruct (Nat.eqb_spec (run is_ascii_digit (drop (S i) b)) 0); [done|]. injection Hd as Hd. lia.
  - intros [= <-]. split.
    + intros ->. rewrite lookup_cut_end by done. rewrite bool_decide_false; [done|]. intros Hc%stops_head. done.
    + intros Hlt _. rewrite lookup_cut_lt by lia. by rewrite bool_decide_false.
Qed.

Lemma int_len_cut i : n <= length b → i <= n → int_len b = Some i → int_len (take n b ++ tail) = Some i.
Proof.
  intros Hn Hi Hl. pose proof (int_len_bound _ Hl) as Hb. unfold int_len in *.
  rewrite !head_lookup in *. rewrite lookup_cut_lt by lia.
  set (s := if bool_decide (b !! 0 = Some (ch "-")) then 1 else 0) in *.
  destruct (b !! s) as [d|] eqn:Hd; [|done]. cbn [mbind option_bind] in Hl.
  assert (s < i) by (destruct (Z.eqb d (ch "0")); [injection Hl as <-; lia|destruct (in_range _ _ _); [injection Hl as <-; lia|done]]).
  rewrite lookup_cut_lt, Hd by lia. cbn [mbind option_bind]. destruct (Z.eqb d (ch "0")); [done|]. destruct (in_range _ _ _); [|done].
  injection Hl as Hl. rewrite run_cut_from; [f_equal; lia|done|lia].
Qed.
End Cut.

(** A number ends where it does whatever stands behind it. *)
Lemma number_len_cut b n tail : stops tail → number_len b = Some n → number_len (take n b ++ tail) = Some n.
Proof.
  intros Ht. unfold number_len. destruct (int_len b) as [i|] eqn:Hi; [|done]. cbn [mbind option_bind].
  destruct (frac_len b i) as [j|] eqn:Hj; [|done]. cbn [mbind option_bind]. intros He.
  pose proof (int_len_bound _ _ Hi) as Bi. pose proof (frac_len_bound b i j ltac:(lia) Hj) as Bj. pose proof (exp_len_bound b j n ltac:(lia) He) as Bn.
  rewrite (int_len_cut _ _ _ Ht i) by (done || lia). cbn [mbind option_bind].
  assert (frac_len (take n b ++ tail) i = Some j) as ->.
  { destruct (frac_len_cut b n tail Ht i j) as [H1 H2]; [lia..|done|]. destruct (decide (j = n)) as [E|Hne]; [by apply H1|]. apply H2; [lia|].
    unfold exp_len in He. destruct (from_option is_exponent false (b !! j)) eqn:Hexp; [|by injection He].
    destruct (b !! j) as [c|]; [|done]. cbn in *. unfold is_number_byte. rewrite Hexp. by rewrite orb_true_r. }
  cbn [mbind option_bind]. apply exp_len_cut; (done || lia).
Qed.

Lemma number_len_bound b n : number_len b = Some n → 1 <= n <= length b.
Proof.
  unfold number_len. destruct (int_len b) as [i|] eqn:Hi; [|done]. cbn [mbind option_bind].
  destruct (frac_len b i) as [j|] eqn:Hj; [|done]. cbn [mbind option_bind]. intros He.
  pose proof (int_len_bound _ _ Hi) as Bi. pose proof (frac_len_bound b i j ltac:(lia) Hj) as Bj. pose proof (exp_len_bound b j n ltac:(lia) He). lia.
Qed.

Lemma number_len_valid b n : number_len b = Some n → valid_number (take n b) = true.
Proof.
  intros Hn. pose proof (number_len_bound _ _ Hn). apply (number_len_cut _ _ [] eq_refl) in Hn. rewrite app_nil_r in Hn.
  rewrite valid_number_len, Hn. apply bool_decide_true. rewrite length_take. f_equal. lia.
Qed.

Lemma valid_number_app b tail : valid_number b = true → stops tail → number_len (b ++ tail) = Some (length b).
Proof.
  rewrite valid_number_len. intros Hb%bool_decide_eq_true Ht. pose proof (number_len_cut _ _ _ Ht Hb) as H.
  by rewrite firstn_all in H.
Qed.

Section Number.
Context (t : bytes).

Lemma digits_len_drop p i : digits_len (drop p t) i = (λ j, j - p) <$> digits_len t (p + i).
Proof.
  unfold digits_len. rewrite drop_drop. destruct (Nat.eqb_spec (run is_ascii_digit (drop (p + i) t)) 0); [done|]. cbn. f_equal. lia.
Qed.

Lemma settles_digits_len k p i pointer Q :
  (∀ k' n, k <= k' → near t k' (p + n) → digits_len (drop p t) i = Some n → Q (Ok (p + n)) k' false) →
  (∀ k' e, k <= k' → digits_len (drop p t) i = None → Q (Err e) k' false) →
  settles t k (digits (p + i) pointer) Q.
Proof.
  intros HQ HE. apply settles_digits.
  - intros k' Hk Hn Hr. rewrite <-Nat.add_assoc in *. apply HQ; [done|done|]. unfold digits_len. rewrite drop_drop.
    by destruct (Nat.eqb_spec (run is_ascii_digit (drop (p + i) t)) 0); [lia|].
  - intros k' e Hk Hr. apply HE; [done|]. unfold digits_len. by rewrite drop_drop, Hr.
Qed.

Lemma settles_skip_if k f p Q :
  (∀ k', k <= k' → near t k' p → Q (Ok (if from_option f false (t !! p) then S p else p)) k' false) → settles t k (skip_if f p) Q.
Proof. intros HQ. apply settles_bind, settles_at. intros k' Hk Hn. by apply settles_ret, HQ. Qed.

Lemma settles_integer_part k p s pointer Q :
  s = (if bool_decide (head (drop p t) = Some (ch "-")) then 1 else 0) →
  (∀ k' n, k <= k' → int_len (drop p t) = Some n → Q (Ok (p + n)) k' false) →
  (∀ k' e, k <= k' → int_len (drop p t) = None → Q (Err e) k' false) →
  settles t k (integer_part (p + s) pointer) Q.
Proof.
  intros Hs HQ HE. unfold int_len in HQ, HE. rewrite <-Hs in HQ, HE. rewrite lookup_drop in HQ, HE.
  apply settles_bind, settles_at. intros k' Hk Hn. destruct (t !! (p + s)) as [d|] eqn:Hd; cbn [mbind option_bind] in HQ, HE.
  - pose proof (lookup_lt_Some _ _ _ Hd) as Hlt. unfold near in Hn. rewrite drop_drop in HQ, HE.
    destruct (Z.eqb d (ch "0")); [|destruct (in_range (ch "1") (ch "9") d)].
    + apply settles_ret. rewrite <-Nat.add_succ_r. by apply HQ.
    + apply settles_skip_while. intros k'' Hk' _. rewrite <-Nat.add_succ_r, <-Nat.add_assoc. apply HQ; [lia|done].
    + apply settles_invalid; [lia|]. by apply HE.
  - apply settles_fail. by apply HE.
Qed.

Lemma settles_fraction_part k p i pointer Q :
  (∀ k' n, k <= k' → frac_len (drop p t) i = Some n → Q (Ok (p + n)) k' false) →
  (∀ k' e, k <= k' → frac_len (drop p t) i = None → Q (Err e) k' false) →
  settles t k (fraction_part (p + i) pointer) Q.
Proof.
  intros HQ HE. unfold frac_len in HQ, HE. rewrite lookup_drop in HQ, HE. apply settles_bind, settles_at. intros k' Hk Hn.
  case_bool_decide.
  - rewrite <-Nat.add_succ_r. apply settles_digits_len; intros; [apply HQ|apply HE]; (done || lia).
  - apply settles_ret. by apply HQ.
Qed.

Lemma settles_exponent_part k p i pointer Q :
  (∀ k' n, k <= k' → near t k' (p + n) → exp_len (drop p t) i = Some n → Q (Ok (p + n)) k' false) →
  (∀ k' e, k <= k' → exp_len (drop p t) i = None → Q (Err e) k' false) →
  settles t k (exponent_part (p + i) pointer) Q.
Proof.
  intros HQ HE. unfold exp_len in HQ, HE. rewrite !lookup_drop, Nat.add_succ_r in HQ, HE. apply settles_bind, settles_at. intros k' Hk Hn.
  destruct (from_option is_exponent false (t !! (p + i))).
  - apply settles_bind, settles_skip_if. intros k'' Hk' _.
    replace (if from_option is_sign false (t !! S (p + i)) then S (S (p + i)) else S (p + i))
      with (p + if from_option is_sign false (t !! S (p + i)) then S (S i) else S i) by (destruct (from_option _ _ _); lia).
    apply settles_digits_len; intros; [apply HQ|apply HE]; (done || lia).
  - apply settles_ret. by apply HQ.
Qed.

(** The number at the front of what stands at [p]. *)
Lemma settles_number k p pointer Q :
  (∀ k' n, k <= k' → p + n <= k' → number_len (drop p t) = Some n → Q (Ok (p + n)) k' false) →
  (∀ k' e, k <= k' → number_len (drop p t) = None → Q (Err e) k' false) →
  settles t k (number p pointer) Q.
Proof.
  intros HQ HE. unfold number. apply settles_bind, settles_skip_if. intros k1 Hk1 _.
  set (s := if bool_decide (head (drop p t) = Some (ch "-")) then 1 else 0).
  replace (if from_option (Z.eqb (ch "-")) false (t !! p) then S p else p) with (p + s).
  2: { unfold s. rewrite lookup_head_drop. destruct (t !! p) as [c|]; cbn [from_option]; [|rewrite bool_decide_false by done; lia].
    destruct (Z.eqb_spec (ch "-") c) as [<-|Hne]; [rewrite bool_decide_true by done; lia|]. rewrite bool_decide_false; [lia|]. by intros [= ->]. }
  apply settles_bind, settles_integer_part; [done| |].
  2: { intros k' e Hk Hi. apply HE; [lia|]. unfold number_len. by rewrite Hi. }
  intros k2 i Hk2 Hi. apply settles_bind, settles_fraction_part.
  2: { intros k' e Hk Hf. apply HE; [lia|]. unfold number_len. rewrite Hi. cbn. by rewrite Hf. }
  intros k3 j Hk3 Hj. apply settles_exponent_part.
  - intros k4 n Hk4 Hn He. assert (number_len (drop p t) = Some n) as Hnum.
    { unfold number_len. rewrite Hi. cbn. by rewrite Hj. }
    apply HQ; [lia| |done]. apply number_len_bound in Hnum. rewrite length_drop in Hnum. unfold near in Hn. lia.
  - intros k4 e Hk4 He. apply HE; [lia|]. unfold number_len. rewrite Hi. cbn. by rewrite Hj.
Qed.
End Number.
