(* ===== verification/JsonStrings.v ===== *)
(** How the JSON lexer reads strings, and the writer writes them: a string is a list of
    runes, which the writer spells one after the other. *)

From S2P Require Import Prelude Wtf8 BaseProto JsonState JsonWire JsonLex.

Local Open Scope nat_scope.

(** ** Runs of plain bytes *)

Lemma loop_fuel_mono {S X R} n m (body : X → St S (X + R)) x s y :
  n <= m → loop_fuel n body x s = Some y → loop_fuel m body x s = Some y.
Proof.
  revert m x s. induction n as [|n IH]; intros [|m] x s Hle; [done|done|lia|]. cbn [loop_fuel]. unfold mbind, st_bind.
  destruct (body x s) as [[[[x'|z]|e] s']|]; [apply IH; lia|done..].
Qed.

(** A run makes no difference: the loop that takes one byte at a time does the same. *)
Lemma string_body_rounds n pointer allow st i y :
  loop_fuel n (λ '(p, out), string_round pointer allow p out) st i = Some y →
  loop_fuel n (string_body pointer allow) st i = Some y.
Proof.
  revert st i. induction (lt_wf n) as [n _ IH]. intros [p out] i.
  assert (∀ l n p out, Forall (λ b, is_plain b = true) l → l `prefix_of` drop p (i_bytes i) →
    loop_fuel n (λ '(p, out), string_round pointer allow p out) (p, out) i = Some y →
    ∃ m, m <= n ∧ loop_fuel m (λ '(p, out), string_round pointer allow p out) (p + length l, if 0 <? length l then emit out l else out) i = Some y) as Hrun.
  { clear. intros l. induction l as [|b l IH]; intros n p out Hl Hp Hn; [exists n; by rewrite Nat.add_0_r|].
    apply Forall_cons in Hl as [Hb Hl]. destruct n as [|n]; [done|]. destruct Hp as [tail Hp].
    assert (i_bytes i !! p = Some b) as Hbp by (by rewrite <-(Nat.add_0_r p), <-lookup_drop, Hp).
    cbn [loop_fuel] in Hn. unfold mbind at 1, st_bind at 1 in Hn. unfold string_round at 1, mbind at 1, st_bind at 1, byte_at at 1 in Hn.
    rewrite Hbp in Hn. unfold is_plain in Hb. apply negb_true_iff in Hb. rewrite !orb_false_iff in Hb. destruct Hb as [[[H1 H2] H3] H4].
    rewrite H1, H2, H3, H4 in Hn. cbn in Hn.
    destruct (IH n (S p) (emit out [b])) as (m & Hm & E); [done| |done|].
    { exists tail. rewrite <-(Nat.add_1_r p), <-drop_drop, Hp. done. }
    exists m. split; [lia|]. cbn [length]. rewrite Nat.add_succ_r. cbn [Nat.ltb Nat.leb]. rewrite <-E. do 2 f_equal.
    destruct l as [|c l]; [done|]. cbn. destruct out; cbn; [|done]. by rewrite <-app_assoc. }
  intros Hn. set (rest := drop p (i_bytes i)). set (r := run is_plain rest).
  destruct (Hrun (take r rest) n p out) as (m & Hm & E); [apply run_take|by exists (drop r rest); rewrite take_drop|done|].
  assert (length (take r rest) = r) as Hlen by (rewrite length_take; pose proof (run_le is_plain rest); lia). rewrite Hlen in E.
  destruct m as [|m]; [done|]. apply (loop_fuel_mono (S m)); [lia|]. cbn [loop_fuel] in E |- *.
  unfold mbind at 1, st_bind at 1. unfold mbind at 1, st_bind at 1 in E. unfold string_body at 1, mbind at 1, st_bind at 1, gets.
  fold rest. rewrite run_position. fold r. destruct (string_round pointer allow (p + r) _ i) as [[[[st'|z]|e] i']|]; [|done..].
  apply IH; [lia|done].
Qed.

Lemma settles_string_into t k start pointer allow keep Q :
  settles t k (loop (λ '(p, out), string_round pointer allow p out) (S start, if keep : bool then Some [] else None)) Q →
  settles t k (string_into start pointer allow keep) Q.
Proof.
  intros (r & k' & nc & Hg & Hk & HQ). exists r, k', nc. split_and!; [|done..]. intros i Hi. destruct (Hg i Hi) as (i' & E & H).
  exists i'. split; [|done]. by apply string_body_rounds.
Qed.

(** ** Runes *)

Definition utf8 (rs : list Z) : bytes := concat (char_encode_utf8 <$> rs).
Definition written (rs : list Z) : bytes := concat (write_rune <$> rs).

Lemma utf8_cons r rs : utf8 (r :: rs) = char_encode_utf8 r ++ utf8 rs.
Proof. done. Qed.
Lemma written_cons r rs : written (r :: rs) = write_rune r ++ written rs.
Proof. done. Qed.
Lemma utf8_app a b : utf8 (a ++ b) = utf8 a ++ utf8 b.
Proof. unfold utf8. by rewrite fmap_app, concat_app. Qed.
Lemma written_app a b : written (a ++ b) = written a ++ written b.
Proof. unfold written. by rewrite fmap_app, concat_app. Qed.

Lemma utf8_snoc rs r : utf8 (rs ++ [r]) = utf8 rs ++ char_encode_utf8 r.
Proof. unfold utf8. rewrite fmap_app, concat_app. cbn. by rewrite app_nil_r. Qed.
Lemma written_snoc rs r : written (rs ++ [r]) = written rs ++ write_rune r.
Proof. unfold written. rewrite fmap_app, concat_app. cbn. by rewrite app_nil_r. Qed.

Lemma scalar_ascii c : (0 <= c < 128)%Z → scalar c.
Proof. intros Hc. split; [unfold code_point; lia|]. apply is_surrogate_false. lia. Qed.

Lemma scalar_replacement : scalar RUNE_ERROR.
Proof. by split. Qed.

Lemma encode_ascii c : (c < 128)%Z → char_encode_utf8 c = [c].
Proof. intros Hc. unfold char_encode_utf8. by rewrite (proj2 (Z.ltb_lt c 0x80)). Qed.

Lemma append_rune_scalar c : scalar c → append_rune c = char_encode_utf8 c.
Proof.
  intros [Hc Hs]. unfold append_rune, char_from_u32. unfold code_point in Hc. rewrite Hs, (proj2 (Z.leb_le _ _)) by lia. done.
Qed.

Lemma encode_scalar c : scalar c → char_encode_utf8 c = utf8_arith c.
Proof. intros [Hc Hs]. apply char_encode_utf8_arith. unfold code_point in Hc. lia. Qed.

(** Four bytes are enough to decode a rune. *)
Lemma decode_utf8_four_bytes b tail : 4 <= length b → decode_utf8 (b ++ tail) = decode_utf8 b.
Proof.
  intros Hb. destruct b as [|b0 [|b1 [|b2 [|b3 b]]]]; cbn in Hb; try lia. unfold decode_utf8. cbn [app].
  destruct (b0 <? 0x80)%Z; [done|]. destruct (utf8_lead b0) as [[[[w lo] hi] m]|] eqn:Hl; [|done].
  pose proof (utf8_lead_width _ _ _ _ _ Hl) as Hw. cbn [nth].
  assert (∀ c, (length (b0 :: b1 :: b2 :: b3 :: c) <? w) = false) as E by (intros c; apply Nat.ltb_ge; cbn; lia).
  rewrite !E. assert (∀ c, take w (b0 :: b1 :: b2 :: b3 :: c) = take w [b0; b1; b2; b3]) as Et.
  { intros c. destruct w as [|[|[|[|[|w]]]]]; try lia; done. }
  by rewrite (Et b), (Et (b ++ tail)).
Qed.

Lemma decode_utf8_prefix t b i :
  b `prefix_of` t → S (i + 3) <= length b ∨ length t <= length b → decode_utf8 (drop i b) = decode_utf8 (drop i t).
Proof.
  intros [tail ->] [Hb|Hb].
  - rewrite drop_app_le by lia. rewrite decode_utf8_four_bytes; [done|]. rewrite length_drop. lia.
  - rewrite length_app in Hb. destruct tail; [by rewrite app_nil_r|cbn in Hb; lia].
Qed.

Section Rounds.
Context (t : bytes).
Hypothesis (Ht : all_bytes t).

Implicit Types (out : option bytes).

(** ** What a round can take *)

Lemma settles_hex4 k p slash pointer Q :
  (∀ k' v, k <= k' → p + 4 <= k' → p + 4 <= length t → (0 <= v <= 0xffff)%Z → Q (Ok v) k' false) →
  (∀ k' e, k <= k' → Q (Err e) k' false) →
  settles t k (hex4 p slash pointer) Q.
Proof.
  intros HQ HE. unfold hex4.
  assert (∀ m k' p' v, k <= k' → p' + m = p + 4 → (m < 4 → p' <= k' ∧ p' <= length t) → (0 <= v < 16 ^ (4 - Z.of_nat m))%Z → m <= 4 →
    settles t k' (hex4_from m p' slash pointer v) Q) as H; [|apply H; lia].
  intros m. induction m as [|m IH]; intros k' p' v Hk Hp Hle Hv Hm; cbn [hex4_from].
  - apply settles_ret. change (16 ^ (4 - Z.of_nat 0))%Z with 65536%Z in Hv. apply HQ; lia.
  - apply settles_bind, settles_at. intros k'' Hk' Hn. destruct (t !! p') as [b|] eqn:Hb; [|apply settles_fail, HE; lia].
    apply lookup_lt_Some in Hb. unfold near in Hn. destruct (hex_value b) as [d|] eqn:Hd; [|apply settles_invalid; [lia|]; apply HE; lia].
    apply IH; [lia|lia|lia| |lia].
    assert (0 <= d < 16)%Z by (unfold hex_value in Hd; chars; if_split; injection Hd as <-; zlia).
    replace (4 - Z.of_nat m)%Z with (Z.succ (4 - Z.of_nat (S m))) by lia. rewrite Z.pow_succ_r by lia. lia.
Qed.

Lemma settles_low_half k first i pointer Q :
  (∀ k' o, k <= k' → (∀ second, o = Some second → i + 6 <= k' ∧ i + 6 <= length t ∧ (0xdc00 <= second <= 0xdfff)%Z ∧ (first <= 0xdbff)%Z) →
     Q (Ok o) k' false) →
  settles t k (low_half first i pointer) Q.
Proof.
  intros HQ. unfold low_half. destruct (Z.leb_spec first 0xdbff); [|by apply settles_ret, HQ].
  apply settles_bind, settles_at. intros k1 Hk1 _. cbn [orb]. case_bool_decide; [|by apply settles_ret, HQ; [lia|]].
  apply settles_bind, settles_at. intros k2 Hk2 _. cbn [orb]. case_bool_decide; [|by apply settles_ret, HQ; [lia|]].
  apply settles_bind, settles_try, settles_hex4.
  - intros k3 v Hk3 Hle Hlt Hv. apply settles_ret. destruct (is_low_surrogate v) eqn:Hl; apply HQ; [lia| |lia|done].
    intros second [= <-]. apply in_range_true in Hl. split_and!; (done || lia).
  - intros k3 e Hk3. apply settles_ret. by apply HQ; [lia|].
Qed.

Lemma settles_escaped_rune k first i slash pointer allow Q :
  (0 <= first <= 0xffff)%Z → i <= k → i <= length t →
  (∀ k' r i', k <= k' → i <= i' <= k' → i' <= length t → scalar r → Q (Ok (r, i')) k' false) →
  (∀ k' e, k <= k' → Q (Err e) k' false) →
  settles t k (escaped_rune first i slash pointer allow) Q.
Proof.
  intros Hf Hi Hlt HQ HE. unfold escaped_rune. destruct (is_surrogate first) eqn:Hs.
  2: { apply settles_ret. apply HQ; [done|lia|done|]. split; [unfold code_point; lia|done]. }
  apply settles_bind, settles_low_half. intros k1 o Hk1 Ho. cbn [orb]. destruct o as [second|].
  - apply settles_ret. destruct (Ho second eq_refl) as (Hle & Hlen & Hsec & Hfst). apply is_surrogate_true in Hs.
    apply HQ; [lia|lia|lia|]. rewrite Z.shiftl_mul_pow2 by lia. split; [unfold code_point; lia|apply is_surrogate_false; lia].
  - destruct allow; [apply settles_ret, HQ; [lia..|apply scalar_replacement]|].
    apply settles_bind, settles_at. intros k2 Hk2 Hn. cbn [orb].
    apply settles_gets with (m := fail (syntax slash pointer
            (bs "invalid surrogate pair `" ++ from_utf8_lossy (take 12 (drop slash t)) ++ bs "` in string"))).
    + intros b [tail Hb'] Hb. assert (take 12 (drop slash b) = take 12 (drop slash t)) as ->; [|done]. rewrite Hb' in *.
      unfold near in Hn. destruct Hn as [Hn|Hn]; [|rewrite length_app in Hn; destruct tail; [by rewrite app_nil_r|cbn in Hn; lia]].
      rewrite drop_app_le by lia. rewrite take_app_le; [done|]. rewrite length_drop. lia.
    + apply settles_fail, HE. lia.
Qed.

(** What a round takes is a rune; without a mark, it is how the writer spells the rune. *)
Definition took (i : nat) out (st : nat * option bytes) (k : nat) (nc : bool) : Prop :=
  ∃ rune, scalar rune ∧ st.2 = emit out (char_encode_utf8 rune) ∧ i < st.1 <= k ∧ st.1 <= length t
    ∧ (nc = false → take (st.1 - i) (drop i t) = write_rune rune).

Lemma slice_two i b c : t !! i = Some b → t !! S i = Some c → take (i + 2 - i) (drop i t) = [b; c].
Proof. intros Hb Hc. replace (i + 2 - i) with 2 by lia. by rewrite (drop_S _ _ _ Hb), (drop_S _ _ _ Hc). Qed.

Lemma took_escape i out k escape rune nc :
  t !! i = Some 92%Z → t !! S i = Some escape → S i < k → (0 <= rune < 128)%Z → (nc = false → [92%Z; escape] = write_rune rune) →
  took i out (i + 2, emit out [rune]) k nc.
Proof.
  intros Hb He Hk Hr Hw. exists rune. cbn. split_and!; [by apply scalar_ascii|by rewrite encode_ascii by lia|lia|lia| |].
  - apply lookup_lt_Some in He. lia.
  - intros Hnc. by rewrite (slice_two _ 92%Z escape), Hw.
Qed.

Lemma settles_string_escape k i pointer allow out Q :
  t !! i = Some 92%Z → i < k →
  (∀ k' st nc, k <= k' → took i out st k' nc → Q (Ok st) k' nc) → (∀ k' e nc, k <= k' → Q (Err e) k' nc) →
  settles t k (string_escape i pointer allow out) Q.
Proof.
  intros Hb Hi HQ HE. unfold string_escape. apply settles_bind, settles_at. intros k1 Hk1 Hn.
  destruct (t !! S i) as [c|] eqn:Hc; [|by apply settles_fail, HE]. pose proof (lookup_lt_Some _ _ _ Hc) as Hlt.
  assert (S i < k1) as Hk by (unfold near in Hn; lia). clear Hn. cbn [orb]. chars.
  destruct ((c =? 34)%Z || (c =? 92)%Z) eqn:E1.
  { apply settles_ret, HQ; [done|]. apply (took_escape _ _ _ c); [done|done|done|lia|]. intros _.
    apply orb_true_iff in E1 as [->%Z.eqb_eq| ->%Z.eqb_eq]; done. }
  destruct (Z.eqb_spec c 47) as [->|_].
  { apply settles_bind, settles_noncanonical, settles_ret. cbn [orb]. apply HQ; [done|]. by apply (took_escape _ _ _ 47%Z). }
  destruct (Z.eqb_spec c 98) as [->|_]; [by apply settles_ret, HQ; [done|]; apply (took_escape _ _ _ 98%Z)|].
  destruct (Z.eqb_spec c 102) as [->|_]; [by apply settles_ret, HQ; [done|]; apply (took_escape _ _ _ 102%Z)|].
  destruct (Z.eqb_spec c 110) as [->|_]; [by apply settles_ret, HQ; [done|]; apply (took_escape _ _ _ 110%Z)|].
  destruct (Z.eqb_spec c 114) as [->|_]; [by apply settles_ret, HQ; [done|]; apply (took_escape _ _ _ 114%Z)|].
  destruct (Z.eqb_spec c 116) as [->|_]; [by apply settles_ret, HQ; [done|]; apply (took_escape _ _ _ 116%Z)|].
  destruct (Z.eqb_spec c 117) as [->|_].
  - apply settles_bind, settles_noncanonical. cbn [orb]. apply settles_bind, settles_hex4; [|intros; apply HE; lia].
    intros k2 v Hk2 Hle Hlen Hv. apply settles_bind, settles_escaped_rune; [done|lia|lia| |intros; apply HE; lia].
    intros k3 r i' Hk3 Hi' Hlen' Hr. apply settles_ret. cbn [orb]. apply HQ; [lia|]. exists r. cbn.
    split_and!; [done|by rewrite append_rune_scalar|lia|lia|done|done].
  - apply settles_invalid; [lia|]. by apply HE.
Qed.

Lemma take_app_exact {A} (l1 l2 : list A) n : n = length l1 → take n (l1 ++ l2) = l1.
Proof. intros ->. apply take_app_length. Qed.

Lemma settles_string_round k i pointer allow out Q :
  (∀ k' st nc, k <= k' → took i out st k' nc → Q (Ok (inl st)) k' nc) →
  (∀ k', k <= k' → t !! i = Some 34%Z → i < k' → Q (Ok (inr (S i, out))) k' false) →
  (∀ k' e nc, k <= k' → Q (Err e) k' nc) →
  settles t k (string_round pointer allow i out) Q.
Proof.
  intros HQ Hend HE. unfold string_round. apply settles_bind, settles_at. intros k1 Hk1 Hn.
  destruct (t !! i) as [b|] eqn:Hb; [|by apply settles_fail, HE]. pose proof (lookup_lt_Some _ _ _ Hb) as Hlt.
  assert (i < k1) as Hk by (unfold near in Hn; lia). clear Hn. cbn [orb].
  destruct (Z.eqb_spec b 34) as [->|N1]; [by apply settles_ret, Hend|].
  destruct (Z.eqb_spec b 92) as [->|N2].
  { apply settles_bind, settles_string_escape; [done|done| |]; intros; [apply settles_ret; rewrite orb_false_r; apply HQ; [lia|done]|apply HE; lia]. }
  destruct (Z.leb_spec b 31); [by apply settles_invalid; [lia|]; apply HE|].
  destruct (Z.leb_spec 128 b) as [Hhi|Hlo].
  - apply settles_bind, settles_at. intros k2 Hk2 Hn. cbn [orb].
    eapply settles_gets; [intros b' Hp Hlen; rewrite (decode_utf8_prefix t b') by (done || (unfold near in Hn; lia)); reflexivity|].
    assert (drop i t ≠ []) as Hne by (rewrite (drop_S _ _ _ Hb); done).
    destruct (decode_utf8_inv (drop i t) ltac:(by apply Forall_drop) Hne) as [E|(c & rest & Hc & E)].
    + rewrite E. cbn [andb Z.eqb Nat.eqb]. replace (RUNE_ERROR =? RUNE_ERROR)%Z with true by done. cbn [andb]. apply settles_bind. destruct allow.
      * apply settles_noncanonical. cbn [orb]. apply settles_ret. cbn [orb]. apply HQ; [lia|]. exists RUNE_ERROR.
        split_and!; [apply scalar_replacement|done|cbn; lia|cbn; lia|cbn; lia|done].
      * apply settles_fail, HE. lia.
    + rewrite E, decode_utf8_encoded by done. pose proof (utf8_arith_width c) as Hw.
      assert (i + length (utf8_arith c) <= length t).
      { apply (f_equal length) in E. rewrite length_drop, length_app in E. lia. }
      assert ((c =? RUNE_ERROR)%Z && (length (utf8_arith c) =? 1) = false) as ->.
      { apply andb_false_iff. destruct (Z.eqb_spec c RUNE_ERROR) as [->|]; [right; done|by left]. }
      apply settles_bind, settles_ret, settles_ret. cbn [orb]. apply HQ; [lia|]. exists c. cbn [fst snd].
      split_and!; [done|by rewrite append_rune_scalar|lia|unfold near in Hn; lia|done|]. intros _. rewrite E, take_app_exact by lia.
      assert (128 <= c)%Z.
      { destruct (Z.leb_spec 128 c); [done|]. rewrite (drop_S _ _ _ Hb) in E. unfold utf8_arith in E.
        rewrite (proj2 (Z.ltb_lt c 128)) in E by lia. injection E as -> _. lia. }
      unfold write_rune. rewrite append_rune_scalar, encode_scalar by done. zlia. done.
  - apply settles_ret. cbn [orb]. apply HQ; [done|]. exists b. cbn [fst snd].
    split_and!; [apply scalar_ascii; lia|by rewrite encode_ascii by lia|lia|lia|lia|]. intros _.
    replace (S i - i) with 1 by lia. rewrite (drop_S _ _ _ Hb). cbn. rewrite take_0.
    unfold write_rune. rewrite append_rune_scalar, encode_ascii by (try apply scalar_ascii; lia). zlia. done.
Qed.
End Rounds.

Section Strings.
Context (t : bytes).
Hypothesis (Ht : all_bytes t).

(** What is read of a string: runes, spelled as the writer would unless there is a mark. *)
Lemma settles_string k start pointer allow (keep : bool) Q :
  t !! start = Some 34%Z →
  (∀ k' n rs nc, k <= k' → start + n <= k' → 2 <= n → start + n <= length t → Forall scalar rs →
     (nc = false → take n (drop start t) = 34%Z :: written rs ++ [34%Z]) →
     Q (Ok (start + n, if keep then Some (utf8 rs) else None)) k' nc) →
  (∀ k' e nc, k <= k' → Q (Err e) k' nc) →
  settles t k (string_into start pointer allow keep) Q.
Proof.
  intros Hs HQ HE. pose proof (lookup_lt_Some _ _ _ Hs) as Hlt. apply settles_string_into.
  apply (settles_loop t k _ _ (λ '(p, out) _ nc, ∃ rs, Forall scalar rs ∧ out = (if keep then Some (utf8 rs) else None)
    ∧ start < p <= length t ∧ (nc = false → take (p - S start) (drop (S start) t) = written rs)) (λ '(p, _), length t - p)).
  - intros [p out] k' nc Hk (rs & Hrs & -> & Hp & Hw). apply settles_string_round; [done|..].
    + intros k'' [p' out'] nc' Hk' (r & Hr & Ho & Hpk & Hlen & Htake). cbn [fst snd] in *. split; [|lia].
      exists (rs ++ [r]). split_and!; [apply Forall_app; split; [done|by apply Forall_singleton]| |lia|done|].
      * rewrite Ho, utf8_snoc. by destruct keep.
      * intros [-> ->]%orb_false_iff. rewrite written_snoc, <-Hw, <-Htake by done.
        replace (p' - S start) with ((p - S start) + (p' - p)) by lia. rewrite <-take_take_drop, drop_drop. do 3 f_equal. lia.
    + intros k'' Hk' Hq Hpk. rewrite orb_false_r. replace (S p) with (start + (S p - start)) by lia. apply lookup_lt_Some in Hq as Hlq.
      apply HQ; [lia..|done|]. intros Hnc. replace (S p - start) with (S ((p - S start) + 1)) by lia.
      rewrite (drop_S _ _ _ Hs). cbn [take]. f_equal. rewrite <-take_take_drop, Hw, drop_drop by done. f_equal.
      replace (S start + (p - S start)) with p by lia. by rewrite (drop_S _ _ _ Hq).
    + intros. apply HE. lia.
  - exists []. split_and!; [constructor|by destruct keep|lia|lia|]. intros _. by rewrite Nat.sub_diag.
  - lia.
Qed.

Lemma drop_lookup p x l : drop p t = x :: l → t !! p = Some x ∧ drop (S p) t = l.
Proof.
  intros Hd. split; [by rewrite <-(Nat.add_0_r p), <-lookup_drop, Hd|]. by rewrite <-Nat.add_1_r, <-drop_drop, Hd.
Qed.

Lemma settles_hex4_written k p x y tail slash pointer dx dy Q :
  drop p t = 48%Z :: 48%Z :: x :: y :: tail → hex_value x = Some dx → hex_value y = Some dy →
  (∀ k' nc, k <= k' → Q (Ok (dx * 16 + dy)%Z) k' nc) → settles t k (hex4 p slash pointer) Q.
Proof.
  intros Hd Hx Hy HQ. apply drop_lookup in Hd as [H0 [H1 [H2 [H3 _]%drop_lookup]%drop_lookup]%drop_lookup].
  unfold hex4. cbn [hex4_from].
  do 4 (apply settles_bind, settles_at; intros; rewrite ?H0, ?H1, ?H2, ?H3; rewrite ?Hx, ?Hy; cbn [hex_value in_range andb Z.leb]).
  apply settles_ret. apply HQ. lia.
Qed.
Lemma hex_value_digit d : (0 <= d < 16)%Z → hex_value (lower_hex_digit d) = Some d.
Proof. intros Hd. unfold lower_hex_digit, hex_value. chars. zlia; cbn; try done; f_equal; lia. Qed.

Lemma write_rune_high r : scalar r → (128 <= r)%Z → write_rune r = utf8_arith r.
Proof. intros Hr Hhi. unfold write_rune. rewrite append_rune_scalar, encode_scalar by done. zlia. done. Qed.

(** The escapes of the writer for single characters. *)
Definition short_escapes : list (Z * Z) := [(98, 8); (116, 9); (110, 10); (102, 12); (114, 13); (34, 34); (92, 92)]%Z.

Lemma write_rune_low r : (0 <= r < 128)%Z →
  (∃ c, write_rune r = [92; c]%Z ∧ (c, r) ∈ short_escapes)
  ∨ (write_rune r = [92; 117; 48; 48; lower_hex_digit (r / 16); lower_hex_digit (r mod 16)]%Z ∧ (r < 32)%Z)
  ∨ (write_rune r = [r] ∧ (32 <= r)%Z ∧ r ≠ 34%Z ∧ r ≠ 92%Z).
Proof.
  intros Hr. unfold write_rune.
  repeat match goal with |- context [if (r =? ?v)%Z then _ else _] => destruct (Z.eqb_spec r v) as [->|];
    [left; eexists; split; [reflexivity|]; unfold short_escapes; rewrite !elem_of_cons; tauto|] end.
  right. destruct (in_range 0 31 r) eqn:E; [left|right].
  - apply in_range_true in E. by split; [|lia].
  - apply in_range_false in E. rewrite append_rune_scalar, encode_ascii by (try apply scalar_ascii; lia). split_and!; [done|lia|done|done].
Qed.

(** The round that reads a rune as the writer spells it. *)
Lemma settles_string_round_written k p r tail pointer allow out Q :
  scalar r → drop p t = write_rune r ++ tail →
  (∀ k' nc, k <= k' → Q (Ok (inl (p + length (write_rune r), emit out (char_encode_utf8 r)))) k' nc) →
  settles t k (string_round pointer allow p out) Q.
Proof.
  intros Hr Hd HQ. unfold string_round. apply settles_bind, settles_at. intros k1 Hk1 _. cbn [orb].
  destruct (Z.le_gt_cases 128 r) as [Hhi|Hlo].
  - rewrite write_rune_high in * by done.
    assert (∃ b l, utf8_arith r = b :: l ∧ 128 <= b)%Z as (b & l & Eb & Hb).
    { unfold utf8_arith. rewrite (proj2 (Z.ltb_ge r 128)) by done. if_split; eexists _, _; (split; [done|]); apply Z.ltb_ge in Heqb || idtac; zdiv. }
    pose proof Hd as Hd'. rewrite Eb in Hd'. apply drop_lookup in Hd' as [-> _]. zlia. cbn [orb].
    apply settles_bind, settles_at. intros k2 Hk2 Hn. cbn [orb].
    eapply settles_gets; [intros b' Hp Hlen; rewrite (decode_utf8_prefix t b') by (done || (unfold near in Hn; lia)); reflexivity|].
    rewrite Hd, decode_utf8_encoded by done.
    assert ((r =? RUNE_ERROR)%Z && (length (utf8_arith r) =? 1) = false) as ->.
    { apply andb_false_iff. destruct (Z.eqb_spec r RUNE_ERROR) as [->|]; [right; done|by left]. }
    apply settles_bind, settles_ret, settles_ret. cbn [orb]. rewrite append_rune_scalar by done. apply HQ. lia.
  - destruct Hr as [Hc Hs]. unfold code_point in Hc. destruct (write_rune_low r ltac:(lia)) as [(c & Hw & Hin)|[[Hw H32]|(Hw & H32 & N1 & N2)]];
      rewrite Hw in Hd, HQ; cbn [length] in HQ; rewrite encode_ascii in HQ by lia.
    + apply drop_lookup in Hd as [-> [Hc1 _]%drop_lookup]. cbn [Z.eqb Pos.eqb]. unfold string_escape.
      apply settles_bind, settles_bind, settles_at. intros k2 Hk2 _. rewrite Hc1. chars. unfold short_escapes in Hin. rewrite !elem_of_cons, elem_of_nil in Hin.
      destruct_or! Hin; try done; injection Hin as -> ->; cbn [Z.eqb orb Pos.eqb]; (apply settles_ret, settles_ret; cbn [orb]; apply HQ; lia).
    + apply drop_lookup in Hd as [-> [Hc1 Hd]%drop_lookup]. cbn [Z.eqb Pos.eqb]. unfold string_escape.
      apply settles_bind, settles_bind, settles_at. intros k2 Hk2 _. rewrite Hc1. chars. cbn [Z.eqb orb Pos.eqb].
      apply settles_bind, settles_noncanonical. apply settles_bind.
      replace (S (S p)) with (p + 2) in Hd by lia.
      apply (settles_hex4_written k2 _ _ _ _ _ _ (r / 16) (r mod 16) _ Hd); [apply hex_value_digit; zdiv..|].
      intros k3 nc Hk3. replace (r / 16 * 16 + r mod 16)%Z with r by zdiv. unfold escaped_rune. rewrite Hs.
        apply settles_bind, settles_ret, settles_ret, settles_ret. rewrite append_rune_scalar by (by split). rewrite encode_ascii by lia.
        replace (p + 2 + 4) with (p + 6) by lia. apply HQ. lia.
    + apply drop_lookup in Hd as [-> _]. zlia. cbn [orb]. apply settles_ret. replace (p + 1) with (S p) in HQ by lia. by apply HQ.
Qed.
(** Every string that the writer spells is read back. *)
Lemma settles_string_written k start rs tail pointer allow (keep : bool) Q :
  Forall scalar rs → drop start t = 34%Z :: written rs ++ 34%Z :: tail →
  (∀ k' nc, k <= k' → start + length (written rs) + 2 <= k' →
     Q (Ok (start + length (written rs) + 2, if keep then Some (utf8 rs) else None)) k' nc) →
  settles t k (string_into start pointer allow keep) Q.
Proof.
  intros Hrs Hd HQ. apply drop_lookup in Hd as [Hs Hd]. apply settles_string_into.
  apply (settles_loop t k _ _ (λ '(p, out) _ nc, ∃ rs1 rs2, rs = rs1 ++ rs2 ∧ out = (if keep then Some (utf8 rs1) else None)
    ∧ p = S start + length (written rs1) ∧ drop p t = written rs2 ++ 34%Z :: tail) (λ '(p, _), length t - p)).
  - intros [p out] k' nc Hk (rs1 & rs2 & E & -> & Hpe & Hp). destruct rs2 as [|r rs2].
    + rewrite app_nil_r in E. subst rs1. apply drop_lookup in Hp as [H0 _]. apply lookup_lt_Some in H0 as Hlt. unfold string_round.
      apply settles_bind, settles_at. intros k1 Hk1 Hn. rewrite H0. cbn [Z.eqb Pos.eqb]. apply settles_ret. unfold near in Hn. rewrite Hpe in *.
      replace (S (S start + length (written rs))) with (start + length (written rs) + 2) by lia. apply HQ; lia.
    + subst rs. apply Forall_app in Hrs as [_ [Hr _]%Forall_cons]. unfold written in Hp. cbn in Hp. rewrite <-app_assoc in Hp.
      eapply settles_string_round_written; [done|exact Hp|]. intros k1 nc1 Hk1. cbn.
      assert (1 <= length (write_rune r)) as Hlen.
      { destruct (Z.le_gt_cases 128 r) as [Hhi|Hlo]; [rewrite write_rune_high by done; apply utf8_arith_width|].
        destruct Hr as [Hc _]. unfold code_point in Hc. destruct (write_rune_low r) as [(c & -> & _)|[[-> _]|(-> & _)]]; cbn; lia. }
      split.
      * exists (rs1 ++ [r]), rs2. split_and!; [by rewrite <-app_assoc|rewrite utf8_snoc; by destruct keep|rewrite written_snoc, length_app; lia|].
        rewrite <-drop_drop, Hp. by rewrite drop_app_length.
      * apply (f_equal length) in Hp. rewrite length_drop, !length_app in Hp. cbn in *. lia.
  - exists [], rs. split_and!; [done|by destruct keep|cbn; lia|done].
  - lia.
Qed.
End Strings.

(** ** The writer *)

Fixpoint runes_fuel (fuel : nat) (b : bytes) : list Z :=
  match fuel, b with
  | S fuel, _ :: _ => let '(r, w) := decode_utf8 b in r :: runes_fuel fuel (drop w b)
  | _, _ => []
  end.

(** The runes of a text, with U+FFFD for a byte that is not UTF-8. *)
Definition runes (b : bytes) : list Z := runes_fuel (length b) b.
(** The text as it is read back. *)
Definition clean (b : bytes) : bytes := utf8 (runes b).

Lemma runes_fuel_enough n m b : length b <= n → length b <= m → runes_fuel n b = runes_fuel m b.
Proof.
  revert m b. induction n as [|n IH]; intros [|m] [|x b] Hn Hm; cbn in Hn, Hm; try lia; [done..|]. cbn [runes_fuel].
  destruct (decode_utf8 (x :: b)) as [r w] eqn:E. pose proof (decode_utf8_step (x :: b) ltac:(done)) as Hw. rewrite E in Hw. cbn in Hw.
  f_equal. apply IH; rewrite length_drop; cbn; lia.
Qed.

Lemma runes_cons b : b ≠ [] → runes b = (decode_utf8 b).1 :: runes (drop (decode_utf8 b).2 b).
Proof.
  intros Hb. pose proof (decode_utf8_step b Hb) as Hw. unfold runes. destruct b as [|x b]; [done|]. cbn [length runes_fuel].
  destruct (decode_utf8 (x :: b)) as [r w]. cbn [fst snd] in *. f_equal. apply runes_fuel_enough; rewrite length_drop; cbn [length] in *; lia.
Qed.

Lemma runes_encoded r rest : scalar r → runes (char_encode_utf8 r ++ rest) = r :: runes rest.
Proof.
  intros Hr. rewrite encode_scalar by done. pose proof (utf8_arith_width r) as Hw.
  rewrite runes_cons; [|destruct (utf8_arith r); [cbn in Hw; lia|done]]. rewrite decode_utf8_encoded by done. cbn [fst snd]. by rewrite drop_app_length.
Qed.

Lemma runes_utf8 rs : Forall scalar rs → runes (utf8 rs) = rs.
Proof. induction 1 as [|r rs Hr Hrs IH]; [done|]. by rewrite utf8_cons, runes_encoded, IH. Qed.

Lemma clean_utf8 rs : Forall scalar rs → clean (utf8 rs) = utf8 rs.
Proof. intros Hrs. unfold clean. by rewrite runes_utf8. Qed.

(** Induction along the runes of a text. *)
Lemma decode_ind (P : bytes → Prop) :
  P [] → (∀ b, b ≠ [] → P (drop (decode_utf8 b).2 b) → P b) → ∀ b, P b.
Proof.
  intros H0 Hs b. remember (length b) as n eqn:E. revert b E. induction (lt_wf n) as [n _ IH]. intros b ->.
  destruct (decide (b = [])) as [->|Hb]; [done|]. pose proof (decode_utf8_step b Hb) as Hw.
  apply Hs; [done|]. eapply IH; [|reflexivity]. rewrite length_drop. destruct b; [done|cbn in *; lia].
Qed.

Lemma decode_scalar b : all_bytes b → b ≠ [] → scalar (decode_utf8 b).1.
Proof.
  intros Hb Hne. destruct (decode_utf8_inv b Hb Hne) as [->|(c & rest & Hc & ->)]; [apply scalar_replacement|].
  by rewrite decode_utf8_encoded.
Qed.

Lemma runes_scalar b : all_bytes b → Forall scalar (runes b).
Proof.
  induction b as [|b Hne IH] using decode_ind; intros Hb; [constructor|]. rewrite runes_cons by done.
  constructor; [by apply decode_scalar|]. apply IH. by apply Forall_drop.
Qed.

Lemma clean_clean b : all_bytes b → clean (clean b) = clean b.
Proof. intros Hb. by apply clean_utf8, runes_scalar. Qed.

(** A byte that is not UTF-8 stands at the front. *)
Definition bad (b : bytes) : bool := ((decode_utf8 b).1 =? RUNE_ERROR)%Z && ((decode_utf8 b).2 =? 1).

Lemma not_bad b : all_bytes b → b ≠ [] → bad b = false →
  take (decode_utf8 b).2 b = char_encode_utf8 (decode_utf8 b).1.
Proof.
  intros Hb Hne Hbad. destruct (decode_utf8_inv b Hb Hne) as [E|(c & rest & Hc & ->)].
  - unfold bad in Hbad. by rewrite E in Hbad.
  - rewrite decode_utf8_encoded by done. cbn [fst snd]. by rewrite take_app_length, encode_scalar.
Qed.

Lemma bad_not_clean b : all_bytes b → b ≠ [] → bad b = true → clean b ≠ b.
Proof.
  intros Hb Hne [E1%Z.eqb_eq E2%Nat.eqb_eq]%andb_prop E. unfold clean in E. rewrite runes_cons in E by done.
  rewrite utf8_cons, E1, encode_scalar in E by apply scalar_replacement.
  pose proof (decode_utf8_encoded RUNE_ERROR (utf8 (runes (drop (decode_utf8 b).2 b))) scalar_replacement) as H.
  rewrite E in H. by rewrite H in E2.
Qed.

Lemma clean_step b : all_bytes b → b ≠ [] → bad b = false → (clean b = b ↔ clean (drop (decode_utf8 b).2 b) = drop (decode_utf8 b).2 b).
Proof.
  intros Hb Hne Hbad. pose proof (not_bad b Hb Hne Hbad) as Ht. unfold clean at 1. rewrite runes_cons by done.
  rewrite utf8_cons, <-Ht. fold (clean (drop (decode_utf8 b).2 b)).
  split; [|intros ->; apply take_drop]. intros H. apply (app_inv_head (take (decode_utf8 b).2 b)). by rewrite H, take_drop.
Qed.

Lemma no_escape_rune c : needs_no_escape c = true → (0 <= c)%Z → scalar c ∧ write_rune c = [c] ∧ char_encode_utf8 c = [c] ∧ (c < 128)%Z.
Proof.
  unfold needs_no_escape. intros Hc%negb_true_iff Hpos. rewrite !orb_false_iff in Hc. destruct Hc as [[[H1%Z.leb_gt H2%Z.leb_gt] H3%Z.eqb_neq] H4%Z.eqb_neq].
  assert (scalar c) by (apply scalar_ascii; lia). split_and!; [done| |by apply encode_ascii; lia|lia].
  destruct (write_rune_low c ltac:(lia)) as [(x & _ & Hin)|[[_ ?]|[-> _]]]; [|lia|done].
  unfold short_escapes in Hin. rewrite !elem_of_cons, elem_of_nil in Hin. destruct_or! Hin; try injection Hin as -> ->; lia || done.
Qed.

Lemma plain_run l rest : Forall (λ c, needs_no_escape c = true) l → all_bytes l →
  runes (l ++ rest) = l ++ runes rest ∧ written l = l ∧ utf8 l = l ∧ (clean (l ++ rest) = l ++ rest ↔ clean rest = rest).
Proof.
  intros Hl Hb. induction Hl as [|c l Hc Hl IH]; [done|]. apply Forall_cons in Hb as [Hc0 Hb]. destruct (IH Hb) as (E1 & E2 & E3 & E4).
  unfold is_byte in Hc0. destruct (no_escape_rune c Hc ltac:(lia)) as (Hs & Hw & He & Hlt).
  assert (runes ((c :: l) ++ rest) = c :: l ++ runes rest) as Er.
  { change ((c :: l) ++ rest) with ([c] ++ (l ++ rest)). rewrite <-He, runes_encoded, E1 by done. done. }
  split_and!; [done|by rewrite written_cons, Hw, E2|by rewrite utf8_cons, He, E3|].
  unfold clean at 1. rewrite Er, utf8_cons, He, <-E4, <-E1. fold (clean (l ++ rest)). cbn. split; [by intros [= ->]|by intros ->].
Qed.

(** What the loop of the writer does with a text. *)
Lemma append_string_loop_spec fuel allow offset rest out decoded :
  all_bytes rest → length rest <= fuel →
  (allow = true ∨ clean rest = rest) ∧
    append_string_loop fuel allow offset rest out decoded = Ok (out ++ written (runes rest) ++ [34%Z], decoded ++ clean rest)
  ∨ allow = false ∧ clean rest ≠ rest ∧ ∃ at_, append_string_loop fuel allow offset rest out decoded = Err at_.
Proof.
  revert offset rest out decoded. induction fuel as [|fuel IH]; intros offset rest out decoded Hb Hf.
  { destruct rest; [|cbn in Hf; lia]. left. split; [by right|]. cbn. by rewrite app_nil_r. }
  destruct rest as [|x rest0] eqn:E; [left; split; [by right|]; cbn; by rewrite app_nil_r|]. rewrite <-E in *.
  assert (rest ≠ []) as Hne by (by rewrite E). cbn [append_string_loop].
  replace (match rest with [] => Ok (out ++ [34%Z], decoded) | _ :: _ => _ end) with
    (let run := run needs_no_escape rest in
     if 0 <? run then append_string_loop fuel allow (offset + run) (drop run rest) (out ++ take run rest) (decoded ++ take run rest)
     else let '(rune, width) := decode_utf8 rest in
        let bad := (rune =? RUNE_ERROR)%Z && (width =? 1) in
        if bad && negb allow then Err offset
        else append_string_loop fuel allow (offset + width) (drop width rest) (out ++ write_rune rune)
            (decoded ++ if bad then append_rune rune else take width rest)) by (rewrite E, run_position; reflexivity).
  clear E x rest0. cbv zeta. destruct (Nat.ltb_spec 0 (run needs_no_escape rest)) as [Hr|Hr].
  - set (l := take (run needs_no_escape rest) rest). set (rest' := drop (run needs_no_escape rest) rest).
    assert (rest = l ++ rest') as E by (symmetry; apply take_drop).
    destruct (plain_run l rest' (run_take _ _) (Forall_take _ _ _ Hb)) as (E1 & E2 & E3 & E4).
    destruct (IH (offset + run needs_no_escape rest) rest' (out ++ l) (decoded ++ l)) as [[Ha ->]|(Ha & Hc & at_ & ->)];
      [by apply Forall_drop|unfold rest'; rewrite length_drop; lia|left|right].
    + split; [rewrite E, E4; done|]. rewrite E. unfold clean. by rewrite E1, written_app, utf8_app, E2, E3, <-!app_assoc.
    + split_and!; [done|by rewrite E, E4|by eexists].
  - pose proof (decode_utf8_step rest Hne) as Hw. pose proof (decode_scalar rest Hb Hne) as Hsc.
    destruct (bad rest && negb allow) eqn:Eb.
    + apply andb_prop in Eb as [Eb ->%negb_true_iff]. right. split_and!; [done|by apply bad_not_clean|]. unfold bad in Eb.
      destruct (decode_utf8 rest) as [r w]. cbn [fst snd] in *. rewrite Eb. cbn. by eexists.
    + specialize (IH (offset + (decode_utf8 rest).2) (drop (decode_utf8 rest).2 rest) (out ++ write_rune (decode_utf8 rest).1)
        (decoded ++ char_encode_utf8 (decode_utf8 rest).1) (Forall_drop _ _ _ Hb) ltac:(rewrite length_drop; lia)).
      assert ((if bad rest then append_rune (decode_utf8 rest).1 else take (decode_utf8 rest).2 rest) = char_encode_utf8 (decode_utf8 rest).1) as Ed.
      { destruct (bad rest) eqn:Ebad; [by rewrite append_rune_scalar|by apply not_bad]. }
      rewrite runes_cons, written_cons by done.
      assert (clean rest = char_encode_utf8 (decode_utf8 rest).1 ++ clean (drop (decode_utf8 rest).2 rest)) as Ecl
        by (unfold clean; by rewrite (runes_cons rest)).
      assert (allow = true ∨ (clean (drop (decode_utf8 rest).2 rest) = drop (decode_utf8 rest).2 rest ↔ clean rest = rest)) as Hcl.
      { destruct allow; [by left|right]. rewrite andb_true_r in Eb. by rewrite (clean_step rest). }
      rewrite Ecl in *. clear Ecl.
      unfold bad in Ed, Eb. destruct (decode_utf8 rest) as [r w]. cbn [fst snd] in *. cbv zeta. rewrite Eb, Ed.
      destruct IH as [[Ha ->]|(Ha & Hc & at_ & ->)]; [left|right].
      * split; [|by rewrite <-!app_assoc]. destruct Ha as [?|Ha]; [by left|]. destruct Hcl as [?|Hcl]; [by left|]. right. by apply Hcl in Ha.
      * destruct Hcl as [->|Hcl]; [done|]. split_and!; [done|by rewrite <-Hcl|by eexists].
Qed.

Lemma append_string_spec out b allow :
  all_bytes b →
  (allow = true ∨ clean b = b) ∧ append_string out b allow = Ok (out ++ 34%Z :: written (runes b) ++ [34%Z], clean b)
  ∨ allow = false ∧ clean b ≠ b ∧ ∃ at_, append_string out b allow = Err at_.
Proof.
  intros Hb. unfold append_string. destruct (append_string_loop_spec (length b) allow 0 b (out ++ [34%Z]) [] Hb (Nat.le_refl _)) as [[Ha ->]|H];
    [left; split; [done|]|by right]. by rewrite <-app_assoc.
Qed.
