(* ===== verification/JsonGrammar.v ===== *)
(** The grammar that the JSON decoder and encoder share: which token can follow which, as a
    function on stacks of frames, and the names of an object as a list without duplicates. *)

From stdpp Require Import gmap.
From S2P Require Import Prelude Wtf8 JsonState JsonWire JsonDecoder JsonEncoder.
Import JsonState.Kind(Kind) JsonState.Token(Token).

Local Open Scope nat_scope.

(** ** Names *)

(** The names [l] have gone in. *)
Record names_ok (n : Names) (l : list bytes) : Prop := {
  n_slices : slices (n_bytes n) 0 (ends n) = l;
  n_ends : Forall (λ e, e <= length (n_bytes n)) (ends n);
  n_last : default 0 (last (ends n)) = length (n_bytes n);
  n_large : ∀ s, large n = Some s → s = list_to_set l;
}.

Lemma names_default_ok : names_ok names_default [].
Proof. by split. Qed.

Lemma slices_app b c start es :
  Forall (λ e, e <= length b) es → start <= length b → slices (b ++ c) start es = slices b start es.
Proof.
  revert start. induction es as [|e es IH]; intros start He Hs; [done|]. apply Forall_cons in He as [He Hes]. cbn.
  rewrite IH, drop_app_le by done. destruct (decide (e <= start)) as [Hle|Hgt].
  - by replace (e - start) with 0 by lia.
  - rewrite take_app_le; [done|]. rewrite length_drop. lia.
Qed.

Lemma slices_snoc b start es e :
  slices b start (es ++ [e]) = slices b start es ++ [take (e - default start (last es)) (drop (default start (last es)) b)].
Proof.
  revert start. induction es as [|x es IH]; intros start; [done|]. cbn [app slices]. rewrite IH, last_cons.
  by destruct (last es).
Qed.

Lemma push_name_ok name n l s :
  names_ok n l → (∀ s', s = Some s' → s' = list_to_set (l ++ [name])) → names_ok (push_name name (n <| large := s |>)) (l ++ [name]).
Proof.
  intros [Hs He Hl _] Hset. split; cbn.
  - rewrite slices_snoc, slices_app, Hs by (done || lia). do 2 f_equal. rewrite Hl, drop_app_length, length_app.
    apply take_ge. lia.
  - apply Forall_app. split; [|by apply Forall_singleton]. apply (Forall_impl _ _ _ He). intros e Hx. rewrite length_app. lia.
  - by rewrite last_snoc.
  - exact Hset.
Qed.

(** A name goes in unless it is there, whichever way the names are kept. *)
Lemma insert_ok name n l :
  names_ok n l →
  if decide (name ∈ l) then ∃ n', insert name n = (false, n') ∧ names_ok n' l ∧ n_bytes n' = n_bytes n ∧ ends n' = ends n
  else ∃ n', insert name n = (true, n') ∧ names_ok n' (l ++ [name]).
Proof.
  intros Hn. unfold insert.
  set (n1 := match large n with Some _ => n | None => _ end).
  assert (names_ok n1 l ∧ n_bytes n1 = n_bytes n ∧ ends n1 = ends n) as (H1 & Hb & He).
  { unfold n1. destruct (large n) as [s|] eqn:El; [done|]. destruct (_ || _); [|done]. split; [|done]. destruct Hn as [Hs ? ? _]. split; [done..|].
    cbn. intros s [= <-]. by rewrite Hs. }
  clearbody n1. destruct H1 as [Hs1 Hends Hlast Hlarge]. destruct (large n1) as [s|] eqn:El.
  - specialize (Hlarge s eq_refl). subst s. destruct (decide (name ∈ l)) as [Hin|Hni].
    + rewrite decide_True by (by apply elem_of_list_to_set). exists n1. split_and!; [done| |done|done]. split; [done..|]. intros s Hse. rewrite El in Hse. by injection Hse as <-.
    + rewrite decide_False by (by rewrite elem_of_list_to_set). eexists. split; [done|]. apply push_name_ok.
      * split; [done..|]. intros s Hse. rewrite El in Hse. by injection Hse as <-.
      * intros s [= <-]. rewrite list_to_set_app_L. cbn. set_solver.
  - rewrite Hs1. destruct (decide (name ∈ l)).
    + exists n1. split_and!; [done| |done|done]. split; [done..|]. by rewrite El.
    + eexists. split; [done|]. replace n1 with (n1 <| large := None |>) at 1 by (destruct n1; cbn in *; by subst).
      apply push_name_ok; [|done]. split; [done..|]. by rewrite El.
Qed.

(** ** Steps *)

(** The name of a member, if it is new. *)
Definition name_step (dups : bool) (text : bytes) (f : Frame) : option Frame :=
  let '(fresh, ns) := if dups then (true, names f) else insert text (names f) in
  if fresh : bool then Some (f <| names := ns |> <| name := text |>) else None.

(** The stack after a token, if the token can stand here; [depth0] frames are around it. *)
Definition grammar_step (dups : bool) (depth0 : nat) (token : Token) (st : list Frame) : option (list Frame) :=
  let kind := Token.kind token in
  if Kind.is_end kind then
    if top_is (opening kind) st && negb (bool_decide (opening kind = Kind.BeginObject) && negb (top_expects_name st))
    then Some (List.tl st) else None
  else if top_expects_name st && negb (bool_decide (kind = Kind.String)) then None
  else if is_begin kind && too_deep (depth0 + length st) then None
  else
    st ← (match st with
          | f :: rest => if expects_name f then (λ f, f :: rest) <$> name_step dups (Token.text token) f else Some st
          | [] => Some []
          end);
    let st := on_top (λ f, f <| count := S (count f) |>) st in
    Some (if is_begin kind then frame_new kind :: st else st).

Fixpoint grammar_steps (dups : bool) (depth0 : nat) (tokens : list Token) (st : list Frame) : option (list Frame) :=
  match tokens with
  | [] => Some st
  | token :: tokens => st ← grammar_step dups depth0 token st; grammar_steps dups depth0 tokens st
  end.

(** ** Stacks that allow the same steps

    A stack that is checked against duplicates ([dups] false) is followed by one with the
    same names; one that is not needs no names. *)

Record frame_sim (dups : bool) (f g : Frame) : Prop := {
  s_kind : f_kind g = f_kind f;
  s_count : count g = count f;
  s_name : name g = name f;
  s_names : dups = false → ∃ l, names_ok (names f) l ∧ names_ok (names g) l;
}.
Abbreviation stack_sim dups := (Forall2 (frame_sim dups)).
(** What an object has of names can be relied upon. *)
Abbreviation stack_ok dups st := (stack_sim dups st st).

Lemma frame_new_sim dups kind : frame_sim dups (frame_new kind) (frame_new kind).
Proof. split; [done..|]. intros _. exists []. split; apply names_default_ok. Qed.

Lemma stack_sim_shape dups st st' : stack_sim dups st st' →
  head (f_kind <$> st') = head (f_kind <$> st) ∧ top_expects_name st' = top_expects_name st ∧ length st' = length st
  ∧ ∀ kind, top_is kind st' = top_is kind st.
Proof.
  intros Hs. pose proof (Forall2_length _ _ _ Hs) as Hl. destruct Hs as [|f g st st' [Hk Hc Hn _] Hs]; [done|].
  cbn in *. unfold top_expects_name, top_is, expects_name. cbn. rewrite Hk, Hc. split_and!; [done|done|lia|done].
Qed.

(** A name goes in on both sides, or on neither; if it does not, nothing has changed. *)
Lemma name_step_sim dups dups' text f g :
  (dups' = true ∨ dups' = dups) → frame_sim dups' f g →
  (∀ f', name_step dups text f = Some f' → ∃ g', name_step dups' text g = Some g' ∧ frame_sim dups' f' g')
  ∧ (name_step dups text f = None → dups' = dups → name_step dups' text g = None ∧ dups = false
      ∧ ∃ ns ns', insert text (names f) = (false, ns) ∧ insert text (names g) = (false, ns')
        ∧ frame_sim dups' f (f <| names := ns |>) ∧ frame_sim dups' (f <| names := ns |>) (g <| names := ns' |>)).
Proof.
  intros Hd [Hk Hc Hn Hl]. unfold name_step. destruct dups'.
  - split.
    + intros f' Hf. eexists. split; [done|]. destruct dups; [injection Hf as <-; by split|].
      destruct (insert text (names f)) as [[] ns]; [|done]. injection Hf as <-. by split.
    + intros Hf <-. done.
  - destruct Hd as [|<-]; [done|]. destruct (Hl eq_refl) as (l & H1 & H2).
    pose proof (insert_ok text _ _ H1) as I1. pose proof (insert_ok text _ _ H2) as I2. destruct (decide (text ∈ l)).
    + destruct I1 as (n1 & -> & O1 & _), I2 as (n2 & -> & O2 & _). split; [done|]. intros _ _. split_and!; [done|done|].
      exists n1, n2. split_and!; [done|done|split; [done..|]; by exists l|split; [done..|]; by exists l].
    + destruct I1 as (n1 & -> & O1), I2 as (n2 & -> & O2). split; [|done]. intros f' [= <-]. eexists. split; [done|].
      split; [done..|]. by exists (l ++ [text]).
Qed.

Lemma on_top_count_sim dups st st' : stack_sim dups st st' →
  stack_sim dups (on_top (λ f, f <| count := S (count f) |>) st) (on_top (λ f, f <| count := S (count f) |>) st').
Proof. intros Hs. destruct Hs as [|f g st st' [Hk Hc Hn Hl] Hs]; [done|]. constructor; [|done]. split; cbn; [done|by rewrite Hc|done|done]. Qed.

Lemma push_sim dups (b : bool) kind st st' : stack_sim dups st st' →
  stack_sim dups (if b then frame_new kind :: st else st) (if b then frame_new kind :: st' else st').
Proof. intros Hs. destruct b; [|done]. constructor; [apply frame_new_sim|done]. Qed.

(** A step is followed by a step. *)
Lemma grammar_step_sim dups dups' d token st st' st1 :
  (dups' = true ∨ dups' = dups) → stack_sim dups' st st' → grammar_step dups d token st = Some st1 →
  ∃ st1', grammar_step dups' d token st' = Some st1' ∧ stack_sim dups' st1 st1'.
Proof.
  intros Hd Hs. destruct (stack_sim_shape _ _ _ Hs) as (_ & He & Hl & Ht). unfold grammar_step. rewrite !He, !Ht, Hl.
  destruct (Kind.is_end (Token.kind token)).
  { destruct (top_is _ _ && _); [|done]. intros [= <-]. eexists. split; [done|]. by destruct Hs. }
  destruct (top_expects_name st && _); [done|]. destruct (is_begin _ && _); [done|].
  destruct Hs as [|f g st st' Hfg Hs]; cbn [mbind option_bind].
  { intros [= <-]. eexists. split; [done|]. by apply push_sim. }
  assert (expects_name g = expects_name f) as -> by (unfold expects_name; by rewrite (s_kind _ _ _ Hfg), (s_count _ _ _ Hfg)).
  destruct (expects_name f).
  - destruct (name_step_sim dups dups' (Token.text token) f g Hd Hfg) as [H1 _].
    destruct (name_step dups (Token.text token) f) as [f'|]; [|done]. destruct (H1 f' eq_refl) as (g' & -> & Hfg').
    cbn [fmap option_fmap option_map mbind option_bind]. intros [= <-]. eexists. split; [done|]. apply push_sim, (on_top_count_sim _ (f' :: st) (g' :: st')). by constructor.
  - cbn [mbind option_bind]. intros [= <-]. eexists. split; [done|]. apply push_sim, (on_top_count_sim _ (f :: st) (g :: st')). by constructor.
Qed.

Lemma stack_sim_ok dups st st' : stack_sim dups st st' → stack_ok dups st'.
Proof.
  induction 1 as [|f g st st' [Hk Hc Hn Hl] Hs IH]; constructor; [|done]. split; [done..|]. intros Hd. destruct (Hl Hd) as (l & _ & H). by exists l.
Qed.

Lemma grammar_step_ok dups d token st st1 : stack_ok dups st → grammar_step dups d token st = Some st1 → stack_ok dups st1.
Proof.
  intros Hs Hg. destruct (grammar_step_sim dups dups d token st st st1 (or_intror eq_refl) Hs Hg) as (st1' & Hg' & H).
  rewrite Hg in Hg'. by injection Hg' as <-.
Qed.

(** The stack of a value in other frames. *)
Lemma grammar_step_inside dups d token st outer st1 :
  st ≠ [] → grammar_step dups (d + length outer) token st = Some st1 → grammar_step dups d token (st ++ outer) = Some (st1 ++ outer).
Proof.
  intros Hne. destruct st as [|f st]; [done|]. unfold grammar_step. cbn [app].
  replace (d + length outer + length (f :: st)) with (d + length (f :: st ++ outer)) by (cbn; rewrite length_app; lia).
  unfold top_is, top_expects_name. cbn [head from_option].
  destruct (Kind.is_end _); [destruct (_ && _); [|done]; by intros [= <-]|]. destruct (expects_name f && _); [done|].
  destruct (is_begin _ && _); [done|]. destruct (expects_name f).
  - destruct (name_step _ _ _) as [f'|]; [|done]. cbn. intros [= <-]. by destruct (is_begin _).
  - cbn. intros [= <-]. by destruct (is_begin _).
Qed.
