(* ===== verification/JsonNext.v ===== *)
(** How the JSON decoder reads a token: what [next] takes of the text, and the step of the
    grammar that it makes.

    The decoder on a text that is written for it: [read_token] gives the tokens of a
    [stream], however its reader cuts the text and wherever its buffer is compacted. *)

From S2P Require Import Prelude Wtf8 BaseProto JsonState JsonWire JsonDecoder JsonEncoder JsonLex JsonStrings JsonGrammar.

Import JsonState.Kind(Kind) JsonState.Token(Token).

Local Open Scope nat_scope.

(** ** The position of a token *)

Definition in_value (st : list Frame) : bool := top_is Kind.BeginObject st && negb (top_expects_name st).
Definition counted (st : list Frame) : bool := from_option (λ f, 0 <? count f) false (head st).

(** The delimiter in front of what comes next, unless it closes the innermost frame. *)
Definition lead (st : list Frame) : option Z :=
  if in_value st then Some (ch ":") else if counted st then Some (ch ",") else None.

Definition closer (st : list Frame) : Z := if top_is Kind.BeginObject st then ch "}" else ch "]".

Section Position.
Context (t : bytes).

Definition past_space (p : nat) : nat := p + run is_space (drop p t).

(** Where the next token stands, and whether there is white space in front of it. *)
Definition position_of (p : nat) (st : list Frame) : option (nat * bool) :=
  let i := past_space p in
  let spaced := negb (i =? p) in
  match lead st with
  | Some d =>
      if negb (in_value st) && bool_decide (t !! i = Some (closer st)) then Some (i, spaced)
      else if bool_decide (t !! i = Some d) then
        let j := past_space (S i) in
        if negb (in_value st) && (bool_decide (t !! j = Some (ch "}")) || bool_decide (t !! j = Some (ch "]"))) then None
        else Some (j, spaced || negb (j =? S i))
      else None
  | None => Some (i, spaced)
  end.

Lemma past_space_spaced p : negb (past_space p =? p) = negb (run is_space (drop p t) =? 0).
Proof. unfold past_space. f_equal. destruct (Nat.eqb_spec (p + run is_space (drop p t)) p), (Nat.eqb_spec (run is_space (drop p t)) 0); done || lia. Qed.

Lemma settles_prepare k p st Q :
  (∀ k' i nc, k <= k' → (p <= length t → i <= k') → position_of p st = Some (i, nc) → Q (Ok i) k' nc) →
  (∀ k' e nc, k <= k' → position_of p st = None → Q (Err e) k' nc) →
  settles t k (prepare_inner p st) Q.
Proof.
  intros HQ HE. unfold position_of in HQ, HE. unfold prepare_inner.
  assert (∀ q k', near t k' (q + run is_space (drop q t)) → q <= length t → q + run is_space (drop q t) <= k') as Hnear.
  { intros q k' Hn Hq. pose proof (run_le is_space (drop q t)) as Hr. rewrite length_drop in Hr. unfold near in Hn. lia. }
  apply settles_bind, settles_space. intros k1 Hk1 Hn1. pose proof (Hnear _ _ Hn1) as Hi1.
  fold (past_space p) in *. rewrite <-past_space_spaced.
  unfold lead, in_value, counted, closer, top_is, top_expects_name in HQ, HE. destruct st as [|f st]; cbn [head from_option] in HQ, HE.
  { apply settles_ret. rewrite orb_false_r. by apply HQ. }
  apply settles_bind, settles_at. intros k2 Hk2 Hn2. cbn [orb].
  destruct (bool_decide (f_kind f = Kind.BeginObject) && negb (expects_name f)) eqn:Ev; cbn [negb andb] in HQ, HE.
  - destruct (t !! past_space p) as [b|] eqn:Hb; [|apply settles_fail, HE; [lia|done]]. 
    pose proof (lookup_lt_Some _ _ _ Hb). unfold near in Hn2.
    destruct (Z.eqb_spec b (ch ":")) as [->|Hne].
    + rewrite bool_decide_true in HQ, HE by done. apply settles_space. intros k3 Hk3 Hn3. pose proof (Hnear _ _ Hn3). fold (past_space (S (past_space p))) in *. rewrite <-past_space_spaced. by apply HQ; [lia|lia|].
    + rewrite bool_decide_false in HE by (by intros [= ?]). apply settles_invalid; [lia|]. apply HE; [lia|done].
  - destruct (0 <? count f); cbn [andb].
    2: { apply settles_ret. rewrite orb_false_r. by apply HQ; [lia|lia|]. }
    replace (ch (if bool_decide (f_kind f = Kind.BeginObject) then "}" else "]")) with
      (if bool_decide (f_kind f = Kind.BeginObject) then ch "}" else ch "]") by (by destruct (bool_decide _)).
    destruct (bool_decide (t !! past_space p = Some (if bool_decide (f_kind f = Kind.BeginObject) then ch "}" else ch "]"))) eqn:Ec; cbn [negb].
    { apply settles_ret. rewrite orb_false_r. by apply HQ; [lia|lia|]. }
    destruct (t !! past_space p) as [b|] eqn:Hb; [|apply settles_fail, HE; [lia|done]].
    pose proof (lookup_lt_Some _ _ _ Hb). unfold near in Hn2.
    destruct (Z.eqb_spec b (ch ",")) as [->|Hne].
    + rewrite bool_decide_true in HQ, HE by done. apply settles_bind, settles_space. intros k3 Hk3 Hn3. pose proof (Hnear _ _ Hn3). fold (past_space (S (past_space p))) in *. rewrite <-past_space_spaced.
      apply settles_bind, settles_at. intros k4 Hk4 Hn4. cbn [orb].
      destruct (bool_decide (t !! past_space (S (past_space p)) = Some (ch "}")) || bool_decide (t !! past_space (S (past_space p)) = Some (ch "]"))) eqn:E.
      * assert (past_space (S (past_space p)) < length t).
        { apply orb_prop in E as [E%bool_decide_eq_true|E%bool_decide_eq_true]; by apply lookup_lt_Some in E. }
        apply settles_invalid; [unfold near in Hn4; lia|]. rewrite orb_false_r. apply HE; [lia|done].
      * apply settles_ret. rewrite !orb_false_r. apply HQ; [lia|lia|done].
    + rewrite bool_decide_false in HE by (by intros [= ?]). apply settles_invalid; [lia|]. rewrite orb_false_r. apply HE; [lia|done].
Qed.

Lemma past_space_le p : p <= past_space p.
Proof. unfold past_space. lia. Qed.

Lemma past_space_slice p : ∃ ws, Forall (λ b, is_space b = true) ws ∧ drop p t = ws ++ drop (past_space p) t ∧ (past_space p =? p = true → ws = []).
Proof.
  exists (take (run is_space (drop p t)) (drop p t)). split_and!; [apply run_take| |].
  - unfold past_space. rewrite <-drop_drop. by rewrite take_drop.
  - intros Hp%Nat.eqb_eq. unfold past_space in Hp. by replace (run is_space (drop p t)) with 0 by lia.
Qed.
End Position.

(** ** Computations on a cursor *)

Section CursorRules.
Context (t : bytes).

(** [m] ends alike on every input that views [t], from this position and stack. *)
Definition csettles {A} (k p : nat) (st : list Frame) (m : C A) (Q : result Error A → nat → list Frame → nat → bool → Prop) : Prop :=
  ∃ r p' st' k' nc, (∀ i, views t k i → ∃ i', m (MkCursor i p st) = Some (r, MkCursor i' p' st')
    ∧ views t k' i' ∧ noncanonical i' = noncanonical i || nc) ∧ k <= k' ∧ Q r p' st' k' nc.

Lemma cs_mono {A} k p st (m : C A) (Q Q' : result Error A → nat → list Frame → nat → bool → Prop) :
  csettles k p st m Q → (∀ r p' st' k' nc, k <= k' → Q r p' st' k' nc → Q' r p' st' k' nc) → csettles k p st m Q'.
Proof. intros (r & p' & st' & k' & nc & ? & ? & ?) HQ. exists r, p', st', k', nc. auto. Qed.

Lemma cs_ret {A} k p st (a : A) Q : Q (Ok a) p st k false → csettles k p st (mret a) Q.
Proof. intros HQ. exists (Ok a), p, st, k, false. split_and!; [|done..]. intros i Hi. exists i. by rewrite orb_false_r. Qed.

Lemma cs_fail {A} k p st e (Q : result Error A → nat → list Frame → nat → bool → Prop) :
  Q (Err e) p st k false → csettles k p st (fail e) Q.
Proof. intros HQ. exists (Err e), p, st, k, false. split_and!; [|done..]. intros i Hi. exists i. by rewrite orb_false_r. Qed.

Lemma cs_bind {A B} k p st (m : C A) (f : A → C B) Q :
  csettles k p st m (λ r p' st' k' nc, match r with
    | Ok a => csettles k' p' st' (f a) (λ r p'' st'' k'' nc', Q r p'' st'' k'' (nc || nc'))
    | Err e => Q (Err e) p' st' k' nc
    end) →
  csettles k p st (m ≫= f) Q.
Proof.
  intros (r & p1 & st1 & k1 & nc1 & Hm & Hk & HQ). destruct r as [a|e].
  - destruct HQ as (r2 & p2 & st2 & k2 & nc2 & Hf & Hk2 & HQ). exists r2, p2, st2, k2, (nc1 || nc2). split_and!; [|lia|done].
    intros i Hi. destruct (Hm i Hi) as (i1 & E1 & Hi1 & N1). destruct (Hf i1 Hi1) as (i2 & E2 & Hi2 & N2).
    exists i2. unfold mbind, st_bind. rewrite E1, E2. split_and!; [done..|]. by rewrite N2, N1, orb_assoc.
  - exists (Err e), p1, st1, k1, nc1. split_and!; [|done..]. intros i Hi. destruct (Hm i Hi) as (i1 & E1 & Hi1 & N1).
    exists i1. unfold mbind, st_bind. by rewrite E1.
Qed.

Lemma cs_on_input {A} k p st (m : J A) Q : settles t k m (λ r k' nc, Q r p st k' nc) → csettles k p st (on_input m) Q.
Proof.
  intros (r & k' & nc & Hg & Hk & HQ). exists r, p, st, k', nc. split_and!; [|done..]. intros i Hi.
  destruct (Hg i Hi) as (i' & E & H). exists i'. split; [|done]. unfold on_input. cbn. by rewrite E.
Qed.

Lemma cs_gets_stack {A} k p st (f : list Frame → C A) Q : csettles k p st (f st) Q → csettles k p st (gets stack ≫= f) Q.
Proof. done. Qed.
Lemma cs_gets_pos {A} k p st (f : nat → C A) Q : csettles k p st (f p) Q → csettles k p st (gets pos ≫= f) Q.
Proof. done. Qed.

Lemma cs_set_stack k p st st' (Q : result Error () → nat → list Frame → nat → bool → Prop) :
  Q (Ok tt) p st' k false → csettles k p st (set_stack st') Q.
Proof. intros HQ. exists (Ok tt), p, st', k, false. split_and!; [|done..]. intros i Hi. exists i. by rewrite orb_false_r. Qed.
Lemma cs_set_pos k p st p' (Q : result Error () → nat → list Frame → nat → bool → Prop) :
  Q (Ok tt) p' st k false → csettles k p st (set_pos p') Q.
Proof. intros HQ. exists (Ok tt), p', st, k, false. split_and!; [|done..]. intros i Hi. exists i. by rewrite orb_false_r. Qed.
Lemma cs_modify_stack k p st (f : list Frame → list Frame) (Q : result Error () → nat → list Frame → nat → bool → Prop) :
  Q (Ok tt) p (f st) k false → csettles k p st (modify (λ c, c <| stack := f (stack c) |>)) Q.
Proof. intros HQ. exists (Ok tt), p, (f st), k, false. split_and!; [|done..]. intros i Hi. exists i. by rewrite orb_false_r. Qed.

(** The last steps of [next], which do not fail. *)
Lemma cs_enter {A} k p st kind end_ (a : A) Q :
  Q (Ok a) end_ (let st := on_top (λ f, f <| count := S (count f) |>) st in if is_begin kind then frame_new kind :: st else st) k false →
  csettles k p st (count_value;; (if is_begin kind then modify (λ c, c <| stack := frame_new kind :: stack c |>) else mret tt);;
    set_pos end_;; mret a) Q.
Proof.
  intros HQ. apply cs_bind, cs_modify_stack, cs_bind. destruct (is_begin kind).
  - apply (cs_modify_stack _ _ _ (λ s, frame_new kind :: s)). by apply cs_bind, cs_set_pos, cs_ret.
  - by apply cs_ret, cs_bind, cs_set_pos, cs_ret.
Qed.
End CursorRules.

(** ** Scalars *)

(** How the encoder writes a token that is read back as it is. *)
Definition spelled (token : Token) : bytes :=
  match token with
  | Token.String b => 34%Z :: written (runes b) ++ [34%Z]
  | _ => Token.text token
  end.

(** What a token of the decoder is. *)
Definition well_spelled (token : Token) : Prop :=
  match token with
  | Token.String b => ∃ rs, Forall scalar rs ∧ b = utf8 rs
  | Token.Number b => valid_number b = true
  | _ => True
  end.

(** A string that is not kept has no text. *)
Definition hidden (token : Token) : Token := match token with Token.String _ => Token.String [] | _ => token end.

Section Scalars.
Context (t : bytes).
Hypothesis (Ht : all_bytes t).

(** The token at [start] takes [n] bytes, which are its spelling unless there is a mark. The
    text of a string that is not kept is empty. *)
Definition scanned (kind : Kind) (start : nat) (keep : bool) (token : Token) (n : nat) (nc : bool) : Prop :=
  Token.kind token = kind ∧ 1 <= n ∧ start + n <= length t
  ∧ ∃ full, well_spelled full ∧ Token.kind full = kind ∧ (nc = false → take n (drop start t) = spelled full)
    ∧ token = (if keep then full else hidden full).

Lemma scanned_plain kind start keep token n nc :
  Token.kind token = kind → kind ≠ Kind.String → well_spelled token → 1 <= n → start + n <= length t → (nc = false → take n (drop start t) = spelled token) →
  scanned kind start keep token n nc.
Proof.
  intros Hk Hne Hw Hn Hlen Hs. split_and!; [done..|]. exists token. split_and!; [done..|]. destruct keep; [done|]. by destruct token; cbn in *; subst.
Qed.

Lemma prefix_take {A} (l k : list A) : l `prefix_of` k → take (length l) k = l.
Proof. intros [x ->]. apply take_app_length. Qed.

Lemma settles_word k start word kind (token : Token) o keep Q :
  Token.kind token = kind → kind ≠ Kind.String → well_spelled token → spelled token = word → word ≠ [] →
  (∀ k' tok n nc, k <= k' → start + n <= k' → scanned kind start keep tok n nc → Q (Ok (tok, start + n)) k' nc) →
  (∀ k' e nc, k <= k' → Q (Err e) k' nc) →
  settles t k (end_ ← literal start word o; mret (token, end_)) Q.
Proof.
  intros Hk Hne Hw Hs Hword HQ HE. apply settles_bind, settles_literal; [done| |intros; by apply HE].
  intros k' Hk' Hle Hp. apply settles_ret. apply HQ; [done|done|]. apply prefix_length in Hp as Hl. rewrite length_drop in Hl.
  assert (1 <= length word) by (destruct word; [done|cbn; lia]).
  apply scanned_plain; [done|done|done|lia|lia|]. intros _. rewrite Hs. by apply prefix_take.
Qed.

Lemma settles_scan_value k start o keep b Q :
  t !! start = Some b → start < k →
  (∀ k' token n nc, k <= k' → start + n <= k' → scanned (Kind.from_byte b) start keep token n nc → Q (Ok (token, start + n)) k' nc) →
  (∀ k' e nc, k <= k' → Q (Err e) k' nc) →
  settles t k (scan_value (Kind.from_byte b) start o keep) Q.
Proof.
  intros Hb Hk HQ HE. pose proof (lookup_lt_Some _ _ _ Hb) as Hlt.
  destruct (Kind.from_byte b) eqn:Ek; cbn [scan_value]; try (apply settles_invalid; [lia|by apply HE]).
  - eapply settles_word; [reflexivity|done|done|reflexivity|done|done|done].
  - eapply settles_word; [reflexivity|done|done|reflexivity|done|done|done].
  - eapply settles_word; [reflexivity|done|done|reflexivity|done|done|done].
  - assert (b = 34%Z) as -> by (unfold Kind.from_byte in Ek; revert Ek; chars; by repeat case_match; try (intros; apply Z.eqb_eq)).
    apply settles_bind, settles_string; [done|done| |intros; by apply HE].
    intros k' n rs nc Hk' Hle H2 Hlen Hrs Hw. apply settles_ret. rewrite orb_false_r. apply HQ; [done|done|].
    split_and!; [done|lia|done|]. exists (Token.String (utf8 rs)). split_and!; [by exists rs|done| |by destruct keep].
    intros Hnc. cbn. rewrite runes_utf8 by done. by apply Hw.
  - apply settles_bind, settles_number; [|intros; by apply HE]. intros k' n Hk' Hle Hn. apply number_len_bound in Hn as Hl. rewrite length_drop in Hl.
    eapply settles_gets with (m := mret (Token.Number (take (start + n - start) (drop start t)), start + n)).
    + intros b' [tail E] Hlen. do 3 f_equal. rewrite E, drop_app_le, take_app_le by (rewrite ?length_drop; lia). done.
    + apply settles_ret. apply HQ; [done|done|]. replace (start + n - start) with n by lia.
      apply scanned_plain; [done|done|by apply number_len_valid|lia|lia|done].
  - apply settles_ret. replace (S start) with (start + 1) by lia. apply HQ; [done|lia|].
    apply scanned_plain; [done|done|done|lia|lia|]. intros _. rewrite (drop_S _ _ _ Hb). cbn. 
    unfold Kind.from_byte in Ek. revert Ek. chars. repeat case_match; try done. intros _. f_equal. by apply Z.eqb_eq.
  - apply settles_ret. replace (S start) with (start + 1) by lia. apply HQ; [done|lia|].
    apply scanned_plain; [done|done|done|lia|lia|]. intros _. rewrite (drop_S _ _ _ Hb). cbn. 
    unfold Kind.from_byte in Ek. revert Ek. chars. repeat case_match; try done. intros _. f_equal. by apply Z.eqb_eq.
Qed.
End Scalars.

(** ** One token *)

Section Next.
Context (t : bytes) (o : Options) (d : nat).
Hypothesis (Ht : all_bytes t).

Abbreviation dups := (allows_duplicates o).

Record next_ok (keep : bool) (p : nat) (st : list Frame) (token : Token) (start p' : nat) (st' : list Frame) (nc : bool) (x_full : Token) : Prop := {
  x_spelled : well_spelled x_full;
  x_token : token = (if keep || top_expects_name st then x_full else hidden x_full);
  x_step : grammar_step dups d x_full st = Some st';
  x_position : ∃ nc', position_of t p st = Some (start, nc') ∧ (nc = false → nc' = false);
  x_range : start < p' <= length t;
  x_text : nc = false → take (p' - start) (drop start t) = spelled x_full;
  x_first : ∃ b, t !! start = Some b ∧ Kind.from_byte b = Token.kind x_full;
}.

Definition next_post (keep : bool) (p : nat) (st : list Frame) (r : result Error (Token * nat)) (p' : nat) (st' : list Frame) (nc : bool) : Prop :=
  match r with
  | Ok (token, start) => ∃ full, next_ok keep p st token start p' st' nc full
  | Err _ => p' = p ∧ stack_sim dups st st'
  end.

Lemma opening_begin kind : Kind.is_end kind = true → Kind.from_byte (default 0%Z (head (Token.text (if bool_decide (kind = Kind.EndObject) then Token.EndObject else Token.EndArray)))) = kind
  ∧ Token.kind (if bool_decide (kind = Kind.EndObject) then Token.EndObject else Token.EndArray) = kind.
Proof. by destruct kind. Qed.

Lemma from_byte_end b : Kind.is_end (Kind.from_byte b) = true →
  Token.text (if bool_decide (Kind.from_byte b = Kind.EndObject) then Token.EndObject else Token.EndArray) = [b].
Proof.
  unfold Kind.from_byte. chars. repeat case_match; try done; intros _; repeat match goal with H : (_ =? _)%Z = true |- _ => apply Z.eqb_eq in H as -> end; done.
Qed.

Lemma cs_next_inner k p st keep Q :
  stack_ok dups st → p <= k →
  (∀ r p' st' k' nc, k <= k' → p' <= k' → next_post keep p st r p' st' nc → Q r p' st' k' nc) →
  csettles t k p st (next_inner o d keep) Q.
Proof.
  intros Hst Hp HQ. assert (∀ e k' nc, k <= k' → Q (Err e) p st k' nc) as HE by (intros; by apply HQ; [|lia|]).
  unfold next_inner, next_at. apply cs_gets_stack, cs_gets_pos, cs_bind, cs_on_input, settles_prepare; [|intros; by apply HE].
  intros k1 start nc1 Hk1 _ Hpos. apply cs_bind, cs_on_input, settles_at. intros k2 Hk2 Hn.
  destruct (t !! start) as [b|] eqn:Hb; [|apply cs_fail, HE; lia]. pose proof (lookup_lt_Some _ _ _ Hb) as Hlt. unfold near in Hn.
  destruct (Kind.is_end (Kind.from_byte b)) eqn:Eend.
  - destruct (top_is _ st) eqn:Etop; cbn [negb]; [|apply cs_on_input, settles_invalid; [lia|]; apply HE; lia].
    destruct (bool_decide (opening (Kind.from_byte b) = Kind.BeginObject) && negb (top_expects_name st)) eqn:Eobj;
      [apply cs_on_input, settles_invalid; [lia|]; apply HE; lia|].
    apply cs_bind, cs_set_stack. apply cs_bind, cs_set_pos. apply cs_ret. apply HQ; [lia|lia|].
    destruct (opening_begin (Kind.from_byte b) Eend) as [_ Ekind]. pose proof (from_byte_end b Eend) as Etext.
    set (token := if bool_decide (Kind.from_byte b = Kind.EndObject) then Token.EndObject else Token.EndArray) in *.
    assert (token = Token.EndObject ∨ token = Token.EndArray) as Hcases by (unfold token; case_match; [by left|by right]).
    assert (well_spelled token ∧ hidden token = token ∧ spelled token = Token.text token) as (Hw & Hh & Hsp) by (by destruct Hcases as [-> | ->]).
    exists token. split; [done|by rewrite Hh; destruct (_ || _)| | |lia| |by exists b; rewrite Ekind].
    + unfold grammar_step. by rewrite Ekind, Eend, Etop, Eobj.
    + exists nc1. split; [done|]. by intros [-> _]%orb_false_iff.
    + intros _. replace (S start - start) with 1 by lia. rewrite (drop_S _ _ _ Hb). cbn [take]. by rewrite Hsp, Etext.
  - destruct (top_expects_name st && negb (bool_decide (Kind.from_byte b = Kind.String))) eqn:Ename; [apply cs_fail, HE; lia|].
    destruct (is_begin (Kind.from_byte b) && too_deep (d + length st)) eqn:Edeep; [apply cs_fail, HE; lia|].
    apply cs_bind, cs_on_input, settles_scan_value; [done|done|lia| |intros; apply HE; lia].
    intros k3 token n nc3 Hk3 Hle (Hkind & Hn1 & Hlen & full & Hw & Hfk & Htext & Htok).
    assert (∀ (st2 : list Frame) k4, k3 <= k4 →
      (match st with f :: rest => if expects_name f then (λ f, f :: rest) <$> name_step dups (Token.text full) f else Some st | [] => Some [] end) = Some st2 →
      csettles t k4 p st2 (count_value;; (if is_begin (Kind.from_byte b) then modify (λ c, c <| stack := frame_new (Kind.from_byte b) :: stack c |>) else mret tt);;
        set_pos (start + n);; mret (token, start)) (λ r p' st' k' nc, Q r p' st' k' (nc1 || (false || (nc3 || nc))))) as Hfinish.
    { intros st2 k4 Hk4 Hst2. apply cs_enter. apply HQ; [lia|lia|]. exists full. split; [done|by rewrite Htok| | |lia| |by exists b].
      - unfold grammar_step. by rewrite Hfk, Eend, Ename, Edeep, Hst2.
      - exists nc1. split; [done|]. by intros [-> _]%orb_false_iff.
      - intros Hnc. replace (start + n - start) with n by lia. apply Htext. rewrite !orb_false_iff in Hnc. tauto. }
    apply cs_bind. unfold take_name. apply cs_gets_stack. destruct st as [|f rest].
    { apply cs_ret. by apply Hfinish. }
    destruct (expects_name f) eqn:Ef; [|apply cs_ret; by apply Hfinish].
    assert (token = full) as ->. { rewrite Htok. cbn. rewrite Ef. by rewrite orb_true_r. }
    assert (Kind.from_byte b = Kind.String) as Ek. { cbn in Ename. rewrite Ef in Ename. cbn in Ename. by apply negb_false_iff, bool_decide_eq_true in Ename. }
    assert (match full with Token.String text => text | _ => [] end = Token.text full) as Etext.
    { rewrite Ek in Hfk. destruct full as [|[]|s|s| | | |]; try done. }
    rewrite Etext. unfold name_step in Hfinish.
    destruct (if dups then (true, names f) else insert (Token.text full) (names f)) as [fresh ns] eqn:Ei.
    destruct fresh.
    + apply cs_set_stack. apply Hfinish; done.
    + apply cs_bind, cs_set_stack, cs_fail. apply HQ; [lia|lia|]. split; [done|].
      apply Forall2_cons in Hst as [Hf Hrest]. constructor; [|done].
      destruct dups eqn:Ed; [by injection Ei as ?|].
      destruct (name_step_sim false false (Token.text full) f f (or_introl eq_refl) Hf) as [_ H2] || idtac.
      destruct (name_step_sim false false (Token.text full) f f (or_intror eq_refl) Hf) as [_ H2].
      destruct H2 as (_ & _ & n1 & n2 & E1 & _ & Hsim & _); [unfold name_step; by rewrite Ei|done|]. rewrite Ei in E1. by injection E1 as <-.
Qed.
Lemma cs_next_mapped k p st keep Q :
  csettles t k p st (next_inner o d keep) (λ r p' st' k' nc, Q (match r with Ok a => Ok a | Err e => Err (in_pointer st' e) end) p' st' k' nc) →
  csettles t k p st (next o d keep) Q.
Proof.
  intros (r & p' & st' & k' & nc & Hm & Hk & HQ). eexists _, p', st', k', nc. split_and!; [|done|exact HQ].
  intros i Hi. destruct (Hm i Hi) as (i' & E & H). exists i'. split; [|done]. unfold next. rewrite E. by destruct r.
Qed.

Lemma cs_next k p st keep Q :
  stack_ok dups st → p <= k →
  (∀ r p' st' k' nc, k <= k' → p' <= k' → next_post keep p st r p' st' nc → Q r p' st' k' nc) →
  csettles t k p st (next o d keep) Q.
Proof.
  intros Hst Hp HQ. apply cs_next_mapped, cs_next_inner; [done..|]. intros r p' st' k' nc Hk Hle Hr. apply HQ; [done..|]. by destruct r.
Qed.
End Next.

(** ** A token that is written *)

Abbreviation spaces ws := (Forall (λ b, is_space b = true) ws).

(** What can be read back of a token that stands in front of [tail]. *)
Definition readable (token : Token) (tail : bytes) : Prop :=
  well_spelled token ∧ match token with Token.Number _ => stops tail | _ => True end.

Definition token_lead (token : Token) (st : list Frame) : bytes :=
  if Kind.is_end (Token.kind token) then [] else option_list (lead st).

Lemma valid_number_first b : valid_number b = true → ∃ c b', b = c :: b' ∧ Kind.from_byte c = Kind.Number ∧ is_space c = false.
Proof.
  rewrite valid_number_len. intros Hb%bool_decide_eq_true. destruct b as [|c b]; [done|]. exists c, b. split; [done|].
  unfold number_len, int_len in Hb. cbn [head lookup list_lookup] in Hb. destruct (bool_decide (Some c = Some (ch "-"))) eqn:E.
  - apply bool_decide_eq_true in E as [= ->]. done.
  - cbn in Hb. unfold Kind.from_byte, is_space. revert Hb. chars. unfold is_ascii_digit. intros Hb.
    assert (48 <= c <= 57)%Z.
    { destruct (Z.eqb_spec c 48) as [->|]; [lia|]. destruct (in_range 49 57 c) eqn:Er; [apply in_range_true in Er; lia|done]. }
    zlia; cbn; done || lia.
Qed.

Lemma spelled_first token : well_spelled token →
  ∃ c b', spelled token = c :: b' ∧ Kind.from_byte c = Token.kind token ∧ is_space c = false.
Proof. destruct token as [|[]|b|b| | | |]; intros Hw; try (by eexists _, _). by apply valid_number_first. Qed.

Section Written.
Context (t : bytes).
Hypothesis (Ht : all_bytes t).

Lemma past_space_written p ws tail : drop p t = ws ++ tail → spaces ws → from_option is_space false (head tail) = false →
  past_space t p = p + length ws ∧ drop (past_space t p) t = tail.
Proof.
  intros Hd Hws Ht'. unfold past_space. rewrite Hd, run_app by done. split; [done|]. by rewrite <-drop_drop, Hd, drop_app_length.
Qed.

Lemma position_of_written p st token ws ws2 tail dups d st' :
  drop p t = ws ++ token_lead token st ++ ws2 ++ spelled token ++ tail → spaces ws → spaces ws2 → (token_lead token st = [] → ws2 = []) →
  well_spelled token → grammar_step dups d token st = Some st' →
  ∃ nc, position_of t p st = Some (p + length ws + length (token_lead token st) + length ws2, nc).
Proof.
  intros Hd Hws Hws2 Hnil Hw Hg. destruct (spelled_first token Hw) as (c & b' & Es & Hk & Hsp). unfold position_of.
  unfold token_lead in *. destruct (Kind.is_end (Token.kind token)) eqn:Eend.
  - specialize (Hnil eq_refl). subst ws2. cbn [app] in Hd. rewrite Es in Hd.
    destruct (past_space_written p ws _ Hd Hws) as [E Hd']; [done|]. apply drop_lookup in Hd' as [Hc _]. rewrite E in *. cbn [length]. rewrite !Nat.add_0_r.
    destruct (lead st) as [x|]; [|by eexists]. unfold grammar_step in Hg. rewrite Eend in Hg.
    destruct (top_is _ st && negb _) eqn:Eg; [|done]. apply andb_prop in Eg as [Etop Eobj]. rewrite Hc.
    assert (in_value st = false ∧ Some c = Some (closer st)) as [-> ->]; [|by rewrite bool_decide_true; [eexists|]].
    destruct token as [|[]| | | | | |]; try done; cbn in Es; injection Es as <- _; cbn in Etop, Eobj; unfold in_value, closer.
    + change (opening Kind.EndObject) with Kind.BeginObject in *. rewrite Etop in *. by destruct (top_expects_name st).
    + change (opening Kind.EndArray) with Kind.BeginArray in *. assert (top_is Kind.BeginObject st = false) as ->; [|done]. unfold top_is in *. destruct st as [|f st]; [done|]. cbn in *.
      apply bool_decide_eq_true in Etop. apply bool_decide_eq_false. by rewrite Etop.
  - destruct (lead st) as [x|] eqn:El; cbn [option_list app] in Hd.
    + assert (is_space x = false) as Hx by (unfold lead in El; destruct (in_value st); [by injection El as <-|destruct (counted st); [by injection El as <-|done]]).
      destruct (past_space_written p ws _ Hd Hws) as [E Hd']; [done|]. apply drop_lookup in Hd' as [Hx' Hd'].
      rewrite Es in Hd'. destruct (past_space_written (S (past_space t p)) ws2 _ Hd' Hws2) as [E2 Hd2]; [done|]. apply drop_lookup in Hd2 as [Hc _].
      rewrite Hx'. assert (c ≠ ch "}" ∧ c ≠ ch "]") as [N1 N2] by (split; intros ->; by rewrite <-Hk in Eend).
      assert (negb (in_value st) && bool_decide (Some x = Some (closer st)) = false) as ->.
      { unfold lead in El. destruct (in_value st); [done|]. cbn. apply bool_decide_eq_false. destruct (counted st); [|done]. injection El as <-. unfold closer. by case_match. }
      rewrite bool_decide_true by done. rewrite Hc, !bool_decide_false by (by intros [= ?]). rewrite andb_false_r. eexists. f_equal. f_equal.
      rewrite E2, E. cbn. lia.
    + rewrite (Hnil eq_refl) in Hd. cbn [app] in Hd. rewrite Es in Hd.
      destruct (past_space_written p ws _ Hd Hws) as [E _]; [done|]. rewrite E, (Hnil eq_refl). cbn. rewrite !Nat.add_0_r. by eexists.
Qed.
Lemma settles_scan_written k start o token tail Q :
  readable token tail → drop start t = spelled token ++ tail → start < k → Kind.is_end (Token.kind token) = false →
  (∀ k' nc, k <= k' → start + length (spelled token) <= k' → Q (Ok (token, start + length (spelled token))) k' nc) →
  settles t k (scan_value (Token.kind token) start o true) Q.
Proof.
  intros [Hw Hstop] Hd Hk Hend HQ.
  destruct token as [|[]|b|b| | | |]; try done; cbn [Token.kind scan_value]; cbn [spelled Token.text] in Hd, HQ.
  1-3: apply settles_bind, settles_literal; [done|intros k' Hk' ? _; apply settles_ret, HQ; done || lia|
    intros k' e Hk' Hp; destruct Hp; rewrite Hd; by eexists].
  - destruct Hw as (rs & Hrs & ->). rewrite runes_utf8 in Hd, HQ by done. apply settles_bind.
    apply (settles_string_written t k start rs tail [] (allows_invalid o) true); [done|by rewrite Hd, <-app_comm_cons, <-app_assoc|].
    intros k' nc Hk' Hle. apply settles_ret. cbn [default]. cbn [length] in HQ. rewrite length_app in HQ. cbn [length] in HQ.
    replace (start + length (written rs) + 2) with (start + S (length (written rs) + 1)) by lia. apply HQ; lia.
  - apply settles_bind, settles_number.
    + intros k' n Hk' Hle Hn. rewrite Hd, valid_number_app in Hn by done. injection Hn as <-.
      eapply settles_gets with (m := mret (Token.Number b, start + length b)).
      * intros b' [tl E] Hlen. do 3 f_equal. replace (start + length b - start) with (length b) by lia.
        rewrite E, drop_app_le in Hd by lia. rewrite <-(take_app_le (drop start b') tl), Hd by (rewrite length_drop; lia). by apply take_app_length.
      * apply settles_ret, HQ; lia.
    + intros k' e Hk' Hn. by rewrite Hd, valid_number_app in Hn.
  - apply settles_ret. cbn in HQ. replace (S start) with (start + 1) by lia. apply HQ; lia.
  - apply settles_ret. cbn in HQ. replace (S start) with (start + 1) by lia. apply HQ; lia.
Qed.

(** The token that is written where the decoder stands is the one it reads. *)
Lemma cs_next_written k p st o d token ws ws2 tail st' Q :
  drop p t = ws ++ token_lead token st ++ ws2 ++ spelled token ++ tail → spaces ws → spaces ws2 → (token_lead token st = [] → ws2 = []) →
  readable token tail → grammar_step (allows_duplicates o) d token st = Some st' →
  (∀ p' start k' nc, k <= k' → p' <= k' → drop p' t = tail → Q (Ok (token, start)) p' st' k' nc) →
  csettles t k p st (next o d true) Q.
Proof.
  intros Hd Hws Hws2 Hnil Hr Hg HQ. pose proof Hr as [Hw _].
  destruct (position_of_written p st token ws ws2 tail _ _ _ Hd Hws Hws2 Hnil Hw Hg) as [nc Hpos].
  set (start := p + length ws + length (token_lead token st) + length ws2) in *.
  assert (drop start t = spelled token ++ tail) as Hstart.
  { unfold start. rewrite <-!drop_drop, Hd. by rewrite !drop_app_length. }
  assert (drop (start + length (spelled token)) t = tail) as Htail by (by rewrite <-drop_drop, Hstart, drop_app_length).
  destruct (spelled_first token Hw) as (c & b' & Es & Hkind & _). pose proof Hstart as Hc. rewrite Es in Hc. apply drop_lookup in Hc as [Hc Hnext].
  pose proof (lookup_lt_Some _ _ _ Hc) as Hlt. apply cs_next_mapped.
  unfold next_inner, next_at. apply cs_gets_stack, cs_gets_pos, cs_bind, cs_on_input, settles_prepare.
  2: { intros k' e nc' _ E. by rewrite Hpos in E. }
  intros k1 i nc1 Hk1 _ E. rewrite Hpos in E. injection E as <- <-. apply cs_bind, cs_on_input, settles_at. intros k2 Hk2 Hn. rewrite Hc, Hkind. unfold near in Hn.
  unfold grammar_step in Hg. destruct (Kind.is_end (Token.kind token)) eqn:Eend.
  - destruct (top_is (opening (Token.kind token)) st) eqn:Etop; [|done]. cbn [negb andb] in *.
    destruct (bool_decide (opening (Token.kind token) = Kind.BeginObject) && negb (top_expects_name st)); [done|]. cbn [negb] in *.
    injection Hg as <-. apply cs_bind, cs_set_stack, cs_bind, cs_set_pos, cs_ret.
    assert ((if bool_decide (Token.kind token = Kind.EndObject) then Token.EndObject else Token.EndArray) = token) as -> by (by destruct token as [|[]| | | | | |]).
    apply HQ; [lia|lia|]. rewrite Hnext. rewrite <-Htail. rewrite <-drop_drop, Hstart, Es. destruct token as [|[]| | | | | |]; try done; cbn in Es; injection Es as _ <-; done.
  - destruct (top_expects_name st && negb (bool_decide (Token.kind token = Kind.String))) eqn:Ename; [done|].
    destruct (is_begin (Token.kind token) && too_deep (d + length st)) eqn:Edeep; [done|].
    apply cs_bind, cs_on_input. apply (settles_scan_written k2 start o token tail); [done|done|lia|done|].
    intros k3 nc3 Hk3 Hle.
    assert (∀ st2 k4, k3 <= k4 → st' = (let st := on_top (λ f, f <| count := S (count f) |>) st2 in
        if is_begin (Token.kind token) then frame_new (Token.kind token) :: st else st) →
      csettles t k4 p st2 (count_value;; (if is_begin (Token.kind token) then modify (λ c, c <| stack := frame_new (Token.kind token) :: stack c |>) else mret tt);;
        set_pos (start + length (spelled token));; mret (token, start)) (λ r p0 st0 k0 nc0, Q (match r with Ok a => Ok a | Err e => Err (in_pointer st0 e) end) p0 st0 k0 (nc || (false || (nc3 || (false || nc0)))))) as Hfinish.
    { intros st2 k4 Hk4 ->. apply cs_enter. apply HQ; [lia|lia|done]. }
    apply cs_bind. unfold take_name. apply cs_gets_stack. destruct st as [|f rest].
    { apply cs_ret, Hfinish; [done|]. by injection Hg as <-. }
    destruct (expects_name f) eqn:Ef; [|apply cs_ret, Hfinish; [done|]; by injection Hg as <-].
    assert (match token with Token.String text => text | _ => [] end = Token.text token) as ->.
    { cbn in Ename. rewrite Ef in Ename. cbn in Ename. apply negb_false_iff, bool_decide_eq_true in Ename. by destruct token as [|[]|s|s| | | |]. }
    unfold name_step in Hg. destruct (if allows_duplicates o then _ else _) as [[] ns]; [|done].
    apply cs_set_stack, Hfinish; [done|]. by injection Hg as <-.
Qed.
End Written.

(** * Decoders and streams *)

(** ** Decoders and what they have still to read *)

(** [rest] is what stands behind the position of [d], read or not, and [n] bytes are before it. *)
Record decodes (n : nat) (rest : bytes) (st : list Frame) (d : Decoder) : Prop := {
  d_views : ∃ t k, all_bytes t ∧ views t k (input (cursor d)) ∧ drop (pos (cursor d)) t = rest ∧ pos (cursor d) <= k;
  d_frames : d_stack d = st;
  d_offset : input_offset d = n;
}.

(** What a decoder does not change. *)
Definition settings (d : Decoder) : Options * nat := (options d, base_depth d).

Lemma decodes_new s o : Forall calm_event (events s) → all_bytes (content s) → decodes 0 (content s) [] (with_options s o).
Proof.
  intros Hc Hb. split; [|done..]. exists (content s), 0. split_and!; [done|by apply views_new|done|done].
Qed.

Lemma decodes_slice b o : all_bytes b → decodes 0 b [] (from_slice_with_options b o).
Proof. intros Hb. split; [|done..]. exists b, (length b). split_and!; [done|apply views_slice|done|cbn; lia]. Qed.

(** The bytes that are done with leave the buffer; nothing else changes. *)
Lemma compact_decodes n rest st d : decodes n rest st d →
  ∃ d', compact d = Some (Ok tt, d') ∧ decodes n rest st d' ∧ settings d' = settings d ∧ root_count d' = root_count d.
Proof.
  intros Hdec. eexists. split; [done|]. cbv beta zeta. destruct ((COMPACT_AT <=? Z.of_nat (pos (cursor d)))%Z && negb (eof (input (cursor d)))); [|done]. destruct Hdec as [(t & k & Ht & Hv & Hd & Hk) Hs Hn].
  split; [|done]. split; [|done|unfold input_offset in *; cbn; lia].
  pose proof (v_buffered _ _ _ Hv). exists rest, (k - pos (cursor d)). split_and!.
  - rewrite <-Hd. by apply Forall_drop.
  - destruct Hv as [Hv He Hc Hb]. split; [|done|done|cbn; rewrite length_drop; lia]. cbn. by rewrite <-Hd, <-Hv, drop_app_le by lia.
  - done.
  - cbn. lia.
Qed.

(** A computation on the cursor that settles, as one of the decoder. *)
Lemma decodes_cursor {A} n rest st d (m : C A) (Q : result Error A → list Frame → nat → bytes → Prop) :
  decodes n rest st d →
  (∀ t k p, all_bytes t → drop p t = rest → p <= k →
    csettles t k p st m (λ r p' st' k' nc, p' <= k' ∧ p <= p' ∧ Q r st' (n + (p' - p)) (drop p' t))) →
  ∃ r d' st' n' rest', on_cursor m d = Some (r, d') ∧ decodes n' rest' st' d' ∧ Q r st' n' rest'
    ∧ settings d' = settings d ∧ root_count d' = root_count d ∧ base d' = base d.
Proof.
  intros [(t & k & Ht & Hv & Hd & Hk) Hs Hn] Hm.
  destruct (Hm t k (pos (cursor d)) Ht Hd Hk) as (r & p' & st' & k' & nc & H & Hkk & Hle & Hpp & HQ).
  destruct (H _ Hv) as (i' & E & Hv' & _). exists r, (d <| cursor := MkCursor i' p' st' |>), st', (n + (p' - pos (cursor d))), (drop p' t).
  split_and!; [|split| |done..].
  - unfold on_cursor. destruct d as [[i p s] b o rc ps bd]. unfold d_stack in Hs. cbn in *. subst s. by rewrite E.
  - exists t, k'. cbn. by split_and!.
  - done.
  - unfold input_offset in *. cbn. lia.
  - done.
Qed.

(** ** A token *)

Lemma read_token_steps d d1 r d2 :
  compact d = Some (Ok tt, d1) → on_cursor (next (options d1) (base_depth d1) true) d1 = Some (r, d2) →
  ∃ d3, read_token d = Some (match r with Ok (token, _) => Ok token | Err e => Err (absolute_error (base d2) e) end, d3)
    ∧ cursor d3 = cursor d2 ∧ base d3 = base d2 ∧ settings d3 = settings d2
    ∧ previous_start d3 = match r with Ok (_, start) => Some (base d2 + start) | Err _ => previous_start d2 end
    ∧ root_count d3 = match r with Ok _ => if bool_decide (d_stack d1 = []) then S (root_count d2) else root_count d2 | Err _ => root_count d2 end.
Proof.
  intros E1 E2. unfold read_token, mbind, st_bind, absolute, gets, modify. rewrite E1. unfold id. rewrite E2.
  destruct r as [[token start]|e]; eexists; (split; [done|]); [|done]. unfold mret. by destruct (bool_decide _).
Qed.

Lemma decodes_cursor_eq n rest st d d' : decodes n rest st d → cursor d' = cursor d → base d' = base d → decodes n rest st d'.
Proof. intros [(t & k & H) Hs Hn] Ec Eb. unfold d_stack, input_offset in *. split; unfold d_stack, input_offset; rewrite ?Ec, ?Eb; [by exists t, k|done..]. Qed.

Lemma read_token_written n d token ws ws2 tail st st' :
  decodes n (ws ++ token_lead token st ++ ws2 ++ spelled token ++ tail) st d →
  spaces ws → spaces ws2 → (token_lead token st = [] → ws2 = []) → readable token tail →
  grammar_step (allows_duplicates (options d)) (base_depth d) token st = Some st' →
  ∃ d' n', read_token d = Some (Ok token, d') ∧ decodes n' tail st' d' ∧ settings d' = settings d.
Proof.
  intros Hd Hws Hws2 Hnil Hr Hg. destruct (compact_decodes _ _ _ _ Hd) as (d1 & E1 & Hd1 & S1 & _).
  injection S1 as So Sb. rewrite <-So, <-Sb in Hg.
  destruct (decodes_cursor _ _ _ d1 (next (options d1) (base_depth d1) true)
    (λ r st1 _ rest, ∃ start, r = Ok (token, start) ∧ st1 = st' ∧ rest = tail) Hd1) as (r & d2 & st2 & n2 & rest2 & E2 & Hd2 & (start & -> & -> & ->) & S2 & R2 & B2).
  { intros t k p Ht Hp Hk. eapply cs_next_written; [exact Hp|done..|]. intros p' start k' nc Hk' Hle Hp'.
    split_and!; [done| |by exists start].
    destruct (Nat.le_gt_cases p p') as [|Hgt]; [done|]. exfalso. apply (f_equal length) in Hp, Hp'.
    rewrite !length_app, length_drop in Hp. rewrite length_drop in Hp'. 
    destruct Hr as [Hw _]. destruct (spelled_first token Hw) as (c & b' & Es & _). rewrite Es in Hp. cbn in Hp. lia. }
  destruct (read_token_steps _ _ _ _ E1 E2) as (d3 & E3 & Hc & Hb & S3 & _). exists d3, n2. split_and!; [done|by eapply decodes_cursor_eq|].
  rewrite S3, S2. unfold settings. congruence.
Qed.

(** White space is all that is left. *)
Lemma read_token_end n d ws : decodes n ws [] d → spaces ws → ∃ d', read_token d = Some (Err Eof, d').
Proof.
  intros Hd Hws. destruct (compact_decodes _ _ _ _ Hd) as (d1 & E1 & Hd1 & _).
  destruct (decodes_cursor _ _ _ d1 (next (options d1) (base_depth d1) true)
    (λ r st1 _ rest, r = Err Eof) Hd1) as (r & d2 & st2 & n2 & rest2 & E2 & _ & -> & _).
  { intros t k p Ht Hp Hk. apply cs_next_mapped. unfold next_inner, next_at.
    assert (past_space t p = length t ∨ length t <= p ∧ past_space t p = p) as Hend.
    { unfold past_space. rewrite Hp. pose proof (run_app is_space ws [] Hws eq_refl) as Hr. rewrite app_nil_r in Hr. rewrite Hr.
      apply (f_equal length) in Hp. rewrite length_drop in Hp. lia. }
    apply cs_gets_stack, cs_gets_pos, cs_bind, cs_on_input. apply settles_prepare; cbn; [|done]. intros k1 i nc Hk1 _ [= <- _].
    apply cs_bind, cs_on_input, settles_at. intros k2 Hk2 _. rewrite lookup_ge_None_2 by lia. apply cs_fail.
    cbn. split_and!; [lia|lia|done]. }
  destruct (read_token_steps _ _ _ _ E1 E2) as (d3 & E3 & _). by exists d3.
Qed.

(** ** Streams *)

(** [text] has the tokens, one after another, between the stacks [st] and [st'], and white
    space at its end. *)
Inductive stream (dups : bool) (d : nat) : list Frame → list Token → bytes → list Frame → Prop :=
  | stream_end st ws : spaces ws → stream dups d st [] ws st
  | stream_token st token ws ws2 tail st1 tokens st' :
      spaces ws → spaces ws2 → (token_lead token st = [] → ws2 = []) → readable token tail →
      grammar_step dups d token st = Some st1 → stream dups d st1 tokens tail st' →
      stream dups d st (token :: tokens) (ws ++ token_lead token st ++ ws2 ++ spelled token ++ tail) st'.

Lemma stream_space dups d st tokens ws text st' : spaces ws → stream dups d st tokens text st' → stream dups d st tokens (ws ++ text) st'.
Proof.
  intros Hws Hs. destruct Hs as [st ws' H|st token ws' ws2 tail st1 tokens st' H H2 Hn Hr Hg Hs].
  - constructor. by apply Forall_app.
  - rewrite app_assoc. econstructor; [by apply Forall_app|done..].
Qed.

Lemma stream_steps dups d st tokens text st' : stream dups d st tokens text st' → grammar_steps dups d tokens st = Some st'.
Proof. induction 1 as [|st token ws ws2 tail st1 tokens st' ? ? ? ? Hg _ IH]; [done|]. cbn. by rewrite Hg. Qed.

(** A decoder with other names in its frames, or none, reads the stream as well. *)
Lemma read_tokens_stream dups st tokens text st' d n st0 :
  stream dups (base_depth d) st tokens text st' → decodes n text st0 d →
  (allows_duplicates (options d) = true ∨ allows_duplicates (options d) = dups) → stack_sim (allows_duplicates (options d)) st st0 →
  ∃ d' n' ws st0', read_tokens (length tokens) d = Some (Ok tokens, d') ∧ decodes n' ws st0' d' ∧ spaces ws
    ∧ stack_sim (allows_duplicates (options d)) st' st0' ∧ settings d' = settings d.
Proof.
  intros Hs. remember (base_depth d) as bd eqn:Ebd. revert d n st0 Ebd.
  induction Hs as [st ws Hws|st token ws ws2 tail st1 tokens st' Hws Hws2 Hnil Hr Hg Hs IH]; intros d n st0 Ebd Hd Hdups Hsim.
  { eexists d, n, ws, st0. by split_and!. }
  destruct (grammar_step_sim _ _ _ _ _ _ _ Hdups Hsim Hg) as (st1' & Hg' & Hsim').
  assert (token_lead token st0 = token_lead token st) as El.
  { unfold token_lead, lead, in_value, counted. destruct (stack_sim_shape _ _ _ Hsim) as (_ & -> & _ & ->).
    destruct Hsim as [|f g ? ? [_ Hc _ _] _]; [done|]. cbn. by rewrite Hc. }
  rewrite <-El in Hd, Hnil. rewrite Ebd in Hg'.
  destruct (read_token_written _ _ _ _ _ _ _ _ Hd Hws Hws2 Hnil Hr Hg') as (d1 & n1 & E1 & Hd1 & S1). injection S1 as So Sb.
  destruct (IH d1 n1 st1') as (d2 & n2 & ws' & st2 & E2 & Hd2 & Hw2 & Hsim2 & S2); [by rewrite Sb|done|by rewrite So|by rewrite So|].
  exists d2, n2, ws', st2. split_and!; [|done|done|by rewrite So in Hsim2|unfold settings in *; congruence].
  cbn [length read_tokens]. unfold mbind at 1, st_bind at 1. rewrite E1. unfold mbind, st_bind. by rewrite E2.
Qed.
