(* ===== verification/JsonWrites.v ===== *)
(** What the JSON encoder does with a token: the step of the grammar that it makes, the text
    that it adds, and what reaches its writer.

    What an encoder writes for a sequence of tokens is a stream that a decoder reads.

    What a refused token leaves behind in a JSON encoder: nothing that can be told. *)

From S2P Require Import Prelude Wtf8 BaseProto JsonState JsonWire JsonDecoder JsonEncoder JsonLex JsonStrings JsonGrammar JsonNext.

Import JsonState.Kind(Kind) JsonState.Token(Token).

Local Open Scope nat_scope.

(** ** What has been produced *)

(** The bytes that the writer has and those that are still to be handed over. *)
Definition produced (e : Encoder) : bytes :=
  match sink e with Some s => received s ++ drop (flushed e) (out e) | None => out e end.

Definition flushed_ok (e : Encoder) : Prop := flushed e <= length (out e).

(** What the output path leaves alone. *)
Definition kept (e : Encoder) : list Frame * Options * nat * bool := (frames e, opts e, roots e, omit_top_level_newline e).

Lemma flush_loop_spec fuel s e :
  flushed_ok e → length (sink_events s) + 2 <= fuel →
  ∃ r e', flush_loop fuel s e = Some (r, e') ∧ produced e' = received s ++ drop (flushed e) (out e) ∧ flushed_ok e' ∧ kept e' = kept e.
Proof.
  unfold flushed_ok. revert s e. induction fuel as [|fuel IH]; intros s e Hf Hfuel; [lia|]. cbn [flush_loop].
  destruct (Nat.ltb_spec (flushed e) (length (out e))) as [Hlt|Hge].
  2: { eexists _, _. split_and!; [done| |cbn; lia|done]. unfold produced. cbn. by rewrite drop_ge by lia. }
  destruct s as [rec [|[n|err] evs]]; cbn [sink_write sink_events received length] in *.
  - rewrite length_drop. destruct (length (out e) - flushed e) as [|m] eqn:Em; [lia|].
    destruct fuel as [|fuel]; [lia|]. cbn [flush_loop]. 
    assert (flushed (e <| flushed := flushed e + S m |> <| sink := Some (MkSink (rec ++ drop (flushed e) (out e)) []) |>) <?
      length (out (e <| flushed := flushed e + S m |> <| sink := Some (MkSink (rec ++ drop (flushed e) (out e)) []) |>)) = false) as ->
      by (apply Nat.ltb_ge; cbn; lia).
    eexists _, _. split_and!; [done| |cbn; lia|done].
    unfold produced. cbn. by rewrite app_nil_r.
  - destruct (n `min` length (drop (flushed e) (out e))) as [|m] eqn:Em.
    + eexists _, _. split_and!; [done| |done|done]. unfold produced. cbn. f_equal. rewrite length_drop in Em.
      assert (n = 0) as -> by lia. by rewrite take_0, app_nil_r.
    + rewrite length_drop in Em. destruct (IH (MkSink (rec ++ take n (drop (flushed e) (out e))) evs)
        (e <| flushed := flushed e + S m |> <| sink := Some (MkSink (rec ++ take n (drop (flushed e) (out e))) evs) |>)) as (r & e' & E & Hp & Hf' & Hk); [cbn; lia|cbn; lia|].
      exists r, e'. split_and!; [done| |done|done]. rewrite Hp. cbn. rewrite <-app_assoc. f_equal.
      rewrite <-(take_drop n (drop (flushed e) (out e))) at 2. f_equal. rewrite drop_drop.
      destruct (Nat.le_gt_cases n (length (out e) - flushed e)); [do 2 f_equal; lia|by rewrite !drop_ge by lia].
  - destruct err; try (eexists _, _; split_and!; [done|done|done|done]).
    destruct (IH (MkSink rec evs) (e <| sink := Some (MkSink rec evs) |>)) as (r & e' & E & Hp & Hf' & Hk); [done|cbn; lia|].
    exists r, e'. by split_and!.
Qed.

(** Flushing ends, and no byte is lost or doubled, whatever the writer takes. *)
Lemma flush_spec e : flushed_ok e → ∃ r e', flush e = Some (r, e') ∧ produced e' = produced e ∧ flushed_ok e' ∧ kept e' = kept e.
Proof.
  intros Hf. unfold flush, produced at 2. destruct (sink e) as [s|] eqn:Es.
  - by apply flush_loop_spec.
  - eexists _, _. split_and!; [done| |unfold flushed_ok; cbn; lia|done]. unfold produced. cbn. by rewrite Es.
Qed.

(** The line ends behind a value at the top. *)
Definition line_end (e : Encoder) (st : list Frame) : bytes :=
  if bool_decide (st = []) && negb (omit_top_level_newline e) then [10]%Z else [].

Lemma produced_append e b : flushed_ok e → produced (e <| out := out e ++ b |>) = produced e ++ b ∧ flushed_ok (e <| out := out e ++ b |>).
Proof.
  intros Hf. unfold produced, flushed_ok in *. cbn. rewrite length_app. split; [|lia]. destruct (sink e); [|done].
  by rewrite drop_app_le, app_assoc.
Qed.

Lemma settle_spec e : flushed_ok e →
  ∃ r e', settle e = Some (r, e') ∧ produced e' = produced e ++ line_end e (frames e) ∧ flushed_ok e' ∧ kept e' = kept e.
Proof.
  intros Hf. unfold settle, line_end. destruct (bool_decide _); cbn [andb].
  - destruct (omit_top_level_newline e) eqn:Eo; cbn [negb].
    + destruct (flush_spec e Hf) as (r & e' & E & Hp & H). exists r, e'. by rewrite app_nil_r.
    + destruct (produced_append e [10]%Z Hf) as [Hp' Hf']. destruct (flush_spec _ Hf') as (r & e' & E & Hp & H1 & H2). exists r, e'. split_and!; [done|by rewrite Hp|done..].
  - rewrite app_nil_r. destruct (_ <=? _)%Z; [by apply flush_spec|]. by exists (Ok tt), e.
Qed.

(** ** A token *)

(** What is read back of a token. *)
Definition clean_token (token : Token) : Token :=
  match token with Token.String s => Token.String (clean s) | _ => token end.

Definition token_bytes (token : Token) : Prop := match token with Token.String s | Token.Number s => all_bytes s | _ => True end.

(** What writing relies upon: the bytes of a string are bytes. *)
Definition string_bytes (token : Token) : Prop := match token with Token.String s => all_bytes s | _ => True end.

Lemma token_string_bytes token : token_bytes token → string_bytes token.
Proof. by destruct token. Qed.

Definition writable (allow : bool) (token : Token) : bool :=
  match token with
  | Token.String s => allow || bool_decide (clean s = s)
  | Token.Number b => valid_number b
  | _ => true
  end.

Lemma clean_token_kind token : Token.kind (clean_token token) = Token.kind token.
Proof. by destruct token. Qed.

Lemma append_text_spec token offset e : string_bytes token →
  if writable (allows_invalid (opts e)) token
  then append_text token offset e = Some (Ok (match token with Token.String s => Some (clean s) | _ => None end),
         e <| out := out e ++ spelled (clean_token token) |>) ∧ well_spelled (clean_token token)
  else ∃ err, append_text token offset e = Some (Err err, e).
Proof.
  intros Hb. destruct token as [|[]|s|b| | | |]; cbn [writable clean_token spelled append_text]; try done.
  - cbn in Hb. pose proof (runes_scalar s Hb) as Hrs.
    assert (runes (clean s) = runes s) as Er by (by apply runes_utf8).
    destruct (append_string_spec (out e) s (allows_invalid (opts e)) Hb) as [[Ha ->]|(Ha & Hc & at_ & ->)].
    + assert (allows_invalid (opts e) || bool_decide (clean s = s) = true) as -> by (destruct Ha as [-> | ->]; [done|by rewrite bool_decide_true, orb_true_r]).
      rewrite Er. split; [done|]. by exists (runes s).
    + rewrite Ha, bool_decide_false by done. by eexists.
  - destruct (valid_number b) eqn:Ev; [done|].
    destruct (settles_number b 0 0 [] (λ _ _ _, True)) as (r & k' & nc & Hg & _); [done|done|].
    destruct (Hg (input_new (MkSource b []))) as (i' & -> & _); [apply (views_new (MkSource b [])); constructor|]. destruct r; by eexists.
Qed.

Definition guard (kind : Kind) (st : list Frame) : bool :=
  (if Kind.is_end kind then top_is (opening kind) st && negb (bool_decide (opening kind = Kind.BeginObject) && negb (top_expects_name st))
   else negb (top_expects_name st && negb (bool_decide (kind = Kind.String)))) && negb (is_begin kind && too_deep (length st)).

Lemma check_token_guard kind offset st : if guard kind st then check_token kind offset st = Ok tt else ∃ err, check_token kind offset st = Err err.
Proof.
  unfold guard, check_token, ensure. destruct (Kind.is_end kind); [destruct (top_is _ _); [destruct (negb (_ && _))|]|destruct (negb (_ && _))];
    cbn [andb mbind result_bind]; try destruct (negb (_ && _)); try done; by eexists.
Qed.

(** The innermost frame takes the name, if it is at one. *)
Definition named (dups : bool) (text : bytes) (st : list Frame) : option (list Frame) :=
  match st with f :: rest => if expects_name f then (λ f, f :: rest) <$> name_step dups text f else Some st | [] => Some [] end.
Definition entered (kind : Kind) (st : list Frame) : list Frame :=
  let st := on_top (λ f, f <| count := S (count f) |>) st in if is_begin kind then frame_new kind :: st else st.

Lemma grammar_step_guard dups token st :
  grammar_step dups 0 token st =
  if guard (Token.kind token) st then
    if Kind.is_end (Token.kind token) then Some (List.tl st) else entered (Token.kind token) <$> named dups (Token.text token) st
  else None.
Proof.
  unfold grammar_step, guard. destruct (Kind.is_end (Token.kind token)) eqn:Ee.
  - assert (is_begin (Token.kind token) = false) as -> by (by destruct token as [|[]| | | | | |]). cbn [andb negb]. by rewrite andb_true_r.
  - destruct (top_expects_name st && _); [done|]. cbn [negb andb]. destruct (is_begin _ && _); [done|]. by destruct (named dups _ st) eqn:En; unfold named in En; rewrite En.
Qed.

(** ** Appending and writing *)

(** The step that a token makes, if it can be written and can stand here. *)
Definition write_step (e : Encoder) (token : Token) : option (list Frame) :=
  if writable (allows_invalid (opts e)) token
  then grammar_step (allows_duplicates (opts e)) 0 (clean_token token) (frames e) else None.

(** The text of a token, with what stands in front of it. *)
Definition token_text (e : Encoder) (token : Token) : bytes :=
  prefix_bytes (token_prefix e (Token.kind token)) ++ spelled (clean_token token).

Definition appended (e : Encoder) (token : Token) (st : list Frame) : Encoder :=
  e <| out := out e ++ token_text e token |> <| frames := st |>
    <| roots := if bool_decide (frames e = []) then S (roots e) else roots e |>.

(** What an error of [append_token] has changed. *)
Definition spoiled (e e' : Encoder) : Prop :=
  ∃ tail st, e' = e <| out := out e ++ tail |> <| frames := st |> ∧ stack_sim (allows_duplicates (opts e)) (frames e) st.

Lemma spoiled_text e tail : stack_ok (allows_duplicates (opts e)) (frames e) → spoiled e (e <| out := out e ++ tail |>).
Proof. intros Hst. by exists tail, (frames e); destruct e. Qed.

Lemma advance_entered kind e : Kind.is_end kind = false →
  advance kind e = Some (Ok tt, e <| frames := entered kind (frames e) |> <| roots := if bool_decide (frames e = []) then S (roots e) else roots e |>).
Proof.
  intros He. unfold advance, modify, entered. rewrite He. destruct e as [ob ba ro fl fr op si om]. cbn.
  destruct fr as [|f fr]; cbn; by destruct (is_begin kind).
Qed.

Lemma append_name_spec decoded offset e f rest :
  frames e = f :: rest → expects_name f = true → stack_ok (allows_duplicates (opts e)) (frames e) →
  match named (allows_duplicates (opts e)) decoded (frames e) with
  | Some st => append_name decoded offset e = Some (Ok tt, e <| frames := st |>)
  | None => ∃ err e', append_name decoded offset e = Some (Err err, e') ∧ spoiled e e'
  end.
Proof.
  intros Ef Hx Hst. unfold append_name, named. rewrite Ef in *. rewrite Hx. apply Forall2_cons in Hst as [Hf Hrest].
  destruct (name_step_sim (allows_duplicates (opts e)) _ decoded f f (or_intror eq_refl) Hf) as [_ H].
  unfold name_step in *. destruct (if allows_duplicates (opts e) then _ else _) as [[] ns] eqn:Ei; [done|].
  destruct (H eq_refl eq_refl) as (_ & Hd & n1 & n2 & E1 & _ & Hs & _). rewrite Hd, E1 in Ei. injection Ei as <-.
  eexists _, _. split; [done|]. exists [], (f <| names := n1 |> :: rest). rewrite app_nil_r. split; [by destruct e|]. rewrite Ef. by constructor.
Qed.

Lemma append_token_eq token e :
  append_token token e =
  let kind := Token.kind token in
  let offset := output_offset e + prefix_len (token_prefix e kind) in
  match check_token kind offset (frames e) with
  | Err err => Some (Err err, e)
  | Ok _ =>
      match append_text token offset (e <| out := out e ++ prefix_bytes (token_prefix e kind) |>) with
      | Some (Ok decoded, e1) =>
          match (if top_expects_name (frames e) && negb (Kind.is_end kind) then
                   match decoded with Some decoded => append_name decoded offset | None => λ _, None end
                 else mret tt) e1 with
          | Some (Ok _, e2) => advance kind e2
          | Some (Err err, e2) => Some (Err err, e2)
          | None => None
          end
      | Some (Err err, e1) => Some (Err err, e1)
      | None => None
      end
  end.
Proof.
  unfold append_token, mbind at 1, st_bind at 1, gets, id, mbind at 1, st_bind at 1, lift. by destruct (check_token _ _ _).
Qed.

Lemma spoiled_trans e tail e' :
  spoiled (e <| out := out e ++ tail |>) e' → spoiled e e'.
Proof. intros (tail' & st & -> & Hs). exists (tail ++ tail'), st. split; [|done]. destruct e. cbn. by rewrite app_assoc. Qed.

Lemma append_token_spec token e :
  string_bytes token → stack_ok (allows_duplicates (opts e)) (frames e) →
  match write_step e token with
  | Some st => append_token token e = Some (Ok tt, appended e token st) ∧ well_spelled (clean_token token)
  | None => ∃ err e', append_token token e = Some (Err err, e') ∧ spoiled e e'
  end.
Proof.
  intros Hb Hst. unfold write_step. rewrite grammar_step_guard, clean_token_kind, append_token_eq. cbv zeta.
  set (offset := output_offset e + prefix_len (token_prefix e (Token.kind token))).
  set (kind := Token.kind token) in *. set (pre := prefix_bytes (token_prefix e kind)).
  pose proof (check_token_guard kind offset (frames e)) as Hg.
  destruct (guard kind (frames e)) eqn:Eg.
  2: { destruct Hg as (err & ->). replace (if writable _ _ then None else None) with (@None (list Frame)) by (by case_match).
    exists err, e. split; [done|]. replace e with (e <| out := out e ++ [] |>) at 2; [by apply spoiled_text|]. rewrite app_nil_r. by destruct e. }
  rewrite Hg. pose proof (append_text_spec token offset (e <| out := out e ++ pre |>) Hb) as Ht. change (opts (e <| out := out e ++ pre |>)) with (opts e) in Ht.
  destruct (writable (allows_invalid (opts e)) token).
  2: { destruct Ht as (err & ->). exists err. eexists. split; [done|]. by apply spoiled_text. }
  destruct Ht as [-> Hw].
  replace (_ <| out := _ |>) with (e <| out := out e ++ token_text e token |>) by (unfold token_text; fold kind pre; destruct e; cbn; by rewrite app_assoc).
  destruct (Kind.is_end kind) eqn:Ee; cbn [negb].
  { rewrite andb_false_r. split; [|done]. unfold guard in Eg. rewrite Ee in Eg. unfold advance, modify, mret, st_ret, appended. rewrite Ee.
    destruct e as [ob ba ro fl fr op si om]. cbn in *. destruct fr; [done|]. done. }
  rewrite andb_true_r. destruct (top_expects_name (frames e)) eqn:Ex.
  2: { assert (named (allows_duplicates (opts e)) (Token.text (clean_token token)) (frames e) = Some (frames e)) as ->.
    { unfold named, top_expects_name in *. destruct (frames e) as [|f fr]; [done|]. cbn in Ex. by rewrite Ex. }
    cbn [fmap option_fmap option_map]. split; [|done]. unfold mret, st_ret. by rewrite advance_entered. }
  assert (kind = Kind.String) as Ek.
  { unfold guard in Eg. rewrite Ee, Ex in Eg. apply andb_prop in Eg as [Eg _]. by apply negb_true_iff, negb_false_iff, bool_decide_eq_true in Eg. }
  assert (∃ s, token = Token.String s) as (s & ->) by (destruct token as [|[]|s| | | | |]; try done; by eexists). cbn [clean_token Token.text] in *.
  destruct (frames e) as [|f rest] eqn:Ef; [done|]. cbn in Ex.
  assert (frames (e <| out := out e ++ token_text e (Token.String s) |>) = f :: rest) as Ef1 by done.
  pose proof (append_name_spec (clean s) offset _ f rest Ef1 Ex) as Hn.
  change (opts (e <| out := out e ++ token_text e (Token.String s) |>)) with (opts e) in Hn.
  change (frames (e <| out := out e ++ token_text e (Token.String s) |>)) with (frames e) in Hn. rewrite Ef in Hn. specialize (Hn Hst).
  destruct (named _ (clean s) (f :: rest)) as [st|] eqn:En.
  - cbn [fmap option_fmap option_map]. rewrite Hn. split; [|done]. rewrite advance_entered by done. unfold appended. cbn. rewrite Ef.
    rewrite (bool_decide_false (f :: rest = [])) by done. rewrite bool_decide_false; [done|].
    unfold named in En. rewrite Ex in En. by destruct (name_step _ _ _); [injection En as <-|].
  - destruct Hn as (err & e' & -> & Hs). exists err, e'. split; [done|]. by eapply spoiled_trans.
Qed.

Lemma appended_ok e token st : flushed_ok e →
  produced (appended e token st) = produced e ++ token_text e token ∧ flushed_ok (appended e token st).
Proof. apply produced_append. Qed.

(** A token is written whole, or nothing is: after an error only the names may be kept in
    another way. *)
Lemma write_token_spec token e :
  string_bytes token → stack_ok (allows_duplicates (opts e)) (frames e) → flushed_ok e →
  match write_step e token with
  | Some st => well_spelled (clean_token token) ∧ ∃ r e', write_token token e = Some (r, e')
      ∧ produced e' = produced e ++ token_text e token ++ line_end e st
      ∧ flushed_ok e' ∧ frames e' = st ∧ opts e' = opts e ∧ omit_top_level_newline e' = omit_top_level_newline e
  | None => ∃ err st, write_token token e = Some (Err err, e <| frames := st |>) ∧ stack_sim (allows_duplicates (opts e)) (frames e) st
  end.
Proof.
  intros Hb Hst Hf. pose proof (append_token_spec token e Hb Hst) as H. unfold write_token. destruct (write_step e token) as [st|].
  - destruct H as [-> Hw]. split; [done|]. destruct (appended_ok e token st Hf) as [Hp Hf'].
    destruct (settle_spec _ Hf') as (r & e' & E & Hp' & Hf2 & Hk). exists r, e'. injection Hk as K1 K2 _ K3.
    split_and!; [done| |done..]. by rewrite Hp', Hp, <-app_assoc.
  - destruct H as (err & e' & -> & tail & st & -> & Hs). exists err, st. split; [|done]. do 2 f_equal. destruct e. cbn. by rewrite take_app_length.
Qed.

(** ** Runs of tokens *)

Definition blank_options (o : Options) : Prop :=
  Forall (λ b, is_space b = true) (default [] (prefix o)) ∧ Forall (λ b, is_space b = true) (default [] (indent o)).

Lemma blank_space b : blank b = true → is_space b = true.
Proof. unfold blank, is_space. intros [-> | ->]%orb_prop; [done|by rewrite orb_true_r]. Qed.

Lemma encoder_new_blank o e : encoder_new o = Ok e → blank_options o ∧ e = MkEncoder [] 0 0 0 [] o None false.
Proof.
  unfold encoder_new. destruct (_ || _) eqn:E; [done|]. intros [= <-]. split; [|done]. apply orb_false_elim in E as [E1%negb_false_iff E2%negb_false_iff].
  assert (∀ l, forallb blank l = true → Forall (λ b, is_space b = true) l) as H.
  { intros l Hl. rewrite forallb_forall in Hl. apply list.Forall_forall. intros x Hx. by apply blank_space, Hl, list_elem_of_In. }
  split; [by apply H|]. destruct (indent o); [by apply H|constructor].
Qed.

(** In front of a token stand its delimiter and white space, which is behind the delimiter
    if there is one. *)
Lemma prefix_blank e kind st : frames e = st → blank_options (opts e) →
  ∃ ws ws2, prefix_bytes (token_prefix e kind) = ws ++ (if Kind.is_end kind then [] else option_list (lead st)) ++ ws2 ∧ spaces ws ∧ spaces ws2
    ∧ ((if Kind.is_end kind then [] else option_list (lead st)) = [] → ws2 = []) ∧ ((if Kind.is_end kind then [] else option_list (lead st)) ≠ [] → ws = []).
Proof.
  intros <- [Hp Hi]. set (p := token_prefix e kind). set (l := if Kind.is_end kind then [] else option_list (lead (frames e))).
  assert (option_list (delimiter p) = l ∧ line_start p = default [] (prefix (opts e)) ∧ (∀ s, p_indent p = Some s → indent (opts e) = Some s)) as (Hd & Hl & Hs).
  { unfold p, token_prefix, prefix_of, l, lead, in_value, counted, top_is, top_expects_name. destruct (frames e) as [|f fr]; cbn [head from_option].
    { by destruct (Kind.is_end kind). }
    destruct (indent (opts e)), (Kind.is_end kind), (bool_decide (f_kind f = Kind.BeginObject) && negb (expects_name f)), (0 <? count f); cbn; split_and!; intros; by simplify_eq. }
  set (w := (if p_space p then [32%Z] else []) ++ match p_indent p with Some s => [10%Z] ++ line_start p ++ concat (replicate (p_depth p) s) | None => [] end).
  assert (spaces w) as Hw.
  { apply Forall_app. split; [by destruct (p_space p); repeat constructor|]. destruct (p_indent p) as [s|] eqn:Es; [|constructor].
    rewrite Hl. specialize (Hs s eq_refl). rewrite Hs in Hi. apply Forall_app. split; [by repeat constructor|]. apply Forall_app. split; [done|].
    apply Forall_concat, Forall_replicate, Hi. }
  unfold prefix_bytes. rewrite Hd. fold w. destruct l as [|x l']; [exists w, []|exists [], w]; split_and!; try done. by rewrite !app_nil_r.
Qed.

(** * Streams that are written *)

Lemma stops_space ws text : spaces ws → ws ≠ [] → stops (ws ++ text).
Proof.
  intros Hws Hne. destruct ws as [|x ws]; [done|]. apply Forall_cons in Hws as [Hx _]. unfold stops. cbn.
  unfold is_space, is_number_byte, is_ascii_digit, is_exponent in *. revert Hx. chars. intros Hx. apply not_true_is_false. intros Hn. zlia; try done; lia.
Qed.

(** After a number there is a value in the innermost frame. *)
Lemma number_counted dups d b st st' : grammar_step dups d (Token.Number b) st = Some st' → st' ≠ [] → counted st' = true.
Proof.
  unfold grammar_step. cbn [Token.kind Kind.is_end is_begin andb]. destruct (top_expects_name st && _); [done|].
  destruct st as [|f st]; [by intros [= <-]|]. destruct (expects_name f); [destruct (name_step _ _ _); [|done]|]; by intros [= <-].
Qed.

(** Where a value is counted, a token does not start like the rest of a number. *)
Lemma prefixed_stops e kind text : frames e ≠ [] → counted (frames e) = true → blank_options (opts e) →
  (Kind.is_end kind = true → stops text) → stops (prefix_bytes (token_prefix e kind) ++ text).
Proof.
  intros Hne Hc Hb Ht. destruct (prefix_blank e kind _ eq_refl Hb) as (ws & ws2 & -> & Hws & Hws2 & Hnil & Hlead).
  destruct (Kind.is_end kind) eqn:Ee.
  - rewrite (Hnil eq_refl), !app_nil_r. destruct ws; [by apply Ht|]. by apply stops_space.
  - unfold lead in *. rewrite Hc in *. destruct (in_value (frames e)); rewrite (Hlead ltac:(done)); done.
Qed.

Lemma spaces_bytes ws : spaces ws → all_bytes ws.
Proof. intros Hws. apply (Forall_impl _ _ _ Hws). intros x. unfold is_space. intros Hx. unfold is_byte. revert Hx. zlia; try done; lia. Qed.

Lemma write_rune_bytes r : scalar r → all_bytes (write_rune r).
Proof.
  intros Hr. assert (0 <= r)%Z as H0 by (unfold scalar, code_point in Hr; lia).
  destruct (Z.le_gt_cases 128 r) as [Hhi|Hlo].
  - rewrite write_rune_high by done. apply utf8_arith_bytes. apply Hr.
  - assert (∀ d, (0 <= d < 16)%Z → is_byte (lower_hex_digit d)) as Hd by (intros d ?; unfold lower_hex_digit, is_byte; zlia; lia).
    destruct (write_rune_low r ltac:(lia)) as [(c & -> & Hc)|[[-> H]|(-> & ? & ?)]].
    + unfold short_escapes in Hc. rewrite !elem_of_cons in Hc. constructor; [unfold is_byte; lia|]. constructor; [|constructor].
      repeat (destruct Hc as [Hc|Hc]; [injection Hc as -> _; unfold is_byte; lia|]). by apply not_elem_of_nil in Hc.
    + do 4 (constructor; [unfold is_byte; lia|]). constructor; [apply Hd; zdiv|]. constructor; [apply Hd; zdiv|constructor].
    + constructor; [unfold is_byte; lia|constructor].
Qed.

Lemma written_bytes rs : Forall scalar rs → all_bytes (written rs).
Proof. intros Hrs. unfold written. apply Forall_concat, Forall_fmap. apply (Forall_impl _ _ _ Hrs). intros r. apply write_rune_bytes. Qed.

Lemma token_text_bytes e token : blank_options (opts e) → token_bytes token → all_bytes (token_text e token).
Proof.
  intros Hb Ht. unfold token_text. apply Forall_app. split.
  - destruct (prefix_blank e (Token.kind token) _ eq_refl Hb) as (ws & ws2 & -> & Hws & Hws2 & _).
    apply Forall_app. split; [by apply spaces_bytes|]. apply Forall_app. split; [|by apply spaces_bytes].
    unfold lead. destruct (Kind.is_end _); [constructor|]. destruct (in_value _); [by repeat constructor|]. destruct (counted _); by repeat constructor.
  - destruct token as [|[]|s|b| | | |]; try apply bs_all_bytes; [|done]. cbn. constructor; [done|]. apply Forall_app. split; [|by repeat constructor].
    apply written_bytes, runes_scalar, Forall_concat, Forall_fmap. apply (Forall_impl _ _ _ (runes_scalar s Ht)). intros r Hr.
    cbn. rewrite encode_scalar by done. apply utf8_arith_bytes, Hr.
Qed.

Lemma write_tokens_stream tokens e e' :
  Forall token_bytes tokens → stack_ok (allows_duplicates (opts e)) (frames e) → flushed_ok e → blank_options (opts e) →
  omit_top_level_newline e = false → write_tokens tokens e = Some (Ok tt, e') →
  ∃ text, produced e' = produced e ++ text
    ∧ stream (allows_duplicates (opts e)) 0 (frames e) (clean_token <$> tokens) text (frames e')
    ∧ (frames e ≠ [] → counted (frames e) = true → stops text)
    ∧ all_bytes text.
Proof.
  intros Hb. revert e. induction Hb as [|token tokens Htok Htoks IH]; intros e Hst Hf Hbl Ho.
  { intros [= <-]. exists []. rewrite app_nil_r. split_and!; [done|by apply stream_end|done|constructor]. }
  cbn [write_tokens]. unfold mbind, st_bind. pose proof (write_token_spec token e (token_string_bytes _ Htok) Hst Hf) as H.
  destruct (write_step e token) as [st|] eqn:Estep; [|by destruct H as (err & st & -> & _)].
  destruct H as (Hw & r & e1 & -> & Hp & Hf1 & Hfr & Hop & Hom). destruct r as [[]|err]; [|done]. intros E.
  unfold write_step in Estep. destruct (writable _ _); [|done].
  assert (stack_ok (allows_duplicates (opts e)) st) as Hst1 by (by eapply grammar_step_ok).
  destruct (IH e1) as (text & Hp' & Hs & Hstops & Hbytes); [by rewrite Hop, Hfr|done|by rewrite Hop|congruence|done|].
  rewrite Hop, Hfr in Hs. rewrite Hfr in Hstops.
  destruct (prefix_blank e (Token.kind token) _ eq_refl Hbl) as (ws & ws2 & Epre & Hws & Hws2 & Hnil & Hlead).
  exists (token_text e token ++ line_end e st ++ text). split_and!.
  - by rewrite Hp', Hp, <-!app_assoc.
  - unfold token_text. rewrite Epre. cbn [fmap list_fmap]. rewrite <-!app_assoc. rewrite <-(clean_token_kind token).
    eapply (stream_token _ _ _ (clean_token token) ws ws2); [done|done|unfold token_lead; by rewrite clean_token_kind| |done|].
    + split; [done|]. unfold line_end. destruct (bool_decide_reflect (st = [])) as [->|Hne]; rewrite Ho; cbn [andb negb app].
      * by destruct (clean_token token).
      * destruct token as [|?|?|b| | | |]; try done. cbn [clean_token] in *. apply Hstops; [done|by eapply number_counted].
    + apply stream_space; [|done]. unfold line_end. destruct (_ && _); by repeat constructor.
  - intros Hne Hc. unfold token_text. rewrite <-app_assoc. apply prefixed_stops; [done..|]. by destruct token as [|[]| | | | | |].
  - apply Forall_app. split; [by apply token_text_bytes|]. apply Forall_app. split; [|done]. unfold line_end. destruct (_ && _); by repeat constructor.
Qed.

(** ** Both ends *)

(** An encoder that has written nothing. *)
Definition fresh (o : Options) (writer : option Sink) (e : Encoder) : Prop :=
  match writer with
  | Some s => with_writer s o = Ok e ∧ received s = []
  | None => encoder_new o = Ok e
  end.

Lemma fresh_start o writer e : fresh o writer e →
  blank_options o ∧ opts e = o ∧ frames e = [] ∧ produced e = [] ∧ flushed_ok e ∧ omit_top_level_newline e = false.
Proof.
  unfold fresh. destruct writer as [s|].
  - unfold with_writer. destruct (encoder_new o) as [e0|] eqn:E; [|by intros [? _]]. apply encoder_new_blank in E as [Hb ->].
    intros [[= <-] Hr]. unfold produced, flushed_ok. cbn. rewrite Hr. split_and!; done || lia.
  - intros [Hb ->]%encoder_new_blank. unfold flushed_ok. cbn. split_and!; done || lia.
Qed.

Lemma pointer_loop_sim dups l l' next b : Forall2 (frame_sim dups) l l' → pointer_loop l' next b = pointer_loop l next b.
Proof.
  intros Hs. revert b. induction Hs as [|f g l l' [Hk Hc Hn _] Hs IH]; intros b; [done|]. cbn [pointer_loop]. unfold expects_name. rewrite Hk, Hc, Hn.
  assert (bool_decide (l' = []) = bool_decide (l = [])) as -> by (by destruct Hs). by repeat case_match.
Qed.

Lemma pointer_sim dups st st' next : stack_sim dups st st' → pointer st' next = pointer st next.
Proof.
  intros Hs. unfold pointer. rewrite !rev_alt. eapply pointer_loop_sim, Forall2_reverse, Hs.
Qed.

(** [C1] What an encoder writes for a sequence of tokens, whatever the indentation and however
    its writer takes the bytes, a decoder reads back as these tokens: each string as the text
    that its bytes decode to, with U+FFFD for what is not UTF-8. It does so however its reader
    cuts the bytes and wherever its buffer is compacted, it then stands at the place in the
    grammar where the encoder does, and between two values at the top it finds the end. *)
Theorem written_tokens_read_back o writer e tokens e' events o' :
  fresh o writer e → Forall token_bytes tokens → write_tokens tokens e = Some (Ok tt, e') →
  allows_duplicates o' = true ∨ allows_duplicates o' = allows_duplicates o → Forall calm_event events →
  ∃ d, read_tokens (length tokens) (with_options (MkSource (produced e') events) o') = Some (Ok (clean_token <$> tokens), d)
    ∧ stack_depth d = length (frames e') ∧ stack_pointer d = e_stack_pointer e'
    ∧ (frames e' = [] → ∃ d', read_token d = Some (Err Eof, d')).
Proof.
  intros (Hb & Hop & Hfr & Hp & Hf & Hom)%fresh_start Htok Hw Hd Hev. subst o.
  destruct (write_tokens_stream tokens e e' Htok) as (text & Hp' & Hs & _ & Hbytes); [by rewrite Hfr|done..|].
  rewrite Hp in Hp'. cbn [app] in Hp'. rewrite Hfr in Hs.
  assert (decodes 0 text [] (with_options (MkSource (produced e') events) o')) as Hdec.
  { rewrite Hp'. by apply (decodes_new (MkSource text events)). }
  destruct (read_tokens_stream _ _ _ _ _ (with_options (MkSource (produced e') events) o') _ [] Hs Hdec Hd) as (d & n' & ws & st0 & E & Hd' & Hws & Hsim & _); [done|].
  rewrite length_fmap in E. exists d. split_and!; [done| | |].
  - unfold stack_depth. rewrite (d_frames _ _ _ _ Hd'). by apply Forall2_length in Hsim.
  - unfold stack_pointer, e_stack_pointer. rewrite (d_frames _ _ _ _ Hd'). by eapply pointer_sim.
  - intros Hn. rewrite Hn in Hsim. apply Forall2_nil_inv_l in Hsim as ->. by eapply read_token_end.
Qed.

Definition rt_tokens : list Token :=
  [Token.BeginObject; Token.String (bs "a/b"); Token.BeginArray; Token.Number (bs "-1.5e3"); Token.String [10; 34; 255; 0xe2; 0x82; 0xac]%Z;
   Token.Boolean true; Token.EndArray; Token.String (bs "c"); Token.BeginObject; Token.EndObject; Token.EndObject; Token.Number (bs "0"); Token.Number (bs "1")].
Definition rt_options : Options := MkOptions (Some (bs "  ")) (Some [9%Z]) None None (Some true).
Definition rt_writer : Sink := MkSink [] [Take 7; Refuse Interrupted; Take 1].

Definition rt_encoder : Encoder := MkEncoder [] 0 0 0 [] rt_options (Some rt_writer) false.
Definition rt_written : Encoder := match write_tokens rt_tokens rt_encoder with Some (_, e) => e | None => rt_encoder end.

Lemma rt_bytes : Forall token_bytes rt_tokens.
Proof.
  unfold rt_tokens. repeat (apply Forall_cons; split; [cbn [token_bytes]; try exact I; try apply bs_all_bytes|]);
    unfold is_byte; try constructor; lia.
Qed.

Lemma written_tokens_read_back_witness :
  fresh rt_options (Some rt_writer) rt_encoder ∧ write_tokens rt_tokens rt_encoder = Some (Ok tt, rt_written) ∧ frames rt_written = [] ∧
  ∃ d, read_tokens 13 (with_options (MkSource (produced rt_written) [UpTo 1; Raise Interrupted; UpTo 5]) options_default) = Some (Ok (clean_token <$> rt_tokens), d)
    ∧ stack_depth d = length (frames rt_written) ∧ stack_pointer d = e_stack_pointer rt_written
    ∧ (frames rt_written = [] → ∃ d', read_token d = Some (Err Eof, d')).
Proof.
  assert (fresh rt_options (Some rt_writer) rt_encoder) as Hf by (split; by vm_compute).
  assert (write_tokens rt_tokens rt_encoder = Some (Ok tt, rt_written)) as Hw by (by vm_compute).
  split_and!; [done|done|by vm_compute|].
  apply (written_tokens_read_back rt_options (Some rt_writer) rt_encoder rt_tokens rt_written [UpTo 1; Raise Interrupted; UpTo 5] options_default Hf).
  - exact rt_bytes.
  - exact Hw.
  - by right.
  - repeat constructor.
Defined.

(** * Tokens that are refused *)

(** Two encoders that differ in how their frames keep the names. *)
Definition alike (e e' : Encoder) : Prop :=
  ∃ st, e' = e <| frames := st |> ∧ stack_sim (allows_duplicates (opts e)) (frames e) st.

Definition alike_results {A} (x y : option (result Error A * Encoder)) : Prop :=
  match x, y with Some (r, e), Some (r', e') => r = r' ∧ alike e e' | None, None => True | _, _ => False end.

Lemma stack_sim_nil dups st st' : stack_sim dups st st' → bool_decide (st' = []) = bool_decide (st = []).
Proof. by intros []. Qed.

Lemma prefix_of_sim dups o st st' kind : stack_sim dups st st' → prefix_of o st' kind = prefix_of o st kind.
Proof.
  intros Hs. pose proof (Forall2_length _ _ _ Hs) as Hl. destruct Hs as [|f g st st' [Hk Hc Hn _] Hs]; [done|]. unfold prefix_of.
  cbn [length] in *. unfold expects_name. by rewrite Hk, Hc, Hl.
Qed.

Lemma check_token_sim dups kind offset st st' : stack_sim dups st st' → check_token kind offset st' = check_token kind offset st.
Proof.
  intros Hs. destruct (stack_sim_shape _ _ _ Hs) as (_ & He & Hl & Ht). unfold check_token. by rewrite He, Hl, Ht, (pointer_sim _ _ _ _ Hs).
Qed.

(** The output path does not look at the frames. *)
Lemma flush_loop_frames fuel s e st :
  flush_loop fuel s (e <| frames := st |>) = (λ '(r, e'), (r, e' <| frames := st |>)) <$> flush_loop fuel s e
  ∧ ∀ r e', flush_loop fuel s e = Some (r, e') → frames e' = frames e ∧ opts e' = opts e.
Proof.
  revert s e. induction fuel as [|fuel IH]; intros s e; [done|]. cbn [flush_loop].
  change (flushed (e <| frames := st |>)) with (flushed e). change (out (e <| frames := st |>)) with (out e).
  destruct (flushed e <? length (out e)); [|split; [done|by intros r e' [= <- <-]]].
  destruct (sink_write _ s) as [[[|n]|err] s']; [split; [done|by intros r e' [= <- <-]]| |].
  - destruct (IH s' (e <| flushed := flushed e + S n |> <| sink := Some s' |>)) as [H1 H2]. by split.
  - destruct err; try (split; [done|by intros r e' [= <- <-]]). destruct (IH s' (e <| sink := Some s' |>)) as [H1 H2]. by split.
Qed.

Lemma flush_alike e e' : alike e e' → alike_results (flush e) (flush e').
Proof.
  intros (st & -> & Hs). unfold flush. change (sink (e <| frames := st |>)) with (sink e). destruct (sink e) as [s|].
  - destruct (flush_loop_frames (length (sink_events s) + 2) s e st) as [-> H]. destruct (flush_loop _ s e) as [[r e1]|]; [|done].
    destruct (H r e1 eq_refl) as [Hf Ho]. split; [done|]. exists st. by rewrite Hf, Ho.
  - split; [done|]. by exists st.
Qed.

Lemma settle_alike e e' : alike e e' → alike_results (settle e) (settle e').
Proof.
  intros H. pose proof H as (st & -> & Hs). unfold settle. change (frames (e <| frames := st |>)) with st. rewrite (stack_sim_nil _ _ _ Hs).
  change (omit_top_level_newline (e <| frames := st |>)) with (omit_top_level_newline e). change (flushed (e <| frames := st |>)) with (flushed e).
  change (out (e <| frames := st |>)) with (out e). destruct (bool_decide _).
  - apply flush_alike. destruct (omit_top_level_newline e); [done|]. by exists st.
  - destruct (_ <=? _)%Z; [by apply flush_alike|]. by split.
Qed.

Lemma append_text_alike token offset e e' : alike e e' → alike_results (append_text token offset e) (append_text token offset e').
Proof.
  intros H. pose proof H as (st & -> & Hs). unfold append_text. change (out (e <| frames := st |>)) with (out e).
  change (opts (e <| frames := st |>)) with (opts e). change (frames (e <| frames := st |>)) with st. rewrite (pointer_sim _ _ _ _ Hs).
  destruct token as [|b|s|b| | | |]; try (split; [done|by exists st]).
  - destruct (append_string _ _ _) as [[w dec]|]; split; [done|by exists st|done|done].
  - destruct (valid_number b); [split; [done|by exists st]|]. by destruct (number _ _ _) as [[[] ?]|].
Qed.

Lemma append_name_alike decoded offset e e' : alike e e' → alike_results (append_name decoded offset e) (append_name decoded offset e').
Proof.
  intros (st & -> & Hs). unfold append_name. change (opts (e <| frames := st |>)) with (opts e). change (frames (e <| frames := st |>)) with st.
  destruct Hs as [|f g rest rest' Hf Hrest] eqn:E; [done|]. clear E.
  destruct (allows_duplicates (opts e)) eqn:Ed.
  { split; [done|]. eexists. split; [by destruct e|]. cbn. rewrite Ed. constructor; [|done]. destruct Hf. by split. }
  destruct (s_names _ _ _ Hf eq_refl) as (l & N1 & N2). pose proof (insert_ok decoded _ _ N1) as I1. pose proof (insert_ok decoded _ _ N2) as I2.
  destruct (decide (decoded ∈ l)).
  - destruct I1 as (n1 & -> & O1 & _), I2 as (n2 & -> & O2 & _).
    assert (stack_sim false (f <| names := n1 |> :: rest) (g <| names := n2 |> :: rest')) as Hsim.
    { constructor; [|done]. destruct Hf. split; [done..|]. by exists l. }
    split; [by rewrite (pointer_sim _ _ _ _ Hsim)|]. eexists. split; [by destruct e|]. cbn. by rewrite Ed.
  - destruct I1 as (n1 & -> & O1), I2 as (n2 & -> & O2). split; [done|]. eexists. split; [by destruct e|]. cbn. rewrite Ed.
    constructor; [|done]. destruct Hf. split; [done..|]. by exists (l ++ [decoded]).
Qed.

Lemma advance_alike kind e e' : alike e e' → alike_results (advance kind e) (advance kind e').
Proof.
  intros (st & -> & Hs). unfold advance, modify. split; [done|]. change (frames (e <| frames := st |>)) with st.
  change (roots (e <| frames := st |>)) with (roots e). rewrite (stack_sim_nil _ _ _ Hs). destruct (Kind.is_end kind).
  { eexists. split; [by destruct e|]. cbn. by destruct Hs. }
  exists (let st := on_top (λ f, f <| count := S (count f) |>) st in if is_begin kind then frame_new kind :: st else st).
  destruct (bool_decide_reflect (frames e = [])) as [En|En].
  - rewrite En in Hs. apply Forall2_nil_inv_l in Hs as ->. destruct (is_begin kind); (split; [destruct e|]); cbn in *; rewrite ?En; by repeat constructor; try apply frame_new_sim.
  - pose proof (on_top_count_sim _ _ _ Hs). destruct (is_begin kind); (split; [by destruct e|]); cbn; [|done]. constructor; [apply frame_new_sim|done].
Qed.

Lemma append_token_alike token e e' : alike e e' → alike_results (append_token token e) (append_token token e').
Proof.
  intros H. rewrite !append_token_eq. cbv zeta. pose proof H as (st & E & Hs).
  assert (token_prefix e' (Token.kind token) = token_prefix e (Token.kind token)) as -> by (subst e'; by eapply prefix_of_sim).
  assert (output_offset e' = output_offset e) as -> by (by subst e').
  assert (frames e' = st) as -> by (by subst e'). destruct (stack_sim_shape _ _ _ Hs) as (_ & -> & _ & _).
  rewrite (check_token_sim _ _ _ _ _ Hs). destruct (check_token _ _ _); [|done].
  set (offset := output_offset e + _). set (pre := prefix_bytes _).
  assert (alike (e <| out := out e ++ pre |>) (e' <| out := out e' ++ pre |>)) as H1 by (subst e'; by exists st).
  pose proof (append_text_alike token offset _ _ H1) as H2.
  destruct (append_text token offset (e <| out := out e ++ pre |>)) as [[r1 e1]|], (append_text token offset (e' <| out := out e' ++ pre |>)) as [[r1' e1']|]; try done.
  destruct H2 as [<- H2]. destruct r1 as [decoded|]; [|done]. destruct (top_expects_name (frames e) && _).
  - destruct decoded as [decoded|]; [|done]. pose proof (append_name_alike decoded offset _ _ H2) as H3.
    destruct (append_name decoded offset e1) as [[r2 e2]|], (append_name decoded offset e1') as [[r2' e2']|]; try done.
    destruct H3 as [<- H3]. destruct r2; [by apply advance_alike|done].
  - by apply advance_alike.
Qed.

Lemma write_token_alike token e e' : alike e e' → alike_results (write_token token e) (write_token token e').
Proof.
  intros H. unfold write_token. pose proof (append_token_alike token _ _ H) as H1. pose proof H as (st & -> & Hs).
  destruct (append_token token e) as [[r1 e1]|], (append_token token (e <| frames := st |>)) as [[r1' e1']|]; try done.
  destruct H1 as [<- H1]. destruct r1; [by apply settle_alike|]. split; [done|]. destruct H1 as (st1 & -> & H1). by exists st1.
Qed.

Lemma write_tokens_alike tokens e e' : alike e e' → alike_results (write_tokens tokens e) (write_tokens tokens e').
Proof.
  revert e e'. induction tokens as [|token tokens IH]; intros e e' H; [by split|]. cbn [write_tokens]. unfold mbind, st_bind.
  pose proof (write_token_alike token _ _ H) as H1. destruct (write_token token e) as [[r1 e1]|], (write_token token e') as [[r1' e1']|]; try done.
  destruct H1 as [<- H1]. destruct r1; [by apply IH|done].
Qed.

(** [C5] A token that the encoder refuses leaves no trace: nothing has been added to the output
    or handed to the writer, and whatever is written next has the same results, errors, output
    and pointers that it would have had without the refused token. *)
Theorem refused_token_leaves_no_trace e token tokens r e1 :
  token_bytes token → stack_ok (allows_duplicates (opts e)) (frames e) → flushed_ok e →
  write_step e token = None → write_tokens tokens e = Some (r, e1) →
  ∃ err e' e1', write_token token e = Some (Err err, e') ∧ out e' = out e ∧ sink e' = sink e ∧ produced e' = produced e
    ∧ write_tokens tokens e' = Some (r, e1') ∧ out e1' = out e1 ∧ sink e1' = sink e1 ∧ produced e1' = produced e1
    ∧ e_stack_pointer e1' = e_stack_pointer e1 ∧ e_depth_length e1' = e_depth_length e1.
Proof.
  intros Hb Hst Hf Hstep Hws. pose proof (write_token_spec token e (token_string_bytes _ Hb) Hst Hf) as H. rewrite Hstep in H. destruct H as (err & st & Hw & Hs).
  assert (alike e (e <| frames := st |>)) as Ha by (by exists st).
  pose proof (write_tokens_alike tokens _ _ Ha) as H. rewrite Hws in H.
  destruct (write_tokens tokens (e <| frames := st |>)) as [[r' e1']|] eqn:E; [|done].
  destruct H as (<- & st1 & -> & Hs1). exists err, (e <| frames := st |>), (e1 <| frames := st1 |>). split_and!; [done..| |].
  - by eapply pointer_sim.
  - unfold e_depth_length. change (frames (e1 <| frames := st1 |>)) with st1. rewrite (Forall2_length _ _ _ Hs1). f_equal. destruct Hs1 as [|f g ? ? [_ Hc _ _] _]; [done|]. exact Hc.
Qed.

(** An encoder after [{"a":1]. *)
Definition refusing : Encoder :=
  match write_tokens [Token.BeginObject; Token.String (bs "a"); Token.Number (bs "1")] rt_encoder with Some (_, e) => e | None => rt_encoder end.

Lemma refused_token_leaves_no_trace_witness :
  frames refusing ≠ [] ∧ ∃ err e' e1', write_token (Token.String (bs "a")) refusing = Some (Err err, e') ∧ out e' = out refusing
    ∧ sink e' = sink refusing ∧ produced e' = produced refusing
    ∧ write_tokens [Token.String (bs "b"); Token.Null; Token.EndObject] e' = Some (Ok tt, e1')
    ∧ let e1 := match write_tokens [Token.String (bs "b"); Token.Null; Token.EndObject] refusing with Some (_, e) => e | None => refusing end in
      out e1' = out e1 ∧ sink e1' = sink e1 ∧ produced e1' = produced e1 ∧ e_stack_pointer e1' = e_stack_pointer e1 ∧ e_depth_length e1' = e_depth_length e1.
Proof.
  split; [by vm_compute|]. apply (refused_token_leaves_no_trace refusing (Token.String (bs "a")) [Token.String (bs "b"); Token.Null; Token.EndObject]).
  - apply bs_all_bytes.
  - assert (frames refusing = [MkFrame Kind.BeginObject 2 (bs "a") (MkNames (bs "a") [1] None)]) as -> by (by vm_compute).
    constructor; [|constructor]. split; [done..|]. intros _. exists [bs "a"]. by split; split; repeat constructor.
  - unfold flushed_ok. apply Nat.leb_le. by vm_compute.
  - by vm_compute.
  - by vm_compute.
Defined.
