(* ===== verification/JsonCopy.v ===== *)
(** Raw values in the JSON encoder: a value that is copied as it is and one that is written
    token by token come to the same. *)

From S2P Require Import Prelude Wtf8 BaseProto JsonState JsonWire JsonDecoder JsonEncoder JsonLex JsonStrings JsonGrammar JsonNext JsonWrites.
Import JsonState.Kind(Kind) JsonState.Token(Token).

Local Open Scope nat_scope.

(** ** Texts without a byte to spare *)

(** [text] has, in one spelling and without white space, the tokens that close all frames. *)
Inductive rest_of (dups : bool) (d : nat) : list Frame → list Token → bytes → Prop :=
  | rest_end : rest_of dups d [] [] []
  | rest_token st token st1 tokens text :
      st ≠ [] → well_spelled token → grammar_step dups d token st = Some st1 → rest_of dups d st1 tokens text →
      rest_of dups d st (token :: tokens) (token_lead token st ++ spelled token ++ text).

(** A value: its first token and what closes it. *)
Definition value_of (dups : bool) (d : nat) (first : Token) (tokens : list Token) (b : bytes) : Prop :=
  well_spelled first ∧ ∃ st text, grammar_step dups d first [] = Some st ∧ rest_of dups d st tokens text ∧ b = spelled first ++ text.

Lemma past_space_bound t p : p <= length t → past_space t p <= length t.
Proof. intros Hp. unfold past_space. pose proof (run_le is_space (drop p t)). rewrite length_drop in *. lia. Qed.

Lemma position_of_bound t p st i nc : p <= length t → position_of t p st = Some (i, nc) → i <= length t.
Proof.
  intros Hp. unfold position_of. pose proof (past_space_bound t p Hp). destruct (lead st); [|by intros [= <- _]].
  destruct (_ && _); [by intros [= <- _]|]. destruct (bool_decide_reflect (t !! past_space t p = Some z)) as [Hl|]; [|done].
  apply lookup_lt_Some in Hl. destruct (_ && _); [done|]. intros [= <- _]. apply (past_space_bound t (S (past_space t p))). lia.
Qed.

(** ** What a decoder has taken without a mark *)

Section Solid.
Context (t : bytes) (o : Options).
Hypothesis (Ht : all_bytes t).
Abbreviation dups := (allows_duplicates o).

Lemma position_of_le p st start nc : position_of t p st = Some (start, nc) → p <= start.
Proof.
  unfold position_of. pose proof (past_space_le t p). pose proof (past_space_le t (S (past_space t p))).
  destruct (lead st); [|by intros [= <- _]]. destruct (_ && _); [by intros [= <- _]|]. destruct (bool_decide _); [|done].
  destruct (_ && _); [done|]. intros [= <- _]. lia.
Qed.

(** A token without a mark is its spelling behind its delimiter. *)
Lemma next_ok_solid d keep p st token start p' st' full :
  next_ok t o d keep p st token start p' st' false full → take (p' - p) (drop p t) = token_lead full st ++ spelled full.
Proof.
  intros [Hw _ Hg (nc' & Hpos & Hnc) [Hlt Hle] Htext (b & Hb & Hk)]. specialize (Htext eq_refl). specialize (Hnc eq_refl). subst nc'.
  unfold position_of in Hpos.
  assert (∀ q, negb (past_space t q =? q) = false → past_space t q = q) as Hq by (intros q Hn; by apply negb_false_iff, Nat.eqb_eq in Hn).
  destruct (lead st) as [x|] eqn:El.
  - destruct (negb (in_value st) && bool_decide (t !! past_space t p = Some (closer st))) eqn:Ec.
    + injection Hpos as <- Hs. rewrite (Hq _ Hs) in *. apply andb_prop in Ec as [_ Ec%bool_decide_eq_true]. rewrite Hb in Ec. injection Ec as ->.
      unfold token_lead. rewrite <-Hk. assert (Kind.is_end (Kind.from_byte (closer st)) = true) as -> by (unfold closer; by case_match). done.
    + destruct (bool_decide_reflect (t !! past_space t p = Some x)) as [Hx|]; [|done].
      destruct (negb (in_value st) && (_ || _)) eqn:Ecl; [done|].
      apply Some_inj, pair_equal_spec in Hpos as [Hs Hor]. apply orb_false_iff in Hor as [Hs1 Hs2].
      rewrite (Hq _ Hs1) in *. rewrite (Hq _ Hs2) in *. subst start.
      assert (token_lead full st = [x]) as ->.
      { unfold token_lead. rewrite El. destruct (Kind.is_end (Token.kind full)) eqn:Eend; [|done]. exfalso.
        destruct (negb (in_value st)) eqn:Ei; cbn [andb] in Ecl.
        - rewrite <-Hk in Eend. rewrite Hb in Ecl. apply orb_false_iff in Ecl as [N1%bool_decide_eq_false N2%bool_decide_eq_false].
          unfold Kind.from_byte in Eend. revert Eend. repeat case_match; try done; intros _; repeat match goal with H : (_ =? _)%Z = true |- _ => apply Z.eqb_eq in H as -> end; done.
        - apply negb_false_iff in Ei. unfold in_value in Ei. apply andb_prop in Ei as [E1 E2]. unfold grammar_step in Hg. rewrite Eend in Hg.
          destruct full as [|[]| | | | | |]; try done; cbn [Token.kind] in Hg.
          + change (opening Kind.EndObject) with Kind.BeginObject in Hg. by rewrite E1, E2 in Hg.
          + change (opening Kind.EndArray) with Kind.BeginArray in Hg. unfold top_is in *. destruct st as [|f st]; [done|]. cbn in *.
            apply bool_decide_eq_true in E1. by rewrite E1 in Hg. }
      replace (p' - p) with (S (p' - S p)) by lia. rewrite (drop_S t x p Hx). cbn [take app]. by rewrite Htext.
  - injection Hpos as <- Hs. rewrite (Hq _ Hs) in *. unfold token_lead. rewrite El. by destruct (Kind.is_end _).
Qed.

(** What is taken from [p] to [p'] of the text. *)
Definition solid (P : bytes → Prop) (p p' : nat) (nc : bool) : Prop := p <= p' ∧ p' <= length t ∧ (nc = false → P (take (p' - p) (drop p t))).

Lemma take_split p p1 p' : p <= p1 → p1 <= p' → p' <= length t → take (p' - p) (drop p t) = take (p1 - p) (drop p t) ++ take (p' - p1) (drop p1 t).
Proof.
  intros H1 H2 H3. replace (p' - p) with ((p1 - p) + (p' - p1)) by lia. rewrite <-take_take_drop. f_equal. rewrite drop_drop. do 2 f_equal. lia.
Qed.

Lemma cs_skip_frames fuel d k p st Q :
  stack_ok dups st → p <= k → p <= length t → length t - p < fuel →
  (∀ p' k' nc, k <= k' → p' <= k' → solid (λ text, ∃ tokens, rest_of dups d st tokens text) p p' nc → Q (Ok tt) p' [] k' nc) →
  (∀ e p' st' k' nc, k <= k' → Q (Err e) p' st' k' nc) →
  csettles t k p st (skip_frames fuel o d) Q.
Proof.
  revert k p st Q. induction fuel as [|fuel IH]; intros k p st Q Hst Hk Hp Hfuel HQ HE; [lia|]. cbn [skip_frames].
  apply cs_gets_stack. destruct (bool_decide_reflect (st = [])) as [->|Hne].
  { apply cs_ret. apply HQ; [done|done|]. split; [done|]. split; [done|]. intros _. exists []. replace (p - p) with 0 by lia. constructor. }
  apply cs_bind, cs_next; [done|done|done|]. intros r p1 st1 k1 nc1 Hk1 Hp1 Hpost. destruct r as [[token start]|e]; [|by apply HE].
  destruct Hpost as (full & Hok). pose proof Hok as [Hw _ Hg (nc' & Hpos & _) [Hlt Hle] _ _]. apply position_of_le in Hpos.
  apply IH; [by eapply grammar_step_ok|done|done|lia| |intros; apply HE; lia].
  intros p' k' nc Hk' Hp' (H1 & H2 & H3). apply HQ; [lia|done|]. split; [lia|]. split; [done|]. intros [-> Hnc]%orb_false_iff.
  destruct (H3 Hnc) as (tokens & Hrest). exists (full :: tokens). rewrite (take_split p p1 p') by lia.
  rewrite (next_ok_solid _ _ _ _ _ _ _ _ _ Hok), <-app_assoc. by econstructor.
Qed.

Lemma settles_value_tokens d k p Q :
  p <= k → p <= length t →
  (∀ first p' k' nc, k <= k' → p' <= k' → solid (λ text, ∃ first' tokens, value_of dups d first' tokens text) p p' nc → Q (Ok (first, p')) k' nc) →
  (∀ e k' nc, k <= k' → Q (Err e) k' nc) →
  settles t k (value_tokens o d p) Q.
Proof.
  intros Hk Hp HQ HE.
  assert (csettles t k p [] ('(first, _) ← next o d true; i ← gets input; skip_frames (input_fuel i) o d;; cursor ← gets pos; mret (first, cursor))
    (λ r _ _ k' nc, Q r k' nc)) as (r & p' & st' & k' & nc & H & Hkk & HQ').
  { apply cs_bind, cs_next; [done|constructor|done|]. intros r p1 st1 k1 nc1 Hk1 Hp1 Hpost. destruct r as [[token start]|e]; [|by apply HE].
    destruct Hpost as (full & Hok). pose proof Hok as [Hw _ Hg (nc' & Hpos & _) [Hlt Hle] _ _]. apply position_of_le in Hpos.
    assert (csettles t k1 p1 st1 (skip_frames (length t + 2) o d;; cursor ← gets pos; mret (token, cursor)) (λ r _ _ k' nc, Q r k' (nc1 || nc))) as (r & p2 & st2 & k2 & nc2 & H & Hkk & HQ2).
    { apply cs_bind, cs_skip_frames; [by eapply grammar_step_ok; [constructor|]|done|done|lia| |intros; apply HE; lia].
      intros p2 k2 nc2 Hk2 Hp2 (H1 & H2 & H3). apply cs_gets_pos, cs_ret. rewrite orb_false_r. apply HQ; [lia|done|]. split; [lia|]. split; [done|].
      intros [-> Hnc]%orb_false_iff. destruct (H3 Hnc) as (tokens & Hrest). exists full, tokens. split; [done|]. exists st1, (take (p2 - p1) (drop p1 t)).
      split_and!; [done|done|]. rewrite (take_split p p1 p2), (next_ok_solid _ _ _ _ _ _ _ _ _ Hok) by lia. unfold token_lead. by destruct (Kind.is_end _). }
    exists r, p2, st2, k2, nc2. split_and!; [|done|done]. intros i Hi. destruct (H i Hi) as (i' & E & Hi').
    exists i'. split; [|done]. unfold mbind at 1, st_bind at 1, gets at 1. cbn [input]. unfold input_fuel. by rewrite (views_length _ _ _ Hi). }
  exists r, k', nc. split_and!; [|done|done]. intros i Hi. destruct (H i Hi) as (i' & E & Hi'). exists i'. split; [|done]. unfold value_tokens. by rewrite E.
Qed.
End Solid.

(** [skip_value] and [finish] on a text: the position of the value, the value, what is behind it. *)
Lemma skip_finish b o depth :
  (skip_value;; finish) (from_slice_with_options b o <| base_depth := depth |>) =
  match prepare 0 [] (from_slice b) with
  | Some (Ok start, i0) =>
      match value_tokens o (depth + 0) start i0 with
      | Some (Ok (_, p), i1) =>
          match space p i1 with
          | Some (Ok q, i2) =>
              let d i := MkDecoder (MkCursor i p []) 0 o 1 (Some start) depth in
              match byte_at q i2 with
              | Some (Ok (Some _), i3) => Some (Err (absolute_error 0 (invalid q [] (bs "after top-level value") i3)), d i3)
              | Some (Ok None, i3) => Some (Ok tt, d i3)
              | Some (Err e, i3) => Some (Err e, d i3)
              | None => None
              end
          | Some (Err e, i2) => Some (Err e, MkDecoder (MkCursor i2 p []) 0 o 1 (Some start) depth)
          | None => None
          end
      | Some (Err e, i1) => Some (Err (absolute_error 0 (value_error [] start e)), MkDecoder (MkCursor i1 0 []) 0 o 0 None depth)
      | None => None
      end
  | Some (Err e, i0) => Some (Err (absolute_error 0 e), MkDecoder (MkCursor i0 0 []) 0 o 0 None depth)
  | None => None
  end.
Proof.
  unfold skip_value, read_value_range, finish, d_prepare, compact, absolute, take_value, map_err, on_cursor, on_input, gets, modify, set_pos, fail_invalid,
    mbind, st_bind, mret, st_ret, fail. cbn -[prepare value_tokens space byte_at absolute_error value_error invalid].
  change (COMPACT_AT <=? Z.of_nat 0)%Z with false. cbn -[prepare value_tokens space byte_at absolute_error value_error invalid].
  destruct (prepare 0 [] (from_slice b)) as [[[start|e] i0]|]; [|done..]. cbn -[prepare value_tokens space byte_at absolute_error value_error invalid].
  destruct (value_tokens o (depth + 0) start i0) as [[[[first p]|e] i1]|]; [|done..]. cbn -[prepare value_tokens space byte_at absolute_error value_error invalid].
  destruct (space p i1) as [[[q|e] i2]|]; [|done..]. cbn -[prepare value_tokens space byte_at absolute_error value_error invalid].
  by destruct (byte_at q i2) as [[[[c|]|e] i3]|].
Qed.

(** The check of a raw value ends; a value without a mark is the spelling of its tokens. *)
Lemma checked_value b o depth :
  all_bytes b → ∃ r d', (skip_value;; finish) (from_slice_with_options b o <| base_depth := depth |>) = Some (r, d')
    ∧ (r = Ok tt → is_canonical d' = true → ∃ first tokens, value_of (allows_duplicates o) depth first tokens b).
Proof.
  intros Hb. rewrite skip_finish, Nat.add_0_r. pose proof (views_slice b) as Hv.
  destruct (settles_map_err b (length b) (in_pointer []) (prepare_inner 0 []) (λ r k' nc, r = Ok (past_space b 0) ∧ nc = negb (past_space b 0 =? 0)))
    as (r0 & k0 & nc0 & H0 & Hk0 & -> & Hnc0); [by apply settles_prepare; [cbn; intros k' i nc _ _ [= <- <-]|]|].
  destruct (H0 _ Hv) as (i0 & E0 & Hv0 & N0). unfold prepare. rewrite E0. pose proof (past_space_bound b 0 ltac:(lia)) as Hbound.
  destruct (settles_value_tokens b o Hb depth k0 (past_space b 0) (λ r k' nc, match r with
      | Ok (_, p') => p' <= k' ∧ solid b (λ text, ∃ first' tokens, value_of (allows_duplicates o) depth first' tokens text) (past_space b 0) p' nc
      | Err _ => True end)) as (r1 & k1 & nc1 & H1 & Hk1 & HQ1); [lia|done|by intros|done|].
  destruct (H1 _ Hv0) as (i1 & -> & Hv1 & N1). destruct r1 as [[f p]|e]; [|by eexists _, _].
  destruct HQ1 as (Hp & Hle & Hlen & Hsolid).
  destruct (settles_space b k1 p (λ r k' nc, r = Ok (past_space b p) ∧ nc = negb (run is_space (drop p b) =? 0)))
    as (r2 & k2 & nc2 & H2 & Hk2 & -> & Hnc2); [done|].
  destruct (H2 _ Hv1) as (i2 & -> & Hv2 & N2).
  destruct (settles_at b k2 (past_space b p) (λ r k' nc, r = Ok (b !! past_space b p) ∧ nc = false)) as (r3 & k3 & nc3 & H3 & Hk3 & -> & ->); [done|].
  destruct (H3 _ Hv2) as (i3 & -> & Hv3 & N3). destruct (b !! past_space b p) as [c|] eqn:Ec; [by eexists _, _|].
  eexists _, _. split; [done|]. intros _ Hc. unfold is_canonical in Hc. apply negb_true_iff in Hc. change (noncanonical i3 = false) in Hc.
  rewrite N3, N2, N1, N0, !orb_false_iff in Hc. destruct Hc as [[[[_ ->] ->] ->] _].
  symmetry in Hnc0, Hnc2. apply negb_false_iff, Nat.eqb_eq in Hnc0, Hnc2. unfold past_space in Ec. rewrite Hnc2, Nat.add_0_r in Ec.
  apply lookup_ge_None in Ec. specialize (Hsolid eq_refl). rewrite Hnc0 in Hsolid. rewrite drop_0, take_ge in Hsolid by lia. done.
Qed.

(** ** Writing the tokens of a value *)

Lemma grammar_step_shallow dups d d' token st st' : d' <= d → grammar_step dups d token st = Some st' → grammar_step dups d' token st = Some st'.
Proof.
  intros Hd. unfold grammar_step. destruct (Kind.is_end _); [done|]. destruct (_ && _); [done|].
  destruct (is_begin (Token.kind token) && too_deep (d + length st)) eqn:E; [done|].
  assert (is_begin (Token.kind token) && too_deep (d' + length st) = false) as ->; [|done].
  destruct (is_begin _); [|done]. cbn [andb] in *. unfold too_deep in *. apply Z.leb_gt in E. apply Z.leb_gt. lia.
Qed.

Lemma well_spelled_clean token allow : well_spelled token → clean_token token = token ∧ writable allow token = true.
Proof.
  destruct token as [|b|s|b| | | |]; try done. intros (rs & Hrs & ->). cbn. rewrite clean_utf8 by done. split; [done|].
  by rewrite bool_decide_true, orb_true_r.
Qed.

Lemma write_token_whole token e st :
  string_bytes token → stack_ok (allows_duplicates (opts e)) (frames e) → sink e = None → write_step e token = Some st →
  ∃ e', write_token token e = Some (Ok tt, e') ∧ out e' = out e ++ token_text e token ++ line_end e st ∧ frames e' = st ∧ sink e' = None
    ∧ opts e' = opts e ∧ omit_top_level_newline e' = omit_top_level_newline e ∧ roots e' = if bool_decide (frames e = []) then S (roots e) else roots e.
Proof.
  intros Hb Hst Hs Hstep. pose proof (append_token_spec token e Hb Hst) as H. rewrite Hstep in H. destruct H as [E _].
  unfold write_token. rewrite E. unfold settle, flush, line_end.
  change (sink (appended e token st)) with (sink e). change (omit_top_level_newline (appended e token st)) with (omit_top_level_newline e).
  change (frames (appended e token st)) with st.
  destruct (bool_decide (st = [])); cbn [andb]; [destruct (omit_top_level_newline e) eqn:Eo; cbn [negb]|destruct (_ <=? _)%Z]; cbn; rewrite ?Hs;
    (eexists; split; [done|]; split_and!; cbn; by rewrite ?app_nil_r, <-?app_assoc).
Qed.

Lemma prefix_plain e kind : indent (opts e) = None →
  prefix_bytes (token_prefix e kind) = if Kind.is_end kind then [] else option_list (lead (frames e)).
Proof.
  intros Hi. unfold token_prefix, prefix_of, lead, in_value, counted, top_is, top_expects_name, prefix_bytes. rewrite Hi.
  destruct (frames e) as [|f fr]; cbn; [by destruct (Kind.is_end kind)|].
  destruct (Kind.is_end kind), (bool_decide (f_kind f = Kind.BeginObject) && negb (expects_name f)), (count f); done.
Qed.

Lemma token_lead_inside token st outer : st ≠ [] → token_lead token (st ++ outer) = token_lead token st.
Proof. by destruct st. Qed.

Lemma rest_stops dups d st tokens text : rest_of dups d st tokens text → (st ≠ [] → counted st = true) → stops text.
Proof.
  intros Hr Hc. destruct Hr as [|st token st1 tokens text Hne Hw Hg Hr]; [done|]. specialize (Hc Hne). unfold token_lead.
  destruct (Kind.is_end (Token.kind token)) eqn:Ee; [by destruct token as [|[]| | | | | |]|].
  unfold lead. destruct (in_value st); [done|]. by rewrite Hc.
Qed.

Lemma utf8_bytes rs : Forall scalar rs → all_bytes (utf8 rs).
Proof.
  intros Hrs. apply Forall_concat, Forall_fmap. apply (Forall_impl _ _ _ Hrs). intros r Hr. cbn. rewrite encode_scalar by done. apply utf8_arith_bytes, Hr.
Qed.

Lemma spelled_bytes token : well_spelled token → string_bytes token.
Proof. destruct token; try done. intros (rs & Hrs & ->). by apply utf8_bytes. Qed.

Lemma copy_rest dups depth st tokens text n d e outer fuel :
  rest_of dups depth st tokens text → all_bytes text → decodes n text st d → base_depth d = 0 → options d = opts e → dups = allows_duplicates (opts e) →
  indent (opts e) = None → frames e = st ++ outer → length outer = depth → sink e = None →
  stack_ok dups (st ++ outer) → length tokens < fuel →
  ∃ e', copy_tokens fuel d e = Some (Ok tt, e')
    ∧ out e' = out e ++ text ++ (if bool_decide (st = []) then [] else line_end e outer) ∧ frames e' = outer ∧ roots e' = roots e.
Proof.
  intros Hr. revert n d e fuel. induction Hr as [|st token st1 tokens text Hne Hw Hg Hr IH]; intros n d e fuel Hb Hd Hbd Ho Hdups Hi Hf Hl Hs Hst Hfuel;
    (destruct fuel as [|fuel]; [cbn in Hfuel; lia|]); cbn [copy_tokens].
  { destruct (read_token_end n d [] Hd ltac:(constructor)) as (d' & ->). exists e. split_and!; [done|by rewrite !app_nil_r|done|done]. }
  assert (stops text ∨ ∀ b, token ≠ Token.Number b) as Hstops.
  { destruct token as [| | |b| | | |]; try (by right). left. eapply rest_stops; [done|]. intros. by eapply number_counted. }
  assert (readable token text) as Hread by (split; [done|]; destruct token; try done; destruct Hstops as [?|Hne']; [done|by destruct (Hne' s)]).
  destruct (read_token_written n d token [] [] text st st1 Hd ltac:(constructor) ltac:(constructor) ltac:(done) Hread) as (d1 & n1 & -> & Hd1 & S1).
  { rewrite Hbd, Ho, <-Hdups. eapply grammar_step_shallow; [|done]. lia. }
  injection S1 as So Sb. destruct (well_spelled_clean token (allows_invalid (opts e)) Hw) as [Hclean Hwr].
  apply Forall_app in Hb as [_ Hb]. apply Forall_app in Hb as [Hb1 Hb2].
  assert (write_step e token = Some (st1 ++ outer)) as Hstep.
  { unfold write_step. rewrite Hwr, Hclean, Hf, <-Hdups. apply grammar_step_inside; [done|]. by rewrite Hl. }
  destruct (write_token_whole token e (st1 ++ outer)) as (e1 & -> & Hout & Hf1 & Hs1 & Ho1 & Hom1 & Hr1); [by apply spelled_bytes|by rewrite <-Hdups, Hf|done|done|].
  destruct (IH n1 d1 e1 fuel) as (e2 & -> & Hout2 & Hf2 & Hr2); [done|done|congruence|congruence|congruence|congruence|done|done|done| |cbn in Hfuel; lia|].
  { eapply (grammar_step_ok _ 0); [exact Hst|]. apply grammar_step_inside; [done|]. by rewrite Hl. }
  exists e2. split_and!; [done| |done|].
  - rewrite Hout2, Hout. unfold token_text. rewrite prefix_plain, Hclean, Hf by done. change (if Kind.is_end _ then _ else _) with (token_lead token (st ++ outer)).
    rewrite token_lead_inside by done. rewrite <-!app_assoc. do 3 f_equal. rewrite (bool_decide_false (st = [])) by done.
    unfold line_end. rewrite Hom1. destruct st1 as [|f1 st1]; [|by rewrite !(bool_decide_false (_ :: _ = []))].
    inversion Hr; [subst|done]. by rewrite !app_nil_r.
  - rewrite Hr2, Hr1, Hf. by destruct st.
Qed.

Lemma rest_length dups d st tokens text : rest_of dups d st tokens text → length tokens <= length text.
Proof.
  induction 1 as [|st token st1 tokens text _ Hw _ _ IH]; [done|]. destruct (spelled_first token Hw) as (c & b' & -> & _).
  cbn [length app]. rewrite length_app. cbn [length]. rewrite length_app. lia.
Qed.

Definition counted_up (st : list Frame) : list Frame := on_top (λ f, f <| count := S (count f) |>) st.

(** A value that can stand alone can stand where no name is expected. *)
Lemma first_step dups first st fr :
  grammar_step dups (length fr) first [] = Some st → top_expects_name fr = false →
  grammar_step dups 0 first fr = Some (st ++ counted_up fr) ∧ Kind.is_end (Token.kind first) = false.
Proof.
  intros Hg Hn. revert Hg. unfold grammar_step. destruct (Kind.is_end (Token.kind first)); [done|]. rewrite Hn.
  change (top_expects_name []) with false. cbn [andb length]. rewrite Nat.add_0_r, Nat.add_0_l. destruct (is_begin _ && _); [done|].
  cbn [mbind option_bind on_top]. intros [= <-]. split; [|done].
  assert ((match fr with f :: rest => if expects_name f then (λ f, f :: rest) <$> name_step dups (Token.text first) f else Some fr | [] => Some [] end) = Some fr) as ->.
  { unfold top_expects_name in Hn. destruct fr as [|f fr]; [done|]. cbn in Hn. by rewrite Hn. }
  cbn [mbind option_bind]. by destruct (is_begin _).
Qed.

(** The copy. *)
Lemma append_value_whole b e first :
  sink e = None → indent (opts e) = None → Kind.from_byte (default 0%Z (head b)) = Token.kind first → Kind.is_end (Token.kind first) = false →
  ∃ e1, append_value b e = Some (Ok tt, e1) ∧ out e1 = out e ++ option_list (lead (frames e)) ++ b ++ line_end e (frames e)
    ∧ frames e1 = counted_up (frames e) ∧ roots e1 = if bool_decide (frames e = []) then S (roots e) else roots e.
Proof.
  intros Hs Hi Hk Hend. unfold append_value. rewrite Hk, prefix_plain, Hend by done. unfold settle, flush, line_end.
  destruct e as [ob ba ro fl fr op si om]. cbn in Hs. subst si. destruct fr as [|f fr]; cbn -[lead].
  - destruct om; (eexists; split; [done|]); split_and!; cbn; by rewrite ?app_nil_r, <-?app_assoc.
  - destruct (_ <=? _)%Z; (eexists; split; [done|]); split_and!; cbn; by rewrite ?app_nil_r.
Qed.

(** [C3] A raw value that the encoder copies as it stands, because it is canonical and nothing is
    to be indented, leaves it as writing the value token by token would: with the same output,
    the value behind its delimiter and before a line end at the top, and the same frames. *)
Theorem canonical_value_is_its_tokens b e d' :
  all_bytes b → stack_ok (allows_duplicates (opts e)) (frames e) → sink e = None →
  (skip_value;; finish) (from_slice_with_options b (opts e) <| base_depth := length (frames e) |>) = Some (Ok tt, d') →
  is_canonical d' = true → indent (opts e) = None → top_expects_name (frames e) = false →
  ∃ e1 e2, write_value b e = Some (Ok tt, e1) ∧ copy_tokens (length b + 2) (from_slice_with_options b (opts e)) e = Some (Ok tt, e2)
    ∧ out e1 = out e ++ option_list (lead (frames e)) ++ b ++ line_end e (frames e)
    ∧ out e2 = out e1 ∧ frames e2 = frames e1 ∧ roots e2 = roots e1.
Proof.
  intros Hb Hst Hs Hcheck Hc Hi Hn.
  destruct (checked_value b (opts e) (length (frames e)) Hb) as (r & d1 & E1 & H1). rewrite Hcheck in E1. injection E1 as <- <-.
  destruct (H1 eq_refl Hc) as (first & tokens & Hw & st & text & Hg & Hr & Eb).
  destruct (first_step _ _ _ _ Hg Hn) as [Hg0 Hend]. destruct (well_spelled_clean first (allows_invalid (opts e)) Hw) as [Hclean Hwr].
  destruct (spelled_first first Hw) as (c & b' & Es & Hk & _).
  set (fr := counted_up (frames e)) in *.
  assert (bool_decide (fr = []) = bool_decide (frames e = [])) as Efr by (unfold fr; by destruct (frames e)).
  assert (Kind.from_byte (default 0%Z (head b)) = Token.kind first) as Ekind by (rewrite Eb, Es; exact Hk).
  destruct (append_value_whole b e first Hs Hi Ekind Hend) as (e1 & Ea & Oa & Fa & Ra).
  assert (stack_ok (allows_duplicates (opts e)) (st ++ fr)) as Hst1 by (by eapply grammar_step_ok).
  assert (readable first text) as Hread.
  { split; [done|]. destruct first; try done. eapply rest_stops; [done|]. intros. by eapply number_counted. }
  assert (decodes 0 ([] ++ token_lead first [] ++ [] ++ spelled first ++ text) [] (from_slice_with_options b (opts e))) as Hd.
  { unfold token_lead. rewrite Hend. cbn [app lead]. change (option_list (lead [])) with (@nil Z). cbn [app]. rewrite <-Eb. by apply decodes_slice. }
  destruct (read_token_written 0 _ first [] [] text [] st Hd ltac:(constructor) ltac:(constructor) ltac:(done) Hread) as (d2 & n2 & E2 & Hd2 & S2).
  { eapply grammar_step_shallow; [|exact Hg]. cbn. lia. }
  injection S2 as So Sb.
  assert (write_step e first = Some (st ++ fr)) as Hstep by (unfold write_step; by rewrite Hwr, Hclean).
  rewrite Eb in Hb. apply Forall_app in Hb as [Hb1 Hb2].
  destruct (write_token_whole first e (st ++ fr)) as (e2 & Ew & Hout & Hf2 & Hs2 & Ho2 & Hom2 & Hr2); [by apply spelled_bytes|done|done|done|].
  pose proof (rest_length _ _ _ _ _ Hr) as Hlen.
  destruct (copy_rest _ _ _ _ _ _ d2 e2 fr (length b + 1) Hr Hb2 Hd2) as (e3 & E3 & Hout3 & Hf3 & Hr3);
    [done|by rewrite So, Ho2|by rewrite Ho2|by rewrite Ho2|done|by unfold fr, counted_up; destruct (frames e)|done|done|rewrite Eb, length_app; lia|].
  exists e1, e3. split_and!.
  - unfold write_value. by rewrite Hcheck, Hc, Hi, bool_decide_true, Hn by done.
  - replace (length b + 2) with (S (length b + 1)) by lia. cbn [copy_tokens]. by rewrite E2, Ew.
  - exact Oa.
  - rewrite Hout3, Hout, Oa, Eb. unfold token_text, line_end. rewrite prefix_plain, Hend, Hclean, Hom2, <-Efr, <-!app_assoc by done. do 3 f_equal.
    destruct st as [|f st]; [|by rewrite !(bool_decide_false (_ :: _ = []))]. inversion Hr; [subst|done]. by rewrite !app_nil_r.
  - by rewrite Hf3, Fa.
  - by rewrite Hr3, Hr2, Ra.
Qed.

(** An encoder after [[1], and a canonical object. *)
Definition copying : Encoder := MkEncoder (bs "[1") 0 0 0 [MkFrame Kind.BeginArray 1 [] names_default] options_default None false.
Definition canonical_object : bytes := map (λ b, if Z.eqb b 39 then 34%Z else b) (bs "{'a':[1,{'b':'x\n'},-0.5e1],'':null}").

Lemma canonical_value_is_its_tokens_witness :
  sink copying = None ∧ ∃ e1 e2, write_value canonical_object copying = Some (Ok tt, e1)
    ∧ copy_tokens (length canonical_object + 2) (from_slice_with_options canonical_object (opts copying)) copying = Some (Ok tt, e2)
    ∧ out e1 = out copying ++ option_list (lead (frames copying)) ++ canonical_object ++ line_end copying (frames copying)
    ∧ out e2 = out e1 ∧ frames e2 = frames e1 ∧ roots e2 = roots e1.
Proof.
  split; [done|].
  apply (canonical_value_is_its_tokens canonical_object copying
    (match (skip_value;; finish) (from_slice_with_options canonical_object (opts copying) <| base_depth := length (frames copying) |>) with
     | Some (_, d) => d | None => from_slice_with_options [] options_default end)).
  - apply Forall_fmap. apply (Forall_impl _ _ _ (bs_all_bytes _)). intros x. cbn. unfold is_byte. case_match; lia.
  - constructor; [apply (frame_new_sim _ Kind.BeginArray)|constructor] || (constructor; [|constructor]; split; [done..|]; intros _; exists []; split; apply names_default_ok).
  - done.
  - by vm_compute.
  - by vm_compute.
  - done.
  - done.
Defined.
