(* ===== verification/JsonShift.v ===== *)
(** Bytes that have left the buffer do not matter: the JSON lexer and decoder on an input
    without its first [n] bytes do what they do on the whole, [n] positions earlier. *)

From S2P Require Import Prelude Wtf8 BaseProto JsonState JsonWire JsonDecoder JsonStrings.
Import JsonState.Kind(Kind) JsonState.Token(Token).

Local Open Scope nat_scope.

Section Shift.
Context (n : nat).

Definition dropn (i : Input) : Input := i <| i_bytes := drop n (i_bytes i) |>.

Abbreviation later := (absolute_error n).

(** The results of [m'] on the shorter input and of [m] on the whole. *)
Definition matched {A} (R : A → A → Prop) (r' r : result Error A) : Prop :=
  match r', r with Ok a', Ok a => R a' a | Err e', Err e => e = later e' | _, _ => False end.

Definition shifts {A} (m' m : J A) (R : A → A → Prop) : Prop := ∀ i r' i1',
  n <= length (i_bytes i) → m' (dropn i) = Some (r', i1') →
  ∃ r i1, m i = Some (r, i1) ∧ i1' = dropn i1 ∧ n <= length (i_bytes i1) ∧ matched R r' r.

Abbreviation at_ := (λ p q : nat, q = n + p).

Lemma shifts_mono {A} (m' m : J A) (R R' : A → A → Prop) : shifts m' m R → (∀ a' a, R a' a → R' a' a) → shifts m' m R'.
Proof.
  intros Hm HR i r' i1' Hn E. destruct (Hm i r' i1' Hn E) as (r & i1 & ? & ? & ? & H). exists r, i1. split_and!; [done..|].
  unfold matched in *. destruct r', r; auto.
Qed.

Lemma shifts_ret {A} (a' a : A) (R : A → A → Prop) : R a' a → shifts (mret a') (mret a) R.
Proof. intros HR i r' i1' Hn [= <- <-]. by eexists _, i. Qed.

Lemma shifts_fail {A} e' e (R : A → A → Prop) : e = later e' → shifts (fail e') (fail e) R.
Proof. intros -> i r' i1' Hn [= <- <-]. by eexists _, i. Qed.

Lemma shifts_bind {A B} (m' m : J A) (f' f : A → J B) R R2 :
  shifts m' m R → (∀ a' a, R a' a → shifts (f' a') (f a) R2) → shifts (m' ≫= f') (m ≫= f) R2.
Proof.
  intros Hm Hf i r' i1' Hn. unfold mbind, st_bind. destruct (m' (dropn i)) as [[r1' i2']|] eqn:E; [|done].
  destruct (Hm i r1' i2' Hn E) as (r1 & i2 & -> & -> & Hn2 & H). destruct r1' as [a'|e'], r1 as [a|e]; try done.
  - by apply Hf.
  - intros [= <- <-]. by eexists _, i2.
Qed.

Lemma shifts_map_err {A} f' f (m' m : J A) R : (∀ e, f (later e) = later (f' e)) → shifts m' m R → shifts (map_err f' m') (map_err f m) R.
Proof.
  intros Hf Hm i r' i1' Hn. unfold map_err. destruct (m' (dropn i)) as [[r1' i2']|] eqn:E; [|done].
  destruct (Hm i r1' i2' Hn E) as (r1 & i2 & -> & -> & Hn2 & H). destruct r1' as [a'|e'], r1 as [a|e]; try done; intros [= <- <-]; eexists _, i2; split_and!; try done.
  cbn in *. by rewrite H, Hf.
Qed.

Lemma shifts_try {A} (m' m : J A) R : shifts m' m R →
  shifts (try_ m') (try_ m) (λ a' a, match a', a with Some a', Some a => R a' a | None, None => True | _, _ => False end).
Proof.
  intros Hm i r' i1' Hn. unfold try_. destruct (m' (dropn i)) as [[r1' i2']|] eqn:E; [|done].
  destruct (Hm i r1' i2' Hn E) as (r1 & i2 & -> & -> & Hn2 & H). destruct r1' as [a'|e'], r1 as [a|e]; try done; intros [= <- <-]; by eexists _, i2.
Qed.

Lemma shifts_gets {A} (f' f : bytes → J A) R :
  (∀ b, n <= length b → shifts (f' (drop n b)) (f b) R) → shifts (gets i_bytes ≫= f') (gets i_bytes ≫= f) R.
Proof. intros Hf i r' i1' Hn E. by apply (Hf (i_bytes i)). Qed.

Lemma shifts_noncanonical : shifts set_noncanonical set_noncanonical (λ _ _, True).
Proof. intros i r' i1' Hn [= <- <-]. by eexists _, _. Qed.

Lemma shifts_loop {X Y} (body' body : X → J (X + Y)) x' x (I : X → X → Prop) (R : Y → Y → Prop) :
  (∀ x' x, I x' x → shifts (body' x') (body x) (λ r' r, match r', r with inl x', inl x => I x' x | inr y', inr y => R y' y | _, _ => False end)) →
  I x' x → shifts (loop body' x') (loop body x) R.
Proof.
  intros Hbody HI. assert (∀ F' F x' x, F' <= F → I x' x → shifts (loop_fuel F' body' x') (loop_fuel F body x) R) as H.
  { intros F'. induction F' as [|F' IH]; intros F y' y HF Hy; [by intros i r' i1' _ [=]|]. destruct F as [|F]; [lia|]. cbn [loop_fuel].
    eapply shifts_bind; [by apply Hbody|]. intros [z'|w'] [z|w] Hz; try done; [apply IH; [lia|done]|by apply shifts_ret]. }
  intros i r' i1' Hn E. unfold loop in *. apply (H (input_fuel (dropn i)) (input_fuel i) x' x); [|done..].
  unfold input_fuel. change (reader (dropn i)) with (reader i). change (i_bytes (dropn i)) with (drop n (i_bytes i)). rewrite length_drop. lia.
Qed.

Lemma later_syntax p q pointer message : q = n + p → syntax q pointer message = later (syntax p pointer message).
Proof. intros ->. unfold syntax, absolute_error. rewrite (Nat.add_comm n p). done. Qed.
Lemma later_truncated p q pointer : q = n + p → truncated q pointer = later (truncated p pointer).
Proof. intros ->. unfold truncated, absolute_error. rewrite (Nat.add_comm n p). done. Qed.
Lemma later_duplicate p q pointer : q = n + p → duplicate q pointer = later (duplicate p pointer).
Proof. intros ->. unfold duplicate, absolute_error. rewrite (Nat.add_comm n p). done. Qed.

Lemma shifts_invalid {A} p q pointer context (R : A → A → Prop) : q = n + p → shifts (fail_invalid p pointer context) (fail_invalid q pointer context) R.
Proof.
  intros -> i r' i1' Hn [= <- <-]. eexists _, i. split_and!; [done..|]. unfold matched, invalid. change (i_bytes (dropn i)) with (drop n (i_bytes i)).
  rewrite lookup_drop. by apply later_syntax.
Qed.

Lemma fill_round_shifts p q : q = n + p → shifts (fill_round p ()) (fill_round q ()) (λ r' r, r = r').
Proof.
  intros -> i r' i1' Hn E. unfold fill_round in *. cbn [i_bytes eof reader dropn] in E.
  assert (i_bytes (dropn i) = drop n (i_bytes i)) as Eb by done. rewrite Eb, length_drop in E. change (eof (dropn i)) with (eof i) in E. change (reader (dropn i)) with (reader i) in E.
  replace (length (i_bytes i) - n <=? p) with (length (i_bytes i) <=? n + p) in E by (destruct (Nat.leb_spec (length (i_bytes i)) (n + p)), (Nat.leb_spec (length (i_bytes i) - n) p); done || lia).
  destruct (_ && _).
  - destruct (source_read CHUNK (reader i)) as [[[|c chunk]|[]] s]; injection E as <- <-; eexists _, _; (split; [done|]); split_and!; try done; cbn.
    + unfold dropn. cbn. by rewrite drop_app_le.
    + rewrite length_app. lia.
  - injection E as <- <-. eexists _, i. split_and!; [done..|]. cbn. by rewrite lookup_drop.
Qed.

Lemma shifts_at p q : q = n + p → shifts (byte_at p) (byte_at q) (λ b' b, b = b').
Proof.
  intros -> i r' i1' Hn E. unfold byte_at in *. assert (i_bytes (dropn i) = drop n (i_bytes i)) as Eb by done. rewrite Eb, lookup_drop in E.
  destruct (i_bytes i !! (n + p)); [injection E as <- <-; by eexists _, i|].
  assert (∀ F, shifts (loop_fuel F (fill_round p) ()) (loop_fuel F (fill_round (n + p)) ()) (λ r' r, r = r')) as H; [|by apply (H _ i)].
  induction F as [|F IH]; [by intros j s j1 _ [=]|]. cbn [loop_fuel].
  eapply shifts_bind; [by apply fill_round_shifts|]. intros r1' r1 ->. destruct r1' as [[]|y]; [done|by apply shifts_ret].
Qed.

(** ** The lexer *)

Lemma shifts_skip_while f p q : q = n + p → shifts (skip_while f p) (skip_while f q) at_.
Proof.
  intros Hq. apply (shifts_loop _ _ p q at_); [|done]. intros x' x Hx; cbv beta in Hx. eapply shifts_bind; [by apply shifts_at|]. intros b' b ->.
  destruct (from_option f false b'); apply shifts_ret; lia.
Qed.

Lemma shifts_space p q : q = n + p → shifts (space p) (space q) at_.
Proof.
  intros Hq. eapply shifts_bind; [by apply shifts_skip_while|]. intros i' i Hi; cbv beta in Hi. apply shifts_bind with (R := λ _ _, True); [|intros; by apply shifts_ret].
  replace (i =? q) with (i' =? p) by (destruct (Nat.eqb_spec i' p), (Nat.eqb_spec i q); done || lia). destruct (i' =? p); [by apply shifts_ret|apply shifts_noncanonical].
Qed.

Lemma shifts_digits p q pointer : q = n + p → shifts (digits p pointer) (digits q pointer) at_.
Proof.
  intros Hq. eapply shifts_bind; [by apply shifts_at|]. intros b' b ->. destruct b' as [b|]; [|by apply shifts_fail, later_truncated].
  destruct (negb _); [by apply shifts_invalid|by apply shifts_skip_while].
Qed.

Lemma shifts_skip_if f p q : q = n + p → shifts (skip_if f p) (skip_if f q) at_.
Proof. intros Hq. eapply shifts_bind; [by apply shifts_at|]. intros b' b ->. apply shifts_ret. case_match; lia. Qed.

Lemma shifts_number p q pointer : q = n + p → shifts (number p pointer) (number q pointer) at_.
Proof.
  intros Hq. eapply shifts_bind; [by apply shifts_skip_if|]. intros i' i Hi; cbv beta in Hi. eapply (shifts_bind _ _ _ _ at_).
  { eapply shifts_bind; [by apply shifts_at|]. intros b' b ->. destruct b' as [b|]; [|by apply shifts_fail, later_truncated].
    destruct (Z.eqb _ _); [apply shifts_ret; lia|]. destruct (in_range _ _ _); [apply shifts_skip_while; lia|by apply shifts_invalid]. }
  clear p q i' i Hq Hi. intros p q Hq; cbv beta in Hq. eapply (shifts_bind _ _ _ _ at_).
  { eapply shifts_bind; [by apply shifts_at|]. intros b' b ->. destruct (bool_decide _); [apply shifts_digits; lia|by apply shifts_ret]. }
  clear p q Hq. intros p q Hq; cbv beta in Hq. eapply shifts_bind; [by apply shifts_at|]. intros b' b ->. destruct (from_option _ _ _); [|by apply shifts_ret].
  eapply shifts_bind; [apply (shifts_skip_if _ (S p) (S q)); lia|]. intros i' i Hi; cbv beta in Hi. by apply shifts_digits.
Qed.

Lemma shifts_literal p q word pointer : q = n + p → shifts (literal p word pointer) (literal q word pointer) at_.
Proof.
  unfold literal. generalize word at 2 4. intros rest. revert p q. induction rest as [|c rest IH]; intros p q Hq; [by apply shifts_ret|]. cbn [literal_from].
  eapply shifts_bind; [by apply shifts_at|]. intros b' b ->. destruct b' as [b|]; [|by apply shifts_fail, later_truncated].
  destruct (Z.eqb _ _); [apply IH; lia|by apply shifts_invalid].
Qed.

Lemma shifts_hex4 p q slash slash' pointer : q = n + p → slash' = n + slash → shifts (hex4 p slash pointer) (hex4 q slash' pointer) eq.
Proof.
  intros Hq Hs. unfold hex4. generalize 0%Z. revert p q Hq. generalize 4. intros k. induction k as [|k IH]; intros p q Hq v; [by apply shifts_ret|]. cbn [hex4_from].
  eapply shifts_bind; [by apply shifts_at|]. intros b' b ->. destruct b' as [b|]; [|by apply shifts_fail, later_truncated].
  destruct (hex_value b); [apply IH; lia|by apply shifts_invalid].
Qed.

Lemma shifts_low_half first p q pointer : q = n + p → shifts (low_half first p pointer) (low_half first q pointer) eq.
Proof.
  intros Hq. unfold low_half. destruct (first <=? _)%Z; [|by apply shifts_ret]. eapply shifts_bind; [by apply shifts_at|]. intros b' b ->.
  destruct (bool_decide _); [|by apply shifts_ret]. eapply shifts_bind; [apply (shifts_at (S p) (S q)); lia|]. intros c' c ->.
  destruct (bool_decide _); [|by apply shifts_ret]. eapply shifts_bind; [apply shifts_try, (shifts_hex4 (p + 2) (q + 2)); [lia|done]|].
  intros [x'|] [x|] H; try done; [subst x'|]; by apply shifts_ret.
Qed.

Lemma shifts_escaped_rune first p q slash slash' pointer allow : q = n + p → slash' = n + slash →
  shifts (escaped_rune first p slash pointer allow) (escaped_rune first q slash' pointer allow) (λ x' x, x.1 = x'.1 ∧ x.2 = n + x'.2).
Proof.
  intros Hq Hs. unfold escaped_rune. destruct (is_surrogate first); [|by apply shifts_ret].
  eapply shifts_bind; [by apply shifts_low_half|]. intros pair' pair <-. destruct pair'; [apply shifts_ret; cbn; lia|]. destruct allow; [by apply shifts_ret|].
  eapply shifts_bind; [apply (shifts_at (slash + 11) (slash' + 11)); lia|]. intros _ _ _. apply shifts_gets. intros b Hb. apply shifts_fail.
  rewrite Hs, drop_drop. by apply later_syntax.
Qed.

Abbreviation strings := (λ st' st : nat * option bytes, st.1 = n + st'.1 ∧ st.2 = st'.2).

Lemma shifts_string_escape p q pointer allow out : q = n + p →
  shifts (string_escape p pointer allow out) (string_escape q pointer allow out) strings.
Proof.
  intros Hq. eapply shifts_bind; [apply (shifts_at (S p) (S q)); lia|]. intros b' b ->. destruct b' as [b|]; [|by apply shifts_fail, later_truncated].
  cbv zeta. assert (∀ o, shifts (mret (p + 2, o)) (mret (q + 2, o)) strings) as Hret by (intros o; apply shifts_ret; cbn; split; [lia|done]).
  destruct (_ || _); [apply Hret|]. destruct (Z.eqb b (ch "/")); [eapply shifts_bind; [apply shifts_noncanonical|intros; apply Hret]|].
  do 5 (destruct (Z.eqb b _); [apply Hret|]). destruct (Z.eqb b _); [|apply shifts_invalid; lia].
  eapply shifts_bind; [apply shifts_noncanonical|]. intros _ _ _. eapply shifts_bind; [apply (shifts_hex4 (p + 2) (q + 2)); [lia|done]|]. intros first' first <-.
  eapply shifts_bind; [apply (shifts_escaped_rune _ (p + 2 + 4) (q + 2 + 4)); [lia|done]|]. intros [r' i'] [r i] [Hr Hi]. cbn in Hr, Hi. subst r. by apply shifts_ret.
Qed.

Abbreviation rounds := (λ r' r : (nat * option bytes) + (nat * option bytes), match r', r with inl x', inl x => strings x' x | inr y', inr y => strings y' y | _, _ => False end).

Lemma shifts_string_round p q pointer allow out : q = n + p →
  shifts (string_round pointer allow p out) (string_round pointer allow q out) rounds.
Proof.
  intros Hq. eapply shifts_bind; [by apply shifts_at|]. intros b' b ->. destruct b' as [b|]; [|by apply shifts_fail, later_truncated].
  destruct (Z.eqb _ _); [apply shifts_ret; cbn; split; [lia|done]|]. destruct (Z.eqb _ _).
  { eapply shifts_bind; [by apply shifts_string_escape|]. intros. by apply shifts_ret. }
  destruct (b <=? 31)%Z; [by apply shifts_invalid|]. destruct (128 <=? b)%Z; [|apply shifts_ret; cbn; split; [lia|done]].
  eapply shifts_bind; [apply (shifts_at (p + 3) (q + 3)); lia|]. intros _ _ _. apply shifts_gets. intros buf Hbuf. rewrite drop_drop, <-Hq.
  destruct (decode_utf8 (drop q buf)) as [rune width]. apply shifts_bind with (R := λ _ _, True).
  - destruct (_ && _); [|by apply shifts_ret]. destruct allow; [apply shifts_noncanonical|by apply shifts_fail, later_syntax].
  - intros _ _ _. apply shifts_ret. cbn. split; [lia|done].
Qed.

Lemma shifts_string_into p q pointer allow keep : q = n + p → shifts (string_into p pointer allow keep) (string_into q pointer allow keep) strings.
Proof.
  intros Hq. apply (shifts_loop _ _ _ _ strings); [|cbn; split; [lia|done]]. intros [i' o'] [i o] [Hi Ho]. cbn in Hi, Ho. subst o'. unfold string_body.
  apply shifts_gets. intros b Hb. rewrite drop_drop, <-Hi. apply shifts_string_round. lia.
Qed.

(** ** The decoder *)

Lemma later_in_pointer st e : in_pointer st (later e) = later (in_pointer st e).
Proof. by destruct e. Qed.

Lemma shifts_prepare_inner p q st : q = n + p → shifts (prepare_inner p st) (prepare_inner q st) at_.
Proof.
  intros Hq. eapply shifts_bind; [by apply shifts_space|]. clear p q Hq. intros p q Hq; cbv beta in Hq. destruct st as [|f st]; [by apply shifts_ret|].
  eapply shifts_bind; [by apply shifts_at|]. intros b' b ->. cbv zeta. destruct (_ && _).
  - destruct b' as [b|]; [|by apply shifts_fail, later_truncated]. destruct (Z.eqb _ _); [apply shifts_space; lia|by apply shifts_invalid].
  - destruct (_ && _); [|by apply shifts_ret]. destruct b' as [b|]; [|by apply shifts_fail, later_truncated]. destruct (Z.eqb _ _); [|by apply shifts_invalid].
    eapply shifts_bind; [apply (shifts_space (S p) (S q)); lia|]. clear p q Hq. intros p q Hq; cbv beta in Hq. eapply shifts_bind; [by apply shifts_at|]. intros c' c ->.
    destruct (_ || _); [by apply shifts_invalid|by apply shifts_ret].
Qed.

Lemma shifts_prepare p q st : q = n + p → shifts (prepare p st) (prepare q st) at_.
Proof. intros Hq. apply shifts_map_err; [apply later_in_pointer|by apply shifts_prepare_inner]. Qed.

Lemma shifts_scan_value kind p q o keep : q = n + p → shifts (scan_value kind p o keep) (scan_value kind q o keep) (λ x' x, x.1 = x'.1 ∧ x.2 = n + x'.2).
Proof.
  intros Hq. destruct kind; cbn [scan_value]; try (by apply shifts_invalid);
    try (eapply shifts_bind; [by apply shifts_literal|]; intros; by apply shifts_ret); try (apply shifts_ret; cbn; split; [done|lia]).
  - eapply shifts_bind; [by apply shifts_string_into|]. intros [e' t'] [e t] [He Ht]. cbn in *. subst t'. by apply shifts_ret.
  - eapply shifts_bind; [by apply shifts_number|]. intros e' e He; cbv beta in He. apply shifts_gets. intros b Hb. apply shifts_ret. cbn. split; [|done].
    rewrite drop_drop, <-Hq. do 2 f_equal. lia.
Qed.

(** *** Computations on a cursor *)

Definition cshifts {A} (m' m : C A) (R : A → A → Prop) : Prop := ∀ i p st r' c1',
  n <= length (i_bytes i) → m' (MkCursor (dropn i) p st) = Some (r', c1') →
  ∃ r i1 p1 st1, m (MkCursor i (n + p) st) = Some (r, MkCursor i1 (n + p1) st1) ∧ c1' = MkCursor (dropn i1) p1 st1
    ∧ n <= length (i_bytes i1) ∧ matched R r' r.

Lemma cshifts_ret {A} (a' a : A) (R : A → A → Prop) : R a' a → cshifts (mret a') (mret a) R.
Proof. intros HR i p st r' c1' Hn [= <- <-]. by eexists _, i, p, st. Qed.

Lemma cshifts_fail {A} e' e (R : A → A → Prop) : e = later e' → cshifts (fail e') (fail e) R.
Proof. intros -> i p st r' c1' Hn [= <- <-]. by eexists _, i, p, st. Qed.

Lemma cshifts_bind {A B} (m' m : C A) (f' f : A → C B) R R2 :
  cshifts m' m R → (∀ a' a, R a' a → cshifts (f' a') (f a) R2) → cshifts (m' ≫= f') (m ≫= f) R2.
Proof.
  intros Hm Hf i p st r' c1' Hn. unfold mbind, st_bind. destruct (m' _) as [[r1' c2']|] eqn:E; [|done].
  destruct (Hm i p st r1' c2' Hn E) as (r1 & i2 & p2 & st2 & -> & -> & Hn2 & H). destruct r1' as [a'|e'], r1 as [a|e]; try done.
  - by apply Hf.
  - intros [= <- <-]. by eexists _, i2, p2, st2.
Qed.

Lemma cshifts_on_input {A} (m' m : J A) R : shifts m' m R → cshifts (on_input m') (on_input m) R.
Proof.
  intros Hm i p st r' c1' Hn. unfold on_input. cbn [input]. destruct (m' (dropn i)) as [[r1' i1']|] eqn:E; [|done]. intros [= <- <-].
  destruct (Hm i r1' i1' Hn E) as (r & i1 & -> & -> & Hn1 & H). by eexists _, i1, p, st.
Qed.

Lemma cshifts_stack {A} (f' f : list Frame → C A) R : (∀ st, cshifts (f' st) (f st) R) → cshifts (gets stack ≫= f') (gets stack ≫= f) R.
Proof. intros Hf i p st r' c1' Hn E. by apply (Hf st). Qed.

Lemma cshifts_pos {A} (f' f : nat → C A) R : (∀ p, cshifts (f' p) (f (n + p)) R) → cshifts (gets pos ≫= f') (gets pos ≫= f) R.
Proof. intros Hf i p st r' c1' Hn E. by apply (Hf p). Qed.

Lemma cshifts_input {A} (f' f : Input → C A) R : (∀ j, n <= length (i_bytes j) → cshifts (f' (dropn j)) (f j) R) → cshifts (gets input ≫= f') (gets input ≫= f) R.
Proof. intros Hf i p st r' c1' Hn E. by apply (Hf i). Qed.

Lemma cshifts_modify f : cshifts (modify (λ c, c <| stack := f (stack c) |>)) (modify (λ c, c <| stack := f (stack c) |>)) (λ _ _, True).
Proof. intros i p st r' c1' Hn [= <- <-]. by eexists _, i, p, (f st). Qed.

Lemma cshifts_set_pos p q : q = n + p → cshifts (set_pos p) (set_pos q) (λ _ _, True).
Proof. intros -> i p0 st r' c1' Hn [= <- <-]. by eexists _, i, p, st. Qed.

Lemma cshifts_take_name token p q o : q = n + p → cshifts (take_name token p o) (take_name token q o) (λ _ _, True).
Proof.
  intros Hq. apply cshifts_stack. intros [|f st]; [by apply cshifts_ret|]. destruct (expects_name f); [|by apply cshifts_ret].
  cbv zeta. destruct (if allows_duplicates o then _ else _) as [[] ns]; [apply (cshifts_modify (λ _, _))|].
  eapply cshifts_bind; [apply (cshifts_modify (λ _, _))|]. intros _ _ _. by apply cshifts_fail, later_duplicate.
Qed.

Lemma cshifts_next_inner o d keep : cshifts (next_inner o d keep) (next_inner o d keep) (λ x' x, x.1 = x'.1 ∧ x.2 = n + x'.2).
Proof.
  apply cshifts_stack. intros st. apply cshifts_pos. intros p. eapply cshifts_bind; [by apply cshifts_on_input, shifts_prepare_inner|].
  clear p. intros p q Hq; cbv beta in Hq. eapply cshifts_bind; [by apply cshifts_on_input, shifts_at|]. intros b' b ->.
  destruct b' as [b|]; [|apply cshifts_fail; destruct (bool_decide _); [done|by apply later_truncated]]. cbv zeta.
  destruct (Kind.is_end _).
  - destruct (negb _); [by apply cshifts_on_input, shifts_invalid|]. destruct (_ && _); [by apply cshifts_on_input, shifts_invalid|].
    eapply cshifts_bind; [apply (cshifts_modify (λ _, _))|]. intros _ _ _. eapply cshifts_bind; [apply (cshifts_set_pos (S p) (S q)); lia|]. intros _ _ _. by apply cshifts_ret.
  - destruct (_ && _); [by apply cshifts_fail, later_syntax|]. destruct (_ && _); [by apply cshifts_fail, later_syntax|].
    eapply cshifts_bind; [by apply cshifts_on_input, shifts_scan_value|]. intros [token' e'] [token e] [Ht He]. cbn in Ht, He. subst token'.
    eapply cshifts_bind; [by apply cshifts_take_name|]. intros _ _ _. eapply cshifts_bind; [apply (cshifts_modify (on_top _))|]. intros _ _ _.
    apply cshifts_bind with (R := λ _ _, True).
    { destruct (is_begin _); [apply (cshifts_modify (λ st, _ :: st))|by apply cshifts_ret]. }
    intros _ _ _. eapply cshifts_bind; [by apply cshifts_set_pos|]. intros _ _ _. by apply cshifts_ret.
Qed.

Lemma cshifts_next o d keep : cshifts (next o d keep) (next o d keep) (λ x' x, x.1 = x'.1 ∧ x.2 = n + x'.2).
Proof.
  intros i p st r' c1' Hn. unfold next. destruct (next_inner o d keep (MkCursor (dropn i) p st)) as [[r2' c2']|] eqn:E; [|done].
  destruct (cshifts_next_inner o d keep i p st r2' c2' Hn E) as (r & i1 & p1 & st1 & -> & -> & Hn1 & H). destruct r2' as [a'|e'], r as [a|e]; try done.
  - intros [= <- <-]. by eexists _, i1, p1, st1.
  - intros [= <- <-]. eexists _, i1, p1, st1. split_and!; [done..|]. cbn in *. by rewrite H, later_in_pointer.
Qed.

Lemma cshifts_skip_frames F' F o d : F' <= F → cshifts (skip_frames F' o d) (skip_frames F o d) (λ _ _, True).
Proof.
  revert F. induction F' as [|F' IH]; intros F HF; [by intros i p st r' c1' _ [=]|]. destruct F as [|F]; [lia|]. cbn [skip_frames].
  apply cshifts_stack. intros st. destruct (bool_decide _); [by apply cshifts_ret|]. eapply cshifts_bind; [apply cshifts_next|]. intros. apply IH. lia.
Qed.

Lemma shifts_value_tokens o d p q : q = n + p → shifts (value_tokens o d p) (value_tokens o d q) (λ x' x, x.1 = x'.1 ∧ x.2 = n + x'.2).
Proof.
  intros -> i r' i1' Hn. unfold value_tokens.
  assert (cshifts ('(first, _) ← next o d true; i ← gets input; skip_frames (input_fuel i) o d;; cursor ← gets pos; mret (first, cursor))
    ('(first, _) ← next o d true; i ← gets input; skip_frames (input_fuel i) o d;; cursor ← gets pos; mret (first, cursor)) (λ x' x, x.1 = x'.1 ∧ x.2 = n + x'.2)) as H.
  { eapply cshifts_bind; [apply cshifts_next|]. intros [first' x'] [first x] [Hf _]. cbn in Hf. subst first'.
    apply cshifts_input. intros j Hj. eapply cshifts_bind.
    - apply cshifts_skip_frames. unfold input_fuel. change (reader (dropn j)) with (reader j). change (i_bytes (dropn j)) with (drop n (i_bytes j)). rewrite length_drop. lia.
    - intros _ _ _. apply cshifts_pos. intros p1. by apply cshifts_ret. }
  specialize (H i p []). match goal with |- match ?x with Some _ => _ | None => _ end = _ → _ => destruct x as [[r2' c2']|] eqn:E; [|done] end. intros [= <- <-].
  destruct (H r2' c2' Hn eq_refl) as (r & i1 & p1 & st1 & E1 & -> & Hn1 & Hm). exists r, i1. by rewrite E1.
Qed.
End Shift.
