(* ===== verification/JsonCuts.v ===== *)
(** A decoder answers from the bytes alone: not from how its reader cuts them, nor from when
    it compacts its buffer. *)

From S2P Require Import Prelude Wtf8 BaseProto JsonState JsonWire JsonDecoder JsonLex JsonGrammar JsonNext JsonShift JsonCopy.
Import JsonState.Kind(Kind) JsonState.Token(Token).

Local Open Scope nat_scope.

(** ** Twins *)

(** What a decoder keeps outside its cursor and base. *)
Definition settings_of (d : Decoder) : Options * nat * nat * option nat := (options d, base_depth d, root_count d, previous_start d).

(** Two decoders that stand at the same place of [T]; the first [k] bytes of it have been
    read, or left the buffer, in both. *)
Record twin_at (T : bytes) (k n1 n2 : nat) (d1 d2 : Decoder) : Prop := {
  tw_bytes : all_bytes T;
  tw_views1 : views (drop n1 T) (k - n1) (input (cursor d1));
  tw_views2 : views (drop n2 T) (k - n2) (input (cursor d2));
  tw_pos : n1 + pos (cursor d1) = n2 + pos (cursor d2);
  tw_read : n1 + pos (cursor d1) <= k;
  tw_length : k <= length T;
  tw_base1 : base d1 = n1;
  tw_base2 : base d2 = n2;
  tw_stack : d_stack d1 = d_stack d2;
  tw_mark : noncanonical (input (cursor d1)) = noncanonical (input (cursor d2));
  tw_settings : settings_of d1 = settings_of d2;
  tw_names : stack_ok (allows_duplicates (options d1)) (d_stack d1);
}.

(** An input without its first bytes, with them. *)
Lemma whole_input T n k i : views (drop n T) (k - n) i → n <= k → k <= length T →
  ∃ I, views T k I ∧ dropn n I = i ∧ n <= length (i_bytes I) ∧ noncanonical I = noncanonical i.
Proof.
  intros [Hv He Hc Hb] Hn Hk. exists (i <| i_bytes := take n T ++ i_bytes i |>).
  assert (length (take n T) = n) as Hlen by (rewrite length_take; lia). split_and!.
  - split; cbn; [by rewrite <-app_assoc, Hv, take_drop|done|done|]. rewrite length_app. lia.
  - destruct i as [s b e nc]. change (MkInput s (drop n (take n T ++ b)) e nc = MkInput s b e nc). by rewrite drop_app_length'.
  - cbn. rewrite length_app. lia.
  - done.
Qed.

Lemma dropn_views T n k I : views T k I → n <= k → views (drop n T) (k - n) (dropn n I).
Proof.
  intros [Hv He Hc Hb] Hn. split; cbn; [|done|done|rewrite length_drop; lia]. by rewrite <-Hv, drop_app_le by lia.
Qed.

Lemma views_bound t k i : views t k i → k <= length t.
Proof. intros Hv. pose proof (views_length _ _ _ Hv). pose proof (v_buffered _ _ _ Hv). lia. Qed.

(** What a computation on the cursor does on the shorter input, from what it does on the whole. *)
Lemma cursor_shifted {A} n (m : C A) R T k p i st r P' st' k' nc (Q : result Error A → nat → list Frame → nat → bool → Prop) :
  cshifts n m m R → views (drop n T) (k - n) i → n + p <= k → k <= length T →
  (∀ I, views T k I → ∃ I', m (MkCursor I (n + p) st) = Some (r, MkCursor I' P' st') ∧ views T k' I' ∧ noncanonical I' = noncanonical I || nc) → k <= k' →
  csettles (drop n T) (k - n) p st m Q →
  ∃ r1 i' p1, m (MkCursor i p st) = Some (r1, MkCursor i' p1 st') ∧ P' = n + p1 ∧ views (drop n T) (k' - n) i'
    ∧ noncanonical i' = noncanonical i || nc ∧ matched n R r1 r.
Proof.
  intros Hm Hv Hp Hk HT Hkk (r0 & p0 & st0 & k0 & nc0 & H0 & _ & _). destruct (H0 i Hv) as (i0 & E0 & _ & _).
  destruct (whole_input T n k i Hv) as (I & HI & Ei & Hn & Hnc); [lia|done|]. subst i.
  destruct (Hm I p st _ _ Hn E0) as (r2 & I2 & p2 & st2 & E2 & [= -> -> ->] & Hn2 & Hmatch).
  destruct (HT I HI) as (I3 & E3 & HI3 & Hnc3). rewrite E3 in E2. injection E2 as -> -> -> ->.
  exists r0, (dropn n I2), p2. split_and!; [done|done| |by rewrite <-Hnc|done]. apply dropn_views; [done|lia].
Qed.

(** A computation on the cursor does the same in both. *)
Lemma twin_cursor {A} (m : C A) (R : nat → A → A → Prop) (post : result Error A → nat → Prop) T k n1 n2 d1 d2 :
  twin_at T k n1 n2 d1 d2 → (∀ n, cshifts n m m (R n)) →
  (∀ t k p st, all_bytes t → p <= k → k <= length t → stack_ok (allows_duplicates (options d1)) st →
    csettles t k p st m (λ r p' st' k' nc, p' <= k' ∧ stack_ok (allows_duplicates (options d1)) st' ∧ post r k')) →
  ∃ r r1 r2 d1' d2' k', on_cursor m d1 = Some (r1, d1') ∧ on_cursor m d2 = Some (r2, d2') ∧ twin_at T k' n1 n2 d1' d2'
    ∧ matched n1 (R n1) r1 r ∧ matched n2 (R n2) r2 r ∧ post r k'
    ∧ settings_of d1' = settings_of d1 ∧ settings_of d2' = settings_of d2 ∧ k <= k'.
Proof.
  intros Htw Hm Hs. destruct d1 as [[i1 p1 st] b1 o rc ps bd], d2 as [[i2 p2 st2] b2 o2 rc2 ps2 bd2].
  destruct Htw as [Hb Hv1 Hv2 Hp Hr Hl E1 E2 Est Hnc Eset Hst]. unfold d_stack in *. cbn in *. subst b1 b2 st2. injection Eset as <- <- <- <-.
  destruct (Hs T k (n1 + p1) st Hb Hr Hl Hst) as (r & P' & st' & k' & nc & HT & Hk & HP & Hst' & Hpost).
  destruct (cursor_shifted n1 m (R n1) T k p1 i1 st r P' st' k' nc _ (Hm n1) Hv1 Hr Hl HT Hk
    (Hs (drop n1 T) (k - n1) p1 st ltac:(by apply Forall_drop) ltac:(lia) ltac:(rewrite length_drop; lia) Hst)) as (r1 & i1' & p1' & F1 & HP1 & Hv1' & N1 & M1).
  rewrite Hp in HT, Hr.
  destruct (cursor_shifted n2 m (R n2) T k p2 i2 st r P' st' k' nc _ (Hm n2) Hv2 Hr Hl HT Hk
    (Hs (drop n2 T) (k - n2) p2 st ltac:(by apply Forall_drop) ltac:(lia) ltac:(rewrite length_drop; lia) Hst)) as (r2 & i2' & p2' & F2 & HP2 & Hv2' & N2 & M2).
  exists r, r1, r2. eexists _, _, k'. unfold on_cursor. cbn [cursor]. rewrite F1, F2. split; [done|]. split; [done|]. split_and!; [|done..].
  pose proof (views_bound _ _ _ Hv1') as Hbound. rewrite length_drop in Hbound.
  split; unfold d_stack; cbn; try done; try lia. by rewrite N1, N2, Hnc.
Qed.

Lemma compact_views T k n d : views (drop n T) (k - n) (input (cursor d)) → n + pos (cursor d) <= k → base d = n →
  ∃ d' n', compact d = Some (Ok tt, d') ∧ views (drop n' T) (k - n') (input (cursor d')) ∧ n' + pos (cursor d') = n + pos (cursor d) ∧ base d' = n'
    ∧ d_stack d' = d_stack d ∧ noncanonical (input (cursor d')) = noncanonical (input (cursor d)) ∧ settings_of d' = settings_of d.
Proof.
  intros Hv Hp Hb. unfold compact, modify. cbv zeta.
  destruct ((COMPACT_AT <=? Z.of_nat (pos (cursor d)))%Z && negb (eof (input (cursor d)))); [|by eexists d, n].
  eexists _, (n + pos (cursor d)). split; [done|]. split_and!; cbn; try done; try lia.
  rewrite <-drop_drop. replace (k - (n + pos (cursor d))) with (k - n - pos (cursor d)) by lia. apply (dropn_views (drop n T)); [done|lia].
Qed.

Lemma compact_twin T k n1 n2 d1 d2 : twin_at T k n1 n2 d1 d2 →
  ∃ d1' d2' n1' n2', compact d1 = Some (Ok tt, d1') ∧ compact d2 = Some (Ok tt, d2') ∧ twin_at T k n1' n2' d1' d2'.
Proof.
  intros [Hb Hv1 Hv2 Hp Hr Hl E1 E2 Est Hnc Eset Hst].
  destruct (compact_views T k n1 d1 Hv1 Hr E1) as (d1' & n1' & F1 & Hv1' & Hp1 & B1 & S1 & N1 & O1).
  destruct (compact_views T k n2 d2 Hv2 ltac:(lia) E2) as (d2' & n2' & F2 & Hv2' & Hp2 & B2 & S2 & N2 & O2).
  exists d1', d2', n1', n2'. split_and!; [done..|]. pose proof O1 as [= Oo _ _ _].
  split; try done; try lia; try congruence.
Qed.

(** ** Requests *)

(** What can be asked of a decoder, and what it answers. *)
Inductive Request := ReadToken | PeekKind | NextLocation | ReadValue | SkipValue | Finish.
Inductive Answer := AToken (t : Token) | AKind (k : Kind) | ALocation (offset : nat) (pointer : bytes) | AValue (b : bytes) | ADone.

Definition ask (r : Request) : D Answer :=
  match r with
  | ReadToken => t ← read_token; mret (AToken t)
  | PeekKind => k ← peek_kind; mret (AKind k)
  | NextLocation => '(o, p) ← next_location; mret (ALocation o p)
  | ReadValue => b ← read_value; mret (AValue b)
  | SkipValue => skip_value;; mret ADone
  | Finish => finish;; mret ADone
  end.

(** The answer, or the error, and all that the decoder tells of itself afterwards. *)
Record Report := MkReport {
  answer : result Error Answer;
  r_offset : nat;
  r_pointer : bytes;
  r_depth_length : nat * nat;
  r_canonical : bool;
}.

Fixpoint serve (requests : list Request) (d : Decoder) : option (list Report) :=
  match requests with
  | [] => Some []
  | r :: requests =>
      match ask r d with
      | Some (a, d) => (λ l, MkReport a (input_offset d) (stack_pointer d) (depth_length d) (is_canonical d) :: l) <$> serve requests d
      | None => None
      end
  end.

Definition twin (d1 d2 : Decoder) : Prop := ∃ T k n1 n2, twin_at T k n1 n2 d1 d2.

(** [m] answers alike on twins, which it leaves as twins. *)
Definition agrees {A} (m : D A) : Prop := ∀ d1 d2, twin d1 d2 →
  ∃ r d1' d2', m d1 = Some (r, d1') ∧ m d2 = Some (r, d2') ∧ twin d1' d2'.

Lemma agrees_map {A} (m : D A) (f : A → Answer) : agrees m → agrees (a ← m; mret (f a)).
Proof.
  intros Hm d1 d2 Hd. destruct (Hm d1 d2 Hd) as (r & d1' & d2' & E1 & E2 & Hd'). unfold mbind, st_bind. rewrite E1, E2.
  destruct r as [a|e]; by eexists _, d1', d2'.
Qed.

Lemma twin_reports d1 d2 : twin d1 d2 →
  input_offset d1 = input_offset d2 ∧ stack_pointer d1 = stack_pointer d2 ∧ depth_length d1 = depth_length d2 ∧ is_canonical d1 = is_canonical d2.
Proof.
  intros (T & k & n1 & n2 & [Hb Hv1 Hv2 Hp Hr Hl E1 E2 Est Hnc Eset Hst]). injection Eset as _ _ Erc _.
  unfold input_offset, stack_pointer, depth_length, is_canonical. rewrite E1, E2, Est, Hnc, Erc. by split_and!.
Qed.

Lemma later_both n1 n2 (e e1 e2 : Error) : e = absolute_error n1 e1 → e = absolute_error n2 e2 → absolute_error n1 e1 = absolute_error n2 e2.
Proof. congruence. Qed.

Lemma twin_replace T k n1 n2 d1 d2 d1' d2' :
  twin_at T k n1 n2 d1 d2 → cursor d1' = cursor d1 → cursor d2' = cursor d2 → base d1' = base d1 → base d2' = base d2 →
  options d1' = options d1 → settings_of d1' = settings_of d2' → twin_at T k n1 n2 d1' d2'.
Proof. intros [] C1 C2 B1 B2 Ho Hs. split; unfold d_stack in *; rewrite ?C1, ?C2, ?B1, ?B2, ?Ho; done. Qed.

(** *** A token *)

Lemma next_settled o d keep t k p st : all_bytes t → p <= k → stack_ok (allows_duplicates o) st →
  csettles t k p st (next o d keep) (λ r p' st' k' nc, p' <= k' ∧ stack_ok (allows_duplicates o) st' ∧ True).
Proof.
  intros Ht Hp Hst. apply cs_next; [done..|]. intros r p' st' k' nc Hk Hp' Hpost. split_and!; [done| |done]. destruct r as [[token start]|e].
  - destruct Hpost as (full & [_ _ Hg _ _ _ _]). by eapply grammar_step_ok.
  - destruct Hpost as [_ Hs]. by eapply stack_sim_ok.
Qed.

Lemma agrees_read_token : agrees read_token.
Proof.
  intros d1 d2 (T & k & n1 & n2 & Hd). destruct (compact_twin _ _ _ _ _ _ Hd) as (e1 & e2 & m1 & m2 & C1 & C2 & He).
  pose proof (tw_settings _ _ _ _ _ _ He) as [= Ho Hbd Hrc Hps].
  destruct (twin_cursor (next (options e1) (base_depth e1) true) _ (λ _ _, True) _ _ _ _ _ _ He (λ n, cshifts_next n _ _ _))
    as (r & r1 & r2 & f1 & f2 & k' & E1 & E2 & Hf & M1 & M2 & _ & S1 & S2); [intros; by apply next_settled|].
  assert (on_cursor (next (options e2) (base_depth e2) true) e2 = Some (r2, f2)) as E2' by (by rewrite <-Ho, <-Hbd).
  destruct (read_token_steps _ _ _ _ C1 E1) as (g1 & F1 & Cg1 & Bg1 & Sg1 & Pg1 & Rg1).
  destruct (read_token_steps _ _ _ _ C2 E2') as (g2 & F2 & Cg2 & Bg2 & Sg2 & Pg2 & Rg2).
  pose proof (tw_base1 _ _ _ _ _ _ Hf) as B1. pose proof (tw_base2 _ _ _ _ _ _ Hf) as B2.
  pose proof (tw_settings _ _ _ _ _ _ Hf) as Sf. pose proof (tw_stack _ _ _ _ _ _ He) as Ste.
  injection Sg1 as Sg1a Sg1b. injection Sg2 as Sg2a Sg2b. injection Sf as Sfa Sfb Sfc Sfd.
  assert (twin g1 g2) as Hg.
  { exists T, k', m1, m2. eapply twin_replace; [exact Hf|done..|]. unfold settings_of. rewrite Sg1a, Sg1b, Sg2a, Sg2b, Pg1, Pg2, Rg1, Rg2, Ste, Sfa, Sfb, Sfc, Sfd.
    destruct r as [[t s]|e], r1 as [[t1 s1]|x1], r2 as [[t2 s2]|x2]; try done. cbn in M1, M2. rewrite B1, B2. do 2 f_equal. lia. }
  eexists _, g1, g2. split; [exact F1|]. split; [|done]. rewrite F2. do 2 f_equal.
  destruct r as [[t s]|e], r1 as [[t1 s1]|x1], r2 as [[t2 s2]|x2]; try done; cbn in M1, M2; [destruct M1, M2; congruence|].
  rewrite B1, B2. f_equal. congruence.
Qed.

(** *** The next position *)

Lemma on_cursor_bind {A B} (m : C A) (f : A → C B) d : (a ← on_cursor m; on_cursor (f a)) d = on_cursor (m ≫= f) d.
Proof. unfold on_cursor, mbind, st_bind. destruct (m (cursor d)) as [[[a|e] c]|]; [|done..]. cbn. by destruct (f a c) as [[]|]. Qed.

Definition prepared : C nat := p ← gets pos; st ← gets stack; on_input (prepare p st).

Lemma d_prepare_prepared d : d_prepare d = on_cursor prepared d.
Proof. done. Qed.

Lemma cshifts_prepared n : cshifts n prepared prepared (λ p q, q = n + p).
Proof. apply cshifts_pos. intros p. apply cshifts_stack. intros st. by apply cshifts_on_input, shifts_prepare. Qed.

Lemma prepared_settled dups t k p st Q : p <= k → k <= length t → stack_ok dups st →
  (∀ r k' nc, k <= k' → match r with Ok i => i <= k' ∧ i <= length t | Err _ => True end → Q r p st k' nc) → csettles t k p st prepared Q.
Proof.
  intros Hp Hk Hst HQ. apply cs_gets_pos, cs_gets_stack, cs_on_input, settles_map_err, settles_prepare.
  - intros k' i nc Hk' Hi Hpos. apply HQ; [done|]. split; [apply Hi; lia|]. eapply position_of_bound; [|done]. lia.
  - intros k' e nc Hk' _. by apply HQ.
Qed.

Lemma twin_same_settings T k n1 n2 d1 d2 : twin_at T k n1 n2 d1 d2 → options d1 = options d2 ∧ base_depth d1 = base_depth d2 ∧ root_count d1 = root_count d2 ∧ previous_start d1 = previous_start d2.
Proof. intros [_ _ _ _ _ _ _ _ _ _ [= ? ? ? ?] _]. by split_and!. Qed.

Lemma agrees_peek_kind : agrees peek_kind.
Proof.
  intros d1 d2 (T & k & n1 & n2 & Hd). pose proof (twin_same_settings _ _ _ _ _ _ Hd) as (Ho & Hbd & Hrc & _).
  assert (twin_at T k n1 n2 (d1 <| previous_start := None |>) (d2 <| previous_start := None |>)) as He.
  { eapply twin_replace; [exact Hd|done..|]. unfold settings_of. cbn. congruence. }
  unfold peek_kind. set (e1 := d1 <| previous_start := None |>) in *. set (e2 := d2 <| previous_start := None |>) in *.
  pose (m := p ← prepared; on_input (byte_at p)).
  destruct (twin_cursor m (λ _ b' b, b = b') (λ _ _, True) _ _ _ _ _ _ He) as (r & r1 & r2 & f1 & f2 & k' & E1 & E2 & Hf & M1 & M2 & _).
  - intros n. eapply cshifts_bind; [apply cshifts_prepared|]. intros p q Hq. apply cshifts_on_input, shifts_at. exact Hq.
  - intros t k' p st Ht Hp Hk' Hst. apply cs_bind. eapply prepared_settled; [done..|]. intros [i|e] k2 nc Hk2 Hi; [|split_and!; [lia|done|done]].
    apply cs_on_input, settles_at. intros k3 Hk3 _. split_and!; [lia|done|done].
  - assert (∀ e, (p ← d_prepare; on_cursor (on_input (byte_at p))) e = on_cursor m e) as Hm.
    { intros e. transitivity ((p ← on_cursor prepared; on_cursor (on_input (byte_at p))) e); [done|apply on_cursor_bind]. }
    rewrite !Hm, E1, E2. assert (twin f1 f2) as Hff by (by exists T, k', n1, n2).
    destruct r as [b|e], r1 as [b1|x1], r2 as [b2|x2]; try done; cbn in M1, M2; [subst b1 b2; destruct b|]; by eexists _, f1, f2.
Qed.

Lemma agrees_next_location : agrees next_location.
Proof.
  intros d1 d2 (T & k & n1 & n2 & Hd).
  destruct (twin_cursor prepared (λ n p q, q = n + p) (λ _ _, True) _ _ _ _ _ _ Hd cshifts_prepared) as (r & r1 & r2 & f1 & f2 & k' & E1 & E2 & Hf & M1 & M2 & _).
  { intros. eapply prepared_settled; [done..|]. intros r k' nc Hk' Hi. split_and!; [lia|done|done]. }
  unfold next_location, absolute, mbind, st_bind. rewrite (d_prepare_prepared d1), (d_prepare_prepared d2), E1, E2. assert (twin f1 f2) as Hff by (by exists T, k', n1, n2).
  pose proof (tw_base1 _ _ _ _ _ _ Hf) as B1. pose proof (tw_base2 _ _ _ _ _ _ Hf) as B2. pose proof (tw_stack _ _ _ _ _ _ Hf) as Hs.
  destruct r as [p|e], r1 as [p1|x1], r2 as [p2|x2]; try done; cbn in M1, M2; unfold gets, mret, st_ret, id.
  - eexists _, f1, f2. split; [done|]. split; [|done]. rewrite B1, B2, Hs. do 4 f_equal. lia.
  - eexists _, f1, f2. split; [done|]. split; [|done]. rewrite B1, B2. do 3 f_equal. congruence.
Qed.

(** *** Nothing behind the value *)

Definition finished : C () := p ← gets pos; q ← on_input (space p); b ← on_input (byte_at q);
  match b with Some _ => on_input (fail_invalid q [] (bs "after top-level value")) | None => mret tt end.

(** White space and the byte behind it are read without an error. *)
Lemma finish_finished t k d : views t k (input (cursor d)) → finish d = absolute (on_cursor finished) d.
Proof.
  intros Hv. destruct (settles_space t k (pos (cursor d)) (λ r _ _, ∃ q, r = Ok q)) as (r1 & k1 & nc1 & H1 & _ & q & ->); [by eexists|].
  destruct (H1 _ Hv) as (i1 & E1 & Hv1 & _). destruct (settles_at t k1 q (λ r _ _, ∃ b, r = Ok b)) as (r2 & k2 & nc2 & H2 & _ & b & ->); [by eexists|].
  destruct (H2 _ Hv1) as (i2 & E2 & _ & _). destruct d as [[i p st] n o rc ps bd]. cbn in E1.
  unfold finish, finished, absolute, on_cursor, on_input, mbind, st_bind, gets. cbn -[space byte_at fail_invalid absolute_error]. rewrite E1. cbn -[space byte_at fail_invalid absolute_error].
  rewrite E2. by destruct b.
Qed.

Lemma agrees_finish : agrees finish.
Proof.
  intros d1 d2 (T & k & n1 & n2 & Hd). rewrite (finish_finished _ _ d1 (tw_views1 _ _ _ _ _ _ Hd)), (finish_finished _ _ d2 (tw_views2 _ _ _ _ _ _ Hd)).
  destruct (twin_cursor finished (λ _ _ _, True) (λ _ _, True) _ _ _ _ _ _ Hd) as (r & r1 & r2 & f1 & f2 & k' & E1 & E2 & Hf & M1 & M2 & _).
  - intros n. apply cshifts_pos. intros p. eapply cshifts_bind; [by apply cshifts_on_input, shifts_space|]. intros q q' Hq; cbv beta in Hq.
    eapply cshifts_bind; [by apply cshifts_on_input, shifts_at|]. intros b' b ->. destruct b'; [by apply cshifts_on_input, shifts_invalid|by apply cshifts_ret].
  - intros t k' p st Ht Hp Hk' Hst. apply cs_gets_pos, cs_bind, cs_on_input, settles_space. intros k2 Hk2 _. apply cs_bind, cs_on_input, settles_at.
    intros k3 Hk3 Hn. destruct (t !! _) eqn:Eb; [|apply cs_ret; split_and!; [lia|done|done]]. apply cs_on_input.
    apply settles_invalid; [|split_and!; [lia|done|done]]. apply lookup_lt_Some in Eb. unfold near in Hn. lia.
  - assert (twin f1 f2) as Hff by (by exists T, k', n1, n2). unfold absolute. rewrite E1, E2.
    pose proof (tw_base1 _ _ _ _ _ _ Hf) as B1. pose proof (tw_base2 _ _ _ _ _ _ Hf) as B2.
    destruct r as [p|e], r1 as [p1|x1], r2 as [p2|x2]; try done; cbn in M1, M2.
    + destruct p1, p2. by eexists _, f1, f2.
    + eexists _, f1, f2. split; [done|]. split; [|done]. rewrite B1, B2. do 3 f_equal. congruence.
Qed.

(** *** A value *)

Definition valued (o : Options) (bd : nat) : C (nat * (Token * nat)) :=
  start ← prepared; st ← gets stack;
  x ← map_err (value_error st start) (on_input (value_tokens o (bd + length st) start));
  mret (start, x).

(** What follows in [read_value_range]. *)
Definition take_range (x : nat * (Token * nat)) : D (nat * nat) :=
  let '(start, (first, end_)) := x in
  take_value first start;;
  on_cursor (set_pos end_);;
  modify (λ d, d <| previous_start := Some (base d + start) |>);;
  mret (start, end_).

Lemma read_value_range_steps d : read_value_range d =
  (compact;; x ← (λ d, absolute (on_cursor (valued (options d) (base_depth d))) d); take_range x) d.
Proof.
  unfold read_value_range, mbind, st_bind. destruct (compact d) as [[[[]|e] d1]|]; [|done..].
  unfold absolute, valued. rewrite (d_prepare_prepared d1). unfold on_cursor at 1 2 3 4, mbind, st_bind. 
  destruct (prepared (cursor d1)) as [[[start|e] c]|]; [|done..]. unfold gets at 1 2, id, map_err, on_input, on_cursor, gets.
  change (cursor (d1 <| cursor := c |>)) with c. change (d_stack (d1 <| cursor := c |>)) with (stack c).
  change (options (d1 <| cursor := c |>)) with (options d1). change (base_depth (d1 <| cursor := c |>)) with (base_depth d1).
  destruct (value_tokens _ _ start (input c)) as [[[[first end_]|e] i]|]; done.
Qed.

Lemma value_error_later n st p q e : q = n + p → value_error st q (absolute_error n e) = absolute_error n (value_error st p e).
Proof.
  intros Hq. unfold value_error. destruct e; try apply later_in_pointer. unfold absolute_error at 1. cbn [map_syntax]. destruct (bool_decide _); [done|].
  rewrite <-later_in_pointer. f_equal. by apply later_truncated.
Qed.

Lemma map_err_on_input {A} f (m : J A) c : map_err f (on_input m) c = on_input (map_err f m) c.
Proof. unfold map_err, on_input. by destruct (m (input c)) as [[[]]|]. Qed.

Lemma cshifts_valued n o bd : cshifts n (valued o bd) (valued o bd) (λ x' x, x.1 = n + x'.1 ∧ x.2.1 = x'.2.1 ∧ x.2.2 = n + x'.2.2).
Proof.
  eapply cshifts_bind; [apply cshifts_prepared|]. intros p q Hq; cbv beta in Hq. apply cshifts_stack. intros st.
  eapply cshifts_bind with (R := λ x' x, x.1 = x'.1 ∧ x.2 = n + x'.2).
  - intros i p0 st0 r' c1' Hn. rewrite !map_err_on_input. apply cshifts_on_input; [|done].
    apply shifts_map_err; [intros e; by apply value_error_later|by apply shifts_value_tokens].
  - intros [f' e'] [f e] [Hf He]. cbn in Hf, He. apply cshifts_ret. by split_and!.
Qed.

Lemma cs_ext {A} t k p st (m m' : C A) Q : (∀ c, m c = m' c) → csettles t k p st m Q → csettles t k p st m' Q.
Proof. intros Hm (r & p' & st' & k' & nc & H & HQ). exists r, p', st', k', nc. split; [|done]. intros i. rewrite <-Hm. apply H. Qed.

Definition range_ok (r : result Error (nat * (Token * nat))) (k : nat) : Prop :=
  match r with Ok (start, (_, end_)) => start <= end_ ∧ end_ <= k | Err _ => True end.

Lemma valued_settled o bd t k p st : all_bytes t → p <= k → k <= length t → stack_ok (allows_duplicates o) st →
  csettles t k p st (valued o bd) (λ r p' st' k' nc, p' <= k' ∧ stack_ok (allows_duplicates o) st' ∧ range_ok r k').
Proof.
  intros Ht Hp Hk Hst. apply cs_bind. eapply prepared_settled; [done..|]. intros [i|e] k2 nc Hk2 Hi; [|split_and!; [lia|done|done]]. destruct Hi as [Hi Hil].
  apply cs_gets_stack, cs_bind. eapply cs_ext; [intros c; symmetry; apply map_err_on_input|].
  apply cs_on_input, settles_map_err, settles_value_tokens; [done|done|done| |].
  - intros f e k3 nc3 Hk3 He (Hle & _ & _). apply cs_ret. split_and!; [lia|done|by split].
  - intros e k3 nc3 Hk3. split_and!; [lia|done|done].
Qed.

(** Another stack in both. *)
Definition restack (st : list Frame) (d : Decoder) : Decoder := d <| cursor := (cursor d) <| stack := st |> |>.

Lemma twin_restack T k n1 n2 d1 d2 st : twin_at T k n1 n2 d1 d2 → stack_ok (allows_duplicates (options d1)) st → twin_at T k n1 n2 (restack st d1) (restack st d2).
Proof. intros [] Hst. by split. Qed.

Lemma count_value_restack d : on_cursor count_value d = Some (Ok tt, restack (on_top (λ f, f <| count := S (count f) |>) (d_stack d)) d).
Proof. done. Qed.

Lemma take_value_twin T k n1 n2 d1 d2 first s1 s2 : twin_at T k n1 n2 d1 d2 → n1 + s1 = n2 + s2 →
  ∃ r d1' d2', take_value first s1 d1 = Some (r, d1') ∧ take_value first s2 d2 = Some (r, d2') ∧ twin_at T k n1 n2 d1' d2'.
Proof.
  intros Htw Hs. pose proof (tw_base1 _ _ _ _ _ _ Htw) as B1. pose proof (tw_base2 _ _ _ _ _ _ Htw) as B2.
  pose proof (twin_same_settings _ _ _ _ _ _ Htw) as (Ho & Hbd & Hrc & Hps). pose proof (tw_names _ _ _ _ _ _ Htw) as Hst.
  unfold take_value, mbind, st_bind, gets, id. rewrite <-(tw_stack _ _ _ _ _ _ Htw), <-Ho, B1, B2, Hs.
  destruct (d_stack d1) as [|parent rest] eqn:Est.
  { eexists _, _, _. split; [done|]. split; [done|]. eapply twin_replace; [exact Htw|done..|]. unfold settings_of. cbn. congruence. }
  pose proof (on_top_count_sim _ _ _ Hst) as Hcount.
  destruct (expects_name parent).
  2: { rewrite !count_value_restack, <-(tw_stack _ _ _ _ _ _ Htw), Est. eexists _, _, _. split; [done|]. split; [done|]. by apply twin_restack. }
  destruct first as [| |text| | | | |]; try (by eexists _, d1, d2).
  apply Forall2_cons in Hst as [Hf Hrest].
  destruct (name_step_sim (allows_duplicates (options d1)) _ text parent parent (or_intror eq_refl) Hf) as [H1 H2]. unfold name_step in H1, H2.
  destruct (if allows_duplicates (options d1) then _ else _) as [[] ns] eqn:Ei.
  - destruct (H1 _ eq_refl) as (g & [= <-] & Hg). eexists _, _, _. split; [done|]. split; [done|].
    apply (twin_restack _ _ _ _ _ _ (_ :: rest) Htw). constructor; [|done]. destruct Hg. by split.
  - destruct (H2 eq_refl eq_refl) as (_ & Hd & m1 & m2 & E1 & E2 & Hsim & _). rewrite Hd, E1 in Ei. injection Ei as <-.
    eexists _, _, _. split; [done|]. split; [done|]. apply (twin_restack _ _ _ _ _ _ (parent <| names := m1 |> :: rest) Htw).
    apply (stack_sim_ok _ (parent :: rest)). by constructor.
Qed.

Lemma set_pos_twin T k n1 n2 d1 d2 p1 p2 : twin_at T k n1 n2 d1 d2 → n1 + p1 = n2 + p2 → n1 + p1 <= k →
  twin_at T k n1 n2 (d1 <| cursor := (cursor d1) <| pos := p1 |> |>) (d2 <| cursor := (cursor d2) <| pos := p2 |> |>).
Proof. intros [] Hp Hk. by split. Qed.

(** The range of the value that is read, in both buffers. *)
Definition same_range (k n1 n2 : nat) (r1 r2 : result Error (nat * nat)) : Prop :=
  match r1, r2 with
  | Ok (s1, e1), Ok (s2, e2) => n1 + s1 = n2 + s2 ∧ n1 + e1 = n2 + e2 ∧ s1 <= e1 ∧ n1 + e1 <= k
  | Err e1, Err e2 => e1 = e2
  | _, _ => False
  end.

Lemma take_range_twin T k n1 n2 d1 d2 s1 s2 f e1 e2 : twin_at T k n1 n2 d1 d2 → n1 + s1 = n2 + s2 → n1 + e1 = n2 + e2 → s1 <= e1 → n1 + e1 <= k →
  ∃ r1 r2 d1' d2', take_range (s1, (f, e1)) d1 = Some (r1, d1') ∧ take_range (s2, (f, e2)) d2 = Some (r2, d2') ∧ twin_at T k n1 n2 d1' d2' ∧ same_range k n1 n2 r1 r2.
Proof.
  intros Htw Hs He Hle Hk. destruct (take_value_twin _ _ _ _ _ _ f _ _ Htw Hs) as (r & g1 & g2 & E1 & E2 & Hg).
  unfold take_range, mbind, st_bind. rewrite E1, E2. destruct r as [[]|e]; [|by eexists _, _, g1, g2].
  pose proof (set_pos_twin _ _ _ _ _ _ _ _ Hg He Hk) as Hg'. eexists _, _, _, _. split; [done|]. split; [done|]. split; [|done].
  eapply twin_replace; [exact Hg'|done..|]. pose proof (twin_same_settings _ _ _ _ _ _ Hg') as (Ho & Hbd & Hrc & _). unfold settings_of. cbn.
  pose proof (tw_base1 _ _ _ _ _ _ Hg) as B1. pose proof (tw_base2 _ _ _ _ _ _ Hg) as B2. rewrite B1, B2, Hs. cbn in Ho, Hbd, Hrc. congruence.
Qed.

Lemma read_value_range_twin d1 d2 : twin d1 d2 →
  ∃ T k n1 n2 r1 r2 d1' d2', read_value_range d1 = Some (r1, d1') ∧ read_value_range d2 = Some (r2, d2') ∧ twin_at T k n1 n2 d1' d2' ∧ same_range k n1 n2 r1 r2.
Proof.
  intros (T & k & n1 & n2 & Hd). destruct (compact_twin _ _ _ _ _ _ Hd) as (g1 & g2 & m1 & m2 & C1 & C2 & Hg).
  pose proof (twin_same_settings _ _ _ _ _ _ Hg) as (Ho & Hbd & _ & _).
  destruct (twin_cursor (valued (options g1) (base_depth g1)) _ range_ok _ _ _ _ _ _ Hg (λ n, cshifts_valued n _ _))
    as (r & r1 & r2 & f1 & f2 & k' & E1 & E2 & Hf & M1 & M2 & Hrange & _); [intros; by apply valued_settled|].
  rewrite !read_value_range_steps. unfold mbind, st_bind. rewrite C1, C2. unfold absolute. rewrite <-Ho, <-Hbd, E1, E2.
  pose proof (tw_base1 _ _ _ _ _ _ Hf) as B1. pose proof (tw_base2 _ _ _ _ _ _ Hf) as B2.
  destruct r as [[s [f e]]|e], r1 as [[s1 [t1 x1]]|x1], r2 as [[s2 [t2 x2]]|x2]; try done; cbn in M1, M2.
  - destruct M1 as (M1 & <- & M1'), M2 as (M2 & <- & M2'), Hrange as [R1 R2].
    destruct (take_range_twin _ _ _ _ _ _ s1 s2 f x1 x2 Hf) as (r1 & r2 & h1 & h2 & F1 & F2 & Hh & Hr); [lia..|].
    exists T, k', m1, m2, r1, r2, h1, h2. by rewrite F1, F2.
  - eexists T, k', m1, m2, _, _, f1, f2. split; [done|]. split; [done|]. split; [done|]. cbn. rewrite B1, B2. congruence.
Qed.

Lemma buffered_slice T k n i s e : views (drop n T) (k - n) i → s <= e → n + e <= k →
  take (e - s) (drop s (i_bytes i)) = take (e - s) (drop (n + s) T).
Proof.
  intros Hv Hs He. rewrite <-drop_drop, <-(v_text _ _ _ Hv). pose proof (v_buffered _ _ _ Hv). rewrite drop_app_le by lia.
  rewrite take_app_le; [done|]. rewrite length_drop. lia.
Qed.

Lemma agrees_read_value : agrees read_value.
Proof.
  intros d1 d2 Hd. destruct (read_value_range_twin _ _ Hd) as (T & k & n1 & n2 & r1 & r2 & g1 & g2 & E1 & E2 & Hg & Hr).
  unfold read_value, mbind, st_bind. rewrite E1, E2. assert (twin g1 g2) as Hgg by (by exists T, k, n1, n2).
  destruct r1 as [[s1 e1]|x1], r2 as [[s2 e2]|x2]; try done; cbn in Hr.
  - destruct Hr as (Hs & He & Hle & Hk). eexists _, g1, g2. split; [done|]. split; [|done]. unfold gets, mret, st_ret. do 3 f_equal.
    rewrite (buffered_slice T k n1 _ s1 e1 (tw_views1 _ _ _ _ _ _ Hg)), (buffered_slice T k n2 _ s2 e2 (tw_views2 _ _ _ _ _ _ Hg)) by lia. f_equal; [lia|f_equal; lia].
  - subst x2. by eexists _, g1, g2.
Qed.

Lemma agrees_skip_value : agrees skip_value.
Proof.
  intros d1 d2 Hd. destruct (read_value_range_twin _ _ Hd) as (T & k & n1 & n2 & r1 & r2 & g1 & g2 & E1 & E2 & Hg & Hr).
  unfold skip_value, mbind, st_bind. rewrite E1, E2. assert (twin g1 g2) as Hgg by (by exists T, k, n1, n2).
  destruct r1 as [[s1 e1]|x1], r2 as [[s2 e2]|x2]; try done; [|cbn in Hr; subst x2]; by eexists _, g1, g2.
Qed.

(** *** All requests *)

Lemma agrees_ask r : agrees (ask r).
Proof.
  destruct r; cbn [ask].
  - apply agrees_map, agrees_read_token.
  - apply agrees_map, agrees_peek_kind.
  - intros d1 d2 Hd. destruct (agrees_next_location d1 d2 Hd) as (r & g1 & g2 & E1 & E2 & Hg). unfold mbind, st_bind. rewrite E1, E2.
    destruct r as [[o p]|e]; by eexists _, g1, g2.
  - apply agrees_map, agrees_read_value.
  - apply (agrees_map skip_value (λ _, ADone)), agrees_skip_value.
  - apply (agrees_map finish (λ _, ADone)), agrees_finish.
Qed.

Lemma serve_twins requests d1 d2 : twin d1 d2 → is_Some (serve requests d1) ∧ serve requests d1 = serve requests d2.
Proof.
  revert d1 d2. induction requests as [|r requests IH]; intros d1 d2 Hd; [by split; [eexists|]|]. cbn [serve].
  destruct (agrees_ask r d1 d2 Hd) as (a & g1 & g2 & -> & -> & Hg). destruct (IH g1 g2 Hg) as [[l El] E]. rewrite <-E, El.
  destruct (twin_reports _ _ Hg) as (-> & -> & -> & ->). split; [by eexists|done].
Qed.

(** [C2] Whatever is asked of a decoder, in whatever order and on whatever bytes, it answers; and
    the answers, the errors with their offsets and pointers, and the place, depth and mark that
    it reports after each depend on the bytes alone: a reader that cuts the same bytes in
    another way, or is interrupted, gives the same, although the buffers differ and are
    compacted at other times. *)
Theorem decoder_ignores_cuts requests s1 s2 o :
  content s1 = content s2 → Forall calm_event (events s1) → Forall calm_event (events s2) → all_bytes (content s1) →
  is_Some (serve requests (with_options s1 o)) ∧ serve requests (with_options s1 o) = serve requests (with_options s2 o).
Proof.
  intros Hc H1 H2 Hb. apply serve_twins. exists (content s1), 0, 0, 0.
  pose proof (views_new s1 H1) as V1. pose proof (views_new s2 H2) as V2. rewrite <-Hc in V2. split; done || (cbn; lia).
Qed.

(** A text of two values, cut byte by byte and with interruptions. *)
Definition cut_text : bytes := map (λ b, if Z.eqb b 39 then 34%Z else b) (bs " {'a' : [1, 'x\ud83d\ude00'], 'a':2 } 7").
Definition cut_requests : list Request := [PeekKind; ReadToken; ReadToken; NextLocation; ReadValue; ReadToken; SkipValue; Finish; ReadToken].

Lemma decoder_ignores_cuts_witness :
  let s1 := MkSource cut_text [] in
  let s2 := MkSource cut_text [UpTo 1; Raise Interrupted; UpTo 2; UpTo 1] in
  content s1 = content s2 ∧
  is_Some (serve cut_requests (with_options s1 options_default))
  ∧ serve cut_requests (with_options s1 options_default) = serve cut_requests (with_options s2 options_default).
Proof.
  cbv zeta. split; [done|]. apply (decoder_ignores_cuts cut_requests (MkSource cut_text []) (MkSource cut_text [UpTo 1; Raise Interrupted; UpTo 2; UpTo 1])).
  - done.
  - constructor.
  - repeat constructor.
  - apply Forall_fmap. apply (Forall_impl _ _ _ (bs_all_bytes _)). intros x. cbn. unfold is_byte. case_match; lia.
Defined.
