(* ===== verification/JsonTransaction.v ===== *)
(** A raw value is written whole or not at all: once the check has passed, copying its tokens
    cannot fail half way. *)

From S2P Require Import Prelude Wtf8 BaseProto JsonState JsonWire JsonDecoder JsonEncoder JsonLex JsonStrings JsonGrammar JsonNext JsonWrites JsonCopy JsonShift JsonCuts.
Import JsonState.Kind(Kind) JsonState.Token(Token).

Local Open Scope nat_scope.

(** ** The text of a string does not matter to where it ends *)

(** Two rounds, or two results, that differ in the text so far. *)
Definition same_end {A} (R : A → A → Prop) (x y : option (result Error A * Input)) : Prop :=
  match x, y with
  | Some (Ok a, i), Some (Ok b, j) => R a b ∧ i = j
  | Some (Err e, i), Some (Err e', j) => e = e' ∧ i = j
  | None, None => True
  | _, _ => False
  end.
Definition same_index (a b : nat * option bytes) : Prop := a.1 = b.1.
Definition same_round (a b : (nat * option bytes) + (nat * option bytes)) : Prop :=
  match a, b with inl a, inl b => same_index a b | inr a, inr b => same_index a b | _, _ => False end.

Lemma same_end_bind {A B} (R : A → A → Prop) (R2 : B → B → Prop) (m m' : J A) (f f' : A → J B) i :
  same_end R (m i) (m' i) → (∀ a b j, R a b → same_end R2 (f a j) (f' b j)) → same_end R2 ((m ≫= f) i) ((m' ≫= f') i).
Proof.
  intros Hm Hf. unfold mbind, st_bind. destruct (m i) as [[[a|e] j]|], (m' i) as [[[b|e'] j']|]; try done.
  destruct Hm as [HR <-]. by apply Hf.
Qed.

Lemma same_end_refl {A} (m : J A) (R : A → A → Prop) i : (∀ a, R a a) → same_end R (m i) (m i).
Proof. intros HR. by destruct (m i) as [[[]]|]. Qed.

Lemma string_escape_out p pointer allow out out' i : same_end same_index (string_escape p pointer allow out i) (string_escape p pointer allow out' i).
Proof.
  apply (same_end_bind eq); [by apply same_end_refl|]. intros b ? j <-. destruct b as [b|]; [|by split]. cbv zeta.
  destruct (_ || _); [by split|]. destruct (Z.eqb b (ch "/")); [by apply (same_end_bind eq); [apply same_end_refl|intros ? ? k _; split]|].
  do 5 (destruct (Z.eqb b _); [by split|]). destruct (Z.eqb b _); [|by split].
  apply (same_end_bind eq); [by apply same_end_refl|]. intros _ _ j2 _. apply (same_end_bind eq); [by apply same_end_refl|]. intros first ? j3 <-.
  apply (same_end_bind eq); [by apply same_end_refl|]. intros [r q] ? j4 <-. by split.
Qed.

Lemma string_round_out p pointer allow out out' i : same_end same_round (string_round pointer allow p out i) (string_round pointer allow p out' i).
Proof.
  apply (same_end_bind eq); [by apply same_end_refl|]. intros b ? j <-. destruct b as [b|]; [|by split].
  destruct (Z.eqb _ _); [by split|]. destruct (Z.eqb _ _).
  { eapply same_end_bind; [apply string_escape_out|]. intros a b' k Hab. by split. }
  destruct (b <=? 31)%Z; [by split|]. destruct (128 <=? b)%Z; [|by split].
  apply (same_end_bind eq); [by apply same_end_refl|]. intros _ _ j2 _. apply (same_end_bind eq); [by apply same_end_refl|]. intros buf ? j3 <-.
  destruct (decode_utf8 (drop p buf)) as [rune width]. apply (same_end_bind eq); [by apply same_end_refl|]. intros _ _ j4 _. by split.
Qed.

Lemma string_into_out start pointer allow keep keep' i :
  same_end same_index (string_into start pointer allow keep i) (string_into start pointer allow keep' i).
Proof.
  unfold string_into, loop. generalize (input_fuel i). intros F.
  assert (∀ st st', same_index st st' → same_end same_index (loop_fuel F (string_body pointer allow) st i) (loop_fuel F (string_body pointer allow) st' i)) as H;
    [|by apply H].
  revert i. induction F as [|F IH]; intros i [p out] [p' out'] Hp; [done|]. cbn in Hp. unfold same_index in Hp. cbn in Hp. subst p'. cbn [loop_fuel].
  eapply (same_end_bind same_round).
  - unfold string_body. apply (same_end_bind eq); [by apply same_end_refl|]. intros buf ? j <-. apply string_round_out.
  - intros [a|a] [b|b] j Hab; try done. by apply IH.
Qed.

Lemma scan_value_keep kind start o keep i token end_ i' :
  scan_value kind start o keep i = Some (Ok (token, end_), i') → ∃ full, scan_value kind start o true i = Some (Ok (full, end_), i').
Proof.
  destruct kind; cbn [scan_value]; try (intros E; by exists token). unfold mbind, st_bind.
  pose proof (string_into_out start [] (allows_invalid o) keep true i) as H.
  destruct (string_into start [] (allows_invalid o) keep i) as [[[[e t]|e] j]|], (string_into start [] (allows_invalid o) true i) as [[[[e2 t2]|e2] j2]|]; try done.
  intros [= <- <- <-]. destruct H as [H <-]. unfold same_index in H. cbn in H. subst e2. by eexists.
Qed.

(** ** A token that was skipped can be read *)

Lemma take_name_plain token start o c : top_expects_name (stack c) = false → take_name token start o c = Some (Ok tt, c).
Proof.
  unfold take_name, mbind, st_bind, gets, top_expects_name. destruct (stack c) as [|f rest]; [done|]. cbn. by intros ->.
Qed.

Lemma take_name_pos token start o i p q st :
  match take_name token start o (MkCursor i p st) with
  | Some (r, c) => ∃ st', c = MkCursor i p st' ∧ take_name token start o (MkCursor i q st) = Some (r, MkCursor i q st')
  | None => False
  end.
Proof.
  unfold take_name, mbind, st_bind, gets. cbn [stack]. destruct st as [|f rest]; [by eexists|]. destruct (expects_name f); [|by eexists].
  cbv zeta. destruct (if allows_duplicates o then _ else _) as [[] ns]; by eexists.
Qed.

(** What is left to do when the token has been scanned. *)
Definition enter (kind : Kind) (token : Token) (start end_ : nat) (o : Options) : C (Token * nat) :=
  take_name token start o;;
  count_value;;
  (if is_begin kind then modify (λ c, c <| stack := frame_new kind :: stack c |>) else mret tt);;
  set_pos end_;;
  mret (token, start).

Lemma enter_pos kind token start end_ o i p q st x c' :
  enter kind token start end_ o (MkCursor i p st) = Some (Ok x, c') → enter kind token start end_ o (MkCursor i q st) = Some (Ok x, c').
Proof.
  unfold enter, mbind, st_bind. pose proof (take_name_pos token start o i p q st) as H.
  destruct (take_name token start o (MkCursor i p st)) as [[[[]|e] c]|]; [|done..]. destruct H as (st' & -> & ->). by destruct (is_begin kind).
Qed.

Lemma enter_token kind token full start end_ o c x c' : top_expects_name (stack c) = false →
  enter kind token start end_ o c = Some (Ok x, c') → x = (token, start) ∧ enter kind full start end_ o c = Some (Ok (full, start), c').
Proof.
  intros Hn. unfold enter, mbind, st_bind. rewrite !take_name_plain by done. destruct (is_begin kind); by intros [= <- <-].
Qed.

Lemma next_at_full o d keep start i p q st token s c' :
  next_at o d keep st start (MkCursor i p st) = Some (Ok (token, s), c') →
  ∃ full, ∀ d', d' <= d → next_at o d' true st start (MkCursor i q st) = Some (Ok (full, s), c').
Proof.
  intros E. unfold next_at, mbind at 1, st_bind at 1, on_input at 1 in E. unfold next_at, mbind at 1, st_bind at 1, on_input at 1. cbn [input] in *.
  destruct (byte_at start i) as [[[b|e] j]|]; [|done..]. destruct b as [b|]; [|done]. cbv zeta in *.
  change ((MkCursor i p st) <| input := j |>) with (MkCursor j p st) in E. change ((MkCursor i q st) <| input := j |>) with (MkCursor j q st).
  destruct (Kind.is_end (Kind.from_byte b)).
  { destruct (negb (top_is _ _)); [done|]. destruct (_ && _); [done|]. injection E as <- <- <-. by eexists. }
  destruct (top_expects_name st && _); [done|].
  destruct (is_begin (Kind.from_byte b) && too_deep (d + length st)) eqn:Ed; [done|].
  assert (∀ d', d' <= d → is_begin (Kind.from_byte b) && too_deep (d' + length st) = false) as Hd.
  { intros d' Hd. destruct (is_begin _); [|done]. cbn [andb] in *. unfold too_deep in *. apply Z.leb_gt in Ed. apply Z.leb_gt. lia. }
  unfold mbind at 1, st_bind at 1, on_input in E. unfold mbind at 1, st_bind at 1, on_input. cbn [input] in *. cbn [orb].
  assert (∃ tok end_ j2, scan_value (Kind.from_byte b) start o (keep || top_expects_name st) j = Some (Ok (tok, end_), j2)
    ∧ enter (Kind.from_byte b) tok start end_ o (MkCursor j2 p st) = Some (Ok (token, s), c')) as (tok & end_ & j2 & Es & E').
  { destruct (scan_value _ _ _ _ j) as [[[[tok end_]|e] j2]|]; [|done..]. by exists tok, end_, j2. }
  clear E. apply (enter_pos _ _ _ _ _ _ _ q) in E'. destruct (top_expects_name st) eqn:En.
  - rewrite orb_true_r in Es. exists tok. intros d' Hd'. rewrite Hd by done. cbn [input].
    assert (tok = token) as -> by (unfold enter, mbind, st_bind in E'; destruct (take_name _ _ _ _) as [[[[]|] ?]|]; [|done..]; destruct (is_begin _); by injection E').
    rewrite Es. exact E'.
  - destruct (scan_value_keep _ _ _ _ _ _ _ _ Es) as (full & Ef). exists full. intros d' Hd'. rewrite Hd by done. cbn [input]. rewrite Ef.
    destruct (enter_token _ _ full _ _ _ (MkCursor j2 q st) _ _ En E') as [[= -> ->] Hf]. exact Hf.
Qed.

Lemma next_inner_at o d keep i p st : next_inner o d keep (MkCursor i p st) =
  match prepare_inner p st i with
  | Some (Ok start, i) => next_at o d keep st start (MkCursor i p st)
  | Some (Err e, i) => Some (Err e, MkCursor i p st)
  | None => None
  end.
Proof. unfold next_inner, mbind, st_bind, gets, on_input. cbn [stack pos input]. by destruct (prepare_inner p st i) as [[[]]|]. Qed.

Lemma next_ok_inner o d keep c x c' : next o d keep c = Some (Ok x, c') ↔ next_inner o d keep c = Some (Ok x, c').
Proof. unfold next. destruct (next_inner o d keep c) as [[[a|e] c2]|]; done. Qed.

(** A token that has been read, kept or not, is read again from the same place of the text. *)
Lemma next_again b o d d' keep i i2 p st token s c' :
  all_bytes b → views b (length b) i → views b (length b) i2 → p <= length b → stack_ok (allows_duplicates o) st → d' <= d →
  next o d keep (MkCursor i p st) = Some (Ok (token, s), c') →
  ∃ full i2', next o d' true (MkCursor i2 p st) = Some (Ok (full, s), MkCursor i2' (pos c') (stack c'))
    ∧ views b (length b) (input c') ∧ views b (length b) i2' ∧ p < pos c' ∧ pos c' <= length b
    ∧ grammar_step (allows_duplicates o) d full st = Some (stack c') ∧ well_spelled full.
Proof.
  intros Hb Hv Hv2 Hp Hst Hd E. apply next_ok_inner in E. rewrite next_inner_at in E.
  destruct (prepare_inner p st i) as [[[start|e] i1]|] eqn:Ep; [|done..]. destruct (next_at_full _ _ _ _ _ _ p _ _ _ _ E) as (full & Hfull).
  assert (∀ d', d' <= d → next o d' true (MkCursor i p st) = Some (Ok (full, s), c')) as Hn.
  { intros d2 Hd2. apply next_ok_inner. rewrite next_inner_at, Ep. by apply Hfull. }
  assert (∀ d', d' <= d → ∃ i2' p' st' k', next o d' true (MkCursor i2 p st) = Some (Ok (full, s), MkCursor i2' p' st') ∧ p' = pos c' ∧ st' = stack c'
    ∧ views b k' (input c') ∧ views b k' i2' ∧ length b <= k' ∧ grammar_step (allows_duplicates o) d' full st = Some st' ∧ well_spelled full ∧ p < p' ∧ p' <= length b) as H.
  { intros d2 Hd2. destruct (cs_next b o d2 Hb (length b) p st true (λ r p' st' k' nc, next_post b o d2 true p st r p' st' nc) Hst Hp) as (r & p' & st' & k' & nc & H & Hk & HQ); [done|].
    destruct (H i Hv) as (i' & E1 & Hv' & _). rewrite (Hn d2 Hd2) in E1. injection E1 as <- ->.
    destruct (H i2 Hv2) as (i2' & E2 & Hv2' & _). destruct HQ as (full' & [Hw Ht Hg (nc' & Hpos & _) [H1 H2] _ _]). cbn in Ht. subst full'.
    apply position_of_le in Hpos. exists i2', p', st', k'. split_and!; try done. lia. }
  destruct (H d' Hd) as (i2' & p' & st' & k' & E2 & -> & -> & Hv' & Hv2' & Hk & _ & Hw & Hlt & Hle).
  destruct (H d ltac:(lia)) as (_ & p' & st' & _ & _ & -> & -> & _ & _ & _ & Hg & _).
  exists full, i2'. split_and!; try done; by eapply views_weaken.
Qed.

(** ** Copying what has been checked *)

(** [d] stands at [p] of [b], with the stack [st]: as a decoder that has the whole text does. *)
Definition plain (b : bytes) (i : Input) (p : nat) (st : list Frame) (d : Decoder) : Decoder :=
  MkDecoder (MkCursor i p st) 0 (options d) (root_count d) (previous_start d) (base_depth d).
Definition follows (b : bytes) (d : Decoder) (p : nat) (st : list Frame) : Prop :=
  ∃ n i, twin_at b (length b) n 0 d (plain b i p st d).

Lemma follows_slice b o : all_bytes b → follows b (from_slice_with_options b o) 0 [].
Proof.
  intros Hb. exists 0, (from_slice b). pose proof (views_slice b) as Hv.
  split; cbn; rewrite ?Nat.sub_0_r; (done || lia || constructor).
Qed.

Lemma follows_decodes b d p st : follows b d p st → decodes p (drop p b) st d.
Proof.
  intros (n & i & [Hb Hv1 Hv2 Hp Hr Hl E1 E2 Est Hnc Eset Hst]). cbn in Hp, Est. split; [|done|unfold input_offset; lia].
  exists (drop n b), (length b - n). split_and!; [by apply Forall_drop|done| |lia]. rewrite drop_drop. by rewrite Hp.
Qed.

Lemma read_again b dd p st d keep i token s c' :
  follows b dd p st → views b (length b) i → base_depth dd <= d →
  next (options dd) d keep (MkCursor i p st) = Some (Ok (token, s), c') →
  ∃ full dd', read_token dd = Some (Ok full, dd') ∧ follows b dd' (pos c') (stack c') ∧ settings dd' = settings dd
    ∧ views b (length b) (input c') ∧ p < pos c' ∧ pos c' <= length b
    ∧ grammar_step (allows_duplicates (options dd)) d full st = Some (stack c') ∧ well_spelled full.
Proof.
  intros (n & i2 & Htw) Hv Hd E. pose proof Htw as [Hb Hv1 Hv2 Hp Hr Hl E1 E2 Est Hnc Eset Hst]. cbn in Hp, Est, Hv2, Hnc. rewrite Nat.sub_0_r in Hv2.
  rewrite Est in Hst.
  destruct (next_again b (options dd) d (base_depth dd) keep i i2 p st token s c' Hb Hv Hv2 ltac:(lia) Hst Hd E)
    as (full & i2' & En & Hvc & Hv2' & Hlt & Hle & Hg & Hw).
  destruct (compact_views b (length b) n dd Hv1 Hr E1) as (d1 & n1 & C1 & Hvd & Hpd & Bd & Sd & Nd & Od). injection Od as Oo Ob Or Op.
  assert (twin_at b (length b) n1 0 d1 (plain b i2 p st dd)) as Htw1.
  { split; try done; cbn; try lia; [by rewrite Nat.sub_0_r|by rewrite Sd|by rewrite Nd|unfold settings_of; cbn; congruence|by rewrite Oo, Sd, Est]. }
  destruct (twin_cursor (next (options d1) (base_depth d1) true) _ (λ _ _, True) _ _ _ _ _ _ Htw1 (λ n, cshifts_next n _ _ _))
    as (r & r1 & r2 & f1 & f2 & k' & F1 & F2 & Hf & M1 & M2 & _ & S1 & S2 & Hk); [intros; by apply next_settled|].
  assert (on_cursor (next (options d1) (base_depth d1) true) (plain b i2 p st dd) = Some (Ok (full, s), plain b i2' (pos c') (stack c') dd)) as F2'.
  { unfold on_cursor. cbn [cursor plain]. rewrite Oo, Ob, En. done. }
  rewrite F2' in F2. injection F2 as <- <-.
  destruct (read_token_steps _ _ _ _ C1 F1) as (d2 & R & Cd2 & Bd2 & Sd2 & _ & _).
  destruct r as [[t0 s0]|e0]; [|done]. destruct r1 as [[t1 s1]|e1]; [|done]. cbn in M1, M2. destruct M1 as [<- M1], M2 as [-> M2].
  exists full, d2. split_and!; [done| | |done|done|done|done|done].
  - exists n1, i2'. pose proof (tw_length _ _ _ _ _ _ Hf) as Hl'. assert (k' = length b) as -> by lia.
    destruct Hf as [? ? ? ? ? ? ? ? ? ? Hset ?]. injection Sd2 as So2 Sb2. injection S1 as S1o S1b _ _. unfold d_stack in *. split; unfold d_stack; rewrite ?Cd2, ?Bd2, ?So2; done.
  - rewrite Sd2. unfold settings. injection S1 as S1o S1b _ _. congruence.
Qed.

(** ** When the writer fails *)

(** A write that takes nothing, or that fails for more than an interruption. *)
Definition failure (event : SinkEvent) : Prop := event = Take 0 ∨ ∃ error, event = Refuse error ∧ error ≠ Interrupted.
Definition writer_fails (e : Encoder) : Prop := ∃ s event, sink e = Some s ∧ event ∈ sink_events s ∧ failure event.

Definition write_error (r : result Error ()) : Prop := ∃ cause, r = Err (Io (bs "write") cause).

(** How handing bytes to the writer ends: an error is the writer's. *)
Definition handed_over (r : result Error ()) (e e' : Encoder) : Prop :=
  (writer_fails e' → writer_fails e) ∧ (sink e = None → sink e' = None) ∧ flushed_ok e'
  ∧ (r = Ok tt ∨ write_error r ∧ writer_fails e).

Lemma flush_loop_failure fuel s e r e' : flush_loop fuel s e = Some (r, e') →
  (∃ s', sink e' = Some s' ∧ ∀ event, event ∈ sink_events s' → event ∈ sink_events s)
  ∧ (r = Ok tt ∨ write_error r ∧ ∃ event, event ∈ sink_events s ∧ failure event).
Proof.
  revert s e. induction fuel as [|fuel IH]; intros s e; cbn [flush_loop]; [done|].
  destruct (Nat.ltb_spec (flushed e) (length (out e))) as [Hlt|]; [|intros [= <- <-]; split; [by exists s|by left]].
  assert (∀ s1 e1, (∀ event, event ∈ sink_events s1 → event ∈ sink_events s) → flush_loop fuel s1 e1 = Some (r, e') →
    (∃ s', sink e' = Some s' ∧ ∀ event, event ∈ sink_events s' → event ∈ sink_events s)
    ∧ (r = Ok tt ∨ write_error r ∧ ∃ event, event ∈ sink_events s ∧ failure event)) as Hloop.
  { intros s1 e1 Hin (( s' & Hs' & Hev) & Hr)%IH. split; [exists s'; split; [done|auto]|].
    destruct Hr as [|(Hw & event & Hx & Hf)]; [by left|right; eauto]. }
  destruct s as [rec [|event evs]]; cbn [sink_write sink_events received].
  - rewrite length_drop. destruct (length (out e) - flushed e) eqn:E; [lia|]. by apply Hloop.
  - assert (∀ ev, ev ∈ evs → ev ∈ event :: evs) as Hin by (intros; by right). destruct event as [n|err].
    + destruct (n `min` length _) eqn:E.
      * intros [= <- <-]. split; [by eexists|]. right. split; [by eexists|]. exists (Take n). split; [left|]. left.
        rewrite length_drop in E. f_equal. lia.
      * by apply Hloop.
    + destruct err; [by apply Hloop|..]; intros [= <- <-]; (split; [by eexists|]); right; (split; [by eexists|]);
        (eexists; split; [left|]); right; by eexists.
Qed.

Lemma flush_handed e : flushed_ok e →
  ∃ r e', flush e = Some (r, e') ∧ produced e' = produced e ∧ kept e' = kept e ∧ handed_over r e e'.
Proof.
  intros Hf. destruct (flush_spec e Hf) as (r & e' & E & Hp & Hf' & Hk). exists r, e'. split_and!; [done..|].
  unfold flush in E. destruct (sink e) as [s|] eqn:Es.
  - apply flush_loop_failure in E as ((s' & Hs' & Hev) & Hr). split_and!; [|congruence|done|].
    + intros (s1 & event & Hs1 & Hin & Hfail). exists s, event. split_and!; [done|apply Hev; congruence|done].
    + destruct Hr as [|(Hw & event & Hin & Hfail)]; [by left|]. right. split; [done|]. by exists s, event.
  - injection E as <- <-. split_and!; [|done|done|by left]. intros (s1 & ? & Hs1 & _). cbn in Hs1. congruence.
Qed.

Lemma handed_from e0 r e e' : sink e0 = sink e → handed_over r e e' → handed_over r e0 e'.
Proof. intros Hs. unfold handed_over, writer_fails. by rewrite Hs. Qed.

Lemma settle_handed e : flushed_ok e →
  ∃ r e', settle e = Some (r, e') ∧ produced e' = produced e ++ line_end e (frames e) ∧ kept e' = kept e ∧ handed_over r e e'.
Proof.
  intros Hf. unfold settle, line_end. destruct (bool_decide _); cbn [andb].
  - destruct (omit_top_level_newline e) eqn:Eo; cbn [negb].
    + destruct (flush_handed e Hf) as (r & e' & H). exists r, e'. by rewrite app_nil_r.
    + destruct (produced_append e [10]%Z Hf) as [Hp' Hf']. destruct (flush_handed _ Hf') as (r & e' & E & Hp & Hk & Hh).
      exists r, e'. split_and!; [done|by rewrite Hp|done|by eapply handed_from].
  - rewrite app_nil_r. destruct (_ <=? _)%Z; [by apply flush_handed|]. exists (Ok tt), e. split_and!; try done. split_and!; try done. by left.
Qed.

Lemma write_token_handed token e st :
  string_bytes token → stack_ok (allows_duplicates (opts e)) (frames e) → flushed_ok e → write_step e token = Some st →
  ∃ r e', write_token token e = Some (r, e') ∧ produced e `prefix_of` produced e' ∧ frames e' = st ∧ opts e' = opts e
    ∧ roots e' = (if bool_decide (frames e = []) then S (roots e) else roots e) ∧ handed_over r e e'.
Proof.
  intros Hb Hst Hf Hstep. pose proof (append_token_spec token e Hb Hst) as H. rewrite Hstep in H. destruct H as [E _].
  unfold write_token. rewrite E. destruct (appended_ok e token st Hf) as [Hp Hf'].
  destruct (settle_handed _ Hf') as (r & e' & -> & Hp' & Hk & Hh). injection Hk as K1 K2 K3 _. exists r, e'.
  split_and!; [done| |done|done|done|by eapply handed_from]. rewrite Hp', Hp, <-app_assoc. by eexists.
Qed.

Lemma append_value_handed b e : flushed_ok e →
  ∃ r e', append_value b e = Some (r, e') ∧ produced e `prefix_of` produced e' ∧ frames e' = counted_up (frames e)
    ∧ roots e' = (if bool_decide (frames e = []) then S (roots e) else roots e) ∧ handed_over r e e'.
Proof.
  intros Hf. unfold append_value. set (text := prefix_bytes _ ++ b). destruct (produced_append e text Hf) as [Hp Hf'].
  set (e1 := if bool_decide _ then _ else _).
  assert (flushed_ok e1 ∧ produced e1 = produced e ++ text ∧ sink e1 = sink e ∧ frames e1 = counted_up (frames e)
    ∧ roots e1 = if bool_decide (frames e = []) then S (roots e) else roots e) as (Hf1 & Hp1 & Hs1 & Hfr & Hro).
  { subst e1. change (frames (e <| out := out e ++ text |>)) with (frames e).
    destruct (bool_decide_reflect (frames e = [])) as [En|En]; split_and!; try done. cbn. by rewrite En. }
  destruct (settle_handed _ Hf1) as (r & e' & -> & Hp' & Hk & Hh). injection Hk as K1 _ K3 _. exists r, e'.
  split_and!; [done| |congruence|congruence|by eapply handed_from]. rewrite Hp', Hp1, <-app_assoc. by eexists.
Qed.

(** White space is all that is behind [p]. *)
Definition ends_at (b : bytes) (p : nat) : Prop := past_space b p = length b.

Lemma ends_at_spaces b p : p <= length b → ends_at b p → spaces (drop p b).
Proof.
  intros Hp He. unfold ends_at, past_space in He. pose proof (run_take is_space (drop p b)) as H. rewrite take_ge in H; [done|]. rewrite length_drop. lia.
Qed.

(** The frames around the value, while the stack of the value is on top of them. *)
Record copied (e e' : Encoder) (outer : list Frame) : Prop := {
  c_frames : frames e' = outer;
  c_roots : roots e' = roots e;
}.

Lemma copy_again b o d F i p st p_end c_end dd e outer fuel :
  skip_frames F o d (MkCursor i p st) = Some (Ok tt, c_end) → pos c_end = p_end → ends_at b p_end →
  views b (length b) i → follows b dd p st → base_depth dd = 0 → options dd = o → opts e = o → flushed_ok e →
  frames e = st ++ outer → length outer = d → stack_ok (allows_duplicates o) (frames e) → p <= length b → length b - p < fuel →
  ∃ r e', copy_tokens fuel dd e = Some (r, e') ∧ handed_over r e e' ∧ produced e `prefix_of` produced e' ∧ (r = Ok tt → copied e e' outer).
Proof.
  revert i p st dd e fuel. induction F as [|F IH]; intros i p st dd e fuel E Ep Hend Hv Hfol Hbd Ho Hoe Hs Hf Hl Hst Hp Hfuel; [done|].
  destruct fuel as [|fuel]; [lia|]. cbn [skip_frames] in E. unfold mbind at 1, st_bind at 1, gets in E. cbn [stack] in E. cbn [copy_tokens].
  destruct (bool_decide_reflect (st = [])) as [->|Hne].
  { injection E as <-. cbn in Ep. subst p_end.
    destruct (read_token_end _ _ _ (follows_decodes _ _ _ _ Hfol) (ends_at_spaces _ _ Hp Hend)) as (d' & ->). exists (Ok tt), e.
    split_and!; [done| |done|by split]. split_and!; try done. by left. }
  unfold mbind at 1, st_bind at 1 in E. destruct (next o d false (MkCursor i p st)) as [[[[token s]|err] c']|] eqn:En; [|done..].
  destruct (read_again b dd p st d false i token s c' Hfol Hv ltac:(lia) ltac:(by rewrite Ho)) as (full & dd' & -> & Hfol' & Sdd & Hv' & Hlt & Hle & Hg & Hw).
  injection Sdd as So Sb. rewrite Ho in Hg. destruct (well_spelled_clean full (allows_invalid (opts e)) Hw) as [Hclean Hwr].
  assert (write_step e full = Some (stack c' ++ outer)) as Hstep.
  { unfold write_step. rewrite Hwr, Hclean, Hf, Hoe. apply grammar_step_inside; [done|]. by rewrite Hl. }
  destruct (write_token_handed full e _ ltac:(by apply spelled_bytes) ltac:(by rewrite Hoe) Hs Hstep) as (r1 & e1 & -> & Hout & Hf1 & Ho1 & Hr1 & Hh).
  pose proof Hh as (Hfail & Hnone & Hs1 & Hr). destruct Hr as [->|[(cause & ->) Hw1]]; [|exists (Err (Io (bs "write") cause)), e1; by split_and!].
  destruct c' as [i' p' st']. cbn [pos stack input] in *.
  destruct (IH i' p' st' dd' e1 fuel E Ep Hend Hv' Hfol') as (r & e2 & -> & (G1 & G2 & G3 & G4) & Hp2 & Hc); [congruence|congruence|congruence|done|done|done| |done|lia|].
  { rewrite Hf1. eapply (grammar_step_ok _ 0); [exact Hst|]. rewrite Hf. apply grammar_step_inside; [done|]. by rewrite Hl. }
  exists r, e2. split_and!; [done| |by etrans|].
  - split_and!; [auto|auto|done|]. destruct G4 as [|[? ?]]; [by left|right; auto].
  - intros Er. destruct (Hc Er) as [C1 C2]. split; [done|]. rewrite C2, Hr1, Hf. by destruct st.
Qed.

(** The frames under a value that has been started. *)
Definition level (st : list Frame) (roots : nat) : nat * nat := (length st, from_option count roots (head st)).

Lemma first_frames dups d d' token st fr fr' : grammar_step dups d token [] = Some st → grammar_step dups d' token fr = Some fr' →
  ∃ outer, fr' = st ++ outer ∧ length outer = length fr ∧ (fr ≠ [] → ∀ r r', level outer r = (length fr, S (level fr r').2)) ∧ (fr = [] → outer = []).
Proof.
  unfold grammar_step. destruct (Kind.is_end (Token.kind token)); [done|]. change (top_expects_name []) with false. cbn [andb].
  destruct (is_begin _ && too_deep (d + _)); [done|]. cbn [mbind option_bind on_top]. intros [= <-].
  destruct (top_expects_name fr && _); [done|]. destruct (is_begin _ && _); [done|].
  destruct fr as [|f fr]; cbn [mbind option_bind on_top]; [intros [= <-]; exists []; rewrite app_nil_r; by split_and!|].
  assert (∀ g, (let st := on_top (λ f, f <| count := S (count f) |>) (g :: fr) in if is_begin (Token.kind token) then frame_new (Token.kind token) :: st else st) = fr' → count g = count f →
    ∃ outer, fr' = (if is_begin (Token.kind token) then [frame_new (Token.kind token)] else []) ++ outer ∧ length outer = length (f :: fr)
      ∧ (f :: fr ≠ [] → ∀ r r', level outer r = (length (f :: fr), S (level (f :: fr) r').2)) ∧ (f :: fr = [] → outer = [])) as H.
  { intros g <- Hc. exists (g <| count := S (count g) |> :: fr). split_and!; [by destruct (is_begin _)|done| |done]. intros _ r r'. unfold level. cbn. by rewrite Hc. }
  destruct (expects_name f).
  - unfold name_step. destruct (if dups then _ else _) as [[] ns]; [|done]. cbn. intros [= E]. eapply H; [exact E|done].
  - cbn. intros [= E]. by apply (H f E).
Qed.

Lemma space_here q i c : i_bytes i !! q = Some c → is_space c = false → space q i = Some (Ok q, i).
Proof.
  intros Hc Hs. unfold space, mbind, st_bind, skip_while, loop, input_fuel. rewrite Nat.add_comm. cbn [Nat.add loop_fuel].
  unfold mbind, st_bind, byte_at. rewrite Hc. cbn [from_option]. rewrite Hs. unfold mret, st_ret. by rewrite Nat.eqb_refl.
Qed.

(** What the check of a raw value has found: a first token, read from the start of the text, and
    what closes its frames. *)
Lemma checked_tokens b o d d' :
  all_bytes b → (skip_value;; finish) (from_slice_with_options b o <| base_depth := d |>) = Some (Ok tt, d') →
  ∃ first s c F c_end, next o d true (MkCursor (from_slice b) 0 []) = Some (Ok (first, s), c)
    ∧ views b (length b) (input c) ∧ skip_frames F o d c = Some (Ok tt, c_end) ∧ pos c_end <= length b ∧ ends_at b (pos c_end).
Proof.
  intros Hb. rewrite skip_finish, Nat.add_0_r. pose proof (views_slice b) as Hv.
  destruct (settles_prepare b (length b) 0 [] (λ r k' nc, r = Ok (past_space b 0)))
    as (r0 & k0 & nc0 & H0 & Hk0 & ->); [cbn; by intros k' i nc _ _ [= <- <-]|done|].
  destruct (H0 _ Hv) as (i0 & E0 & Hv0 & _). unfold prepare, map_err. rewrite E0.
  pose proof (past_space_bound b 0 ltac:(lia)) as Hbound. set (start := past_space b 0) in *.
  apply (views_weaken _ _ (length b)) in Hv0; [|done].
  unfold value_tokens. unfold mbind at 1, st_bind at 1. destruct (next o d true (MkCursor i0 start [])) as [[[[first s]|e] c]|] eqn:En; [|done..].
  unfold mbind at 1, st_bind at 1, gets at 1. unfold mbind at 1, st_bind at 1.
  destruct (skip_frames (input_fuel (input c)) o d c) as [[[[]|e] c_end]|] eqn:Es; [|done..].
  unfold mbind at 1, st_bind at 1, gets at 1, mret, st_ret.
  destruct (next_again b o d d true i0 i0 start [] first s c Hb Hv0 Hv0 Hbound ltac:(constructor) ltac:(lia) En) as (full & i2 & _ & Hvc & _ & Hlt & Hle & _).
  assert (∃ x, b !! start = Some x) as [x Hx] by (apply lookup_lt_is_Some_2; lia).
  assert (is_space x = false) as Hsp.
  { pose proof (run_stop is_space b) as H. unfold start, past_space in Hx. rewrite drop_0, Nat.add_0_l in Hx. rewrite Hx in H. exact H. }
  assert (space start i0 = Some (Ok start, i0)) as Hhere.
  { eapply space_here; [|exact Hsp]. rewrite (views_buffered _ _ _ start Hv0) by lia. exact Hx. }
  apply next_ok_inner in En. rewrite next_inner_at in En.
  assert (prepare_inner start [] i0 = Some (Ok start, i0)) as Ep by (unfold prepare_inner, mbind, st_bind; by rewrite Hhere).
  rewrite Ep in En. destruct (next_at_full _ _ _ _ _ _ 0 _ _ _ _ En) as (full' & Hfull).
  assert (next o d true (MkCursor (from_slice b) 0 []) = Some (Ok (full', s), c)) as En0.
  { apply next_ok_inner. rewrite next_inner_at, E0. by apply Hfull. }
  destruct c as [i1 p1 st1]. cbn [input pos stack] in *.
  destruct (next_again b o d d true i0 i0 start [] first s (MkCursor i1 p1 st1) Hb Hv0 Hv0 Hbound ltac:(constructor) ltac:(lia)) as (full2 & ? & _ & _ & _ & _ & _ & Hg & _).
  { apply next_ok_inner. by rewrite next_inner_at, Ep. }
  cbn [stack] in Hg. apply (grammar_step_ok _ _ _ []) in Hg; [|constructor].
  destruct (cs_skip_frames b o Hb (input_fuel i1) d (length b) p1 st1 (λ r p' st' k' nc, r = Ok tt → p' <= length b)) as (r2 & p2 & st2 & k2 & nc2 & H2 & Hk2 & HQ2);
    [done|done|done|unfold input_fuel; rewrite (views_length _ _ _ Hvc); lia|by intros p' k' nc _ _ (_ & ? & _)|done|].
  destruct (H2 i1 Hvc) as (i2' & E2 & Hv2 & _). rewrite Es in E2. injection E2 as <- ->. specialize (HQ2 eq_refl). cbn [input pos].
  destruct (settles_space b k2 p2 (λ r k' nc, r = Ok (past_space b p2))) as (r3 & k3 & nc3 & H3 & Hk3 & ->); [done|].
  destruct (H3 _ Hv2) as (i3 & -> & Hv3 & _).
  destruct (settles_at b k3 (past_space b p2) (λ r k' nc, r = Ok (b !! past_space b p2))) as (r4 & k4 & nc4 & H4 & Hk4 & ->); [done|].
  destruct (H4 _ Hv3) as (i4 & -> & _ & _). destruct (b !! past_space b p2) eqn:El; [done|]. intros _.
  exists full', s, (MkCursor i1 p1 st1), (input_fuel i1), (MkCursor i2' p2 st2). split_and!; [done|done|done|done|].
  apply lookup_ge_None in El. unfold ends_at. cbn [pos]. pose proof (past_space_bound b p2 HQ2). lia.
Qed.

Lemma counted_up_level e e' : frames e' = counted_up (frames e) →
  roots e' = (if bool_decide (frames e = []) then S (roots e) else roots e) →
  e_depth_length e' = (length (frames e), S (e_depth_length e).2).
Proof. intros Hf Hr. unfold e_depth_length. rewrite Hf, Hr. by destruct (frames e). Qed.

(** The output, what the writer has and what can be asked are as they were. *)
Definition untouched (e e' : Encoder) : Prop :=
  out e' = out e ∧ sink e' = sink e ∧ produced e' = produced e ∧ e_depth_length e' = e_depth_length e ∧ e_stack_pointer e' = e_stack_pointer e.

(** [C4] A raw value is written whole or not at all, however deep in it the fault is, unless
    the writer behind the encoder fails. If it is written, what has been produced (the bytes
    that the writer has and those still to be handed over) has grown behind what it was, and the
    frame around counts one value more. If it is refused, the output, what the writer has, the
    counts and the pointers are as they were. Otherwise the error is a write error, the writer
    is one that takes nothing or fails at some write, and no byte produced before is lost; what
    has been appended of the value stays. Nothing of this depends on how the writer takes the
    bytes, or on there being one. *)
Theorem raw_value_whole_or_not_at_all b e :
  all_bytes b → stack_ok (allows_duplicates (opts e)) (frames e) → flushed_ok e →
  ∃ r e', write_value b e = Some (r, e') ∧ flushed_ok e' ∧ (sink e = None → sink e' = None) ∧
  match r with
  | Ok _ => produced e `prefix_of` produced e' ∧ e_depth_length e' = (length (frames e), S (e_depth_length e).2)
  | Err _ => untouched e e' ∨ write_error r ∧ writer_fails e ∧ produced e `prefix_of` produced e'
  end.
Proof.
  intros Hb Hst Hs. destruct (checked_value b (opts e) (length (frames e)) Hb) as (r & d1 & Ec & Hval). unfold write_value. rewrite Ec.
  destruct r as [[]|err]; [|eexists _, e; split_and!; try done; by left].
  assert (∀ r e' (P : Prop), handed_over r e e' → produced e `prefix_of` produced e' → (r = Ok tt → P) →
    flushed_ok e' ∧ (sink e = None → sink e' = None) ∧
    match r with Ok _ => produced e `prefix_of` produced e' ∧ P
    | Err _ => untouched e e' ∨ write_error r ∧ writer_fails e ∧ produced e `prefix_of` produced e' end) as Hdone.
  { intros r e' P (_ & H2 & H3 & H4) Hp HP. split_and!; [done|done|]. destruct H4 as [->|[(cause & ->) Hf]]; [auto|]. right. split_and!; [by eexists|done|done]. }
  destruct (is_canonical d1 && bool_decide (indent (opts e) = None) && negb (top_expects_name (frames e))) eqn:Efast.
  - destruct (append_value_handed b e Hs) as (r & e1 & E1 & Ho & Hf & Hr & Hh).
    exists r, e1. split; [done|]. apply Hdone; [done|done|]. intros _. by apply counted_up_level.
  - destruct (checked_tokens _ _ _ _ Hb Ec) as (first & s & c & F & c_end & En & Hvc & Es & Hle & Hend).
    set (dd := from_slice_with_options b (opts e)).
    destruct (read_again b dd 0 [] (length (frames e)) true (from_slice b) first s c (follows_slice _ _ Hb) (views_slice b) ltac:(cbn; lia) En)
      as (full & dd' & Er & Hfol & Sdd & _ & Hlt & Hlc & Hg & Hw). injection Sdd as So Sb. cbn in So, Sb.
    replace (length b + 2) with (S (length b + 1)) by lia. cbn [copy_tokens]. fold dd. rewrite Er.
    destruct (well_spelled_clean full (allows_invalid (opts e)) Hw) as [Hclean Hwr].
    destruct (write_step e full) as [fr'|] eqn:Estep.
    + destruct (write_token_handed full e fr' ltac:(by apply spelled_bytes) Hst Hs Estep) as (r1 & e1 & -> & Hout & Hf1 & Ho1 & Hr1 & Hh).
      pose proof Hh as (Hfail & Hnone & Hs1 & Hr). destruct Hr as [->|[(cause & ->) Hw1]];
        [|eexists _, e1; split; [done|]; apply (Hdone (Err (Io (bs "write") cause)) e1 True); [done|done|by intros]].
      unfold write_step in Estep. rewrite Hwr, Hclean in Estep.
      destruct (first_frames _ _ _ _ _ _ _ Hg Estep) as (outer & Eo & Hlo & Hlevel & Hnil).
      destruct c as [i1 p1 st1]. cbn [stack pos input] in *.
      destruct (copy_again b (opts e) (length (frames e)) F i1 p1 st1 _ c_end dd' e1 outer (length b + 1) Es eq_refl Hend Hvc Hfol Sb So Ho1 Hs1)
        as (r & e2 & E2 & (G1 & G2 & G3 & G4) & Hp2 & Hc); [by rewrite Hf1|done|rewrite Hf1; by eapply grammar_step_ok|done|lia|].
      exists r, e2. split; [done|]. apply Hdone; [|by etrans|].
      * split_and!; [auto|auto|done|]. destruct G4 as [|[? ?]]; [by left|right; auto].
      * intros Eok. destruct (Hc Eok) as [C1 C2]. unfold e_depth_length. rewrite C1, C2, Hr1.
        destruct (frames e) as [|f fr] eqn:Ef; [by rewrite Hnil by done|]. exact (Hlevel ltac:(done) _ 0).
    + pose proof (write_token_spec full e ltac:(by apply spelled_bytes) Hst Hs) as H. rewrite Estep in H. destruct H as (err & st & -> & Hsim).
      eexists (Err err), _. split; [done|]. split_and!; [done|done|]. left. split_and!; [done|done|done| |cbn; by eapply pointer_sim].
      unfold e_depth_length. cbn. rewrite (Forall2_length _ _ _ Hsim). f_equal. destruct Hsim as [|f g ? ? [_ Hc _ _] _]; [done|]. exact Hc.
Qed.

(** An encoder after [[1] whose writer takes a byte and then fails. *)
Definition failing : Encoder :=
  MkEncoder (bs "[1") 0 0 0 [MkFrame Kind.BeginArray 1 [] names_default] options_default (Some (MkSink [] [Take 1; Refuse Interrupted; Take 0])) false.
Definition long_value : bytes := bs "[ " ++ replicate 5000 (ch "1") ++ bs "]".

(** A broken object, a sound array, and a value that is too long to stay in the buffer. *)
Lemma raw_value_whole_or_not_at_all_witness :
  let holds b e := ∃ r e', write_value b e = Some (r, e') ∧ flushed_ok e' ∧ (sink e = None → sink e' = None) ∧ match r with
    | Ok _ => produced e `prefix_of` produced e' ∧ e_depth_length e' = (length (frames e), S (e_depth_length e).2)
    | Err _ => untouched e e' ∨ write_error r ∧ writer_fails e ∧ produced e `prefix_of` produced e' end in
  (sink copying = None ∧ holds (bs "{ ") copying ∧ holds (bs " [ 1, { } ] ") copying)
  ∧ holds (bs "{ ") failing ∧ holds (bs " [ 1, { } ] ") failing ∧ holds long_value failing.
Proof.
  cbv zeta. assert (stack_ok (allows_duplicates (opts copying)) (frames copying)) as Hst.
  { constructor; [|constructor]. split; [done..|]. intros _. exists []. split; apply names_default_ok. }
  assert (all_bytes long_value) as Hlong.
  { apply Forall_app. split; [apply bs_all_bytes|]. apply Forall_app. split; [|apply bs_all_bytes].
    apply Forall_replicate. by vm_compute. }
  assert (flushed_ok copying ∧ flushed_ok failing) as [H1 H2] by (split; apply Nat.leb_le; by vm_compute).
  split_and!; [done|apply (raw_value_whole_or_not_at_all (bs "{ ") copying)|apply (raw_value_whole_or_not_at_all (bs " [ 1, { } ] ") copying)
    |apply (raw_value_whole_or_not_at_all (bs "{ ") failing)|apply (raw_value_whole_or_not_at_all (bs " [ 1, { } ] ") failing)
    |apply (raw_value_whole_or_not_at_all long_value failing)]; done || apply bs_all_bytes.
Defined.
